(* ===== verification/_CoqProject ===== *)
-Q . S2P
Prelude.v
RelayProto.v
RelayStun.v
RustStr.v
Workflow.v
CardPolicy.v
Json.v
Pipeline.v
Todo.v
Store.v
StoreProps.v
Board.v
BoardProps.v
LockMap.v
Schedule.v
Gregorian.v
ScheduleProps.v
Repeating.v
RepeatingProps.v
Dispatch.v
DispatchProps.v
Deps.v
Gates.v
CharStr.v
SecretMask.v
EnvVars.v
EditFile.v
RelayLimits.v
RelayServer.v
RelayServerProps.v
RelayServerSafety.v
RelayServerSessions.v
RelayKeys.v
RelayClient.v
Programs.v
AuthDb.v
Auth.v
AuthRoutes.v
AuthProps.v
AuthSafety.v
AuthRuns.v
AuthFactors.v
AuthLogin.v
AuthDemo.v
AuthFlaws.v
Turns.v
Resume.v
Manager.v
Watchdog.v
Handover.v
ManagerRoutes.v
ManagerProps.v
ManagerSafety.v
ManagerRuns.v
ManagerLive.v
HandoverProps.v
WatchdogProps.v
WatchdogLive.v
ManagerDemo.v
HandoverDemo.v
WatchdogDemo.v
ManagerFlaws.v
Subagents.v
Restarts.v
SubagentProps.v
SubagentReports.v
RestartProps.v
SubagentDone.v
SubagentDemo.v
