(* ===== verification/Prelude.v ===== *)
(** * Peckboard verification library

    Peckboard runs coding agents on a kanban board.  A project has cards; a
    card follows a workflow of steps; the orchestrator claims a card for a
    worker session, whose agent calls tools (complete_step, finish_card,
    wont_do_card, ask_user) through an MCP server; every session has an
    append-only event log in SQLite, off which the orchestrator reads what a
    worker asked for when its process ends.  Remote access goes through a relay
    that speaks a small signaling protocol and a STUN subset.  Beside the board,
    repeating tasks start agent sessions on a schedule, and the commands agents
    run get environment variables, some sealed under a user's password, whose
    values are masked in what the commands print.  Users sign in with a password
    and a second factor; their tokens name a session in the database.  Between
    all of these and the agents stands the session manager: it dispatches a
    message as a turn of a provider, queues it behind a running one, and resumes
    conversations.  This library models the code
    of that core and proves what makes it correct.  Paths below are relative to
    the repository.

    ** Files

    - [Prelude] (this file): notation ([==], [!=], [|>]), the result monad of
      Rust's [Result], and generic lemmas on lists, sorting, bytes and integers
      of fixed width.
    - [RelayProto], module [Proto]: peckboard-relay/src/proto.rs.  Frames, the
      bounds-checked [Reader] and both message codecs, byte for byte.  The class
      [Codec] pairs a reader with its writer; the message theorems use it alone.
    - [RelayStun], module [Stun]: peckboard-relay/src/stun.rs.  Building,
      parsing and authenticating Binding requests and responses; HMAC-SHA1 is a
      parameter of which only the tag length is assumed.
    - [RustStr]: the functions of [std::str] the components call.
    - [Workflow]: src/workflow.rs and the save path of src/routes/workflows.rs.
      The process-wide registry is the argument [custom].
    - [CardPolicy]: src/card_policy.rs.
    - [Json]: the interface [JsonApi] to the serde_json crate.
    - [Pipeline], modules [Scheduler] and [Pipeline]: the decision functions of
      src/worker/scheduler.rs and src/worker/pipeline.rs on an event log.
    - [Todo]: src/todo.rs, the tracker of an agent's task calls.
    - [Store]: the tables cards, sessions, projects, card_sessions, events,
      queued_messages and todos, and the operations of src/db/events.rs and
      src/db/crud/ on them.  A database is the record [Db]; an operation is a
      program of the monad [M], from a database to a result or an error and the
      database afterwards.  Each runs under the connection mutex, so an
      interleaving of callers is a sequence of operations.  Unique and foreign
      key violations are errors; other failures of the storage engine are not
      modelled.  Clock and uuid generator are the parameter [World].
    - [StoreProps]: the invariant [inv] ([inv_if], with the completion times
      optional) and the abstract objects the tables
      implement.
    - [Board]: the whole worker tools of
      src/service/mcp_server/handlers/cards.rs, [handle_worker_done] of
      src/worker/orchestrator.rs and the question blocks of
      src/service/questions.rs, on [Store].  Broadcasts, hooks, worktree merges
      and process shutdown are returned as a list of effects.
    - [BoardProps]: the properties of [Board].
    - [LockMap]: the map of per-id mutexes with its idle sweep that
      src/provider/manager.rs keeps for sessions and src/repeating.rs for
      tasks, as a step relation on callers, entries and locks.
    - [Schedule]: the schedule arithmetic of src/repeating.rs.  The chrono and
      chrono-tz crates and the JSON of a schedule are the classes [Chrono] and
      [ScheduleJson], with their laws in [ChronoLaws] and [ScheduleJsonLaws];
      an instant is a number of nanoseconds.
    - [Gregorian]: a calendar and a zone with summer time that satisfy the
      laws, so the theorems about schedules are not vacuous.
    - [ScheduleProps]: what the next slot of a schedule is.
    - [Repeating]: the dispatch of repeating tasks and its watchdog
      (src/repeating.rs), their tables (src/db/crud/repeating_tasks.rs) and
      routes (src/routes/repeating_tasks.rs), on the store.  What the rest of
      the system answers during a run is the argument [RunEnv].
    - [RepeatingProps]: runs along arbitrary sequences of ticks, audits and
      requests.
    - [Dispatch]: the other half of src/worker/orchestrator.rs: a pass over a
      project ([spawn_for_project]), the spawn of one worker
      ([spawn_worker_for_card]) and the crash block.  The answers of hooks,
      provider, files and quotas are the argument [SpawnEnv].
    - [DispatchProps]: the properties of [Dispatch].
    - [Deps]: the dependency graph of src/db/crud/dependencies.rs,
      src/service/card_deps.rs and src/routes/projects/mod.rs.
    - [Gates], modules [Lease] and [LoginLimit]: src/ws/agent_lease.rs and
      src/auth/rate_limit.rs.
    - [CharStr]: strings as sequences of Unicode scalar values with their UTF-8
      offsets, for the components that slice text by byte.
    - [SecretMask]: src/service/secret_mask.rs.
    - [EnvVars]: src/service/env_vars.rs, src/routes/env_vars.rs,
      src/db/crud/env_vars.rs and the password changes of src/routes/auth.rs
      that re-encrypt.  Key derivation, cipher and password hash are the class
      [Crypto] with the round trip [CryptoLaws]; salts and nonces are drawn
      from an argument.
    - [EditFile]: src/service/mcp_server/common_tools/edit.rs.
    - [RelayLimits], module [Limits]: peckboard-relay/src/limits.rs, with the
      floating-point numbers of the code; instants are arguments.
    - [RelayServer], module [Server]: peckboard-relay/src/server.rs.  The state
      behind the locks is the record [Shared]; a definition is a critical
      section or a handler composed of them, up to the frames of a session
      ([establish], [on_frame], [teardown]) and the packets of [serve_stun].
      Clock, random values and signature checks are arguments.
    - [RelayServerProps]: the invariant [inv] of the tables, what each operation
      may change ([quiet], [still], [sends]) and the queue budgets.
    - [RelayServerSafety]: runs of the relay, as the closure of [step], one
      constructor per critical section; the handlers are proved to be sequences
      of steps.  Sections under different locks are steps of their own and do
      not overlap; a class that changes while an eviction scans is not modelled.
    - [RelayServerSessions]: one session among the others, and decoys.
    - [RelayKeys], module [Keys]: peckboard-relay/src/keys.rs and the signatures
      of identity.rs, over the class [Crypto] with its laws [CryptoLaws].
    - [RelayClient], module [Client]: the signaling side of
      peckboard-relay/src/client.rs, and client, relay and client together.
    - [Programs]: handlers as programs of calls ([Prog]), schedules of arrivals
      and calls over any number of them ([play]), and [paths], what holds along
      every path of a program, with its transfer to schedules.
    - [AuthDb]: the tables users, auth_sessions and mfa_*, and the operations of
      src/db/crud/users.rs, auth_sessions.rs and mfa.rs: every database call,
      limiter and clock reading of a handler is one [Op], answered by [exec]
      under the [Fate] of the call (its times, and whether the storage fails).
    - [Auth]: src/auth/ (tokens, sessions, middleware, MFA).  JWT, hashes, TOTP
      and base32 are the class [AuthCrypto]; random values are the record
      [Rand].
    - [AuthRoutes], module [Routes]: src/routes/auth.rs, the password reset
      command and the first start.
    - [AuthProps]: what one call changes.  [AuthSafety]: the evidence a request has gathered
      and what it allows ([allow]), proved of every handler.  [AuthRuns] and
      [AuthFactors]: the theorems about schedules.  [AuthLogin]: one login.
      [AuthDemo]: an instance of the crates and the witnesses.  [AuthFlaws]:
      schedules on which the code departs from its documentation.
    - [Turns]: the turns in flight of the providers
      (src/provider/plugin_provider.rs).
    - [Resume]: model ids, the conversation a turn may resume and the context put
      in front of it (src/provider/registry.rs, mod.rs, resume.rs and
      src/handover.rs).
    - [Manager]: src/provider/manager.rs with its adapters and the message
      queue, as programs over the calls [Op] on the [Host].
    - [Watchdog]: the sweeps of src/worker/watchdog.rs, and the start of a worker
      from its claim to its running agent (src/worker/orchestrator.rs), over the
      same calls.
    - [Handover]: the protocol of src/handover.rs that changes the model of a
      conversation or compacts it (the document turn, its end, what the next
      turn starts from, the clean-up at start), and the model switch of
      src/routes/sessions/mod.rs.
    - [ManagerRoutes]: the end of a turn and the recovery of failed ones
      (src/provider/), the completion listener of src/server.rs, the queue and
      stop routes and the seals.  A [Request] is whatever starts a handler: a
      route, a tool, a completion, or a provider that calls back; [handle] is
      its program.
    - [ManagerProps]: what a handler has seen ([View]) and which call it may make
      next ([allow]), proved of every request.  [ManagerSafety]: the invariant
      of the locks, the queue and the views in every schedule.  [ManagerRuns]:
      the theorems about schedules.  [ManagerLive]: one drain alone.
      [HandoverProps]: the theorems about handovers.  [WatchdogProps] and
      [WatchdogLive]: what the watchdog takes, in every schedule and alone.
      [ManagerDemo], [HandoverDemo] and [WatchdogDemo]: a registry, sessions,
      cards and the witnesses.  [ManagerFlaws]: schedules on which messages are
      lost or delivered twice.
    - [Subagents]: src/subagent.rs, the tool that starts a child session and the
      notice that wakes one, as programs over calls of their own.
    - [Restarts]: src/restart_resume.rs and the repair of src/security.rs, over
      the same calls.  A [Request] is a tool call, the end of a turn, a
      follow-up, a login that works again or a start of the server.
    - [SubagentProps]: the children of every session and the cap.
      [SubagentReports]: the reports.  [RestartProps]: the plan of a restart.
      [SubagentDone]: one report.  [SubagentDemo]: the witnesses, and runs on
      which the cap is exceeded or a result is lost.

    ** What the theorems show

    - The board: every reachable database satisfies the invariant, completion
      times included when cards are neither created done nor claimed from or
      onto done ([board_reachable_inv]); a tool call succeeds exactly where the workflow
      lets it, moves one card and consumes its request ([tool_acts_once],
      [tool_succeeds], [tool_refused]); a completion with an unserved request
      ends where the tool would have ([completion_matches_tool]); idle workers are
      stopped ([completion_no_progress]).
    - Dispatch: a pass picks exactly the cards it should in the right order
      ([dispatch_selection_exact]) and, whatever goes wrong in between, keeps
      the invariant (completion times under the same condition), other cards and
      the worker limit ([dispatch_safe]).
    - The store refines a lock per card ([worker_slot_lock]), an append-only
      log ([append_event_log], [trim_keeps_newest]), a FIFO queue
      ([queue_fifo]) and a replace-all list ([todos_roundtrip]).
    - Workflows: validation is exact, resolution always yields a well-formed
      step list, and completing or finishing reaches done
      ([validate_workflow_steps_exact], [steps_for_card_shape],
      [finish_reaches_done], [complete_step_reaches_done],
      [editor_roundtrip]); the card policy is exact ([policy_exact]).
    - Intent and counters read off the log are exactly the ones specified
      ([derive_worker_intent_spec], [crash_counter_exact],
      [no_progress_backoff_exact]).
    - Dependencies: the searches terminate and compute reachability, updates
      keep the graph acyclic, the blocker report is exact
      ([transitive_deps_exact], [apply_dependencies_acyclic],
      [top_blockers_exact]).
    - Tasks: the tracker refines an ordered map ([tracker_refines_map],
      [tracker_consistent]).
    - Relay: both codecs accept exactly the encodings of well-formed messages,
      frames and STUN packets round-trip, parsing stays in bounds and accepted
      responses are authenticated ([client_codec], [server_codec],
      [framed_messages], [addrs_roundtrip], [request_roundtrip],
      [response_roundtrip], [parse_request_in_bounds],
      [response_authenticated]).
    - The relay server, in every state an interleaving of its handlers reaches:
      tables, prefixes and queues stay within their caps and counters count
      ([relay_tables_bounded], [rate_limit_exact]); seats are held by sessions
      that signed for them ([seats_authenticated]); registration and admission
      do what they should on every branch and spare paired sessions
      ([register_exact], [admit_spares_pairs]); a session reaches its peer alone
      ([frames_reach_peer_only]); a refused session cannot tell that it was,
      unless the table fills up and it is evicted ([decoy_indistinguishable]).
    - Relay clients: peers that share a secret meet ([peers_meet]), what one
      sends within its limits the other receives ([message_end_to_end]), and boxes are taken once
      and in order ([counted_exact]); what is signed binds its fields
      ([signed_messages_bind]).
    - Gates: leases are exclusive, the login limiter refuses exactly at its cap
      ([lease_exclusive], [limiter_exact]).
    - Locks: the lock map behaves as one lock per id in every interleaving
      ([lock_map_exclusive]).
    - Repeating tasks: the next slot is the one the schedule names
      ([next_slot_exact]); in every sequence of events scheduler runs are
      spaced, a one-off fires once and runs of a task do not overlap
      ([scheduler_runs_spaced], [once_fires_once], [run_single_flight]).
    - Secrets: masking hides every occurrence, or an earlier one it overlaps, and
      nothing else ([mask_exact]); sealed variables open under their owner's
      password as long as no admin resets it ([password_always_unlocks]), are readable exactly while a window is open
      ([unlock_window_exact]), and a command gets exactly its variables, with
      its output masked ([command_env_safe]).
    - Authentication, in every schedule of requests over a database that may
      fail at any call: sessions are created by a login without MFA, a code step
      with challenge and code, a password change or the first start of the
      desktop app, and by nothing else ([session_needs_factors]); accounts change only by requests entitled to it
      ([account_changes_authorised]); a challenge yields one session
      ([challenge_spent_once]); revocation is final ([revoked_stays_revoked]);
      a second factor is accepted once unless requests overlap
      ([second_factor_once]).  A login alone on a working database that
      the limiters let through succeeds ([login_grants_session], [mfa_login_grants_session]).
    - The session manager, in every schedule of requests over a database that
      may fail: a queued message stays until it is delivered or dropped for a
      reason, such as a card that is moved ([queued_rows_accounted]), drains deliver it once ([drained_once]),
      sealed sessions get neither a turn nor a message while the lock is respected
      ([sealed_never_dispatched]), and a conversation is resumed by the provider
      and account it is recorded for, or by any if the row names no model
      ([resume_checked]).  A drain alone, with nothing in its way, delivers the whole backlog as one turn ([drain_delivers_backlog]).
    - Handovers: a session loses its conversation only for one of the reasons
      the protocol names ([conversation_dropped_for_reason]); the end of a
      document turn releases the session and moves it to its model where there
      is a document or a fallback ([doc_turn_completes]); the clean-up at start leaves no
      session parked ([reconcile_unparks]).
    - The watchdog: a card is taken from its worker only while no turn of it runs
      ([sweep_takes_idle_cards]), and a sweep frees exactly the cards of vanished
      workers ([sweep_exact]).
    - Subagents: in every schedule over a database that may fail a session has no
      more children in flight than its limit, besides those that are in flight
      because they were armed again ([cap_kept]), and a child is reported no more often than it was created or
      armed again, to its parent ([reports_bounded]); alone, a turn that ends
      with nothing pending reports at once, and one that failed to authenticate
      after its grace period unless it was tried again ([done_reports]).
    - Restarts: the plan resumes, leaves to a lost task or reports every child
      that was in flight, and resumes every interrupted session that nothing
      stands against ([plan_accounts]).
    - Edits: applying edits from the back equals replacing all ranges at once
      ([apply_edits_exact]).

    Lemmas named after a defect ([reset_strands_vars],
    [update_injects_old_value], [intake_claims_onto_done],
    [repeated_hour_fires_every_minute], [huge_interval_panics],
    [slower_schedule_turned_off], [failed_forced_run_turned_off],
    [new_time_does_not_rearm], [overlap_left_readable],
    [finish_done_overwrites_handoff], [checked_updates_race],
    [duplicate_dependencies_refused], [created_done_unstamped],
    [claim_skips_stamp], [table_overfull], [roaming_exceeds_pair_cap],
    [decoy_evicted_first], and those of [AuthFlaws], [ManagerFlaws],
    [HandoverDemo], [WatchdogDemo] and [SubagentDemo]) evaluate the code on an input where it
    does not do what its documentation says.

    ** Bounds and fuel

    The retry of an event append has the code's 16 attempts.  The attribute
    walk of a STUN packet has the packet's length as fuel; each round consumes
    a header.  The cycle check has one unit per proposed dependency and per
    edge, plus one; the transitive search one per node that is a dependency,
    plus one; both are proved to be enough on every graph.  The scans of the
    masker have one unit per character of the text (verbatim) or of its
    skeleton (spread out), plus one; [mask_exact] shows they never run out.
    [resolve_local] tries the code's 180 minutes.  The theorem on slots asks for
    dates that are 93 days inside the range of chrono, and the stored text of an
    instant is read back for years before 10000.  Counters are kept modulo
    [2^32] where the code has [u32]; sums of times past the range of chrono
    panic as they do in the code.  Making room for a relay connection has one
    round per session and one more; each round evicts one.  The programs of the
    authentication handlers, of the session manager and of the subagents are
    inductive, so a request ends after finitely many calls.  The lines of a document have one
    unit per character, plus one.  Everything else is structural.

    ** Not modelled

    Socket and process I/O, the HTTP and WebSocket envelopes, the plugin host
    and the provider plugins, prompts, voice, link previews, TLS and ACME,
    database migrations, and the desktop, mobile and web front ends.  Of the
    modelled components: the MCP tools and the morning briefing of repeating
    tasks, the warming of the unlock cache by a prompt in the browser, the diff
    shown for an edit, the relay's registry file, registration page, write
    pacing, tunnel and hole punching, and of authentication the key files, the
    delays of the limiters and the tables beside the modelled ones that deleting
    a user clears; a storage failure there has no effect.  Of the session
    manager: child processes, prompts, environment and files of a turn, the
    model catalog, usage records, and the provider events that carry neither a
    conversation nor the end of a turn; and the deletion of a provider account,
    which rewrites the models of sessions and queued messages.  Of the
    dispatcher: the resumption of idle workers that were sent a message.  Of subagents and restarts: the send that
    wakes a session (a call whose outcome the surroundings decide), effort and
    system prompt of a child, the pauses and the concurrency of the resumes, and
    processes that survive a restart.

    ** Plan

    Next: the relay's registry, the update and create tools, session cascades,
    worker budgets, processes that survive a restart and provider rate limits. *)

From stdpp Require Export base tactics option list gmap strings.
From Stdlib Require Export ZArith Lia ZifyNat.
From Stdlib Require Import Strings.Byte.
From Stdlib Require Export Sorted.

#[global] Open Scope Z_scope.

(** ** Notation *)

Declare Scope peck_scope.
Delimit Scope peck_scope with peck.
#[global] Open Scope peck_scope.

(** Rust's [==] and [!=] on values with decidable equality. *)
Notation "a == b" := (bool_decide (a = b)) (at level 70, no associativity) : peck_scope.
Notation "a != b" := (negb (bool_decide (a = b))) (at level 70, no associativity) : peck_scope.

(** Rust's [Option::is_some]. *)
Definition is_some {A} (o : option A) : bool :=
  match o with Some _ => true | None => false end.

(** ** Automation *)

(** [lia] with division and modulo by literals. *)
Ltac dlia := zify; Z.to_euclidean_division_equations; lia.

(** ** Results

    Rust's [Result<A, E>]; the error type comes first so that [Result E] is
    the type constructor that binds. *)

Inductive Result (E A : Type) : Type :=
| Ok (a : A)
| Err (e : E).
Arguments Ok {E A} a.
Arguments Err {E A} e.

#[export] Instance result_ret {E} : MRet (Result E) := λ A a, Ok a.
#[export] Instance result_bind {E} : MBind (Result E) :=
  λ A B f m, match m with Ok a => f a | Err e => Err e end.

(** Rust's [ok_or]. *)
Definition ok_or {A E} (e : E) (o : option A) : Result E A :=
  match o with Some a => Ok a | None => Err e end.

(** Rust's [Result::ok]. *)
Definition result_ok {A E} (r : Result E A) : option A :=
  match r with Ok a => Some a | Err _ => None end.

Definition is_ok {A E} (r : Result E A) : bool :=
  match r with Ok _ => true | Err _ => false end.

Lemma bind_ok {E A B} (m : Result E A) (f : A → Result E B) b :
  m ≫= f = Ok b ↔ ∃ a, m = Ok a ∧ f a = Ok b.
Proof. destruct m; simpl; naive_solver. Qed.

(** [Some] under a bind, without unfolding what it is bound to. *)
Lemma some_bind {A B} (x : A) (f : A → option B) : Some x ≫= f = f x.
Proof. done. Qed.

Lemma ok_or_ok {A E} (e : E) (o : option A) a : ok_or e o = Ok a ↔ o = Some a.
Proof. destruct o; simpl; naive_solver. Qed.

(** ** Bytes and big-endian integers *)

Abbreviation byte := Byte.byte.
Abbreviation bytes := (list Byte.byte).

Definition byte_to_Z (b : byte) : Z := Z.of_N (Byte.to_N b).

(** [z as u8] for a non-negative [z]. *)
Definition byte_of_Z (z : Z) : byte :=
  default x00 (Byte.of_N (Z.to_N (z mod 256))).

#[export] Instance byte_eq_dec : EqDecision byte.
Proof. intros a b. destruct (Byte.byte_eq_dec a b); [left|right]; done. Defined.

Lemma byte_of_to (b : byte) : byte_of_Z (byte_to_Z b) = b.
Proof. destruct b; reflexivity. Qed.

Lemma byte_range b : 0 ≤ byte_to_Z b < 256.
Proof. pose proof (Byte.to_N_bounded b). unfold byte_to_Z. lia. Qed.

Lemma byte_to_of z : byte_to_Z (byte_of_Z z) = z mod 256.
Proof.
  pose proof (Z.mod_pos_bound z 256 ltac:(lia)) as Hb.
  unfold byte_to_Z, byte_of_Z.
  destruct (Byte.of_N (Z.to_N (z mod 256))) as [b|] eqn:E; simpl.
  - apply Byte.to_of_N in E. rewrite E. lia.
  - apply Byte.of_N_None_iff in E. lia.
Qed.

Lemma byte_to_Z_inj a b : byte_to_Z a = byte_to_Z b → a = b.
Proof. intros H. by rewrite <- (byte_of_to a), <- (byte_of_to b), H. Qed.

#[export] Instance byte_countable : Countable byte.
Proof.
  refine (inj_countable' (λ b, Z.to_N (byte_to_Z b)) (λ n, byte_of_Z (Z.of_N n)) _).
  intros b. pose proof (byte_range b). rewrite Z2N.id by lia. apply byte_of_to.
Defined.

(** [to_be_bytes] of an [n]-byte unsigned integer (the high bits a value
    does not have room for are dropped, as an [as] cast drops them). *)
Fixpoint be_bytes (n : nat) (z : Z) : bytes :=
  match n with
  | O => []
  | S n' => byte_of_Z (z / 256 ^ Z.of_nat n') :: be_bytes n' z
  end.

(** [from_be_bytes]. *)
Definition from_be (l : bytes) : Z :=
  foldl (λ acc b, acc * 256 + byte_to_Z b) 0 l.

Lemma be_bytes_length n z : length (be_bytes n z) = n.
Proof. induction n; simpl; auto. Qed.

Lemma foldl_be l acc :
  foldl (λ acc b, acc * 256 + byte_to_Z b) acc l = acc * 256 ^ Z.of_nat (length l) + from_be l.
Proof.
  unfold from_be. revert acc. induction l as [|b l IH]; intros acc; simpl foldl.
  - simpl. lia.
  - rewrite IH, (IH (0 * 256 + byte_to_Z b)). simpl length.
    rewrite Nat2Z.inj_succ, Z.pow_succ_r by lia. lia.
Qed.

Lemma from_be_cons b l :
  from_be (b :: l) = byte_to_Z b * 256 ^ Z.of_nat (length l) + from_be l.
Proof. unfold from_be at 1. simpl. rewrite foldl_be. lia. Qed.

Lemma from_be_range l : 0 ≤ from_be l < 256 ^ Z.of_nat (length l).
Proof.
  induction l as [|b l IH]; [cbn; lia|].
  rewrite from_be_cons. simpl length.
  rewrite Nat2Z.inj_succ, Z.pow_succ_r by lia.
  pose proof (byte_range b). nia.
Qed.

Lemma from_be_bytes n z : from_be (be_bytes n z) = z mod 256 ^ Z.of_nat n.
Proof.
  induction n as [|n IH]; [by rewrite Z.mod_1_r|].
  simpl be_bytes. rewrite from_be_cons, IH, be_bytes_length, byte_to_of.
  rewrite Nat2Z.inj_succ, Z.pow_succ_r by lia.
  set (p := 256 ^ Z.of_nat n).
  assert (0 < p) by (unfold p; apply Z.pow_pos_nonneg; lia).
  rewrite (Z.mul_comm 256 p), Z.rem_mul_r by lia. lia.
Qed.

Lemma from_be_bytes_small n z :
  0 ≤ z < 256 ^ Z.of_nat n → from_be (be_bytes n z) = z.
Proof. intros. rewrite from_be_bytes. by apply Z.mod_small. Qed.

Lemma be_bytes_mod n z : be_bytes n (z mod 256 ^ Z.of_nat n) = be_bytes n z.
Proof.
  assert (∀ m k, (m ≤ k)%nat → be_bytes m (z mod 256 ^ Z.of_nat k) = be_bytes m z) as H; [|by apply H].
  induction m as [|m IH]; intros k Hk; [done|]. simpl. f_equal; [|apply IH; lia].
  apply byte_to_Z_inj. rewrite !byte_to_of.
  replace (Z.of_nat k) with (Z.of_nat m + Z.of_nat (k - m)) by lia.
  rewrite Z.pow_add_r by lia.
  assert (0 < 256 ^ Z.of_nat m) by (apply Z.pow_pos_nonneg; lia).
  assert (0 < 256 ^ Z.of_nat (k - m)) by (apply Z.pow_pos_nonneg; lia).
  rewrite Z.rem_mul_r by lia.
  rewrite Z.mul_comm, Z.div_add by lia.
  rewrite Z.div_small by (apply Z.mod_pos_bound; lia). rewrite Z.add_0_l.
  destruct (k - m)%nat as [|j] eqn:Ej; [lia|].
  rewrite Nat2Z.inj_succ, Z.pow_succ_r by lia.
  apply Z.mod_mod_divide. by apply Z.divide_factor_l.
Qed.

Lemma be_bytes_from l : be_bytes (length l) (from_be l) = l.
Proof.
  induction l as [|b l IH]; [done|]. simpl length. simpl be_bytes.
  rewrite from_be_cons. pose proof (from_be_range l).
  rewrite Z.div_add_l, Z.div_small, Z.add_0_r, byte_of_to by lia. f_equal.
  etransitivity; [|exact IH]. rewrite <- be_bytes_mod. f_equal.
  by rewrite Z.add_comm, Z.mod_add, Z.mod_small by lia.
Qed.

(** [a ^ b] on [u8]. *)
Definition byte_xor (a b : byte) : byte :=
  byte_of_Z (Z.lxor (byte_to_Z a) (byte_to_Z b)).

(** Bitwise exclusive or stays within the operands' width. *)
Lemma lxor_range n a b :
  0 < n → 0 ≤ a < 2 ^ n → 0 ≤ b < 2 ^ n → 0 ≤ Z.lxor a b < 2 ^ n.
Proof.
  intros Hn Ha Hb. assert (0 ≤ Z.lxor a b) by (apply Z.lxor_nonneg; lia).
  split; [done|].
  destruct (decide (Z.lxor a b = 0)) as [->|]; [lia|].
  apply Z.log2_lt_pow2; [lia|].
  pose proof (Z.log2_lxor a b ltac:(lia) ltac:(lia)).
  assert (∀ x, 0 ≤ x < 2 ^ n → Z.log2 x < n) as Hl.
  { intros x Hx. destruct (decide (x = 0)) as [->|]; [by rewrite Z.log2_nonpos|].
    apply Z.log2_lt_pow2; lia. }
  pose proof (Hl a Ha). pose proof (Hl b Hb). lia.
Qed.

Lemma byte_xor_involutive a m : byte_xor (byte_xor a m) m = a.
Proof.
  apply byte_to_Z_inj. unfold byte_xor.
  pose proof (byte_range a). pose proof (byte_range m).
  rewrite !byte_to_of, (Z.mod_small (Z.lxor (byte_to_Z a) _))
    by (by apply (lxor_range 8)).
  rewrite Z.lxor_assoc, Z.lxor_nilpotent, Z.lxor_0_r. by apply Z.mod_small.
Qed.

(** ** UTF-8

    A Rust [String] is a byte sequence that [std::str::from_utf8] accepts:
    the well-formed sequences of Unicode's table 3-7 (no overlong forms, no
    surrogates, nothing past U+10FFFF). *)

Definition in_range (lo hi : Z) (b : byte) : bool :=
  (lo <=? byte_to_Z b) && (byte_to_Z b <=? hi).

Definition utf8_cont (b : byte) : bool := in_range 0x80 0xBF b.

Fixpoint utf8_valid (l : bytes) : bool :=
  match l with
  | [] => true
  | b0 :: r0 =>
    if in_range 0 0x7F b0 then utf8_valid r0
    else match r0 with
    | [] => false
    | b1 :: r1 =>
      if in_range 0xC2 0xDF b0 then utf8_cont b1 && utf8_valid r1
      else match r1 with
      | [] => false
      | b2 :: r2 =>
        if in_range 0xE0 0xEF b0 then
          (if in_range 0xE0 0xE0 b0 then in_range 0xA0 0xBF b1
           else if in_range 0xED 0xED b0 then in_range 0x80 0x9F b1
           else utf8_cont b1) && utf8_cont b2 && utf8_valid r2
        else match r2 with
        | [] => false
        | b3 :: r3 =>
          in_range 0xF0 0xF4 b0 &&
          (if in_range 0xF0 0xF0 b0 then in_range 0x90 0xBF b1
           else if in_range 0xF4 0xF4 b0 then in_range 0x80 0x8F b1
           else utf8_cont b1) && utf8_cont b2 && utf8_cont b3 && utf8_valid r3
        end
      end
    end
  end.

(** [String::from_utf8] and [str::as_bytes]. *)
Definition from_utf8 (l : bytes) : option string :=
  if utf8_valid l then Some (String.string_of_list_byte l) else None.

Definition as_bytes (s : string) : bytes := String.list_byte_of_string s.

Definition valid_str (s : string) : Prop := utf8_valid (as_bytes s) = true.

Lemma from_utf8_as_bytes s : valid_str s → from_utf8 (as_bytes s) = Some s.
Proof.
  unfold valid_str, from_utf8. intros ->.
  unfold as_bytes. by rewrite String.string_of_list_byte_of_string.
Qed.

Lemma from_utf8_Some l s : from_utf8 l = Some s → l = as_bytes s ∧ valid_str s.
Proof.
  unfold from_utf8, valid_str, as_bytes. destruct (utf8_valid l) eqn:E; [|done].
  intros [= <-]. by rewrite String.list_byte_of_string_of_list_byte.
Qed.

(** ** Iterator helpers of the Rust standard library *)

Section iterators.
Context {A : Type}.
Implicit Types (p : A → bool) (l : list A).

(** [iter().position(p)]. *)
Fixpoint position p l : option nat :=
  match l with
  | [] => None
  | x :: l' => if p x then Some O else S <$> position p l'
  end.

(** [iter().rposition(p)]. *)
Fixpoint rposition p l : option nat :=
  match l with
  | [] => None
  | x :: l' =>
    match rposition p l' with
    | Some i => Some (S i)
    | None => if p x then Some O else None
    end
  end.

Lemma position_Some p l i :
  position p l = Some i ↔
  (∃ x, l !! i = Some x ∧ p x = true) ∧ ∀ j y, (j < i)%nat → l !! j = Some y → p y = false.
Proof.
  revert i. induction l as [|x l IH]; intros i; simpl.
  - split; [done|]. intros [(x&Hx&_) _]. by rewrite lookup_nil in Hx.
  - destruct (p x) eqn:Hp.
    + split.
      * intros [= <-]. split; [by eauto|]. intros; lia.
      * intros [_ H]. destruct i as [|i]; [done|].
        specialize (H O x ltac:(lia) eq_refl). congruence.
    + rewrite fmap_Some. split.
      * intros (j&[[y [Hy Hpy]] Hlt]%IH&->). split; [by eauto|].
        intros [|k] z Hk; simpl; [by intros [= <-]|]. apply Hlt. lia.
      * intros [(y&Hy&Hpy) H]. destruct i as [|i]; simpl in *; [congruence|].
        exists i. split; [|done]. apply IH. split; [by eauto|].
        intros j z Hj. apply (H (S j)). lia.
Qed.

Lemma position_None p l : position p l = None ↔ Forall (λ x, p x = false) l.
Proof.
  induction l as [|x l IH]; simpl; [by split; auto|].
  rewrite Forall_cons. destruct (p x); [by split; [|intros [? _]]|].
  rewrite fmap_None, IH. naive_solver.
Qed.

Lemma position_lt p l i : position p l = Some i → (i < length l)%nat.
Proof. intros [(x&Hx&_) _]%position_Some. by eapply lookup_lt_Some. Qed.

(** The suffix after the last element satisfying [p] is the whole of what
    follows it, and holds no other. *)
Lemma rposition_Some p l i :
  rposition p l = Some i →
  ∃ x, l = take i l ++ x :: drop (S i) l ∧ p x = true ∧ Forall (λ y, p y = false) (drop (S i) l).
Proof.
  assert (∀ l, rposition p l = None → Forall (λ y, p y = false) l) as HN.
  { clear. induction l as [|x l IH]; simpl; [done|].
    destruct (rposition p l); [done|]. destruct (p x) eqn:?; [done|]. auto. }
  revert i. induction l as [|x l IH]; intros i; simpl; [done|].
  destruct (rposition p l) as [j|] eqn:E.
  - intros [= <-]. destruct (IH j eq_refl) as (y&Hl&Hy&HF).
    exists y. simpl. split; [by rewrite <- Hl|done].
  - destruct (p x) eqn:Hp; [|done]. intros [= <-]. exists x. simpl.
    rewrite drop_0. auto.
Qed.

Lemma rposition_None p l : rposition p l = None ↔ Forall (λ x, p x = false) l.
Proof.
  induction l as [|x l IH]; simpl; [by split; auto|].
  rewrite Forall_cons. destruct (rposition p l).
  - split; [done|]. intros [_ H]. by apply IH in H.
  - destruct (p x); naive_solver.
Qed.
End iterators.

(** ** Sorting

    [sort_by le] is the stable sort by [le]; a list already in order is left
    as it is. *)
Section sorting.
Context {A : Type} (le : A → A → bool).

Fixpoint insert_by (x : A) (l : list A) : list A :=
  match l with
  | [] => [x]
  | y :: l' => if le x y then x :: l else y :: insert_by x l'
  end.

Fixpoint sort_by (l : list A) : list A :=
  match l with
  | [] => []
  | x :: l' => insert_by x (sort_by l')
  end.

Lemma insert_by_perm x l : insert_by x l ≡ₚ x :: l.
Proof.
  induction l as [|y l IH]; simpl; [done|]. destruct (le x y); [done|].
  rewrite IH. apply Permutation_swap.
Qed.

Lemma sort_by_perm l : sort_by l ≡ₚ l.
Proof. induction l as [|x l IH]; simpl; [done|]. by rewrite insert_by_perm, IH. Qed.

Lemma elem_of_sort_by x l : x ∈ sort_by l ↔ x ∈ l.
Proof. by rewrite (sort_by_perm l). Qed.

Lemma sort_by_sorted l : StronglySorted (λ x y, le x y = true) l → sort_by l = l.
Proof.
  induction 1 as [|x l Hs IH HF]; simpl; [done|]. rewrite IH.
  destruct HF as [|y l Hy]; simpl; [done|]. by rewrite Hy.
Qed.

Hypothesis le_total : ∀ x y, le x y = false → le y x = true.
Hypothesis le_trans : ∀ x y z, le x y = true → le y z = true → le x z = true.

Lemma sort_by_StronglySorted l : StronglySorted (λ x y, le x y = true) (sort_by l).
Proof.
  induction l as [|x l IH]; simpl; [constructor|].
  induction IH as [|y k Hk IHk HF]; simpl; [repeat constructor|].
  destruct (le x y) eqn:E.
  - constructor; [by constructor|]. constructor; [done|].
    eapply Forall_impl; [exact HF|]. intros z Hz. by eapply le_trans.
  - constructor; [done|]. rewrite insert_by_perm. constructor; [by apply le_total|done].
Qed.

(** The sort is stable: elements it does not order keep their order. *)
Lemma sort_by_stable (R : A → A → Prop) l :
  StronglySorted R l →
  StronglySorted (λ x y, le x y = true ∧ (le y x = true → R x y)) (sort_by l).
Proof.
  induction 1 as [|x l Hl IH HF]; simpl; [constructor|].
  assert (Forall (R x) (sort_by l)) as HF' by (by rewrite sort_by_perm). clear HF Hl.
  induction IH as [|y k Hk IHk HFk]; simpl; [repeat constructor|].
  apply Forall_cons in HF' as [Hxy HF']. destruct (le x y) eqn:E.
  - constructor; [by constructor|]. constructor; [done|]. rewrite Forall_forall in *.
    intros z Hz. split; [|intros _; by apply HF']. apply (le_trans x y); [done|]. by apply HFk.
  - constructor; [by apply IHk|]. rewrite insert_by_perm. constructor; [|done]. split; [by apply le_total|congruence].
Qed.
End sorting.

(** Method chaining, [x.f()]. *)
Notation "x |> f" := (f x) (at level 41, left associativity, only parsing) : peck_scope.

(** ** Filters *)

Lemma filter_all {A} (P : A → Prop) `{∀ x, Decision (P x)} l : Forall P l → filter P l = l.
Proof.
  induction 1 as [|x l Hx HF IH]; [done|]. by rewrite filter_cons, decide_True, IH.
Qed.

Lemma filter_none {A} (P : A → Prop) `{∀ x, Decision (P x)} l :
  Forall (λ x, ¬ P x) l → filter P l = [].
Proof.
  induction 1 as [|x l Hx HF IH]; [done|]. by rewrite filter_cons, decide_False, IH.
Qed.

Lemma filter_ne {A} `{EqDecision A} (k : A) (l : list A) : k ∉ l → filter (.≠ k) l = l.
Proof. intros Hk. apply filter_all, Forall_forall. intros x Hx ->. done. Qed.

Lemma existsb_false {A} (f : A → bool) l : existsb f l = false ↔ Forall (λ x, f x = false) l.
Proof.
  induction l as [|x l IH]; simpl; [by split|]. by rewrite Forall_cons, <- IH, orb_false_iff.
Qed.

Lemma filter_comm {A} (f g : A → bool) l :
  List.filter f (List.filter g l) = List.filter g (List.filter f l).
Proof.
  induction l as [|x l IH]; simpl; [done|]. destruct (f x) eqn:F, (g x) eqn:G; simpl;
    rewrite ?F, ?G; congruence.
Qed.

Lemma nodup_fmap_filter {A B} (h : A → B) (f : A → bool) l :
  NoDup (h <$> l) → NoDup (h <$> List.filter f l).
Proof.
  induction l as [|x l IH]; [done|]. rewrite fmap_cons, NoDup_cons. intros [Hx HN]. simpl.
  destruct (f x); [|by apply IH]. rewrite fmap_cons. constructor; [|by apply IH].
  intros (y & Hy & [Hin _]%list_elem_of_In%List.filter_In)%list_elem_of_fmap.
  apply Hx. rewrite Hy. by apply list_elem_of_fmap_2, list_elem_of_In.
Qed.

Lemma sorted_snoc_inv {A} (R : A → A → Prop) l x :
  StronglySorted R (l ++ [x]) → Forall (λ y, R y x) l.
Proof.
  induction l as [|y l IH]; simpl; [done|]. intros [Hl HF]%StronglySorted_inv.
  apply Forall_app in HF as [_ [? _]%Forall_cons]. constructor; auto.
Qed.

Lemma filter_perm {A} (f : A → bool) l k : l ≡ₚ k → List.filter f l ≡ₚ List.filter f k.
Proof.
  induction 1; simpl; repeat (destruct (f _)); try done; try by constructor. by etrans.
Qed.

Lemma filter_true {A} (f : A → bool) l : Forall (λ x, f x = true) l → List.filter f l = l.
Proof. induction 1 as [|x l Hx _ IH]; simpl; [done|]. by rewrite Hx, IH. Qed.

Lemma filter_false {A} (f : A → bool) l : Forall (λ x, f x = false) l → List.filter f l = [].
Proof. induction 1 as [|x l Hx _ IH]; simpl; [done|]. by rewrite Hx, IH. Qed.

(** ** Tables

    A table is a list of rows; deleting rows filters it and inserting one
    appends it. *)

Lemma sorted_filter {A} (R : A → A → Prop) (f : A → bool) l :
  StronglySorted R l → StronglySorted R (List.filter f l).
Proof.
  induction 1 as [|x l Hl IH HF]; simpl; [constructor|]. destruct (f x); [|done].
  constructor; [done|]. apply List.Forall_forall. intros y [Hy _]%List.filter_In.
  rewrite List.Forall_forall in HF. auto.
Qed.

Lemma forall_filter {A} (P : A → Prop) (f : A → bool) l : Forall P l → Forall P (List.filter f l).
Proof.
  rewrite !Forall_forall. intros H x [Hx _]%list_elem_of_In%List.filter_In.
  by apply H, list_elem_of_In.
Qed.

Lemma sorted_snoc {A} (R : A → A → Prop) l x :
  StronglySorted R l → Forall (λ y, R y x) l → StronglySorted R (l ++ [x]).
Proof.
  induction 1 as [|y l Hl IH HF]; simpl; intros Hx; [repeat constructor|].
  apply Forall_cons in Hx as [Hyx Hx]. constructor; [by apply IH|].
  apply Forall_app. split; [done|by constructor].
Qed.

Lemma filter_filter {A} (f g : A → bool) l :
  List.filter f (List.filter g l) = List.filter (λ x, f x && g x) l.
Proof.
  induction l as [|x l IH]; simpl; [done|]. destruct (g x) eqn:G; simpl;
    [rewrite andb_true_r|rewrite andb_false_r]; destruct (f x); simpl; congruence.
Qed.

(** Rows of a table with the same unique key are the same row. *)
Lemma key_inj {A B} (key : A → B) l x y :
  NoDup (key <$> l) → x ∈ l → y ∈ l → key x = key y → x = y.
Proof.
  intros HN [i Hi]%list_elem_of_lookup [j Hj]%list_elem_of_lookup E.
  assert (i = j) as ->; [|congruence].
  apply (NoDup_lookup _ _ _ (key y) HN); rewrite list_lookup_fmap, ?Hi, ?Hj; simpl; congruence.
Qed.

Lemma sorted_lookup {A} (R : A → A → Prop) l i j x y :
  StronglySorted R l → l !! i = Some x → l !! j = Some y → (i < j)%nat → R x y.
Proof.
  intros HS. revert i j. induction HS as [|z l HS IH HF]; intros [|i] [|j]; simpl; try done; try lia.
  - intros [= ->] Hy _. rewrite Forall_forall in HF. by eapply HF, list_elem_of_lookup_2.
  - intros Hx Hy Hij. apply (IH i j); [done..|lia].
Qed.

Lemma sorted_take_drop {A} (R : A → A → Prop) l n x y :
  StronglySorted R l → x ∈ take n l → y ∈ drop n l → R x y.
Proof.
  intros HS [i Hi]%list_elem_of_lookup [j Hj]%list_elem_of_lookup.
  rewrite lookup_drop in Hj. apply lookup_take_Some in Hi as [Hi Hn].
  eapply (sorted_lookup R l i (n + j)%nat); [done..|lia].
Qed.

Create HintDb tables.
#[export] Hint Resolve sorted_filter forall_filter sorted_snoc nodup_fmap_filter : tables.
