(* ===== verification/RelayProto.v ===== *)
(** * The relay's signaling protocol

    Models peckboard-relay/src/proto.rs: the length-prefixed frames, the
    bounds-checked [Reader] and the two message codecs.  A [Reader] is a
    state-and-error function on the unread bytes; every primitive reader is
    paired with its writer by the [Codec] interface, and the message theorems
    are proved from that interface alone. *)

From S2P Require Import Prelude.
From Stdlib Require Import Strings.Byte.

Module Proto.

Definition MAX_FRAME : Z := 8 * 1024.
Definition MAX_BLOB : Z := 4 * 1024.
Definition MAX_PACKET : Z := 2048.

Inductive Role := Box | Device.

#[export] Instance role_eq_dec : EqDecision Role.
Proof. solve_decision. Defined.

Definition Role_from_u8 (v : byte) : option Role :=
  match v with x00 => Some Box | x01 => Some Device | _ => None end.

(** [role as u8] of the [repr(u8)] enum. *)
Definition Role_as_u8 (r : Role) : byte :=
  match r with Box => x00 | Device => x01 end.

Definition Role_other (r : Role) : Role :=
  match r with Box => Device | Device => Box end.

(** [std::net::IpAddr] by its octets, and [SocketAddr].  A V6 socket address
    also carries a flow label and a scope id, which the codec ignores. *)
Inductive IpAddr := V4 (octets : bytes) | V6 (octets : bytes).

Record SocketAddr := mkSocketAddr {
  sa_ip : IpAddr;
  sa_port : Z;
  sa_flowinfo : Z;
  sa_scope_id : Z;
}.

(** [SocketAddr::new]. *)
Definition SocketAddr_new (ip : IpAddr) (port : Z) : SocketAddr :=
  mkSocketAddr ip port 0 0.

Inductive ClientMsg :=
| Hello (role : Role) (rendezvous_id public_key : bytes)
| Auth (signature : bytes)
| Ping
| Forward (blob : bytes)
| SetCandidates (blob : bytes)
| PunchRequest
| RefreshStun
| CData (packet : bytes)
| IdentityAuth (signature identity_key identity_signature : bytes).

Inductive ServerMsg :=
| Challenge (nonce : bytes)
| Registered (stun_username stun_password : string) (ttl_secs stun_port : Z)
| Pong
| PeerOnline
| PeerOffline
| Forwarded (blob : bytes)
| PunchNow (peer_public : SocketAddr) (start_at_ms : Z) (nonce : bytes)
    (attempt : byte) (peer_candidates : bytes)
| SData (packet : bytes)
| IdentityStatus (registered gated : bool).

Inductive ProtoError := Io | TooLarge | Malformed.

(** ** Framing

    [read_exact] past the end of the stream is an I/O error; the stream is
    the bytes that will ever arrive. *)

Definition read_exact (n : nat) (stream : bytes) : Result ProtoError (bytes * bytes) :=
  if (length stream <? n)%nat then Err Io else Ok (firstn n stream, skipn n stream).

Definition read_frame (stream : bytes) : Result ProtoError (bytes * bytes) :=
  '(hdr, stream) ← read_exact 4 stream;
  let len := from_be hdr in
  if MAX_FRAME <? len then Err TooLarge
  else read_exact (Z.to_nat len) stream.

(** The bytes [write_frame] puts on the wire ([payload.len() as u32]). *)
Definition write_frame (payload : bytes) : bytes :=
  be_bytes 4 (Z.of_nat (length payload)) ++ payload.

(** ** The reader *)

Definition Reader (A : Type) : Type := bytes → Result ProtoError (A * bytes).

#[export] Instance reader_ret : MRet Reader := λ A a buf, Ok (a, buf).
#[export] Instance reader_bind : MBind Reader :=
  λ A B f m buf, match m buf with Ok (a, buf') => f a buf' | Err e => Err e end.

Definition malformed {A} : Reader A := λ _, Err Malformed.

Definition take (n : nat) : Reader bytes := λ buf,
  if (length buf <? n)%nat then Err Malformed
  else Ok (firstn n buf, skipn n buf).

Definition u8 : Reader byte := λ buf,
  match take 1 buf with
  | Ok (b :: _, buf') => Ok (b, buf')
  | Ok ([], _) => Err Malformed (* take 1 never yields an empty slice *)
  | Err e => Err e
  end.

Definition uint (n : nat) : Reader Z := l ← take n; mret (from_be l).
Definition u16 : Reader Z := uint 2.
Definition u32 : Reader Z := uint 4.
Definition u64 : Reader Z := uint 8.

Definition arr (n : nat) : Reader bytes := take n.

Definition blob : Reader bytes :=
  n ← u16;
  if MAX_BLOB <? n then malformed else take (Z.to_nat n).

Definition packet : Reader bytes := λ buf,
  let n := length buf in
  if (n =? 0)%nat || (MAX_PACKET <? Z.of_nat n) then Err Malformed else take n buf.

Definition string_ : Reader string :=
  b ← blob;
  match from_utf8 b with Some s => mret s | None => malformed end.

Definition addr : Reader SocketAddr :=
  tag ← u8;
  ip ← (match tag with
        | x04 => o ← arr 4; mret (V4 o)
        | x06 => o ← arr 16; mret (V6 o)
        | _ => malformed
        end : Reader IpAddr);
  port ← u16;
  mret (SocketAddr_new ip port).

(** [finish]: the end of a message, and of the whole decode. *)
Definition finish {A} (a : A) : bytes → Result ProtoError A := λ buf,
  match buf with [] => Ok a | _ => Err Malformed end.

Definition run {A} (r : Reader A) (buf : bytes) : Result ProtoError A :=
  '(a, rest) ← r buf; finish a rest.

(** ** The writers *)

Definition put_blob (b : bytes) : bytes := be_bytes 2 (Z.of_nat (length b)) ++ b.

Definition put_addr (a : SocketAddr) : bytes :=
  match sa_ip a with
  | V4 o => x04 :: o
  | V6 o => x06 :: o
  end ++ be_bytes 2 (sa_port a).

Definition encode_addrs (addrs : list SocketAddr) : bytes :=
  byte_of_Z (Z.min (Z.of_nat (length addrs)) 32) :: concat (put_addr <$> firstn 32 addrs).

(** [for _ in 0..n { v.push(r.addr().ok()?) }]. *)
Fixpoint addrs (n : nat) : Reader (list SocketAddr) :=
  match n with
  | O => mret []
  | S n' => a ← addr; l ← addrs n'; mret (a :: l)
  end.

Definition decode_addrs (buf : bytes) : option (list SocketAddr) :=
  result_ok (run (n ← u8; addrs (Z.to_nat (byte_to_Z n))) buf).

(** ** Messages *)

Definition ClientMsg_encode (m : ClientMsg) : bytes :=
  match m with
  | Hello role rendezvous_id public_key =>
      [x01] ++ [Role_as_u8 role] ++ rendezvous_id ++ public_key
  | Auth signature => [x02] ++ signature
  | Ping => [x03]
  | Forward blob => [x04] ++ put_blob blob
  | SetCandidates blob => [x05] ++ put_blob blob
  | PunchRequest => [x06]
  | RefreshStun => [x07]
  | CData packet => [x10] ++ packet
  | IdentityAuth signature identity_key identity_signature =>
      [x08] ++ signature ++ identity_key ++ identity_signature
  end.

Definition client_body (tag : byte) : Reader ClientMsg :=
  match tag with
  | x01 =>
      r ← u8;
      match Role_from_u8 r with
      | None => malformed
      | Some role =>
          rendezvous_id ← arr 32; public_key ← arr 32;
          mret (Hello role rendezvous_id public_key)
      end
  | x02 => signature ← arr 64; mret (Auth signature)
  | x03 => mret Ping
  | x04 => b ← blob; mret (Forward b)
  | x05 => b ← blob; mret (SetCandidates b)
  | x06 => mret PunchRequest
  | x07 => mret RefreshStun
  | x10 => p ← packet; mret (CData p)
  | x08 =>
      signature ← arr 64; identity_key ← arr 32; identity_signature ← arr 64;
      mret (IdentityAuth signature identity_key identity_signature)
  | _ => malformed
  end.

Definition ClientMsg_decode (buf : bytes) : Result ProtoError ClientMsg :=
  run (tag ← u8; client_body tag) buf.

(** [u8::from(registered) | (u8::from(gated) << 1)]. *)
Definition status_flags (registered gated : bool) : byte :=
  byte_of_Z (Z.lor (Z.b2z registered) (Z.shiftl (Z.b2z gated) 1)).

Definition ServerMsg_encode (m : ServerMsg) : bytes :=
  match m with
  | Challenge nonce => [x81] ++ nonce
  | Registered stun_username stun_password ttl_secs stun_port =>
      [x82] ++ put_blob (as_bytes stun_username) ++ put_blob (as_bytes stun_password)
        ++ be_bytes 4 ttl_secs ++ be_bytes 2 stun_port
  | Pong => [x83]
  | PeerOnline => [x84]
  | PeerOffline => [x85]
  | Forwarded blob => [x86] ++ put_blob blob
  | PunchNow peer_public start_at_ms nonce attempt peer_candidates =>
      [x87] ++ put_addr peer_public ++ be_bytes 8 start_at_ms ++ nonce
        ++ [attempt] ++ put_blob peer_candidates
  | SData packet => [x90] ++ packet
  | IdentityStatus registered gated => [x88] ++ [status_flags registered gated]
  end.

Definition server_body (tag : byte) : Reader ServerMsg :=
  match tag with
  | x81 => nonce ← arr 32; mret (Challenge nonce)
  | x82 =>
      stun_username ← string_; stun_password ← string_;
      ttl_secs ← u32; stun_port ← u16;
      mret (Registered stun_username stun_password ttl_secs stun_port)
  | x83 => mret Pong
  | x84 => mret PeerOnline
  | x85 => mret PeerOffline
  | x86 => b ← blob; mret (Forwarded b)
  | x87 =>
      peer_public ← addr; start_at_ms ← u64; nonce ← arr 16;
      attempt ← u8; peer_candidates ← blob;
      mret (PunchNow peer_public start_at_ms nonce attempt peer_candidates)
  | x90 => p ← packet; mret (SData p)
  | x88 =>
      flags ← u8;
      (* flags & !0b11 != 0 *)
      if negb (Z.land (byte_to_Z flags) (255 - 3) =? 0) then malformed
      else mret (IdentityStatus (negb (Z.land (byte_to_Z flags) 1 =? 0))
                                (negb (Z.land (byte_to_Z flags) 2 =? 0)))
  | _ => malformed
  end.

Definition ServerMsg_decode (buf : bytes) : Result ProtoError ServerMsg :=
  run (tag ← u8; server_body tag) buf.

#[global] Arguments be_bytes : simpl never.
#[global] Arguments put_blob : simpl never.
#[global] Arguments put_addr : simpl never.
#[global] Arguments status_flags : simpl never.

(** ** Well-formed values

    What the Rust types guarantee (array lengths, integer widths, UTF-8) and
    the size limits the protocol sets on blobs and datagrams. *)

Definition wf_len (n : nat) (l : bytes) : Prop := length l = n.
Definition wf_uint (n : nat) (z : Z) : Prop := 0 ≤ z < 256 ^ Z.of_nat n.
Definition wf_blob (b : bytes) : Prop := Z.of_nat (length b) ≤ MAX_BLOB.
Definition wf_string (s : string) : Prop := valid_str s ∧ wf_blob (as_bytes s).
Definition wf_packet (p : bytes) : Prop := 1 ≤ Z.of_nat (length p) ≤ MAX_PACKET.
Definition wf_ip (ip : IpAddr) : Prop :=
  match ip with V4 o => length o = 4%nat | V6 o => length o = 16%nat end.
Definition wf_addr (a : SocketAddr) : Prop :=
  wf_ip (sa_ip a) ∧ wf_uint 2 (sa_port a) ∧ sa_flowinfo a = 0 ∧ sa_scope_id a = 0.

Definition wf_client (m : ClientMsg) : Prop :=
  match m with
  | Hello _ i k => wf_len 32 i ∧ wf_len 32 k
  | Auth s => wf_len 64 s
  | Forward b | SetCandidates b => wf_blob b
  | CData p => wf_packet p
  | IdentityAuth s k i => wf_len 64 s ∧ wf_len 32 k ∧ wf_len 64 i
  | Ping | PunchRequest | RefreshStun => True
  end.

Definition wf_server (m : ServerMsg) : Prop :=
  match m with
  | Challenge n => wf_len 32 n
  | Registered u p t sp => wf_string u ∧ wf_string p ∧ wf_uint 4 t ∧ wf_uint 2 sp
  | Forwarded b => wf_blob b
  | PunchNow a t n _ c => wf_addr a ∧ wf_uint 8 t ∧ wf_len 16 n ∧ wf_blob c
  | SData p => wf_packet p
  | Pong | PeerOnline | PeerOffline | IdentityStatus _ _ => True
  end.

(** ** The codec interface

    A reader and a writer agree on the values satisfying [P]: what is written
    is read back whatever follows it, and what is read was written. *)

Class Codec {A} (r : Reader A) (w : A → bytes) (P : A → Prop) : Prop := {
  codec_read a rest : P a → r (w a ++ rest) = Ok (a, rest);
  codec_sound buf a rest : r buf = Ok (a, rest) → buf = w a ++ rest ∧ P a;
}.
#[global] Hint Mode Codec + + - - : typeclass_instances.

Lemma reader_bind_run {A B} (r : Reader A) (f : A → Reader B) buf a rest :
  r buf = Ok (a, rest) → (r ≫= f) buf = f a rest.
Proof. unfold mbind, reader_bind. by intros ->. Qed.

Lemma reader_bind_inv {A B} (r : Reader A) (f : A → Reader B) buf x :
  (r ≫= f) buf = Ok x → ∃ a rest, r buf = Ok (a, rest) ∧ f a rest = Ok x.
Proof. unfold mbind, reader_bind. destruct (r buf) as [[a rest]|e]; naive_solver. Qed.

Lemma run_inv {A} (r : Reader A) buf a : run r buf = Ok a ↔ r buf = Ok (a, []).
Proof.
  unfold run. destruct (r buf) as [[a' rest]|e]; simpl; [|done].
  destruct rest; simpl; naive_solver.
Qed.

#[export] Instance take_codec n : Codec (take n) id (wf_len n).
Proof.
  split; unfold take, wf_len, id.
  - intros l rest <-. rewrite (proj2 (Nat.ltb_ge _ _)) by (rewrite length_app; lia).
    by rewrite take_app_length, drop_app_length.
  - intros buf a rest. destruct (Nat.ltb_spec (length buf) n); [done|].
    intros [= <- <-]. rewrite take_drop, length_take. split; [done|lia].
Qed.

Lemma take_read n l rest : length l = n → take n (l ++ rest) = Ok (l, rest).
Proof. apply (codec_read (Codec := take_codec n)). Qed.

#[export] Instance arr_codec n : Codec (arr n) id (wf_len n).
Proof. apply take_codec. Qed.

#[export] Instance u8_codec : Codec u8 (λ b, [b]) (λ _, True).
Proof.
  split.
  - intros b rest _. reflexivity.
  - intros [|b buf] a rest; unfold u8, take; simpl; [done|].
    by intros [= <- <-].
Qed.

Lemma u8_read b rest : u8 (b :: rest) = Ok (b, rest).
Proof. reflexivity. Qed.

#[export] Instance uint_codec n : Codec (uint n) (be_bytes n) (wf_uint n).
Proof.
  split; unfold uint, wf_uint.
  - intros z rest Hz. erewrite reader_bind_run
      by (apply take_read, be_bytes_length).
    by rewrite from_be_bytes_small.
  - intros buf z rest (l & r' & Hl & [= <- <-])%reader_bind_inv.
    apply codec_sound in Hl as [-> <-]. unfold id.
    rewrite be_bytes_from. split; [done|apply from_be_range].
Qed.

#[export] Instance u16_codec : Codec u16 (be_bytes 2) (wf_uint 2) := uint_codec 2.
#[export] Instance u32_codec : Codec u32 (be_bytes 4) (wf_uint 4) := uint_codec 4.
#[export] Instance u64_codec : Codec u64 (be_bytes 8) (wf_uint 8) := uint_codec 8.

Lemma wf_blob_len b : wf_blob b → wf_uint 2 (Z.of_nat (length b)).
Proof. unfold wf_blob, wf_uint, MAX_BLOB. simpl. lia. Qed.

#[export] Instance blob_codec : Codec blob put_blob wf_blob.
Proof.
  split; unfold blob, put_blob.
  - intros b rest Hb. rewrite <- app_assoc.
    erewrite reader_bind_run by (apply (codec_read (r := u16)), wf_blob_len, Hb).
    rewrite (proj2 (Z.ltb_ge _ _)) by done.
    rewrite Nat2Z.id. by apply take_read.
  - intros buf b rest (n & r1 & [-> Hn]%codec_sound & H)%reader_bind_inv.
    destruct (Z.ltb_spec MAX_BLOB n); [done|].
    apply codec_sound in H as [-> Hl]. unfold wf_len, wf_uint, id, wf_blob in *.
    rewrite Hl, Z2Nat.id, <- app_assoc by lia. done.
Qed.

#[export] Instance string_codec : Codec string_ (λ s, put_blob (as_bytes s)) wf_string.
Proof.
  split; unfold string_.
  - intros s rest [Hv Hb].
    erewrite reader_bind_run by (apply (codec_read (r := blob)), Hb).
    by rewrite from_utf8_as_bytes.
  - intros buf s rest (b & r1 & [-> Hb]%codec_sound & H)%reader_bind_inv.
    destruct (from_utf8 b) as [s'|] eqn:E; [|done]. injection H as -> ->.
    apply from_utf8_Some in E as [-> Hv]. by split.
Qed.

#[export] Instance addr_codec : Codec addr put_addr wf_addr.
Proof.
  split; unfold addr.
  - intros [[o|o] port fi sc] rest (Ho & Hp & Hfi & Hsc); simpl in Ho, Hp, Hfi, Hsc; subst;
      unfold put_addr; cbn [sa_ip sa_port app]; rewrite <- app_assoc;
      rewrite (reader_bind_run _ _ _ _ _ (u8_read _ _));
      erewrite reader_bind_run by (erewrite reader_bind_run
        by (apply take_read, Ho); reflexivity);
      erewrite reader_bind_run by (apply (codec_read (r := u16)), Hp); done.
  - intros buf a rest (t & r1 & [-> _]%codec_sound & H)%reader_bind_inv.
    apply reader_bind_inv in H as (ip & r2 & Hip & H).
    apply reader_bind_inv in H as (port & r3 & Hport & [= <- <-]).
    apply codec_sound in Hport as [-> Hport].
    assert (∃ o, r1 = o ++ be_bytes 2 port ++ r3 ∧
      (t = x04 ∧ ip = V4 o ∧ length o = 4%nat ∨ t = x06 ∧ ip = V6 o ∧ length o = 16%nat))
      as (o & -> & [(->&->&?)|(->&->&?)]).
    { destruct t; try discriminate;
        apply reader_bind_inv in Hip as (o & r4 & [-> Ho]%codec_sound & [= <- ->]);
        exists o; unfold id; auto 10. }
    all: unfold put_addr, wf_addr, wf_ip; simpl; by rewrite <- app_assoc.
Qed.

(** Each codec as a rewrite rule on a bind, for running decoders forward. *)

Lemma bind_read {A B} (r : Reader A) w P `{!Codec r w P} (f : A → Reader B) a rest :
  P a → (r ≫= f) (w a ++ rest) = f a rest.
Proof. intros. by apply reader_bind_run, codec_read. Qed.

Lemma bind_u8 {B} (f : byte → Reader B) b rest : (u8 ≫= f) (b :: rest) = f b rest.
Proof. done. Qed.

Lemma bind_arr {B} n (f : bytes → Reader B) l rest :
  wf_len n l → (arr n ≫= f) (l ++ rest) = f l rest.
Proof. apply (bind_read (arr n) id (wf_len n)). Qed.

Definition bind_u16 {B} := @bind_read Z B u16 _ _ _.
Definition bind_u32 {B} := @bind_read Z B u32 _ _ _.
Definition bind_u64 {B} := @bind_read Z B u64 _ _ _.
Definition bind_blob {B} := @bind_read bytes B blob _ _ _.
Definition bind_string {B} := @bind_read string B string_ _ _ _.
Definition bind_addr {B} := @bind_read SocketAddr B addr _ _ _.

Create Rewrite HintDb codec.
#[export] Hint Rewrite @bind_u8 : codec.
#[export] Hint Rewrite @bind_arr @bind_u16 @bind_u32 @bind_u64 @bind_blob @bind_string
  @bind_addr using done : codec.

(** [packet] takes the rest of the frame: its codec law has no remainder. *)
Lemma packet_read p : wf_packet p → packet p = Ok (p, []).
Proof.
  unfold wf_packet, packet. intros.
  destruct (Nat.eqb_spec (length p) 0); [lia|].
  destruct (Z.ltb_spec MAX_PACKET (Z.of_nat (length p))); [lia|]. simpl.
  rewrite <- (app_nil_r p) at 2. by apply take_read.
Qed.

Lemma packet_sound buf p rest :
  packet buf = Ok (p, rest) → p = buf ∧ rest = [] ∧ wf_packet p.
Proof.
  unfold packet, wf_packet.
  destruct (Nat.eqb_spec (length buf) 0); [done|].
  destruct (Z.ltb_spec MAX_PACKET (Z.of_nat (length buf))); [done|]. simpl.
  intros [-> Hl]%(codec_sound (Codec := take_codec _)). unfold id, wf_len in *.
  rewrite length_app in *. assert (rest = []) as -> by (apply nil_length_inv; lia).
  rewrite app_nil_r in *. split_and!; try done; lia.
Qed.

Lemma Role_from_as_u8 b r : Role_from_u8 b = Some r → b = Role_as_u8 r.
Proof. destruct b; try discriminate; by intros [= <-]. Qed.

(** Runs a decoder on the concatenation its encoder produced. *)
Ltac run_codec :=
  rewrite ?run_inv, <- ?app_assoc; cbn [app];
  repeat (progress autorewrite with codec;
    cbn beta iota delta [client_body server_body Role_as_u8 Role_from_u8]); try done.

(** Inverts a successful decoder run into the fields it read. *)
Ltac invert_codec :=
  repeat match goal with
  | H : (_ ≫= _) _ = Ok _ |- _ => apply reader_bind_inv in H as (? & ? & ? & H)
  | H : match Role_from_u8 ?b with _ => _ end _ = Ok _ |- _ =>
      destruct (Role_from_u8 b) eqn:?; [|discriminate H]
  | H : Role_from_u8 _ = Some _ |- _ => apply Role_from_as_u8 in H as ->
  | H : packet _ = Ok _ |- _ => apply packet_sound in H as (-> & -> & ?)
  | H : ?r _ = Ok (_, _) |- _ => apply (codec_sound (r := r)) in H as [-> ?]
  | H : mret _ _ = Ok _ |- _ => injection H as ?; subst
  | H : malformed _ = Ok _ |- _ => discriminate H
  end.

Lemma status_flags_land r g :
  negb (Z.land (byte_to_Z (status_flags r g)) (255 - 3) =? 0) = false ∧
  negb (Z.land (byte_to_Z (status_flags r g)) 1 =? 0) = r ∧
  negb (Z.land (byte_to_Z (status_flags r g)) 2 =? 0) = g.
Proof. by destruct r, g. Qed.

Lemma status_flags_inv f :
  negb (Z.land (byte_to_Z f) (255 - 3) =? 0) = false →
  f = status_flags (negb (Z.land (byte_to_Z f) 1 =? 0)) (negb (Z.land (byte_to_Z f) 2 =? 0)).
Proof. destruct f; try discriminate; reflexivity. Qed.

Lemma client_decode_encode m : wf_client m → ClientMsg_decode (ClientMsg_encode m) = Ok m.
Proof.
  unfold ClientMsg_decode. rewrite <- (app_nil_r (ClientMsg_encode m)).
  destruct m as [[] i k|s| |b|b| | |p|s k i]; simpl wf_client; intros Hw;
    destruct_and?; unfold ClientMsg_encode; run_codec.
  rewrite app_nil_r. by erewrite reader_bind_run by (by apply packet_read).
Qed.

Lemma client_decode_canonical buf m :
  ClientMsg_decode buf = Ok m → buf = ClientMsg_encode m ∧ wf_client m.
Proof.
  unfold ClientMsg_decode. rewrite run_inv.
  intros (t & r & [-> _]%codec_sound & H)%reader_bind_inv.
  destruct t; try discriminate H; simpl client_body in H; invert_codec;
    unfold id; simpl; rewrite ?app_nil_r, <- ?app_assoc; auto.
Qed.

(** the client codec is exact: the decoder returns a message precisely on
    the one encoding of a well-formed message.  So every message a client can
    send is read back as itself, and trailing bytes, oversized blobs, unknown
    tags and alternative encodings are all refused. *)
Theorem client_codec buf m :
  ClientMsg_decode buf = Ok m ↔ wf_client m ∧ buf = ClientMsg_encode m.
Proof.
  split; [by intros [-> ?]%client_decode_canonical|].
  intros [? ->]. by apply client_decode_encode.
Qed.

Lemma server_decode_encode m : wf_server m → ServerMsg_decode (ServerMsg_encode m) = Ok m.
Proof.
  unfold ServerMsg_decode. rewrite <- (app_nil_r (ServerMsg_encode m)).
  destruct m as [n|u p t sp| | | |b|a t n at_ c|p|r g]; simpl wf_server; intros Hw;
    destruct_and?; unfold ServerMsg_encode; run_codec.
  - rewrite app_nil_r. by erewrite reader_bind_run by (by apply packet_read).
  - destruct (status_flags_land r g) as (->&->&->). done.
Qed.

Lemma server_decode_canonical buf m :
  ServerMsg_decode buf = Ok m → buf = ServerMsg_encode m ∧ wf_server m.
Proof.
  unfold ServerMsg_decode. rewrite run_inv.
  intros (t & r & [-> _]%codec_sound & H)%reader_bind_inv.
  destruct t; try discriminate H; simpl server_body in H; invert_codec;
    unfold id; simpl; rewrite ?app_nil_r, <- ?app_assoc; auto 10.
  match goal with H : (if ?b then _ else _) _ = Ok _ |- _ => destruct b eqn:Hf; [done|] end.
  invert_codec. split; [|done]. unfold ServerMsg_encode. by rewrite <- status_flags_inv.
Qed.

(** the server codec is exact, in the same sense. *)
Theorem server_codec buf m :
  ServerMsg_decode buf = Ok m ↔ wf_server m ∧ buf = ServerMsg_encode m.
Proof.
  split; [by intros [-> ?]%server_decode_canonical|].
  intros [? ->]. by apply server_decode_encode.
Qed.

(** ** Address lists and frames *)

Lemma addrs_codec_read l rest :
  Forall wf_addr l → addrs (length l) (concat (put_addr <$> l) ++ rest) = Ok (l, rest).
Proof.
  induction 1 as [|a l Ha Hl IH]; [done|]. simpl. rewrite <- app_assoc.
  by rewrite bind_addr, (reader_bind_run _ _ _ _ _ IH) by done.
Qed.

Lemma addrs_codec_sound n buf l rest :
  addrs n buf = Ok (l, rest) →
  buf = concat (put_addr <$> l) ++ rest ∧ length l = n ∧ Forall wf_addr l.
Proof.
  revert buf l rest. induction n as [|n IH]; intros buf l rest; simpl.
  - by intros [= <- <-].
  - intros H. apply reader_bind_inv in H as (a & r1 & [-> Ha]%codec_sound & H).
    apply reader_bind_inv in H as (l' & r2 & (-> & <- & Hl)%IH & [= <- <-]).
    simpl. rewrite <- app_assoc. auto.
Qed.

(** A candidate address list survives its round trip up to the cap of
    32 addresses, beyond which the encoder truncates it. *)
Theorem addrs_roundtrip l :
  Forall wf_addr l → decode_addrs (encode_addrs l) = Some (firstn 32 l).
Proof.
  intros Hl. unfold decode_addrs, encode_addrs.
  assert (run (n ← u8; addrs (Z.to_nat (byte_to_Z n)))
    (byte_of_Z (Z.min (Z.of_nat (length l)) 32) :: concat (put_addr <$> firstn 32 l))
    = Ok (firstn 32 l)) as ->; [|done].
  rewrite run_inv, bind_u8, byte_to_of, Z.mod_small by lia.
  replace (Z.to_nat (Z.min (Z.of_nat (length l)) 32)) with (length (firstn 32 l))
    by (rewrite length_take; lia).
  rewrite <- (app_nil_r (concat _)). by apply addrs_codec_read, Forall_take.
Qed.

(** A payload within the frame limit is read back exactly, and the rest of
    the stream is left for the next frame. *)
Lemma frame_roundtrip payload rest :
  Z.of_nat (length payload) ≤ MAX_FRAME →
  read_frame (write_frame payload ++ rest) = Ok (payload, rest).
Proof.
  intros Hlen. unfold read_frame, write_frame, read_exact. rewrite <- app_assoc.
  rewrite (proj2 (Nat.ltb_ge _ _)) by (rewrite length_app, be_bytes_length; lia).
  unfold mbind, result_bind.
  rewrite (take_app_length' (be_bytes 4 _)), (drop_app_length' (be_bytes 4 _))
    by (symmetry; apply be_bytes_length).
  unfold MAX_FRAME in *.
  rewrite from_be_bytes_small by (simpl; lia).
  rewrite (proj2 (Z.ltb_ge _ _)), Nat2Z.id by lia.
  rewrite (proj2 (Nat.ltb_ge _ _)) by (rewrite length_app; lia).
  by rewrite take_app_length, drop_app_length.
Qed.

(** Every message the decoders accept fits in one frame, so [write_frame]'s
    size assertion holds for everything the relay forwards. *)
Lemma put_addr_length a : wf_addr a → (length (put_addr a) ≤ 19)%nat.
Proof.
  intros [Hip _]. unfold put_addr. destruct (sa_ip a); simpl in *;
    rewrite length_app, be_bytes_length, Hip; lia.
Qed.

Lemma put_blob_length b : length (put_blob b) = (2 + length b)%nat.
Proof. unfold put_blob. by rewrite length_app, be_bytes_length. Qed.

Lemma client_fits m :
  wf_client m → Z.of_nat (length (ClientMsg_encode m)) ≤ MAX_FRAME.
Proof.
  unfold MAX_FRAME.
  destruct m; simpl; unfold wf_len, wf_blob, wf_packet, MAX_BLOB, MAX_PACKET;
    rewrite ?length_app, ?put_blob_length; simpl; lia.
Qed.

(** Two maximal credential strings would not fit: only their sum is bounded
    by the frame limit. *)
Definition credentials_fit (m : ServerMsg) : Prop :=
  match m with
  | Registered u p _ _ => Z.of_nat (length (as_bytes u) + length (as_bytes p)) ≤ MAX_FRAME - 11
  | _ => True
  end.

Lemma server_fits m :
  wf_server m → credentials_fit m → Z.of_nat (length (ServerMsg_encode m)) ≤ MAX_FRAME.
Proof.
  unfold MAX_FRAME.
  destruct m as [|u p t sp| | | | |a ms nn at_ c| |]; simpl;
    unfold wf_len, wf_string, wf_blob, wf_packet, MAX_BLOB, MAX_PACKET, MAX_FRAME;
    intros; destruct_and?; try pose proof (put_addr_length a ltac:(done));
    repeat (rewrite ?length_app, ?put_blob_length, ?be_bytes_length; simpl); lia.
Qed.

(** End to end over one connection: whatever well-formed message each side
    writes as a frame is what the other side reads and decodes, the bytes that
    follow are left untouched, and no frame the decoders accept is ever
    refused as too large. *)
Theorem framed_messages m n rest :
  wf_client m → wf_server n → credentials_fit n →
  ('(p, r) ← read_frame (write_frame (ClientMsg_encode m) ++ rest);
   m' ← ClientMsg_decode p; Ok (m', r)) = Ok (m, rest) ∧
  ('(p, r) ← read_frame (write_frame (ServerMsg_encode n) ++ rest);
   n' ← ServerMsg_decode p; Ok (n', r)) = Ok (n, rest).
Proof.
  intros Hm Hn Hc. rewrite !frame_roundtrip by auto using client_fits, server_fits.
  simpl. by rewrite client_decode_encode, server_decode_encode.
Qed.

(** ** Witnesses *)

Definition ex_hello : ClientMsg := Hello Device (replicate 32 x07) (replicate 32 x09).
Definition ex_addr : SocketAddr := SocketAddr_new (V4 [xc0; xa8; x01; x02]) 443.
Definition ex_punch : ServerMsg := PunchNow ex_addr 1700000000000 (replicate 16 x01) x02 [xaa; xbb].

Lemma addrs_roundtrip_witness : decode_addrs (encode_addrs [ex_addr]) = Some [ex_addr].
Proof. apply (addrs_roundtrip [ex_addr]). repeat constructor; by vm_compute. Defined.

Lemma framed_messages_witness :
  ('(p, r) ← read_frame (write_frame (ClientMsg_encode ex_hello) ++ [x00]);
   m' ← ClientMsg_decode p; Ok (m', r)) = Ok (ex_hello, [x00]) ∧
  ('(p, r) ← read_frame (write_frame (ServerMsg_encode ex_punch) ++ [x00]);
   n' ← ServerMsg_decode p; Ok (n', r)) = Ok (ex_punch, [x00]).
Proof. apply framed_messages; by vm_compute. Defined.

End Proto.
