(* ===== verification/RelayStun.v ===== *)
(** * The relay's STUN subset

    Models peckboard-relay/src/stun.rs: authenticated RFC 5389 Binding
    requests and responses.  HMAC-SHA1 is a crate, so it is a parameter of
    the model; the theorems use only that its tags are 20 bytes long. *)

From S2P Require Import Prelude RelayProto.
From Stdlib Require Import Strings.Byte.
Import Proto(IpAddr, V4, V6, SocketAddr, mkSocketAddr, sa_ip, sa_port,
  SocketAddr_new, wf_ip, wf_addr, wf_uint).

Module Stun.

Definition MAGIC_COOKIE : Z := 0x2112A442.
Definition BINDING_REQUEST : Z := 0x0001.
Definition BINDING_SUCCESS : Z := 0x0101.
Definition ATTR_USERNAME : Z := 0x0006.
Definition ATTR_MESSAGE_INTEGRITY : Z := 0x0008.
Definition ATTR_XOR_MAPPED_ADDRESS : Z := 0x0020.
Definition ATTR_FINGERPRINT : Z := 0x8028.
Definition HEADER_LEN : nat := 20.
Definition MI_LEN : nat := 20.
Definition MAX_PACKET : nat := 548.
Definition MAX_USERNAME : nat := 64.

(** ** Parsing *)

Record Request := mkRequest {
  txid : bytes;
  username : string;
  req_packet : bytes;
  mi_offset : nat;
  req_mi : bytes;
}.

Definition header_ok (p : bytes) (msg_type : Z) : option bytes :=
  if (length p <? HEADER_LEN)%nat || (MAX_PACKET <? length p)%nat
     || negb (length p mod 4 =? 0)%nat then None
  else if negb (from_be (take 2 p) =? msg_type) then None
  else if negb (from_be (take 2 (drop 2 p)) =? Z.of_nat (length p - HEADER_LEN)) then None
  else if negb (from_be (take 4 (drop 4 p)) =? MAGIC_COOKIE) then None
  else Some (take 12 (drop 8 p)).

(** How one run of the attribute loop ends. *)
Inductive Walk (S : Type) := WalkOk (s : S) | WalkErr | WalkFuel.
Arguments WalkOk {S} s.
Arguments WalkErr {S}.
Arguments WalkFuel {S}.

(** The [while i < p.len()] loop of [walk_attrs]; the closure's captured
    variables are the threaded state [s].  [l.div_ceil(4) * 4] rounds the
    value length up to whole words. *)
Fixpoint walk {S : Type} (f : S → Z → bytes → nat → option S) (p : bytes)
    (fuel i : nat) (s : S) : Walk S :=
  if (length p <=? i)%nat then WalkOk s
  else match fuel with
  | O => WalkFuel
  | Datatypes.S fuel' =>
    if (length p <? i + 4)%nat then WalkErr
    else
      let t := from_be (take 2 (drop i p)) in
      let l := Z.to_nat (from_be (take 2 (drop (i + 2) p))) in
      let start := (i + 4)%nat in
      let end_ := (start + l)%nat in
      if (length p <? end_)%nat then WalkErr
      else match f s t (take l (drop start p)) i with
      | None => WalkErr
      | Some s' => walk f p fuel' (start + (l + 3) / 4 * 4) s'
      end
  end.

Definition walk_attrs {S : Type} (p : bytes) (f : S → Z → bytes → nat → option S) (s : S)
    : option S :=
  match walk f p (length p) HEADER_LEN s with
  | WalkOk s' => Some s'
  | WalkErr | WalkFuel => None
  end.

(** [v.try_into::<[u8; MI_LEN]>().ok()?]. *)
Definition mi_array (v : bytes) : option bytes :=
  if (length v =? MI_LEN)%nat then Some v else None.

Definition request_attr (s : option string * option (bytes * nat)) (t : Z) (v : bytes)
    (off : nat) : option (option string * option (bytes * nat)) :=
  let '(user, mi) := s in
  if bool_decide (is_Some mi) && negb (t =? ATTR_FINGERPRINT) then None
  else if t =? ATTR_USERNAME then
    if (MAX_USERNAME <? length v)%nat || bool_decide (is_Some user) then None
    else u ← from_utf8 v; Some (Some u, mi)
  else if t =? ATTR_MESSAGE_INTEGRITY then
    m ← mi_array v; Some (user, Some (m, off))
  else Some s.

Definition parse_request (p : bytes) : option Request :=
  tx ← header_ok p BINDING_REQUEST;
  '(user, mi) ← walk_attrs p request_attr (None, None);
  '(m, off) ← mi;
  u ← user;
  Some (mkRequest tx u p off m).

(** ** Addresses *)

Definition be_cookie : bytes := be_bytes 4 MAGIC_COOKIE.

(** [port ^ (MAGIC_COOKIE >> 16) as u16]. *)
Definition xor_port (port : Z) : Z := Z.lxor port (Z.shiftr MAGIC_COOKIE 16).

Definition xor_addr (a : SocketAddr) (tx : bytes) : bytes :=
  let port := xor_port (sa_port a) in
  let mask := be_cookie ++ tx in
  match sa_ip a with
  | V4 o => [x00; x01] ++ be_bytes 2 port ++ zip_with byte_xor o mask
  | V6 o => [x00; x02] ++ be_bytes 2 port ++ zip_with byte_xor o mask
  end.

Definition decode_xor_addr (v tx : bytes) : option SocketAddr :=
  if (length v <? 4)%nat then None
  else
    let port := xor_port (from_be (take 2 (drop 2 v))) in
    let mask := be_cookie ++ tx in
    let raw := zip_with byte_xor (drop 4 v) mask in
    match v !! 1%nat, length raw with
    | Some x01, 4%nat => Some (SocketAddr_new (V4 raw) port)
    | Some x02, 16%nat => Some (SocketAddr_new (V6 raw) port)
    | _, _ => None
    end.

(** ** Building *)

(** [while !out.len().is_multiple_of(4) { out.push(0) }]. *)
Fixpoint pad4 (fuel : nat) (out : bytes) : bytes :=
  if (length out mod 4 =? 0)%nat then out
  else match fuel with O => out | S fuel' => pad4 fuel' (out ++ [x00]) end.

Definition put_attr (out : bytes) (t : Z) (v : bytes) : bytes :=
  pad4 3 (out ++ be_bytes 2 t ++ be_bytes 2 (Z.of_nat (length v)) ++ v).

Definition header (msg_type : Z) (tx : bytes) : bytes :=
  be_bytes 2 msg_type ++ be_bytes 2 0 ++ be_cookie ++ tx.

(** [out[2..4].copy_from_slice(&len.to_be_bytes())]. *)
Definition set_len (out : bytes) (len : Z) : bytes :=
  take 2 out ++ be_bytes 2 len ++ drop 4 out.

#[global] Arguments set_len : simpl never.
#[global] Arguments header : simpl never.
#[global] Arguments be_cookie : simpl never.
#[global] Arguments put_attr : simpl never.

(** ** The attribute layout *)

(** One attribute as it lies in a packet: type, length, value, zero padding
    to the next word. *)
Definition attr (t : Z) (v : bytes) : bytes :=
  be_bytes 2 t ++ be_bytes 2 (Z.of_nat (length v)) ++ v
    ++ replicate ((length v + 3) / 4 * 4 - length v) x00.

#[global] Arguments attr : simpl never.

Definition aligned (l : bytes) : Prop := (length l mod 4 = 0)%nat.

Lemma attr_length t v : length (attr t v) = (4 + (length v + 3) / 4 * 4)%nat.
Proof. unfold attr. rewrite !length_app, !be_bytes_length, length_replicate. dlia. Qed.

Lemma pad4_spec fuel out :
  ((4 - length out mod 4) mod 4 ≤ fuel)%nat →
  pad4 fuel out = out ++ replicate ((4 - length out mod 4) mod 4) x00.
Proof.
  revert out. induction fuel as [|fuel IH]; intros out Hf; cbn [pad4].
  - destruct (Nat.eqb_spec (length out mod 4) 0); [|dlia].
    replace ((4 - length out mod 4) mod 4)%nat with O by dlia.
    symmetry. apply app_nil_r.
  - destruct (Nat.eqb_spec (length out mod 4) 0) as [E|E].
    + rewrite E. symmetry. apply app_nil_r.
    + rewrite IH by (rewrite length_app; cbn [length]; dlia).
      rewrite <- app_assoc. f_equal. rewrite length_app. simpl length.
      replace ((4 - length out mod 4) mod 4)%nat
        with (S ((4 - (length out + 1) mod 4) mod 4)) by dlia. done.
Qed.

Lemma put_attr_aligned out t v : aligned out → put_attr out t v = out ++ attr t v.
Proof.
  unfold aligned, put_attr, attr. intros Ho.
  rewrite pad4_spec by dlia. rewrite <- !app_assoc. do 5 f_equal.
  rewrite !length_app, !be_bytes_length. dlia.
Qed.

Lemma aligned_attr out t v : aligned out → aligned (out ++ attr t v).
Proof. unfold aligned. rewrite length_app, attr_length. dlia. Qed.

Lemma take_drop_middle_app {A} (a b c : list A) n :
  length a = n → take (length b) (drop n (a ++ b ++ c)) = b.
Proof. intros <-. by rewrite drop_app_length, take_app_length. Qed.

Lemma walk_step {S} (f : S → Z → bytes → nat → option S) pre t v rest fuel s :
  wf_uint 2 t → Z.of_nat (length v) < 65536 →
  walk f (pre ++ attr t v ++ rest) (Datatypes.S fuel) (length pre) s =
  match f s t v (length pre) with
  | Some s' => walk f (pre ++ attr t v ++ rest) fuel (length (pre ++ attr t v)) s'
  | None => WalkErr
  end.
Proof.
  intros Ht Hv. unfold wf_uint in Ht. set (p := pre ++ attr t v ++ rest).
  assert (length p = (length pre + (4 + (length v + 3) / 4 * 4) + length rest)%nat) as Hp
    by (unfold p; rewrite !length_app, attr_length; dlia).
  assert (from_be (take 2 (drop (length pre) p)) = t) as Et.
  { unfold p, attr. rewrite <- !app_assoc.
    replace 2%nat with (length (be_bytes 2 t)) at 1 by apply be_bytes_length.
    rewrite take_drop_middle_app by done. by rewrite from_be_bytes_small. }
  assert (from_be (take 2 (drop (length pre + 2) p)) = Z.of_nat (length v)) as El.
  { unfold p, attr. rewrite <- !app_assoc, (app_assoc pre).
    replace 2%nat with (length (be_bytes 2 (Z.of_nat (length v)))) at 1
      by apply be_bytes_length.
    rewrite take_drop_middle_app by (by rewrite length_app, be_bytes_length).
    rewrite from_be_bytes_small by (simpl; dlia). done. }
  assert (take (length v) (drop (length pre + 4) p) = v) as Ev.
  { unfold p, attr. rewrite <- !app_assoc, !(app_assoc pre), (app_assoc (pre ++ _)).
    apply take_drop_middle_app. rewrite !length_app, !be_bytes_length. dlia. }
  cbn [walk]. rewrite (proj2 (Nat.leb_gt _ _)) by dlia.
  rewrite (proj2 (Nat.ltb_ge (length p) (length pre + 4))) by dlia.
  rewrite El, Nat2Z.id, Ev, Et.
  rewrite (proj2 (Nat.ltb_ge _ _)) by dlia.
  rewrite length_app, attr_length. by replace (length pre + 4 + (length v + 3) / 4 * 4)%nat
    with (length pre + (4 + (length v + 3) / 4 * 4))%nat by dlia.
Qed.

Lemma walk_end {S} (f : S → Z → bytes → nat → option S) p fuel s :
  walk f p fuel (length p) s = WalkOk s.
Proof. destruct fuel; simpl; by rewrite Nat.leb_refl. Qed.

(** The loop advances at least one word per round, so a budget of one round
    per byte is never exhausted: [walk_attrs] fails only on malformed input. *)
Lemma walk_terminates {S} (f : S → Z → bytes → nat → option S) p fuel i s :
  (length p ≤ i + 4 * fuel)%nat → walk f p fuel i s ≠ WalkFuel.
Proof.
  revert i s. induction fuel as [|fuel IH]; intros i s Hf; cbn [walk].
  - by rewrite (proj2 (Nat.leb_le _ _)) by dlia.
  - destruct (length p <=? i)%nat; [done|].
    destruct (length p <? i + 4)%nat; [done|].
    destruct (length p <? _)%nat; [done|].
    destruct (f _ _ _ _); [|done]. apply IH. dlia.
Qed.

(** ** Packets *)

Lemma header_length ty tx : length tx = 12%nat → length (header ty tx) = HEADER_LEN.
Proof. intros H. unfold header, be_cookie. by rewrite !length_app, !be_bytes_length, H. Qed.

Lemma set_len_header ty tx len body :
  length tx = 12%nat →
  set_len (header ty tx ++ body) len = be_bytes 2 ty ++ be_bytes 2 len ++ be_cookie ++ tx ++ body.
Proof. intros Htx. reflexivity. Qed.

Lemma set_len_set_len l a b : (4 ≤ length l)%nat → set_len (set_len l a) b = set_len l b.
Proof.
  intros Hl. unfold set_len.
  destruct l as [|b0 [|b1 [|b2 [|b3 l]]]]; simpl in Hl; try dlia. reflexivity.
Qed.

Lemma set_len_length l a : (4 ≤ length l)%nat → length (set_len l a) = length l.
Proof.
  intros Hl. unfold set_len.
  rewrite !length_app, be_bytes_length, length_take, length_drop. dlia.
Qed.

Lemma set_len_take n l a :
  (4 ≤ n)%nat → (4 ≤ length l)%nat → take n (set_len l a) = set_len (take n l) a.
Proof.
  intros Hn Hl. unfold set_len. do 4 (destruct n as [|n]; [lia|]).
  by destruct l as [|b0 [|b1 [|b2 [|b3 l]]]]; simpl in Hl; try lia.
Qed.

Lemma set_len_app l k a : (4 ≤ length l)%nat → set_len (l ++ k) a = set_len l a ++ k.
Proof.
  intros Hl. unfold set_len.
  by destruct l as [|b0 [|b1 [|b2 [|b3 l]]]]; simpl in Hl; try lia.
Qed.

Lemma header_long ty tx : length tx = 12%nat → (4 ≤ length (header ty tx))%nat.
Proof. intros. rewrite header_length by done. unfold HEADER_LEN. lia. Qed.

Lemma set_len_header_length ty tx a :
  length tx = 12%nat → length (set_len (header ty tx) a) = HEADER_LEN.
Proof. intros. rewrite set_len_length by (by apply header_long). by apply header_length. Qed.

(** What [header_ok] checks of a packet laid out as the builders lay it out. *)
Lemma header_ok_built ty tx body :
  wf_uint 2 ty → length tx = 12%nat → aligned body → (length body ≤ 528)%nat →
  header_ok (set_len (header ty tx ++ body) (Z.of_nat (length body))) ty = Some tx.
Proof.
  intros Hty Htx Hb Hl. rewrite set_len_header by done.
  assert (length (be_bytes 2 ty ++ be_bytes 2 (Z.of_nat (length body)) ++ be_cookie ++ tx ++ body)
    = (20 + length body)%nat) as Hlen
    by (unfold be_cookie; rewrite !length_app, !be_bytes_length, Htx; lia).
  unfold header_ok. rewrite Hlen. unfold aligned in Hb. unfold HEADER_LEN, MAX_PACKET.
  rewrite (proj2 (Nat.ltb_ge (20 + length body) 20)) by lia.
  rewrite (proj2 (Nat.ltb_ge 548 _)) by lia.
  rewrite (proj2 (Nat.eqb_eq _ _)) by dlia. cbn [orb negb].
  change (take 2 (be_bytes 2 ty ++ ?r)) with (be_bytes 2 ty).
  rewrite from_be_bytes_small, Z.eqb_refl by done. cbn [negb].
  match goal with |- context [take 2 (drop 2 ?l)] =>
    change (take 2 (drop 2 l)) with (be_bytes 2 (Z.of_nat (length body)));
    change (take 4 (drop 4 l)) with be_cookie;
    change (take 12 (drop 8 l)) with (take 12 (tx ++ body)) end.
  rewrite from_be_bytes_small by (simpl; lia).
  replace (20 + length body - 20)%nat with (length body) by lia.
  rewrite Z.eqb_refl. cbn [negb].
  rewrite take_app_length' by done. done.
Qed.

(** Invariants of the closure's state are invariants of the whole walk; each
    call sees a type, a value and an offset that lie inside the packet. *)
Lemma walk_invariant {S} (f : S → Z → bytes → nat → option S) (p : bytes) (I : S → Prop) :
  (∀ s t v off s', I s → (HEADER_LEN ≤ off)%nat → (off + 4 + length v ≤ length p)%nat →
     t = from_be (take 2 (drop off p)) → v = take (length v) (drop (off + 4) p) →
     f s t v off = Some s' → I s') →
  ∀ fuel i s s', I s → (HEADER_LEN ≤ i)%nat → walk f p fuel i s = WalkOk s' → I s'.
Proof.
  intros Hf. induction fuel as [|fuel IH]; intros i s s' Hs Hi; cbn [walk].
  - destruct (length p <=? i)%nat; [by intros [= <-]|done].
  - destruct (length p <=? i)%nat; [by intros [= <-]|].
    destruct (Nat.ltb_spec (length p) (i + 4)); [done|].
    set (l := Z.to_nat _). destruct (Nat.ltb_spec (length p) (i + 4 + l)); [done|].
    destruct (f s _ _ i) as [s1|] eqn:E; [|done].
    assert (length (take l (drop (i + 4) p)) = l) as Hl
      by (rewrite length_take, length_drop; lia).
    apply IH; [|lia]. apply (Hf s _ _ i s1 Hs Hi) in E; rewrite ?Hl; done || lia.
Qed.

Lemma walk_attrs_invariant {S} (f : S → Z → bytes → nat → option S) (p : bytes) (I : S → Prop) s s' :
  (∀ s t v off s', I s → (HEADER_LEN ≤ off)%nat → (off + 4 + length v ≤ length p)%nat →
     t = from_be (take 2 (drop off p)) → v = take (length v) (drop (off + 4) p) →
     f s t v off = Some s' → I s') →
  I s → walk_attrs p f s = Some s' → I s'.
Proof.
  intros Hf Hs. unfold walk_attrs. destruct (walk _ _ _ _ _) eqn:E; [|done..].
  intros [= <-]. by eapply walk_invariant in E.
Qed.

(** A packet holding exactly two attributes. *)
Lemma walk_attrs_two {S} (f : S → Z → bytes → nat → option S) hdr t1 v1 t2 v2 s :
  length hdr = HEADER_LEN → wf_uint 2 t1 → wf_uint 2 t2 →
  Z.of_nat (length v1) < 65536 → Z.of_nat (length v2) < 65536 →
  walk_attrs (hdr ++ attr t1 v1 ++ attr t2 v2) f s =
  (s1 ← f s t1 v1 HEADER_LEN; f s1 t2 v2 (length (hdr ++ attr t1 v1))).
Proof.
  intros Hh Ht1 Ht2 Hv1 Hv2. unfold walk_attrs.
  set (p := hdr ++ attr t1 v1 ++ attr t2 v2).
  assert (∃ n, length p = Datatypes.S (Datatypes.S n)) as [n ->].
  { exists (length p - 2)%nat. unfold p. rewrite length_app, Hh. unfold HEADER_LEN. lia. }
  rewrite <- Hh. unfold p at 1. rewrite walk_step by done.
  destruct (f s t1 v1 (length hdr)) as [s1|]; [|done]. simpl mbind.
  rewrite <- (app_nil_r (attr t2 v2)), app_assoc.
  rewrite walk_step by done.
  destruct (f s1 t2 v2 _) as [s2|]; [|done].
  by rewrite app_nil_r, walk_end.
Qed.

Lemma set_len_drop n l a :
  (4 ≤ n)%nat → (4 ≤ length l)%nat → drop n (set_len l a) = drop n l.
Proof.
  intros Hn Hl. unfold set_len. do 4 (destruct n as [|n]; [lia|]).
  by destruct l as [|b0 [|b1 [|b2 [|b3 l]]]]; simpl in Hl; try lia.
Qed.

Lemma xor_port_range port : wf_uint 2 port → wf_uint 2 (xor_port port).
Proof. intros H. apply (lxor_range 16); [lia|exact H|]. by vm_compute. Qed.

Lemma xor_port_involutive port : xor_port (xor_port port) = port.
Proof. unfold xor_port. by rewrite Z.lxor_assoc, Z.lxor_nilpotent, Z.lxor_0_r. Qed.

Lemma zip_xor_involutive (l mask : bytes) :
  (length l ≤ length mask)%nat →
  zip_with byte_xor (zip_with byte_xor l mask) mask = l.
Proof.
  revert mask. induction l as [|b l IH]; intros [|m mask] Hl; simpl in *; try done || lia.
  rewrite byte_xor_involutive, IH by lia. done.
Qed.

(** The encoding of either family, abstracted from its tag and width. *)
Lemma decode_xor_raw tag o port tx :
  wf_uint 2 port → (length o ≤ 16)%nat → length tx = 12%nat →
  let v := [x00; tag] ++ be_bytes 2 (xor_port port) ++ zip_with byte_xor o (be_cookie ++ tx) in
  (length v <? 4)%nat = false ∧ v !! 1%nat = Some tag ∧
  xor_port (from_be (take 2 (drop 2 v))) = port ∧
  zip_with byte_xor (drop 4 v) (be_cookie ++ tx) = o.
Proof.
  intros Hp Ho Htx v.
  assert (length (be_cookie ++ tx) = 16%nat) as Hm
    by (unfold be_cookie; by rewrite length_app, be_bytes_length, Htx).
  split_and!; [|done| |].
  - apply Nat.ltb_ge. unfold v. rewrite !length_app, be_bytes_length. simpl length. lia.
  - change (take 2 (drop 2 v)) with (be_bytes 2 (xor_port port)).
    rewrite from_be_bytes_small by (by apply xor_port_range). apply xor_port_involutive.
  - change (drop 4 v) with (zip_with byte_xor o (be_cookie ++ tx)).
    apply zip_xor_involutive. lia.
Qed.

Lemma decode_xor_addr_xor a tx :
  length tx = 12%nat → wf_addr a → decode_xor_addr (xor_addr a tx) tx = Some a.
Proof.
  intros Htx. destruct a as [[o|o] port fi sc]; intros (Ho & Hp & Hf & Hs);
    simpl in Ho, Hp, Hf, Hs; subst fi sc; unfold decode_xor_addr, xor_addr;
    cbn [sa_ip sa_port].
  - destruct (decode_xor_raw x01 o port tx) as (->&->&->&->); [done|lia|done|].
    by rewrite Ho.
  - destruct (decode_xor_raw x02 o port tx) as (->&->&->&->); [done|lia|done|].
    by rewrite Ho.
Qed.

Lemma xor_addr_length a tx : wf_addr a → (length (xor_addr a tx) ≤ 20)%nat.
Proof.
  intros (Hip & _). unfold xor_addr.
  destruct (sa_ip a); simpl in Hip; rewrite !length_app, be_bytes_length, length_zip_with;
    simpl; lia.
Qed.

Section hmac.
(** [Hmac<Sha1>]: the key, then the message. *)
Variable hmac_sha1 : bytes → bytes → bytes.

Definition integrity (prefix key : bytes) : bytes :=
  let hdr := take HEADER_LEN prefix in
  let len := Z.of_nat (length prefix - HEADER_LEN + 4 + MI_LEN) in
  hmac_sha1 key (set_len hdr len ++ drop HEADER_LEN prefix).

Definition verify (r : Request) (password : bytes) : bool :=
  bool_decide (integrity (take (mi_offset r) (req_packet r)) password = req_mi r).

Definition finish_with_integrity (out key : bytes) : bytes :=
  let mi := integrity out key in
  let out := put_attr out ATTR_MESSAGE_INTEGRITY mi in
  set_len out (Z.of_nat (length out - HEADER_LEN)).

Definition build_request (tx : bytes) (user : string) (password : bytes) : bytes :=
  finish_with_integrity (put_attr (header BINDING_REQUEST tx) ATTR_USERNAME (as_bytes user))
    password.

Definition build_response (tx : bytes) (mapped : SocketAddr) (password : bytes) : bytes :=
  finish_with_integrity
    (put_attr (header BINDING_SUCCESS tx) ATTR_XOR_MAPPED_ADDRESS (xor_addr mapped tx)) password.

Definition response_attr (tx : bytes) (s : option SocketAddr * option (bytes * nat)) (t : Z)
    (v : bytes) (off : nat) : option (option SocketAddr * option (bytes * nat)) :=
  let '(mapped, mi) := s in
  if bool_decide (is_Some mi) && negb (t =? ATTR_FINGERPRINT) then None
  else if t =? ATTR_XOR_MAPPED_ADDRESS then
    a ← decode_xor_addr v tx; Some (Some a, mi)
  else if t =? ATTR_MESSAGE_INTEGRITY then
    m ← mi_array v; Some (mapped, Some (m, off))
  else Some s.

Definition parse_response (p tx password : bytes) : option SocketAddr :=
  got ← header_ok p BINDING_SUCCESS;
  if negb (bool_decide (got = tx)) then None
  else
    '(mapped, mi) ← walk_attrs p (response_attr tx) (None, None);
    '(m, off) ← mi;
    if negb (bool_decide (integrity (take off p) password = m)) then None else mapped.


(** ** Theorems *)

Hypothesis hmac_length : ∀ key msg, length (hmac_sha1 key msg) = MI_LEN.

Lemma integrity_length prefix key : length (integrity prefix key) = MI_LEN.
Proof. apply hmac_length. Qed.

(** The length field of the prefix does not matter: the tag is computed with
    the final length written over it. *)
Lemma integrity_set_len l a key :
  (HEADER_LEN ≤ length l)%nat → integrity (set_len l a) key = integrity l key.
Proof.
  unfold integrity, HEADER_LEN. intros Hl.
  rewrite set_len_length, set_len_take, set_len_set_len, set_len_drop by
    (rewrite ?length_take; lia). done.
Qed.

Lemma finish_built ty tx t v key :
  length tx = 12%nat →
  let out := put_attr (header ty tx) t v in
  let mi := integrity (header ty tx ++ attr t v) key in
  finish_with_integrity out key =
  set_len (header ty tx ++ attr t v ++ attr ATTR_MESSAGE_INTEGRITY mi)
    (Z.of_nat (length (attr t v ++ attr ATTR_MESSAGE_INTEGRITY mi))).
Proof.
  intros Htx out mi. unfold finish_with_integrity, out, mi.
  assert (aligned (header ty tx)) by (unfold aligned; by rewrite header_length).
  rewrite (put_attr_aligned (header ty tx)) by done.
  rewrite put_attr_aligned by (by apply aligned_attr).
  rewrite <- app_assoc, length_app, header_length by done.
  f_equal.
Qed.

Lemma attr_mi_aligned t v mi :
  aligned (attr t v ++ attr ATTR_MESSAGE_INTEGRITY mi).
Proof. unfold aligned. rewrite length_app, !attr_length. dlia. Qed.

(** a Binding request built for any transaction id, any username the
    relay issues (at most 64 bytes of UTF-8) and any password parses back to
    exactly that id and username, and its integrity verifies under that
    password. *)
Theorem request_roundtrip tx user password :
  length tx = 12%nat → valid_str user → (length (as_bytes user) ≤ MAX_USERNAME)%nat →
  ∃ r, parse_request (build_request tx user password) = Some r ∧
    txid r = tx ∧ username r = user ∧ verify r password = true.
Proof.
  intros Htx Hv Hlen. unfold build_request, parse_request, MAX_USERNAME in *.
  rewrite finish_built by done.
  set (u := as_bytes user) in *. set (mi := integrity _ password).
  assert (length mi = 20%nat) as Hmi by apply integrity_length.
  assert (length (attr ATTR_MESSAGE_INTEGRITY mi) = 24%nat) as Hma
    by (rewrite attr_length, Hmi; reflexivity).
  assert (length (attr ATTR_USERNAME u) ≤ 68)%nat as Hua by (rewrite attr_length; dlia).
  rewrite header_ok_built by (done || apply attr_mi_aligned || rewrite length_app; lia).
  rewrite some_bind, set_len_app by (by apply header_long).
  rewrite walk_attrs_two by (done || lia || by apply set_len_header_length).
  set (hdr := set_len _ _).
  assert (request_attr (None, None) ATTR_USERNAME u HEADER_LEN = Some (Some user, None)) as ->.
  { unfold request_attr, MAX_USERNAME. rewrite (proj2 (Nat.ltb_ge _ _)) by lia.
    unfold u. by rewrite from_utf8_as_bytes. }
  rewrite some_bind.
  assert (∀ off, request_attr (Some user, None) ATTR_MESSAGE_INTEGRITY mi off
    = Some (Some user, Some (mi, off))) as ->.
  { intros off. unfold request_attr, mi_array. by rewrite Hmi. }
  eexists. split; [reflexivity|]. cbn [txid username]. split_and!; [done|done|].
  unfold verify. cbn [mi_offset req_packet req_mi]. apply bool_decide_eq_true.
  rewrite app_assoc, take_app_length. unfold hdr.
  rewrite <- set_len_app by (by apply header_long).
  rewrite integrity_set_len by (rewrite length_app, header_length by done; lia).
  done.
Qed.

(** The mapped address the relay reports in a Binding success is decoded by
    the client unchanged, for IPv4 and IPv6, under the same transaction id and
    password. *)
Theorem response_roundtrip tx mapped password :
  length tx = 12%nat → wf_addr mapped →
  parse_response (build_response tx mapped password) tx password = Some mapped.
Proof.
  intros Htx Hm. unfold build_response, parse_response. rewrite finish_built by done.
  set (v := xor_addr mapped tx). set (mi := integrity _ password).
  assert (length mi = 20%nat) as Hmi by apply integrity_length.
  assert (length (attr ATTR_MESSAGE_INTEGRITY mi) = 24%nat) as Hma
    by (rewrite attr_length, Hmi; reflexivity).
  pose proof (xor_addr_length mapped tx Hm) as Hv. fold v in Hv.
  assert (length (attr ATTR_XOR_MAPPED_ADDRESS v) ≤ 24)%nat as Hua by (rewrite attr_length; dlia).
  rewrite header_ok_built by (done || apply attr_mi_aligned || rewrite length_app; lia).
  rewrite some_bind, bool_decide_eq_true_2 by done. cbn [negb].
  rewrite set_len_app by (by apply header_long).
  rewrite walk_attrs_two by (done || lia || by apply set_len_header_length).
  set (hdr := set_len _ _).
  assert (response_attr tx (None, None) ATTR_XOR_MAPPED_ADDRESS v HEADER_LEN
    = Some (Some mapped, None)) as ->.
  { unfold response_attr, v. by rewrite decode_xor_addr_xor. }
  rewrite some_bind.
  assert (∀ off, response_attr tx (Some mapped, None) ATTR_MESSAGE_INTEGRITY mi off
    = Some (Some mapped, Some (mi, off))) as ->.
  { intros off. unfold response_attr, mi_array. by rewrite Hmi. }
  rewrite some_bind, some_bind. rewrite app_assoc, take_app_length. unfold hdr.
  rewrite <- set_len_app by (by apply header_long).
  rewrite integrity_set_len by (rewrite length_app, header_length by done; lia).
  by rewrite bool_decide_eq_true_2.
Qed.

(** The parser's claim about a MESSAGE-INTEGRITY attribute it found. *)
Definition mi_at (p mi : bytes) (off : nat) : Prop :=
  (HEADER_LEN ≤ off)%nat ∧ (off + 4 + MI_LEN ≤ length p)%nat ∧
  from_be (take 2 (drop off p)) = ATTR_MESSAGE_INTEGRITY ∧
  take MI_LEN (drop (off + 4) p) = mi ∧ length mi = MI_LEN.

Lemma mi_array_at p t v off m :
  (HEADER_LEN ≤ off)%nat → (off + 4 + length v ≤ length p)%nat →
  t = from_be (take 2 (drop off p)) → v = take (length v) (drop (off + 4) p) →
  t = ATTR_MESSAGE_INTEGRITY → mi_array v = Some m → mi_at p m off.
Proof.
  unfold mi_array, mi_at. destruct (Nat.eqb_spec (length v) MI_LEN) as [E|]; [|done].
  intros ?? -> Hv Ht [= <-]. rewrite E in *. auto.
Qed.

Lemma header_ok_length p ty tx :
  header_ok p ty = Some tx → (HEADER_LEN ≤ length p ≤ MAX_PACKET)%nat ∧ length tx = 12%nat.
Proof.
  unfold header_ok, HEADER_LEN. destruct (Nat.ltb_spec (length p) 20); [done|].
  destruct (Nat.ltb_spec MAX_PACKET (length p)); [done|].
  destruct (negb (_ =? 0)%nat); [done|]. cbn [orb].
  repeat match goal with |- context [if ?b then None else _] => destruct b; [done|] end.
  intros [= <-]. rewrite length_take, length_drop. lia.
Qed.

(** whatever bytes arrive, a parsed request points at a 20-byte tag inside
    the packet and after the header, so the slices and the 16-bit length
    computed by the integrity check are always in range. *)
Theorem parse_request_in_bounds p r :
  parse_request p = Some r →
  req_packet r = p ∧ length (txid r) = 12%nat ∧
  mi_at p (req_mi r) (mi_offset r) ∧
  Z.of_nat (length (take (mi_offset r) p) - HEADER_LEN + 4 + MI_LEN) < 2 ^ 16.
Proof.
  unfold parse_request. intros (tx & Htx & H)%bind_Some.
  apply bind_Some in H as ([user mi] & Hw & H).
  apply bind_Some in H as ([m off] & -> & H).
  apply bind_Some in H as (u & _ & [= <-]). simpl.
  apply header_ok_length in Htx as [Hp Htx].
  assert (mi_at p m off) as Hmi.
  { refine (walk_attrs_invariant _ p (λ s, ∀ m off, s.2 = Some (m, off) → mi_at p m off)
      _ _ _ _ Hw m off eq_refl); [|done].
    clear -hmac_sha1. intros [us mi] t v off s' HI Ho Hl Ht Hv. unfold request_attr.
    destruct (_ && _); [done|]. destruct (t =? ATTR_USERNAME).
    { destruct (_ || _); [done|]. destruct (from_utf8 v); [|done]. by intros [= <-]. }
    destruct (Z.eqb_spec t ATTR_MESSAGE_INTEGRITY); [|by intros [= <-]].
    destruct (mi_array v) as [m0|] eqn:E; [|done]. intros [= <-] m off0 [= <- <-].
    by eapply mi_array_at. }
  split_and!; [done|done|done|].
  destruct Hmi as (?&?&_). unfold HEADER_LEN, MI_LEN, MAX_PACKET in *.
  rewrite length_take. lia.
Qed.

(** a client only believes a mapping that is authenticated: an accepted
    response carries a MESSAGE-INTEGRITY attribute whose tag is the HMAC, under
    the shared password, of everything before it. *)
Theorem response_authenticated p tx password a :
  parse_response p tx password = Some a →
  ∃ off, mi_at p (integrity (take off p) password) off.
Proof.
  unfold parse_response. intros (got & _ & H)%bind_Some.
  destruct (negb _); [done|].
  apply bind_Some in H as ([mapped mi] & Hw & H).
  apply bind_Some in H as ([m off] & -> & H).
  destruct (bool_decide_reflect (integrity (take off p) password = m)) as [<-|]; [|done].
  exists off.
  refine (walk_attrs_invariant _ p (λ s, ∀ m off, s.2 = Some (m, off) → mi_at p m off)
    _ _ _ _ Hw _ off eq_refl); [|done].
  clear -hmac_sha1. intros [us mi] t v off' s' HI Ho Hl Ht Hv. unfold response_attr.
  destruct (_ && _); [done|]. destruct (t =? ATTR_XOR_MAPPED_ADDRESS).
  { destruct (decode_xor_addr v tx); [|done]. by intros [= <-]. }
  destruct (Z.eqb_spec t ATTR_MESSAGE_INTEGRITY); [|by intros [= <-]].
  destruct (mi_array v) as [m0|] eqn:E; [|done]. intros [= <-] m off0 [= <- <-].
  by eapply mi_array_at.
Qed.
End hmac.

(** ** Witnesses, with a stand-in MAC of the right length *)

Definition toy_hmac (key msg : bytes) : bytes :=
  take MI_LEN (key ++ msg ++ replicate MI_LEN x00).

Lemma toy_hmac_length key msg : length (toy_hmac key msg) = MI_LEN.
Proof. unfold toy_hmac. rewrite length_take, !length_app, length_replicate. lia. Qed.

Lemma request_roundtrip_witness :
  ∃ r, parse_request (build_request toy_hmac (replicate 12 x05) "user" [x70; x77]) = Some r ∧
    txid r = replicate 12 x05 ∧ username r = "user" ∧ verify toy_hmac r [x70; x77] = true.
Proof.
  apply request_roundtrip; [apply toy_hmac_length|reflexivity|reflexivity|].
  unfold MAX_USERNAME. vm_compute. lia.
Defined.

Definition ex_mapped : SocketAddr := SocketAddr_new (V4 [xc0; x00; x02; x01]) 50000.

Lemma response_roundtrip_witness :
  parse_response toy_hmac (build_response toy_hmac (replicate 12 x05) ex_mapped [x70])
    (replicate 12 x05) [x70] = Some ex_mapped.
Proof. apply response_roundtrip; [apply toy_hmac_length|reflexivity|by vm_compute]. Defined.

Definition ex_request : bytes := build_request toy_hmac (replicate 12 x05) "user" [x70].

Lemma parse_request_in_bounds_witness : ∃ r,
  req_packet r = ex_request ∧ length (txid r) = 12%nat ∧
  mi_at ex_request (req_mi r) (mi_offset r) ∧
  Z.of_nat (length (take (mi_offset r) ex_request) - HEADER_LEN + 4 + MI_LEN) < 2 ^ 16.
Proof. eexists. apply parse_request_in_bounds. vm_compute. reflexivity. Defined.

Definition ex_response : bytes := build_response toy_hmac (replicate 12 x05) ex_mapped [x70].

Lemma response_authenticated_witness :
  ∃ off, mi_at ex_response (integrity toy_hmac (take off ex_response) [x70]) off.
Proof.
  apply (response_authenticated toy_hmac ex_response (replicate 12 x05) [x70] ex_mapped).
  vm_compute. reflexivity.
Defined.

End Stun.
