(* ===== verification/RustStr.v ===== *)
(** * Rust strings

    The parts of [std::str] the components use: whitespace trimming, counting
    [char]s and the decimal form of unsigned integers.  A string is the
    sequence of its UTF-8 bytes (one [ascii] per byte). *)

From S2P Require Import Prelude.
From Stdlib Require Import Ascii.

(** ** Whitespace

    [char::is_whitespace] is Unicode's White_Space property; each such
    character by its UTF-8 bytes. *)

Definition byte_code (c : ascii) : N := N_of_ascii c.

Definition ascii_ws (c : ascii) : bool :=
  let n := byte_code c in ((9 <=? n) && (n <=? 13) || (n =? 32))%N.

(** U+0085 and U+00A0. *)
Definition ws2 (c0 c1 : ascii) : bool :=
  ((byte_code c0 =? 0xC2) && ((byte_code c1 =? 0x85) || (byte_code c1 =? 0xA0)))%N.

(** U+1680, U+2000-200A, U+2028, U+2029, U+202F, U+205F and U+3000. *)
Definition ws3 (c0 c1 c2 : ascii) : bool :=
  let '(a, b, c) := (byte_code c0, byte_code c1, byte_code c2) in
  ((a =? 0xE1) && (b =? 0x9A) && (c =? 0x80)
   || (a =? 0xE2) && (b =? 0x80) &&
        ((0x80 <=? c) && (c <=? 0x8A) || (c =? 0xA8) || (c =? 0xA9) || (c =? 0xAF))
   || (a =? 0xE2) && (b =? 0x81) && (c =? 0x9F)
   || (a =? 0xE3) && (b =? 0x80) && (c =? 0x80))%N.

(** [trim_start] on the bytes. *)
Fixpoint trim_start (l : list ascii) : list ascii :=
  match l with
  | [] => []
  | c0 :: r0 =>
    if ascii_ws c0 then trim_start r0
    else match r0 with
    | [] => l
    | c1 :: r1 =>
      if ws2 c0 c1 then trim_start r1
      else match r1 with
      | [] => l
      | c2 :: r2 => if ws3 c0 c1 c2 then trim_start r2 else l
      end
    end
  end.

(** [trim_end], on the reversed bytes. *)
Fixpoint trim_end_rev (l : list ascii) : list ascii :=
  match l with
  | [] => []
  | c0 :: r0 =>
    if ascii_ws c0 then trim_end_rev r0
    else match r0 with
    | [] => l
    | c1 :: r1 =>
      if ws2 c1 c0 then trim_end_rev r1
      else match r1 with
      | [] => l
      | c2 :: r2 => if ws3 c2 c1 c0 then trim_end_rev r2 else l
      end
    end
  end.

Definition trim (s : string) : string :=
  String.string_of_list_ascii
    (reverse (trim_end_rev (reverse (trim_start (String.list_ascii_of_string s))))).

(** [s.trim().is_empty()]. *)
Definition is_blank (s : string) : bool := trim s == "".

(** [split_once] and [rsplit_once] at a character. *)
Fixpoint split_once (c : ascii) (s : string) : option (string * string) :=
  match s with
  | EmptyString => None
  | String a s' =>
    if a == c then Some ("", s')
    else match split_once c s' with Some (x, y) => Some (String a x, y) | None => None end
  end.

Fixpoint rsplit_once (c : ascii) (s : string) : option (string * string) :=
  match s with
  | EmptyString => None
  | String a s' =>
    match rsplit_once c s' with
    | Some (x, y) => Some (String a x, y)
    | None => if a == c then Some ("", s') else None
    end
  end.

Definition ascii_lowercase (c : ascii) : ascii :=
  let n := byte_code c in if ((65 <=? n) && (n <=? 90))%N then ascii_of_N (n + 32) else c.

Fixpoint to_ascii_lowercase (s : string) : string :=
  match s with EmptyString => EmptyString | String a s' => String (ascii_lowercase a) (to_ascii_lowercase s') end.

Definition eq_ignore_ascii_case (a b : string) : bool := to_ascii_lowercase a == to_ascii_lowercase b.

(** [s.chars().count()]: every byte but the UTF-8 continuation bytes. *)
Fixpoint chars_count (s : string) : nat :=
  match s with
  | EmptyString => O
  | String c s' =>
    ((if ((0x80 <=? byte_code c) && (byte_code c <=? 0xBF))%N then O else 1)
      + chars_count s')%nat
  end.

Example trim_ex : trim "  a b	 " = "a b".
Proof. reflexivity. Qed.

Example is_blank_ex : is_blank "	 　" = true ∧ is_blank "x" = false ∧ is_blank "" = true.
Proof. by vm_compute. Qed.

Example chars_count_ex : chars_count "a—b" = 3%nat.
Proof. reflexivity. Qed.

(** ** Decimal numbers: [u64::to_string] and [str::parse::<u64>] *)

Definition digit_char (d : N) : ascii := Ascii.ascii_of_N (48 + d).
Definition char_digit (c : ascii) : option N :=
  let n := Ascii.N_of_ascii c in if ((48 <=? n) && (n <=? 57))%N then Some (n - 48)%N else None.

Fixpoint to_dec_go (fuel : nat) (n : N) (acc : string) : string :=
  match fuel with
  | O => acc
  | S k =>
    let acc' := String (digit_char (n mod 10)) acc in
    if (n / 10 =? 0)%N then acc' else to_dec_go k (n / 10) acc'
  end.

(** The fuel, the number of binary digits, covers the decimal ones. *)
Definition to_dec (n : N) : string := to_dec_go (S (N.size_nat n)) n "".

Fixpoint digits_value (a : N) (s : string) : option N :=
  match s with
  | EmptyString => Some a
  | String c s' => d ← char_digit c; digits_value (10 * a + d) s'
  end.

(** [parse::<u64>]: an optional plus sign, at least one digit, in range. *)
Definition parse_u64 (s : string) : option N :=
  let digits := match s with String c s' => if c == "+"%char then s' else s | _ => s end in
  if digits == "" then None
  else v ← digits_value 0 digits; if (v <? 2 ^ 64)%N then Some v else None.

Lemma char_digit_char d : (d < 10)%N → char_digit (digit_char d) = Some d.
Proof.
  intros Hd. unfold char_digit, digit_char. rewrite Ascii.N_ascii_embedding by lia.
  rewrite (proj2 (N.leb_le _ _)), (proj2 (N.leb_le _ _)) by lia. simpl. f_equal. lia.
Qed.

Lemma digits_value_to_dec fuel : ∀ n acc a,
  (n < 2 ^ N.of_nat fuel)%N → n ≠ 0%N ∨ (0 < fuel)%nat →
  ∃ k, digits_value a (to_dec_go fuel n acc) = digits_value (a * 10 ^ k + n) acc.
Proof.
  induction fuel as [|fuel IH]; intros n acc a Hn H0; [simpl in Hn; lia|].
  cbn [to_dec_go]. pose proof (N.mod_lt n 10 ltac:(lia)) as Hm.
  pose proof (N.div_mod n 10 ltac:(lia)) as Hdm.
  destruct (N.eqb_spec (n / 10) 0) as [Hz|Hz].
  - exists 1%N. cbn [digits_value]. rewrite char_digit_char by done. rewrite some_bind. f_equal. lia.
  - destruct (IH (n / 10)%N (String (digit_char (n mod 10)) acc) a) as [k Hk].
    + rewrite Nat2N.inj_succ, N.pow_succ_r' in Hn. apply N.Div0.div_lt_upper_bound. lia.
    + by left.
    + exists (N.succ k). rewrite Hk. cbn [digits_value]. rewrite char_digit_char by done.
      rewrite some_bind, N.pow_succ_r'. f_equal. lia.
Qed.

Lemma to_dec_go_head fuel : ∀ n acc,
  (∃ c s, acc = String c s ∧ is_Some (char_digit c)) ∨ (0 < fuel)%nat →
  ∃ c s, to_dec_go fuel n acc = String c s ∧ is_Some (char_digit c).
Proof.
  induction fuel as [|fuel IH]; intros n acc H; [destruct H; [done|lia]|].
  cbn [to_dec_go]. pose proof (N.mod_lt n 10 ltac:(lia)) as Hm.
  assert (is_Some (char_digit (digit_char (n mod 10)))) by (rewrite char_digit_char by done; eauto).
  destruct (_ =? 0)%N; [by eauto|]. apply IH. left. eauto.
Qed.

Lemma size_nat_size n : N.of_nat (N.size_nat n) = N.size n.
Proof.
  destruct n as [|p]; [done|]. cbn [N.size_nat N.size].
  induction p as [p IH|p IH|]; cbn [Pos.size_nat Pos.size]; rewrite ?Nat2N.inj_succ, ?IH; lia.
Qed.

Lemma digits_value_dec n : digits_value 0 (to_dec n) = Some n.
Proof.
  unfold to_dec. destruct (digits_value_to_dec (S (N.size_nat n)) n "" 0) as [k ->]; [|right; lia|].
  - rewrite Nat2N.inj_succ, N.pow_succ_r'. pose proof (N.size_gt n). rewrite size_nat_size. lia.
  - cbn [digits_value]. by rewrite N.mul_0_l.
Qed.

Lemma parse_to_dec n : (n < 2 ^ 64)%N → parse_u64 (to_dec n) = Some n.
Proof.
  intros Hn. unfold parse_u64.
  destruct (to_dec_go_head (S (N.size_nat n)) n "") as (c & s & Hs & [d Hd]); [right; lia|].
  fold (to_dec n) in Hs. pose proof (digits_value_dec n) as Hk. rewrite Hs in *.
  rewrite (bool_decide_eq_false_2 (c = "+"%char)) by (intros ->; done).
  rewrite (bool_decide_eq_false_2 (String c s = "")) by done. rewrite Hk, some_bind.
  by rewrite (proj2 (N.ltb_lt _ _)) by lia.
Qed.

#[export] Instance to_dec_inj : Inj (=) (=) to_dec.
Proof.
  intros n m Heq. pose proof (digits_value_dec n) as H. rewrite Heq, digits_value_dec in H. congruence.
Qed.

(** ** Bytewise order *)

Lemma string_leb_trans x : ∀ y z,
  String.leb x y = true → String.leb y z = true → String.leb x z = true.
Proof.
  unfold String.leb. induction x as [|a x IH]; intros [|b y] [|c z]; simpl; try done.
  unfold Ascii.compare.
  destruct (N.compare_spec (N_of_ascii a) (N_of_ascii b)), (N.compare_spec (N_of_ascii b) (N_of_ascii c)),
    (N.compare_spec (N_of_ascii a) (N_of_ascii c)); try done; try (intros; lia). apply IH.
Qed.

Lemma string_leb_false x y : String.leb x y = false → String.leb y x = true.
Proof. intros Hf. destruct (String.leb_total x y); congruence. Qed.
