(* ===== verification/Workflow.v ===== *)
(** * Workflows

    Models src/workflow.rs: the built-in workflow table, the registry of
    user-defined workflows, step resolution, the shared review step and the
    validation of custom definitions; and [to_step_defs], the editor's save
    path in src/routes/workflows.rs.

    The process-wide [CUSTOM_WORKFLOWS] registry is the argument [custom] of
    the functions that read it.  [str::to_lowercase] (Unicode case mapping) is
    a parameter of the one function that uses it. *)

From S2P Require Import Prelude RustStr.
From Stdlib Require Import Ascii.

Module Workflow.

(** A double quote and a newline, for the texts below. *)
Definition dq : string := String "034" EmptyString.
Definition unlines (ls : list string) : string := String.concat (String "010" EmptyString) ls.

Record WorkflowStep := mkWorkflowStep {
  ws_step : string;
  ws_instructions : string;
}.

Record Workflow := mkWorkflow {
  wf_id : string;
  wf_name : string;
  wf_description : string;
  wf_priority : Z;
  wf_steps : list WorkflowStep;
}.

Definition DEFAULT_WORKFLOW_ID : string := "task".

Definition TASK_INSTRUCTIONS : string := unlines [
  "Do the task described in the card.";
  "";
  "- Read whatever context you need to understand what's being asked.";
  "- Complete the work end-to-end. If the card asks for code, make the code changes; if it asks for a report, write the report; if it asks for both, do both.";
  "- If you need to leave any breadcrumbs for a human (files produced, where things landed), include them in the handoff_context you pass to `finish_card`.";
  "- If the card cannot or should not be completed, call `wont_do_card` with a short reason.";
  "- When you're done, call `finish_card`."].

Definition RESEARCH_INSTRUCTIONS : string := unlines [
  "Investigate the question described in the card and write up what you found. Do NOT file follow-up cards and do NOT make code changes — this card is investigation only.";
  "";
  "### Investigate";
  "";
  "- Dig into code, docs, tickets, external sources — whatever it takes to answer the question fully.";
  "- Read widely before drawing conclusions. Cite specific file paths, line numbers, URLs, or card IDs where you find evidence.";
  "- Capture surprising findings, dead ends, and open questions as you go — those are often as valuable as the main answer.";
  "- Don't stop at the first plausible answer. Check edge cases, look for contradicting evidence, and note anything that would invalidate your conclusion.";
  "";
  "### Write the report";
  "";
  "- Use the `write_report` MCP tool to save a Markdown report. Give it a clear title. Include sections for: the question, the answer, the evidence, and open questions / caveats.";
  "- If the question is trivial or the answer is a one-liner, it's fine to skip the report and put the answer in the handoff_context you pass to `finish_card`.";
  "";
  "### Do NOT file follow-up cards";
  "";
  "- This card is scoped to research output only. If the investigation surfaces work that should be done, mention it in the report's " +:+ dq +:+ "open questions" +:+ dq +:+ " section — a human will decide whether to file cards for it.";
  "- Do NOT call `create_card`. Do NOT make code changes.";
  "";
  "### Finish";
  "";
  "- If the card cannot or should not be done, call `wont_do_card` with a short reason.";
  "- Otherwise call `finish_card` with a short handoff_context like " +:+ dq +:+ "report in folder <name>" +:+ dq +:+ " or, if no report was written, a one-line summary of the answer."].

Definition BREAKDOWN_INSTRUCTIONS : string := unlines [
  "Investigate the card, then break the work down into follow-up cards other workers can pick up.";
  "";
  "### Investigate";
  "";
  "- Dig into code, docs, tickets, external sources — whatever it takes to understand the scope fully.";
  "- Read widely before drawing conclusions. Cite specific file paths, line numbers, URLs, or card IDs where you find evidence.";
  "- Capture surprising findings, dead ends, and open questions as you go — those are often as valuable as the main answer.";
  "- Don't stop at the first plausible plan. Check edge cases, look for contradicting evidence, and note anything that would invalidate your breakdown.";
  "";
  "### Write a short report";
  "";
  "- Use the `write_report` MCP tool to save a Markdown report that captures the context behind the breakdown. Include sections for: the problem, the plan, the evidence, and open questions / caveats.";
  "";
  "### File follow-up cards (the main deliverable)";
  "";
  "- Call `create_card` for every unit of work the breakdown surfaced. Keep titles action-oriented (" +:+ dq +:+ "Investigate memory spike in X" +:+ dq +:+ ", " +:+ dq +:+ "Migrate Y to new API" +:+ dq +:+ "). Reference the report folder in each card's description so whoever picks it up can find the context.";
  "";
  "### Finish";
  "";
  "- If the card is infeasible or shouldn't be done, call `wont_do_card` with a short reason.";
  "- Otherwise call `finish_card` with a short handoff_context like " +:+ dq +:+ "report in folder <name>; filed N follow-up cards" +:+ dq +:+ "."].

Definition FAST_DEVELOP_INSTRUCTIONS : string := unlines [
  "Implement the change described in the card.";
  "";
  "Read any relevant existing code first, then make the change.";
  "";
  "- After you finish the change, run the project's tests, linter, and any other checks the repo configures (formatter, type checker, build, etc). If nothing is set up, at minimum run a type check. Fix anything that surfaces — don't leave the card done with red checks behind it.";
  "- If the card is underspecified or you hit a blocker you can't resolve, write up what you found and call `finish_card` so a human can decide what to do.";
  "- If the card CANNOT or SHOULD NOT be completed (infeasible, wrong scope, hard blocker, superseded), call `wont_do_card` with a short reason.";
  "- If the card is larger than one focused pass should be, use `create_card` to split out follow-ups and keep this card's scope narrow.";
  "";
  "When done, call `finish_card`."].

Definition DEEP_DEVELOP_EXECUTION_INSTRUCTIONS : string := unlines [
  "Implement the work described in the card. Read any relevant existing code first, then make the change.";
  "";
  "- **If the working directory is a git repo**, unless the card gives specific git instructions, do your work on its own branch. Pick a short, descriptive branch name; if a branch already exists for this card, reuse it. Commit your changes on that branch. Do NOT push unless instructed to. When you call `complete_step`, the handoff_context MUST include the branch name (e.g. `" +:+ dq +:+ "branch feat/queue" +:+ dq +:+ "`).";
  "- If the working directory is NOT a git repo, just edit the files directly in place. No branch needed.";
  "- Keep the change tight to what the card actually asks for — don't refactor unrelated code, add speculative abstractions, or expand scope.";
  "- Run the project's tests and linter before you finish. If nothing is set up, at minimum run a type check.";
  "- If the card is underspecified or you hit a blocker you can't resolve, write up what you found and call `finish_card` so a human can decide what to do.";
  "- If the card CANNOT or SHOULD NOT be completed (infeasible, wrong scope, hard blocker, superseded), call `wont_do_card` with a short reason.";
  "- If the card is larger than one focused pass should be, use `create_card` to split out follow-ups and keep this card's scope narrow.";
  "";
  "When the implementation is complete and ready for review, call `complete_step` to hand off to the review step."].

Definition REVIEW_INSTRUCTIONS : string := unlines [
  "Independently review the work a PREVIOUS worker (a different session) did on this card. You are a second pair of eyes; the author's own account of its work is not evidence.";
  "";
  "### Ground Rules";
  "";
  "- DO NOT trust claims that the work is complete — not in the handoff, not in the previous worker's transcript, not in commit messages. Every claim is a hypothesis until you have checked it yourself.";
  "- Independently verify EVERY requirement in the card (title, description, acceptance criteria) against the actual code, files, reports, and tests. Run the tests / build / linter yourself; don't rely on reported results.";
  "";
  "### Find the Work";
  "";
  "- Read the previous worker's handoff and its full transcript via `read_worker_session` (session id in the Review Handoff section) to learn what it claims to have done and where.";
  "- **If the working directory is a git repo** and the handoff names a branch, check out that branch and review its commits / diff against the base branch. Otherwise review the working tree and recent commits (`git log`, `git diff`). Do NOT push unless instructed to.";
  "- If the working directory is NOT a git repo, review the files in place.";
  "";
  "### Review";
  "";
  "- **Completeness** — tick off each requirement in the card one by one.";
  "- **Correctness** — does it actually do what the card asks? Trace the logic; don't just read the tests. Look for off-by-one, wrong branch, missed edge cases.";
  "- **Security** — input validation at boundaries, no secrets in code, no obvious injection/XSS/SSRF.";
  "- **Tests** — are the new behaviours and edge cases covered, and do the checks pass?";
  "- **Style & scope** — no unrelated refactors, no dead code, names make sense.";
  "";
  "### Act on What You Find";
  "";
  "- Small defects in the delivered work (a bug, a missing test, a failing check) → fix them directly in this session and re-run the checks. On a branch, commit the fixes on that same branch.";
  "- EVERY requirement that is missing or only partly done → call `create_card` in this same project describing the gap: what is missing, where, and how to verify it. Reference the origin card (title + id) in the description and pass the origin card's workflow as `workflow`. Do NOT silently finish the missing work yourself and do NOT drop it.";
  "- Don't call `complete_step` — this is the last step before done.";
  "";
  "### Finish";
  "";
  "Call `finish_card` with a summary listing each requirement and how you verified it, what you fixed, and the gap cards you created (title + id) or " +:+ dq +:+ "no gaps" +:+ dq +:+ ". If the work is fundamentally wrong or the card should not be done, call `wont_do_card` with the reason instead."].


Definition REVIEW_STEP : string := "review".

Definition WORKFLOWS : list Workflow := [
  mkWorkflow "task" "Task"
    "Runs a single in-progress step, then a fresh session reviews the result. Best for everyday one-shot jobs you would hand a worker." 100
    [mkWorkflowStep "backlog" "";
     mkWorkflowStep "in_progress" TASK_INSTRUCTIONS;
     mkWorkflowStep REVIEW_STEP REVIEW_INSTRUCTIONS;
     mkWorkflowStep "done" ""];
  mkWorkflow "research" "Research"
    "Investigate a question and write up what you found. No follow-up cards, no code changes. Use when you just want an answer or a report — not a to-do list." 200
    [mkWorkflowStep "backlog" "";
     mkWorkflowStep "in_progress" RESEARCH_INSTRUCTIONS;
     mkWorkflowStep REVIEW_STEP REVIEW_INSTRUCTIONS;
     mkWorkflowStep "done" ""];
  mkWorkflow "breakdown" "Breakdown"
    "You have an idea for a task but it needs research first. No real work is done — the card gets broken down into smaller cards." 300
    [mkWorkflowStep "backlog" "";
     mkWorkflowStep "in_progress" BREAKDOWN_INSTRUCTIONS;
     mkWorkflowStep REVIEW_STEP REVIEW_INSTRUCTIONS;
     mkWorkflowStep "done" ""];
  mkWorkflow "fast-develop-software" "Fast Develop Software"
    "Normal software development: implement, run the checks, then an independent review. Lower cost than Deep Develop Software." 400
    [mkWorkflowStep "backlog" "";
     mkWorkflowStep "in_progress" FAST_DEVELOP_INSTRUCTIONS;
     mkWorkflowStep REVIEW_STEP REVIEW_INSTRUCTIONS;
     mkWorkflowStep "done" ""];
  mkWorkflow "deep-develop-software" "Deep Develop Software"
    "For big or riskier tasks: the work lands on its own git branch with an explicit hand-off, then an independent reviewer checks that branch. Higher cost." 500
    [mkWorkflowStep "backlog" "";
     mkWorkflowStep "in_progress" DEEP_DEVELOP_EXECUTION_INSTRUCTIONS;
     mkWorkflowStep REVIEW_STEP REVIEW_INSTRUCTIONS;
     mkWorkflowStep "done" ""]].

Record WorkflowStepDef := mkStepDef {
  step : string;
  instructions : string;
}.

Record WorkflowDef := mkDef {
  id : string;
  name : string;
  description : string;
  priority : Z;
  source : string;
  steps : list WorkflowStepDef;
}.

Definition step_from (s : WorkflowStep) : WorkflowStepDef :=
  mkStepDef (ws_step s) (ws_instructions s).

Definition def_from (w : Workflow) : WorkflowDef :=
  mkDef (wf_id w) (wf_name w) (wf_description w) (wf_priority w) "builtin"
    (step_from <$> wf_steps w).

(** ** The shared review step *)

Definition with_steps (d : WorkflowDef) (l : list WorkflowStepDef) : WorkflowDef :=
  mkDef (id d) (name d) (description d) (priority d) (source d) l.

Definition review_def : WorkflowStepDef := mkStepDef REVIEW_STEP REVIEW_INSTRUCTIONS.

Definition with_review_step (def : WorkflowDef) : WorkflowDef :=
  let has_review := existsb (λ s, step s == REVIEW_STEP) (steps def) in
  let ends_at_done := match last (steps def) with Some s => step s == "done" | None => false end in
  if negb has_review && ends_at_done then
    let at_ := (length (steps def) - 1)%nat in
    with_steps def (take at_ (steps def) ++ review_def :: drop at_ (steps def))
  else def.

Definition is_injected_review_step (s : WorkflowStepDef) : bool :=
  (step s == REVIEW_STEP) && (trim (instructions s) == trim REVIEW_INSTRUCTIONS).

(** src/routes/workflows.rs: what the editor's save keeps of submitted steps. *)
Definition to_step_defs (l : list WorkflowStepDef) : list WorkflowStepDef :=
  List.filter (λ s, negb (is_injected_review_step s))
    ((λ s, mkStepDef (trim (step s)) (instructions s)) <$> l).

(** ** The registry *)

(** [set_custom_workflows]: the new registry. *)
Definition set_custom_workflows (defs : list WorkflowDef) : list WorkflowDef :=
  with_review_step <$> defs.

Definition all_workflows (custom : list WorkflowDef) : list WorkflowDef :=
  (def_from <$> WORKFLOWS) ++ custom.

Definition builtin_by_id (i : string) : option Workflow :=
  List.find (λ w, wf_id w == i) WORKFLOWS.

Definition workflow_by_id (custom : list WorkflowDef) (i : string) : option WorkflowDef :=
  match builtin_by_id i with
  | Some w => Some (def_from w)
  | None => List.find (λ w, id w == i) custom
  end.

(** [default_workflow]: its [expect] never fires, [default_workflow_exists] below. *)
Definition default_workflow : option WorkflowDef := def_from <$> builtin_by_id DEFAULT_WORKFLOW_ID.

(** [id.and_then(workflow_by_id).unwrap_or_else(default_workflow)]. *)
Definition resolve (custom : list WorkflowDef) (i : option string) : option WorkflowDef :=
  match i ≫= workflow_by_id custom with
  | Some w => Some w
  | None => default_workflow
  end.

Definition def_step_names (d : WorkflowDef) : list string := step <$> steps d.

Definition steps_for (custom : list WorkflowDef) (i : option string) : list string :=
  match resolve custom i with
  | Some wf => def_step_names wf
  | None => [] (* default_workflow's panic *)
  end.

Definition steps_for_card (custom : list WorkflowDef) (workflow_id current_step : string)
    (review_enabled : bool) : list string :=
  let l := steps_for custom (Some workflow_id) in
  if negb review_enabled && (current_step != REVIEW_STEP)
  then List.filter (λ s, s != REVIEW_STEP) l
  else l.

Definition finish_target (current_step : string) (l : list string) : string :=
  match position (λ s, s == current_step) l, position (λ s, s == REVIEW_STEP) l with
  | Some c, Some r => if (c <? r)%nat then REVIEW_STEP else "done"
  | _, _ => "done"
  end.

Definition step_instructions (custom : list WorkflowDef) (workflow_id : option string)
    (s : string) : option string :=
  wf ← resolve custom workflow_id;
  d ← List.find (λ d, step d == s) (steps wf);
  if instructions d == "" then None else Some (instructions d).

(** ** Validation *)

Definition MAX_CUSTOM_WORKFLOW_STEPS : nat := 12.
Definition MAX_CUSTOM_WORKFLOW_NAME_LEN : nat := 200.

Section name.
Variable to_lowercase : string → string.

Definition validate_workflow_name (custom : list WorkflowDef) (nm : string)
    (self_id : option string) : Result string unit :=
  if is_blank nm then Err "name must not be empty"
  else if (MAX_CUSTOM_WORKFLOW_NAME_LEN <? chars_count nm)%nat
    then Err "name must be at most 200 characters"
  else
    let lower := to_lowercase (trim nm) in
    let collides := existsb (λ w, (Some (id w) != self_id) &&
      (to_lowercase (trim (name w)) == lower)) (all_workflows custom) in
    if collides then Err ("a workflow named '" +:+ nm +:+ "' already exists")
    else Ok tt.
End name.

Definition is_lower (c : ascii) : bool := let n := byte_code c in ((97 <=? n) && (n <=? 122))%N.
Definition is_digit (c : ascii) : bool := let n := byte_code c in ((48 <=? n) && (n <=? 57))%N.

(** [STEP_NAME_RE], the anchored regex [^[a-z][a-z0-9_]*$]. *)
Definition step_name_re (s : string) : bool :=
  match String.list_ascii_of_string s with
  | [] => false
  | c :: cs => is_lower c && forallb (λ c, is_lower c || is_digit c || (byte_code c =? 95)%N) cs
  end.

(** The loop that checks names and rejects a second use of one. *)
Fixpoint check_names (seen : gset string) (l : list WorkflowStepDef) : Result string unit :=
  match l with
  | [] => Ok tt
  | s :: l' =>
    if negb (step_name_re (step s)) then
      Err ("step '" +:+ step s +:+ "' is invalid: step names must be lowercase, start with a letter, and contain only letters, digits, and underscores")
    else if bool_decide (step s ∈ seen) then
      Err ("step '" +:+ step s +:+ "' is defined more than once")
    else check_names ({[step s]} ∪ seen) l'
  end.

Definition reserved (s : string) : bool :=
  (s == "backlog") || (s == "todo") || (s == "done") || (s == "wont_do").

(** [for s in &steps[1..steps.len() - 1]]. *)
Fixpoint check_reserved (l : list WorkflowStepDef) : Result string unit :=
  match l with
  | [] => Ok tt
  | s :: l' =>
    if reserved (step s) then
      Err ("step '" +:+ step s +:+ "' is reserved and may not be used as a working step")
    else check_reserved l'
  end.

(** [for (i, s) in steps.iter().enumerate()], of [n] steps in all. *)
Fixpoint check_instructions (n i : nat) (l : list WorkflowStepDef) : Result string unit :=
  match l with
  | [] => Ok tt
  | s :: l' =>
    let is_terminal := (i =? 0)%nat || (i =? n - 1)%nat in
    if is_terminal && negb (is_blank (instructions s)) then
      Err ("step '" +:+ step s +:+ "' is terminal and must not have instructions")
    else if negb is_terminal && is_blank (instructions s) then
      Err ("step '" +:+ step s +:+ "' must have non-empty instructions — a step with no instructions never runs a worker")
    else check_instructions n (S i) l'
  end.

Definition validate_workflow_steps (l : list WorkflowStepDef) : Result string unit :=
  let n := length l in
  if (n <? 3)%nat then
    Err "a workflow needs at least 3 steps (backlog, one working step, done)"
  else if (MAX_CUSTOM_WORKFLOW_STEPS <? n)%nat then
    Err "a workflow may have at most 12 steps"
  else if (step <$> head l) != Some "backlog" then Err "the first step must be 'backlog'"
  else if (step <$> last l) != Some "done" then Err "the last step must be 'done'"
  else
    check_names ∅ l;;
    check_reserved (take (n - 2) (drop 1 l));;
    check_instructions n 0 l.

(** ** What validation means *)

(** A step a worker runs: a legal, unreserved name and real instructions. *)
Definition working (s : WorkflowStepDef) : Prop :=
  step_name_re (step s) = true ∧ reserved (step s) = false ∧
  is_blank (instructions s) = false.

(** The shape the orchestrator requires of a custom workflow. *)
Definition valid_steps (l : list WorkflowStepDef) : Prop :=
  ∃ b mid d, l = b :: mid ++ [d] ∧
    step b = "backlog" ∧ is_blank (instructions b) = true ∧
    step d = "done" ∧ is_blank (instructions d) = true ∧
    (1 ≤ length mid ≤ 10)%nat ∧ Forall working mid ∧ NoDup (step <$> l).

Lemma check_names_ok seen l :
  check_names seen l = Ok tt ↔
  Forall (λ s, step_name_re (step s) = true ∧ step s ∉ seen) l ∧ NoDup (step <$> l).
Proof.
  revert seen. induction l as [|s l IH]; intros seen; simpl.
  { split; [|done]. split; [done|constructor]. }
  rewrite Forall_cons, NoDup_cons. destruct (step_name_re (step s)) eqn:E; simpl; [|naive_solver].
  case_bool_decide as Hs; [naive_solver|]. rewrite IH.
  rewrite list_elem_of_fmap, !Forall_forall. setoid_rewrite not_elem_of_union.
  setoid_rewrite not_elem_of_singleton. naive_solver.
Qed.

Lemma check_reserved_ok l :
  check_reserved l = Ok tt ↔ Forall (λ s, reserved (step s) = false) l.
Proof.
  induction l as [|s l IH]; simpl; [done|].
  rewrite Forall_cons, <- IH. destruct (reserved (step s)); naive_solver.
Qed.

Lemma check_instructions_ok n i l :
  check_instructions n i l = Ok tt ↔
  ∀ k s, l !! k = Some s →
    is_blank (instructions s) = ((i + k =? 0) || (i + k =? n - 1))%nat.
Proof.
  revert i. induction l as [|s l IH]; intros i; cbn [check_instructions].
  { split; [|done]. intros _ k s. by rewrite lookup_nil. }
  transitivity (is_blank (instructions s) = ((i =? 0) || (i =? n - 1))%nat ∧
    check_instructions n (S i) l = Ok tt).
  { destruct (is_blank (instructions s)), ((i =? 0) || (i =? n - 1))%nat; simpl;
      split; intros H; try done; by destruct H. }
  rewrite IH. split.
  - intros [H1 H2] [|k] t; simpl.
    + intros [= <-]. by rewrite Nat.add_0_r.
    + intros Ht. rewrite (H2 k t Ht). by replace (i + S k)%nat with (S i + k)%nat by lia.
  - intros H. split; [rewrite <- (Nat.add_0_r i); by apply (H O)|].
    intros k t Ht. replace (S i + k)%nat with (i + S k)%nat by lia. by apply H.
Qed.

(** A list of at least two elements by its ends. *)
Lemma list_ends {A} (l : list A) :
  (2 ≤ length l)%nat → ∃ b mid d, l = b :: mid ++ [d].
Proof.
  destruct l as [|b l]; simpl; [lia|]. destruct l as [|d mid _] using rev_ind; simpl; [lia|]. eauto.
Qed.

Lemma ends_middle {A} (b d : A) mid :
  take (length (b :: mid ++ [d]) - 2) (drop 1 (b :: mid ++ [d])) = mid.
Proof.
  simpl. rewrite drop_0, length_app. simpl.
  replace (length mid + 1 - 1)%nat with (length mid) by lia. apply take_app_length.
Qed.

Lemma last_ends {A} (b d : A) mid : last (b :: mid ++ [d]) = Some d.
Proof. rewrite app_comm_cons. apply last_snoc. Qed.

(** The last loop, on a list given by its ends: blank exactly at the ends. *)
Lemma check_instructions_ends b mid d :
  check_instructions (length (b :: mid ++ [d])) 0 (b :: mid ++ [d]) = Ok tt ↔
  is_blank (instructions b) = true ∧ is_blank (instructions d) = true ∧
  Forall (λ s, is_blank (instructions s) = false) mid.
Proof.
  rewrite check_instructions_ok. simpl length. rewrite length_app. simpl length.
  replace (S (length mid + 1) - 1)%nat with (S (length mid)) by lia.
  rewrite Forall_lookup. split.
  - intros H. split; [by apply (H O)|]. split.
    + rewrite (H (S (length mid)) d); [by rewrite Nat.eqb_refl, orb_true_r|].
      simpl. rewrite lookup_app_r, Nat.sub_diag by lia. done.
    + intros i s Hs. apply lookup_lt_Some in Hs as Hi.
      rewrite (H (S i) s); [|simpl; by rewrite lookup_app_l].
      simpl. by apply Nat.eqb_neq; lia.
  - intros (Hb & Hd & Hm) [|k] s; simpl; [by intros [= <-]|].
    intros [Hs|[Hk Hs]]%lookup_app_Some.
    + apply lookup_lt_Some in Hs as Hi. rewrite (Hm k s Hs).
      symmetry. apply Nat.eqb_neq. lia.
    + destruct (k - length mid)%nat as [|j] eqn:E; [|simpl in Hs; by rewrite lookup_nil in Hs].
      injection Hs as <-. rewrite Hd. symmetry. apply Nat.eqb_eq. lia.
Qed.

(** A custom workflow is accepted exactly when it has the shape the
    orchestrator relies on: it starts at a blank backlog, ends at a blank
    done, has one to ten working steps in between with legal unreserved names
    and real instructions, and no step name twice. *)
Theorem validate_workflow_steps_exact l :
  validate_workflow_steps l = Ok tt ↔ valid_steps l.
Proof.
  unfold validate_workflow_steps. split.
  - destruct (Nat.ltb_spec (length l) 3) as [|H3]; [done|].
    destruct (Nat.ltb_spec MAX_CUSTOM_WORKFLOW_STEPS (length l)) as [|H12]; [done|].
    destruct (list_ends l ltac:(lia)) as (b & mid & d & ->). rewrite last_ends, ends_middle.
    case_bool_decide as Hb; [|done]. case_bool_decide as Hd; [|done]. cbn [negb].
    intros ([] & [Hn HN]%check_names_ok & H)%bind_ok.
    apply bind_ok in H as ([] & Hr%check_reserved_ok & (Hib&Hid&Him)%check_instructions_ends).
    simpl in Hb, Hd, H3, H12. rewrite length_app in H3, H12. simpl in H3, H12.
    unfold MAX_CUSTOM_WORKFLOW_STEPS in H12.
    exists b, mid, d. split_and!; try done; try congruence; try lia.
    apply Forall_cons in Hn as [_ [Hn _]%Forall_app]. rewrite !Forall_forall in *.
    unfold working. naive_solver.
  - intros (b & mid & d & -> & Hb & Hib & Hd & Hid & Hlen & Hw & HN).
    destruct (Nat.ltb_spec (length (b :: mid ++ [d])) 3) as [H|_];
      [simpl in H; rewrite length_app in H; simpl in H; lia|].
    destruct (Nat.ltb_spec MAX_CUSTOM_WORKFLOW_STEPS (length (b :: mid ++ [d]))) as [H|_];
      [simpl in H; rewrite length_app in H; unfold MAX_CUSTOM_WORKFLOW_STEPS in H; simpl in H; lia|].
    rewrite last_ends, ends_middle. simpl head. simpl fmap at 1. cbn [option_fmap option_map fmap].
    rewrite !bool_decide_eq_true_2 by (simpl; congruence). cbn [negb].
    rewrite (proj2 (check_names_ok _ _)), (proj2 (check_reserved_ok _)),
      (proj2 (check_instructions_ends b mid d)); [done|..].
    + split_and!; try done. rewrite !Forall_forall in *. intros s Hs. by apply Hw.
    + rewrite !Forall_forall in *. intros s Hs. by apply Hw.
    + split; [|done]. rewrite Forall_cons, Forall_app, Forall_singleton, Hb, Hd.
      split_and!; try done; try apply not_elem_of_empty.
      rewrite !Forall_forall in *. intros s Hs. split; [by apply Hw|apply not_elem_of_empty].
Qed.

(** ** Step resolution *)

(** What every resolved step list looks like: backlog first, done last, the
    review step in between, nothing twice. *)
Definition board_shape (l : list string) : Prop :=
  ∃ mid, l = "backlog" :: mid ++ ["done"] ∧ REVIEW_STEP ∈ mid ∧ NoDup l.

Lemma with_review_step_ends d b mid e :
  steps d = b :: mid ++ [e] → step e = "done" →
  steps (with_review_step d) =
    if existsb (λ s, step s == REVIEW_STEP) (steps d) then steps d
    else b :: (mid ++ [review_def]) ++ [e].
Proof.
  intros Hs He. unfold with_review_step. rewrite Hs, last_ends.
  rewrite (bool_decide_eq_true_2 (step e = "done")) by done.
  destruct (existsb _ _) eqn:E; cbn [negb andb]; [done|].
  cbn [steps with_steps].
  replace (length (b :: mid ++ [e]) - 1)%nat with (length (b :: mid))
    by (simpl; rewrite length_app; simpl; lia).
  rewrite app_comm_cons, take_app_length, drop_app_length. simpl. by rewrite <- app_assoc.
Qed.

Lemma valid_board_shape d :
  valid_steps (steps d) → board_shape (def_step_names (with_review_step d)).
Proof.
  intros (b & mid & e & Hs & Hb & _ & He & _ & _ & Hw & HN).
  unfold board_shape, def_step_names. rewrite (with_review_step_ends d b mid e) by done.
  rewrite Hs in *. destruct (existsb _ _) eqn:E.
  - apply existsb_exists in E as (s & Hin & Hrev%bool_decide_eq_true).
    exists (step <$> mid). rewrite fmap_cons, fmap_app in *. rewrite Hb in HN |- *.
    simpl in HN |- *. rewrite He in HN |- *. split_and!; [done| |done].
    apply list_elem_of_In in Hin. rewrite elem_of_cons, elem_of_app, list_elem_of_singleton in Hin.
    apply list_elem_of_fmap. exists s. split; [done|].
    destruct Hin as [->|[?| ->]]; [by rewrite Hrev in Hb|done|by rewrite Hrev in He].
  - apply existsb_false in E. rewrite Forall_forall in E.
    exists ((step <$> mid) ++ [REVIEW_STEP]).
    rewrite fmap_cons, !fmap_app in *. simpl in HN |- *. rewrite Hb, He in HN |- *.
    split_and!; [done|set_solver|].
    assert (REVIEW_STEP ∉ step <$> mid) as Hr.
    { intros (s & Hr & Hin)%list_elem_of_fmap.
      specialize (E s). rewrite bool_decide_eq_false, elem_of_cons, elem_of_app in E.
      apply E; auto. }
    rewrite <- app_assoc. apply NoDup_cons in HN as [Hb' HN]. apply NoDup_cons.
    apply NoDup_app in HN as (HN & Hd & _).
    split; [rewrite !elem_of_app, !list_elem_of_singleton in *; unfold REVIEW_STEP; set_solver|].
    apply NoDup_app. split_and!; [done|set_solver|].
    apply NoDup_cons. split; [unfold REVIEW_STEP; set_solver|apply NoDup_singleton].
Qed.

(** Both [default_workflow] and the built-in table have the shape. *)
Lemma builtin_board_shape i w :
  builtin_by_id i = Some w → board_shape (def_step_names (def_from w)).
Proof.
  unfold builtin_by_id. intros [Hin _]%List.find_some.
  assert (Forall (λ w, ws_step <$> wf_steps w = ["backlog"; "in_progress"; "review"; "done"])
    WORKFLOWS) as HF by (repeat constructor).
  apply list_elem_of_In in Hin. rewrite Forall_forall in HF. specialize (HF w Hin).
  unfold def_step_names, def_from. cbn [steps]. rewrite <- list_fmap_compose.
  change (step ∘ step_from) with ws_step. rewrite HF.
  exists ["in_progress"; "review"]. split_and!; [done|set_solver|].
  by apply (bool_decide_unpack _).
Qed.

Lemma default_workflow_exists : ∃ w, default_workflow = Some (def_from w) ∧
  board_shape (def_step_names (def_from w)).
Proof.
  destruct (builtin_by_id DEFAULT_WORKFLOW_ID) as [w|] eqn:E; [|by vm_compute in E].
  exists w. unfold default_workflow. rewrite E. split; [done|]. by eapply builtin_board_shape.
Qed.

Lemma resolve_board_shape defs i :
  Forall (λ d, valid_steps (steps d)) defs →
  board_shape (steps_for (set_custom_workflows defs) i).
Proof.
  intros Hv. unfold steps_for, resolve.
  destruct default_workflow_exists as (dw & Hdw & Hshape).
  destruct i as [i|]; [rewrite some_bind|cbn [mbind option_bind]; by rewrite Hdw].
  unfold workflow_by_id. destruct (builtin_by_id i) as [w|] eqn:E; [by eapply builtin_board_shape|].
  destruct (List.find _ _) as [d|] eqn:F; [|by rewrite Hdw].
  apply List.find_some in F as [Hin _]. apply list_elem_of_In in Hin.
  unfold set_custom_workflows in Hin. apply list_elem_of_fmap in Hin as (d0 & -> & Hin).
  rewrite Forall_forall in Hv. by apply valid_board_shape, Hv.
Qed.

(** C39: once the registry holds validated definitions, every workflow id
    (known, unknown or missing) resolves to a step list that starts at
    backlog, ends at done, runs the review step in between, and repeats no
    step; turning review off removes exactly the review step. *)
Theorem steps_for_card_shape defs workflow_id current review_enabled :
  Forall (λ d, valid_steps (steps d)) defs →
  let custom := set_custom_workflows defs in
  let l := steps_for_card custom workflow_id current review_enabled in
  board_shape (steps_for custom (Some workflow_id)) ∧
  (∃ mid, l = "backlog" :: mid ++ ["done"]) ∧ NoDup l ∧
  (REVIEW_STEP ∈ l ↔ review_enabled = true ∨ current = REVIEW_STEP) ∧
  (∀ s, s ≠ REVIEW_STEP → s ∈ l ↔ s ∈ steps_for custom (Some workflow_id)).
Proof.
  intros Hv custom l. pose proof (resolve_board_shape defs (Some workflow_id) Hv) as Hsh.
  split; [done|]. fold custom in Hsh. unfold l, steps_for_card.
  set (full := steps_for custom (Some workflow_id)) in *.
  destruct Hsh as (mid & Hfull & Hrev & HN).
  destruct review_enabled; simpl.
  { rewrite Hfull. split_and!; [by eexists|by rewrite <- Hfull|set_solver|done]. }
  case_bool_decide as Hc; simpl.
  { rewrite Hfull. split_and!; [by eexists|by rewrite <- Hfull|set_solver|done]. }
  assert (∀ s, s ∈ List.filter (λ s, s != REVIEW_STEP) full ↔ s ≠ REVIEW_STEP ∧ s ∈ full) as Hin.
  { intros s. rewrite !list_elem_of_In, List.filter_In. case_bool_decide; simpl; naive_solver. }
  split_and!.
  - exists (List.filter (λ s, s != REVIEW_STEP) mid). rewrite Hfull. simpl.
    by rewrite List.filter_app.
  - apply NoDup_ListNoDup, List.NoDup_filter, NoDup_ListNoDup. done.
  - rewrite Hin. naive_solver.
  - intros s Hs. rewrite Hin. naive_solver.
Qed.

(** ** Finishing a card *)

Lemma position_eqb (x : string) l :
  x ∈ l → ∃ i, position (λ s, s == x) l = Some i ∧ l !! i = Some x.
Proof.
  intros Hx. destruct (position (λ s, s == x) l) as [i|] eqn:E.
  - apply position_Some in E as [(y & Hy & ->%bool_decide_eq_true) _]. eauto.
  - apply position_None in E. rewrite Forall_forall in E.
    specialize (E x Hx). by rewrite bool_decide_eq_false in E.
Qed.

(** Where [finish_card] lands is the review step exactly when the card is on a
    step listed before it. *)
Lemma finish_target_review cur l :
  finish_target cur l = REVIEW_STEP ↔
  ∃ c r, position (λ s, s == cur) l = Some c ∧
    position (λ s, s == REVIEW_STEP) l = Some r ∧ (c < r)%nat.
Proof.
  unfold finish_target.
  destruct (position _ l) as [c|]; [|naive_solver].
  destruct (position _ l) as [r|]; [|naive_solver].
  destruct (Nat.ltb_spec c r); naive_solver lia.
Qed.

Lemma finish_target_cases cur l : finish_target cur l = REVIEW_STEP ∨ finish_target cur l = "done".
Proof. unfold finish_target. repeat case_match; auto. Qed.

Lemma finish_from_review l : finish_target REVIEW_STEP l = "done".
Proof.
  destruct (finish_target_cases REVIEW_STEP l) as [H|H]; [|done].
  apply finish_target_review in H as (c & r & Hc & Hr & ?). rewrite Hc in Hr.
  injection Hr as ->. lia.
Qed.

(** finishing a card never loops and never skips an enabled review: a
    finish lands on the review step exactly when review is enabled and still
    ahead of the card's step, lands on done otherwise, and the next finish
    after a review always lands on done. *)
Theorem finish_reaches_done custom workflow_id current review_enabled :
  let l := steps_for_card custom workflow_id current review_enabled in
  let t := finish_target current l in
  (t = "done" ∨
   t = REVIEW_STEP ∧
   finish_target REVIEW_STEP (steps_for_card custom workflow_id REVIEW_STEP review_enabled) = "done") ∧
  (t = REVIEW_STEP ↔
   review_enabled = true ∧
   ∃ c r, position (λ s, s == current) (steps_for custom (Some workflow_id)) = Some c ∧
     position (λ s, s == REVIEW_STEP) (steps_for custom (Some workflow_id)) = Some r ∧
     (c < r)%nat).
Proof.
  intros l t. split.
  { destruct (finish_target_cases current l) as [H|H]; [right|by left].
    split; [done|apply finish_from_review]. }
  unfold t. destruct (decide (current = REVIEW_STEP)) as [->|Hc].
  { rewrite finish_from_review. split; [discriminate|].
    intros (_ & c & r & Hc & Hr & ?). rewrite Hc in Hr. injection Hr as ->. lia. }
  rewrite finish_target_review. unfold l, steps_for_card.
  destruct review_enabled; simpl; [naive_solver|].
  rewrite bool_decide_eq_false_2 by done. simpl.
  split; [|naive_solver]. intros (c & r & _ & Hr & _).
  apply position_Some in Hr as [(y & Hy & ->%bool_decide_eq_true) _].
  apply list_elem_of_lookup_2, list_elem_of_In, List.filter_In in Hy as [_ Hy].
  by rewrite bool_decide_eq_true_2 in Hy.
Qed.

(** ** The editor's round trip *)

Lemma name_char_not_ws c :
  is_lower c || is_digit c || (byte_code c =? 95)%N = true →
  ascii_ws c = false ∧ (byte_code c < 128)%N.
Proof.
  unfold is_lower, is_digit, ascii_ws. cbv zeta. generalize (byte_code c). intros n H.
  rewrite !orb_true_iff, !andb_true_iff, !N.leb_le, N.eqb_eq in H.
  rewrite orb_false_iff, andb_false_iff, !N.leb_gt, N.eqb_neq. lia.
Qed.

Lemma trim_start_name c l :
  is_lower c || is_digit c || (byte_code c =? 95)%N = true → trim_start (c :: l) = c :: l.
Proof.
  intros [Hw Hlt]%name_char_not_ws. cbn [trim_start]. rewrite Hw.
  destruct l as [|c1 [|c2 l]]; [done|..]; unfold ws2, ws3;
    repeat (rewrite (proj2 (N.eqb_neq (byte_code c) _)) by lia); done.
Qed.

Lemma trim_end_name c l :
  is_lower c || is_digit c || (byte_code c =? 95)%N = true → trim_end_rev (c :: l) = c :: l.
Proof.
  intros [Hw Hlt]%name_char_not_ws. cbn [trim_end_rev]. rewrite Hw.
  assert (∀ n, (128 ≤ n)%N → (n <=? byte_code c)%N = false) as Hle
    by (intros n ?; apply N.leb_gt; lia).
  assert (∀ n, (128 ≤ n)%N → (byte_code c =? n)%N = false) as Heq
    by (intros n ?; apply N.eqb_neq; lia).
  destruct l as [|c1 [|c2 l]]; [done|..]; unfold ws2, ws3;
    repeat rewrite Heq by lia; repeat rewrite Hle by lia;
    rewrite ?andb_false_l, ?andb_false_r; done.
Qed.

Lemma trim_name s : step_name_re s = true → trim s = s.
Proof.
  unfold step_name_re, trim. intros H.
  rewrite <- (String.string_of_list_ascii_of_string s) at 2. f_equal.
  destruct (String.list_ascii_of_string s) as [|c l]; [done|].
  apply andb_true_iff in H as [Hc Hl].
  assert (Forall (λ c, is_lower c || is_digit c || (byte_code c =? 95)%N = true) (c :: l)) as HF.
  { constructor; [by rewrite Hc|]. apply List.Forall_forall. by apply List.forallb_forall. }
  rewrite trim_start_name by (by rewrite Hc).
  destruct (reverse (c :: l)) as [|c' l'] eqn:E.
  { by apply (f_equal reverse) in E; rewrite reverse_involutive in E. }
  rewrite trim_end_name, <- E, reverse_involutive; [done|].
  rewrite Forall_forall in HF. apply HF, elem_of_reverse. rewrite E. set_solver.
Qed.

Lemma review_def_injected : is_injected_review_step review_def = true.
Proof.
  unfold is_injected_review_step, review_def. cbn [step instructions].
  by rewrite !bool_decide_eq_true_2.
Qed.

(** Opening a validated custom workflow in the editor (which shows the
    injected review step) and saving it unchanged stores the original steps
    again, unless a step is itself a copy of the shared review step. *)
Theorem editor_roundtrip d :
  valid_steps (steps d) → Forall (λ s, is_injected_review_step s = false) (steps d) →
  to_step_defs (steps (with_review_step d)) = steps d.
Proof.
  intros (b & mid & e & Hs & Hb & _ & He & _ & _ & Hw & _) Hi.
  rewrite (with_review_step_ends d b mid e) by done. rewrite Hs in *.
  apply Forall_cons in Hi as [Hib [Him Hie]%Forall_app]. rewrite Forall_singleton in Hie.
  assert (∀ l, Forall (λ s, trim (step s) = step s ∧ is_injected_review_step s = false) l →
    to_step_defs l = l) as Hid.
  { intros l. unfold to_step_defs. induction 1 as [|[st ins] l [Ht Hn] _ IH]; [done|].
    cbn [step instructions] in *. rewrite fmap_cons. simpl. rewrite Ht, Hn. simpl. by rewrite IH. }
  assert (trim (step b) = step b ∧ trim (step e) = step e) as [Htb Hte]
    by (rewrite Hb, He; by split).
  assert (Forall (λ s, trim (step s) = step s ∧ is_injected_review_step s = false) mid) as Hm.
  { rewrite !Forall_forall in *. intros s Hin. split; [|by apply Him].
    apply trim_name. by apply Hw. }
  destruct (existsb _ _).
  { apply Hid. constructor; [done|]. apply Forall_app. split; [done|]. by constructor. }
  transitivity (to_step_defs (b :: mid ++ [e])).
  2: { apply Hid. constructor; [done|]. apply Forall_app. split; [done|]. by constructor. }
  unfold to_step_defs. rewrite <- app_assoc, !fmap_cons, !fmap_app.
  cbn [List.filter]. rewrite !List.filter_app, fmap_cons. cbn [List.filter fmap list_fmap].
  change (mkStepDef (trim (step review_def)) (instructions review_def)) with review_def.
  by rewrite review_def_injected.
Qed.

(** ** Witnesses *)

Definition ex_steps : list WorkflowStepDef :=
  [mkStepDef "backlog" ""; mkStepDef "build" "Build it."; mkStepDef "done" " "].

Definition ex_def : WorkflowDef := mkDef "w1" "Mine" "" 1000 "custom" ex_steps.

Lemma ex_steps_valid : valid_steps ex_steps.
Proof.
  exists (mkStepDef "backlog" ""), [mkStepDef "build" "Build it."], (mkStepDef "done" " ").
  split_and!; try done; try (simpl; lia).
  - repeat constructor.
  - by apply (bool_decide_unpack _).
Qed.

Lemma steps_for_card_shape_witness :
  let custom := set_custom_workflows [ex_def] in
  let l := steps_for_card custom "w1" "build" true in
  board_shape (steps_for custom (Some "w1")) ∧
  (∃ mid, l = "backlog" :: mid ++ ["done"]) ∧ NoDup l ∧
  (REVIEW_STEP ∈ l ↔ true = true ∨ "build" = REVIEW_STEP) ∧
  (∀ s, s ≠ REVIEW_STEP → s ∈ l ↔ s ∈ steps_for custom (Some "w1")).
Proof.
  apply (steps_for_card_shape [ex_def]). constructor; [apply ex_steps_valid|constructor].
Defined.

Lemma editor_roundtrip_witness : to_step_defs (steps (with_review_step ex_def)) = ex_steps.
Proof. apply (editor_roundtrip ex_def); [apply ex_steps_valid|]. repeat constructor. Defined.

End Workflow.
