(* ===== verification/CardPolicy.v ===== *)
(** * Card-update policy

    Models src/card_policy.rs: which fields of an existing card an update may
    touch, by the step the card is on. *)

From S2P Require Import Prelude.

Module CardPolicy.

Record CardUpdateIntent := mkIntent {
  i_step : bool;
  i_title : bool;
  i_description : bool;
  i_priority : bool;
  i_workflow : bool;
  i_model : bool;
  i_effort : bool;
  i_blocked : bool;
  i_block_reason : bool;
  i_depends_on : bool;
}.

Definition touches_non_step (i : CardUpdateIntent) : bool :=
  i_title i || i_description i || i_priority i || i_workflow i || i_model i || i_effort i
  || i_blocked i || i_block_reason i || i_depends_on i.

Definition is_terminal_step (step : string) : bool := (step == "done") || (step == "wont_do").

Definition enforce_card_update_policy (existing_step : string) (intent : CardUpdateIntent)
    : Result string unit :=
  let is_terminal := is_terminal_step existing_step in
  if is_terminal then
    if negb (i_step intent) || touches_non_step intent then
      Err "card-update-policy: card is in terminal state — only step changes allowed"
    else Ok tt
  else if (existing_step != "backlog") && (i_workflow intent || i_description intent) then
    Err "card-update-policy: description and workflow are locked after leaving backlog"
  else Ok tt.

(** The fields an update intends to touch, as a set. *)
Inductive Field :=
  FStep | FTitle | FDescription | FPriority | FWorkflow | FModel | FEffort | FBlocked
  | FBlockReason | FDependsOn.

Definition touches (i : CardUpdateIntent) (f : Field) : bool :=
  match f with
  | FStep => i_step i | FTitle => i_title i | FDescription => i_description i
  | FPriority => i_priority i | FWorkflow => i_workflow i | FModel => i_model i
  | FEffort => i_effort i | FBlocked => i_blocked i | FBlockReason => i_block_reason i
  | FDependsOn => i_depends_on i
  end.

(** The policy, said of every field: an update of a finished card passes
    exactly when it changes the step and nothing else; an update of any other
    card passes exactly when the card is still in the backlog or the update
    leaves both description and workflow alone. *)
Theorem policy_exact step i :
  enforce_card_update_policy step i = Ok tt ↔
  (step = "done" ∨ step = "wont_do" → ∀ f, touches i f = true ↔ f = FStep) ∧
  (step ≠ "done" → step ≠ "wont_do" → step ≠ "backlog" →
     touches i FDescription = false ∧ touches i FWorkflow = false).
Proof.
  unfold enforce_card_update_policy, is_terminal_step.
  destruct (decide (step = "done" ∨ step = "wont_do")) as [Ht|Ht].
  - replace ((step == "done") || (step == "wont_do")) with true
      by (destruct Ht as [-> | ->]; done).
    transitivity (∀ f, touches i f = true ↔ f = FStep); [|tauto].
    destruct i as [s t d p w m e b br dp]. unfold touches_non_step. simpl. split.
    + intros H f. destruct (negb s || _) eqn:E; [done|].
      rewrite !orb_false_iff, negb_false_iff in E. destruct_and!. subst. by destruct f.
    + intros H.
      pose proof (proj2 (H FStep) eq_refl) as Hs. simpl in Hs. subst s.
      assert (∀ f, f ≠ FStep → touches (mkIntent true t d p w m e b br dp) f = false) as Hf.
      { intros f Hne. destruct (touches _ f) eqn:E; [|done]. by apply H in E. }
      rewrite (Hf FTitle ltac:(done) : t = false), (Hf FDescription ltac:(done) : d = false), (Hf FPriority ltac:(done) : p = false),
        (Hf FWorkflow ltac:(done) : w = false), (Hf FModel ltac:(done) : m = false), (Hf FEffort ltac:(done) : e = false),
        (Hf FBlocked ltac:(done) : b = false), (Hf FBlockReason ltac:(done) : br = false), (Hf FDependsOn ltac:(done) : dp = false).
      done.
  - assert (step ≠ "done" ∧ step ≠ "wont_do") as [Hd Hw] by tauto.
    rewrite !bool_decide_eq_false_2 by done. simpl.
    destruct (decide (step = "backlog")) as [->|Hb]; simpl; [naive_solver|].
    rewrite bool_decide_eq_false_2 by done. simpl.
    destruct (i_workflow i), (i_description i); simpl; naive_solver.
Qed.

End CardPolicy.
