(* ===== verification/Json.v ===== *)
(** * The JSON interface

    [serde_json] is a crate, so the components that read event payloads take
    it as a parameter: the operations they call.  No theorem needs a law about
    them.  [ObjJson], objects of string fields, instantiates the interface for
    the witnesses. *)

From S2P Require Import Prelude.

Class JsonApi := {
  Json : Type;
  (** [serde_json::from_str]. *)
  json_from_str : string → option Json;
  (** [Value::default()]. *)
  json_null : Json;
  (** [Value::get] with a string key, and [Value::as_str]. *)
  json_get : Json → string → option Json;
  json_as_str : Json → option string;
  (** [Value::as_array], and [n.to_string()] of a [Value::Number(n)]. *)
  json_as_array : Json → option (list Json);
  json_as_number : Json → option string;
  (** The text of the object [json!] builds; a [None] field is null. *)
  json_object : list (string * option string) → string;
  (** The text of [json!({ key: [] })]. *)
  json_empty_array : string → string;
}.

(** [from_str(data).unwrap_or_default()]. *)
Definition parse_or_null `{JsonApi} (data : string) : Json :=
  default json_null (json_from_str data).

(** [v.get(key).and_then(|v| v.as_str())]. *)
Definition get_str `{JsonApi} (v : Json) (key : string) : option string :=
  json_get v key ≫= json_as_str.

(** ** A concrete instance: objects whose fields are strings, printed as
    [key=value] pairs, each ended by a semicolon. *)

Module ObjJson.
Inductive V :=
| Obj (fields : list (string * string)) | Str (s : string) | Num (digits : string)
| Arr (l : list V) | Map (fields : list (string * V)) | Null.

Fixpoint print (fields : list (string * option string)) : string :=
  match fields with
  | [] => ""
  | (k, Some v) :: r => k +:+ "=" +:+ v +:+ ";" +:+ print r
  | (_, None) :: r => print r
  end.

Fixpoint split_on (c : Ascii.ascii) (acc : string) (s : string) : list string :=
  match s with
  | EmptyString => []
  | String a s' =>
    if a == c then acc :: split_on c "" s' else split_on c (acc +:+ String a "") s'
  end.

Fixpoint cut (c : Ascii.ascii) (acc : string) (s : string) : option (string * string) :=
  match s with
  | EmptyString => None
  | String a s' => if a == c then Some (acc, s') else cut c (acc +:+ String a "") s'
  end.

Definition parse (s : string) : option V :=
  Some (Obj (omap (cut (Ascii.ascii_of_nat 61) "") (split_on (Ascii.ascii_of_nat 59) "" s))).

Fixpoint assoc {A} (k : string) (l : list (string * A)) : option A :=
  match l with [] => None | (k', v) :: r => if k == k' then Some v else assoc k r end.
End ObjJson.

Definition obj_json : JsonApi := {|
  Json := ObjJson.V;
  json_from_str := ObjJson.parse;
  json_null := ObjJson.Null;
  json_get v k :=
    match v with
    | ObjJson.Obj l => ObjJson.Str <$> ObjJson.assoc k l
    | ObjJson.Map l => ObjJson.assoc k l
    | _ => None
    end;
  json_as_str v := match v with ObjJson.Str s => Some s | _ => None end;
  json_as_array v := match v with ObjJson.Arr l => Some l | _ => None end;
  json_as_number v := match v with ObjJson.Num s => Some s | _ => None end;
  json_object := ObjJson.print;
  json_empty_array k := k +:+ "=[];";
|}.

Example obj_json_ex :
  let _ := obj_json in
  get_str (parse_or_null (ObjJson.print [("status", Some "crashed"); ("reason", Some "oom")])) "reason" = Some "oom".
Proof. reflexivity. Qed.
