(* ===== verification/Pipeline.v ===== *)
(** * The worker pipeline

    Models the decision functions of src/worker/scheduler.rs (what a worker
    asked for, read off the event log) and src/worker/pipeline.rs (the next
    step of a workflow, and the crash and no-progress counters that keep a
    failing worker from being respawned forever). *)

From S2P Require Import Prelude RustStr Json Workflow.

(** A row of the [events] table (src/db/models.rs). *)
Record Event := mkEvent {
  ev_id : string;
  ev_session_id : string;
  ev_seq : Z;
  ev_ts : Z;
  ev_kind : string;
  ev_data : string;
}.

Module Scheduler.
Section scheduler.
Context `{JsonApi}.

Inductive WorkerIntent :=
| CompleteStep (handoff_context : option string)
| Finish (summary : option string)
| WontDo (reason : string)
| AskUser (question : string)
| Continue.

(** The [match event.kind] of the backwards walk: the intent an event states. *)
Definition event_intent (e : Event) : option WorkerIntent :=
  let data := parse_or_null (ev_data e) in
  if ev_kind e == "complete-step-requested" then
    Some (CompleteStep (get_str data "handoffContext"))
  else if ev_kind e == "finish-requested" then
    Some (Finish (s ← get_str data "summary"; if s == "" then None else Some s))
  else if ev_kind e == "wont-do-requested" then
    Some (WontDo (default "no reason given" (get_str data "reason")))
  else if ev_kind e == "ask-user-requested" then
    Some (AskUser (default "" (get_str data "question")))
  else None.

(** [for event in window.iter().rev()]: the first intent found. *)
Fixpoint first_intent (l : list Event) : option WorkerIntent :=
  match l with
  | [] => None
  | e :: l' => match event_intent e with Some i => Some i | None => first_intent l' end
  end.

Definition derive_worker_intent (events : list Event) : option WorkerIntent :=
  let boundary :=
    match rposition (λ e, ev_kind e == "step-change") events with
    | Some i => S i
    | None => O
    end in
  first_intent (reverse (drop boundary events)).

(** The backwards search of [find_resume_conversation_id]. *)
Fixpoint last_conversation (rev_events : list Event) : option string :=
  match rev_events with
  | [] => None
  | e :: l' =>
    if ev_kind e == "agent-start" then
      match get_str (parse_or_null (ev_data e)) "conversationId" with
      | Some cid => if cid == "" then last_conversation l' else Some cid
      | None => last_conversation l'
      end
    else last_conversation l'
  end.

Definition find_resume_conversation_id (events : list Event) : option string :=
  last_conversation (reverse events).

Lemma first_intent_app l k :
  first_intent (l ++ k) = match first_intent l with Some i => Some i | None => first_intent k end.
Proof. induction l as [|e l IH]; simpl; [done|]. by destruct (event_intent e). Qed.

Lemma first_intent_None l : first_intent l = None ↔ Forall (λ e, event_intent e = None) l.
Proof.
  induction l as [|e l IH]; simpl; [done|]. rewrite Forall_cons, <- IH.
  destruct (event_intent e); naive_solver.
Qed.

Lemma first_intent_reverse_Some l i :
  first_intent (reverse l) = Some i ↔
  ∃ pre e post, l = pre ++ e :: post ∧ event_intent e = Some i ∧
    Forall (λ e, event_intent e = None) post.
Proof.
  induction l as [|e l IH] using rev_ind.
  { split; [done|]. by intros ([] & ? & ? & ? & _). }
  rewrite reverse_snoc. simpl. destruct (event_intent e) as [j|] eqn:E.
  - split.
    + intros [= ->]. exists l, e, []. auto.
    + intros (pre & e' & post & Hl & He' & HF).
      destruct post as [|y post _] using rev_ind; [by apply app_inj_tail in Hl as [_ ->]; congruence|].
      rewrite app_comm_cons, app_assoc in Hl. apply app_inj_tail in Hl as [_ <-].
      apply Forall_app in HF as [_ [? _]%Forall_cons]. congruence.
  - rewrite IH. split.
    + intros (pre & e' & post & -> & He' & HF). exists pre, e', (post ++ [e]).
      rewrite <- app_assoc. split; [done|]. split; [done|]. apply Forall_app. auto.
    + intros (pre & e' & post & Hl & He' & HF).
      destruct post as [|y post _] using rev_ind; [by apply app_inj_tail in Hl as [_ ->]; congruence|].
      rewrite app_comm_cons, app_assoc in Hl. apply app_inj_tail in Hl as [-> <-].
      apply Forall_app in HF as [HF _]. eauto 10.
Qed.

(** the intent acted on is exactly the most recent request since the
    latest step change: it is stated by an event after which there is neither
    another request nor a step change. *)
Theorem derive_worker_intent_spec events i :
  derive_worker_intent events = Some i ↔
  ∃ pre e post, events = pre ++ e :: post ∧ event_intent e = Some i ∧
    Forall (λ x, event_intent x = None ∧ ev_kind x ≠ "step-change") post.
Proof.
  assert (∀ e j, event_intent e = Some j → ev_kind e ≠ "step-change") as Hne.
  { intros e j He Hk. unfold event_intent in He. by rewrite Hk in He. }
  unfold derive_worker_intent.
  destruct (rposition _ events) as [b|] eqn:E.
  - apply rposition_Some in E as (x & Hev & Hx%bool_decide_eq_true & HF).
    set (post0 := drop (S b) events) in *. rewrite first_intent_reverse_Some.
    assert (Forall (λ y, ev_kind y ≠ "step-change") post0) as HF'.
    { eapply Forall_impl; [exact HF|]. simpl. intros y Hy. by apply bool_decide_eq_false in Hy. }
    split.
    + intros (pre & e & post & Hp & He & Hpost). rewrite Hp in Hev, HF'.
      exists (take b events ++ x :: pre), e, post. rewrite <- app_assoc. split; [done|].
      split; [done|]. apply Forall_app in HF' as [_ [_ HF']%Forall_cons].
      by apply Forall_and.
    + intros (pre & e & post & Hp & He & [Hpost Hns]%Forall_and).
      rewrite Hev in Hp. apply app_eq_app in Hp as (k & [[Hk1 Hk2]|[Hk1 Hk2]]).
      * destruct k as [|y k]; simpl in Hk2.
        { injection Hk2 as <- _. apply Hne in He. by rewrite Hx in He. }
        injection Hk2 as <- ->. rewrite Forall_app, Forall_cons in Hns. naive_solver.
      * destruct k as [|y k]; simpl in Hk2.
        { injection Hk2 as -> _. apply Hne in He. by rewrite Hx in He. }
        injection Hk2 as -> ->. eauto 10.
  - apply rposition_None in E. rewrite drop_0, first_intent_reverse_Some.
    assert (Forall (λ y, ev_kind y ≠ "step-change") events) as HF'.
    { eapply Forall_impl; [exact E|]. simpl. intros y Hy. by apply bool_decide_eq_false in Hy. }
    split.
    + intros (pre & e & post & -> & He & Hpost). exists pre, e, post.
      apply Forall_app in HF' as [_ [_ HF']%Forall_cons]. split; [done|]. split; [done|].
      by apply Forall_and.
    + intros (pre & e & post & -> & He & [Hpost _]%Forall_and). eauto 10.
Qed.
End scheduler.
End Scheduler.

(** The events after the last one satisfying [P]. *)
Definition after_last {A} (P : A → bool) (l : list A) : list A :=
  match rposition P l with Some i => drop (S i) l | None => l end.

Lemma rposition_snoc {A} (P : A → bool) l x :
  rposition P (l ++ [x]) = if P x then Some (length l) else rposition P l.
Proof.
  induction l as [|y l IH]; simpl; [done|]. rewrite IH. by destruct (P x).
Qed.

Lemma rposition_lt {A} (P : A → bool) l i : rposition P l = Some i → (i < length l)%nat.
Proof.
  revert i. induction l as [|y l IH]; simpl; [done|]. intros i.
  destruct (rposition P l) as [j|]; [intros [= <-]; specialize (IH j eq_refl); lia|].
  destruct (P y); [intros [= <-]; lia|done].
Qed.

Lemma after_last_snoc {A} (P : A → bool) l x :
  after_last P (l ++ [x]) = if P x then [] else after_last P l ++ [x].
Proof.
  unfold after_last. rewrite rposition_snoc. destruct (P x).
  - apply drop_ge. rewrite length_app. simpl. lia.
  - destruct (rposition P l) as [i|] eqn:E; [|done].
    apply rposition_lt in E. by rewrite drop_app_le by lia.
Qed.

Module Pipeline.
(** A [u32] counter: [c += 1] at its width. *)
Definition u32_succ (c : Z) : Z := (c + 1) mod 2 ^ 32.

(** [workflow_steps.iter().position(|s| s == step)] *)
Definition step_position (step : string) (workflow_steps : list string) : option nat :=
  position (λ s, s == step) workflow_steps.

Definition find_next_step (current_step : string) (workflow_steps : list string) : option string :=
  pos ← step_position current_step workflow_steps;
  workflow_steps !! S pos.

Inductive NextStep := Advance (s : string) | Terminal | UnknownStep.

Definition resolve_next_step (current_step : string) (workflow_steps : list string) : NextStep :=
  match step_position current_step workflow_steps with
  | None => UnknownStep
  | Some pos =>
    match workflow_steps !! S pos with
    | Some next => Advance next
    | None => Terminal
    end
  end.

Definition BLOCK_AFTER_CRASHES : Z := 2.
Definition PAUSE_CLEARED_KIND : string := "auto-pause-cleared".
Definition BLOCK_AFTER_NO_PROGRESS : Z := 4.
Definition NO_PROGRESS_KIND : string := "worker-no-progress".

(** [CrashKind] of src/provider/stream.rs. *)
Inductive CrashKind :=
| AuthExpired | RateLimit | Timeout_ | Interrupted | SpawnFailed
| ExitedMidTurn | ResumeFailed | NoOutput | Unknown.

Definition CrashKind_as_str (k : CrashKind) : string :=
  match k with
  | AuthExpired => "auth_expired"
  | RateLimit => "rate_limit"
  | Timeout_ => "timeout"
  | Interrupted => "interrupted"
  | SpawnFailed => "spawn_failed"
  | ExitedMidTurn => "exited_mid_turn"
  | ResumeFailed => "resume_failed"
  | NoOutput => "no_output"
  | Unknown => "unknown"
  end.

Definition crash_counts (error_kind reason : option string) : bool :=
  if (error_kind == Some (CrashKind_as_str Interrupted)) ||
     (error_kind == Some (CrashKind_as_str RateLimit)) then false
  else negb ((reason == Some "interrupted") || (reason == Some "server-shutdown")).

Definition no_progress_backoff_secs (count : Z) : Z :=
  if count == 0 then 0
  else
    let shift := Z.min (Z.max 0 (count - 1)) 20 in
    Z.min (Z.min (2 ^ 63 - 1) (5 * Z.shiftl 1 shift)) 300.

Definition no_progress_step (count : Z) (e : Event) : Z :=
  if ev_kind e == NO_PROGRESS_KIND then u32_succ count
  else if (ev_kind e == "step-change") || (ev_kind e == "handover") then 0
  else if ev_kind e == PAUSE_CLEARED_KIND then 0
  else count.

Definition count_consecutive_no_progress (events : list Event) : Z :=
  fold_left no_progress_step events 0.

Section counters.
Context `{JsonApi}.

(** The loop body of [count_consecutive_crashes]. *)
Definition crash_step (crash_count : Z) (e : Event) : Z :=
  if ev_kind e == "agent-end" then
    match json_from_str (ev_data e) with
    | None => crash_count
    | Some data =>
      let status := get_str data "status" in
      if status == Some "crashed" then
        let reason := get_str data "reason" in
        let error_kind := get_str data "errorKind" in
        if crash_counts error_kind reason then u32_succ crash_count else crash_count
      else if status == Some "complete" then
        let error := get_str data "error" in
        let error_kind := get_str data "errorKind" in
        match error with
        | Some err =>
          if crash_counts error_kind (Some err) then u32_succ crash_count else crash_count
        | None => 0
        end
      else crash_count
    end
  else if ev_kind e == "step-change" then 0
  else if ev_kind e == PAUSE_CLEARED_KIND then 0
  else crash_count.

Definition count_consecutive_crashes (events : list Event) : Z :=
  fold_left crash_step events 0.
End counters.

(** ** Moving through a workflow *)

Lemma step_position_app pre a post : a ∉ pre → step_position a (pre ++ a :: post) = Some (length pre).
Proof.
  unfold step_position. induction pre as [|x pre IH]; simpl; intros Ha.
  - by rewrite bool_decide_eq_true_2.
  - rewrite bool_decide_eq_false_2 by set_solver. by rewrite IH by set_solver.
Qed.

Lemma step_position_Some a l i : step_position a l = Some i → l !! i = Some a.
Proof. intros [(x & Hx & ->%bool_decide_eq_true) _]%position_Some. done. Qed.

Lemma step_position_None a l : step_position a l = None ↔ a ∉ l.
Proof.
  unfold step_position. rewrite position_None, Forall_forall. split.
  - intros HF Ha. specialize (HF a Ha). by apply bool_decide_eq_false in HF.
  - intros Ha x Hx. apply bool_decide_eq_false. naive_solver.
Qed.

Lemma resolve_next_step_split pre a post :
  a ∉ pre →
  resolve_next_step a (pre ++ a :: post) =
    match head post with Some b => Advance b | None => Terminal end.
Proof.
  intros Ha. unfold resolve_next_step. rewrite step_position_app by done.
  rewrite lookup_app_r by lia. replace (S (length pre) - length pre)%nat with 1%nat by lia.
  by destruct post.
Qed.

Lemma nodup_split {A} (l : list A) a :
  NoDup l → a ∈ l → ∃ pre post, l = pre ++ a :: post ∧ a ∉ pre.
Proof.
  intros HN (pre & post & ->)%list_elem_of_split. exists pre, post. split; [done|].
  apply NoDup_app in HN as (_ & H & _). intros Hp. apply (H a Hp). set_solver.
Qed.

(** Completing the current step of a card, as the orchestrator does it: the
    step list is recomputed for the step the card is on. *)
Definition complete_step (custom : list Workflow.WorkflowDef) (workflow_id : string)
    (review_enabled : bool) (current : string) : NextStep :=
  resolve_next_step current (Workflow.steps_for_card custom workflow_id current review_enabled).

Lemma filter_split {A} (P : A → bool) l pre a post :
  List.filter P l = pre ++ a :: post →
  ∃ l1 l2, l = l1 ++ a :: l2 ∧ List.filter P l1 = pre ∧ List.filter P l2 = post.
Proof.
  revert pre. induction l as [|x l IH]; simpl; intros pre; [by destruct pre|].
  destruct (P x) eqn:Px.
  - destruct pre as [|y pre]; simpl; intros [= <- Hl].
    + by exists [], l.
    + destruct (IH _ Hl) as (l1 & l2 & -> & <- & <-). exists (x :: l1), l2. simpl. by rewrite Px.
  - intros (l1 & l2 & -> & <- & <-)%IH. exists (x :: l1), l2. simpl. by rewrite Px.
Qed.

Lemma head_filter_last {A} (P : A → bool) l d :
  last l = Some d → P d = true → ∃ b, head (List.filter P l) = Some b ∧ b ∈ l.
Proof.
  intros Hl Hd. destruct (List.filter P l) as [|b r] eqn:E.
  - assert (d ∈ List.filter P l) as Hin.
    { apply list_elem_of_In, List.filter_In. split; [|done].
      by apply list_elem_of_In, last_Some_elem_of. }
    rewrite E in Hin. set_solver.
  - exists b. split; [done|]. assert (b ∈ List.filter P l) as Hb by (rewrite E; set_solver).
    by apply list_elem_of_In, List.filter_In in Hb as [?%list_elem_of_In _].
Qed.

Section moving.
Context (custom : list Workflow.WorkflowDef) (workflow_id : string) (review_enabled : bool).
Notation full := (Workflow.steps_for custom (Some workflow_id)).

Lemma complete_step_split pre cur post :
  full = pre ++ cur :: post → cur ∉ pre → last full = Some "done" →
  if cur == "done" then post = [] → complete_step custom workflow_id review_enabled cur = Terminal
  else ∃ b, complete_step custom workflow_id review_enabled cur = Advance b ∧ b ∈ post.
Proof.
  intros Hf Hpre Hlast. unfold complete_step, Workflow.steps_for_card.
  destruct (negb review_enabled && (cur != Workflow.REVIEW_STEP)) eqn:E.
  - apply andb_true_iff in E as [_ Hcur%negb_true_iff].
    rewrite Hf, List.filter_app. cbn [List.filter]. rewrite Hcur. cbn [negb].
    rewrite resolve_next_step_split.
    2:{ intros [? _]%list_elem_of_In%List.filter_In. by apply Hpre, list_elem_of_In. }
    destruct (cur == "done") eqn:Hd; [by intros ->|]. apply bool_decide_eq_false in Hd.
    rewrite Hf, last_app_cons, last_cons in Hlast.
    destruct (last post) as [d|] eqn:Hl; [|congruence]. injection Hlast as ->.
    destruct (head_filter_last (λ s, s != Workflow.REVIEW_STEP) post "done") as (b & -> & ?);
      [done|done|eauto].
  - rewrite Hf, resolve_next_step_split by done.
    destruct (cur == "done") eqn:Hd; [by intros ->|]. apply bool_decide_eq_false in Hd.
    rewrite Hf, last_app_cons, last_cons in Hlast.
    destruct post as [|b post]; [simpl in Hlast; congruence|]. exists b. split; [done|set_solver].
Qed.

Lemma complete_steps_from k post pre cur :
  (length post <= k)%nat → full = pre ++ cur :: post → NoDup full → last full = Some "done" →
  ∃ n, (n <= length post)%nat ∧
    nsteps (λ a b, complete_step custom workflow_id review_enabled a = Advance b) n cur "done".
Proof.
  revert post pre cur. induction k as [|k IH]; intros post pre cur Hk Hf HN Hlast;
    assert (cur ∉ pre) as Hpre by
      (rewrite Hf in HN; apply NoDup_app in HN as (_ & H & _); intros Hp; apply (H _ Hp); set_solver);
    pose proof (complete_step_split _ _ _ Hf Hpre Hlast) as Hc; case_bool_decide as Hd.
  - subst. exists O. split; [lia|constructor].
  - destruct Hc as (b & _ & Hb). destruct post; [set_solver|simpl in *; lia].
  - subst. exists O. split; [lia|constructor].
  - destruct Hc as (b & Hc & (p1 & p2 & ->)%list_elem_of_split).
    destruct (IH p2 (pre ++ cur :: p1) b) as (n & Hn & Hw); try done.
    + rewrite length_app in Hk. simpl in Hk. lia.
    + by rewrite Hf, <- app_assoc.
    + exists (S n). split; [rewrite length_app; simpl; lia|]. by eapply nsteps_l.
Qed.
End moving.

(** C38: with validated workflows, a worker that keeps completing steps brings
    the card to done from any step of its workflow, in fewer completions than
    the workflow has steps, review switched on or off; done is terminal, and a
    step outside the workflow is reported instead of being taken for the end. *)
Theorem complete_step_reaches_done defs workflow_id review_enabled cur :
  Forall (λ d, Workflow.valid_steps (Workflow.steps d)) defs →
  let custom := Workflow.set_custom_workflows defs in
  let next := complete_step custom workflow_id review_enabled in
  let full := Workflow.steps_for custom (Some workflow_id) in
  (cur ∈ full →
    ∃ n, (n < length full)%nat ∧ nsteps (λ a b, next a = Advance b) n cur "done") ∧
  next "done" = Terminal ∧
  (cur ∉ full → next cur = UnknownStep).
Proof.
  intros Hv custom next full.
  destruct (Workflow.resolve_board_shape defs (Some workflow_id) Hv) as (mid & Hf & _ & HN).
  fold custom full in Hf, HN.
  assert (last full = Some "done") as Hlast.
  { rewrite Hf, app_comm_cons. by rewrite last_snoc. }
  split_and!.
  - intros (pre & post & Hsp & _)%(nodup_split _ _ HN).
    destruct (complete_steps_from custom workflow_id review_enabled _ post pre cur (le_n _) Hsp HN Hlast)
      as (n & Hn & Hw). exists n. split; [|done]. rewrite Hsp, length_app. simpl. lia.
  - rewrite Hf, app_comm_cons in HN. apply NoDup_app in HN as (_ & H & _).
    assert ("done" ∉ "backlog" :: mid) as Hnd by (intros Hp; apply (H _ Hp); set_solver).
    pose proof (complete_step_split custom workflow_id review_enabled ("backlog" :: mid) _ [] Hf Hnd Hlast) as Hc.
    by apply Hc.
  - intros Hcur. unfold next, complete_step, resolve_next_step.
    rewrite (proj2 (step_position_None _ _)); [done|]. unfold Workflow.steps_for_card. fold full.
    destruct (_ && _); [|done]. by intros [?%list_elem_of_In _]%list_elem_of_In%List.filter_In.
Qed.

(** ** The retry counters *)

(** An attempt that failed by the agent's own fault, and the events that give
    the card its full budget back. *)
Section counter_spec.
Context `{JsonApi}.

Definition blamed (error_kind reason : option string) : Prop :=
  error_kind ≠ Some "interrupted" ∧ error_kind ≠ Some "rate_limit" ∧
  reason ≠ Some "interrupted" ∧ reason ≠ Some "server-shutdown".

Definition failed_attempt (e : Event) : Prop :=
  ev_kind e = "agent-end" ∧ ∃ data, json_from_str (ev_data e) = Some data ∧
  (get_str data "status" = Some "crashed" ∧
     blamed (get_str data "errorKind") (get_str data "reason") ∨
   get_str data "status" = Some "complete" ∧
     ∃ err, get_str data "error" = Some err ∧ blamed (get_str data "errorKind") (Some err)).

Definition crash_reset (e : Event) : Prop :=
  ev_kind e = "step-change" ∨ ev_kind e = PAUSE_CLEARED_KIND ∨
  ev_kind e = "agent-end" ∧ ∃ data, json_from_str (ev_data e) = Some data ∧
    get_str data "status" = Some "complete" ∧ get_str data "error" = None.

#[global] Instance blamed_dec k r : Decision (blamed k r).
Proof. unfold blamed. apply _. Defined.

#[global] Instance failed_attempt_dec e : Decision (failed_attempt e).
Proof.
  unfold failed_attempt. apply and_dec; [apply _|].
  destruct (json_from_str (ev_data e)) as [d|]; [|right; naive_solver].
  destruct (get_str d "error") as [err|] eqn:Herr.
  - destruct (decide (get_str d "status" = Some "crashed" ∧
        blamed (get_str d "errorKind") (get_str d "reason") ∨
      get_str d "status" = Some "complete" ∧ blamed (get_str d "errorKind") (Some err)));
      [left|right]; naive_solver.
  - destruct (decide (get_str d "status" = Some "crashed" ∧
        blamed (get_str d "errorKind") (get_str d "reason"))); [left|right]; naive_solver.
Defined.

#[global] Instance crash_reset_dec e : Decision (crash_reset e).
Proof.
  unfold crash_reset. apply or_dec; [apply _|]. apply or_dec; [apply _|].
  apply and_dec; [apply _|].
  destruct (json_from_str (ev_data e)) as [d|]; [|right; naive_solver].
  destruct (decide (get_str d "status" = Some "complete" ∧ get_str d "error" = None));
    [left|right]; naive_solver.
Defined.

Lemma crash_counts_spec k r : crash_counts k r = bool_decide (blamed k r).
Proof.
  unfold crash_counts, blamed. simpl. repeat case_bool_decide; simpl; naive_solver.
Qed.

Lemma crash_reset_agent_end e d :
  ev_kind e = "agent-end" → json_from_str (ev_data e) = Some d →
  crash_reset e ↔ get_str d "status" = Some "complete" ∧ get_str d "error" = None.
Proof.
  intros Hk Hd. unfold crash_reset. rewrite Hk, Hd. split; [|naive_solver].
  intros [?|[?|(_ & d' & [= <-] & ?)]]; done.
Qed.

Lemma failed_attempt_agent_end e d :
  ev_kind e = "agent-end" → json_from_str (ev_data e) = Some d →
  failed_attempt e ↔
  get_str d "status" = Some "crashed" ∧ blamed (get_str d "errorKind") (get_str d "reason") ∨
  get_str d "status" = Some "complete" ∧
    ∃ err, get_str d "error" = Some err ∧ blamed (get_str d "errorKind") (Some err).
Proof.
  intros Hk Hd. unfold failed_attempt. rewrite Hk, Hd. split; [|naive_solver].
  intros (_ & d' & [= <-] & ?); done.
Qed.

Lemma crash_step_spec c e :
  crash_step c e =
    if decide (crash_reset e) then 0 else if decide (failed_attempt e) then u32_succ c else c.
Proof.
  unfold crash_step. case_bool_decide as Hk.
  - destruct (json_from_str (ev_data e)) as [d|] eqn:Hd.
    + destruct (decide (crash_reset e)) as [Hr|Hr]; destruct (decide (failed_attempt e)) as [Hf|Hf];
        rewrite (crash_reset_agent_end e d Hk Hd) in Hr;
        rewrite (failed_attempt_agent_end e d Hk Hd) in Hf; clear Hk Hd.
      all: destruct (get_str d "error"); rewrite ?crash_counts_spec.
      all: repeat case_bool_decide; try done; exfalso; naive_solver.
    + rewrite !decide_False; [done|unfold failed_attempt; naive_solver|].
      unfold crash_reset. rewrite Hk, Hd. intros [?|[?|(_ & ? & ? & _)]]; done.
  - rewrite (decide_False (P := failed_attempt e)) by (unfold failed_attempt; naive_solver).
    destruct (decide (crash_reset e)) as [[?|[?|[? _]]]|Hn]; [..|done|].
    + by rewrite bool_decide_eq_true_2.
    + case_bool_decide; [done|]. by rewrite bool_decide_eq_true_2.
    + rewrite !bool_decide_eq_false_2; [done|intros ?; apply Hn; unfold crash_reset; auto..].
Qed.

(** A counting loop with resets counts what follows the last reset. *)
Lemma counter_fold (step : Z → Event → Z) (reset fail : Event → Prop)
    `{∀ e, Decision (reset e), ∀ e, Decision (fail e)} events :
  (∀ c e, step c e = if decide (reset e) then 0 else if decide (fail e) then u32_succ c else c) →
  fold_left step events 0 =
    Z.of_nat (length (filter fail (after_last (λ e, bool_decide (reset e)) events))) mod 2 ^ 32.
Proof.
  intros Hstep. induction events as [|e events IH] using rev_ind; [done|].
  rewrite fold_left_app. simpl. rewrite Hstep, IH, after_last_snoc.
  case_bool_decide as Hr; [by rewrite decide_True|]. rewrite decide_False by done.
  rewrite filter_app, filter_cons, filter_nil, length_app. case_decide; simpl.
  - unfold u32_succ. rewrite Zplus_mod_idemp_l. f_equal. lia.
  - f_equal. lia.
Qed.

(** the crash counter is exactly the number of attempts that failed by the
    agent's own fault (not by an interrupt, a rate limit or a restart) since
    the last clean turn, step change or manual retry; so after a reset the
    card has its full budget again. *)
Theorem crash_counter_exact events :
  count_consecutive_crashes events =
    Z.of_nat (length (filter failed_attempt
      (after_last (λ e, bool_decide (crash_reset e)) events))) mod 2 ^ 32 ∧
  ∀ pre e post, events = pre ++ e :: post → crash_reset e →
    count_consecutive_crashes events = count_consecutive_crashes post.
Proof.
  split; [apply counter_fold, crash_step_spec|].
  intros pre e post -> He. unfold count_consecutive_crashes.
  rewrite fold_left_app. simpl. by rewrite crash_step_spec, decide_True.
Qed.
End counter_spec.

Definition progress_reset (e : Event) : Prop :=
  ev_kind e = "step-change" ∨ ev_kind e = "handover" ∨ ev_kind e = PAUSE_CLEARED_KIND.

#[global] Instance progress_reset_dec e : Decision (progress_reset e).
Proof. unfold progress_reset. apply _. Defined.

Lemma no_progress_step_spec c e :
  no_progress_step c e =
    if decide (progress_reset e) then 0
    else if decide (ev_kind e = NO_PROGRESS_KIND) then u32_succ c else c.
Proof.
  unfold no_progress_step.
  destruct (decide (progress_reset e)) as [Hr|Hr]; unfold progress_reset in Hr.
  - rewrite bool_decide_eq_false_2 by
      (intros Hk; destruct Hr as [Hr|[Hr|Hr]]; rewrite Hk in Hr; discriminate Hr).
    repeat case_bool_decide; naive_solver.
  - repeat case_bool_decide; case_decide; naive_solver.
Qed.

Lemma backoff_value count :
  0 < count → no_progress_backoff_secs count = Z.min 300 (5 * 2 ^ (count - 1)).
Proof.
  intros Hc. unfold no_progress_backoff_secs. rewrite bool_decide_eq_false_2 by lia.
  rewrite (Z.max_r 0 (count - 1)), Z.shiftl_mul_pow2, Z.mul_1_l by lia.
  destruct (Z.le_gt_cases (count - 1) 20) as [Hs|Hs].
  - rewrite (Z.min_l _ 20) by lia.
    pose proof (Z.pow_le_mono_r 2 (count - 1) 20). lia.
  - rewrite (Z.min_r _ 20) by lia.
    pose proof (Z.pow_le_mono_r 2 20 (count - 1)). lia.
Qed.

(** the no-progress counter is exactly the number of idle completions
    since the last step change, handover or manual retry, and the delay before
    the card is dispatched again doubles from five seconds with it up to five
    minutes, without overflow for any [u32] count. *)
Theorem no_progress_backoff_exact events :
  let n := count_consecutive_no_progress events in
  n = Z.of_nat (length (filter (λ e, ev_kind e = NO_PROGRESS_KIND)
        (after_last (λ e, bool_decide (progress_reset e)) events))) mod 2 ^ 32 ∧
  no_progress_backoff_secs n = (if decide (n = 0) then 0 else Z.min 300 (5 * 2 ^ (n - 1))).
Proof.
  intros n. assert (n = Z.of_nat (length (filter (λ e, ev_kind e = NO_PROGRESS_KIND)
        (after_last (λ e, bool_decide (progress_reset e)) events))) mod 2 ^ 32) as Hn
    by apply counter_fold, no_progress_step_spec.
  split; [done|]. case_decide as H0; [by rewrite H0|]. apply backoff_value.
  pose proof (Z.mod_pos_bound (Z.of_nat (length (filter (λ e, ev_kind e = NO_PROGRESS_KIND)
        (after_last (λ e, bool_decide (progress_reset e)) events)))) (2 ^ 32)). lia.
Qed.

(** ** Witnesses *)

Lemma complete_step_reaches_done_witness :
  let custom := Workflow.set_custom_workflows [Workflow.ex_def] in
  let next := complete_step custom "w1" false in
  ("backlog" ∈ Workflow.steps_for custom (Some "w1") →
   ∃ n, (n < 4)%nat ∧ nsteps (λ a b, next a = Advance b) n "backlog" "done") ∧
  next "done" = Terminal ∧
  ("shipped" ∉ Workflow.steps_for custom (Some "w1") → next "shipped" = UnknownStep).
Proof.
  assert (Forall (λ d, Workflow.valid_steps (Workflow.steps d)) [Workflow.ex_def]) as Hv
    by (constructor; [apply Workflow.ex_steps_valid|constructor]).
  intros custom next. split; [|split].
  - apply (complete_step_reaches_done [Workflow.ex_def] "w1" false "backlog" Hv).
  - apply (complete_step_reaches_done [Workflow.ex_def] "w1" false "backlog" Hv).
  - apply (complete_step_reaches_done [Workflow.ex_def] "w1" false "shipped" Hv).
Defined.
End Pipeline.
