(* ===== verification/Todo.v ===== *)
(** * Work items

    Models src/todo.rs: the todo lifecycle, the parsing of a [TodoWrite]
    call, and [TaskTracker], which assembles snapshots from incremental task
    calls.  The tracker is shown to implement a finite map from task ids to
    items that also remembers creation order. *)

From S2P Require Import Prelude RustStr Json.

Module Todo.

Inductive TodoStatus := Pending | InProgress | Done.

Definition TodoStatus_from_provider (raw : string) : TodoStatus :=
  if raw == "in_progress" then InProgress
  else if (raw == "completed") || (raw == "done") then Done
  else Pending.

Definition TodoStatus_label (s : TodoStatus) : string :=
  match s with Pending => "Pending" | InProgress => "In Progress" | Done => "Done" end.

Record TodoItem := mkTodoItem {
  content : string;
  status : TodoStatus;
  active_form : option string;
}.

Definition TodoSnapshot : Type := list TodoItem.

#[export] Instance status_eq_dec : EqDecision TodoStatus.
Proof. solve_decision. Defined.
#[export] Instance item_eq_dec : EqDecision TodoItem.
Proof. solve_decision. Defined.

Inductive PendingTaskCall :=
| Create (c : string) (af : option string)
| Update (task_id : string) (st subject af : option string).

Record TaskTracker := mkTracker {
  tasks : list (string * TodoItem);
  pending : gmap string PendingTaskCall;
}.

(** Ids as the CLI assigns them: [(idx + 1).to_string()] for each position. *)
Definition numbered (todos : list TodoItem) : list (string * TodoItem) :=
  imap (λ idx item, (to_dec (N.of_nat idx + 1), item)) todos.

Definition tracker_new : TaskTracker := mkTracker [] ∅.
Definition seed (todos : list TodoItem) : TaskTracker := mkTracker (numbered todos) ∅.

Definition snapshot (t : TaskTracker) : TodoSnapshot := (tasks t).*2.

(** [next_id]: one past the largest numeric id, at the width of [u64]. *)
Definition max_id (l : list (string * TodoItem)) : N :=
  foldr N.max 0%N (omap (λ p, parse_u64 p.1) l).

Definition next_id (t : TaskTracker) : string := to_dec ((max_id (tasks t) + 1) mod 2 ^ 64).

(** [match find(id) { Some(existing) => *existing = item, None => push }] *)
Fixpoint upsert (id : string) (item : TodoItem) (l : list (string * TodoItem)) :
    list (string * TodoItem) :=
  match l with
  | [] => [(id, item)]
  | (k, v) :: l' => if k == id then (k, item) :: l' else (k, v) :: upsert id item l'
  end.

(** The three field assignments of an update, in order. *)
Definition apply_fields (st subject af : option string) (i : TodoItem) : TodoItem :=
  let i := match st with Some s => mkTodoItem (content i) (TodoStatus_from_provider s) (active_form i)
                       | None => i end in
  let i := match subject with Some s => mkTodoItem s (status i) (active_form i) | None => i end in
  match af with Some a => mkTodoItem (content i) (status i) (Some a) | None => i end.

Section json.
Context `{JsonApi}.

Definition parse_item (item : Json) : option TodoItem :=
  content ← json_get item "content" ≫= json_as_str;
  let status := TodoStatus_from_provider (default "" (get_str item "status")) in
  let active_form := get_str item "activeForm" in
  Some (mkTodoItem content status active_form).

Definition from_todo_write_input (input : Json) : option TodoSnapshot :=
  match json_get input "todos" ≫= json_as_array with
  | Some arr => Some (omap parse_item arr)
  | None => None
  end.

Definition snapshot_from_tool_call (name : string) (input : Json) : option TodoSnapshot :=
  if name != "TodoWrite" then None else from_todo_write_input input.

(** [json_str] *)
Definition json_str (value : Json) (key : string) : option string := get_str value key.

Definition task_id_string (value : Json) : option string :=
  match json_as_str value with
  | Some s => Some s
  | None => json_as_number value
  end.

Definition on_tool_start (t : TaskTracker) (tool_use_id name : string) (input : Json) :
    option TodoSnapshot * TaskTracker :=
  if name == "TodoWrite" then
    match from_todo_write_input input with
    | Some snap => (Some snap, mkTracker (numbered snap) (pending t))
    | None => (None, t)
    end
  else if name == "TaskCreate" then
    match json_get input "subject" ≫= json_as_str with
    | Some content =>
      (None, mkTracker (tasks t)
        (<[tool_use_id := Create content (get_str input "activeForm")]> (pending t)))
    | None => (None, t)
    end
  else if name == "TaskUpdate" then
    match json_str input "taskId" with
    | Some task_id =>
      (None, mkTracker (tasks t)
        (<[tool_use_id := Update task_id (json_str input "status") (json_str input "subject")
            (json_str input "activeForm")]> (pending t)))
    | None => (None, t)
    end
  else (None, t).

Definition on_tool_end (t : TaskTracker) (tool_use_id : string) (errored : bool)
    (result : option Json) : option TodoSnapshot * TaskTracker :=
  match pending t !! tool_use_id with
  | None => (None, t)
  | Some call =>
    let t := mkTracker (tasks t) (delete tool_use_id (pending t)) in
    if errored then (None, t)
    else match call with
    | Create content af =>
      let id := default (next_id t)
        (result ≫= λ r, json_get r "task" ≫= λ k, json_get k "id" ≫= task_id_string) in
      let t' := mkTracker (upsert id (mkTodoItem content Pending af) (tasks t)) (pending t) in
      (Some (snapshot t'), t')
    | Update task_id st subject af =>
      match position (λ p, p.1 == task_id) (tasks t) with
      | None => (None, t)
      | Some idx =>
        if st == Some "deleted" then
          let t' := mkTracker (take idx (tasks t) ++ drop (S idx) (tasks t)) (pending t) in
          (Some (snapshot t'), t')
        else
          let changed := is_some st || is_some subject || is_some af in
          let t' := mkTracker
            (alter (λ p, (p.1, apply_fields st subject af p.2)) idx (tasks t)) (pending t) in
          (if changed then Some (snapshot t') else None, t')
      end
    end
  end.

(** The calls an agent's stream makes. *)
Inductive Call :=
| ToolStart (tool_use_id name : string) (input : Json)
| ToolEnd (tool_use_id : string) (errored : bool) (result : option Json).

Definition call (t : TaskTracker) (c : Call) : option TodoSnapshot * TaskTracker :=
  match c with
  | ToolStart i n v => on_tool_start t i n v
  | ToolEnd i e r => on_tool_end t i e r
  end.

Definition feed (t : TaskTracker) (l : list Call) : TaskTracker :=
  fold_left (λ t c, (call t c).2) l t.

(** ** The abstract view: a finite map from task ids to items *)

Definition view (t : TaskTracker) : gmap string TodoItem := list_to_map (tasks t).
Definition ids (t : TaskTracker) : list string := (tasks t).*1.

Lemma numbered_ids l : NoDup (numbered l).*1.
Proof.
  unfold numbered. rewrite fmap_imap. simpl.
  assert (∀ k, NoDup (imap (λ n _, to_dec (N.of_nat (k + n) + 1)) l)) as Hk; [|apply (Hk O)].
  induction l as [|x l IH]; intros k; simpl; [constructor|]. constructor.
  - rewrite elem_of_lookup_imap. intros (i & y & Heq%(inj to_dec) & _). lia.
  - eapply eq_ind; [apply (IH (S k))|]. apply imap_ext. intros. simpl. do 2 f_equal. lia.
Qed.

Lemma numbered_items l : (numbered l).*2 = l.
Proof.
  unfold numbered. rewrite fmap_imap. etrans; [apply (imap_const id)|]. apply list_fmap_id.
Qed.

Lemma upsert_ids id item l :
  (upsert id item l).*1 = if decide (id ∈ l.*1) then l.*1 else l.*1 ++ [id].
Proof.
  induction l as [|[k v] l IH]; [done|]. cbn [upsert]. case_bool_decide as Hk.
  - subst. rewrite !fmap_cons. by rewrite decide_True by set_solver.
  - rewrite !fmap_cons, IH. repeat case_decide; set_solver.
Qed.

Lemma upsert_view id item l :
  (list_to_map (upsert id item l) : gmap string TodoItem) = <[id := item]> (list_to_map l).
Proof.
  induction l as [|[k v] l IH]; simpl; [done|]. case_bool_decide as Hk; simpl.
  - subst. by rewrite insert_insert_eq.
  - rewrite IH. by rewrite insert_insert_ne.
Qed.

Lemma find_split k (l : list (string * TodoItem)) i :
  position (λ p, p.1 == k) l = Some i →
  ∃ l1 v l2, l = l1 ++ (k, v) :: l2 ∧ i = length l1.
Proof.
  intros [([k' v] & Hl & Hk) _]%position_Some. apply bool_decide_eq_true in Hk. simpl in Hk. subst k'.
  exists (take i l), v, (drop (S i) l). split; [symmetry; by apply take_drop_middle|].
  apply lookup_lt_Some in Hl. rewrite length_take. lia.
Qed.

Lemma take_drop_split {A} (l1 l2 : list A) x :
  take (length l1) (l1 ++ x :: l2) ++ drop (S (length l1)) (l1 ++ x :: l2) = l1 ++ l2.
Proof.
  rewrite take_app_length. f_equal. rewrite drop_app_ge by lia.
  by replace (S (length l1) - length l1)%nat with 1%nat by lia.
Qed.

Lemma alter_split {A} (f : A → A) (l1 l2 : list A) x :
  alter f (length l1) (l1 ++ x :: l2) = l1 ++ f x :: l2.
Proof. by rewrite <- (Nat.add_0_r (length l1)), alter_app_r. Qed.

Lemma middle_ids (l1 l2 : list (string * TodoItem)) k v :
  (l1 ++ (k, v) :: l2).*1 ≡ₚ k :: (l1 ++ l2).*1.
Proof. rewrite !fmap_app, fmap_cons. simpl. by rewrite Permutation_middle. Qed.

Lemma middle_view (l1 l2 : list (string * TodoItem)) k v :
  NoDup (l1 ++ (k, v) :: l2).*1 →
  (list_to_map (l1 ++ (k, v) :: l2) : gmap string TodoItem) = <[k := v]> (list_to_map (l1 ++ l2)) ∧
  (list_to_map (l1 ++ l2) : gmap string TodoItem) !! k = None.
Proof.
  intros HN. split.
  - by rewrite (list_to_map_proper (l1 ++ (k, v) :: l2) ((k, v) :: l1 ++ l2)) by
      (done || by rewrite Permutation_middle).
  - apply not_elem_of_list_to_map. rewrite middle_ids in HN. by apply NoDup_cons in HN as [? _].
Qed.

Lemma call_ids_unique t c : NoDup (ids t) → NoDup (ids (call t c).2).
Proof.
  unfold ids. intros HN. destruct c as [i n v|i e r]; cbn [call].
  - unfold on_tool_start. repeat case_bool_decide; simpl; try done.
    + destruct (from_todo_write_input v); simpl; [apply numbered_ids|done].
    + by destruct (json_get v "subject" ≫= json_as_str).
    + by destruct (json_str v "taskId").
  - unfold on_tool_end. destruct (pending t !! i) as [[c af|k st sub af]|]; [..|done];
      destruct e; cbn [snd tasks]; try done.
    + rewrite upsert_ids. case_decide; [done|]. apply NoDup_app.
      split; [done|]. split; [set_solver|apply NoDup_singleton].
    + destruct (position _ _) as [idx|] eqn:E; [|done].
      apply find_split in E as (l1 & v & l2 & Hl & ->). rewrite Hl in *.
      rewrite middle_ids in HN. case_bool_decide; cbn [snd tasks].
      * rewrite take_drop_split. by apply NoDup_cons in HN as [_ ?].
      * rewrite alter_split. simpl. by rewrite middle_ids.
Qed.

Lemma parse_max_id p l n : p ∈ l → parse_u64 p.1 = Some n → (n <= max_id l)%N.
Proof.
  unfold max_id. induction l as [|q l IH]; [set_solver|].
  cbn [omap list_omap]. intros [->|Hp]%elem_of_cons Hn.
  - rewrite Hn. cbn [foldr]. apply N.le_max_l.
  - specialize (IH Hp Hn). destruct (parse_u64 q.1) as [m|]; [|done].
    cbn [foldr]. etrans; [exact IH|]. apply N.le_max_r.
Qed.

Lemma next_id_fresh t : (max_id (tasks t) + 1 < 2 ^ 64)%N → next_id t ∉ ids t.
Proof.
  intros Hlt (p & Hid & Hp)%list_elem_of_fmap. unfold next_id in Hid.
  rewrite N.mod_small in Hid by done. apply parse_to_dec in Hlt as Hparse. rewrite Hid in Hparse.
  apply (parse_max_id p (tasks t)) in Hparse; [lia|done].
Qed.

(** Whatever calls an agent's stream makes, from an empty or a restored
    tracker, task ids stay distinct, and every snapshot handed on is exactly
    the tracker's current list. *)
Theorem tracker_consistent todos calls c :
  let t := feed (seed todos) calls in
  NoDup (ids t) ∧
  ∀ snap t', call t c = (Some snap, t') → snap = snapshot t'.
Proof.
  assert (∀ l t, NoDup (ids t) → NoDup (ids (feed t l))) as Hfeed.
  { induction l as [|c' l IH]; intros t Ht; simpl; [done|]. by apply IH, call_ids_unique. }
  intros t. split; [apply Hfeed, numbered_ids|].
  intros snap t'. destruct c as [i n v|i e r]; cbn [call].
  - unfold on_tool_start. repeat case_bool_decide; try by intros [=].
    + destruct (from_todo_write_input v) as [s|]; intros [= <- <-].
      symmetry. apply numbered_items.
    + destruct (json_get v "subject" ≫= json_as_str); by intros [=].
    + destruct (json_str v "taskId"); by intros [=].
  - unfold on_tool_end. destruct (pending t !! i) as [[c af|k st sub af]|]; [..|by intros [=]];
      destruct e; try by intros [=].
    + by intros [= <- <-].
    + destruct (position _ _) as [idx|]; [|by intros [=]]. case_bool_decide; [by intros [= <- <-]|].
      destruct (_ || _); by intros [= <- <-].
Qed.

Lemma update_refines k st sub af (l : list (string * TodoItem)) idx :
  NoDup l.*1 → position (λ p, p.1 == k) l = Some idx →
  let f := alter (λ p, (p.1, apply_fields st sub af p.2)) idx l in
  (list_to_map f : gmap string TodoItem) = alter (apply_fields st sub af) k (list_to_map l) ∧
  f.*1 = l.*1.
Proof.
  intros HN (l1 & v & l2 & -> & ->)%find_split. rewrite alter_split. simpl.
  destruct (middle_view l1 l2 k v HN) as [-> Hk].
  split; [|by rewrite !fmap_app].
  destruct (middle_view l1 l2 k (apply_fields st sub af v)) as [-> _].
  - by rewrite middle_ids, <- middle_ids.
  - by rewrite alter_insert_eq.
Qed.

Lemma remove_refines k (l : list (string * TodoItem)) idx :
  NoDup l.*1 → position (λ p, p.1 == k) l = Some idx →
  let f := take idx l ++ drop (S idx) l in
  (list_to_map f : gmap string TodoItem) = delete k (list_to_map l) ∧
  f.*1 = filter (.≠ k) l.*1.
Proof.
  intros HN (l1 & v & l2 & -> & ->)%find_split. rewrite take_drop_split. simpl.
  destruct (middle_view l1 l2 k v HN) as [-> Hk]. split; [by rewrite delete_insert_id|].
  rewrite middle_ids in HN. apply NoDup_cons in HN as [Hn _]. rewrite fmap_app in Hn |- *.
  rewrite fmap_app, fmap_cons, filter_app, filter_cons, decide_False by naive_solver.
  rewrite not_elem_of_app in Hn. by rewrite !filter_ne by naive_solver.
Qed.

(** The tracker is a map from task ids to items in creation order.  A
    confirmed create inserts a pending item, at the end when its id is new; a
    confirmed update changes the named item only, in place, or removes it; a
    failed or unknown call changes nothing; and a create whose result carries
    no id never overwrites an existing task. *)
Theorem tracker_refines_map t i errored result :
  NoDup (ids t) →
  let t' := (on_tool_end t i errored result).2 in
  pending t' = delete i (pending t) ∧
  match pending t !! i, errored with
  | Some (Create c af), false =>
    ∃ id, view t' = <[id := mkTodoItem c Pending af]> (view t) ∧
      ids t' = (if decide (id ∈ ids t) then ids t else ids t ++ [id]) ∧
      (result = None → (max_id (tasks t) + 1 < 2 ^ 64)%N → id ∉ ids t)
  | Some (Update k st sub af), false =>
    if decide (st = Some "deleted")
    then view t' = delete k (view t) ∧ ids t' = filter (.≠ k) (ids t)
    else view t' = alter (apply_fields st sub af) k (view t) ∧ ids t' = ids t
  | _, _ => tasks t' = tasks t
  end.
Proof.
  intros HN. unfold on_tool_end, view, ids in *.
  destruct (pending t !! i) as [[c af|k st sub af]|] eqn:E; [| |by rewrite delete_id].
  - destruct errored; [done|]. cbn [snd tasks pending]. split; [done|]. eexists.
    split; [apply upsert_view|]. split; [apply upsert_ids|].
    intros -> Hm. simpl. by apply (next_id_fresh (mkTracker (tasks t) (delete i (pending t)))).
  - destruct errored; [done|]. cbn [tasks pending].
    destruct (position _ (tasks t)) as [idx|] eqn:P.
    + case_bool_decide as Hd; cbn [snd tasks pending]; (split; [done|]).
      * rewrite decide_True by done. by apply remove_refines.
      * rewrite decide_False by done. by apply update_refines.
    + cbn [snd tasks pending]. split; [done|].
      assert (k ∉ (tasks t).*1) as Hk.
      { intros (p & -> & Hp)%list_elem_of_fmap. apply position_None in P.
        rewrite Forall_forall in P. specialize (P p Hp). by apply bool_decide_eq_false in P. }
      assert (list_to_map (M := gmap string TodoItem) (tasks t) !! k = None) as Hv
        by by apply not_elem_of_list_to_map.
      case_decide; (split; [|done || by rewrite filter_ne]).
      * by rewrite delete_id.
      * symmetry. apply map_alter_id || (apply map_eq; intros j; destruct (decide (j = k)) as [->|];
          [by rewrite lookup_alter_eq, Hv|by rewrite lookup_alter_ne]).
Qed.
End json.

(** ** Witnesses *)

Definition ex_item (c : string) : TodoItem := mkTodoItem c Pending None.
Definition ex_tracker : TaskTracker :=
  mkTracker (numbered [ex_item "read"; ex_item "write"]) {["u1" := Update "2" (Some "done") None None]}.

Example ex_update :
  (on_tool_end (H := obj_json) ex_tracker "u1" false None).1 =
    Some [ex_item "read"; mkTodoItem "write" Done None].
Proof. reflexivity. Qed.

Lemma tracker_refines_map_witness :
  let t' := (on_tool_end (H := obj_json) ex_tracker "u1" false None).2 in
  view t' = alter (apply_fields (Some "done") None None) "2" (view ex_tracker) ∧ ids t' = ["1"; "2"].
Proof.
  apply (tracker_refines_map (H := obj_json) ex_tracker "u1" false None).
  by apply (bool_decide_unpack _).
Defined.
End Todo.
