(* ===== verification/Store.v ===== *)
(** * The board database

    Models the tables a card's life goes through and the operations of
    src/db/events.rs and src/db/crud/{cards, card_sessions, projects, sessions,
    events, queued, todos}.rs on them.  Every operation runs under the connection mutex, so it
    is one step from a database to a database.  A closure's refusal and
    a violated unique or foreign key are error values; other failures of the
    storage engine are not modelled.
    The wall clock and the uuid generator are the parameter [World]: the n-th
    reading of each. *)

From S2P Require Import Prelude RustStr Json Pipeline Todo.

Module Store.

(** [Utc::now().to_rfc3339()], [now_millis()] and [Uuid::new_v4()]. *)
Class World := {
  rfc3339 : nat → string;
  now_millis : nat → Z;
  new_uuid : nat → string;
}.

(** ** Rows *)

(** A row of [cards]; the two columns derived at query time from the run
    history (reviewer_model and session_count) are not stored. *)
Record Card := mkCard {
  c_id : string;
  c_project_id : string;
  c_title : string;
  c_description : string;
  c_step : string;
  c_priority : Z;
  c_workflow : string;
  c_model : option string;
  c_effort : option string;
  c_worker_session_id : option string;
  c_last_worker_session_id : option string;
  c_handoff_context : option string;
  c_blocked : bool;
  c_block_reason : option string;
  c_created_at : string;
  c_updated_at : string;
  c_model_autoswitch : option bool;
  c_completed_at : option string;
  c_system_prompt_name : option string;
  c_worktree_unmerged_reason : option string;
  c_worktree_unmerged_detail : option string;
  c_review_summary : option string;
  c_review_verdict : option string;
  c_reviewed_at : option string;
}.

(** The changeset: [None] leaves a column as it is. *)
Record UpdateCard := mkUpdateCard {
  u_title : option string;
  u_description : option string;
  u_step : option string;
  u_priority : option Z;
  u_workflow : option string;
  u_model : option (option string);
  u_effort : option (option string);
  u_worker_session_id : option (option string);
  u_last_worker_session_id : option (option string);
  u_handoff_context : option (option string);
  u_blocked : option bool;
  u_block_reason : option (option string);
  u_updated_at : option string;
  u_completed_at : option (option string);
  u_system_prompt_name : option (option string);
  u_worktree_unmerged_reason : option (option string);
  u_worktree_unmerged_detail : option (option string);
  u_model_autoswitch : option (option bool);
  u_review_summary : option (option string);
  u_review_verdict : option (option string);
  u_reviewed_at : option (option string);
}.

Definition UpdateCard_default : UpdateCard :=
mkUpdateCard None None None None None None None None None None None None None None None None None
    None None None None.

(** Setters for the struct-update syntax [UpdateCard { step: .., ..Default::default() }]. *)
Definition set_step (v : string) '(mkUpdateCard a b _ d e f g h i j k l m n o p q r s t u) :
    UpdateCard :=
mkUpdateCard a b (Some v) d e f g h i j k l m n o p q r s t u.
Definition set_worker_session_id (v : option string) '(mkUpdateCard a b c d e f g _ i j k l m n o
    p q r s t u) : UpdateCard :=
mkUpdateCard a b c d e f g (Some v) i j k l m n o p q r s t u.
Definition set_last_worker_session_id (v : option string) '(mkUpdateCard a b c d e f g h _ j k l m
    n o p q r s t u) : UpdateCard :=
mkUpdateCard a b c d e f g h (Some v) j k l m n o p q r s t u.
Definition set_handoff_context (v : option string) '(mkUpdateCard a b c d e f g h i _ k l m n o p
    q r s t u) : UpdateCard :=
mkUpdateCard a b c d e f g h i (Some v) k l m n o p q r s t u.
Definition set_blocked (v : bool) '(mkUpdateCard a b c d e f g h i j _ l m n o p q r s t u) :
    UpdateCard :=
mkUpdateCard a b c d e f g h i j (Some v) l m n o p q r s t u.
Definition set_block_reason (v : option string) '(mkUpdateCard a b c d e f g h i j k _ m n o p q r
    s t u) : UpdateCard :=
mkUpdateCard a b c d e f g h i j k (Some v) m n o p q r s t u.
Definition set_updated_at (v : string) '(mkUpdateCard a b c d e f g h i j k l _ n o p q r s t u) :
    UpdateCard :=
mkUpdateCard a b c d e f g h i j k l (Some v) n o p q r s t u.
Definition set_completed_at (v : option string) '(mkUpdateCard a b c d e f g h i j k l m _ o p q r
    s t u) : UpdateCard :=
mkUpdateCard a b c d e f g h i j k l m (Some v) o p q r s t u.
Definition set_review_summary (v : option string) '(mkUpdateCard a b c d e f g h i j k l m n o p q
    r _ t u) : UpdateCard :=
mkUpdateCard a b c d e f g h i j k l m n o p q r (Some v) t u.
Definition set_review_verdict (v : option string) '(mkUpdateCard a b c d e f g h i j k l m n o p q
    r s _ u) : UpdateCard :=
mkUpdateCard a b c d e f g h i j k l m n o p q r s (Some v) u.
Definition set_reviewed_at (v : option string) '(mkUpdateCard a b c d e f g h i j k l m n o p q r
    s t _) : UpdateCard :=
mkUpdateCard a b c d e f g h i j k l m n o p q r s t (Some v).

(** [diesel::update(..).set(&update)]: the columns the changeset names. *)
Definition apply_update (u : UpdateCard) (c : Card) : Card := {|
  c_id := c_id c;
  c_project_id := c_project_id c;
  c_title := default (c_title c) (u_title u);
  c_description := default (c_description c) (u_description u);
  c_step := default (c_step c) (u_step u);
  c_priority := default (c_priority c) (u_priority u);
  c_workflow := default (c_workflow c) (u_workflow u);
  c_model := default (c_model c) (u_model u);
  c_effort := default (c_effort c) (u_effort u);
  c_worker_session_id := default (c_worker_session_id c) (u_worker_session_id u);
  c_last_worker_session_id := default (c_last_worker_session_id c) (u_last_worker_session_id u);
  c_handoff_context := default (c_handoff_context c) (u_handoff_context u);
  c_blocked := default (c_blocked c) (u_blocked u);
  c_block_reason := default (c_block_reason c) (u_block_reason u);
  c_created_at := c_created_at c;
  c_updated_at := default (c_updated_at c) (u_updated_at u);
  c_model_autoswitch := default (c_model_autoswitch c) (u_model_autoswitch u);
  c_completed_at := default (c_completed_at c) (u_completed_at u);
  c_system_prompt_name := default (c_system_prompt_name c) (u_system_prompt_name u);
  c_worktree_unmerged_reason := default (c_worktree_unmerged_reason c) (u_worktree_unmerged_reason u);
  c_worktree_unmerged_detail := default (c_worktree_unmerged_detail c) (u_worktree_unmerged_detail u);
  c_review_summary := default (c_review_summary c) (u_review_summary u);
  c_review_verdict := default (c_review_verdict c) (u_review_verdict u);
  c_reviewed_at := default (c_reviewed_at c) (u_reviewed_at u);
|}.

Record NewCard := mkNewCard {
  n_id : string;
  n_project_id : string;
  n_title : string;
  n_description : string;
  n_step : string;
  n_priority : Z;
  n_workflow : string;
  n_model : option string;
  n_effort : option string;
  n_blocked : bool;
  n_block_reason : option string;
  n_created_at : string;
  n_updated_at : string;
  n_system_prompt_name : option string;
}.

(** The inserted row: the columns [NewCard] does not name are NULL. *)
Definition new_card_row (n : NewCard) : Card := {|
  c_id := n_id n;
  c_project_id := n_project_id n;
  c_title := n_title n;
  c_description := n_description n;
  c_step := n_step n;
  c_priority := n_priority n;
  c_workflow := n_workflow n;
  c_model := n_model n;
  c_effort := n_effort n;
  c_worker_session_id := None;
  c_last_worker_session_id := None;
  c_handoff_context := None;
  c_blocked := n_blocked n;
  c_block_reason := n_block_reason n;
  c_created_at := n_created_at n;
  c_updated_at := n_updated_at n;
  c_model_autoswitch := None;
  c_completed_at := None;
  c_system_prompt_name := n_system_prompt_name n;
  c_worktree_unmerged_reason := None;
  c_worktree_unmerged_detail := None;
  c_review_summary := None;
  c_review_verdict := None;
  c_reviewed_at := None;
|}.

(** The columns of [sessions] the card operations read or write. *)
Record Session := mkSession {
  s_id : string;
  s_is_worker : bool;
  s_project_id : option string;
  s_card_id : option string;
  s_worker_step : option string;
  s_sealed_at : option string;
  s_sealed_reason : option string;
  s_model : option string;
  s_conversation_id : option string;
  s_pending_handover_doc : option string;
}.

(** The columns of [projects] the card operations read. *)
Record Project := mkProject {
  p_id : string;
  p_name : string;
  p_workflow : string;
  p_review_enabled : bool;
}.

Record CardSession := mkCardSession {
  r_id : string;
  r_card_id : string;
  r_session_id : string;
  r_step : string;
  r_role : string;
  r_model : option string;
  r_started_at : string;
  r_ended_at : option string;
  r_outcome : option string;
  r_summary : option string;
}.

Record CardRunStart := mkCardRunStart {
  cr_step : string;
  cr_role : string;
  cr_model : option string;
}.

Record NewQueuedMessage := mkNewQueuedMessage {
  nq_session_id : string;
  nq_text : string;
  nq_queued_at : string;
  nq_model : option string;
  nq_effort : option string;
  nq_attachment_ids : option string;
  nq_user_event_appended : bool;
}.

Record QueuedMessage := mkQueuedMessage {
  q_id : Z;
  q_session_id : string;
  q_text : string;
  q_queued_at : string;
  q_model : option string;
  q_effort : option string;
  q_attachment_ids : option string;
  q_user_event_appended : bool;
}.

Record TodoRow := mkTodoRow {
  t_session_id : string;
  t_position : Z;
  t_content : string;
  t_status : string;
  t_active_form : option string;
  t_updated_at : string;
}.

Inductive SealOutcome := Sealed (dropped_queued : nat) | AlreadySealed | NotFound.

(** ** The database *)

(** Tables with a text primary key are maps, the others lists in insertion
    order.  [queued_next] is the AUTOINCREMENT counter of [queued_messages];
    [clock] counts the readings of [World]. *)
Record Db := mkDb {
  cards : gmap string Card;
  sessions : gmap string Session;
  projects : gmap string Project;
  runs : list CardSession;
  events : list Event;
  queued : list QueuedMessage;
  queued_next : Z;
  todos : list TodoRow;
  clock : nat;
}.

Definition set_cards (f : gmap string Card → gmap string Card) (db : Db) : Db :=
  mkDb (f (cards db)) (sessions db) (projects db) (runs db)
    (events db) (queued db) (queued_next db) (todos db) (clock db).
Definition set_sessions (f : gmap string Session → gmap string Session) (db : Db) : Db :=
  mkDb (cards db) (f (sessions db)) (projects db) (runs db)
    (events db) (queued db) (queued_next db) (todos db) (clock db).
Definition set_projects (f : gmap string Project → gmap string Project) (db : Db) : Db :=
  mkDb (cards db) (sessions db) (f (projects db)) (runs db)
    (events db) (queued db) (queued_next db) (todos db) (clock db).
Definition set_runs (f : list CardSession → list CardSession) (db : Db) : Db :=
  mkDb (cards db) (sessions db) (projects db) (f (runs db))
    (events db) (queued db) (queued_next db) (todos db) (clock db).
Definition set_events (f : list Event → list Event) (db : Db) : Db :=
  mkDb (cards db) (sessions db) (projects db) (runs db)
    (f (events db)) (queued db) (queued_next db) (todos db) (clock db).
Definition set_queued (f : list QueuedMessage → list QueuedMessage) (db : Db) : Db :=
  mkDb (cards db) (sessions db) (projects db) (runs db)
    (events db) (f (queued db)) (queued_next db) (todos db) (clock db).
Definition set_queued_next (f : Z → Z) (db : Db) : Db :=
  mkDb (cards db) (sessions db) (projects db) (runs db)
    (events db) (queued db) (f (queued_next db)) (todos db) (clock db).
Definition set_todos (f : list TodoRow → list TodoRow) (db : Db) : Db :=
  mkDb (cards db) (sessions db) (projects db) (runs db)
    (events db) (queued db) (queued_next db) (f (todos db)) (clock db).
Definition set_clock (f : nat → nat) (db : Db) : Db :=
  mkDb (cards db) (sessions db) (projects db) (runs db)
    (events db) (queued db) (queued_next db) (todos db) (f (clock db)).

(** Operations: a result, or an error, and the database afterwards. *)
Definition M (A : Type) : Type := Db → Result string A * Db.

#[export] Instance M_ret : MRet M := λ A a db, (Ok a, db).
#[export] Instance M_bind : MBind M := λ A B k m db,
  match m db with
  | (Ok a, db') => k a db'
  | (Err e, db') => (Err e, db')
  end.

Definition fail {A} (e : string) : M A := λ db, (Err e, db).
Definition gets {A} (f : Db → A) : M A := λ db, (Ok (f db), db).
Definition modify (f : Db → Db) : M unit := λ db, (Ok tt, f db).
Definition of_result {A} (r : Result string A) : M A := λ db, (r, db).

(** ** Constraints

    The connection runs with [PRAGMA foreign_keys=ON] (src/db/mod.rs), and the
    tables below reference each other as migrations/ declares.  A statement
    that would leave a dangling reference fails and changes nothing. *)

Definition references {A} (m : gmap string A) (k : option string) : bool :=
  match k with Some k => is_some (m !! k) | None => true end.

Definition constraint (ok : Db → bool) : M unit :=
  λ db, (if ok db then Ok tt else Err "FOREIGN KEY constraint failed", db).

(** [conn.transaction]: a failure undoes the statements before it. *)
Definition transaction {A} (m : M A) : M A := λ db,
  match m db with
  | (Ok a, db') => (Ok a, db')
  | (Err e, db') => (Err e, set_clock (λ _, clock db') db)
  end.

(** The references an update of a card writes. *)
Definition update_refs (u : UpdateCard) (ss : gmap string Session) : bool :=
  references ss (mjoin (u_worker_session_id u)) && references ss (mjoin (u_last_worker_session_id u)).

(** ** Invariants of an operation *)

Class Preserves {A} (I : Db → Prop) (m : M A) : Prop :=
  preserves db : I db → I (m db).2.

Section preserves.
Context (I : Db → Prop).

#[export] Instance preserves_ret {A} (a : A) : Preserves I (mret a).
Proof. by intros db. Qed.

#[export] Instance preserves_bind {A B} (m : M A) (k : A → M B) :
  Preserves I m → (∀ a, Preserves I (k a)) → Preserves I (m ≫= k).
Proof.
  intros Hm Hk db Hdb. unfold mbind, M_bind. specialize (Hm db Hdb).
  destruct (m db) as [[a|e] db']; simpl in *; [by apply Hk|done].
Qed.

#[export] Instance preserves_fail {A} e : Preserves I (fail (A := A) e).
Proof. by intros db. Qed.

#[export] Instance preserves_gets {A} (f : Db → A) : Preserves I (gets f).
Proof. by intros db. Qed.

#[export] Instance preserves_of_result {A} (r : Result string A) : Preserves I (of_result r).
Proof. by intros db. Qed.

#[export] Instance preserves_constraint ok : Preserves I (constraint ok).
Proof. by intros db. Qed.

Lemma preserves_modify f : (∀ db, I db → I (f db)) → Preserves I (modify f).
Proof. intros Hf db. apply Hf. Qed.
End preserves.

#[export] Hint Opaque fail gets modify of_result constraint transaction : typeclass_instances.

(** Walks the binds and branches of a program; what is left is what the
    instances do not settle. *)
Ltac preserve :=
  lazymatch goal with
  | |- ∀ _, _ => intros ?; preserve
  | |- Preserves _ (_ ≫= _) => apply preserves_bind; preserve
  | |- Preserves _ (match ?x with _ => _ end) => destruct x; preserve
  | |- _ => first [apply _ | solve [eauto] | idtac]
  end.

Section store.
Context `{World}.

(** One reading of the clock, of the millisecond clock, of the uuid generator. *)
Definition tick : M nat := λ db, (Ok (clock db), set_clock S db).
Definition now : M string := n ← tick; mret (rfc3339 n).
Definition millis : M Z := n ← tick; mret (now_millis n).
Definition uuid : M string := n ← tick; mret (new_uuid n).

(** ** Events *)

Definition APPEND_SEQ_MAX_ATTEMPTS : nat := 16.

Definition session_events (session_id : string) (db : Db) : list Event :=
  List.filter (λ e, ev_session_id e == session_id) (events db).

(** [COALESCE((SELECT MAX(seq) ..), 0) + 1] *)
Definition next_seq (session_id : string) (db : Db) : Z :=
  match ev_seq <$> session_events session_id db with
  | [] => 0 + 1
  | s :: l => foldr Z.max s l + 1
  end.

(** The retry loop; the insert violates a key when the id or the
    [(session_id, seq)] pair is taken, which is retried, or when the session
    does not exist, which is not. *)
Fixpoint insert_event_attempts (attempts : nat) (session_id kind data : string) : M Event :=
  match attempts with
  | O => fail ("failed to assign an event seq for session " +:+ session_id +:+ " after 16 attempts")
  | S k =>
    id ← uuid;
    ts ← millis;
    db ← gets (λ db, db);
    let seq := next_seq session_id db in
    let e := mkEvent id session_id seq ts kind data in
    if existsb (λ x, (ev_id x == id) || (ev_session_id x == session_id) && (ev_seq x == seq)) (events db)
    then insert_event_attempts k session_id kind data
    else
      constraint (λ db, is_some (sessions db !! session_id));;
      modify (set_events (λ l, l ++ [e]));; mret e
  end.

Definition append_event (session_id kind data : string) : M Event :=
  insert_event_attempts APPEND_SEQ_MAX_ATTEMPTS session_id kind data.

Definition list_events_by_session (session_id : string) (after_seq : option Z) (db : Db) : list Event :=
  let rows := match after_seq with
    | Some s => List.filter (λ e, s <? ev_seq e) (session_events session_id db)
    | None => session_events session_id db
    end in
  sort_by (λ a b, ev_seq a <=? ev_seq b) rows.

(** [ORDER BY ts DESC, seq DESC] *)
Definition newest_first (a b : Event) : bool :=
  (ev_ts b <? ev_ts a) || (ev_ts b =? ev_ts a) && (ev_seq b <=? ev_seq a).

Definition lifecycle_kind (k : string) : bool :=
  (k == "agent-end") || (k == "step-change") || (k == "handover") ||
  (k == Pipeline.PAUSE_CLEARED_KIND) || (k == Pipeline.NO_PROGRESS_KIND).

Definition card_lifecycle_events (card_id : string) (limit : nat) (db : Db) : list Event :=
  let rows := List.filter (λ e,
    match sessions db !! ev_session_id e with
    | Some s => (s_card_id s == Some card_id) && lifecycle_kind (ev_kind e)
    | None => false
    end) (events db) in
  reverse (take limit (sort_by newest_first rows)).

Definition delete_events_by_session (session_id : string) : M nat :=
  n ← gets (λ db, length (session_events session_id db));
  modify (set_events (List.filter (λ e, ev_session_id e != session_id)));;
  mret n.
Definition latest_event_of_kinds (session_id : string) (kinds : list string) (db : Db) : option Event :=
  head (sort_by (λ a b, ev_seq b <=? ev_seq a)
    (List.filter (λ e, existsb (λ k, ev_kind e == k) kinds) (session_events session_id db))).

Definition list_events_by_session_before (session_id : string) (before_seq : option Z) (limit : nat)
    (db : Db) : list Event :=
  let rows := match before_seq with
    | Some s => List.filter (λ e, ev_seq e <? s) (session_events session_id db)
    | None => session_events session_id db
    end in
  reverse (take limit (sort_by (λ a b, ev_seq b <=? ev_seq a) rows)).

Definition delete_old_events_for_sessions (session_ids : list string) (before_ts_ms : Z) : M nat :=
  let old e := existsb (λ s, ev_session_id e == s) session_ids && (ev_ts e <? before_ts_ms) in
  n ← gets (λ db, length (List.filter old (events db)));
  modify (set_events (List.filter (λ e, negb (old e))));;
  mret n.

(** Delete by the [(ts, seq)] of the [max_count]-th newest event. *)
Definition trim_events_to_count (session_id : string) (max_count : Z) : M nat :=
  if max_count <=? 0 then mret 0%nat
  else
    cutoff ← gets (λ db, sort_by newest_first (session_events session_id db) !! Z.to_nat (max_count - 1));
    match cutoff with
    | None => mret 0%nat
    | Some c =>
      let older e := (ev_session_id e == session_id) &&
        ((ev_ts e <? ev_ts c) || (ev_ts e =? ev_ts c) && (ev_seq e <? ev_seq c)) in
      n ← gets (λ db, length (List.filter older (events db)));
      modify (set_events (List.filter (λ e, negb (older e))));;
      mret n
    end.

(** ** Card runs *)

Definition MOVED_TO_BACKLOG : string := "moved_to_backlog".
Definition MOVED_TO_TODO : string := "moved_to_todo".

Definition intake_outcome (step : string) : option string :=
  if step == "backlog" then Some MOVED_TO_BACKLOG
  else if step == "todo" then Some MOVED_TO_TODO
  else None.

Definition seal_reason_for_outcome (outcome : option string) : string :=
  match outcome with
  | Some o =>
    if (o == "advanced") || (o == "finished") then "advanced"
    else if (o == "reviewed") || (o == "changes_requested") then "reviewed"
    else if o == "moved" then "moved"
    else if o == MOVED_TO_BACKLOG then MOVED_TO_BACKLOG
    else if o == MOVED_TO_TODO then MOVED_TO_TODO
    else "superseded"
  | None => "superseded"
  end.

(** The WHERE clause of [close_runs]. *)
Definition run_matches (card_id : string) (session_id : option string) (r : CardSession) : bool :=
  (r_card_id r == card_id) && (r_ended_at r == None) &&
  match session_id with None => true | Some s => r_session_id r == s end.

Definition close_run (outcome : string) (summary : option string) (now : string) (r : CardSession) :
    CardSession :=
  mkCardSession (r_id r) (r_card_id r) (r_session_id r) (r_step r) (r_role r) (r_model r)
    (r_started_at r) (Some now) (Some outcome)
    (match summary with Some s => Some s | None => r_summary r end).

Definition close_runs (card_id : string) (session_id : option string) (outcome : string)
    (summary : option string) (now : string) : M nat :=
  n ← gets (λ db, length (List.filter (run_matches card_id session_id) (runs db)));
  modify (set_runs (fmap (λ r, if run_matches card_id session_id r
    then close_run outcome summary now r else r)));;
  mret n.

Definition open_card_run (card_id session_id : string) (run : CardRunStart) (now : string) :
    M CardSession :=
  id ← uuid;
  let row := mkCardSession id card_id session_id (cr_step run) (cr_role run) (cr_model run)
    now None None None in
  transaction (
    close_runs card_id None "superseded" None now;;
    taken ← gets (λ db, existsb (λ r, r_id r == id) (runs db));
    (if (taken : bool) then fail "UNIQUE constraint failed: card_sessions.id" else mret tt);;
    constraint (λ db, is_some (cards db !! card_id));;
    modify (set_runs (λ l, l ++ [row]));;
    mret row).

(** [filter(|s| !s.trim().is_empty())] *)
Definition non_blank (s : option string) : option string :=
  match s with Some t => if is_blank t then None else Some t | None => None end.

Definition close_card_run (card_id session_id outcome : string) (summary : option string) : M bool :=
  t ← now;
  n ← close_runs card_id (Some session_id) outcome (non_blank summary) t;
  mret (0 <? n)%nat.

Definition close_open_card_runs (card_id outcome : string) : M nat :=
  t ← now;
  close_runs card_id None outcome None t.

(** [ORDER BY started_at DESC LIMIT 1]; RFC 3339 strings compare bytewise. *)
Definition newest_run (l : list CardSession) : option CardSession :=
  head (sort_by (λ a b, String.leb (r_started_at b) (r_started_at a)) l).

Definition latest_card_run (card_id session_id : string) (db : Db) : option CardSession :=
  newest_run (List.filter (λ r, (r_card_id r == card_id) && (r_session_id r == session_id)) (runs db)).

Definition seal (now reason : string) (s : Session) : Session :=
  mkSession (s_id s) (s_is_worker s) (s_project_id s) (s_card_id s) None (Some now) (Some reason)
    (s_model s) (s_conversation_id s) (s_pending_handover_doc s).

Definition seal_session (session_id : string) (reason : option string) : M SealOutcome :=
  t ← now;
  row ← gets (λ db, sessions db !! session_id);
  match row with
  | None => mret NotFound
  | Some s =>
    if is_some (s_sealed_at s) then mret AlreadySealed
    else
      reason ← match reason with
        | Some r => mret r
        | None =>
          last ← gets (λ db, newest_run (List.filter (λ r, r_session_id r == session_id) (runs db)));
          mret match last with
            | Some r => if is_some (r_ended_at r) then seal_reason_for_outcome (r_outcome r)
                        else "superseded"
            | None => "superseded"
            end
        end;
      modify (set_sessions (<[session_id := seal t reason s]>));;
      dropped ← gets (λ db, length (List.filter (λ q, q_session_id q == session_id) (queued db)));
      modify (set_queued (List.filter (λ q, q_session_id q != session_id)));;
      match s_card_id s with
      | Some card_id => close_runs card_id (Some session_id) "superseded" None t;; mret tt
      | None => mret tt
      end;;
      mret (Sealed dropped)
  end.

(** ** Cards *)

Definition get_card (id : string) (db : Db) : option Card := cards db !! id.
Definition get_session (id : string) (db : Db) : option Session := sessions db !! id.
Definition get_project (id : string) (db : Db) : option Project := projects db !! id.

(** [NewProject] leaves the review settings to their column defaults. *)
Definition create_project (id name workflow : string) : M Project :=
  existing ← gets (get_project id);
  match existing with
  | Some _ => fail "UNIQUE constraint failed: projects.id"
  | None =>
    let p := mkProject id name workflow true in
    modify (set_projects (<[id := p]>));; mret p
  end.

Definition update_project (id : string) (name workflow : option string) (review_enabled : option bool) :
    M (option Project) :=
  existing ← gets (get_project id);
  match existing with
  | Some p =>
    let p := mkProject (p_id p) (default (p_name p) name) (default (p_workflow p) workflow)
      (default (p_review_enabled p) review_enabled) in
    modify (set_projects (<[id := p]>));; mret (Some p)
  | None => mret None
  end.

(** An insert whose primary key is taken fails. *)
Definition create_card (new : NewCard) : M Card :=
  existing ← gets (get_card (n_id new));
  match existing with
  | Some _ => fail "UNIQUE constraint failed: cards.id"
  | None =>
    let card := new_card_row new in
    constraint (λ db, is_some (projects db !! n_project_id new));;
    modify (set_cards (<[n_id new := card]>));; mret card
  end.

(** [NewSession] has no seal columns: a session starts unsealed, and every
    caller leaves [conversation_id] and [pending_handover_doc] empty. *)
Definition create_session (id : string) (is_worker : bool)
    (project_id card_id worker_step model : option string) : M Session :=
  existing ← gets (get_session id);
  match existing with
  | Some _ => fail "UNIQUE constraint failed: sessions.id"
  | None =>
    let s := mkSession id is_worker project_id card_id worker_step None None model None None in
    constraint (λ db, references (projects db) project_id && references (cards db) card_id);;
    modify (set_sessions (<[id := s]>));; mret s
  end.

(** The changeset of [sessions] for the columns above that callers set;
    [None] leaves a column as it is. *)
Record UpdateSession := mkUpdateSession {
  us_model : option (option string);
  us_conversation_id : option (option string);
  us_pending_handover_doc : option (option string);
}.

Definition update_session (id : string) (u : UpdateSession) : M (option Session) :=
  existing ← gets (get_session id);
  match existing with
  | Some s =>
    let s := mkSession (s_id s) (s_is_worker s) (s_project_id s) (s_card_id s) (s_worker_step s)
      (s_sealed_at s) (s_sealed_reason s) (default (s_model s) (us_model u))
      (default (s_conversation_id s) (us_conversation_id u))
      (default (s_pending_handover_doc s) (us_pending_handover_doc u)) in
    modify (set_sessions (<[id := s]>));; mret (Some s)
  | None => mret None
  end.

(** Every statement commits on its own; the last fails while an event or a
    card still names the session. *)
Definition session_unreferenced (id : string) (db : Db) : bool :=
  negb (existsb (λ e, ev_session_id e == id) (events db)) &&
  bool_decide (map_Forall (λ _ c, c_worker_session_id c ≠ Some id ∧ c_last_worker_session_id c ≠ Some id)
    (cards db)).

Definition delete_session (id : string) : M bool :=
  modify (set_todos (List.filter (λ r, t_session_id r != id)));;
  modify (set_queued (List.filter (λ q, q_session_id q != id)));;
  existing ← gets (get_session id);
  constraint (λ db, session_unreferenced id db || negb (is_some existing));;
  modify (set_sessions (delete id));;
  mret (is_some existing).

Definition stamp_completed_at (prev_step : string) (update : UpdateCard) : M UpdateCard :=
  match u_step update with
  | None => mret update
  | Some new_step =>
    if (new_step == "done") && (prev_step != "done") then
      t ← now; mret (update |> set_completed_at (Some t))
    else if (prev_step == "done") && (new_step != "done") then
      mret (update |> set_completed_at None)
    else mret update
  end.

(** The UPDATE on one session: drop a [worker_step] other than [step]. *)
Definition sever (step : string) (s : Session) : Session :=
  match s_worker_step s with
  | Some w => if w == step then s
              else mkSession (s_id s) (s_is_worker s) (s_project_id s) (s_card_id s) None
                     (s_sealed_at s) (s_sealed_reason s) (s_model s) (s_conversation_id s)
                     (s_pending_handover_doc s)
  | None => s
  end.

Definition sever_worker_resume_link (prev_step : string) (card : Card) : M unit :=
  if (c_step card == prev_step) || (c_step card == "wont_do") then mret tt
  else
    let intake := intake_outcome (c_step card) in
    match intake with
    | Some outcome => t ← now; close_runs (c_id card) None outcome None t;; mret tt
    | None => mret tt
    end;;
    let current := if is_some intake then c_worker_session_id card else None in
    modify (set_sessions (λ m,
      foldl (λ m sid, alter (sever (c_step card)) sid m) m
        (omap id [current; c_last_worker_session_id card]))).

Definition update_card (id : string) (update : UpdateCard) : M (option Card) :=
  prev_step ← gets (λ db, if is_some (u_step update) then c_step <$> cards db !! id else None);
  update ← match prev_step with
    | Some prev => if is_some (u_completed_at update) then mret update
                   else stamp_completed_at prev update
    | None => mret update
    end;
  existing ← gets (get_card id);
  match existing with
  | None => mret None
  | Some c =>
    let card := apply_update update c in
    constraint (λ db, update_refs update (sessions db));;
    modify (set_cards (<[id := card]>));;
    match prev_step with
    | Some prev => sever_worker_resume_link prev card
    | None => mret tt
    end;;
    mret (Some card)
  end.

(** [validate] is the closure, given the clock reading it may stamp. *)
Definition update_card_atomic (id : string) (validate : string → Card → Result string UpdateCard) :
    M (option Card) :=
  existing ← gets (get_card id);
  match existing with
  | None => mret None
  | Some existing =>
    t ← now;
    update ← of_result (validate t existing);
    update ← (if is_some (u_step update) && negb (is_some (u_completed_at update))
              then stamp_completed_at (c_step existing) update else mret update);
    let card := apply_update update existing in
    constraint (λ db, update_refs update (sessions db));;
    modify (set_cards (<[id := card]>));;
    sever_worker_resume_link (c_step existing) card;;
    mret (Some card)
  end.

Definition clear_card_worker_if_matches (card_id session_id : string) : M (option Card) :=
  t ← now;
  existing ← gets (get_card card_id);
  match existing with
  | Some c =>
    if c_worker_session_id c == Some session_id then
      let card := apply_update (UpdateCard_default |> set_worker_session_id None
        |> set_last_worker_session_id (Some session_id) |> set_updated_at t) c in
      constraint (λ db, is_some (sessions db !! session_id));;
      modify (set_cards (<[card_id := card]>));; mret (Some card)
    else mret None
  | None => mret None
  end.

Definition claim_card_for_worker (id session_id : string) (new_step : option string) (now : string) :
    M bool :=
  existing ← gets (get_card id);
  match existing with
  | Some c =>
    if c_worker_session_id c == None then
      let u := UpdateCard_default |> set_worker_session_id (Some session_id)
        |> set_last_worker_session_id (Some session_id) |> set_updated_at now in
      let u := match new_step with Some s => u |> set_step s | None => u end in
      constraint (λ db, is_some (sessions db !! session_id));;
      modify (set_cards (<[id := apply_update u c]>));; mret true
    else mret false
  | None => mret false
  end.

Definition delete_card (id : string) : M bool :=
  modify (set_runs (List.filter (λ r, r_card_id r != id)));;
  existing ← gets (get_card id);
  (* a session still names the card *)
  constraint (λ db, bool_decide (map_Forall (λ _ s, s_card_id s ≠ Some id) (sessions db))
    || negb (is_some existing));;
  modify (set_cards (delete id));;
  mret (is_some existing).

(** ** The message queue *)

Definition enqueue_message (new : NewQueuedMessage) : M QueuedMessage :=
  id ← gets queued_next;
  let q := mkQueuedMessage id (nq_session_id new) (nq_text new) (nq_queued_at new) (nq_model new)
    (nq_effort new) (nq_attachment_ids new) (nq_user_event_appended new) in
  modify (set_queued (λ l, l ++ [q]));;
  modify (set_queued_next Z.succ);;
  mret q.

Definition by_id (a b : QueuedMessage) : bool := q_id a <=? q_id b.

Definition list_queued_messages (session_id : string) (db : Db) : list QueuedMessage :=
  sort_by by_id (List.filter (λ q, q_session_id q == session_id) (queued db)).

Definition next_queued_message (session_id : string) (db : Db) : option QueuedMessage :=
  head (sort_by by_id (List.filter (λ q, q_session_id q == session_id) (queued db))).

Definition is_message (session_id : string) (message_id : Z) (q : QueuedMessage) : bool :=
  (q_session_id q == session_id) && (q_id q =? message_id).

Definition get_queued_message_by_id (session_id : string) (message_id : Z) (db : Db) :
    option QueuedMessage :=
  head (List.filter (is_message session_id message_id) (queued db)).

Definition mark_queued_message_user_event_appended (session_id : string) (message_id : Z) : M bool :=
  n ← gets (λ db, length (List.filter (is_message session_id message_id) (queued db)));
  modify (set_queued (fmap (λ q, if is_message session_id message_id q
    then mkQueuedMessage (q_id q) (q_session_id q) (q_text q) (q_queued_at q) (q_model q)
           (q_effort q) (q_attachment_ids q) true
    else q)));;
  mret (0 <? n)%nat.

Definition delete_queued_message_by_id (session_id : string) (message_id : Z) : M bool :=
  n ← gets (λ db, length (List.filter (is_message session_id message_id) (queued db)));
  modify (set_queued (List.filter (λ q, negb (is_message session_id message_id q))));;
  mret (0 <? n)%nat.

Definition clear_queued_messages (session_id : string) : M nat :=
  n ← gets (λ db, length (List.filter (λ q, q_session_id q == session_id) (queued db)));
  modify (set_queued (List.filter (λ q, q_session_id q != session_id)));;
  mret n.

Definition delete_queued_messages_for_project (project_id : string) : M nat :=
  ids ← gets (λ db, (filter (λ kv, s_is_worker kv.2 = true ∧ s_project_id kv.2 = Some project_id)
    (map_to_list (sessions db))).*1);
  let owned q := existsb (λ s, q_session_id q == s) ids in
  n ← gets (λ db, length (List.filter owned (queued db)));
  modify (set_queued (List.filter (λ q, negb (owned q))));;
  mret n.

Definition sessions_with_queued_messages (db : Db) : gset string :=
  list_to_set (q_session_id <$> queued db).

(** ** Todos *)

Definition status_token (s : Todo.TodoStatus) : string :=
  match s with Todo.Pending => "pending" | Todo.InProgress => "in_progress" | Todo.Done => "done" end.

Definition row_to_item (r : TodoRow) : Todo.TodoItem :=
  Todo.mkTodoItem (t_content r) (Todo.TodoStatus_from_provider (t_status r)) (t_active_form r).

Definition todo_rows (session_id updated_at : string) (snap : Todo.TodoSnapshot) : list TodoRow :=
  imap (λ idx i, mkTodoRow session_id (Z.of_nat idx) (Todo.content i) (status_token (Todo.status i))
    (Todo.active_form i) updated_at) snap.

Definition replace_session_todos (session_id : string) (snap : Todo.TodoSnapshot) : M unit :=
  updated_at ← now;
  modify (set_todos (List.filter (λ r, t_session_id r != session_id)));;
  modify (set_todos (λ l, l ++ todo_rows session_id updated_at snap)).

Definition list_session_todos (session_id : string) (db : Db) : list Todo.TodoItem :=
  row_to_item <$> sort_by (λ a b, t_position a <=? t_position b)
    (List.filter (λ r, t_session_id r == session_id) (todos db)).
(** ** What the card updates do, as pure functions of the tables *)

Definition closing (card_id : string) (session_id : option string) (outcome : string)
    (summary : option string) (t : string) : list CardSession → list CardSession :=
  fmap (λ r, if run_matches card_id session_id r then close_run outcome summary t r else r).

Definition stamped (prev : string) (u : UpdateCard) (t : string) : UpdateCard :=
  match u_step u, u_completed_at u with
  | Some s, None =>
    if (s == "done") && (prev != "done") then u |> set_completed_at (Some t)
    else if (prev == "done") && (s != "done") then u |> set_completed_at None
    else u
  | _, _ => u
  end.

Definition moved (prev : string) (card : Card) : bool :=
  (c_step card != prev) && (c_step card != "wont_do").

Definition severed (prev : string) (card : Card) (m : gmap string Session) : gmap string Session :=
  if moved prev card then
    foldl (λ m sid, alter (sever (c_step card)) sid m) m
      (omap id [if is_some (intake_outcome (c_step card)) then c_worker_session_id card else None;
                c_last_worker_session_id card])
  else m.

Definition intake_closed (prev : string) (card : Card) (t : string) (l : list CardSession) :
    list CardSession :=
  if moved prev card then
    match intake_outcome (c_step card) with
    | Some outcome => closing (c_id card) None outcome None t l
    | None => l
    end
  else l.

Lemma stamp_run prev u db :
  u_completed_at u = None →
  ∃ t n, stamp_completed_at prev u db = (Ok (stamped prev u t), set_clock (λ _, n) db).
Proof.
  intros Hu. unfold stamp_completed_at, stamped. rewrite Hu.
  destruct (u_step u) as [s|]; [|exists "", (clock db); by destruct db].
  destruct (_ && _); [by do 2 eexists|].
  destruct (_ && _); exists "", (clock db); by destruct db.
Qed.

Lemma sever_run prev card db :
  ∃ t n, sever_worker_resume_link prev card db =
    (Ok tt, mkDb (cards db) (severed prev card (sessions db)) (projects db)
      (intake_closed prev card t (runs db)) (events db) (queued db) (queued_next db) (todos db) n).
Proof.
  unfold sever_worker_resume_link, severed, intake_closed, moved.
  destruct (c_step card == prev) eqn:E1; [exists "", (clock db); by destruct db|].
  destruct (c_step card == "wont_do") eqn:E2; [exists "", (clock db); by destruct db|].
  cbn [negb orb andb].
  destruct (intake_outcome (c_step card)) as [o|]; [by do 2 eexists|exists "", (clock db); by destruct db].
Qed.

Lemma apply_no_step u c : u_step u = None → c_step (apply_update u c) = c_step c.
Proof. intros Hu. simpl. by rewrite Hu. Qed.

Lemma stamped_refs prev u t ss : update_refs (stamped prev u t) ss = update_refs u ss.
Proof. unfold stamped. destruct u; simpl. by repeat (case_match; simpl). Qed.

Lemma run_constraint {A} ok (k : unit → M A) db :
  (constraint ok ≫= k) db = if ok db then k tt db else (Err "FOREIGN KEY constraint failed", db).
Proof. unfold constraint, mbind, M_bind. by destruct (ok db). Qed.

Lemma update_card_run id u c db :
  cards db !! id = Some c →
  if update_refs u (sessions db) then
    ∃ t t' n, let card := apply_update (stamped (c_step c) u t) c in
      update_card id u db =
        (Ok (Some card), mkDb (<[id := card]> (cards db)) (severed (c_step c) card (sessions db))
          (projects db) (intake_closed (c_step c) card t' (runs db)) (events db) (queued db)
          (queued_next db) (todos db) n)
  else ∃ e n, update_card id u db = (Err e, set_clock (λ _, n) db).
Proof.
  intros Hc. destruct (update_card id u db) as [r db'] eqn:Hrun. revert Hrun.
  unfold update_card, get_card, gets, modify, mret, M_ret. unfold mbind at 1, M_bind at 1.
  destruct (u_step u) as [s|] eqn:Hs; cbn [is_some].
  - rewrite Hc. cbn [fmap option_fmap option_map].
    assert (∃ t n, ((if is_some (u_completed_at u) then λ db, (Ok u, db)
      else stamp_completed_at (c_step c) u) : M UpdateCard) db = (Ok (stamped (c_step c) u t), set_clock (λ _, n) db))
      as (t & n & Hst).
    { destruct (u_completed_at u) as [x|] eqn:Hx; cbn [is_some]; [|by apply stamp_run].
      exists "", (clock db). unfold stamped. rewrite Hs, Hx. by destruct db. }
    unfold mbind at 1, M_bind at 1. rewrite Hst.
    unfold mbind at 1, M_bind at 1. cbn [cards set_clock]. rewrite Hc, run_constraint, stamped_refs.
    cbn [sessions set_clock].
    destruct (update_refs u (sessions db)); [|intros [= <- <-]; by do 2 eexists].
    unfold mbind at 1, M_bind at 1. unfold mbind at 1, M_bind at 1.
    destruct (sever_run (c_step c) (apply_update (stamped (c_step c) u t) c)
      (set_cards <[id:=apply_update (stamped (c_step c) u t) c]> (set_clock (λ _, n) db)))
      as (t' & n' & ->). intros [= <- <-]. by exists t, t', n'.
  - unfold mbind at 1, M_bind at 1. unfold mbind at 1, M_bind at 1. rewrite Hc, run_constraint.
    destruct (update_refs u (sessions db)); intros [= <- <-];
      [|by exists "FOREIGN KEY constraint failed", (clock db); destruct db].
    exists "", "", (clock db). unfold stamped. rewrite Hs.
    unfold severed, intake_closed, moved. rewrite apply_no_step, bool_decide_eq_true_2 by done.
    by destruct db.
Qed.

Lemma update_card_atomic_run id validate c db :
  cards db !! id = Some c →
  ∃ t0, match validate t0 c with
  | Err e => ∃ n, update_card_atomic id validate db = (Err e, set_clock (λ _, n) db)
  | Ok u =>
    if update_refs u (sessions db) then
      ∃ t t' n, let card := apply_update (stamped (c_step c) u t) c in
        update_card_atomic id validate db =
          (Ok (Some card), mkDb (<[id := card]> (cards db)) (severed (c_step c) card (sessions db))
            (projects db) (intake_closed (c_step c) card t' (runs db)) (events db) (queued db)
            (queued_next db) (todos db) n)
    else ∃ e n, update_card_atomic id validate db = (Err e, set_clock (λ _, n) db)
  end.
Proof.
  intros Hc. exists (rfc3339 (clock db)).
  destruct (update_card_atomic id validate db) as [r db'] eqn:Hrun. revert Hrun.
  unfold update_card_atomic, get_card, now, tick, gets, of_result, modify, mret, M_ret.
  unfold mbind at 1, M_bind at 1. rewrite Hc. do 3 (unfold mbind at 1, M_bind at 1; cbn [fst snd]).
  destruct (validate _ c) as [u|e]; [|intros [= <- <-]; by eexists].
  assert (∃ t n, ((if is_some (u_step u) && negb (is_some (u_completed_at u))
    then stamp_completed_at (c_step c) u else λ db, (Ok u, db)) : M UpdateCard) (set_clock S db) =
      (Ok (stamped (c_step c) u t), set_clock (λ _, n) db)) as (t & n & Hst).
  { destruct (u_step u) as [s|] eqn:Hs; cbn [is_some andb].
    - destruct (u_completed_at u) as [x|] eqn:Hx; cbn [is_some negb].
      + exists "", (S (clock db)). unfold stamped. by rewrite Hs, Hx.
      + destruct (stamp_run (c_step c) u (set_clock S db) Hx) as (t & n & ->). by exists t, n.
    - exists "", (S (clock db)). unfold stamped. by rewrite Hs. }
  unfold mbind at 1, M_bind at 1. rewrite Hst, run_constraint, stamped_refs.
  cbn [sessions set_clock].
  destruct (update_refs u (sessions db)); [|intros [= <- <-]; by do 2 eexists].
  do 2 (unfold mbind at 1, M_bind at 1).
  destruct (sever_run (c_step c) (apply_update (stamped (c_step c) u t) c)
    (set_cards <[id:=apply_update (stamped (c_step c) u t) c]> (set_clock (λ _, n) db)))
    as (t' & n' & ->). intros [= <- <-]. by exists t, t', n'.
Qed.
End store.
End Store.
