(* ===== verification/StoreProps.v ===== *)
(** * Properties of the board database

    The invariant every operation of [Store] keeps, and the abstract objects
    its tables implement: an append-only log per session, a FIFO queue per
    session, a lock per card, and a replace-all todo list per session. *)

From S2P Require Import Prelude RustStr Json Pipeline Todo Store.

Module StoreProps.
Import Store.

(** ** The invariant *)

Definition open_run (card_id : string) (r : CardSession) : Prop :=
  r_card_id r = card_id ∧ r_ended_at r = None.

#[export] Instance open_run_dec c r : Decision (open_run c r).
Proof. unfold open_run. apply _. Defined.

Definition open_runs (card_id : string) (l : list CardSession) : list CardSession :=
  filter (open_run card_id) l.

(** Referential integrity: every foreign key names a row that exists. *)
Definition card_refs (ps : gmap string Project) (ss : gmap string Session) (c : Card) : Prop :=
  is_Some (ps !! c_project_id c) ∧ references ss (c_worker_session_id c) = true ∧
  references ss (c_last_worker_session_id c) = true.

Definition session_refs (ps : gmap string Project) (cs : gmap string Card) (s : Session) : Prop :=
  references ps (s_project_id s) = true ∧ references cs (s_card_id s) = true.

Record refs (cs : gmap string Card) (ss : gmap string Session) (ps : gmap string Project)
    (rs : list CardSession) (es : list Event) : Prop := {
  refs_cards : map_Forall (λ _, card_refs ps ss) cs;
  refs_sessions : map_Forall (λ _, session_refs ps cs) ss;
  refs_runs : Forall (λ r, is_Some (cs !! r_card_id r)) rs;
  refs_events : Forall (λ e, is_Some (ss !! ev_session_id e)) es;
}.

(** The invariant of the tables; under [D] the completion times are part of it. *)
Record inv_if (D : Prop) (db : Db) : Prop := {
  inv_ids : map_Forall (λ k c, c_id c = k) (cards db);
  (** A card carries a completion time exactly while it is done. *)
  inv_done : D → map_Forall (λ _ c, is_Some (c_completed_at c) ↔ c_step c = "done") (cards db);
  (** At most one run per card is open. *)
  inv_runs : ∀ c, (length (open_runs c (runs db)) <= 1)%nat;
  (** A sealed session can never be resumed. *)
  inv_seal : map_Forall (λ _ s, is_Some (s_sealed_at s) → s_worker_step s = None) (sessions db);
  (** Events are numbered in the order they were appended. *)
  inv_seq : ∀ s, StronglySorted (λ a b, ev_seq a < ev_seq b) (session_events s db);
  inv_event_ids : NoDup (ev_id <$> events db);
  (** Queue ids grow and are never reused. *)
  inv_queue : StronglySorted (λ a b, q_id a < q_id b) (queued db);
  inv_next : Forall (λ q, q_id q < queued_next db) (queued db);
  inv_refs : refs (cards db) (sessions db) (projects db) (runs db) (events db);
}.
#[global] Arguments inv_ids {D} db _.
#[global] Arguments inv_done {D} db _ _.
#[global] Arguments inv_runs {D} db _.
#[global] Arguments inv_seal {D} db _.
#[global] Arguments inv_seq {D} db _.
#[global] Arguments inv_event_ids {D} db _.
#[global] Arguments inv_queue {D} db _.
#[global] Arguments inv_next {D} db _.
#[global] Arguments inv_refs {D} db _.
Abbreviation inv := (inv_if True).

(** *** Keeping references

    A change that deletes no row keeps the references, provided the rows it
    writes keep theirs or are checked. *)

Definition keys_kept {A} (m m' : gmap string A) : Prop := ∀ k, is_Some (m !! k) → is_Some (m' !! k).

Lemma keys_kept_refl {A} (m : gmap string A) : keys_kept m m.
Proof. by intros k. Qed.

Lemma keys_kept_insert {A} (m : gmap string A) k x : keys_kept m (<[k := x]> m).
Proof. intros i Hi. rewrite lookup_insert. by case_decide. Qed.

Lemma keys_kept_alter {A} (m : gmap string A) f k : keys_kept m (alter f k m).
Proof. intros i Hi. rewrite lookup_alter. case_decide; [|done]. subst. by apply fmap_is_Some. Qed.

Lemma references_Some {A} (m : gmap string A) k :
  references m k = true ↔ ∀ i, k = Some i → is_Some (m !! i).
Proof.
  destruct k as [i|]; simpl; [|naive_solver]. destruct (m !! i) eqn:E; simpl; [naive_solver|].
  split; [done|]. intros Hi. destruct (Hi i eq_refl) as [? ?]. congruence.
Qed.

Lemma references_kept {A} (m m' : gmap string A) k :
  keys_kept m m' → references m k = true → references m' k = true.
Proof. rewrite !references_Some. unfold keys_kept. eauto. Qed.

Create HintDb keys.
#[export] Hint Resolve keys_kept_refl keys_kept_insert keys_kept_alter references_kept : keys.

Lemma card_refs_kept ps ss ps' ss' c :
  keys_kept ps ps' → keys_kept ss ss' → card_refs ps ss c → card_refs ps' ss' c.
Proof. intros ? ? (Hp & Hw & Hl). split_and!; eauto with keys. Qed.

Lemma session_refs_kept ps cs ps' cs' s :
  keys_kept ps ps' → keys_kept cs cs' → session_refs ps cs s → session_refs ps' cs' s.
Proof. intros ? ? [Hp Hc]. split; eauto with keys. Qed.

Lemma refs_kept cs ss ps rs es cs' ss' ps' rs' es' :
  refs cs ss ps rs es → keys_kept cs cs' → keys_kept ss ss' → keys_kept ps ps' →
  (∀ k c, cs' !! k = Some c → cs !! k = Some c ∨ card_refs ps' ss' c) →
  (∀ k s, ss' !! k = Some s → (∃ s0, ss !! k = Some s0 ∧ s_project_id s0 = s_project_id s ∧
    s_card_id s0 = s_card_id s) ∨ session_refs ps' cs' s) →
  (∀ r, r ∈ rs' → (∃ r0, r0 ∈ rs ∧ r_card_id r0 = r_card_id r) ∨ is_Some (cs' !! r_card_id r)) →
  (∀ e, e ∈ es' → e ∈ es ∨ is_Some (ss' !! ev_session_id e)) →
  refs cs' ss' ps' rs' es'.
Proof.
  intros [Hc Hs Hr He] Kc Ks Kp Nc Ns Nr Ne. split.
  - intros k c Hk. destruct (Nc k c Hk) as [H0|]; [|done]. eapply card_refs_kept; [done..|by eapply Hc].
  - intros k s Hk. destruct (Ns k s Hk) as [(s0 & H0 & Ep & Ec)|]; [|done].
    destruct (Hs k s0 H0) as [Hp' Hc']. rewrite Ep in Hp'. rewrite Ec in Hc'. split; eauto with keys.
  - apply Forall_forall. intros r [(r0 & Hr0 & <-)|]%Nr; [|done]. rewrite Forall_forall in Hr. by apply Kc, Hr.
  - apply Forall_forall. intros e [H0|]%Ne; [|done]. rewrite Forall_forall in He. by apply Ks, He.
Qed.

(** Unchanged tables. *)
Lemma same_sessions (ss : gmap string Session) ps' cs' : ∀ k s, ss !! k = Some s →
  (∃ s0, ss !! k = Some s0 ∧ s_project_id s0 = s_project_id s ∧ s_card_id s0 = s_card_id s) ∨
  session_refs ps' cs' s.
Proof. eauto 6. Qed.

Lemma same_runs (rs : list CardSession) (cs' : gmap string Card) : ∀ r, r ∈ rs →
  (∃ r0, r0 ∈ rs ∧ r_card_id r0 = r_card_id r) ∨ is_Some (cs' !! r_card_id r).
Proof. eauto. Qed.

#[export] Hint Resolve same_sessions same_runs or_introl : keys.

(** ** Runs *)

Lemma open_runs_closing c id sid o sm t l :
  (length (open_runs c (closing id sid o sm t l)) <= length (open_runs c l))%nat.
Proof.
  induction l as [|r l IH]; [done|]. unfold open_runs, closing in *.
  rewrite fmap_cons, !filter_cons. destruct (run_matches id sid r).
  - rewrite (decide_False (P := open_run c (close_run o sm t r))) by (intros [_ ?]; done).
    case_decide; simpl; lia.
  - case_decide; simpl; lia.
Qed.

Lemma open_runs_closed c o t l : open_runs c (closing c None o None t l) = [].
Proof.
  apply filter_none, Forall_fmap, Forall_forall. intros r _ [Hc Ho]. simpl in *.
  unfold run_matches in *. destruct ((r_card_id r == c) && (r_ended_at r == None)) eqn:E; simpl in *.
  - done.
  - case_bool_decide as H1; case_bool_decide as H2; naive_solver.
Qed.

Lemma open_runs_intake c prev card t l :
  (length (open_runs c (intake_closed prev card t l)) <= length (open_runs c l))%nat.
Proof.
  unfold intake_closed. destruct (moved _ _); [|done].
  destruct (intake_outcome _); [apply open_runs_closing|done].
Qed.

(** ** Cards and sessions *)

Lemma stamped_done prev u t c :
  u_completed_at u = None → c_step c = prev →
  (is_Some (c_completed_at c) ↔ c_step c = "done") →
  let card := apply_update (stamped prev u t) c in
  is_Some (c_completed_at card) ↔ c_step card = "done".
Proof.
  intros Hu <- Hc. unfold stamped. rewrite Hu. destruct (u_step u) as [s|] eqn:Hs.
  - destruct u. simpl in *. subst. repeat case_bool_decide; subst; simpl; naive_solver.
  - simpl. rewrite Hu, Hs. done.
Qed.

Lemma apply_update_id u c : c_id (apply_update u c) = c_id c.
Proof. done. Qed.

Lemma sever_sealed st s :
  (is_Some (s_sealed_at s) → s_worker_step s = None) →
  is_Some (s_sealed_at (sever st s)) → s_worker_step (sever st s) = None.
Proof.
  unfold sever. destruct (s_worker_step s) as [w|] eqn:E; [|by rewrite E].
  case_bool_decide; simpl; [|done]. rewrite E. auto.
Qed.

Lemma sever_refs st s :
  s_project_id (sever st s) = s_project_id s ∧ s_card_id (sever st s) = s_card_id s.
Proof. unfold sever. by repeat case_match. Qed.

Lemma alter_map_Forall {A} (P : string → A → Prop) f k (m : gmap string A) :
  (∀ k x, P k x → P k (f x)) → map_Forall P m → map_Forall P (alter f k m).
Proof.
  intros Hf HF i x Hx. destruct (decide (k = i)) as [->|].
  - rewrite lookup_alter_eq in Hx. apply fmap_Some in Hx as (y & Hy & ->). by apply Hf, HF.
  - rewrite lookup_alter_ne in Hx by done. by apply HF.
Qed.

Lemma severed_seal prev card m :
  map_Forall (λ _ s, is_Some (s_sealed_at s) → s_worker_step s = None) m →
  map_Forall (λ _ s, is_Some (s_sealed_at s) → s_worker_step s = None) (severed prev card m).
Proof.
  unfold severed. destruct (moved _ _); [|done].
  generalize (omap id [if is_some (intake_outcome (c_step card)) then c_worker_session_id card else None;
    c_last_worker_session_id card]).
  intros l. revert m. induction l as [|k l IH]; intros m Hm; simpl; [done|].
  apply IH, alter_map_Forall; [|done]. intros _ s. apply sever_sealed.
Qed.

Lemma keys_kept_foldl {A} (f : A → A) l (m : gmap string A) :
  keys_kept m (foldl (λ m k, alter f k m) m l).
Proof.
  revert m. induction l as [|k l IH]; intros m; simpl; [apply keys_kept_refl|].
  intros i Hi. by apply IH, keys_kept_alter.
Qed.
#[export] Hint Resolve keys_kept_foldl : keys.

Lemma severed_kept prev card m : keys_kept m (severed prev card m).
Proof. unfold severed. destruct (moved _ _); auto with keys. Qed.

Lemma severed_refs prev card m k s :
  severed prev card m !! k = Some s →
  ∃ s0, m !! k = Some s0 ∧ s_project_id s0 = s_project_id s ∧ s_card_id s0 = s_card_id s.
Proof.
  unfold severed. destruct (moved _ _); [|eauto].
  generalize (omap id [if is_some (intake_outcome (c_step card)) then c_worker_session_id card else None;
    c_last_worker_session_id card]).
  intros l. revert m. induction l as [|i l IH]; intros m; simpl; [eauto|].
  intros (s1 & H1 & Ep & Ec)%IH. rewrite lookup_alter in H1. case_decide; [|eauto]. subst.
  apply fmap_Some in H1 as (s0 & H0 & ->). destruct (sever_refs (c_step card) s0). eauto with congruence.
Qed.

Lemma closing_refs id sid o sm t l r :
  r ∈ closing id sid o sm t l → ∃ r0, r0 ∈ l ∧ r_card_id r0 = r_card_id r.
Proof. intros (r0 & -> & Hr)%list_elem_of_fmap. exists r0. split; [done|]. by case_match. Qed.

Lemma intake_closed_refs prev card t l r :
  r ∈ intake_closed prev card t l → ∃ r0, r0 ∈ l ∧ r_card_id r0 = r_card_id r.
Proof. unfold intake_closed. repeat case_match; eauto using closing_refs. Qed.

(** The references of an updated card, when the update was checked. *)
Lemma apply_update_refs ps ss u c :
  card_refs ps ss c → update_refs u ss = true → card_refs ps ss (apply_update u c).
Proof.
  intros (Hp & Hw & Hl) [Uw Ul]%andb_true_iff. split_and!; simpl; [done|..].
  - by destruct (u_worker_session_id u).
  - by destruct (u_last_worker_session_id u).
Qed.

(** A database that keeps the logs and queues and has an invariant-preserving
    change in the other tables. *)
Lemma inv_tables {D} db cs ss rs n :
  inv_if D db →
  map_Forall (λ k c, c_id c = k) cs →
  (D → map_Forall (λ _ c, is_Some (c_completed_at c) ↔ c_step c = "done") cs) →
  map_Forall (λ _ s, is_Some (s_sealed_at s) → s_worker_step s = None) ss →
  (∀ c, (length (open_runs c rs) <= length (open_runs c (runs db)))%nat) →
  refs cs ss (projects db) rs (events db) →
  inv_if D (mkDb cs ss (projects db) rs (events db) (queued db) (queued_next db) (todos db) n).
Proof.
  intros [] ? ? ? Hr ?. split; simpl; try done. intros c. etrans; [apply Hr|done].
Qed.

Lemma inv_card_written {D} db id c u t t' n :
  inv_if D db → cards db !! id = Some c → (D → u_completed_at u = None) →
  update_refs u (sessions db) = true →
  let card := apply_update (stamped (c_step c) u t) c in
  inv_if D (mkDb (<[id := card]> (cards db)) (severed (c_step c) card (sessions db)) (projects db)
        (intake_closed (c_step c) card t' (runs db)) (events db) (queued db) (queued_next db)
        (todos db) n).
Proof.
  intros Hi Hc Hu Hrefs card. pose proof Hi as [Hids Hdone _ Hseal _ _ _ _ Hr].
  apply inv_tables; [done|..].
  - apply map_Forall_insert_2; [|done]. apply (Hids _ _ Hc).
  - intros HD. apply map_Forall_insert_2; [|by apply Hdone]. apply stamped_done; [by apply Hu|done|]. apply (Hdone HD _ _ Hc).
  - by apply severed_seal.
  - intros k. apply open_runs_intake.
  - eapply refs_kept; [exact Hr|apply keys_kept_insert|apply severed_kept|apply keys_kept_refl|..|auto].
    + intros k c' [[<- <-]|[_ ?]]%lookup_insert_Some; [right|by left].
      apply (card_refs_kept (projects db) (sessions db)); [apply keys_kept_refl|apply severed_kept|].
      apply apply_update_refs; [by eapply Hr|by rewrite stamped_refs].
    + intros k s' Hs. left. by eapply severed_refs.
    + intros r Hin. left. by eapply intake_closed_refs.
Qed.

Lemma inv_clock {D} db n : inv_if D db → inv_if D (set_clock n db).
Proof. intros []. by split. Qed.

Section operations.
Context `{World} {D : Prop}.

#[local] Hint Extern 1 (Preserves _ (match ?x with _ => _ end)) => destruct x : typeclass_instances.

#[export] Instance tick_inv : Preserves (inv_if D) tick.
Proof. intros db Hdb. by apply inv_clock. Qed.
#[export] Instance now_inv : Preserves (inv_if D) now.
Proof. unfold now. apply _. Qed.
#[export] Instance millis_inv : Preserves (inv_if D) millis.
Proof. unfold millis. apply _. Qed.
#[export] Instance uuid_inv : Preserves (inv_if D) uuid.
Proof. unfold uuid. apply _. Qed.

(** *** Runs *)

#[export] Instance close_runs_inv id sid o sm t : Preserves (inv_if D) (close_runs id sid o sm t).
Proof.
  apply preserves_bind; [apply _|]. intros n. apply preserves_bind; [|apply _].
  apply preserves_modify. intros db Hdb. pose proof Hdb as []. apply inv_tables; try done.
  - intros c. apply open_runs_closing.
  - eapply refs_kept; [done|auto with keys..|auto with keys]. intros r Hin. left. by eapply closing_refs.
Qed.

#[export] Instance open_card_run_inv id sid run t : Preserves (inv_if D) (open_card_run id sid run t).
Proof.
  apply preserves_bind; [apply _|]. intros u db Hdb. unfold transaction.
  unfold close_runs, constraint, gets, modify, mbind, M_bind, mret, M_ret, set_runs, fail. simpl.
  fold (closing id None "superseded" None t (runs db)).
  destruct (existsb _ _); simpl; [by apply inv_clock|].
  destruct (cards db !! id) as [cd|] eqn:Hcd; simpl; [|by apply inv_clock].
  destruct Hdb as [? ? Hr ? ? ? ? ? Hrefs]. split; simpl; try done.
  2:{ eapply refs_kept; [exact Hrefs|auto with keys..|auto with keys].
      intros r [Hin| ->%list_elem_of_singleton]%elem_of_app; [left; by eapply closing_refs|right].
      simpl. by rewrite Hcd. }
  intros c. unfold open_runs in *. rewrite filter_app, length_app, filter_cons, filter_nil.
  destruct (decide (c = id)) as [->|Hne].
  - fold (open_runs id (closing id None "superseded" None t (runs db))).
    rewrite open_runs_closed. simpl. case_decide; simpl; lia.
  - rewrite decide_False by (intros [Hc _]; simpl in Hc; congruence). simpl.
    pose proof (open_runs_closing c id None "superseded" None t (runs db)) as Hle.
    unfold open_runs in Hle. specialize (Hr c). lia.
Qed.

#[export] Instance close_card_run_inv id sid o sm : Preserves (inv_if D) (close_card_run id sid o sm).
Proof. unfold close_card_run. apply _. Qed.
#[export] Instance close_open_card_runs_inv id o : Preserves (inv_if D) (close_open_card_runs id o).
Proof. unfold close_open_card_runs. apply _. Qed.

Lemma set_queued_filter_inv f : Preserves (inv_if D) (modify (set_queued (List.filter f))).
Proof.
  apply preserves_modify. intros db []. split; simpl; auto with tables.
Qed.

Lemma seal_row_inv db sid s t r :
  inv_if D db → sessions db !! sid = Some s → inv_if D (set_sessions (<[sid := seal t r s]>) db).
Proof.
  intros Hdb Hs. pose proof Hdb as []. apply inv_tables; try done.
  - by apply map_Forall_insert_2.
  - eapply refs_kept; [done|auto with keys..|auto with keys|auto with keys].
    intros k s' [[<- <-]|[_ ?]]%lookup_insert_Some; eauto 6.
Qed.

#[export] Instance seal_session_inv sid r : Preserves (inv_if D) (seal_session sid r).
Proof.
  apply preserves_bind; [apply _|]. intros t db Hdb.
  unfold gets, modify, mbind, M_bind, mret, M_ret. simpl.
  destruct (sessions db !! sid) as [s|] eqn:Hs; [|done]. destruct (is_some _); [done|].
  assert (∀ reason, inv_if D (set_queued (List.filter (λ q, q_session_id q != sid))
    (set_sessions (<[sid := seal t reason s]>) db))) as Hq.
  { intros reason. by apply (set_queued_filter_inv _ (set_sessions _ db)), seal_row_inv. }
  destruct r; simpl; (destruct (s_card_id s) as [cid|]; [|apply Hq]).
  all: apply (close_runs_inv cid (Some sid) "superseded" None t _ (Hq _)).
Qed.

(** *** Cards *)

#[export] Instance create_card_inv new : (D → n_step new ≠ "done") → Preserves (inv_if D) (create_card new).
Proof.
  intros Hs. apply preserves_bind; [apply _|]. intros [c|]; [apply _|]. intros db Hdb.
  rewrite run_constraint. destruct (projects db !! n_project_id new) as [pr|] eqn:Hp; [|done]. simpl.
  pose proof Hdb as []. apply inv_tables; try done.
  - by apply map_Forall_insert_2.
  - intros HD. apply map_Forall_insert_2; [|by auto]. simpl. split; [by intros []|]. intros E. by destruct (Hs HD).
  - eapply refs_kept; [done|auto with keys..|auto with keys].
    intros k c [[<- <-]|[_ ?]]%lookup_insert_Some; [right|by left]. by split_and!.
Qed.

#[export] Instance create_session_inv id w p c st m : Preserves (inv_if D) (create_session id w p c st m).
Proof.
  apply preserves_bind; [apply _|]. intros [s|]; [apply _|]. intros db Hdb.
  rewrite run_constraint. destruct (references _ _ && _) eqn:Hr; [|done]. simpl.
  apply andb_true_iff in Hr as [Hp Hc]. pose proof Hdb as []. apply inv_tables; try done.
  - apply map_Forall_insert_2; [|done]. simpl. by intros [].
  - eapply refs_kept; [done|auto with keys..|auto with keys|auto with keys].
    intros k s [[<- <-]|[_ ?]]%lookup_insert_Some; [right|eauto 6]. by split.
Qed.

#[export] Instance update_session_inv id u : Preserves (inv_if D) (update_session id u).
Proof.
  intros db Hdb. unfold update_session. unfold mbind, M_bind, gets. cbn -[get_session].
  destruct (get_session id db) as [s|] eqn:Hs; [|done]. cbn. pose proof Hdb as [].
  unfold get_session in Hs. apply inv_tables; try done.
  - apply map_Forall_insert_2; [|done]. cbn. by apply (inv_seal0 id s).
  - eapply refs_kept; [done|auto with keys..|auto with keys|auto with keys].
    intros k s' [[<- <-]|[_ ?]]%lookup_insert_Some; [left; by exists s|eauto 6].
Qed.

(** Deleting a session nothing names. *)
Lemma delete_session_row_inv db id n :
  inv_if D db → session_unreferenced id db = true →
  inv_if D (mkDb (cards db) (delete id (sessions db)) (projects db) (runs db) (events db) (queued db)
        (queued_next db) (todos db) n).
Proof.
  intros Hi [He Hc%bool_decide_eq_true]%andb_true_iff. apply negb_true_iff in He.
  rewrite existsb_false, Forall_forall in He. pose proof Hi as [? ? ? Hseal ? ? ? ? [Rc Rs Rr Re]].
  assert (∀ k, is_Some (sessions db !! k) → k ≠ id → is_Some (delete id (sessions db) !! k)) as Hkeep.
  { intros k Hk Hne. by rewrite lookup_delete_ne. }
  apply inv_tables; try done.
  - intros k s [_ Hk]%lookup_delete_Some. by apply (Hseal k).
  - split; [| |done|].
    + intros k c Hk. destruct (Rc k c Hk) as (Hp & Hw & Hl), (Hc k c Hk) as [Nw Nl].
      rewrite references_Some in Hw, Hl. split_and!; [done|..]; apply references_Some; intros i E;
        apply Hkeep; auto; congruence.
    + intros k s [_ Hk]%lookup_delete_Some. by apply (Rs k).
    + rewrite Forall_forall in Re |- *. intros e Hin. apply Hkeep; [by apply Re|].
      intros E. specialize (He e Hin). rewrite E, bool_decide_eq_true_2 in He; done.
Qed.

#[export] Instance delete_session_inv id : Preserves (inv_if D) (delete_session id).
Proof.
  unfold delete_session. apply preserves_bind; [apply preserves_modify; intros db []; by split|]. intros _.
  apply preserves_bind; [apply set_queued_filter_inv|]. intros _ db Hdb.
  unfold mbind at 1, M_bind at 1. cbn [gets]. rewrite run_constraint.
  destruct (session_unreferenced id db || _) eqn:E; [|done].
  change (inv_if D (set_sessions (delete id) db)). apply orb_true_iff in E as [E|E]; [by apply delete_session_row_inv|].
  unfold get_session in E. destruct (sessions db !! id) eqn:Hs; [done|].
  unfold set_sessions. rewrite delete_id by done. destruct db. exact Hdb.
Qed.

#[export] Instance create_project_inv id n w : Preserves (inv_if D) (create_project id n w).
Proof.
  apply preserves_bind; [apply _|]. intros [p|]; [apply _|].
  apply preserves_bind; [|intros; apply _]. apply preserves_modify. intros db [].
  split; simpl; try done. eapply refs_kept; [done|auto with keys..|auto with keys].
Qed.

#[export] Instance update_project_inv id n w r : Preserves (inv_if D) (update_project id n w r).
Proof.
  apply preserves_bind; [apply _|]. intros [p|]; [|apply _].
  apply preserves_bind; [|intros; apply _]. apply preserves_modify. intros db [].
  split; simpl; try done. eapply refs_kept; [done|auto with keys..|auto with keys].
Qed.

Lemma update_card_inv id u : (D → u_completed_at u = None) → Preserves (inv_if D) (update_card id u).
Proof.
  intros Hu db Hdb. destruct (cards db !! id) as [c|] eqn:Hc.
  - pose proof (update_card_run id u c db Hc) as Hrun.
    destruct (update_refs u (sessions db)) eqn:Hr.
    + destruct Hrun as (t & t' & n & ->). by apply inv_card_written.
    + destruct Hrun as (e & n & ->). by apply inv_clock.
  - unfold update_card, get_card, gets, mbind, M_bind, mret, M_ret. cbn [fst snd].
    destruct (is_some (u_step u)); rewrite ?Hc; simpl; by rewrite ?Hc.
Qed.

Lemma update_card_atomic_inv id validate :
  (D → ∀ t c u, validate t c = Ok u → u_completed_at u = None) →
  Preserves (inv_if D) (update_card_atomic id validate).
Proof.
  intros Hu db Hdb. destruct (cards db !! id) as [c|] eqn:Hc.
  - destruct (update_card_atomic_run id validate c db Hc) as (t0 & Hrun).
    destruct (validate t0 c) as [u|e] eqn:Hv.
    + destruct (update_refs u (sessions db)) eqn:Hr.
      * destruct Hrun as (t & t' & n & ->). apply inv_card_written; eauto.
      * destruct Hrun as (e & n & ->). by apply inv_clock.
    + destruct Hrun as (n & ->). by apply inv_clock.
  - unfold update_card_atomic, get_card, gets, mbind, M_bind, mret, M_ret. cbn [fst snd].
    by rewrite Hc.
Qed.

Lemma write_worker_inv db id c u :
  inv_if D db → cards db !! id = Some c → (D → u_completed_at u = None) →
  (D → ∀ s, u_step u = Some s → s ≠ "done" ∧ c_step c ≠ "done") →
  update_refs u (sessions db) = true →
  inv_if D (set_cards (<[id := apply_update u c]>) db).
Proof.
  intros Hdb Hc Hu Hs Hr. pose proof Hdb as [Hids Hdone _ _ _ _ _ _ Hrefs]. apply inv_tables; try done.
  - apply map_Forall_insert_2; [|done]. apply (Hids _ _ Hc).
  - intros HD. apply map_Forall_insert_2; [|by apply Hdone]. simpl. rewrite (Hu HD). simpl.
    specialize (Hdone HD _ _ Hc). simpl in Hdone. destruct (u_step u) as [s|]; simpl; [|done].
    destruct (Hs HD s eq_refl). split; [|done]. rewrite Hdone. done.
  - apply Hdb.
  - eapply refs_kept; [done|auto with keys..|auto with keys].
    intros k c' [[<- <-]|[_ ?]]%lookup_insert_Some; [right|by left].
    apply apply_update_refs; [by eapply Hrefs|done].
Qed.

#[export] Instance clear_card_worker_inv id sid : Preserves (inv_if D) (clear_card_worker_if_matches id sid).
Proof.
  apply preserves_bind; [apply _|]. intros t db Hdb. unfold gets, get_card, mbind, M_bind. simpl.
  destruct (cards db !! id) as [c|] eqn:Hc; [|done]. case_bool_decide; [|done]. unfold constraint. simpl.
  destruct (sessions db !! sid) as [ss|] eqn:Hss; [|done]. simpl.
  apply write_worker_inv; try done. unfold update_refs. simpl. by rewrite Hss.
Qed.

Lemma claim_card_inv id sid st t db :
  inv_if D db → (D → ∀ s c, st = Some s → cards db !! id = Some c → s ≠ "done" ∧ c_step c ≠ "done") →
  inv_if D (claim_card_for_worker id sid st t db).2.
Proof.
  intros Hdb Hst. unfold claim_card_for_worker, gets, get_card, mbind, M_bind. simpl.
  destruct (cards db !! id) as [c|] eqn:Hc; [|done]. case_bool_decide; [|done]. unfold constraint. simpl.
  destruct (sessions db !! sid) as [ss|] eqn:Hss; [|done]. simpl.
  apply write_worker_inv; [done|done|by destruct st|..].
  - intros HD. destruct st as [s|]; simpl; [|done]. intros s' [= <-]. by apply (Hst HD s c).
  - unfold update_refs. destruct st; simpl; by rewrite Hss.
Qed.

Lemma filter_runs_inv f : Preserves (inv_if D) (modify (set_runs (List.filter f))).
Proof.
  apply preserves_modify. intros db Hdb. pose proof Hdb as []. apply inv_tables; try done.
  - intros c. unfold open_runs. generalize (runs db). intros l.
    induction l as [|r l IH]; simpl; [done|]. destruct (f r); rewrite !filter_cons;
      repeat case_decide; simpl in *; lia.
  - eapply refs_kept; [done|auto with keys..|auto with keys].
    intros r [Hr%list_elem_of_In _]%list_elem_of_In%List.filter_In. eauto.
Qed.

Lemma delete_row_inv id db :
  inv_if D db → map_Forall (λ _ s, s_card_id s ≠ Some id) (sessions db) ∨ cards db !! id = None →
  Forall (λ r, r_card_id r ≠ id) (runs db) → inv_if D (set_cards (delete id) db).
Proof.
  intros Hdb Hs Hr. destruct Hs as [Hs|Hs]; [|unfold set_cards; rewrite delete_id by done; by destruct db].
  pose proof Hdb as [? ? ? ? ? ? ? ? [Rc Rs Rr Re]].
  apply inv_tables; try done; try by apply map_Forall_delete.
  { intros HD. by apply map_Forall_delete, inv_done0. }
  split; [by apply map_Forall_delete| |..|done].
  - intros k s Hk. destruct (Rs k s Hk) as [Hp Hc]. split; [done|]. rewrite references_Some in *.
    intros i Hi. rewrite lookup_delete_ne; [by apply Hc|]. intros ->. by apply (Hs k s Hk).
  - rewrite Forall_forall in *. intros r Hin. rewrite lookup_delete_ne; [by apply Rr|].
    intros Heq. by apply (Hr r Hin).
Qed.

#[export] Instance delete_card_inv id : Preserves (inv_if D) (delete_card id).
Proof.
  intros db Hdb. unfold delete_card. unfold mbind at 1, M_bind at 1. cbn [modify].
  pose proof (filter_runs_inv (λ r, r_card_id r != id) db Hdb) as Hdb1.
  unfold modify in Hdb1. cbn [fst snd] in Hdb1. set (db1 := set_runs _ db) in *.
  unfold mbind at 1, M_bind at 1. cbn [gets]. rewrite run_constraint.
  destruct (bool_decide _ || _) eqn:E; [|done]. simpl. apply delete_row_inv; [done|..].
  - unfold get_card in E. apply orb_true_iff in E as [E%bool_decide_eq_true|E]; [by left|right].
    by destruct (cards db1 !! id).
  - apply Forall_forall. intros r [_ Hr]%list_elem_of_In%List.filter_In.
    apply negb_true_iff in Hr. by apply bool_decide_eq_false in Hr.
Qed.

(** *** Events *)

Lemma next_seq_gt s db : Forall (λ e, ev_seq e < next_seq s db) (session_events s db).
Proof.
  unfold next_seq. destruct (session_events s db) as [|e l]; [done|]. simpl.
  assert (∀ k : list Event, Forall (λ x, ev_seq x <= foldr Z.max (ev_seq e) (ev_seq <$> k)) k
    ∧ ev_seq e <= foldr Z.max (ev_seq e) (ev_seq <$> k)) as Hk.
  { induction k as [|x k [IH1 IH2]]; cbn [fmap list_fmap foldr]; [split; [done|simpl; lia]|].
    split; [|lia]. constructor; [lia|]. eapply Forall_impl; [exact IH1|]. simpl. lia. }
  destruct (Hk l) as [H1 H2]. constructor.
  - unfold fmap in *. lia.
  - eapply Forall_impl; [exact H1|]. unfold fmap. simpl. lia.
Qed.

Lemma session_events_snoc s db e :
  session_events s (set_events (λ l, l ++ [e]) db) =
    session_events s db ++ (if ev_session_id e == s then [e] else []).
Proof. unfold session_events. simpl. rewrite List.filter_app. simpl. by case_bool_decide. Qed.

Lemma append_row_inv db e :
  inv_if D db → ev_seq e = next_seq (ev_session_id e) db →
  existsb (λ x, ev_id x == ev_id e) (events db) = false →
  is_Some (sessions db !! ev_session_id e) →
  inv_if D (set_events (λ l, l ++ [e]) db).
Proof.
  intros [] He Hid Hss. split; try done.
  - intros s. rewrite session_events_snoc. case_bool_decide as Hs; [|by rewrite app_nil_r].
    subst. apply sorted_snoc; [done|]. rewrite He. apply next_seq_gt.
  - simpl. rewrite fmap_app. apply NoDup_app. split; [done|]. split; [|apply NoDup_singleton].
    intros i (x & -> & Hx)%list_elem_of_fmap Hxe%list_elem_of_singleton.
    assert (existsb (λ x, ev_id x == ev_id e) (events db) = true) as Ht; [|congruence].
    apply List.existsb_exists. exists x. split; [by apply list_elem_of_In|].
    by apply bool_decide_eq_true.
  - eapply refs_kept; [done|auto with keys..|]. intros x [?| ->%list_elem_of_singleton]%elem_of_app; eauto.
Qed.

#[export] Instance append_event_inv s k d : Preserves (inv_if D) (append_event s k d).
Proof.
  unfold append_event. generalize APPEND_SEQ_MAX_ATTEMPTS as n. intros n. induction n as [|n IH];
    [apply _|]. cbn [insert_event_attempts].
  apply preserves_bind; [apply _|]. intros i. apply preserves_bind; [apply _|]. intros ts db Hdb.
  unfold gets, mbind, M_bind. simpl.
  destruct (existsb _ (events db)) eqn:E; [by apply IH|]. unfold constraint. simpl.
  destruct (sessions db !! s) as [ss|] eqn:Hss; [|done]. simpl.
  apply append_row_inv; [done|done| |simpl; by rewrite Hss]. simpl. rewrite existsb_false in *.
  eapply Forall_impl; [exact E|]. simpl. intros x Hx. by apply orb_false_iff in Hx as [? _].
Qed.

Lemma set_events_filter_inv f : Preserves (inv_if D) (modify (set_events (List.filter f))).
Proof.
  apply preserves_modify. intros db []. split; simpl; try done.
  - intros s. unfold session_events in *. simpl. rewrite filter_comm. by apply sorted_filter.
  - by apply nodup_fmap_filter.
  - eapply refs_kept; [done|auto with keys..|].
    intros e [He%list_elem_of_In _]%list_elem_of_In%List.filter_In. by left.
Qed.

#[export] Instance delete_events_inv s : Preserves (inv_if D) (delete_events_by_session s).
Proof.
  apply preserves_bind; [apply _|]. intros n. apply preserves_bind; [|apply _].
  apply set_events_filter_inv.
Qed.
#[export] Instance delete_old_events_inv l t : Preserves (inv_if D) (delete_old_events_for_sessions l t).
Proof.
  apply preserves_bind; [apply _|]. intros n. apply preserves_bind; [|apply _].
  apply set_events_filter_inv.
Qed.
#[export] Instance trim_events_inv s n : Preserves (inv_if D) (trim_events_to_count s n).
Proof.
  unfold trim_events_to_count. destruct (n <=? 0); [apply _|]. apply preserves_bind; [apply _|].
  intros [c|]; [|apply _]. apply preserves_bind; [apply _|]. intros k.
  apply preserves_bind; [|apply _]. apply set_events_filter_inv.
Qed.

(** *** Queue and todos *)

#[export] Instance enqueue_inv new : Preserves (inv_if D) (enqueue_message new).
Proof.
  intros db []. unfold enqueue_message, gets, modify, mbind, M_bind. simpl.
  split; simpl; try done.
  - by apply sorted_snoc.
  - apply Forall_app. split; [eapply Forall_impl; [done|simpl; lia]|]. constructor; [simpl; lia|done].
Qed.

#[export] Instance mark_queued_inv s i : Preserves (inv_if D) (mark_queued_message_user_event_appended s i).
Proof.
  apply preserves_bind; [apply _|]. intros n. apply preserves_bind; [|apply _].
  apply preserves_modify. intros db []. split; simpl; try done.
  - induction inv_queue0 as [|q l Hl IH HF]; [constructor|]. rewrite fmap_cons. constructor.
    + apply IH. by apply Forall_cons in inv_next0 as [_ ?].
    + apply Forall_fmap. eapply Forall_impl; [exact HF|]. simpl. intros x Hx.
      by destruct (is_message s i x), (is_message s i q).
  - apply Forall_fmap. eapply Forall_impl; [done|]. simpl. intros x Hx. by destruct (is_message s i x).
Qed.

#[export] Instance delete_queued_inv s i : Preserves (inv_if D) (delete_queued_message_by_id s i).
Proof.
  apply preserves_bind; [apply _|]. intros n. apply preserves_bind; [|apply _].
  apply set_queued_filter_inv.
Qed.
#[export] Instance clear_queued_inv s : Preserves (inv_if D) (clear_queued_messages s).
Proof.
  apply preserves_bind; [apply _|]. intros n. apply preserves_bind; [|apply _].
  apply set_queued_filter_inv.
Qed.
#[export] Instance delete_queued_project_inv p : Preserves (inv_if D) (delete_queued_messages_for_project p).
Proof.
  apply preserves_bind; [apply _|]. intros l. apply preserves_bind; [apply _|]. intros n.
  apply preserves_bind; [|apply _]. apply set_queued_filter_inv.
Qed.

#[export] Instance replace_todos_inv s snap : Preserves (inv_if D) (replace_session_todos s snap).
Proof.
  apply preserves_bind; [apply _|]. intros t. apply preserves_bind;
    [|intros _]; apply preserves_modify; intros db []; by split.
Qed.

(** ** Reachable databases *)

Definition empty_db : Db := mkDb ∅ ∅ ∅ [] [] [] 1 [] 0.

(** One committed operation, in any order.  Under [D] callers leave
    [completed_at] to the update path, claim a card for a step change only
    between unfinished steps and create cards on a step other than done: the
    three ways by which completion times go wrong ([claim_skips_stamp],
    [created_done_unstamped]).  With [D] false nothing is asked of them. *)
Inductive step : Db → Db → Prop :=
| step_append s k d db : step db (append_event s k d db).2
| step_delete_events s db : step db (delete_events_by_session s db).2
| step_delete_old l t db : step db (delete_old_events_for_sessions l t db).2
| step_trim s n db : step db (trim_events_to_count s n db).2
| step_open_run c s r t db : step db (open_card_run c s r t db).2
| step_close_run c s o sm db : step db (close_card_run c s o sm db).2
| step_close_open c o db : step db (close_open_card_runs c o db).2
| step_seal s r db : step db (seal_session s r db).2
| step_create_project i n w db : step db (create_project i n w db).2
| step_update_project i n w r db : step db (update_project i n w r db).2
| step_create_card n db : (D → n_step n ≠ "done") → step db (create_card n db).2
| step_create_session i w p c st m db : step db (create_session i w p c st m db).2
| step_update_session i u db : step db (update_session i u db).2
| step_delete_session i db : step db (delete_session i db).2
| step_update i u db : (D → u_completed_at u = None) → step db (update_card i u db).2
| step_atomic i v db :
    (D → ∀ t c u, v t c = Ok u → u_completed_at u = None) → step db (update_card_atomic i v db).2
| step_clear c s db : step db (clear_card_worker_if_matches c s db).2
| step_claim c s st t db :
    (D → ∀ n cd, st = Some n → cards db !! c = Some cd → n ≠ "done" ∧ c_step cd ≠ "done") →
    step db (claim_card_for_worker c s st t db).2
| step_delete_card c db : step db (delete_card c db).2
| step_enqueue n db : step db (enqueue_message n db).2
| step_mark s i db : step db (mark_queued_message_user_event_appended s i db).2
| step_delete_queued s i db : step db (delete_queued_message_by_id s i db).2
| step_clear_queued s db : step db (clear_queued_messages s db).2
| step_delete_queued_project p db : step db (delete_queued_messages_for_project p db).2
| step_todos s snap db : step db (replace_session_todos s snap db).2.

Lemma step_inv db db' : step db db' → inv_if D db → inv_if D db'.
Proof.
  destruct 1; intros Hi; try by apply preserves.
  - by apply (create_card_inv n).
  - by apply (update_card_inv i u).
  - by apply (update_card_atomic_inv i v).
  - by apply claim_card_inv.
Qed.

Lemma empty_inv : inv_if D empty_db.
Proof.
  split; simpl; try apply map_Forall_empty; try constructor; try done.
Qed.
End operations.
#[global] Arguments step {_} D _ _.

Section uses.
Context `{World}.

(** ** The event log of a session *)

Lemma list_events_session s db :
  inv db → list_events_by_session s None db = session_events s db.
Proof.
  intros Hi. apply sort_by_sorted. pose proof (inv_seq db Hi s) as Hs.
  induction Hs as [|e l Hl IH HF]; constructor; [done|].
  eapply Forall_impl; [exact HF|]. simpl. intros. apply Z.leb_le. lia.
Qed.

Lemma append_event_ok n : ∀ s k d db e db',
  insert_event_attempts n s k d db = (Ok e, db') →
  ev_session_id e = s ∧ ev_kind e = k ∧ ev_data e = d ∧ is_Some (sessions db !! s) ∧
  ∃ c, db' = set_clock (λ _, c) (set_events (λ l, l ++ [e]) db).
Proof.
  induction n as [|n IH]; intros s k d db e db'; cbn [insert_event_attempts]; [done|].
  unfold uuid, millis, tick, gets, modify, mbind, M_bind, mret, M_ret. simpl.
  destruct (existsb _ (events db)).
  - intros (? & ? & ? & ? & c & ->)%IH. eauto 10.
  - unfold constraint. simpl. destruct (sessions db !! s) as [ss|]; [|done]. intros [= <- <-]. simpl.
    split_and!; try done. by eexists.
Qed.

Lemma append_event_fresh s k d db :
  (∀ x, x ∈ events db → ev_id x ≠ new_uuid (clock db)) → is_Some (sessions db !! s) →
  ∃ e db', append_event s k d db = (Ok e, db').
Proof.
  intros Hid [ss Hss]. unfold append_event. cbn [insert_event_attempts APPEND_SEQ_MAX_ATTEMPTS].
  unfold uuid, millis, tick, gets, modify, mbind, M_bind, mret, M_ret. simpl.
  rewrite (proj2 (existsb_false _ _)); [unfold constraint; simpl; rewrite Hss; by do 2 eexists|].
  apply Forall_forall. intros x Hx. apply orb_false_iff. split.
  - apply bool_decide_eq_false. by apply Hid.
  - destruct (ev_session_id x == s) eqn:Es; [|done]. simpl. apply bool_decide_eq_false. intros Heq.
    pose proof (next_seq_gt s db) as HF. rewrite Forall_forall in HF.
    specialize (HF x). unfold next_seq, session_events in *. simpl in *. rewrite Heq in HF.
    apply (Z.lt_irrefl _ (HF ltac:(by apply list_elem_of_In, List.filter_In; split;
      [apply list_elem_of_In|]))).
Qed.

(** the log of a session is append-only and ordered.  An append to a
    session that exists succeeds whenever the generated id is new, one to a
    session that does not exist fails; it adds exactly its event at the end of
    that session's log, with a number above every earlier one, and leaves the
    other sessions' logs alone.  A failed append changes no log. *)
Theorem append_event_log db s k d :
  inv db →
  ((∀ x, x ∈ events db → ev_id x ≠ new_uuid (clock db)) →
    is_ok (append_event s k d db).1 = true ↔ is_Some (get_session s db)) ∧
  match append_event s k d db with
  | (Ok e, db') =>
    ev_kind e = k ∧ ev_data e = d ∧
    list_events_by_session s None db' = list_events_by_session s None db ++ [e] ∧
    Forall (λ x, ev_seq x < ev_seq e) (list_events_by_session s None db) ∧
    ∀ s', s' ≠ s → list_events_by_session s' None db' = list_events_by_session s' None db
  | (Err _, db') => events db' = events db
  end.
Proof.
  intros Hi. split.
  { intros Hid. split; [|intros Hs; by destruct (append_event_fresh s k d db Hid Hs) as (e & db' & ->)].
    destruct (append_event s k d db) as [[e|err] db'] eqn:E; [|done].
    by apply append_event_ok in E as (_ & _ & _ & ? & _). }
  pose proof (preserves (Preserves := append_event_inv s k d) db Hi) as Hi'.
  destruct (append_event s k d db) as [[e|err] db'] eqn:E; simpl in Hi'.
  - apply append_event_ok in E as (Hs & Hk & Hd & _ & c & ->).
    assert (∀ s', session_events s' (set_clock (λ _, c) (set_events (λ l, l ++ [e]) db)) =
      session_events s' db ++ (if ev_session_id e == s' then [e] else [])) as Hsnoc
      by (intros; apply (session_events_snoc _ db e)).
    pose proof (inv_seq _ Hi' s) as Hsort. rewrite Hsnoc, Hs, bool_decide_eq_true_2 in Hsort by done.
    split_and!; try done.
    + rewrite !list_events_session, Hsnoc by done. by rewrite Hs, bool_decide_eq_true_2.
    + rewrite list_events_session by done. by apply sorted_snoc_inv in Hsort.
    + intros s' Hs'. rewrite !list_events_session, Hsnoc by done.
      by rewrite bool_decide_eq_false_2, app_nil_r by congruence.
  - clear Hi'. revert E. unfold append_event. generalize APPEND_SEQ_MAX_ATTEMPTS as n.
    intros n. revert db Hi. induction n as [|n IH]; intros db Hi; cbn [insert_event_attempts].
    + by intros [= _ <-].
    + unfold uuid, millis, tick, gets, modify, mbind, M_bind, mret, M_ret. simpl.
      destruct (existsb _ (events db)).
      2:{ unfold constraint. simpl. destruct (sessions db !! s); [done|]. by intros [= _ <-]. }
      intros E.
      by apply (IH (set_clock S (set_clock S db))) in E; [|do 2 apply inv_clock].
Qed.

(** ** Retention *)

Lemma sorted_nodup l : StronglySorted (λ a b, ev_seq a < ev_seq b) l → NoDup (ev_seq <$> l).
Proof.
  induction 1 as [|x l Hl IH HF]; [constructor|]. rewrite fmap_cons. constructor; [|done].
  intros (y & Hy & Hin)%list_elem_of_fmap. rewrite Forall_forall in HF. specialize (HF y Hin). lia.
Qed.

Definition older_than (c e : Event) : bool :=
  (ev_ts e <? ev_ts c) || (ev_ts e =? ev_ts c) && (ev_seq e <? ev_seq c).

Lemma older_newest c e : older_than c e = negb (newest_first e c).
Proof.
  unfold older_than, newest_first.
  destruct (Z.ltb_spec (ev_ts e) (ev_ts c)), (Z.ltb_spec (ev_ts c) (ev_ts e)),
    (Z.eqb_spec (ev_ts e) (ev_ts c)), (Z.eqb_spec (ev_ts c) (ev_ts e)),
    (Z.ltb_spec (ev_seq e) (ev_seq c)), (Z.leb_spec (ev_seq c) (ev_seq e)); simpl; try done; lia.
Qed.

Lemma newest_total x y : newest_first x y = false → newest_first y x = true.
Proof. unfold newest_first. intros Hf. apply orb_false_iff in Hf as [? ?%andb_false_iff].
  apply orb_true_iff. rewrite andb_true_iff. lia. Qed.

Lemma newest_trans x y z : newest_first x y = true → newest_first y z = true → newest_first x z = true.
Proof. unfold newest_first. rewrite !orb_true_iff, !andb_true_iff. lia. Qed.

Lemma newest_refl x : newest_first x x = true.
Proof. unfold newest_first. apply orb_true_iff. rewrite andb_true_iff. lia. Qed.

(** In a list sorted newest first with distinct numbers, the events at least as
    new as the n-th are the first n. *)
Lemma filter_newest l n c :
  StronglySorted (λ x y, newest_first x y = true) l → NoDup (ev_seq <$> l) → l !! n = Some c →
  List.filter (λ e, newest_first e c) l = take (S n) l.
Proof.
  intros Hs HN Hc. revert n Hc. induction Hs as [|x l Hl IH HF]; intros n Hc; [done|].
  rewrite fmap_cons in HN. apply NoDup_cons in HN as [Hx HN]. cbn [List.filter take].
  destruct n as [|n]; simpl in Hc.
  - injection Hc as ->. rewrite newest_refl. f_equal.

    rewrite Forall_forall in HF. clear IH. induction l as [|y l IHl]; [done|]. cbn [List.filter].
    destruct (newest_first y c) eqn:E.
    + exfalso. apply Hx. specialize (HF y ltac:(set_solver)). rewrite fmap_cons.
      assert (ev_seq c = ev_seq y) as ->; [|set_solver].
      unfold newest_first in E, HF. rewrite orb_true_iff, andb_true_iff in E, HF. lia.
    + apply IHl; [by apply StronglySorted_inv in Hl as []|..].
      * rewrite fmap_cons in Hx. set_solver.
      * intros; apply HF; set_solver.
      * rewrite fmap_cons in HN. by apply NoDup_cons in HN as [].
  - rewrite (IH HN n Hc). assert (newest_first x c = true) as ->; [|done].
    rewrite Forall_forall in HF. by apply HF, list_elem_of_lookup_2 with n.
Qed.

(** Trimming a session's log keeps exactly its [max_count] newest events
    (by time, then number), or all of them when there are fewer, and touches
    no other session. *)
Theorem trim_keeps_newest db s n :
  inv db → 0 < n →
  let db' := (trim_events_to_count s n db).2 in
  session_events s db' ≡ₚ take (Z.to_nat n) (sort_by newest_first (session_events s db)) ∧
  ∀ s', s' ≠ s → session_events s' db' = session_events s' db.
Proof.
  intros Hi Hn. unfold trim_events_to_count, gets, mbind, M_bind.
  rewrite (proj2 (Z.leb_gt _ _)) by lia. cbn [fst snd].
  set (l := session_events s db) in *. set (srt := sort_by newest_first l).
  assert (srt ≡ₚ l) as Hp by apply sort_by_perm.
  destruct (srt !! Z.to_nat (n - 1)) as [c|] eqn:Hc; simpl.
  - unfold session_events. simpl. split.
    + rewrite filter_comm. fold (session_events s db). fold l.
      rewrite (List.filter_ext_in _ (λ e, newest_first e c)).
      2:{ intros e [_ He]%List.filter_In. apply bool_decide_eq_true in He.
          rewrite (bool_decide_eq_true_2 (ev_session_id e = s)) by done. cbn [andb].
          fold (older_than c e). by rewrite older_newest, negb_involutive. }
      assert (List.filter (λ e, newest_first e c) l ≡ₚ List.filter (λ e, newest_first e c) srt) as ->
        by (by rewrite filter_perm by (symmetry; exact Hp)).
      replace (Z.to_nat n) with (S (Z.to_nat (n - 1))) by lia. rewrite (filter_newest srt (Z.to_nat (n - 1)) c); [done|..|done].
      * apply sort_by_StronglySorted; [apply newest_total|apply newest_trans].
      * rewrite Hp. apply sorted_nodup, (inv_seq (D := True)), Hi.
    + intros s' Hs'. rewrite filter_comm. apply filter_true. apply Forall_forall.
      intros e [_ He]%list_elem_of_In%List.filter_In. apply bool_decide_eq_true in He.
      by rewrite bool_decide_eq_false_2 by congruence.
  - split; [|done]. rewrite take_ge; [by rewrite Hp|].
    apply lookup_ge_None in Hc. lia.
Qed.

(** ** The worker slot of a card is a lock *)

Inductive SlotOp :=
| Claim (session_id : string) (new_step : option string) (t : string)
| Release (session_id : string).

Definition op_session (op : SlotOp) : string := match op with Claim s _ _ | Release s => s end.

Definition exec_slot (card_id : string) (op : SlotOp) (db : Db) : bool * Db :=
  match op with
  | Claim s st t =>
    let '(r, db') := claim_card_for_worker card_id s st t db in
    (match r with Ok b => b | Err _ => false end, db')
  | Release s =>
    let '(r, db') := clear_card_worker_if_matches card_id s db in
    (match r with Ok (Some _) => true | _ => false end, db')
  end.

(** The specification: an owner, taken only when free and released only by the
    owner. *)
Definition lock_step (op : SlotOp) (owner : option string) : bool * option string :=
  match op, owner with
  | Claim s _ _, None => (true, Some s)
  | Claim _ _ _, Some o => (false, Some o)
  | Release s, Some o => if s == o then (true, None) else (false, Some o)
  | Release _, None => (false, None)
  end.

Fixpoint exec_slots (card_id : string) (ops : list SlotOp) (db : Db) : list bool * Db :=
  match ops with
  | [] => ([], db)
  | op :: ops' =>
    let '(b, db1) := exec_slot card_id op db in
    let '(bs, db2) := exec_slots card_id ops' db1 in
    (b :: bs, db2)
  end.

Fixpoint lock_steps (ops : list SlotOp) (owner : option string) : list bool * option string :=
  match ops with
  | [] => ([], owner)
  | op :: ops' =>
    let '(b, o1) := lock_step op owner in
    let '(bs, o2) := lock_steps ops' o1 in
    (b :: bs, o2)
  end.

Lemma exec_slot_lock card_id op db c :
  cards db !! card_id = Some c → is_Some (sessions db !! op_session op) →
  let '(b, db') := exec_slot card_id op db in
  let '(b', o) := lock_step op (c_worker_session_id c) in
  b = b' ∧ sessions db' = sessions db ∧
  ∃ c', cards db' !! card_id = Some c' ∧ c_worker_session_id c' = o.
Proof.
  intros Hc [ss Hss]. destruct op as [s st t|s]; cbn [exec_slot lock_step op_session] in *.
  - unfold claim_card_for_worker, constraint, gets, get_card, modify, mbind, M_bind, mret, M_ret.
    rewrite Hc. destruct (c_worker_session_id c) as [o|] eqn:Ho.
    + rewrite bool_decide_eq_false_2 by done. eauto.
    + rewrite bool_decide_eq_true_2 by done. rewrite Hss. split; [done|]. split; [done|]. eexists.
      cbn [cards set_cards]. rewrite lookup_insert_eq. split; [done|]. by destruct st.
  - unfold clear_card_worker_if_matches, constraint, now, tick, gets, get_card, modify, mbind, M_bind, mret, M_ret.
    cbn [cards set_clock]. rewrite Hc. destruct (c_worker_session_id c) as [o|] eqn:Ho.
    + case_bool_decide as Hs; case_bool_decide; try congruence; simpl.
      * rewrite Hss. simpl. split; [done|]. split; [done|]. eexists. by rewrite lookup_insert_eq.
      * eauto.
    + rewrite bool_decide_eq_false_2 by done. eauto.
Qed.

Lemma lock_steps_cons op ops o :
  (lock_steps (op :: ops) o).1 = (lock_step op o).1 :: (lock_steps ops (lock_step op o).2).1 ∧
  (lock_steps (op :: ops) o).2 = (lock_steps ops (lock_step op o).2).2.
Proof. cbn [lock_steps]. destruct (lock_step op o) as [b o1]. cbn [fst snd]. by destruct (lock_steps ops o1). Qed.

Lemma exec_slots_cons card_id op ops db :
  (exec_slots card_id (op :: ops) db).1 =
    (exec_slot card_id op db).1 :: (exec_slots card_id ops (exec_slot card_id op db).2).1 ∧
  (exec_slots card_id (op :: ops) db).2 = (exec_slots card_id ops (exec_slot card_id op db).2).2.
Proof. cbn [exec_slots]. destruct (exec_slot card_id op db) as [b d1]. cbn [fst snd]. by destruct (exec_slots card_id ops d1). Qed.

Lemma lock_held ops : ∀ s j s' st t,
  ops !! j = Some (Claim s' st t) → (lock_steps ops (Some s)).1 !! j = Some true →
  ∃ k, (k < j)%nat ∧ ops !! k = Some (Release s) ∧ (lock_steps ops (Some s)).1 !! k = Some true.
Proof.
  induction ops as [|op ops IH]; intros s j s' st t Hj Hr; [done|].
  rewrite (proj1 (lock_steps_cons _ _ _)) in Hr |- *. destruct op as [s1 st1 t1|s1]; cbn [lock_step fst snd] in *.
  - destruct j as [|j]; [done|]. destruct (IH s j s' st t Hj Hr) as (k & Hk & Hrel & Ht).
    exists (S k). split; [lia|done].
  - case_bool_decide as Hs; cbn [fst snd] in *; (destruct j as [|j]; [done|]).
    + subst. exists O. split; [lia|done].
    + destruct (IH s j s' st t Hj Hr) as (k & Hk & Hrel & Ht). exists (S k). split; [lia|done].
Qed.

Lemma exec_slots_lock card_id ops : ∀ db c,
  cards db !! card_id = Some c → Forall (λ op, is_Some (sessions db !! op_session op)) ops →
  (exec_slots card_id ops db).1 = (lock_steps ops (c_worker_session_id c)).1.
Proof.
  induction ops as [|op ops IH]; intros db c Hc HF; [done|]. apply Forall_cons in HF as [Hs HF].
  rewrite (proj1 (lock_steps_cons _ _ _)), (proj1 (exec_slots_cons _ _ _ _)).
  pose proof (exec_slot_lock card_id op db c Hc Hs) as Hop.
  destruct (exec_slot card_id op db) as [b db1].
  destruct (lock_step op (c_worker_session_id c)) as [b' o1]. destruct Hop as (-> & Hss & c1 & Hc1 & <-).
  cbn [fst snd]. f_equal. apply IH; [done|]. by rewrite Hss.
Qed.

Lemma lock_exclusive ops : ∀ o i j s st t s' st' t',
  (i < j)%nat → ops !! i = Some (Claim s st t) → (lock_steps ops o).1 !! i = Some true →
  ops !! j = Some (Claim s' st' t') → (lock_steps ops o).1 !! j = Some true →
  ∃ k, (i < k < j)%nat ∧ ops !! k = Some (Release s) ∧ (lock_steps ops o).1 !! k = Some true.
Proof.
  induction ops as [|op ops IH]; intros o i j s st t s' st' t' Hij Hi Hri Hj Hrj; [done|].
  rewrite (proj1 (lock_steps_cons _ _ _)) in Hri, Hrj |- *.
  destruct j as [|j]; [lia|]. cbn in Hj, Hrj. destruct i as [|i]; cbn in Hi, Hri.
  - injection Hi as ->. cbn [lock_step] in Hri, Hrj |- *. destruct o; [done|]. cbn [fst snd] in *.
    destruct (lock_held ops s j s' st' t' Hj Hrj) as (k & Hk & Hrel & Ht).
    exists (S k). split; [lia|done].
  - destruct (IH _ i j s st t s' st' t' ltac:(lia) Hi Hri Hj Hrj) as (k & Hk & Hrel & Ht).
    exists (S k). split; [lia|done].
Qed.

(** C24: claiming and releasing a card's worker slot behave as a lock, in any
    interleaving of existing sessions: every result is that of an owner cell taken only
    when free and released only by its owner, so between two successful claims
    the first claimant has successfully released. *)
Theorem worker_slot_lock card_id ops db c :
  cards db !! card_id = Some c → Forall (λ op, is_Some (sessions db !! op_session op)) ops →
  let results := (exec_slots card_id ops db).1 in
  results = (lock_steps ops (c_worker_session_id c)).1 ∧
  ∀ i j s st t s' st' t', (i < j)%nat →
    ops !! i = Some (Claim s st t) → results !! i = Some true →
    ops !! j = Some (Claim s' st' t') → results !! j = Some true →
    ∃ k, (i < k < j)%nat ∧ ops !! k = Some (Release s) ∧ results !! k = Some true.
Proof.
  intros Hc HF results. pose proof (exec_slots_lock card_id ops db c Hc HF) as Hr.
  split; [done|]. unfold results. rewrite Hr. apply lock_exclusive.
Qed.

(** ** The queue of a session is FIFO *)

Lemma list_queued_session s db :
  inv db → list_queued_messages s db = List.filter (λ q, q_session_id q == s) (queued db).
Proof.
  intros Hi. apply sort_by_sorted. apply sorted_filter. pose proof (inv_queue db Hi) as Hs.
  induction Hs as [|q l Hl IH HF]; constructor; [done|].
  eapply Forall_impl; [exact HF|]. simpl. intros. apply Z.leb_le. lia.
Qed.

(** a session's queued messages form a FIFO queue: a new message goes to
    the end, the next one delivered is the oldest, removing a message removes
    that one only, and dropping the backlog empties it; no operation on one
    session touches another's queue. *)
Theorem queue_fifo db s :
  inv db →
  next_queued_message s db = head (list_queued_messages s db) ∧
  (∀ new, nq_session_id new = s →
    ∃ q, (enqueue_message new db).1 = Ok q ∧ q_text q = nq_text new ∧
      list_queued_messages s (enqueue_message new db).2 = list_queued_messages s db ++ [q]) ∧
  (∀ i, list_queued_messages s (delete_queued_message_by_id s i db).2 =
    List.filter (λ q, negb (q_id q =? i)) (list_queued_messages s db)) ∧
  list_queued_messages s (clear_queued_messages s db).2 = [] ∧
  (∀ s', s' ≠ s →
    (∀ new, nq_session_id new = s →
      list_queued_messages s' (enqueue_message new db).2 = list_queued_messages s' db) ∧
    (∀ i, list_queued_messages s' (delete_queued_message_by_id s i db).2 = list_queued_messages s' db) ∧
    list_queued_messages s' (clear_queued_messages s db).2 = list_queued_messages s' db).
Proof.
  intros Hi. split; [done|].
  pose proof (λ new, preserves (Preserves := enqueue_inv new) db Hi) as Henq.
  pose proof (λ i, preserves (Preserves := delete_queued_inv s i) db Hi) as Hdel.
  pose proof (preserves (Preserves := clear_queued_inv s) db Hi) as Hclr.
  split_and!.
  - intros new Hs. eexists. split; [done|]. split; [done|].
    rewrite !list_queued_session by done. simpl. rewrite List.filter_app. simpl.
    by rewrite bool_decide_eq_true_2.
  - intros i. rewrite !list_queued_session by done. simpl. rewrite !filter_filter.
    apply List.filter_ext. intros q. unfold is_message.
    by destruct (q_session_id q == s), (q_id q =? i).
  - rewrite list_queued_session by done. simpl. rewrite filter_filter.
    induction (queued db) as [|q l IH]; simpl; [done|]. by destruct (q_session_id q == s).
  - intros s' Hs'. split_and!.
    + intros new Hs. rewrite !list_queued_session by done. simpl. rewrite List.filter_app. simpl.
      by rewrite bool_decide_eq_false_2, app_nil_r by congruence.
    + intros i. rewrite !list_queued_session by done. simpl. rewrite filter_filter.
      apply List.filter_ext. intros q. unfold is_message.
      destruct (q_session_id q == s') eqn:E; [|done]. apply bool_decide_eq_true in E.
      by rewrite bool_decide_eq_false_2 by congruence.
    + rewrite !list_queued_session by done. simpl. rewrite filter_filter.
      apply List.filter_ext. intros q. destruct (q_session_id q == s') eqn:E; [|done].
      apply bool_decide_eq_true in E. by rewrite bool_decide_eq_false_2 by congruence.
Qed.

(** ** Todos *)

Lemma status_token_from s : Todo.TodoStatus_from_provider (status_token s) = s.
Proof. by destruct s. Qed.

Lemma todo_rows_sorted s t snap :
  StronglySorted (λ a b, (t_position a <=? t_position b) = true) (todo_rows s t snap).
Proof.
  unfold todo_rows. assert (∀ k, StronglySorted (λ a b, (t_position a <=? t_position b) = true)
    (imap (λ idx i, mkTodoRow s (Z.of_nat (k + idx)) (Todo.content i) (status_token (Todo.status i))
      (Todo.active_form i) t) snap)) as Hk; [|apply (Hk O)].
  induction snap as [|i snap IH]; intros k; simpl; constructor.
  - eapply eq_ind; [apply (IH (S k))|]. apply imap_ext. intros. simpl. f_equal. lia.
  - apply Forall_forall. intros r (n & y & -> & _)%elem_of_lookup_imap. apply Z.leb_le. cbn. lia.
Qed.

Lemma todo_rows_items s t snap : row_to_item <$> todo_rows s t snap = snap.
Proof.
  unfold todo_rows. rewrite fmap_imap. etrans; [|apply list_fmap_id].
  etrans; [|apply (imap_const id)]. apply imap_ext. intros n i _. unfold row_to_item. simpl.
  rewrite status_token_from. by destruct i.
Qed.

(** Writing a session's todo snapshot and reading it back gives the same
    items in the same order, and leaves the other sessions' todos alone. *)
Theorem todos_roundtrip db s snap :
  let db' := (replace_session_todos s snap db).2 in
  list_session_todos s db' = snap ∧
  ∀ s', s' ≠ s → list_session_todos s' db' = list_session_todos s' db.
Proof.
  unfold replace_session_todos, now, tick, modify, mbind, M_bind, mret, M_ret, list_session_todos. simpl.
  set (t := rfc3339 (clock db)).
  assert (∀ s', List.filter (λ r, t_session_id r == s') (todo_rows s t snap) =
    if s == s' then todo_rows s t snap else []) as Hrows.
  { intros s'. case_bool_decide as Hs.
    - subst. apply filter_true, Forall_forall.
      intros r (n & y & -> & _)%elem_of_lookup_imap. by apply bool_decide_eq_true.
    - apply filter_false, Forall_forall.
      intros r (n & y & -> & _)%elem_of_lookup_imap. by apply bool_decide_eq_false. }
  split.
  - rewrite List.filter_app, filter_filter, Hrows, bool_decide_eq_true_2 by done.
    rewrite filter_false; [|apply Forall_forall; intros r _; by destruct (t_session_id r == s)].
    simpl. rewrite sort_by_sorted by apply todo_rows_sorted. apply todo_rows_items.
  - intros s' Hs'. rewrite List.filter_app, filter_filter, Hrows, bool_decide_eq_false_2, app_nil_r by done.
    do 2 f_equal. apply List.filter_ext. intros r. destruct (t_session_id r == s') eqn:E; [|done].
    apply bool_decide_eq_true in E. by rewrite bool_decide_eq_false_2 by congruence.
Qed.
End uses.

(** ** Witnesses *)

#[export] Instance ex_world : World := {|
  rfc3339 n := to_dec (N.of_nat n);
  now_millis n := Z.of_nat n;
  new_uuid n := to_dec (N.of_nat n);
|}.

Definition ex_new_card : NewCard :=
  mkNewCard "c1" "p1" "Ship it" "" "backlog" 3 "task" None None false None "0" "0" None.
Definition ex_db : Db :=
  let db := (create_project "p1" "Launch" "task" empty_db).2 in
  let db := (create_card ex_new_card db).2 in
  let db := (create_session "s1" true (Some "p1") (Some "c1") None None db).2 in
  let db := (create_session "s2" true (Some "p1") (Some "c1") None None db).2 in
  (append_event "s1" "user" "{}" db).2.

Lemma ex_db_inv : inv ex_db.
Proof.
  apply (preserves (Preserves := append_event_inv _ _ _)).
  do 2 apply (preserves (Preserves := create_session_inv _ _ _ _ _ _)).
  apply (create_card_inv ex_new_card); [done|].
  apply (preserves (Preserves := create_project_inv _ _ _)), empty_inv.
Qed.

Lemma append_event_log_witness :
  ev_seq <$> list_events_by_session "s1" None (append_event "s1" "todo" "{}" ex_db).2 = [1; 2] ∧
  is_ok (append_event "s1" "todo" "{}" ex_db).1 = true.
Proof.
  split; [reflexivity|].
  refine (proj2 (proj1 (append_event_log ex_db "s1" "todo" "{}" ex_db_inv) _) _).
  - intros x ->%list_elem_of_singleton. discriminate.
  - by eexists.
Defined.

Lemma trim_keeps_newest_witness :
  session_events "s1" (trim_events_to_count "s1" 1 ex_db).2 ≡ₚ
    take 1 (sort_by newest_first (session_events "s1" ex_db)).
Proof. apply (trim_keeps_newest ex_db "s1" 1 ex_db_inv). lia. Defined.

Lemma worker_slot_lock_witness :
  (exec_slots "c1" [Claim "s1" None "1"; Claim "s2" None "2"; Release "s2"; Release "s1"; Claim "s2" None "3"] ex_db).1
  = [true; false; false; true; true].
Proof.
  etrans; [|exact (eq_refl : (lock_steps
    [Claim "s1" None "1"; Claim "s2" None "2"; Release "s2"; Release "s1"; Claim "s2" None "3"] None).1 = _)].
  apply (worker_slot_lock "c1" _ ex_db (new_card_row ex_new_card)); [reflexivity|].
  repeat constructor; by eexists.
Defined.

Lemma queue_fifo_witness :
  next_queued_message "s1" ex_db = head (list_queued_messages "s1" ex_db).
Proof. apply (proj1 (queue_fifo ex_db "s1" ex_db_inv)). Defined.

(** The two writes that bypass the completion stamp: a claim that moves a card
    the user has just finished, and a card created on the step done. *)
Theorem claim_skips_stamp :
  let db := (update_card "c1" (UpdateCard_default |> set_step "done") ex_db).2 in
  let db' := (claim_card_for_worker "c1" "s1" (Some "in_progress") "9" db).2 in
  c_step <$> get_card "c1" db' = Some "in_progress" ∧
  is_Some (get_card "c1" db' ≫= c_completed_at).
Proof. split; [vm_compute; reflexivity|]. vm_compute. by eexists. Qed.

Theorem created_done_unstamped :
  let new := mkNewCard "c2" "p1" "Old work" "" "done" 3 "task" None None false None "0" "0" None in
  let db' := (create_card new ex_db).2 in
  c_step <$> get_card "c2" db' = Some "done" ∧ (get_card "c2" db' ≫= c_completed_at) = None.
Proof. split; vm_compute; reflexivity. Qed.
End StoreProps.
