(* ===== verification/Board.v ===== *)
(** * The life of a card

    Models the worker tools of src/service/mcp_server/handlers/cards.rs
    (complete_step, finish_card, wont_do_card), the completion handler
    [handle_worker_done] of src/worker/orchestrator.rs and the question blocks
    of src/service/questions.rs, on the database of [Store].  What they send
    elsewhere (broadcasts, plugin hooks, the git worktree, the worker process,
    tool tokens) is the list of effects they return. *)

From S2P Require Import Prelude RustStr Json Workflow Pipeline Todo Store StoreProps.
From Stdlib Require Import Ascii.

Module Board.
Import Store.

(** [FinalizeWorktree] merges the card's worktree when the session's folder is
    still registered. *)
Inductive Effect :=
| BroadcastCard (card_id : string)
| BroadcastSession (session_id : string)
| BroadcastTodosCleared (session_id : string)
| StepHook (card_id from to : string)
| FinalizeWorktree (card_id session_id : string)
| ShutdownAfterTurn (session_id : string)
| WorkerBlockedHook (card_id reason : string)
| ExpensiveModelReport (session_id card_id : string)
| DeleteMcpConfig (session_id : string)
| RevokeTokens (session_id : string).

(** The fields of [ToolCallContext] the card tools read. *)
Record ToolCallContext := mkCtx {
  ctx_session_id : string;
  ctx_card_id : option string;
}.

(** The tool's reply: where the card was and is, and the review verdict. *)
Record Reply := mkReply {
  rep_from : string;
  rep_to : string;
  rep_verdict : option string;
  rep_effects : list Effect;
}.

(** [match m.await]: run [m] and look at its result, failed or not. *)
Definition attempt {A} (m : M A) : M (Result string A) := λ db, (Ok (m db).1, (m db).2).
#[export] Hint Opaque attempt : typeclass_instances.

(** ** SQLite's LIKE on a [%..%] pattern: a substring, ASCII case folded *)

Definition lower (c : ascii) : ascii :=
  let n := N_of_ascii c in if ((65 <=? n) && (n <=? 90))%N then ascii_of_N (n + 32) else c.

Fixpoint lowercase (s : string) : string :=
  match s with EmptyString => EmptyString | String c s' => String (lower c) (lowercase s') end.

Fixpoint contains (pat s : string) : bool :=
  String.prefix pat s || match s with EmptyString => false | String _ s' => contains pat s' end.

(** [replace(['%', '_'], "")] *)
Fixpoint strip_wildcards (s : string) : string :=
  match s with
  | EmptyString => EmptyString
  | String c s' =>
    if (c == "%"%char) || (c == "_"%char) then strip_wildcards s' else String c (strip_wildcards s')
  end.

Section board.
Context `{World} `{JsonApi} (custom : list Workflow.WorkflowDef).

Definition append_step_change (session_id card_id from to : string) : M unit :=
  append_event session_id "step-change"
    (json_object [("from", Some from); ("to", Some to); ("cardId", Some card_id)]);;
  mret tt.

Definition card_review_enabled (card_id : string) (db : Db) : bool :=
  match get_card card_id db with
  | Some card =>
    match get_project (c_project_id card) db with
    | Some project => p_review_enabled project
    | None => true
    end
  | None => true
  end.

(** [clear_session_todos] *)
Definition clear_session_todos (session_id : string) : M (list Effect) :=
  existing ← gets (list_session_todos session_id);
  match existing with
  | [] => mret []
  | _ =>
    replace_session_todos session_id [];;
    e ← attempt (append_event session_id "todo" (json_empty_array "todos"));
    mret (if is_ok e then [BroadcastTodosCleared session_id] else [])
  end.

(** ** The worker tools *)

Definition is_terminal (step : string) : bool := (step == "done") || (step == "wont_do").

(** The closure of [handle_complete_step]. *)
Definition complete_step_update (review_enabled : bool) (session_id : string)
    (handoff : option string) (t : string) (card : Card) : Result string UpdateCard :=
  if is_terminal (c_step card) then
    Err ("complete-step-policy: card already terminal (" +:+ c_step card +:+ ")")
  else
    let workflow_steps := Workflow.steps_for_card custom (c_workflow card) (c_step card) review_enabled in
    new_step ← match Pipeline.resolve_next_step (c_step card) workflow_steps with
      | Pipeline.Advance next => Ok next
      | Pipeline.Terminal => Ok "done"
      | Pipeline.UnknownStep =>
        Err ("complete-step-policy: step '" +:+ c_step card +:+ "' is not part of workflow '" +:+
             c_workflow card +:+ "' — the workflow was edited underneath this card; move it to a valid step before completing")
      end;
    Ok (UpdateCard_default |> set_step new_step |> set_handoff_context handoff
        |> set_worker_session_id None |> set_last_worker_session_id (Some session_id)
        |> set_updated_at t).

Definition handle_complete_step (ctx : ToolCallContext) (handoff : option string) : M Reply :=
  card_id ← of_result (ok_or "complete_step requires card context" (ctx_card_id ctx));
  let sid := ctx_session_id ctx in
  append_event sid "complete-step-requested"
    (json_object [("cardId", Some card_id); ("handoffContext", handoff)]);;
  review_enabled ← gets (card_review_enabled card_id);
  (* the closure records the step it saw *)
  prev_step ← gets (λ db, default "" (c_step <$> get_card card_id db));
  updated ← update_card_atomic card_id (complete_step_update review_enabled sid handoff);
  card ← of_result (ok_or ("card not found: " +:+ card_id) updated);
  let outcome := if c_step card == "done" then "finished" else "advanced" in
  close_card_run card_id sid outcome handoff;;
  append_step_change sid card_id prev_step (c_step card);;
  effects ← (if is_terminal (c_step card) then
               e ← clear_session_todos sid;
               mret (e ++ [FinalizeWorktree card_id sid])
             else mret []);
  mret (mkReply prev_step (c_step card) None
    ([StepHook card_id prev_step (c_step card); BroadcastCard card_id] ++ effects ++
     [ShutdownAfterTurn sid])).

Definition parse_verdict (verdict : option string) : Result string (option string) :=
  match trim <$> verdict with
  | None => Ok None
  | Some v =>
    if v == "" then Ok None
    else if (v == "pass") || (v == "changes_requested") then Ok (Some v)
    else Err ("invalid verdict `" +:+ v +:+ "` — use `pass` or `changes_requested` (or omit it)")
  end.

Definition count_gap_cards_since (project_id origin_card_id since : string) (db : Db) : nat :=
  let pattern := lowercase (strip_wildcards origin_card_id) in
  length (filter (λ kc : string * Card,
    c_project_id kc.2 = project_id ∧ c_id kc.2 ≠ origin_card_id ∧
    String.leb since (c_created_at kc.2) = true ∧
    contains pattern (lowercase (c_description kc.2)) = true) (map_to_list (cards db))).

(** The verdict [finish_card] records: the reviewer's, or one derived from the
    gap cards the review filed; none outside the review step. *)
Definition review_verdict (card_id session_id : string) (explicit_verdict : option string) (db : Db) :
    option string :=
  match get_card card_id db with
  | Some c =>
    if c_step c == Workflow.REVIEW_STEP then
      match explicit_verdict with
      | Some v => Some v
      | None =>
        let gaps := match latest_card_run card_id session_id db with
          | Some run => count_gap_cards_since (c_project_id c) card_id (r_started_at run) db
          | None => O
          end in
        Some (if (0 <? gaps)%nat then "changes_requested" else "pass")
      end
    else None
  | None => None
  end.

Definition some_nonempty (s : string) : option string := if s == "" then None else Some s.

(** The closure of [handle_finish_card]. *)
Definition finish_update (review_enabled : bool) (session_id summary : string)
    (verdict : option string) (t : string) (card : Card) : Result string UpdateCard :=
  if c_step card == "wont_do" then Err "finish-card-policy: card is wont_do, cannot finish"
  else
    let steps := Workflow.steps_for_card custom (c_workflow card) (c_step card) review_enabled in
    let target := Workflow.finish_target (c_step card) steps in
    let review := if c_step card == Workflow.REVIEW_STEP then verdict else None in
    let u := UpdateCard_default |> set_step target |> set_handoff_context (some_nonempty summary)
        |> set_worker_session_id None |> set_last_worker_session_id (Some session_id)
        |> set_updated_at t in
    Ok match review with
       | Some v => u |> set_review_summary (some_nonempty summary) |> set_review_verdict (Some v)
                     |> set_reviewed_at (Some t)
       | None => u
       end.

Definition finish_outcome (prev_step : string) (verdict : option string) : string :=
  if prev_step == Workflow.REVIEW_STEP then
    if verdict == Some "changes_requested" then "changes_requested" else "reviewed"
  else "finished".

Definition handle_finish_card (ctx : ToolCallContext) (summary_arg verdict_arg : option string) : M Reply :=
  card_id ← of_result (ok_or "finish_card requires card context" (ctx_card_id ctx));
  let sid := ctx_session_id ctx in
  let summary := default "" summary_arg in
  explicit_verdict ← of_result (parse_verdict verdict_arg);
  append_event sid "finish-requested"
    (json_object [("cardId", Some card_id); ("summary", Some summary)]);;
  verdict ← gets (review_verdict card_id sid explicit_verdict);
  review_enabled ← gets (card_review_enabled card_id);
  prev_step ← gets (λ db, default "" (c_step <$> get_card card_id db));
  updated ← update_card_atomic card_id (finish_update review_enabled sid summary verdict);
  card ← of_result (ok_or ("card not found: " +:+ card_id) updated);
  (* the closure's target, which the update has just stored *)
  let target := c_step card in
  append_step_change sid card_id prev_step target;;
  close_card_run card_id sid (finish_outcome prev_step verdict) (Some summary);;
  sealed ← (if prev_step == Workflow.REVIEW_STEP then
              o ← seal_session sid (Some "reviewed");
              mret match o with Sealed _ => [BroadcastSession sid] | _ => [] end
            else mret []);
  cleared ← clear_session_todos sid;
  let merged := if target == "done" then [FinalizeWorktree card_id sid] else [] in
  mret (mkReply prev_step target (if target == Workflow.REVIEW_STEP then None else verdict)
    (sealed ++ [StepHook card_id prev_step target; BroadcastCard card_id] ++ cleared ++ merged ++
     [ShutdownAfterTurn sid])).

(** The closure of [handle_wont_do_card]. *)
Definition wont_do_update (session_id reason t : string) (card : Card) : Result string UpdateCard :=
  if c_step card == "done" then Err "wont-do-card-policy: card is already done, cannot mark wont_do"
  else Ok (UpdateCard_default |> set_step "wont_do" |> set_block_reason (Some reason)
           |> set_worker_session_id None |> set_last_worker_session_id (Some session_id)
           |> set_updated_at t).

Definition handle_wont_do_card (ctx : ToolCallContext) (reason_arg : option string) : M Reply :=
  card_id ← of_result (ok_or "wont_do_card requires card context" (ctx_card_id ctx));
  let sid := ctx_session_id ctx in
  let reason := default "no reason given" reason_arg in
  append_event sid "wont-do-requested"
    (json_object [("cardId", Some card_id); ("reason", Some reason)]);;
  prev_step ← gets (λ db, default "" (c_step <$> get_card card_id db));
  updated ← update_card_atomic card_id (wont_do_update sid reason);
  _ ← of_result (ok_or ("card not found: " +:+ card_id) updated);
  append_step_change sid card_id prev_step "wont_do";;
  close_card_run card_id sid "wont_do" (Some reason);;
  cleared ← clear_session_todos sid;
  mret (mkReply prev_step "wont_do" None
    ([StepHook card_id prev_step "wont_do"; BroadcastCard card_id] ++ cleared ++
     [FinalizeWorktree card_id sid; ShutdownAfterTurn sid])).

(** ** Questions *)

Definition ASK_USER_BLOCK_REASON : string := "Waiting for your answer to the worker's question".

(** The question id a [question-resolved] event names, in either spelling. *)
Definition resolved_question (e : Event) : option string :=
  match json_from_str (ev_data e) with
  | None => None
  | Some d =>
    match json_get d "question_id" with
    | Some v => json_as_str v
    | None => get_str d "questionId"
    end
  end.

Definition pending_questions (evs : list Event) : list Event :=
  let resolved := omap resolved_question (List.filter (λ e, ev_kind e == "question-resolved") evs) in
  List.filter (λ e, (ev_kind e == "question") && negb (existsb (λ q, q == ev_id e) resolved)) evs.

Definition pending_question_events (session_id : string) (db : Db) : list Event :=
  pending_questions (list_events_by_session session_id None db).

Definition session_has_pending_question (session_id : string) (db : Db) : bool :=
  match pending_question_events session_id db with [] => false | _ => true end.

Definition block_card_for_question (card_id : string) : M (list Effect) :=
  card ← gets (get_card card_id);
  match card with
  | None => mret []
  | Some card =>
    if c_blocked card then mret []
    else
      t ← now;
      updated ← attempt (update_card card_id (UpdateCard_default |> set_blocked true
        |> set_block_reason (Some ASK_USER_BLOCK_REASON) |> set_updated_at t));
      mret match updated with Ok (Some _) => [BroadcastCard card_id] | _ => [] end
  end.

Definition clear_question_block (session_id : string) : M (list Effect) :=
  session ← gets (get_session session_id);
  match session ≫= s_card_id with
  | None => mret []
  | Some card_id =>
    card ← gets (get_card card_id);
    match card with
    | None => mret []
    | Some card =>
      if negb (c_blocked card) || (c_block_reason card != Some ASK_USER_BLOCK_REASON) then mret []
      else
        waiting ← gets (session_has_pending_question session_id);
        if (waiting : bool) then mret []
        else
          t ← now;
          updated ← attempt (update_card card_id (UpdateCard_default |> set_blocked false
            |> set_block_reason None |> set_updated_at t));
          mret match updated with Ok (Some _) => [BroadcastCard card_id] | _ => [] end
    end
  end.

(** ** The completion handler *)

(** The arms of [handle_worker_done]: a completed step. *)
Definition done_complete_step (review_enabled : bool) (session_id card_id : string) (card : Card)
    (handoff : option string) (t : string) : M (list Effect) :=
  let workflow_steps := Workflow.steps_for_card custom (c_workflow card) (c_step card) review_enabled in
  match Pipeline.find_next_step (c_step card) workflow_steps with
  | Some next_step =>
    attempt (update_card card_id (UpdateCard_default |> set_step next_step |> set_handoff_context handoff
      |> set_worker_session_id None |> set_updated_at t));;
    attempt (append_step_change session_id card_id (c_step card) next_step);;
    close_card_run card_id session_id "advanced" handoff;;
    mret []
  | None =>
    if negb (existsb (λ s, s == c_step card) workflow_steps) then mret []
    else
      attempt (update_card card_id (UpdateCard_default |> set_step "done" |> set_handoff_context handoff
        |> set_worker_session_id None |> set_updated_at t));;
      cleared ← clear_session_todos session_id;
      close_card_run card_id session_id "finished" handoff;;
      mret cleared
  end.

(** A finished card. *)
Definition done_finish (review_enabled : bool) (session_id card_id : string) (card : Card)
    (summary : option string) (t : string) : M (list Effect) :=
  let target := Workflow.finish_target (c_step card)
    (Workflow.steps_for_card custom (c_workflow card) (c_step card) review_enabled) in
  let outcome := if c_step card == Workflow.REVIEW_STEP then "reviewed" else "finished" in
  close_card_run card_id session_id outcome summary;;
  (if c_step card == Workflow.REVIEW_STEP
   then seal_session session_id (Some "reviewed");; mret tt else mret tt);;
  attempt (update_card card_id (UpdateCard_default |> set_step target
    |> set_handoff_context (match summary with Some s => Some s | None => Some "" end)
    |> set_worker_session_id None |> set_last_worker_session_id (Some session_id)
    |> set_updated_at t));;
  clear_session_todos session_id.

Definition done_wont_do (session_id card_id reason t : string) : M (list Effect) :=
  attempt (update_card card_id (UpdateCard_default |> set_step "wont_do" |> set_block_reason (Some reason)
    |> set_worker_session_id None |> set_updated_at t));;
  close_card_run card_id session_id "wont_do" (Some reason);;
  clear_session_todos session_id.

Definition no_progress_reason (title : string) (count : Z) : string :=
  "Worker for " +:+ Workflow.dq +:+ title +:+ Workflow.dq +:+ " ended " +:+
  to_dec (Z.to_N count) +:+ " turns in a row without advancing the card (no complete_step/finish_card/wont_do_card call).".

(** A turn that ended without asking for anything. *)
Definition done_continue (session_id card_id : string) (card : Card) (t : string) : M (list Effect) :=
  attempt (update_card card_id (UpdateCard_default |> set_worker_session_id None
    |> set_last_worker_session_id (Some session_id) |> set_updated_at t));;
  close_card_run card_id session_id "stopped" None;;
  attempt (append_event session_id Pipeline.NO_PROGRESS_KIND
    (json_object [("cardId", Some card_id); ("step", Some (c_step card))]));;
  count ← gets (λ db, Pipeline.count_consecutive_no_progress (card_lifecycle_events card_id 256 db));
  if Pipeline.BLOCK_AFTER_NO_PROGRESS <=? count then
    let reason := no_progress_reason (c_title card) count in
    attempt (update_card card_id (UpdateCard_default |> set_blocked true |> set_block_reason (Some reason)
      |> set_updated_at t));;
    mret [WorkerBlockedHook card_id reason]
  else mret [].

(** The intent read off the log; a question already answered is not pending. *)
Definition worker_intent (session_id : string) (db : Db) : option Scheduler.WorkerIntent :=
  match Scheduler.derive_worker_intent (list_events_by_session session_id None db) with
  | Some (Scheduler.AskUser q) =>
    if session_has_pending_question session_id db then Some (Scheduler.AskUser q)
    else Some Scheduler.Continue
  | i => i
  end.

(** The [match intent]; [has_running] is [background.has_running_for_session]. *)
Definition act_on (intent : option Scheduler.WorkerIntent) (has_running review_enabled : bool)
    (session_id card_id : string) (card : Card) (t : string) : M (list Effect) :=
  match intent with
  | Some (Scheduler.CompleteStep handoff) =>
    done_complete_step review_enabled session_id card_id card handoff t
  | Some (Scheduler.Finish summary) => done_finish review_enabled session_id card_id card summary t
  | Some (Scheduler.WontDo reason) => done_wont_do session_id card_id reason t
  | Some (Scheduler.AskUser _) => block_card_for_question card_id
  | Some Scheduler.Continue | None =>
    if has_running then mret [] else done_continue session_id card_id card t
  end.

Definition project_review_enabled (project_id : string) (db : Db) : bool :=
  match get_project project_id db with Some p => p_review_enabled p | None => true end.

Definition handle_worker_done (session_id : string) (has_running : bool) : M (list Effect) :=
  let cleanup := [DeleteMcpConfig session_id; RevokeTokens session_id] in
  session ← gets (get_session session_id);
  match session with
  | None => mret []
  | Some session =>
    match s_card_id session with
    | None => mret []
    | Some card_id =>
      card ← gets (get_card card_id);
      match card with
      | None => mret []
      | Some card =>
        match s_project_id session with
        | None => mret []
        | Some project_id =>
          if c_worker_session_id card != Some session_id then mret cleanup
          else
            intent ← gets (worker_intent session_id);
            t ← now;
            review_enabled ← gets (project_review_enabled project_id);
            effects ← act_on intent has_running review_enabled session_id card_id card t;
            mret (effects ++ [BroadcastCard card_id; ExpensiveModelReport session_id card_id] ++ cleanup)
        end
      end
    end
  end.
End board.
End Board.
