(* ===== verification/BoardProps.v ===== *)
(** * Properties of the card's life

    The worker tools and the completion handler keep the database invariant,
    move a card only where its workflow says, act on a worker's request once,
    and stop a worker that makes no progress. *)

From S2P Require Import Prelude RustStr Json Workflow Pipeline Todo Store StoreProps Board.

Module BoardProps.
Import Store StoreProps Board.

Section props.
Context `{World} `{JsonApi} (custom : list Workflow.WorkflowDef).

(** ** The invariant *)

Section invariant.
Context {D : Prop}.

#[export] Instance attempt_inv {A} (m : M A) : Preserves (inv_if D) m → Preserves (inv_if D) (attempt m).
Proof. intros Hm db Hdb. by apply Hm. Qed.

#[export] Instance append_step_change_inv s c f t : Preserves (inv_if D) (append_step_change s c f t).
Proof. unfold append_step_change. apply _. Qed.

#[export] Instance clear_session_todos_inv s : Preserves (inv_if D) (clear_session_todos s).
Proof.
  unfold clear_session_todos. apply preserves_bind; [apply _|]. intros [|i l]; apply _.
Qed.

Lemma complete_step_update_completed r s h t c u :
  complete_step_update custom r s h t c = Ok u → u_completed_at u = None.
Proof.
  unfold complete_step_update. repeat case_match; simpl; intros [= <-]; done.
Qed.

Lemma finish_update_completed r s sm v t c u :
  finish_update custom r s sm v t c = Ok u → u_completed_at u = None.
Proof.
  unfold finish_update. case_bool_decide; [done|]. case_bool_decide; [destruct v|]; by intros [= <-].
Qed.

Lemma wont_do_update_completed s r t c u : wont_do_update s r t c = Ok u → u_completed_at u = None.
Proof. unfold wont_do_update. case_bool_decide; [done|]. by intros [= <-]. Qed.

#[local] Hint Resolve complete_step_update_completed finish_update_completed
  wont_do_update_completed : core.

#[export] Instance handle_complete_step_inv ctx h : Preserves (inv_if D) (handle_complete_step custom ctx h).
Proof. unfold handle_complete_step. preserve. apply update_card_atomic_inv; eauto. Qed.

#[export] Instance handle_finish_card_inv ctx sm v : Preserves (inv_if D) (handle_finish_card custom ctx sm v).
Proof. unfold handle_finish_card. preserve. apply update_card_atomic_inv; eauto. Qed.

#[export] Instance handle_wont_do_inv ctx r : Preserves (inv_if D) (handle_wont_do_card ctx r).
Proof. unfold handle_wont_do_card. preserve. apply update_card_atomic_inv; eauto. Qed.

#[local] Hint Extern 1 (Preserves _ (update_card _ _)) =>
  apply update_card_inv; intros _; reflexivity : typeclass_instances.

#[export] Instance block_card_inv c : Preserves (inv_if D) (block_card_for_question c).
Proof. unfold block_card_for_question. preserve. Qed.

#[export] Instance clear_question_block_inv s : Preserves (inv_if D) (clear_question_block s).
Proof. unfold clear_question_block. preserve. Qed.

#[export] Instance done_complete_step_inv r s c card h t :
  Preserves (inv_if D) (done_complete_step custom r s c card h t).
Proof. unfold done_complete_step. preserve. Qed.

#[export] Instance done_finish_inv r s c card sm t : Preserves (inv_if D) (done_finish custom r s c card sm t).
Proof. unfold done_finish. preserve. Qed.

#[export] Instance done_wont_do_inv s c r t : Preserves (inv_if D) (done_wont_do s c r t).
Proof. unfold done_wont_do. apply _. Qed.

#[export] Instance done_continue_inv s c card t : Preserves (inv_if D) (done_continue s c card t).
Proof. unfold done_continue. preserve. Qed.

#[export] Instance handle_worker_done_inv s b : Preserves (inv_if D) (handle_worker_done custom s b).
Proof. unfold handle_worker_done, act_on. preserve. Qed.

End invariant.



(** ** Running an operation *)

Lemma bind_Ok {A B} (m : M A) (k : A → M B) db b db'' :
  (m ≫= k) db = (Ok b, db'') → ∃ a db', m db = (Ok a, db') ∧ k a db' = (Ok b, db'').
Proof.
  unfold mbind, M_bind. destruct (m db) as [[a|e] db']; [|done]. eauto.
Qed.

(** Operations that leave the cards alone and append only events of kind [k]
    (none, when [k] is [None]). *)
Definition keeps (k : option string) (db db' : Db) : Prop :=
  cards db' = cards db ∧
  ∃ l, events db' = events db ++ l ∧ Forall (λ e, Some (ev_kind e) = k) l.

Lemma keeps_same k db db' : cards db' = cards db → events db' = events db → keeps k db db'.
Proof. intros Hc He. split; [done|]. exists []. by rewrite app_nil_r. Qed.

Lemma keeps_refl k db : keeps k db db.
Proof. by apply keeps_same. Qed.

Lemma keeps_trans k db1 db2 db3 : keeps k db1 db2 → keeps k db2 db3 → keeps k db1 db3.
Proof.
  intros [Hc1 (l1 & He1 & HF1)] [Hc2 (l2 & He2 & HF2)]. split; [congruence|].
  exists (l1 ++ l2). rewrite He2, He1, app_assoc. split; [done|]. by apply Forall_app.
Qed.

Lemma append_event_keeps s k d db : keeps (Some k) db (append_event s k d db).2.
Proof.
  unfold append_event. generalize APPEND_SEQ_MAX_ATTEMPTS as n. intros n. revert db.
  induction n as [|n IH]; intros db; cbn [insert_event_attempts]; [apply keeps_refl|].
  unfold uuid, millis, tick, gets, modify, mbind, M_bind, mret, M_ret. simpl.
  destruct (existsb _ (events db)).
  - eapply keeps_trans; [|apply IH]. by apply keeps_same.
  - unfold constraint. simpl. destruct (sessions db !! s); [|by apply keeps_same].
    split; [done|]. eexists [_]. split; [done|]. by constructor.
Qed.

Lemma close_card_run_run c s o sm db :
  ∃ b t n, close_card_run c s o sm db =
    (Ok b, mkDb (cards db) (sessions db) (projects db)
      (closing c (Some s) o (non_blank sm) t (runs db)) (events db) (queued db) (queued_next db)
      (todos db) n).
Proof.
  eexists _, (rfc3339 (clock db)), (S (clock db)).
  unfold close_card_run, close_runs, now, tick, gets, modify, mbind, M_bind, mret, M_ret. reflexivity.
Qed.

Lemma seal_session_keeps s r db : ∃ o, (seal_session s r db).1 = Ok o ∧
  cards (seal_session s r db).2 = cards db ∧ events (seal_session s r db).2 = events db ∧
  keys_kept (sessions db) (sessions (seal_session s r db).2).
Proof.
  unfold seal_session, now, tick, gets, modify, mbind, M_bind, mret, M_ret. simpl.
  destruct (sessions db !! s) as [ss|]; [|eexists; split_and!; eauto with keys].
  destruct (is_some _); [eexists; split_and!; eauto with keys|].
  destruct r; simpl; destruct (s_card_id ss); eexists; split_and!; try done; apply keys_kept_insert.
Qed.

Lemma clear_session_todos_keeps s db :
  ∃ e, (clear_session_todos s db).1 = Ok e ∧ keeps (Some "todo") db (clear_session_todos s db).2.
Proof.
  unfold clear_session_todos, gets, mbind, M_bind, mret, M_ret. simpl.
  destruct (list_session_todos s db) as [|i l]; [by eexists; split; [|apply keeps_refl]|].
  unfold attempt. simpl. eexists. split; [done|].
  eapply keeps_trans; [|apply append_event_keeps]. by apply keeps_same.
Qed.

(** ** Requests and their boundary *)

Lemma derive_snoc l e :
  Scheduler.derive_worker_intent (l ++ [e]) =
    if ev_kind e == "step-change" then None
    else match Scheduler.event_intent e with
         | Some i => Some i
         | None => Scheduler.derive_worker_intent l
         end.
Proof.
  unfold Scheduler.derive_worker_intent.
  assert (∀ k, drop (match rposition (λ e : Event, ev_kind e == "step-change") k with
      | Some i => S i | None => O end) k = after_last (λ e, ev_kind e == "step-change") k) as Hd.
  { intros k. unfold after_last. destruct (rposition _ k); [done|apply drop_0]. }
  rewrite !Hd, after_last_snoc. destruct (ev_kind e == "step-change"); [done|].
  rewrite reverse_snoc. done.
Qed.

Lemma derive_todos l k :
  Forall (λ e, Some (ev_kind e) = Some "todo") k →
  Scheduler.derive_worker_intent (l ++ k) = Scheduler.derive_worker_intent l.
Proof.
  induction k as [|e k IH] using rev_ind; intros HF; [by rewrite app_nil_r|].
  apply Forall_app in HF as [HF [[= He] _]%Forall_cons]. rewrite app_assoc, derive_snoc, (IH HF).
  unfold Scheduler.event_intent. by rewrite He.
Qed.

Lemma derive_after_step_change s db l k e :
  events db = l ++ e :: k → ev_session_id e = s → ev_kind e = "step-change" →
  Forall (λ e, Some (ev_kind e) = Some "todo") k →
  Scheduler.derive_worker_intent (session_events s db) = None.
Proof.
  intros He Hs Hk HF. unfold session_events. rewrite He, List.filter_app. cbn [List.filter].
  rewrite bool_decide_eq_true_2 by done.
  rewrite (cons_middle e), app_assoc, derive_todos by by apply forall_filter.
  by rewrite derive_snoc, bool_decide_eq_true_2.
Qed.

(** ** The worker tools *)

Inductive Tool :=
| CompleteStepTool (handoff : option string)
| FinishCardTool (summary verdict : option string)
| WontDoCardTool (reason : option string).

Definition run_tool (tool : Tool) (ctx : ToolCallContext) : M Reply :=
  match tool with
  | CompleteStepTool h => handle_complete_step custom ctx h
  | FinishCardTool sm v => handle_finish_card custom ctx sm v
  | WontDoCardTool r => handle_wont_do_card ctx r
  end.

(** Where a tool takes a card on [step] of workflow [wf], when it may. *)
Definition tool_target (tool : Tool) (wf step : string) (review_enabled : bool) : option string :=
  match tool with
  | CompleteStepTool _ =>
    if is_terminal step then None
    else match Pipeline.complete_step custom wf review_enabled step with
         | Pipeline.Advance s => Some s
         | Pipeline.Terminal => Some "done"
         | Pipeline.UnknownStep => None
         end
  | FinishCardTool _ _ =>
    if step == "wont_do" then None
    else Some (Workflow.finish_target step (Workflow.steps_for_card custom wf step review_enabled))
  | WontDoCardTool _ => if step == "done" then None else Some "wont_do"
  end.

(** What a successful tool call leaves: the card written by its closure, the
    request and the step change appended, nothing but cleared todos after. *)
Definition tool_post (tool : Tool) (sid card_id : string) (db db' : Db) : Prop :=
  ∃ c c' req sc l,
    cards db !! card_id = Some c ∧ cards db' = <[card_id := c']> (cards db) ∧
    tool_target tool (c_workflow c) (c_step c) (card_review_enabled card_id db) = Some (c_step c') ∧
    c_worker_session_id c' = None ∧ c_last_worker_session_id c' = Some sid ∧
    events db' = events db ++ req :: sc :: l ∧
    ev_session_id sc = sid ∧ ev_kind sc = "step-change" ∧
    Forall (λ e, Some (ev_kind e) = Some "todo") l.

Lemma atomic_Ok id v db card db' :
  update_card_atomic id v db = (Ok (Some card), db') →
  ∃ c u t t0, cards db !! id = Some c ∧ v t0 c = Ok u ∧
    card = apply_update (stamped (c_step c) u t) c ∧
    cards db' = <[id := card]> (cards db) ∧ events db' = events db.
Proof.
  intros Hrun. destruct (cards db !! id) as [c|] eqn:Hc.
  - destruct (update_card_atomic_run id v c db Hc) as (t0 & Hu).
    destruct (v t0 c) as [u|e] eqn:Hv.
    + destruct (update_refs u (sessions db)).
      * destruct Hu as (t & t' & n & Hu). rewrite Hu in Hrun. injection Hrun as <- <-. eauto 10.
      * destruct Hu as (e & n & Hu). by rewrite Hu in Hrun.
    + destruct Hu as (n & Hu). by rewrite Hu in Hrun.
  - unfold update_card_atomic, get_card, gets, mbind, M_bind, mret, M_ret in Hrun. by rewrite Hc in Hrun.
Qed.

Lemma stamped_fields prev u t c :
  c_step (apply_update (stamped prev u t) c) = c_step (apply_update u c) ∧
  c_worker_session_id (apply_update (stamped prev u t) c) = c_worker_session_id (apply_update u c) ∧
  c_last_worker_session_id (apply_update (stamped prev u t) c) =
    c_last_worker_session_id (apply_update u c).
Proof. unfold stamped. destruct u; simpl. by repeat (case_match; simpl). Qed.

Lemma append_Ok s k d db e db' :
  append_event s k d db = (Ok e, db') →
  ev_session_id e = s ∧ ev_kind e = k ∧ cards db' = cards db ∧ projects db' = projects db ∧
  events db' = events db ++ [e].
Proof. intros (? & ? & ? & ? & c & ->)%append_event_ok. done. Qed.

Lemma step_change_Ok s c f t db u db' :
  append_step_change s c f t db = (Ok u, db') →
  ∃ e, ev_session_id e = s ∧ ev_kind e = "step-change" ∧ cards db' = cards db ∧
    events db' = events db ++ [e].
Proof.
  unfold append_step_change. intros (e & db1 & He & [= <- <-])%bind_Ok.
  apply append_Ok in He as (? & ? & ? & ? & ?). eauto 10.
Qed.

Lemma close_card_run_Ok c s o sm db b db' :
  close_card_run c s o sm db = (Ok b, db') → cards db' = cards db ∧ events db' = events db.
Proof.
  destruct (close_card_run_run c s o sm db) as (b0 & t & n & ->). by intros [= <- <-].
Qed.

Lemma clear_todos_Ok s db e db' :
  clear_session_todos s db = (Ok e, db') → keeps (Some "todo") db db'.
Proof.
  destruct (clear_session_todos_keeps s db) as (e0 & _ & Hk). intros Heq. by rewrite Heq in Hk.
Qed.

Lemma review_enabled_append id db db' :
  cards db' = cards db → projects db' = projects db →
  card_review_enabled id db' = card_review_enabled id db.
Proof. unfold card_review_enabled, get_card, get_project. by intros -> ->. Qed.

Lemma complete_step_post ctx h db rep db' :
  handle_complete_step custom ctx h db = (Ok rep, db') →
  ∃ card_id, ctx_card_id ctx = Some card_id ∧
    tool_post (CompleteStepTool h) (ctx_session_id ctx) card_id db db'.
Proof.
  unfold handle_complete_step.
  intros (card_id & db0 & Hc0 & Hr)%bind_Ok. destruct (ctx_card_id ctx) as [cid|] eqn:Hcid; [|done].
  injection Hc0 as <- <-. exists cid. split; [done|].
  apply bind_Ok in Hr as (req & db1 & Hreq & Hr). apply append_Ok in Hreq as (_ & _ & Hc1 & Hp1 & He1).
  apply bind_Ok in Hr as (? & ? & [= <- <-] & Hr). apply bind_Ok in Hr as (? & ? & [= <- <-] & Hr).
  apply bind_Ok in Hr as (up & db2 & Hup & Hr). apply bind_Ok in Hr as (card & ? & Hcard & Hr).
  destruct up as [card0|]; [|done]. injection Hcard as <- <-.
  apply atomic_Ok in Hup as (c & u & t & t0 & Hc & Hu & -> & Hc2 & He2).
  set (card := apply_update _ c) in *.
  apply bind_Ok in Hr as (? & db3 & [Hc3 He3]%close_card_run_Ok & Hr).
  apply bind_Ok in Hr as (? & db4 & (sc & Hs & Hk & Hc4 & He4)%step_change_Ok & Hr).
  apply bind_Ok in Hr as (eff & db5 & Hclr & [= _ <-]).
  assert (keeps (Some "todo") db4 db5) as [Hc5 (l & He5 & HF)].
  { destruct (is_terminal (c_step card)); [|injection Hclr as _ <-; apply keeps_refl].
    apply bind_Ok in Hclr as (? & ? & Hclr & [= _ <-]). by apply clear_todos_Ok in Hclr. }
  exists c, card, req, sc, l. destruct (stamped_fields (c_step c) u t c) as (Hst & Hw & Hlw).
  fold card in Hst, Hw, Hlw.
  rewrite Hc1 in Hc. rewrite (review_enabled_append _ db db1) in Hu by done.
  unfold complete_step_update in Hu. cbn [tool_target].
  destruct (is_terminal (c_step c)); [done|]. unfold Pipeline.complete_step.
  split; [done|]. split; [congruence|].
  destruct (Pipeline.resolve_next_step _ _); simpl in Hu; [..|done]; injection Hu as <-;
    rewrite Hst, Hw, Hlw; simpl; split_and!; try done;
    rewrite He5, He4, He3, He2, He1, <- !app_assoc; done.
Qed.

Lemma finish_card_post ctx sm v db rep db' :
  handle_finish_card custom ctx sm v db = (Ok rep, db') →
  ∃ card_id, ctx_card_id ctx = Some card_id ∧
    tool_post (FinishCardTool sm v) (ctx_session_id ctx) card_id db db'.
Proof.
  unfold handle_finish_card.
  intros (card_id & db0 & Hc0 & Hr)%bind_Ok. destruct (ctx_card_id ctx) as [cid|] eqn:Hcid; [|done].
  injection Hc0 as <- <-. exists cid. split; [done|].
  apply bind_Ok in Hr as (ev & ? & Hev & Hr). injection Hev as _ <-.
  apply bind_Ok in Hr as (req & db1 & Hreq & Hr). apply append_Ok in Hreq as (_ & _ & Hc1 & Hp1 & He1).
  apply bind_Ok in Hr as (vd & ? & [= Hvd <-] & Hr). apply bind_Ok in Hr as (? & ? & [= <- <-] & Hr).
  apply bind_Ok in Hr as (? & ? & [= <- <-] & Hr).
  apply bind_Ok in Hr as (up & db2 & Hup & Hr). apply bind_Ok in Hr as (card & ? & Hcard & Hr).
  destruct up as [card0|]; [|done]. injection Hcard as <- <-.
  apply atomic_Ok in Hup as (c & u & t & t0 & Hc & Hu & -> & Hc2 & He2).
  set (card := apply_update _ c) in *.
  apply bind_Ok in Hr as (? & db3 & (sc & Hs & Hk & Hc3 & He3)%step_change_Ok & Hr).
  apply bind_Ok in Hr as (? & db4 & [Hc4 He4]%close_card_run_Ok & Hr).
  apply bind_Ok in Hr as (? & db5 & Hseal & Hr).
  assert (cards db5 = cards db4 ∧ events db5 = events db4) as [Hc5 He5].
  { destruct (_ == _); [|by injection Hseal as _ <-].
    apply bind_Ok in Hseal as (o & ? & Hseal & [= _ <-]).
    destruct (seal_session_keeps (ctx_session_id ctx) (Some "reviewed") db4) as (? & _ & H1 & H2 & _).
    by rewrite Hseal in H1, H2. }
  apply bind_Ok in Hr as (? & db6 & [Hc6 (l & He6 & HF)]%clear_todos_Ok & [= _ <-]).
  exists c, card, req, sc, l. destruct (stamped_fields (c_step c) u t c) as (Hst & Hw & Hlw).
  fold card in Hst, Hw, Hlw.
  rewrite Hc1 in Hc. rewrite (review_enabled_append _ db db1) in Hu by done.
  unfold finish_update in Hu. cbn [tool_target].
  destruct (c_step c == "wont_do"); [done|]. injection Hu as <-.
  split; [done|]. split; [congruence|]. rewrite Hst, Hw, Hlw.
  destruct (if c_step c == Workflow.REVIEW_STEP then vd else None); simpl; split_and!; try done;
    rewrite He6, He5, He4, He3, He2, He1, <- !app_assoc; done.
Qed.

Lemma wont_do_post ctx r db rep db' :
  handle_wont_do_card ctx r db = (Ok rep, db') →
  ∃ card_id, ctx_card_id ctx = Some card_id ∧
    tool_post (WontDoCardTool r) (ctx_session_id ctx) card_id db db'.
Proof.
  unfold handle_wont_do_card.
  intros (card_id & db0 & Hc0 & Hr)%bind_Ok. destruct (ctx_card_id ctx) as [cid|] eqn:Hcid; [|done].
  injection Hc0 as <- <-. exists cid. split; [done|].
  apply bind_Ok in Hr as (req & db1 & Hreq & Hr). apply append_Ok in Hreq as (_ & _ & Hc1 & Hp1 & He1).
  apply bind_Ok in Hr as (? & ? & [= <- <-] & Hr).
  apply bind_Ok in Hr as (up & db2 & Hup & Hr). apply bind_Ok in Hr as (card & ? & Hcard & Hr).
  destruct up as [card0|]; [|done]. injection Hcard as <- <-.
  apply atomic_Ok in Hup as (c & u & t & t0 & Hc & Hu & -> & Hc2 & He2).
  set (card := apply_update _ c) in *.
  apply bind_Ok in Hr as (? & db3 & (sc & Hs & Hk & Hc3 & He3)%step_change_Ok & Hr).
  apply bind_Ok in Hr as (? & db4 & [Hc4 He4]%close_card_run_Ok & Hr).
  apply bind_Ok in Hr as (? & db6 & [Hc6 (l & He6 & HF)]%clear_todos_Ok & [= _ <-]).
  exists c, card, req, sc, l. destruct (stamped_fields (c_step c) u t c) as (Hst & Hw & Hlw).
  fold card in Hst, Hw, Hlw. rewrite Hc1 in Hc. unfold wont_do_update in Hu. cbn [tool_target].
  destruct (c_step c == "done"); [done|]. injection Hu as <-.
  split; [done|]. split; [congruence|]. rewrite Hst, Hw, Hlw. simpl. split_and!; try done.
  rewrite He6, He4, He3, He2, He1, <- !app_assoc. done.
Qed.

Lemma run_tool_post tool ctx db rep db' :
  run_tool tool ctx db = (Ok rep, db') →
  ∃ card_id, ctx_card_id ctx = Some card_id ∧ tool_post tool (ctx_session_id ctx) card_id db db'.
Proof.
  destruct tool; cbn [run_tool]; [apply complete_step_post|apply finish_card_post|apply wont_do_post].
Qed.

#[export] Instance run_tool_inv tool ctx : Preserves inv (run_tool tool ctx).
Proof. destruct tool; apply _. Qed.

(** A completion of a session that does not hold its card's slot is stale. *)
Lemma stale_completion sid b db ss card_id c :
  get_session sid db = Some ss → s_card_id ss = Some card_id → get_card card_id db = Some c →
  c_worker_session_id c ≠ Some sid →
  (handle_worker_done custom sid b db).2 = db.
Proof.
  intros Hs Hcid Hc Hw. unfold handle_worker_done, gets, mbind, M_bind, mret, M_ret. simpl.
  rewrite Hs, Hcid, Hc. destruct (s_project_id ss); [|done].
  by rewrite bool_decide_eq_false_2.
Qed.

(** C2: a worker tool that succeeds moves its card exactly where the workflow
    says, frees the card's worker slot, touches no other card, and consumes
    the request: the session's log holds no pending request any more, and the
    session's later completion changes nothing, so a request is acted on
    once. *)
Theorem tool_acts_once tool ctx db rep db' :
  inv db → run_tool tool ctx db = (Ok rep, db') →
  let sid := ctx_session_id ctx in
  ∃ card_id c c', ctx_card_id ctx = Some card_id ∧
    get_card card_id db = Some c ∧ get_card card_id db' = Some c' ∧
    tool_target tool (c_workflow c) (c_step c) (card_review_enabled card_id db) = Some (c_step c') ∧
    c_worker_session_id c' = None ∧ c_last_worker_session_id c' = Some sid ∧
    (∀ i, i ≠ card_id → get_card i db' = get_card i db) ∧
    Scheduler.derive_worker_intent (list_events_by_session sid None db') = None ∧
    (∀ ss b, get_session sid db' = Some ss → s_card_id ss = Some card_id →
      (handle_worker_done custom sid b db').2 = db').
Proof.
  intros Hi Hrun sid. pose proof (preserves (Preserves := run_tool_inv tool ctx) db Hi) as Hi'.
  rewrite Hrun in Hi'.
  destruct (run_tool_post _ _ _ _ _ Hrun) as (card_id & Hcid & c & c' & req & sc & l & Hc & Hcs & Ht &
    Hw & Hlw & He & Hs & Hk & HF).
  assert (get_card card_id db' = Some c') as Hc' by (unfold get_card; by rewrite Hcs, lookup_insert_eq).
  exists card_id, c, c'. split_and!; try done.
  - intros i Hne. unfold get_card. by rewrite Hcs, lookup_insert_ne by done.
  - rewrite list_events_session by done.
    eapply (derive_after_step_change sid db' (events db ++ [req])); [|done..].
    by rewrite He, <- app_assoc.
  - intros ss b Hss Hcard. eapply stale_completion; [done..|]. by rewrite Hw.
Qed.

(** ** Refusals *)

Lemma atomic_refused id v db c :
  cards db !! id = Some c → (∀ t, is_ok (v t c) = false) →
  ∃ e, (update_card_atomic id v db).1 = Err e ∧ cards (update_card_atomic id v db).2 = cards db.
Proof.
  intros Hc Hv. destruct (update_card_atomic_run id v c db Hc) as (t0 & Hu). specialize (Hv t0).
  destruct (v t0 c) as [u|e]; [done|]. destruct Hu as (n & ->). eauto.
Qed.

Lemma append_then {A} s k d (m : M A) db :
  (∀ db1, cards db1 = cards db → projects db1 = projects db →
    ∃ e, (m db1).1 = Err e ∧ cards (m db1).2 = cards db) →
  ∃ e, ((append_event s k d;; m) db).1 = Err e ∧ cards ((append_event s k d;; m) db).2 = cards db.
Proof.
  intros Hm. unfold mbind, M_bind. destruct (append_event_keeps s k d db) as [Hc _].
  destruct (append_event s k d db) as [[ev|e] db1] eqn:E; simpl in *; [|eauto].
  apply append_Ok in E as (_ & _ & Hc' & Hp & _). by apply Hm.
Qed.

Lemma refused_bind {A B} (m : M A) (k : A → M B) db e :
  (m db).1 = Err e → ((m ≫= k) db).1 = Err e ∧ ((m ≫= k) db).2 = (m db).2.
Proof. unfold mbind, M_bind. destruct (m db) as [[a|e'] db']; simpl; [done|]. by intros [= ->]. Qed.

Lemma run_of_result {A B} (a : A) (k : A → M B) db : (of_result (Ok a) ≫= k) db = k a db.
Proof. done. Qed.

Lemma run_gets {A B} (f : Db → A) (k : A → M B) db : (gets f ≫= k) db = k (f db) db.
Proof. done. Qed.

Lemma refused_update {A} id v (k : option Card → M A) db db0 c :
  cards db = cards db0 → cards db0 !! id = Some c → (∀ t, is_ok (v t c) = false) →
  ∃ e, ((update_card_atomic id v ≫= k) db).1 = Err e ∧
    cards ((update_card_atomic id v ≫= k) db).2 = cards db0.
Proof.
  intros Hcs Hc Hv. destruct (atomic_refused id v db c) as (e & Hr & Hcs'); [congruence|done|].
  destruct (refused_bind _ k _ _ Hr) as [-> ->]. exists e. split; [done|]. congruence.
Qed.

(** C37: a tool that may not act on its card (completing a finished card or a
    step its workflow does not have, finishing a won't-do card, giving up a
    done one) is refused, and no card changes. *)
Theorem tool_refused tool ctx card_id c db :
  ctx_card_id ctx = Some card_id → get_card card_id db = Some c →
  tool_target tool (c_workflow c) (c_step c) (card_review_enabled card_id db) = None →
  ∃ e, (run_tool tool ctx db).1 = Err e ∧ cards (run_tool tool ctx db).2 = cards db.
Proof.
  intros Hcid Hc Ht. destruct tool as [h|sm v|r]; cbn [run_tool tool_target] in *.
  - unfold handle_complete_step. rewrite Hcid. cbn [ok_or]. rewrite run_of_result.
    apply append_then. intros db1 Hc1 Hp1. rewrite !run_gets, (review_enabled_append _ db) by done.
    eapply refused_update; [done..|]. intros t. unfold complete_step_update.
    destruct (is_terminal (c_step c)); [done|]. unfold Pipeline.complete_step in Ht.
    by destruct (Pipeline.resolve_next_step _ _).
  - unfold handle_finish_card. rewrite Hcid. cbn [ok_or]. rewrite run_of_result.
    destruct (parse_verdict v) as [ev|e]; [|by eexists]. rewrite run_of_result.
    apply append_then. intros db1 Hc1 Hp1. rewrite !run_gets.
    eapply refused_update; [done..|]. intros t. unfold finish_update.
    by destruct (c_step c == "wont_do").
  - unfold handle_wont_do_card. rewrite Hcid. cbn [ok_or]. rewrite run_of_result.
    apply append_then. intros db1 Hc1 Hp1. rewrite !run_gets.
    eapply refused_update; [done..|]. intros t. unfold wont_do_update.
    by destruct (c_step c == "done").
Qed.

(** ** The completion handler *)

(** The card in a database, and the effect of an update on it. *)
Lemma update_card_get id u db c :
  get_card id db = Some c → update_refs u (sessions db) = true →
  ∃ t, get_card id (update_card id u db).2 = Some (apply_update (stamped (c_step c) u t) c) ∧
    events (update_card id u db).2 = events db.
Proof.
  intros Hc Hr. pose proof (update_card_run id u c db Hc) as Hrun. rewrite Hr in Hrun.
  destruct Hrun as (t & t' & n & ->). eexists. unfold get_card. simpl. by rewrite lookup_insert_eq.
Qed.

Lemma update_card_sessions id u db c :
  get_card id db = Some c → u_step u = None → sessions (update_card id u db).2 = sessions db.
Proof.
  intros Hc Hu. pose proof (update_card_run id u c db Hc) as Hrun.
  destruct (update_refs u (sessions db)); [|by destruct Hrun as (e & n & ->)].
  destruct Hrun as (t & t' & n & ->). simpl. unfold severed, moved. rewrite (proj1 (stamped_fields _ _ _ _)), apply_no_step by done.
  by rewrite bool_decide_eq_true_2.
Qed.

Lemma close_card_run_get c s o sm db :
  ∃ b db1, close_card_run c s o sm db = (Ok b, db1) ∧ cards db1 = cards db ∧ sessions db1 = sessions db.
Proof. destruct (close_card_run_run c s o sm db) as (b & t & n & ->). eauto 10. Qed.


Record holds_card (sid card_id : string) (c : Card) (project_id : string) (db : Db) : Prop := {
  holds_session : ∃ ss, get_session sid db = Some ss ∧ s_card_id ss = Some card_id ∧
    s_project_id ss = Some project_id;
  holds_get : get_card card_id db = Some c;
  holds_slot : c_worker_session_id c = Some sid;
}.

Lemma handle_worker_done_held sid card_id c pid b db :
  holds_card sid card_id c pid db →
  ∃ t, (handle_worker_done custom sid b db).2 =
    (act_on custom (worker_intent sid db) b (project_review_enabled pid db) sid card_id c t
      (set_clock S db)).2.
Proof.
  intros [(ss & Hs & Hcid & Hpid) Hc Hw]. exists (rfc3339 (clock db)).
  unfold handle_worker_done, now, tick, gets, mbind, M_bind, mret, M_ret. cbn [fst snd].
  rewrite Hs, Hcid, Hc, Hpid, bool_decide_eq_true_2 by done. cbn [negb].
  change (project_review_enabled pid (set_clock S db)) with (project_review_enabled pid db).
  by destruct (act_on _ _ _ _ _ _ _ _ _) as [[e|e] db'].
Qed.


Lemma run_bind {A B} (m : M A) (k : A → M B) db a db1 :
  m db = (Ok a, db1) → ((m ≫= k) db).2 = (k a db1).2.
Proof. unfold mbind, M_bind. by intros ->. Qed.

Lemma run_attempt {A B} (m : M A) (k : Result string A → M B) db :
  (attempt m ≫= k) db = k (m db).1 (m db).2.
Proof. done. Qed.


Lemma is_some_true {A} (o : option A) : is_Some o → is_some o = true.
Proof. by intros [? ->]. Qed.

(** Run one update of the card, then operations that leave the cards alone. *)
Ltac card_update c Hc :=
  match goal with
  | |- context [((attempt (update_card ?id ?u) ≫= ?k) ?db).2] =>
    let Hg := fresh "Hg" in
    destruct (update_card_get id u db c Hc) as (x & Hg & _);
      [unfold update_refs; simpl; rewrite ?is_some_true by eauto; reflexivity|];
    rewrite (run_attempt (update_card id u) k)
  end.





(** ** Success *)

(** Every event id came from the uuid generator. *)
Definition fresh (db : Db) : Prop :=
  ∀ e, e ∈ events db → ∃ k, (k < clock db)%nat ∧ ev_id e = new_uuid k.

(** The session [sid] exists and ids are fresh: its tools can log. *)
Definition ready (sid : string) (db : Db) : Prop := fresh db ∧ is_Some (get_session sid db).

(** Operations that return, and keep the session ready. *)
Class Total {A} (sid : string) (m : M A) : Prop :=
  total db : ready sid db → ∃ a, (m db).1 = Ok a ∧ ready sid (m db).2.

Context `{!Inj (=) (=) new_uuid}.

Section total.
Context (sid : string).

#[export] Instance total_ret {A} (a : A) : Total sid (mret a).
Proof. intros db Hf. by exists a. Qed.
#[export] Instance total_gets {A} (f : Db → A) : Total sid (gets f).
Proof. intros db Hf. by eexists. Qed.
#[export] Instance total_bind {A B} (m : M A) (k : A → M B) :
  Total sid m → (∀ a, Total sid (k a)) → Total sid (m ≫= k).
Proof.
  intros Hm Hk db Hf. destruct (Hm db Hf) as (a & Ha & Hf'). unfold mbind, M_bind.
  destruct (m db) as [r db']. simpl in *. subst. by apply Hk.
Qed.
Lemma total_modify f : (∀ db, events (f db) = events db ∧ clock (f db) = clock db ∧
    keys_kept (sessions db) (sessions (f db))) → Total sid (modify f).
Proof.
  intros Hfr db [Hf Hs]. exists tt. split; [done|]. destruct (Hfr db) as (He & Hc & Hk).
  split; [|by apply Hk]. intros e. simpl. rewrite He, Hc. apply Hf.
Qed.
#[export] Instance total_tick : Total sid tick.
Proof.
  intros db [Hf Hs]. exists (clock db). split; [done|]. split; [|done]. intros e He. destruct (Hf e He) as (k & ? & ?).
  exists k. split; [simpl; lia|done].
Qed.
#[export] Instance total_now : Total sid now.
Proof. unfold now. apply _. Qed.

#[local] Hint Extern 1 (Total _ (modify _)) =>
  apply total_modify; intros; simpl; split_and!; first [reflexivity|auto with keys] : typeclass_instances.
#[local] Hint Extern 2 (Total _ (match ?x with _ => _ end)) => destruct x : typeclass_instances.

#[export] Instance total_append k d : Total sid (append_event sid k d).
Proof.
  intros db [Hf Hs]. destruct (append_event_fresh sid k d db) as (e & db' & E); [|done|].
  { intros x (k' & Hk & ->)%Hf Heq%(inj new_uuid). lia. }
  rewrite E. exists e. split; [done|].
  assert (sessions db' = sessions db) as Hss
    by (by apply append_event_ok in E as (_ & _ & _ & _ & n & ->)).
  split; [|unfold get_session in *; simpl; by rewrite Hss]. intros x Hx.
  unfold append_event in E. cbn [insert_event_attempts APPEND_SEQ_MAX_ATTEMPTS] in E.
  unfold uuid, millis, tick, gets, modify, mbind, M_bind, mret, M_ret in E. simpl in E.
  destruct (existsb _ (events db)) eqn:Ex.
  - exfalso. apply List.existsb_exists in Ex as (y & Hy%list_elem_of_In & Hb).
    apply orb_true_iff in Hb as [Hb%bool_decide_eq_true|Hb].
    + destruct (Hf y Hy) as (k' & Hk & Hid). rewrite Hb in Hid. apply (inj new_uuid) in Hid. lia.
    + apply andb_true_iff in Hb as [Hys Hq%bool_decide_eq_true].
      pose proof (next_seq_gt sid db) as HF. rewrite Forall_forall in HF.
      assert (y ∈ session_events sid db) as Hin
        by (apply list_elem_of_In, List.filter_In; split; [by apply list_elem_of_In|done]).
      specialize (HF y Hin). unfold next_seq, session_events in *. simpl in *. lia.
  - unfold constraint in E. simpl in E. destruct (sessions db !! sid); [|done].
    injection E as <- <-. simpl in *. apply elem_of_app in Hx as [Hx|Hx%list_elem_of_singleton].
    + destruct (Hf x Hx) as (k' & ? & ?). exists k'. split; [lia|done].
    + subst. exists (clock db). split; [lia|done].
Qed.

#[export] Instance total_attempt {A} (m : M A) : Total sid m → Total sid (attempt m).
Proof. intros Hm db Hf. destruct (Hm db Hf) as (a & _ & ?). by eexists. Qed.
#[export] Instance total_close_runs c s o sm t : Total sid (close_runs c s o sm t).
Proof. unfold close_runs. apply _. Qed.
#[export] Instance total_close_card_run c s o sm : Total sid (close_card_run c s o sm).
Proof. unfold close_card_run. apply _. Qed.
#[export] Instance total_step_change c f t : Total sid (append_step_change sid c f t).
Proof. unfold append_step_change. apply _. Qed.
#[export] Instance total_seal s r : Total sid (seal_session s r).
Proof.
  unfold seal_session. apply total_bind; [apply _|]. intros t. apply total_bind; [apply _|].
  intros [ss|]; [|apply _]. destruct (is_some _); [apply _|].
  apply total_bind; [destruct r; apply _|]. intros rs. do 3 (apply total_bind; [apply _|]; intros ?).
  apply total_bind; [destruct (s_card_id ss)|]; apply _.
Qed.
#[export] Instance total_clear_todos : Total sid (clear_session_todos sid).
Proof.
  unfold clear_session_todos, replace_session_todos. apply total_bind; [apply _|].
  intros [|i l]; apply _.
Qed.

Lemma total_sever prev card : Total sid (sever_worker_resume_link prev card).
Proof.
  unfold sever_worker_resume_link. destruct (_ || _); [apply _|].
  apply total_bind; [destruct (intake_outcome _); apply _|]. intros _.
  apply total_modify. intros db. split_and!; [done..|]. apply keys_kept_foldl.
Qed.

Lemma total_stamp prev u : Total sid (stamp_completed_at prev u).
Proof.
  unfold stamp_completed_at. destruct (u_step u); [|apply _]. destruct (_ && _); [apply _|].
  destruct (_ && _); apply _.
Qed.

Lemma total_preserves {A} (m : M A) : Total sid m → Preserves (ready sid) m.
Proof. intros Hm db Hf. by destruct (Hm db Hf) as (? & _ & ?). Qed.

Lemma atomic_ready id v : Preserves (ready sid) (update_card_atomic id v).
Proof.
  unfold update_card_atomic. apply preserves_bind; [apply _|]. intros [c|]; [|apply _].
  apply preserves_bind; [apply total_preserves, _|]. intros t.
  apply preserves_bind; [apply _|]. intros u.
  apply preserves_bind; [apply total_preserves; destruct (_ && _); [apply total_stamp|apply _]|].
  intros u'. apply preserves_bind; [apply _|]. intros _.
  apply preserves_bind; [apply total_preserves, _|]. intros _.
  apply preserves_bind; [apply total_preserves, total_sever|apply _].
Qed.

Lemma atomic_total {A} id v (k : Card → M A) e db c :
  ready sid db → cards db !! id = Some c →
  (∀ t, is_ok (v t c) = true) → (∀ t u, v t c = Ok u → update_refs u (sessions db) = true) →
  (∀ card, Total sid (k card)) →
  ∃ a, ((up ← update_card_atomic id v; card ← of_result (ok_or e up); k card) db).1 = Ok a.
Proof.
  intros Hf Hc Hv Hr Hk. pose proof (atomic_ready id v db Hf) as Hf'.
  destruct (update_card_atomic_run id v c db Hc) as (t0 & Hu). specialize (Hv t0).
  destruct (v t0 c) as [u|] eqn:Hvt; [|done]. rewrite (Hr t0 u Hvt) in Hu. destruct Hu as (t & t' & n & Hu).
  unfold mbind at 1, M_bind at 1. rewrite Hu in Hf' |- *. simpl in *.
  destruct (Hk (apply_update (stamped (c_step c) u t) c) _ Hf') as (a & Ha & _). by exists a.
Qed.

Lemma append_total {A} k d (m : M A) db :
  ready sid db →
  (∀ db1, ready sid db1 → cards db1 = cards db → projects db1 = projects db → ∃ a, (m db1).1 = Ok a) →
  ∃ a, ((append_event sid k d;; m) db).1 = Ok a.
Proof.
  intros Hf Hm. destruct (total_append k d db Hf) as (e & He & Hf'). unfold mbind, M_bind.
  destruct (append_event sid k d db) as [r db1] eqn:E. simpl in *. subst r.
  apply append_Ok in E as (_ & _ & Hc & Hp & _). by apply Hm.
Qed.

(** An update that frees the slot and names [sid] as the last worker. *)
Lemma frees_refs u db :
  is_Some (get_session sid db) →
  u_worker_session_id u = Some None ∧ u_last_worker_session_id u = Some (Some sid) →
  update_refs u (sessions db) = true.
Proof. intros [ss Hs] [Hw Hl]. unfold update_refs. rewrite Hw, Hl. simpl. unfold get_session in Hs. by rewrite Hs. Qed.
End total.

(** conversely, a tool that may act on its card returns: the session
    exists, its request is logged under a new id and the card moves, whatever
    the rest of the database holds. *)
Theorem tool_succeeds tool ctx card_id c step db :
  fresh db → is_Some (get_session (ctx_session_id ctx) db) →
  ctx_card_id ctx = Some card_id → get_card card_id db = Some c →
  tool_target tool (c_workflow c) (c_step c) (card_review_enabled card_id db) = Some step →
  (∀ sm v, tool = FinishCardTool sm v → is_ok (parse_verdict v) = true) →
  ∃ rep, (run_tool tool ctx db).1 = Ok rep.
Proof.
  intros Hfr Hss Hcid Hc Ht Hv. assert (ready (ctx_session_id ctx) db) as Hf by done.
  destruct tool as [h|sm v|r]; cbn [run_tool tool_target] in *.
  - unfold handle_complete_step. rewrite Hcid. cbn [ok_or]. rewrite run_of_result.
    apply (append_total _ _ _ _ _ Hf). intros db1 Hf1 Hc1 Hp1.
    rewrite !run_gets, (review_enabled_append _ db) by done.
    eapply (atomic_total (ctx_session_id ctx)); [done|by rewrite Hc1|..].
    + intros t. unfold complete_step_update. destruct (is_terminal (c_step c)); [done|].
      unfold Pipeline.complete_step in Ht. by destruct (Pipeline.resolve_next_step _ _).
    + intros t u Hu. apply (frees_refs (ctx_session_id ctx)); [apply Hf1|].
      unfold complete_step_update in Hu. destruct (is_terminal (c_step c)); [done|].
      destruct (Pipeline.resolve_next_step _ _); simpl in Hu; [..|done]; by injection Hu as <-.
    + intros card. do 2 (apply total_bind; [apply _|]; intros ?).
      apply total_bind; [destruct (is_terminal (c_step card))|]; apply _.
  - unfold handle_finish_card. rewrite Hcid. cbn [ok_or]. rewrite run_of_result.
    specialize (Hv sm v eq_refl). destruct (parse_verdict v) as [ev|e]; [|done]. rewrite run_of_result.
    apply (append_total _ _ _ _ _ Hf). intros db1 Hf1 Hc1 Hp1. rewrite !run_gets.
    eapply (atomic_total (ctx_session_id ctx)); [done|by rewrite Hc1|..].
    + intros t. unfold finish_update. by destruct (c_step c == "wont_do").
    + intros t u Hu. apply (frees_refs (ctx_session_id ctx)); [apply Hf1|].
      unfold finish_update in Hu. destruct (c_step c == "wont_do"); [done|]. injection Hu as <-.
      by case_match.
    + intros card. do 2 (apply total_bind; [apply _|]; intros ?).
      apply total_bind; [match goal with |- context [if ?b then _ else _] => destruct b end|]; apply _.
  - unfold handle_wont_do_card. rewrite Hcid. cbn [ok_or]. rewrite run_of_result.
    apply (append_total _ _ _ _ _ Hf). intros db1 Hf1 Hc1 Hp1. rewrite !run_gets.
    eapply (atomic_total (ctx_session_id ctx)); [done|by rewrite Hc1|..].
    + intros t. unfold wont_do_update. by destruct (c_step c == "done").
    + intros t u Hu. apply (frees_refs (ctx_session_id ctx)); [apply Hf1|].
      unfold wont_do_update in Hu. destruct (c_step c == "done"); [done|]. by injection Hu as <-.
    + intros card. apply _.
Qed.

(** ** Turns without progress *)

Lemma no_progress_idle l : ∀ c,
  Forall (λ e, ev_kind e = Pipeline.NO_PROGRESS_KIND) l → 0 <= c →
  c + Z.of_nat (length l) < 2 ^ 32 →
  fold_left Pipeline.no_progress_step l c = c + Z.of_nat (length l).
Proof.
  induction l as [|e l IH]; intros c HF Hc Hlt; cbn [fold_left length] in *; [lia|].
  apply Forall_cons in HF as [He HF]. unfold Pipeline.no_progress_step at 2.
  rewrite bool_decide_eq_true_2 by done. unfold Pipeline.u32_succ. rewrite Z.mod_small by lia.
  rewrite IH; [lia|done|lia|lia].
Qed.

Lemma no_progress_range l : ∀ c,
  0 <= c → c + Z.of_nat (length l) < 2 ^ 32 →
  0 <= fold_left Pipeline.no_progress_step l c <= c + Z.of_nat (length l).
Proof.
  induction l as [|e l IH]; intros c Hc Hlt; cbn [fold_left length] in *; [lia|].
  assert (0 <= Pipeline.no_progress_step c e <= c + 1) as Hs.
  { unfold Pipeline.no_progress_step, Pipeline.u32_succ. rewrite Z.mod_small by lia.
    repeat case_match; lia. }
  specialize (IH (Pipeline.no_progress_step c e)). lia.
Qed.

Lemma lifecycle_length id n db : (length (card_lifecycle_events id n db) <= n)%nat.
Proof. unfold card_lifecycle_events. rewrite length_reverse, length_take. lia. Qed.

Lemma no_progress_count_suffix id db pre l :
  card_lifecycle_events id 256 db = pre ++ l →
  Forall (λ e, ev_kind e = Pipeline.NO_PROGRESS_KIND) l →
  Z.of_nat (length l) <= Pipeline.count_consecutive_no_progress (card_lifecycle_events id 256 db).
Proof.
  intros Heq HF. pose proof (lifecycle_length id 256 db) as Hlen. rewrite Heq in Hlen |- *.
  rewrite length_app in Hlen. unfold Pipeline.count_consecutive_no_progress. rewrite fold_left_app.
  pose proof (no_progress_range pre 0). rewrite no_progress_idle; [lia|done|lia|lia].
Qed.

Lemma block_update_blocked p c r t t' :
  let u := UpdateCard_default |> set_blocked true |> set_block_reason (Some r) |> set_updated_at t in
  apply_update (stamped p u t') c = apply_update u c.
Proof. done. Qed.

Lemma done_continue_card sid id c t db :
  get_card id db = Some c → is_Some (sessions db !! sid) →
  let db' := (done_continue sid id c t db).2 in
  ∃ c', get_card id db' = Some c' ∧ c_step c' = c_step c ∧ c_worker_session_id c' = None ∧
    c_last_worker_session_id c' = Some sid ∧
    c_blocked c' = c_blocked c || (Pipeline.BLOCK_AFTER_NO_PROGRESS <=?
      Pipeline.count_consecutive_no_progress (card_lifecycle_events id 256 db')).
Proof.
  intros Hc Hss. unfold done_continue.
  pose proof (update_card_sessions id (UpdateCard_default |> set_worker_session_id None
    |> set_last_worker_session_id (Some sid) |> set_updated_at t) db c Hc eq_refl) as Hs1.
  card_update c Hc. set (db1 := (update_card _ _ db).2) in *.
  destruct (close_card_run_get id sid "stopped" None db1) as (b & db2 & Hr & Hcs & Hs2).
  rewrite (run_bind _ _ _ _ _ Hr). rewrite run_attempt, run_gets.
  set (db3 := (append_event _ _ _ db2).2).
  assert (get_card id db3 = Some (apply_update (UpdateCard_default |> set_worker_session_id None
    |> set_last_worker_session_id (Some sid) |> set_updated_at t) c)) as Hc3.
  { unfold get_card, db3. by rewrite (proj1 (append_event_keeps _ _ _ _)), Hcs. }
  destruct (_ <=? Pipeline.count_consecutive_no_progress (card_lifecycle_events id 256 db3)) eqn:E.
  - match goal with |- context [attempt (update_card id ?u) ≫= ?k] => set (upd := u); set (rest := k) end.
    destruct (update_card_get id upd db3 _ Hc3 eq_refl) as (tt3 & Hg3 & He3).
    pose proof (update_card_sessions id upd db3 _ Hc3 eq_refl) as Hs3.
    rewrite (run_attempt _ rest). subst rest. simpl.
    eexists. split; [exact Hg3|]. split_and!; [done..|]. cbn [c_blocked apply_update]. simpl.
    rewrite orb_comm. assert (card_lifecycle_events id 256 (update_card id upd db3).2 =
      card_lifecycle_events id 256 db3) as ->.
    { unfold card_lifecycle_events. by rewrite He3, Hs3. }
    by rewrite E.
  - simpl. eexists. split; [exact Hc3|]. split_and!; [done..|]. rewrite E. simpl. by rewrite orb_false_r.
Qed.

(** A worker turn that ends without a request keeps the card on its step.
    While the worker waits on its own background task nothing else changes;
    otherwise the slot is freed, and the card is blocked exactly when the
    no-progress count has reached its limit, in particular whenever the card's
    last four lifecycle events are idle completions. *)
Theorem completion_no_progress sid card_id c pid b db :
  holds_card sid card_id c pid db →
  worker_intent sid db = None ∨ worker_intent sid db = Some Scheduler.Continue →
  let db' := (handle_worker_done custom sid b db).2 in
  let lifecycle := card_lifecycle_events card_id 256 db' in
  if b then cards db' = cards db ∧ events db' = events db
  else ∃ c', get_card card_id db' = Some c' ∧ c_step c' = c_step c ∧
    c_worker_session_id c' = None ∧ c_last_worker_session_id c' = Some sid ∧
    c_blocked c' = c_blocked c ||
      (Pipeline.BLOCK_AFTER_NO_PROGRESS <=? Pipeline.count_consecutive_no_progress lifecycle) ∧
    (∀ pre l, lifecycle = pre ++ l → length l = 4%nat →
      Forall (λ e, ev_kind e = Pipeline.NO_PROGRESS_KIND) l → c_blocked c' = true).
Proof.
  intros Hh Hi. destruct (handle_worker_done_held _ _ _ _ b _ Hh) as (t & Hrun).
  rewrite Hrun. destruct Hh as [(ss & Hss & _) Hc _].
  assert (act_on custom (worker_intent sid db) b (project_review_enabled pid db) sid card_id c t =
    if b then mret [] else done_continue sid card_id c t) as -> by (destruct Hi as [->| ->]; done).
  destruct b; [done|]. simpl.
  destruct (done_continue_card sid card_id c t (set_clock S db) Hc ltac:(by eexists)) as (c' & Hg & Hst & Hw & Hl & Hb).
  exists c'. split_and!; try done. intros pre l Heq Hl4 HF. rewrite Hb.
  apply orb_true_iff. right. apply Z.leb_le.
  pose proof (no_progress_count_suffix _ _ _ _ Heq HF) as Hle. rewrite Hl4 in Hle. exact Hle.
Qed.
End props.

#[local] Existing Instance obj_json.

#[local] Instance ex_uuid_inj : Inj (=) (=) (new_uuid (World := ex_world)).
Proof. intros n m Heq. apply (inj to_dec) in Heq. lia. Qed.

(** A card in progress, held by its worker session. *)
Definition ex_board : Db :=
  let db := (create_project "p1" "Launch" "task" empty_db).2 in
  let db := (create_card ex_new_card db).2 in
  let db := (create_session "s1" true (Some "p1") (Some "c1") (Some "in_progress") None db).2 in
  (claim_card_for_worker "c1" "s1" (Some "in_progress") "1" db).2.

Definition ex_ctx : ToolCallContext := mkCtx "s1" (Some "c1").
Definition ex_card : Card :=
  apply_update (UpdateCard_default |> set_worker_session_id (Some "s1")
    |> set_last_worker_session_id (Some "s1") |> set_updated_at "1" |> set_step "in_progress")
    (new_card_row ex_new_card).

Lemma ex_board_inv : inv ex_board.
Proof.
  apply claim_card_inv; [|intros _ s c [= <-] [= <-]; done].
  apply (preserves (Preserves := create_session_inv _ _ _ _ _ _)), (create_card_inv ex_new_card); [done|].
  apply (preserves (Preserves := create_project_inv _ _ _)), empty_inv.
Qed.


Lemma ex_board_fresh : fresh ex_board.
Proof. intros e He. by apply elem_of_nil in He. Qed.

Lemma ex_board_holds : holds_card "s1" "c1" ex_card "p1" ex_board.
Proof. split; [by eexists|done..]. Qed.

Lemma tool_acts_once_witness :
  ∃ c', get_card "c1" (run_tool [] (CompleteStepTool None) ex_ctx ex_board).2 = Some c' ∧
    c_step c' = "review" ∧ c_worker_session_id c' = None.
Proof.
  destruct (run_tool [] (CompleteStepTool None) ex_ctx ex_board) as [[rep|e] db'] eqn:E;
    [|vm_compute in E; discriminate E].
  destruct (tool_acts_once [] (CompleteStepTool None) ex_ctx ex_board rep db' ex_board_inv E)
    as (i & c & c' & [= <-] & Hc & Hc' & Ht & Hw & _).
  exists c'. split; [done|]. split; [|done].
  assert (c = ex_card) as -> by (vm_compute in Hc |- *; congruence).
  enough (Some (c_step c') = Some "review") as [=] by done. rewrite <- Ht. vm_compute. reflexivity.
Defined.

Lemma tool_refused_witness :
  ∃ e, (run_tool [] (CompleteStepTool None) (mkCtx "s1" (Some "c1"))
          (update_card "c1" (UpdateCard_default |> set_step "done") ex_board).2).1 = Err e.
Proof.
  destruct (tool_refused [] (CompleteStepTool None) ex_ctx "c1"
    (apply_update (UpdateCard_default |> set_step "done" |> set_completed_at (Some "0")) ex_card)
    (update_card "c1" (UpdateCard_default |> set_step "done") ex_board).2) as (e & He & _);
    [reflexivity|vm_compute; reflexivity|vm_compute; reflexivity|eauto].
Defined.

Lemma tool_succeeds_witness :
  ∃ rep, (run_tool [] (FinishCardTool (Some "all good") None) ex_ctx ex_board).1 = Ok rep.
Proof.
  apply (tool_succeeds [] (FinishCardTool (Some "all good") None) ex_ctx "c1" ex_card "review" ex_board).
  - apply ex_board_fresh.
  - by eexists.
  - reflexivity.
  - reflexivity.
  - vm_compute; reflexivity.
  - intros sm v [= <- <-]. reflexivity.
Defined.



Lemma completion_no_progress_witness :
  ∃ c', get_card "c1" (handle_worker_done [] "s1" false ex_board).2 = Some c' ∧
    c_step c' = "in_progress" ∧ c_worker_session_id c' = None.
Proof.
  destruct (completion_no_progress [] "s1" "c1" ex_card "p1" false ex_board)
    as (c' & Hc & Hst & Hw & _); [apply ex_board_holds|left; vm_compute; reflexivity|].
  exists c'. split; [exact Hc|]. split; [exact Hst|exact Hw].
Defined.
(** Finishing a card that is already done replaces its handoff context. *)
Theorem finish_done_overwrites_handoff :
  let db := (update_card "c1" (UpdateCard_default |> set_step "done"
    |> set_handoff_context (Some "merged as #12")) ex_board).2 in
  c_handoff_context <$> get_card "c1" db = Some (Some "merged as #12") ∧
  let '(r, db') := run_tool [] (FinishCardTool None None) ex_ctx db in
  is_ok r = true ∧ c_step <$> get_card "c1" db' = Some "done" ∧
  c_handoff_context <$> get_card "c1" db' = Some None.
Proof. vm_compute. done. Qed.
End BoardProps.
