(* ===== verification/LockMap.v ===== *)
(** * Locks by key

    src/provider/manager.rs ([lock_session], [try_lock_session],
    [evict_idle_locks]) and src/repeating.rs ([lock_task], [try_lock_task],
    [evict_idle_locks]): a map from session or task ids to mutexes, made on
    demand, shared by reference count, and swept of the ones nobody uses.  The
    calls that hold the map's own mutex are single steps; taking and giving up
    a mutex from it happen outside, in any order. *)

From S2P Require Import Prelude.

Module LockMap.

(** What a caller has: the [Arc] it cloned from the map and waits on, the guard
    it got from it, or the guard being dropped, which unlocks the mutex before
    it lets go of the [Arc]. *)
Inductive Phase := Cloned (lock : nat) | Guard (lock : nat) | Dropping (lock : nat).

Definition lock_of (p : Phase) : nat :=
  match p with Cloned l | Guard l | Dropping l => l end.

(** [locks] is the map; mutexes are numbered in the order they are made. *)
Record Locks := mkLocks {
  locks : gmap string nat;
  allocated : nat;
  locked : gset nat;
  callers : gmap nat (string * Phase);
}.

Definition new : Locks := mkLocks ∅ 0 ∅ ∅.

(** [map.entry(id).or_insert_with(|| Arc::new(Mutex::new(()))).clone()]. *)
Definition entry_clone (caller : nat) (id : string) (s : Locks) : Locks :=
  match locks s !! id with
  | Some l => mkLocks (locks s) (allocated s) (locked s) (<[caller := (id, Cloned l)]> (callers s))
  | None =>
    let l := allocated s in
    mkLocks (<[id := l]> (locks s)) (S l) (locked s) (<[caller := (id, Cloned l)]> (callers s))
  end.

(** [Arc::strong_count]: the map's reference and one per caller. *)
Definition strong_count (l : nat) (s : Locks) : nat :=
  size (filter (λ p, p.2 = l) (locks s)) + size (filter (λ p, lock_of p.2.2 = l) (callers s)).

(** [map.retain(|_, lock| Arc::strong_count(lock) > 1)], with the number of
    entries that went. *)
Definition evict_idle_locks (s : Locks) : Locks * nat :=
  let kept := filter (λ p, 1 < strong_count p.2 s)%nat (locks s) in
  (mkLocks kept (allocated s) (locked s) (callers s), (size (locks s) - size kept)%nat).

Definition set_caller (caller : nat) (c : option (string * Phase)) (locked : gset nat) (s : Locks) : Locks :=
  mkLocks (locks s) (allocated s) locked (partial_alter (λ _, c) caller (callers s)).

(** What callers and the sweeper do, one at a time.  A caller that waits may
    give up (a cancelled future, a [try_lock_owned] that found the mutex
    taken). *)
Inductive step : Locks → Locks → Prop :=
  | step_clone s caller id : callers s !! caller = None → step s (entry_clone caller id s)
  | step_lock s caller id l :
      callers s !! caller = Some (id, Cloned l) → l ∉ locked s →
      step s (set_caller caller (Some (id, Guard l)) ({[l]} ∪ locked s) s)
  | step_give_up s caller id l :
      callers s !! caller = Some (id, Cloned l) → step s (set_caller caller None (locked s) s)
  | step_unlock s caller id l :
      callers s !! caller = Some (id, Guard l) →
      step s (set_caller caller (Some (id, Dropping l)) (locked s ∖ {[l]}) s)
  | step_drop s caller id l :
      callers s !! caller = Some (id, Dropping l) → step s (set_caller caller None (locked s) s)
  | step_evict s : step s (evict_idle_locks s).1.

Definition holds (s : Locks) (caller : nat) (id : string) : Prop :=
  ∃ l, callers s !! caller = Some (id, Guard l).

(** ** The invariant *)

(** Callers use the mutex the map has for their id, ids have mutexes of their
    own, and a mutex is locked exactly when a single caller has its guard. *)
Record inv (s : Locks) : Prop := {
  inv_current c id p : callers s !! c = Some (id, p) → locks s !! id = Some (lock_of p);
  inv_distinct id id' l : locks s !! id = Some l → locks s !! id' = Some l → id = id';
  inv_allocated id l : locks s !! id = Some l → (l < allocated s)%nat;
  inv_locked l : l ∈ locked s ↔ ∃ c id, callers s !! c = Some (id, Guard l);
  inv_single c c' id id' l :
    callers s !! c = Some (id, Guard l) → callers s !! c' = Some (id', Guard l) → c = c';
}.

Lemma inv_new : inv new.
Proof. split; cbn; try (intros *; by rewrite lookup_empty). intros l. set_unfold. naive_solver. Qed.

Lemma callers_pos s c id p l :
  callers s !! c = Some (id, p) → lock_of p = l → (1 ≤ size (filter (λ p, lock_of p.2.2 = l) (callers s)))%nat.
Proof.
  intros Hc Hl. destruct (size _) eqn:E; [|lia]. apply map_size_empty_inv in E. exfalso.
  assert (filter (λ p, lock_of p.2.2 = l) (callers s) !! c = Some (id, p)) as Hf by (by apply map_lookup_filter_Some).
  by rewrite E in Hf.
Qed.

(** Under the invariant, a second reference is a caller's. *)
Lemma strong_count_used s id l :
  inv s → locks s !! id = Some l → (1 < strong_count l s)%nat ↔ ∃ c p, callers s !! c = Some (id, p).
Proof.
  intros Hi Hl. unfold strong_count.
  assert (size (filter (λ p, p.2 = l) (locks s)) = 1%nat) as ->.
  { replace (filter (λ p, p.2 = l) (locks s)) with ({[id := l]} : gmap string nat); [apply map_size_singleton|].
    apply map_eq. intros k. apply option_eq. intros x. rewrite map_lookup_filter_Some, lookup_singleton_Some. cbn.
    split; [by intros [<- <-]|]. intros [Hk ->]. split; [|done]. by apply (inv_distinct s Hi id k l). }
  split.
  - intros Hlt. destruct (map_choose (filter (λ p, lock_of p.2.2 = l) (callers s))) as (c & [id' p] & Hc).
    { intros E. rewrite E, map_size_empty in Hlt. lia. }
    apply map_lookup_filter_Some in Hc as [Hc Hp]. cbn in Hp. exists c, p.
    rewrite (inv_distinct s Hi id id' l Hl); [done|]. rewrite <- Hp. by eapply inv_current.
  - intros (c & p & Hc). pose proof (inv_current s Hi _ _ _ Hc) as Hp. rewrite Hl in Hp. injection Hp as ->.
    pose proof (callers_pos s c id p _ Hc eq_refl). lia.
Qed.

Lemma lookup_set_caller c x L s c' :
  callers (set_caller c x L s) !! c' = if decide (c = c') then x else callers s !! c'.
Proof.
  cbn. case_decide as E; [subst; apply lookup_partial_alter_eq|by apply lookup_partial_alter_ne].
Qed.

(** A caller changes its phase, on the mutex it has. *)
Lemma inv_set_caller s c id p x L :
  inv s → callers s !! c = Some (id, p) →
  (∀ id' p', x = Some (id', p') → id' = id ∧ lock_of p' = lock_of p) →
  (∀ l, l ∈ L ↔ ∃ c' id', callers (set_caller c x L s) !! c' = Some (id', Guard l)) →
  (∀ id' l, x = Some (id', Guard l) → p = Guard l ∨ l ∉ locked s) →
  inv (set_caller c x L s).
Proof.
  intros Hi Hc Hx HL Hg. split.
  - intros c' id' p'. rewrite lookup_set_caller. cbn. case_decide; [|by apply (inv_current s Hi)].
    intros E. destruct (Hx _ _ E) as [-> ->]. by eapply inv_current.
  - apply (inv_distinct s Hi).
  - apply (inv_allocated s Hi).
  - done.
  - intros c1 c2 id1 id2 l. rewrite !lookup_set_caller.
    assert (∀ c' id', x = Some (id', Guard l) → c ≠ c' → ∀ id'', callers s !! c' = Some (id'', Guard l) → False) as Hno.
    { intros c' id' E Hne id'' Hc'. destruct (Hg _ _ E) as [->|Hl].
      - by apply Hne, (inv_single s Hi _ _ _ _ _ Hc Hc').
      - apply Hl, (inv_locked s Hi). eauto. }
    repeat case_decide; subst; try done; [naive_solver..|]. apply (inv_single s Hi).
Qed.

Lemma inv_entry_clone s c id : inv s → callers s !! c = None → inv (entry_clone c id s).
Proof.
  intros Hi Hc.
  assert (∀ c' id' p l, <[c := (id, Cloned l)]> (callers s) !! c' = Some (id', p) ↔
    (c' = c ∧ id' = id ∧ p = Cloned l) ∨ callers s !! c' = Some (id', p)) as Hins.
  { intros c' id' p l. destruct (decide (c = c')) as [<-|Hne]; [rewrite lookup_insert_eq|rewrite lookup_insert_ne by done];
      rewrite ?Hc; naive_solver. }
  unfold entry_clone. destruct (locks s !! id) as [l|] eqn:Hl; split; cbn; intros *; rewrite ?Hins.
  - intros [(-> & -> & ->)|?]; [done|by eapply inv_current].
  - apply (inv_distinct s Hi).
  - apply (inv_allocated s Hi).
  - rewrite (inv_locked s Hi). setoid_rewrite Hins. naive_solver.
  - intros [(-> & -> & ?)|?] [(-> & -> & ?)|?]; try done. by eapply inv_single.
  - intros [(-> & -> & ->)|H']; [by rewrite lookup_insert_eq|]. apply (inv_current s Hi) in H'.
    rewrite lookup_insert_ne; [done|congruence].
  - rewrite !lookup_insert_Some. intros [[<- <-]|[? H1]] [[<- H2]|[? H2]]; [done|..].
    + apply (inv_allocated s Hi) in H2. lia.
    + subst. apply (inv_allocated s Hi) in H1. lia.
    + by eapply inv_distinct.
  - rewrite lookup_insert_Some. intros [[<- <-]|[? H1]]; [lia|]. apply (inv_allocated s Hi) in H1. lia.
  - rewrite (inv_locked s Hi). setoid_rewrite Hins. naive_solver.
  - intros [(-> & -> & ?)|?] [(-> & -> & ?)|?]; try done. by eapply inv_single.
Qed.

Lemma evict_lookup s id l :
  inv s → locks (evict_idle_locks s).1 !! id = Some l ↔
    locks s !! id = Some l ∧ ∃ c p, callers s !! c = Some (id, p).
Proof.
  intros Hi. cbn. rewrite map_lookup_filter_Some. cbn. split; intros [Hl Hx]; (split; [done|]);
    by apply (strong_count_used s id l Hi Hl).
Qed.

Lemma inv_evict s : inv s → inv (evict_idle_locks s).1.
Proof.
  intros Hi. split.
  - intros c id p Hc. apply evict_lookup; [done|]. split; [|by eauto]. by eapply inv_current.
  - intros id id' l [H1 _]%evict_lookup [H2 _]%evict_lookup; try done. by eapply inv_distinct.
  - intros id l [H1 _]%evict_lookup; [|done]. by eapply (inv_allocated s Hi).
  - apply (inv_locked s Hi).
  - apply (inv_single s Hi).
Qed.

(** The callers that have a guard after one of them changed its phase. *)
Lemma guards_set_caller s c x L l :
  (∃ c' id', callers (set_caller c x L s) !! c' = Some (id', Guard l)) ↔
  (∃ id', x = Some (id', Guard l)) ∨ ∃ c' id', c' ≠ c ∧ callers s !! c' = Some (id', Guard l).
Proof.
  setoid_rewrite lookup_set_caller. split.
  - intros (c' & id' & H). case_decide; naive_solver.
  - intros [[id' ->]|(c' & id' & Hne & H)]; [exists c, id'; by rewrite decide_True|].
    exists c', id'. by rewrite decide_False.
Qed.

Lemma inv_step s s' : step s s' → inv s → inv s'.
Proof.
  intros Hst Hi. destruct Hst as [s c id Hc|s c id l Hc Hl|s c id l Hc|s c id l Hc|s c id l Hc|s].
  - by apply inv_entry_clone.
  - eapply inv_set_caller; [done..|naive_solver| |naive_solver].
    intros l'. rewrite guards_set_caller. rewrite elem_of_union, elem_of_singleton, (inv_locked s Hi).
    split; [|naive_solver]. intros [->|(c' & id' & H')]; [eauto|]. right. exists c', id'. naive_solver.
  - eapply inv_set_caller; [done..|naive_solver| |naive_solver].
    intros l'. rewrite guards_set_caller, (inv_locked s Hi). split; [|naive_solver].
    intros (c' & id' & H'). right. exists c', id'. naive_solver.
  - eapply inv_set_caller; [done..|naive_solver| |naive_solver].
    intros l'. rewrite guards_set_caller. rewrite elem_of_difference, elem_of_singleton, (inv_locked s Hi). split.
    + intros [(c' & id' & H') Hne]. right. exists c', id'. naive_solver.
    + intros [[? [=]]|(c' & id' & Hne & H')]. split; [eauto|]. intros ->.
      by apply Hne, (inv_single s Hi _ _ _ _ _ H' Hc).
  - eapply inv_set_caller; [done..|naive_solver| |naive_solver].
    intros l'. rewrite guards_set_caller, (inv_locked s Hi). split; [|naive_solver].
    intros (c' & id' & H'). right. exists c', id'. naive_solver.
  - by apply inv_evict.
Qed.

Lemma inv_reachable s : rtc step new s → inv s.
Proof.
  assert (∀ s s', rtc step s s' → inv s → inv s') as Hind by (induction 1; eauto using inv_step).
  intros Hr. apply (Hind _ _ Hr), inv_new.
Qed.

(** C35: The lock map is one lock per id.  However callers and the sweeper
    interleave, at most one caller has the guard for an id; a caller waiting for
    an id can take its lock exactly when no caller has the guard for that id, so
    neither other ids nor an eviction in between make it wait or let it in; and
    a sweep leaves the entries of the ids in use and no other. *)
Theorem lock_map_exclusive s :
  rtc step new s →
  (∀ c c' id, holds s c id → holds s c' id → c = c') ∧
  (∀ c id l, callers s !! c = Some (id, Cloned l) → l ∉ locked s ↔ ¬ ∃ c', holds s c' id) ∧
  (∀ id, is_Some (locks (evict_idle_locks s).1 !! id) ↔ ∃ c p, callers s !! c = Some (id, p)).
Proof.
  intros Hi%inv_reachable. split_and!.
  - intros c c' id [l Hl] [l' Hl']. pose proof (inv_current s Hi _ _ _ Hl). pose proof (inv_current s Hi _ _ _ Hl').
    cbn in *. assert (l = l') as <- by congruence. by eapply inv_single.
  - intros c id l Hc. pose proof (inv_current s Hi _ _ _ Hc) as Hl. cbn in Hl. rewrite (inv_locked s Hi).
    split; intros Hn; contradict Hn.
    + destruct Hn as (c' & l' & Hc'). exists c', id. pose proof (inv_current s Hi _ _ _ Hc'). cbn in *. congruence.
    + destruct Hn as (c' & id' & Hc'). exists c', l. pose proof (inv_current s Hi _ _ _ Hc') as Hl'. cbn in Hl'.
      by rewrite (inv_distinct s Hi id id' l Hl Hl').
  - intros id. split; [by intros [l [_ ?]%evict_lookup]|]. intros (c & p & Hc). exists (lock_of p).
    apply evict_lookup; [done|]. split; [by eapply inv_current|eauto].
Qed.

(** A session locked, swept, and asked for again. *)
Lemma lock_map_exclusive_witness :
  ∃ s, holds s 1 "s1" ∧ (∃ l, callers s !! 2%nat = Some ("s1", Cloned l) ∧ l ∈ locked s) ∧
    ∀ c, holds s c "s1" → c = 1%nat.
Proof.
  set (s1 := entry_clone 1 "s1" new). set (s2 := set_caller 1 (Some ("s1", Guard 0)) ({[0%nat]} ∪ locked s1) s1).
  set (s3 := (evict_idle_locks s2).1). set (s4 := entry_clone 2 "s1" s3).
  assert (rtc step new s4) as Hr.
  { eapply rtc_l; [by apply (step_clone new 1 "s1")|]. fold s1.
    eapply rtc_l; [apply (step_lock s1 1 "s1" 0); [done|by apply not_elem_of_empty]|]. fold s2.
    eapply rtc_l; [apply step_evict|]. fold s3. apply rtc_once, step_clone. by vm_compute. }
  assert (holds s4 1 "s1") as Hh by (exists 0%nat; by vm_compute).
  exists s4. split; [done|]. split.
  - exists 0%nat. split; [by vm_compute|]. apply (bool_decide_eq_true_1 (0%nat ∈ locked s4)). by vm_compute.
  - intros c Hc. exact (proj1 (lock_map_exclusive s4 Hr) c 1%nat "s1" Hc Hh).
Defined.
End LockMap.
