(* ===== verification/Schedule.v ===== *)
(** * Schedules of repeating tasks

    src/repeating.rs: parsing a schedule, the next slot after an instant, the
    policy that spaces scheduler runs, and the test that a task is due.  The
    calendar and time zones are chrono and chrono-tz, the class [Chrono] with
    the documented behaviour the code relies on in [ChronoLaws]; the JSON of a
    schedule is serde's, the class [ScheduleJson].  Gregorian.v has instances
    of both.

    Instants are nanoseconds since the epoch, naive local times likewise, and
    dates are days.  Additions that leave chrono's range panic; only the one a
    stored schedule can reach, adding the minutes of an interval, is modelled:
    the others need a clock within a month of the year 262142. *)

From S2P Require Import Prelude RustStr.

Module Schedule.

Definition SEC : Z := 1000000000.
Definition MINUTE : Z := 60 * SEC.
Definition HOUR : Z := 60 * MINUTE.
Definition DAY : Z := 24 * HOUR.

(** A function that may panic. *)
Inductive Outcome (A : Type) := Panic | Return (a : A).
Arguments Panic {A}.
Arguments Return {A} a.

#[export] Instance outcome_ret : MRet Outcome := λ A a, Return a.
#[export] Instance outcome_bind : MBind Outcome :=
  λ A B f m, match m with Return a => f a | Panic => Panic end.

(** ** The calendar and the zones *)

Inductive LocalResult := Single (u : Z) | Ambiguous (earliest latest : Z) | NoLocal.

Class Chrono := {
  (** Dates, and [NaiveDate::MIN] and [MAX]. *)
  year : Z → Z;
  month : Z → Z;
  day : Z → Z;
  num_days_from_monday : Z → Z;
  min_date : Z;
  max_date : Z;
  from_ymd_opt : Z → Z → Z → option Z;
  (** Instants: the last one, and RFC 3339. *)
  max_utc : Z;
  to_rfc3339 : Z → string;
  parse_from_rfc3339 : string → option Z;
  parse_from_str : string → string → Result string Z;
  (** Zones. *)
  Tz : Type;
  UTC : Tz;
  parse_tz : string → option Tz;
  naive_local : Tz → Z → Z;
  from_local_datetime : Tz → Z → LocalResult;
}.

(** What [serde_json::from_str] makes of the stored value, by kind. *)
Class ScheduleJson := {
  interval_value : string → Result string Z;
  daily_value : string → Result string (Z * Z);
  weekly_value : string → Result string (Z * Z * Z);
  monthly_value : string → Result string (Z * Z * Z);
  once_value : string → Result string string;
}.

(** ** Schedules *)

Inductive Schedule :=
  | Interval (minutes : Z)
  | Daily (hour minute : Z)
  | Weekly (weekday hour minute : Z)
  | Monthly (day hour minute : Z)
  | Once (at_ : Z).

Definition MIN_INTERVAL_MINUTES : Z := 1.
Definition MIN_SCHEDULER_GAP_SECONDS : Z := 60.
Definition SCHEDULER_GAP_SLOP_SECONDS : Z := 30.

Record RepeatingTask := mkTask {
  t_id : string;
  t_name : string;
  t_description : string;
  t_folder_id : string;
  t_prompt : string;
  t_schedule_kind : string;
  t_schedule_value : string;
  t_model : option string;
  t_effort : option string;
  t_enabled : bool;
  t_next_run_at : option string;
  t_last_run_at : option string;
  t_created_at : string;
  t_updated_at : string;
  t_timezone : option string;
  t_target : option string;
}.

Inductive RunTrigger := Manual | Scheduler.
#[export] Instance RunTrigger_eq_dec : EqDecision RunTrigger.
Proof. solve_decision. Defined.

Inductive PolicyDecision := Allow | Throttle (reason : string).

(** [format!("{z}")]. *)
Definition dec (z : Z) : string :=
  if z <? 0 then "-" +:+ to_dec (Z.to_N (- z)) else to_dec (Z.to_N z).

(** [i64::saturating_mul(m, 60)]. *)
Definition saturating_mul_60 (m : Z) : Z := Z.max (- 2 ^ 63) (Z.min (2 ^ 63 - 1) (m * 60)).

(** [TimeDelta::num_seconds], which truncates. *)
Definition num_seconds (d : Z) : Z := Z.quot d SEC.

Section schedule.
Context `{Chrono} `{ScheduleJson}.

Definition map_err {A} (f : string → string) (r : Result string A) : Result string A :=
  match r with Ok a => Ok a | Err e => Err (f e) end.

Definition parse (kind value_json : string) : Result string Schedule :=
  if kind == "interval" then
    minutes ← map_err (λ e, "invalid interval schedule value: " +:+ e) (interval_value value_json);
    if minutes <? MIN_INTERVAL_MINUTES
    then Err ("interval minutes must be >= 1 (got " +:+ dec minutes +:+ ")")
    else Ok (Interval minutes)
  else if kind == "daily" then
    '(hour, minute) ← map_err (λ e, "invalid daily schedule value: " +:+ e) (daily_value value_json);
    if (23 <? hour) || (59 <? minute) then Err "daily hour/minute out of range"
    else Ok (Daily hour minute)
  else if kind == "weekly" then
    '(weekday, hour, minute) ← map_err (λ e, "invalid weekly schedule value: " +:+ e) (weekly_value value_json);
    if (6 <? weekday) || (23 <? hour) || (59 <? minute) then Err "weekly weekday/hour/minute out of range"
    else Ok (Weekly weekday hour minute)
  else if kind == "monthly" then
    '(day, hour, minute) ← map_err (λ e, "invalid monthly schedule value: " +:+ e) (monthly_value value_json);
    if (day <? 1) || (31 <? day) || (23 <? hour) || (59 <? minute) then Err "monthly day/hour/minute out of range"
    else Ok (Monthly day hour minute)
  else if kind == "once" then
    at_ ← map_err (λ e, "invalid once schedule value: " +:+ e) (once_value value_json);
    at_ ← map_err (λ e, "invalid once schedule value: " +:+ e)
      match parse_from_str at_ "%Y-%m-%dT%H:%M:%S" with
      | Ok t => Ok t
      | Err _ => parse_from_str at_ "%Y-%m-%dT%H:%M"
      end;
    Ok (Once at_)
  else Err ("unknown schedule_kind: " +:+ kind).

Definition schedule_of (task : RepeatingTask) : Result string Schedule :=
  parse (t_schedule_kind task) (t_schedule_value task).

Definition task_tz (task : RepeatingTask) : Tz :=
  default UTC (t_timezone task ≫= parse_tz).

(** The loop of [resolve_local] over the minutes after a time that does not
    occur. *)
Fixpoint first_valid (n : nat) (tz : Tz) (candidate : Z) : option Z :=
  match n with
  | O => None
  | S n =>
    let candidate := candidate + MINUTE in
    match from_local_datetime tz candidate with
    | Single dt => Some dt
    | _ => first_valid n tz candidate
    end
  end.

Definition resolve_local (tz : Tz) (naive : Z) : Z :=
  match from_local_datetime tz naive with
  | Single dt => dt
  | Ambiguous earliest _ => earliest
  | NoLocal => default naive (first_valid 180 tz naive)
  end.

Definition next_calendar_month (year month : Z) : Z * Z :=
  if month =? 12 then (year + 1, 1) else (year, month + 1).

Definition pred_opt (d : Z) : option Z := if min_date <? d then Some (d - 1) else None.

Definition last_day_of_month (year month : Z) : Z :=
  let '(ny, nm) := next_calendar_month year month in
  default 28 (day <$> (from_ymd_opt ny nm 1 ≫= pred_opt)).

(** [date.and_hms_opt(hour, minute, 0)]. *)
Definition and_hms_opt (date hour minute : Z) : option Z :=
  if (hour <=? 23) && (minute <=? 59) then Some (date * DAY + hour * HOUR + minute * MINUTE) else None.

Definition monthly_candidate (year month day hour minute : Z) : option Z :=
  let clamped := Z.min day (last_day_of_month year month) in
  date ← from_ymd_opt year month clamped;
  and_hms_opt date hour minute.

Definition parse_rfc3339_utc (s : string) : option Z := parse_from_rfc3339 s.

(** The local time of the next run of a calendar schedule. *)
Definition daily_candidate (now_local hour minute : Z) : option Z :=
  let date := now_local / DAY in
  candidate ← and_hms_opt date hour minute;
  if candidate <=? now_local then and_hms_opt (date + 1) hour minute else Some candidate.

Definition weekly_candidate (now_local weekday hour minute : Z) : option Z :=
  let date := now_local / DAY in
  candidate ← and_hms_opt date hour minute;
  let current := num_days_from_monday (now_local / DAY) in
  let delta := (weekday + 7 - current) mod 7 in
  let delta := if (delta =? 0) && (candidate <=? now_local) then 7 else delta in
  and_hms_opt (date + delta) hour minute.

Definition monthly_next (now_local day_ hour minute : Z) : option Z :=
  let year := year (now_local / DAY) in
  let month := month (now_local / DAY) in
  candidate ← monthly_candidate year month day_ hour minute;
  if candidate <=? now_local then
    let '(year, month) := next_calendar_month year month in
    monthly_candidate year month day_ hour minute
  else Some candidate.

Definition next_instant (sched : Schedule) (tz : Tz) (now : Z) : Outcome (option Z) :=
  let now_local := naive_local tz now in
  match sched with
  | Interval minutes =>
    let next := now + minutes * MINUTE in
    if max_utc <? next then Panic
    else Return (Some (next - next mod MINUTE))
  | Daily hour minute => Return (resolve_local tz <$> daily_candidate now_local hour minute)
  | Weekly weekday hour minute => Return (resolve_local tz <$> weekly_candidate now_local weekday hour minute)
  | Monthly day hour minute => Return (resolve_local tz <$> monthly_next now_local day hour minute)
  | Once at_ =>
    let candidate_utc := resolve_local tz at_ in
    Return (if candidate_utc <=? now then None else Some candidate_utc)
  end.

Definition next_run_at_after (task : RepeatingTask) (now : Z) : Outcome (option string) :=
  match schedule_of task with
  | Err _ => mret None
  | Ok sched => next ← next_instant sched (task_tz task) now; mret (option_map to_rfc3339 next)
  end.

Definition next_run_fields (task : RepeatingTask) (now : Z) : Outcome (option string * option bool) :=
  match schedule_of task with
  | Err _ => mret (None, Some false)
  | Ok (Once _) => next ← next_run_at_after task now; mret (next, Some false)
  | Ok _ => next ← next_run_at_after task now; mret (next, None)
  end.

Definition is_consumed_once (task : RepeatingTask) : bool :=
  let is_once := match schedule_of task with Ok (Once _) => true | _ => false end in
  let re_armed := t_enabled task && is_some (t_next_run_at task) in
  is_once && is_some (t_last_run_at task) && negb re_armed.

(** ** The run policy *)

Definition min_run_gap_seconds (task : RepeatingTask) : Z :=
  let schedule_floor :=
    match schedule_of task with
    | Ok (Interval minutes) => saturating_mul_60 minutes
    | Ok (Daily _ _) => 86400
    | Ok (Weekly _ _ _) => 7 * 86400
    | Ok (Monthly _ _ _) => 28 * 86400
    | Ok (Once _) => MIN_SCHEDULER_GAP_SECONDS
    | Err _ => MIN_SCHEDULER_GAP_SECONDS
    end in
  Z.max schedule_floor MIN_SCHEDULER_GAP_SECONDS.

Definition expected_gap_seconds (task : RepeatingTask) (last : Z) : Outcome Z :=
  spacing ←
    match schedule_of task with
    | Ok (Interval minutes) => mret (saturating_mul_60 minutes)
    | Ok (Once _) | Err _ => mret MIN_SCHEDULER_GAP_SECONDS
    | Ok _ =>
      next ← next_run_at_after task last;
      mret match option_bind _ _ parse_from_rfc3339 next with
           | Some next => num_seconds (next - last)
           | None => min_run_gap_seconds task
           end
    end;
  mret (Z.max spacing MIN_SCHEDULER_GAP_SECONDS).

Definition allowed_gap_seconds (task : RepeatingTask) (last : Z) : Outcome Z :=
  expected ← expected_gap_seconds task last;
  mret (Z.max (expected - SCHEDULER_GAP_SLOP_SECONDS) MIN_SCHEDULER_GAP_SECONDS).

Definition check_run_policy (task : RepeatingTask) (last_run_at_rfc3339 : option string) (now : Z)
    (trigger : RunTrigger) : Outcome PolicyDecision :=
  if trigger == Manual then mret Allow
  else match last_run_at_rfc3339 ≫= parse_from_rfc3339 with
  | None => mret Allow
  | Some last =>
    let gap := num_seconds (now - last) in
    if gap <? MIN_SCHEDULER_GAP_SECONDS then
      mret (Throttle ("scheduler run blocked: only " +:+ dec gap +:+
        "s since last run (hard floor is 60s)"))
    else
      allowed ← allowed_gap_seconds task last;
      if gap <? allowed then
        mret (Throttle ("scheduler run blocked: only " +:+ dec gap +:+
          "s since last run for task with schedule_kind=" +:+ t_schedule_kind task +:+
          " (allowed minimum is " +:+ dec allowed +:+ "s)"))
      else mret Allow
  end.

Definition is_scheduler_due (task : RepeatingTask) (now : Z) : Outcome bool :=
  if negb (t_enabled task) then mret false
  else if is_consumed_once task then mret false
  else if negb (is_ok (schedule_of task)) then mret true
  else
    slot_due ←
      match t_last_run_at task ≫= parse_rfc3339_utc with
      | Some last_dt =>
        next ← next_run_at_after task last_dt;
        mret match next with
             | Some next => match parse_rfc3339_utc next with Some n => n <=? now | None => false end
             | None => false
             end
      | None =>
        mret match t_next_run_at task ≫= parse_rfc3339_utc with
             | Some next => next <=? now
             | None => true
             end
      end;
    if negb slot_due then mret false
    else
      d ← check_run_policy task (t_last_run_at task) now Scheduler;
      mret match d with Throttle _ => false | Allow => true end.
End schedule.

(** ** What the code relies on *)

(** [to_rfc3339] writes a year of four digits, which [parse_from_rfc3339]
    reads, up to the end of 9999. *)
Definition Y10K : Z := 253402300800 * SEC.

(** The documented behaviour of chrono: dates follow one another as in the
    calendar, and [from_local_datetime] finds the instants that show a local
    time. *)
Class ChronoLaws `{Chrono} : Prop := {
  from_ymd_spec y m d D :
    from_ymd_opt y m d = Some D ↔ min_date ≤ D ≤ max_date ∧ year D = y ∧ month D = m ∧ day D = d;
  day_range D : min_date ≤ D ≤ max_date → 1 ≤ day D ≤ 31;
  next_date D : min_date ≤ D < max_date →
    (year (D + 1) = year D ∧ month (D + 1) = month D ∧ day (D + 1) = day D + 1) ∨
    (28 ≤ day D ∧ (year (D + 1), month (D + 1)) = next_calendar_month (year D) (month D) ∧ day (D + 1) = 1);
  weekday_range D : min_date ≤ D ≤ max_date → 0 ≤ num_days_from_monday D < 7;
  weekday_next D : min_date ≤ D < max_date →
    num_days_from_monday (D + 1) = (num_days_from_monday D + 1) mod 7;
  rfc3339_roundtrip t : 0 ≤ t < Y10K → parse_from_rfc3339 (to_rfc3339 t) = Some t;
  utc_local t : naive_local UTC t = t;
  local_spec tz l :
    match from_local_datetime tz l with
    | Single u => ∀ v, naive_local tz v = l ↔ v = u
    | Ambiguous a b => a < b ∧ ∀ v, naive_local tz v = l ↔ v = a ∨ v = b
    | NoLocal => ∀ v, naive_local tz v ≠ l
    end;
}.

(** The fields of the values are [u32]. *)
Class ScheduleJsonLaws `{ScheduleJson} : Prop := {
  daily_unsigned s h m : daily_value s = Ok (h, m) → 0 ≤ h ∧ 0 ≤ m;
  weekly_unsigned s w h m : weekly_value s = Ok (w, h, m) → 0 ≤ w ∧ 0 ≤ h ∧ 0 ≤ m;
  monthly_unsigned s d h m : monthly_value s = Ok (d, h, m) → 0 ≤ d ∧ 0 ≤ h ∧ 0 ≤ m;
}.
End Schedule.
