(* ===== verification/Gregorian.v ===== *)
(** * A calendar that meets the laws

    The proleptic Gregorian calendar by arithmetic on day numbers, a zone with
    a daylight-saving change each way, and decimal numbers for timestamps and
    schedule values: an instance of [Chrono] and [ScheduleJson] for which the
    laws of Schedule.v are proved, and on which schedules can be run. *)

From S2P Require Import Prelude RustStr Schedule.

Module Gregorian.
Import Schedule.

(** Days from 0001-01-01 to the epoch. *)
Definition EPOCH : Z := 719162.

(** Days before 1 January of a year. *)
Definition before_year (y : Z) : Z := 365 * (y - 1) + (y - 1) / 4 - (y - 1) / 100 + (y - 1) / 400.
Definition leap (y : Z) : bool := before_year (y + 1) - before_year y =? 366.

(** Days before the first of a month, of a year that starts on day 0. *)
Definition before_month (leap : bool) (m : Z) : Z :=
  let l := if leap then 1 else 0 in
  if m <=? 1 then 0 else if m =? 2 then 31 else
  l + (if m =? 3 then 59 else if m =? 4 then 90 else if m =? 5 then 120 else if m =? 6 then 151
       else if m =? 7 then 181 else if m =? 8 then 212 else if m =? 9 then 243 else if m =? 10 then 273
       else if m =? 11 then 304 else if m =? 12 then 334 else 365).

Definition year_of (n : Z) : Z :=
  let y := 400 * n / 146097 + 1 in
  if n <? before_year y then y - 1 else if n <? before_year (y + 1) then y else y + 1.

Definition month_of (leap : bool) (r : Z) : Z :=
  let after m := before_month leap m <=? r in
  if after 12 then 12 else if after 11 then 11 else if after 10 then 10 else if after 9 then 9
  else if after 8 then 8 else if after 7 then 7 else if after 6 then 6 else if after 5 then 5
  else if after 4 then 4 else if after 3 then 3 else if after 2 then 2 else 1.

Definition g_year (D : Z) : Z := year_of (D + EPOCH).
Definition g_rest (D : Z) : Z := D + EPOCH - before_year (g_year D).
Definition g_month (D : Z) : Z := month_of (leap (g_year D)) (g_rest D).
Definition g_day (D : Z) : Z := g_rest D - before_month (leap (g_year D)) (g_month D) + 1.
Definition g_min : Z := - EPOCH.
Definition g_max : Z := 2932896.

Definition g_from_ymd (y m d : Z) : option Z :=
  let D := before_year y + before_month (leap y) m + d - 1 - EPOCH in
  if (g_min <=? D) && (D <=? g_max) && (g_year D =? y) && (g_month D =? m) && (g_day D =? d) then Some D else None.

Lemma before_year_bounds y : 365 ≤ before_year (y + 1) - before_year y ≤ 366.
Proof. unfold before_year. dlia. Qed.

Lemma before_year_mono y y' : y ≤ y' → before_year y ≤ before_year y'.
Proof.
  intros Hle. replace y' with (y + Z.of_nat (Z.to_nat (y' - y))) by lia.
  induction (Z.to_nat (y' - y)) as [|n IH]; [rewrite Z.add_0_r; lia|].
  replace (y + Z.of_nat (S n)) with (y + Z.of_nat n + 1) by lia. pose proof (before_year_bounds (y + Z.of_nat n)). lia.
Qed.

Lemma year_of_spec n : before_year (year_of n) ≤ n < before_year (year_of n + 1).
Proof.
  unfold year_of. set (y := 400 * n / 146097 + 1).
  assert (before_year (y - 1) ≤ n < before_year (y + 1 + 1)) by (unfold before_year, y; dlia).
  destruct (n <? before_year y) eqn:E1; [apply Z.ltb_lt in E1; replace (y - 1 + 1) with y by lia; lia|].
  apply Z.ltb_ge in E1. destruct (n <? before_year (y + 1)) eqn:E2; [apply Z.ltb_lt in E2|apply Z.ltb_ge in E2]; lia.
Qed.

Lemma year_of_unique n y : before_year y ≤ n < before_year (y + 1) → year_of n = y.
Proof.
  intros Hy. pose proof (year_of_spec n) as Hs. destruct (Z.lt_trichotomy (year_of n) y) as [L|[E|L]]; [|done|].
  - pose proof (before_year_mono (year_of n + 1) y). lia.
  - pose proof (before_year_mono (y + 1) (year_of n)). lia.
Qed.

Lemma month_of_spec l r :
  0 ≤ r < before_month l 13 →
  1 ≤ month_of l r ≤ 12 ∧ before_month l (month_of l r) ≤ r < before_month l (month_of l r + 1).
Proof.
  intros Hr. unfold month_of. cbv beta zeta.
  repeat match goal with |- context [if ?b <=? r then _ else _] =>
    let E := fresh "E" in destruct (b <=? r) eqn:E; [apply Z.leb_le in E|apply Z.leb_gt in E] end;
  destruct l; cbv -[Z.le Z.lt] in *; lia.
Qed.

Lemma before_month_step l m : 1 ≤ m ≤ 12 → 28 ≤ before_month l (m + 1) - before_month l m ≤ 31.
Proof.
  intros Hm. assert (m ∈ [1;2;3;4;5;6;7;8;9;10;11;12]) as Hin
    by (rewrite !elem_of_cons, elem_of_nil; lia).
  repeat (apply elem_of_cons in Hin as [->|Hin]; [by destruct l|]). by apply elem_of_nil in Hin.
Qed.

Lemma month_of_unique l r m :
  1 ≤ m ≤ 12 → before_month l m ≤ r < before_month l (m + 1) → month_of l r = m.
Proof.
  intros Hm. assert (m ∈ [1;2;3;4;5;6;7;8;9;10;11;12]) as Hin
    by (rewrite !elem_of_cons, elem_of_nil; lia).
  repeat (apply elem_of_cons in Hin as [->|Hin]; [
    intros Hr; unfold month_of; cbv beta zeta;
    repeat match goal with |- context [if ?b <=? r then _ else _] =>
      let E := fresh "E" in destruct (b <=? r) eqn:E; [apply Z.leb_le in E|apply Z.leb_gt in E] end;
    destruct l; cbv -[Z.le Z.lt] in *; lia|]).
  by apply elem_of_nil in Hin.
Qed.

Lemma before_month_13 y : before_month (leap y) 13 = before_year (y + 1) - before_year y.
Proof.
  pose proof (before_year_bounds y). unfold leap. destruct (_ =? 366) eqn:E;
    [apply Z.eqb_eq in E|apply Z.eqb_neq in E]; cbn; lia.
Qed.

(** The place of a date in its year and month. *)
Lemma g_spec D :
  0 ≤ g_rest D < before_month (leap (g_year D)) 13 ∧ 1 ≤ g_month D ≤ 12 ∧
  before_month (leap (g_year D)) (g_month D) ≤ g_rest D < before_month (leap (g_year D)) (g_month D + 1).
Proof.
  pose proof (year_of_spec (D + EPOCH)) as Hy.
  assert (0 ≤ g_rest D < before_month (leap (g_year D)) 13) as Hr
    by (rewrite before_month_13; unfold g_rest, g_year in *; lia).
  split; [done|]. by apply month_of_spec.
Qed.

Lemma g_next D :
  (g_year (D + 1) = g_year D ∧ g_month (D + 1) = g_month D ∧ g_day (D + 1) = g_day D + 1) ∨
  (28 ≤ g_day D ∧ (g_year (D + 1), g_month (D + 1)) = next_calendar_month (g_year D) (g_month D) ∧ g_day (D + 1) = 1).
Proof.
  destruct (g_spec D) as (Hr & Hm & Hb). rewrite before_month_13 in Hr.
  pose proof (before_month_step (leap (g_year D)) (g_month D) Hm) as Hlen.
  destruct (Z.eq_dec (D + 1 + EPOCH) (before_year (g_year D + 1))) as [Hnew|Hsame].
  - assert (g_year (D + 1) = g_year D + 1) as Hy.
    { apply year_of_unique. pose proof (before_year_bounds (g_year D + 1)). lia. }
    assert (g_rest (D + 1) = 0) as Hr0 by (unfold g_rest; rewrite Hy; lia).
    assert (g_month D = 12) as Hm12.
    { apply month_of_unique; [lia|]. change (12 + 1) with 13. rewrite before_month_13.
      split; [|lia]. unfold g_rest. pose proof (before_year_bounds (g_year D)).
      pose proof (before_month_13 (g_year D)). destruct (leap (g_year D)); cbn in *; lia. }
    assert (g_month (D + 1) = 1) as Hm1.
    { apply month_of_unique; [lia|]. rewrite Hr0. by destruct (leap _). }
    right. unfold next_calendar_month. rewrite Hm12 in *. cbn [Z.eqb Pos.eqb]. rewrite Hy, Hm1. split_and!; [|done|].
    + unfold g_day. rewrite Hm12. change (12 + 1) with 13 in *. rewrite before_month_13 in Hlen.
      unfold g_rest. lia.
    + unfold g_day. rewrite Hm1, Hr0. by destruct (leap _).
  - assert (g_year (D + 1) = g_year D) as Hy by (apply year_of_unique; unfold g_rest in Hr; lia).
    assert (g_rest (D + 1) = g_rest D + 1) as Hr1 by (unfold g_rest; rewrite Hy; lia).
    destruct (Z.eq_dec (g_rest D + 1) (before_month (leap (g_year D)) (g_month D + 1))) as [Hend|Hin].
    + right. assert (g_month D ≠ 12) as Hne.
      { intros E. rewrite E in Hend. change (12 + 1) with 13 in Hend. rewrite before_month_13 in Hend. unfold g_rest in Hend. lia. }
      assert (g_month (D + 1) = g_month D + 1) as Hm1.
      { unfold g_month at 1. rewrite Hy, Hr1. apply month_of_unique; [lia|].
        pose proof (before_month_step (leap (g_year D)) (g_month D + 1)). lia. }
      unfold next_calendar_month. destruct (g_month D =? 12) eqn:E; [by apply Z.eqb_eq in E|].
      rewrite Hy, Hm1. unfold g_day. rewrite Hy, Hm1, Hr1. split_and!; [lia|done|lia].
    + left. assert (g_month (D + 1) = g_month D) as Hm1.
      { unfold g_month at 1. rewrite Hy, Hr1. apply month_of_unique; [lia|]. lia. }
      split_and!; [done..|]. unfold g_day. rewrite Hy, Hm1, Hr1. lia.
Qed.

(** ** A zone *)

(** New York in 2026, with its winter time kept before and after: four hours
    behind UTC from 8 March 07:00 UTC to 1 November 06:00 UTC, five otherwise. *)
Definition SPRING : Z := 1772953200 * SEC.
Definition FALL : Z := 1793512800 * SEC.

Definition ny_local (u : Z) : Z := if (SPRING <=? u) && (u <? FALL) then u - 4 * HOUR else u - 5 * HOUR.

Definition ny_from_local (l : Z) : LocalResult :=
  let summer := l + 4 * HOUR in
  let winter := l + 5 * HOUR in
  match ny_local summer =? l, ny_local winter =? l with
  | true, true => Ambiguous summer winter
  | true, false => Single summer
  | false, true => Single winter
  | false, false => NoLocal
  end.

(** [false] is UTC, [true] is New York. *)
Definition g_local (tz : bool) (u : Z) : Z := if tz then ny_local u else u.
Definition g_from_local (tz : bool) (l : Z) : LocalResult := if tz then ny_from_local l else Single l.

Lemma ny_local_inv u l : ny_local u = l → u = l + 4 * HOUR ∨ u = l + 5 * HOUR.
Proof. unfold ny_local. destruct (_ && _); lia. Qed.

Lemma g_local_spec tz l :
  match g_from_local tz l with
  | Single u => ∀ v, g_local tz v = l ↔ v = u
  | Ambiguous a b => a < b ∧ ∀ v, g_local tz v = l ↔ v = a ∨ v = b
  | NoLocal => ∀ v, g_local tz v ≠ l
  end.
Proof.
  destruct tz; [|done]. cbn. unfold ny_from_local. cbv zeta.
  destruct (ny_local (l + 4 * HOUR) =? l) eqn:E1; [apply Z.eqb_eq in E1|apply Z.eqb_neq in E1];
    (destruct (ny_local (l + 5 * HOUR) =? l) eqn:E2; [apply Z.eqb_eq in E2|apply Z.eqb_neq in E2]).
  - split; [unfold HOUR, MINUTE, SEC; lia|]. intros v. split; [apply ny_local_inv|by intros [->| ->]].
  - intros v. split; [|by intros ->]. intros Hv. destruct (ny_local_inv _ _ Hv) as [->| ->]; congruence.
  - intros v. split; [|by intros ->]. intros Hv. destruct (ny_local_inv _ _ Hv) as [->| ->]; congruence.
  - intros v Hv. destruct (ny_local_inv _ _ Hv) as [->| ->]; congruence.
Qed.

(** ** The instances *)

Definition number (s : string) : Result string Z :=
  match digits_value 0 s with Some n => Ok (Z.of_N n) | None => Err "not a number" end.

#[export] Instance gregorian : Chrono := {|
  year := g_year; month := g_month; day := g_day;
  num_days_from_monday D := (D + 3) mod 7;
  min_date := g_min; max_date := g_max; from_ymd_opt := g_from_ymd;
  max_utc := (g_max + 1) * DAY;
  to_rfc3339 t := to_dec (Z.to_N t);
  parse_from_rfc3339 s := result_ok (number s);
  parse_from_str s _ := number s;
  Tz := bool; UTC := false;
  parse_tz s := if s == "America/New_York" then Some true else None;
  naive_local := g_local; from_local_datetime := g_from_local;
|}.

(** Minutes of the hour, of the day and so on, as one number. *)
#[export] Instance numbers : ScheduleJson := {|
  interval_value := number;
  daily_value s := n ← number s; Ok (n / 60, n mod 60);
  weekly_value s := n ← number s; Ok (n / 1440, n mod 1440 / 60, n mod 60);
  monthly_value s := n ← number s; Ok (n / 1440, n mod 1440 / 60, n mod 60);
  once_value s := Ok s;
|}.

#[export] Instance gregorian_laws : ChronoLaws.
Proof.
  split; cbn -[to_dec digits_value].
  - intros y m d D. unfold g_from_ymd. cbv zeta. split.
    + destruct (_ && _) eqn:E; [|done]. intros [= <-]. revert E.
      rewrite !andb_true_iff, !Z.leb_le, !Z.eqb_eq. tauto.
    + intros (HD & <- & <- & <-).
      replace (before_year (g_year D) + before_month (leap (g_year D)) (g_month D) + g_day D - 1 - EPOCH) with D
        by (unfold g_day, g_rest; lia).
      rewrite !Z.eqb_refl. destruct (g_min <=? D) eqn:E1; [|apply Z.leb_gt in E1; lia].
      destruct (D <=? g_max) eqn:E2; [done|]. apply Z.leb_gt in E2. lia.
  - intros D _. destruct (g_spec D) as (_ & Hm & Hb).
    pose proof (before_month_step (leap (g_year D)) (g_month D) Hm). unfold g_day. lia.
  - intros D _. apply g_next.
  - intros D _. dlia.
  - intros D _. dlia.
  - intros t Ht. unfold number. rewrite digits_value_dec. cbn. f_equal. lia.
  - done.
  - apply g_local_spec.
Qed.

Lemma number_unsigned s n : number s = Ok n → 0 ≤ n.
Proof. unfold number. destruct (digits_value 0 s); [|done]. intros [= <-]. lia. Qed.

#[export] Instance numbers_laws : ScheduleJsonLaws.
Proof.
  split; cbn; intros *; intros (n & Hn%number_unsigned & E)%bind_ok; injection E as <- <- <- || injection E as <- <-; dlia.
Qed.
End Gregorian.
