(* ===== verification/ScheduleProps.v ===== *)
(** * Properties of schedules

    The next slot is the first one the schedule names after now, in the task's
    zone; the policy spaces the runs of the scheduler; and what a repeated hour
    does to both. *)

From S2P Require Import Prelude RustStr Schedule Gregorian.

Module ScheduleProps.
Import Schedule.

Lemma day_units : DAY = 86400 * SEC ∧ HOUR = 3600 * SEC ∧ MINUTE = 60 * SEC ∧ SEC = 1000000000.
Proof. done. Qed.

Section props.
Context `{ChronoLaws} `{ScheduleJsonLaws}.

(** ** What a schedule means *)

(** The days of a calendar schedule, and its time of day: a monthly schedule
    for a day the month does not have runs on its last day. *)
Definition on_day (sched : Schedule) (D : Z) : Prop :=
  match sched with
  | Daily _ _ => True
  | Weekly w _ _ => num_days_from_monday D = w
  | Monthly d _ _ => day D = d ∨ (day D < d ∧ day (D + 1) = 1)
  | Interval _ | Once _ => False
  end.

Definition time_of (sched : Schedule) : Z :=
  match sched with
  | Daily h m | Weekly _ h m | Monthly _ h m => h * HOUR + m * MINUTE
  | Interval _ | Once _ => 0
  end.

Definition occurs (sched : Schedule) (l : Z) : Prop := l mod DAY = time_of sched ∧ on_day sched (l / DAY).

(** The first occurrence after a local time. *)
Definition next_occurrence (sched : Schedule) (after c : Z) : Prop :=
  after < c ∧ occurs sched c ∧ ∀ l, after < l < c → ¬ occurs sched l.

Definition calendar (sched : Schedule) : bool :=
  match sched with Daily _ _ | Weekly _ _ _ | Monthly _ _ _ => true | _ => false end.

(** The ranges [parse] checks. *)
Definition ranged (sched : Schedule) : Prop :=
  match sched with
  | Interval minutes => 1 ≤ minutes
  | Daily h m => 0 ≤ h ≤ 23 ∧ 0 ≤ m ≤ 59
  | Weekly w h m => 0 ≤ w ≤ 6 ∧ 0 ≤ h ≤ 23 ∧ 0 ≤ m ≤ 59
  | Monthly d h m => 1 ≤ d ≤ 31 ∧ 0 ≤ h ≤ 23 ∧ 0 ≤ m ≤ 59
  | Once _ => True
  end.

Lemma map_err_ok {A} f (r : Result string A) a : map_err f r = Ok a ↔ r = Ok a.
Proof. destruct r; cbn; naive_solver. Qed.

Lemma parse_ranged kind value sched : parse kind value = Ok sched → ranged sched.
Proof.
  unfold parse. repeat case_bool_decide; [..|done].
  - intros (m & _ & E)%bind_ok. destruct (_ <? _) eqn:Em; [done|]. injection E as <-. apply Z.ltb_ge in Em. done.
  - intros ([h m] & Hv%map_err_ok%daily_unsigned & E)%bind_ok. cbn in E. destruct (_ || _) eqn:Er; [done|].
    injection E as <-. rewrite orb_false_iff, !Z.ltb_ge in Er. cbn. lia.
  - intros ([[w h] m] & Hv%map_err_ok%weekly_unsigned & E)%bind_ok. cbn in E. destruct (_ || _) eqn:Er; [done|].
    injection E as <-. rewrite !orb_false_iff, !Z.ltb_ge in Er. cbn. lia.
  - intros ([[d h] m] & Hv%map_err_ok%monthly_unsigned & E)%bind_ok. cbn in E. destruct (_ || _) eqn:Er; [done|].
    injection E as <-. rewrite !orb_false_iff, !Z.ltb_ge in Er. cbn. lia.
  - intros (a & _ & (t & _ & E)%bind_ok)%bind_ok. by injection E as <-.
Qed.

Lemma time_range sched : ranged sched → 0 ≤ time_of sched < DAY.
Proof. destruct sched; cbn; unfold DAY, HOUR, MINUTE, SEC; lia. Qed.

Lemma day_split D t : 0 ≤ t < DAY → (D * DAY + t) mod DAY = t ∧ (D * DAY + t) / DAY = D.
Proof.
  intros Ht. rewrite Z.add_comm, Z.mod_add, Z.div_add, Z.mod_small, Z.div_small by (unfold DAY in *; cbn in *; lia). lia.
Qed.

Lemma day_join l : l = l / DAY * DAY + l mod DAY ∧ 0 ≤ l mod DAY < DAY.
Proof. unfold DAY, HOUR, MINUTE, SEC. dlia. Qed.

(** The first day the schedule names whose slot is still ahead. *)
Lemma first_slot sched nl D :
  ranged sched → on_day sched D → nl < D * DAY + time_of sched →
  (∀ E, nl / DAY ≤ E < D → on_day sched E → E * DAY + time_of sched ≤ nl) →
  next_occurrence sched nl (D * DAY + time_of sched).
Proof.
  intros Hr%time_range Hon Hlt Hbefore. destruct (day_split D (time_of sched) Hr) as [Hm Hd].
  split; [done|]. split; [split; [done|by rewrite Hd]|].
  intros l [Hl1 Hl2] [Ht Hon']. destruct (day_join l) as [Hj Hjr]. rewrite Ht in Hj.
  assert (nl / DAY ≤ l / DAY) by (apply Z.div_le_mono; [done|lia]).
  destruct (Z.lt_ge_cases (l / DAY) D) as [HD|HD].
  - specialize (Hbefore (l / DAY) ltac:(done) Hon'). lia.
  - assert (D * DAY ≤ l / DAY * DAY) by (apply Z.mul_le_mono_nonneg_r; [done|lia]). lia.
Qed.

Lemma and_hms_some D h m :
  0 ≤ h ≤ 23 → 0 ≤ m ≤ 59 → and_hms_opt D h m = Some (D * DAY + (h * HOUR + m * MINUTE)).
Proof.
  intros Hh Hm. unfold and_hms_opt. destruct (h <=? 23) eqn:E1; [|apply Z.leb_gt in E1; lia].
  destruct (m <=? 59) eqn:E2; [|apply Z.leb_gt in E2; lia]. cbn [andb]. f_equal. lia.
Qed.

(** A slot today is over or ahead. *)
Lemma today nl t : 0 ≤ t < DAY → nl / DAY * DAY + t ≤ nl → nl < (nl / DAY + 1) * DAY + t.
Proof. intros Ht _. destruct (day_join nl). lia. Qed.

Lemma daily_exact nl h m :
  ranged (Daily h m) → ∃ c, daily_candidate nl h m = Some c ∧ next_occurrence (Daily h m) nl c.
Proof.
  intros Hr. pose proof (time_range _ Hr) as Ht. destruct Hr as [Hh Hm]. unfold daily_candidate. cbv zeta.
  rewrite !and_hms_some, some_bind by done.
  change (h * HOUR + m * MINUTE) with (time_of (Daily h m)).
  destruct (_ <=? nl) eqn:E; [apply Z.leb_le in E|apply Z.leb_gt in E].
  - eexists. split; [done|]. apply first_slot; [done..|by apply today|]. intros D HD _. assert (D = nl / DAY) as -> by lia. done.
  - eexists. split; [done|]. apply first_slot; [done..|]. lia.
Qed.

(** ** Weeks *)

Lemma weekday_shift D n :
  min_date ≤ D → D + Z.of_nat n ≤ max_date →
  num_days_from_monday (D + Z.of_nat n) = (num_days_from_monday D + Z.of_nat n) mod 7.
Proof.
  intros HD HE. assert (min_date ≤ D ≤ max_date) as Hin by lia. pose proof (weekday_range D Hin). induction n as [|n IH].
  - rewrite !Z.add_0_r. by rewrite Z.mod_small.
  - replace (D + Z.of_nat (S n)) with (D + Z.of_nat n + 1) by lia. rewrite weekday_next, IH by lia. dlia.
Qed.

Lemma weekday_between D E :
  min_date ≤ D ≤ E → E ≤ max_date →
  num_days_from_monday E = (num_days_from_monday D + (E - D)) mod 7.
Proof.
  intros HD HE. pose proof (weekday_shift D (Z.to_nat (E - D))) as Hs.
  rewrite Z2Nat.id in Hs by lia. replace (D + (E - D)) with E in Hs by lia. apply Hs; lia.
Qed.

Lemma weekly_exact nl w h m :
  ranged (Weekly w h m) → min_date ≤ nl / DAY ≤ max_date - 7 →
  ∃ c, weekly_candidate nl w h m = Some c ∧ next_occurrence (Weekly w h m) nl c.
Proof.
  intros Hr HD. pose proof (time_range _ Hr) as Ht. destruct Hr as (Hw & Hh & Hm).
  unfold weekly_candidate. cbv zeta. rewrite !and_hms_some, some_bind by done. set (D := nl / DAY) in *.
  rewrite and_hms_some by done. assert (min_date ≤ D ≤ max_date) as Hin by lia. pose proof (weekday_range D Hin) as Hc.
  change (h * HOUR + m * MINUTE) with (time_of (Weekly w h m)) in *.
  eexists. split; [done|]. set (delta := (w + 7 - num_days_from_monday D) mod 7).
  pose proof (λ E HE1 HE2, weekday_between D E (conj (proj1 HD) HE1) HE2) as Hwd.
  destruct (_ && _) eqn:E; [rewrite andb_true_iff, Z.eqb_eq, Z.leb_le in E|rewrite andb_false_iff, Z.eqb_neq, Z.leb_gt in E];
    apply first_slot; try done.
  - cbn. rewrite Hwd by lia. unfold delta in E. dlia.
  - pose proof (day_join nl) as [Hj Hjr]. fold D in Hj. lia.
  - intros E' HE Hon. cbn in Hon. rewrite Hwd in Hon by lia. assert (E' = D) as -> by (unfold delta in E; dlia). lia.
  - cbn. rewrite Hwd by (unfold delta; dlia). unfold delta. dlia.
  - destruct (Z.eq_dec delta 0) as [E0|E0]; [destruct E as [?|E]; [done|]; rewrite E0, Z.add_0_r; done|].
    assert (1 ≤ delta) by (unfold delta in *; dlia). pose proof (day_join nl) as [Hj Hjr]. fold D in Hj. nia.
  - intros E' HE Hon. cbn in Hon. rewrite Hwd in Hon by (unfold delta in *; dlia). exfalso. unfold delta in *. dlia.
Qed.

(** ** Months *)

(** [F] to [L] are the days of the month of [D]. *)
Definition month_days (D F L : Z) : Prop :=
  F ≤ D ≤ L ∧ L - F ≤ 30 ∧
  (∀ E, F ≤ E ≤ L → year E = year D ∧ month E = month D ∧ day E = E - F + 1) ∧
  (year (L + 1), month (L + 1)) = next_calendar_month (year D) (month D) ∧ day (L + 1) = 1.

Lemma month_back D n :
  min_date ≤ D - Z.of_nat n → D ≤ max_date → Z.of_nat n < day D →
  year (D - Z.of_nat n) = year D ∧ month (D - Z.of_nat n) = month D ∧ day (D - Z.of_nat n) = day D - Z.of_nat n.
Proof.
  induction n as [|n IH]; intros Hmin Hmax Hn; [rewrite !Z.sub_0_r; done|].
  destruct (IH ltac:(lia) Hmax ltac:(lia)) as (Hy & Hm & Hd).
  destruct (next_date (D - Z.of_nat (S n))) as [Hx|Hx]; [lia|..];
    replace (D - Z.of_nat (S n) + 1) with (D - Z.of_nat n) in Hx by lia; destruct Hx as (? & ? & ?); [|lia].
  split_and!; [congruence..|lia].
Qed.

Lemma month_forth n D :
  min_date ≤ D → D + Z.of_nat n < max_date → 31 - Z.of_nat n ≤ day D →
  ∃ L, D ≤ L ≤ D + Z.of_nat n ∧
    (∀ E, D ≤ E ≤ L → year E = year D ∧ month E = month D ∧ day E = day D + (E - D)) ∧
    (year (L + 1), month (L + 1)) = next_calendar_month (year D) (month D) ∧ day (L + 1) = 1.
Proof.
  revert D. induction n as [|n IH]; intros D Hmin Hmax Hn; (destruct (next_date D) as [(Hy & Hm & Hd)|(_ & Hym & Hd)]; [lia|..]).
  - destruct (day_range (D + 1)); lia.
  - exists D. split_and!; [lia..| |done|done]. intros E HE. assert (E = D) as -> by lia. split_and!; [done..|lia].
  - destruct (IH (D + 1)) as (L & HL & Hin & Hym & Hd1); [lia..|]. exists L. split_and!; [lia..| |congruence|done].
    intros E HE. destruct (Z.eq_dec E D) as [->|Hne]; [split_and!; [done..|lia]|].
    destruct (Hin E) as (? & ? & ?); [lia|]. split_and!; [congruence..|lia].
  - exists D. split_and!; [lia..| |done|done]. intros E HE. assert (E = D) as -> by lia. split_and!; [done..|lia].
Qed.

Lemma month_of_date D : min_date + 31 ≤ D → D + 31 < max_date → ∃ F L, month_days D F L.
Proof.
  intros Hmin Hmax. destruct (day_range D) as [Hd1 Hd2]; [lia|].
  destruct (month_forth (Z.to_nat (31 - day D)) D) as (L & HL & Hin & Hym & Hd); [lia..|].
  exists (D - day D + 1), L. split; [lia|]. split; [lia|]. split; [|done]. intros E HE.
  destruct (Z.le_ge_cases D E) as [Hle|Hge].
  - destruct (Hin E) as (? & ? & ?); [lia|]. split_and!; [done..|lia].
  - destruct (month_back D (Z.to_nat (D - E))) as (? & ? & Hx); [lia..|].
    rewrite Z2Nat.id in * by lia. replace (D - (D - E)) with E in * by lia. split_and!; [done..|lia].
Qed.

(** The days of a month in a monthly schedule: one. *)
Lemma monthly_on_day D F L d h m E :
  month_days D F L → 1 ≤ d → F ≤ E ≤ L →
  on_day (Monthly d h m) E ↔ E = F + Z.min d (L - F + 1) - 1.
Proof.
  intros (HD & Hlen & Hin & _ & Hd1) Hd HE. cbn. destruct (Hin E HE) as (_ & _ & ->).
  destruct (Z.eq_dec E L) as [->|Hne]; [lia|]. destruct (Hin (E + 1)) as (_ & _ & ->); lia.
Qed.

Lemma month_candidate D F L d h m :
  month_days D F L → min_date < F → L < max_date → ranged (Monthly d h m) →
  monthly_candidate (year D) (month D) d h m =
    Some ((F + Z.min d (L - F + 1) - 1) * DAY + time_of (Monthly d h m)).
Proof.
  intros (HD & Hlen & Hin & Hym & Hd1) Hmin Hmax (Hd & Hh & Hm). unfold monthly_candidate, last_day_of_month.
  destruct (next_calendar_month (year D) (month D)) as [ny nm] eqn:En. injection Hym as <- <-.
  assert (from_ymd_opt (year (L + 1)) (month (L + 1)) 1 = Some (L + 1)) as -> by (apply from_ymd_spec; split_and!; lia).
  rewrite some_bind. unfold pred_opt. destruct (min_date <? L + 1) eqn:E; [|apply Z.ltb_ge in E; lia].
  replace (L + 1 - 1) with L by lia. change (default 28 (day <$> Some L)) with (day L). cbv zeta.
  destruct (Hin L) as (_ & _ & ->); [lia|].
  assert (from_ymd_opt (year D) (month D) (Z.min d (L - F + 1)) = Some (F + Z.min d (L - F + 1) - 1)) as ->.
  { apply from_ymd_spec. destruct (Hin (F + Z.min d (L - F + 1) - 1)) as (? & ? & ?); [lia|]. split_and!; try done; lia. }
  rewrite some_bind. by apply and_hms_some.
Qed.

Lemma monthly_exact nl d h m :
  ranged (Monthly d h m) → min_date + 62 ≤ nl / DAY → nl / DAY + 93 ≤ max_date →
  ∃ c, monthly_next nl d h m = Some c ∧ next_occurrence (Monthly d h m) nl c.
Proof.
  intros Hr Hmin Hmax. pose proof (time_range _ Hr) as Ht. set (D := nl / DAY) in *.
  destruct (month_of_date D) as (F & L & HM); [lia..|]. pose proof HM as (HD & Hlen & Hin & Hym & Hd1).
  destruct (month_of_date (L + 1)) as (F' & L' & HM'); [lia..|]. pose proof HM' as (HD' & Hlen' & Hin' & _ & _).
  assert (F' = L + 1) as ->. { destruct (Hin' (L + 1)) as (_ & _ & E); lia. }
  assert (1 ≤ d) as Hd by apply Hr.
  unfold monthly_next. cbv zeta. fold D. rewrite (month_candidate D F L) by (done || lia). rewrite some_bind.
  set (c := (F + Z.min d (L - F + 1) - 1) * DAY + time_of (Monthly d h m)).
  destruct (c <=? nl) eqn:E; [apply Z.leb_le in E|apply Z.leb_gt in E].
  - rewrite <- Hym. rewrite (month_candidate (L + 1) (L + 1) L') by (done || lia). eexists. split; [done|].
    apply first_slot; [done|apply (monthly_on_day _ _ _ _ _ _ _ HM'); lia|..].
    + pose proof (day_join nl) as [Hj Hjr]. fold D in Hj. nia.
    + intros E' HE Hon. destruct (Z.le_gt_cases E' L) as [Hle|Hgt].
      * apply (monthly_on_day _ _ _ _ _ _ _ HM) in Hon; [|lia..]. subst E'. done.
      * apply (monthly_on_day _ _ _ _ _ _ _ HM') in Hon; lia.
  - eexists. split; [done|]. apply first_slot; [done|apply (monthly_on_day _ _ _ _ _ _ _ HM); lia|done|].
    intros E' HE Hon. apply (monthly_on_day _ _ _ _ _ _ _ HM) in Hon; lia.
Qed.

(** ** Local times as instants *)

(** The local time [l] is shown once, at [u]. *)
Definition shown_once (tz : Tz) (l u : Z) : Prop := ∀ v, naive_local tz v = l ↔ v = u.

(** [u] is the instant a run meant for local time [c] happens: the first that
    shows [c]; or, when the clocks skip [c], the first of the following minutes,
    up to three hours, that is shown once. *)
Definition resolves (tz : Tz) (c u : Z) : Prop :=
  (naive_local tz u = c ∧ ∀ v, naive_local tz v = c → u ≤ v) ∨
  ((∀ v, naive_local tz v ≠ c) ∧
   ((∃ k, 1 ≤ k ≤ 180 ∧ shown_once tz (c + k * MINUTE) u ∧
      ∀ j w, 1 ≤ j < k → ¬ shown_once tz (c + j * MINUTE) w) ∨
    (u = c ∧ ∀ j w, 1 ≤ j ≤ 180 → ¬ shown_once tz (c + j * MINUTE) w))).

Lemma single_shown tz l u : from_local_datetime tz l = Single u ↔ shown_once tz l u.
Proof.
  pose proof (local_spec tz l) as Hl. unfold shown_once. destruct (from_local_datetime tz l) as [x|a b|].
  - split; [by intros [= <-]|]. intros Hu. f_equal. by apply Hu, Hl.
  - split; [done|]. intros Hu. destruct Hl as [Hab Hl].
    assert (a = u) by (apply Hu, Hl; auto). assert (b = u) by (apply Hu, Hl; auto). lia.
  - split; [done|]. intros Hu. exfalso. by apply (Hl u), Hu.
Qed.

Lemma first_valid_spec n tz c :
  match first_valid n tz c with
  | Some u => ∃ k, 1 ≤ k ≤ Z.of_nat n ∧ shown_once tz (c + k * MINUTE) u ∧
      ∀ j w, 1 ≤ j < k → ¬ shown_once tz (c + j * MINUTE) w
  | None => ∀ j w, 1 ≤ j ≤ Z.of_nat n → ¬ shown_once tz (c + j * MINUTE) w
  end.
Proof.
  revert c. induction n as [|n IH]; intros c; [cbn; lia|]. cbn [first_valid]. cbv zeta.
  assert (∀ u, from_local_datetime tz (c + MINUTE) = Single u →
    ∃ k, 1 ≤ k ≤ Z.of_nat (S n) ∧ shown_once tz (c + k * MINUTE) u ∧
      ∀ j w, 1 ≤ j < k → ¬ shown_once tz (c + j * MINUTE) w) as Hnow.
  { intros u Hu. exists 1. split; [lia|]. rewrite Z.mul_1_l. split; [by apply single_shown|lia]. }
  assert ((∀ w, ¬ shown_once tz (c + MINUTE) w) →
    match first_valid n tz (c + MINUTE) with
    | Some u => ∃ k, 1 ≤ k ≤ Z.of_nat (S n) ∧ shown_once tz (c + k * MINUTE) u ∧
        ∀ j w, 1 ≤ j < k → ¬ shown_once tz (c + j * MINUTE) w
    | None => ∀ j w, 1 ≤ j ≤ Z.of_nat (S n) → ¬ shown_once tz (c + j * MINUTE) w
    end) as Hlater.
  { intros Hno. specialize (IH (c + MINUTE)).
    assert (∀ j, c + MINUTE + (j - 1) * MINUTE = c + j * MINUTE) as Hshift by (intros; lia).
    destruct (first_valid n tz (c + MINUTE)) as [u|].
    - destruct IH as (k & Hk & Hu & Hbefore). exists (k + 1). split; [lia|].
      rewrite <- Hshift. replace (k + 1 - 1) with k by lia. split; [done|].
      intros j w Hj. destruct (Z.eq_dec j 1) as [->|Hne]; [rewrite Z.mul_1_l; apply Hno|].
      rewrite <- Hshift. apply Hbefore. lia.
    - intros j w Hj. destruct (Z.eq_dec j 1) as [->|Hne]; [rewrite Z.mul_1_l; apply Hno|].
      rewrite <- Hshift. apply IH. lia. }
  destruct (from_local_datetime tz (c + MINUTE)) as [u|a b|] eqn:E; [by apply Hnow|..];
    apply Hlater; intros w Hw%single_shown; congruence.
Qed.

Lemma resolve_local_spec tz c : resolves tz c (resolve_local tz c).
Proof.
  unfold resolve_local, resolves. pose proof (local_spec tz c) as Hl.
  destruct (from_local_datetime tz c) as [u|a b|] eqn:E.
  - left. split; [by apply Hl|]. intros v ->%Hl. lia.
  - left. destruct Hl as [Hab Hl]. split; [apply Hl; auto|]. intros v [->| ->]%Hl; lia.
  - right. split; [done|]. pose proof (first_valid_spec 180 tz c) as Hf.
    destruct (first_valid 180 tz c) as [u|]; [left|right]; done.
Qed.

Lemma resolve_utc c : resolve_local UTC c = c.
Proof.
  destruct (resolve_local_spec UTC c) as [[E _]|[Hno _]]; [by rewrite utc_local in E|].
  destruct (Hno c). apply utc_local.
Qed.

(** Dates at least a season inside chrono's range. *)
Definition in_calendar (l : Z) : Prop := min_date + 93 ≤ l / DAY ≤ max_date - 93.

Lemma next_instant_calendar sched tz now :
  ranged sched → calendar sched = true → in_calendar (naive_local tz now) →
  ∃ c, next_occurrence sched (naive_local tz now) c ∧
    next_instant sched tz now = Return (Some (resolve_local tz c)).
Proof.
  intros Hr Hc Hin. unfold in_calendar in Hin. destruct sched; try done; unfold next_instant.
  - destruct (daily_exact (naive_local tz now) hour minute Hr) as (c & -> & Hn). by exists c.
  - destruct (weekly_exact (naive_local tz now) weekday hour minute Hr) as (c & -> & Hn); [lia|]. by exists c.
  - destruct (monthly_exact (naive_local tz now) day0 hour minute Hr) as (c & -> & Hn); [lia..|]. by exists c.
Qed.

(** C34: The next slot is the right one.  For a task with a readable schedule,
    the time stored as its next run is: for a daily, weekly or monthly schedule,
    the instant at which the task's zone first shows the first local time after
    now that the schedule names (the last day of a month too short for it), or
    the first valid minute after it when the clocks skip that time; for an
    interval, the whole minute at or before that many minutes from now; for a
    one-off, its own time, unless it is past. *)
Theorem next_slot_exact task sched now :
  schedule_of task = Ok sched → in_calendar (naive_local (task_tz task) now) →
  match sched with
  | Interval minutes =>
    if max_utc <? now + minutes * MINUTE then next_run_at_after task now = Panic
    else ∃ u, next_run_at_after task now = Return (Some (to_rfc3339 u)) ∧
      u mod MINUTE = 0 ∧ u ≤ now + minutes * MINUTE < u + MINUTE ∧ now < u
  | Once at_ => ∃ u, resolves (task_tz task) at_ u ∧
      next_run_at_after task now = Return (if u <=? now then None else Some (to_rfc3339 u))
  | _ => ∃ c u, next_occurrence sched (naive_local (task_tz task) now) c ∧ resolves (task_tz task) c u ∧
      next_run_at_after task now = Return (Some (to_rfc3339 u))
  end.
Proof.
  intros Hs Hin. pose proof (parse_ranged _ _ _ Hs) as Hr. unfold next_run_at_after. rewrite Hs.
  assert (calendar sched = true → ∃ c u, next_occurrence sched (naive_local (task_tz task) now) c ∧
    resolves (task_tz task) c u ∧
    (next ← next_instant sched (task_tz task) now; mret (option_map to_rfc3339 next)) = Return (Some (to_rfc3339 u))) as Hcal.
  { intros Hc. destruct (next_instant_calendar sched (task_tz task) now Hr Hc Hin) as (c & Hn & ->).
    exists c, (resolve_local (task_tz task) c). split; [done|]. split; [apply resolve_local_spec|done]. }
  destruct sched; try (by apply Hcal); unfold next_instant; cbv zeta.
  - destruct (_ <? _); [done|]. eexists. split; [done|]. cbn in Hr. unfold MINUTE, SEC. dlia.
  - exists (resolve_local (task_tz task) at_). split; [apply resolve_local_spec|]. by destruct (_ <=? _).
Qed.
End props.

(** ** Runs on the example calendar *)

Import Gregorian.

(** Every day at [minutes] after midnight in New York. *)
Definition ex_daily (minutes : string) (last : option Z) : RepeatingTask :=
  mkTask "t1" "Nightly" "" "f1" "go" "daily" minutes None None true None (to_rfc3339 <$> last) "0" "0"
    (Some "America/New_York") None.

(** From summer to winter time: the run after Saturday 09:00 is Sunday 09:00,
    25 hours later. *)
Lemma next_slot_exact_witness :
  let saturday := FALL - 17 * HOUR in
  next_run_at_after (ex_daily "540" None) saturday = Return (Some (to_rfc3339 (saturday + 25 * HOUR))) ∧
  let tz := task_tz (ex_daily "540" None) in
  ∃ c u, next_occurrence (Daily 9 0) (naive_local tz saturday) c ∧ resolves tz c u ∧
    next_run_at_after (ex_daily "540" None) saturday = Return (Some (to_rfc3339 u)).
Proof.
  split; [by vm_compute|].
  apply (next_slot_exact (ex_daily "540" None) (Daily 9 0) (FALL - 17 * HOUR)); [by vm_compute|].
  apply (bool_decide_eq_true_1 (in_calendar _)). by vm_compute.
Defined.

(** The hour that is shown twice.  A daily task for 01:30 that runs (late, or
    by hand) at 01:10 of the second showing gets a next slot at the first 01:30,
    twenty minutes before that run, so it is due again as soon as the policy's
    floor of a minute allows, and so on after each run until the clock shows
    01:30 again: twenty runs of a daily task. *)
Lemma repeated_hour_fires_every_minute :
  next_run_at_after (ex_daily "90" None) (FALL + 10 * MINUTE) = Return (Some (to_rfc3339 (FALL - 30 * MINUTE))) ∧
  (∀ k, 10 ≤ k < 30 →
    is_scheduler_due (ex_daily "90" (Some (FALL + k * MINUTE))) (FALL + (k + 1) * MINUTE) = Return true) ∧
  is_scheduler_due (ex_daily "90" (Some (FALL + 30 * MINUTE))) (FALL + 31 * MINUTE) = Return false.
Proof.
  split; [by vm_compute|]. split; [|by vm_compute].
  assert (∀ k, k ∈ seqZ 10 20 →
    is_scheduler_due (ex_daily "90" (Some (FALL + k * MINUTE))) (FALL + (k + 1) * MINUTE) = Return true) as Hall.
  { apply Forall_forall. apply List.Forall_forall. intros k Hk. vm_compute in Hk.
    repeat (destruct Hk as [<-|Hk]; [by vm_compute|]). done. }
  intros k Hk. apply Hall, elem_of_seqZ. lia.
Qed.

(** A number of minutes has no upper bound, and its end can leave chrono's
    range: a task that passes validation and cannot be rescheduled. *)
Lemma huge_interval_panics :
  is_ok (parse "interval" "4000000000000") = true ∧
  ∀ task now, t_schedule_kind task = "interval" → t_schedule_value task = "4000000000000" → 0 ≤ now →
    next_run_at_after task now = Panic.
Proof.
  split; [by vm_compute|]. intros task now Hk Hv Hn. unfold next_run_at_after, schedule_of. rewrite Hk, Hv.
  assert (parse "interval" "4000000000000" = Ok (Interval 4000000000000)) as -> by (by vm_compute).
  unfold next_instant. cbv zeta. destruct (max_utc <? now + 4000000000000 * MINUTE) eqn:E; [done|].
  apply Z.ltb_ge in E. exfalso. revert E. cbn. unfold DAY, HOUR, MINUTE, SEC, g_max. lia.
Qed.
End ScheduleProps.
