(* ===== verification/Repeating.v ===== *)
(** * Repeating tasks

    src/repeating.rs over src/db/crud/repeating_tasks.rs: the start of a run
    under the task's lock, the scheduler's pass, the watchdog that audits runs,
    and the routes of src/routes/repeating_tasks.rs that create, change, delete
    and run a task.  The session of a run and its events go to the store of
    Store.v; the [repeating_task_id] and [created_at] columns of such sessions
    are a table here.  What the session manager, the provider and the voice
    relay answer during one run is the record [RunEnv].  A panic leaves what was
    written before it.  Broadcasts and the message queued for the assistant are
    effects; tokens, config files, system prompts and the tabs that show a task
    are left out. *)

From S2P Require Import Prelude RustStr Json Todo Store Schedule.

Module Repeating.
Import Schedule.

(** ** Rows *)

(** The changeset: [None] leaves a column as it is. *)
Record UpdateRepeatingTask := mkUpdate {
  u_name : option string;
  u_description : option string;
  u_folder_id : option string;
  u_prompt : option string;
  u_schedule_kind : option string;
  u_schedule_value : option string;
  u_model : option (option string);
  u_effort : option (option string);
  u_enabled : option bool;
  u_next_run_at : option (option string);
  u_last_run_at : option (option string);
  u_updated_at : option string;
  u_timezone : option (option string);
  u_target : option (option string);
}.

Definition apply_update (u : UpdateRepeatingTask) (t : RepeatingTask) : RepeatingTask :=
  mkTask (t_id t) (default (t_name t) (u_name u)) (default (t_description t) (u_description u))
    (default (t_folder_id t) (u_folder_id u)) (default (t_prompt t) (u_prompt u))
    (default (t_schedule_kind t) (u_schedule_kind u)) (default (t_schedule_value t) (u_schedule_value u))
    (default (t_model t) (u_model u)) (default (t_effort t) (u_effort u))
    (default (t_enabled t) (u_enabled u)) (default (t_next_run_at t) (u_next_run_at u))
    (default (t_last_run_at t) (u_last_run_at u)) (t_created_at t)
    (default (t_updated_at t) (u_updated_at u)) (default (t_timezone t) (u_timezone u))
    (default (t_target t) (u_target u)).

(** The two changesets the dispatcher writes: a run, and a task turned off. *)
Definition ran_update (now : string) (next : option string) (enabled : option bool) : UpdateRepeatingTask :=
  mkUpdate None None None None None None None None enabled (Some next) (Some (Some now)) (Some now) None None.
Definition off_update (now : string) : UpdateRepeatingTask :=
  mkUpdate None None None None None None None None (Some false) (Some None) None (Some now) None None.

Record RepeatingTaskRun := mkRun {
  run_id : string;
  run_task_id : string;
  run_session_id : option string;
  run_started_at : string;
  run_status : string;
  run_trigger : string;
  run_detail : option string;
}.

(** The columns of [sessions] that tie a session to the task it runs. *)
Record Spawned := mkSpawned { sp_task_id : option string; sp_created_at : string }.

(** The watchdog's memory. *)
Record AuditorState := mkAuditor {
  scheduler_history : gmap string (list Z);
  manual_session_ids : gset string;
  audit_start : Z;
}.

Record St := mkSt {
  store : Store.Db;
  folders : gset string;
  tasks : gmap string RepeatingTask;
  spawned : gmap string Spawned;
  runs : list RepeatingTaskRun;
  auditor : AuditorState;
}.

Definition set_store (x : Store.Db) (s : St) : St := mkSt x (folders s) (tasks s) (spawned s) (runs s) (auditor s).
Definition set_tasks f (s : St) : St := mkSt (store s) (folders s) (f (tasks s)) (spawned s) (runs s) (auditor s).
Definition set_spawned f (s : St) : St := mkSt (store s) (folders s) (tasks s) (f (spawned s)) (runs s) (auditor s).
Definition set_runs f (s : St) : St := mkSt (store s) (folders s) (tasks s) (spawned s) (f (runs s)) (auditor s).
Definition set_auditor f (s : St) : St := mkSt (store s) (folders s) (tasks s) (spawned s) (runs s) (f (auditor s)).

(** ** Operations: a value, an error or a panic, and the state afterwards *)

Inductive Res (A : Type) := Val (a : A) | Fail (e : string) | Panicked.
Arguments Val {A} a.
Arguments Fail {A} e.
Arguments Panicked {A}.

Definition R (A : Type) : Type := St → Res A * St.

#[export] Instance R_ret : MRet R := λ A a s, (Val a, s).
#[export] Instance R_bind : MBind R := λ A B k m s,
  match m s with
  | (Val a, s') => k a s'
  | (Fail e, s') => (Fail e, s')
  | (Panicked, s') => (Panicked, s')
  end.

Definition gets {A} (f : St → A) : R A := λ s, (Val (f s), s).
Definition modify (f : St → St) : R unit := λ s, (Val tt, f s).
Definition fail {A} (e : string) : R A := λ s, (Fail e, s).
Definition of_outcome {A} (o : Outcome A) : R A :=
  λ s, (match o with Return a => Val a | Panic => Panicked end, s).

(** A response: a value, or a status and a message. *)
Definition Http (A : Type) : Type := R (Result (Z * string) A).

#[export] Instance Http_ret : MRet Http := λ A a, mret (M := R) (Ok a).
#[export] Instance Http_bind : MBind Http := λ A B k m,
  mbind (M := R) (λ r : Result (Z * string) A, match r with Ok a => k a | Err e => mret (M := R) (Err e) end) m.

(** An operation of the store. *)
Definition on_store {A} (m : Store.M A) : R A := λ s,
  match m (store s) with
  | (Ok a, db) => (Val a, set_store db s)
  | (Err e, db) => (Fail e, set_store db s)
  end.

(** An error kept as a value; a panic goes through. *)
Definition attempt {A} (m : R A) : R (Result string A) := λ s,
  match m s with
  | (Val a, s') => (Val (Ok a), s')
  | (Fail e, s') => (Val (Err e), s')
  | (Panicked, s') => (Panicked, s')
  end.

(** The clock, read in nanoseconds. *)
Class Clock := { utc_now : nat → Z; uuid_v4 : nat → string }.

Inductive StartOutcome :=
  | Spawned_ | AlreadyRunning | Disabled | ConsumedOnce | Throttled (reason : string)
  | QueuedForAssistant | NoAssistant.

Inductive Effect :=
  | RunStarted (task_id session_id : string)
  | HeldForAssistant (voice_id name prompt : string)
  | TaskChanged (task_id : string)
  | WatchdogDisabled (task_id : string).

(** What the rest of the system answers during one run. *)
Record RunEnv := mkEnv {
  is_running : string → bool;
  sent : Result string unit;
  voice : option string;
}.

Definition TARGET_ASSISTANT : string := "assistant".
Definition NO_ASSISTANT_REASON : string :=
  "no Assistant session yet: open the Assistant page once, then run it again".
Definition RUN_HISTORY_KEEP : nat := 100.
Definition AUDITOR_HISTORY_CAP : nat := 20.
Definition MAX_MANUAL_IDS : Z := 10000.

Section repeating.
Context `{Chrono} `{ScheduleJson} `{Clock} `{JsonApi}.

#[local] Instance world : Store.World := {|
  Store.rfc3339 n := to_rfc3339 (utc_now n);
  Store.now_millis n := utc_now n / 1000000;
  Store.new_uuid := uuid_v4;
|}.

Definition now_dt : R Z := n ← on_store Store.tick; mret (utc_now n).
Definition new_v4 : R string := on_store Store.uuid.

(** ** The tables *)

Definition get_repeating_task (id : string) (s : St) : option RepeatingTask := tasks s !! id.

Definition list_repeating_tasks (s : St) : list RepeatingTask :=
  sort_by (λ a b, String.leb (t_name a) (t_name b)) (map_to_list (tasks s)).*2.

Definition list_enabled_repeating_tasks (s : St) : list RepeatingTask :=
  List.filter t_enabled (map_to_list (tasks s)).*2.

Definition create_repeating_task (t : RepeatingTask) : R RepeatingTask :=
  existing ← gets (get_repeating_task (t_id t));
  if is_some existing then fail "UNIQUE constraint failed: repeating_tasks.id"
  else modify (set_tasks (<[t_id t := t]>));; mret t.

Definition update_repeating_task (id : string) (u : UpdateRepeatingTask) : R (option RepeatingTask) :=
  existing ← gets (get_repeating_task id);
  match existing with
  | None => mret None
  | Some t => modify (set_tasks (<[id := apply_update u t]>));; mret (Some (apply_update u t))
  end.

Definition delete_repeating_task (id : string) : R bool :=
  modify (set_spawned (fmap (λ sp, if sp_task_id sp == Some id then mkSpawned None (sp_created_at sp) else sp)));;
  modify (set_runs (List.filter (λ r, run_task_id r != id)));;
  existing ← gets (get_repeating_task id);
  modify (set_tasks (delete id));;
  mret (is_some existing).

Definition list_sessions_by_repeating_task (task_id : string) (s : St) : list (string * Spawned) :=
  sort_by (λ a b, String.leb (sp_created_at b.2) (sp_created_at a.2))
    (List.filter (λ x, sp_task_id x.2 == Some task_id) (map_to_list (spawned s))).

(** The runs of a task, newest first. *)
Definition runs_of (task_id : string) (s : St) : list RepeatingTaskRun :=
  sort_by (λ a b, String.leb (run_started_at b) (run_started_at a))
    (List.filter (λ r, run_task_id r == task_id) (runs s)).

(** The insert, and the delete of what is older than the newest [keep]. *)
Definition create_repeating_task_run (new : RepeatingTaskRun) (keep : nat) : R RepeatingTaskRun :=
  task ← gets (get_repeating_task (run_task_id new));
  if negb (is_some task) then fail "FOREIGN KEY constraint failed"
  else
    taken ← gets (λ s, existsb (λ r, run_id r == run_id new) (runs s));
    if taken : bool then fail "UNIQUE constraint failed: repeating_task_runs.id"
    else
      modify (set_runs (λ l, l ++ [new]));;
      keep_ids ← gets (λ s, run_id <$> take keep (runs_of (run_task_id new) s));
      modify (set_runs (List.filter (λ r, negb ((run_task_id r == run_task_id new) &&
        negb (bool_decide (run_id r ∈ keep_ids))))));;
      mret new.

Definition record_run (task_id : string) (session_id : option string) (status : string)
    (trigger : RunTrigger) (detail : option string) : R unit :=
  id ← new_v4;
  t ← now_dt;
  attempt (create_repeating_task_run
    (mkRun id task_id session_id (to_rfc3339 t) status
      match trigger with Scheduler => "scheduler" | Manual => "manual" end detail) RUN_HISTORY_KEEP);;
  mret tt.

(** ** The watchdog's memory *)

(** [while hist.len() > CAP { hist.pop_front() }]. *)
Definition push_history (at_ : Z) (hist : list Z) : list Z :=
  let hist := hist ++ [at_] in drop (length hist - AUDITOR_HISTORY_CAP) hist.

Definition record_scheduler_dispatch (task_id : string) (at_ : Z) : R unit :=
  modify (set_auditor (λ a, mkAuditor
    (<[task_id := push_history at_ (default [] (scheduler_history a !! task_id))]> (scheduler_history a))
    (manual_session_ids a) (audit_start a))).

(** The set drops some member when it is full. *)
Definition mark_manual_session (session_id : string) : R unit :=
  modify (set_auditor (λ a,
    let ids := if MAX_MANUAL_IDS <=? Z.of_nat (size (manual_session_ids a))
               then match elements (manual_session_ids a) with
                    | first :: _ => manual_session_ids a ∖ {[first]}
                    | [] => manual_session_ids a
                    end
               else manual_session_ids a in
    mkAuditor (scheduler_history a) ({[session_id]} ∪ ids) (audit_start a))).

Definition forget_session (session_id : string) : R unit :=
  modify (set_auditor (λ a, mkAuditor (scheduler_history a) (manual_session_ids a ∖ {[session_id]}) (audit_start a))).

(** ** Starting a run *)

(** The write that ends every dispatch, failed or not. *)
Definition reschedule (task : RepeatingTask) (now : Z) : R unit :=
  fields ← of_outcome (next_run_fields task now);
  attempt (update_repeating_task (t_id task) (ran_update (to_rfc3339 now) fields.1 fields.2));;
  mret tt.

(** The end of [queue_for_assistant_locked]. *)
Definition hand_to_voice (task : RepeatingTask) (env : RunEnv) (trigger : RunTrigger) : R (StartOutcome * list Effect) :=
  match voice env with
  | None =>
    record_run (t_id task) None "failed" trigger (Some NO_ASSISTANT_REASON);;
    mret (NoAssistant, [])
  | Some voice_id =>
    record_run (t_id task) (Some voice_id) "spawned" trigger (Some "queued for the Assistant");;
    mret (QueuedForAssistant, [HeldForAssistant voice_id (t_name task) (t_prompt task); RunStarted (t_id task) voice_id])
  end.

Definition queue_for_assistant_locked (task : RepeatingTask) (env : RunEnv) (trigger : RunTrigger) :
    R (StartOutcome * list Effect) :=
  now ← now_dt;
  reschedule task now;;
  (if trigger == Scheduler then record_scheduler_dispatch (t_id task) now else mret tt);;
  hand_to_voice task env trigger.

(** The row of a fresh session, with its columns of the table above. *)
Definition create_run_session (task : RepeatingTask) (session_id : string) (now : Z) : R unit :=
  on_store (Store.create_session session_id false None None None (t_model task));;
  modify (set_spawned (<[session_id := mkSpawned (Some (t_id task)) (to_rfc3339 now)]>)).

(** A fresh session, its prompt, and what becomes of it. *)
Definition spawn_session (task : RepeatingTask) (env : RunEnv) (trigger : RunTrigger) :
    R (StartOutcome * list Effect) :=
  now ← now_dt;
  session_id ← new_v4;
  create_run_session task session_id now;;
  attempt (on_store (Store.append_event session_id "user"
    (json_object [("text", Some (t_prompt task)); ("source", Some "repeating-task")])));;
  match sent env with
  | Err e =>
    attempt (on_store (Store.append_event session_id "agent-end"
      (json_object [("status", Some "crashed"); ("reason", Some ("dispatch error: " +:+ e))])));;
    record_run (t_id task) (Some session_id) "failed" trigger (Some e);;
    reschedule task now;;
    fail e
  | Ok _ =>
    reschedule task now;;
    record_run (t_id task) (Some session_id) "spawned" trigger None;;
    (if trigger == Scheduler then record_scheduler_dispatch (t_id task) now
     else mark_manual_session session_id);;
    mret (Spawned_, [RunStarted (t_id task) session_id])
  end.

(** [start_run_locked] from the policy check on. *)
Definition run_if_allowed (task : RepeatingTask) (env : RunEnv) (trigger : RunTrigger) : R (StartOutcome * list Effect) :=
  now ← now_dt;
  decision ← of_outcome (check_run_policy task (t_last_run_at task) now trigger);
  match decision with
  | Throttle reason =>
    record_run (t_id task) None "throttled" trigger (Some reason);;
    mret (Throttled reason, [])
  | Allow =>
    if t_target task == Some TARGET_ASSISTANT then queue_for_assistant_locked task env trigger
    else
      existing ← gets (list_sessions_by_repeating_task (t_id task));
      match List.find (λ s, is_running env s.1) existing with
      | Some s =>
        (if trigger == Manual then record_run (t_id task) (Some s.1) "already_running" trigger None else mret tt);;
        mret (AlreadyRunning, [])
      | None =>
        known ← gets (λ s, bool_decide (t_folder_id task ∈ folders s));
        if negb known then fail ("folder not found: " +:+ t_folder_id task)
        else spawn_session task env trigger
      end
  end.

Definition start_run_locked (task_id : string) (env : RunEnv) (respect_enabled : bool) (trigger : RunTrigger) :
    R (StartOutcome * list Effect) :=
  task ← gets (get_repeating_task task_id);
  match task with
  | None => mret (AlreadyRunning, [])
  | Some task =>
    if respect_enabled && negb (t_enabled task) then mret (Disabled, [])
    else if is_consumed_once task then
      record_run task_id None "consumed_once" trigger (Some "`once` schedule already fired");;
      mret (ConsumedOnce, [])
    else match trigger, schedule_of task with
    | Scheduler, Err e =>
      t ← now_dt;
      attempt (update_repeating_task task_id (off_update (to_rfc3339 t)));;
      record_run task_id None "corrupt_schedule" trigger (Some ("corrupt schedule: " +:+ e));;
      mret (Disabled, [])
    | _, _ =>
      run_if_allowed task env trigger
    end
  end.

Definition try_run_now (task_id : string) (env : RunEnv) (respect_enabled : bool) : R (StartOutcome * list Effect) :=
  start_run_locked task_id env respect_enabled Manual.

(** [enabled.filter(is_scheduler_due)], which stops at a panic. *)
Fixpoint due_tasks (now : Z) (l : list RepeatingTask) : Outcome (list RepeatingTask) :=
  match l with
  | [] => mret []
  | t :: l =>
    due ← is_scheduler_due t now;
    rest ← due_tasks now l;
    mret (if due : bool then t :: rest else rest)
  end.

(** [lock_held] says whose lock another call has. *)
Fixpoint run_each (env : string → RunEnv) (lock_held : string → bool) (due : list RepeatingTask) : R (list Effect) :=
  match due with
  | [] => mret []
  | t :: rest =>
    effects ←
      (if lock_held (t_id t) then mret []
       else
         r ← attempt (start_run_locked (t_id t) (env (t_id t)) true Scheduler);
         mret match r with Ok r => r.2 | Err _ => [] end);
    more ← run_each env lock_held rest;
    mret (effects ++ more)
  end.

Definition run_due_tasks (env : string → RunEnv) (lock_held : string → bool) : R (list Effect) :=
  now ← now_dt;
  enabled ← gets list_enabled_repeating_tasks;
  due ← of_outcome (due_tasks now enabled);
  run_each env lock_held due.

(** ** The audit *)

Inductive ViolationSource := InMemoryHistory | PersistedSessions.

Record WatchdogViolation := mkViolation {
  v_task_id : string;
  v_gap_seconds : Z;
  v_min_gap_seconds : Z;
  v_source : ViolationSource;
}.

(** The walk over consecutive runs for the tightest gap that is too short. *)
Fixpoint tightest (task : RepeatingTask) (prev : Z) (hist : list Z) (found : option (Z * Z)) : Outcome (option (Z * Z)) :=
  match hist with
  | [] => mret found
  | ts :: rest =>
    let gap := num_seconds (ts - prev) in
    min_gap ← expected_gap_seconds task prev;
    tightest task ts rest
      (if (gap <? min_gap - SCHEDULER_GAP_SLOP_SECONDS) &&
          match found with None => true | Some (t, _) => gap <? t end
       then Some (gap, min_gap) else found)
  end.

Definition audit_history (source : ViolationSource) (task : RepeatingTask) (hist : list Z) :
    Outcome (list WatchdogViolation) :=
  match hist with
  | prev :: ((_ :: _) as rest) =>
    found ← tightest task prev rest None;
    mret match found with
         | Some (gap, min_gap) => [mkViolation (t_id task) gap min_gap source]
         | None => []
         end
  | _ => mret []
  end.

Fixpoint audit_all (f : RepeatingTask → Outcome (list WatchdogViolation)) (l : list RepeatingTask) :
    Outcome (list WatchdogViolation) :=
  match l with
  | [] => mret []
  | t :: l => vs ← f t; more ← audit_all f l; mret (vs ++ more)
  end.

Definition audit_in_memory (s : St) (l : list RepeatingTask) : Outcome (list WatchdogViolation) :=
  audit_all (λ t, audit_history InMemoryHistory t (default [] (scheduler_history (auditor s) !! t_id t))) l.

(** The start times of the task's sessions that count as the scheduler's. *)
Definition scheduled_times (task : RepeatingTask) (s : St) : list Z :=
  sort_by Z.leb (List.filter (λ ts, audit_start (auditor s) <=? ts)
    (omap (λ x, parse_from_rfc3339 (sp_created_at x.2))
      (List.filter (λ x, negb (bool_decide (x.1 ∈ manual_session_ids (auditor s))))
        (list_sessions_by_repeating_task (t_id task) s)))).

Definition audit_persisted (s : St) (l : list RepeatingTask) : Outcome (list WatchdogViolation) :=
  audit_all (λ t, audit_history PersistedSessions t (scheduled_times t s)) l.

Fixpoint switch_off (vs : list WatchdogViolation) : R (list Effect) :=
  match vs with
  | [] => mret []
  | v :: rest =>
    t ← now_dt;
    attempt (update_repeating_task (v_task_id v) (off_update (to_rfc3339 t)));;
    more ← switch_off rest;
    mret (WatchdogDisabled (v_task_id v) :: more)
  end.

Definition audit_pass : R (nat * list Effect) :=
  l ← gets list_repeating_tasks;
  a ← gets (λ s, audit_in_memory s l);
  in_memory ← of_outcome a;
  b ← gets (λ s, audit_persisted s l);
  persisted ← of_outcome b;
  let violations := in_memory ++ persisted in
  effects ← switch_off violations;
  mret (length violations, effects).

(** ** The routes *)

Definition reply {A} (r : Result (Z * string) A) : Http A := λ s, (Val r, s).
Definition bad_request {A} (msg : string) : Result (Z * string) A := Err (400, msg).
Definition not_found {A} : Result (Z * string) A := Err (404, "repeating task not found").

(** An operation whose errors are [internal_error]s. *)
Definition internal {A} (m : R A) : Http A :=
  mbind (M := R) (λ r, mret (M := R) match r with Ok a => Ok a | Err e => Err (500, e) end) (attempt m).

Definition validate_name (name : string) : Result (Z * string) string :=
  let trimmed := trim name in
  if trimmed == "" then bad_request "name is required"
  else if (200 <? String.length trimmed)%nat then bad_request "name is too long (max 200)"
  else Ok trimmed.

Definition validate_prompt (prompt : string) : Result (Z * string) string :=
  if trim prompt == "" then bad_request "prompt is required"
  else if 200000 <? Z.of_nat (String.length prompt) then bad_request "prompt is too long (max 200000 bytes)"
  else Ok prompt.

Definition validate_schedule (kind value : string) : Result (Z * string) string :=
  match parse kind value with Ok _ => Ok value | Err e => bad_request e end.

Definition validate_timezone (tz : option string) : Result (Z * string) (option string) :=
  match tz with
  | None => Ok None
  | Some z => if is_some (parse_tz z) then Ok (Some z) else bad_request ("unknown timezone: " +:+ z)
  end.

Definition validate_target (target : option string) : Result (Z * string) (option string) :=
  match target with
  | None => Ok None
  | Some t =>
    if t == "session" then Ok None
    else if t == TARGET_ASSISTANT then Ok (Some TARGET_ASSISTANT)
    else bad_request ("unknown target: " +:+ t +:+ " (use session or assistant)")
  end.

(** The registry's answer on a model, and [serde_json::from_str] followed by
    [to_string]. *)
Context (check_model : option string → Result string unit) (reserialize : string → Result string string).

Definition check_model_or_400 (model : option string) : Result (Z * string) unit :=
  match check_model model with Ok _ => Ok tt | Err e => bad_request e end.

Definition folder_exists (folder_id : string) : Http unit :=
  known ← internal (gets (λ s, bool_decide (folder_id ∈ folders s)));
  reply (if known : bool then Ok tt else bad_request "folder not found").

Definition initial_next_run_at (task : RepeatingTask) : R (option string) :=
  now ← now_dt;
  of_outcome (next_run_at_after task now).

(** [schedule_value] is the text of the JSON value. *)
Record CreateRepeatingTaskRequest := mkCreate {
  n_name : string;
  n_description : string;
  n_folder_id : string;
  n_prompt : string;
  n_schedule_kind : string;
  n_schedule_value : string;
  n_model : option string;
  n_effort : option string;
  n_enabled : bool;
  n_timezone : option string;
  n_target : option string;
}.

Definition create_route (body : CreateRepeatingTaskRequest) : Http (RepeatingTask * list Effect) :=
  name ← reply (validate_name (n_name body));
  prompt ← reply (validate_prompt (n_prompt body));
  schedule_value ← reply (validate_schedule (n_schedule_kind body) (n_schedule_value body));
  timezone ← reply (validate_timezone (n_timezone body));
  target ← reply (validate_target (n_target body));
  reply (check_model_or_400 (n_model body));;
  folder_exists (n_folder_id body);;
  t ← internal now_dt;
  id ← internal new_v4;
  let draft next := mkTask id name (n_description body) (n_folder_id body) prompt (n_schedule_kind body)
    schedule_value (n_model body) (n_effort body) (n_enabled body) next None (to_rfc3339 t) (to_rfc3339 t)
    timezone target in
  next_run_at ← internal (if n_enabled body then initial_next_run_at (draft None) else mret None);
  task ← internal (create_repeating_task (draft next_run_at));
  mret (task, [TaskChanged (t_id task)]).

(** [None] is a field that was not sent. *)
Record UpdateRepeatingTaskRequest := mkChange {
  w_name : option string;
  w_description : option string;
  w_folder_id : option string;
  w_prompt : option string;
  w_schedule_kind : option string;
  w_schedule_value : option string;
  w_model : option (option string);
  w_effort : option (option string);
  w_enabled : option bool;
  w_timezone : option (option string);
  w_target : option (option string);
}.

Definition validate_opt {A B} (f : A → Result (Z * string) B) (o : option A) : Result (Z * string) (option B) :=
  match o with None => Ok None | Some a => b ← f a; Ok (Some b) end.

(** Kind and value are checked together; one alone is checked with the stored
    other. *)
Definition changed_schedule (existing : RepeatingTask) (kind value : option string) :
    Result (Z * string) (option (string * string)) :=
  match kind, value with
  | None, None => Ok None
  | Some k, Some v => v ← validate_schedule k v; Ok (Some (k, v))
  | Some k, None =>
    match reserialize (t_schedule_value existing) with
    | Err e => Err (500, e)
    | Ok v => v ← validate_schedule k v; Ok (Some (k, v))
    end
  | None, Some v => v ← validate_schedule (t_schedule_kind existing) v; Ok (Some (t_schedule_kind existing, v))
  end.

Definition update_route (id : string) (body : UpdateRepeatingTaskRequest) : Http (RepeatingTask * list Effect) :=
  found ← internal (gets (get_repeating_task id));
  existing ← reply (match found with Some t => Ok t | None => not_found end);
  name ← reply (validate_opt validate_name (w_name body));
  prompt ← reply (validate_opt validate_prompt (w_prompt body));
  timezone ← reply (validate_opt validate_timezone (w_timezone body));
  target ← reply (validate_opt validate_target (w_target body));
  reply (check_model_or_400 (mjoin (w_model body)));;
  schedule ← reply (changed_schedule existing (w_schedule_kind body) (w_schedule_value body));
  match w_folder_id body with Some f => folder_exists f | None => mret tt end;;
  t ← internal now_dt;
  let recompute_next := is_some schedule || is_some timezone || is_some (w_enabled body) in
  let enabled := default (t_enabled existing) (w_enabled body) in
  let draft := mkTask (t_id existing) (default (t_name existing) name)
    (default (t_description existing) (w_description body)) (default (t_folder_id existing) (w_folder_id body))
    (default (t_prompt existing) prompt)
    (match schedule with Some (k, _) => k | None => t_schedule_kind existing end)
    (match schedule with Some (_, v) => v | None => t_schedule_value existing end)
    (t_model existing) (t_effort existing) enabled None (t_last_run_at existing) (t_created_at existing)
    (to_rfc3339 t) (default (t_timezone existing) timezone) (t_target existing) in
  next ← internal (if recompute_next
                   then (if enabled then n ← initial_next_run_at draft; mret (Some n) else mret (Some None))
                   else mret None);
  updated ← internal (update_repeating_task id
    (mkUpdate name (w_description body) (w_folder_id body) prompt
      (match schedule with Some (k, _) => Some k | None => None end)
      (match schedule with Some (_, v) => Some v | None => None end)
      (w_model body) (w_effort body) (w_enabled body) next None (Some (to_rfc3339 t)) timezone target));
  task ← reply (match updated with Some t => Ok t | None => not_found end);
  mret (task, [TaskChanged (t_id task)]).

Definition delete_route (id : string) : Http (list Effect) :=
  deleted ← internal (delete_repeating_task id);
  if negb deleted then reply not_found else mret [TaskChanged id].

(** A forced run ignores the [enabled] flag. *)
Definition run_route (id : string) (env : RunEnv) : Http (string * option string) :=
  r ← internal (try_run_now id env false);
  reply match r.1 with
        | Spawned_ => Ok ("spawned", None)
        | AlreadyRunning => Ok ("already_running", None)
        | Disabled => Ok ("disabled", None)
        | ConsumedOnce =>
          Err (409, "This one-off task has already run. Edit its scheduled time to run it again.")
        | Throttled r => Ok ("throttled", Some r)
        | QueuedForAssistant => Ok ("queued", None)
        | NoAssistant =>
          Err (409, "There is no Assistant yet. Open the Assistant page once, then run this task again.")
        end.
End repeating.
End Repeating.
