(* ===== verification/RepeatingProps.v ===== *)
(** * Properties of repeating tasks

    What a run may change, whatever the rest of the system answers; that runs
    of the scheduler are spaced; that a one-off fires once; and the watchdog. *)

From S2P Require Import Prelude RustStr Json Todo Store Schedule Gregorian ScheduleProps Repeating.

Module RepeatingProps.
Import Schedule Repeating.

(** ** Reasoning about operations *)

Definition wp {A} (m : R A) (s : St) (Q : Res A → St → Prop) : Prop := Q (m s).1 (m s).2.

Lemma wp_bind {A B} (m : R A) (k : A → R B) s Q :
  wp m s (λ r s', match r with
    | Val a => wp (k a) s' Q | Fail e => Q (Fail e) s' | Panicked => Q Panicked s' end) →
  wp (m ≫= k) s Q.
Proof. unfold wp, mbind, R_bind. by destruct (m s) as [[a|e|] s']. Qed.

Lemma wp_mono {A} (m : R A) s (P Q : Res A → St → Prop) :
  wp m s P → (∀ r s', P r s' → Q r s') → wp m s Q.
Proof. unfold wp. eauto. Qed.

Lemma wp_attempt {A} (m : R A) s Q :
  wp m s (λ r s', match r with
    | Val a => Q (Val (Ok a)) s' | Fail e => Q (Val (Err e)) s' | Panicked => Q Panicked s' end) →
  wp (attempt m) s Q.
Proof. unfold wp, attempt. by destruct (m s) as [[a|e|] s']. Qed.

(** The clock of the store never goes back. *)
Definition later (n : nat) (db : Store.Db) : Prop := (n ≤ Store.clock db)%nat.

(** Nothing but the store and the run history changes. *)
Definition frame (s s' : St) : Prop :=
  tasks s' = tasks s ∧ auditor s' = auditor s ∧ spawned s' = spawned s ∧ folders s' = folders s ∧
  (Store.clock (store s) ≤ Store.clock (store s'))%nat.

#[export] Instance frame_refl : Reflexive frame.
Proof. intros s. unfold frame. split_and!; (done || lia). Qed.
#[export] Instance frame_trans : Transitive frame.
Proof. intros s s' s'' (?&?&?&?&?) (?&?&?&?&?). unfold frame. split_and!; (congruence || lia). Qed.

Section props.
Context `{ChronoLaws} `{ScheduleJsonLaws} `{Clock} `{JsonApi}.
#[local] Existing Instance world.

#[local] Instance later_tick n : Store.Preserves (later n) Store.tick.
Proof. intros db Hdb. unfold later in *. cbn. lia. Qed.

Lemma later_modify n f : (∀ db, Store.clock (f db) = Store.clock db) → Store.Preserves (later n) (Store.modify f).
Proof. intros Hf. apply Store.preserves_modify. intros db. unfold later. by rewrite Hf. Qed.

Ltac clocks := Store.preserve; try (apply later_modify; done).

#[local] Instance later_uuid n : Store.Preserves (later n) Store.uuid.
Proof. unfold Store.uuid. clocks. Qed.
#[local] Instance later_millis n : Store.Preserves (later n) Store.millis.
Proof. unfold Store.millis. clocks. Qed.

#[local] Instance later_append n sid k d : Store.Preserves (later n) (Store.append_event sid k d).
Proof.
  unfold Store.append_event. generalize Store.APPEND_SEQ_MAX_ATTEMPTS. intros a.
  induction a; cbn; clocks.
Qed.

#[local] Instance later_create n id w p c st m : Store.Preserves (later n) (Store.create_session id w p c st m).
Proof. unfold Store.create_session. clocks. Qed.

Lemma frame_on_store {A} (m : Store.M A) s :
  (∀ n, Store.Preserves (later n) m) → frame s (on_store m s).2.
Proof.
  intros Hm. pose proof (Hm (Store.clock (store s)) (store s) (le_n _)) as Hl. unfold on_store.
  destruct (m (store s)) as [[a|e] db]; cbn in *; unfold frame; cbn; split_and!; done.
Qed.

Lemma wp_now_dt s Q :
  (∀ s', frame s s' → Store.clock (store s') = S (Store.clock (store s)) → Q (Val (utc_now (Store.clock (store s)))) s') →
  wp now_dt s Q.
Proof. intros HQ. apply HQ; [unfold frame; split_and!; (done || exact (Nat.le_succ_diag_r _))|done]. Qed.

Lemma wp_new_v4 s Q :
  (∀ s', frame s s' → Store.clock (store s') = S (Store.clock (store s)) → Q (Val (uuid_v4 (Store.clock (store s)))) s') →
  wp new_v4 s Q.
Proof. intros HQ. apply HQ; [unfold frame; split_and!; (done || exact (Nat.le_succ_diag_r _))|done]. Qed.

Lemma wp_append s sid k d (Q : Res (Result string _) → St → Prop) :
  (∀ r s', frame s s' → Q (Val r) s') → wp (attempt (on_store (Store.append_event sid k d))) s Q.
Proof.
  intros HQ. pose proof (frame_on_store (Store.append_event sid k d) s ltac:(intros; apply _)) as Hf.
  unfold wp, attempt. revert Hf. unfold on_store. destruct (Store.append_event sid k d (store s)) as [[a|e] db]; cbn; apply HQ.
Qed.

Lemma wp_record_run s id sid st tr d (Q : Res unit → St → Prop) :
  (∀ s', frame s s' → Q (Val tt) s') → wp (record_run id sid st tr d) s Q.
Proof.
  intros HQ. unfold record_run. apply wp_bind, wp_new_v4. intros s1 Hf1 _. apply wp_bind, wp_now_dt. intros s2 Hf2 _.
  assert (frame s s2) as Hf by (by etrans).
  apply wp_bind, wp_attempt. unfold create_repeating_task_run.
  apply wp_bind. unfold wp at 1, gets. cbn -[wp]. destruct (negb _); [by apply HQ|].
  apply wp_bind. unfold wp at 1. cbn -[wp]. destruct (existsb _ _); [by apply HQ|].
  apply HQ. etrans; [done|]. unfold frame. cbn. split_and!; (done || lia).
Qed.

(** ** What a run does to the tasks *)

Definition ran_task (task : RepeatingTask) (now : Z) (f : option string * option bool) : RepeatingTask :=
  apply_update (ran_update (to_rfc3339 now) f.1 f.2) task.

(** The sessions after a dispatch at [now]: at most one more, of the task. *)
Definition one_more_session (id : string) (now : Z) (s s' : St) : Prop :=
  spawned s' = spawned s ∨ ∃ sid, spawned s' = <[sid := mkSpawned (Some id) (to_rfc3339 now)]> (spawned s).

(** The watchdog's log after it: the run is logged when it is the scheduler's
    and went through. *)
Definition logged (id : string) (trigger : RunTrigger) (now : Z) (s s' : St) : Prop :=
  scheduler_history (auditor s') = scheduler_history (auditor s) ∨
  (trigger = Scheduler ∧
   scheduler_history (auditor s') =
     <[id := push_history now (default [] (scheduler_history (auditor s) !! id))]> (scheduler_history (auditor s))).

(** A dispatch of [task] at the clock's [n]th reading. *)
Inductive dispatched (task : RepeatingTask) (trigger : RunTrigger) (s s' : St) : Prop :=
  | dispatch_none : frame s s' → dispatched task trigger s s'
  | dispatch_done n f :
      (Store.clock (store s) ≤ n < Store.clock (store s'))%nat →
      next_run_fields task (utc_now n) = Return f →
      tasks s' = <[t_id task := ran_task task (utc_now n) f]> (tasks s) →
      logged (t_id task) trigger (utc_now n) s s' → one_more_session (t_id task) (utc_now n) s s' →
      folders s' = folders s → dispatched task trigger s s'
  | dispatch_panic n :
      (Store.clock (store s) ≤ n < Store.clock (store s'))%nat →
      next_run_fields task (utc_now n) = Panic →
      tasks s' = tasks s → auditor s' = auditor s → one_more_session (t_id task) (utc_now n) s s' →
      folders s' = folders s → dispatched task trigger s s'.

Lemma dispatched_frame task tr s s' s'' : dispatched task tr s s' → frame s' s'' → dispatched task tr s s''.
Proof.
  intros Hd Hfr. pose proof Hfr as (Ht & Ha & Hs & Hf & Hc). destruct Hd as [?|n f|n].
  - apply dispatch_none. by etrans.
  - apply (dispatch_done _ _ _ _ n f); unfold logged, one_more_session in *; rewrite ?Ht, ?Ha, ?Hs, ?Hf; (done || lia).
  - apply (dispatch_panic _ _ _ _ n); unfold one_more_session in *; rewrite ?Ht, ?Ha, ?Hs, ?Hf; (done || lia).
Qed.

Lemma wp_modify f s (Q : Res unit → St → Prop) : Q (Val tt) (f s) → wp (modify f) s Q.
Proof. done. Qed.
Lemma wp_ret {A} (a : A) s (Q : Res A → St → Prop) : Q (Val a) s → wp (mret a) s Q.
Proof. done. Qed.
Lemma wp_gets {A} (f : St → A) s (Q : Res A → St → Prop) : Q (Val (f s)) s → wp (gets f) s Q.
Proof. done. Qed.
Lemma wp_of_outcome {A} (o : Outcome A) s (Q : Res A → St → Prop) :
  Q match o with Return a => Val a | Panic => Panicked end s → wp (of_outcome o) s Q.
Proof. done. Qed.
Lemma wp_fail {A} e s (Q : Res A → St → Prop) : Q (Fail e) s → wp (fail e) s Q.
Proof. done. Qed.

(** A run recorded, then the reply. *)
Lemma wp_recorded {A} (a : A) s id sid st tr d (Q : St → Prop) :
  (∀ s', frame s s' → Q s') → wp (record_run id sid st tr d;; mret a) s (λ _ s', Q s').
Proof. intros HQ. apply wp_bind, wp_record_run. intros s' Hs'. by apply wp_ret, HQ. Qed.

Lemma wp_reschedule task now s (Q : Res unit → St → Prop) :
  tasks s !! t_id task = Some task →
  (next_run_fields task now = Panic → Q Panicked s) →
  (∀ f, next_run_fields task now = Return f → Q (Val tt) (set_tasks (<[t_id task := ran_task task now f]>) s)) →
  wp (reschedule task now) s Q.
Proof.
  intros Hrow HP HR. unfold reschedule. apply wp_bind, wp_of_outcome.
  destruct (next_run_fields task now) as [|f]; [by apply HP|]. apply wp_bind, wp_attempt.
  unfold update_repeating_task. apply wp_bind, wp_gets. unfold get_repeating_task. rewrite Hrow.
  by apply HR.
Qed.

Lemma queue_dispatched task env trigger s :
  tasks s !! t_id task = Some task → wp (queue_for_assistant_locked task env trigger) s (λ _ s', dispatched task trigger s s').
Proof.
  intros Hrow. unfold queue_for_assistant_locked. apply wp_bind, wp_now_dt. intros s1 (Ht & Ha & Hs & Hf & _) Hc.
  set (n := Store.clock (store s)) in *. apply wp_bind, wp_reschedule; [by rewrite Ht|..].
  { intros Hp. eapply dispatch_panic; [|done..|by left|done]. lia. }
  intros f Hnf. set (s2 := set_tasks _ s1). apply wp_bind.
  assert (∀ s3, logged (t_id task) trigger (utc_now n) s s3 → frame (set_auditor (λ _, auditor s3) s2) s3 →
    dispatched task trigger s s3) as Hdone.
  { intros s3 Hl (Ht3 & _ & Hs3 & Hf3 & Hc3). apply (dispatch_done _ _ _ _ n f); [|done|..].
    - cbn in Hc3. lia.
    - rewrite Ht3. cbn. by rewrite Ht.
    - done.
    - left. by rewrite Hs3.
    - by rewrite Hf3. }
  assert (∀ s3, dispatched task trigger s s3 → wp (hand_to_voice task env trigger) s3 (λ _ s', dispatched task trigger s s')) as Hrest.
  { intros s3 Hd. unfold hand_to_voice. destruct (voice env); apply wp_recorded; intros s' Hs'; by eapply dispatched_frame. }
  case_bool_decide as Htr; [apply wp_modify|apply wp_ret]; apply Hrest, Hdone; try reflexivity.
  - right. split; [done|]. cbn. by rewrite Ha.
  - left. cbn. by rewrite Ha.
Qed.

Lemma wp_create_run_session task sid now s (Q : Res unit → St → Prop) :
  (∀ e s', frame s s' → Q (Fail e) s') →
  (∀ s', frame s s' → Q (Val tt) (set_spawned (<[sid := mkSpawned (Some (t_id task)) (to_rfc3339 now)]>) s')) →
  wp (create_run_session task sid now) s Q.
Proof.
  intros HF HV. unfold create_run_session.
  pose proof (frame_on_store (Store.create_session sid false None None None (t_model task)) s ltac:(intros; apply _)) as Hf.
  apply wp_bind. unfold wp. revert Hf. unfold on_store.
  destruct (Store.create_session sid false None None None (t_model task) (store s)) as [[a|e] db]; cbn; [|by apply HF].
  intros Hf. by apply HV.
Qed.

Lemma spawn_dispatched task env trigger s :
  tasks s !! t_id task = Some task → wp (spawn_session task env trigger) s (λ _ s', dispatched task trigger s s').
Proof.
  intros Hrow. unfold spawn_session. apply wp_bind, wp_now_dt. intros s1 Hf1 Hc. set (n := Store.clock (store s)) in *.
  apply wp_bind, wp_new_v4. intros s2 Hf2 _. assert (frame s s2) as Hs2 by (by etrans).
  set (sid := uuid_v4 _). apply wp_bind, wp_create_run_session.
  { intros e s' Hs'. apply dispatch_none. by etrans. }
  intros s3 Hf3. assert (frame s s3) as Hs3 by (by etrans).
  set (s3' := set_spawned _ s3).
  (* from here on the session is there, and nothing else *)
  assert (∀ s4, frame s3' s4 → tasks s4 = tasks s ∧ auditor s4 = auditor s ∧ folders s4 = folders s ∧
    one_more_session (t_id task) (utc_now n) s s4 ∧ (n < Store.clock (store s4))%nat) as Hmid.
  { destruct Hs3 as (Ht3 & Ha3 & Hsp3 & Hfo3 & Hc3). destruct Hf2 as (_ & _ & _ & _ & Hc2). destruct Hf3 as (_ & _ & _ & _ & Hc3').
    intros s4 (Ht4 & Ha4 & Hsp4 & Hfo4 & Hc4). cbn in *. split_and!; try congruence; [|lia].
    right. exists sid. by rewrite Hsp4, Hsp3. }
  assert (∀ s4 s5 f, frame s3' s4 → next_run_fields task (utc_now n) = Return f →
    tasks s5 = <[t_id task := ran_task task (utc_now n) f]> (tasks s4) → spawned s5 = spawned s4 → folders s5 = folders s4 →
    (Store.clock (store s4) ≤ Store.clock (store s5))%nat →
    logged (t_id task) trigger (utc_now n) s s5 → dispatched task trigger s s5) as Hdone.
  { intros s4 s5 f (Ht & Ha & Hfo & Ho & Hn)%Hmid Hnf Ht5 Hs5 Hf5 Hc5 Hl.
    apply (dispatch_done _ _ _ _ n f); [lia|done|by rewrite Ht5, Ht|done|unfold one_more_session in *; by rewrite Hs5|congruence]. }
  assert (∀ s4, frame s3' s4 → next_run_fields task (utc_now n) = Panic → dispatched task trigger s s4) as Hpanic.
  { intros s4 (Ht & Ha & Hfo & Ho & Hn)%Hmid Hp. apply (dispatch_panic _ _ _ _ n); (done || lia). }
  apply wp_bind, wp_append. intros _ s4 Hf4. destruct (sent env) as [[]|e].
  - apply wp_bind, wp_reschedule; [by rewrite (proj1 (Hmid s4 Hf4))|intros Hp; by apply Hpanic|]. intros f Hnf.
    apply wp_bind, wp_record_run. intros s5 Hf5. destruct Hf5 as (Ht5 & Ha5 & Hs5 & Hfo5 & Hc5). apply wp_bind.
    destruct (Hmid s4 Hf4) as (_ & Ha4 & _). cbn in *.
    case_bool_decide; apply wp_modify, wp_ret, (Hdone s4 _ f Hf4 Hnf); cbn; try done.
    + right. split; [done|]. cbn. by rewrite Ha5, Ha4.
    + left. cbn. by rewrite Ha5, Ha4.
  - apply wp_bind, wp_append. intros _ s5 Hf5. apply wp_bind, wp_record_run. intros s6 Hf6.
    assert (frame s3' s6) as Hf36 by (by do 2 (etrans; [done|])).
    apply wp_bind, wp_reschedule; [by rewrite (proj1 (Hmid s6 Hf36))|intros Hp; by apply Hpanic|]. intros f Hnf.
    apply wp_fail, (Hdone s6 _ f Hf36 Hnf); cbn; try done. left. cbn. by rewrite (proj1 (proj2 (Hmid s6 Hf36))).
Qed.

(** None of the task's sessions is running. *)
Definition idle (id : string) (env : RunEnv) (s : St) : Prop :=
  ∀ sid sp, spawned s !! sid = Some sp → sp_task_id sp = Some id → is_running env sid = false.

Inductive run_step (id : string) (env : RunEnv) (respect : bool) (trigger : RunTrigger) (s s' : St) : Prop :=
  | run_none : frame s s' → run_step id env respect trigger s s'
  | run_off task n :
      tasks s !! id = Some task → trigger = Scheduler → is_ok (schedule_of task) = false →
      tasks s' = <[id := apply_update (off_update (to_rfc3339 (utc_now n))) task]> (tasks s) →
      frame (set_tasks (λ _, tasks s') s) s' → run_step id env respect trigger s s'
  | run_dispatch task n s1 :
      tasks s !! id = Some task → (respect = true → t_enabled task = true) → is_consumed_once task = false →
      (Store.clock (store s) ≤ n < Store.clock (store s1))%nat →
      check_run_policy task (t_last_run_at task) (utc_now n) trigger = Return Allow →
      frame s s1 → dispatched task trigger s1 s' → (spawned s' = spawned s ∨ idle id env s) →
      run_step id env respect trigger s s'.

Lemma elem_of_sessions id s x :
  x ∈ list_sessions_by_repeating_task id s ↔ spawned s !! x.1 = Some x.2 ∧ sp_task_id x.2 = Some id.
Proof.
  unfold list_sessions_by_repeating_task. rewrite elem_of_sort_by, list_elem_of_In, List.filter_In, <- list_elem_of_In.
  rewrite bool_decide_eq_true. destruct x as [sid sp]. by rewrite elem_of_map_to_list.
Qed.

Lemma queue_spawned task env trigger s :
  wp (queue_for_assistant_locked task env trigger) s (λ _ s', spawned s' = spawned s).
Proof.
  unfold queue_for_assistant_locked. apply wp_bind, wp_now_dt. intros s1 (_ & _ & Hs & _) _.
  apply wp_bind. unfold reschedule. apply wp_bind, wp_of_outcome.
  destruct (next_run_fields _ _) as [|f]; [done|]. apply wp_bind, wp_attempt.
  unfold update_repeating_task. apply wp_bind, wp_gets.
  assert (∀ s2, spawned s2 = spawned s → wp
     ((if trigger == Scheduler then record_scheduler_dispatch (t_id task) (utc_now (Store.clock (store s))) else mret tt);;
     hand_to_voice task env trigger) s2 (λ _ s', spawned s' = spawned s)) as Hrest.
  { intros s2 Hs2. apply wp_bind. case_bool_decide; [apply wp_modify|apply wp_ret]; unfold hand_to_voice; destruct (voice env);
      apply wp_recorded; intros s' (_ & _ & Hs' & _); rewrite Hs'; done. }
  destruct (get_repeating_task _ _); by apply Hrest.
Qed.

Lemma start_run_step id env respect trigger s :
  (∀ k t, tasks s !! k = Some t → t_id t = k) →
  wp (start_run_locked id env respect trigger) s (λ _ s', run_step id env respect trigger s s').
Proof.
  intros Hids. unfold start_run_locked. apply wp_bind, wp_gets. unfold get_repeating_task.
  destruct (tasks s !! id) as [task|] eqn:Hrow; [|apply wp_ret; by apply run_none].
  assert (t_id task = id) as Hid by (by apply Hids).
  destruct (respect && negb (t_enabled task)) eqn:Hen; [apply wp_ret; by apply run_none|].
  destruct (is_consumed_once task) eqn:Hco; [apply wp_recorded; by apply run_none|].
  assert (wp (run_if_allowed task env trigger) s (λ _ s', run_step id env respect trigger s s')) as Hmain.
  { unfold run_if_allowed. rewrite Hid. apply wp_bind, wp_now_dt. intros s1 Hf1 Hc1. apply wp_bind, wp_of_outcome.
    destruct (check_run_policy _ _ _ _) as [|[|reason]] eqn:Hpol; [by apply run_none| |].
    2: { apply wp_recorded. intros s' Hs'. apply run_none. by etrans. }
    assert (tasks s1 !! t_id task = Some task) as Hrow1 by (rewrite (proj1 Hf1), Hid; done).
    assert (respect = true → t_enabled task = true) as Hen' by (by destruct respect, (t_enabled task)).
    assert (Store.clock (store s) ≤ Store.clock (store s) < Store.clock (store s1))%nat as Hn by lia.
    case_bool_decide.
    { pose proof (queue_dispatched task env trigger s1 Hrow1) as Hq. pose proof (queue_spawned task env trigger s1) as Hsp.
      eapply run_dispatch; [done..|exact Hq|]. left. unfold wp in Hsp. rewrite Hsp. apply Hf1. }
    apply wp_bind, wp_gets. destruct (List.find _ _) as [x|] eqn:Hfind.
    { apply wp_bind. case_bool_decide; [apply wp_record_run; intros s' Hs'|]; apply wp_ret, run_none; [by etrans|done]. }
    apply wp_bind, wp_gets. case_bool_decide; cbn [negb]; [|apply wp_fail; by apply run_none].
    eapply run_dispatch; [done..|by apply spawn_dispatched|]. right. intros sid sp Hsp Htask.
    apply (List.find_none _ _ Hfind (sid, sp)). apply list_elem_of_In, elem_of_sessions. cbn.
    destruct Hf1 as (_ & _ & Hs1 & _). by rewrite Hs1. }
  destruct trigger; [exact Hmain|]. destruct (schedule_of task) as [sched|e] eqn:Hsch; [exact Hmain|].
  apply wp_bind, wp_now_dt. intros s1 Hf1 Hc1. apply wp_bind, wp_attempt.
  unfold update_repeating_task. apply wp_bind, wp_gets. unfold get_repeating_task. rewrite (proj1 Hf1), Hrow.
  apply wp_bind, wp_modify, wp_ret, wp_recorded. intros s' Hs'. eapply run_off; [done|done|by rewrite Hsch|..].
  - rewrite (proj1 Hs'). cbn. by rewrite (proj1 Hf1).
  - destruct Hs' as (? & ? & ? & ? & ?), Hf1 as (? & ? & ? & ? & ?). unfold frame. cbn in *. split_and!; (congruence || lia).
Qed.

(** One run at a time.  A run of a task, forced or scheduled, starts at most
    one session, and only when no session of an earlier run of the task is being
    processed; and it writes no other task. *)
Theorem run_single_flight id env respect trigger s :
  (∀ k t, tasks s !! k = Some t → t_id t = k) →
  let s' := (start_run_locked id env respect trigger s).2 in
  (∀ k, k ≠ id → tasks s' !! k = tasks s !! k) ∧
  (spawned s' = spawned s ∨
   idle id env s ∧ ∃ sid t, spawned s' = <[sid := mkSpawned (Some id) t]> (spawned s)).
Proof.
  intros Hids s'. pose proof (start_run_step id env respect trigger s Hids) as Hr. change (run_step id env respect trigger s s') in Hr.
  destruct Hr as [(Ht & _ & Hsp & _)|task n Hrow _ _ Ht (_ & _ & Hsp & _)|task n s1 Hrow _ _ _ _ (Ht1 & _ & Hsp1 & _) Hd Hidle].
  - rewrite Ht, Hsp. auto.
  - rewrite Ht, Hsp. split; [|by left]. intros k Hk. by apply lookup_insert_ne.
  - assert (t_id task = id) as Hid by (by apply Hids).
    assert ((∀ k, k ≠ id → tasks s' !! k = tasks s !! k) ∧
      (spawned s' = spawned s ∨ ∃ sid t, spawned s' = <[sid := mkSpawned (Some id) t]> (spawned s))) as [Htk Hsess].
    { rewrite <- Hid, <- Ht1, <- Hsp1. unfold one_more_session in Hd.
      destruct Hd as [(Ht & _ & Hsp & _)|n2 f _ _ Ht _ Ho _|n2 _ _ Ht _ Ho _]; unfold one_more_session in *; rewrite Ht.
      - rewrite Hsp. auto.
      - split; [intros k Hk; by apply lookup_insert_ne|]. naive_solver.
      - split; [done|]. naive_solver. }
    split; [done|]. destruct Hsess as [?|?]; [by left|]. destruct Hidle as [?|?]; [by left|by right].
Qed.
(** ** Everything that happens to the tasks *)

Lemma wp_http_bind {A B} (m : Http A) (k : A → Http B) s (Q : Res (Result (Z * string) B) → St → Prop) :
  wp m s (λ r s', match r with
    | Val (Ok a) => wp (k a) s' Q | Val (Err e) => Q (Val (Err e)) s'
    | Fail e => Q (Fail e) s' | Panicked => Q Panicked s' end) →
  wp (m ≫= k) s Q.
Proof. intros Hm. apply wp_bind. eapply wp_mono; [exact Hm|]. by intros [[a|e]|e|] s'. Qed.

Lemma wp_internal {A} (m : R A) s (Q : Res (Result (Z * string) A) → St → Prop) :
  wp m s (λ r s', match r with
    | Val a => Q (Val (Ok a)) s' | Fail e => Q (Val (Err (500, e))) s' | Panicked => Q Panicked s' end) →
  wp (internal m) s Q.
Proof. intros Hm. apply wp_bind, wp_attempt. eapply wp_mono; [exact Hm|]. by intros [a|e|] s'. Qed.

(** A check that writes nothing. *)
Lemma wp_checked {A B} (r : Result (Z * string) A) (k : A → Http B) s (P : St → Prop) :
  P s → (∀ a, wp (k a) s (λ _ s', P s')) → wp (reply r ≫= k) s (λ _ s', P s').
Proof. intros HP Hk. apply wp_http_bind. unfold wp at 1, reply. cbn [fst snd]. by destruct r. Qed.

Lemma wp_folder {B} f (k : unit → Http B) s (P : St → Prop) :
  P s → wp (k tt) s (λ _ s', P s') → wp (folder_exists f ≫= k) s (λ _ s', P s').
Proof.
  intros HP Hk. apply wp_http_bind. unfold folder_exists. apply wp_http_bind, wp_internal, wp_gets.
  unfold wp at 1, reply. cbn [fst snd]. by case_bool_decide.
Qed.

Lemma wp_initial task s (Q : Res (option string) → St → Prop) :
  (∀ r s', frame s s' → Q (Val r) s') → (∀ s', frame s s' → Q Panicked s') → wp (initial_next_run_at task) s Q.
Proof.
  intros HV HP. apply wp_bind, wp_now_dt. intros s' Hs' _. apply wp_of_outcome. destruct (next_run_at_after _ _); auto.
Qed.

(** What the server does to tasks, in any order. *)
Inductive op :=
  | Tick (env : string → RunEnv) (lock_held : string → bool)
  | RunNow (id : string) (env : RunEnv)
  | Audit
  | CreateTask (body : CreateRepeatingTaskRequest)
  | ChangeTask (id : string) (body : UpdateRepeatingTaskRequest)
  | DeleteTask (id : string).

Section exec.
Context (check_model : option string → Result string unit) (reserialize : string → Result string string).

Definition exec (o : op) (s : St) : St :=
  match o with
  | Tick env lock_held => (run_due_tasks env lock_held s).2
  | RunNow id env => (run_route id env s).2
  | Audit => (audit_pass s).2
  | CreateTask body => (create_route check_model body s).2
  | ChangeTask id body => (update_route check_model reserialize id body s).2
  | DeleteTask id => (delete_route id s).2
  end.

Definition exec_all (ops : list op) (s : St) : St := fold_left (λ s o, exec o s) ops s.


(** Facts about the state that every operation keeps, edits of tasks only where
    [edits] allows them. *)
Record stable (I : St → Prop) (edits : string → Prop) : Prop := {
  st_ids s k t : I s → tasks s !! k = Some t → t_id t = k;
  st_frame s s' : I s → frame s s' → I s';
  st_run id env respect trigger s s' : I s → run_step id env respect trigger s s' → I s';
  st_row s id task u : I s → tasks s !! id = Some task → u_last_run_at u = None →
    (∃ t, u = off_update t) ∨ edits id → I (set_tasks (<[id := apply_update u task]>) s);
  st_create s s' t : I s → frame s s' → (Store.clock (store s) < Store.clock (store s'))%nat →
    t_id t = uuid_v4 (Store.clock (store s)) → tasks s' !! t_id t = None → I (set_tasks (<[t_id t := t]>) s');
  st_delete s id : I s → I (delete_repeating_task id s).2;
}.

Context (I : St → Prop) (edits : string → Prop) (HI : stable I edits).

Lemma kept_start id env respect trigger s :
  I s → wp (start_run_locked id env respect trigger) s (λ _ s', I s').
Proof.
  intros Hs. eapply wp_mono; [apply start_run_step; intros k t; by apply (st_ids _ _ HI)|].
  intros ? s'. by apply (st_run _ _ HI).
Qed.

Lemma kept_run_each env lock_held due s : I s → wp (run_each env lock_held due) s (λ _ s', I s').
Proof.
  revert s. induction due as [|t due IH]; intros s Hs; [by apply wp_ret|]. cbn [run_each]. apply wp_bind.
  assert (∀ effects s', I s' → wp (more ← run_each env lock_held due; mret (effects ++ more)) s' (λ _ s', I s')) as Hrest.
  { intros effects s' Hs'. apply wp_bind. eapply wp_mono; [by apply IH|]. by intros [l|e|] s'' Hs''. }
  destruct (lock_held _); [apply wp_ret; by apply Hrest|]. apply wp_bind, wp_attempt.
  eapply wp_mono; [by apply kept_start|]. intros [a|e|] s' Hs'; cbn beta iota; [..|done]; apply wp_ret; by apply Hrest.
Qed.

Lemma kept_tick env lock_held s : I s → wp (run_due_tasks env lock_held) s (λ _ s', I s').
Proof.
  intros Hs. apply wp_bind, wp_now_dt. intros s1 Hf _. assert (I s1) as Hs1 by (by eapply (st_frame _ _ HI)).
  apply wp_bind, wp_gets, wp_bind, wp_of_outcome. destruct (due_tasks _ _); [done|]. by apply kept_run_each.
Qed.

Lemma kept_run_now id env s : I s → wp (run_route id env) s (λ _ s', I s').
Proof.
  intros Hs. unfold run_route. apply wp_http_bind, wp_internal. eapply wp_mono; [by apply kept_start|].
  by intros [[o ?]|e|] s' Hs'.
Qed.

Lemma kept_update id u s :
  I s → u_last_run_at u = None → (∃ t, u = off_update t) ∨ edits id → wp (update_repeating_task id u) s (λ _ s', I s').
Proof.
  intros Hs Hu He. apply wp_bind, wp_gets. unfold get_repeating_task.
  destruct (tasks s !! id) as [task|] eqn:Hrow; [|by apply wp_ret].
  apply wp_bind, wp_modify, wp_ret. by apply (st_row _ _ HI).
Qed.

Lemma kept_switch_off vs s : I s → wp (switch_off vs) s (λ _ s', I s').
Proof.
  revert s. induction vs as [|v vs IH]; intros s Hs; [by apply wp_ret|]. cbn [switch_off].
  apply wp_bind, wp_now_dt. intros s1 Hf _. assert (I s1) as Hs1 by (by eapply (st_frame _ _ HI)).
  apply wp_bind, wp_attempt. eapply wp_mono; [apply kept_update; eauto|].
  intros [a|e|] s' Hs'; cbn beta iota; [..|done]; (apply wp_bind; eapply wp_mono; [by apply IH|]; by intros [l|e'|] s'' Hs'').
Qed.

Lemma kept_audit s : I s → wp audit_pass s (λ _ s', I s').
Proof.
  intros Hs. unfold audit_pass. apply wp_bind, wp_gets, wp_bind, wp_gets, wp_bind, wp_of_outcome.
  destruct (audit_in_memory _ _) as [|a]; [done|].
  apply wp_bind, wp_gets, wp_bind, wp_of_outcome. destruct (audit_persisted _ _) as [|b]; [done|].
  cbv zeta. apply wp_bind. eapply wp_mono; [by apply kept_switch_off|]. by intros [l|e|] s' Hs'.
Qed.

Lemma kept_create body s : I s → wp (create_route check_model body) s (λ _ s', I s').
Proof.
  intros Hs. unfold create_route. do 5 (apply wp_checked; [done|intros ?]). apply wp_checked; [done|]. intros [].
  apply wp_folder; [done|]. apply wp_http_bind, wp_internal, wp_now_dt. intros s1 Hf1 _.
  apply wp_http_bind, wp_internal, wp_new_v4. intros s2 Hf2 Hc2. cbv zeta.
  assert (I s1) as Hs1 by (by eapply (st_frame _ _ HI)). assert (I s2) as Hs2 by (by eapply (st_frame _ _ HI)).
  apply wp_http_bind, wp_internal.
  match goal with |- wp ?m s2 ?Q => assert (∀ r s3, frame s2 s3 → Q (Val r) s3) as Hlast end.
  { intros next s3 Hf3. assert (I s3) as Hs3 by (by eapply (st_frame _ _ HI)). cbn beta iota.
    apply wp_http_bind, wp_internal, wp_bind, wp_gets. unfold get_repeating_task.
    destruct (tasks s3 !! _) as [t|] eqn:Hno; [by apply wp_fail|]. apply wp_bind, wp_modify, wp_ret, wp_ret.
    apply (st_create _ _ HI s1); [done|by etrans| |done|done].
    destruct Hf3 as (_ & _ & _ & _ & Hc3). lia. }
  destruct (n_enabled body); [|by apply wp_ret, Hlast].
  apply wp_initial; [intros r s3 Hf3; by apply Hlast|intros s3 Hf3; by eapply (st_frame _ _ HI)].
Qed.

Lemma kept_change id body s : I s → edits id → wp (update_route check_model reserialize id body) s (λ _ s', I s').
Proof.
  intros Hs Hed. unfold update_route. apply wp_http_bind, wp_internal, wp_gets. apply wp_checked; [done|]. intros existing.
  do 4 (apply wp_checked; [done|intros ?]). apply wp_checked; [done|]. intros []. apply wp_checked; [done|]. intros schedule.
  assert (∀ (k : unit → Http (RepeatingTask * list Effect)), wp (k tt) s (λ _ s', I s') →
    wp (match w_folder_id body with Some f => folder_exists f | None => mret tt end ≫= k) s (λ _ s', I s')) as Hfolder.
  { intros k Hk. destruct (w_folder_id body); [by apply wp_folder|by apply wp_http_bind]. }
  apply Hfolder. clear Hfolder. apply wp_http_bind, wp_internal, wp_now_dt. intros s1 Hf1 _.
  assert (I s1) as Hs1 by (by eapply (st_frame _ _ HI)). cbv zeta.
  apply wp_http_bind, wp_internal.
  match goal with |- wp ?m s1 ?Q => assert (∀ r s2, frame s1 s2 → Q (Val r) s2) as Hlast end.
  { intros next s2 Hf2. assert (I s2) as Hs2 by (by eapply (st_frame _ _ HI)). cbn beta iota.
    apply wp_http_bind, wp_internal. eapply wp_mono; [apply kept_update; auto|].
    intros [t|e|] s3 Hs3; cbn beta iota; [|done..]. by apply wp_checked. }
  destruct (_ || _); [|by apply wp_ret, Hlast]. destruct (default _ _); [|by apply wp_ret, Hlast].
  apply wp_bind, wp_initial; [|intros s2 Hf2; by eapply (st_frame _ _ HI)].
  intros r s2 Hf2. apply wp_ret. by apply Hlast.
Qed.

Lemma kept_delete id s : I s → wp (delete_route id) s (λ _ s', I s').
Proof.
  intros Hs. unfold delete_route. apply wp_http_bind, wp_internal. pose proof (st_delete _ _ HI s id Hs) as Hd.
  unfold wp. cbn [delete_repeating_task] in *. revert Hd.
  destruct (delete_repeating_task id s) as [[[]|e|] s']; cbn; done.
Qed.

Definition allowed (o : op) : Prop := match o with ChangeTask id _ => edits id | _ => True end.

Lemma kept_exec_all ops s : Forall allowed ops → I s → I (exec_all ops s).
Proof.
  revert s. induction ops as [|o ops IH]; intros s Ho Hs; [done|]. apply Forall_cons in Ho as [Ho Hops]. apply (IH _ Hops).
  destruct o; cbn.
  - by apply kept_tick.
  - by apply kept_run_now.
  - by apply kept_audit.
  - by apply kept_create.
  - by apply kept_change.
  - by apply kept_delete.
Qed.
End exec.

(** ** Spacing *)

(** Consecutive runs are a minute apart. *)
Definition gaps (h : list Z) : Prop :=
  ∀ i a b, h !! i = Some a → h !! S i = Some b → MIN_SCHEDULER_GAP_SECONDS ≤ num_seconds (b - a).

Lemma gaps_push h t :
  gaps h → (∀ a, last h = Some a → MIN_SCHEDULER_GAP_SECONDS ≤ num_seconds (t - a)) →
  gaps (push_history t h).
Proof.
  intros Hg Hlast. unfold push_history. cbv zeta. rewrite length_app. cbn [length].
  intros i a b. rewrite !lookup_drop. intros Ha Hb.
  set (k := (length h + 1 - AUDITOR_HISTORY_CAP)%nat) in *. replace (k + S i)%nat with (S (k + i)) in Hb by lia.
  destruct (decide (S (k + i) < length h)%nat) as [Hlt|Hge].
  - rewrite lookup_app_l in Ha, Hb by lia. by eapply Hg.
  - assert (S (k + i) = length h) as E by (apply lookup_lt_Some in Hb; rewrite length_app in Hb; cbn in Hb; lia).
    rewrite lookup_app_l in Ha by lia. rewrite E, lookup_app_r, Nat.sub_diag in Hb by lia. injection Hb as <-.
    apply Hlast. rewrite last_lookup. by replace (pred (length h)) with (k + i)%nat by lia.
Qed.

Lemma last_push h t : last (push_history t h) = Some t.
Proof.
  unfold push_history. cbv zeta. rewrite last_lookup, lookup_drop, length_drop, length_app. cbn [length].
  replace _ with (length h) at 1 by (unfold AUDITOR_HISTORY_CAP; lia).
  rewrite lookup_app_r, Nat.sub_diag by lia. done.
Qed.

Lemma policy_gap task str last now :
  parse_from_rfc3339 str = Some last →
  check_run_policy task (Some str) now Scheduler = Return Allow → MIN_SCHEDULER_GAP_SECONDS ≤ num_seconds (now - last).
Proof.
  intros Hp. unfold check_run_policy. cbn [bool_decide decide]. rewrite some_bind, Hp. cbv zeta.
  destruct (_ <? MIN_SCHEDULER_GAP_SECONDS) eqn:E; [done|]. intros _. by apply Z.ltb_ge in E.
Qed.

Lemma num_seconds_mono a b : a ≤ b → num_seconds a ≤ num_seconds b.
Proof. intros Hab. by apply Z.quot_le_mono. Qed.
End props.

(** A clock that does not go back, before the year 10000, and fresh ids. *)
Class ClockLaws `{Clock} : Prop := {
  utc_mono m n : (m ≤ n)%nat → utc_now m ≤ utc_now n;
  utc_range n : 0 ≤ utc_now n < Y10K;
  uuid_inj : Inj (=) (=) uuid_v4;
}.

Section spacing.
Context `{ChronoLaws} `{ScheduleJsonLaws} `{ClockLaws} `{JsonApi}.
Context (check_model : option string → Result string unit) (reserialize : string → Result string string).
#[local] Existing Instance world.
#[local] Existing Instance uuid_inj.

(** Rows have their key as id, future ids are not in use, and a task in the
    scheduler's log was last run at or after the log's last entry. *)
Record spaced (s : St) : Prop := {
  sp_ids k t : tasks s !! k = Some t → t_id t = k;
  sp_fresh n : (Store.clock (store s) ≤ n)%nat →
    tasks s !! uuid_v4 n = None ∧ scheduler_history (auditor s) !! uuid_v4 n = None;
  sp_gaps id h : scheduler_history (auditor s) !! id = Some h → gaps h;
  sp_last id h t task : scheduler_history (auditor s) !! id = Some h → last h = Some t → tasks s !! id = Some task →
    ∃ str k, t_last_run_at task = Some str ∧ parse_from_rfc3339 str = Some (utc_now k) ∧
      (k < Store.clock (store s))%nat ∧ t ≤ utc_now k;
}.

Lemma spaced_same s s' :
  spaced s → tasks s' = tasks s → scheduler_history (auditor s') = scheduler_history (auditor s) →
  (Store.clock (store s) ≤ Store.clock (store s'))%nat → spaced s'.
Proof.
  intros [Hids Hfr Hg Hl] Ht Ha Hc. split; rewrite ?Ht, ?Ha; try done.
  - intros n Hn. apply Hfr. lia.
  - intros id h t task Hh Hlast Htask. destruct (Hl id h t task Hh Hlast Htask) as (str & k & ? & ? & ? & ?).
    exists str, k. split_and!; (done || lia).
Qed.

Lemma spaced_frame s s' : spaced s → frame s s' → spaced s'.
Proof. intros Hs (Ht & Ha & _ & _ & Hc). apply (spaced_same s); [done..|by rewrite Ha|done]. Qed.

(** A row rewritten: its last run stays, or is a reading of the clock. *)
Lemma spaced_row s s' id task task' :
  spaced s → tasks s !! id = Some task → tasks s' = <[id := task']> (tasks s) → t_id task' = t_id task →
  scheduler_history (auditor s') = scheduler_history (auditor s) →
  (Store.clock (store s) ≤ Store.clock (store s'))%nat →
  (t_last_run_at task' = t_last_run_at task ∨
   ∃ n, (Store.clock (store s) ≤ n < Store.clock (store s'))%nat ∧ t_last_run_at task' = Some (to_rfc3339 (utc_now n))) →
  spaced s'.
Proof.
  intros [Hids Hfr Hg Hl] Hrow Ht Hid Ha Hc Hlr. split; rewrite ?Ha; try done.
  - intros k t. rewrite Ht, lookup_insert_Some. intros [[<- <-]|[_ ?]]; [rewrite Hid|]; by apply Hids.
  - intros n Hn. destruct (Hfr n) as [Hf1 Hf2]; [lia|]. split; [|done]. rewrite Ht, lookup_insert_None.
    split; [done|congruence].
  - intros id' h t tk Hh Hlast. rewrite Ht, lookup_insert_Some. intros [[<- <-]|[_ Htk]].
    + destruct (Hl id h t task Hh Hlast Hrow) as (str & k & Hs & Hp & Hk & Hle). destruct Hlr as [Hlr|(n & Hn & Hlr)].
      * exists str, k. rewrite Hlr. split_and!; (done || lia).
      * exists (to_rfc3339 (utc_now n)), n. split_and!; [done|apply rfc3339_roundtrip, utc_range|lia|].
        pose proof (utc_mono k n). lia.
    + destruct (Hl id' h t tk Hh Hlast Htk) as (str & k & ? & ? & ? & ?). exists str, k. split_and!; (done || lia).
Qed.

Lemma spaced_run id env respect trigger s s' : spaced s → run_step id env respect trigger s s' → spaced s'.
Proof.
  intros Hs Hr. destruct Hr as [Hf|task n Hrow _ _ Ht (_ & Ha & _ & _ & Hc)|task n s1 Hrow _ _ Hn Hpol Hf Hd _].
  - by eapply spaced_frame.
  - eapply (spaced_row s); [done|done|exact Ht|done|by rewrite Ha|done|by left].
  - assert (spaced s1) as Hs1 by (by eapply spaced_frame). assert (t_id task = id) as Hid by (by apply (sp_ids s Hs)).
    assert (tasks s1 !! id = Some task) as Hrow1 by (by rewrite (proj1 Hf)).
    destruct Hd as [Hf'|n2 f Hn2 _ Ht Hlog _ _|n2 Hn2 _ Ht Ha _ _].
    + by eapply spaced_frame.
    + rewrite Hid in *. set (s2 := mkSt (store s') (folders s') (tasks s') (spawned s') (runs s') (auditor s1)).
      assert (spaced s2) as Hs2.
      { eapply (spaced_row s1 s2 id task); [done|done|exact Ht|done|done|cbn; lia|]. right. exists n2. split; [done|]. done. }
      destruct Hlog as [Hlog|[-> Hlog]]; [by apply (spaced_same s2)|].
      split.
      * apply (sp_ids s2 Hs2).
      * intros k Hk. destruct (sp_fresh s2 Hs2 k Hk) as [F1 F2]. split; [done|]. rewrite Hlog, lookup_insert_None.
        split; [done|]. intros ->. cbn in F1. rewrite Ht, lookup_insert_eq in F1. done.
      * intros id' h. rewrite Hlog, lookup_insert_Some. intros [[<- <-]|[_ Hh]]; [|by eapply (sp_gaps s2 Hs2)].
        destruct (scheduler_history (auditor s1) !! id) as [h|] eqn:Eh; cbn; [|by apply (gaps_push []); [intros []|]].
        apply gaps_push; [by eapply (sp_gaps s1 Hs1)|]. intros a Hlast.
        destruct (sp_last s1 Hs1 id h a task Eh Hlast Hrow1) as (str & k & Hstr & Hp & Hk & Hle).
        rewrite Hstr in Hpol. pose proof (policy_gap _ _ _ _ Hp Hpol).
        etrans; [done|]. apply num_seconds_mono. pose proof (utc_mono n n2). lia.
      * intros id' h t tk. rewrite Hlog, lookup_insert_Some. intros [[<- <-]|[_ Hh]] Hlast Htk; [|by eapply (sp_last s2 Hs2)].
        rewrite Ht, lookup_insert_eq in Htk. injection Htk as <-.
        exists (to_rfc3339 (utc_now n2)), n2. split_and!; [done|apply rfc3339_roundtrip, utc_range|lia|].
        rewrite last_push in Hlast. injection Hlast as <-. lia.
    + apply (spaced_same s1); [done..|by rewrite Ha|lia].
Qed.

Lemma tasks_deleted id s : tasks (delete_repeating_task id s).2 = delete id (tasks s).
Proof. done. Qed.

Lemma spaced_delete s id : spaced s → spaced (delete_repeating_task id s).2.
Proof.
  intros [Hids Hfr Hg Hl]. split; rewrite ?tasks_deleted; try done.
  - intros k t [_ ?]%lookup_delete_Some. by apply Hids.
  - intros n Hn. destruct (Hfr n Hn). split; [|done]. apply lookup_delete_None. by right.
  - intros k h t task Hh Hlast [_ ?]%lookup_delete_Some. by eapply Hl.
Qed.

Lemma spaced_create s s' t :
  spaced s → frame s s' → (Store.clock (store s) < Store.clock (store s'))%nat →
  t_id t = uuid_v4 (Store.clock (store s)) → spaced (set_tasks (<[t_id t := t]>) s').
Proof.
  intros Hs Hf Hc Ht. assert (spaced s') as Hs' by (by eapply spaced_frame).
  assert (scheduler_history (auditor s') !! t_id t = None) as Hno.
  { destruct Hf as (_ & -> & _). rewrite Ht. by apply (sp_fresh s Hs). }
  destruct Hs' as [Hids Hfr Hg Hl]. split; cbn; try done.
  - intros k t'. rewrite lookup_insert_Some. intros [[<- <-]|[_ ?]]; [done|by apply Hids].
  - intros n Hn. destruct (Hfr n Hn) as [F1 F2]. split; [|done]. rewrite lookup_insert_None. split; [done|].
    rewrite Ht. intros E%(inj uuid_v4). lia.
  - intros id h x task Hh Hlast. rewrite lookup_insert_Some. intros [[<- <-]|[_ Htask]]; [congruence|by eapply Hl].
Qed.

Lemma spaced_stable : stable spaced (λ _, True).
Proof.
  split.
  - intros s k t Hs. by apply (sp_ids s Hs).
  - apply spaced_frame.
  - apply spaced_run.
  - intros s id task u Hs Hrow Hu _. eapply (spaced_row s _ id task (apply_update u task)); try done.
    left. unfold apply_update. cbn. by rewrite Hu.
  - intros s s' t Hs Hf Hc Ht _. by eapply spaced_create.
  - intros s id. apply spaced_delete.
Qed.

(** A server that has just started, with the tasks it has stored. *)
Definition just_started (s : St) : Prop :=
  scheduler_history (auditor s) = ∅ ∧ (∀ k t, tasks s !! k = Some t → t_id t = k) ∧
  ∀ n, (Store.clock (store s) ≤ n)%nat → tasks s !! uuid_v4 n = None.

Lemma just_started_spaced s : just_started s → spaced s.
Proof.
  intros (He & Hids & Hfr). split; rewrite ?He; try done.
  - intros n Hn. split; [by apply Hfr|apply lookup_empty].
Qed.

(** C33: Scheduler runs are spaced.  Whatever ticks, forced runs, audits, edits,
    deletions and creations of tasks happen, in whatever order and whatever the
    rest of the system answers, two consecutive runs the scheduler dispatched of
    the same task since the server started are at least sixty seconds apart. *)
Theorem scheduler_runs_spaced ops s id h i a b :
  just_started s →
  scheduler_history (auditor (exec_all check_model reserialize ops s)) !! id = Some h →
  h !! i = Some a → h !! S i = Some b →
  60 ≤ num_seconds (b - a).
Proof.
  intros Hs%just_started_spaced Hh. refine (sp_gaps _ (kept_exec_all _ _ _ _ spaced_stable ops s _ Hs) id h Hh i a b).
  apply Forall_forall. by intros [] _.
Qed.

(** ** One-offs *)

Definition one_off (task : RepeatingTask) : bool :=
  match schedule_of task with Ok (Once _) => true | _ => false end.

Lemma consumed_one_off task : is_consumed_once task = true → one_off task = true ∧ is_some (t_last_run_at task) = true.
Proof. unfold is_consumed_once, one_off. cbv zeta. rewrite !andb_true_iff. tauto. Qed.

(** A dispatch, and being turned off, leave a one-off consumed. *)
Lemma ran_consumed task now f :
  one_off task = true → next_run_fields task now = Return f → is_consumed_once (ran_task task now f) = true.
Proof.
  unfold one_off, next_run_fields. destruct (schedule_of task) as [[| | | |at_]|] eqn:E; try done. intros _.
  destruct (next_run_at_after task now) as [|next]; [done|]. intros [= <-].
  unfold is_consumed_once, ran_task, apply_update, schedule_of. cbn. unfold schedule_of in E. by rewrite E.
Qed.

Lemma off_consumed task t :
  is_consumed_once task = true → is_consumed_once (apply_update (off_update t) task) = true.
Proof.
  intros [Ho Hl]%consumed_one_off. unfold is_consumed_once, apply_update, schedule_of, one_off in *. cbn.
  unfold schedule_of in Ho. by rewrite Ho, Hl.
Qed.

(** Facts about the row of one task that runs and the watchdog keep, and that
    other tasks cannot touch. *)
Record row_inv (id : string) (P : RepeatingTask → Prop) (old : gmap string Spawned → Prop) (s : St) : Prop := {
  ri_row task : tasks s !! id = Some task → P task;
  ri_fresh n : (Store.clock (store s) ≤ n)%nat → id ≠ uuid_v4 n;
  ri_ids k t : tasks s !! k = Some t → t_id t = k;
  ri_sessions : old (spawned s);
}.

Lemma row_stable id (P : RepeatingTask → Prop) (old : gmap string Spawned → Prop) :
  (∀ task t, P task → P (apply_update (off_update t) task)) →
  (∀ task now f, P task → is_consumed_once task = false → next_run_fields task now = Return f → P (ran_task task now f)) →
  (∀ m sid k t, k ≠ id → old m → old (<[sid := mkSpawned (Some k) t]> m)) →
  (∀ m sid t task, P task → is_consumed_once task = false → old m → old (<[sid := mkSpawned (Some id) t]> m)) →
  (∀ m (k : string), old m →
    old ((λ sp, if sp_task_id sp == Some k then mkSpawned None (sp_created_at sp) else sp) <$> m)) →
  stable (row_inv id P old) (λ k, k ≠ id).
Proof.
  intros Hoff Hran Hother Hmine Hdel. split.
  - intros s k t Hs. by apply (ri_ids _ _ _ _ Hs).
  - intros s s' [Hrow Hfr Hids Hses] (Ht & _ & Hsp & _ & Hc). split; rewrite ?Ht, ?Hsp; try done.
    intros n Hn. apply Hfr. lia.
  - intros id' env respect trigger s s' Hs Hr.
    assert (∀ s1 s2 task task', row_inv id P old s1 → tasks s1 !! id' = Some task → tasks s2 = <[id' := task']> (tasks s1) →
      t_id task' = id' → (id' = id → P task') → (Store.clock (store s1) ≤ Store.clock (store s2))%nat → old (spawned s2) →
      row_inv id P old s2) as Hput.
    { intros s1 s2 task task' [Hrow Hfr Hids Hses] Hr1 Ht Hid HP Hc Ho. split; rewrite ?Ht; [| | |done].
      - intros t. rewrite lookup_insert_Some. intros [[<- <-]|[_ ?]]; [by apply HP|by apply Hrow].
      - intros n Hn. apply Hfr. lia.
      - intros k t. rewrite lookup_insert_Some. intros [[<- <-]|[_ ?]]; [done|by apply Hids]. }
    assert (∀ s1 s2, row_inv id P old s1 → tasks s2 = tasks s1 → (Store.clock (store s1) ≤ Store.clock (store s2))%nat →
      old (spawned s2) → row_inv id P old s2) as Hsame.
    { intros s1 s2 [Hrow Hfr Hids Hses] Ht Hc Ho. split; rewrite ?Ht; try done. intros n Hn. apply Hfr. lia. }
    destruct Hr as [(Ht & _ & Hsp & _ & Hc)|task n Hrow _ _ Ht (_ & _ & Hsp & _ & Hc)|task n s1 Hrow _ Hco Hn _ Hf Hd _].
    + apply (Hsame s); [done..|]. rewrite Hsp. by apply (ri_sessions _ _ _ _ Hs).
    + eapply (Hput s); [done|done|exact Ht| | |done|].
      * exact (ri_ids _ _ _ _ Hs _ _ Hrow).
      * intros ->. by apply Hoff, (ri_row _ _ _ _ Hs).
      * rewrite Hsp. by apply (ri_sessions _ _ _ _ Hs).
    + assert (row_inv id P old s1) as Hs1.
      { destruct Hf as (Ht & _ & Hsp & _ & Hc). apply (Hsame s); [done..|]. rewrite Hsp. by apply (ri_sessions _ _ _ _ Hs). }
      assert (tasks s1 !! id' = Some task) as Hrow1 by (by rewrite (proj1 Hf)).
      assert (t_id task = id') as Hid by (by apply (ri_ids _ _ _ _ Hs)).
      assert (∀ now, one_more_session id' now s1 s' → old (spawned s')) as Hses.
      { intros now [->|[sid ->]]; [by apply (ri_sessions _ _ _ _ Hs1)|].
        destruct (decide (id' = id)) as [E|Hne]; [|by apply Hother, (ri_sessions _ _ _ _ Hs1)].
        rewrite E in *. apply (Hmine _ _ _ task); [by apply (ri_row _ _ _ _ Hs1)|done|by apply (ri_sessions _ _ _ _ Hs1)]. }
      destruct Hd as [(Ht & _ & Hsp & _ & Hc)|n2 f Hn2 Hnf Ht _ Ho _|n2 Hn2 _ Ht _ Ho _]; rewrite ?Hid in *.
      * apply (Hsame s1); [done..|]. rewrite Hsp. by apply (ri_sessions _ _ _ _ Hs1).
      * eapply (Hput s1); [done|done|exact Ht|done| |lia|by eapply Hses].
        intros ->. apply Hran; [by apply (ri_row _ _ _ _ Hs1)|done..].
      * apply (Hsame s1); [done..|lia|by eapply Hses].
  - intros s id' task u [Hrow Hfr Hids Hses] Ht _ He. split; cbn; [| |..|done]; [|done|].
    + intros t. rewrite lookup_insert_Some. intros [[-> <-]|[_ ?]]; [|by apply Hrow].
      destruct He as [[x ->]|?]; [by apply Hoff, Hrow|done].
    + intros k t. rewrite lookup_insert_Some. intros [[<- <-]|[_ ?]]; [exact (Hids _ _ Ht)|by apply Hids].
  - intros s s' t [Hrow Hfr Hids Hses] (Ht & _ & Hsp & _ & Hc) Hlt Hid Hno. split; cbn; rewrite ?Ht, ?Hsp; [..|done].
    + intros t'. rewrite lookup_insert_Some. intros [[E _]|[_ ?]]; [|by apply Hrow].
      exfalso. apply (Hfr (Store.clock (store s))); [done|congruence].
    + intros n Hn. apply Hfr. lia.
    + intros k t'. rewrite lookup_insert_Some. intros [[<- <-]|[_ ?]]; [done|by apply Hids].
  - intros s id' [Hrow Hfr Hids Hses]. split; rewrite ?tasks_deleted; try done.
    + intros t [_ ?]%lookup_delete_Some. by apply Hrow.
    + intros k t [_ ?]%lookup_delete_Some. by apply Hids.
    + by apply (Hdel _ id').
Qed.

(** A one-off that was last run as [y] says, or is consumed. *)
Lemma unfired_stable id y :
  stable (row_inv id (λ t, one_off t = true ∧ (t_last_run_at t = y ∨ is_consumed_once t = true)) (λ _, True)) (λ k, k ≠ id).
Proof.
  apply row_stable; try done.
  - intros task t [Ho Hl]. split; [done|]. destruct Hl as [Hl|Hl]; [by left|right; by apply off_consumed].
  - intros task now f [Ho _] _ Hf. split; [done|]. right. by apply ran_consumed.
Qed.

(** A consumed one-off stays as it is, and gets no session. *)
Lemma spent_stable id y (old : gmap string Spawned) :
  stable (row_inv id (λ t, is_consumed_once t = true ∧ t_last_run_at t = y)
    (λ m, ∀ sid sp, m !! sid = Some sp → sp_task_id sp = Some id → old !! sid = Some sp)) (λ k, k ≠ id).
Proof.
  apply row_stable.
  - intros task t [Hc Hl]. split; [by apply off_consumed|done].
  - intros task now f [Hc _]. congruence.
  - intros m sid k t Hk Hm sid' sp. rewrite lookup_insert_Some. intros [[<- <-]|[_ ?]]; [cbn; congruence|by apply Hm].
  - intros m sid t task [Hc _]. congruence.
  - intros m k Hm sid sp. rewrite lookup_fmap, fmap_Some. intros (sp' & Hsp & ->). case_bool_decide; [done|by apply Hm].
Qed.

(** A one-off fires once.  Once a one-off task has been dispatched, whether
    by the scheduler or by hand, well or badly, nothing short of an edit of the
    task dispatches it again: its last run stays the one it had, and no session
    is started for it. *)
Theorem once_fires_once ops1 ops2 s id task0 task1 at_ :
  just_started s → tasks s !! id = Some task0 → schedule_of task0 = Ok (Once at_) →
  Forall (allowed (λ k, k ≠ id)) (ops1 ++ ops2) →
  let s1 := exec_all check_model reserialize ops1 s in
  let s2 := exec_all check_model reserialize ops2 s1 in
  tasks s1 !! id = Some task1 → t_last_run_at task1 ≠ t_last_run_at task0 →
  (∀ task2, tasks s2 !! id = Some task2 → t_last_run_at task2 = t_last_run_at task1) ∧
  (∀ sid sp, spawned s2 !! sid = Some sp → sp_task_id sp = Some id → spawned s1 !! sid = Some sp).
Proof.
  intros (_ & Hids & Hfr) Hrow Hs [Ho1 Ho2]%Forall_app s1 s2 Hrow1 Hne.
  assert (row_inv id (λ t, one_off t = true ∧ (t_last_run_at t = t_last_run_at task0 ∨ is_consumed_once t = true))
    (λ _, True) s1) as Hun.
  { apply (kept_exec_all _ _ _ _ (unfired_stable id _) ops1 s Ho1). split; [|..|done|done].
    - intros t Ht. assert (t = task0) as -> by congruence. unfold one_off. rewrite Hs. auto.
    - intros n Hn E. rewrite E in Hrow. rewrite Hfr in Hrow by done. done. }
  destruct (ri_row _ _ _ _ Hun task1 Hrow1) as [_ [?|Hc]]; [done|].
  assert (row_inv id (λ t, is_consumed_once t = true ∧ t_last_run_at t = t_last_run_at task1)
    (λ m, ∀ sid sp, m !! sid = Some sp → sp_task_id sp = Some id → spawned s1 !! sid = Some sp) s2) as Hsp.
  { apply (kept_exec_all _ _ _ _ (spent_stable id _ _) ops2 s1 Ho2). split; [|apply Hun..|done].
    intros t Ht. assert (t = task1) as -> by congruence. done. }
  split; [intros t2 Ht2; by apply (ri_row _ _ _ _ Hsp)|apply (ri_sessions _ _ _ _ Hsp)].
Qed.

End spacing.

(** ** Runs on the example calendar *)

Import Gregorian.
#[local] Existing Instance obj_json.

(** A clock read every forty seconds. *)
#[local] Instance ex_clock : Clock := {|
  utc_now n := Z.min (Y10K - 1) (1790000000 * SEC + Z.of_nat n * (40 * SEC));
  uuid_v4 n := "u" +:+ to_dec (N.of_nat n);
|}.

#[local] Instance ex_clock_laws : ClockLaws.
Proof.
  split.
  - intros m n Hmn. cbn -[Z.mul Y10K SEC]. unfold SEC. lia.
  - intros n. cbn -[Z.mul Y10K SEC]. unfold Y10K, SEC. lia.
  - intros m n E. cbn -[to_dec] in E. injection E as E. apply (inj to_dec) in E. lia.
Qed.

Definition ex_task (kind value : string) : RepeatingTask :=
  mkTask "t1" "Tidy" "" "f1" "go" kind value None None true None None "0" "0" None None.
Definition ex_st (t : RepeatingTask) : St :=
  mkSt (Store.mkDb ∅ ∅ ∅ [] [] [] 1 [] 0) {["f1"]} {[t_id t := t]} ∅ [] (mkAuditor ∅ ∅ 0).
Definition ex_ok : RunEnv := mkEnv (λ _, false) (Ok tt) None.
Definition ex_bad : RunEnv := mkEnv (λ _, false) (Err "no such model") None.
Definition ex_run (ops : list op) (t : RepeatingTask) : St :=
  exec_all (λ _, Ok tt) Ok ops (ex_st t).
Definition ex_tick : op := Tick (λ _, ex_ok) (λ _, false).

Lemma ex_started kind value : just_started (ex_st (ex_task kind value)).
Proof.
  split; [done|]. split.
  - intros k t Ht. unfold ex_st in Ht. cbn [tasks] in Ht. by apply lookup_singleton_Some in Ht as [<- <-].
  - intros n _. apply lookup_singleton_None. intros E. cbn in E. discriminate E.
Qed.

Lemma scheduler_runs_spaced_witness :
  ∃ a b, scheduler_history (auditor (ex_run [ex_tick; ex_tick] (ex_task "interval" "1"))) !! "t1" = Some [a; b] ∧
    60 ≤ num_seconds (b - a).
Proof.
  eexists _, _. split; [by vm_compute|].
  eapply (scheduler_runs_spaced (λ _, Ok tt) Ok [ex_tick; ex_tick] (ex_st (ex_task "interval" "1")) "t1") with (i := 0%nat);
    [apply ex_started|by vm_compute|by vm_compute|by vm_compute].
Defined.

(** A one-off run by hand, and asked for again by hand and by the scheduler. *)
Definition ex_once : RepeatingTask := ex_task "once" "1900000000000000000".
Definition ex_fired : RepeatingTask := default ex_once (tasks (ex_run [RunNow "t1" ex_ok] ex_once) !! "t1").

Lemma once_fires_once_witness :
  let s2 := exec_all (λ _, Ok tt) Ok [RunNow "t1" ex_ok; ex_tick] (ex_run [RunNow "t1" ex_ok] ex_once) in
  size (spawned s2) = 1%nat ∧
  ∀ task2, tasks s2 !! "t1" = Some task2 → t_last_run_at task2 = t_last_run_at ex_fired.
Proof.
  split; [by vm_compute|].
  assert (schedule_of ex_once = Ok (Once 1900000000000000000)) as Hs by (by vm_compute).
  assert (tasks (ex_st ex_once) !! "t1" = Some ex_once) as H0 by (by vm_compute).
  assert (tasks (ex_run [RunNow "t1" ex_ok] ex_once) !! "t1" = Some ex_fired) as H1 by (by vm_compute).
  assert (t_last_run_at ex_fired ≠ t_last_run_at ex_once) as Hne by (by vm_compute).
  assert (Forall (allowed (λ k, k ≠ "t1")) ([RunNow "t1" ex_ok] ++ [RunNow "t1" ex_ok; ex_tick])) as Ho by (by repeat constructor).
  exact (proj1 (once_fires_once (λ _, Ok tt) Ok [RunNow "t1" ex_ok] [RunNow "t1" ex_ok; ex_tick]
    (ex_st ex_once) "t1" ex_once ex_fired _ (ex_started _ _) H0 Hs Ho H1 Hne)).
Defined.

Lemma run_single_flight_witness :
  let s := ex_st (ex_task "interval" "1") in
  let s' := (start_run_locked "t1" ex_ok true Scheduler s).2 in
  size (spawned s') = 1%nat ∧ ∀ k, k ≠ "t1" → tasks s' !! k = tasks s !! k.
Proof.
  split; [by vm_compute|].
  apply (run_single_flight "t1" ex_ok true Scheduler (ex_st (ex_task "interval" "1"))), ex_started.
Defined.

(** ** What the watchdog gets wrong *)

Definition turned_off (s : St) : option bool := negb ∘ t_enabled <$> tasks s !! "t1".

(** The log of a task is compared with the schedule it has now: a task that ran
    every minute, as it should, is turned off when it is changed to run hourly. *)
Lemma slower_schedule_turned_off :
  let change := mkChange None None None None None (Some "60") None None None None None in
  turned_off (ex_run [ex_tick; ex_tick; ex_tick; ex_tick; Audit] (ex_task "interval" "1")) = Some false ∧
  turned_off (ex_run [ex_tick; ex_tick; ex_tick; ex_tick; ChangeTask "t1" change; Audit] (ex_task "interval" "1")) = Some true.
Proof. split; by vm_compute. Qed.

(** A forced run is exempt when it starts, and counts as the scheduler's when it
    fails: the same click turns the task off. *)
Lemma failed_forced_run_turned_off :
  turned_off (ex_run [ex_tick; RunNow "t1" ex_ok; Audit] (ex_task "interval" "60")) = Some false ∧
  turned_off (ex_run [ex_tick; RunNow "t1" ex_bad; Audit] (ex_task "interval" "60")) = Some true.
Proof. split; by vm_compute. Qed.

(** A one-off that ran asks for a new time, and a new time alone leaves it
    refused: the task is still off. *)
Lemma new_time_does_not_rearm :
  let change := mkChange None None None None None (Some "1900000000000000000") None None None None None in
  let s := ex_run [RunNow "t1" ex_ok; ChangeTask "t1" change] (ex_task "once" "1800000000000000000") in
  (run_route "t1" ex_ok s).1 =
    Val (Err (409, "This one-off task has already run. Edit its scheduled time to run it again.")).
Proof. by vm_compute. Qed.
End RepeatingProps.
