(* ===== verification/Dispatch.v ===== *)
(** * Dispatching cards to workers

    src/worker/orchestrator.rs: the pass that picks the cards of a project that
    get a worker ([check_and_spawn_workers_at]), the spawn of one
    ([spawn_worker_for_card]) with its claim, its ways out that release the
    claim, and the block that ends a crash loop.  Budgets, rate limits, model
    choice, plugin hooks, the files of a worker and the provider that runs it
    are the record [SpawnEnv]: what they answered during one spawn.  Prompts
    and broadcasts are left out. *)

From S2P Require Import Prelude RustStr Json Workflow Pipeline Todo Store StoreProps Board.
From Stdlib Require Import Ascii.

Module Dispatch.
Import Store Board.

(** ** What the pass reads *)

(** [ORDER BY priority, created_at]; cards equal in both come in any order. *)
Definition card_le (a b : Card) : bool :=
  (c_priority a <? c_priority b) ||
  ((c_priority a =? c_priority b) && String.leb (c_created_at a) (c_created_at b)).

Definition list_cards_by_project (project_id : string) (db : Db) : list Card :=
  sort_by card_le (List.filter (λ c, c_project_id c == project_id) (map_to_list (cards db)).*2).

Definition list_worker_sessions_by_card (card_id : string) (db : Db) : list Session :=
  List.filter (λ s, s_is_worker s && (s_card_id s == Some card_id)) (map_to_list (sessions db)).*2.

(** The settings of a project the pass reads; [worker_count] is an [i32]. *)
Record Settings := { status : string; worker_count : Z }.

(** ** Picking cards *)

Definition active (c : Card) : bool :=
  is_some (c_worker_session_id c) && (c_step c != "done") && (c_step c != "wont_do").

Definition active_workers (cards : list Card) : nat := length (List.filter active cards).

(** [step_by_id.get(dep)]. *)
Definition step_by_id (cards : list Card) (id : string) : option string :=
  c_step <$> List.find (λ c, c_id c == id) cards.

Definition deps_satisfied (edges : list (string * string)) (cards : list Card) (card_id : string) : bool :=
  forallb (λ e, step_by_id cards e.2 == Some "done") (List.filter (λ e, e.1 == card_id) edges).

Definition available (edges : list (string * string)) (cards : list Card) : list Card :=
  List.filter (λ c, (c_worker_session_id c == None) && negb (c_blocked c) && (c_step c != "done") &&
                    (c_step c != "wont_do") && deps_satisfied edges cards (c_id c)) cards.

(** A card waiting on review comes before the others. *)
Definition review_first (a b : Card) : bool :=
  implb (c_step a != Workflow.REVIEW_STEP) (c_step b != Workflow.REVIEW_STEP).

(** What the rest of the system answers while one worker is spawned. *)
Record SpawnEnv := {
  folder_found : bool;
  is_running : string → bool;
  has_background : string → bool;
  is_limited : option string → bool;
  worker_model : Card → option string;
  reviewer_model : Card → option string;
  same_provider : option string → string → bool;
  token_cancelled : bool;
  config_cancelled : bool;
  config_written : Result string unit;
  sent : Result string unit;
}.

Section dispatch.
Context `{World} `{JsonApi} (custom : list Workflow.WorkflowDef).

Definition backing_off (now_ms : Z) (db : Db) (card : Card) : bool :=
  match c_last_worker_session_id card with
  | None => false
  | Some sid =>
    if session_has_pending_question sid db then true
    else
      let events := card_lifecycle_events (c_id card) 256 db in
      let count := Pipeline.count_consecutive_no_progress events in
      if count == 0 then false
      else match List.find (λ e, ev_kind e == Pipeline.NO_PROGRESS_KIND) (reverse events) with
      | None => false
      | Some e =>
        let elapsed_secs := Z.quot (now_ms - ev_ts e) 1000 in
        elapsed_secs <? Pipeline.no_progress_backoff_secs count
      end
  end.

(** The cards of one project a pass tries to spawn, in order. *)
Definition select (now_ms : Z) (settings : Settings) (exhausted : bool) (edges : list (string * string))
    (project_id : string) (db : Db) : list Card :=
  if (status settings != "active") || exhausted then []
  else
    let cards := list_cards_by_project project_id db in
    let cap := Z.to_nat (Z.max (worker_count settings) 0) in
    let active_workers := active_workers cards in
    if (cap <=? active_workers)%nat then []
    else
      let available := List.filter (λ c, negb (backing_off now_ms db c)) (available edges cards) in
      take (cap - active_workers) (sort_by review_first available).

(** ** The crash block *)

(** [s.is_char_boundary(n)]: the byte there does not continue a character. *)
Definition is_char_boundary (s : string) (n : nat) : bool :=
  match String.get n s with
  | None => (n =? String.length s)%nat
  | Some c => let b := N_of_ascii c in negb ((128 <=? b) && (b <? 192))%N
  end.

(** [while !s.is_char_boundary(cut) { cut -= 1 }]. *)
Fixpoint boundary_before (s : string) (cut : nat) : nat :=
  if is_char_boundary s cut then cut else match cut with O => O | S cut' => boundary_before s cut' end.

Definition stderr_snippet (stderr : option string) : option string :=
  s ← trim <$> stderr;
  if s == "" then None
  else Some (if (String.length s <=? 240)%nat then s
             else String.substring 0 (boundary_before s 240) s +:+ "…").

Definition format_crash_block_reason (card_title : string) (crash_count : Z) (stderr : option string) : string :=
  "Worker for " +:+ Workflow.dq +:+ card_title +:+ Workflow.dq +:+ " crashed " +:+
  to_dec (Z.to_N crash_count) +:+ " times in a row." +:+
  match stderr_snippet stderr with
  | Some snippet => " Last error: " +:+ snippet
  | None => ""
  end.

Definition is_crash_block_reason (reason : string) : bool :=
  String.prefix ("Worker for " +:+ Workflow.dq) reason &&
  contains (Workflow.dq +:+ " crashed ") reason && contains " times in a row." reason.

Definition block_card_after_crash (card_id : string) (last_stderr : option string) : M (option (Card * string)) :=
  card ← gets (get_card card_id);
  match card with
  | None => mret None
  | Some card =>
    if c_blocked card then mret None
    else
      crash_count ← gets (λ db, Pipeline.count_consecutive_crashes (card_lifecycle_events card_id 256 db));
      if crash_count <? Pipeline.BLOCK_AFTER_CRASHES then mret None
      else
        let reason := format_crash_block_reason (c_title card) crash_count last_stderr in
        t ← now;
        updated ← attempt (update_card card_id (UpdateCard_default |> set_blocked true
          |> set_block_reason (Some reason) |> set_updated_at t));
        mret (if is_ok updated then Some (card, reason) else None)
  end.

Definition maybe_block_card_after_crash (card_id : string) (last_stderr : option string) : M (list Effect) :=
  r ← block_card_after_crash card_id last_stderr;
  mret match r with
       | Some (card, reason) => [BroadcastCard card_id; WorkerBlockedHook card_id reason]
       | None => []
       end.

Definition pause_cleared (session_id card_id : string) : M unit :=
  append_event session_id Pipeline.PAUSE_CLEARED_KIND (json_object [("card_id", Some card_id)]);; mret tt.

Definition mark_card_unblocked (card_id : string) : M unit :=
  card ← gets (get_card card_id);
  match card ≫= c_last_worker_session_id with
  | None => mret tt
  | Some session_id => pause_cleared session_id card_id
  end.

(** [for card in cards], stopping at the first failure. *)
Fixpoint mark_cards_resumed (cards : list Card) : M unit :=
  match cards with
  | [] => mret tt
  | card :: rest =>
    match c_last_worker_session_id card with
    | None => mret tt
    | Some session_id => pause_cleared session_id (c_id card)
    end;;
    mark_cards_resumed rest
  end.

Definition mark_project_resumed (project_id : string) : M unit :=
  cards ← gets (list_cards_by_project project_id);
  mark_cards_resumed cards.

(** [card] is the caller's copy of the row. *)
Definition clear_crash_block (card : Card) : M (bool * list Effect) :=
  if negb (c_blocked card) ||
     negb match c_block_reason card with Some r => is_crash_block_reason r | None => false end
  then mret (false, [])
  else
    t ← now;
    updated ← attempt (update_card (c_id card) (UpdateCard_default |> set_blocked false
      |> set_block_reason None |> set_updated_at t));
    if is_ok updated then
      attempt (mark_card_unblocked (c_id card));;
      mret (true, [BroadcastCard (c_id card)])
    else mret (false, []).

(** ** Spawning a worker *)

Definition release_claim (card_id : string) : M unit :=
  attempt (update_card card_id (UpdateCard_default |> set_worker_session_id None));; mret tt.

(** What a previous session must be to be picked up again: its own, on this
    step, not sealed, and not pinned to an account out of quota while the card
    may switch. *)
Definition same_work (env : SpawnEnv) (card : Card) (effective_step : string) (prev : Session) : bool :=
  s_is_worker prev && (s_card_id prev == Some (c_id card)) && (s_worker_step prev == Some effective_step) &&
  negb (is_some (s_sealed_at prev)) &&
  negb (default true (c_model_autoswitch card) && is_limited env (s_model prev)).

Definition dispatched_before (prev : Session) : bool :=
  is_some (s_conversation_id prev) || is_some (s_pending_handover_doc prev).

(** The previous session, to resume ([true]) or to start over in ([false]). *)
Definition previous_session (env : SpawnEnv) (card : Card) (effective_step : string) (db : Db) :
    option (Session * bool) :=
  prev ← c_last_worker_session_id card ≫= λ sid, get_session sid db;
  if same_work env card effective_step prev then Some (prev, dispatched_before prev) else None.

(** A fresh session for the card, [None] when its account is out of quota. *)
Definition fresh_session (env : SpawnEnv) (card : Card) (effective_step : string) : M (option Session) :=
  let model := if effective_step == Workflow.REVIEW_STEP then reviewer_model env card
               else worker_model env card in
  if is_limited env model then mret None
  else
    id ← uuid;
    s ← create_session id true (Some (c_project_id card)) (Some (c_id card)) (Some effective_step) model;
    mret (Some s).

(** A review picked up again follows the current reviewer model. *)
Definition recheck_model (env : SpawnEnv) (card : Card) (session : Session) (is_resume : bool) :
    M (Session * bool) :=
  match reviewer_model env card with
  | Some pick =>
    if s_model session == Some pick then mret (session, is_resume)
    else
      let kept := same_provider env (s_model session) pick in
      updated ← attempt (update_session (s_id session)
        (mkUpdateSession (Some (Some pick)) (if kept then None else Some None) None));
      mret match updated with
           | Ok (Some s) => (s, is_resume && kept)
           | _ => (session, is_resume)
           end
  | None => mret (session, is_resume)
  end.

(** The failure of [send_message_locked]: recorded as a crash, the claim
    released, and the card blocked when it keeps failing. *)
Definition dispatch_failed (card : Card) (session_id e : string) : M (list Effect) :=
  attempt (append_event session_id "agent-end"
    (json_object [("status", Some "crashed"); ("reason", Some "dispatch-failure"); ("stderr", Some e)]));;
  attempt (close_card_run (c_id card) session_id "crashed" (Some e));;
  release_claim (c_id card);;
  effects ← maybe_block_card_after_crash (c_id card) (Some e);
  mret (effects ++ [BroadcastCard (c_id card)]).

(** The sealing of the card's previous session once the new one runs, which
    the code leaves to a task. *)
Definition seal_previous (card : Card) (session_id effective_step : string) : M unit :=
  match c_last_worker_session_id card with
  | None => mret tt
  | Some prev =>
    if prev == session_id then mret tt
    else
      s ← gets (get_session prev);
      match s with
      | Some s =>
        if s_is_worker s && negb (is_some (s_sealed_at s)) && (s_card_id s == Some (c_id card)) &&
           (s_worker_step s != Some effective_step)
        then attempt (seal_session prev None);; mret tt else mret tt
      | None => mret tt
      end
  end.

(** From the claim to the running agent. *)
Definition claim_and_send (env : SpawnEnv) (card : Card) (new_step : option string) (effective_step t : string)
    (session : Session) (is_resume created_now : bool) : M (list Effect) :=
  let sid := s_id session in
  claimed ← claim_card_for_worker (c_id card) sid new_step t;
  if negb claimed then
    (if created_now then attempt (delete_session sid);; mret tt else mret tt);; mret []
  else if token_cancelled env then release_claim (c_id card);; mret []
  else if config_cancelled env then release_claim (c_id card);; mret []
  else match config_written env with
  | Err e => release_claim (c_id card);; fail e
  | Ok _ =>
    if is_resume && is_running env sid then release_claim (c_id card);; mret []
    else if is_resume && has_background env sid then release_claim (c_id card);; mret []
    else
      let role := if effective_step == Workflow.REVIEW_STEP then "review" else "work" in
      attempt (open_card_run (c_id card) sid (mkCardRunStart effective_step role (s_model session)) t);;
      match sent env with
      | Err e => dispatch_failed card sid e;; fail e
      | Ok _ =>
        seal_previous card sid effective_step;;
        mret [BroadcastCard (c_id card)]
      end
  end.

(** The step the worker will run: an intake card moves to the second step. *)
Definition intake_step (review_enabled : bool) (card : Card) : option string :=
  if (c_step card == "backlog") || (c_step card == "todo")
  then Workflow.steps_for_card custom (c_workflow card) (c_step card) review_enabled !! 1%nat
  else None.

Definition spawn_worker_for_card (env : SpawnEnv) (review_enabled : bool) (card : Card) : M (list Effect) :=
  if negb (folder_found env) then fail "folder not found"
  else
    siblings ← gets (list_worker_sessions_by_card (c_id card));
    if existsb (λ s, is_running env (s_id s)) siblings then mret []
    else
      t ← now;
      let new_step := intake_step review_enabled card in
      let effective_step := default (c_step card) new_step in
      prev ← gets (previous_session env card effective_step);
      match prev with
      | Some (prev, resume) =>
        if is_limited env (s_model prev) then mret []
        else
          '(session, is_resume) ←
            (if effective_step == Workflow.REVIEW_STEP then recheck_model env card prev resume
             else mret (prev, resume));
          claim_and_send env card new_step effective_step t session is_resume false
      | None =>
        fresh ← fresh_session env card effective_step;
        match fresh with
        | None => mret []
        | Some session => claim_and_send env card new_step effective_step t session false true
        end
      end.

(** The loop over the picked cards; a failed spawn is logged. *)
Fixpoint spawn_all (env : Card → SpawnEnv) (review_enabled : bool) (cards : list Card) : M unit :=
  match cards with
  | [] => mret tt
  | card :: rest => attempt (spawn_worker_for_card (env card) review_enabled card);; spawn_all env review_enabled rest
  end.

(** One project's part of [check_and_spawn_workers_at]: the cards it picks get
    workers.  The second part, which resumes the idle workers of a project with
    [worker_communication] whose last event is a message of another worker, goes
    through the session manager and writes no card; it is not part of this
    definition. *)
Definition spawn_for_project (now_ms : Z) (settings : Settings) (exhausted : bool)
    (edges : list (string * string)) (env : Card → SpawnEnv) (project : Project) : M unit :=
  picked ← gets (select now_ms settings exhausted edges (p_id project));
  spawn_all env (p_review_enabled project) picked.
End dispatch.
End Dispatch.
