(* ===== verification/DispatchProps.v ===== *)
(** * Properties of dispatching

    The pass picks exactly the cards it may, in the order it promises, and its
    spawns keep the project within its worker count, leave every other card
    alone and keep the invariant of the database. *)

From S2P Require Import Prelude RustStr Json Workflow Pipeline Todo Store StoreProps Board BoardProps Dispatch.

Module DispatchProps.
Import Store StoreProps Board BoardProps Dispatch.

(** ** What a spawn does to the other cards *)

(** A fact about the table of cards alone. *)
Definition on_cards (P : gmap string Card → Prop) : Db → Prop := λ db, P (cards db).

Section frame.
Context `{World} `{JsonApi} (P : gmap string Card → Prop).
#[local] Notation keeps := (Preserves (on_cards P)).

Lemma keeps_modify f : (∀ db, cards (f db) = cards db) → keeps (modify f).
Proof. intros Hf. apply preserves_modify. intros db. unfold on_cards. by rewrite Hf. Qed.

#[export] Instance keeps_attempt {A} (m : M A) : keeps m → keeps (attempt m).
Proof. intros Hm db Hdb. apply (Hm db Hdb). Qed.

#[export] Instance keeps_transaction {A} (m : M A) : keeps m → keeps (transaction m).
Proof.
  intros Hm db Hdb. specialize (Hm db Hdb). unfold transaction. by destruct (m db) as [[a|e] db'].
Qed.

#[export] Instance keeps_tick : keeps tick.
Proof. by intros db. Qed.

(** Programs that do not write cards. *)
Ltac kept := preserve; try (apply keeps_modify; done).

#[export] Instance keeps_now : keeps now.
Proof. unfold now. kept. Qed.
#[export] Instance keeps_uuid : keeps uuid.
Proof. unfold uuid. kept. Qed.
#[export] Instance keeps_millis : keeps millis.
Proof. unfold millis. kept. Qed.

#[export] Instance keeps_append s k d : keeps (append_event s k d).
Proof. unfold append_event. generalize APPEND_SEQ_MAX_ATTEMPTS. intros n. induction n; cbn; kept. Qed.

#[export] Instance keeps_close_runs c s o sm t : keeps (close_runs c s o sm t).
Proof. unfold close_runs. kept. Qed.
#[export] Instance keeps_close_card_run c s o sm : keeps (close_card_run c s o sm).
Proof. unfold close_card_run. kept. Qed.
#[export] Instance keeps_open_card_run c s r t : keeps (open_card_run c s r t).
Proof. unfold open_card_run. apply preserves_bind; [apply _|]. intros id. apply keeps_transaction. kept. Qed.
#[export] Instance keeps_seal s r : keeps (seal_session s r).
Proof. unfold seal_session. kept. Qed.
#[export] Instance keeps_create_session i w p c st m : keeps (create_session i w p c st m).
Proof. unfold create_session. kept. Qed.
#[export] Instance keeps_update_session i u : keeps (update_session i u).
Proof. unfold update_session. kept. Qed.
#[export] Instance keeps_delete_session i : keeps (delete_session i).
Proof. unfold delete_session. kept. Qed.
#[export] Instance keeps_sever p c : keeps (sever_worker_resume_link p c).
Proof. unfold sever_worker_resume_link. kept. Qed.
#[export] Instance keeps_stamp p u : keeps (stamp_completed_at p u).
Proof. unfold stamp_completed_at. kept. Qed.
#[export] Instance keeps_seal_previous card s st : keeps (seal_previous card s st).
Proof. unfold seal_previous. kept. Qed.
#[export] Instance keeps_recheck env card s r : keeps (recheck_model env card s r).
Proof. unfold recheck_model. kept. Qed.
#[export] Instance keeps_fresh env card st : keeps (fresh_session env card st).
Proof. unfold fresh_session. kept. Qed.
End frame.

(** A spawn writes no card but its own. *)
Section others.
Context `{World} `{JsonApi} (custom : list Workflow.WorkflowDef) (id : string) (m0 : gmap string Card).
#[local] Notation keeps := (Preserves (on_cards (λ m, delete id m = m0))).

Lemma keeps_others_modify f :
  (∀ db, delete id (cards (f db)) = delete id (cards db)) → keeps (modify f).
Proof. intros Hf. apply preserves_modify. intros db. unfold on_cards. by rewrite Hf. Qed.

Ltac others := preserve;
  try (apply keeps_others_modify; intros ?; unfold set_cards; cbn [cards]; apply delete_insert_eq).

#[local] Instance others_update u : keeps (update_card id u).
Proof. unfold update_card. others. Qed.

#[local] Instance others_claim s st t : keeps (claim_card_for_worker id s st t).
Proof. unfold claim_card_for_worker. others. Qed.

#[local] Instance others_release : keeps (release_claim id).
Proof. unfold release_claim. others. Qed.

#[local] Instance others_block e : keeps (maybe_block_card_after_crash id e).
Proof. unfold maybe_block_card_after_crash, block_card_after_crash. others. Qed.

Lemma others_spawn env r card : c_id card = id → keeps (spawn_worker_for_card custom env r card).
Proof.
  intros Hid. unfold spawn_worker_for_card, claim_and_send, dispatch_failed. rewrite Hid. others.
Qed.
End others.
(** ** The invariant *)

Section invariant.
Context `{World} `{JsonApi} (custom : list Workflow.WorkflowDef) (id : string) {D : Prop}.

Definition unfinished (m : gmap string Card) : Prop := ∀ c, m !! id = Some c → c_step c ≠ "done".
Definition ok_for (db : Db) : Prop := inv_if D db ∧ (D → on_cards unfinished db).

#[local] Instance both {A} (m : M A) :
  Preserves (inv_if D) m → Preserves (on_cards unfinished) m → Preserves ok_for m | 10.
Proof. intros H1 H2 db [Hi Hu]. split; [by apply H1|intros HD; by apply H2, Hu]. Qed.

#[local] Instance inv_update c u : u_completed_at u = None → Preserves (inv_if D) (update_card c u).
Proof. intros Hu. by apply update_card_inv. Qed.

#[local] Hint Extern 1 (u_completed_at _ = None) => reflexivity : typeclass_instances.
#[local] Hint Extern 1 (u_step _ = None) => reflexivity : typeclass_instances.

Lemma unfinished_write c u m :
  m !! id = Some c → (∀ s, u_step u = Some s → s ≠ "done") → unfinished m →
  unfinished (<[id := apply_update u c]> m).
Proof.
  intros Hc Hu Hm c'. rewrite lookup_insert_eq. intros [= <-]. cbn.
  destruct (u_step u) as [s|]; cbn; [by apply Hu|by apply Hm].
Qed.

(** An update that leaves the step alone. *)
#[local] Instance unfinished_update u : u_step u = None → Preserves (on_cards unfinished) (update_card id u).
Proof.
  intros Hu db Hdb. unfold update_card. rewrite Hu. cbn [is_some]. unfold gets, mbind, M_bind. cbn -[get_card].
  unfold mret, M_ret. cbn -[get_card]. destruct (get_card id db) as [c|] eqn:Hc; [|done]. unfold constraint.
  destruct (update_refs u (sessions db)); [|done]. cbn. by apply unfinished_write; [|rewrite Hu|].
Qed.

Lemma ok_claim s st t : (D → st ≠ Some "done") → Preserves ok_for (claim_card_for_worker id s st t).
Proof.
  intros Hst db [Hi Hu]. split.
  - apply claim_card_inv; [done|]. intros HD n c -> Hc. split; [specialize (Hst HD); congruence|by apply (Hu HD)].
  - intros HD. specialize (Hst HD). specialize (Hu HD). revert Hu. unfold claim_card_for_worker. unfold gets, mbind, M_bind. cbn -[get_card].
    destruct (get_card id db) as [c|] eqn:Hc; [|done]. case_bool_decide; [|done]. unfold constraint.
    destruct (is_some _); [|done]. cbn. intros Hu. apply unfinished_write; [done| |done].
    destruct st as [n|]; cbn; [|done]. intros n' [= <-]. congruence.
Qed.

#[local] Instance ok_release : Preserves ok_for (release_claim id).
Proof. unfold release_claim. preserve. Qed.

#[local] Instance ok_block e : Preserves ok_for (maybe_block_card_after_crash id e).
Proof. unfold maybe_block_card_after_crash, block_card_after_crash. preserve. Qed.

Lemma ok_spawn env r card :
  c_id card = id → (D → intake_step custom r card ≠ Some "done") →
  Preserves ok_for (spawn_worker_for_card custom env r card).
Proof.
  intros Hid Hst. unfold spawn_worker_for_card, claim_and_send, dispatch_failed, recheck_model, fresh_session, seal_previous.
  rewrite Hid. preserve; by apply ok_claim.
Qed.
End invariant.

(** ** Picking *)

Lemma elem_of_list_cards pid db c :
  c ∈ list_cards_by_project pid db ↔ (∃ k, cards db !! k = Some c) ∧ c_project_id c = pid.
Proof.
  unfold list_cards_by_project. rewrite elem_of_sort_by, list_elem_of_In, List.filter_In, <- list_elem_of_In.
  rewrite bool_decide_eq_true. split; intros [Hc Hp]; (split; [|done]).
  - apply list_elem_of_fmap in Hc as ([k c'] & -> & Hk). exists k. by apply elem_of_map_to_list in Hk.
  - destruct Hc as [k Hk]. apply list_elem_of_fmap. exists (k, c). by rewrite elem_of_map_to_list.
Qed.

Lemma keyed_cards_ids pid db :
  map_Forall (λ k c, c_id c = k) (cards db) → NoDup (c_id <$> list_cards_by_project pid db).
Proof.
  intros Hi. unfold list_cards_by_project. rewrite sort_by_perm. apply nodup_fmap_filter.
  replace (c_id <$> (map_to_list (cards db)).*2) with (map_to_list (cards db)).*1; [apply NoDup_fst_map_to_list|].
  rewrite <- list_fmap_compose. apply list_fmap_ext. intros n [k c] Hn. cbn.
  apply list_elem_of_lookup_2, elem_of_map_to_list in Hn. by rewrite (Hi k c Hn).
Qed.

Lemma list_cards_ids {D} pid db : inv_if D db → NoDup (c_id <$> list_cards_by_project pid db).
Proof. intros Hi. apply keyed_cards_ids, Hi. Qed.

Lemma list_cards_row {D} pid db c : inv_if D db → c ∈ list_cards_by_project pid db → cards db !! c_id c = Some c.
Proof.
  intros Hi [[k Hk] _]%elem_of_list_cards. by rewrite (inv_ids db Hi k c Hk).
Qed.

Lemma step_by_id_done {D} pid db d :
  inv_if D db → step_by_id (list_cards_by_project pid db) d = Some "done" ↔
  ∃ c, cards db !! d = Some c ∧ c_project_id c = pid ∧ c_step c = "done".
Proof.
  intros Hi. unfold step_by_id. rewrite fmap_Some. split.
  - intros (c & [Hin Hid%bool_decide_eq_true]%List.find_some & Hs). apply list_elem_of_In in Hin.
    pose proof (list_cards_row _ _ _ Hi Hin) as Hrow. rewrite Hid in Hrow.
    apply elem_of_list_cards in Hin as [_ Hp]. by exists c.
  - intros (c & Hc & Hp & Hs). assert (c_id c = d) as Hid by apply (inv_ids db Hi d c Hc).
    destruct (List.find (λ c, c_id c == d) (list_cards_by_project pid db)) as [c'|] eqn:E.
    + exists c'. split; [done|]. apply List.find_some in E as [Hin Hid'%bool_decide_eq_true].
      apply list_elem_of_In in Hin. apply (list_cards_row _ _ _ Hi) in Hin. congruence.
    + exfalso. assert (c ∈ list_cards_by_project pid db) as Hin by (apply elem_of_list_cards; eauto).
      apply list_elem_of_In in Hin. pose proof (List.find_none _ _ E c Hin) as Hn.
      cbn in Hn. by rewrite bool_decide_eq_true_2 in Hn.
Qed.

Section picking.
Context `{World} `{JsonApi} (now_ms : Z) (settings : Settings) (edges : list (string * string)) (pid : string) (db : Db).

(** A card the pass may give a worker: in the project, held by no worker, not
    blocked, not finished or dropped, with every dependency done, and not in
    the delay after idle turns or behind an unanswered question. *)
Definition eligible (c : Card) : Prop :=
  cards db !! c_id c = Some c ∧ c_project_id c = pid ∧ c_worker_session_id c = None ∧ c_blocked c = false ∧
  c_step c ≠ "done" ∧ c_step c ≠ "wont_do" ∧
  (∀ d, (c_id c, d) ∈ edges → ∃ cd, cards db !! d = Some cd ∧ c_project_id cd = pid ∧ c_step cd = "done") ∧
  backing_off now_ms db c = false.

(** The cards [select] orders and cuts. *)
Definition candidates : list Card :=
  List.filter (λ c, negb (backing_off now_ms db c)) (available edges (list_cards_by_project pid db)).

Lemma candidates_eligible {D} c : inv_if D db → c ∈ candidates ↔ eligible c.
Proof.
  intros Hi. unfold candidates, available, eligible.
  rewrite list_elem_of_In, !List.filter_In, <- list_elem_of_In.
  rewrite !andb_true_iff, !negb_true_iff, bool_decide_eq_true, !bool_decide_eq_false.
  assert (deps_satisfied edges (list_cards_by_project pid db) (c_id c) = true ↔
    ∀ d, (c_id c, d) ∈ edges → ∃ cd, cards db !! d = Some cd ∧ c_project_id cd = pid ∧ c_step cd = "done") as Hd.
  { unfold deps_satisfied. rewrite List.forallb_forall. split.
    - intros Hall d Hin. eapply step_by_id_done; [done|]. refine (proj1 (bool_decide_eq_true _) (Hall (c_id c, d) _)).
      apply List.filter_In. split; [by apply list_elem_of_In|]. by apply bool_decide_eq_true.
    - intros Hall [x d] [Hin Hx%bool_decide_eq_true]%List.filter_In. apply bool_decide_eq_true.
      cbn in *. subst x. eapply step_by_id_done; [done|]. apply Hall. by apply list_elem_of_In. }
  rewrite Hd. split.
  - intros [[Hin [[[[Hw Hb] Hs] Hs'] Hdeps]] Hback]. pose proof (list_cards_row _ _ _ Hi Hin).
    apply elem_of_list_cards in Hin as [_ Hp]. done.
  - intros (Hrow & Hp & Hw & Hb & Hs & Hs' & Hdeps & Hback). split; [|done]. split; [|done].
    apply elem_of_list_cards. eauto.
Qed.

Lemma candidates_ids {D} : inv_if D db → NoDup (c_id <$> candidates).
Proof. intros Hi. unfold candidates, available. do 2 apply nodup_fmap_filter. by eapply list_cards_ids. Qed.

Lemma card_le_sorted : StronglySorted (λ a b, card_le a b = true) (list_cards_by_project pid db).
Proof.
  apply sort_by_StronglySorted; unfold card_le.
  - intros a b. rewrite orb_false_iff, andb_false_iff, orb_true_iff, andb_true_iff, Z.ltb_ge, Z.ltb_lt.
    rewrite Z.eqb_neq, Z.eqb_eq. intros [H1 [H2|H2%string_leb_false]]; [lia|].
    destruct (decide (c_priority b = c_priority a)); [by right|lia].
  - intros a b c. rewrite !orb_true_iff, !andb_true_iff, !Z.ltb_lt, !Z.eqb_eq.
    intros [?|[? L1]] [?|[? L2]]; [lia..|]. right. split; [lia|].
    by eapply string_leb_trans.
Qed.

Lemma candidates_sorted : StronglySorted (λ a b, card_le a b = true) candidates.
Proof. unfold candidates, available. auto using sorted_filter, card_le_sorted. Qed.

(** C20: The pass picks the right cards.  In an active project within its
    budget, the cards a pass gives workers are eligible, each once, no more than
    the workers the project has left, and all eligible ones when they fit; and a
    card that is passed over comes after every picked one: review before other
    work, then by priority and age.  A paused project, one over its budget or
    one with all its workers busy gets none. *)
Theorem dispatch_selection_exact (exhausted : bool) :
  inv db →
  let picked := select now_ms settings exhausted edges pid db in
  let cap := Z.to_nat (Z.max (worker_count settings) 0) in
  let busy := active_workers (list_cards_by_project pid db) in
  if (status settings == "active") && negb exhausted then
    (∀ c, c ∈ picked → eligible c) ∧ NoDup (c_id <$> picked) ∧ (length picked ≤ cap - busy)%nat ∧
    ((length picked < cap - busy)%nat → ∀ c, eligible c → c ∈ picked) ∧
    (∀ c e, c ∈ picked → eligible e → e ∉ picked →
      (c_step e = Workflow.REVIEW_STEP → c_step c = Workflow.REVIEW_STEP) ∧
      ((c_step c = Workflow.REVIEW_STEP ↔ c_step e = Workflow.REVIEW_STEP) → card_le c e = true))
  else picked = [].
Proof.
  intros Hi picked cap busy. unfold picked, select.
  destruct (status settings == "active") eqn:Hst; cbn [negb orb andb]; [|done].
  destruct exhausted; cbn [negb]; [done|]. fold cap busy. fold candidates.
  destruct (cap <=? busy)%nat eqn:Hcap; [apply Nat.leb_le in Hcap|apply Nat.leb_gt in Hcap].
  { replace (cap - busy)%nat with O by lia.
    split_and!; [by intros ? ?%not_elem_of_nil|constructor|done|lia|by intros ? ? ?%not_elem_of_nil]. }
  set (L := sort_by review_first candidates).
  assert (StronglySorted (λ x y, review_first x y = true ∧ (review_first y x = true → card_le x y = true)) L) as HL.
  { apply sort_by_stable; [..|apply candidates_sorted]; unfold review_first.
    - intros x y. by repeat case_bool_decide.
    - intros x y z. by repeat case_bool_decide. }
  assert (∀ c, c ∈ L ↔ eligible c) as Hel by (intros c; unfold L; rewrite elem_of_sort_by; by apply (candidates_eligible (D := True))).
  split_and!.
  - intros c Hc. apply Hel. by eapply elem_of_take in Hc as (? & ?%list_elem_of_lookup_2 & _).
  - rewrite fmap_take. eapply sublist_NoDup; [|apply sublist_take].
    unfold L. rewrite sort_by_perm. by apply (candidates_ids (D := True)).
  - rewrite length_take. lia.
  - rewrite length_take. intros Hlt c Hc. rewrite take_ge by lia. by apply Hel.
  - intros c e Hc He Hne. apply Hel in He. rewrite <- (take_drop (cap - busy) L), elem_of_app in He.
    destruct He as [?|He]; [done|]. destruct (sorted_take_drop _ _ _ _ _ HL Hc He) as [H1 H2].
    revert H1 H2. unfold review_first. repeat case_bool_decide; naive_solver.
Qed.
End picking.

(** ** Capacity *)

Definition count (f : Card → bool) (m : gmap string Card) : nat := length (List.filter f (map_to_list m).*2).

Lemma count_delete f m id :
  (count f (delete id m) ≤ count f m)%nat ∧ (count f m ≤ count f (delete id m) + 1)%nat.
Proof.
  unfold count. destruct (m !! id) as [c|] eqn:Hc; [|rewrite delete_id by done; lia].
  pose proof (filter_perm f _ _ (fmap_Permutation snd _ _ (map_to_list_delete m id c Hc))) as Hp.
  rewrite <- Hp. cbn. destruct (f c); cbn; lia.
Qed.

Lemma active_count pid db :
  active_workers (list_cards_by_project pid db) = count (λ c, active c && (c_project_id c == pid)) (cards db).
Proof.
  unfold active_workers, list_cards_by_project, count.
  rewrite (filter_perm active _ _ (sort_by_perm card_le _)). by rewrite filter_filter.
Qed.

Section pass.
Context `{World} `{JsonApi} (custom : list Workflow.WorkflowDef).

Lemma spawn_all_cons env r card rest db :
  (spawn_all custom env r (card :: rest) db).2 =
  (spawn_all custom env r rest (spawn_worker_for_card custom (env card) r card db).2).2.
Proof. done. Qed.

(** The spawns of a pass, one after the other. *)
Lemma spawn_all_safe {D : Prop} env r cs f db :
  inv_if D db → NoDup (c_id <$> cs) →
  Forall (λ c, cards db !! c_id c = Some c ∧ c_step c ≠ "done" ∧ (D → intake_step custom r c ≠ Some "done")) cs →
  let db' := (spawn_all custom env r cs db).2 in
  inv_if D db' ∧ (∀ k, (k ∉ c_id <$> cs) → cards db' !! k = cards db !! k) ∧
  (count f (cards db') ≤ count f (cards db) + length cs)%nat.
Proof.
  revert db. induction cs as [|c cs IH]; intros db Hi HN HF; [by split_and!; [..|cbn; lia]|].
  rewrite fmap_cons in HN. apply NoDup_cons in HN as [Hc HN].
  apply Forall_cons in HF as [(Hrow & Hstep & Hin) HF]. rewrite spawn_all_cons.
  set (db1 := (spawn_worker_for_card custom (env c) r c db).2).
  assert (delete (c_id c) (cards db1) = delete (c_id c) (cards db)) as Hdel
    by (by apply (others_spawn custom (c_id c) _ (env c) r c eq_refl db)).
  assert (∀ k, k ≠ c_id c → cards db1 !! k = cards db !! k) as Hkeep.
  { intros k Hk. rewrite <- (lookup_delete_ne (cards db1) (c_id c)), Hdel by done. by rewrite lookup_delete_ne. }
  assert (inv_if D db1) as Hi1.
  { apply (ok_spawn custom (c_id c) (env c) r c eq_refl Hin db). split; [done|].
    intros _ c' Hc'. congruence. }
  destruct (IH db1 Hi1 HN) as (Hi2 & Hk2 & Hn2).
  { apply Forall_forall. intros x Hx. rewrite Forall_forall in HF. destruct (HF x Hx) as (Hrx & ? & ?).
    split; [|done]. rewrite Hkeep; [done|]. intros E. apply Hc. rewrite <- E. by apply list_elem_of_fmap_2. }
  split_and!; [done| |].
  - intros k Hk. rewrite fmap_cons, not_elem_of_cons in Hk. destruct Hk. by rewrite Hk2, Hkeep.
  - pose proof (count_delete f (cards db1) (c_id c)) as [_ H1]. rewrite Hdel in H1.
    pose proof (count_delete f (cards db) (c_id c)) as [H2 _]. cbn. lia.
Qed.

(** C19: A pass is safe.  Whatever the rest of the system answers during the
    spawns (a sibling still running, an account out of quota, a cancelled hook,
    a file that cannot be written, a provider that refuses), a pass over a
    project keeps the invariant of the database, writes no card but those it
    picked, and leaves at most [worker_count] workers busy, or as many as were
    busy before.  The completion times are part of the invariant kept ([D] true)
    only when no picked card has done as its intake step: such a card is claimed
    onto done without one ([intake_claims_onto_done]).  The rest of the invariant
    ([D] false) is kept without a condition. *)
Theorem dispatch_safe (D : Prop) now_ms settings exhausted edges env project db :
  inv_if D db →
  let picked := select now_ms settings exhausted edges (p_id project) db in
  (D → Forall (λ c, intake_step custom (p_review_enabled project) c ≠ Some "done") picked) →
  let busy d := active_workers (list_cards_by_project (p_id project) d) in
  let db' := (spawn_for_project custom now_ms settings exhausted edges env project db).2 in
  inv_if D db' ∧
  (∀ k, (k ∉ c_id <$> picked) → cards db' !! k = cards db !! k) ∧
  (busy db' ≤ Nat.max (busy db) (Z.to_nat (worker_count settings)))%nat.
Proof.
  intros Hi picked Hin busy db'.
  assert (NoDup (c_id <$> picked) ∧ Forall (λ c, cards db !! c_id c = Some c ∧ c_step c ≠ "done") picked ∧
    (picked = [] ∨ (length picked ≤ Z.to_nat (worker_count settings) - busy db)%nat)) as (HN & HF & Hlen).
  { pose proof (candidates_ids now_ms edges (p_id project) db Hi) as HN.
    pose proof (λ c, candidates_eligible now_ms edges (p_id project) db c Hi) as Hel.
    unfold picked, select in *. destruct (_ || exhausted); [by split_and!; [constructor|constructor|left]|].
    destruct (_ <=? _)%nat; [by split_and!; [constructor|constructor|left]|]. split_and!.
    - rewrite fmap_take. eapply sublist_NoDup; [|apply sublist_take]. by rewrite sort_by_perm.
    - apply Forall_forall. intros c Hc. eapply elem_of_take in Hc as (? & ?%list_elem_of_lookup_2 & _).
      rewrite elem_of_sort_by in *. match goal with Hx : c ∈ _ |- _ => apply Hel in Hx; destruct Hx as (? & _ & _ & _ & ? & _) end.
      done.
    - right. rewrite length_take. unfold busy. lia. }
  destruct (spawn_all_safe env (p_review_enabled project) picked
    (λ c, active c && (c_project_id c == p_id project)) db Hi HN) as (Hi' & Hk & Hn).
  { rewrite Forall_forall in *. intros c Hc. destruct (HF c Hc). split_and!; [done..|]. intros HD. by apply Hin. }
  split_and!; [done..|]. unfold busy. rewrite !active_count.
  change db' with (spawn_all custom env (p_review_enabled project) picked db).2.
  destruct Hlen as [->|Hlen]; [cbn in *; lia|]. unfold busy in Hlen. rewrite active_count in Hlen. lia.
Qed.
End pass.

(** ** Witnesses *)

#[local] Existing Instance obj_json.

(** Two cards ready to start and one worker to give. *)
Definition ex_ready : Db :=
  let db := (create_project "p1" "Launch" "task" empty_db).2 in
  let db := (create_card ex_new_card db).2 in
  (create_card (mkNewCard "c2" "p1" "Polish it" "" "review" 7 "task" None None false None "1" "1" None) db).2.

Definition ex_settings : Settings := {| status := "active"; worker_count := 1 |}.

(** Everything works, and the provider takes the message. *)
Definition ex_env : SpawnEnv := {|
  folder_found := true; is_running _ := false; has_background _ := false; is_limited _ := false;
  worker_model _ := Some "m"; reviewer_model _ := None; same_provider _ _ := true;
  token_cancelled := false; config_cancelled := false; config_written := Ok tt; sent := Ok tt;
|}.

Lemma ex_ready_inv : inv ex_ready.
Proof.
  apply create_card_inv; [done|]. apply (create_card_inv ex_new_card); [done|].
  apply (preserves (Preserves := create_project_inv _ _ _)), empty_inv.
Qed.

Lemma dispatch_selection_exact_witness :
  c_id <$> select 0 ex_settings false [] "p1" ex_ready = ["c2"] ∧
  NoDup (c_id <$> select 0 ex_settings false [] "p1" ex_ready).
Proof.
  split; [by vm_compute|].
  exact (proj1 (proj2 (dispatch_selection_exact 0 ex_settings [] "p1" ex_ready false ex_ready_inv))).
Defined.

Lemma dispatch_safe_witness :
  let db' := (spawn_for_project [] 0 ex_settings false [] (λ _, ex_env) (mkProject "p1" "Launch" "task" true) ex_ready).2 in
  inv db' ∧ active_workers (list_cards_by_project "p1" db') = 1%nat.
Proof.
  split; [|by vm_compute].
  apply (dispatch_safe [] True 0 ex_settings false [] (λ _, ex_env) (mkProject "p1" "Launch" "task" true) ex_ready ex_ready_inv).
  intros _. match goal with |- Forall ?P ?l => apply (bool_decide_eq_true_1 (Forall P l)); vm_compute; reflexivity end.
Defined.

(** A workflow whose only working step is the review step passes validation.
    In a project without reviews its cards have no working step left, so the
    second step is the last: the spawn of a worker claims a backlog card
    straight onto [done], with the worker holding it and no completion time. *)
Lemma intake_claims_onto_done :
  let steps := [Workflow.mkStepDef "backlog" ""; Workflow.mkStepDef "review" "Read it."; Workflow.mkStepDef "done" ""] in
  let custom := [Workflow.mkDef "look" "Look" "" 0 "custom" steps] in
  Workflow.validate_workflow_steps steps = Ok tt ∧
  let new := mkNewCard "c1" "p1" "Look at it" "" "backlog" 3 "look" None None false None "0" "0" None in
  let db := (create_card new (create_project "p1" "Launch" "look" empty_db).2).2 in
  let db' := (spawn_worker_for_card custom ex_env false (new_card_row new) db).2 in
  (λ c, (c_step c, is_some (c_worker_session_id c), c_completed_at c)) <$> get_card "c1" db' = Some ("done", true, None).
Proof. split; by vm_compute. Qed.

End DispatchProps.
