(* ===== verification/Deps.v ===== *)
(** * Card dependencies

    Models the dependency graph: the [card_dependencies] table of
    src/db/crud/dependencies.rs, the transitive searches of
    src/service/card_deps.rs, and the cycle check and update of
    src/routes/projects/mod.rs (also used by the MCP card tools).  The
    searches are shown to compute reachability, and checked updates to keep
    the graph acyclic. *)

From S2P Require Import Prelude RustStr Store.

Module Deps.

Record CardDependency := mkDep {
  d_card_id : string;
  d_depends_on : string;
  d_created_at : string;
}.

(** The cards with their projects, and the dependency rows. *)
Record Graph := mkGraph {
  g_project : gmap string string;
  g_rows : list CardDependency;
}.

(** [edges.entry(c).or_default().push(dep)] for each pair. *)
Definition push_edge (m : gmap string (list string)) (e : string * string) : gmap string (list string) :=
  <[e.1 := default [] (m !! e.1) ++ [e.2]]> m.
Definition edge_map (l : list (string * string)) : gmap string (list string) := foldl push_edge ∅ l.

(** ** Searches *)

(** The loop of [would_create_cycle]: the stack's top is the list's head. *)
Fixpoint cycle_loop (fuel : nat) (edges : gmap string (list string)) (card_id : string)
    (stack : list string) (seen : gset string) : option bool :=
  match fuel with
  | O => None
  | S k =>
    match stack with
    | [] => Some false
    | node :: stack =>
      if node == card_id then Some true
      else if bool_decide (node ∈ seen) then cycle_loop k edges card_id stack seen
      else cycle_loop k edges card_id (reverse (default [] (edges !! node)) ++ stack) ({[node]} ∪ seen)
    end
  end.

Definition edge_count (edges : gmap string (list string)) : nat :=
  sum_list_with (λ kv, length kv.2) (map_to_list edges).

(** Each iteration pops a node, and the successors of a node are pushed once. *)
Definition would_create_cycle (edges : gmap string (list string)) (card_id : string)
    (new_deps : list string) : option bool :=
  cycle_loop (S (length new_deps + edge_count edges)) edges card_id (reverse new_deps) ∅.

(** [collect_transitive_deps]; [None] when the recursion runs out of fuel. *)
Fixpoint collect_transitive_deps (fuel : nat) (deps_by_card : gmap string (list string))
    (card_id : string) (seen : gset string) : option (gset string) :=
  match fuel with
  | O => None
  | S k =>
    foldl (λ acc dep,
      seen ← acc;
      if bool_decide (dep ∈ seen) then Some seen
      else collect_transitive_deps k deps_by_card dep ({[dep]} ∪ seen))
      (Some seen) (default [] (deps_by_card !! card_id))
  end.

(** The recursion visits each node of the graph at most once. *)
Definition targets (m : gmap string (list string)) : gset string :=
  list_to_set (concat (map_to_list m).*2).
Definition transitive_deps (m : gmap string (list string)) (card_id : string) : option (gset string) :=
  collect_transitive_deps (S (size (targets m))) m card_id ∅.

(** ** The table *)

Definition list_dependencies_by_project (g : Graph) (project_id : string) : list (string * string) :=
  (λ r, (d_card_id r, d_depends_on r)) <$>
    List.filter (λ r, g_project g !! d_card_id r == Some project_id) (g_rows g).

(** One transaction: the primary key is [(card_id, depends_on_card_id)], and
    both ends reference [cards]. *)
Definition set_card_dependencies (g : Graph) (card_id : string) (depends_on : list string)
    (now : string) : Result string Graph :=
  let kept := List.filter (λ r, d_card_id r != card_id) (g_rows g) in
  let deps := List.filter (λ d, d != card_id) depends_on in
  if negb (bool_decide (NoDup deps)) then Err "UNIQUE constraint failed: card_dependencies"
  else if negb (bool_decide (Forall (λ d, is_Some (g_project g !! card_id) ∧ is_Some (g_project g !! d)) deps))
  then
    Err "FOREIGN KEY constraint failed"
  else Ok (mkGraph (g_project g) (kept ++ ((λ d, mkDep card_id d now) <$> deps))).

(** [if d != card_id && !deps.contains(&d) { deps.push(d) }] *)
Definition push_dep (card_id : string) (deps : list string) (d : string) : list string :=
  if (d != card_id) && negb (bool_decide (d ∈ deps)) then deps ++ [d] else deps.
Definition clean_deps (card_id : string) (depends_on : list string) : list string :=
  foldl (push_dep card_id) [] depends_on.

(** The checks shared by the REST route and the MCP tool. *)
Definition validate_dependency_set (g : Graph) (project_id card_id : string) (depends_on : list string) :
    Result string (list string) :=
  let deps := clean_deps card_id depends_on in
  match deps with
  | [] => Ok []
  | _ =>
    match List.find (λ d, g_project g !! d != Some project_id) deps with
    | Some d => Err ("dependency " +:+ d +:+ " is not a card in this project")
    | None =>
      match would_create_cycle (edge_map (list_dependencies_by_project g project_id)) card_id deps with
      | Some false => Ok deps
      | _ => Err "dependency cycle detected — a card cannot transitively depend on itself"
      end
    end
  end.

(** One update that nothing comes between: the code lists, checks and writes in
    separate calls, and what happens when two updates overlap is in
    [checked_updates_race]. *)
Definition apply_dependencies (g : Graph) (project_id card_id : string) (depends_on : list string)
    (now : string) : Result string Graph :=
  deps ← validate_dependency_set g project_id card_id depends_on;
  set_card_dependencies g card_id deps now.

(** ** Blockers *)

Definition is_open (step : string) : bool := (step != "done") && (step != "wont_do").

(** Reverse edges. *)
Definition dependents (deps_by_card : gmap string (list string)) : gmap string (list string) :=
  edge_map (p ← map_to_list deps_by_card; (λ d, (d, p.1)) <$> p.2).

(** An open card other than [id]. *)
Definition is_waiter (info : gmap string Store.Card) (id w : string) : bool :=
  (w != id) && match info !! w with Some c => is_open (Store.c_step c) | None => false end.

Definition waiting_on (rev : gmap string (list string)) (info : gmap string Store.Card) (id : string) : nat :=
  match transitive_deps rev id with
  | Some waiting => size (filter (λ w, is_waiter info id w = true) waiting)
  | None => O
  end.

(** [b.1.cmp(&a.1).then_with(|| a.0.cmp(&b.0))] *)
Definition blocker_le (a b : string * nat) : bool :=
  (b.2 <? a.2)%nat || ((b.2 =? a.2)%nat && String.leb a.1 b.1).

Definition top_blockers (deps_by_card : gmap string (list string)) (info : gmap string Store.Card)
    (limit : nat) : list (string * nat) :=
  let rev := dependents deps_by_card in
  let all := omap (λ kc : string * Store.Card,
    if Store.c_step kc.2 == "done" then None
    else let blocks := waiting_on rev info kc.1 in
         if (0 <? blocks)%nat then Some (kc.1, blocks) else None) (map_to_list info) in
  take limit (sort_by blocker_le all).

(** ** Reachability *)

Definition edge (m : gmap string (list string)) (x y : string) : Prop := ∃ l, m !! x = Some l ∧ y ∈ l.

Lemma edge_default m x y : edge m x y ↔ y ∈ default [] (m !! x).
Proof.
  unfold edge. destruct (m !! x) as [l|]; simpl; split; [by intros (? & [= <-] & ?)|eauto|by intros (? & ? & _)|].
  by intros ?%elem_of_nil.
Qed.

(** *** The cycle check *)

Fixpoint pot_list (seen : gset string) (l : list (string * list string)) : nat :=
  match l with
  | [] => O
  | kv :: l' => ((if bool_decide (kv.1 ∈ seen) then 0 else length kv.2) + pot_list seen l')%nat
  end.

(** The edges leaving nodes not seen yet. *)
Definition potential (m : gmap string (list string)) (seen : gset string) : nat :=
  pot_list seen (map_to_list m).

Lemma pot_list_seen seen node l : node ∉ l.*1 → pot_list ({[node]} ∪ seen) l = pot_list seen l.
Proof.
  induction l as [|[k v] l IH]; simpl; intros Hn; [done|].
  rewrite IH by set_solver. by rewrite (bool_decide_ext (k ∈ {[node]} ∪ seen) (k ∈ seen)) by set_solver.
Qed.

Lemma pot_list_perm seen l k : l ≡ₚ k → pot_list seen l = pot_list seen k.
Proof. induction 1; simpl; lia. Qed.

Lemma potential_visit m node seen :
  node ∉ seen →
  potential m seen = (length (default [] (m !! node)) + potential m ({[node]} ∪ seen))%nat.
Proof.
  intros Hn. unfold potential. destruct (m !! node) as [l|] eqn:E; simpl.
  - assert (map_to_list m ≡ₚ (node, l) :: map_to_list (delete node m)) as Hp.
    { rewrite <- (insert_delete_id m node l E) at 1. apply map_to_list_insert, lookup_delete_eq. }
    rewrite !(pot_list_perm _ _ _ Hp). simpl. rewrite bool_decide_eq_false_2, bool_decide_eq_true_2 by set_solver.
    rewrite pot_list_seen; [lia|]. intros ([k v] & -> & Hk%elem_of_map_to_list)%list_elem_of_fmap.
    simpl in Hk. by rewrite lookup_delete_eq in Hk.
  - rewrite pot_list_seen; [done|]. intros ([k v] & -> & Hk%elem_of_map_to_list)%list_elem_of_fmap.
    simpl in *. congruence.
Qed.

Lemma potential_empty m : potential m ∅ = edge_count m.
Proof.
  unfold potential, edge_count. induction (map_to_list m) as [|[k v] l IH]; simpl; [done|].
  rewrite IH. done.
Qed.

(** The search invariant: what was reached from a seen node is seen or still on
    the stack. *)
Lemma cycle_loop_spec fuel : ∀ m card stack seen,
  (length stack + potential m seen < fuel)%nat → card ∉ seen →
  (∀ x y, x ∈ seen → edge m x y → y ∈ seen ∨ y ∈ stack) →
  ∃ b, cycle_loop fuel m card stack seen = Some b ∧
    (b = true ↔ ∃ d, (d ∈ stack ∨ d ∈ seen) ∧ rtc (edge m) d card).
Proof.
  induction fuel as [|fuel IH]; intros m card stack seen Hf Hcard Hcl; [lia|].
  destruct stack as [|node stack]; cbn [cycle_loop].
  { exists false. split; [done|]. split; [done|]. intros (d & [?%elem_of_nil|Hd] & Hr); [done|].
    exfalso. induction Hr as [x|x y z Hxy Hyz IHr]; [done|]. apply IHr; [done|].
    destruct (Hcl x y Hd Hxy) as [|?%elem_of_nil]; done. }
  case_bool_decide as Hn.
  { exists true. split; [done|]. split; [|done]. intros _. exists node. subst. split; [set_solver|constructor]. }
  case_bool_decide as Hs.
  - destruct (IH m card stack seen) as (b & -> & Hb); [simpl in Hf; lia|done| |].
    { intros x y Hx Hxy. destruct (Hcl x y Hx Hxy); set_solver. }
    exists b. split; [done|]. rewrite Hb. split; intros (d & Hd & Hr); exists d; set_solver.
  - destruct (IH m card (reverse (default [] (m !! node)) ++ stack) ({[node]} ∪ seen)) as (b & -> & Hb).
    + rewrite length_app, length_reverse. simpl in Hf. rewrite (potential_visit m node seen Hs) in Hf. lia.
    + set_solver.
    + intros x y [->%elem_of_singleton|Hx]%elem_of_union Hxy.
      * right. apply edge_default in Hxy. apply elem_of_app. left. by apply elem_of_reverse.
      * destruct (Hcl x y Hx Hxy) as [|[->|]%elem_of_cons]; set_solver.
    + exists b. split; [done|]. rewrite Hb. split.
      * intros (d & Hd & Hr). rewrite elem_of_app, elem_of_reverse, elem_of_union, elem_of_singleton in Hd.
        destruct Hd as [[Hd|Hd]|[->|Hd]].
        -- exists node. split; [set_solver|]. apply rtc_l with d; [|done].
           by apply (proj2 (edge_default m node d)).
        -- exists d. set_solver.
        -- exists node. set_solver.
        -- exists d. set_solver.
      * intros (d & Hd & Hr). exists d. split; [|exact Hr].
        rewrite elem_of_cons in Hd. destruct Hd as [[->|Hd]|Hd]; set_solver.
Qed.

Lemma would_create_cycle_spec m card deps :
  ∃ b, would_create_cycle m card deps = Some b ∧
    (b = true ↔ ∃ d, d ∈ deps ∧ rtc (edge m) d card).
Proof.
  unfold would_create_cycle.
  destruct (cycle_loop_spec (S (length deps + edge_count m)) m card (reverse deps) ∅) as (b & -> & Hb).
  - rewrite length_reverse, potential_empty. lia.
  - set_solver.
  - set_solver.
  - exists b. split; [done|]. rewrite Hb. split; intros (d & Hd & Hr); exists d; split; try done.
    + rewrite elem_of_reverse in Hd. set_solver.
    + left. by apply elem_of_reverse.
Qed.

(** *** The transitive closure *)

Lemma elem_of_targets m x y : edge m x y → y ∈ targets m.
Proof.
  intros (l & Hl & Hy). unfold targets. apply elem_of_list_to_set, list_elem_of_In, List.in_concat.
  exists l. split; [|by apply list_elem_of_In]. apply list_elem_of_In, list_elem_of_fmap. exists (x, l).
  split; [done|].
  by apply elem_of_map_to_list.
Qed.

(** [s'] extends [s] by nodes reachable from [from], each with all its
    successors. *)
Definition extends (m : gmap string (list string)) (from : string → Prop) (s s' : gset string) : Prop :=
  s ⊆ s' ∧ (∀ x, from x → x ∈ s') ∧
  (∀ x, x ∈ s' → x ∈ s ∨ ∃ d, from d ∧ rtc (edge m) d x) ∧
  (∀ x y, x ∈ s' → x ∉ s → edge m x y → y ∈ s').

Lemma collect_spec fuel : ∀ m card seen,
  (size (targets m ∖ seen) < fuel)%nat →
  ∃ s', collect_transitive_deps fuel m card seen = Some s' ∧ extends m (edge m card) seen s'.
Proof.
  induction fuel as [|k IH]; intros m card seen Hf; [lia|]. cbn [collect_transitive_deps].
  assert (∀ l s1, Forall (λ d, d ∈ targets m) l → (size (targets m ∖ s1) < S k)%nat →
    ∃ s', foldl (λ acc dep, seen ← acc;
      if bool_decide (dep ∈ seen) then Some seen
      else collect_transitive_deps k m dep ({[dep]} ∪ seen)) (Some s1) l = Some s' ∧
      extends m (.∈ l) s1 s') as Hl.
  { induction l as [|d l IHl]; intros s1 HF Hs1; cbn [foldl].
    { exists s1. split; [done|]. split_and!; set_solver. }
    apply Forall_cons in HF as [Hd HF]. rewrite some_bind. case_bool_decide as Hin.
    - destruct (IHl s1 HF Hs1) as (s' & -> & H1 & H2 & H3 & H4). exists s'. split; [done|].
      split_and!; [done| |set_solver|done]. intros x [->|]%elem_of_cons; auto.
    - destruct (IH m d ({[d]} ∪ s1)) as (s2 & -> & G1 & G2 & G3 & G4).
      { assert (size (targets m ∖ ({[d]} ∪ s1)) < size (targets m ∖ s1))%nat; [|lia].
        apply subset_size. set_solver. }
      destruct (IHl s2 HF) as (s' & -> & H1 & H2 & H3 & H4).
      { assert (size (targets m ∖ s2) <= size (targets m ∖ s1))%nat; [|lia].
        apply subseteq_size. set_solver. }
      exists s'. split; [done|]. split_and!.
      + set_solver.
      + intros x [->|]%elem_of_cons; [set_solver|auto].
      + intros x [Hx|(e & He & Hr)]%H3; [|right; exists e; set_solver].
        destruct (G3 x Hx) as [Hx'|(e & He & Hr)].
        * apply elem_of_union in Hx' as [->%elem_of_singleton|]; [|by left].
          right. exists d. split; [set_solver|constructor].
        * right. exists d. split; [set_solver|]. by apply rtc_l with e.
      + intros x y Hx Hns Hxy. destruct (decide (x ∈ s2)) as [Hx2|]; [|by apply (H4 x)].
        apply H1. destruct (decide (x = d)) as [->|]; [by apply G2|]. apply (G4 x); set_solver. }
  destruct (Hl (default [] (m !! card)) seen) as (s' & Heq & H1 & H2 & H3 & H4); [|done|].
  { apply Forall_forall. intros d Hd%edge_default. by eapply elem_of_targets. }
  exists s'. split; [exact Heq|]. split_and!; [done| | |done].
  - intros x Hx. apply H2. by apply edge_default.
  - intros x [?|(d & Hd & Hr)]%H3; [by left|right]. exists d. split; [|done]. by apply edge_default.
Qed.

Lemma transitive_closure m card :
  ∃ s, transitive_deps m card = Some s ∧ ∀ x, x ∈ s ↔ tc (edge m) card x.
Proof.
  unfold transitive_deps. destruct (collect_spec (S (size (targets m))) m card ∅) as (s & -> & H1 & H2 & H3 & H4).
  { assert (size (targets m ∖ ∅) <= size (targets m))%nat; [|lia]. apply subseteq_size. set_solver. }
  exists s. split; [done|]. intros x. split.
  - intros [?|(d & Hd & Hr)]%H3; [set_solver|]. apply tc_rtc_r with d; [by constructor|done].
  - assert (∀ a b, tc (edge m) a b → (∀ y, edge m a y → y ∈ s) → b ∈ s) as Hc.
    { induction 1 as [a b Hab|a b c Hab Hbc IH]; intros Ha; [by apply Ha|].
      apply IH. intros y Hy. apply (H4 b); [by apply Ha|set_solver|done]. }
    intros Ht. by apply (Hc card x).
Qed.

(** on any graph, cyclic or not, both searches terminate within their bound:
    the transitive search returns exactly the cards reachable through one or
    more dependency edges, and the cycle check says whether a proposed
    dependency already leads back to the card. *)
Theorem transitive_deps_exact m card d :
  (∃ s, transitive_deps m card = Some s ∧ ∀ x, x ∈ s ↔ tc (edge m) card x) ∧
  ∃ b, would_create_cycle m card [d] = Some b ∧ (b = true ↔ rtc (edge m) d card).
Proof.
  split; [apply transitive_closure|].
  destruct (would_create_cycle_spec m card [d]) as (b & -> & Hb). exists b. split; [done|].
  rewrite Hb. set_solver.
Qed.

(** ** The graph stays acyclic *)

Definition graph_edge (g : Graph) (x y : string) : Prop :=
  ∃ r, r ∈ g_rows g ∧ d_card_id r = x ∧ d_depends_on r = y.

Record ginv (g : Graph) : Prop := {
  ginv_acyclic : ∀ x, ¬ tc (graph_edge g) x x;
  ginv_project : ∀ x y, graph_edge g x y →
    ∃ p, g_project g !! x = Some p ∧ g_project g !! y = Some p;
}.

Lemma edge_map_spec l x y : edge (edge_map l) x y ↔ (x, y) ∈ l.
Proof.
  unfold edge_map. assert (∀ m, edge (foldl push_edge m l) x y ↔ edge m x y ∨ (x, y) ∈ l) as Hm.
  { induction l as [|[a b] l IH]; intros m; cbn [foldl]; [set_solver|]. rewrite IH.
    assert (edge (push_edge m (a, b)) x y ↔ edge m x y ∨ (x, y) = (a, b)) as ->; [|set_solver].
    rewrite !edge_default. unfold push_edge. simpl. destruct (decide (a = x)) as [->|Hne].
    - rewrite lookup_insert_eq. simpl. rewrite elem_of_app, list_elem_of_singleton. naive_solver.
    - rewrite lookup_insert_ne by done. naive_solver. }
  rewrite Hm. split; [|by right]. intros [(k & Hk & _)|?]; [by rewrite lookup_empty in Hk|done].
Qed.

Lemma project_edges g p x y :
  edge (edge_map (list_dependencies_by_project g p)) x y ↔ graph_edge g x y ∧ g_project g !! x = Some p.
Proof.
  rewrite edge_map_spec. unfold list_dependencies_by_project, graph_edge. rewrite list_elem_of_fmap. split.
  - intros (r & [= -> ->] & [Hr Hp%bool_decide_eq_true]%list_elem_of_In%List.filter_In).
    apply list_elem_of_In in Hr. eauto 10.
  - intros [(r & Hr & <- & <-) Hp]. exists r. split; [done|]. apply list_elem_of_In, List.filter_In.
    split; [by apply list_elem_of_In|]. by apply bool_decide_eq_true.
Qed.

Lemma project_paths g p x y :
  ginv g → g_project g !! x = Some p →
  rtc (edge (edge_map (list_dependencies_by_project g p))) x y ↔ rtc (graph_edge g) x y.
Proof.
  intros Hi Hx. split.
  - apply rtc_subrel. intros a b Hab. by apply project_edges in Hab as [? _].
  - intros Hr. revert Hx. induction Hr as [|a b c Hab _ IH]; intros Hx; [constructor|].
    destruct (ginv_project g Hi _ _ Hab) as (q & Hqa & Hqb).
    apply rtc_l with b; [by apply project_edges|]. apply IH. congruence.
Qed.

Lemma elem_of_clean_deps card l d : d ∈ clean_deps card l ↔ d ∈ l ∧ d ≠ card.
Proof.
  unfold clean_deps. assert (∀ acc, d ∈ foldl (push_dep card) acc l ↔ d ∈ acc ∨ d ∈ l ∧ d ≠ card) as Ha.
  { induction l as [|x l IH]; intros acc; cbn [foldl]; [set_solver|]. rewrite IH. unfold push_dep.
    repeat case_bool_decide; simpl; set_solver. }
  rewrite Ha. set_solver.
Qed.

Lemma clean_deps_nodup card l : NoDup (clean_deps card l).
Proof.
  unfold clean_deps. assert (∀ acc, NoDup acc → NoDup (foldl (push_dep card) acc l)) as Ha.
  { induction l as [|x l IH]; intros acc Hacc; cbn [foldl]; [done|]. apply IH. unfold push_dep.
    repeat case_bool_decide; simpl; try done. apply NoDup_app.
    split; [done|]. split; [set_solver|apply NoDup_singleton]. }
  apply Ha. constructor.
Qed.

Lemma find_none {A} (f : A → bool) l : List.find f l = None ↔ Forall (λ x, f x = false) l.
Proof.
  induction l as [|x l IH]; simpl; [done|]. rewrite Forall_cons. destruct (f x); [naive_solver|].
  rewrite IH. naive_solver.
Qed.

(** When a dependency set passes the checks. *)
Lemma validate_exact g p card l :
  ginv g →
  let deps := clean_deps card l in
  (validate_dependency_set g p card l = Ok deps ↔
    ∀ d, d ∈ deps → g_project g !! d = Some p ∧ ¬ rtc (graph_edge g) d card) ∧
  (is_ok (validate_dependency_set g p card l) = true → validate_dependency_set g p card l = Ok deps).
Proof.
  intros Hi. unfold validate_dependency_set.
  destruct (clean_deps card l) as [|d0 deps0]; [set_solver|]. set (deps := d0 :: deps0).
  destruct (would_create_cycle_spec (edge_map (list_dependencies_by_project g p)) card deps) as (b & Hb & Hcyc).
  rewrite Hb. cbv zeta. destruct (List.find (λ d, g_project g !! d != Some p) deps) as [d|] eqn:F.
  - split; [|done]. split; [done|]. intros Hall. apply List.find_some in F as [Hin%list_elem_of_In Hf].
    destruct (Hall d Hin) as [Hp _]. by rewrite bool_decide_eq_true_2 in Hf.
  - apply find_none in F. rewrite Forall_forall in F.
    assert (∀ d, d ∈ deps → g_project g !! d = Some p) as Hproj.
    { intros d Hin. specialize (F d Hin). by apply negb_false_iff, bool_decide_eq_true in F. }
    destruct b.
    + split; [|done]. split; [done|]. intros Hall. exfalso.
      destruct (proj1 Hcyc eq_refl) as (d & Hin & Hr). destruct (Hall d Hin) as [Hp Hn].
      apply Hn. by apply (project_paths g p d card Hi Hp).
    + split; [|done]. split; [|done]. intros _ d Hin. split; [by apply Hproj|]. intros Hr.
      assert (false = true); [|done]. apply Hcyc. exists d. split; [done|].
      apply project_paths; [done|by apply Hproj|done].
Qed.

(** Replacing the edges that leave one node, by edges none of whose ends leads
    back to it, closes no cycle. *)
Lemma replace_acyclic (R R' : relation string) card (deps : string → Prop) :
  (∀ x, ¬ tc R x x) → (∀ x y, x ≠ card → R' x y → R x y) → (∀ d, R' card d → deps d) →
  (∀ d, deps d → ¬ rtc R d card) → ∀ x, ¬ tc R' x x.
Proof.
  intros Hac Hold Hnew Hdeps.
  assert (∀ d, rtc R' d card → rtc R d card) as Hback.
  { intros d Hr. remember card as c eqn:Hc in Hr at 1 |- * at 1.
    induction Hr as [a|a b c Hab Hbc IH]; [constructor|]. subst.
    destruct (decide (a = card)) as [->|Hne]; [constructor|]. eapply rtc_l; [by apply Hold|by apply IH]. }
  assert (¬ tc R' card card) as Hcard.
  { intros Ht. assert (∃ d, R' card d ∧ rtc R' d card) as (d & Hd & Hr).
    { inversion Ht; subst; [exists card; split; [done|constructor]|].
      eexists. split; [done|]. by apply tc_rtc. }
    apply (Hdeps d); [by apply Hnew|by apply Hback]. }
  assert (∀ x y, tc R' x y → tc R x y ∨ rtc R' x card ∧ tc R' card y) as Hsplit.
  { intros x y. induction 1 as [a b Hab|a b c Hab Hbc IH].
    - destruct (decide (a = card)) as [->|]; [right; split; [constructor|by constructor]|].
      left. constructor. by apply Hold.
    - destruct (decide (a = card)) as [->|Hne]; [right; split; [constructor|by apply tc_l with b]|].
      destruct IH as [IH|[IH1 IH2]]; [left; apply tc_l with b; [by apply Hold|done]|].
      right. split; [by apply rtc_l with b|done]. }
  intros x Hx. destruct (Hsplit x x Hx) as [?|[Hr Ht]]; [by eapply Hac|].
  apply Hcard. by eapply tc_rtc_r.
Qed.

Lemma set_card_dependencies_edges g card deps now g' :
  set_card_dependencies g card deps now = Ok g' →
  g_project g' = g_project g ∧
  ∀ x y, graph_edge g' x y ↔ if decide (x = card) then y ∈ deps ∧ y ≠ card else graph_edge g x y.
Proof.
  unfold set_card_dependencies. repeat case_bool_decide; simpl; try done. intros [= <-].
  split; [done|]. intros x y. unfold graph_edge. simpl.
  assert (∀ r, r ∈ List.filter (λ r, d_card_id r != card) (g_rows g) ↔ r ∈ g_rows g ∧ d_card_id r ≠ card) as Hk.
  { intros r. rewrite list_elem_of_In, List.filter_In, <- list_elem_of_In. case_bool_decide; simpl; naive_solver. }
  assert (∀ d, d ∈ List.filter (λ d, d != card) deps ↔ d ∈ deps ∧ d ≠ card) as Hd.
  { intros d. rewrite list_elem_of_In, List.filter_In, <- list_elem_of_In. case_bool_decide; simpl; naive_solver. }
  setoid_rewrite elem_of_app. setoid_rewrite Hk. setoid_rewrite list_elem_of_fmap. setoid_rewrite Hd.
  case_decide as Hx; split.
  - intros (r & [[_ Hne]|(d & -> & Hin)] & Hc & Hy); [congruence|]. simpl in *. naive_solver.
  - intros Hy. exists (mkDep card y now). simpl. naive_solver.
  - intros (r & [[Hr Hne]|(d & -> & _)] & Hc & Hy); [eauto|]. simpl in *. congruence.
  - intros (r & Hr & Hc & Hy). exists r. split; [left; split; [done|congruence]|done].
Qed.

Lemma set_clean_ok g card l now :
  is_Some (g_project g !! card) → (∀ d, d ∈ clean_deps card l → is_Some (g_project g !! d)) →
  is_ok (set_card_dependencies g card (clean_deps card l) now) = true.
Proof.
  intros Hc Hp. unfold set_card_dependencies. rewrite filter_true.
  - rewrite bool_decide_eq_true_2 by apply clean_deps_nodup.
    rewrite bool_decide_eq_true_2; [done|]. apply Forall_forall. auto.
  - apply Forall_forall. intros d [_ Hd]%elem_of_clean_deps. by rewrite bool_decide_eq_false_2.
Qed.

(** C40: a dependency update is accepted exactly when every other card it names
    is in the project and none of them already depends on the card; it then
    replaces the card's dependencies and no others, and the whole graph stays
    acyclic and within projects. *)
Theorem apply_dependencies_acyclic g p card l now :
  ginv g → g_project g !! card = Some p →
  (is_ok (apply_dependencies g p card l now) = true ↔
    ∀ d, d ∈ l → d ≠ card → g_project g !! d = Some p ∧ ¬ rtc (graph_edge g) d card) ∧
  ∀ g', apply_dependencies g p card l now = Ok g' →
    ginv g' ∧
    ∀ x y, graph_edge g' x y ↔ if decide (x = card) then y ∈ l ∧ y ≠ card else graph_edge g x y.
Proof.
  intros Hi Hcard. destruct (validate_exact g p card l Hi) as [Hv Hok].
  assert ((∀ d, d ∈ l → d ≠ card → g_project g !! d = Some p ∧ ¬ rtc (graph_edge g) d card) ↔
    validate_dependency_set g p card l = Ok (clean_deps card l)) as Hiff.
  { rewrite Hv. setoid_rewrite elem_of_clean_deps. naive_solver. }
  split.
  - rewrite Hiff. unfold apply_dependencies. split.
    + intros Hr. apply Hok. by destruct (validate_dependency_set g p card l).
    + intros Hval. rewrite Hval. simpl. apply set_clean_ok; [by eexists|]. intros d Hd.
      destruct (proj1 Hv Hval d Hd) as [-> _]. eauto.
  - intros g' Hg'. unfold apply_dependencies in Hg'.
    apply bind_ok in Hg' as (deps & Hval & Hset). pose proof Hval as Hval'.
    rewrite Hok in Hval' by (by rewrite Hval). injection Hval' as <-.
    destruct (set_card_dependencies_edges _ _ _ _ _ Hset) as [Hproj Hedge].
    assert (∀ d, d ∈ clean_deps card l → g_project g !! d = Some p ∧ ¬ rtc (graph_edge g) d card) as Hd
      by by apply Hv.
    split; [split|].
    + apply (replace_acyclic (graph_edge g) _ card (.∈ clean_deps card l)); [by apply Hi|..].
      * intros x y Hne Hxy%Hedge. by rewrite decide_False in Hxy.
      * intros d Hxy%Hedge. rewrite decide_True in Hxy by done. by destruct Hxy.
      * intros d Hin. by apply Hd.
    + intros x y Hxy%Hedge. rewrite Hproj. case_decide as Hx.
      * subst. exists p. split; [done|]. apply Hd. by destruct Hxy.
      * by apply Hi.
    + intros x y. rewrite Hedge. case_decide; [|done]. rewrite elem_of_clean_deps. naive_solver.
Qed.

(** ** Blockers *)

Lemma omap_length {A B} (f : A → option B) l : (length (omap f l) <= length l)%nat.
Proof. induction l as [|x l IH]; simpl; [done|]. destruct (f x); simpl; unfold omap in *; lia. Qed.

Lemma dependents_edge m x y : edge (dependents m) x y ↔ edge m y x.
Proof.
  unfold dependents. rewrite edge_map_spec, list_elem_of_bind. split.
  - intros ([k l] & Hin & Hk%elem_of_map_to_list).
    apply list_elem_of_fmap in Hin as (d & [= -> ->] & Hd). simpl in *. by exists l.
  - intros (l & Hl & Hx). exists (y, l). split; [|by apply elem_of_map_to_list].
    apply list_elem_of_fmap. exists x. done.
Qed.

Lemma tc_dependents m x y : tc (edge (dependents m)) x y ↔ tc (edge m) y x.
Proof.
  assert (∀ R R' : relation string, (∀ a b, R a b → R' b a) → ∀ a b, tc R a b → tc R' b a) as Hflip.
  { intros R R' HR a b. induction 1 as [a b Hab|a b c Hab _ IH]; [by constructor; apply HR|].
    apply tc_r with b; [done|by apply HR]. }
  split; apply Hflip; intros a b; apply dependents_edge.
Qed.

Lemma waiting_on_spec m info id :
  ∃ W : gset string, (∀ w, w ∈ W ↔ is_waiter info id w = true ∧ tc (edge m) w id) ∧
    waiting_on (dependents m) info id = size W.
Proof.
  unfold waiting_on, transitive_deps.
  destruct (collect_spec (S (size (targets (dependents m)))) (dependents m) id ∅) as (s & Hs & _).
  { assert (size (targets (dependents m) ∖ ∅) <= size (targets (dependents m)))%nat; [|lia].
    apply subseteq_size. set_solver. }
  rewrite Hs. eexists. split; [|done]. intros w. rewrite elem_of_filter.
  destruct (transitive_closure (dependents m) id) as (s' & Hs' & Hw).
  unfold transitive_deps in Hs'. rewrite Hs in Hs'. injection Hs' as <-.
  by rewrite Hw, tc_dependents.
Qed.

Lemma blocker_le_total x y : blocker_le x y = false → blocker_le y x = true.
Proof.
  unfold blocker_le. intros Hf. apply orb_false_iff in Hf as [H1%Nat.ltb_ge H2].
  apply orb_true_iff. destruct (Nat.lt_trichotomy x.2 y.2) as [|[Heq|]]; [left; by apply Nat.ltb_lt| |lia].
  right. rewrite Heq, Nat.eqb_refl in *. simpl in *. by apply string_leb_false.
Qed.

Lemma blocker_le_trans x y z : blocker_le x y = true → blocker_le y z = true → blocker_le x z = true.
Proof.
  unfold blocker_le. rewrite !orb_true_iff, !andb_true_iff, !Nat.ltb_lt, !Nat.eqb_eq.
  intros [?|[? ?]] [?|[? ?]]; [left; lia..|]. right. split; [lia|]. by eapply string_leb_trans.
Qed.

(** The blocker report lists, most blocking first and ties by id, the first
    [limit] of the unfinished cards some open card transitively waits on, each
    with the exact number of other open cards waiting on it. *)
Theorem top_blockers_exact m info limit :
  let all := top_blockers m info (size info) in
  top_blockers m info limit = take limit all ∧
  StronglySorted (λ a b, blocker_le a b = true) all ∧
  ∀ id n, (id, n) ∈ all ↔
    (0 < n)%nat ∧ (∃ c, info !! id = Some c ∧ Store.c_step c ≠ "done") ∧
    ∃ W : gset string, (∀ w, w ∈ W ↔ is_waiter info id w = true ∧ tc (edge m) w id) ∧ n = size W.
Proof.
  unfold top_blockers. set (raw := omap _ (map_to_list info)).
  assert (length (sort_by blocker_le raw) <= size info)%nat as Hlen.
  { rewrite (Permutation_length (sort_by_perm blocker_le raw)). unfold raw.
    rewrite <- length_map_to_list. apply omap_length. }
  rewrite (take_ge _ (size info)) by done. split; [done|].
  split; [apply sort_by_StronglySorted; [apply blocker_le_total|apply blocker_le_trans]|].
  intros id n. rewrite elem_of_sort_by. unfold raw. rewrite list_elem_of_omap. split.
  - intros ([k c] & Hk%elem_of_map_to_list & Hf). simpl in Hf. case_bool_decide as Hd; [done|].
    destruct (Nat.ltb_spec 0 (waiting_on (dependents m) info k)) as [Hn|]; [|done]. injection Hf as <- <-.
    split; [done|]. split; [eauto|]. apply waiting_on_spec.
  - intros (Hn & (c & Hc & Hd) & W & HW & ->). exists (id, c). split; [by apply elem_of_map_to_list|].
    simpl. rewrite bool_decide_eq_false_2 by done.
    destruct (waiting_on_spec m info id) as (W' & HW' & ->).
    assert (W' = W) as -> by (apply set_eq; intros w; by rewrite HW, HW').
    by rewrite (proj2 (Nat.ltb_lt _ _)).
Qed.

(** ** Concrete graphs *)

Definition ex_graph : Graph :=
  mkGraph {["a" := "p"; "b" := "p"; "c" := "p"]} [mkDep "a" "b" "1"].

Lemma ex_graph_inv : ginv ex_graph.
Proof.
  assert (∀ x y, graph_edge ex_graph x y → x = "a" ∧ y = "b") as He.
  { by intros x y (r & ->%list_elem_of_singleton & <- & <-). }
  split.
  - intros x Ht. assert (∀ u v, tc (graph_edge ex_graph) u v → u = "a" ∧ v = "b") as Hp.
    { induction 1 as [u v Huv|u v w Huv _ [IH _]]; [by apply He|].
      destruct (He _ _ Huv) as [_ ->]. discriminate IH. }
    destruct (Hp x x Ht) as [-> Hab]. discriminate Hab.
  - intros x y [-> ->]%He. by exists "p".
Qed.

Example ex_cycle_refused : is_ok (apply_dependencies ex_graph "p" "b" ["c"; "a"] "2") = false.
Proof. vm_compute. reflexivity. Qed.

Lemma apply_dependencies_acyclic_witness :
  ∃ g', apply_dependencies ex_graph "p" "b" ["c"; "c"; "b"] "2" = Ok g' ∧ ginv g'.
Proof.
  destruct (apply_dependencies ex_graph "p" "b" ["c"; "c"; "b"] "2") as [g'|e] eqn:E;
    [|vm_compute in E; discriminate E].
  exists g'. split; [done|].
  by apply (apply_dependencies_acyclic ex_graph "p" "b" ["c"; "c"; "b"] "2" ex_graph_inv).
Defined.

(** The check and the write are separate transactions, so two updates that each
    pass the check can together close a cycle. *)
Theorem checked_updates_race :
  let g := mkGraph {["a" := "p"; "b" := "p"]} [] in
  validate_dependency_set g "p" "a" ["b"] = Ok ["b"] ∧
  validate_dependency_set g "p" "b" ["a"] = Ok ["a"] ∧
  ∃ g1 g2, set_card_dependencies g "a" ["b"] "1" = Ok g1 ∧
    set_card_dependencies g1 "b" ["a"] "2" = Ok g2 ∧ tc (graph_edge g2) "a" "a".
Proof.
  split; [vm_compute; reflexivity|]. split; [vm_compute; reflexivity|].
  eexists _, _. split; [vm_compute; reflexivity|]. split; [vm_compute; reflexivity|].
  apply tc_l with "b"; [|constructor].
  - exists (mkDep "a" "b" "1"). split; [|done]. apply list_elem_of_here.
  - exists (mkDep "b" "a" "2"). split; [|done]. apply list_elem_of_further, list_elem_of_here.
Qed.

(** The table refuses a repeated dependency, which callers that do not remove
    duplicates first run into. *)
Theorem duplicate_dependencies_refused :
  set_card_dependencies ex_graph "b" ["c"; "c"] "2" = Err "UNIQUE constraint failed: card_dependencies".
Proof. vm_compute. reflexivity. Qed.
End Deps.
