(* ===== verification/Gates.v ===== *)
(** * Access gates

    Models the exclusive device leases of src/ws/agent_lease.rs and the failed
    login limiter of src/auth/rate_limit.rs.  Instants are
    nanoseconds; each operation takes the instant it reads the clock at. *)

From S2P Require Import Prelude.

(** ** Device leases *)

Module Lease.

Definition LEASE_INITIAL : Z := 30 * 10 ^ 9.
Definition LEASE_EXTEND : Z := 15 * 10 ^ 9.

Record Lease := mkLease {
  session_id : string;
  expires_at : Z;
}.

Inductive LeaseError := HeldByOther (remaining : Z) | NotHeld.

Record LeaseStatus := mkStatus {
  ls_session_id : string;
  ls_remaining : Z;
}.

(** The proof token [use_lease] mints. *)
Record DeviceLease := mkDeviceLease {
  dl_device_id : string;
  dl_session_id : string;
}.

Notation LeaseTable := (gmap string Lease).

(** [saturating_duration_since] *)
Definition remaining (l : Lease) (now : Z) : Z := Z.max 0 (expires_at l - now).
Definition extend (l : Lease) (now : Z) : Lease :=
  mkLease (session_id l) (Z.max (expires_at l) (now + LEASE_EXTEND)).

Definition live (l : Lease) (busy : bool) (now : Z) : bool := (now <? expires_at l) || busy.

Definition acquire (t : LeaseTable) (device sid : string) (busy : bool) (now : Z) :
    Result LeaseError LeaseStatus * LeaseTable :=
  let fresh := (Ok (mkStatus sid LEASE_INITIAL), <[device := mkLease sid (now + LEASE_INITIAL)]> t) in
  match t !! device with
  | Some lease =>
    if (session_id lease == sid) && live lease busy now then
      let lease := extend lease now in
      (Ok (mkStatus sid (remaining lease now)), <[device := lease]> t)
    else if live lease busy now then (Err (HeldByOther (remaining lease now)), t)
    else fresh
  | None => fresh
  end.

Definition use_lease (t : LeaseTable) (device sid : string) (busy : bool) (now : Z) :
    Result LeaseError DeviceLease * LeaseTable :=
  match t !! device with
  | None => (Err NotHeld, t)
  | Some lease =>
    if negb (live lease busy now) then (Err NotHeld, t)
    else if session_id lease != sid then (Err (HeldByOther (remaining lease now)), t)
    else (Ok (mkDeviceLease device sid), <[device := extend lease now]> t)
  end.

Definition touch (t : LeaseTable) (lease : DeviceLease) (now : Z) : LeaseTable :=
  match t !! dl_device_id lease with
  | Some l =>
    if session_id l == dl_session_id lease then <[dl_device_id lease := extend l now]> t else t
  | None => t
  end.

Definition release (t : LeaseTable) (device sid : string) (busy : bool) (now : Z) :
    Result LeaseError unit * LeaseTable :=
  match t !! device with
  | Some l =>
    if session_id l == sid then (Ok tt, delete device t)
    else if live l busy now then (Err (HeldByOther (remaining l now)), t)
    else (Err NotHeld, t)
  | None => (Err NotHeld, t)
  end.

Definition status (t : LeaseTable) (device : string) (busy : bool) (now : Z) : option LeaseStatus :=
  match t !! device with
  | Some l => if live l busy now then Some (mkStatus (session_id l) (remaining l now)) else None
  | None => None
  end.

(** The operations the sessions interleave, with the instant of each. *)
Inductive Op :=
| Acquire (device sid : string) (busy : bool)
| Use (device sid : string) (busy : bool)
| Touch (device sid : string)
| Release (device sid : string) (busy : bool).

Definition exec (t : LeaseTable) (op : Op) (now : Z) : bool * LeaseTable :=
  match op with
  | Acquire d s b => let '(r, t') := acquire t d s b now in (is_ok r, t')
  | Use d s b => let '(r, t') := use_lease t d s b now in (is_ok r, t')
  | Touch d s => (false, touch t (mkDeviceLease d s) now)
  | Release d s b => let '(r, t') := release t d s b now in (is_ok r, t')
  end.

Definition op_device (op : Op) : string :=
  match op with Acquire d _ _ | Use d _ _ | Touch d _ | Release d _ _ => d end.
Definition op_session (op : Op) : string :=
  match op with Acquire _ s _ | Use _ s _ | Touch _ s | Release _ s _ => s end.
Definition op_busy (op : Op) : bool :=
  match op with Acquire _ _ b | Use _ _ b | Release _ _ b => b | Touch _ _ => false end.

Fixpoint exec_all (t : LeaseTable) (ops : list (Op * Z)) : list bool * LeaseTable :=
  match ops with
  | [] => ([], t)
  | (op, now) :: ops' =>
    let '(b, t1) := exec t op now in
    let '(bs, t2) := exec_all t1 ops' in
    (b :: bs, t2)
  end.

Lemma exec_other_device t op now d :
  op_device op ≠ d → (exec t op now).2 !! d = t !! d.
Proof.
  intros Hd.
  destruct op as [d' s b|d' s b|d' s|d' s b]; cbn [exec op_device] in *.
  - unfold acquire. repeat case_match; simplify_eq/=; rewrite ?lookup_insert_ne by done; done.
  - unfold use_lease. repeat case_match; simplify_eq/=; rewrite ?lookup_insert_ne by done; done.
  - unfold touch. simpl. repeat case_match; simplify_eq/=; rewrite ?lookup_insert_ne by done; done.
  - unfold release. repeat case_match; simplify_eq/=; rewrite ?lookup_delete_ne by done; done.
Qed.

Lemma exec_excluded t op now l :
  t !! op_device op = Some l → op_session op ≠ session_id l →
  (now < expires_at l ∨ op_busy op = true) → exec t op now = (false, t).
Proof.
  intros Hl Hs Ht.
  assert (∀ b, b = op_busy op → live l b now = true) as Hlive.
  { intros b ->. apply orb_true_iff. rewrite Z.ltb_lt. destruct Ht; auto. }
  assert (bool_decide (session_id l = op_session op) = false) as Hne
    by (apply bool_decide_eq_false; congruence).
  destruct op as [d s b|d s b|d s|d s b]; cbn [exec op_device op_session op_busy] in *.
  - unfold acquire. rewrite Hl, Hne, Hlive by done. done.
  - unfold use_lease. rewrite Hl, Hlive, Hne by done. done.
  - unfold touch. simpl. by rewrite Hl, Hne.
  - unfold release. by rewrite Hl, Hne, Hlive.
Qed.

Definition granted (t : LeaseTable) (device sid : string) (busy : bool) (now : Z) : LeaseTable :=
  if is_ok (acquire t device sid busy now).1
  then (acquire t device sid busy now).2 else (use_lease t device sid busy now).2.

Lemma granted_lease t device sid busy now :
  is_ok (acquire t device sid busy now).1 = true ∨ is_ok (use_lease t device sid busy now).1 = true →
  ∃ l, granted t device sid busy now !! device = Some l ∧ session_id l = sid ∧
    now + LEASE_EXTEND <= expires_at l.
Proof.
  intros Hok. unfold granted, LEASE_EXTEND.
  destruct (is_ok (acquire t device sid busy now).1) eqn:Ha.
  - clear Hok. unfold acquire in *.
    assert (∃ l, (<[device := mkLease sid (now + LEASE_INITIAL)]> t) !! device = Some l ∧
      session_id l = sid ∧ now + 15 * 10 ^ 9 <= expires_at l) as Hfresh.
    { eexists. rewrite lookup_insert_eq. split; [done|]. unfold LEASE_INITIAL. simpl. split; [done|lia]. }
    destruct (t !! device) as [l|] eqn:Hl; [|exact Hfresh].
    destruct (session_id l == sid) eqn:Hs; cbn [andb] in *;
      destruct (live l busy now); try done; try exact Hfresh.
    apply bool_decide_eq_true in Hs. eexists. simpl. rewrite lookup_insert_eq.
    split; [done|]. unfold extend, LEASE_EXTEND. simpl. split; [done|lia].
  - destruct Hok as [Hok|Hok]; [done|]. unfold use_lease in *.
    destruct (t !! device) as [l|] eqn:Hl; [|done]. destruct (live l busy now); [|done].
    destruct (session_id l == sid) eqn:Hs; [|done]. apply bool_decide_eq_true in Hs. simpl.
    eexists. rewrite lookup_insert_eq. split; [done|]. unfold extend, LEASE_EXTEND. simpl. split; [done|lia].
Qed.

(** a device lease is exclusive.  Once a session has acquired or used the
    lease, it holds it for at least fifteen more seconds; until it lapses with
    no request in flight, every attempt of other sessions to acquire, use or
    release it is refused and leaves it unchanged, whatever happens to other
    devices, and the holder's next use succeeds. *)
Theorem lease_exclusive t device sid busy now ops :
  is_ok (acquire t device sid busy now).1 = true ∨ is_ok (use_lease t device sid busy now).1 = true →
  let t0 := granted t device sid busy now in
  ∃ l, t0 !! device = Some l ∧ session_id l = sid ∧ now + LEASE_EXTEND <= expires_at l ∧
    (Forall (λ o, op_device o.1 = device →
        op_session o.1 ≠ sid ∧ (o.2 < expires_at l ∨ op_busy o.1 = true)) ops →
      let '(results, t1) := exec_all t0 ops in
      t1 !! device = Some l ∧
      (∀ i o, ops !! i = Some o → op_device o.1 = device → results !! i = Some false) ∧
      (∀ later, later < expires_at l → is_ok (use_lease t1 device sid false later).1 = true)).
Proof.
  intros (l & Hl & Hs & He)%granted_lease t0.
  exists l. split_and!; [done..|]. intros HF. fold t0 in Hl. generalize dependent t0. intros t0 Hl.
  revert t0 Hl. induction ops as [|[op n] ops IH]; intros t0 Hl; cbn [exec_all].
  { split; [done|]. split; [done|]. intros later Hlt. unfold use_lease. rewrite Hl. unfold live.
    rewrite (proj2 (Z.ltb_lt _ _)) by lia. simpl. by rewrite Hs, bool_decide_eq_true_2. }
  apply Forall_cons in HF as [Ho HF]. simpl in Ho.
  destruct (decide (op_device op = device)) as [Hd|Hd].
  - destruct (Ho Hd) as [Hns Ht]. subst device.
    rewrite (exec_excluded t0 op n l Hl) by (done || congruence).
    specialize (IH HF t0 Hl). destruct (exec_all t0 ops) as [bs t2]. destruct IH as (IH1 & IH2 & IH3).
    split_and!; [done| |done]. intros [|i] o; simpl; [by intros [= <-]|]. apply IH2.
  - pose proof (exec_other_device t0 op n device Hd) as Hk. destruct (exec t0 op n) as [b t1].
    simpl in Hk. specialize (IH HF t1 ltac:(congruence)).
    destruct (exec_all t1 ops) as [bs t2]. destruct IH as (IH1 & IH2 & IH3).
    split_and!; [done| |done]. intros [|i] o; simpl; [intros [= <-]; done|]. apply IH2.
Qed.

Lemma lease_exclusive_witness :
  ∃ l, granted ∅ "mac" "a" false 0 !! "mac" = Some l ∧ session_id l = "a".
Proof.
  destruct (lease_exclusive ∅ "mac" "a" false 0 [(Acquire "mac" "b" false, 10)]) as (l & Hl & Hs & _).
  - left. reflexivity.
  - exists l. split; [exact Hl|exact Hs].
Defined.
End Lease.

(** ** Failed logins *)

Module LoginLimit.
Section limiter.
Context {K : Type} `{Countable K}.

Record KeyState := mkKeyState {
  attempts : list Z;
  failures : Z;
  last_failure : option Z;
}.

Record RateLimiter := mkLimiter {
  state : gmap K KeyState;
  max_per_minute : Z;
}.

Definition limiter_new (max_per_minute : Z) : RateLimiter := mkLimiter ∅ max_per_minute.

(** Delays are in milliseconds. *)
Definition WINDOW : Z := 60 * 10 ^ 9.
Definition duration_since (now t : Z) : Z := Z.max 0 (now - t).
Definition entry_or_default (r : RateLimiter) (key : K) : KeyState :=
  default (mkKeyState [] 0 None) (state r !! key).

Definition recent (now : Z) (t : Z) : bool := duration_since now t <? WINDOW.

Definition delay_of (failures : Z) : Z :=
  if failures <=? 2 then 0 else Z.min (500 * (failures - 2)) 5000.

Definition check (r : RateLimiter) (key : K) (now : Z) : Result unit Z * RateLimiter :=
  let entry := entry_or_default r key in
  let attempts' := List.filter (recent now) (attempts entry) in
  let failures' := match last_failure entry with
    | Some last => if WINDOW <? duration_since now last then 0 else failures entry
    | None => failures entry
    end in
  let entry := mkKeyState attempts' failures' (last_failure entry) in
  let r' := mkLimiter (<[key := entry]> (state r)) (max_per_minute r) in
  if max_per_minute r <=? Z.of_nat (length attempts') then (Err tt, r')
  else (Ok (delay_of failures'), r').

(** [failures += 1] at the width of [u32]. *)
Definition record_failure (r : RateLimiter) (key : K) (now : Z) : RateLimiter :=
  let entry := entry_or_default r key in
  mkLimiter (<[key := mkKeyState (attempts entry ++ [now]) ((failures entry + 1) mod 2 ^ 32) (Some now)]>
    (state r)) (max_per_minute r).

Definition reset (r : RateLimiter) (key : K) : RateLimiter :=
  match state r !! key with
  | Some entry => mkLimiter (<[key := mkKeyState [] 0 (last_failure entry)]> (state r)) (max_per_minute r)
  | None => r
  end.

Inductive Op := Check (key : K) (now : Z) | Failure (key : K) (now : Z) | Reset (key : K).

Definition exec (r : RateLimiter) (op : Op) : RateLimiter :=
  match op with
  | Check k now => (check r k now).2
  | Failure k now => record_failure r k now
  | Reset k => reset r k
  end.

Definition op_time (op : Op) : option Z :=
  match op with Check _ t | Failure _ t => Some t | Reset _ => None end.

(** The failures of [key] since it last succeeded. *)
Definition log_step (key : K) (l : list Z) (op : Op) : list Z :=
  match op with
  | Failure k t => if k == key then l ++ [t] else l
  | Reset k => if k == key then [] else l
  | Check _ _ => l
  end.
Definition failures_since_reset (key : K) (ops : list Op) : list Z := fold_left (log_step key) ops [].

Lemma exec_other r op key :
  (match op with Check k _ | Failure k _ | Reset k => k end) ≠ key →
  entry_or_default (exec r op) key = entry_or_default r key.
Proof.
  intros Hk. unfold entry_or_default. destruct op as [k t|k t|k]; cbn [exec].
  - unfold check. case_match; simpl; by rewrite lookup_insert_ne.
  - simpl. by rewrite lookup_insert_ne.
  - unfold reset. destruct (state r !! k); simpl; [by rewrite lookup_insert_ne|done].
Qed.

Lemma exec_max r op : max_per_minute (exec r op) = max_per_minute r.
Proof.
  destruct op; cbn [exec]; [unfold check; by case_match|done|unfold reset; by case_match].
Qed.

(** Pruning at an earlier instant loses nothing recent. *)
Lemma recent_prune now t l : t <= now →
  List.filter (recent now) (List.filter (recent t) l) = List.filter (recent now) l.
Proof.
  intros Ht. induction l as [|x l IH]; simpl; [done|].
  destruct (recent t x) eqn:E; simpl; [by rewrite IH|].
  rewrite IH. unfold recent, duration_since in *. apply Z.ltb_ge in E.
  by rewrite (proj2 (Z.ltb_ge _ _)) by lia.
Qed.

(** What the limiter remembers of a key: its recent failures, and none of any
    kind right after a success. *)
Definition tracks (r : RateLimiter) (key : K) (log : list Z) (now : Z) : Prop :=
  List.filter (recent now) (attempts (entry_or_default r key)) = List.filter (recent now) log ∧
  (log = [] → failures (entry_or_default r key) = 0).

Lemma exec_tracks r op key log now :
  (∀ t, op_time op = Some t → t <= now) → tracks r key log now →
  tracks (exec r op) key (log_step key log op) now.
Proof.
  intros Ht [Ha Hf]. destruct op as [k t|k t|k]; destruct (decide (k = key)) as [->|Hk];
    try (unfold tracks; rewrite exec_other by done; cbn [log_step];
         rewrite ?bool_decide_eq_false_2 by done; done).
  all: cbn [log_step]; rewrite ?bool_decide_eq_true_2 by done; unfold tracks, entry_or_default in *.
  - specialize (Ht t eq_refl). cbn [exec]. unfold check.
    case_match; simpl; rewrite lookup_insert_eq; simpl; (split; [rewrite recent_prune by done; exact Ha|]);
      intros Hl; specialize (Hf Hl); unfold entry_or_default; repeat case_match; done.
  - simpl. rewrite lookup_insert_eq. simpl. unfold entry_or_default. rewrite !List.filter_app, Ha. split; [done|].
    by intros [_ [=]]%app_nil.
  - cbn [exec]. unfold reset. destruct (state r !! key) eqn:E; simpl; [by rewrite lookup_insert_eq|].
    by rewrite E.
Qed.

Lemma exec_all_tracks key now ops :
  Forall (λ op, ∀ t, op_time op = Some t → t <= now) ops →
  ∀ r log, tracks r key log now →
  tracks (fold_left exec ops r) key (fold_left (log_step key) ops log) now ∧
  max_per_minute (fold_left exec ops r) = max_per_minute r.
Proof.
  induction 1 as [|op ops Ho _ IH]; intros r log Ht; simpl; [done|].
  destruct (IH (exec r op) (log_step key log op)) as [IH1 IH2]; [by apply exec_tracks|].
  by rewrite IH2, exec_max.
Qed.

Lemma delay_of_bounds f : 0 <= delay_of f <= 5000.
Proof. unfold delay_of. destruct (Z.leb_spec f 2); lia. Qed.

(** a key is refused exactly while the failures recorded for it in the
    last minute, since its last success, have reached the cap, whatever the
    other keys do and however often it was checked; otherwise it is allowed
    with a delay of at most five seconds, and with none after a success. *)
Theorem limiter_exact max ops key now :
  Forall (λ op, ∀ t, op_time op = Some t → t <= now) ops →
  let r := fold_left exec ops (limiter_new max) in
  let log := failures_since_reset key ops in
  match (check r key now).1 with
  | Err _ => max <= Z.of_nat (length (List.filter (recent now) log))
  | Ok delay =>
    Z.of_nat (length (List.filter (recent now) log)) < max ∧ 0 <= delay <= 5000 ∧
    (log = [] → delay = 0)
  end.
Proof.
  intros HF r log.
  destruct (exec_all_tracks key now ops HF (limiter_new max) []) as [[Ha Hf] Hmax];
    [done|]. fold r in Ha, Hf, Hmax. change (max_per_minute (limiter_new max)) with max in Hmax.
  unfold check. rewrite Ha, Hmax. change (fold_left (log_step key) ops []) with log.
  destruct (max <=? _) eqn:Hc; cbn [fst]; [by apply Z.leb_le|]. apply Z.leb_gt in Hc.
  split_and!; [done|apply delay_of_bounds..|]. intros Hl. specialize (Hf Hl).
  rewrite Hf. repeat case_match; reflexivity.
Qed.
End limiter.

Lemma limiter_exact_witness :
  (check (fold_left exec [Failure 7%positive 0; Failure 7%positive 5; Failure 8%positive 6] (limiter_new 2))
     7%positive 9).1 = Err tt ∧
  2 <= Z.of_nat (length (List.filter (recent 9) [0; 5])).
Proof.
  split; [vm_compute; reflexivity|].
  refine (limiter_exact 2 [Failure 7%positive 0; Failure 7%positive 5; Failure 8%positive 6] 7%positive 9 _).
  repeat constructor; intros t [= <-]; lia.
Defined.
End LoginLimit.
