(* ===== verification/CharStr.v ===== *)
(** * Strings by character with byte offsets

    Rust addresses a [str] by byte offset and iterates it by character.  A
    [str] is here the list of its characters, each a Unicode scalar value; an
    offset counts the UTF-8 bytes before it.  Slicing at an offset that is not
    a character boundary panics, which is [None]. *)

From S2P Require Import Prelude.

#[local] Open Scope nat_scope.

Abbreviation char := Z.
Abbreviation str := (list Z).

(** [char::len_utf8]. *)
Definition len_utf8 (c : char) : nat :=
  if (c <? 0x80)%Z then 1 else if (c <? 0x800)%Z then 2 else if (c <? 0x10000)%Z then 3 else 4.

(** [str::len]. *)
Fixpoint str_len (s : str) : nat :=
  match s with [] => 0 | c :: s' => len_utf8 c + str_len s' end.

(** [char::to_ascii_lowercase] and [char::to_ascii_uppercase]. *)
Definition to_ascii_lowercase (c : char) : char :=
  if (65 <=? c)%Z && (c <=? 90)%Z then (c + 32)%Z else c.
Definition to_ascii_uppercase (c : char) : char :=
  if (97 <=? c)%Z && (c <=? 122)%Z then (c - 32)%Z else c.

(** A literal of ASCII characters. *)
Definition lit (s : string) : str := byte_to_Z <$> as_bytes s.

(** The character ['\n']. *)
Definition newline : char := 10%Z.

(** [split_at_checked]: the two halves at byte offset [n]. *)
Fixpoint split_at (s : str) (n : nat) : option (str * str) :=
  if n == 0 then Some ([], s)
  else match s with
  | [] => None
  | c :: s' =>
    if n <? len_utf8 c then None
    else '(p, q) ← split_at s' (n - len_utf8 c); Some (c :: p, q)
  end.

(** [&s[a..b]], [&s[a..]] and [&s[..b]]. *)
Definition slice (s : str) (a b : nat) : option str :=
  if b <? a then None else '(p, _) ← split_at s b; snd <$> split_at p a.
Definition slice_from (s : str) (a : nat) : option str := snd <$> split_at s a.
Definition slice_to (s : str) (b : nat) : option str := fst <$> split_at s b.

(** [str::starts_with] and [str::find] with a string pattern. *)
Fixpoint starts_with (s p : str) {struct p} : bool :=
  match p, s with
  | [], _ => true
  | a :: p', c :: s' => (a == c) && starts_with s' p'
  | _ :: _, [] => false
  end.

Fixpoint find (s p : str) : option nat :=
  if starts_with s p then Some 0
  else match s with
  | [] => None
  | c :: s' => Nat.add (len_utf8 c) <$> find s' p
  end.

(** [str::contains]. *)
Definition contains (s p : str) : bool := is_some (find s p).

(** [str::ends_with] with a character. *)
Definition ends_with (s : str) (c : char) : bool := last s == Some c.

(** [char::is_whitespace] (Unicode's White_Space) and [str::trim]. *)
Definition is_whitespace (c : char) : bool :=
  existsb (λ r, (r.1 <=? c)%Z && (c <=? r.2)%Z)
    [(9, 13); (32, 32); (0x85, 0x85); (0xA0, 0xA0); (0x1680, 0x1680); (0x2000, 0x200A);
     (0x2028, 0x2029); (0x202F, 0x202F); (0x205F, 0x205F); (0x3000, 0x3000)]%Z.

Fixpoint trim_start (s : str) : str :=
  match s with [] => [] | c :: s' => if is_whitespace c then trim_start s' else s end.
Definition trim (s : str) : str := reverse (trim_start (reverse (trim_start s))).

(** [char_indices]: the characters with their byte offsets, from [at]. *)
Fixpoint char_indices (at_ : nat) (s : str) : list (nat * char) :=
  match s with [] => [] | c :: s' => (at_, c) :: char_indices (at_ + len_utf8 c) s' end.

(** ** Lengths and offsets *)

Lemma len_utf8_pos c : 1 ≤ len_utf8 c.
Proof. unfold len_utf8. repeat case_match; lia. Qed.

Lemma str_len_app s t : str_len (s ++ t) = str_len s + str_len t.
Proof. induction s as [|c s IH]; simpl; [done|]. lia. Qed.

Lemma str_len_ge s : length s ≤ str_len s.
Proof. induction s as [|c s IH]; simpl; [done|]. pose proof (len_utf8_pos c). lia. Qed.

Lemma str_len_0 s : str_len s = 0 ↔ s = [].
Proof.
  split; [|by intros ->]. destruct s as [|c s]; [done|]. simpl. pose proof (len_utf8_pos c). lia.
Qed.

(** Offsets of character positions. *)
Definition off (s : str) (i : nat) : nat := str_len (take i s).

Lemma off_split s i j : i ≤ j → off s j = off s i + str_len (take (j - i) (drop i s)).
Proof.
  intros Hij. unfold off. rewrite <- str_len_app. f_equal.
  replace (take i s) with (take i (take j s)) by (rewrite take_take; f_equal; lia).
  rewrite <- (take_drop i (take j s)) at 1. f_equal. by rewrite skipn_firstn_comm.
Qed.

Lemma off_lt s i j : i < j → i < length s → off s i < off s j.
Proof.
  intros Hij Hi. rewrite (off_split s i j) by lia.
  pose proof (str_len_ge (take (j - i) (drop i s))) as H.
  rewrite length_take, length_drop in H. lia.
Qed.

Lemma off_le s i j : i ≤ j → off s i ≤ off s j.
Proof. intros Hij. rewrite (off_split s i j) by lia. lia. Qed.

Lemma off_lt_inv s i j : off s i < off s j → i < j.
Proof. intros H. destruct (decide (i < j)); [done|]. pose proof (off_le s j i). lia. Qed.

Lemma off_le_inv s i j : j < length s → off s i ≤ off s j → i ≤ j.
Proof. intros Hj H. destruct (decide (i ≤ j)); [done|]. pose proof (off_lt s j i). lia. Qed.

Lemma off_inj s i j : i ≤ length s → j ≤ length s → off s i = off s j → i = j.
Proof.
  intros Hi Hj H. destruct (lt_eq_lt_dec i j) as [[Hlt| ->]|Hlt]; [|done|];
    apply (off_lt s) in Hlt; lia.
Qed.

Lemma off_S s i c : s !! i = Some c → off s (S i) = off s i + len_utf8 c.
Proof. intros Hc. unfold off. rewrite (take_S_r _ _ _ Hc), str_len_app. simpl. lia. Qed.

Lemma off_length s : off s (length s) = str_len s.
Proof. unfold off. by rewrite take_ge. Qed.

Lemma off_app s t i : i ≤ length s → off (s ++ t) i = off s i.
Proof. intros Hi. unfold off. by rewrite take_app_le. Qed.

Lemma off_0 s : off s 0 = 0.
Proof. unfold off. by rewrite take_0. Qed.

Lemma off_drop text i k : off text i + off (drop i text) k = off text (i + k).
Proof. rewrite (off_split text i (i + k)) by lia. unfold off. do 3 f_equal. lia. Qed.

(** ** Slices *)

Lemma split_at_app p q : split_at (p ++ q) (str_len p) = Some (p, q).
Proof.
  induction p as [|c p IH]; simpl; [by destruct q|]. pose proof (len_utf8_pos c).
  rewrite bool_decide_eq_false_2 by lia.
  rewrite (proj2 (Nat.ltb_ge _ _)) by lia.
  by rewrite Nat.add_comm, Nat.add_sub, IH.
Qed.

Lemma split_at_off s i : i ≤ length s → split_at s (off s i) = Some (take i s, drop i s).
Proof. intros _. unfold off. by rewrite <- (take_drop i s) at 1; rewrite split_at_app. Qed.

Lemma split_at_Some s n p q : split_at s n = Some (p, q) → s = p ++ q ∧ n = str_len p.
Proof.
  revert n p q. induction s as [|c s IH]; intros n p q; simpl.
  - case_bool_decide; [|done]. by intros [= <- <-].
  - case_bool_decide; [by intros [= <- <-]|]. destruct (n <? len_utf8 c) eqn:E; [done|].
    destruct (split_at s (n - len_utf8 c)) as [[p' q']|] eqn:Hs; simpl; [|done].
    intros [= <- <-]. apply IH in Hs as [-> Hn]. apply Nat.ltb_ge in E. simpl. split; [done|lia].
Qed.

Lemma slice_from_off s i : i ≤ length s → slice_from s (off s i) = Some (drop i s).
Proof. intros Hi. unfold slice_from. by rewrite split_at_off. Qed.

Lemma slice_to_off s i : i ≤ length s → slice_to s (off s i) = Some (take i s).
Proof. intros Hi. unfold slice_to. by rewrite split_at_off. Qed.

Lemma slice_off s i j :
  i ≤ j → j ≤ length s → slice s (off s i) (off s j) = Some (take (j - i) (drop i s)).
Proof.
  intros Hij Hj. unfold slice. pose proof (off_le s i j Hij).
  rewrite (proj2 (Nat.ltb_ge _ _)) by lia. rewrite split_at_off by done. simpl.
  replace (off s i) with (off (take j s) i)
    by (unfold off; rewrite take_take; repeat f_equal; lia).
  rewrite split_at_off by (rewrite length_take; lia). simpl. f_equal.
  by rewrite skipn_firstn_comm.
Qed.

(** ** Searching *)

Lemma starts_with_spec s p : starts_with s p = true ↔ ∃ q, s = p ++ q.
Proof.
  revert s. induction p as [|a p IH]; intros s; simpl.
  - split; [intros _; by exists s|done].
  - destruct s as [|c s]; [split; [done|by intros [q ?]]|].
    rewrite andb_true_iff, bool_decide_eq_true, IH. naive_solver.
Qed.

(** [find] gives the offset of the first occurrence. *)
Lemma find_Some s p n :
  find s p = Some n →
  ∃ i, i ≤ length s ∧ n = off s i ∧ starts_with (drop i s) p = true ∧
       ∀ j, j < i → starts_with (drop j s) p = false.
Proof.
  revert n. induction s as [|c s IH]; intros n; simpl.
  - destruct (starts_with [] p) eqn:E; [|done]. intros [= <-]. exists 0. split_and!; [done..|lia].
  - destruct (starts_with (c :: s) p) eqn:E.
    + intros [= <-]. exists 0. split_and!; [lia|done|done|lia].
    + intros (k & (i & Hi & -> & Hs & Hlt)%IH & ->)%fmap_Some. exists (S i).
      split_and!; [simpl; lia|done|done|]. intros [|j] Hj; [done|]. apply Hlt. lia.
Qed.

Lemma find_None s p : find s p = None → ∀ j, j ≤ length s → starts_with (drop j s) p = false.
Proof.
  induction s as [|c s IH]; simpl.
  - destruct (starts_with [] p) eqn:E; [done|]. intros _ j Hj. by rewrite drop_nil.
  - destruct (starts_with (c :: s) p) eqn:E; [done|].
    intros Hn%fmap_None [|j] Hj; [done|]. apply IH; [done|lia].
Qed.

Lemma char_indices_lookup s at_ i :
  char_indices at_ s !! i = (λ c, (at_ + off s i, c)) <$> s !! i.
Proof.
  revert at_ i. induction s as [|c s IH]; intros at_ [|i]; simpl; try done.
  - unfold off. simpl. by rewrite Nat.add_0_r.
  - rewrite IH. unfold off. simpl. destruct (s !! i); simpl; [|done]. do 2 f_equal. lia.
Qed.

(** ** UTF-8

    [str::as_bytes] of the characters and [String::from_utf8] of bytes. *)

(** The invariant of Rust's [char]: a Unicode scalar value. *)
Definition scalar (c : char) : Prop := (0 ≤ c < 0xD800 ∨ 0xE000 ≤ c ≤ 0x10FFFF)%Z.

#[export] Instance scalar_dec c : Decision (scalar c).
Proof. unfold scalar. apply _. Defined.

#[local] Open Scope Z_scope.

Definition encode_char (c : char) : bytes :=
  byte_of_Z <$>
  if c <? 0x80 then [c]
  else if c <? 0x800 then [0xC0 + c / 64; 0x80 + c mod 64]
  else if c <? 0x10000 then [0xE0 + c / 4096; 0x80 + (c / 64) mod 64; 0x80 + c mod 64]
  else [0xF0 + c / 262144; 0x80 + (c / 4096) mod 64; 0x80 + (c / 64) mod 64; 0x80 + c mod 64].

Definition encode (s : str) : bytes := s ≫= encode_char.

(** The payload of a continuation byte. *)
Definition cont (b : byte) : Z := byte_to_Z b - 0x80.

Fixpoint decode (l : bytes) : option str :=
  match l with
  | [] => Some []
  | b0 :: r0 =>
    if in_range 0 0x7F b0 then cons (byte_to_Z b0) <$> decode r0
    else match r0 with
    | [] => None
    | b1 :: r1 =>
      if in_range 0xC2 0xDF b0 then
        if utf8_cont b1 then cons ((byte_to_Z b0 - 0xC0) * 64 + cont b1) <$> decode r1 else None
      else match r1 with
      | [] => None
      | b2 :: r2 =>
        if in_range 0xE0 0xEF b0 then
          if (if in_range 0xE0 0xE0 b0 then in_range 0xA0 0xBF b1
              else if in_range 0xED 0xED b0 then in_range 0x80 0x9F b1
              else utf8_cont b1) && utf8_cont b2
          then cons ((byte_to_Z b0 - 0xE0) * 4096 + cont b1 * 64 + cont b2) <$> decode r2 else None
        else match r2 with
        | [] => None
        | b3 :: r3 =>
          if in_range 0xF0 0xF4 b0 &&
             (if in_range 0xF0 0xF0 b0 then in_range 0x90 0xBF b1
              else if in_range 0xF4 0xF4 b0 then in_range 0x80 0x8F b1
              else utf8_cont b1) && utf8_cont b2 && utf8_cont b3
          then cons ((byte_to_Z b0 - 0xF0) * 262144 + cont b1 * 4096 + cont b2 * 64 + cont b3) <$> decode r3
          else None
        end
      end
    end
  end.

Lemma in_range_of lo hi z :
  0 ≤ z < 256 → in_range lo hi (byte_of_Z z) = (lo <=? z) && (z <=? hi).
Proof. intros Hz. unfold in_range. by rewrite byte_to_of, Z.mod_small by lia. Qed.

Lemma cont_of z : 0 ≤ z < 64 → cont (byte_of_Z (0x80 + z)) = z ∧ utf8_cont (byte_of_Z (0x80 + z)) = true.
Proof.
  intros Hz. unfold cont, utf8_cont. rewrite in_range_of, byte_to_of, Z.mod_small by lia. split; [lia|].
  rewrite andb_true_iff, !Z.leb_le. lia.
Qed.

(** Decide a comparison of integers under a [bool]. *)
Ltac zb :=
  repeat match goal with
  | |- context [?a <=? ?b] =>
    first [rewrite (proj2 (Z.leb_le a b)) by lia | rewrite (proj2 (Z.leb_gt a b)) by lia]
  end.

(** Split the comparisons left under a [bool]. *)
Ltac zcases :=
  symmetry; repeat case_match; try done;
  rewrite ?andb_true_iff, ?andb_false_iff, ?Z.leb_le, ?Z.leb_gt in *; lia.

(** A number by its digits to base 64. *)
Lemma base64_digits c :
  0 ≤ c → ∃ q r, c = q * 64 + r ∧ 0 ≤ q ∧ 0 ≤ r < 64 ∧ c / 64 = q ∧ c mod 64 = r.
Proof.
  intros Hc. exists (c / 64), (c mod 64). pose proof (Z.div_mod c 64 ltac:(lia)).
  pose proof (Z.mod_pos_bound c 64 ltac:(lia)). pose proof (Z.div_pos c 64 Hc ltac:(lia)). lia.
Qed.

Lemma decode_char c s : scalar c → decode (encode_char c ++ s) = cons c <$> decode s.
Proof.
  intros Hc. unfold scalar in Hc. unfold encode_char.
  replace (c / 262144) with (c / 64 / 64 / 64) by (rewrite !Z.div_div; done).
  replace (c / 4096) with (c / 64 / 64) by (rewrite !Z.div_div; done).
  destruct (base64_digits c ltac:(lia)) as (q & r & Hcq & Hq & Hr & -> & ->).
  destruct (base64_digits q Hq) as (q' & r' & Hqq & Hq' & Hr' & -> & ->).
  destruct (base64_digits q' Hq') as (q'' & r'' & Hqq' & Hq'' & Hr'' & -> & ->).
  destruct (cont_of r Hr) as [C1 C2], (cont_of r' Hr') as [D1 D2], (cont_of r'' Hr'') as [F1 F2].
  destruct (c <? 0x80) eqn:E1; [apply Z.ltb_lt in E1|apply Z.ltb_ge in E1].
  { cbn. rewrite in_range_of, byte_to_of, Z.mod_small by lia. by zb. }
  destruct (c <? 0x800) eqn:E2; [apply Z.ltb_lt in E2|apply Z.ltb_ge in E2].
  { cbn [fmap list_fmap app decode]. rewrite !in_range_of, C2, C1, byte_to_of, Z.mod_small by lia. zb.
    cbn [andb]. do 2 f_equal. lia. }
  destruct (c <? 0x10000) eqn:E3; [apply Z.ltb_lt in E3|apply Z.ltb_ge in E3];
    cbn [fmap list_fmap app decode];
    rewrite !in_range_of, C2, D2, C1, D1, byte_to_of, Z.mod_small by lia;
    [|rewrite F2, F1]; zb; cbn [andb]; rewrite !andb_true_r;
    (match goal with |- (if ?b then _ else _) = _ => replace b with true end;
      [do 2 f_equal; lia|zcases]).
Qed.

Lemma decode_encode s : Forall scalar s → decode (encode s) = Some s.
Proof.
  induction 1 as [|c s Hc HF IH]; [done|]. unfold encode in *. cbn [mbind list_bind].
  by rewrite decode_char, IH.
Qed.
