(* ===== verification/SecretMask.v ===== *)
(** * Masking of secret values

    src/service/secret_mask.rs: the filter between the output of a command and
    the agent that reads it.  [SecretMasker] compiles the secret values;
    [mask] finds their occurrences, verbatim by [str::find] and spread out by
    a scan of the text's alphanumeric skeleton, and replaces the merged ranges.
    [char::is_alphanumeric] (Unicode's tables) is a parameter.  A panic of a
    slice, an index or a subtraction, and running out of fuel, are [None]. *)

From S2P Require Import Prelude CharStr.

#[local] Open Scope nat_scope.

Definition MASK : str := lit "********".
Definition MIN_SECRET_CHARS : nat := 4.
Definition MIN_CANON_CHARS : nat := 6.
Definition MAX_GAP_CHARS : nat := 3.

Definition SENSITIVE_NAME_MARKS : list str :=
  lit <$> ["TOKEN"; "SECRET"; "PASSWORD"; "PASSWD"; "API_KEY"; "APIKEY"; "CREDENTIAL"; "AUTH";
           "PRIVATE_KEY"; "ACCESS_KEY"; "BEARER"].

Definition is_sensitive_env_name (name : str) : bool :=
  let up := to_ascii_uppercase <$> name in
  existsb (contains up) SENSITIVE_NAME_MARKS.

Record Secret := { exact : str; canon : list char }.

Definition SecretMasker := list Secret.

(** Rust's [Cow<str>]. *)
Inductive Cow := Borrowed (s : str) | Owned (s : str).
Definition into_owned (c : Cow) : str := match c with Borrowed s | Owned s => s end.

(** [Ord] on strings: the order of the UTF-8 bytes is the order of the
    scalar values. *)
Fixpoint str_cmp (a b : str) : comparison :=
  match a, b with
  | [], [] => Eq
  | [], _ :: _ => Lt
  | _ :: _, [] => Gt
  | x :: a', y :: b' => match (x ?= y)%Z with Eq => str_cmp a' b' | c => c end
  end.

(** The comparison of the sort in [new]: longest first, then by value. *)
Definition secret_le (a b : str) : bool :=
  match Nat.compare (str_len b) (str_len a) with
  | Eq => match str_cmp a b with Gt => false | _ => true end
  | Lt => true
  | Gt => false
  end.

(** [Vec::dedup]: of equal neighbours the first stays. *)
Fixpoint dedup {A} `{EqDecision A} (l : list A) : list A :=
  match l with
  | [] => []
  | x :: l' =>
    match dedup l' with
    | y :: r => if x == y then y :: r else x :: y :: r
    | [] => [x]
    end
  end.

Record SkelChar := { start : nat; end_ : nat; ch : char; char_pos : nat }.

(** Subtraction on [usize], which panics below zero. *)
Definition usub (a b : nat) : option nat := if a <? b then None else Some (a - b).

(** [(usize, usize)] in lexicographic order. *)
Definition range_le (a b : nat * nat) : bool :=
  (a.1 <? b.1) || ((a.1 =? b.1) && (a.2 <=? b.2)).

Section mask.
Context (is_alphanumeric : char → bool).

Definition canon_chars (s : str) : list char :=
  to_ascii_lowercase <$> List.filter is_alphanumeric s.

Definition new (values : list str) : SecretMasker :=
  let vals := List.filter (λ v, MIN_SECRET_CHARS <=? length v) values in
  let vals := dedup (sort_by secret_le vals) in
  (λ v, let canon := canon_chars v in
        {| exact := v; canon := if MIN_CANON_CHARS <=? length canon then canon else [] |}) <$> vals.

Definition is_empty (m : SecretMasker) : bool := match m with [] => true | _ => false end.

(** The loop over [char_indices().enumerate()], from position [pos]. *)
Fixpoint skeleton_from (pos : nat) (cs : list (nat * char)) : list SkelChar :=
  match cs with
  | [] => []
  | (start, c) :: cs' =>
    if is_alphanumeric c then
      {| start := start; end_ := start + len_utf8 c; ch := to_ascii_lowercase c; char_pos := pos |}
        :: skeleton_from (S pos) cs'
    else skeleton_from (S pos) cs'
  end.

Definition skeleton (text : str) : list SkelChar := skeleton_from 0 (char_indices 0 text).
End mask.

(** The loop [for j in 1..m] of [find_interleaved], from [j]; [js] lists the
    rounds that are left. *)
Fixpoint interleaved_at (skel : list SkelChar) (canon : list char) (i : nat) (js : list nat) :
    option bool :=
  match js with
  | [] => Some true
  | j :: js' =>
    k ← skel !! (i + j);
    c ← canon !! j;
    if ch k != c then Some false
    else
      prev ← skel !! (i + j - 1);
      d ← usub (char_pos k) (char_pos prev);
      gap ← usub d 1;
      if MAX_GAP_CHARS <? gap then Some false else interleaved_at skel canon i js'
  end.

Fixpoint find_interleaved_loop (fuel : nat) (skel : list SkelChar) (canon : list char) (i : nat) :
    option (list (nat * nat)) :=
  match fuel with
  | O => None
  | S fuel' =>
    let m := length canon in
    if i + m <=? length skel then
      k ← skel !! i;
      c ← canon !! 0;
      ok ← (if ch k == c then interleaved_at skel canon i (seq 1 (m - 1)) else Some false);
      if (ok : bool) then
        e ← skel !! (i + m - 1);
        rest ← find_interleaved_loop fuel' skel canon (i + m);
        Some ((start k, end_ e) :: rest)
      else find_interleaved_loop fuel' skel canon (i + 1)
    else Some []
  end.

Definition find_interleaved (skel : list SkelChar) (canon : list char) : option (list (nat * nat)) :=
  find_interleaved_loop (S (length skel)) skel canon 0.

(** The loop that collects the verbatim occurrences of one secret. *)
Fixpoint find_exact_loop (fuel : nat) (text exact : str) (from : nat) : option (list (nat * nat)) :=
  match fuel with
  | O => None
  | S fuel' =>
    rest ← slice_from text from;
    match find rest exact with
    | None => Some []
    | Some i =>
      let start := from + i in
      more ← find_exact_loop fuel' text exact (start + str_len exact);
      Some ((start, start + str_len exact) :: more)
    end
  end.

Definition find_exact (text exact : str) : option (list (nat * nat)) :=
  find_exact_loop (S (length text)) text exact 0.

(** The merge of sorted ranges; [acc] is [merged], last first. *)
Fixpoint merge_ranges (acc : list (nat * nat)) (rs : list (nat * nat)) : list (nat * nat) :=
  match rs with
  | [] => reverse acc
  | (s, e) :: rs' =>
    match acc with
    | (ps, pe) :: acc' =>
      if s <=? pe then merge_ranges ((ps, if pe <? e then e else pe) :: acc') rs'
      else merge_ranges ((s, e) :: acc) rs'
    | [] => merge_ranges [(s, e)] rs'
    end
  end.

(** The copying loop of [replace_ranges], from offset [at_]. *)
Fixpoint copy_masked (text : str) (at_ : nat) (merged : list (nat * nat)) : option str :=
  match merged with
  | [] => slice_from text at_
  | (s, e) :: rest =>
    seg ← slice text at_ s;
    out ← copy_masked text e rest;
    Some (seg ++ MASK ++ out)
  end.

Definition replace_ranges (text : str) (ranges : list (nat * nat)) : option str :=
  copy_masked text 0 (merge_ranges [] (sort_by range_le ranges)).

(** [for s in &self.secrets], collecting ranges. *)
Fixpoint collect {A} (f : A → option (list (nat * nat))) (l : list A) : option (list (nat * nat)) :=
  match l with
  | [] => Some []
  | x :: l' => a ← f x; b ← collect f l'; Some (a ++ b)
  end.

Section masking.
Context (is_alphanumeric : char → bool).

Definition mask (m : SecretMasker) (text : str) : option Cow :=
  if is_empty m || (text == []) then Some (Borrowed text)
  else
    exacts ← collect (λ s, find_exact text (exact s)) m;
    ranges ←
      (if existsb (λ s, canon s != []) m then
         let skel := skeleton is_alphanumeric text in
         more ← collect (λ s, if canon s != [] then find_interleaved skel (canon s) else Some []) m;
         Some (exacts ++ more)
       else Some exacts);
    if ranges == [] then Some (Borrowed text)
    else Owned <$> replace_ranges text ranges.
End masking.

(** ** Merging

    Ranges are merged into separated blocks: every range lies in a block, and
    every point of a block in a range that lies in the block. *)

(** Blocks in order, not empty and with something between each two. *)
Fixpoint separated (lo : nat) (m : list (nat * nat)) : Prop :=
  match m with
  | [] => True
  | (s, e) :: m' => lo ≤ s ∧ s < e ∧ separated (S e) m'
  end.

Definition within (r m : nat * nat) : Prop := m.1 ≤ r.1 ∧ r.2 ≤ m.2.

(** [merge_ranges] from a last block [(ps, pe)]. *)
Fixpoint merge_from (ps pe : nat) (rs : list (nat * nat)) : list (nat * nat) :=
  match rs with
  | [] => [(ps, pe)]
  | (s, e) :: rs' =>
    if s <=? pe then merge_from ps (if pe <? e then e else pe) rs'
    else (ps, pe) :: merge_from s e rs'
  end.

Lemma merge_ranges_from ps pe acc rs :
  merge_ranges ((ps, pe) :: acc) rs = reverse acc ++ merge_from ps pe rs.
Proof.
  revert ps pe acc. induction rs as [|[s e] rs IH]; intros ps pe acc; simpl.
  - by rewrite reverse_cons.
  - destruct (s <=? pe); rewrite IH; [done|]. by rewrite reverse_cons, <- app_assoc.
Qed.

Definition proper (r : nat * nat) : Prop := r.1 < r.2.

Lemma merge_from_separated ps pe rs :
  ps < pe → Forall proper rs → separated ps (merge_from ps pe rs).
Proof.
  assert (∀ lo lo' m, lo ≤ lo' → separated lo' m → separated lo m) as Hmono.
  { intros lo lo' [|[s e] m]; simpl; [done|]. intros. naive_solver lia. }
  revert ps pe. induction rs as [|[s e] rs IH]; intros ps pe Hp HF; simpl; [done|].
  apply Forall_cons in HF as [Hse HF]. unfold proper in Hse. simpl in Hse.
  destruct (s <=? pe) eqn:E; [apply IH; [case_match; [apply Nat.ltb_lt in H; lia|lia]|done]|].
  apply Nat.leb_gt in E. simpl. split_and!; [done..|]. eapply Hmono; [|by apply IH]. lia.
Qed.

(** What merging keeps: every range lies in a block, every point of a block
    in a range of that block. *)
Definition covers (rs m : list (nat * nat)) : Prop :=
  (∀ r, r ∈ rs → ∃ b, b ∈ m ∧ within r b) ∧
  (∀ b i, b ∈ m → b.1 ≤ i < b.2 → ∃ r, r ∈ rs ∧ within r b ∧ r.1 ≤ i < r.2).

Lemma covers_absorb ps pe pe' s e rs m :
  ps ≤ s ≤ pe → pe' = (if pe <? e then e else pe) →
  covers ((ps, pe') :: rs) m → covers ((ps, pe) :: (s, e) :: rs) m.
Proof.
  intros Hs Hpe' [Hin Hcov].
  assert (pe ≤ pe' ∧ e ≤ pe' ∧ (pe' = e ∨ pe' = pe)) as (H1 & H2 & H3).
  { subst. destruct (pe <? e) eqn:E; [apply Nat.ltb_lt in E|apply Nat.ltb_ge in E]; lia. }
  destruct (Hin (ps, pe') ltac:(left)) as (b & Hb & Hw). split.
  - intros r [->|[->|Hr]%elem_of_cons]%elem_of_cons.
    + exists b. unfold within in *. simpl in *. split; [done|lia].
    + exists b. unfold within in *. simpl in *. split; [done|lia].
    + apply Hin. by right.
  - intros b' i Hb' Hi. destruct (Hcov b' i Hb' Hi) as (r & [->|Hr]%elem_of_cons & Hw' & Hri).
    + unfold within in *. simpl in *. destruct (decide (i < pe)).
      * exists (ps, pe). split; [by left|]. simpl. lia.
      * exists (s, e). split; [right; left|]. simpl. lia.
    + exists r. split; [by do 2 right|done].
Qed.

Lemma covers_cons r rs m : covers rs m → covers (r :: rs) (r :: m).
Proof.
  intros [Hin Hcov]. split.
  - intros r' [->|Hr]%elem_of_cons; [exists r; split; [by left|by split]|].
    destruct (Hin r' Hr) as (b & Hb & Hw). exists b. split; [by right|done].
  - intros b i [->|Hb]%elem_of_cons Hi; [exists r; split_and!; [by left|by split|lia..]|].
    destruct (Hcov b i Hb Hi) as (r' & Hr' & Hw). exists r'. split; [by right|done].
Qed.

Abbreviation by_start := (StronglySorted (λ a b : nat * nat, a.1 ≤ b.1)).

Lemma merge_from_covers ps pe rs :
  by_start ((ps, pe) :: rs) → covers ((ps, pe) :: rs) (merge_from ps pe rs).
Proof.
  revert ps pe. induction rs as [|[s e] rs IH]; intros ps pe Hs; cbn [merge_from].
  - apply covers_cons. split; [by intros ? ?%not_elem_of_nil|by intros ? ? ?%not_elem_of_nil].
  - apply StronglySorted_inv in Hs as [Hs [Hps HF]%Forall_cons]. simpl in Hps.
    destruct (s <=? pe) eqn:E; [apply Nat.leb_le in E|by apply covers_cons, IH].
    eapply covers_absorb; [split; [exact Hps|exact E]|reflexivity|]. apply IH.
    apply StronglySorted_inv in Hs as [Hs _]. by constructor.
Qed.

Lemma merge_ranges_spec rs :
  Forall proper rs → by_start rs →
  separated 0 (merge_ranges [] rs) ∧ covers rs (merge_ranges [] rs).
Proof.
  destruct rs as [|[s e] rs]; intros HF Hs; cbn [merge_ranges].
  - split; [done|]. split; [by intros ? ?%not_elem_of_nil|by intros ? ? ?%not_elem_of_nil].
  - rewrite merge_ranges_from. cbn [reverse app]. split; [|by apply merge_from_covers].
    apply Forall_cons in HF as [Hse HF]. pose proof (merge_from_separated s e rs Hse HF) as H.
    destruct (merge_from s e rs) as [|[a b] m]; simpl in *; [done|]. naive_solver lia.
Qed.

Lemma range_sort_by_start rs : by_start (sort_by range_le rs).
Proof.
  assert (StronglySorted (λ a b, range_le a b = true) (sort_by range_le rs)) as H.
  { apply sort_by_StronglySorted; unfold range_le.
    - intros [a b] [c d]; simpl. rewrite orb_false_iff, andb_false_iff, orb_true_iff, andb_true_iff.
      rewrite Nat.ltb_ge, Nat.ltb_lt, Nat.eqb_neq, Nat.eqb_eq, Nat.leb_gt, Nat.leb_le. lia.
    - intros [a b] [c d] [e f]; simpl. rewrite !orb_true_iff, !andb_true_iff.
      rewrite !Nat.ltb_lt, !Nat.eqb_eq, !Nat.leb_le. lia. }
  induction H as [|x l Hl IH HF]; constructor; [done|]. eapply Forall_impl; [exact HF|].
  intros y. unfold range_le. rewrite orb_true_iff, andb_true_iff, Nat.ltb_lt, Nat.eqb_eq. lia.
Qed.

(** ** Blocks of characters *)

(** The byte range of a range of characters. *)
Definition brange (text : str) (r : nat * nat) : nat * nat := (off text r.1, off text r.2).

Definition in_text (text : str) (r : nat * nat) : Prop := r.1 < r.2 ∧ r.2 ≤ length text.

(** The text from position [at_] with each block of characters replaced. *)
Fixpoint redact (text : str) (at_ : nat) (blocks : list (nat * nat)) : str :=
  match blocks with
  | [] => drop at_ text
  | (s, e) :: rest => take (s - at_) (drop at_ text) ++ MASK ++ redact text e rest
  end.

Lemma copy_masked_redact text at_ blocks :
  at_ ≤ length text → separated at_ blocks → Forall (in_text text) blocks →
  copy_masked text (off text at_) (brange text <$> blocks) = Some (redact text at_ blocks).
Proof.
  revert at_. induction blocks as [|[s e] blocks IH]; intros at_ Hat Hs HF;
    [by apply slice_from_off|].
  - rewrite fmap_cons. unfold brange at 1. cbn [copy_masked redact fst snd].
    apply Forall_cons in HF as [[Hse He] HF]. simpl in *. destruct Hs as (Has & _ & Hs).
    rewrite slice_off by lia. cbn [mbind option_bind]. rewrite IH; [done|done| |done].
    destruct blocks as [|[s' e'] blocks]; [done|]. simpl in *. naive_solver lia.
Qed.

Lemma separated_chars text lo blocks :
  Forall (in_text text) blocks → separated (off text lo) (brange text <$> blocks) →
  lo ≤ length text → separated lo blocks.
Proof.
  revert lo. induction blocks as [|[s e] blocks IH]; intros lo HF Hs Hlo; [done|].
  apply Forall_cons in HF as [[Hse He] HF]. destruct Hs as (H1 & H2 & Hs). cbn [fst snd] in *.
  split_and!; [apply (off_le_inv text); lia|done|].
  destruct blocks as [|[s' e'] blocks]; [done|]. destruct Hs as (H3 & H4 & Hs).
  apply Forall_cons in HF as HF'. destruct HF' as [[Hse' He'] _]. simpl in *.
  assert (e < s') by (apply (off_lt_inv text); lia).
  cut (separated e ((s', e') :: blocks)); [simpl; naive_solver lia|].
  apply IH; [done| |done]. split_and!; [unfold brange; simpl; lia|done|done].
Qed.

(** Blocks whose ends are ends of character ranges are blocks of characters. *)
Lemma covers_chars text R m :
  Forall (in_text text) R → separated 0 m → covers (brange text <$> R) m →
  ∃ blocks, m = brange text <$> blocks ∧ Forall (in_text text) blocks ∧ covers R blocks.
Proof.
  intros HR Hsep [Hin Hcov].
  assert (∀ lo l, separated lo l → ∀ b, b ∈ l → proper b) as Hprop.
  { clear. intros lo l. revert lo. induction l as [|[s e] l IH]; intros lo Hs b Hb;
      [by apply not_elem_of_nil in Hb|]. destruct Hs as (_ & Hse & Hs).
    apply elem_of_cons in Hb as [->|Hb]; [done|]. by eapply IH. }
  assert (∀ b, b ∈ m → ∃ c, b = brange text c ∧ in_text text c) as Hc.
  { intros b Hb. pose proof (Hprop _ _ Hsep b Hb) as Hp. unfold proper in Hp.
    destruct (Hcov b b.1 Hb ltac:(lia)) as (r1 & (c1 & -> & Hc1)%list_elem_of_fmap & Hw1 & Hi1).
    destruct (Hcov b (b.2 - 1) Hb ltac:(lia)) as (r2 & (c2 & -> & Hc2)%list_elem_of_fmap & Hw2 & Hi2).
    rewrite Forall_forall in HR. destruct (HR _ Hc1), (HR _ Hc2).
    unfold within, brange in *. simpl in *. exists (c1.1, c2.2). unfold in_text. simpl.
    destruct b as [b1 b2]. simpl in *. split; [f_equal; simpl; lia|]. split; [|done].
    apply (off_lt_inv text). lia. }
  assert (∃ blocks, m = brange text <$> blocks ∧ Forall (in_text text) blocks) as (blocks & -> & HF).
  { clear -Hc. induction m as [|b m IH]; [by exists []|].
    destruct (Hc b ltac:(left)) as (c & -> & Hin). destruct IH as (bs & -> & HF).
    { intros b Hb. apply Hc. by right. } exists (c :: bs). split; [done|by constructor]. }
  exists blocks. split_and!; [done..|]. rewrite !Forall_forall in HR, HF. split.
  - intros r Hr. destruct (Hin (brange text r)) as (b & (c & -> & Hc')%list_elem_of_fmap & Hw).
    { by apply list_elem_of_fmap_2. }
    exists c. split; [done|]. destruct (HR _ Hr), (HF _ Hc'). unfold within, brange in *. simpl in *.
    split; [apply (off_le_inv text); lia|].
    destruct (decide (r.2 ≤ c.2)); [done|]. pose proof (off_lt text c.2 r.2). lia.
  - intros c i Hc' Hi. destruct (HF _ Hc').
    destruct (Hcov (brange text c) (off text i)) as (r & (r' & -> & Hr')%list_elem_of_fmap & Hw & Hri).
    { by apply list_elem_of_fmap_2. }
    { unfold brange. simpl. split; [apply off_le; lia|apply off_lt; lia]. }
    exists r'. split; [done|]. destruct (HR _ Hr'). unfold within, brange in *. simpl in *. split_and!.
    + apply (off_le_inv text); lia.
    + destruct (decide (r'.2 ≤ c.2)); [done|]. pose proof (off_lt text c.2 r'.2). lia.
    + apply (off_le_inv text); lia.
    + apply (off_lt_inv text). lia.
Qed.

Lemma replace_ranges_spec text R :
  Forall (in_text text) R →
  ∃ blocks, replace_ranges text (brange text <$> R) = Some (redact text 0 blocks) ∧
    separated 0 blocks ∧ Forall (in_text text) blocks ∧ covers R blocks.
Proof.
  intros HR. unfold replace_ranges. set (S := sort_by range_le (brange text <$> R)).
  assert (Forall proper S) as Hp.
  { unfold S. rewrite sort_by_perm. apply Forall_fmap. eapply Forall_impl; [exact HR|].
    intros r [Hr1 Hr2]. apply off_lt; lia. }
  destruct (merge_ranges_spec S Hp (range_sort_by_start _)) as [Hsep Hcov].
  assert (covers (brange text <$> R) (merge_ranges [] S)) as Hcov'.
  { destruct Hcov as [H1 H2]. split; [intros r Hr; apply H1; unfold S; by rewrite sort_by_perm|].
    intros b i Hb Hi. destruct (H2 b i Hb Hi) as (r & Hr & ?). exists r. split; [|done].
    unfold S in Hr. by rewrite sort_by_perm in Hr. }
  destruct (covers_chars text R _ HR Hsep Hcov') as (blocks & Em & HF & HC).
  rewrite Em in *. pose proof (separated_chars text 0 blocks HF Hsep ltac:(lia)) as Hs.
  exists blocks. split_and!; [|done..]. pose proof (copy_masked_redact text 0 blocks) as Hc.
  rewrite off_0 in Hc. apply Hc; [lia|done..].
Qed.

(** ** Occurrences *)

(** The two forms of a secret value [v] that are hunted for. *)
Inductive form := Verbatim | Spread.

Section occurrences.
Context (is_alphanumeric : char → bool).
#[local] Notation alnum := (λ c, is_alphanumeric c = true).
#[local] Notation filler := (λ c, is_alphanumeric c = false).

(** The characters [cs] in order, ignoring case, each after at most
    [MAX_GAP_CHARS] characters of filler. *)
Inductive spread_tail : list char → str → Prop :=
| spread_nil : spread_tail [] []
| spread_cons fill x cs w :
    Forall filler fill → length fill ≤ MAX_GAP_CHARS → alnum x → spread_tail cs w →
    spread_tail (to_ascii_lowercase x :: cs) (fill ++ x :: w).

(** [w] is the value [v] in form [f].  A spread value starts with its first
    alphanumeric character and ends with its last. *)
Definition shows (f : form) (v w : str) : Prop :=
  match f with
  | Verbatim => w = v
  | Spread =>
    MIN_CANON_CHARS ≤ length (canon_chars is_alphanumeric v) ∧
    ∃ x cs w', w = x :: w' ∧ canon_chars is_alphanumeric v = to_ascii_lowercase x :: cs ∧ alnum x ∧
      spread_tail cs w'
  end.

(** The characters [a] to [b] of [text] show [v]. *)
Definition occurs (f : form) (v text : str) (r : nat * nat) : Prop :=
  ∃ p w q, text = p ++ w ++ q ∧ r = (length p, length p + length w) ∧ shows f v w.

(** ** The verbatim scan *)

Lemma off_match text a v q : drop a text = v ++ q → off text a + str_len v = off text (a + length v).
Proof. intros E. rewrite <- off_drop, E. unfold off. by rewrite take_app_length. Qed.

Lemma drop_app_occurs text a v q :
  drop a text = v ++ q → v ≠ [] → a + length v ≤ length text ∧ occurs Verbatim v text (a, a + length v).
Proof.
  intros E Hv. assert (a < length text) as Ha.
  { destruct (decide (a < length text)); [done|]. rewrite drop_ge in E by lia.
    symmetry in E. apply app_nil in E as [? _]. done. }
  assert (length (drop a text) = length v + length q) as Hl by (by rewrite E, length_app).
  rewrite length_drop in Hl. split; [lia|].
  exists (take a text), v, q. rewrite <- E, take_drop, length_take_le by lia. done.
Qed.

Lemma find_exact_loop_spec fuel text v i :
  v ≠ [] → i ≤ length text → length text - i < fuel →
  ∃ R, find_exact_loop fuel text v (off text i) = Some (brange text <$> R) ∧
    Forall (λ r, in_text text r ∧ occurs Verbatim v text r) R ∧
    ∀ a, i ≤ a → starts_with (drop a text) v = true → ∃ r, r ∈ R ∧ r.1 ≤ a < r.2.
Proof.
  intros Hv. revert i. induction fuel as [|fuel IH]; intros i Hi Hf; [lia|]. cbn [find_exact_loop].
  rewrite slice_from_off by done. cbn [mbind option_bind].
  destruct (find (drop i text) v) as [n|] eqn:Hfind.
  - apply find_Some in Hfind as (k & Hk & -> & Hs & Hlt). rewrite drop_drop in Hs.
    apply starts_with_spec in Hs as [q Hq]. rewrite off_drop, (off_match _ _ _ _ Hq).
    destruct (drop_app_occurs _ _ _ _ Hq Hv) as [Hlen Hocc].
    assert (length v ≠ 0) by (destruct v; simpl; [done|lia]).
    destruct (IH (i + k + length v) Hlen ltac:(lia)) as (R & HR & HF & HC). rewrite HR.
    exists ((i + k, i + k + length v) :: R). cbn. split_and!; [done| |].
    + constructor; [|done]. split; [split; simpl; lia|done].
    + intros a Ha Hsa. destruct (decide (a < i + k)) as [Hak|Hak].
      { specialize (Hlt (a - i) ltac:(lia)). rewrite drop_drop in Hlt.
        replace (i + (a - i)) with a in Hlt by lia. congruence. }
      destruct (decide (a < i + k + length v)).
      * eexists. split; [by left|]. simpl. lia.
      * destruct (HC a ltac:(lia) Hsa) as (r & Hr & ?). exists r. split; [by right|done].
  - exists []. split_and!; [done..|]. intros a Ha Hs.
    destruct (decide (a ≤ length text)) as [Hal|Hal].
    + pose proof (find_None _ _ Hfind (a - i)) as H. rewrite length_drop, drop_drop in H.
      replace (i + (a - i)) with a in H by lia. rewrite H in Hs by lia. done.
    + rewrite drop_ge in Hs by lia. by destruct v.
Qed.
(** ** The skeleton *)

(** The skeleton of a part [t] of the text that starts at character [pos],
    byte [o]. *)
#[local] Notation sk pos o t := (skeleton_from is_alphanumeric pos (char_indices o t)).

Lemma sk_cons pos o x t :
  sk pos o (x :: t) =
  if is_alphanumeric x then
    {| start := o; end_ := o + len_utf8 x; ch := to_ascii_lowercase x; char_pos := pos |}
      :: sk (S pos) (o + len_utf8 x) t
  else sk (S pos) (o + len_utf8 x) t.
Proof. done. Qed.

Lemma sk_app pos o s t : sk pos o (s ++ t) = sk pos o s ++ sk (pos + length s) (o + str_len s) t.
Proof.
  revert pos o. induction s as [|x s IH]; intros pos o; [cbn; by rewrite !Nat.add_0_r|].
  rewrite <- app_comm_cons, !sk_cons, IH. simpl length. simpl str_len.
  rewrite <- !plus_n_Sm, !Nat.add_assoc. by destruct (is_alphanumeric x).
Qed.

Lemma sk_filler pos o s : Forall filler s → sk pos o s = [].
Proof.
  intros HF. revert pos o. induction HF as [|x s Hx HF IH]; intros pos o; [done|].
  by rewrite sk_cons, Hx, IH.
Qed.

Lemma filler_split t :
  Forall filler t ∨ ∃ fill x t', t = fill ++ x :: t' ∧ Forall filler fill ∧ alnum x.
Proof.
  induction t as [|x t IH]; [by left|]. destruct (is_alphanumeric x) eqn:Hx.
  - right. exists [], x, t. done.
  - destruct IH as [IH|(fill & y & t' & -> & HF & Hy)]; [left; by constructor|].
    right. exists (x :: fill), y, t'. split_and!; [done|by constructor|done].
Qed.

(** A skeleton character is where it says it is, and what follows it is the
    skeleton of the text after it. *)
Definition sits (text : str) (skel : list SkelChar) (n : nat) (k : SkelChar) : Prop :=
  ∃ x, text !! char_pos k = Some x ∧ alnum x ∧ ch k = to_ascii_lowercase x ∧
    start k = off text (char_pos k) ∧ end_ k = off text (S (char_pos k)) ∧
    drop (S n) skel = sk (S (char_pos k)) (end_ k) (drop (S (char_pos k)) text).

Lemma skeleton_lookup text n k :
  skeleton is_alphanumeric text !! n = Some k → sits text (skeleton is_alphanumeric text) n k.
Proof.
  unfold skeleton.
  cut (∀ t p, text = p ++ t → sk (length p) (str_len p) t !! n = Some k →
    ∃ x, text !! char_pos k = Some x ∧ alnum x ∧ ch k = to_ascii_lowercase x ∧
    start k = off text (char_pos k) ∧ end_ k = off text (S (char_pos k)) ∧
    drop (S n) (sk (length p) (str_len p) t) = sk (S (char_pos k)) (end_ k) (drop (S (char_pos k)) text)).
  { intros H. by apply (H text []). }
  intros t. revert n. induction t as [|x t IH]; intros n p Ht; [done|].
  assert (text !! length p = Some x) as Hx by (subst; by rewrite lookup_app_r, Nat.sub_diag by lia).
  specialize (IH) with (p := p ++ [x]). rewrite length_app, str_len_app in IH. simpl in IH.
  rewrite Nat.add_1_r, Nat.add_0_r in IH. rewrite <- app_assoc in IH.
  rewrite sk_cons. destruct (is_alphanumeric x) eqn:Ha; [|by intros; apply IH].
  destruct n as [|n]; [|by intros; apply (IH n)]. intros [= <-]. exists x. cbn [char_pos ch start end_].
  assert (off text (length p) = str_len p) as Ho by (subst; unfold off; by rewrite take_app_length).
  split_and!; [done..|by rewrite (off_S _ _ _ Hx), Ho|]. cbn [drop]. rewrite drop_0. do 2 f_equal.
  subst text. replace (S (length p)) with (length (p ++ [x])) by (rewrite length_app; simpl; lia).
  replace (p ++ x :: t) with ((p ++ [x]) ++ t) by (by rewrite <- app_assoc). by rewrite drop_app_length.
Qed.

Lemma skeleton_surj p x q :
  alnum x → ∃ n k, skeleton is_alphanumeric (p ++ x :: q) !! n = Some k ∧ char_pos k = length p.
Proof.
  intros Hx. unfold skeleton. rewrite sk_app, sk_cons, Hx.
  exists (length (sk 0 0 p)). eexists. rewrite lookup_app_r, Nat.sub_diag by lia. done.
Qed.

Lemma sk_pos_ge pos o t n k : sk pos o t !! n = Some k → pos ≤ char_pos k.
Proof.
  revert pos o n. induction t as [|x t IH]; intros pos o n; [done|]. rewrite sk_cons.
  destruct (is_alphanumeric x); [destruct n as [|n]|]; cbn; [by intros [= <-]|..];
    intros H; apply IH in H; lia.
Qed.

Lemma skeleton_mono text n n' k k' :
  skeleton is_alphanumeric text !! n = Some k → skeleton is_alphanumeric text !! n' = Some k' →
  n < n' → char_pos k < char_pos k'.
Proof.
  intros Hk Hk' Hn. apply skeleton_lookup in Hk as (x & _ & _ & _ & _ & _ & Hd).
  replace n' with (S n + (n' - S n)) in Hk' by lia.
  rewrite <- lookup_drop, Hd in Hk'. by apply sk_pos_ge in Hk'.
Qed.

(** ** The interleaved scan *)

(** The check of [find_interleaved] on the skeleton after [prev]. *)
Fixpoint follows (prev : SkelChar) (cs : list char) (l : list SkelChar) : bool :=
  match cs, l with
  | [], _ => true
  | c :: cs', k :: l' =>
    (ch k == c) && (char_pos k - char_pos prev - 1 <=? MAX_GAP_CHARS) && follows k cs' l'
  | _ :: _, [] => false
  end.

Lemma follows_length prev cs l : follows prev cs l = true → length cs ≤ length l.
Proof.
  revert prev l. induction cs as [|c cs IH]; intros prev [|k l]; simpl; try lia.
  rewrite andb_true_iff. intros [_ H%IH]. lia.
Qed.

Lemma interleaved_at_follows text cs i j n prev :
  let skel := skeleton is_alphanumeric text in
  j + n = length cs → 1 ≤ j → i + length cs ≤ length skel → skel !! (i + j - 1) = Some prev →
  interleaved_at skel cs i (seq j n) = Some (follows prev (drop j cs) (drop (i + j) skel)).
Proof.
  intros skel. revert j prev. induction n as [|n IH]; intros j prev Hj H1 Hlen Hprev; simpl.
  { rewrite drop_ge by lia. done. }
  destruct (lookup_lt_is_Some_2 skel (i + j) ltac:(lia)) as [k Hk].
  destruct (lookup_lt_is_Some_2 cs j ltac:(lia)) as [c Hc].
  rewrite Hk, Hc. cbn [mbind option_bind]. rewrite (drop_S _ _ _ Hk), (drop_S _ _ _ Hc). cbn [follows].
  destruct (decide (ch k = c)) as [E|E].
  - rewrite bool_decide_eq_true_2 by done. cbn [negb andb]. rewrite Hprev. cbn [mbind option_bind].
    pose proof (skeleton_mono text _ _ _ _ Hprev Hk ltac:(lia)) as Hlt.
    unfold usub. rewrite (proj2 (Nat.ltb_ge _ _)) by lia. cbn [mbind option_bind].
    rewrite (proj2 (Nat.ltb_ge _ _)) by lia. cbn [mbind option_bind].
    destruct (MAX_GAP_CHARS <? _) eqn:Hg.
    + apply Nat.ltb_lt in Hg. by rewrite (proj2 (Nat.leb_gt _ _)) by lia.
    + apply Nat.ltb_ge in Hg. rewrite (proj2 (Nat.leb_le _ _)) by lia. cbn [andb].
      rewrite (IH (S j) k); [by rewrite <- plus_n_Sm|lia..|].
      by replace (i + S j - 1) with (i + j) by lia.
  - by rewrite bool_decide_eq_false_2 by done.
Qed.

(** The check succeeds exactly where the characters are spread, and then the
    last one is at the end. *)
Lemma follows_spread kp cs o t :
  follows kp cs (sk (S (char_pos kp)) o t) = true →
  ∃ w q k, t = w ++ q ∧ spread_tail cs w ∧
    (kp :: sk (S (char_pos kp)) o t) !! length cs = Some k ∧ char_pos k = char_pos kp + length w.
Proof.
  revert kp o t. induction cs as [|c cs IH]; intros kp o t.
  { intros _. exists [], t, kp. split_and!; [done|constructor|done|simpl; lia]. }
  destruct (filler_split t) as [HF|(fill & x & t' & -> & HF & Hx)]; [by rewrite sk_filler|].
  rewrite sk_app, sk_filler, sk_cons by done. rewrite Hx. cbn [app follows].
  set (k0 := {| start := _; end_ := _; ch := _; char_pos := _ |}).
  rewrite !andb_true_iff, bool_decide_eq_true, Nat.leb_le. intros [[<- Hg] Hf].
  destruct (IH k0 _ t' Hf) as (w & q & k & -> & Hw & Hk & Hpos). cbn [char_pos k0] in *.
  exists (fill ++ x :: w), q, k. split_and!.
  - by rewrite <- app_assoc.
  - constructor; [done|lia|done|done].
  - exact Hk.
  - rewrite Hpos, length_app. simpl. lia.
Qed.

Lemma spread_follows kp cs o w q :
  spread_tail cs w → follows kp cs (sk (S (char_pos kp)) o (w ++ q)) = true.
Proof.
  intros Hw. revert kp o. induction Hw as [|fill x cs w HF Hg Hx Hw IH]; intros kp o; [done|].
  rewrite <- app_assoc, <- app_comm_cons, sk_app, sk_filler, sk_cons by done.
  rewrite Hx. cbn [app follows ch char_pos].
  rewrite bool_decide_eq_true_2 by done. rewrite (proj2 (Nat.leb_le _ _)) by lia. cbn [andb].
  apply (IH {| start := _; end_ := _; ch := _; char_pos := _ |}).
Qed.
Section scan.
Context (text v : str) (c : char) (cs : list char).
Context (Hcanon : canon_chars is_alphanumeric v = c :: cs) (Hmin : MIN_CANON_CHARS ≤ length (c :: cs)).
#[local] Notation skel := (skeleton is_alphanumeric text).

(** The value is spread out from the [n]-th skeleton character. *)
Definition matches (n : nat) (k : SkelChar) : Prop :=
  skel !! n = Some k ∧ ch k = c ∧ follows k cs (drop (S n) skel) = true.

Lemma matches_occurs n k :
  matches n k →
  ∃ e, skel !! (n + length cs) = Some e ∧ start k = off text (char_pos k) ∧
    end_ e = off text (S (char_pos e)) ∧
    in_text text (char_pos k, S (char_pos e)) ∧ occurs Spread v text (char_pos k, S (char_pos e)).
Proof.
  intros (Hk & Hc & Hf). destruct (skeleton_lookup _ _ _ Hk) as (x & Hx & Ha & Hch & Hst & _ & Hd).
  rewrite Hd in Hf. destruct (follows_spread _ _ _ _ Hf) as (w & q & e & Ht & Hw & He & Hpos).
  exists e. rewrite <- Hd in He.
  assert (skel !! (n + length cs) = Some e) as He'.
  { rewrite <- lookup_drop. by rewrite (drop_S _ _ _ Hk). }
  destruct (skeleton_lookup _ _ _ He') as (y & Hy & _ & _ & _ & Hend & _).
  apply lookup_lt_Some in Hy as Hlt. split_and!; [done..|split; simpl; lia|].
  exists (take (char_pos k) text), (x :: w), q. apply lookup_lt_Some in Hx as Hltk.
  rewrite length_take_le by lia. split_and!.
  - rewrite <- app_comm_cons, <- Ht. by rewrite take_drop_middle.
  - simpl. f_equal. lia.
  - split; [by rewrite Hcanon|]. exists x, cs, w. split_and!; [done|by rewrite Hcanon, <- Hch, Hc|done..].
Qed.

Lemma occurs_matches r : occurs Spread v text r → ∃ n k, matches n k ∧ char_pos k = r.1.
Proof.
  intros (p & w & q & Ht & -> & _ & x & cs' & w' & -> & Hc & Hx & Hw).
  rewrite Hcanon in Hc. injection Hc as Hc <-.
  destruct (skeleton_surj p x (w' ++ q) Hx) as (n & k & Hk & Hpos).
  rewrite app_comm_cons, <- Ht in Hk. exists n, k. split; [|done]. split; [done|].
  destruct (skeleton_lookup _ _ _ Hk) as (y & Hy & _ & Hch & _ & _ & Hd).
  assert (y = x) as ->.
  { rewrite Hpos, Ht, lookup_app_r, Nat.sub_diag in Hy by lia. by injection Hy. }
  split; [by rewrite Hc|]. rewrite Hd, Hpos, Ht.
  replace (drop (S (length p)) (p ++ (x :: w') ++ q)) with (w' ++ q); [rewrite <- Hpos; by apply spread_follows|].
  replace (p ++ (x :: w') ++ q) with ((p ++ [x]) ++ w' ++ q) by (by rewrite <- app_assoc).
  replace (S (length p)) with (length (p ++ [x])) by (rewrite length_app; simpl; lia).
  by rewrite drop_app_length.
Qed.

Lemma interleaved_match i k :
  i + length (c :: cs) ≤ length skel → skel !! i = Some k →
  ∃ b : bool, (if ch k == c then interleaved_at skel (c :: cs) i (seq 1 (length (c :: cs) - 1)) else Some false)
    = Some b ∧ (b = true ↔ matches i k).
Proof.
  intros Hlen Hk. unfold matches. destruct (decide (ch k = c)) as [E|E].
  - rewrite bool_decide_eq_true_2 by done.
    rewrite (interleaved_at_follows text _ _ _ _ k);
      [|simpl; lia|lia|done|by replace (i + 1 - 1) with i by lia].
    rewrite Nat.add_1_r. eexists. split; [reflexivity|]. cbn [drop]. naive_solver.
  - rewrite bool_decide_eq_false_2 by done. exists false. naive_solver.
Qed.

Lemma find_interleaved_loop_spec fuel i :
  length skel - i < fuel →
  ∃ R, find_interleaved_loop fuel skel (c :: cs) i = Some (brange text <$> R) ∧
    Forall (λ r, in_text text r ∧ occurs Spread v text r) R ∧
    ∀ n k, i ≤ n → matches n k → ∃ r, r ∈ R ∧ r.1 ≤ char_pos k < r.2.
Proof.
  revert i. induction fuel as [|fuel IH]; intros i Hf; [lia|]. cbn [find_interleaved_loop].
  destruct (i + length (c :: cs) <=? length skel) eqn:Hle; [apply Nat.leb_le in Hle|apply Nat.leb_gt in Hle].
  2:{ exists []. split_and!; [done..|]. intros n k Hn (Hk & _ & Hfw).
      apply lookup_lt_Some in Hk. apply follows_length in Hfw. rewrite length_drop in Hfw. simpl in Hle. lia. }
  destruct (lookup_lt_is_Some_2 skel i ltac:(simpl in Hle; lia)) as [k Hk]. rewrite Hk.
  cbn [mbind option_bind]. change ((c :: cs) !! 0) with (Some c). cbn [mbind option_bind].
  destruct (interleaved_match i k Hle Hk) as (b & -> & Hb). cbn [mbind option_bind]. destruct b.
  - destruct (matches_occurs i k (proj1 Hb eq_refl)) as (e & He & Hst & Hend & Hin & Hocc).
    replace (i + length (c :: cs) - 1) with (i + length cs) by (simpl; lia). rewrite He.
    cbn [mbind option_bind].
    destruct (IH (i + length (c :: cs)) ltac:(simpl in *; lia)) as (R & -> & HF & HC).
    exists ((char_pos k, S (char_pos e)) :: R). split_and!.
    + rewrite Hst, Hend. done.
    + by constructor.
    + intros n k' Hn Hm. destruct (decide (n < i + length (c :: cs))) as [Hlt|Hlt].
      2:{ destruct (HC n k' ltac:(lia) Hm) as (r & Hr & ?). exists r. split; [by right|done]. }
      eexists. split; [by left|]. simpl in *. destruct Hm as (Hk' & _).
      assert (char_pos k ≤ char_pos k').
      { destruct (decide (n = i)) as [->|]; [simplify_eq; lia|].
        pose proof (skeleton_mono text _ _ _ _ Hk Hk'). lia. }
      assert (char_pos k' ≤ char_pos e); [|lia].
      destruct (decide (n = i + length cs)) as [->|]; [simplify_eq; lia|].
      pose proof (skeleton_mono text _ _ _ _ Hk' He). lia.
  - destruct (IH (i + 1) ltac:(simpl in Hle; lia)) as (R & -> & HF & HC). exists R. split_and!; [done..|].
    intros n k' Hn Hm. destruct (decide (n = i)) as [->|]; [|apply (HC n); [lia|done]].
    assert (k' = k) as -> by (destruct Hm as (Hk' & _); congruence).
    apply Hb in Hm. done.
Qed.
End scan.
(** ** The masker *)

Lemma elem_of_dedup {A} `{EqDecision A} (x : A) l : x ∈ dedup l ↔ x ∈ l.
Proof.
  induction l as [|y l IH]; simpl; [done|]. rewrite elem_of_cons, <- IH.
  destruct (dedup l) as [|z r]; [by rewrite elem_of_cons|].
  case_bool_decide; subst; rewrite !elem_of_cons; naive_solver.
Qed.

(** The compiled secrets are the values long enough to mask. *)
Lemma elem_of_new values s :
  s ∈ new is_alphanumeric values ↔
  exact s ∈ values ∧ MIN_SECRET_CHARS ≤ length (exact s) ∧
  canon s = (if MIN_CANON_CHARS <=? length (canon_chars is_alphanumeric (exact s))
             then canon_chars is_alphanumeric (exact s) else []).
Proof.
  unfold new. rewrite list_elem_of_fmap. setoid_rewrite elem_of_dedup. setoid_rewrite elem_of_sort_by.
  setoid_rewrite list_elem_of_In. setoid_rewrite List.filter_In. setoid_rewrite Nat.leb_le. split.
  - intros (v & -> & Hv & Hl). done.
  - destruct s as [v c]. simpl. intros (Hv & Hl & ->). by exists v.
Qed.

Lemma new_has values v :
  v ∈ values → MIN_SECRET_CHARS ≤ length v → ∃ s, s ∈ new is_alphanumeric values ∧ exact s = v.
Proof.
  intros Hv Hl. exists {| exact := v; canon := if MIN_CANON_CHARS <=? length (canon_chars is_alphanumeric v)
    then canon_chars is_alphanumeric v else [] |}. split; [|done]. by apply elem_of_new.
Qed.

Definition collected (text : str) (f : form) (v : str) (R : list (nat * nat)) : Prop :=
  Forall (λ r, in_text text r ∧ occurs f v text r) R ∧
  ∀ r, occurs f v text r → ∃ r', r' ∈ R ∧ r'.1 ≤ r.1 < r'.2.

Lemma find_exact_spec text v :
  v ≠ [] → ∃ R, find_exact text v = Some (brange text <$> R) ∧ collected text Verbatim v R.
Proof.
  intros Hv. destruct (find_exact_loop_spec (S (length text)) text v 0 Hv) as (R & HR & HF & HC); [lia..|].
  rewrite off_0 in HR. exists R. split; [done|]. split; [done|]. intros r (p & w & q & -> & -> & ->). simpl.
  apply HC; [lia|]. rewrite drop_app_length. apply starts_with_spec. by exists q.
Qed.

Lemma find_interleaved_spec text v :
  MIN_CANON_CHARS ≤ length (canon_chars is_alphanumeric v) →
  ∃ R, find_interleaved (skeleton is_alphanumeric text) (canon_chars is_alphanumeric v) = Some (brange text <$> R) ∧
    collected text Spread v R.
Proof.
  intros Hmin. destruct (canon_chars is_alphanumeric v) as [|c cs] eqn:Hc; [unfold MIN_CANON_CHARS in Hmin; simpl in Hmin; lia|].
  destruct (find_interleaved_loop_spec text v c cs Hc Hmin (S (length (skeleton is_alphanumeric text))) 0)
    as (R & HR & HF & HC); [lia|]. exists R. split; [done|]. split; [done|]. intros r Hr.
  destruct (occurs_matches text v c cs Hc Hmin r Hr) as (n & k & Hm & <-). apply (HC n k); [lia|done].
Qed.

(** Collecting the ranges of every secret, in the form [f] where it has one. *)
Lemma collected_all text f (scan : Secret → option (list (nat * nat))) m :
  (∀ s, s ∈ m → (∃ R, scan s = Some (brange text <$> R) ∧ collected text f (exact s) R) ∨
                (scan s = Some [] ∧ ∀ r, ¬ occurs f (exact s) text r)) →
  ∃ R, collect scan m = Some (brange text <$> R) ∧
    Forall (λ r, in_text text r ∧ ∃ s, s ∈ m ∧ occurs f (exact s) text r) R ∧
    ∀ s r, s ∈ m → occurs f (exact s) text r → ∃ r', r' ∈ R ∧ occurs f (exact s) text r' ∧ r'.1 ≤ r.1 < r'.2.
Proof.
  induction m as [|s m IH]; intros Hm.
  { exists []. split_and!; [done..|]. by intros ? ? ?%not_elem_of_nil. }
  destruct IH as (R & HR & HF & HC); [intros s' Hs'; apply Hm; by right|].
  assert (∃ R', scan s = Some (brange text <$> R') ∧ collected text f (exact s) R') as (R' & HR' & HF' & HC').
  { destruct (Hm s ltac:(left)) as [H|[H Hno]]; [done|]. exists []. split; [done|]. split; [done|]. intros r []%Hno. }
  exists (R' ++ R). cbn. rewrite HR', HR. cbn. rewrite fmap_app. split_and!; [done| |].
  - apply Forall_app. split; (eapply Forall_impl; [eassumption|]); simpl.
    + intros r [? ?]. split; [done|]. exists s. split; [by left|done].
    + intros r (? & s' & ? & ?). split; [done|]. exists s'. split; [by right|done].
  - intros s' r [->|Hs']%elem_of_cons Hr.
    + destruct (HC' r Hr) as (r' & Hr' & ?). exists r'. split_and!; [apply elem_of_app; by left| |lia..].
      rewrite Forall_forall in HF'. by apply HF'.
    + destruct (HC s' r Hs' Hr) as (r' & Hr' & ?). exists r'. split; [apply elem_of_app; by right|done].
Qed.
(** Both scans together: the ranges [mask] collects. *)
Lemma mask_ranges values text :
  let m := new is_alphanumeric values in
  ∃ R, (exacts ← collect (λ s, find_exact text (exact s)) m;
        if existsb (λ s, canon s != []) m then
          more ← collect (λ s, if canon s != [] then find_interleaved (skeleton is_alphanumeric text) (canon s)
                               else Some []) m;
          Some (exacts ++ more)
        else Some exacts) = Some (brange text <$> R) ∧
    Forall (λ r, in_text text r ∧
      ∃ f v, v ∈ values ∧ MIN_SECRET_CHARS ≤ length v ∧ occurs f v text r) R ∧
    ∀ f v r, v ∈ values → MIN_SECRET_CHARS ≤ length v → occurs f v text r →
      ∃ r', r' ∈ R ∧ occurs f v text r' ∧ r'.1 ≤ r.1 < r'.2.
Proof.
  intros m. pose proof (new_has values) as Hin.
  destruct (collected_all text Verbatim (λ s, find_exact text (exact s)) m) as (R1 & E1 & F1 & C1).
  { intros s (_ & Hl & _)%elem_of_new. left. apply find_exact_spec. destruct (exact s); [|done].
    unfold MIN_SECRET_CHARS in Hl. simpl in Hl. lia. }
  destruct (collected_all text Spread (λ s, if canon s != [] then find_interleaved (skeleton is_alphanumeric text) (canon s)
                               else Some []) m) as (R2 & E2 & F2 & C2).
  { intros s (_ & _ & Hc)%elem_of_new. destruct (MIN_CANON_CHARS <=? _) eqn:Hmin.
    - left. apply Nat.leb_le in Hmin. rewrite Hc. rewrite bool_decide_eq_false_2; [by apply find_interleaved_spec|].
      intros E. rewrite E in Hmin. unfold MIN_CANON_CHARS in Hmin. simpl in Hmin. lia.
    - right. apply Nat.leb_gt in Hmin. rewrite Hc. split; [done|]. intros r (p & w & q & _ & _ & Hm & _). lia. }
  rewrite E1. cbn [mbind option_bind]. destruct (existsb _ m) eqn:Hex.
  - rewrite E2. exists (R1 ++ R2). cbn [mbind option_bind]. rewrite fmap_app. split_and!; [done| |].
    + apply Forall_app. split; (eapply Forall_impl; [eassumption|]); simpl;
        intros r (Hr & s & (Hs & Hl & _)%elem_of_new & Ho); split; eauto.
    + intros f v r Hv Hl Ho. destruct (Hin v Hv Hl) as (s & Hs & <-). destruct f.
      * destruct (C1 s r Hs Ho) as (r' & Hr' & ?). exists r'. split; [apply elem_of_app; by left|done].
      * destruct (C2 s r Hs Ho) as (r' & Hr' & ?). exists r'. split; [apply elem_of_app; by right|done].
  - exists R1. split_and!; [done| |].
    + eapply Forall_impl; [exact F1|]. simpl. intros r (Hr & s & (Hs & Hl & _)%elem_of_new & Ho); split; eauto.
    + intros f v r Hv Hl Ho. destruct (Hin v Hv Hl) as (s & Hs & <-). destruct f; [by apply C1|]. exfalso.
      rewrite existsb_false, Forall_forall in Hex. specialize (Hex s Hs). simpl in Hex.
      apply negb_false_iff, bool_decide_eq_true in Hex. apply elem_of_new in Hs as (_ & _ & Hc).
      destruct Ho as (p & w & q & _ & _ & Hm & _). rewrite Hex, (proj2 (Nat.leb_le _ _) Hm) in Hc.
      rewrite <- Hc in Hm. unfold MIN_CANON_CHARS in Hm. simpl in Hm. lia.
Qed.

(** Every masked character belongs to an occurrence of a value inside its
    block. *)
Definition only_masks (values : list str) (text : str) (blocks : list (nat * nat)) : Prop :=
  ∀ b i, b ∈ blocks → b.1 ≤ i < b.2 → ∃ f v r, v ∈ values ∧ MIN_SECRET_CHARS ≤ length v ∧
    occurs f v text r ∧ within r b ∧ r.1 ≤ i < r.2.

(** For every occurrence of [v], it or an earlier one it overlaps is masked
    whole. *)
Definition hides (v text : str) (blocks : list (nat * nat)) : Prop :=
  ∀ f r, MIN_SECRET_CHARS ≤ length v → occurs f v text r →
    ∃ r' b, occurs f v text r' ∧ r'.1 ≤ r.1 < r'.2 ∧ b ∈ blocks ∧ within r' b.

Lemma mask_spec values text :
  ∃ c blocks,
    mask is_alphanumeric (new is_alphanumeric values) text = Some c ∧
    into_owned c = redact text 0 blocks ∧ (blocks = [] → c = Borrowed text) ∧
    separated 0 blocks ∧ Forall (in_text text) blocks ∧
    only_masks values text blocks ∧ (∀ v, v ∈ values → hides v text blocks).
Proof.
  destruct (mask_ranges values text) as (R & ER & HF & HC).
  unfold mask. destruct (is_empty _ || _) eqn:Hempty.
  { exists (Borrowed text), []. split_and!; [done..|by intros ? ? ?%not_elem_of_nil|].
    intros v Hv f r Hl Ho. exfalso. apply orb_true_iff in Hempty as [He|He%bool_decide_eq_true].
    - assert (new is_alphanumeric values = []) as E by (by destruct (new is_alphanumeric values)).
      destruct (new_has values v Hv Hl) as (s & Hs & _). rewrite E in Hs. by apply not_elem_of_nil in Hs.
    - subst text. destruct (HC f v r Hv Hl Ho) as (r' & Hr' & _). rewrite Forall_forall in HF.
      destruct (HF r' Hr') as [[? Hlen] _]. simpl in Hlen. lia. }
  unfold mbind at 1 in ER. unfold mbind at 1.
  destruct (collect (λ s, find_exact text (exact s)) _) as [exacts|]; [|done]. cbn [option_bind] in *. unfold mbind at 1.
  rewrite ER. cbn [option_bind].
  destruct ((brange text <$> R) == []) eqn:HR; [apply bool_decide_eq_true in HR|apply bool_decide_eq_false in HR].
  { apply fmap_nil_inv in HR as ->. exists (Borrowed text), [].
    split_and!; [done..|by intros ? ? ?%not_elem_of_nil|].
    intros v Hv f r Hl Ho. by destruct (HC f v r Hv Hl Ho) as (r' & Hr'%not_elem_of_nil & _). }
  destruct (replace_ranges_spec text R) as (blocks & -> & Hsep & Hin & Hb1 & Hb2).
  { eapply Forall_impl; [exact HF|]. by intros r [? _]. }
  exists (Owned (redact text 0 blocks)), blocks. split_and!; [done..| |done|done| |].
  - intros ->. destruct R as [|r R]; [done|].
    destruct (Hb1 r ltac:(left)) as (b & Hb%not_elem_of_nil & _). done.
  - intros b i Hb Hi. destruct (Hb2 b i Hb Hi) as (r & Hr & Hw & Hri). rewrite Forall_forall in HF.
    destruct (HF r Hr) as (_ & f & v & Hv & Hl & Ho). by exists f, v, r.
  - intros v Hv f r Hl Ho. destruct (HC f v r Hv Hl Ho) as (r' & Hr' & Ho' & Hpos).
    destruct (Hb1 r' Hr') as (b & Hb & Hw). by exists r', b.
Qed.

(** C26: Masking is exact.  For every set of secret values and every text,
    [mask] returns (no slice, index or subtraction panics and every scan
    ends), and its output is the text with a list of separated blocks replaced
    by the mask, such that every masked character belongs to an occurrence of
    a secret value inside its block, and for every occurrence (verbatim, or
    spread out ignoring case) of a value of four or more characters, that
    occurrence or an earlier one of the same value it overlaps is masked whole;
    so the first character of every occurrence is masked.
    The input is borrowed when there is nothing to mask. *)
Theorem mask_exact values text :
  ∃ c blocks,
    mask is_alphanumeric (new is_alphanumeric values) text = Some c ∧
    into_owned c = redact text 0 blocks ∧ (blocks = [] → c = Borrowed text) ∧
    separated 0 blocks ∧ Forall (in_text text) blocks ∧
    only_masks values text blocks ∧ (∀ v, v ∈ values → hides v text blocks) ∧
    (∀ v f r, v ∈ values → MIN_SECRET_CHARS ≤ length v → occurs f v text r →
      ∃ b, b ∈ blocks ∧ b.1 ≤ r.1 < b.2).
Proof.
  destruct (mask_spec values text) as (c & blocks & H1 & H2 & H3 & H4 & H5 & H6 & H7).
  exists c, blocks. split_and!; [done..|]. intros v f r Hv Hl Ho.
  destruct (H7 v Hv f r Hl Ho) as (r' & b & _ & Hr & Hb & Hw). exists b. unfold within in Hw. split; [done|lia].
Qed.
End occurrences.

(** ** JSON results

    The constructors of [serde_json::Value] that the functions match on; a
    scalar other than a string is kept as it is. *)

Inductive Value :=
| VString (s : str) | Array (items : list Value) | Object (obj : list (str * Value)) | Scalar (z : Z).

Section json.
Context (is_alphanumeric : char → bool) (masker : SecretMasker).

(** [Cow::Owned(masked)] replaces the string, [Cow::Borrowed] leaves it. *)
Definition mask_field (s : str) : option str :=
  c ← mask is_alphanumeric masker s;
  Some (match c with Owned masked => masked | Borrowed _ => s end).

Fixpoint mask_values (v : Value) : option Value :=
  match v with
  | VString s => VString <$> mask_field s
  | Array items => Array <$> mapM mask_values items
  | Object obj => Object <$> mapM (λ '(k, x), pair k <$> mask_values x) obj
  | Scalar z => Some (Scalar z)
  end.

Definition mask_json_strings (v : Value) : option Value :=
  if is_empty masker then Some v else mask_values v.

(** The two console fields of an object. *)
Definition mask_console_fields (v : Value) : option Value :=
  if is_empty masker then Some v
  else match v with
  | Object obj =>
    obj' ← mapM (λ '(k, x),
      if (k == lit "stdout") || (k == lit "stderr") then
        match x with VString s => s' ← mask_field s; Some (k, VString s') | _ => Some (k, x) end
      else Some (k, x)) obj;
    Some (Object obj')
  | _ => Some v
  end.
End json.

(** ** Registered secrets *)

(** [format!("{b:02x}")] of each byte. *)
Definition hex_digit (d : Z) : char := if (d <? 10)%Z then (48 + d)%Z else (87 + d)%Z.
Definition hex_lower (key : bytes) : str :=
  key ≫= λ b, [hex_digit (byte_to_Z b / 16); hex_digit (byte_to_Z b mod 16)].

(** The four encoders of the base64 crate are parameters. *)
Definition key_text_forms (std std_no_pad url url_no_pad : bytes → str) (key : bytes) : list str :=
  [hex_lower key; std key; std_no_pad key; url key; url_no_pad key].

(** [OnceLock::set]: the first call wins. *)
Definition register_server_keys std std_no_pad url url_no_pad (keys : list bytes)
    (SERVER_KEY_FORMS : option (list str)) : option (list str) :=
  match SERVER_KEY_FORMS with
  | Some forms => Some forms
  | None => Some (keys ≫= key_text_forms std std_no_pad url url_no_pad)
  end.

(** A [BTreeMap] in key order. *)
Definition btree_entries {A} (m : gmap str A) : list (str * A) :=
  sort_by (λ a b, match str_cmp a.1 b.1 with Gt => false | _ => true end) (map_to_list m).

Definition set_extra_secrets (owner : str) (values : list str) (m : gmap str (list str)) :
    gmap str (list str) :=
  let values := List.filter (λ v, v != []) values in
  if values == [] then delete owner m else <[owner := values]> m.

Definition extra_secrets (m : gmap str (list str)) : list str :=
  btree_entries m ≫= snd.

Lemma elem_of_btree_entries {A} (m : gmap str A) k v : (k, v) ∈ btree_entries m ↔ m !! k = Some v.
Proof. unfold btree_entries. by rewrite elem_of_sort_by, elem_of_map_to_list. Qed.

(** An owner's secrets are those it registered last. *)
Lemma extra_secrets_set owner values m v :
  v ∈ extra_secrets (set_extra_secrets owner values m) ↔
  (v ∈ values ∧ v ≠ []) ∨ v ∈ extra_secrets (delete owner m).
Proof.
  assert (∀ m, v ∈ extra_secrets m ↔ ∃ o vs, m !! o = Some vs ∧ v ∈ vs) as Hx.
  { intros m'. unfold extra_secrets. rewrite list_elem_of_bind. split.
    - intros ([o vs] & Hv & Ho%elem_of_btree_entries). by exists o, vs.
    - intros (o & vs & Ho & Hv). exists (o, vs). by rewrite elem_of_btree_entries. }
  assert (v ∈ List.filter (λ v, v != []) values ↔ v ∈ values ∧ v ≠ []) as Hf.
  { rewrite list_elem_of_In, List.filter_In, <- list_elem_of_In, negb_true_iff, bool_decide_eq_false. done. }
  unfold set_extra_secrets. rewrite <- Hf, !Hx. case_bool_decide as E.
  - rewrite E. split; [by right|]. intros [?%not_elem_of_nil|?]; done.
  - split.
    + intros (o & vs & Ho & Hv). destruct (decide (o = owner)) as [->|Hne].
      * rewrite lookup_insert_eq in Ho. injection Ho as <-. by left.
      * rewrite lookup_insert_ne in Ho by done. right. exists o, vs. by rewrite lookup_delete_ne.
    + intros [Hv|(o & vs & Ho & Hv)].
      * exists owner. eexists. by rewrite lookup_insert_eq.
      * apply lookup_delete_Some in Ho as [Hne Ho]. exists o, vs. by rewrite lookup_insert_ne.
Qed.

(** ** Examples *)

Definition ascii_alphanumeric (c : char) : bool :=
  ((48 <=? c) && (c <=? 57) || (65 <=? c) && (c <=? 90) || (97 <=? c) && (c <=? 122))%Z.

Definition ex_mask (values : list string) (text : string) : option str :=
  into_owned <$> mask ascii_alphanumeric (new ascii_alphanumeric (lit <$> values)) (lit text).

Example mask_examples :
  ex_mask ["hunter22"] "pw=hunter22!" = Some (lit "pw=********!") ∧
  ex_mask ["hunter22"] "H-u-n-t-e-r-2-2." = Some (lit "********.") ∧
  ex_mask ["abcd"; "cdefgh"] "xabcdefghx" = Some (lit "x********x").
Proof. vm_compute. done. Qed.

(** Of two overlapping occurrences of one value only the first is masked
    whole: the end of the second stays readable. *)
Theorem overlap_left_readable : ex_mask ["aaaa"] "aaaaaaa" = Some (lit "********aaa").
Proof. vm_compute. done. Qed.
