(* ===== verification/EnvVars.v ===== *)
(** * Environment variables and their unlock windows

    src/db/crud/env_vars.rs (the table), src/service/env_vars.rs (encryption
    under the owner's password and the registry of unlocked values),
    src/routes/env_vars.rs (the handlers), the re-encryption of
    src/routes/auth.rs when a password changes, and [command_env_blocking] of
    src/service/secret_mask.rs, which gives a command its variables and the
    masker of its output.  The crypto crates, hex and base64 are the interface
    [Crypto]; random draws, clock readings and uuids are arguments. *)

From S2P Require Import Prelude CharStr SecretMask.

(** ** The crates *)

Class Crypto := {
  (** [Argon2::hash_password_into]. *)
  derive_key : str → bytes → option bytes;
  (** AES-256-GCM under a key and a nonce; [None] is an error. *)
  aead_encrypt : bytes → bytes → bytes → option bytes;
  aead_decrypt : bytes → bytes → bytes → option bytes;
  hex_encode : bytes → str;
  hex_decode : str → option bytes;
  b64_encode : bytes → str;
  b64_decode : str → option bytes;
  (** Argon2 password hashes, of a salt and a password. *)
  hash_password : bytes → str → option str;
  verify_password : str → str → bool;
}.

(** What the crates document: decoding inverts encoding, decryption under the
    same key and nonce inverts encryption, and a hash verifies the password
    it was made from and no other. *)
Class CryptoLaws (C : Crypto) := {
  hex_roundtrip b : hex_decode (hex_encode b) = Some b;
  b64_roundtrip b : b64_decode (b64_encode b) = Some b;
  aead_roundtrip k n p c : aead_encrypt k n p = Some c → aead_decrypt k n c = Some p;
  verify_self salt q h : hash_password salt q = Some h → verify_password q h = true;
  verify_own salt p q h : hash_password salt q = Some h → verify_password p h = true → p = q;
}.

(** ** The table *)

Record EnvVar := {
  id : str; name : str; value : option str; ciphertext : option str; nonce : option str;
  kdf_salt : option str; encrypted : bool; encrypted_by : option str; folder_id : option str;
  created_at : str; updated_at : str }.

Definition str_le (a b : str) : bool := match str_cmp a b with Gt => false | _ => true end.

(** [order(env_vars::name.asc())]. *)
Definition list_env_vars (t : list EnvVar) : list EnvVar :=
  sort_by (λ a b, str_le (name a) (name b)) t.

Definition in_scope (nm : str) (fid : option str) (v : EnvVar) : bool :=
  (name v == nm) && (folder_id v == fid).

Definition get_env_var (nm : str) (fid : option str) (t : list EnvVar) : option EnvVar :=
  List.find (in_scope nm fid) t.

(** An insert violates the primary key or one of the two unique indexes on
    the scope. *)
Inductive DbError := UniqueViolation.

Definition insert_env_var (new : EnvVar) (t : list EnvVar) : Result DbError (list EnvVar) :=
  if existsb (λ v, (id v == id new) || in_scope (name new) (folder_id new) v) t
  then Err UniqueViolation else Ok (t ++ [new]).

Definition upsert_env_var (new : EnvVar) (t : list EnvVar) : Result DbError (EnvVar * list EnvVar) :=
  match get_env_var (name new) (folder_id new) t with
  | Some existing =>
    let updated :=
      {| id := id existing; name := name existing; value := value new; ciphertext := ciphertext new;
         nonce := nonce new; kdf_salt := kdf_salt new; encrypted := encrypted new;
         encrypted_by := encrypted_by new; folder_id := folder_id existing;
         created_at := created_at existing; updated_at := updated_at new |} in
    Ok (updated, (λ v, if id v == id updated then updated else v) <$> t)
  | None => t' ← insert_env_var new t; Ok (new, t')
  end.

Definition delete_env_var (i : str) (t : list EnvVar) : bool * list EnvVar :=
  (existsb (λ v, id v == i) t, List.filter (λ v, id v != i) t).

Definition delete_env_vars_for_folder (fid : str) (t : list EnvVar) : nat * list EnvVar :=
  (length (List.filter (λ v, folder_id v == Some fid) t), List.filter (λ v, folder_id v != Some fid) t).

Definition list_env_vars_encrypted_by (uid : str) (t : list EnvVar) : list EnvVar :=
  sort_by (λ a b, str_le (name a) (name b))
    (List.filter (λ v, encrypted v && (encrypted_by v == Some uid)) t).

Definition update_env_var_ciphertext (i ct n s now : str) (t : list EnvVar) : bool * list EnvVar :=
  (existsb (λ v, id v == i) t,
   (λ v, if id v == i then
           {| id := id v; name := name v; value := value v; ciphertext := Some ct; nonce := Some n;
              kdf_salt := Some s; encrypted := encrypted v; encrypted_by := encrypted_by v;
              folder_id := folder_id v; created_at := created_at v; updated_at := now |}
         else v) <$> t).

(** ** Encryption *)

Record EncryptedValue := { kdf_salt_hex : str; nonce_hex : str; ciphertext_b64 : str }.

Section crypto.
Context `{Crypto}.

(** [salt] and [nonce] are the draws of 16 and 12 bytes. *)
Definition encrypt_value (salt nonce_bytes : bytes) (password plaintext : str) : option EncryptedValue :=
  key ← derive_key password salt;
  ct ← aead_encrypt key nonce_bytes (encode plaintext);
  Some {| kdf_salt_hex := hex_encode salt; nonce_hex := hex_encode nonce_bytes;
          ciphertext_b64 := b64_encode ct |}.

Definition decrypt_value (password salt_hex n_hex ct_b64 : str) : option str :=
  salt ← hex_decode salt_hex;
  nonce_bytes ← hex_decode n_hex;
  if length nonce_bytes != 12%nat then None
  else
    ct ← b64_decode ct_b64;
    key ← derive_key password salt;
    pt ← aead_decrypt key nonce_bytes ct;
    decode pt.

(** What a row's crypto columns decrypt to. *)
Definition decrypt_row (password : str) (v : EnvVar) : option str :=
  ct ← ciphertext v; n ← nonce v; s ← kdf_salt v; decrypt_value password s n ct.
End crypto.

(** ** The unlock registry *)

Inductive UnlockDuration :=
| FifteenMinutes | OneHour | FourHours | EightHours | TwentyFourHours | UntilLock.

(** Durations and instants in nanoseconds. *)
Definition SECOND : Z := 1000000000.
Definition UNLOCK_CACHE_TTL_SECS : Z := 30 * 60.

Definition ttl (d : UnlockDuration) : option Z :=
  match d with
  | FifteenMinutes => Some (15 * 60 * SECOND)
  | OneHour => Some (60 * 60 * SECOND)
  | FourHours => Some (4 * 60 * 60 * SECOND)
  | EightHours => Some (8 * 60 * 60 * SECOND)
  | TwentyFourHours => Some (24 * 60 * 60 * SECOND)
  | UntilLock => None
  end.

Definition default_duration : UnlockDuration := OneHour.

Abbreviation ValueMap := (gmap str str).

Record Pending := { p_user_id : str; var_names : list str }.
Record CacheEntry := { values : ValueMap; expires_at : option Z }.

(** [delivered] is what was sent on the requests' channels, latest last. *)
Record Inner := {
  pending : gmap str Pending; cache : gmap str CacheEntry; delivered : list (str * option ValueMap) }.

Definition is_live (now : Z) (e : CacheEntry) : bool :=
  match expires_at e with None => true | Some exp => now <? exp end.

Definition with_cache (c : gmap str CacheEntry) (g : Inner) : Inner :=
  {| pending := pending g; cache := c; delivered := delivered g |}.

(** [g.cache.retain(|_, e| e.is_live(now))]. *)
Definition purge (now : Z) (g : Inner) : Inner :=
  with_cache (filter (λ kv, is_live now kv.2 = true) (cache g)) g.

Definition begin_request (uuid user : str) (names : list str) (g : Inner) : Inner :=
  {| pending := <[uuid := {| p_user_id := user; var_names := names |}]> (pending g);
     cache := cache g; delivered := delivered g |}.

Definition pending_user (request : str) (g : Inner) : option str :=
  p_user_id <$> pending g !! request.

(** [send] fails where the receiver is gone; [alive] says whether it is. *)
Definition resolve (alive : str → bool) (request : str) (decrypted : option ValueMap) (g : Inner) : bool * Inner :=
  match pending g !! request with
  | Some _ =>
    (alive request,
     {| pending := delete request (pending g); cache := cache g;
        delivered := delivered g ++ (if alive request then [(request, decrypted)] else []) |})
  | None => (false, g)
  end.

(** [for id in &ids], removing and answering each. *)
Fixpoint resolve_ids (alive : str → bool) (vals : ValueMap) (ids : list str) (g : Inner) : Inner :=
  match ids with
  | [] => g
  | i :: ids' => resolve_ids alive vals ids' (resolve alive i (Some vals) g).2
  end.

Definition resolve_all_for_user (alive : str → bool) (user : str) (vals : ValueMap) (g : Inner) : nat * Inner :=
  let ids := (map_to_list (filter (λ kp, p_user_id kp.2 = user) (pending g))).*1 in
  (length ids, resolve_ids alive vals ids g).

Definition drop_request (request : str) (g : Inner) : Inner :=
  {| pending := delete request (pending g); cache := cache g; delivered := delivered g |}.

Definition cache_put_at (user : str) (vals : ValueMap) (exp : option Z) (g : Inner) : Inner :=
  with_cache (<[user := {| values := vals; expires_at := exp |}]> (cache g)) g.

Definition cache_put_for (now : Z) (user : str) (vals : ValueMap) (t : option Z) (g : Inner) : Inner :=
  cache_put_at user vals (Z.add now <$> t) g.

Definition cache_put (now : Z) (user : str) (vals : ValueMap) (g : Inner) : Inner :=
  cache_put_for now user vals (Some (UNLOCK_CACHE_TTL_SECS * SECOND)) g.

(** The seconds left of the window, [None] inside when it has no end. *)
Definition cache_status (now : Z) (user : str) (g : Inner) : option (option Z) * Inner :=
  let g' := purge now g in
  ((λ e, (λ exp, Z.max 0 (exp - now) / SECOND) <$> expires_at e) <$> cache g' !! user, g').

Definition cache_get_at (now : Z) (user : str) (g : Inner) : option ValueMap * Inner :=
  let g' := purge now g in (values <$> cache g' !! user, g').

Definition lock_user (user : str) (g : Inner) : Inner :=
  with_cache (delete user (cache g)) g.

(** [cache.values()] visits the owners in some order, here [map_to_list]'s;
    an id two owners hold is taken from the one visited last. *)
Definition merge_values (es : list CacheEntry) : ValueMap :=
  foldl (λ out e, values e ∪ out) ∅ es.

Definition all_cached_values_blocking (now : Z) (g : Inner) : ValueMap * Inner :=
  let g' := purge now g in (merge_values (map_to_list (cache g')).*2, g').

(** ** The handlers *)

Record User := { username : str; password_hash : str }.
Record AuthUser := { user_id : str; is_admin : bool }.

(** What the handlers read and write; [folders] holds folder names. *)
Record State := {
  vars : list EnvVar; users : gmap str User; folders : gmap str str; env_unlock : Inner }.

Definition with_vars (t : list EnvVar) (st : State) : State :=
  {| vars := t; users := users st; folders := folders st; env_unlock := env_unlock st |}.
Definition with_unlock (g : Inner) (st : State) : State :=
  {| vars := vars st; users := users st; folders := folders st; env_unlock := g |}.

Definition NAME_MAX_LEN : nat := 128.
Definition VALUE_MAX_LEN : nat := Z.to_nat 32768.
Definition MAX_PASSWORD_LEN : nat := 1024.
Definition MIN_PASSWORD_LEN : nat := 12.

Definition ascii_alphabetic (c : char) : bool :=
  ((65 <=? c) && (c <=? 90)) || ((97 <=? c) && (c <=? 122)).
Definition ascii_digit (c : char) : bool := (48 <=? c) && (c <=? 57).
Definition underscore : char := 95.

(** A byte of a longer character is neither a letter, a digit nor an
    underscore, so the checks on bytes are checks on characters. *)
Definition valid_name (nm : str) : bool :=
  match nm with
  | [] => false
  | first :: _ =>
    if (NAME_MAX_LEN <? str_len nm)%nat then false
    else if negb (ascii_alphabetic first || (first == underscore)) then false
    else forallb (λ c, ascii_alphabetic c || ascii_digit c || (c == underscore)) nm
  end.

Inductive EnvError :=
| AdminOnly | InvalidName | ValueTooLong | UnknownFolder | PasswordRequired | PasswordTooLong
| PasswordTooShort | UserNotFound | WrongPassword | Internal | NotFound | Forbidden | Gone | NothingToUnlock.

Abbreviation Reply := (Result EnvError).

Record EnvVarView := {
  vw_id : str; vw_name : str; vw_encrypted : bool; vw_encrypted_by : option str;
  vw_username : option str; vw_folder_id : option str; vw_folder_name : option str;
  vw_value : option str; vw_created_at : str; vw_updated_at : str }.

(** The two lookup caches of the loop only save queries. *)
Definition view (user : AuthUser) (st : State) (v : EnvVar) : EnvVarView :=
  {| vw_id := id v; vw_name := name v; vw_encrypted := encrypted v; vw_encrypted_by := encrypted_by v;
     vw_username := uid ← encrypted_by v; username <$> users st !! uid;
     vw_folder_id := folder_id v; vw_folder_name := fid ← folder_id v; folders st !! fid;
     vw_value := if encrypted v || negb (is_admin user) then None else value v;
     vw_created_at := created_at v; vw_updated_at := updated_at v |}.

Definition list_handler (user : AuthUser) (st : State) : list EnvVarView :=
  view user st <$> list_env_vars (vars st).

Record UpsertBody := {
  b_name : str; b_value : str; b_encrypt : bool; b_password : option str; b_folder_id : option str }.

(** Draws and readings of one request. *)
Record Draws := { d_uuid : str; d_now : str; d_salt : bytes; d_nonce : bytes }.

Section handlers.
Context `{Crypto}.

Definition plain_row (d : Draws) (b : UpsertBody) : EnvVar :=
  {| id := d_uuid d; name := b_name b; value := Some (b_value b); ciphertext := None; nonce := None;
     kdf_salt := None; encrypted := false; encrypted_by := None; folder_id := b_folder_id b;
     created_at := d_now d; updated_at := d_now d |}.

Definition sealed_row (d : Draws) (b : UpsertBody) (uid : str) (enc : EncryptedValue) : EnvVar :=
  {| id := d_uuid d; name := b_name b; value := None; ciphertext := Some (ciphertext_b64 enc);
     nonce := Some (nonce_hex enc); kdf_salt := Some (kdf_salt_hex enc); encrypted := true;
     encrypted_by := Some uid; folder_id := b_folder_id b; created_at := d_now d; updated_at := d_now d |}.

(** The row [upsert] builds. *)
Definition new_row (d : Draws) (uid : str) (b : UpsertBody) (st : State) : Reply EnvVar :=
  if b_encrypt b then
    let password := default [] (b_password b) in
    if password == [] then Err PasswordRequired
    else if (MAX_PASSWORD_LEN <? str_len password)%nat then Err PasswordTooLong
    else match users st !! uid with
    | None => Err UserNotFound
    | Some user =>
      if negb (verify_password password (password_hash user)) then Err WrongPassword
      else match encrypt_value (d_salt d) (d_nonce d) password (b_value b) with
      | None => Err Internal
      | Some enc => Ok (sealed_row d b uid enc)
      end
    end
  else Ok (plain_row d b).

Definition upsert (user : AuthUser) (d : Draws) (b : UpsertBody) (st : State) : Reply State :=
  if negb (is_admin user) then Err AdminOnly
  else if negb (valid_name (b_name b)) then Err InvalidName
  else if (VALUE_MAX_LEN <? str_len (b_value b))%nat then Err ValueTooLong
  else if match b_folder_id b with Some fid => negb (is_some (folders st !! fid)) | None => false end
  then Err UnknownFolder
  else
    new ← new_row d (user_id user) b st;
    match upsert_env_var new (vars st) with
    | Ok (_, t) => Ok (with_vars t st)
    | Err _ => Err Internal
    end.

(** Behind the admin middleware. *)
Definition delete_var (user : AuthUser) (i : str) (st : State) : Reply State :=
  if negb (is_admin user) then Err AdminOnly
  else let '(found, t) := delete_env_var i (vars st) in
       if (found : bool) then Ok (with_vars t st) else Err NotFound.

(** The loop of [decrypt_owned_vars]; [None] is a wrong password. *)
Fixpoint decrypt_vars (password : str) (vs : list EnvVar) (acc : ValueMap) : option ValueMap :=
  match vs with
  | [] => Some acc
  | v :: vs' => pt ← decrypt_row password v; decrypt_vars password vs' (<[id v := pt]> acc)
  end.

Definition decrypt_owned_vars (st : State) (uid password : str) : option ValueMap :=
  decrypt_vars password (list_env_vars_encrypted_by uid (vars st)) ∅.

Record UnlockAnswerBody := {
  a_request : str; a_password : option str; a_cancel : bool; a_duration : UnlockDuration }.

Definition unlock_answer (alive : str → bool) (now : Z) (caller : AuthUser) (b : UnlockAnswerBody) (st : State) :
    Reply State :=
  let reg := env_unlock st in
  if a_cancel b then
    match pending_user (a_request b) reg with
    | None => Ok st
    | Some uid =>
      if uid != user_id caller then Err Forbidden
      else Ok (with_unlock (resolve alive (a_request b) None reg).2 st)
    end
  else match pending_user (a_request b) reg with
  | None => Err Gone
  | Some uid =>
    if uid != user_id caller then Err Forbidden
    else
      let password := default [] (a_password b) in
      if (MAX_PASSWORD_LEN <? str_len password)%nat then Err PasswordTooLong
      else match decrypt_owned_vars st uid password with
      | None => Err WrongPassword
      | Some vals =>
        let reg := cache_put_for now uid vals (ttl (a_duration b)) reg in
        Ok (with_unlock (resolve_all_for_user alive uid vals reg).2 st)
      end
  end.

Definition lock (caller : AuthUser) (st : State) : State :=
  with_unlock (lock_user (user_id caller) (env_unlock st)) st.

(** The answer carries the number of values, of prompts answered and the
    window. *)
Definition unlock (alive : str → bool) (now : Z) (caller : AuthUser) (password : str) (dur : UnlockDuration)
    (st : State) : Reply ((nat * nat * option Z) * State) :=
  if (MAX_PASSWORD_LEN <? str_len password)%nat then Err PasswordTooLong
  else match decrypt_owned_vars st (user_id caller) password with
  | None => Err WrongPassword
  | Some vals =>
    if vals == ∅ then Err NothingToUnlock
    else
      let reg := cache_put_for now (user_id caller) vals (ttl dur) (env_unlock st) in
      let '(resolved, reg) := resolve_all_for_user alive (user_id caller) vals reg in
      Ok ((size vals, resolved, (λ t, t / SECOND) <$> ttl dur), with_unlock reg st)
  end.

Definition unlock_status (now : Z) (caller : AuthUser) (st : State) : (bool * option Z * nat) * State :=
  let var_count := length (list_env_vars_encrypted_by (user_id caller) (vars st)) in
  let '(status, reg) := cache_status now (user_id caller) (env_unlock st) in
  ((is_some status, status ≫= (λ s, s), var_count), with_unlock reg st).

(** The re-encryption loop of [change_password]: a row that lacks a crypto
    column or does not decrypt is skipped; [draw] gives the salt and nonce of
    each round. *)
Fixpoint reencrypt (current new now : str) (draw : nat → bytes * bytes) (round : nat) (vs : list EnvVar)
    (t : list EnvVar) : list EnvVar :=
  match vs with
  | [] => t
  | v :: vs' =>
    let t' :=
      match decrypt_row current v with
      | None => t
      | Some plaintext =>
        match encrypt_value (draw round).1 (draw round).2 new plaintext with
        | Some enc =>
          (update_env_var_ciphertext (id v) (ciphertext_b64 enc) (nonce_hex enc) (kdf_salt_hex enc) now t).2
        | None => t
        end
      end in
    reencrypt current new now draw (S round) vs' t'
  end.

(** [change_password] after its rate limit and up to the revocation of the
    sessions, over a database whose writes succeed; with writes that fail at any
    call it is [AuthRoutes.change_password]. *)
Definition change_password (uid current new now : str) (hash_salt : bytes) (draw : nat → bytes * bytes)
    (st : State) : Reply State :=
  if (str_len new <? MIN_PASSWORD_LEN)%nat then Err PasswordTooShort
  else match users st !! uid with
  | None => Err UserNotFound
  | Some user =>
    if negb (verify_password current (password_hash user)) then Err WrongPassword
    else match hash_password hash_salt new with
    | None => Err Internal
    | Some h =>
      Ok {| vars := reencrypt current new now draw 0 (list_env_vars_encrypted_by uid (vars st)) (vars st);
            users := <[uid := {| username := username user; password_hash := h |}]> (users st);
            folders := folders st; env_unlock := env_unlock st |}
    end
  end.

(** [admin_set_password] up to the revocation of the sessions. *)
Definition admin_set_password (caller : AuthUser) (target new : str) (hash_salt : bytes) (st : State) :
    Reply State :=
  if negb (is_admin caller) then Err AdminOnly
  else if (str_len new <? MIN_PASSWORD_LEN)%nat then Err PasswordTooShort
  else match users st !! target with
  | None => Err NotFound
  | Some user =>
    match hash_password hash_salt new with
    | None => Err Internal
    | Some h =>
      Ok {| vars := vars st; users := <[target := {| username := username user; password_hash := h |}]> (users st);
            folders := folders st; env_unlock := env_unlock st |}
    end
  end.
End handlers.

(** ** The environment of a command *)

(** The value a row resolves to. *)
Definition row_value (unlocked : ValueMap) (r : EnvVar) : option str :=
  if encrypted r then unlocked !! id r else value r.

(** The loop over the rows: the global and the folder's map, and the secrets. *)
Fixpoint command_rows (unlocked : ValueMap) (fid : option str) (rows : list EnvVar)
    (acc : gmap str str * gmap str str * list str) : gmap str str * gmap str str * list str :=
  match rows with
  | [] => acc
  | r :: rows' =>
    let '(global, folder, secrets) := acc in
    command_rows unlocked fid rows'
      match row_value unlocked r with
      | None => acc
      | Some v =>
        let secrets := secrets ++ [v] in
        if folder_id r == None then (<[name r := v]> global, folder, secrets)
        else if is_some fid && (folder_id r == fid) then (global, <[name r := v]> folder, secrets)
        else (global, folder, secrets)
      end
  end.

Definition command_env_blocking (is_alphanumeric : char → bool) (now : Z) (st : State) (fid : option str)
    (host_env : list (str * str)) (server_key_forms : option (list str)) (extra : gmap str (list str)) :
    list (str * str) * SecretMasker * State :=
  let '(unlocked, reg) := all_cached_values_blocking now (env_unlock st) in
  let '(global, folder, secrets) := command_rows unlocked fid (list_env_vars (vars st)) (∅, ∅, []) in
  let inject := folder ∪ global in
  let secrets := secrets ++ (List.filter (λ nv, is_sensitive_env_name nv.1) host_env).*2 in
  let secrets := secrets ++ default [] server_key_forms in
  let secrets := secrets ++ extra_secrets extra in
  (btree_entries inject, SecretMask.new is_alphanumeric secrets, with_unlock reg st).

(** ** Encryption round trip *)

Lemma length_encode s : length (encode s) = str_len s.
Proof.
  induction s as [|c s IH]; [done|]. unfold encode in *. cbn [mbind list_bind str_len].
  rewrite length_app, IH. f_equal. unfold encode_char, len_utf8. by repeat case_match.
Qed.

Section laws.
Context `{HC : Crypto, !CryptoLaws HC}.

(** The draws of [encrypt_value] have the lengths it fills. *)
Definition drawn (salt n : bytes) : Prop := length salt = 16%nat ∧ length n = 12%nat.

Lemma decrypt_encrypt salt n pw pt enc :
  drawn salt n → Forall scalar pt → encrypt_value salt n pw pt = Some enc →
  decrypt_value pw (kdf_salt_hex enc) (nonce_hex enc) (ciphertext_b64 enc) = Some pt.
Proof.
  intros [Hs Hn] Hpt. unfold encrypt_value, decrypt_value.
  destruct (derive_key pw salt) as [key|] eqn:Hk; [|done]. cbn [mbind option_bind].
  destruct (aead_encrypt key n (encode pt)) as [ct|] eqn:He; [|done]. intros [= <-]. cbn.
  rewrite !hex_roundtrip, b64_roundtrip. cbn. rewrite Hn. cbn. rewrite Hk. cbn.
  rewrite (aead_roundtrip _ _ _ _ He). cbn. by apply decode_encode.
Qed.

(** ** The invariant *)

(** [pw] is the password whose hash the user has. *)
Definition password_of (user : User) (pw : str) : Prop :=
  ∃ salt, hash_password salt pw = Some (password_hash user).

Lemma verified_password user pw p :
  password_of user pw → verify_password p (password_hash user) = true → p = pw.
Proof. intros [salt Hs] Hv. by eapply verify_own. Qed.

(** The row decrypts under [pw] to a text that can be encrypted again. *)
Definition opens (pw : str) (v : EnvVar) : Prop :=
  ∃ pt, decrypt_row pw v = Some pt ∧ Forall scalar pt ∧ (str_len pt ≤ VALUE_MAX_LEN)%nat.

(** A plain row has a value and no crypto columns; an encrypted row has no
    value and opens under its owner's password. *)
Definition row_ok (us : gmap str User) (v : EnvVar) : Prop :=
  if encrypted v then
    value v = None ∧ ∃ uid, encrypted_by v = Some uid ∧
      ∀ user pw, us !! uid = Some user → password_of user pw → opens pw v
  else is_some (value v) = true ∧ ciphertext v = None ∧ nonce v = None ∧ kdf_salt v = None ∧
       encrypted_by v = None.

Definition scope (v : EnvVar) : str * option str := (name v, folder_id v).

Record table_ok (us : gmap str User) (t : list EnvVar) : Prop := {
  ids_unique : NoDup (id <$> t);
  scopes_unique : NoDup (scope <$> t);
  rows_ok : Forall (row_ok us) t;
}.

(** Encryption succeeds on draws of the right length and values of the sizes
    the table holds. *)
Class Encrypts : Prop := encrypts salt n pw pt :
  drawn salt n → (str_len pt ≤ VALUE_MAX_LEN)%nat → is_Some (encrypt_value salt n pw pt).

Lemma in_scope_true nm fid v : in_scope nm fid v = true ↔ scope v = (nm, fid).
Proof.
  unfold in_scope, scope. rewrite andb_true_iff, !bool_decide_eq_true. naive_solver.
Qed.

Lemma get_env_var_Some nm fid t v :
  get_env_var nm fid t = Some v → v ∈ t ∧ scope v = (nm, fid).
Proof.
  unfold get_env_var. intros [Hin Hs]%List.find_some. rewrite list_elem_of_In. split; [done|].
  by apply in_scope_true.
Qed.

(** Replacing rows by ones of the same id and scope keeps the keys. *)
Lemma map_keys_unique (f : EnvVar → EnvVar) us us' t :
  (∀ v, v ∈ t → id (f v) = id v ∧ scope (f v) = scope v) → (∀ v, v ∈ t → row_ok us v → row_ok us' (f v)) →
  table_ok us t → table_ok us' (f <$> t).
Proof.
  intros Hf Hr [H1 H2 H3].
  assert (id <$> (f <$> t) = id <$> t) as E1.
  { rewrite <- list_fmap_compose. apply list_fmap_ext. intros i v Hv. apply Hf. by eapply list_elem_of_lookup_2. }
  assert (scope <$> (f <$> t) = scope <$> t) as E2.
  { rewrite <- list_fmap_compose. apply list_fmap_ext. intros i v Hv. apply Hf. by eapply list_elem_of_lookup_2. }
  split; [by rewrite E1|by rewrite E2|]. apply Forall_fmap, Forall_forall. intros v Hv.
  rewrite Forall_forall in H3. by apply Hr, H3.
Qed.

Lemma filter_table_ok us t f : table_ok us t → table_ok us (List.filter f t).
Proof. intros [H1 H2 H3]. split; auto with tables. Qed.

Lemma upsert_env_var_ok us new t v t' :
  row_ok us new → table_ok us t → upsert_env_var new t = Ok (v, t') →
  table_ok us t' ∧ v ∈ t' ∧ scope v = scope new ∧ value v = value new ∧ encrypted v = encrypted new ∧
  encrypted_by v = encrypted_by new ∧ ciphertext v = ciphertext new ∧ nonce v = nonce new ∧
  kdf_salt v = kdf_salt new.
Proof.
  intros Hnew Hok. unfold upsert_env_var. destruct (get_env_var _ _ t) as [e|] eqn:Hget.
  - intros [= <- <-]. apply get_env_var_Some in Hget as [Hin Hsc]. injection Hsc as Hn Hf.
    split; [|split; [|unfold scope; simpl; by rewrite Hn, Hf]].
    + apply (map_keys_unique _ us); [| |done].
      * intros w Hw. case_bool_decide as E; [|done]. cbn in E |- *. split; [done|].
        assert (w = e) as ->; [|done].
        destruct Hok as [H1 _ _]. by apply (key_inj id t).
      * intros w Hw Hrow. case_bool_decide; [|done]. exact Hnew.
    + apply list_elem_of_fmap. exists e. split; [|done]. cbn. by rewrite bool_decide_eq_true_2.
  - unfold insert_env_var. destruct (existsb _ t) eqn:Hex; cbn; [done|]. intros [= <- <-].
    rewrite existsb_false, Forall_forall in Hex. destruct Hok as [H1 H2 H3].
    split; [|split_and!; [apply elem_of_app; right; by left|done..]]. split.
    + rewrite fmap_app. apply NoDup_app. split_and!; [done| |apply NoDup_singleton].
      intros i (w & -> & Hw)%list_elem_of_fmap Hi%list_elem_of_singleton.
      specialize (Hex w Hw). apply orb_false_iff in Hex as [Hex _]. by apply bool_decide_eq_false in Hex.
    + rewrite fmap_app. apply NoDup_app. split_and!; [done| |apply NoDup_singleton].
      intros i (w & -> & Hw)%list_elem_of_fmap Hi%list_elem_of_singleton.
      specialize (Hex w Hw). apply orb_false_iff in Hex as [_ Hex].
      rewrite (proj2 (in_scope_true _ _ _)) in Hex; [done|exact Hi].
    + apply Forall_app. split; [done|]. by constructor.
Qed.
(** ** A change of password *)

(** What [update_env_var_ciphertext] keeps of a row. *)
Definition same_row (v w : EnvVar) : Prop :=
  id w = id v ∧ scope w = scope v ∧ value w = value v ∧ encrypted w = encrypted v ∧
  encrypted_by w = encrypted_by v.

(** Each row of the loop ends up under the new password with the same
    plaintext; the other rows are left alone. *)
Lemma reencrypt_map `{!Encrypts} current new now draw round vs t :
  (∀ k, drawn (draw k).1 (draw k).2) → NoDup (id <$> vs) → Forall (opens current) vs →
  ∃ f, reencrypt current new now draw round vs t = f <$> t ∧
    (∀ w, same_row w (f w)) ∧ (∀ w, id w ∉ (id <$> vs) → f w = w) ∧
    (∀ v w, v ∈ vs → id w = id v → decrypt_row new (f w) = decrypt_row current v).
Proof.
  intros Hdraw. revert round t. induction vs as [|v vs IH]; intros round t HN HF.
  { exists (λ w, w). cbn. rewrite list_fmap_id. split_and!; [done..|by intros ? ? ?%not_elem_of_nil]. }
  rewrite fmap_cons in HN. apply NoDup_cons in HN as [Hv HN].
  apply Forall_cons in HF as [(pt & Hpt & Hsc & Hlen) HF]. cbn [reencrypt]. rewrite Hpt.
  destruct (encrypts (draw round).1 (draw round).2 new pt (Hdraw round) Hlen) as [enc Henc]. rewrite Henc.
  pose proof (decrypt_encrypt _ _ _ _ _ (Hdraw round) Hsc Henc) as Hdec.
  cbn [update_env_var_ciphertext snd]. set (g := λ w : EnvVar, if id w == id v then _ else w).
  destruct (IH (S round) (g <$> t) HN HF) as (f & -> & Hsame & Hout & Hin).
  assert (∀ w, same_row w (g w)) as Hg by (intros w; unfold g; case_bool_decide; done).
  exists (f ∘ g). rewrite list_fmap_compose. split_and!; [done| | |].
  - intros w. cbn. unfold same_row in *. destruct (Hg w) as (?&?&?&?&?), (Hsame (g w)) as (?&?&?&?&?).
    split_and!; congruence.
  - intros w Hw. rewrite fmap_cons, not_elem_of_cons in Hw. destruct Hw as [Hne Hw]. cbn.
    assert (g w = w) as -> by (unfold g; by rewrite bool_decide_eq_false_2). by apply Hout.
  - intros v' w [->|Hv']%elem_of_cons Hid; cbn.
    + rewrite Hout; [|destruct (Hg w) as [-> _]; by rewrite Hid].
      unfold g. rewrite bool_decide_eq_true_2 by done. rewrite Hpt. exact Hdec.
    + apply Hin; [done|]. destruct (Hg w) as [-> _]. done.
Qed.

Lemma encrypted_by_rows uid t v :
  v ∈ list_env_vars_encrypted_by uid t ↔ v ∈ t ∧ encrypted v = true ∧ encrypted_by v = Some uid.
Proof.
  unfold list_env_vars_encrypted_by. rewrite elem_of_sort_by, list_elem_of_In, List.filter_In, <- list_elem_of_In.
  by rewrite andb_true_iff, bool_decide_eq_true.
Qed.

Lemma encrypted_by_ids uid t :
  NoDup (id <$> t) → NoDup (id <$> list_env_vars_encrypted_by uid t).
Proof.
  intros HN. unfold list_env_vars_encrypted_by. rewrite sort_by_perm. auto with tables.
Qed.

(** A user's encrypted rows open under the user's password. *)
Lemma owned_open us t uid user pw :
  table_ok us t → us !! uid = Some user → password_of user pw →
  Forall (opens pw) (list_env_vars_encrypted_by uid t).
Proof.
  intros [_ _ H3] Hu Hpw. apply Forall_forall. intros v (Hv & He & Hby)%encrypted_by_rows.
  rewrite Forall_forall in H3. specialize (H3 v Hv). unfold row_ok in H3. rewrite He in H3.
  destruct H3 as (_ & uid' & Hby' & Ho). assert (uid' = uid) as -> by congruence. by apply (Ho user).
Qed.

Lemma change_password_ok `{!Encrypts} uid current new now hash_salt draw st st' :
  (∀ k, drawn (draw k).1 (draw k).2) → table_ok (users st) (vars st) →
  (∀ u user, users st !! u = Some user → ∃ pw, password_of user pw) →
  change_password uid current new now hash_salt draw st = Ok st' → table_ok (users st') (vars st').
Proof.
  intros Hdraw Hok Hpw. unfold change_password. destruct (_ <? _)%nat; [done|].
  destruct (users st !! uid) as [user|] eqn:Hu; [|done].
  destruct (verify_password current _) eqn:Hver; [|done]. cbn [negb].
  destruct (hash_password hash_salt new) as [h|] eqn:Hh; [|done]. intros [= <-]. cbn [vars users].
  destruct (Hpw uid user Hu) as [pw Hown]. pose proof (verified_password _ _ _ Hown Hver) as ->.
  destruct (reencrypt_map pw new now draw 0 _ (vars st) Hdraw
    (encrypted_by_ids uid _ (ids_unique _ _ Hok)) (owned_open _ _ _ _ _ Hok Hu Hown))
    as (f & -> & Hsame & Hout & Hin).
  apply (map_keys_unique _ (users st)); [|intros v Hv Hrow|done].
  { intros v _. destruct (Hsame v) as (?&?&_). done. }
  destruct (Hsame v) as (Hid & _ & Hval & Henc & Hby). unfold row_ok in *. rewrite Henc, Hval, Hby.
  assert (v ∉ list_env_vars_encrypted_by uid (vars st) → f v = v) as Hkeep.
  { intros Hnot. apply Hout. intros (w & Hw & Hin')%list_elem_of_fmap. apply Hnot.
    assert (w = v) as ->; [|done]. apply (key_inj id (vars st)); [apply Hok|by eapply encrypted_by_rows|done|done]. }
  destruct (encrypted v) eqn:He.
  - destruct Hrow as (Hnone & owner & Howner & Hopen). split; [done|]. exists owner. split; [done|].
    intros user' pw'. destruct (decide (owner = uid)) as [->|Hne].
    + rewrite lookup_insert_eq. intros [= <-] [salt Hs]. cbn in Hs.
      assert (new = pw') as <- by (eapply verify_own; [exact Hs|by eapply verify_self]).
      destruct (Hopen user pw Hu Hown) as (pt & Hpt & Hsc & Hlen). exists pt. split; [|done].
      rewrite (Hin v v); [done|by apply encrypted_by_rows|done].
    + rewrite lookup_insert_ne by done. rewrite Hkeep; [by apply Hopen|].
      intros (_ & _ & ?)%encrypted_by_rows. congruence.
  - rewrite Hkeep; [naive_solver|]. intros (_ & ? & _)%encrypted_by_rows. congruence.
Qed.
(** ** Reachable states *)

(** The requests, with draws of the right lengths and well-formed strings; an
    administrator's reset of a password is not among them (see
    [reset_strands_vars] below). *)
Inductive env_step : State → State → Prop :=
| step_upsert user d b st st' :
    drawn (d_salt d) (d_nonce d) → Forall scalar (b_value b) →
    upsert user d b st = Ok st' → env_step st st'
| step_delete user i st st' : delete_var user i st = Ok st' → env_step st st'
| step_delete_folder fid st :
    env_step st (with_vars (delete_env_vars_for_folder fid (vars st)).2 st)
| step_unlock alive now user pw dur st r st' :
    unlock alive now user pw dur st = Ok (r, st') → env_step st st'
| step_unlock_answer alive now user b st st' : unlock_answer alive now user b st = Ok st' → env_step st st'
| step_lock user st : env_step st (lock user st)
| step_status now user st : env_step st (unlock_status now user st).2
| step_request uuid uid names st : env_step st (with_unlock (begin_request uuid uid names (env_unlock st)) st)
| step_timeout req st : env_step st (with_unlock (drop_request req (env_unlock st)) st)
| step_change_password uid current new now hash_salt draw st st' :
    (∀ k, drawn (draw k).1 (draw k).2) →
    change_password uid current new now hash_salt draw st = Ok st' → env_step st st'.

Record state_ok (st : State) : Prop := {
  st_table : table_ok (users st) (vars st);
  st_passwords u user : users st !! u = Some user → ∃ pw, password_of user pw;
}.

Lemma new_row_ok d uid b st v :
  drawn (d_salt d) (d_nonce d) → Forall scalar (b_value b) → (str_len (b_value b) ≤ VALUE_MAX_LEN)%nat →
  new_row d uid b st = Ok v → row_ok (users st) v.
Proof.
  intros Hd Hsc Hlen. unfold new_row. destruct (b_encrypt b); [|by intros [= <-]].
  set (password := default [] (b_password b)). destruct (password == []); [done|].
  destruct (_ <? _)%nat; [done|]. destruct (users st !! uid) as [user|] eqn:Hu; [|done].
  destruct (verify_password _ _) eqn:Hver; [|done]. cbn [negb].
  destruct (encrypt_value _ _ _ _) as [enc|] eqn:Henc; [|done]. intros [= <-].
  split; [done|]. exists uid. split; [done|]. intros user' pw Hu' Hpw. assert (user' = user) as -> by congruence.
  rewrite <- (verified_password _ _ _ Hpw Hver). exists (b_value b). split; [|done].
  by apply (decrypt_encrypt _ _ _ _ _ Hd).
Qed.

Lemma unlock_keeps alive now user pw dur st r st' :
  unlock alive now user pw dur st = Ok (r, st') → users st' = users st ∧ vars st' = vars st.
Proof.
  unfold unlock. repeat (case_match; [done|]). destruct (decrypt_owned_vars _ _ _); [|done].
  destruct (_ == _); [done|]. destruct (resolve_all_for_user _ _ _ _). by intros [= <- <-].
Qed.

Lemma unlock_answer_keeps alive now user b st st' :
  unlock_answer alive now user b st = Ok st' → users st' = users st ∧ vars st' = vars st.
Proof. unfold unlock_answer. repeat case_match; by intros [= <-]. Qed.

Lemma env_step_ok `{!Encrypts} st st' : env_step st st' → state_ok st → state_ok st'.
Proof.
  intros Hstep [Ht Hp].
  assert (∀ s, users s = users st → table_ok (users st) (vars s) → state_ok s) as Hk.
  { intros s Hu Hv. split; rewrite Hu; done. }
  destruct Hstep as [user d b st st' Hd Hsc Hrun|user i st st' Hrun|fid st|alive now user pw dur st r st' Hrun
    |alive now user b st st' Hrun|user st|now user st|uuid uid names st|req st|uid cur new now hs draw st st' Hd Hrun].
  - revert Hrun. unfold upsert. repeat (case_match; [done|]).
    destruct (new_row _ _ _ _) as [v|] eqn:Hv; [|done]. cbn.
    destruct (upsert_env_var v (vars st)) as [[w t]|] eqn:Hup; [|done]. intros [= <-]. apply Hk; [done|].
    eapply upsert_env_var_ok; [|exact Ht|exact Hup]. eapply new_row_ok; [done|done| |exact Hv].
    apply Nat.ltb_ge. match goal with Hl : (VALUE_MAX_LEN <? _)%nat = false |- _ => exact Hl end.
  - revert Hrun. unfold delete_var. case_match; [done|]. cbn. case_match; [|done]. intros [= <-].
    apply Hk; [done|]. by apply filter_table_ok.
  - apply Hk; [done|]. by apply filter_table_ok.
  - apply unlock_keeps in Hrun as [Hu Hv]. apply Hk; [done|]. by rewrite Hv.
  - apply unlock_answer_keeps in Hrun as [Hu Hv]. apply Hk; [done|]. by rewrite Hv.
  - by apply Hk.
  - by apply Hk.
  - by apply Hk.
  - by apply Hk.
  - split; [by eapply change_password_ok|]. revert Hrun. unfold change_password. repeat case_match; try done.
    intros [= <-] u' user'. cbn. destruct (decide (u' = uid)) as [->|Hne].
    + rewrite lookup_insert_eq. intros [= <-]. exists new, hs. done.
    + rewrite lookup_insert_ne by done. apply Hp.
Qed.

Lemma env_reachable_ok `{!Encrypts} st st' : rtc env_step st st' → state_ok st → state_ok st'.
Proof. induction 1; eauto using env_step_ok. Qed.

(** ** Unlocking *)

Lemma decrypt_vars_spec pw vs acc :
  NoDup (id <$> vs) → Forall (λ v, is_Some (decrypt_row pw v)) vs →
  ∃ m, decrypt_vars pw vs acc = Some m ∧
    ∀ i s, m !! i = Some s ↔
      (∃ v, v ∈ vs ∧ id v = i ∧ decrypt_row pw v = Some s) ∨ ((i ∉ id <$> vs) ∧ acc !! i = Some s).
Proof.
  revert acc. induction vs as [|v vs IH]; intros acc HN HF.
  { exists acc. split; [done|]. intros i s. split.
    - right. split; [apply not_elem_of_nil|done].
    - by intros [(v & []%not_elem_of_nil & _)|[_ ?]]. }
  rewrite fmap_cons in HN. apply NoDup_cons in HN as [Hv HN]. apply Forall_cons in HF as [[pt Hpt] HF].
  cbn [decrypt_vars]. rewrite Hpt. cbn [mbind option_bind].
  destruct (IH (<[id v := pt]> acc) HN HF) as (m & -> & Hm). exists m. split; [done|].
  intros i s. rewrite Hm, fmap_cons, not_elem_of_cons. split.
  - intros [(w & Hw & Hid & Hd)|[Hi Hs]]; [left; exists w; split; [by right|done]|].
    destruct (decide (i = id v)) as [->|Hne].
    + rewrite lookup_insert_eq in Hs. left. exists v. split; [by left|]. split; [done|congruence].
    + rewrite lookup_insert_ne in Hs by done. by right.
  - intros [(w & [->|Hw]%elem_of_cons & <- & Hd)|[[Hne Hi] Hs]].
    + right. split; [done|]. rewrite lookup_insert_eq. congruence.
    + left. by exists w.
    + right. split; [done|]. by rewrite lookup_insert_ne.
Qed.
End laws.

Lemma resolve_ids_cache alive vals ids g : cache (resolve_ids alive vals ids g) = cache g.
Proof.
  revert g. induction ids as [|i ids IH]; intros g; cbn; [done|]. rewrite IH. unfold resolve. by case_match.
Qed.

Lemma purge_lookup now g user e :
  cache (purge now g) !! user = Some e ↔ cache g !! user = Some e ∧ is_live now e = true.
Proof. unfold purge. cbn. by rewrite map_lookup_filter_Some. Qed.

Section unlocking.
Context `{HC : Crypto, !CryptoLaws HC, !Encrypts}.

(** C25: A password always unlocks, as long as no administrator resets one. From
    any well-formed state, after any sequence of successful requests (creating,
    changing and deleting variables, unlocking, answering prompts, locking,
    changing passwords; neither resets of a password by an administrator, see
    [reset_strands_vars], nor writes that fail half way are among them), the
    keys are unique and every encrypted row opens under its owner's present
    password; so a user with encrypted variables who sends that password, if it
    has at most 1024 bytes, is given the window, and until it ends the cache
    holds exactly the plaintext of each of the user's encrypted variables. *)
Theorem password_always_unlocks st0 st caller user pw alive now dur :
  state_ok st0 → rtc env_step st0 st →
  users st !! user_id caller = Some user → password_of user pw → (str_len pw ≤ MAX_PASSWORD_LEN)%nat →
  list_env_vars_encrypted_by (user_id caller) (vars st) ≠ [] →
  table_ok (users st) (vars st) ∧
  ∃ r st' m, unlock alive now caller pw dur st = Ok (r, st') ∧
    (∀ now', (∀ t, ttl dur = Some t → now' < now + t) →
      (cache_get_at now' (user_id caller) (env_unlock st')).1 = Some m) ∧
    ∀ i s, m !! i = Some s ↔ ∃ v, v ∈ vars st ∧ encrypted v = true ∧ encrypted_by v = Some (user_id caller) ∧
                                 id v = i ∧ decrypt_row pw v = Some s.
Proof.
  intros H0 Hsteps Hu Hpw Hlen Hne. destruct (env_reachable_ok _ _ Hsteps H0) as [Ht _]. split; [done|].
  set (vs := list_env_vars_encrypted_by (user_id caller) (vars st)) in *.
  pose proof (owned_open _ _ _ _ _ Ht Hu Hpw) as Hopen. fold vs in Hopen.
  assert (Forall (λ v, is_Some (decrypt_row pw v)) vs) as Hdec.
  { eapply Forall_impl; [exact Hopen|]. intros v (pt & -> & _). by eexists. }
  destruct (decrypt_vars_spec pw vs ∅ (encrypted_by_ids _ _ (ids_unique _ _ Ht)) Hdec) as (m & Hm & Hspec).
  assert (m ≠ ∅) as Hm0.
  { intros ->. destruct vs as [|v vs']; [done|]. apply Forall_cons in Hdec as [[s Hs] _].
    assert ((∅ : ValueMap) !! id v = Some s); [|done]. apply Hspec. left. exists v. split; [by left|done]. }
  unfold unlock. rewrite (proj2 (Nat.ltb_ge _ _)) by done. unfold decrypt_owned_vars. fold vs. rewrite Hm.
  rewrite bool_decide_eq_false_2 by done. unfold resolve_all_for_user. cbn zeta.
  do 3 eexists. split; [done|]. split.
  - intros now' Hnow. unfold cache_get_at. cbn [fst env_unlock with_unlock].
    match goal with |- _ <$> cache (purge _ ?g) !! _ = _ =>
      assert (cache (purge now' g) !! user_id caller
              = Some {| values := m; expires_at := Z.add now <$> ttl dur |}) as ->; [|done] end.
    apply purge_lookup. rewrite resolve_ids_cache. cbn. rewrite lookup_insert_eq. split; [done|].
    unfold is_live. cbn. destruct (ttl dur) as [t|]; cbn; [|done]. apply Z.ltb_lt. by apply Hnow.
  - intros i s. rewrite Hspec, lookup_empty. unfold vs. setoid_rewrite encrypted_by_rows. naive_solver.
Qed.
End unlocking.

(** ** The windows

    The registry refines a map of windows: per user the last [cache_put_for]
    or [lock_user].  Purging expired entries, in whatever calls and at whatever
    times, cannot be observed. *)

Inductive RegOp :=
| RPut (user : str) (vals : ValueMap) (t : option Z)
| RLock (user : str)
| RGet (user : str)
| RStatus (user : str)
| RSnapshot
| RBegin (uuid user : str) (names : list str)
| RResolve (alive : str → bool) (req : str) (v : option ValueMap)
| RResolveAll (alive : str → bool) (user : str) (vals : ValueMap)
| RDrop (req : str).

Definition reg_op (now : Z) (o : RegOp) (g : Inner) : Inner :=
  match o with
  | RPut user vals t => cache_put_for now user vals t g
  | RLock user => lock_user user g
  | RGet user => (cache_get_at now user g).2
  | RStatus user => (cache_status now user g).2
  | RSnapshot => (all_cached_values_blocking now g).2
  | RBegin uuid user names => begin_request uuid user names g
  | RResolve alive req v => (resolve alive req v g).2
  | RResolveAll alive user vals => (resolve_all_for_user alive user vals g).2
  | RDrop req => drop_request req g
  end.

Definition Inner_default : Inner := {| pending := ∅; cache := ∅; delivered := [] |}.

Definition reg_run (ops : list (Z * RegOp)) (g : Inner) : Inner :=
  foldl (λ g o, reg_op o.1 o.2 g) g ops.

(** The window a user has after the operations: the last put that no lock
    follows. *)
Definition window_step (user : str) (w : option CacheEntry) (o : Z * RegOp) : option CacheEntry :=
  match o.2 with
  | RPut u vals t =>
    if u == user then Some {| values := vals; expires_at := Z.add o.1 <$> t |} else w
  | RLock u => if u == user then None else w
  | _ => w
  end.

Definition window (user : str) (ops : list (Z * RegOp)) : option CacheEntry :=
  foldl (window_step user) None ops.

(** The clock does not go back between [t], the operations and [now]. *)
Fixpoint clock (t : Z) (ops : list (Z * RegOp)) (now : Z) : Prop :=
  match ops with [] => t ≤ now | (t', _) :: ops' => t ≤ t' ∧ clock t' ops' now end.

(** What is live at [now] of a window. *)
Definition live_at (now : Z) (w : option CacheEntry) : option CacheEntry :=
  e ← w; if is_live now e then Some e else None.

Lemma is_live_mono t t' e : t ≤ t' → is_live t' e = true → is_live t e = true.
Proof. unfold is_live. destruct (expires_at e); [|done]. rewrite !Z.ltb_lt. lia. Qed.

(** The cache agrees with the windows on what is live at [t]. *)
Definition agrees (t : Z) (g : Inner) (w : str → option CacheEntry) : Prop :=
  ∀ user e, (cache g !! user = Some e → w user = Some e) ∧
            (w user = Some e → is_live t e = true → cache g !! user = Some e).

Lemma agrees_cache t g g' w : cache g' = cache g → agrees t g w → agrees t g' w.
Proof. unfold agrees. by intros ->. Qed.

Lemma agrees_purge t g w : agrees t g w → agrees t (purge t g) w.
Proof. intros Ha user e. rewrite purge_lookup. specialize (Ha user e). naive_solver. Qed.

Lemma agrees_set t u x g w :
  agrees t g w → agrees t (with_cache (partial_alter (λ _, x) u (cache g)) g) (λ user, if u == user then x else w user).
Proof.
  intros Ha user e. cbn. destruct (decide (u = user)) as [->|Hne].
  - rewrite bool_decide_eq_true_2, lookup_partial_alter_eq by done. done.
  - rewrite bool_decide_eq_false_2, lookup_partial_alter_ne by done. apply Ha.
Qed.

Lemma agrees_step t t' o g w :
  t ≤ t' → agrees t g w → agrees t' (reg_op t' o g) (λ user, window_step user (w user) (t', o)).
Proof.
  intros Ht Ha. assert (agrees t' g w) as Ha'.
  { intros user e. destruct (Ha user e) as [H1 H2]. split; [done|]. intros Hw Hl. apply H2; [done|].
    by eapply is_live_mono. }
  clear Ha. destruct o as [user vals tt|user|user|user| |uuid user names|alive req v|alive user vals|req]; cbn.
  - apply (agrees_set t' user (Some _) g w Ha').
  - apply (agrees_set t' user None g w Ha').
  - by apply agrees_purge.
  - by apply agrees_purge.
  - by apply agrees_purge.
  - by apply (agrees_cache _ g).
  - apply (agrees_cache _ g); [|done]. unfold resolve. by case_match.
  - apply (agrees_cache _ g); [|done]. by rewrite resolve_ids_cache.
  - by apply (agrees_cache _ g).
Qed.

Lemma agrees_run ops t now g w :
  clock t ops now → agrees t g w →
  agrees now (reg_run ops g) (λ user, foldl (window_step user) (w user) ops).
Proof.
  revert t g w. induction ops as [|[t' o] ops IH]; intros t g w Hc Ha; cbn.
  - cbn in Hc. intros user e. destruct (Ha user e) as [H1 H2]. split; [done|]. intros Hw Hl. apply H2; [done|].
    by eapply is_live_mono.
  - destruct Hc as [Ht Hc]. by apply (IH _ _ _ Hc), (agrees_step t).
Qed.

Lemma agrees_purged now g w user : agrees now g w → cache (purge now g) !! user = live_at now (w user).
Proof.
  intros Ha. apply option_eq. intros e. rewrite purge_lookup. destruct (Ha user e) as [H1 H2]. unfold live_at. split.
  - intros [Hc Hl]. rewrite (H1 Hc). cbn. by rewrite Hl.
  - destruct (w user) as [e'|] eqn:Hw; [|done]. cbn. destruct (is_live now e') eqn:Hl; [|done].
    intros [= ->]. auto.
Qed.

Lemma merge_values_lookup es acc i s :
  foldl (λ out e, values e ∪ out) acc es !! i = Some s →
  acc !! i = Some s ∨ ∃ e, e ∈ es ∧ values e !! i = Some s.
Proof.
  revert acc. induction es as [|e es IH]; intros acc; cbn; [by left|]. intros [Ha|(e' & He & Hi)]%IH.
  - apply lookup_union_Some_raw in Ha as [Ha|[_ Ha]]; [|by left]. right. exists e. split; [by left|done].
  - right. exists e'. split; [by right|done].
Qed.

Lemma merge_values_total es acc i :
  (is_Some (acc !! i) ∨ ∃ e, e ∈ es ∧ is_Some (values e !! i)) →
  is_Some (foldl (λ out e, values e ∪ out) acc es !! i).
Proof.
  revert acc. induction es as [|e es IH]; intros acc; cbn.
  - intros [?|(e & []%not_elem_of_nil & _)]. done.
  - intros Hi. apply IH. rewrite lookup_union_is_Some. destruct Hi as [?|(e' & [->|He]%elem_of_cons & ?)]; eauto.
Qed.

(** Unlock windows are exact.  After any sequence of registry operations
    on a clock that does not go back, a user's values are read exactly while
    the window of the user's last unlock is open (before its end, and not
    locked since), the status reports the seconds left of that window, and the
    snapshot given to commands holds exactly the ids of open windows, each with
    the value an open window has for it. *)
Theorem unlock_window_exact ops now :
  clock 0 ops now →
  let g := reg_run ops Inner_default in
  (∀ user, (cache_get_at now user g).1 = values <$> live_at now (window user ops)) ∧
  (∀ user, (cache_status now user g).1 =
    (λ e, (λ exp, (exp - now) / SECOND) <$> expires_at e) <$> live_at now (window user ops)) ∧
  (∀ i s, (all_cached_values_blocking now g).1 !! i = Some s →
    ∃ user e, live_at now (window user ops) = Some e ∧ values e !! i = Some s) ∧
  (∀ user e i, live_at now (window user ops) = Some e → is_Some (values e !! i) →
    is_Some ((all_cached_values_blocking now g).1 !! i)).
Proof.
  intros Hc g. assert (agrees now g (λ user, window user ops)) as Ha.
  { apply (agrees_run ops 0 now Inner_default (λ _, None) Hc). intros user e. cbn. by rewrite lookup_empty. }
  split_and!.
  - intros user. cbn [cache_get_at fst]. by rewrite (agrees_purged _ _ _ user Ha).
  - intros user. cbn [cache_status fst]. rewrite (agrees_purged _ _ _ user Ha).
    destruct (window user ops) as [e|]; [|done]. cbn. destruct (is_live now e) eqn:Hl; [|done]. cbn.
    unfold is_live in Hl. destruct (expires_at e) as [x|]; [|done]. apply Z.ltb_lt in Hl. cbn. do 3 f_equal. lia.
  - intros i s Hs. cbn [all_cached_values_blocking fst] in Hs. unfold merge_values in Hs.
    apply merge_values_lookup in Hs as [?|(e & ([user e'] & -> & Hin)%list_elem_of_fmap & Hi)];
      [by rewrite lookup_empty in *|]. apply elem_of_map_to_list in Hin.
    exists user, e'. split; [|done]. by rewrite <- (agrees_purged _ _ _ user Ha).
  - intros user e i Hl Hi. cbn [all_cached_values_blocking fst]. apply merge_values_total. right. exists e. split; [|done].
    apply list_elem_of_fmap. exists (user, e). split; [done|]. apply elem_of_map_to_list.
    by rewrite (agrees_purged _ _ _ user Ha).
Qed.

(** ** What a command gets *)

(** One of the two maps of the loop: the resolvable rows [sel] picks. *)
Definition collect_map (unlocked : ValueMap) (sel : EnvVar → bool) (rows : list EnvVar) (acc : gmap str str) :
    gmap str str :=
  foldl (λ m r, match row_value unlocked r with
                | Some v => if sel r then <[name r := v]> m else m
                | None => m
                end) acc rows.

Definition is_global (r : EnvVar) : bool := folder_id r == None.
Definition in_folder (fid : option str) (r : EnvVar) : bool :=
  negb (is_global r) && is_some fid && (folder_id r == fid).

Lemma in_folder_true fid r : in_folder fid r = true ↔ is_some fid = true ∧ folder_id r = fid.
Proof.
  unfold in_folder, is_global. destruct fid as [f|]; cbn; [|rewrite andb_false_r; naive_solver].
  rewrite andb_true_r, andb_true_iff, negb_true_iff, bool_decide_eq_false, bool_decide_eq_true. naive_solver.
Qed.

Lemma command_rows_split unlocked fid rows g f secrets :
  command_rows unlocked fid rows (g, f, secrets) =
  (collect_map unlocked is_global rows g, collect_map unlocked (in_folder fid) rows f,
   secrets ++ omap (row_value unlocked) rows).
Proof.
  revert g f secrets. induction rows as [|r rows IH]; intros g f secrets; cbn; [by rewrite app_nil_r|].
  unfold in_folder, is_global. destruct (row_value unlocked r) as [v|]; [|apply IH].
  case_bool_decide as E; cbn; [rewrite IH; by rewrite <- app_assoc|].
  destruct (is_some fid && _) eqn:E'; rewrite IH; by rewrite <- app_assoc.
Qed.

Lemma collect_map_lookup unlocked sel x rows acc n v :
  NoDup (scope <$> rows) → (∀ r, sel r = true → folder_id r = x) →
  collect_map unlocked sel rows acc !! n = Some v ↔
  (∃ r, r ∈ rows ∧ sel r = true ∧ name r = n ∧ row_value unlocked r = Some v) ∨
  ((∀ r, r ∈ rows → sel r = true → name r = n → row_value unlocked r = None) ∧ acc !! n = Some v).
Proof.
  intros HN Hsel. revert acc HN. induction rows as [|r rows IH]; intros acc HN.
  { split; [right; split; [by intros ? ?%not_elem_of_nil|done]|].
    intros [(r & []%not_elem_of_nil & _)|[_ ?]]. done. }
  rewrite fmap_cons in HN. apply NoDup_cons in HN as [Hr HN].
  assert (sel r = true → ∀ r', r' ∈ rows → sel r' = true → name r' = name r → False) as Huniq.
  { intros Hs r' Hr' Hs' Hn. apply Hr. apply list_elem_of_fmap. exists r'. split; [|done]. unfold scope.
    by rewrite Hn, (Hsel r Hs), (Hsel r' Hs'). }
  change (collect_map unlocked sel (r :: rows) acc) with (collect_map unlocked sel rows
    match row_value unlocked r with Some v => if sel r then <[name r := v]> acc else acc | None => acc end).
  rewrite IH by done.
  destruct (row_value unlocked r) as [w|] eqn:Hv; [destruct (sel r) eqn:Hs|].
  - split.
    + intros [(r' & Hr' & H)|[Hno Hl]]; [left; exists r'; split; [by right|done]|].
      destruct (decide (name r = n)) as [<-|Hne].
      * rewrite lookup_insert_eq in Hl. left. exists r. split; [by left|]. naive_solver.
      * rewrite lookup_insert_ne in Hl by done. right. split; [|done].
        intros r' [->|Hr']%elem_of_cons; [done|by apply Hno].
    + intros [(r' & [->|Hr']%elem_of_cons & Hs' & Hn & Hv')|[Hno Hl]].
      * right. split; [intros r' Hr' Hs'' Hn'; exfalso; apply (Huniq eq_refl r'); congruence|].
        rewrite Hn, lookup_insert_eq. congruence.
      * left. by exists r'.
      * right. assert (name r ≠ n) by (intros E; specialize (Hno r ltac:(left) Hs E); congruence).
        split; [intros r' Hr'; apply Hno; by right|]. by rewrite lookup_insert_ne.
  - split; (intros [(r' & Hr' & Hs' & H)|[Hno Hl]]; [left|right]).
    + exists r'. split; [by right|done].
    + split; [|done]. intros r' [->|Hr']%elem_of_cons; [congruence|by apply Hno].
    + exists r'. apply elem_of_cons in Hr' as [->|Hr']; [congruence|done].
    + split; [|done]. intros r' Hr'. apply Hno. by right.
  - split; (intros [(r' & Hr' & Hs' & Hn & H)|[Hno Hl]]; [left|right]).
    + exists r'. split; [by right|done].
    + split; [|done]. intros r' [->|Hr']%elem_of_cons; [done|by apply Hno].
    + exists r'. apply elem_of_cons in Hr' as [->|Hr']; [congruence|done].
    + split; [|done]. intros r' Hr'. apply Hno. by right.
Qed.

(** The value a variable of the folder [fid], or of every folder, resolves to. *)
Definition resolves (unlocked : ValueMap) (t : list EnvVar) (fid : option str) (n v : str) : Prop :=
  ∃ r, r ∈ t ∧ folder_id r = fid ∧ name r = n ∧ row_value unlocked r = Some v.

Lemma elem_of_list_env_vars t r : r ∈ list_env_vars t ↔ r ∈ t.
Proof. apply elem_of_sort_by. Qed.

Lemma injected_lookup unlocked fid t n v :
  NoDup (scope <$> t) →
  let rows := list_env_vars t in
  (collect_map unlocked (in_folder fid) rows ∅ ∪ collect_map unlocked is_global rows ∅) !! n = Some v ↔
  (is_some fid = true ∧ resolves unlocked t fid n v) ∨
  (resolves unlocked t None n v ∧ ∀ w, is_some fid = true → ¬ resolves unlocked t fid n w).
Proof.
  intros HN rows. assert (NoDup (scope <$> rows)) as HN'.
  { unfold rows, list_env_vars. by rewrite sort_by_perm. }
  unfold rows in *. clear rows.
  assert (∀ w, collect_map unlocked (in_folder fid) (list_env_vars t) ∅ !! n = Some w ↔
               is_some fid = true ∧ resolves unlocked t fid n w) as HF.
  { intros w. rewrite (collect_map_lookup _ _ fid); [|done|].
    - rewrite lookup_empty. split.
      + intros [(r & Hr & Hsel & Hn & Hv)|[_ ?]]; [|done]. apply in_folder_true in Hsel as [Hs Hf].
        split; [done|]. exists r. by rewrite <- elem_of_list_env_vars.
      + intros [Hs (r & Hr & Hf & Hn & Hv)]. left. exists r. by rewrite in_folder_true, elem_of_list_env_vars.
    - by intros r [_ ?]%in_folder_true. }
  assert (∀ w, collect_map unlocked is_global (list_env_vars t) ∅ !! n = Some w ↔ resolves unlocked t None n w) as HG.
  { intros w. rewrite (collect_map_lookup _ _ None); [|done|].
    - rewrite lookup_empty. unfold resolves, is_global. setoid_rewrite elem_of_list_env_vars.
      setoid_rewrite bool_decide_eq_true. naive_solver.
    - intros r. unfold is_global. by intros ?%bool_decide_eq_true. }
  rewrite lookup_union_Some_raw, HF, HG. split; [intros [?|[Hno ?]]; [by left|]|intros [?|[? Hno]]; [by left|]]; right.
  - split; [done|]. intros w Hs Hr. by rewrite (proj2 (HF w)) in Hno.
  - split; [|done]. apply eq_None_not_Some. intros [w [Hs Hr]%HF]. by destruct (Hno w Hs).
Qed.

(** C27: A command gets the variables of its folder and its output is masked.
    The variables injected are exactly those of the command's folder that
    resolve, and the global ones that resolve and are not shadowed; an encrypted
    one resolves only to a value of an open unlock window. Whatever text the
    command prints, the masker built with them returns, and of every occurrence
    of a value of at least four characters (of an injected variable, a variable
    of another folder, a host variable with a sensitive name, a key of the
    server or a registered secret) it, or an earlier occurrence of the same
    value that it overlaps, is masked whole. *)
Theorem command_env_safe is_alphanumeric now st fid host_env forms extra :
  NoDup (scope <$> vars st) →
  let unlocked := (all_cached_values_blocking now (env_unlock st)).1 in
  let '(inject, masker, _) := command_env_blocking is_alphanumeric now st fid host_env forms extra in
  (∀ n v, (n, v) ∈ inject ↔
    (is_some fid = true ∧ resolves unlocked (vars st) fid n v) ∨
    (resolves unlocked (vars st) None n v ∧ ∀ w, is_some fid = true → ¬ resolves unlocked (vars st) fid n w)) ∧
  ∀ text, ∃ c blocks,
    mask is_alphanumeric masker text = Some c ∧ into_owned c = redact text 0 blocks ∧
    (∀ n v, (n, v) ∈ inject → hides is_alphanumeric v text blocks) ∧
    (∀ fid' n v, resolves unlocked (vars st) fid' n v → hides is_alphanumeric v text blocks) ∧
    (∀ n v, (n, v) ∈ host_env → is_sensitive_env_name n = true → hides is_alphanumeric v text blocks) ∧
    (∀ v, v ∈ default [] forms ∨ v ∈ extra_secrets extra → hides is_alphanumeric v text blocks).
Proof.
  intros HN unlocked. unfold command_env_blocking. cbn zeta.
  destruct (all_cached_values_blocking now (env_unlock st)) as [unl reg] eqn:Hall. cbn [fst] in unlocked.
  subst unlocked. rewrite command_rows_split. cbn zeta.
  pose proof (λ n v, iff_trans (elem_of_btree_entries _ n v) (injected_lookup unl fid (vars st) n v HN)) as Hinj.
  split; [exact Hinj|]. intros text.
  match goal with |- context [SecretMask.new _ ?secrets] => set (S := secrets) end.
  destruct (mask_spec is_alphanumeric S text) as (c & blocks & Hm & Ho & _ & _ & _ & _ & Hh).
  exists c, blocks. split_and!; [done..| | | |].
  - intros n v Hin. apply Hinj in Hin. apply Hh. unfold S. rewrite !elem_of_app. do 3 left. right.
    apply list_elem_of_omap.
    destruct Hin as [[_ (r & Hr & _ & _ & Hv)]|[(r & Hr & _ & _ & Hv) _]]; exists r; by rewrite elem_of_list_env_vars.
  - intros fid' n v (r & Hr & _ & _ & Hv). apply Hh. unfold S. rewrite !elem_of_app. do 3 left. right.
    apply list_elem_of_omap. exists r. by rewrite elem_of_list_env_vars.
  - intros n v Hin Hs. apply Hh. unfold S. rewrite !elem_of_app. do 2 left. right.
    apply list_elem_of_fmap. exists (n, v). split; [done|]. apply list_elem_of_In, List.filter_In.
    split; [by apply list_elem_of_In|done].
  - intros v Hv. apply Hh. unfold S. rewrite !elem_of_app. tauto.
Qed.

(** ** A concrete instance *)

(** Encryption that prepends key and nonce, and hashes that are passwords. *)
Module PlainCrypto.
Fixpoint strip (p l : bytes) : option bytes :=
  match p, l with
  | [], _ => Some l
  | a :: p', b :: l' => if a == b then strip p' l' else None
  | _ :: _, [] => None
  end.

Definition crypto : Crypto := {|
  derive_key pw salt := Some (encode pw ++ salt);
  aead_encrypt k n p := Some (k ++ n ++ p);
  aead_decrypt k n c := strip (k ++ n) c;
  hex_encode b := byte_to_Z <$> b;
  hex_decode s := Some (byte_of_Z <$> s);
  b64_encode b := byte_to_Z <$> b;
  b64_decode s := Some (byte_of_Z <$> s);
  hash_password _ q := Some q;
  verify_password p h := p == h;
|}.
End PlainCrypto.

Lemma bytes_of_to (b : bytes) : byte_of_Z <$> (byte_to_Z <$> b) = b.
Proof. induction b as [|x b IH]; [done|]. by rewrite !fmap_cons, byte_of_to, IH. Qed.

Lemma plain_laws : @CryptoLaws PlainCrypto.crypto.
Proof.
  split; cbn.
  - intros b. by rewrite bytes_of_to.
  - intros b. by rewrite bytes_of_to.
  - intros k n p c [= <-]. rewrite app_assoc. generalize (k ++ n). intros l.
    induction l as [|x l IH]; [done|]. cbn. by rewrite bool_decide_eq_true_2.
  - intros salt q h [= <-]. by apply bool_decide_eq_true.
  - intros salt p q h [= <-]. by intros ?%bool_decide_eq_true.
Qed.

Lemma plain_encrypts : @Encrypts PlainCrypto.crypto.
Proof. intros salt n pw pt _ _. by eexists. Qed.

Definition ex_salt : bytes := replicate 16 (byte_of_Z 7).
Definition ex_nonce : bytes := replicate 12 (byte_of_Z 9).
Definition ex_admin : AuthUser := {| user_id := lit "u1"; is_admin := true |}.
Definition ex_state : State :=
  {| vars := []; users := {[ lit "u1" := {| username := lit "ann"; password_hash := lit "hunter2hunter2" |} ]};
     folders := {[ lit "f1" := lit "app" ]}; env_unlock := Inner_default |}.
Definition ex_draws (uuid : string) : Draws :=
  {| d_uuid := lit uuid; d_now := lit "now"; d_salt := ex_salt; d_nonce := ex_nonce |}.
Definition ex_body (nm v pw : string) : UpsertBody :=
  {| b_name := lit nm; b_value := lit v; b_encrypt := true; b_password := Some (lit pw); b_folder_id := None |}.

Definition or_state (st : State) (r : Reply State) : State := match r with Ok s => s | Err _ => st end.

#[local] Existing Instance PlainCrypto.crypto.
#[local] Existing Instance plain_laws.
#[local] Existing Instance plain_encrypts.

Definition ex_sealed : State :=
  or_state ex_state (upsert ex_admin (ex_draws "v1") (ex_body "API_KEY" "s3cret-1" "hunter2hunter2") ex_state).

Lemma ex_state_ok : state_ok ex_state.
Proof.
  split; [split; constructor|]. intros u user Hu. exists (password_hash user), []. done.
Qed.

Lemma ex_sealed_step : env_step ex_state ex_sealed.
Proof.
  apply (step_upsert ex_admin (ex_draws "v1") (ex_body "API_KEY" "s3cret-1" "hunter2hunter2")).
  - split; reflexivity.
  - apply (bool_decide_eq_true_1 (Forall scalar _)). vm_compute. reflexivity.
  - vm_compute. reflexivity.
Qed.

Lemma password_always_unlocks_witness :
  ∃ r st' m, unlock (λ _, true) 0 ex_admin (lit "hunter2hunter2") OneHour ex_sealed = Ok (r, st') ∧
    (cache_get_at 5 (lit "u1") (env_unlock st')).1 = Some m ∧ m !! lit "v1" = Some (lit "s3cret-1").
Proof.
  destruct (password_always_unlocks ex_state ex_sealed ex_admin
    {| username := lit "ann"; password_hash := lit "hunter2hunter2" |} (lit "hunter2hunter2") (λ _, true) 0 OneHour
    ex_state_ok (rtc_once _ _ ex_sealed_step)) as (_ & r & st' & m & Hu & Hc & Hm).
  - vm_compute. reflexivity.
  - by exists [].
  - vm_compute. lia.
  - vm_compute. done.
  - exists r, st', m. split; [exact Hu|]. split.
    + apply (Hc 5). intros t [= <-]. vm_compute. reflexivity.
    + apply Hm. eexists. split; [left|]. vm_compute. split_and!; reflexivity.
Defined.

Lemma unlock_window_exact_witness :
  clock 0 [(1, RPut (lit "u1") {[ lit "v1" := lit "s3cret" ]} (Some 10)); (5, RSnapshot)] 9 ∧
  (cache_get_at 9 (lit "u1")
     (reg_run [(1, RPut (lit "u1") {[ lit "v1" := lit "s3cret" ]} (Some 10)); (5, RSnapshot)] Inner_default)).1
  = Some {[ lit "v1" := lit "s3cret" ]}.
Proof.
  assert (clock 0 [(1, RPut (lit "u1") {[ lit "v1" := lit "s3cret" ]} (Some 10)); (5, RSnapshot)] 9) as Hc
    by (cbn; lia).
  split; [exact Hc|]. rewrite (proj1 (unlock_window_exact _ 9 Hc) (lit "u1")). vm_compute. reflexivity.
Defined.

Lemma command_env_safe_witness :
  NoDup (scope <$> vars ex_sealed) ∧
  let '(_, masker, _) := command_env_blocking ascii_alphanumeric 0 ex_sealed None
    [(lit "MY_TOKEN", lit "tok-12345")] None ∅ in
  ∃ c blocks, mask ascii_alphanumeric masker (lit "token: TOK 12345.") = Some c ∧
    into_owned c = redact (lit "token: TOK 12345.") 0 blocks ∧
    hides ascii_alphanumeric (lit "tok-12345") (lit "token: TOK 12345.") blocks.
Proof.
  assert (NoDup (scope <$> vars ex_sealed)) as HN
    by (apply (bool_decide_eq_true_1 (NoDup _)); vm_compute; reflexivity).
  split; [exact HN|].
  pose proof (command_env_safe ascii_alphanumeric 0 ex_sealed None [(lit "MY_TOKEN", lit "tok-12345")] None ∅ HN) as Hs.
  cbn zeta in Hs. destruct (command_env_blocking _ _ _ _ _ _ _) as [[inject masker] st'].
  destruct Hs as [_ Hs]. destruct (Hs (lit "token: TOK 12345.")) as (c & blocks & Hm & Ho & _ & _ & Hhost & _).
  exists c, blocks. split_and!; [exact Hm|exact Ho|]. apply (Hhost (lit "MY_TOKEN")); [left|reflexivity].
Defined.

(** ** Two sequences of requests the code does not handle *)

(** After an administrator has reset a user's password and the user has
    sealed another variable under the new one, neither password unlocks
    anything: the handler wants every variable to open under one password. *)
Theorem reset_strands_vars :
  let st := or_state ex_sealed (admin_set_password ex_admin (lit "u1") (lit "changed-changed") [] ex_sealed) in
  let st := or_state st (upsert ex_admin (ex_draws "v2") (ex_body "OTHER" "s3cret-2" "changed-changed") st) in
  length (vars st) = 2%nat ∧
  unlock (λ _, true) 0 ex_admin (lit "hunter2hunter2") OneHour st = Err WrongPassword ∧
  unlock (λ _, true) 0 ex_admin (lit "changed-changed") OneHour st = Err WrongPassword.
Proof. vm_compute. done. Qed.

(** Changing an unlocked variable does not touch the cache, which is keyed by
    the row's id: commands go on getting the old value. *)
Theorem update_injects_old_value :
  let st := match unlock (λ _, true) 0 ex_admin (lit "hunter2hunter2") OneHour ex_sealed with
            | Ok (_, s) => s | Err _ => ex_sealed end in
  let st := or_state st (upsert ex_admin (ex_draws "v9") (ex_body "API_KEY" "rotated-1" "hunter2hunter2") st) in
  (decrypt_row (lit "hunter2hunter2") <$> vars st) = [Some (lit "rotated-1")] ∧
  (command_env_blocking ascii_alphanumeric 1 st None [] None ∅).1.1 = [(lit "API_KEY", lit "s3cret-1")].
Proof. vm_compute. done. Qed.
