(* ===== verification/EditFile.v ===== *)
(** * Positioned edits

    src/service/mcp_server/common_tools/edit.rs: the tool [edit_file], which
    applies insert, update and delete operations addressed by line and column
    of the file as it was read, guarded by a hash of that text.  JSON values
    are the interface [EditJson]; the host's file functions and [hash_text]
    (the sha2 crate) are parameters.  A panic of an index or a slice is the
    error [Panic]. *)

From S2P Require Import Prelude CharStr.

#[local] Open Scope nat_scope.

(** [serde_json::Value] as the engine reads it. *)
Class EditJson := {
  Value : Type;
  get : Value → string → option Value;
  is_null : Value → bool;
  as_str : Value → option str;
  as_u64 : Value → option nat;
  as_array : Value → option (list Value);
}.

Inductive EditErr :=
| NotArray | EmptyEdits
| BadPosition (key : string) | MissingPosition (key : string)
| BadOp | UnknownOp (op : str) | MissingText (op : string)
| LineOutOfRange (line n_lines : nat) | ColumnBeyond (col line n_chars : nat)
| InsertOutOfRange (line n_lines : nat)
| StartAfterEnd (sl el : nat) | EndOutOfRange (el n_lines : nat)
| EndBeforeStart (el ec sl sc : nat) | OneColumn
| EditFailed (i : nat) (e : EditErr)
| Overlap (i j : nat)
| Panic.

Abbreviation Out := (Result EditErr).

(** An index or slice that panics where it has no value. *)
Definition or_panic {A} (o : option A) : Out A := ok_or Panic o.

Record Splice := { sp_start : nat; sp_end : nat; sp_text : str }.

(** The loop over [content.bytes().enumerate()], from byte [i]. *)
Fixpoint newline_starts (i : nat) (bs : bytes) : list nat :=
  match bs with
  | [] => []
  | b :: bs' => if byte_to_Z b == 10%Z then (i + 1) :: newline_starts (S i) bs' else newline_starts (S i) bs'
  end.

Definition line_starts (content : str) : list nat := 0 :: newline_starts 0 (encode content).

(** [content.lines().count()]: each newline ends a line, and what follows the
    last one is a line unless it is empty. *)
Definition lines_count (s : str) : nat :=
  length (List.filter (λ c, c == newline) s) + (if (s == []) || ends_with s newline then 0 else 1).

Section edit.
Context `{EditJson}.

Definition opt_pos (e : Value) (key : string) : Out (option nat) :=
  match get e key with
  | None => Ok None
  | Some v =>
    if is_null v then Ok None
    else match as_u64 v with
    | Some n => if 1 <=? n then Ok (Some n) else Err (BadPosition key)
    | None => Err (BadPosition key)
    end
  end.

Definition req_pos (e : Value) (key : string) : Out nat :=
  p ← opt_pos e key; ok_or (MissingPosition key) p.

Definition get_str (e : Value) (key : string) : option str := v ← get e key; as_str v.

Definition byte_at (content : str) (ls : list nat) (n_lines line col : nat) : Out nat :=
  if (line <? 1) || (n_lines <? line) then Err (LineOutOfRange line n_lines)
  else
    start ← or_panic (ls !! (line - 1));
    end_ ← (if line <? length ls then e ← or_panic (ls !! line); Ok (e - 1) else Ok (str_len content));
    line_str ← or_panic (slice content start end_);
    let n_chars := length line_str in
    if n_chars + 1 <? col then Err (ColumnBeyond col line n_chars)
    else
      let byte := match char_indices 0 line_str !! (col - 1) with
                  | Some (b, _) => b | None => str_len line_str end in
      Ok (start + byte).

Definition resolve_insert (content : str) (ls : list nat) (n_lines : nat) (e : Value) : Out Splice :=
  line ← req_pos e "line";
  text ← ok_or (MissingText "insert") (get_str e "text");
  column ← opt_pos e "column";
  match column with
  | Some col =>
    pos ← byte_at content ls n_lines line col;
    Ok {| sp_start := pos; sp_end := pos; sp_text := text |}
  | None =>
    if line <=? n_lines then
      pos ← or_panic (ls !! (line - 1));
      let t := if ends_with text newline then text else text ++ [newline] in
      Ok {| sp_start := pos; sp_end := pos; sp_text := t |}
    else if line =? n_lines + 1 then
      let t := if (content != []) && negb (ends_with content newline) then newline :: text else text in
      Ok {| sp_start := str_len content; sp_end := str_len content; sp_text := t |}
    else Err (InsertOutOfRange line n_lines)
  end.

Definition resolve_range (content : str) (ls : list nat) (n_lines : nat) (update : bool) (e : Value) :
    Out Splice :=
  sl ← req_pos e "start_line";
  el ← req_pos e "end_line";
  text ← (if update then ok_or (MissingText "update") (get_str e "text") else Ok []);
  sc ← opt_pos e "start_column";
  ec ← opt_pos e "end_column";
  match sc, ec with
  | None, None =>
    if el <? sl then Err (StartAfterEnd sl el)
    else if n_lines <? el then Err (EndOutOfRange el n_lines)
    else
      start ← or_panic (ls !! (sl - 1));
      end_ ← (if el <? length ls then or_panic (ls !! el) else Ok (str_len content));
      before ← or_panic (slice_to content end_);
      let t := if (text != []) && negb (ends_with text newline) && ends_with before newline
               then text ++ [newline] else text in
      Ok {| sp_start := start; sp_end := end_; sp_text := t |}
  | Some sc, Some ec =>
    start ← byte_at content ls n_lines sl sc;
    end_ ← byte_at content ls n_lines el ec;
    if end_ <? start then Err (EndBeforeStart el ec sl sc)
    else Ok {| sp_start := start; sp_end := end_; sp_text := text |}
  | _, _ => Err OneColumn
  end.

Definition resolve_one (content : str) (ls : list nat) (n_lines : nat) (e : Value) : Out Splice :=
  op ← ok_or BadOp (get_str e "op");
  if op == lit "insert" then resolve_insert content ls n_lines e
  else if op == lit "update" then resolve_range content ls n_lines true e
  else if op == lit "delete" then resolve_range content ls n_lines false e
  else Err (UnknownOp op).

(** [for (i, e) in list.iter().enumerate()], from index [i]. *)
Fixpoint resolve_all (content : str) (ls : list nat) (n_lines i : nat) (l : list Value) : Out (list Splice) :=
  match l with
  | [] => Ok []
  | e :: l' =>
    sp ← (match resolve_one content ls n_lines e with Ok sp => Ok sp | Err m => Err (EditFailed (i + 1) m) end);
    rest ← resolve_all content ls n_lines (S i) l';
    Ok (sp :: rest)
  end.

(** The sort key [(start, end, i)] of a numbered splice. *)
Definition key_le (a b : nat * Splice) : bool :=
  (sp_start a.2 <? sp_start b.2) ||
  ((sp_start a.2 =? sp_start b.2) &&
   ((sp_end a.2 <? sp_end b.2) || ((sp_end a.2 =? sp_end b.2) && (a.1 <=? b.1)))).

(** [order], each index with its splice. *)
Definition ordered (splices : list Splice) : list (nat * Splice) :=
  sort_by key_le (imap pair splices).

(** [order.windows(2)]. *)
Fixpoint check_overlap (order : list (nat * Splice)) : Out unit :=
  match order with
  | a :: ((b :: _) as rest) =>
    if sp_start b.2 <? sp_end a.2 then Err (Overlap (a.1 + 1) (b.1 + 1)) else check_overlap rest
  | _ => Ok tt
  end.

(** [String::replace_range]. *)
Definition replace_range (s : str) (a b : nat) (t : str) : option str :=
  if b <? a then None else pre ← slice_to s a; post ← slice_from s b; Some (pre ++ t ++ post).

(** The loop over [order.iter().rev()]. *)
Fixpoint apply_rev (out : str) (rev_order : list (nat * Splice)) : Out str :=
  match rev_order with
  | [] => Ok out
  | (_, sp) :: rest =>
    out ← or_panic (replace_range out (sp_start sp) (sp_end sp) (sp_text sp));
    apply_rev out rest
  end.

Definition apply_edits (content : str) (edits : Value) : Out str :=
  l ← ok_or NotArray (as_array edits);
  if l is [] then Err EmptyEdits
  else
    let ls := line_starts content in
    let n_lines := lines_count content in
    splices ← resolve_all content ls n_lines 0 l;
    let order := ordered splices in
    _ ← check_overlap order;
    apply_rev content (reverse order).
End edit.

(** ** No panics

    [yields P r]: the computation does not panic, and a value it returns
    satisfies [P]. *)

Fixpoint panics (e : EditErr) : bool :=
  match e with Panic => true | EditFailed _ e' => panics e' | _ => false end.

Definition yields {A} (P : A → Prop) (r : Out A) : Prop :=
  match r with Ok a => P a | Err e => panics e = false end.

Lemma yields_bind {A B} (P : A → Prop) (Q : B → Prop) (r : Out A) f :
  yields P r → (∀ a, P a → yields Q (f a)) → yields Q (r ≫= f).
Proof. destruct r; cbn; auto. Qed.

Lemma yields_ok_or {A} (P : A → Prop) e (o : option A) :
  panics e = false → (∀ a, o = Some a → P a) → yields P (ok_or e o).
Proof. destruct o; cbn; auto. Qed.

Lemma yields_or_panic {A} (P : A → Prop) (o : option A) :
  (∃ a, o = Some a ∧ P a) → yields P (or_panic o).
Proof. by intros (a & -> & Ha). Qed.

(** ** Lines *)

(** The character positions at which lines after the first start. *)
Fixpoint starts_from (p : nat) (s : str) : list nat :=
  match s with
  | [] => []
  | c :: s' => if c == newline then S p :: starts_from (S p) s' else starts_from (S p) s'
  end.

Definition starts (content : str) : list nat := 0 :: starts_from 0 content.

Lemma newline_starts_skip i bs rest :
  Forall (λ b, byte_to_Z b ≠ 10%Z) bs → newline_starts i (bs ++ rest) = newline_starts (i + length bs) rest.
Proof.
  intros HF. revert i. induction HF as [|b bs Hb HF IH]; intros i; cbn; [by rewrite Nat.add_0_r|].
  rewrite bool_decide_eq_false_2, IH by done. f_equal. lia.
Qed.

(** No byte of another character is that of a newline. *)
Lemma encode_char_newline c : scalar c → c ≠ newline → Forall (λ b, byte_to_Z b ≠ 10%Z) (encode_char c).
Proof.
  intros Hc Hn. unfold scalar, newline in *. unfold encode_char. apply Forall_fmap, Forall_forall. intros z Hz. cbn.
  assert (0 ≤ z < 256 ∧ z ≠ 10)%Z as [Hr Hz']; [|by rewrite byte_to_of, Z.mod_small].
  repeat case_match; rewrite ?Z.ltb_lt, ?Z.ltb_ge in *;
    repeat (apply elem_of_cons in Hz as [->|Hz]; [dlia|]); by apply not_elem_of_nil in Hz.
Qed.

Lemma length_encode_char c : length (encode_char c) = len_utf8 c.
Proof. unfold encode_char, len_utf8. by repeat case_match. Qed.

Lemma newline_starts_chars content p s :
  Forall scalar s → drop p content = s →
  newline_starts (off content p) (encode s) = off content <$> starts_from p s.
Proof.
  intros HF. revert p. induction HF as [|c s Hc HF IH]; intros p Hd; [done|].
  assert (content !! p = Some c) as Hp by (by rewrite <- (Nat.add_0_r p), <- lookup_drop, Hd).
  assert (drop (S p) content = s) as Hd' by (by erewrite drop_S in Hd; [injection Hd|]).
  change (encode (c :: s)) with (encode_char c ++ encode s). cbn [starts_from].
  destruct (decide (c = newline)) as [->|Hn].
  - rewrite bool_decide_eq_true_2 by done. change (encode_char newline) with [byte_of_Z 10].
    cbn [app newline_starts]. rewrite fmap_cons, <- (IH (S p) Hd'), (off_S _ _ _ Hp).
    change (len_utf8 newline) with 1. rewrite !Nat.add_1_r. reflexivity.
  - rewrite bool_decide_eq_false_2 by done.
    rewrite newline_starts_skip by (by apply encode_char_newline).
    rewrite length_encode_char, <- (off_S _ _ _ Hp). by apply IH.
Qed.

Lemma line_starts_chars content : Forall scalar content → line_starts content = off content <$> starts content.
Proof.
  intros HF. unfold line_starts, starts. rewrite fmap_cons, off_0. f_equal.
  rewrite <- (newline_starts_chars content 0 content HF eq_refl). by rewrite off_0.
Qed.

Lemma starts_from_spec content p s k q :
  drop p content = s → starts_from p s !! k = Some q →
  p < q ≤ length content ∧ content !! (q - 1) = Some newline.
Proof.
  revert p k. induction s as [|c s IH]; intros p k Hd; [done|].
  assert (content !! p = Some c) as Hp by (by rewrite <- (Nat.add_0_r p), <- lookup_drop, Hd).
  assert (drop (S p) content = s) as Hd' by (by erewrite drop_S in Hd; [injection Hd|]).
  cbn. case_bool_decide as E; [destruct k as [|k]|].
  - intros [= <-]. apply lookup_lt_Some in Hp as Hl. cbn. rewrite Nat.sub_0_r. subst c. split; [lia|done].
  - intros [? ?]%(IH (S p) k Hd'). split; [lia|done].
  - intros [? ?]%(IH (S p) k Hd'). split; [lia|done].
Qed.

Lemma starts_le content k q : starts content !! k = Some q → q ≤ length content.
Proof. destruct k as [|k]; [intros [= <-]; lia|]. intros [? _]%(starts_from_spec content 0 content k q eq_refl). lia. Qed.

(** A line ends with the newline before the next. *)
Lemma starts_next content k q q' :
  starts content !! k = Some q → starts content !! S k = Some q' →
  q < q' ∧ content !! (q' - 1) = Some newline.
Proof.
  unfold starts. cbn.
  cut (∀ s p k q q', drop p content = s → (p :: starts_from p s) !! k = Some q → starts_from p s !! k = Some q' →
    q < q' ∧ content !! (q' - 1) = Some newline).
  { intros Hg Hq Hq'. by apply (Hg content 0 k). }
  clear. induction s as [|c s IH]; intros p k q q' Hd; [done|].
  assert (drop (S p) content = s) as Hd'.
  { destruct (content !! p) as [d|] eqn:Hp; [by erewrite drop_S in Hd; [injection Hd|]|].
    apply lookup_ge_None in Hp. by rewrite drop_ge in Hd by lia. }
  destruct k as [|k]; cbn [lookup list_lookup].
  - intros [= <-] Hq'. by eapply starts_from_spec in Hq' as [[? _] ?].
  - cbn [starts_from]. case_bool_decide as E.
    + intros Hq Hq'. by apply (IH (S p) k).
    + intros Hq Hq'. apply (IH (S p) (S k)); [done|exact Hq|exact Hq'].
Qed.

Lemma starts_mono content k k' q q' :
  starts content !! k = Some q → starts content !! k' = Some q' → k ≤ k' → q ≤ q'.
Proof.
  intros Hq Hq' Hk. revert q' Hq'. induction Hk as [|k' Hk IH]; intros q' Hq'; [by simplify_eq|].
  destruct (lookup_lt_is_Some_2 (starts content) k') as [q'' Hq'']; [apply lookup_lt_Some in Hq'; lia|].
  destruct (starts_next _ _ _ _ Hq'' Hq') as [? _]. specialize (IH _ Hq''). lia.
Qed.

Lemma starts_from_length p s : length (starts_from p s) = length (List.filter (λ c, c == newline) s).
Proof. revert p. induction s as [|c s IH]; intros p; cbn; [done|]. case_bool_decide; cbn; by rewrite IH. Qed.

(** Every counted line has a start. *)
Lemma lines_count_le content : lines_count content ≤ length (starts content).
Proof.
  unfold lines_count, starts. cbn [length]. rewrite starts_from_length. case_match; lia.
Qed.

(** ** Positions *)

Section positions.
Context `{EditJson} (content : str) (Hsc : Forall scalar content).
#[local] Notation ls := (line_starts content).
#[local] Notation n_lines := (lines_count content).

Lemma ls_lookup k : ls !! k = off content <$> starts content !! k.
Proof. by rewrite line_starts_chars, list_lookup_fmap. Qed.

Lemma ls_length : length ls = length (starts content).
Proof. by rewrite line_starts_chars, length_fmap. Qed.

Lemma line_start line :
  1 ≤ line ≤ n_lines → ∃ q, starts content !! (line - 1) = Some q ∧ q ≤ length content ∧
    ls !! (line - 1) = Some (off content q).
Proof.
  intros Hl. pose proof (lines_count_le content).
  destruct (lookup_lt_is_Some_2 (starts content) (line - 1) ltac:(lia)) as [q Hq].
  exists q. rewrite ls_lookup, Hq. split_and!; [done|by eapply starts_le|done].
Qed.

Lemma off_pred q : content !! (q - 1) = Some newline → 1 ≤ q → off content q - 1 = off content (q - 1).
Proof.
  intros Hn Hq. replace q with (S (q - 1)) at 1 by lia. rewrite (off_S _ _ _ Hn).
  change (len_utf8 newline) with 1. lia.
Qed.

(** A line and column is the position of that many characters from the start
    of the line. *)
Lemma byte_at_spec line col :
  1 ≤ col →
  yields (λ n, ∃ q, starts content !! (line - 1) = Some q ∧ q + (col - 1) ≤ length content ∧
                    n = off content (q + (col - 1)))
    (byte_at content ls n_lines line col).
Proof.
  intros Hcol. unfold byte_at. destruct ((line <? 1) || _) eqn:E; [done|].
  apply orb_false_iff in E as [E1%Nat.ltb_ge E2%Nat.ltb_ge].
  destruct (line_start line) as (q & Hq & Hle & Hls); [lia|]. rewrite Hls. cbn [or_panic ok_or mbind result_bind].
  eapply (yields_bind (λ e, ∃ q', e = off content q' ∧ q ≤ q' ≤ length content)).
  { destruct (line <? length ls) eqn:E3.
    - apply Nat.ltb_lt in E3. rewrite ls_length in E3.
      destruct (lookup_lt_is_Some_2 _ _ E3) as [q' Hq']. rewrite ls_lookup, Hq'. cbn.
      destruct (starts_next content (line - 1) q q' Hq) as [Hlt Hn]; [by replace (S (line - 1)) with line by lia|].
      exists (q' - 1). pose proof (starts_le _ _ _ Hq'). split; [by apply off_pred; [|lia]|lia].
    - exists (length content). by rewrite off_length. }
  intros e (q' & -> & Hqq' & Hlen). rewrite slice_off by lia. cbn [or_panic ok_or mbind result_bind].
  set (line_str := take (q' - q) (drop q content)). destruct (_ <? col) eqn:E4; [done|]. apply Nat.ltb_ge in E4.
  assert (length line_str = q' - q) as Hl by (unfold line_str; rewrite length_take, length_drop; lia).
  cbn. exists q. split_and!; [done|lia|]. rewrite <- off_drop. f_equal.
  transitivity (off line_str (col - 1)).
  - rewrite char_indices_lookup. destruct (line_str !! (col - 1)) as [c|] eqn:Ec; cbn; [done|].
    apply lookup_ge_None in Ec. unfold off. by rewrite take_ge.
  - unfold line_str, off. rewrite take_take. do 2 f_equal. lia.
Qed.

(** The splice replaces a range of characters. *)
Definition on_chars (sp : Splice) : Prop :=
  ∃ a b, sp_start sp = off content a ∧ sp_end sp = off content b ∧ a ≤ b ≤ length content.

Lemma opt_pos_spec e key : yields (λ p, ∀ n, p = Some n → 1 ≤ n) (opt_pos e key).
Proof.
  unfold opt_pos. repeat case_match; cbn; try done. intros n' [= <-]. by apply Nat.leb_le.
Qed.

Lemma req_pos_spec e key : yields (λ n, 1 ≤ n) (req_pos e key).
Proof.
  unfold req_pos. eapply yields_bind; [apply opt_pos_spec|]. intros p Hp. by apply yields_ok_or.
Qed.

Lemma resolve_insert_spec e : yields on_chars (resolve_insert content ls n_lines e).
Proof.
  unfold resolve_insert. eapply yields_bind; [apply req_pos_spec|]. intros line Hline. cbn beta in Hline.
  eapply (yields_bind (λ _, True)); [by apply yields_ok_or|]. intros text _.
  eapply yields_bind; [apply opt_pos_spec|]. intros [col|] Hcol.
  - eapply yields_bind; [apply byte_at_spec; by apply Hcol|]. intros n (q & _ & Hle & ->). cbn.
    exists (q + (col - 1)), (q + (col - 1)). done.
  - destruct (line <=? n_lines) eqn:E.
    + apply Nat.leb_le in E. destruct (line_start line ltac:(lia)) as (q & _ & Hle & ->). cbn.
      exists q, q. done.
    + destruct (_ =? _); [|done]. cbn. exists (length content), (length content). by rewrite off_length.
Qed.

Lemma resolve_range_spec update e : yields on_chars (resolve_range content ls n_lines update e).
Proof.
  unfold resolve_range. eapply yields_bind; [apply req_pos_spec|]. intros sl Hsl. cbn beta in Hsl.
  eapply yields_bind; [apply req_pos_spec|]. intros el Hel. cbn beta in Hel.
  eapply (yields_bind (λ _, True)); [destruct update; [by apply yields_ok_or|done]|]. intros text _.
  eapply yields_bind; [apply opt_pos_spec|]. intros sc Hsc'.
  eapply yields_bind; [apply opt_pos_spec|]. intros ec Hec. destruct sc as [sc|], ec as [ec|]; try done.
  - eapply yields_bind; [apply byte_at_spec; by apply Hsc'|]. intros s (q & _ & Hle & ->).
    eapply yields_bind; [apply byte_at_spec; by apply Hec|]. intros n (q' & _ & Hle' & ->).
    destruct (_ <? _) eqn:E; [done|]. apply Nat.ltb_ge in E. cbn.
    destruct (decide (q + (sc - 1) ≤ q' + (ec - 1))); [by exists (q + (sc - 1)), (q' + (ec - 1))|].
    pose proof (off_lt content (q' + (ec - 1)) (q + (sc - 1))). lia.
  - destruct (el <? sl) eqn:E1; [done|]. apply Nat.ltb_ge in E1.
    destruct (n_lines <? el) eqn:E2; [done|]. apply Nat.ltb_ge in E2.
    destruct (line_start sl ltac:(lia)) as (q & Hq & Hle & ->). cbn [or_panic ok_or mbind result_bind].
    eapply (yields_bind (λ e, ∃ q', e = off content q' ∧ q ≤ q' ≤ length content)).
    { destruct (el <? length ls) eqn:E3.
      - apply Nat.ltb_lt in E3. rewrite ls_length in E3.
        destruct (lookup_lt_is_Some_2 _ _ E3) as [q' Hq']. rewrite ls_lookup, Hq'. cbn. exists q'. split; [done|].
        split; [eapply (starts_mono _ (sl - 1) el); [done..|lia]|by eapply starts_le].
      - exists (length content). by rewrite off_length. }
    intros n (q' & -> & Hqq' & Hlen). rewrite slice_to_off by done. cbn. exists q, q'. done.
Qed.

Lemma resolve_one_spec e : yields on_chars (resolve_one content ls n_lines e).
Proof.
  unfold resolve_one. eapply (yields_bind (λ _, True)); [by apply yields_ok_or|]. intros op _.
  repeat case_match; [apply resolve_insert_spec|apply resolve_range_spec|apply resolve_range_spec|done].
Qed.

Lemma resolve_all_spec i l :
  yields (λ sps, Forall on_chars sps ∧ length sps = length l ∧
                 ∀ k e, l !! k = Some e → ∃ sp, sps !! k = Some sp ∧ resolve_one content ls n_lines e = Ok sp)
    (resolve_all content ls n_lines i l).
Proof.
  revert i. induction l as [|e l IH]; intros i; cbn [resolve_all]; [by cbn|].
  eapply (yields_bind (λ sp, on_chars sp ∧ resolve_one content ls n_lines e = Ok sp)).
  { pose proof (resolve_one_spec e) as Hs. destruct (resolve_one content ls n_lines e); cbn in *; done. }
  intros sp [Hsp He]. eapply yields_bind; [apply IH|]. intros sps (HF & Hlen & Hl). cbn. split_and!; [by constructor|lia|].
  intros [|k] e' Hk; cbn in *; [|by apply Hl]. injection Hk as ->. by exists sp.
Qed.
End positions.

(** ** Applying the splices *)

(** A replacement of a range of characters, and all of them at once, from
    position [at_]. *)
Record Change := { c_start : nat; c_end : nat; c_text : str }.

Fixpoint subst (content : str) (at_ : nat) (cs : list Change) : str :=
  match cs with
  | [] => drop at_ content
  | c :: cs' => take (c_start c - at_) (drop at_ content) ++ c_text c ++ subst content (c_end c) cs'
  end.

(** Changes in order that do not overlap. *)
Fixpoint disjoint_from (lo : nat) (cs : list Change) : Prop :=
  match cs with
  | [] => True
  | c :: cs' => lo ≤ c_start c ∧ c_start c ≤ c_end c ∧ disjoint_from (c_end c) cs'
  end.

(** [c] is the splice [sp] by characters. *)
Definition means (content : str) (sp : Splice) (c : Change) : Prop :=
  sp_start sp = off content (c_start c) ∧ sp_end sp = off content (c_end c) ∧
  c_start c ≤ c_end c ≤ length content ∧ sp_text sp = c_text c.

Lemma apply_rev_app out l r : apply_rev out (l ++ r) = apply_rev out l ≫= λ out', apply_rev out' r.
Proof.
  revert out. induction l as [|[i sp] l IH]; intros out; [done|]. cbn [app apply_rev].
  destruct (or_panic _) as [out'|]; [apply IH|done].
Qed.

Lemma take_split {A} (l : list A) a b : a ≤ b → take b l = take a l ++ take (b - a) (drop a l).
Proof.
  intros Hab. rewrite <- (take_drop a (take b l)) at 1. rewrite take_take, skipn_firstn_comm.
  by replace (a `min` b) with a by lia.
Qed.

(** Back to front the offsets of the original text stay valid, so the loop
    computes the simultaneous replacement. *)
Lemma apply_rev_subst content lo order cs :
  lo ≤ length content → Forall2 (λ o c, means content o.2 c) order cs → disjoint_from lo cs →
  apply_rev content (reverse order) = Ok (take lo content ++ subst content lo cs).
Proof.
  intros Hlo HF. revert lo Hlo. induction HF as [|[i sp] c order cs (Hs & He & Hle & Ht) HF IH]; intros lo Hlo Hd.
  { cbn. by rewrite take_drop. }
  destruct Hd as (H1 & H2 & Hd). rewrite reverse_cons, apply_rev_app, (IH (c_end c)) by (done || lia).
  cbn [mbind result_bind apply_rev snd] in *. rewrite Hs, He, Ht. unfold replace_range.
  rewrite (proj2 (Nat.ltb_ge _ _)) by (apply off_le; lia).
  set (out := take (c_end c) content ++ subst content (c_end c) cs).
  assert (∀ k, k ≤ c_end c → off content k = off out k ∧ take k out = take k content) as Hk.
  { intros k Hk. assert (take k out = take k content) as E.
    { unfold out. rewrite take_app_le by (rewrite length_take; lia). rewrite take_take. f_equal. lia. }
    unfold off. by rewrite E. }
  assert (c_end c ≤ length out) by (unfold out; rewrite length_app, length_take; lia).
  destruct (Hk (c_start c)) as [-> E1]; [lia|]. destruct (Hk (c_end c)) as [-> _]; [lia|].
  rewrite slice_to_off, slice_from_off by lia. cbn [mbind option_bind or_panic ok_or result_bind]. rewrite E1.
  assert (drop (c_end c) out = subst content (c_end c) cs) as ->.
  { unfold out. replace (c_end c) with (length (take (c_end c) content)) at 1 by (rewrite length_take; lia).
    by rewrite drop_app_length. }
  cbn [apply_rev]. f_equal. rewrite (take_split content lo (c_start c)) by lia. by rewrite <- app_assoc.
Qed.


(** ** Overlaps *)

(** Two ranges overlap; an empty one does inside another, not at its ends. *)
Definition conflicts (a b : Splice) : Prop := sp_start a < sp_end b ∧ sp_start b < sp_end a.

Definition proper_splice (o : nat * Splice) : Prop := sp_start o.2 ≤ sp_end o.2.

Abbreviation by_key := (StronglySorted (λ a b, key_le a b = true)).

Lemma key_le_iff a b :
  key_le a b = true ↔
  sp_start a.2 < sp_start b.2 ∨ (sp_start a.2 = sp_start b.2 ∧
    (sp_end a.2 < sp_end b.2 ∨ (sp_end a.2 = sp_end b.2 ∧ a.1 ≤ b.1))).
Proof. unfold key_le. by rewrite !orb_true_iff, !andb_true_iff, !orb_true_iff, !andb_true_iff, !Nat.ltb_lt, !Nat.eqb_eq, !Nat.leb_le. Qed.

Lemma ordered_sorted sps : by_key (ordered sps).
Proof.
  apply sort_by_StronglySorted.
  - intros a b Hn. apply key_le_iff. destruct (key_le a b) eqn:E; [done|].
    assert (¬ (key_le a b = true)) as H by (by rewrite E). rewrite key_le_iff in H. lia.
  - intros a b c. rewrite !key_le_iff. lia.
Qed.

Lemma ordered_perm sps : ordered sps ≡ₚ imap pair sps.
Proof. apply sort_by_perm. Qed.

Lemma elem_of_ordered sps i sp : (i, sp) ∈ ordered sps ↔ sps !! i = Some sp.
Proof. rewrite ordered_perm. rewrite elem_of_lookup_imap. naive_solver. Qed.

(** The check of neighbours finds every overlap. *)
Lemma check_overlap_ok order :
  by_key order → Forall proper_splice order → check_overlap order = Ok tt →
  StronglySorted (λ a b, sp_end a.2 ≤ sp_start b.2) order.
Proof.
  intros Hs HF. induction Hs as [|a order Hs IH Ha]; intros Hc; [constructor|].
  apply Forall_cons in HF as [Hpa HF]. destruct order as [|b order]; [by repeat constructor|].
  cbn [check_overlap] in Hc. destruct (_ <? _) eqn:E; [done|]. apply Nat.ltb_ge in E.
  specialize (IH HF Hc). constructor; [done|]. apply StronglySorted_inv in IH as [_ IHb].
  apply Forall_cons in HF as [Hpb HF]. constructor; [done|].
  eapply Forall_impl; [exact IHb|]. unfold proper_splice in *. cbn. intros c ?. lia.
Qed.

Lemma check_overlap_err order e :
  by_key order → Forall proper_splice order → check_overlap order = Err e →
  ∃ a b, a ∈ order ∧ b ∈ order ∧ e = Overlap (a.1 + 1) (b.1 + 1) ∧ conflicts a.2 b.2 ∧ (NoDup order.*1 → a.1 ≠ b.1).
Proof.
  intros Hs HF. induction Hs as [|a order Hs IH Ha]; [done|]. apply Forall_cons in HF as [Hpa HF].
  destruct order as [|b order]; [done|]. cbn [check_overlap]. destruct (_ <? _) eqn:E.
  - intros [= <-]. apply Nat.ltb_lt in E. exists a, b. split_and!; [by left|right; by left|done| |].
    + apply Forall_cons in Ha as [Hab _]. apply key_le_iff in Hab. apply Forall_cons in HF as [Hpb _].
      unfold proper_splice, conflicts in *. lia.
    + rewrite !fmap_cons, NoDup_cons, not_elem_of_cons. naive_solver.
  - intros (c & d & Hc & Hd & He & Hcon & HN)%IH; [|done].
    exists c, d. split_and!; [by right|by right|done..|].
    rewrite fmap_cons, NoDup_cons. naive_solver.
Qed.

Lemma disjoint_changes content (order : list (nat * Splice)) cs lo :
  Forall2 (λ o c, means content o.2 c) order cs →
  StronglySorted (λ a b : nat * Splice, sp_end a.2 ≤ sp_start b.2) order →
  Forall (λ o, off content lo ≤ sp_start o.2) order →
  lo ≤ length content → disjoint_from lo cs.
Proof.
  intros HF. revert lo. induction HF as [|o c order cs (Hs & He & Hle & Ht) HF IH]; intros lo Hsorted Hlo Hlen; [done|].
  apply StronglySorted_inv in Hsorted as [Hsorted Ho]. apply Forall_cons in Hlo as [Hlo _]. cbn. split_and!.
  - destruct (decide (lo ≤ c_start c)); [done|]. pose proof (off_lt content (c_start c) lo). lia.
  - lia.
  - apply IH; [done| |lia]. eapply Forall_impl; [exact Ho|]. cbn. intros o' ?. lia.
Qed.

Lemma changes_exist content (order : list (nat * Splice)) :
  Forall (λ o, on_chars content o.2) order → ∃ cs, Forall2 (λ o c, means content o.2 c) order cs.
Proof.
  induction 1 as [|o order (a & b & Ha & Hb & Hab) HF [cs IH]]; [by exists []|].
  exists ({| c_start := a; c_end := b; c_text := sp_text o.2 |} :: cs). by constructor.
Qed.

Lemma imap_pair_fst {A} (l : list A) : NoDup (imap pair l).*1.
Proof.
  replace ((imap pair l).*1) with (seq 0 (length l)); [apply NoDup_seq|].
  apply list_eq. intros i. rewrite list_lookup_fmap, list_lookup_imap.
  destruct (l !! i) as [x|] eqn:E; cbn.
  - apply lookup_lt_Some in E. by apply lookup_seq.
  - apply lookup_ge_None in E. apply lookup_ge_None. by rewrite length_seq.
Qed.

Section exact.
Context `{EditJson}.

Lemma resolve_all_err content ls n i l e :
  resolve_all content ls n i l = Err e → ∃ k m, e = EditFailed k m.
Proof.
  revert i. induction l as [|x l IH]; intros i; cbn [resolve_all]; [done|].
  destruct (resolve_one content ls n x) as [sp|m]; cbn [mbind result_bind]; [|intros [= <-]; by do 2 eexists].
  destruct (resolve_all content ls n (S i) l) eqn:E; cbn; [done|]. intros [= ->]. by eapply IH.
Qed.

(** C36: Edits apply simultaneously.  On every well-formed text [apply_edits]
    returns without a panic.  Where it succeeds, each edit addressed a range of
    characters of the original text, no two ranges overlap, and the result is
    the original text with all ranges replaced at once, in order of position
    and for inserts at one position in the order listed.  Where it reports an
    overlap, the two edits it names do overlap. *)
Theorem apply_edits_exact content edits :
  Forall scalar content →
  match apply_edits content edits with
  | Ok out =>
    ∃ l sps cs, as_array edits = Some l ∧ length sps = length l ∧
      (∀ k e, l !! k = Some e → ∃ sp, sps !! k = Some sp ∧
        resolve_one content (line_starts content) (lines_count content) e = Ok sp) ∧
      ordered sps ≡ₚ imap pair sps ∧ by_key (ordered sps) ∧
      (∀ i j a b, sps !! i = Some a → sps !! j = Some b → i ≠ j → ¬ conflicts a b) ∧
      Forall2 (λ o c, means content o.2 c) (ordered sps) cs ∧ disjoint_from 0 cs ∧ out = subst content 0 cs
  | Err e =>
    panics e = false ∧
    ∀ i j, e = Overlap i j → ∃ l sps a b, as_array edits = Some l ∧
      resolve_all content (line_starts content) (lines_count content) 0 l = Ok sps ∧
      1 ≤ i ∧ 1 ≤ j ∧ i ≠ j ∧ sps !! (i - 1) = Some a ∧ sps !! (j - 1) = Some b ∧ conflicts a b
  end.
Proof.
  intros Hsc. unfold apply_edits. destruct (as_array edits) as [l|]; [|done]. cbn [ok_or mbind result_bind].
  destruct l as [|e0 l0]; [done|]. set (l := e0 :: l0). clearbody l.
  pose proof (resolve_all_spec content Hsc 0 l) as Hr.
  destruct (resolve_all _ _ _ 0 l) as [sps|e] eqn:Hall; cbn [yields mbind result_bind] in *.
  2:{ split; [done|]. intros i j ->. by destruct (resolve_all_err _ _ _ _ _ _ Hall) as (k & m & ?). }
  destruct Hr as (HF & Hlen & Hl).
  assert (Forall (λ o, on_chars content o.2) (ordered sps)) as Hon.
  { apply Forall_forall. intros [i sp] Hin%elem_of_ordered. rewrite Forall_lookup in HF. by eapply HF. }
  assert (Forall proper_splice (ordered sps)) as Hprop.
  { eapply Forall_impl; [exact Hon|]. intros o (a & b & Ha & Hb & Hab). unfold proper_splice. rewrite Ha, Hb.
    apply off_le. lia. }
  destruct (check_overlap (ordered sps)) as [[]|e] eqn:Hc; cbn [mbind result_bind].
  - pose proof (check_overlap_ok _ (ordered_sorted sps) Hprop Hc) as Hdis.
    destruct (changes_exist content _ Hon) as [cs Hcs].
    assert (disjoint_from 0 cs) as Hd.
    { eapply disjoint_changes; [exact Hcs|exact Hdis| |lia]. apply Forall_forall. intros. rewrite off_0. lia. }
    rewrite (apply_rev_subst content 0 _ cs) by (done || lia).
    exists l, sps, cs. split_and!; [done..|apply ordered_perm|apply ordered_sorted| |done|done|done].
    intros i j a b Hi Hj Hij [Hab Hba]. apply elem_of_ordered in Hi as [x Hx]%list_elem_of_lookup.
    apply elem_of_ordered in Hj as [y Hy]%list_elem_of_lookup. rewrite Forall_lookup in Hprop.
    pose proof (Hprop _ _ Hx) as Hpx. pose proof (Hprop _ _ Hy) as Hpy. unfold proper_splice in *. cbn in *.
    destruct (lt_eq_lt_dec x y) as [[Hlt| ->]|Hlt]; [|by simplify_eq|].
    + pose proof (sorted_lookup _ _ _ _ _ _ Hdis Hx Hy Hlt). cbn in *. lia.
    + pose proof (sorted_lookup _ _ _ _ _ _ Hdis Hy Hx Hlt). cbn in *. lia.
  - destruct (check_overlap_err _ _ (ordered_sorted sps) Hprop Hc) as ([i a] & [j b] & Hi & Hj & -> & Hcon & HN).
    split; [done|]. intros i' j' [= <- <-]. exists l, sps, a, b.
    apply elem_of_ordered in Hi, Hj. cbn in *. rewrite !Nat.add_sub.
    split_and!; [done|done|lia|lia| |done|done|done].
    assert (i ≠ j); [|lia]. apply HN. rewrite ordered_perm. apply imap_pair_fst.
Qed.
End exact.

(** ** The tool *)

Inductive ToolErr :=
| PathRequired | HashRequired | EditsRequired | HostError (msg : str) | Truncated (path : str)
| HashMismatch (path passed current : str) | EditError (e : EditErr).

Record EditReply := { r_path : str; r_applied : nat; r_hash : str; r_total_lines : nat }.

Section tool.
Context `{EditJson} (hash_text : str → str).
(** The host's [ReadFile] (whether the text is truncated, and the text) and
    [WriteFile]. *)
Context (read_file : str → Result str (bool * str)) (write_file : str → str → Result str unit).

(** The reply and what was sent to the host to write.  The diff shown in the
    chat is left out. *)
Definition edit_file_tool (args : Value) : Result ToolErr EditReply * option (str * str) :=
  match get_str args "path", get_str args "original_hash", get args "edits" with
  | None, _, _ => (Err PathRequired, None)
  | _, None, _ => (Err HashRequired, None)
  | _, _, None => (Err EditsRequired, None)
  | Some path, Some h, Some edits =>
    let original_hash := trim h in
    match read_file path with
    | Err m => (Err (HostError m), None)
    | Ok (truncated, content) =>
      if (truncated : bool) then (Err (Truncated path), None)
      else
        let current := hash_text content in
        if current != original_hash then (Err (HashMismatch path original_hash current), None)
        else match apply_edits content edits with
        | Err e => (Err (EditError e), None)
        | Ok new_content =>
          match write_file path new_content with
          | Err m => (Err (HostError m), Some (path, new_content))
          | Ok _ =>
            (Ok {| r_path := path; r_applied := length (default [] (as_array edits));
                   r_hash := hash_text new_content; r_total_lines := lines_count new_content |},
             Some (path, new_content))
          end
        end
    end
  end.

(** A file is written only with the edits applied to the text that was read,
    and only where that text has the hash the caller passed. *)
Theorem edit_file_guarded args r path text :
  edit_file_tool args = (r, Some (path, text)) →
  ∃ h edits content, get_str args "path" = Some path ∧ get_str args "original_hash" = Some h ∧
    get args "edits" = Some edits ∧ read_file path = Ok (false, content) ∧ hash_text content = trim h ∧
    apply_edits content edits = Ok text.
Proof.
  unfold edit_file_tool. destruct (get_str args "path") as [p|], (get_str args "original_hash") as [h|], (get args "edits") as [edits|]; try done.
  destruct (read_file p) as [[[] content]|m] eqn:Hr; [done| |done].
  destruct (hash_text content == trim h) eqn:Hh; [|done]. apply bool_decide_eq_true in Hh. cbn [negb].
  destruct (apply_edits content edits) as [t|e] eqn:Ha; [|done].
  destruct (write_file p t); intros [= <- <- <-]; by exists h, edits, content.
Qed.
End tool.

(** ** A concrete instance *)

Inductive J := JNull | JNum (n : nat) | JStr (s : str) | JArr (l : list J) | JObj (l : list (string * J)).

Definition j_get (v : J) (k : string) : option J :=
  match v with JObj l => snd <$> List.find (λ kv, kv.1 == k) l | _ => None end.

Definition ex_json : EditJson := {|
  Value := J; get := j_get;
  is_null v := match v with JNull => true | _ => false end;
  as_str v := match v with JStr s => Some s | _ => None end;
  as_u64 v := match v with JNum n => Some n | _ => None end;
  as_array v := match v with JArr l => Some l | _ => None end |}.

#[local] Existing Instance ex_json.

Definition nl : str := [newline].
Definition ex_content : str := lit "one" ++ nl ++ lit "two" ++ nl ++ lit "three".
Definition ex_edits : J := JArr
  [JObj [("op"%string, JStr (lit "update")); ("start_line"%string, JNum 2); ("end_line"%string, JNum 2);
         ("text"%string, JStr (lit "TWO"))];
   JObj [("op"%string, JStr (lit "insert")); ("line"%string, JNum 1); ("column"%string, JNum 4);
         ("text"%string, JStr (lit "!"))];
   JObj [("op"%string, JStr (lit "insert")); ("line"%string, JNum 4); ("text"%string, JStr (lit "four"))]].

Example apply_edits_ex :
  apply_edits ex_content ex_edits =
  Ok (lit "one!" ++ nl ++ lit "TWO" ++ nl ++ lit "three" ++ nl ++ lit "four").
Proof. vm_compute. reflexivity. Qed.

Lemma apply_edits_exact_witness :
  Forall scalar ex_content ∧
  match apply_edits ex_content ex_edits with
  | Ok out => ∃ cs, disjoint_from 0 cs ∧ out = subst ex_content 0 cs
  | Err _ => False
  end.
Proof.
  assert (Forall scalar ex_content) as Hs
    by (apply (bool_decide_eq_true_1 (Forall scalar _)); vm_compute; reflexivity).
  split; [exact Hs|]. pose proof (apply_edits_exact ex_content ex_edits Hs) as Hx.
  rewrite apply_edits_ex in *. destruct Hx as (l & sps & cs & _ & _ & _ & _ & _ & _ & _ & Hd & Ho).
  exists cs. split; [exact Hd|exact Ho].
Defined.
