(* ===== verification/RelayLimits.v ===== *)
(** * Limits of the relay

    Models peckboard-relay/src/limits.rs: the address keys, the token-bucket
    rate limiter and the concurrency counter.  Token counts are binary64 numbers
    with the rounding of [f64] (the Standard Library's [SpecFloat]); instants
    and durations are whole nanoseconds. *)

From S2P Require Import Prelude RelayProto.
From Stdlib Require Import Strings.Byte Floats.SpecFloat.

Module Limits.
Import Proto.

(** ** [f64] and [Instant] *)

Definition f64 : Type := spec_float.
Definition f64_of (z : Z) : f64 := binary_normalize 53 1024 z 0 false.
Definition fadd : f64 → f64 → f64 := SFadd 53 1024.
Definition fsub : f64 → f64 → f64 := SFsub 53 1024.
Definition fmul : f64 → f64 → f64 := SFmul 53 1024.
Definition fdiv : f64 → f64 → f64 := SFdiv 53 1024.
Definition flt : f64 → f64 → bool := SFltb.

(** [f64::min]: the other argument when one is not a number. *)
Definition fmin (a b : f64) : f64 :=
  match a, b with
  | S754_nan, _ => b
  | _, S754_nan => a
  | _, _ => if flt b a then b else a
  end.

Definition USIZE_MAX : Z := 2 ^ 64 - 1.

(** [as usize]: towards zero, saturating, not-a-number to zero. *)
Definition as_usize (x : f64) : Z :=
  match x with
  | S754_finite false m e => Z.min USIZE_MAX (Z.shiftl (Zpos m) e)
  | S754_infinity false => USIZE_MAX
  | _ => 0
  end.

Definition SECOND : Z := 1000000000.
Definition saturating_duration_since (now earlier : Z) : Z := Z.max 0 (now - earlier).
Definition as_secs_f64 (d : Z) : f64 :=
  fadd (f64_of (d / SECOND)) (fdiv (f64_of (d mod SECOND)) (f64_of SECOND)).

Definition V6_56_SCALE : f64 := f64_of 2.
Definition V6_48_SCALE : f64 := f64_of 4.
Definition MAX_LIMITER_ENTRIES : nat := Z.to_nat 65536.
Definition OVERFLOW_SCALE : f64 := f64_of 16.
Definition PRUNE_INTERVAL : Z := 1 * SECOND.

(** ** Address keys *)

#[export] Instance byte_eq_dec : EqDecision byte := Byte.byte_eq_dec.
#[export] Instance byte_countable : Countable byte := inj_countable Byte.to_N Byte.of_N Byte.of_to_N.

#[export] Instance ip_eq_dec : EqDecision IpAddr.
Proof. solve_decision. Defined.
#[export] Instance ip_countable : Countable IpAddr :=
  inj_countable' (λ ip, match ip with V4 o => inl o | V6 o => inr o end)
                 (λ x, match x with inl o => V4 o | inr o => V6 o end)
                 (λ ip, match ip with V4 _ => eq_refl | V6 _ => eq_refl end).

Definition segment (i : nat) (octets : bytes) : Z := from_be (firstn 2 (skipn (2 * i) octets)).

Definition to_ipv4_mapped (octets : bytes) : option bytes :=
  if firstn 12 octets == replicate 10 x00 ++ [xff; xff] then Some (skipn 12 octets) else None.

Definition canonical_ip (ip : IpAddr) : IpAddr :=
  match ip with
  | V4 _ => ip
  | V6 o =>
    match to_ipv4_mapped o with
    | Some v4 => V4 v4
    | None =>
      if segment 0 o =? 0x2002 then V4 (firstn 4 (skipn 2 o))
      else if (segment 0 o =? 0x2001) && (segment 1 o =? 0) then V4 ((byte_xor xff) <$> skipn 12 o)
      else ip
    end
  end.

Record IpKey := mkIpKey { k_addr : IpAddr; k_prefix : Z }.

#[export] Instance key_eq_dec : EqDecision IpKey.
Proof. solve_decision. Defined.
#[export] Instance key_countable : Countable IpKey :=
  inj_countable' (λ k, (k_addr k, k_prefix k)) (λ p, mkIpKey p.1 p.2) (λ k, match k with mkIpKey _ _ => eq_refl end).

(** [IpKey::v6]: the mask is [!0u128 << (128 - prefix)]. *)
Definition v6_key (octets : bytes) (prefix : Z) : IpKey :=
  let mask := Z.shiftl (2 ^ 128 - 1) (128 - prefix) mod 2 ^ 128 in
  mkIpKey (V6 (be_bytes 16 (Z.land (from_be octets) mask))) prefix.

Definition scale (k : IpKey) : f64 :=
  if k_prefix k =? 56 then V6_56_SCALE else if k_prefix k =? 48 then V6_48_SCALE else f64_of 1.

(** [Keys]: an array of three of which the first [n] count. *)
Record Keys := mkKeys { keys_k : IpKey * IpKey * IpKey; keys_n : nat }.

Definition iter (ks : Keys) : list IpKey :=
  let '(a, b, c) := keys_k ks in firstn (keys_n ks) [a; b; c].
Definition primary (ks : Keys) : IpKey := (keys_k ks).1.1.

Definition ip_keys (ip : IpAddr) : Keys :=
  match canonical_ip ip with
  | V4 v4 => let key := mkIpKey (V4 v4) 32 in mkKeys (key, key, key) 1
  | V6 v6 => mkKeys (v6_key v6 64, v6_key v6 56, v6_key v6 48) 3
  end.

Definition key_contains (key : IpKey) (ip : IpAddr) : bool := existsb (λ x, x == key) (iter (ip_keys ip)).

(** ** The rate limiter *)

Record Bucket := mkBucket { tokens : f64; b_last : Z }.

Definition refill (b : Bucket) (rate burst : f64) (now : Z) : Bucket :=
  let dt := as_secs_f64 (saturating_duration_since now (b_last b)) in
  mkBucket (fmin (fadd (tokens b) (fmul dt rate)) burst) now.

Record RateLimiter := mkLimiter {
  per_ip_rate : f64;
  per_ip_burst : f64;
  global : option (f64 * f64);
  max_entries : nat;
  lmap : gmap IpKey Bucket;
  global_bucket : Bucket;
  overflow_bucket : Bucket;
  last_prune : Z;
}.

Definition build (rate burst : f64) (global : option (f64 * f64)) (now : Z) : RateLimiter :=
  mkLimiter rate burst global MAX_LIMITER_ENTRIES ∅
    (mkBucket (match global with Some g => g.2 | None => f64_of 0 end) now)
    (mkBucket (fmul burst OVERFLOW_SCALE) now) now.
Definition limiter_new (per_ip_per_sec per_ip_burst global_per_sec global_burst : f64) (now : Z) : RateLimiter :=
  build per_ip_per_sec per_ip_burst (Some (global_per_sec, global_burst)) now.
Definition per_ip_only (per_ip_per_sec per_ip_burst : f64) (now : Z) : RateLimiter :=
  build per_ip_per_sec per_ip_burst None now.

Definition with_inner (m : gmap IpKey Bucket) (g o : Bucket) (p : Z) (l : RateLimiter) : RateLimiter :=
  mkLimiter (per_ip_rate l) (per_ip_burst l) (global l) (max_entries l) m g o p.

(** The bucket of a key, brought up to date. *)
Definition refill_key (l : RateLimiter) (now : Z) (key : IpKey) (b : Bucket) : Bucket :=
  refill b (fmul (per_ip_rate l) (scale key)) (fmul (per_ip_burst l) (scale key)) now.

Definition prune_map (l : RateLimiter) (now : Z) (m : gmap IpKey Bucket) : gmap IpKey Bucket :=
  map_imap (λ key b, let b' := refill_key l now key b in
    if flt (tokens b') (fmul (per_ip_burst l) (scale key)) then Some b' else None) m.

Definition prune (now : Z) (l : RateLimiter) : RateLimiter :=
  with_inner (prune_map l now (lmap l)) (global_bucket l) (overflow_bucket l) now l.

(** The loop that refills the buckets of the keys and stops at the first one
    that cannot pay. *)
Fixpoint check_keys (l : RateLimiter) (now : Z) (cost : f64) (keys : list IpKey) (m : gmap IpKey Bucket) :
    bool * gmap IpKey Bucket :=
  match keys with
  | [] => (true, m)
  | key :: keys' =>
    match m !! key with
    | Some b =>
      let b' := refill_key l now key b in
      if flt (tokens b') cost then (false, <[key := b']> m) else check_keys l now cost keys' (<[key := b']> m)
    | None =>
      if flt (fmul (per_ip_burst l) (scale key)) cost then (false, m) else check_keys l now cost keys' m
    end
  end.

Definition charge_key (l : RateLimiter) (now : Z) (cost : f64) (room : bool) (m : gmap IpKey Bucket) (key : IpKey) :
    gmap IpKey Bucket :=
  match m !! key with
  | Some b => <[key := mkBucket (fsub (tokens b) cost) (b_last b)]> m
  | None =>
    if room then <[key := mkBucket (fsub (fmul (per_ip_burst l) (scale key)) cost) now]> m else m
  end.

Definition take_bucket (rate burst cost : f64) (now : Z) (b : Bucket) : bool * Bucket :=
  let b' := refill b rate burst now in (negb (flt (tokens b') cost), b').

Definition spend (cost : f64) (b : Bucket) : Bucket := mkBucket (fsub (tokens b) cost) (b_last b).

Definition unseen_keys (m : gmap IpKey Bucket) (keys : list IpKey) : nat :=
  length (List.filter (λ key, negb (is_some (m !! key))) keys).

(** A full table is swept before a new key is turned away, once a second. *)
Definition sweep_full (now : Z) (unseen : nat) (l : RateLimiter) : RateLimiter :=
  if (0 <? unseen)%nat && (max_entries l <? size (lmap l) + unseen)%nat &&
     (PRUNE_INTERVAL <=? saturating_duration_since now (last_prune l))
  then prune now l else l.

Definition allow_cost (now : Z) (ip : IpAddr) (cost : f64) (l : RateLimiter) : bool * RateLimiter :=
  let keys := iter (ip_keys ip) in
  let unseen := unseen_keys (lmap l) keys in
  let l := sweep_full now unseen l in
  let room := (size (lmap l) + unseen <=? max_entries l)%nat in
  let '(ok, m) := check_keys l now cost keys (lmap l) in
  if negb ok then (false, with_inner m (global_bucket l) (overflow_bucket l) (last_prune l) l)
  else
    let overflow := (0 <? unseen)%nat && negb room in
    let '(ok, o) :=
      if overflow then
        take_bucket (fmul (per_ip_rate l) OVERFLOW_SCALE) (fmul (per_ip_burst l) OVERFLOW_SCALE) cost now
          (overflow_bucket l)
      else (true, overflow_bucket l) in
    if negb ok then (false, with_inner m (global_bucket l) o (last_prune l) l)
    else
      let '(ok, g) :=
        match global l with
        | Some (gr, gb) => take_bucket gr gb cost now (global_bucket l)
        | None => (true, global_bucket l)
        end in
      if negb ok then (false, with_inner m g o (last_prune l) l)
      else
        let g := if is_some (global l) then spend cost g else g in
        let o := if overflow then spend cost o else o in
        (true, with_inner (foldl (charge_key l now cost room) m keys) g o (last_prune l) l).

Definition allow (now : Z) (ip : IpAddr) (l : RateLimiter) : bool * RateLimiter :=
  allow_cost now ip (f64_of 1) l.

(** [TokenBucket]. *)
Definition bucket_new (burst : f64) (now : Z) : Bucket := mkBucket burst now.
Definition bucket_take (now : Z) (rate burst cost : f64) (b : Bucket) : bool * Bucket :=
  let '(ok, b') := take_bucket rate burst cost now b in
  if ok then (true, spend cost b') else (false, b').

(** ** The concurrency counter *)

Record PrefixCaps := mkCaps { cap_v4 : Z; cap_v6_64 : Z }.

Definition cap (caps : PrefixCaps) (key : IpKey) : Z :=
  match k_addr key with
  | V4 _ => cap_v4 caps
  | V6 _ => as_usize (fmul (f64_of (cap_v6_64 caps)) (scale key))
  end.

Notation ConnCounter := (gmap IpKey Z).

Definition incr (m : ConnCounter) (key : IpKey) : ConnCounter := <[key := default 0 (m !! key) + 1]> m.

Definition try_acquire (ip : IpAddr) (caps : PrefixCaps) (m : ConnCounter) : Result IpKey ConnCounter :=
  let keys := iter (ip_keys ip) in
  match List.find (λ key, cap caps key <=? default 0 (m !! key)) keys with
  | Some full => Err full
  | None => Ok (foldl incr m keys)
  end.

Definition decr (m : ConnCounter) (key : IpKey) : ConnCounter :=
  match m !! key with
  | Some c => let c := Z.max 0 (c - 1) in if c =? 0 then delete key m else <[key := c]> m
  | None => m
  end.

Definition conn_release (ip : IpAddr) (m : ConnCounter) : ConnCounter := foldl decr m (iter (ip_keys ip)).

Definition conn_count (ip : IpAddr) (m : ConnCounter) : Z := default 0 (m !! primary (ip_keys ip)).

(** ** Keys are distinct *)

Lemma iter_nodup ip : NoDup (iter (ip_keys ip)).
Proof.
  unfold ip_keys. destruct (canonical_ip ip); cbn; [apply NoDup_singleton|].
  apply (NoDup_fmap_1 k_prefix). exact (bool_decide_eq_true_1 (NoDup [64; 56; 48]) eq_refl).
Qed.

Lemma iter_length ip : (1 ≤ length (iter (ip_keys ip)) ≤ 3)%nat.
Proof. unfold ip_keys. destruct (canonical_ip ip); cbn; lia. Qed.

Lemma primary_in ip : primary (ip_keys ip) ∈ iter (ip_keys ip).
Proof. unfold ip_keys. destruct (canonical_ip ip); left. Qed.

(** ** What the rate limiter does *)

(** The tokens a key has at a time: a key without a bucket has a full one. *)
Definition level (l : RateLimiter) (now : Z) (key : IpKey) : f64 :=
  match lmap l !! key with
  | Some b => tokens (refill_key l now key b)
  | None => fmul (per_ip_burst l) (scale key)
  end.

(** [m'] is [m] with some buckets brought up to date and none charged. *)
Definition uncharged (l : RateLimiter) (now : Z) (m m' : gmap IpKey Bucket) : Prop :=
  ∀ key, m' !! key = m !! key ∨ m' !! key = refill_key l now key <$> m !! key.

Definition up_to_date (b b' : Bucket) (rate burst : f64) (now : Z) : Prop :=
  b' = b ∨ b' = refill b rate burst now.

Lemma uncharged_dom l now m m' : uncharged l now m m' → dom m' = dom m.
Proof.
  intros H. apply set_eq. intros key. rewrite !elem_of_dom.
  destruct (H key) as [-> | ->]; [done|]. by rewrite fmap_is_Some.
Qed.

Lemma level_with l now m g o p key :
  level (with_inner m g o p l) now key =
    match m !! key with
    | Some b => tokens (refill_key l now key b)
    | None => fmul (per_ip_burst l) (scale key)
    end.
Proof. done. Qed.

Lemma check_keys_spec l now cost keys m ok m' :
  NoDup keys → check_keys l now cost keys m = (ok, m') →
  uncharged l now m m' ∧
  (ok = true ↔ ∀ key, key ∈ keys → flt (level (with_inner m (global_bucket l) (overflow_bucket l) (last_prune l) l) now key) cost = false) ∧
  (∀ key, key ∉ keys → m' !! key = m !! key) ∧
  (ok = true → ∀ key, key ∈ keys → m' !! key = refill_key l now key <$> m !! key).
Proof.
  revert m. induction keys as [|key keys IH]; intros m HN Hc.
  { cbn in Hc. simplify_eq. split_and!; [by left|set_solver|done|set_solver]. }
  apply NoDup_cons in HN as [Hk HN]. cbn [check_keys] in Hc.
  assert (∀ m2, (∀ x, x ∈ keys → m2 !! x = m !! x) → ∀ x, x ∈ keys →
     level (with_inner m2 (global_bucket l) (overflow_bucket l) (last_prune l) l) now x =
     level (with_inner m (global_bucket l) (overflow_bucket l) (last_prune l) l) now x) as Hlev.
  { intros m2 H2 x Hx. by rewrite !level_with, H2. }
  destruct (m !! key) as [b|] eqn:Hb.
  - set (b' := refill_key l now key b) in *.
    assert (∀ x, x ∈ keys → <[key := b']> m !! x = m !! x) as Hx
      by (intros x Hx; apply lookup_insert_ne; intros ->; done).
    destruct (flt (tokens b') cost) eqn:Hf.
    + simplify_eq. split_and!.
      * intros x. destruct (decide (x = key)) as [->|?]; [right; rewrite lookup_insert_eq, Hb; done|].
        left. by apply lookup_insert_ne.
      * split; [done|]. intros H. specialize (H key ltac:(left)). rewrite level_with, Hb in H. fold b' in H. congruence.
      * intros x Hn. apply lookup_insert_ne. set_solver.
      * done.
    + destruct (IH _ HN Hc) as (H1 & H2 & H3 & H4). split_and!.
      * intros x. destruct (decide (x = key)) as [->|?].
        { right. rewrite H3, lookup_insert_eq, Hb by done. done. }
        destruct (H1 x) as [E|E]; rewrite lookup_insert_ne in E by done; auto.
      * rewrite H2. split; intros H x Hin.
        { apply elem_of_cons in Hin as [->|Hin]; [|rewrite <- (Hlev _ Hx x Hin); auto].
          by rewrite level_with, Hb. }
        { rewrite (Hlev _ Hx x Hin). apply H. by right. }
      * intros x Hn. rewrite H3 by set_solver. apply lookup_insert_ne. set_solver.
      * intros Hok x Hin. apply elem_of_cons in Hin as [->|Hin].
        { rewrite H3, lookup_insert_eq, Hb by done. done. }
        rewrite H4 by done. by rewrite Hx.
  - destruct (flt (fmul _ _) cost) eqn:Hf.
    + simplify_eq. split_and!; [by left| |done|done].
      split; [done|]. intros H. specialize (H key ltac:(left)). rewrite level_with, Hb in H. congruence.
    + destruct (IH _ HN Hc) as (H1 & H2 & H3 & H4). split_and!; [done| |set_solver|].
      * rewrite H2. split; intros H x Hin; [|apply H; by right].
        apply elem_of_cons in Hin as [->|Hin]; [|auto]. by rewrite level_with, Hb.
      * intros Hok x Hin. apply elem_of_cons in Hin as [->|Hin]; [|auto]. rewrite H3 by done. by rewrite Hb.
Qed.

Lemma charge_keys_spec l now cost room keys m :
  NoDup keys →
  let m' := foldl (charge_key l now cost room) m keys in
  (∀ key, key ∉ keys → m' !! key = m !! key) ∧
  (∀ key, key ∈ keys → m' !! key =
    match m !! key with
    | Some b => Some (spend cost b)
    | None => if room then Some (mkBucket (fsub (fmul (per_ip_burst l) (scale key)) cost) now) else None
    end) ∧
  (size m' ≤ size m + if room then unseen_keys m keys else 0)%nat.
Proof.
  revert m. induction keys as [|key keys IH]; intros m HN; cbn [foldl].
  { split_and!; [done|set_solver|lia]. }
  apply NoDup_cons in HN as [Hk HN].
  destruct (IH (charge_key l now cost room m key) HN) as (H1 & H2 & H3).
  assert (∀ x, x ≠ key → charge_key l now cost room m key !! x = m !! x) as Hne.
  { intros x Hx. unfold charge_key. destruct (m !! key); [|destruct room; [|done]]; by apply lookup_insert_ne. }
  assert (unseen_keys (charge_key l now cost room m key) keys = unseen_keys m keys) as Hu.
  { unfold unseen_keys. f_equal. clear -Hk Hne. induction keys as [|x keys IH]; [done|]. cbn.
    rewrite Hne by set_solver. rewrite IH by set_solver. done. }
  rewrite Hu in H3. split_and!.
  - intros x Hx. rewrite H1 by set_solver. apply Hne. set_solver.
  - intros x Hx. apply elem_of_cons in Hx as [->|Hx].
    + rewrite H1 by done. unfold charge_key.
      destruct (m !! key) eqn:E; [by rewrite lookup_insert_eq|]. destruct room; [by rewrite lookup_insert_eq|done].
    + rewrite H2 by done. rewrite Hne; [done|]. intros ->. done.
  - etrans; [apply H3|]. unfold charge_key, unseen_keys. cbn [List.filter].
    destruct (m !! key) eqn:E; cbn [is_some negb].
    + rewrite map_size_insert_Some by eauto. lia.
    + destruct room; [|lia]. rewrite map_size_insert_None by done. cbn [length]. lia.
Qed.

Lemma unseen_dom m m' keys : dom m' = dom m → unseen_keys m' keys = unseen_keys m keys.
Proof.
  intros Hd. unfold unseen_keys. f_equal. induction keys as [|key keys IH]; [done|]. cbn [List.filter].
  rewrite IH. replace (is_some (m' !! key)) with (is_some (m !! key)); [done|].
  assert (is_Some (m' !! key) ↔ is_Some (m !! key)) as H by (rewrite <- !elem_of_dom, Hd; done).
  destruct (m !! key), (m' !! key); cbn; try done; [destruct (proj2 H)|destruct (proj1 H)]; done.
Qed.

Lemma unseen_le m keys : (unseen_keys m keys ≤ length keys)%nat.
Proof. unfold unseen_keys. induction keys as [|key keys IH]; cbn; [lia|]. destruct (negb _); cbn; lia. Qed.

Lemma sweep_full_fields now unseen l :
  let l0 := sweep_full now unseen l in
  per_ip_rate l0 = per_ip_rate l ∧ per_ip_burst l0 = per_ip_burst l ∧ global l0 = global l ∧
  max_entries l0 = max_entries l ∧ global_bucket l0 = global_bucket l ∧ overflow_bucket l0 = overflow_bucket l ∧
  (size (lmap l0) ≤ size (lmap l))%nat ∧ (unseen = 0%nat → l0 = l).
Proof.
  cbn. unfold sweep_full. destruct (_ && _) eqn:E; [|done]. cbn. split_and!; try done.
  - rewrite <- !size_dom. apply subseteq_size. apply dom_imap_subseteq.
  - intros ->. done.
Qed.

(** The address's own buckets, the shared one for addresses without a bucket
    when the table is full, and the global one can all pay. *)
Definition affordable (l : RateLimiter) (now : Z) (keys : list IpKey) (crowded : bool) (cost : f64) : Prop :=
  (∀ key, key ∈ keys → flt (level l now key) cost = false) ∧
  (crowded = true → flt (tokens (refill (overflow_bucket l) (fmul (per_ip_rate l) OVERFLOW_SCALE)
                                   (fmul (per_ip_burst l) OVERFLOW_SCALE) now)) cost = false) ∧
  (∀ gr gb, global l = Some (gr, gb) → flt (tokens (refill (global_bucket l) gr gb now)) cost = false).

Definition charged_once (l l' : RateLimiter) (now : Z) (keys : list IpKey) (room crowded : bool) (cost : f64) : Prop :=
  (∀ key, lmap l' !! key =
    if decide (key ∈ keys) then
      if room || is_some (lmap l !! key) then Some (mkBucket (fsub (level l now key) cost) now) else None
    else lmap l !! key) ∧
  overflow_bucket l' = (if crowded then spend cost (refill (overflow_bucket l) (fmul (per_ip_rate l) OVERFLOW_SCALE)
                          (fmul (per_ip_burst l) OVERFLOW_SCALE) now) else overflow_bucket l) ∧
  global_bucket l' = match global l with
                     | Some (gr, gb) => spend cost (refill (global_bucket l) gr gb now)
                     | None => global_bucket l
                     end.

Definition not_charged (l l' : RateLimiter) (now : Z) : Prop :=
  uncharged l now (lmap l) (lmap l') ∧
  up_to_date (overflow_bucket l) (overflow_bucket l') (fmul (per_ip_rate l) OVERFLOW_SCALE)
    (fmul (per_ip_burst l) OVERFLOW_SCALE) now ∧
  match global l with
  | Some (gr, gb) => up_to_date (global_bucket l) (global_bucket l') gr gb now
  | None => global_bucket l' = global_bucket l
  end.

Lemma flt_negb a c : negb (flt a c) = true ↔ flt a c = false.
Proof. destruct (flt a c); cbn; split; congruence. Qed.

Lemma charged_size now ip cost l m :
  let keys := iter (ip_keys ip) in
  let unseen := unseen_keys (lmap l) keys in
  let l0 := sweep_full now unseen l in
  let room := (size (lmap l0) + unseen <=? max_entries l)%nat in
  dom m = dom (lmap l0) → (size (lmap l) ≤ max_entries l + 2)%nat →
  (size (foldl (charge_key l0 now cost room) m keys) ≤ max_entries l + 2)%nat.
Proof.
  intros keys unseen l0 room Hd Hs.
  destruct (sweep_full_fields now unseen l) as (_ & _ & _ & _ & _ & _ & Hsize & Hzero). fold l0 in Hsize, Hzero.
  destruct (charge_keys_spec l0 now cost room keys m (iter_nodup ip)) as (_ & _ & C3).
  rewrite (unseen_dom (lmap l0) m keys Hd), <- (size_dom m), Hd, size_dom in C3.
  pose proof (unseen_le (lmap l0) keys). pose proof (iter_length ip) as Hlen. fold keys in Hlen.
  destruct room eqn:Er; [|lia]. apply Nat.leb_le in Er.
  destruct (decide (unseen = 0%nat)) as [Hz|Hz]; [|lia].
  assert (unseen_keys (lmap l0) keys = 0%nat) by (rewrite Hzero; done). lia.
Qed.

(** Refilling a bucket where it is asked for. *)
Lemma take_if (c : bool) rate burst cost now b :
  (if c then take_bucket rate burst cost now b else (true, b)) =
  (if c then negb (flt (tokens (refill b rate burst now)) cost) else true,
   if c then refill b rate burst now else b).
Proof. by destruct c. Qed.

Lemma take_global l now cost okg g :
  match global l with
  | Some (gr, gb) => take_bucket gr gb cost now (global_bucket l)
  | None => (true, global_bucket l)
  end = (okg, g) →
  g = match global l with Some (gr, gb) => refill (global_bucket l) gr gb now | None => global_bucket l end ∧
  (okg = true ↔
    ∀ gr gb, global l = Some (gr, gb) → flt (tokens (refill (global_bucket l) gr gb now)) cost = false).
Proof.
  unfold take_bucket. destruct (global l) as [[gr gb]|]; intros [= <- <-]; split; try done.
  rewrite flt_negb. split; [intros H ? ? [= <- <-]; done|intros H; by apply H].
Qed.

(** The rate limiter charges exactly what it lets through.  After a sweep of a
    full table, a request passes exactly when every bucket of its address (the
    IPv4 address, or the /64, /56 and /48), the overflow bucket if the table has
    no room for its keys, and the global bucket hold the cost; then each of them
    is charged once and no other; a refused request charges nothing, so it never
    drains the global budget; and the table stays within two entries of its
    capacity. *)
Theorem rate_limit_exact now ip cost l :
  let keys := iter (ip_keys ip) in
  let unseen := unseen_keys (lmap l) keys in
  let l0 := sweep_full now unseen l in
  let room := (size (lmap l0) + unseen <=? max_entries l)%nat in
  let crowded := (0 <? unseen)%nat && negb room in
  let '(ok, l') := allow_cost now ip cost l in
  (ok = true ↔ affordable l0 now keys crowded cost) ∧
  (if ok then charged_once l0 l' now keys room crowded cost else not_charged l0 l' now) ∧
  ((size (lmap l) ≤ max_entries l + 2)%nat → (size (lmap l') ≤ max_entries l + 2)%nat).
Proof.
  intros keys unseen l0 room crowded. unfold allow_cost. fold keys. fold unseen. fold l0.
  destruct (sweep_full_fields now unseen l) as (_ & _ & _ & Emax & _ & _ & Hsize & Hzero). fold l0 in Emax, Hsize, Hzero.
  rewrite Emax. fold room. fold crowded.
  destruct (check_keys l0 now cost keys (lmap l0)) as [ok m] eqn:Ec.
  destruct (check_keys_spec _ _ _ _ _ _ _ (iter_nodup ip) Ec) as (Hun & Hok & Hout & Hin).
  assert (size m = size (lmap l0)) as Hsm by (rewrite <- !size_dom; by rewrite (uncharged_dom _ _ _ _ Hun)).
  assert ((∀ key, key ∈ keys → flt (level l0 now key) cost = false) ↔ ok = true) as Hok' by (by rewrite Hok).
  clear Hok. unfold affordable, not_charged.
  destruct ok; cbn [negb].
  2:{ cbn [lmap global_bucket overflow_bucket with_inner]. split_and!; [|done|by left|destruct (global l0) as [[]|]; [by left|done]|lia].
      split; [done|]. intros (H & _). by apply Hok' in H. }
  rewrite take_if.
  set (O := refill (overflow_bucket l0) _ _ now).
  destruct (if crowded then negb (flt (tokens O) cost) else true) eqn:Eo; cbn [negb].
  2:{ destruct crowded; [|done]. cbn [lmap global_bucket overflow_bucket with_inner]. split_and!; [|done|by right|destruct (global l0) as [[]|]; [by left|done]|lia].
      split; [done|]. intros (_ & H & _). specialize (H eq_refl). rewrite H in Eo. done. }
  assert (crowded = true → flt (tokens O) cost = false) as HO.
  { intros ->. by apply flt_negb. }
  destruct (match global l0 with Some _ => _ | None => _ end) as [okg g] eqn:Eg.
  destruct (take_global _ _ _ _ _ Eg) as [Hg Hgok].
  destruct okg; cbn [negb].
  2:{ cbn [lmap global_bucket overflow_bucket with_inner]. split_and!; [|done|destruct crowded; [by right|by left]|
        subst g; destruct (global l0) as [[]|]; [by right|done]|lia].
      split; [done|]. intros (_ & _ & H). by apply Hgok in H. }
  destruct (charge_keys_spec l0 now cost room keys m (iter_nodup ip)) as (C1 & C2 & C3). cbn [lmap global_bucket overflow_bucket with_inner]. unfold charged_once. cbn [lmap global_bucket overflow_bucket with_inner].
  split_and!.
  - split; [|done]. intros _. split_and!; [by apply Hok'|done|by apply Hgok].
  - intros key. destruct (decide (key ∈ keys)) as [Hk|Hk]; [|rewrite C1 by done; by apply Hout].
    rewrite C2, Hin by done. unfold level. destruct (lmap l0 !! key); cbn [fmap option_fmap option_map is_some]; [by rewrite orb_true_r|].
    rewrite orb_false_r. done.
  - by destruct crowded.
  - subst g. by destruct (global l0) as [[]|].
  - apply charged_size. by apply (uncharged_dom _ _ _ _ Hun).
Qed.

(** The sweep can drop keys the room was not counted for: a table of three
    entries ends with four. *)
Definition ex_v6 (i : byte) : IpAddr := V6 (x24 :: replicate 6 x00 ++ [i] ++ replicate 8 x00).
Lemma table_overfull :
  let l := per_ip_only (fdiv (f64_of 1) (f64_of 2)) (f64_of 1) 0 in
  let l := mkLimiter (per_ip_rate l) (per_ip_burst l) None 3 (lmap l) (global_bucket l) (overflow_bucket l) 0 in
  let '(_, l) := allow 0 (ex_v6 x01) l in
  let '(_, l') := allow (1200000000) (ex_v6 x02) l in
  size (lmap l) = 3%nat ∧ size (lmap l') = 4%nat.
Proof. vm_compute. done. Qed.

(** ** What the counter counts *)

(** How many of the holders fall under a key. *)
Definition holders (hs : list IpAddr) (key : IpKey) : Z :=
  Z.of_nat (length (List.filter (key_contains key) hs)).

(** The counter holds exactly the counts of [hs], with no entry for zero. *)
Definition counted (hs : list IpAddr) (m : ConnCounter) : Prop :=
  ∀ key, m !! key = if holders hs key =? 0 then None else Some (holders hs key).

Definition within_caps (caps : PrefixCaps) (hs : list IpAddr) : Prop :=
  ∀ key, 0 < holders hs key → holders hs key ≤ cap caps key.

Lemma key_contains_spec key ip : key_contains key ip = true ↔ key ∈ iter (ip_keys ip).
Proof.
  unfold key_contains. rewrite existsb_exists. split.
  - intros (x & Hx & ->%bool_decide_eq_true_1). by apply list_elem_of_In.
  - intros Hk. exists key. split; [by apply list_elem_of_In|by apply bool_decide_eq_true_2].
Qed.

Lemma holders_cons ip hs key :
  holders (ip :: hs) key = holders hs key + if decide (key ∈ iter (ip_keys ip)) then 1 else 0.
Proof.
  unfold holders. cbn [List.filter]. destruct (key_contains key ip) eqn:E.
  - rewrite decide_True by (by apply key_contains_spec). cbn [length]. lia.
  - rewrite decide_False; [lia|]. rewrite <- key_contains_spec. by rewrite E.
Qed.

Lemma holders_nonneg hs key : 0 ≤ holders hs key.
Proof. unfold holders. lia. Qed.

Lemma holders_perm hs hs' key : hs ≡ₚ hs' → holders hs key = holders hs' key.
Proof. intros H. unfold holders. by rewrite (Permutation_length (filter_perm (key_contains key) _ _ H)). Qed.

#[export] Instance counted_proper : Proper ((≡ₚ) ==> (=) ==> iff) counted.
Proof.
  intros hs hs' Hp m ? <-. unfold counted.
  split; intros H key; rewrite (H key); by rewrite (holders_perm _ _ _ Hp).
Qed.

#[export] Instance within_caps_proper caps : Proper ((≡ₚ) ==> iff) (within_caps caps).
Proof.
  intros hs hs' Hp. unfold within_caps.
  split; intros H key; specialize (H key); by rewrite (holders_perm _ _ _ Hp) in *.
Qed.

Lemma counted_get hs m key : counted hs m → default 0 (m !! key) = holders hs key.
Proof. intros H. rewrite H. destruct (Z.eqb_spec (holders hs key) 0); cbn; lia. Qed.

Lemma counted_nil : counted [] ∅.
Proof. intros key. by rewrite lookup_empty. Qed.

Lemma foldl_incr keys m key :
  NoDup keys → foldl incr m keys !! key = if decide (key ∈ keys) then Some (default 0 (m !! key) + 1) else m !! key.
Proof.
  revert m. induction keys as [|x keys IH]; intros m HN; [done|]. apply NoDup_cons in HN as [Hx HN].
  cbn [foldl]. rewrite IH by done. unfold incr. destruct (decide (key = x)) as [->|Hne].
  - rewrite decide_False, decide_True by set_solver. by rewrite lookup_insert_eq.
  - rewrite lookup_insert_ne by done. destruct (decide (key ∈ keys)); [rewrite decide_True|rewrite decide_False]; set_solver.
Qed.

Lemma foldl_decr keys m key :
  NoDup keys → foldl decr m keys !! key = if decide (key ∈ keys) then decr m key !! key else m !! key.
Proof.
  revert m. induction keys as [|x keys IH]; intros m HN; [done|]. apply NoDup_cons in HN as [Hx HN].
  cbn [foldl]. rewrite IH by done.
  assert (∀ y, y ≠ x → decr m x !! y = m !! y) as Hd.
  { intros y Hy. unfold decr. destruct (m !! x); [|done]. destruct (_ =? 0); by simplify_map_eq. }
  destruct (decide (key = x)) as [->|Hne].
  - rewrite decide_False, decide_True by set_solver. done.
  - unfold decr at 1. rewrite Hd by done. fold (decr m key).
    destruct (decide (key ∈ keys)); [rewrite decide_True by set_solver|rewrite decide_False by set_solver; done].
    unfold decr. destruct (m !! key) eqn:E; [|by rewrite Hd].
    destruct (_ =? 0); by simplify_map_eq.
Qed.

Lemma acquire_ok ip caps hs m m' :
  counted hs m → try_acquire ip caps m = Ok m' →
  counted (ip :: hs) m' ∧ (within_caps caps hs → within_caps caps (ip :: hs)).
Proof.
  intros Hc. unfold try_acquire. destruct (List.find _ _) eqn:E; intros [= <-].
  assert (∀ key, key ∈ iter (ip_keys ip) → holders hs key < cap caps key) as Hlt.
  { intros key Hk%list_elem_of_In. pose proof (find_none _ _ E key Hk) as H. cbn in H.
    rewrite (counted_get hs) in H by done. by apply Z.leb_gt in H. }
  split.
  - intros key. rewrite foldl_incr by apply iter_nodup. rewrite holders_cons, (counted_get hs) by done.
    pose proof (holders_nonneg hs key). destruct (decide _).
    + by rewrite (proj2 (Z.eqb_neq _ _)) by lia.
    + rewrite Z.add_0_r. apply Hc.
  - intros Hw key. rewrite holders_cons. destruct (decide (key ∈ _)) as [Hk|Hk].
    + specialize (Hlt key Hk). lia.
    + rewrite Z.add_0_r. apply Hw.
Qed.

Lemma acquire_err ip caps hs m key :
  counted hs m → try_acquire ip caps m = Err key →
  key ∈ iter (ip_keys ip) ∧ cap caps key ≤ holders hs key.
Proof.
  intros Hc. unfold try_acquire. destruct (List.find _ _) eqn:E; intros [= ->].
  apply find_some in E as [Hk Hle]. rewrite (counted_get hs) in Hle by done.
  split; [by apply list_elem_of_In|by apply Z.leb_le].
Qed.

Lemma release_counted ip hs m : counted (ip :: hs) m → counted hs (conn_release ip m).
Proof.
  intros Hc key. unfold conn_release. rewrite foldl_decr by apply iter_nodup.
  pose proof (Hc key) as H. rewrite holders_cons in H. pose proof (holders_nonneg hs key).
  destruct (decide _); [|by rewrite Z.add_0_r in H].
  rewrite (proj2 (Z.eqb_neq _ _)) in H by lia. unfold decr. rewrite H.
  replace (Z.max 0 (holders hs key + 1 - 1)) with (holders hs key) by lia.
  destruct (holders hs key =? 0); by simplify_map_eq.
Qed.

Lemma release_caps caps ip hs : within_caps caps (ip :: hs) → within_caps caps hs.
Proof. intros H key Hpos. specialize (H key). rewrite holders_cons in H. destruct (decide _); lia. Qed.
End Limits.
