(* ===== verification/RelayServer.v ===== *)
(** * The relay server

    Models the core of peckboard-relay/src/server.rs: the tables of sessions,
    rendezvous ids, credentials and relay pair slots, the outbound queues, and
    the handlers that work on them.  [Shared] is the state behind the locks; a
    definition is one critical section or a handler composed of them.  A
    session's [SessionMeta] and [Outbox], shared by reference in the code, live
    in tables indexed by the connection id.  Instants are nanoseconds and given
    as arguments, as are random bytes and signature verification. *)

From S2P Require Import Prelude RelayProto RelayStun RelayLimits.
From Stdlib Require Import Strings.Byte.

Module Server.
Import Proto Limits.

#[export] Instance socket_addr_eq_dec : EqDecision SocketAddr.
Proof. solve_decision. Defined.

Definition MILLI : Z := 1000000.
Definition DEFAULT_MAX_CONNECTIONS : Z := 8192.
Definition DEFAULT_MAX_CONNECTIONS_PER_IP : Z := 256.
Definition DEFAULT_MAX_CONNECTIONS_PER_V6_64 : Z := 32.
Definition QUEUE_ITEM_OVERHEAD : Z := 64.
Definition SIGNAL_QUEUE_LEN : Z := 64.
Definition EVICTION_SLACK_DIVISOR : Z := 8.
Definition EVICTION_SLACK_MIN : Z := 16.
Definition RELAY_RETRY_INTERVAL : Z := 1 * SECOND.
Definition IDLE_QUEUE_SLACK : nat := 1024.
Definition NONCE_LEN : Z := 24.
Definition TAG_LEN : Z := 16.
Definition SEALED_OVERHEAD : Z := NONCE_LEN + TAG_LEN.

Record RelayConfig := mkConfig {
  max_connections : Z;
  max_connections_per_ip : Z;
  max_connections_per_v6_64 : Z;
  conn_rate_per_ip : f64;
  conn_burst_per_ip : f64;
  conn_rate_global : f64;
  conn_burst_global : f64;
  stun_rate_per_ip : f64;
  stun_burst_per_ip : f64;
  stun_rate_per_cred : f64;
  stun_burst_per_cred : f64;
  stun_rate_global : f64;
  stun_burst_global : f64;
  msg_rate : f64;
  msg_burst : f64;
  max_ids : Z;
  id_ttl : Z;
  id_ttl_unpaired : Z;
  new_id_rate_per_ip : f64;
  new_id_burst_per_ip : f64;
  new_id_rate_global : f64;
  new_id_burst_global : f64;
  idle_timeout : Z;
  unpaired_max_lifetime : Z;
  unpaired_lifetime_jitter : Z;
  stun_credential_ttl : Z;
  punch_lead : Z;
  max_punch_rounds : Z;
  punch_min_interval : Z;
  relay_enabled : bool;
  relay_rate_per_id : f64;
  relay_burst_per_id : f64;
  relay_rate_per_ip : f64;
  relay_burst_per_ip : f64;
  relay_rate_global : f64;
  relay_burst_global : f64;
  relay_max_pairs : Z;
  relay_max_pairs_per_ip : Z;
  relay_max_pairs_per_v6_64 : Z;
  relay_idle_timeout : Z;
  relay_queue : Z;
  queue_signal_bytes : Z;
  queue_data_bytes : Z;
  queue_global_bytes : Z;
  registration_gate : bool;
}.

Definition RelayConfig_default : RelayConfig :=
  mkConfig DEFAULT_MAX_CONNECTIONS DEFAULT_MAX_CONNECTIONS_PER_IP DEFAULT_MAX_CONNECTIONS_PER_V6_64 (f64_of 2)
    (f64_of 64) (f64_of 200) (f64_of 1000) (f64_of 5) (f64_of 40) (f64_of 10) (f64_of 40) (f64_of 2000) (f64_of 5000)
    (f64_of 10) (f64_of 40) 100000 (24 * 3600 * SECOND) (10 * 60 * SECOND) (fdiv (f64_of 256) (f64_of 3600)) (f64_of
    256) (f64_of 100) (f64_of 2000) (90 * SECOND) (30 * 60 * SECOND) (10 * 60 * SECOND) (600 * SECOND) (500 * MILLI)
    8 (1 * SECOND) true (f64_of (512 * 1024)) (f64_of (2 * 1024 * 1024)) (f64_of (1024 * 1024)) (f64_of (4 * 1024 *
    1024)) (f64_of (50 * 1024 * 1024)) (f64_of (100 * 1024 * 1024)) 1000 32 8 (60 * SECOND) 128 (32 * 1024) (96 *
    1024) (256 * 1024 * 1024) false.

(** ** Sessions, queues, ids *)

Definition CLASS_UNAUTH : Z := 0.
Definition CLASS_ALONE : Z := 1.
Definition CLASS_PAIRED : Z := 2.

Record SessionMeta := mkMeta {
  m_ip : IpAddr;
  m_started : Z;
  m_alone_since_ms : Z;
  m_lifetime : Z;
  m_class : Z;
  m_kicked : bool;
}.
Definition set_m_alone_since_ms (f : Z → Z) (s : SessionMeta) : SessionMeta :=
  mkMeta (m_ip s) (m_started s) (f (m_alone_since_ms s)) (m_lifetime s) (m_class s) (m_kicked s).
Definition set_m_class (f : Z → Z) (s : SessionMeta) : SessionMeta :=
  mkMeta (m_ip s) (m_started s) (m_alone_since_ms s) (m_lifetime s) (f (m_class s)) (m_kicked s).
Definition set_m_kicked (f : bool → bool) (s : SessionMeta) : SessionMeta :=
  mkMeta (m_ip s) (m_started s) (m_alone_since_ms s) (m_lifetime s) (m_class s) (f (m_kicked s)).

(** Both sides of a session's queues: [Outbox], [WriterRx] and the session's
    part of [QueueBudget].  [o_open] is false once the writer is gone. *)
Record Outbox := mkOutbox {
  o_signal : list bytes;
  o_data : option (list bytes);
  o_signal_bytes : Z;
  o_data_bytes : Z;
  o_in_flight : option (bool * Z);
  o_open : bool;
}.

Record Slot := mkSlot {
  sl_conn : nat;
  sl_ip : IpAddr;
  sl_public : option SocketAddr;
  sl_candidates : bytes;
  sl_identity : option bytes;
}.
Definition set_sl_public (f : option SocketAddr → option SocketAddr) (s : Slot) : Slot :=
  mkSlot (sl_conn s) (sl_ip s) (f (sl_public s)) (sl_candidates s) (sl_identity s).
Definition set_sl_candidates (f : bytes → bytes) (s : Slot) : Slot :=
  mkSlot (sl_conn s) (sl_ip s) (sl_public s) (f (sl_candidates s)) (sl_identity s).

Record RelayHold := mkHold {
  h_started : Z;
  h_last : Z;
  h_ips : IpAddr * IpAddr;
}.
Definition set_h_last (f : Z → Z) (s : RelayHold) : RelayHold :=
  mkHold (h_started s) (f (h_last s)) (h_ips s).

Record IdEntry := mkEntry {
  e_public_key : bytes;
  e_box : option Slot;
  e_device : option Slot;
  e_idle_gen : Z;
  e_ever_paired : bool;
  e_punch_rounds : Z;
  e_last_punch : option Z;
  e_relay_bucket : Bucket;
  e_relay : option RelayHold;
  e_relay_denied : option Z;
}.
Definition set_e_box (f : option Slot → option Slot) (s : IdEntry) : IdEntry :=
  mkEntry (e_public_key s) (f (e_box s)) (e_device s) (e_idle_gen s) (e_ever_paired s) (e_punch_rounds s)
    (e_last_punch s) (e_relay_bucket s) (e_relay s) (e_relay_denied s).
Definition set_e_device (f : option Slot → option Slot) (s : IdEntry) : IdEntry :=
  mkEntry (e_public_key s) (e_box s) (f (e_device s)) (e_idle_gen s) (e_ever_paired s) (e_punch_rounds s)
    (e_last_punch s) (e_relay_bucket s) (e_relay s) (e_relay_denied s).
Definition set_e_idle_gen (f : Z → Z) (s : IdEntry) : IdEntry :=
  mkEntry (e_public_key s) (e_box s) (e_device s) (f (e_idle_gen s)) (e_ever_paired s) (e_punch_rounds s)
    (e_last_punch s) (e_relay_bucket s) (e_relay s) (e_relay_denied s).
Definition set_e_ever_paired (f : bool → bool) (s : IdEntry) : IdEntry :=
  mkEntry (e_public_key s) (e_box s) (e_device s) (e_idle_gen s) (f (e_ever_paired s)) (e_punch_rounds s)
    (e_last_punch s) (e_relay_bucket s) (e_relay s) (e_relay_denied s).
Definition set_e_punch_rounds (f : Z → Z) (s : IdEntry) : IdEntry :=
  mkEntry (e_public_key s) (e_box s) (e_device s) (e_idle_gen s) (e_ever_paired s) (f (e_punch_rounds s))
    (e_last_punch s) (e_relay_bucket s) (e_relay s) (e_relay_denied s).
Definition set_e_last_punch (f : option Z → option Z) (s : IdEntry) : IdEntry :=
  mkEntry (e_public_key s) (e_box s) (e_device s) (e_idle_gen s) (e_ever_paired s) (e_punch_rounds s) (f
    (e_last_punch s)) (e_relay_bucket s) (e_relay s) (e_relay_denied s).
Definition set_e_relay_bucket (f : Bucket → Bucket) (s : IdEntry) : IdEntry :=
  mkEntry (e_public_key s) (e_box s) (e_device s) (e_idle_gen s) (e_ever_paired s) (e_punch_rounds s) (e_last_punch
    s) (f (e_relay_bucket s)) (e_relay s) (e_relay_denied s).
Definition set_e_relay (f : option RelayHold → option RelayHold) (s : IdEntry) : IdEntry :=
  mkEntry (e_public_key s) (e_box s) (e_device s) (e_idle_gen s) (e_ever_paired s) (e_punch_rounds s) (e_last_punch
    s) (e_relay_bucket s) (f (e_relay s)) (e_relay_denied s).
Definition set_e_relay_denied (f : option Z → option Z) (s : IdEntry) : IdEntry :=
  mkEntry (e_public_key s) (e_box s) (e_device s) (e_idle_gen s) (e_ever_paired s) (e_punch_rounds s) (e_last_punch
    s) (e_relay_bucket s) (e_relay s) (f (e_relay_denied s)).

Definition slot (e : IdEntry) (r : Role) : option Slot :=
  match r with Box => e_box e | Device => e_device e end.
Definition set_slot (r : Role) (f : option Slot → option Slot) (e : IdEntry) : IdEntry :=
  match r with Box => set_e_box f e | Device => set_e_device f e end.

Record IdleRec := mkIdle { i_since : Z; i_rid : bytes; i_generation : Z }.

Record Binding := mkBinding { b_rid : bytes; b_role : Role; b_conn : nat }.

Record Cred := mkCred { c_password : string; c_expires : Z; c_bind : option Binding; c_bucket : Bucket }.

Record StatCounters := mkStats {
  packets : Z;
  relayed_bytes : Z;
  dropped_limit : Z;
  dropped_queue : Z;
  dropped_no_peer : Z;
}.
Definition set_packets (f : Z → Z) (s : StatCounters) : StatCounters :=
  mkStats (f (packets s)) (relayed_bytes s) (dropped_limit s) (dropped_queue s) (dropped_no_peer s).
Definition set_relayed_bytes (f : Z → Z) (s : StatCounters) : StatCounters :=
  mkStats (packets s) (f (relayed_bytes s)) (dropped_limit s) (dropped_queue s) (dropped_no_peer s).
Definition set_dropped_limit (f : Z → Z) (s : StatCounters) : StatCounters :=
  mkStats (packets s) (relayed_bytes s) (f (dropped_limit s)) (dropped_queue s) (dropped_no_peer s).
Definition set_dropped_queue (f : Z → Z) (s : StatCounters) : StatCounters :=
  mkStats (packets s) (relayed_bytes s) (dropped_limit s) (f (dropped_queue s)) (dropped_no_peer s).
Definition set_dropped_no_peer (f : Z → Z) (s : StatCounters) : StatCounters :=
  mkStats (packets s) (relayed_bytes s) (dropped_limit s) (dropped_queue s) (f (dropped_no_peer s)).

Record Shared := mkShared {
  metas : gmap nat SessionMeta;
  sessions : gset nat;
  active : Z;
  next_conn : nat;
  per_ip : ConnCounter;
  outs : gmap nat Outbox;
  queued : Z;
  ids : gmap bytes IdEntry;
  idle_new : list IdleRec;
  idle_paired : list IdleRec;
  next_gen : Z;
  relaying : gset bytes;
  relay_pairs : Z;
  relay_ips : ConnCounter;
  creds : gmap string Cred;
  conn_limiter : RateLimiter;
  stun_limiter : RateLimiter;
  new_id_limiter : RateLimiter;
  relay_limiter : RateLimiter;
  stun_global : Bucket;
  stats : StatCounters;
  registry : gset bytes;
}.
Definition set_metas (f : gmap nat SessionMeta → gmap nat SessionMeta) (s : Shared) : Shared :=
  mkShared (f (metas s)) (sessions s) (active s) (next_conn s) (per_ip s) (outs s) (queued s) (ids s) (idle_new s)
    (idle_paired s) (next_gen s) (relaying s) (relay_pairs s) (relay_ips s) (creds s) (conn_limiter s) (stun_limiter
    s) (new_id_limiter s) (relay_limiter s) (stun_global s) (stats s) (registry s).
Definition set_sessions (f : gset nat → gset nat) (s : Shared) : Shared :=
  mkShared (metas s) (f (sessions s)) (active s) (next_conn s) (per_ip s) (outs s) (queued s) (ids s) (idle_new s)
    (idle_paired s) (next_gen s) (relaying s) (relay_pairs s) (relay_ips s) (creds s) (conn_limiter s) (stun_limiter
    s) (new_id_limiter s) (relay_limiter s) (stun_global s) (stats s) (registry s).
Definition set_active (f : Z → Z) (s : Shared) : Shared :=
  mkShared (metas s) (sessions s) (f (active s)) (next_conn s) (per_ip s) (outs s) (queued s) (ids s) (idle_new s)
    (idle_paired s) (next_gen s) (relaying s) (relay_pairs s) (relay_ips s) (creds s) (conn_limiter s) (stun_limiter
    s) (new_id_limiter s) (relay_limiter s) (stun_global s) (stats s) (registry s).
Definition set_next_conn (f : nat → nat) (s : Shared) : Shared :=
  mkShared (metas s) (sessions s) (active s) (f (next_conn s)) (per_ip s) (outs s) (queued s) (ids s) (idle_new s)
    (idle_paired s) (next_gen s) (relaying s) (relay_pairs s) (relay_ips s) (creds s) (conn_limiter s) (stun_limiter
    s) (new_id_limiter s) (relay_limiter s) (stun_global s) (stats s) (registry s).
Definition set_per_ip (f : ConnCounter → ConnCounter) (s : Shared) : Shared :=
  mkShared (metas s) (sessions s) (active s) (next_conn s) (f (per_ip s)) (outs s) (queued s) (ids s) (idle_new s)
    (idle_paired s) (next_gen s) (relaying s) (relay_pairs s) (relay_ips s) (creds s) (conn_limiter s) (stun_limiter
    s) (new_id_limiter s) (relay_limiter s) (stun_global s) (stats s) (registry s).
Definition set_outs (f : gmap nat Outbox → gmap nat Outbox) (s : Shared) : Shared :=
  mkShared (metas s) (sessions s) (active s) (next_conn s) (per_ip s) (f (outs s)) (queued s) (ids s) (idle_new s)
    (idle_paired s) (next_gen s) (relaying s) (relay_pairs s) (relay_ips s) (creds s) (conn_limiter s) (stun_limiter
    s) (new_id_limiter s) (relay_limiter s) (stun_global s) (stats s) (registry s).
Definition set_queued (f : Z → Z) (s : Shared) : Shared :=
  mkShared (metas s) (sessions s) (active s) (next_conn s) (per_ip s) (outs s) (f (queued s)) (ids s) (idle_new s)
    (idle_paired s) (next_gen s) (relaying s) (relay_pairs s) (relay_ips s) (creds s) (conn_limiter s) (stun_limiter
    s) (new_id_limiter s) (relay_limiter s) (stun_global s) (stats s) (registry s).
Definition set_ids (f : gmap bytes IdEntry → gmap bytes IdEntry) (s : Shared) : Shared :=
  mkShared (metas s) (sessions s) (active s) (next_conn s) (per_ip s) (outs s) (queued s) (f (ids s)) (idle_new s)
    (idle_paired s) (next_gen s) (relaying s) (relay_pairs s) (relay_ips s) (creds s) (conn_limiter s) (stun_limiter
    s) (new_id_limiter s) (relay_limiter s) (stun_global s) (stats s) (registry s).
Definition set_idle_new (f : list IdleRec → list IdleRec) (s : Shared) : Shared :=
  mkShared (metas s) (sessions s) (active s) (next_conn s) (per_ip s) (outs s) (queued s) (ids s) (f (idle_new s))
    (idle_paired s) (next_gen s) (relaying s) (relay_pairs s) (relay_ips s) (creds s) (conn_limiter s) (stun_limiter
    s) (new_id_limiter s) (relay_limiter s) (stun_global s) (stats s) (registry s).
Definition set_idle_paired (f : list IdleRec → list IdleRec) (s : Shared) : Shared :=
  mkShared (metas s) (sessions s) (active s) (next_conn s) (per_ip s) (outs s) (queued s) (ids s) (idle_new s) (f
    (idle_paired s)) (next_gen s) (relaying s) (relay_pairs s) (relay_ips s) (creds s) (conn_limiter s) (stun_limiter
    s) (new_id_limiter s) (relay_limiter s) (stun_global s) (stats s) (registry s).
Definition set_next_gen (f : Z → Z) (s : Shared) : Shared :=
  mkShared (metas s) (sessions s) (active s) (next_conn s) (per_ip s) (outs s) (queued s) (ids s) (idle_new s)
    (idle_paired s) (f (next_gen s)) (relaying s) (relay_pairs s) (relay_ips s) (creds s) (conn_limiter s)
    (stun_limiter s) (new_id_limiter s) (relay_limiter s) (stun_global s) (stats s) (registry s).
Definition set_relaying (f : gset bytes → gset bytes) (s : Shared) : Shared :=
  mkShared (metas s) (sessions s) (active s) (next_conn s) (per_ip s) (outs s) (queued s) (ids s) (idle_new s)
    (idle_paired s) (next_gen s) (f (relaying s)) (relay_pairs s) (relay_ips s) (creds s) (conn_limiter s)
    (stun_limiter s) (new_id_limiter s) (relay_limiter s) (stun_global s) (stats s) (registry s).
Definition set_relay_pairs (f : Z → Z) (s : Shared) : Shared :=
  mkShared (metas s) (sessions s) (active s) (next_conn s) (per_ip s) (outs s) (queued s) (ids s) (idle_new s)
    (idle_paired s) (next_gen s) (relaying s) (f (relay_pairs s)) (relay_ips s) (creds s) (conn_limiter s)
    (stun_limiter s) (new_id_limiter s) (relay_limiter s) (stun_global s) (stats s) (registry s).
Definition set_relay_ips (f : ConnCounter → ConnCounter) (s : Shared) : Shared :=
  mkShared (metas s) (sessions s) (active s) (next_conn s) (per_ip s) (outs s) (queued s) (ids s) (idle_new s)
    (idle_paired s) (next_gen s) (relaying s) (relay_pairs s) (f (relay_ips s)) (creds s) (conn_limiter s)
    (stun_limiter s) (new_id_limiter s) (relay_limiter s) (stun_global s) (stats s) (registry s).
Definition set_creds (f : gmap string Cred → gmap string Cred) (s : Shared) : Shared :=
  mkShared (metas s) (sessions s) (active s) (next_conn s) (per_ip s) (outs s) (queued s) (ids s) (idle_new s)
    (idle_paired s) (next_gen s) (relaying s) (relay_pairs s) (relay_ips s) (f (creds s)) (conn_limiter s)
    (stun_limiter s) (new_id_limiter s) (relay_limiter s) (stun_global s) (stats s) (registry s).
Definition set_conn_limiter (f : RateLimiter → RateLimiter) (s : Shared) : Shared :=
  mkShared (metas s) (sessions s) (active s) (next_conn s) (per_ip s) (outs s) (queued s) (ids s) (idle_new s)
    (idle_paired s) (next_gen s) (relaying s) (relay_pairs s) (relay_ips s) (creds s) (f (conn_limiter s))
    (stun_limiter s) (new_id_limiter s) (relay_limiter s) (stun_global s) (stats s) (registry s).
Definition set_stun_limiter (f : RateLimiter → RateLimiter) (s : Shared) : Shared :=
  mkShared (metas s) (sessions s) (active s) (next_conn s) (per_ip s) (outs s) (queued s) (ids s) (idle_new s)
    (idle_paired s) (next_gen s) (relaying s) (relay_pairs s) (relay_ips s) (creds s) (conn_limiter s) (f
    (stun_limiter s)) (new_id_limiter s) (relay_limiter s) (stun_global s) (stats s) (registry s).
Definition set_new_id_limiter (f : RateLimiter → RateLimiter) (s : Shared) : Shared :=
  mkShared (metas s) (sessions s) (active s) (next_conn s) (per_ip s) (outs s) (queued s) (ids s) (idle_new s)
    (idle_paired s) (next_gen s) (relaying s) (relay_pairs s) (relay_ips s) (creds s) (conn_limiter s) (stun_limiter
    s) (f (new_id_limiter s)) (relay_limiter s) (stun_global s) (stats s) (registry s).
Definition set_relay_limiter (f : RateLimiter → RateLimiter) (s : Shared) : Shared :=
  mkShared (metas s) (sessions s) (active s) (next_conn s) (per_ip s) (outs s) (queued s) (ids s) (idle_new s)
    (idle_paired s) (next_gen s) (relaying s) (relay_pairs s) (relay_ips s) (creds s) (conn_limiter s) (stun_limiter
    s) (new_id_limiter s) (f (relay_limiter s)) (stun_global s) (stats s) (registry s).
Definition set_stun_global (f : Bucket → Bucket) (s : Shared) : Shared :=
  mkShared (metas s) (sessions s) (active s) (next_conn s) (per_ip s) (outs s) (queued s) (ids s) (idle_new s)
    (idle_paired s) (next_gen s) (relaying s) (relay_pairs s) (relay_ips s) (creds s) (conn_limiter s) (stun_limiter
    s) (new_id_limiter s) (relay_limiter s) (f (stun_global s)) (stats s) (registry s).
Definition set_stats (f : StatCounters → StatCounters) (s : Shared) : Shared :=
  mkShared (metas s) (sessions s) (active s) (next_conn s) (per_ip s) (outs s) (queued s) (ids s) (idle_new s)
    (idle_paired s) (next_gen s) (relaying s) (relay_pairs s) (relay_ips s) (creds s) (conn_limiter s) (stun_limiter
    s) (new_id_limiter s) (relay_limiter s) (stun_global s) (f (stats s)) (registry s).
Definition set_registry (f : gset bytes → gset bytes) (s : Shared) : Shared :=
  mkShared (metas s) (sessions s) (active s) (next_conn s) (per_ip s) (outs s) (queued s) (ids s) (idle_new s)
    (idle_paired s) (next_gen s) (relaying s) (relay_pairs s) (relay_ips s) (creds s) (conn_limiter s) (stun_limiter
    s) (new_id_limiter s) (relay_limiter s) (stun_global s) (stats s) (f (registry s)).

(** [Shared::ms] and [Shared::at]. *)
Definition ms (epoch t : Z) : Z := saturating_duration_since t epoch / MILLI.
Definition at_ (epoch ms : Z) : Z := epoch + ms * MILLI.

Definition owns (e : IdEntry) (b : Binding) : bool :=
  match slot e (b_role b) with Some sl => Nat.eqb (sl_conn sl) (b_conn b) | None => false end.

Definition kick (c : nat) : Shared → Shared := set_metas (alter (set_m_kicked (λ _, true)) c).
Definition set_class (c : nat) (class : Z) : Shared → Shared := set_metas (alter (set_m_class (λ _, class)) c).

(** [fetch_add] of a 64-bit counter. *)
Definition bump (by_ n : Z) : Z := (n + by_) mod 2 ^ 64.
Definition count_dropped_limit : Shared → Shared := set_stats (set_dropped_limit (bump 1)).
Definition count_dropped_queue : Shared → Shared := set_stats (set_dropped_queue (bump 1)).
Definition count_dropped_no_peer : Shared → Shared := set_stats (set_dropped_no_peer (bump 1)).

Section server.
Context (cfg : RelayConfig) (stun_port epoch : Z).

(** ** Outbound queues *)

Definition item_cost (b : bytes) : Z := Z.of_nat (length b) + QUEUE_ITEM_OVERHEAD.

(** [QueueBudget::reserve] and [release], which undo nothing on refusal. *)
Definition reserve (data : bool) (n : Z) (o : Outbox) (total : Z) : bool :=
  let mine := if data then o_data_bytes o else o_signal_bytes o in
  let cap := if data then queue_data_bytes cfg else queue_signal_bytes cfg in
  negb (cap <? mine + n) && negb (queue_global_bytes cfg <? total + n).

(** The channel of a session, its capacity, and the outbox with one more item. *)
Definition channel (data : bool) (o : Outbox) : option (list bytes) :=
  if data then o_data o else Some (o_signal o).
Definition capacity (data : bool) : Z :=
  if data then Z.max (relay_queue cfg) 1 else SIGNAL_QUEUE_LEN.
Definition enqueue (data : bool) (b : bytes) (o : Outbox) : Outbox :=
  if data then
    mkOutbox (o_signal o) ((λ q, q ++ [b]) <$> o_data o) (o_signal_bytes o) (o_data_bytes o + item_cost b)
      (o_in_flight o) (o_open o)
  else
    mkOutbox (o_signal o ++ [b]) (o_data o) (o_signal_bytes o + item_cost b) (o_data_bytes o)
      (o_in_flight o) (o_open o).

Definition push (c : nat) (data : bool) (b : bytes) (s : Shared) : bool * Shared :=
  match outs s !! c with
  | None => (false, s)
  | Some o =>
    match channel data o with
    | None => (false, s)
    | Some q =>
      if reserve data (item_cost b) o (queued s) && o_open o && (Z.of_nat (length q) <? capacity data) then
        (true, set_queued (λ t, t + item_cost b) (set_outs (<[c := enqueue data b o]>) s))
      else (false, s)
    end
  end.

Definition send (c : nat) (m : ServerMsg) (s : Shared) : Shared := (push c false (ServerMsg_encode m) s).2.
Definition send_data (c : nat) (packet : bytes) (s : Shared) : bool * Shared := push c true packet s.

(** The queues of a session that starts: a data channel from version 2 on. *)
Definition open_outbox (c : nat) (version : Z) : Shared → Shared :=
  set_outs (<[c := mkOutbox [] (if 2 <=? version then Some [] else None) 0 0 None true]>).

(** One round of [write_loop]: signaling first, then datagrams. *)
Definition writer_take (c : nat) (s : Shared) : option bytes * Shared :=
  match outs s !! c with
  | Some (mkOutbox (b :: q) d sb db None true) =>
    (Some b, set_outs (<[c := mkOutbox q d sb db (Some (false, item_cost b)) true]>) s)
  | Some (mkOutbox [] (Some (p :: q)) sb db None true) =>
    (Some (ServerMsg_encode (SData p)), set_outs (<[c := mkOutbox [] (Some q) sb db (Some (true, item_cost p)) true]>) s)
  | _ => (None, s)
  end.

Definition release_bytes (data : bool) (n : Z) (o : Outbox) : Outbox :=
  if data then mkOutbox (o_signal o) (o_data o) (o_signal_bytes o) (o_data_bytes o - n) None (o_open o)
  else mkOutbox (o_signal o) (o_data o) (o_signal_bytes o - n) (o_data_bytes o) None (o_open o).

Definition writer_done (c : nat) (s : Shared) : Shared :=
  match outs s !! c with
  | Some o =>
    match o_in_flight o with
    | Some (data, n) => set_queued (λ t, t - n) (set_outs (<[c := release_bytes data n o]>) s)
    | None => s
    end
  | None => s
  end.

(** What the frames of a queue hold of the budget. *)
Definition queue_cost (q : list bytes) : Z := foldr Z.add 0 (item_cost <$> q).

(** [Drop for WriterRx]: everything still queued or in flight goes back. *)
Definition writer_drop (c : nat) (s : Shared) : Shared :=
  let s := writer_done c s in
  match outs s !! c with
  | Some o =>
    let back := queue_cost (o_signal o) in
    let back_data := queue_cost (default [] (o_data o)) in
    set_queued (λ t, t - back - back_data)
      (set_outs (<[c := mkOutbox [] ((λ _, []) <$> o_data o) (o_signal_bytes o - back) (o_data_bytes o - back_data)
                     None false]>) s)
  | None => s
  end.

(** ** Relay pair slots *)

(** The part of [end_relay] outside the entry. *)
Definition free_hold (rid : bytes) (h : RelayHold) (s : Shared) : Shared :=
  set_relay_ips (λ m, conn_release (h_ips h).2 (conn_release (h_ips h).1 m))
    (set_relay_pairs (λ n, n - 1) (set_relaying (λ r, r ∖ {[rid]}) s)).

Definition end_relay (rid : bytes) (s : Shared) : Shared :=
  match ids s !! rid with
  | Some e =>
    match e_relay e with
    | Some h => free_hold rid h (set_ids (<[rid := set_e_relay (λ _, None) e]>) s)
    | None => s
    end
  | None => s
  end.

(** ** Idle ids *)

Definition is_live (m : gmap bytes IdEntry) (r : IdleRec) : bool :=
  match m !! i_rid r with Some e => e_idle_gen e =? i_generation r | None => false end.

Definition queue (paired : bool) (s : Shared) : list IdleRec := if paired then idle_paired s else idle_new s.
Definition set_queue (paired : bool) (f : list IdleRec → list IdleRec) : Shared → Shared :=
  if paired then set_idle_paired f else set_idle_new f.

Definition mark_idle (rid : bytes) (now : Z) (s : Shared) : Shared :=
  let s := set_next_gen (λ g, g + 1) s in
  match ids s !! rid with
  | None => s
  | Some e =>
    let s := set_ids (<[rid := set_e_idle_gen (λ _, next_gen s) e]>) s in
    let paired := e_ever_paired e in
    let limit := (2 * size (ids s) + IDLE_QUEUE_SLACK)%nat in
    let s := set_queue paired (λ q, q ++ [mkIdle now rid (next_gen s)]) s in
    if (limit <? length (queue paired s))%nat then set_queue paired (List.filter (is_live (ids s))) s else s
  end.

Definition remove (rid : bytes) (s : Shared) : Shared := set_ids (delete rid) (end_relay rid s).

(** The first record of a queue that still counts, and the records after it. *)
Fixpoint pop_live (m : gmap bytes IdEntry) (q : list IdleRec) : option IdleRec * list IdleRec :=
  match q with
  | [] => (None, [])
  | r :: q' => if is_live m r then (Some r, q') else pop_live m q'
  end.

Definition evict_from (paired : bool) (s : Shared) : bool * Shared :=
  let '(r, q) := pop_live (ids s) (queue paired s) in
  let s := set_queue paired (λ _, q) s in
  match r with Some r => (true, remove (i_rid r) s) | None => (false, s) end.

Definition evict_one (s : Shared) : bool * Shared :=
  let '(ok, s) := evict_from false s in
  if ok then (true, s) else evict_from true s.

Fixpoint expire_queue (paired : bool) (ttl now : Z) (q : list IdleRec) (s : Shared) : Shared :=
  match q with
  | [] => set_queue paired (λ _, []) s
  | r :: q' =>
    if ttl <=? saturating_duration_since now (i_since r) then
      expire_queue paired ttl now q' (if is_live (ids s) r then remove (i_rid r) s else s)
    else set_queue paired (λ _, q) s
  end.

Definition expire (now : Z) (s : Shared) : Shared :=
  let s := expire_queue false (id_ttl_unpaired cfg) now (idle_new s) s in
  expire_queue true (id_ttl cfg) now (idle_paired s) s.

(** ** Admission *)

Definition conn_caps : PrefixCaps := mkCaps (max_connections_per_ip cfg) (max_connections_per_v6_64 cfg).

(** [min_by_key]: the first element of least key. *)
Definition better (a b : nat * SessionMeta) : bool :=
  (m_class b.2 <? m_class a.2) || ((m_class b.2 =? m_class a.2) && (m_started b.2 <? m_started a.2)).
Definition min_by_key (l : list (nat * SessionMeta)) : option (nat * SessionMeta) :=
  foldl (λ best x, match best with None => Some x | Some y => if better y x then Some x else Some y end) None l.

Definition session_list (s : Shared) : list (nat * SessionMeta) :=
  omap (λ c, pair c <$> metas s !! c) (elements (sessions s)).

Definition evictee (pick : SessionMeta → bool) (s : Shared) : option (nat * SessionMeta) :=
  min_by_key (List.filter (λ m, negb (m_class m.2 =? CLASS_PAIRED) && pick m.2) (session_list s)).

Definition evict (pick : SessionMeta → bool) (s : Shared) : bool * Shared :=
  match evictee pick s with
  | None => (false, s)
  | Some (id, m) =>
    (true, kick id (set_per_ip (conn_release (m_ip m)) (set_sessions (λ t, t ∖ {[id]}) s)))
  end.

(** The loop that makes room for an address; each round evicts a session. *)
Fixpoint make_room (fuel : nat) (ip : IpAddr) (s : Shared) : bool * Shared :=
  match try_acquire ip conn_caps (per_ip s) with
  | Ok m => (true, set_per_ip (λ _, m) s)
  | Err full =>
    match fuel with
    | O => (false, s)
    | S fuel' =>
      let '(ok, s) := evict (λ m, key_contains full (m_ip m)) s in
      if ok then make_room fuel' ip s else (false, s)
    end
  end.

Definition hard_cap : Z :=
  max_connections cfg + Z.max (max_connections cfg / EVICTION_SLACK_DIVISOR) EVICTION_SLACK_MIN.

Definition admit_conn (now jitter_ms : Z) (ip : IpAddr) (s : Shared) : option nat * Shared :=
  if hard_cap <=? active s then (None, s)
  else
    let '(ok, s) := make_room (S (size (sessions s))) ip s in
    if negb ok then (None, s)
    else
      let '(ok, s) := if max_connections cfg <=? Z.of_nat (size (sessions s)) then evict (λ _, true) s else (true, s) in
      if negb ok then (None, set_per_ip (conn_release ip) s)
      else
        let c := next_conn s in
        let meta := mkMeta ip now (ms epoch now) (unpaired_max_lifetime cfg + jitter_ms * MILLI) CLASS_UNAUTH false in
        (Some c, set_active (λ n, n + 1) (set_sessions (λ t, {[c]} ∪ t)
                   (set_metas (<[c := meta]>) (set_next_conn S s)))).

Definition finish (c : nat) (ip : IpAddr) (s : Shared) : Shared :=
  let s := if decide (c ∈ sessions s) then set_per_ip (conn_release ip) (set_sessions (λ t, t ∖ {[c]}) s) else s in
  set_active (λ n, n - 1) s.

(** ** Registration *)

(** Whether a proven or unproven claim gets its slot: the side effects of the
    checks are kept when it does not. *)
Definition admit_claim (now : Z) (rid pk : bytes) (sig_ok : bool) (ip : IpAddr) (s : Shared) : bool * Shared :=
  match ids s !! rid with
  | Some e => (sig_ok && (e_public_key e == pk), s)
  | None =>
    if negb sig_ok then (false, s)
    else
      let '(ok, l) := allow now ip (new_id_limiter s) in
      let s := set_new_id_limiter (λ _, l) s in
      if negb ok then (false, s)
      else if Z.of_nat (size (ids s)) <? max_ids cfg then (true, s) else evict_one s
  end.

Definition new_entry (now : Z) (pk : bytes) : IdEntry :=
  mkEntry pk None None 0 false 0 None (bucket_new (relay_burst_per_id cfg) now) None None.

Definition register (now : Z) (role : Role) (rid pk : bytes) (sig_ok : bool) (identity : option bytes)
    (c : nat) (ip : IpAddr) (s : Shared) : option Binding * Shared :=
  let '(ok, s) := admit_claim now rid pk sig_ok ip s in
  if negb ok then (None, s)
  else
    let e := set_e_idle_gen (λ _, 0) (default (new_entry now pk) (ids s !! rid)) in
    let old := slot e role in
    let e := set_slot role (λ _, Some (mkSlot c ip None [] identity)) e in
    let e := set_e_last_punch (λ _, None) (set_e_punch_rounds (λ _, 0) e) in
    let s := match old with Some o => kick (sl_conn o) s | None => s end in
    let '(e, s) :=
      match slot e (Role_other role) with
      | Some peer => (set_e_ever_paired (λ _, true) e, set_class c CLASS_PAIRED (set_class (sl_conn peer) CLASS_PAIRED s))
      | None => (e, set_class c CLASS_ALONE s)
      end in
    (Some (mkBinding rid role c), set_ids (<[rid := e]>) s).

Definition issue_credential (now : Z) (username password : string) (bind : option Binding) (c : nat)
    (previous : option string) (s : Shared) : Shared :=
  let cred := mkCred password (now + stun_credential_ttl cfg) bind (bucket_new (stun_burst_per_cred cfg) now) in
  let s := set_creds (λ m, <[username := cred]> (match previous with Some p => delete p m | None => m end)) s in
  send c (Registered username password ((stun_credential_ttl cfg / SECOND) mod 2 ^ 32) stun_port) s.

Definition announce_online (b : Binding) (s : Shared) : Shared :=
  match ids s !! b_rid b with
  | None => s
  | Some e =>
    match slot e (b_role b), slot e (Role_other (b_role b)) with
    | Some me, Some peer => send (sl_conn peer) PeerOnline (send (sl_conn me) PeerOnline s)
    | _, _ => s
    end
  end.

Definition forward (b : Binding) (blob : bytes) (s : Shared) : Shared :=
  let len := Z.of_nat (length blob) in
  if (len <? SEALED_OVERHEAD) || (MAX_BLOB <? len) then s
  else
    match ids s !! b_rid b with
    | None => s
    | Some e =>
      if negb (owns e b) then s
      else match slot e (Role_other (b_role b)) with
           | Some peer => send (sl_conn peer) (Forwarded blob) s
           | None => s
           end
    end.

(** The other peer's public endpoint and candidates, for both peers. *)
Definition try_punch (now unix_ms : Z) (nonce : bytes) (rid : bytes) (s : Shared) : Shared :=
  match ids s !! rid with
  | None => s
  | Some e =>
    match e_box e, e_device e with
    | Some a, Some b =>
      match sl_public a, sl_public b with
      | Some a_pub, Some b_pub =>
        if max_punch_rounds cfg <=? e_punch_rounds e then s
        else if match e_last_punch e with
                | Some t => saturating_duration_since now t <? punch_min_interval cfg
                | None => false
                end then s
        else
          let rounds := e_punch_rounds e + 1 in
          let e := set_e_last_punch (λ _, Some now) (set_e_punch_rounds (λ _, rounds) e) in
          let msg peer_public peer_candidates :=
            PunchNow peer_public (unix_ms + punch_lead cfg / MILLI) nonce (byte_of_Z rounds) peer_candidates in
          send (sl_conn b) (msg a_pub (sl_candidates a))
            (send (sl_conn a) (msg b_pub (sl_candidates b)) (set_ids (<[rid := e]>) s))
      | _, _ => s
      end
    | _, _ => s
    end
  end.

Definition punch_request (now unix_ms : Z) (nonce : bytes) (b : Binding) (s : Shared) : Shared :=
  match ids s !! b_rid b with
  | Some e => if owns e b then try_punch now unix_ms nonce (b_rid b) s else s
  | None => s
  end.

Definition set_candidates (now unix_ms : Z) (nonce : bytes) (b : Binding) (blob : bytes) (s : Shared) : Shared :=
  let len := Z.of_nat (length blob) in
  if (MAX_BLOB <? len) || (negb (len =? 0) && (len <? SEALED_OVERHEAD)) then s
  else
    match ids s !! b_rid b with
    | None => s
    | Some e =>
      if negb (owns e b) then s
      else
        let e := set_slot (b_role b) (fmap (set_sl_candidates (λ _, blob))) e in
        try_punch now unix_ms nonce (b_rid b) (set_ids (<[b_rid b := e]>) s)
    end.

(** [release]: the session's slot is freed when it is still its own. *)
Definition release (now : Z) (b : Binding) (s : Shared) : Shared :=
  match ids s !! b_rid b with
  | None => s
  | Some e =>
    if negb (owns e b) then s
    else
      let e := set_slot (b_role b) (λ _, None) e in
      let s := end_relay (b_rid b) (set_ids (<[b_rid b := e]>) s) in
      match slot e (Role_other (b_role b)) with
      | Some peer =>
        let s := set_metas (alter (λ m, set_m_class (λ _, CLASS_ALONE) (set_m_alone_since_ms (λ _, ms epoch now) m))
                             (sl_conn peer)) s in
        send (sl_conn peer) PeerOffline s
      | None => mark_idle (b_rid b) now s
      end
  end.

(** ** Relayed datagrams *)

Definition relay_caps : PrefixCaps := mkCaps (relay_max_pairs_per_ip cfg) (relay_max_pairs_per_v6_64 cfg).

Definition load (ips : IpAddr * IpAddr) (s : Shared) : Z :=
  Z.max (conn_count ips.1 (relay_ips s)) (conn_count ips.2 (relay_ips s)).

(** The order of [(load, Reverse(started), rid)]. *)
Fixpoint bytes_lt (a b : bytes) : bool :=
  match a, b with
  | [], [] => false
  | [], _ :: _ => true
  | _ :: _, [] => false
  | x :: a', y :: b' =>
    (byte_to_Z x <? byte_to_Z y) || ((byte_to_Z x =? byte_to_Z y) && bytes_lt a' b')
  end.
Definition victim_lt (a b : Z * Z * bytes) : bool :=
  let '(la, sa, ra) := a in
  let '(lb, sb, rb) := b in
  (la <? lb) || ((la =? lb) && ((sb <? sa) || ((sa =? sb) && bytes_lt ra rb))).

(** The pairs whose busiest address holds more slots than [mine]. *)
Definition busier (mine : Z) (s : Shared) : list (Z * Z * bytes) :=
  omap (λ r, e ← ids s !! r; h ← e_relay e;
             if mine <? load (h_ips h) s then Some (load (h_ips h) s, h_started h, r) else None)
    (elements (relaying s)).
Definition victim (mine : Z) (s : Shared) : option bytes :=
  snd <$> foldl (λ best x, match best with None => Some x | Some y => if victim_lt y x then Some x else Some y end)
            None (busier mine s).

Definition take_relay_slot (rid : bytes) (ips : IpAddr * IpAddr) (s : Shared) : bool * Shared :=
  match try_acquire ips.1 relay_caps (relay_ips s) with
  | Err _ => (false, s)
  | Ok m1 =>
    match try_acquire ips.2 relay_caps m1 with
    | Err _ => (false, set_relay_ips (λ _, conn_release ips.1 m1) s)
    | Ok m2 =>
      let s := set_relay_ips (λ _, m2) s in
      let start s := (true, set_relaying (λ r, {[rid]} ∪ r) (set_relay_pairs (λ n, n + 1) s)) in
      if relay_max_pairs cfg <=? relay_pairs s then
        match victim (load ips s) s with
        | None => (false, set_relay_ips (λ m, conn_release ips.2 (conn_release ips.1 m)) s)
        | Some v => start (end_relay v s)
        end
      else start s
    end
  end.

Definition acquire_relay (now : Z) (rid : bytes) (ips : IpAddr * IpAddr) (s : Shared) : bool * Shared :=
  let recently_denied :=
    match ids s !! rid with
    | Some e => match e_relay_denied e with
                | Some t => saturating_duration_since now t <? RELAY_RETRY_INTERVAL
                | None => false
                end
    | None => false
    end in
  if recently_denied then (false, s)
  else
    let '(ok, s) := take_relay_slot rid ips s in
    let upd e := if ok : bool then set_e_relay_denied (λ _, None) (set_e_relay (λ _, Some (mkHold now now ips)) e)
                 else set_e_relay_denied (λ _, Some now) e in
    (ok, set_ids (alter upd rid) s).

(** The gate: the box end must have proven an identity that is registered. *)
Definition gate_open (e : IdEntry) (registered : gset bytes) : bool :=
  if registration_gate cfg then
    match e_box e with
    | Some bx => match sl_identity bx with Some k => bool_decide (k ∈ registered) | None => false end
    | None => false
    end
  else true.

(** The id's own byte budget. *)
Definition spend_id (now : Z) (rid : bytes) (len : f64) (s : Shared) : bool * Shared :=
  match ids s !! rid with
  | Some e =>
    let '(ok, b) := bucket_take now (relay_rate_per_id cfg) (relay_burst_per_id cfg) len (e_relay_bucket e) in
    (ok, set_ids (<[rid := set_e_relay_bucket (λ _, b) e]>) s)
  | None => (false, s)
  end.

Definition spend_ip (now : Z) (ip : IpAddr) (len : f64) (s : Shared) : bool * Shared :=
  let '(ok, l) := allow_cost now ip len (relay_limiter s) in (ok, set_relay_limiter (λ _, l) s).

(** How the section under the [ids] lock ends: the datagram is dropped, refused
    by the gate, or cleared for the peer's session. *)
Inductive Relayed := Dropped | Refused (my_ip : IpAddr) | Cleared (peer : nat) (my_ip : IpAddr).

Definition relay_checks (now : Z) (b : Binding) (len : f64) (registered : gset bytes) (s : Shared) : Relayed * Shared :=
  match ids s !! b_rid b with
  | None => (Dropped, s)
  | Some e =>
    match slot e (b_role b) with
    | None => (Dropped, s)
    | Some me =>
      if negb (owns e b) then (Dropped, s)
      else
        match slot e (Role_other (b_role b)) with
        | None => (Dropped, count_dropped_no_peer s)
        | Some peer =>
          if negb (match outs s !! sl_conn peer with Some o => is_some (o_data o) | None => false end)
          then (Dropped, count_dropped_no_peer s)
          else if negb (gate_open e registered) then
            let s := end_relay (b_rid b) s in
            let s := set_ids (alter (set_e_relay_denied (λ _, Some now)) (b_rid b)) s in
            (Refused (sl_ip me), (spend_id now (b_rid b) len s).2)
          else
            let '(held, s) :=
              if is_some (e_relay e) then (true, s)
              else acquire_relay now (b_rid b) (sl_ip me, sl_ip peer) s in
            if negb held then (Dropped, count_dropped_limit s)
            else
              let s := set_ids (alter (set_e_relay (fmap (set_h_last (λ _, now)))) (b_rid b)) s in
              let '(ok, s) := spend_id now (b_rid b) len s in
              if negb ok then (Dropped, count_dropped_limit s) else (Cleared (sl_conn peer) (sl_ip me), s)
        end
    end
  end.

(** True when the gate refused. *)
Definition relay_data (now : Z) (b : Binding) (packet : bytes) (s : Shared) : bool * Shared :=
  if negb (relay_enabled cfg) then (false, count_dropped_no_peer s)
  else
    let len := f64_of (Z.of_nat (length packet)) in
    let '(r, s) := relay_checks now b len (registry s) s in
    match r with
    | Dropped => (false, s)
    | Refused my_ip => (true, (spend_ip now my_ip len (count_dropped_limit s)).2)
    | Cleared peer my_ip =>
      let '(ok, s) := spend_ip now my_ip len s in
      if negb ok then (false, count_dropped_limit s)
      else
        let '(ok, s) := send_data peer packet s in
        (false, if ok : bool then
                  set_stats (λ st, set_relayed_bytes (bump (Z.of_nat (length packet)))
                                     (set_packets (bump 1) st)) s
                else count_dropped_queue s)
    end.

(** ** The periodic sweep *)

Definition stale_relays (now : Z) (s : Shared) : list bytes :=
  List.filter (λ r, match e ← ids s !! r; e_relay e with
                    | Some h => relay_idle_timeout cfg <=? saturating_duration_since now (h_last h)
                    | None => true
                    end) (elements (relaying s)).

Definition drop_stale (r : bytes) (s : Shared) : Shared :=
  match ids s !! r with
  | Some _ => end_relay r s
  | None => set_relaying (λ t, t ∖ {[r]}) s
  end.

(** An unpaired session past its lifetime. *)
Definition outlived (now : Z) (m : SessionMeta) : bool :=
  negb (m_class m =? CLASS_PAIRED) &&
  (m_lifetime m <=? saturating_duration_since now (at_ epoch (m_alone_since_ms m))).

Definition prune_limiters (now : Z) (s : Shared) : Shared :=
  set_conn_limiter (prune now) (set_stun_limiter (prune now)
    (set_new_id_limiter (prune now) (set_relay_limiter (prune now) s))).
Definition sweep_ids (now : Z) (s : Shared) : Shared :=
  expire now (foldl (λ s r, drop_stale r s) s (stale_relays now s)).
Definition sweep_sessions (now : Z) (s : Shared) : Shared :=
  foldl (λ s cm, if outlived now cm.2 then kick cm.1 s else s) s (session_list s).

Definition housekeep (now : Z) (s : Shared) : Shared := sweep_sessions now (sweep_ids now (prune_limiters now s)).

(** ** STUN *)

Context (hmac : bytes → bytes → bytes).

(** The public endpoint of the peer that holds the credential. *)
Definition see_public (now unix_ms : Z) (nonce : bytes) (b : Binding) (src : SocketAddr) (s : Shared) : Shared :=
  match ids s !! b_rid b with
  | None => s
  | Some e =>
    if negb (owns e b) then s
    else if match slot e (b_role b) with
            | Some me => bool_decide (sl_public me = Some src)
            | None => true
            end then s
    else
      let e := set_slot (b_role b) (fmap (set_sl_public (λ _, Some src))) e in
      try_punch now unix_ms nonce (b_rid b) (set_ids (<[b_rid b := e]>) s)
  end.

(** The body of [serve_stun] for one packet: the answer, if any. *)
Definition on_stun (now unix_ms : Z) (nonce : bytes) (src : SocketAddr) (packet : bytes) (s : Shared) :
    option bytes * Shared :=
  let '(ok, l) := allow now (sa_ip src) (stun_limiter s) in
  let s := set_stun_limiter (λ _, l) s in
  if negb ok then (None, s)
  else
    match Stun.parse_request packet with
    | None => (None, s)
    | Some req =>
      match creds s !! Stun.username req with
      | None => (None, s)
      | Some c =>
        if c_expires c <=? now then (None, s)
        else if negb (Stun.verify hmac req (as_bytes (c_password c))) then (None, s)
        else
          let '(ok, bk) := bucket_take now (stun_rate_per_cred cfg) (stun_burst_per_cred cfg) (f64_of 1) (c_bucket c) in
          let c := mkCred (c_password c) (c_expires c) (c_bind c) bk in
          let s := set_creds (<[Stun.username req := c]>) s in
          if negb ok then (None, s)
          else
            let '(ok, g) := bucket_take now (stun_rate_global cfg) (stun_burst_global cfg) (f64_of 1) (stun_global s) in
            let s := set_stun_global (λ _, g) s in
            if negb ok then (None, s)
            else
              let s :=
                match c_bind c with None => s | Some b => see_public now unix_ms nonce b src s end in
              (Some (Stun.build_response hmac (Stun.txid req) src (as_bytes (c_password c))), s)
      end
    end.

(** ** The session loop *)

(** The variables of one running session. *)
Record Session := mkSession {
  ss_conn : nat;
  ss_ip : IpAddr;
  ss_version : Z;
  ss_binding : option Binding;
  ss_cred_user : string;
  ss_bucket : f64 * Z;
  ss_alive_until : Z;
  ss_gate_denied_until : option Z;
}.

(** What one event reads: the clock, and random values if it needs them. *)
Record Env := mkEnv {
  now : Z;
  unix_ms : Z;
  new_username : string;
  new_password : string;
  nonce : bytes;
}.

Definition take_msg_token (b : f64 * Z) (now : Z) : bool * (f64 * Z) :=
  let t := fmin (fadd b.1 (fmul (as_secs_f64 (saturating_duration_since now b.2)) (msg_rate cfg))) (msg_burst cfg) in
  if flt t (f64_of 1) then (false, (t, now)) else (true, (fsub t (f64_of 1), now)).

Definition class_of (c : nat) (s : Shared) : Z := match metas s !! c with Some m => m_class m | None => CLASS_UNAUTH end.

Definition with_session (x : Session) (cred : string) (bucket : f64 * Z) (alive : Z) (denied : option Z) : Session :=
  mkSession (ss_conn x) (ss_ip x) (ss_version x) (ss_binding x) cred bucket alive denied.

(** A datagram frame of a session of version 2 or later. *)
Definition on_data (env : Env) (packet : bytes) (x : Session) (s : Shared) : Session * Shared :=
  match ss_binding x with
  | Some b =>
    if class_of (ss_conn x) s =? CLASS_PAIRED then
      if match ss_gate_denied_until x with Some t => now env <? t | None => false end then
        (x, (spend_ip (now env) (ss_ip x) (f64_of (Z.of_nat (length packet))) (count_dropped_limit s)).2)
      else
        let '(refused, s) := relay_data (now env) b packet s in
        if refused : bool then
          (with_session x (ss_cred_user x) (ss_bucket x) (ss_alive_until x)
             (Some (now env + RELAY_RETRY_INTERVAL)), s)
        else
          (with_session x (ss_cred_user x) (ss_bucket x) (now env + idle_timeout cfg) (ss_gate_denied_until x), s)
    else
      (with_session x (ss_cred_user x) (take_msg_token (ss_bucket x) (now env)).2 (ss_alive_until x)
         (ss_gate_denied_until x), count_dropped_no_peer s)
  | None =>
    (with_session x (ss_cred_user x) (take_msg_token (ss_bucket x) (now env)).2 (ss_alive_until x)
       (ss_gate_denied_until x), count_dropped_no_peer s)
  end.

Definition with_binding (x : Session) (f : Binding → Shared → Shared) (s : Shared) : Shared :=
  match ss_binding x with Some b => f b s | None => s end.

(** A signaling message; [None] ends the session. *)
Definition on_message (env : Env) (m : ClientMsg) (x : Session) (s : Shared) : option Session * Shared :=
  match m with
  | Ping => (Some x, send (ss_conn x) Pong s)
  | RefreshStun =>
    (Some (with_session x (new_username env) (ss_bucket x) (ss_alive_until x) (ss_gate_denied_until x)),
     issue_credential (now env) (new_username env) (new_password env) (ss_binding x) (ss_conn x)
       (Some (ss_cred_user x)) s)
  | Forward blob => (Some x, with_binding x (λ b, forward b blob) s)
  | SetCandidates blob => (Some x, with_binding x (λ b, set_candidates (now env) (unix_ms env) (nonce env) b blob) s)
  | PunchRequest => (Some x, with_binding x (punch_request (now env) (unix_ms env) (nonce env)) s)
  | _ => (None, s)
  end.

Definition on_frame (env : Env) (frame : bytes) (x : Session) (s : Shared) : option Session * Shared :=
  if (2 <=? ss_version x) && (match frame with tag :: _ => byte_to_Z tag =? 0x10 | [] => false end) then
    match ClientMsg_decode frame with
    | Ok (CData packet) => let '(x, s) := on_data env packet x s in (Some x, s)
    | _ => (None, s)
    end
  else
    let '(ok, bucket) := take_msg_token (ss_bucket x) (now env) in
    let x := with_session x (ss_cred_user x) bucket (ss_alive_until x) (ss_gate_denied_until x) in
    if negb ok then (Some x, s)
    else
      let x := with_session x (ss_cred_user x) bucket (now env + idle_timeout cfg) (ss_gate_denied_until x) in
      match ClientMsg_decode frame with
      | Ok m => on_message env m x s
      | Err _ => (None, s)
      end.

(** ** The handshake *)

(** What the ed25519 crate checks: that bytes are a key, that the key is weak,
    and the strict verification of a signature. *)
Context (key_from_bytes is_weak : bytes → bool) (verify_strict : bytes → bytes → bytes → bool).

Definition AUTH_CONTEXT : bytes := as_bytes "peckrelay/1 auth".
Definition IDENTITY_CONTEXT : bytes := as_bytes "peckrelay/3 box-identity".

Definition auth_message (nonce rid : bytes) (role : Role) (exporter : bytes) : bytes :=
  AUTH_CONTEXT ++ nonce ++ rid ++ [Role_as_u8 role] ++ exporter.
Definition identity_message (identity_key nonce rid exporter : bytes) : bytes :=
  IDENTITY_CONTEXT ++ identity_key ++ nonce ++ rid ++ exporter.

Definition verify_with (key message signature : bytes) : bool :=
  key_from_bytes key && negb (is_weak key) && verify_strict key message signature.
Definition verify_auth (pk nonce rid : bytes) (role : Role) (exporter signature : bytes) : bool :=
  verify_with pk (auth_message nonce rid role exporter) signature.
Definition verify_identity (key nonce rid exporter signature : bytes) : bool :=
  verify_with key (identity_message key nonce rid exporter) signature.

Record Claim := mkClaim {
  cl_role : Role;
  cl_rid : bytes;
  cl_pk : bytes;
  cl_sig_ok : bool;
  cl_identity : option bytes;
}.

(** What the two frames of the handshake claim. *)
Definition claim (version : Z) (nonce exporter : bytes) (hello auth : Result ProtoError ClientMsg) : option Claim :=
  match hello, auth with
  | Ok (Hello role rid pk), Ok auth =>
    let '(signature, proof) :=
      match auth with
      | Auth sig => (Some sig, None)
      | IdentityAuth sig ik isig =>
        if (3 <=? version) && bool_decide (role = Box) then (Some sig, Some (ik, isig)) else (None, None)
      | _ => (None, None)
      end in
    (λ sig, mkClaim role rid pk (verify_auth pk nonce rid role exporter sig)
              (match proof with
               | Some (ik, isig) => if verify_identity ik nonce rid exporter isig then Some ik else None
               | None => None
               end)) <$> signature
  | _, _ => None
  end.

(** Whether the proven identity is registered, looked up before the delay. *)
Definition id_registered (cl : option Claim) (s : Shared) : bool :=
  match cl with
  | Some cl => match cl_identity cl with Some k => bool_decide (k ∈ registry s) | None => false end
  | None => false
  end.

(** From the end of the delay to the main loop, as one connection alone sees it:
    registration, credential and announcement.  In the step relation of the server
    they are steps of their own. *)
Definition establish (env : Env) (version : Z) (c : nat) (ip : IpAddr) (cl : option Claim) (registered : bool)
    (s : Shared) : Session * Shared :=
  let '(binding, s) :=
    match cl with
    | Some cl => register (now env) (cl_role cl) (cl_rid cl) (cl_pk cl) (cl_sig_ok cl) (cl_identity cl) c ip s
    | None => (None, s)
    end in
  let s := issue_credential (now env) (new_username env) (new_password env) binding c None s in
  let s := if 3 <=? version then send c (IdentityStatus registered (registration_gate cfg)) s else s in
  let s := match binding with Some b => announce_online b s | None => s end in
  (mkSession c ip version binding (new_username env) (msg_burst cfg, now env) (now env + idle_timeout cfg) None, s).

(** [Relay::with_registry]: the tables are empty. *)
Definition relay_new (now : Z) (registered : gset bytes) : Shared :=
  mkShared ∅ ∅ 0 1 ∅ ∅ 0 ∅ [] [] 0 ∅ 0 ∅ ∅
    (limiter_new (conn_rate_per_ip cfg) (conn_burst_per_ip cfg) (conn_rate_global cfg) (conn_burst_global cfg) now)
    (per_ip_only (stun_rate_per_ip cfg) (stun_burst_per_ip cfg) now)
    (limiter_new (new_id_rate_per_ip cfg) (new_id_burst_per_ip cfg) (new_id_rate_global cfg)
       (new_id_burst_global cfg) now)
    (limiter_new (relay_rate_per_ip cfg) (relay_burst_per_ip cfg) (relay_rate_global cfg)
       (relay_burst_global cfg) now)
    (bucket_new (stun_burst_global cfg) now) (mkStats 0 0 0 0 0) registered.

Definition teardown (now : Z) (x : Session) (s : Shared) : Shared :=
  let s := set_creds (delete (ss_cred_user x)) s in
  match ss_binding x with Some b => release now b s | None => s end.
End server.
End Server.
