(* ===== verification/RelayServerProps.v ===== *)
(** * The relay keeps its promises

    Properties of RelayServer.v over every sequence of its critical sections:
    the tables stay within their limits, slots belong to proven peers, frames
    reach the other peer of the same id and nobody else, and a decoy sees what a
    lonely peer sees. *)

From S2P Require Import Prelude RelayProto RelayStun RelayLimits RelayServer.
From Stdlib Require Import Strings.Byte.

Module ServerProps.
Import Proto Limits Server.

#[local] Arguments ServerMsg_encode : simpl never.
#[local] Arguments item_cost : simpl never.
#[local] Arguments queue_cost : simpl never.
#[local] Arguments ip_keys : simpl never.
#[local] Arguments conn_release : simpl never.
#[local] Arguments try_acquire : simpl never.
#[local] Arguments Z.add : simpl never.
#[local] Arguments Z.sub : simpl never.

#[export] Instance role_countable : Countable Role.
Proof.
  refine (inj_countable' (λ r, match r with Box => true | Device => false end) (λ b : bool, if b then Box else Device) _).
  by intros [].
Defined.

(** What a session signed: its id, rendezvous id, role and the key. *)
Notation Signed := (nat * bytes * Role * bytes)%type.

Section relay.
Context (cfg : RelayConfig) (stun_port epoch : Z).

(** ** Connections *)

Definition session_ips (s : Shared) : list IpAddr := m_ip ∘ snd <$> session_list s.

Record conns_ok (s : Shared) : Prop := {
  co_known c : c ∈ sessions s → is_Some (metas s !! c);
  co_next c : is_Some (metas s !! c) → (c < next_conn s)%nat;
  co_counted : counted (session_ips s) (per_ip s);
  co_caps : within_caps (conn_caps cfg) (session_ips s);
  co_size : Z.of_nat (size (sessions s)) ≤ Z.max 0 (max_connections cfg);
}.

Lemma session_list_known s c m : (c, m) ∈ session_list s ↔ c ∈ sessions s ∧ metas s !! c = Some m.
Proof.
  unfold session_list. rewrite list_elem_of_omap. split.
  - intros (x & Hx%elem_of_elements & Hm). destruct (metas s !! x) eqn:E; [|done]. by simplify_eq/=.
  - intros [Hc Hm]. exists c. rewrite elem_of_elements, Hm. done.
Qed.

(** Sessions are listed as pairs of the connection and its address. *)
Lemma session_ips_cons s s' c m :
  c ∉ sessions s → sessions s' ≡ {[c]} ∪ sessions s → metas s' !! c = Some m →
  (∀ d, d ∈ sessions s → m_ip <$> metas s' !! d = m_ip <$> metas s !! d) →
  session_ips s' ≡ₚ m_ip m :: session_ips s.
Proof.
  intros Hc Hs Hm Hd. unfold session_ips, session_list.
  assert (elements (sessions s') ≡ₚ c :: elements (sessions s)) as ->.
  { rewrite Hs. by apply elements_union_singleton. }
  cbn [omap list_omap]. rewrite Hm. cbn. apply Permutation_cons; [done|].
  match goal with |- ?a ≡ₚ ?b => cut (a = b); [by intros ->|] end.
  assert (∀ d, d ∈ elements (sessions s) → m_ip <$> metas s' !! d = m_ip <$> metas s !! d) as He
    by (intros d Hin%elem_of_elements; by apply Hd).
  clear -He. induction (elements (sessions s)) as [|d l IH]; [done|]. cbn.
  pose proof (He d ltac:(left)) as E.
  specialize (IH (λ x Hx, He x (list_elem_of_further _ _ _ Hx))).
  destruct (metas s' !! d), (metas s !! d); cbn in *; simplify_eq/=; [by f_equal|done].
Qed.

Lemma session_ips_same s s' :
  sessions s' = sessions s → (∀ d, m_ip <$> metas s' !! d = m_ip <$> metas s !! d) → session_ips s' = session_ips s.
Proof.
  intros Hs Hd. unfold session_ips, session_list. rewrite Hs.
  induction (elements (sessions s)) as [|d l IH]; [done|]. cbn. specialize (Hd d).
  destruct (metas s' !! d), (metas s !! d); cbn in *; simplify_eq/=; [by f_equal|done].
Qed.

Lemma conns_ok_same s s' :
  sessions s' = sessions s → (∀ d, m_ip <$> metas s' !! d = m_ip <$> metas s !! d) → per_ip s' = per_ip s →
  next_conn s' = next_conn s → conns_ok s → conns_ok s'.
Proof.
  intros Hs Hd Hp Hn [H1 H2 H3 H4 H5].
  assert (∀ c, is_Some (metas s' !! c) ↔ is_Some (metas s !! c)) as Hsome
    by (intros c; rewrite <- (fmap_is_Some m_ip (metas s' !! c)), Hd, fmap_is_Some; done).
  pose proof (session_ips_same _ _ Hs Hd) as Hi. split; rewrite ?Hs, ?Hp, ?Hn, ?Hi; try done.
  - intros c. rewrite Hsome. apply H1.
  - intros c. rewrite Hsome. apply H2.
Qed.

(** A change of a field of a session's meta other than its address. *)
Lemma alter_ip (f : SessionMeta → SessionMeta) c (m : gmap nat SessionMeta) d :
  (∀ x, m_ip (f x) = m_ip x) → m_ip <$> alter f c m !! d = m_ip <$> m !! d.
Proof.
  intros Hf. destruct (decide (c = d)) as [->|?]; [rewrite lookup_alter_eq|by rewrite lookup_alter_ne].
  destruct (m !! d); cbn; by rewrite ?Hf.
Qed.

Lemma conns_ok_alter f c s :
  (∀ x, m_ip (f x) = m_ip x) → conns_ok s → conns_ok (set_metas (alter f c) s).
Proof. intros Hf. apply conns_ok_same; [done| |done|done]. intros d. by apply alter_ip. Qed.

Lemma leave_ips s c m :
  conns_ok s → c ∈ sessions s → metas s !! c = Some m →
  session_ips s ≡ₚ m_ip m :: session_ips (set_sessions (λ t, t ∖ {[c]}) s).
Proof.
  intros Hok Hc Hm. apply (session_ips_cons _ _ c); cbn; [set_solver| |done|done].
  intros x. destruct (decide (x = c)); set_solver.
Qed.

(** A session leaves the table and gives its place back. *)
Lemma leave_ok s c m :
  conns_ok s → c ∈ sessions s → metas s !! c = Some m →
  conns_ok (set_per_ip (conn_release (m_ip m)) (set_sessions (λ t, t ∖ {[c]}) s)).
Proof.
  intros Hok Hc Hm. pose proof (leave_ips s c m Hok Hc Hm) as Hp. destruct Hok as [H1 H2 H3 H4 H5].
  split; cbn.
  - intros d Hd. apply H1. set_solver.
  - done.
  - apply release_counted. by rewrite <- Hp.
  - apply (release_caps _ (m_ip m)). by rewrite <- Hp.
  - etrans; [|exact H5]. apply Nat2Z.inj_le, subseteq_size. set_solver.
Qed.

Lemma min_by_key_in l x : min_by_key l = Some x → x ∈ l.
Proof.
  unfold min_by_key.
  assert (∀ best, foldl (λ best x, match best with None => Some x | Some y => if better y x then Some x else Some y end)
    best l = Some x → x ∈ l ∨ best = Some x) as H.
  { induction l as [|y l IH]; intros best; cbn; [by right|].
    intros [H|H]%IH; [left; by right|]. destruct best as [z|]; [destruct (better z y)|]; simplify_eq; set_solver. }
  intros [?|?]%H; done.
Qed.

Lemma min_by_key_none l : min_by_key l = None → l = [].
Proof.
  unfold min_by_key. destruct l as [|x l]; [done|]. cbn.
  assert (∀ y, foldl (λ best x, match best with None => Some x | Some y => if better y x then Some x else Some y end)
    (Some y) l ≠ None) as H; [|by intros ?%H].
  induction l as [|z l IH]; intros y; cbn; [done|]. destruct (better y z); apply IH.
Qed.

Lemma evictee_some pick s c m :
  evictee pick s = Some (c, m) →
  c ∈ sessions s ∧ metas s !! c = Some m ∧ m_class m ≠ CLASS_PAIRED ∧ pick m = true.
Proof.
  intros E. apply min_by_key_in, list_elem_of_In, filter_In in E as [Hin Hf].
  apply list_elem_of_In, session_list_known in Hin as [Hc Hm].
  apply andb_true_iff in Hf as [Hcl Hp]. by apply negb_true_iff, Z.eqb_neq in Hcl.
Qed.

Lemma evictee_none pick s c m :
  evictee pick s = None → c ∈ sessions s → metas s !! c = Some m → pick m = true → m_class m = CLASS_PAIRED.
Proof.
  intros E%min_by_key_none Hc Hm Hp. destruct (Z.eq_dec (m_class m) CLASS_PAIRED) as [|Hne]; [done|].
  cut ((c, m) ∈ @nil (nat * SessionMeta)); [by intros ?%not_elem_of_nil|]. rewrite <- E.
  apply list_elem_of_In, filter_In. split; [apply list_elem_of_In; by apply session_list_known|].
  cbn. by rewrite (proj2 (Z.eqb_neq _ _) Hne), Hp.
Qed.

(** The session [c] is put out. *)
Definition put_out (c : nat) (ip : IpAddr) (s : Shared) : Shared :=
  kick c (set_per_ip (conn_release ip) (set_sessions (λ t, t ∖ {[c]}) s)).

Lemma evict_run pick s :
  evict pick s = match evictee pick s with Some (c, m) => (true, put_out c (m_ip m) s) | None => (false, s) end.
Proof. unfold evict. by destruct (evictee pick s) as [[]|]. Qed.

Lemma put_out_ok c m s : conns_ok s → c ∈ sessions s → metas s !! c = Some m → conns_ok (put_out c (m_ip m) s).
Proof. intros. apply conns_ok_alter; [done|]. by apply leave_ok. Qed.

Lemma put_out_size c ip s : c ∈ sessions s → (size (sessions (put_out c ip s)) < size (sessions s))%nat.
Proof. intros Hc. apply subset_size. cbn. set_solver. Qed.

Lemma put_out_ips c m s :
  conns_ok s → c ∈ sessions s → metas s !! c = Some m → session_ips s ≡ₚ m_ip m :: session_ips (put_out c (m_ip m) s).
Proof.
  intros Hok Hc Hm. rewrite (leave_ips s c m Hok Hc Hm).
  rewrite (session_ips_same (set_sessions (λ t, t ∖ {[c]}) s) (put_out c (m_ip m) s)); [done..|].
  intros d. by apply alter_ip.
Qed.

(** [s'] is [s] without some unpaired sessions. *)
Definition spared (s s' : Shared) : Prop :=
  sessions s' ⊆ sessions s ∧
  (∀ c, m_ip <$> metas s' !! c = m_ip <$> metas s !! c) ∧
  (∀ c m, metas s !! c = Some m → m_class m = CLASS_PAIRED → c ∈ sessions s →
     c ∈ sessions s' ∧ metas s' !! c = Some m) ∧
  (∀ c, m_class <$> metas s' !! c = m_class <$> metas s !! c) ∧
  s' = set_metas (λ _, metas s') (set_sessions (λ _, sessions s') (set_per_ip (λ _, per_ip s') s)).

Lemma set_id s : s = set_metas (λ _, metas s) (set_sessions (λ _, sessions s) (set_per_ip (λ _, per_ip s) s)).
Proof. by destruct s. Qed.

Lemma spared_refl s : spared s s.
Proof. split_and!; [done..|]. apply set_id. Qed.

Lemma spared_trans s1 s2 s3 : spared s1 s2 → spared s2 s3 → spared s1 s3.
Proof.
  intros (A1 & A2 & A3 & A4 & A5) (B1 & B2 & B3 & B4 & B5). split_and!.
  - set_solver.
  - intros c. by rewrite B2, A2.
  - intros c m Hm Hp Hc. destruct (A3 c m Hm Hp Hc). by apply B3.
  - intros c. by rewrite B4, A4.
  - rewrite B5. rewrite A5. done.
Qed.

Lemma put_out_spared c m ip s : metas s !! c = Some m → m_class m ≠ CLASS_PAIRED → spared s (put_out c ip s).
Proof.
  intros Hm Hcl. split_and!; cbn.
  - set_solver.
  - intros d. by apply alter_ip.
  - intros d m' Hd Hp Hin. assert (d ≠ c) by (intros ->; congruence). split; [set_solver|]. by rewrite lookup_alter_ne.
  - intros d. destruct (decide (d = c)) as [->|?]; [rewrite lookup_alter_eq, Hm|rewrite lookup_alter_ne]; done.
  - done.
Qed.

(** All sessions that count against [key] have their peer online. *)
Definition all_paired (pick : SessionMeta → bool) (s : Shared) : Prop :=
  ∀ c m, c ∈ sessions s → metas s !! c = Some m → pick m = true → m_class m = CLASS_PAIRED.

Lemma make_room_spec fuel ip s ok s' :
  conns_ok s → (size (sessions s) ≤ fuel)%nat → make_room cfg fuel ip s = (ok, s') →
  ∃ s1, conns_ok s1 ∧ spared s s1 ∧
  if ok then ∃ m, try_acquire ip (conn_caps cfg) (per_ip s1) = Ok m ∧ s' = set_per_ip (λ _, m) s1
  else s' = s1 ∧ ∃ key, key ∈ iter (ip_keys ip) ∧ cap (conn_caps cfg) key ≤ holders (session_ips s1) key ∧
       all_paired (λ m, key_contains key (m_ip m)) s1.
Proof.
  revert s. induction fuel as [|fuel IH]; intros s Hok Hf; cbn [make_room];
    destruct (try_acquire ip (conn_caps cfg) (per_ip s)) as [m|full] eqn:Ea;
    try (intros [= <- <-]; exists s; split_and!; [done|apply spared_refl|by eauto]).
  all: destruct (acquire_err _ _ _ _ _ (co_counted _ Hok) Ea) as [Hk Hc].
  - intros [= <- <-]. exists s. split; [done|]. split; [apply spared_refl|]. split; [done|].
    exists full. split_and!; [done..|]. intros c m Hc'.
    assert (sessions s ≡ ∅) as Hemp by (apply size_empty_inv; lia). set_solver.
  - rewrite evict_run. destruct (evictee _ s) as [[c m]|] eqn:Ee.
    + destruct (evictee_some _ _ _ _ Ee) as (Hin & Hm & Hcl & _). intros Hr.
      pose proof (put_out_size c (m_ip m) s Hin).
      destruct (IH _ (put_out_ok c m s Hok Hin Hm) ltac:(lia) Hr) as (s2 & H1 & H2 & H3).
      exists s2. split_and!; [done| |done]. eapply spared_trans; [by eapply put_out_spared|done].
    + intros [= <- <-]. exists s. split; [done|]. split; [apply spared_refl|]. split; [done|].
      exists full. split_and!; [done..|]. intros c m Hin Hm Hp. by apply (evictee_none _ s c m Ee).
Qed.

(** A refused connection met a limit that only paired sessions hold. *)
Definition full_of_pairs (ip : IpAddr) (s : Shared) : Prop :=
  hard_cap cfg ≤ active s ∨
  (∃ key, key ∈ iter (ip_keys ip) ∧ cap (conn_caps cfg) key ≤ holders (session_ips s) key ∧
     all_paired (λ m, key_contains key (m_ip m)) s) ∨
  (max_connections cfg ≤ Z.of_nat (size (sessions s)) ∧ all_paired (λ _, true) s).

Definition new_meta (now jitter_ms : Z) (ip : IpAddr) : SessionMeta :=
  mkMeta ip now (ms epoch now) (unpaired_max_lifetime cfg + jitter_ms * MILLI) CLASS_UNAUTH false.

(** The session that enters after [s1]. *)
Definition entered (now jitter_ms : Z) (ip : IpAddr) (s1 : Shared) (m : ConnCounter) : Shared :=
  set_active (λ n, n + 1) (set_sessions (λ t, {[next_conn s1]} ∪ t)
    (set_metas (<[next_conn s1 := new_meta now jitter_ms ip]>) (set_next_conn S (set_per_ip (λ _, m) s1)))).

Lemma entered_ok now jitter_ms ip s m :
  conns_ok s → counted (ip :: session_ips s) m → within_caps (conn_caps cfg) (ip :: session_ips s) →
  Z.of_nat (size (sessions s)) < max_connections cfg → conns_ok (entered now jitter_ms ip s m).
Proof.
  intros [H1 H2 H3 H4 H5] Hc Hw Hlt. assert (next_conn s ∉ sessions s) as Hfresh.
  { intros Hin. specialize (H2 _ (H1 _ Hin)). lia. }
  assert (session_ips (entered now jitter_ms ip s m) ≡ₚ ip :: session_ips s) as Hp.
  { apply (session_ips_cons _ _ (next_conn s) (new_meta now jitter_ms ip)); cbn; [done|done|by rewrite lookup_insert_eq|].
    intros d Hd. rewrite lookup_insert_ne; [done|]. intros <-. done. }
  split; cbn.
  - intros d Hd. destruct (decide (d = next_conn s)) as [->|Hne]; [rewrite lookup_insert_eq; by eexists|].
    rewrite lookup_insert_ne by done. apply H1. set_solver.
  - intros d. destruct (decide (d = next_conn s)) as [->|Hne]; [lia|]. rewrite lookup_insert_ne by done.
    intros Hd%H2. lia.
  - by rewrite Hp.
  - by rewrite Hp.
  - rewrite size_union, size_singleton by set_solver. lia.
Qed.

Lemma per_ip_same s m : conns_ok s → counted (session_ips s) m → conns_ok (set_per_ip (λ _, m) s).
Proof. intros [H1 H2 H3 H4 H5] Hc. by split. Qed.

Lemma spared_per_ip s s' m : spared s s' → spared s (set_per_ip (λ _, m) s').
Proof. intros (H1 & H2 & H3 & H4 & H5). split_and!; [done..|]. cbn. by rewrite H5 at 1. Qed.

Lemma admit_spec now jitter_ms ip s r s' :
  conns_ok s → admit_conn cfg epoch now jitter_ms ip s = (r, s') →
  conns_ok s' ∧ ∃ s1, conns_ok s1 ∧ spared s s1 ∧
  match r with
  | Some c => c = next_conn s1 ∧ ∃ m, s' = entered now jitter_ms ip s1 m
  | None => s' = s1 ∧ full_of_pairs ip s1
  end.
Proof.
  intros Hok. unfold admit_conn. destruct (Z.leb_spec (hard_cap cfg) (active s)) as [Hh|Hh].
  { intros [= <- <-]. split; [done|]. exists s. split_and!; [done|apply spared_refl|done|by left]. }
  destruct (make_room cfg _ ip s) as [ok s2] eqn:Em.
  destruct (make_room_spec (S (size (sessions s))) ip s ok s2 Hok ltac:(lia) Em) as (s1 & Hok1 & Hsp & Hr). destruct ok; cbn [negb].
  2:{ destruct Hr as [-> Hk]. intros [= <- <-]. split; [done|]. exists s1. split_and!; [done..|]. by right; left. }
  destruct Hr as (m & Ha & ->). destruct (acquire_ok _ _ _ _ _ (co_counted _ Hok1) Ha) as [Hc Hw].
  specialize (Hw (co_caps _ Hok1)). pose proof (co_size _ Hok1) as Hle. cbn [sessions set_per_ip].
  destruct (Z.leb_spec (max_connections cfg) (Z.of_nat (size (sessions s1)))) as [Hfull|Hroom]; cbn [negb].
  2:{ intros [= <- <-]. split; [by apply entered_ok|]. exists s1. do 3 (split; [done|]). by exists m. }
  rewrite evict_run. change (evictee (λ _, true) (set_per_ip (λ _, m) s1)) with (evictee (λ _, true) s1).
  destruct (evictee (λ _, true) s1) as [[c mv]|] eqn:Ee; cbn [negb]; intros [= <- <-].
  - destruct (evictee_some _ _ _ _ Ee) as (Hin & Hm & Hcl & _).
    pose proof (put_out_ok c mv s1 Hok1 Hin Hm) as Hok2. pose proof (put_out_size c (m_ip mv) s1 Hin).
    rewrite (put_out_ips c mv s1 Hok1 Hin Hm) in Hc, Hw. rewrite Permutation_swap in Hc, Hw.
    split; [apply (entered_ok now jitter_ms ip (put_out c (m_ip mv) s1) (conn_release (m_ip mv) m)); [done| | |cbn in *; lia]|].
    + by apply release_counted.
    + by apply (release_caps _ (m_ip mv)).
    + exists (put_out c (m_ip mv) s1). split; [done|].
      split; [eapply spared_trans; [done|by eapply put_out_spared]|]. split; [done|]. by exists (conn_release (m_ip mv) m).
  - assert (counted (session_ips s1) (conn_release ip m)) by (by apply release_counted).
    split; [by apply (per_ip_same s1)|]. exists (set_per_ip (λ _, conn_release ip m) s1).
    split_and!; [by apply per_ip_same|by apply spared_per_ip|done|].
    right; right. split; [done|]. intros c mv Hin Hm Hp. by apply (evictee_none _ s1 c mv Ee).
Qed.

Lemma finish_ok c m s : metas s !! c = Some m → conns_ok s → conns_ok (finish c (m_ip m) s).
Proof.
  intros Hm Hok. unfold finish. case_decide as Hc.
  - destruct (leave_ok s c m Hok Hc Hm). by split.
  - by destruct Hok.
Qed.

(** ** Relay pair slots *)

Definition holds (s : Shared) : gmap bytes RelayHold := omap e_relay (ids s).
Definition hold_ips (h : gmap bytes RelayHold) : list IpAddr :=
  concat ((λ p, [(h_ips p.2).1; (h_ips p.2).2]) <$> map_to_list h).

(** The table of pair slots, with [extra] addresses counted beside it. *)
Record relays_with (extra : list IpAddr) (s : Shared) : Prop := {
  rw_dom : relaying s = dom (holds s);
  rw_pairs : relay_pairs s = Z.of_nat (size (holds s));
  rw_max : relay_pairs s ≤ Z.max 0 (relay_max_pairs cfg);
  rw_counted : counted (extra ++ hold_ips (holds s)) (relay_ips s);
  rw_caps : within_caps (relay_caps cfg) (extra ++ hold_ips (holds s));
}.

Lemma hold_ips_insert h rid x :
  h !! rid = None → hold_ips (<[rid := x]> h) ≡ₚ (h_ips x).1 :: (h_ips x).2 :: hold_ips h.
Proof. intros Hn. unfold hold_ips. by rewrite map_to_list_insert. Qed.

Lemma hold_ips_delete h rid x :
  h !! rid = Some x → hold_ips h ≡ₚ (h_ips x).1 :: (h_ips x).2 :: hold_ips (delete rid h).
Proof.
  intros Hx. rewrite <- (insert_delete_id h rid x Hx) at 1. rewrite hold_ips_insert by apply lookup_delete_eq. done.
Qed.

Lemma relays_same extra s s' :
  holds s' = holds s → relaying s' = relaying s → relay_pairs s' = relay_pairs s → relay_ips s' = relay_ips s →
  relays_with extra s → relays_with extra s'.
Proof. intros Hh Hr Hp Hi [H1 H2 H3 H4 H5]. split; by rewrite ?Hh, ?Hr, ?Hp, ?Hi. Qed.

(** Writing an entry keeps the slots unless it changes its own. *)
Lemma holds_write (rid : bytes) (e : IdEntry) (m : gmap bytes IdEntry) :
  m !! rid ≫= e_relay = e_relay e → omap e_relay (<[rid := e]> m) = omap e_relay m.
Proof.
  intros He. apply map_eq. intros k. rewrite !lookup_omap. destruct (decide (k = rid)) as [->|?].
  - by rewrite lookup_insert_eq.
  - by rewrite lookup_insert_ne.
Qed.

Lemma holds_alter (f : IdEntry → IdEntry) (rid : bytes) (m : gmap bytes IdEntry) :
  (∀ e, m !! rid = Some e → e_relay (f e) = e_relay e) → omap e_relay (alter f rid m) = omap e_relay m.
Proof.
  intros Hf. apply map_eq. intros k. rewrite !lookup_omap. destruct (decide (k = rid)) as [->|?].
  - rewrite lookup_alter_eq. destruct (m !! rid) eqn:E; [cbn; by apply Hf|done].
  - by rewrite lookup_alter_ne.
Qed.

Lemma holds_end_relay rid s : holds (end_relay rid s) = delete rid (holds s).
Proof.
  unfold holds, end_relay. apply map_eq. intros k. destruct (decide (k = rid)) as [->|Hk].
  - rewrite lookup_delete_eq, lookup_omap. destruct (ids s !! rid) as [e|] eqn:E; [|by rewrite E].
    destruct (e_relay e) eqn:Er; cbn; [by rewrite lookup_insert_eq|by rewrite E].
  - rewrite lookup_delete_ne, !lookup_omap by done. destruct (ids s !! rid) as [e|]; [|done].
    destruct (e_relay e); cbn; [by rewrite lookup_insert_ne|done].
Qed.

Lemma end_relay_relays extra rid s : relays_with extra s → relays_with extra (end_relay rid s).
Proof.
  intros Hok. pose proof (holds_end_relay rid s) as Hh. destruct (holds s !! rid) as [h|] eqn:Eh.
  - assert (∃ e, ids s !! rid = Some e ∧ e_relay e = Some h) as (e & Ee & Er).
    { unfold holds in Eh. rewrite lookup_omap in Eh. destruct (ids s !! rid); [by eexists|done]. }
    destruct Hok as [H1 H2 H3 H4 H5]. pose proof (hold_ips_delete _ _ _ Eh) as Hp.
    rewrite Hp in H4, H5. rewrite !(Permutation_app_comm extra) in H4, H5. cbn in H4, H5.
    split; rewrite ?Hh; unfold end_relay; rewrite ?Ee, ?Er; cbn.
    + rewrite dom_delete_L, H1. done.
    + rewrite map_size_delete_Some by eauto. assert (size (holds s) ≠ 0%nat); [|lia].
      intros E0%map_size_empty_inv. rewrite E0 in Eh. done.
    + lia.
    + rewrite (Permutation_app_comm extra). by do 2 apply release_counted.
    + rewrite (Permutation_app_comm extra). by do 2 eapply release_caps.
  - replace (end_relay rid s) with s; [done|]. unfold end_relay, holds in *. rewrite lookup_omap in Eh.
    destruct (ids s !! rid) as [e|]; [|done]. cbn in Eh. by rewrite Eh.
Qed.

(** A slot that is taken but not written to its entry yet. *)
Definition slot_taken (rid : bytes) (ips : IpAddr * IpAddr) (s : Shared) : Prop :=
  relaying s = {[rid]} ∪ dom (holds s) ∧ relay_pairs s = Z.of_nat (size (holds s)) + 1 ∧
  relay_pairs s ≤ Z.max 0 (relay_max_pairs cfg) ∧ holds s !! rid = None ∧
  counted (ips.1 :: ips.2 :: hold_ips (holds s)) (relay_ips s) ∧
  within_caps (relay_caps cfg) (ips.1 :: ips.2 :: hold_ips (holds s)).

Lemma victim_held mine s v : victim mine s = Some v → is_Some (holds s !! v).
Proof.
  unfold victim. set (f := λ best x, _).
  assert (∀ l best x, foldl f best l = Some x → x ∈ l ∨ best = Some x) as H.
  { induction l as [|y l IH]; intros best x; cbn; [by right|].
    intros [H|H]%IH; [left; by right|]. unfold f in H.
    destruct best as [z|]; [destruct (victim_lt z y)|]; simplify_eq; set_solver. }
  destruct (foldl f None _) as [[[l st] r]|] eqn:E; [|done]. cbn. intros [= <-].
  destruct (H _ _ _ E) as [Hin|]; [|done]. unfold busier in Hin.
  apply list_elem_of_omap in Hin as (r' & _ & Hr). unfold holds. rewrite lookup_omap.
  destruct (ids s !! r') as [e|] eqn:Ee; [|done]. cbn in Hr. destruct (e_relay e) as [h|] eqn:Er; [|done]. cbn in Hr.
  destruct (mine <? _); [|done]. simplify_eq. rewrite Ee. cbn. by rewrite Er.
Qed.

Lemma take_relay_slot_spec rid ips s ok s' :
  relays_with [] s → holds s !! rid = None → take_relay_slot cfg rid ips s = (ok, s') →
  if ok then slot_taken rid ips s' else relays_with [] s'.
Proof.
  intros Hok Hn. unfold take_relay_slot.
  destruct (try_acquire ips.1 _ _) as [m1|] eqn:E1; [|by intros [= <- <-]].
  destruct (acquire_ok _ _ _ _ _ (rw_counted _ _ Hok) E1) as [C1 W1]. specialize (W1 (rw_caps _ _ Hok)).
  destruct (try_acquire ips.2 _ _) as [m2|] eqn:E2.
  2:{ intros [= <- <-]. destruct Hok as [H1 H2 H3 H4 H5]. split; try done. cbn. by apply release_counted. }
  destruct (acquire_ok _ _ _ _ _ C1 E2) as [C2 W2]. specialize (W2 W1). cbn [app] in *.
  assert (relays_with [ips.2; ips.1] (set_relay_ips (λ _, m2) s)) as Hx by (destruct Hok; by split).
  assert (∀ s1, relays_with [ips.2; ips.1] s1 → relay_pairs s1 < relay_max_pairs cfg → holds s1 !! rid = None →
    slot_taken rid ips (set_relaying (λ r, {[rid]} ∪ r) (set_relay_pairs (λ n, n + 1) s1))) as Hstart.
  { intros s1 [H1 H2 H3 H4 H5] Hlt Hno. unfold slot_taken. cbn. change (holds _) with (holds s1).
    rewrite H1, H2 in *. split_and!; [done|done|lia|done|..]; by rewrite (Permutation_swap (ips.1) (ips.2)) in *. }
  destruct (Z.leb_spec (relay_max_pairs cfg) (relay_pairs (set_relay_ips (λ _, m2) s))) as [Hfull|Hroom];
    [|intros [= <- <-]; by apply Hstart].
  destruct (victim _ _) as [v|] eqn:Ev; intros [= <- <-].
  - pose proof (victim_held _ _ _ Ev) as [hv Hv]. pose proof (end_relay_relays _ v _ Hx) as Hx'.
    apply Hstart; [done| |rewrite holds_end_relay; by rewrite lookup_delete_None; right].
    rewrite (rw_pairs _ _ Hx'), holds_end_relay, map_size_delete_Some by eauto.
    pose proof (rw_pairs _ _ Hx) as Hs. pose proof (rw_max _ _ Hx).
    assert (size (holds (set_relay_ips (λ _, m2) s)) ≠ 0%nat); [|lia].
    intros E0%map_size_empty_inv. rewrite E0 in Hv. done.
  - destruct Hok as [H1 H2 H3 H4 H5]. split; try done. cbn.
    apply release_counted, release_counted. by rewrite Permutation_swap.
Qed.

Lemma end_relay_known rid v s : is_Some (ids (end_relay v s) !! rid) ↔ is_Some (ids s !! rid).
Proof.
  unfold end_relay. destruct (ids s !! v) as [e|] eqn:E; [|done]. destruct (e_relay e); [|done]. cbn.
  destruct (decide (rid = v)) as [->|?]; [rewrite lookup_insert_eq, E; by split|by rewrite lookup_insert_ne].
Qed.

Lemma take_relay_slot_known rid ips s k :
  is_Some (ids (take_relay_slot cfg rid ips s).2 !! k) ↔ is_Some (ids s !! k).
Proof.
  unfold take_relay_slot. destruct (try_acquire _ _ _) as [m1|]; [|done].
  destruct (try_acquire _ _ m1) as [m2|]; [|done]. destruct (_ <=? _); [|done].
  destruct (victim _ _); [|done]. cbn. by rewrite end_relay_known.
Qed.

Lemma acquire_relay_relays now rid ips s :
  relays_with [] s → holds s !! rid = None → is_Some (ids s !! rid) →
  relays_with [] (acquire_relay cfg now rid ips s).2.
Proof.
  intros Hok Hn Hk. unfold acquire_relay. destruct (match ids s !! rid with Some _ => _ | None => _ end); [done|].
  apply (take_relay_slot_known rid ips) in Hk. destruct (take_relay_slot cfg rid ips s) as [ok s1] eqn:E.
  pose proof (take_relay_slot_spec _ _ _ _ _ Hok Hn E) as Hs. cbn [snd] in *. destruct Hk as [e He]. destruct ok.
  - destruct Hs as (H1 & H2 & H3 & H4 & H5 & H6).
    assert (holds (set_ids (alter (λ e, set_e_relay_denied (λ _, None) (set_e_relay (λ _, Some (mkHold now now ips)) e)) rid) s1)
      = <[rid := mkHold now now ips]> (holds s1)) as Hh.
    { unfold holds. apply map_eq. intros k. cbn. rewrite lookup_omap. destruct (decide (k = rid)) as [->|Hne].
      - by rewrite lookup_alter_eq, He, lookup_insert_eq.
      - by rewrite lookup_alter_ne, lookup_insert_ne, lookup_omap. }
    pose proof (hold_ips_insert _ rid (mkHold now now ips) H4) as Hp. split; rewrite Hh || idtac; cbn.
    + by rewrite dom_insert_L.
    + rewrite map_size_insert_None by done. lia.
    + done.
    + by rewrite Hp.
    + by rewrite Hp.
  - eapply relays_same; [..|exact Hs]; [|done..]. by apply holds_alter.
Qed.

(** ** What most operations leave alone *)

(** Who sits where: an id's key, its two sessions, and its idle record. *)
Definition seat (sl : Slot) : nat * IpAddr := (sl_conn sl, sl_ip sl).
Record Peers := mkPeers {
  p_key : bytes;
  p_box : option (nat * IpAddr);
  p_device : option (nat * IpAddr);
  p_gen : Z;
  p_paired : bool;
}.
Definition peers (e : IdEntry) : Peers :=
  mkPeers (e_public_key e) (seat <$> e_box e) (seat <$> e_device e) (e_idle_gen e) (e_ever_paired e).
Definition p_seat (p : Peers) (r : Role) : option (nat * IpAddr) := match r with Box => p_box p | Device => p_device p end.
Definition who (m : SessionMeta) : IpAddr * Z := (m_ip m, m_class m).

Definition quiet (s s' : Shared) : Prop :=
  sessions s' = sessions s ∧ per_ip s' = per_ip s ∧ next_conn s' = next_conn s ∧
  who <$> metas s' = who <$> metas s ∧ peers <$> ids s' = peers <$> ids s ∧
  idle_new s' = idle_new s ∧ idle_paired s' = idle_paired s ∧ next_gen s' = next_gen s ∧ active s' = active s.

#[export] Instance quiet_preorder : PreOrder quiet.
Proof.
  split; [by repeat split|]. intros s1 s2 s3 (?&?&?&?&?&?&?&?&?) (?&?&?&?&?&?&?&?&?).
  repeat split; congruence.
Qed.

Definition same_relays (s s' : Shared) : Prop :=
  holds s' = holds s ∧ relaying s' = relaying s ∧ relay_pairs s' = relay_pairs s ∧ relay_ips s' = relay_ips s.

#[export] Instance same_relays_preorder : PreOrder same_relays.
Proof. split; [by repeat split|]. intros s1 s2 s3 (?&?&?&?) (?&?&?&?). repeat split; congruence. Qed.

Definition still (s s' : Shared) : Prop := quiet s s' ∧ same_relays s s'.

#[export] Instance still_preorder : PreOrder still.
Proof. split; [by split|]. intros s1 s2 s3 [] []. split; by etrans. Qed.

Lemma still_relays extra s s' : still s s' → relays_with extra s → relays_with extra s'.
Proof. intros [_ (?&?&?&?)]. by apply relays_same. Qed.

Lemma push_still c d b s : still s (push cfg c d b s).2.
Proof.
  unfold push. destruct (outs s !! c); [|done]. destruct (channel d _); [|done]. destruct (_ && _); done.
Qed.

Lemma send_still c m s : still s (send cfg c m s).
Proof. apply push_still. Qed.

Lemma peers_write (rid : bytes) (e : IdEntry) (m : gmap bytes IdEntry) :
  peers <$> m !! rid = Some (peers e) → peers <$> <[rid := e]> m = peers <$> m.
Proof.
  intros He. rewrite fmap_insert. apply insert_id. by rewrite lookup_fmap.
Qed.

Lemma peers_alter (f : IdEntry → IdEntry) (rid : bytes) (m : gmap bytes IdEntry) :
  (∀ e, peers (f e) = peers e) → peers <$> alter f rid m = peers <$> m.
Proof.
  intros Hf. apply map_eq. intros k. rewrite !lookup_fmap. destruct (decide (k = rid)) as [->|?].
  - rewrite lookup_alter_eq. destruct (m !! rid); cbn; by rewrite ?Hf.
  - by rewrite lookup_alter_ne.
Qed.

Lemma write_still rid e e' s :
  ids s !! rid = Some e → peers e' = peers e → e_relay e' = e_relay e → still s (set_ids (<[rid := e']>) s).
Proof.
  intros He Hp Hr. split; repeat split.
  - apply peers_write. by rewrite He, Hp.
  - apply holds_write. by rewrite He, Hr.
Qed.

Lemma end_relay_quiet rid s : quiet s (end_relay rid s).
Proof.
  unfold end_relay. destruct (ids s !! rid) as [e|] eqn:E; [|done]. destruct (e_relay e); [|done].
  repeat split. cbn. apply peers_write. by rewrite E.
Qed.

Lemma acquire_relay_quiet now rid ips s : quiet s (acquire_relay cfg now rid ips s).2.
Proof.
  unfold acquire_relay. destruct (match ids s !! rid with Some _ => _ | None => _ end); [done|].
  assert (quiet s (take_relay_slot cfg rid ips s).2) as Ht.
  { unfold take_relay_slot. destruct (try_acquire _ _ _) as [m1|]; [|done].
    destruct (try_acquire _ _ m1) as [m2|]; [|done]. destruct (_ <=? _); [|done].
    destruct (victim _ _) as [v|]; [|done]. apply (end_relay_quiet v (set_relay_ips (λ _, m2) s)). }
  destruct (take_relay_slot cfg rid ips s) as [ok s1]. cbn [snd] in *. etrans; [exact Ht|].
  repeat split. cbn. apply peers_alter. intros e. by destruct ok.
Qed.

Lemma announce_still b s : still s (announce_online cfg b s).
Proof.
  unfold announce_online. destruct (ids s !! b_rid b) as [e|]; [|done].
  destruct (slot e (b_role b)), (slot e (Role_other (b_role b))); [|done..]. etrans; apply send_still.
Qed.

Lemma forward_still b blob s : still s (forward cfg b blob s).
Proof.
  unfold forward. destruct (_ || _); [done|]. destruct (ids s !! b_rid b) as [e|]; [|done].
  destruct (negb _); [done|]. destruct (slot e _); [apply send_still|done].
Qed.

Lemma credential_still now u p b c prev s : still s (issue_credential cfg stun_port now u p b c prev s).
Proof. unfold issue_credential. etrans; [|apply send_still]. done. Qed.

Lemma try_punch_still now ums n rid s : still s (try_punch cfg now ums n rid s).
Proof.
  unfold try_punch. destruct (ids s !! rid) as [e|] eqn:E; [|done].
  destruct (e_box e) as [a|], (e_device e) as [d|]; try done.
  destruct (sl_public a), (sl_public d); try done. destruct (_ <=? _); [done|].
  destruct (match e_last_punch e with Some _ => _ | None => _ end); [done|].
  etrans; [|apply send_still]. etrans; [|apply send_still]. by apply (write_still _ e).
Qed.

Lemma set_slot_peers r f e :
  (∀ sl, seat (f sl) = seat sl) → peers (set_slot r (fmap f) e) = peers e ∧ e_relay (set_slot r (fmap f) e) = e_relay e.
Proof.
  intros Hf. destruct r; cbn; (split; [|done]); unfold peers; cbn; f_equal;
    rewrite <- option_fmap_compose; apply option_fmap_ext; intros; apply Hf.
Qed.

Lemma candidates_still now ums n b blob s : still s (set_candidates cfg now ums n b blob s).
Proof.
  unfold set_candidates. destruct (_ || _); [done|]. destruct (ids s !! b_rid b) as [e|] eqn:E; [|done].
  destruct (negb _); [done|]. etrans; [|apply try_punch_still].
  destruct (set_slot_peers (b_role b) (set_sl_candidates (λ _, blob)) e) as [Hp Hr]; [done|].
  by apply (write_still _ e).
Qed.

Lemma punch_request_still now ums n b s : still s (punch_request cfg now ums n b s).
Proof.
  unfold punch_request. destruct (ids s !! b_rid b) as [e|]; [|done].
  destruct (owns e b); [apply try_punch_still|done].
Qed.

Lemma see_public_still now ums n b src s : still s (see_public cfg now ums n b src s).
Proof.
  unfold see_public. destruct (ids s !! b_rid b) as [e|] eqn:E; [|done]. destruct (negb _); [done|].
  destruct (match slot e (b_role b) with Some _ => _ | None => _ end); [done|].
  etrans; [|apply try_punch_still].
  destruct (set_slot_peers (b_role b) (set_sl_public (λ _, Some src)) e) as [Hp Hr]; [done|]. by apply (write_still _ e).
Qed.

(** Only credentials, limiters, counters and the registry differ. *)
Definition aside (s s' : Shared) : Prop :=
  s' = set_creds (λ _, creds s') (set_conn_limiter (λ _, conn_limiter s') (set_stun_limiter (λ _, stun_limiter s')
         (set_new_id_limiter (λ _, new_id_limiter s') (set_relay_limiter (λ _, relay_limiter s')
         (set_stun_global (λ _, stun_global s') (set_stats (λ _, stats s') (set_registry (λ _, registry s') s))))))).

Lemma aside_refl s : aside s s.
Proof. by destruct s. Qed.

Lemma aside_still s s' : aside s s' → still s s'.
Proof. intros ->. done. Qed.

(** A STUN packet passes its checks, and its source may be recorded. *)
Lemma stun_run hmac now ums n src p s :
  ∃ s1, aside s s1 ∧
  ((on_stun cfg hmac now ums n src p s).2 = s1 ∨ ∃ b, (on_stun cfg hmac now ums n src p s).2 = see_public cfg now ums n b src s1).
Proof.
  unfold on_stun. destruct (allow _ _ _) as [[] l]; [|eexists; split; [|by left]; done]. cbn [negb].
  destruct (Stun.parse_request p) as [req|]; [|eexists; split; [|by left]; done]. cbn [creds set_stun_limiter].
  destruct (creds s !! _) as [c|]; [|eexists; split; [|by left]; done].
  destruct (_ <=? _); [eexists; split; [|by left]; done|]. destruct (negb _); [eexists; split; [|by left]; done|].
  destruct (bucket_take _ _ _ _ _) as [[] bk]; [|eexists; split; [|by left]; done]. cbn [negb].
  destruct (bucket_take _ _ _ _ _) as [[] g]; [|eexists; split; [|by left]; done]. cbn [negb snd c_bind].
  destruct (c_bind c) as [b|]; [eexists; split; [|right; by exists b]|eexists; split; [|by left]]; done.
Qed.

Lemma spend_id_still now rid len s : still s (spend_id cfg now rid len s).2.
Proof.
  unfold spend_id. destruct (ids s !! rid) as [e|] eqn:E; [|done].
  destruct (bucket_take _ _ _ _ _) as [ok b]. by apply (write_still _ e).
Qed.

Lemma spend_ip_still now ip len s : still s (spend_ip now ip len s).2.
Proof. unfold spend_ip. by destruct (allow_cost _ _ _ _). Qed.

Lemma alter_still (f : IdEntry → IdEntry) (rid : bytes) s :
  (∀ e, peers (f e) = peers e) → (∀ e, e_relay (f e) = e_relay e) → still s (set_ids (alter f rid) s).
Proof. intros Hp Hr. split; repeat split; [by apply peers_alter|by apply holds_alter]. Qed.

(** An operation that may move pair slots and keeps everything else. *)
Definition relays_move (s s' : Shared) : Prop := quiet s s' ∧ (relays_with [] s → relays_with [] s').

#[export] Instance relays_move_preorder : PreOrder relays_move.
Proof. split; [by split|]. intros s1 s2 s3 [? H1] [? H2]. split; [by etrans|auto]. Qed.

Lemma still_move s s' : still s s' → relays_move s s'.
Proof. intros H. split; [apply H|by apply still_relays]. Qed.

Lemma end_relay_move rid s : relays_move s (end_relay rid s).
Proof. split; [apply end_relay_quiet|apply end_relay_relays]. Qed.

(** A datagram was relayed: the time of its slot is refreshed. *)
Lemma refresh_move now rid s : relays_move s (set_ids (alter (set_e_relay (fmap (set_h_last (λ _, now)))) rid) s).
Proof.
  split; [repeat split; by apply peers_alter|].
  assert (holds (set_ids (alter (set_e_relay (fmap (set_h_last (λ _, now)))) rid) s) =
    alter (set_h_last (λ _, now)) rid (holds s)) as Hh.
  { apply map_eq. intros k. unfold holds. cbn. rewrite lookup_omap. destruct (decide (k = rid)) as [->|?].
    - rewrite !lookup_alter_eq, lookup_omap. by destruct (ids s !! rid).
    - by rewrite !lookup_alter_ne, lookup_omap. }
  assert (hold_ips (alter (set_h_last (λ _, now)) rid (holds s)) ≡ₚ hold_ips (holds s)) as Hp.
  { destruct (holds s !! rid) as [h|] eqn:E; [|by rewrite alter_id; [|intros ? E'; congruence]].
    rewrite (hold_ips_delete (holds s) rid h), (hold_ips_delete _ rid (set_h_last (λ _, now) h));
      [by rewrite delete_alter_eq|by rewrite lookup_alter_eq, E|done]. }
  intros [H1 H2 H3 H4 H5]. split; rewrite ?Hh; cbn in *; [by rewrite dom_alter_L|by rewrite <- size_dom, dom_alter_L, size_dom|done|..];
    by rewrite Hp.
Qed.

Lemma relay_checks_move now b len reg s : relays_move s (relay_checks cfg now b len reg s).2.
Proof.
  unfold relay_checks. destruct (ids s !! b_rid b) as [e|] eqn:E; [|done]. destruct (slot e (b_role b)) as [me|]; [|done].
  destruct (negb (owns e b)); [done|]. destruct (slot e (Role_other (b_role b))) as [peer|]; [|by apply still_move].
  destruct (negb (match outs s !! sl_conn peer with Some _ => _ | None => _ end)); [by apply still_move|].
  destruct (negb (gate_open cfg e reg)); cbn [snd].
  { etrans; [apply (end_relay_move (b_rid b))|]. apply still_move.
    etrans; [by apply (alter_still (set_e_relay_denied (λ _, Some now)) (b_rid b))|apply spend_id_still]. }
  set (x := if is_some (e_relay e) then _ else _).
  assert (relays_move s x.2) as Hx.
  { subst x. destruct (e_relay e) eqn:Er; [done|]. cbn. split; [apply acquire_relay_quiet|].
    intros Hok. apply acquire_relay_relays; [done| |by rewrite E]. unfold holds. by rewrite lookup_omap, E. }
  destruct x as [[] s1]; cbn [negb snd] in *; [|etrans; [exact Hx|by apply still_move]].
  etrans; [exact Hx|]. etrans; [apply (refresh_move now (b_rid b))|]. apply still_move.
  set (s2 := set_ids (alter (set_e_relay (fmap (set_h_last (λ _, now)))) (b_rid b)) s1).
  pose proof (spend_id_still now (b_rid b) len s2) as Hs. destruct (spend_id cfg now (b_rid b) _ s2) as [[] s3]; exact Hs.
Qed.

(** What follows the checks of a datagram: counters, and a push to the peer. *)
Lemma relay_data_run now b p s :
  let len := f64_of (Z.of_nat (length p)) in
  aside s (relay_data cfg now b p s).2 ∨
  let s1 := (relay_checks cfg now b len (registry s) s).2 in
  aside s1 (relay_data cfg now b p s).2 ∨
  ∃ peer ip s2, (relay_checks cfg now b len (registry s) s).1 = Cleared peer ip ∧ aside s1 s2 ∧
    aside (push cfg peer true p s2).2 (relay_data cfg now b p s).2.
Proof.
  cbv zeta. unfold relay_data. destruct (negb (relay_enabled cfg)); [by left|right].
  destruct (relay_checks cfg now b _ (registry s) s) as [[|ip|peer ip] s1]; cbn [snd fst]; [left; apply aside_refl|left|].
  { unfold spend_ip. by destruct (allow_cost _ _ _ _). }
  unfold spend_ip. destruct (allow_cost _ _ _ _) as [[] l]; cbn [negb snd]; [right|by left].
  exists peer, ip, (set_relay_limiter (λ _, l) s1). split; [done|]. split; [done|]. unfold send_data.
  by destruct (push cfg peer true p _) as [[] s3].
Qed.

Lemma relay_data_move now b p s : relays_move s (relay_data cfg now b p s).2.
Proof.
  destruct (relay_data_run now b p s) as [H|[H|(peer & ip & s2 & _ & H2 & H3)]]; [by apply still_move, aside_still|..].
  - etrans; [apply relay_checks_move|by apply still_move, aside_still].
  - etrans; [apply relay_checks_move|]. etrans; [apply still_move, aside_still, H2|].
    etrans; [apply still_move, push_still|by apply still_move, aside_still].
Qed.

(** ** Idle ids *)

(** Every id without a peer online has its record in the queue of its kind. *)
Record idle (P : gmap bytes Peers) (q : bool → list IdleRec) (g : Z) : Prop := {
  id_gen rid p : P !! rid = Some p → 0 ≤ p_gen p ≤ g;
  id_online rid p : P !! rid = Some p → p_gen p = 0 ↔ is_some (p_box p) || is_some (p_device p) = true;
  id_queued rid p : P !! rid = Some p → p_gen p ≠ 0 →
    ∃ r, r ∈ q (p_paired p) ∧ i_rid r = rid ∧ i_generation r = p_gen p;
  id_rec b r : r ∈ q b → 0 < i_generation r ≤ g;
  id_side b r p : r ∈ q b → P !! i_rid r = Some p → p_gen p = i_generation r → p_paired p = b;
}.

Definition idle_ok (s : Shared) : Prop := idle (peers <$> ids s) (λ b, queue b s) (next_gen s).

Lemma is_live_spec m r :
  is_live m r = true ↔ ∃ p, (peers <$> m) !! i_rid r = Some p ∧ p_gen p = i_generation r.
Proof.
  unfold is_live. rewrite lookup_fmap. destruct (m !! i_rid r) as [e|]; cbn; [rewrite Z.eqb_eq|split; [done|by intros (?&?&?)]].
  split; [intros H; by exists (peers e)|intros (? & [= <-] & ?); done].
Qed.

(** Records that count for nothing may go. *)
Lemma idle_shrink P q q' g :
  idle P q g → (∀ b r, r ∈ q' b → r ∈ q b) →
  (∀ b r p, r ∈ q b → P !! i_rid r = Some p → p_gen p = i_generation r → r ∈ q' b) → idle P q' g.
Proof.
  intros [H1 H2 H3 H4 H5] Hsub Hkeep. split; eauto.
  intros rid p Hp Hg. destruct (H3 rid p Hp Hg) as (r & Hr & <- & Er). exists r. split_and!; eauto.
Qed.

Lemma idle_ext P q q' g : (∀ b, q' b = q b) → idle P q g → idle P q' g.
Proof. intros He H. eapply idle_shrink; [exact H|..]; intros b *; rewrite He; auto. Qed.

Lemma idle_delete P q g rid : idle P q g → idle (delete rid P) q g.
Proof.
  intros [H1 H2 H3 H4 H5]. split; try done; intros *.
  - intros [_ ?]%lookup_delete_Some. eauto.
  - intros [_ ?]%lookup_delete_Some. eauto.
  - intros [_ ?]%lookup_delete_Some. eauto.
  - intros ? [_ ?]%lookup_delete_Some. eauto.
Qed.

(** An id with a peer online needs no record. *)
Lemma idle_online P q g rid p :
  0 ≤ g → p_gen p = 0 → is_some (p_box p) || is_some (p_device p) = true → idle P q g → idle (<[rid := p]> P) q g.
Proof.
  intros Hg Hp Hon [H1 H2 H3 H4 H5].
  assert (∀ k p', <[rid := p]> P !! k = Some p' → p' = p ∨ P !! k = Some p') as Hl.
  { intros k p' [[_ <-]|[_ ?]]%lookup_insert_Some; auto. }
  split; intros *.
  - intros [->|?]%Hl; [lia|eauto].
  - intros [->|?]%Hl; [done|eauto].
  - intros [->|?]%Hl; [done|eauto].
  - apply H4.
  - intros Hr [->|?]%Hl; [|by eapply H5]. intros E. specialize (H4 _ _ Hr). lia.
Qed.

(** The last peer of an id leaves: a fresh record goes to the end. *)
Lemma idle_mark P q g rid p r :
  0 ≤ g → p_box p = None → p_device p = None → p_gen p = g + 1 → i_rid r = rid → i_generation r = g + 1 → idle P q g →
  idle (<[rid := p]> P) (λ b, if bool_decide (b = p_paired p) then q b ++ [r] else q b) (g + 1).
Proof.
  intros Hg Hb Hd Hp Hrid Hgen [H1 H2 H3 H4 H5].
  assert (∀ k p', <[rid := p]> P !! k = Some p' → (k = rid ∧ p' = p) ∨ P !! k = Some p') as Hl.
  { intros k p' [[<- <-]|[_ ?]]%lookup_insert_Some; auto. }
  assert (∀ b x, x ∈ (if bool_decide (b = p_paired p) then q b ++ [r] else q b) → x ∈ q b ∨ (b = p_paired p ∧ x = r)) as Hq.
  { intros b x. case_bool_decide; set_solver. }
  split; intros *.
  - intros [[-> ->]|Hk]%Hl; [lia|]. specialize (H1 _ _ Hk). lia.
  - intros [[-> ->]|Hk]%Hl; [rewrite Hb, Hd, Hp; cbn; split; [lia|done]|eauto].
  - intros [[-> ->]|Hk]%Hl Hne.
    + exists r. rewrite bool_decide_eq_true_2 by done. split_and!; [set_solver|done|by rewrite Hgen].
    + destruct (H3 _ _ Hk Hne) as (x & Hx & ? & ?). exists x. split_and!; [case_bool_decide; set_solver|done..].
  - intros [Hx|[_ ->]]%Hq; [|lia]. specialize (H4 _ _ Hx). lia.
  - intros [Hx|[-> ->]]%Hq [[_ ->]|Hk]%Hl Eg; [|by eapply H5|done|].
    + specialize (H4 _ _ Hx). lia.
    + specialize (H1 _ _ Hk). lia.
Qed.

(** ** Seats *)

(** A seat is held by one session that proved the id's key, and its class says
    whether the other seat is taken.  [tried] are the sessions that registered,
    [proved] the keys they signed for. *)
Record seats (P : gmap bytes Peers) (W : gmap nat (IpAddr * Z)) (tried : gset nat) (proved : gset Signed) : Prop := {
  se_class rid p r c ip : P !! rid = Some p → p_seat p r = Some (c, ip) →
    W !! c = Some (ip, if is_some (p_seat p (Role_other r)) then CLASS_PAIRED else CLASS_ALONE);
  se_uniq rid rid' p p' r r' c ip ip' : P !! rid = Some p → P !! rid' = Some p' →
    p_seat p r = Some (c, ip) → p_seat p' r' = Some (c, ip') → rid = rid' ∧ r = r';
  se_tried rid p r c ip : P !! rid = Some p → p_seat p r = Some (c, ip) → c ∈ tried;
  se_proved rid p r c ip : P !! rid = Some p → p_seat p r = Some (c, ip) → (c, rid, r, p_key p) ∈ proved;
  se_known c : c ∈ tried → is_Some (W !! c);
}.

Definition seats_ok (tried : gset nat) (proved : gset Signed) (s : Shared) : Prop :=
  seats (peers <$> ids s) (who <$> metas s) tried proved.

Lemma seats_delete P W tried proved rid : seats P W tried proved → seats (delete rid P) W tried proved.
Proof.
  intros [H1 H2 H3 H4 H5]. split; try done; intros *.
  - intros [_ ?]%lookup_delete_Some. eauto.
  - intros [_ ?]%lookup_delete_Some [_ ?]%lookup_delete_Some. eauto.
  - intros [_ ?]%lookup_delete_Some. eauto.
  - intros [_ ?]%lookup_delete_Some. eauto.
Qed.

Lemma other_other r : Role_other (Role_other r) = r.
Proof. by destruct r. Qed.
Lemma role_cases (r r' : Role) : r' = r ∨ r' = Role_other r.
Proof. destruct r, r'; auto. Qed.
Lemma other_ne r : Role_other r ≠ r.
Proof. by destruct r. Qed.

(** A session takes a seat. *)
Lemma seats_enter P W W' tried proved rid p c ip r :
  seats P W tried proved → c ∉ tried → p_seat p r = Some (c, ip) →
  (∀ p0, P !! rid = Some p0 → p_key p0 = p_key p ∧ p_seat p (Role_other r) = p_seat p0 (Role_other r)) →
  (P !! rid = None → p_seat p (Role_other r) = None) →
  W' !! c = Some (ip, if is_some (p_seat p (Role_other r)) then CLASS_PAIRED else CLASS_ALONE) →
  (∀ d ipd, p_seat p (Role_other r) = Some (d, ipd) → W' !! d = Some (ipd, CLASS_PAIRED)) →
  (∀ d, d ≠ c → (∀ ipd, p_seat p (Role_other r) ≠ Some (d, ipd)) → W' !! d = W !! d) →
  seats (<[rid := p]> P) W' ({[c]} ∪ tried) ({[(c, rid, r, p_key p)]} ∪ proved).
Proof.
  intros [H1 H2 H3 H4 H5] Hc Hr Hold Hnew Wc Wd Wo.
  assert (∀ r' d ipd, p_seat p r' = Some (d, ipd) → (r' = r ∧ d = c ∧ ipd = ip) ∨
    (r' = Role_other r ∧ ∃ p0, P !! rid = Some p0 ∧ p_key p0 = p_key p ∧ p_seat p0 (Role_other r) = Some (d, ipd))) as Hp.
  { intros r' d ipd Hs. destruct (role_cases r r') as [->| ->]; [rewrite Hr in Hs; simplify_eq; by left|right].
    split; [done|]. destruct (P !! rid) as [p0|] eqn:E; [|rewrite Hnew in Hs; done].
    destruct (Hold p0 eq_refl) as [? Ho]. exists p0. by rewrite <- Ho. }
  assert (∀ k p' r' d ipd, <[rid := p]> P !! k = Some p' → p_seat p' r' = Some (d, ipd) →
    (k = rid ∧ p' = p ∧ r' = r ∧ d = c ∧ ipd = ip) ∨ (k = rid ∧ p' = p ∧ r' = Role_other r ∧ p_seat p (Role_other r) = Some (d, ipd) ∧
      ∃ p0, P !! rid = Some p0 ∧ p_key p0 = p_key p ∧ p_seat p0 (Role_other r) = Some (d, ipd)) ∨
    (k ≠ rid ∧ P !! k = Some p')) as Hcase.
  { intros k p' r' d ipd [[<- <-]|[? Hk]]%lookup_insert_Some Hs; [|right; right; split; congruence].
    destruct (Hp _ _ _ Hs) as [(-> & -> & ->)|(-> & p0 & ?)]; [by left|right; left]. split_and!; eauto. }
  assert (∀ d ipd p0, P !! rid = Some p0 → p_seat p0 (Role_other r) = Some (d, ipd) → d ≠ c) as Hne.
  { intros d ipd p0 Hp0 Hs ->. by apply (H3 _ _ _ _ _ Hp0) in Hs. }
  split.
  - intros k p' r' d ipd Hk Hs. destruct (Hcase _ _ _ _ _ Hk Hs) as [(-> & -> & -> & -> & ->)|[(-> & -> & -> & Hs' & _)|[Hkr Hk']]].
    + done.
    + rewrite other_other, Hr. by apply Wd.
    + rewrite Wo; [by eapply H1| |].
      * intros ->. by apply (H3 _ _ _ _ _ Hk') in Hs.
      * intros ip' [(_ & -> & _)|(_ & p0 & Hp0 & _ & Hs0)]%Hp; [by apply (H3 _ _ _ _ _ Hk') in Hs|].
        destruct (H2 _ _ _ _ _ _ _ _ _ Hk' Hp0 Hs Hs0). done.
  - intros k k' p1 p2 r1 r2 d ip1 ip2 Hk Hk' Hs1 Hs2.
    destruct (Hcase _ _ _ _ _ Hk Hs1) as [(-> & -> & -> & -> & ->)|[(-> & -> & -> & _ & p0 & Hp0 & _ & Hs0)|[Hkr HP1]]],
      (Hcase _ _ _ _ _ Hk' Hs2) as [(-> & -> & -> & E & _)|[(-> & -> & -> & _ & p0' & Hp0' & _ & Hs0')|[Hkr' HP2]]];
      try done; subst.
    + by destruct (Hne _ _ _ Hp0' Hs0').
    + by apply (H3 _ _ _ _ _ HP2) in Hs2.
    + by destruct (Hne _ _ _ Hp0 Hs0).
    + by destruct (H2 _ _ _ _ _ _ _ _ _ Hp0 HP2 Hs0 Hs2).
    + by apply (H3 _ _ _ _ _ HP1) in Hs1.
    + by destruct (H2 _ _ _ _ _ _ _ _ _ HP1 Hp0' Hs1 Hs0').
    + by destruct (H2 _ _ _ _ _ _ _ _ _ HP1 HP2 Hs1 Hs2).
  - intros k p' r' d ipd Hk Hs.
    destruct (Hcase _ _ _ _ _ Hk Hs) as [(-> & -> & -> & -> & ->)|[(_ & _ & _ & _ & p0 & Hp0 & _ & Hs0)|[_ HP]]];
      [set_solver|apply elem_of_union_r; eauto..].
  - intros k p' r' d ipd Hk Hs.
    destruct (Hcase _ _ _ _ _ Hk Hs) as [(-> & -> & -> & -> & ->)|[(-> & -> & -> & _ & p0 & Hp0 & <- & Hs0)|[_ HP]]];
      [set_solver|apply elem_of_union_r; eauto..].
  - intros d [->%elem_of_singleton|Hd]%elem_of_union; [by rewrite Wc|]. specialize (H5 _ Hd).
    destruct (p_seat p (Role_other r)) as [[d' ipd]|] eqn:E.
    + destruct (decide (d = d')) as [->|?]; [by rewrite (Wd _ _ eq_refl)|]. rewrite Wo; [done| |intros ? [=]; done].
      intros ->. done.
    + rewrite Wo; [done|by intros ->|done].
Qed.

(** A session leaves its seat. *)
Lemma seats_leave P W W' tried proved rid p0 p r :
  seats P W tried proved → P !! rid = Some p0 → p_key p = p_key p0 → p_seat p r = None →
  p_seat p (Role_other r) = p_seat p0 (Role_other r) →
  (∀ d ipd, p_seat p (Role_other r) = Some (d, ipd) → W' !! d = Some (ipd, CLASS_ALONE)) →
  (∀ d, (∀ ipd, p_seat p (Role_other r) ≠ Some (d, ipd)) → W' !! d = W !! d) →
  seats (<[rid := p]> P) W' tried proved.
Proof.
  intros [H1 H2 H3 H4 H5] Hp0 Hkey Hr Ho Wd Wo.
  assert (∀ k p' r' d ipd, <[rid := p]> P !! k = Some p' → p_seat p' r' = Some (d, ipd) →
    (k = rid ∧ p' = p ∧ r' = Role_other r ∧ p_seat p0 (Role_other r) = Some (d, ipd)) ∨ (k ≠ rid ∧ P !! k = Some p')) as Hcase.
  { intros k p' r' d ipd [[<- <-]|[? Hk]]%lookup_insert_Some Hs; [|by right].
    destruct (role_cases r r') as [->| ->]; [congruence|]. left. by rewrite <- Ho. }
  split.
  - intros k p' r' d ipd Hk Hs. destruct (Hcase _ _ _ _ _ Hk Hs) as [(-> & -> & -> & Hs0)|[Hkr Hk']].
    + rewrite other_other, Hr. by apply Wd.
    + rewrite Wo; [by eapply H1|]. intros ip'. rewrite Ho. intros Hs0.
      by destruct (H2 _ _ _ _ _ _ _ _ _ Hk' Hp0 Hs Hs0).
  - intros k k' p1 p2 r1 r2 d ip1 ip2 Hk Hk' Hs1 Hs2.
    destruct (Hcase _ _ _ _ _ Hk Hs1) as [(-> & -> & -> & Hs0)|[Hkr HP1]],
      (Hcase _ _ _ _ _ Hk' Hs2) as [(-> & -> & -> & Hs0')|[Hkr' HP2]]; [done|..].
    + exact (H2 _ _ _ _ _ _ _ _ _ Hp0 HP2 Hs0 Hs2).
    + exact (H2 _ _ _ _ _ _ _ _ _ HP1 Hp0 Hs1 Hs0').
    + exact (H2 _ _ _ _ _ _ _ _ _ HP1 HP2 Hs1 Hs2).
  - intros k p' r' d ipd Hk Hs. destruct (Hcase _ _ _ _ _ Hk Hs) as [(_ & _ & _ & Hs0)|[_ HP]]; eauto.
  - intros k p' r' d ipd Hk Hs. destruct (Hcase _ _ _ _ _ Hk Hs) as [(-> & -> & -> & Hs0)|[_ HP]]; [rewrite Hkey|]; eauto.
  - intros d Hd. specialize (H5 _ Hd). destruct (p_seat p (Role_other r)) as [[d' ipd]|] eqn:E.
    + destruct (decide (d = d')) as [->|?]; [by rewrite (Wd _ _ eq_refl)|]. rewrite Wo; [done|intros ? [=]; done].
    + by rewrite Wo.
Qed.

(** ** The invariant of the tables *)

Record inv (tried : gset nat) (proved : gset Signed) (s : Shared) : Prop := {
  inv_conns : conns_ok s;
  inv_relays : relays_with [] s;
  inv_seats : seats_ok tried proved s;
  inv_idle : idle_ok s;
  inv_gen : 0 ≤ next_gen s;
  inv_ids : Z.of_nat (size (ids s)) ≤ Z.max 0 (max_ids cfg);
}.

Lemma size_peers s : size (peers <$> ids s) = size (ids s).
Proof. apply map_size_fmap. Qed.

Lemma quiet_conns s s' : quiet s s' → conns_ok s → conns_ok s'.
Proof.
  intros (H1 & H2 & H3 & H4 & _). apply conns_ok_same; [done| |done|done].
  intros d. assert (who <$> metas s' !! d = who <$> metas s !! d) as E by (rewrite <- !lookup_fmap; by rewrite H4).
  destruct (metas s' !! d), (metas s !! d); unfold who in E; cbn in E |- *; congruence.
Qed.

Lemma move_inv tried proved s s' : relays_move s s' → inv tried proved s → inv tried proved s'.
Proof.
  intros [Hq Hr] [H1 H2 H3 H4 H5 H6]. split; [by eapply quiet_conns|auto|..]; destruct Hq as (?&?&?&Hw&Hp&Hn&Hpa&Hg&?).
  - unfold seats_ok. by rewrite Hw, Hp.
  - unfold idle_ok in *. rewrite Hp, Hg. eapply idle_ext; [|exact H4]. intros []; [exact Hpa|exact Hn].
  - by rewrite Hg.
  - rewrite <- size_peers, Hp, size_peers. done.
Qed.

Lemma queue_set_queue b p f s : queue b (set_queue p f s) = if bool_decide (b = p) then f (queue p s) else queue b s.
Proof. by destruct b, p. Qed.

Lemma set_queue_conns p f s : conns_ok s → conns_ok (set_queue p f s).
Proof. destruct p; by apply conns_ok_same. Qed.
Lemma set_queue_relays p f s : relays_with [] s → relays_with [] (set_queue p f s).
Proof. destruct p; by apply relays_same. Qed.
Lemma set_queue_ids p f s : ids (set_queue p f s) = ids s.
Proof. by destruct p. Qed.
Lemma set_queue_metas p f s : metas (set_queue p f s) = metas s.
Proof. by destruct p. Qed.
Lemma set_queue_gen p f s : next_gen (set_queue p f s) = next_gen s.
Proof. by destruct p. Qed.

(** Dropping records that count for nothing. *)
Lemma inv_clean tried proved p q' s :
  inv tried proved s → (∀ r, r ∈ q' → r ∈ queue p s) →
  (∀ r, r ∈ queue p s → is_live (ids s) r = true → r ∈ q') → inv tried proved (set_queue p (λ _, q') s).
Proof.
  intros [H1 H2 H3 H4 H5 H6] Hsub Hkeep.
  split; [by apply set_queue_conns|by apply set_queue_relays|unfold seats_ok, idle_ok; rewrite ?set_queue_ids, ?set_queue_metas, ?set_queue_gen..]; try done.
  eapply idle_shrink; [exact H4|..].
  - intros b r. rewrite queue_set_queue. case_bool_decide; [subst; auto|done].
  - intros b r x Hr Hx Hg. rewrite queue_set_queue. case_bool_decide; [|done]. subst. apply Hkeep; [done|].
    apply is_live_spec. by exists x.
Qed.

Lemma remove_peers rid s : peers <$> ids (remove rid s) = delete rid (peers <$> ids s).
Proof. unfold remove. cbn. rewrite fmap_delete. by destruct (end_relay_quiet rid s) as (?&?&?&?&->&?). Qed.

Lemma remove_relays rid s : relays_with [] s → relays_with [] (remove rid s).
Proof.
  intros H%(end_relay_relays _ rid). refine (relays_same _ (end_relay rid s) _ _ _ _ _ H); [|done..].
  change (holds (remove rid s)) with (omap e_relay (delete rid (ids (end_relay rid s)))). rewrite omap_delete.
  fold (holds (end_relay rid s)). rewrite holds_end_relay. by rewrite delete_delete_eq.
Qed.

(** Dropping an id keeps everything about the others. *)
Lemma inv_remove tried proved rid s : inv tried proved s → inv tried proved (remove rid s).
Proof.
  intros [H1 H2 H3 H4 H5 H6]. destruct (end_relay_quiet rid s) as (A1&A2&A3&A4&A5&A6&A7&A8&A9) eqn:Hq. clear Hq.
  split.
  - assert (conns_ok (end_relay rid s)) as Hc by (eapply quiet_conns; [apply end_relay_quiet|done]). revert Hc.
    by apply conns_ok_same.
  - by apply remove_relays.
  - unfold seats_ok. rewrite remove_peers. unfold remove. cbn. rewrite A4. by apply seats_delete.
  - unfold idle_ok. rewrite remove_peers. apply (idle_delete _ _ _ rid) in H4. unfold remove. cbn. rewrite A8.
    eapply idle_ext; [|exact H4]. intros []; [exact A7|exact A6].
  - unfold remove. cbn. by rewrite A8.
  - etrans; [|exact H6]. rewrite <- (size_peers (remove rid s)), remove_peers, <- (size_peers s).
    apply Nat2Z.inj_le. rewrite <- !size_dom, dom_delete_L. apply subseteq_size. set_solver.
Qed.

Lemma pop_live_spec m q x q' :
  pop_live m q = (x, q') →
  match x with
  | Some r => ∃ dead, q = dead ++ r :: q' ∧ (∀ d, d ∈ dead → is_live m d = false) ∧ is_live m r = true
  | None => q' = [] ∧ ∀ d, d ∈ q → is_live m d = false
  end.
Proof.
  revert x. induction q as [|r q IH]; intros x; cbn; [intros [= <- <-]; split; [done|set_solver]|].
  destruct (is_live m r) eqn:E; [intros [= <- <-]; exists []; split_and!; [done|set_solver|done]|].
  intros H%IH. destruct x as [y|].
  - destruct H as (dead & -> & Hd & Hy). exists (r :: dead). split_and!; [done| |done].
    intros d [->|?]%elem_of_cons; auto.
  - destruct H as [-> H]. split; [done|]. intros d [->|?]%elem_of_cons; auto.
Qed.

Lemma remove_queue rid b s : queue b (remove rid s) = queue b s.
Proof. unfold remove. destruct (end_relay_quiet rid s) as (?&?&?&?&?&H1&H2&?). destruct b; cbn; by rewrite ?H1, ?H2. Qed.

Lemma remove_dead rid s r : is_live (ids (remove rid s)) r = true → is_live (ids s) r = true ∧ i_rid r ≠ rid.
Proof.
  rewrite !is_live_spec. intros (p & Hp & Hg). rewrite remove_peers in Hp. apply lookup_delete_Some in Hp as [? Hp].
  split; [by exists p|congruence].
Qed.

Lemma set_queue_remove p f rid s : set_queue p f (remove rid s) = remove rid (set_queue p f s).
Proof.
  unfold remove, end_relay. rewrite set_queue_ids. destruct (ids s !! rid) as [e|]; [destruct (e_relay e)|]; by destruct p.
Qed.

(** The first record that counts is popped and its id dropped. *)
Lemma inv_pop tried proved p dead r q' s :
  inv tried proved s → queue p s = dead ++ r :: q' → (∀ d, d ∈ dead → is_live (ids s) d = false) →
  inv tried proved (remove (i_rid r) (set_queue p (λ _, q') s)).
Proof.
  intros Hi Hq Hd. rewrite <- set_queue_remove. apply inv_clean; [by apply inv_remove|..]; intros x; rewrite remove_queue, Hq.
  - set_solver.
  - intros Hx [Hl Hne]%remove_dead. apply elem_of_app in Hx as [Hx|[->|Hx]%elem_of_cons]; [|done|done].
    rewrite Hd in Hl; done.
Qed.

Lemma evict_from_spec tried proved p s ok s' :
  inv tried proved s → evict_from p s = (ok, s') →
  inv tried proved s' ∧
  if ok then ∃ rid e, ids s !! rid = Some e ∧ e_idle_gen e ≠ 0 ∧ peers <$> ids s' = delete rid (peers <$> ids s) ∧
    who <$> metas s' = who <$> metas s ∧ next_gen s' = next_gen s
  else s' = set_queue p (λ _, []) s ∧ ∀ d, d ∈ queue p s → is_live (ids s) d = false.
Proof.
  intros Hi. unfold evict_from. destruct (pop_live _ _) as [x q'] eqn:E. apply pop_live_spec in E.
  destruct x as [r|]; intros [= <- <-].
  - destruct E as (dead & Hq & Hd & Hr). split; [by eapply inv_pop|]. apply is_live_spec in Hr as (pp & Hp & Hg).
    rewrite lookup_fmap in Hp. destruct (ids s !! i_rid r) as [e|] eqn:Ee; [|done]. cbn in Hp. simplify_eq.
    exists (i_rid r), e. rewrite remove_peers, set_queue_ids. unfold remove. cbn.
    destruct (end_relay_quiet (i_rid r) (set_queue p (λ _, q') s)) as (_&_&_&->&_&_&_&->&_).
    rewrite set_queue_metas, set_queue_gen. split_and!; try done.
    cbn in Hg. assert (r ∈ queue p s) as Hin by (rewrite Hq; set_solver). apply (id_rec _ _ _ (inv_idle _ _ _ Hi)) in Hin. lia.
  - destruct E as [-> Hd]. split; [|done]. apply inv_clean; [done|set_solver|]. intros r Hr. by rewrite Hd.
Qed.

(** Some peer of the id is online. *)
Definition online (e : IdEntry) : Prop := is_some (e_box e) || is_some (e_device e) = true.

Lemma idle_entry tried proved s rid e : inv tried proved s → ids s !! rid = Some e → e_idle_gen e = 0 ↔ online e.
Proof.
  intros Hi He. pose proof (id_online _ _ _ (inv_idle _ _ _ Hi) rid (peers e)) as H.
  rewrite lookup_fmap, He in H. specialize (H eq_refl). cbn in H. unfold online.
  by destruct (e_box e), (e_device e).
Qed.

Lemma evict_one_spec tried proved s ok s' :
  inv tried proved s → evict_one s = (ok, s') →
  inv tried proved s' ∧ who <$> metas s' = who <$> metas s ∧
  if ok then ∃ rid e, ids s !! rid = Some e ∧ ¬ online e ∧ peers <$> ids s' = delete rid (peers <$> ids s)
  else ids s' = ids s ∧ ∀ rid e, ids s !! rid = Some e → online e.
Proof.
  intros Hi. unfold evict_one. destruct (evict_from false s) as [ok1 s1] eqn:E1.
  destruct (evict_from_spec _ _ _ _ _ _ Hi E1) as [Hi1 H1]. destruct ok1.
  { intros [= <- <-]. destruct H1 as (rid & e & He & Hg & Hp & Hw & _). split_and!; [done..|].
    exists rid, e. split_and!; [done| |done]. by rewrite <- (idle_entry _ _ _ _ _ Hi He). }
  destruct H1 as [-> H1]. intros E2. destruct (evict_from_spec _ _ _ _ _ _ Hi1 E2) as [Hi2 H2]. destruct ok.
  - destruct H2 as (rid & e & He & Hg & Hp & Hw & _). rewrite set_queue_ids in He, Hp. rewrite set_queue_metas in Hw.
    split_and!; [done..|]. exists rid, e. split_and!; [done| |done]. by rewrite <- (idle_entry _ _ _ _ _ Hi He).
  - destruct H2 as [-> H2]. rewrite !set_queue_ids, !set_queue_metas in *. split_and!; [done..|].
    intros rid e He. rewrite <- (idle_entry _ _ _ _ _ Hi He). destruct (Z.eq_dec (e_idle_gen e) 0) as [|Hne]; [done|exfalso].
    pose proof (id_queued _ _ _ (inv_idle _ _ _ Hi) rid (peers e)) as Hq. rewrite lookup_fmap, He in Hq.
    destruct (Hq eq_refl Hne) as (r & Hr & <- & Hgen).
    assert (is_live (ids s) r = true) as Hl by (apply is_live_spec; exists (peers e); by rewrite lookup_fmap, He).
    cbn [p_paired peers] in Hr. destruct (e_ever_paired e); [rewrite (H2 r) in Hl|rewrite (H1 r) in Hl]; done.
Qed.

Lemma expire_queue_inv tried proved p ttl now q s :
  inv tried proved (set_queue p (λ _, q) s) → inv tried proved (expire_queue p ttl now q s).
Proof.
  revert s. induction q as [|r q IH]; intros s Hi; cbn [expire_queue]; [done|]. destruct (_ <=? _); [|done].
  apply IH. assert (queue p (set_queue p (λ _, r :: q) s) = r :: q) as Hq by (rewrite queue_set_queue; by rewrite bool_decide_eq_true_2).
  assert (∀ l, set_queue p (λ _, q) (set_queue p (λ _, l) s) = set_queue p (λ _, q) s) as Hss by (intros; by destruct p).
  destruct (is_live (ids s) r) eqn:El.
  - rewrite set_queue_remove, <- (Hss (r :: q)). apply (inv_pop _ _ _ []); [done|done|set_solver].
  - rewrite <- (Hss (r :: q)). apply inv_clean; [done|rewrite Hq; set_solver|]. rewrite Hq, set_queue_ids.
    intros x [->|?]%elem_of_cons; [by rewrite El|done].
Qed.

Lemma expire_inv tried proved now s : inv tried proved s → inv tried proved (expire cfg now s).
Proof.
  intros Hi. unfold expire. apply expire_queue_inv. set (s1 := expire_queue _ _ _ _ s).
  assert (inv tried proved s1) as H1.
  { apply expire_queue_inv. replace (set_queue false (λ _, idle_new s) s) with s; [done|by destruct s]. }
  replace (set_queue true (λ _, idle_paired s1) s1) with s1; [done|by destruct s1].
Qed.

Lemma drop_stale_move r s : is_Some (ids s !! r) → relays_move s (drop_stale r s).
Proof. intros [e He]. unfold drop_stale. rewrite He. apply end_relay_move. Qed.

Lemma drop_stale_known r k s : is_Some (ids s !! r) → is_Some (ids (drop_stale r s) !! k) ↔ is_Some (ids s !! k).
Proof. intros [e He]. unfold drop_stale. rewrite He. apply end_relay_known. Qed.

Lemma stale_move l s : (∀ r, r ∈ l → is_Some (ids s !! r)) → relays_move s (foldl (λ s r, drop_stale r s) s l).
Proof.
  revert s. induction l as [|r l IH]; intros s Hl; [done|]. cbn [foldl].
  etrans; [apply drop_stale_move, Hl; by left|]. apply IH. intros k Hk. rewrite drop_stale_known by (apply Hl; by left).
  apply Hl. by right.
Qed.

Lemma kick_still c s : still s (kick c s).
Proof.
  split; [|done]. repeat split. cbn. apply map_eq. intros d. rewrite !lookup_fmap.
  destruct (decide (c = d)) as [->|?]; [rewrite lookup_alter_eq; by destruct (metas s !! d)|by rewrite lookup_alter_ne].
Qed.

Lemma kicks_still now l s : still s (foldl (λ s cm, if outlived epoch now cm.2 then kick cm.1 s else s) s l).
Proof.
  revert s. induction l as [|x l IH]; intros s; [done|]. cbn [foldl]. etrans; [|apply IH].
  destruct (outlived _ _ _); [apply kick_still|done].
Qed.

Lemma sweep_ids_inv tried proved now s : inv tried proved s → inv tried proved (sweep_ids cfg now s).
Proof.
  intros H0. unfold sweep_ids. apply expire_inv. eapply move_inv; [|exact H0].
  apply stale_move. intros r Hr. unfold stale_relays in Hr. apply list_elem_of_In, filter_In in Hr as [Hr _].
  apply list_elem_of_In, elem_of_elements in Hr. rewrite (rw_dom _ _ (inv_relays _ _ _ H0)) in Hr.
  apply elem_of_dom in Hr as [h Hh]. unfold holds in Hh. rewrite lookup_omap in Hh. by destruct (ids s !! r).
Qed.

Lemma seats_mono P W tried tried' proved proved' :
  tried ⊆ tried' → proved ⊆ proved' → (∀ c, c ∈ tried' → is_Some (W !! c)) →
  seats P W tried proved → seats P W tried' proved'.
Proof. intros Ht Hp Hk [H1 H2 H3 H4 H5]. split; eauto. Qed.

Lemma inv_mono tried tried' proved proved' s :
  tried ⊆ tried' → proved ⊆ proved' → (∀ c, c ∈ tried' → is_Some (metas s !! c)) →
  inv tried proved s → inv tried' proved' s.
Proof.
  intros Ht Hp Hk [H1 H2 H3 H4 H5 H6]. split; try done. eapply seats_mono; [exact Ht|exact Hp| |exact H3].
  intros c Hc. rewrite lookup_fmap, fmap_is_Some. auto.
Qed.

(** ** Registration and departure *)

Lemma set_limiter_still l s : still s (set_new_id_limiter (λ _, l) s).
Proof. done. Qed.

(** A claim is let in with a signature under the id's key, or a new id. *)
Lemma admit_claim_spec tried proved now rid pk sig_ok ip s ok s1 :
  inv tried proved s → admit_claim cfg now rid pk sig_ok ip s = (ok, s1) →
  inv tried proved s1 ∧ who <$> metas s1 = who <$> metas s ∧
  (∀ k e, ids s1 !! k = Some e → ∃ e', ids s !! k = Some e' ∧ peers e' = peers e) ∧
  (ok = true → sig_ok = true ∧
    match ids s1 !! rid with
    | Some e => e_public_key e = pk
    | None => Z.of_nat (size (ids s1)) + 1 ≤ Z.max 0 (max_ids cfg)
    end).
Proof.
  intros Hi. unfold admit_claim. destruct (ids s !! rid) as [e|] eqn:Ee.
  { intros [= <- <-]. split_and!; [done..| |]; [by eauto|].
    intros [-> Hpk%bool_decide_eq_true_1]%andb_true_iff. by rewrite Ee. }
  destruct sig_ok; cbn [negb]; [|intros [= <- <-]; split_and!; [done..|by eauto|done]].
  destruct (allow now ip (new_id_limiter s)) as [ok1 l]. set (s0 := set_new_id_limiter (λ _, l) s).
  assert (inv tried proved s0) as H0 by (eapply move_inv; [apply still_move, (set_limiter_still l)|done]).
  destruct ok1; cbn [negb]; [|intros [= <- <-]; split_and!; [done..|by eauto|done]].
  destruct (Z.ltb_spec (Z.of_nat (size (ids s0))) (max_ids cfg)) as [Hlt|Hge].
  { intros [= <- <-]. split_and!; [done..|by eauto|]. intros _. cbn in *. rewrite Ee. split; [done|lia]. }
  intros E. destruct (evict_one_spec _ _ _ _ _ H0 E) as (H1 & Hw & Hr). destruct ok.
  - destruct Hr as (k & e & Hk & _ & Hp). change (ids s0) with (ids s) in *.
    assert (∀ x e1, ids s1 !! x = Some e1 → ∃ e2, ids s !! x = Some e2 ∧ peers e2 = peers e1) as Hsub.
    { intros x e1 Hx. apply (f_equal (lookup x)) in Hp. rewrite lookup_fmap, Hx in Hp. cbn in Hp.
      symmetry in Hp. apply lookup_delete_Some in Hp as [_ Hp]. rewrite lookup_fmap in Hp.
      destruct (ids s !! x) as [e2|]; [|done]. exists e2. split; [done|]. exact (inj Some _ _ Hp). }
    split_and!; [done|exact Hw|done|]. intros _. split; [done|].
    destruct (ids s1 !! rid) as [e1|] eqn:E1; [by destruct (Hsub _ _ E1) as (? & ? & _); congruence|].
    pose proof (inv_ids _ _ _ H0) as Hs. rewrite <- (size_peers s1), Hp.
    rewrite map_size_delete_Some by (rewrite lookup_fmap, Hk; by eexists). rewrite size_peers.
    assert (size (ids s) ≠ 0%nat) by (intros Hz%map_size_empty_inv; rewrite Hz in Hk; done). cbn in Hs. lia.
  - destruct Hr as [Hids _]. change (ids s0) with (ids s) in *. split_and!; [done|exact Hw| |done].
    rewrite Hids. eauto.
Qed.

Lemma who_class cl c (m : gmap nat SessionMeta) :
  who <$> alter (set_m_class (λ _, cl)) c m = alter (λ w, (w.1, cl)) c (who <$> m).
Proof.
  apply map_eq. intros d. rewrite lookup_fmap. destruct (decide (c = d)) as [->|?].
  - rewrite !lookup_alter_eq, lookup_fmap. by destruct (m !! d).
  - by rewrite !lookup_alter_ne, lookup_fmap.
Qed.

Lemma set_class_conns c cl s : conns_ok s → conns_ok (set_class c cl s).
Proof. by apply conns_ok_alter. Qed.

Lemma p_seat_peers e r : p_seat (peers e) r = seat <$> slot e r.
Proof. by destruct r. Qed.

(** The entry a registration leaves. *)
Definition seated (now : Z) (role : Role) (pk : bytes) (identity : option bytes) (c : nat) (ip : IpAddr)
    (old : option IdEntry) : IdEntry :=
  let e := set_e_idle_gen (λ _, 0) (default (new_entry cfg now pk) old) in
  let e := set_slot role (λ _, Some (mkSlot c ip None [] identity)) e in
  let e := set_e_last_punch (λ _, None) (set_e_punch_rounds (λ _, 0) e) in
  if is_some (slot e (Role_other role)) then set_e_ever_paired (λ _, true) e else e.

Lemma seated_facts now role pk identity c ip old :
  let e := seated now role pk identity c ip old in
  slot e role = Some (mkSlot c ip None [] identity) ∧
  slot e (Role_other role) = old ≫= (λ e, slot e (Role_other role)) ∧
  e_idle_gen e = 0 ∧ e_relay e = old ≫= e_relay ∧ e_public_key e = from_option e_public_key pk old.
Proof. unfold seated. destruct old as [e|], role; cbn; try destruct (is_some _); done. Qed.

(** The state in which session [c] took its seat in the entry [e]. *)
Definition take_seat (role : Role) (rid : bytes) (c : nat) (e : IdEntry) (s : Shared) : Shared :=
  let s2 := match ids s !! rid ≫= (λ e, slot e role) with Some o => kick (sl_conn o) s | None => s end in
  let s3 := match slot e (Role_other role) with
            | Some peer => set_class c CLASS_PAIRED (set_class (sl_conn peer) CLASS_PAIRED s2)
            | None => set_class c CLASS_ALONE s2
            end in
  set_ids (<[rid := e]>) s3.

Lemma register_run now role rid pk sig_ok identity c ip s :
  let '(ok, s1) := admit_claim cfg now rid pk sig_ok ip s in
  register cfg now role rid pk sig_ok identity c ip s =
  if ok then (Some (mkBinding rid role c), take_seat role rid c (seated now role pk identity c ip (ids s1 !! rid)) s1)
  else (None, s1).
Proof.
  unfold register. destruct (admit_claim cfg now rid pk sig_ok ip s) as [[] s1]; [|done]. cbn [negb].
  unfold take_seat. destruct (ids s1 !! rid) as [e|] eqn:E.
  - unfold seated. cbn [default mbind option_bind]. destruct role; cbn; [destruct (e_device e) eqn:E2|destruct (e_box e) eqn:E2]; cbn; by rewrite ?E2.
  - unfold seated. destruct role; cbn; done.
Qed.

(** The classes after a session [c] took its seat beside [other]. *)
Definition with_class (cl : Z) (c : nat) (W : gmap nat (IpAddr * Z)) : gmap nat (IpAddr * Z) := alter (λ w, (w.1, cl)) c W.

Lemma enter_classes W c ip x (other : option (nat * IpAddr)) :
  W !! c = Some (ip, x) → (∀ d ipd, other = Some (d, ipd) → d ≠ c ∧ ∃ y, W !! d = Some (ipd, y)) →
  let W' := match other with
            | Some (d, _) => with_class CLASS_PAIRED c (with_class CLASS_PAIRED d W)
            | None => with_class CLASS_ALONE c W
            end in
  W' !! c = Some (ip, if is_some other then CLASS_PAIRED else CLASS_ALONE) ∧
  (∀ d ipd, other = Some (d, ipd) → W' !! d = Some (ipd, CLASS_PAIRED)) ∧
  (∀ d, d ≠ c → (∀ ipd, other ≠ Some (d, ipd)) → W' !! d = W !! d).
Proof.
  intros Hc Ho. unfold with_class. destruct other as [[d ipd]|]; cbn.
  - destruct (Ho d ipd eq_refl) as [Hne [y Hy]]. split_and!.
    + by rewrite lookup_alter_eq, lookup_alter_ne, Hc.
    + intros d' ip' [= <- <-]. by rewrite lookup_alter_ne, lookup_alter_eq, Hy.
    + intros d' H1 H2. rewrite !lookup_alter_ne; [done|by intros <-; apply (H2 ipd)|done].
  - split_and!; [by rewrite lookup_alter_eq, Hc|done|]. intros d' H1 _. by rewrite lookup_alter_ne.
Qed.

Lemma take_seat_frame role rid c e s :
  let s' := take_seat role rid c e s in
  ids s' = <[rid := e]> (ids s) ∧ (∀ b, queue b s' = queue b s) ∧ next_gen s' = next_gen s ∧
  who <$> metas s' = match p_seat (peers e) (Role_other role) with
                     | Some (d, _) => with_class CLASS_PAIRED c (with_class CLASS_PAIRED d (who <$> metas s))
                     | None => with_class CLASS_ALONE c (who <$> metas s)
                     end ∧
  (conns_ok s → conns_ok s') ∧ (ids s !! rid ≫= e_relay = e_relay e → relays_with [] s → relays_with [] s').
Proof.
  cbv zeta. unfold take_seat. set (s2 := match _ ≫= _ with Some _ => _ | None => s end).
  assert (still s s2 ∧ ids s2 = ids s) as [[(K1&K2&K3&K4&K5&K6&K7&K8&K9) Hr] Ki]
    by (subst s2; destruct (_ ≫= _); [split; [apply kick_still|done]|done]).
  assert (conns_ok s → conns_ok s2) as Hc by (intros Hs; subst s2; destruct (_ ≫= _); [by apply conns_ok_alter|done]).
  rewrite p_seat_peers, <- Ki, <- K4. set (s3 := match slot e _ with Some _ => _ | None => _ end).
  assert (ids s3 = ids s2 ∧ (∀ b, queue b s3 = queue b s2) ∧ next_gen s3 = next_gen s2 ∧ same_relays s2 s3) as (T1 & T2 & T3 & T4)
    by (subst s3; destruct (slot e (Role_other role)); (split; [done|]; split; [by intros []|done])).
  split; [by rewrite <- T1|]. split; [intros b; etrans; [exact (T2 b)|subst s2; by destruct (_ ≫= _), b]|].
  split; [by rewrite <- K8, <- T3|]. split; [|split].
  - subst s3. unfold with_class. cbn [metas set_ids]. destruct (slot e (Role_other role)); cbn; by rewrite !who_class.
  - intros Hs%Hc. assert (conns_ok s3) as C3 by (subst s3; destruct (slot e (Role_other role)); by repeat apply set_class_conns).
    revert C3. by apply conns_ok_same.
  - intros He Hw. apply (still_relays _ s s2) in Hw; [|by split]. destruct T4 as (?&?&?&?).
    refine (relays_same _ s2 _ _ _ _ _ Hw); [|done..].
    change (omap e_relay (<[rid := e]> (ids s3)) = holds s2). rewrite T1. by apply holds_write.
Qed.

(** A fresh session that signed for the key takes its seat. *)
Lemma take_seat_seats tried proved role rid c m e s :
  seats_ok tried proved s → c ∉ tried → metas s !! c = Some m →
  p_seat (peers e) role = Some (c, m_ip m) → 
  slot e (Role_other role) = ids s !! rid ≫= (λ e, slot e (Role_other role)) →
  (∀ e0, ids s !! rid = Some e0 → e_public_key e0 = e_public_key e) →
  seats_ok ({[c]} ∪ tried) ({[(c, rid, role, e_public_key e)]} ∪ proved) (take_seat role rid c e s).
Proof.
  intros Hs Hc Hm Hme Hpeer Hkey. destruct (take_seat_frame role rid c e s) as (T1 & _ & _ & T4 & _).
  assert ((who <$> metas s) !! c = Some (m_ip m, m_class m)) as Hw by (by rewrite lookup_fmap, Hm).
  assert (∀ d ipd, p_seat (peers e) (Role_other role) = Some (d, ipd) → d ≠ c ∧ ∃ y, (who <$> metas s) !! d = Some (ipd, y)) as Hother.
  { intros d ipd. rewrite p_seat_peers, Hpeer. destruct (ids s !! rid) as [e0|] eqn:E0; [|done].
    change (seat <$> slot e0 (Role_other role) = Some (d, ipd) → d ≠ c ∧ ∃ y, (who <$> metas s) !! d = Some (ipd, y)).
    rewrite <- p_seat_peers. assert ((peers <$> ids s) !! rid = Some (peers e0)) as HP by (by rewrite lookup_fmap, E0).
    intros Hd. split; [|eexists; exact (se_class _ _ _ _ Hs _ _ _ _ _ HP Hd)].
    intros ->. by apply (se_tried _ _ _ _ Hs _ _ _ _ _ HP) in Hd. }
  pose proof (enter_classes _ _ _ _ _ Hw Hother) as HW. cbv zeta in HW. rewrite <- T4 in HW. destruct HW as (W1 & W2 & W3).
  unfold seats_ok. rewrite T1, fmap_insert. change (e_public_key e) with (p_key (peers e)).
  apply (seats_enter _ (who <$> metas s) _ _ _ rid (peers e) c (m_ip m) role Hs Hc); [done| | |done..].
  - intros p0. rewrite lookup_fmap. destruct (ids s !! rid) as [e0|] eqn:E0; [|done]. intros [= <-].
    rewrite !p_seat_peers, Hpeer. split; [by apply Hkey|done].
  - rewrite lookup_fmap, p_seat_peers, Hpeer. by destruct (ids s !! rid).
Qed.

Lemma register_inv tried proved now role rid pk (sig_ok : bool) identity c m s :
  inv tried proved s → c ∉ tried → metas s !! c = Some m →
  inv ({[c]} ∪ tried) (if sig_ok then {[(c, rid, role, pk)]} ∪ proved else proved)
    (register cfg now role rid pk sig_ok identity c (m_ip m) s).2.
Proof.
  intros Hi Hc Hm. pose proof (register_run now role rid pk sig_ok identity c (m_ip m) s) as Hrun.
  destruct (admit_claim cfg now rid pk sig_ok (m_ip m) s) as [ok s1] eqn:Ea.
  destruct (admit_claim_spec _ _ _ _ _ _ _ _ _ _ Hi Ea) as (H1 & Hw & _ & Hok). rewrite Hrun. clear Hrun Ea.
  assert (∃ m1, metas s1 !! c = Some m1 ∧ m_ip m1 = m_ip m) as (m1 & Hm1 & Hip).
  { apply (f_equal (lookup c)) in Hw. rewrite !lookup_fmap, Hm in Hw.
    destruct (metas s1 !! c) as [m1|]; [|done]. exists m1. split; [done|]. by injection Hw. }
  assert (∀ d, d ∈ {[c]} ∪ tried → is_Some (metas s1 !! d)) as Hkn.
  { intros d [->%elem_of_singleton|Hd]%elem_of_union; [by rewrite Hm1|].
    apply (se_known _ _ _ _ (inv_seats _ _ _ H1)) in Hd. by rewrite lookup_fmap, fmap_is_Some in Hd. }
  destruct ok; cbn [snd]; [|eapply inv_mono; [..|exact H1]; [set_solver|destruct sig_ok; set_solver|done]].
  destruct (Hok eq_refl) as [-> Hkey]. clear Hok. destruct H1 as [C1 R1 S1 I1 G1 B1].
  destruct (seated_facts now role pk identity c (m_ip m) (ids s1 !! rid)) as (F1 & F2 & F3 & F4 & F5).
  set (e := seated _ _ _ _ _ _ _) in *.
  assert (e_public_key e = pk) as Hpk by (rewrite F5; by destruct (ids s1 !! rid)).
  destruct (take_seat_frame role rid c e s1) as (T1 & T2 & T3 & _ & T5 & T6). split.
  - auto.
  - by apply T6.
  - rewrite <- Hpk. apply (take_seat_seats _ _ _ _ _ m1); [done..| |done|].
    + by rewrite p_seat_peers, F1, Hip.
    + intros e0 He. by rewrite He in Hkey, F5.
  - unfold idle_ok. rewrite T1, T3, fmap_insert. apply idle_online; [done|done| |eapply idle_ext; [exact T2|exact I1]].
    unfold peers. cbn. destruct role; cbn in F1; rewrite F1; cbn; by rewrite ?orb_true_r.
  - by rewrite T3.
  - rewrite T1. destruct (ids s1 !! rid) eqn:E.
    + by rewrite map_size_insert_Some by eauto.
    + rewrite map_size_insert_None by done. lia.
Qed.

(** [mark_idle] before its compaction. *)
Definition marked (rid : bytes) (now : Z) (e : IdEntry) (s : Shared) : Shared :=
  set_queue (e_ever_paired e) (λ q, q ++ [mkIdle now rid (next_gen s + 1)])
    (set_ids (<[rid := set_e_idle_gen (λ _, next_gen s + 1) e]>) (set_next_gen (λ g, g + 1) s)).

Lemma mark_idle_run rid now e s :
  ids s !! rid = Some e →
  mark_idle rid now s = marked rid now e s ∨
  mark_idle rid now s =
    set_queue (e_ever_paired e) (λ _, List.filter (is_live (ids (marked rid now e s))) (queue (e_ever_paired e) (marked rid now e s)))
      (marked rid now e s).
Proof.
  intros He. unfold mark_idle. cbn [ids set_next_gen]. rewrite He. destruct (_ <? _)%nat; [right|by left].
  unfold marked. by destruct (e_ever_paired e).
Qed.

Lemma filter_live_inv tried proved p s :
  inv tried proved s → inv tried proved (set_queue p (λ _, List.filter (is_live (ids s)) (queue p s)) s).
Proof.
  intros Hi. apply inv_clean; [done|..]; intros r.
  - intros [? _]%list_elem_of_In%filter_In. by apply list_elem_of_In.
  - intros Hr Hl. apply list_elem_of_In, filter_In. split; [by apply list_elem_of_In|done].
Qed.

(** The entry [e] lost its last peer. *)
Lemma marked_inv tried proved rid now e s :
  conns_ok s → relays_with [] s → 0 ≤ next_gen s → Z.of_nat (size (ids s)) ≤ Z.max 0 (max_ids cfg) →
  seats_ok tried proved s → idle (delete rid (peers <$> ids s)) (λ b, queue b s) (next_gen s) →
  ids s !! rid = Some e → e_box e = None → e_device e = None → inv tried proved (marked rid now e s).
Proof.
  intros Hc Hr Hg Hsz Hse Hid He Hb Hd. unfold marked.
  split; unfold seats_ok, idle_ok; rewrite ?set_queue_ids, ?set_queue_metas, ?set_queue_gen; cbn [ids metas next_gen set_ids set_next_gen].
  - apply set_queue_conns. revert Hc. by apply conns_ok_same.
  - apply set_queue_relays. refine (relays_same _ s _ _ _ _ _ Hr); [|done..]. apply holds_write. cbn [ids set_next_gen].
    by rewrite He.
  - rewrite fmap_insert. apply (seats_leave _ (who <$> metas s) _ _ _ rid (peers e) _ Box Hse);
      [by rewrite lookup_fmap, He|done|cbn; by rewrite Hb|done| |done].
    intros d ipd. cbn. by rewrite Hd.
  - rewrite fmap_insert, <- insert_delete_eq. set (p := peers _).
    assert (p_box p = None ∧ p_device p = None ∧ p_gen p = next_gen s + 1 ∧ p_paired p = e_ever_paired e) as (P1 & P2 & P3 & P4)
      by (unfold p, peers; cbn; by rewrite Hb, Hd).
    pose proof (idle_mark _ _ _ rid p (mkIdle now rid (next_gen s + 1)) Hg P1 P2 P3 eq_refl eq_refl Hid) as Hm. cbv beta in Hm.
    revert Hm. apply idle_ext. intros b. rewrite queue_set_queue, P4. case_bool_decide as Hp; [by rewrite Hp; destruct (e_ever_paired e)|].
    by destruct b.
  - lia.
  - by rewrite map_size_insert_Some by eauto.
Qed.

Lemma mark_idle_inv tried proved rid now e s :
  conns_ok s → relays_with [] s → 0 ≤ next_gen s → Z.of_nat (size (ids s)) ≤ Z.max 0 (max_ids cfg) →
  seats_ok tried proved s → idle (delete rid (peers <$> ids s)) (λ b, queue b s) (next_gen s) →
  ids s !! rid = Some e → e_box e = None → e_device e = None → inv tried proved (mark_idle rid now s).
Proof.
  intros Hc Hr Hg Hsz Hse Hid He Hb Hd. pose proof (marked_inv _ _ rid now e s Hc Hr Hg Hsz Hse Hid He Hb Hd) as Hm.
  destruct (mark_idle_run rid now e s He) as [-> | ->]; [done|by apply filter_live_inv].
Qed.

Lemma owns_slot e b : owns e b = true → ∃ sl, slot e (b_role b) = Some sl ∧ sl_conn sl = b_conn b.
Proof. unfold owns. destruct (slot e (b_role b)) as [sl|]; [|done]. intros ?%Nat.eqb_eq. eauto. Qed.

Lemma vacate_facts r e :
  let e' := set_slot r (λ _, None) e in
  slot e' r = None ∧ slot e' (Role_other r) = slot e (Role_other r) ∧ e_relay e' = e_relay e ∧
  e_public_key e' = e_public_key e ∧ e_idle_gen e' = e_idle_gen e.
Proof. by destruct r. Qed.

(** The tables right after a seat was vacated and its pair slot freed. *)
Definition vacated (b : Binding) (e : IdEntry) (s : Shared) : Shared :=
  end_relay (b_rid b) (set_ids (<[b_rid b := set_slot (b_role b) (λ _, None) e]>) s).

Lemma vacated_facts b e s :
  ids s !! b_rid b = Some e →
  let s' := vacated b e s in
  let e' := set_slot (b_role b) (λ _, None) e in
  peers <$> ids s' = <[b_rid b := peers e']> (peers <$> ids s) ∧ metas s' = metas s ∧
  (conns_ok s → conns_ok s') ∧ (relays_with [] s → relays_with [] s') ∧
  (∀ p, queue p s' = queue p s) ∧ next_gen s' = next_gen s ∧ size (ids s') = size (ids s).
Proof.
  intros He s' e'. subst s'. unfold vacated. fold e'.
  destruct (vacate_facts (b_role b) e) as (_ & _ & F3 & _). set (t := set_ids (<[b_rid b := e']>) s).
  destruct (end_relay_quiet (b_rid b) t) as (A1&A2&A3&A4&A5&A6&A7&A8&A9).
  assert (peers <$> ids (end_relay (b_rid b) t) = <[b_rid b := peers e']> (peers <$> ids s)) as Hp
    by (rewrite A5; cbn; by rewrite fmap_insert).
  assert (conns_ok s → conns_ok (end_relay (b_rid b) t)) as Hc.
  { intros Hc. eapply quiet_conns; [apply end_relay_quiet|]. revert Hc. by apply conns_ok_same. }
  split_and!; [done| |done| | |done|].
  - unfold end_relay. destruct (ids t !! b_rid b) as [x|]; [|done]. by destruct (e_relay x).
  - intros Hr. apply end_relay_relays. refine (relays_same _ s _ _ _ _ _ Hr); [|done..].
    apply holds_write. by rewrite He.
  - intros []; cbn; by rewrite ?A6, ?A7.
  - rewrite <- size_peers, Hp, map_size_insert_Some, size_peers; [done|]. rewrite lookup_fmap, He. by eexists.
Qed.

Lemma leave_classes W d ip x :
  W !! d = Some (ip, x) →
  with_class CLASS_ALONE d W !! d = Some (ip, CLASS_ALONE) ∧ ∀ d', d' ≠ d → with_class CLASS_ALONE d W !! d' = W !! d'.
Proof.
  intros H. unfold with_class. split; [by rewrite lookup_alter_eq, H|]. intros d' Hd. by rewrite lookup_alter_ne.
Qed.

Lemma who_alone now d (m : gmap nat SessionMeta) :
  who <$> alter (λ m, set_m_class (λ _, CLASS_ALONE) (set_m_alone_since_ms (λ _, ms epoch now) m)) d m =
  with_class CLASS_ALONE d (who <$> m).
Proof.
  unfold with_class. apply map_eq. intros x. rewrite lookup_fmap. destruct (decide (d = x)) as [->|?].
  - rewrite !lookup_alter_eq, lookup_fmap. by destruct (m !! x).
  - by rewrite !lookup_alter_ne, lookup_fmap.
Qed.

Lemma seat_online p r x : p_seat p r = Some x → is_some (p_box p) || is_some (p_device p) = true.
Proof. destruct r; cbn; intros ->; by rewrite ?orb_true_r. Qed.

(** The peer stays behind. *)
Lemma release_paired_inv tried proved now b e peer s :
  inv tried proved s → ids s !! b_rid b = Some e → owns e b = true → slot e (Role_other (b_role b)) = Some peer →
  inv tried proved (set_metas (alter (λ m, set_m_class (λ _, CLASS_ALONE) (set_m_alone_since_ms (λ _, ms epoch now) m))
                                 (sl_conn peer)) (vacated b e s)).
Proof.
  intros [H1 H2 H3 H4 H5 H6] He (sl & Hsl & _)%owns_slot Hpeer.
  destruct (vacated_facts b e s He) as (V1 & V2 & V3 & V4 & V5 & V6 & V7).
  destruct (vacate_facts (b_role b) e) as (F1 & F2 & _ & F4 & F5).
  set (e' := set_slot (b_role b) (λ _, None) e) in *.
  assert ((peers <$> ids s) !! b_rid b = Some (peers e)) as HP by (by rewrite lookup_fmap, He).
  assert (p_seat (peers e) (Role_other (b_role b)) = Some (seat peer)) as Hps by (by rewrite p_seat_peers, Hpeer).
  assert (p_seat (peers e') (Role_other (b_role b)) = Some (seat peer)) as Hps' by (by rewrite p_seat_peers, F2, Hpeer).
  pose proof (se_class _ _ _ _ H3 _ _ _ _ _ HP Hps) as Hw. destruct (leave_classes _ _ _ _ Hw) as [W1 W2].
  split; unfold seats_ok, idle_ok; cbn [ids metas next_gen set_metas].
  - apply conns_ok_alter; [done|]. by apply V3.
  - refine (relays_same _ (vacated b e s) _ _ _ _ _ (V4 H2)); done.
  - rewrite V1, who_alone, V2. apply (seats_leave _ (who <$> metas s) _ _ _ _ (peers e) _ (b_role b) H3 HP).
    + exact F4.
    + by rewrite p_seat_peers, F1.
    + by rewrite Hps, Hps'.
    + intros d ipd. rewrite Hps'. intros [= <- <-]. exact W1.
    + intros d Hd. apply W2. intros ->. by apply (Hd (sl_ip peer)).
  - rewrite V1, V6. apply idle_online; [done| | |].
    + cbn. rewrite F5. apply (id_online _ _ _ H4 _ _ HP). exact (seat_online _ _ _ Hps).
    + exact (seat_online _ _ _ Hps').
    + eapply idle_ext; [|exact H4]. intros []; [exact (V5 true)|exact (V5 false)].
  - by rewrite V6.
  - by rewrite V7.
Qed.

(** Nobody stays. *)
Lemma release_alone_inv tried proved now b e s :
  inv tried proved s → ids s !! b_rid b = Some e → owns e b = true → slot e (Role_other (b_role b)) = None →
  inv tried proved (mark_idle (b_rid b) now (vacated b e s)).
Proof.
  intros [H1 H2 H3 H4 H5 H6] He (sl & Hsl & _)%owns_slot Hpeer.
  destruct (vacated_facts b e s He) as (V1 & V2 & V3 & V4 & V5 & V6 & V7).
  destruct (vacate_facts (b_role b) e) as (F1 & F2 & _ & F4 & F5).
  set (e' := set_slot (b_role b) (λ _, None) e) in *.
  assert (∃ x, ids (vacated b e s) !! b_rid b = Some x ∧ peers x = peers e') as (x & Hx & Hpx).
  { apply (f_equal (lookup (b_rid b))) in V1. rewrite lookup_insert_eq, lookup_fmap in V1.
    destruct (ids (vacated b e s) !! b_rid b) as [x|]; [|done]. exists x. split; [done|]. exact (inj Some _ _ V1). }
  assert (∀ r, slot x r = None) as Hempty.
  { intros r. apply (fmap_None seat). rewrite <- p_seat_peers, Hpx, p_seat_peers.
    destruct (role_cases (b_role b) r) as [->| ->]; [by rewrite F1|by rewrite F2, Hpeer]. }
  apply (mark_idle_inv _ _ _ _ x); [by apply V3|by apply V4|by rewrite V6|by rewrite V7| | |done|exact (Hempty Box)|exact (Hempty Device)].
  - unfold seats_ok. rewrite V1, V2. assert ((peers <$> ids s) !! b_rid b = Some (peers e)) as HP by (by rewrite lookup_fmap, He).
    apply (seats_leave _ (who <$> metas s) _ _ _ _ (peers e) _ (b_role b) H3 HP).
    + exact F4.
    + by rewrite p_seat_peers, F1.
    + by rewrite !p_seat_peers, F2.
    + intros d ipd. by rewrite p_seat_peers, F2, Hpeer.
    + done.
  - rewrite V1, V6, delete_insert_eq. apply idle_delete. eapply idle_ext; [|exact H4]. exact V5.
Qed.

Lemma release_inv tried proved now b s : inv tried proved s → inv tried proved (release cfg epoch now b s).
Proof.
  intros Hi. unfold release. destruct (ids s !! b_rid b) as [e|] eqn:He; [|done].
  destruct (owns e b) eqn:Ho; [|done]. cbn [negb]. fold (vacated b e s).
  destruct (vacate_facts (b_role b) e) as (_ & -> & _). destruct (slot e (Role_other (b_role b))) as [peer|] eqn:Hp.
  - eapply move_inv; [apply still_move, send_still|]. by eapply release_paired_inv.
  - by eapply release_alone_inv.
Qed.

(** ** Admission *)

Lemma seats_known P W W' tried proved :
  (∀ c, is_Some (W !! c) → W' !! c = W !! c) → seats P W tried proved → seats P W' tried proved.
Proof.
  intros He [H1 H2 H3 H4 H5]. split; try done.
  - intros. rewrite He; [by eauto|]. erewrite H1 by done. by eexists.
  - intros c Hc. rewrite He; auto.
Qed.

Lemma spared_who s s' : spared s s' → who <$> metas s' = who <$> metas s.
Proof.
  intros (_ & H1 & _ & H2 & _). apply map_eq. intros c. rewrite !lookup_fmap. specialize (H1 c). specialize (H2 c).
  destruct (metas s' !! c), (metas s !! c); cbn in *; unfold who; try done. congruence.
Qed.

Lemma admit_inv tried proved now jitter ip s r s' :
  inv tried proved s → admit_conn cfg epoch now jitter ip s = (r, s') → inv tried proved s'.
Proof.
  intros [H1 H2 H3 H4 H5 H6] Ha. destruct (admit_spec _ _ _ _ _ _ H1 Ha) as (Hc & s1 & Hc1 & Hsp & Hr).
  pose proof (spared_who _ _ Hsp) as Hw. destruct Hsp as (_ & _ & _ & _ & Heq). unfold seats_ok in H3. rewrite <- Hw in H3.
  assert (ids s1 = ids s ∧ relaying s1 = relaying s ∧ relay_pairs s1 = relay_pairs s ∧ relay_ips s1 = relay_ips s ∧
    (∀ b, queue b s1 = queue b s) ∧ next_gen s1 = next_gen s) as (E1 & E2 & E3 & E4 & E5 & E6)
    by (rewrite Heq; split_and!; try done; by intros []).
  assert (inv tried proved s1) as Hi1.
  { split; unfold seats_ok, idle_ok; rewrite ?E1, ?E6; try done.
    - refine (relays_same _ s _ _ _ _ _ H2); try done. unfold holds. by rewrite E1.
    - by eapply idle_ext; [|exact H4]. }
  destruct r as [c|]; [|by destruct Hr as [-> _]]. destruct Hr as (-> & m & ->). destruct Hi1 as [_ R1 S1 I1 ? ?].
  split; try done; [by refine (relays_same _ s1 _ _ _ _ _ R1)|]. refine (seats_known _ _ _ _ _ _ S1).
  intros d Hd. cbn. rewrite fmap_insert, lookup_insert_ne; [done|].
  intros <-. rewrite lookup_fmap, fmap_is_Some in Hd. apply (co_next _ Hc1) in Hd. lia.
Qed.

Lemma finish_inv tried proved c m s :
  metas s !! c = Some m → inv tried proved s → inv tried proved (finish c (m_ip m) s).
Proof.
  intros Hm [H1 H2 H3 H4 H5 H6]. pose proof (finish_ok c m s Hm H1) as Hc. unfold finish in *.
  destruct (decide (c ∈ sessions s)); (split; try done; by refine (relays_same _ s _ _ _ _ _ H2)).
Qed.

(** ** What goes into the queues *)

Definition qstate (s : Shared) : gmap nat Outbox * Z := (outs s, queued s).

Definition pushq (q : gmap nat Outbox * Z) (x : nat * bool * bytes) : gmap nat Outbox * Z :=
  let '(c, d, b) := x in
  match q.1 !! c with
  | None => q
  | Some o =>
    match channel d o with
    | None => q
    | Some l =>
      if reserve cfg d (item_cost b) o q.2 && o_open o && (Z.of_nat (length l) <? capacity cfg d) then
        (<[c := enqueue d b o]> q.1, q.2 + item_cost b)
      else q
    end
  end.

Lemma push_qstate c d b s : qstate (push cfg c d b s).2 = pushq (qstate s) (c, d, b).
Proof.
  unfold push, pushq, qstate. cbn. destruct (outs s !! c) as [o|]; [|done]. destruct (channel d o) as [l|]; [|done].
  by destruct (reserve cfg d (item_cost b) o (queued s) && o_open o && (Z.of_nat (length l) <? capacity cfg d)).
Qed.

(** The queues changed by frames offered to connections of [A] only. *)
Definition sends (A : nat → Prop) (s s' : Shared) : Prop :=
  ∃ l, Forall (λ x, A x.1.1) l ∧ qstate s' = foldl pushq (qstate s) l.

#[export] Instance sends_preorder A : PreOrder (sends A).
Proof.
  split; [by exists []|]. intros s1 s2 s3 (l1 & F1 & E1) (l2 & F2 & E2). exists (l1 ++ l2).
  split; [by apply Forall_app|]. by rewrite foldl_app, <- E1.
Qed.

Lemma sends_same A s s' : qstate s' = qstate s → sends A s s'.
Proof. intros H. by exists []. Qed.

Lemma push_sends (A : nat → Prop) c d b s : A c → sends A s (push cfg c d b s).2.
Proof. intros Hc. exists [(c, d, b)]. split; [by repeat constructor|]. apply push_qstate. Qed.

Lemma send_sends (A : nat → Prop) c m s : A c → sends A s (send cfg c m s).
Proof. apply push_sends. Qed.

Lemma sends_mono (A B : nat → Prop) s s' : (∀ c, A c → B c) → sends A s s' → sends B s s'.
Proof. intros H (l & Hl & E). exists l. split; [|done]. eapply Forall_impl; [exact Hl|]. intros ? Hx. by apply H. Qed.

Lemma pushq_other q x d : d ≠ x.1.1 → (pushq q x).1 !! d = q.1 !! d.
Proof.
  destruct x as [[c data] b]. cbn. intros Hd. destruct (q.1 !! c) as [o|]; [|done].
  destruct (channel data o); [|done]. destruct (_ && _); [|done]. cbn. by rewrite lookup_insert_ne.
Qed.

Lemma sends_other A s s' d : sends A s s' → ¬ A d → outs s' !! d = outs s !! d.
Proof.
  intros (l & Hl & E) Hd. change (outs s') with (qstate s').1. rewrite E. clear E.
  change (outs s) with (qstate s).1. revert Hl. generalize (qstate s). induction l as [|x l IH]; intros q Hl; [done|].
  apply Forall_cons in Hl as [Hx Hl]. cbn [foldl]. rewrite (IH _ Hl). apply pushq_other. by intros ->.
Qed.

(** The sessions seated at an id. *)
Definition at_id (rid : bytes) (s : Shared) (d : nat) : Prop :=
  ∃ e r sl, ids s !! rid = Some e ∧ slot e r = Some sl ∧ sl_conn sl = d.

Lemma announce_sends b s : sends (at_id (b_rid b) s) s (announce_online cfg b s).
Proof.
  unfold announce_online. destruct (ids s !! b_rid b) as [e|] eqn:He; [|done].
  destruct (slot e (b_role b)) as [me|] eqn:E1, (slot e (Role_other (b_role b))) as [peer|] eqn:E2; try done.
  etrans; apply send_sends; [by exists e, (b_role b), me|by exists e, (Role_other (b_role b)), peer].
Qed.

Lemma forward_sends b blob s : sends (at_id (b_rid b) s) s (forward cfg b blob s).
Proof.
  unfold forward. destruct (_ || _); [done|]. destruct (ids s !! b_rid b) as [e|] eqn:He; [|done].
  destruct (negb _); [done|]. destruct (slot e (Role_other (b_role b))) as [peer|] eqn:E2; [|done].
  apply send_sends. by exists e, (Role_other (b_role b)), peer.
Qed.

Lemma try_punch_sends now ums n rid s : sends (at_id rid s) s (try_punch cfg now ums n rid s).
Proof.
  unfold try_punch. destruct (ids s !! rid) as [e|] eqn:E; [|done].
  destruct (e_box e) as [a|] eqn:Ea, (e_device e) as [d|] eqn:Ed; try done.
  destruct (sl_public a), (sl_public d); try done. destruct (_ <=? _); [done|].
  destruct (match e_last_punch e with Some _ => _ | None => _ end); [done|].
  etrans; [|apply send_sends; by exists e, Device, d]. etrans; [|apply send_sends; by exists e, Box, a]. by apply sends_same.
Qed.

Lemma punch_request_sends now ums n b s : sends (at_id (b_rid b) s) s (punch_request cfg now ums n b s).
Proof.
  unfold punch_request. destruct (ids s !! b_rid b) as [e|] eqn:E; [|done].
  destruct (owns e b); [apply try_punch_sends|done].
Qed.

(** Rewriting a seat's endpoint or candidates moves nobody. *)
Lemma at_id_write rid r f e s d :
  ids s !! rid = Some e → (∀ sl, seat (f sl) = seat sl) →
  at_id rid (set_ids (<[rid := set_slot r (fmap f) e]>) s) d → at_id rid s d.
Proof.
  intros He Hf (e' & r' & sl & He' & Hs & Hc). cbn in He'. rewrite lookup_insert_eq in He'. simplify_eq.
  exists e, r'. assert (seat <$> slot (set_slot r (fmap f) e) r' = seat <$> slot e r') as Hq.
  { rewrite <- !p_seat_peers. by rewrite (proj1 (set_slot_peers r f e Hf)). }
  rewrite Hs in Hq. destruct (slot e r') as [sl'|]; [|done]. exists sl'. split_and!; [done..|].
  unfold seat in Hq. cbn in Hq. congruence.
Qed.

Lemma candidates_sends now ums n b blob s : sends (at_id (b_rid b) s) s (set_candidates cfg now ums n b blob s).
Proof.
  unfold set_candidates. destruct (_ || _); [done|]. destruct (ids s !! b_rid b) as [e|] eqn:E; [|done].
  destruct (negb _); [done|]. etrans; [|eapply sends_mono; [|apply try_punch_sends]].
  - by apply sends_same.
  - intros d. by apply at_id_write.
Qed.

Lemma credential_sends now u p b c prev s : sends (λ d, d = c) s (issue_credential cfg stun_port now u p b c prev s).
Proof. unfold issue_credential. etrans; [|by apply send_sends]. by apply sends_same. Qed.

Lemma see_public_sends now ums n b src s : sends (at_id (b_rid b) s) s (see_public cfg now ums n b src s).
Proof.
  unfold see_public. destruct (ids s !! b_rid b) as [e|] eqn:E; [|done]. destruct (negb _); [done|].
  destruct (match slot e (b_role b) with Some _ => _ | None => _ end); [done|].
  etrans; [|eapply sends_mono; [|apply try_punch_sends]]; [by apply sends_same|]. intros d. by apply at_id_write.
Qed.

Lemma aside_qstate s s' : aside s s' → qstate s' = qstate s.
Proof. intros ->. done. Qed.

Lemma aside_sends A s s' : aside s s' → sends A s s'.
Proof. intros. by apply sends_same, aside_qstate. Qed.

Lemma end_relay_qstate rid s : qstate (end_relay rid s) = qstate s.
Proof. unfold end_relay. destruct (ids s !! rid) as [e|]; [|done]. by destruct (e_relay e). Qed.

Lemma acquire_relay_qstate now rid ips s : qstate (acquire_relay cfg now rid ips s).2 = qstate s.
Proof.
  unfold acquire_relay. destruct (match ids s !! rid with Some _ => _ | None => _ end); [done|].
  assert (qstate (take_relay_slot cfg rid ips s).2 = qstate s) as H.
  { unfold take_relay_slot. destruct (try_acquire _ _ _) as [m1|]; [|done]. destruct (try_acquire _ _ m1) as [m2|]; [|done].
    destruct (_ <=? _); [|done]. destruct (victim _ _); [|done]. exact (end_relay_qstate _ (set_relay_ips (λ _, m2) s)). }
  by destruct (take_relay_slot cfg rid ips s).
Qed.

Lemma spend_id_qstate now rid len s : qstate (spend_id cfg now rid len s).2 = qstate s.
Proof. unfold spend_id. destruct (ids s !! rid); [|done]. by destruct (bucket_take _ _ _ _ _). Qed.

Lemma spend_ip_qstate now ip len s : qstate (spend_ip now ip len s).2 = qstate s.
Proof. unfold spend_ip. by destruct (allow_cost _ _ _ _). Qed.

(** Who sits opposite to the owner of a binding. *)
Definition opposite (b : Binding) (s : Shared) (d : nat) : Prop :=
  ∃ e peer, ids s !! b_rid b = Some e ∧ owns e b = true ∧ slot e (Role_other (b_role b)) = Some peer ∧ sl_conn peer = d.

Lemma relay_checks_spec now b len reg s :
  qstate (relay_checks cfg now b len reg s).2 = qstate s ∧
  ∀ peer ip, (relay_checks cfg now b len reg s).1 = Cleared peer ip → opposite b s peer.
Proof.
  unfold relay_checks. destruct (ids s !! b_rid b) as [e|] eqn:E; [|done]. destruct (slot e (b_role b)) as [me|] eqn:Eme; [|done].
  destruct (owns e b) eqn:Eo; [|done]. cbn [negb].
  destruct (slot e (Role_other (b_role b))) as [peer|] eqn:Epeer; [|done].
  destruct (negb (match outs s !! sl_conn peer with Some _ => _ | None => _ end)); [done|].
  destruct (negb (gate_open cfg e reg)); cbn [snd].
  { split; [|done]. set (t := set_ids _ _). etrans; [exact (spend_id_qstate _ _ _ t)|]. exact (end_relay_qstate _ s). }
  set (x := if is_some (e_relay e) then _ else _).
  assert (qstate x.2 = qstate s) as Hx by (subst x; destruct (is_some _); [done|apply acquire_relay_qstate]).
  destruct x as [[] s1]; cbn [negb snd] in *; [|done].
  set (s2 := set_ids (alter (set_e_relay (fmap (set_h_last (λ _, now)))) (b_rid b)) s1).
  pose proof (spend_id_qstate now (b_rid b) len s2) as Hs.
  destruct (spend_id cfg now (b_rid b) _ s2) as [[] s3]; cbn [negb snd fst] in *; (split; [by etrans|]); [|done].
  intros p ip [= <- <-]. by exists e, peer.
Qed.

(** The only frame a datagram causes goes to the other seat of the id. *)
Lemma relay_data_sends now b p s : sends (opposite b s) s (relay_data cfg now b p s).2.
Proof.
  destruct (relay_checks_spec now b (f64_of (Z.of_nat (length p))) (registry s) s) as [Hq Hc].
  destruct (relay_data_run now b p s) as [H|[H|(peer & ip & s2 & H1 & H2 & H3)]]; [by apply aside_sends|..].
  - apply sends_same. etrans; [by apply aside_qstate|done].
  - etrans; [apply (sends_same _ s s2); etrans; [apply aside_qstate, H2|done]|].
    etrans; [|apply aside_sends, H3]. apply push_sends. eauto.
Qed.

Lemma mark_idle_qstate rid now s : qstate (mark_idle rid now s) = qstate s.
Proof.
  unfold mark_idle. cbn [ids set_next_gen]. destruct (ids s !! rid) as [e|]; [|done].
  destruct (_ <? _)%nat; by destruct (e_ever_paired e).
Qed.

Lemma release_sends now b s : sends (at_id (b_rid b) s) s (release cfg epoch now b s).
Proof.
  unfold release. destruct (ids s !! b_rid b) as [e|] eqn:He; [|done]. destruct (owns e b); [|done]. cbn [negb].
  destruct (vacate_facts (b_role b) e) as (_ & -> & _). fold (vacated b e s).
  assert (qstate (vacated b e s) = qstate s) as Hv.
  { unfold vacated. etrans; [exact (end_relay_qstate _ (set_ids (<[b_rid b := set_slot (b_role b) (λ _, None) e]>) s))|done]. }
  destruct (slot e (Role_other (b_role b))) as [peer|] eqn:Hp.
  - etrans; [|apply send_sends; by exists e, (Role_other (b_role b)), peer]. apply sends_same. exact Hv.
  - apply sends_same. by rewrite mark_idle_qstate.
Qed.

(** ** Queue budgets *)

Definition in_flight (d : bool) (o : Outbox) : Z :=
  match o_in_flight o with Some (d', n) => if Bool.eqb d d' then n else 0 | None => 0 end.

Record outbox_ok (o : Outbox) : Prop := {
  ob_signal : o_signal_bytes o = queue_cost (o_signal o) + in_flight false o;
  ob_data : o_data_bytes o = queue_cost (default [] (o_data o)) + in_flight true o;
  ob_flight d n : o_in_flight o = Some (d, n) → 0 ≤ n;
  ob_signal_cap : o_signal_bytes o ≤ Z.max 0 (queue_signal_bytes cfg);
  ob_data_cap : o_data_bytes o ≤ Z.max 0 (queue_data_bytes cfg);
}.

Definition bytes_of (o : Outbox) : Z := o_signal_bytes o + o_data_bytes o.
Definition total_bytes (m : gmap nat Outbox) : Z := foldr Z.add 0 ((λ p, bytes_of p.2) <$> map_to_list m).

Definition queues_ok (q : gmap nat Outbox * Z) : Prop :=
  map_Forall (λ _, outbox_ok) q.1 ∧ q.2 = total_bytes q.1 ∧ q.2 ≤ Z.max 0 (queue_global_bytes cfg).

Lemma sum_perm l l' : l ≡ₚ l' → foldr Z.add 0 l = foldr Z.add 0 l'.
Proof. induction 1; cbn; lia. Qed.

Lemma total_insert_new m c o : m !! c = None → total_bytes (<[c := o]> m) = bytes_of o + total_bytes m.
Proof.
  intros Hn. unfold total_bytes. by rewrite (sum_perm _ _ (fmap_Permutation _ _ _ (map_to_list_insert _ _ o Hn))).
Qed.

Lemma total_insert m c o o' : m !! c = Some o → total_bytes (<[c := o']> m) = total_bytes m - bytes_of o + bytes_of o'.
Proof.
  intros Hc. rewrite <- (insert_delete_id m c o Hc) at 2. rewrite <- (insert_delete_eq m c o').
  rewrite !total_insert_new by apply lookup_delete_eq. lia.
Qed.

Lemma queue_cost_app q b : queue_cost (q ++ [b]) = queue_cost q + item_cost b.
Proof. unfold queue_cost. induction q as [|x q IH]; cbn; [lia|]. cbn in IH. lia. Qed.

Lemma item_cost_pos b : 0 < item_cost b.
Proof. unfold item_cost, QUEUE_ITEM_OVERHEAD. lia. Qed.

Lemma queue_cost_nonneg q : 0 ≤ queue_cost q.
Proof. unfold queue_cost. induction q as [|x q IH]; cbn; [lia|]. pose proof (item_cost_pos x). cbn in IH. lia. Qed.

Lemma pushq_ok q x : queues_ok q → queues_ok (pushq q x).
Proof.
  intros (H1 & H2 & H3). destruct x as [[c d] b]. cbn. destruct (q.1 !! c) as [o|] eqn:Eo; [|done].
  destruct (channel d o) as [l|] eqn:El; [|done].
  destruct (reserve cfg d (item_cost b) o q.2) eqn:Er; [|done]. destruct (o_open o); [|done].
  destruct (_ <? capacity cfg d); [|done]. cbn [andb].
  unfold reserve in Er. apply andb_true_iff in Er as [R1 R2]. apply negb_true_iff, Z.ltb_ge in R1, R2.
  destruct (H1 _ _ Eo) as [B1 B2 B3 B4 B5].
  split_and!; cbn.
  - apply map_Forall_insert_2; [|done]. destruct d; cbn in *.
    + rewrite El in B2 |- *. cbn in *. split; cbn; unfold in_flight in *; cbn in *; rewrite ?queue_cost_app; try done; lia.
    + split; cbn; unfold in_flight in *; cbn in *; rewrite ?queue_cost_app; try done; lia.
  - rewrite (total_insert _ _ o) by done. unfold bytes_of. destruct d; cbn; lia.
  - lia.
Qed.

Lemma sends_queues A s s' : sends A s s' → queues_ok (qstate s) → queues_ok (qstate s').
Proof.
  intros (l & _ & ->). generalize (qstate s). induction l as [|x l IH]; intros q Hq; [done|].
  cbn [foldl]. apply IH. by apply pushq_ok.
Qed.

Lemma open_queues c v s : outs s !! c = None → queues_ok (qstate s) → queues_ok (qstate (open_outbox c v s)).
Proof.
  intros Hn (H1 & H2 & H3). split_and!; cbn.
  - apply map_Forall_insert_2; [|done]. split; cbn; try done; try destruct (2 <=? v); unfold queue_cost, in_flight; cbn; lia.
  - rewrite total_insert_new by done. cbn in H2. unfold bytes_of. cbn. lia.
  - done.
Qed.

(** Replacing an outbox by one that holds [k] bytes less. *)
Lemma lower_queues c o o' k q x :
  queues_ok q → q.1 !! c = Some o → outbox_ok o' → bytes_of o' = bytes_of o - k → x = q.2 - k → 0 ≤ k →
  queues_ok (<[c := o']> q.1, x).
Proof.
  intros (H1 & H2 & H3) Hc Ho Hb -> Hk. split_and!; cbn; [by apply map_Forall_insert_2| |lia].
  rewrite (total_insert _ _ o) by done. lia.
Qed.

Lemma writer_take_queues c s : queues_ok (qstate s) → queues_ok (qstate (writer_take c s).2).
Proof.
  intros Hq. unfold writer_take. destruct (outs s !! c) as [[sg d sb db fl op]|] eqn:E; [|done].
  pose proof (proj1 Hq _ _ E) as [B1 B2 B3 B4 B5]. cbn in *.
  destruct sg as [|b sg]; [destruct d as [[|p d]|]|]; destruct fl; try done; destruct op; try done; cbn.
  - refine (lower_queues c _ _ 0 (qstate s) _ Hq E _ _ _ _); [|unfold bytes_of; cbn; lia|cbn; lia|lia].
    unfold in_flight, queue_cost in *. cbn in *. pose proof (item_cost_pos p). split; cbn; unfold in_flight, queue_cost; cbn; try lia.
    intros ? ? [= <- <-]. lia.
  - refine (lower_queues c _ _ 0 (qstate s) _ Hq E _ _ _ _); [|unfold bytes_of; cbn; lia|cbn; lia|lia].
    unfold in_flight, queue_cost in *. cbn in *. pose proof (item_cost_pos b). split; cbn; unfold in_flight, queue_cost; cbn; try lia.
    intros ? ? [= <- <-]. lia.
Qed.

Lemma writer_done_queues c s : queues_ok (qstate s) → queues_ok (qstate (writer_done c s)).
Proof.
  intros Hq. unfold writer_done. destruct (outs s !! c) as [[sg d sb db fl op]|] eqn:E; [|done].
  pose proof (proj1 Hq _ _ E) as [B1 B2 B3 B4 B5]. cbn in *. destruct fl as [[data n]|]; [|done]. cbn.
  specialize (B3 _ _ eq_refl). unfold in_flight in *. cbn in *.
  refine (lower_queues c _ _ n (qstate s) _ Hq E _ _ _ _); [|destruct data; unfold bytes_of; cbn; lia|done|done].
  destruct data; cbn in *; split; cbn; unfold in_flight; cbn; try done; lia.
Qed.

Lemma writer_drop_queues c s : queues_ok (qstate s) → queues_ok (qstate (writer_drop c s)).
Proof.
  intros Hq%(writer_done_queues c). unfold writer_drop. set (t := writer_done c s) in *.
  assert (∀ o, outs t !! c = Some o → o_in_flight o = None) as Hf.
  { unfold t, writer_done. destruct (outs s !! c) as [o|] eqn:E; [|by rewrite E].
    destruct (o_in_flight o) as [[data n]|] eqn:Ef; [|intros o'; rewrite E; congruence]. cbn.
    rewrite lookup_insert_eq. intros o' [= <-]. by destruct data. }
  destruct (outs t !! c) as [o|] eqn:E; [|done]. specialize (Hf o eq_refl).
  pose proof (proj1 Hq _ _ E) as [B1 B2 B3 B4 B5]. unfold in_flight in *. rewrite Hf in *.
  pose proof (queue_cost_nonneg (o_signal o)). pose proof (queue_cost_nonneg (default [] (o_data o))). cbn.
  refine (lower_queues c _ _ (queue_cost (o_signal o) + queue_cost (default [] (o_data o))) (qstate t) _ Hq E _ _ _ _);
    [|unfold bytes_of; cbn; lia|cbn; lia|lia].
  split; cbn; unfold in_flight; cbn; try done; try lia.
  - change (queue_cost []) with 0. lia.
  - assert (queue_cost (default [] ((λ _ : list bytes, @nil bytes) <$> o_data o)) = 0) as -> by (by destruct (o_data o)). lia.
Qed.
End relay.
End ServerProps.
