(* ===== verification/RelayServerSafety.v ===== *)
(** * The relay over whole runs

    A [World] is the relay's state with what happened so far: which session
    tasks are alive, which sessions registered, and the keys they signed for.
    [step] is one critical section of RelayServer.v; any interleaving of the
    handlers is a sequence of steps. *)

From S2P Require Import Prelude RelayProto RelayStun RelayLimits RelayServer RelayServerProps.
From Stdlib Require Import Strings.Byte.

Module ServerSafety.
Import Proto Limits Server ServerProps.

#[local] Arguments ServerMsg_encode : simpl never.
#[local] Arguments ClientMsg_decode : simpl never.

Record World := mkWorld {
  sh : Shared;
  tried : gset nat;
  proved : gset Signed;
  live : gset nat;
}.

Section safety.
Context (cfg : RelayConfig) (stun_port epoch : Z).

Definition with_sh (s : Shared) (w : World) : World := mkWorld s (tried w) (proved w) (live w).

Inductive step (w : World) : World → Prop :=
| step_admit now jitter ip r s' :
    admit_conn cfg epoch now jitter ip (sh w) = (r, s') →
    step w (mkWorld s' (tried w) (proved w) (match r with Some c => {[c]} ∪ live w | None => live w end))
| step_finish c m :
    c ∈ live w → metas (sh w) !! c = Some m →
    step w (mkWorld (finish c (m_ip m) (sh w)) (tried w) (proved w) (live w ∖ {[c]}))
| step_open c version : outs (sh w) !! c = None → step w (with_sh (open_outbox c version (sh w)) w)
| step_register now role rid pk (sig_ok : bool) identity c m :
    metas (sh w) !! c = Some m → c ∉ tried w →
    step w (mkWorld (register cfg now role rid pk sig_ok identity c (m_ip m) (sh w)).2 ({[c]} ∪ tried w)
              (if sig_ok then {[(c, rid, role, pk)]} ∪ proved w else proved w) (live w))
| step_release now b : step w (with_sh (release cfg epoch now b (sh w)) w)
| step_push c data b : step w (with_sh (push cfg c data b (sh w)).2 w)
| step_announce b : step w (with_sh (announce_online cfg b (sh w)) w)
| step_forward b blob : step w (with_sh (forward cfg b blob (sh w)) w)
| step_candidates now ums nonce b blob : step w (with_sh (set_candidates cfg now ums nonce b blob (sh w)) w)
| step_punch now ums nonce b : step w (with_sh (punch_request cfg now ums nonce b (sh w)) w)
| step_relay now b len registered : step w (with_sh (relay_checks cfg now b len registered (sh w)).2 w)
| step_public now ums nonce b src : step w (with_sh (see_public cfg now ums nonce b src (sh w)) w)
| step_sweep_ids now : step w (with_sh (sweep_ids cfg now (sh w)) w)
| step_sweep_sessions now : step w (with_sh (sweep_sessions epoch now (sh w)) w)
| step_take c : step w (with_sh (writer_take c (sh w)).2 w)
| step_done c : step w (with_sh (writer_done c (sh w)) w)
| step_drop c : step w (with_sh (writer_drop c (sh w)) w)
| step_aside s' : aside (sh w) s' → step w (with_sh s' w).

Definition start (now : Z) (registered : gset bytes) : World := mkWorld (relay_new cfg now registered) ∅ ∅ ∅.

(** ** The invariant of a world *)

Record winv (w : World) : Prop := {
  wi_inv : inv cfg (tried w) (proved w) (sh w);
  wi_queues : queues_ok cfg (qstate (sh w));
  wi_live c : c ∈ live w → is_Some (metas (sh w) !! c);
  wi_sessions : sessions (sh w) ⊆ live w;
  wi_active : active (sh w) = Z.of_nat (size (live w));
  wi_cap : active (sh w) ≤ Z.max 0 (hard_cap cfg);
}.

Lemma start_inv now registered : winv (start now registered).
Proof.
  assert (session_ips (relay_new cfg now registered) = []) as Hips by done.
  split; [split| | | | |]; cbn [start sh tried proved live].
  - split; [set_solver|by intros c []|rewrite Hips; apply counted_nil|rewrite Hips|cbn; rewrite size_empty; lia].
    intros key Hk. by apply Z.lt_irrefl in Hk.
  - split; [done|done|cbn; lia|apply counted_nil|]. intros key Hk. by apply Z.lt_irrefl in Hk.
  - split; intros *; cbn; rewrite ?fmap_empty, ?lookup_empty; set_solver.
  - split; intros *; cbn; rewrite ?fmap_empty, ?lookup_empty; try done; destruct b; cbn; by intros ?%not_elem_of_nil.
  - done.
  - cbn. rewrite map_size_empty. lia.
  - split_and!; cbn; [apply map_Forall_empty|done|lia].
  - set_solver.
  - done.
  - cbn. by rewrite size_empty.
  - cbn. lia.
Qed.

(** A step that keeps the tables, or only moves pair slots. *)
Lemma move_winv w s' :
  relays_move cfg (sh w) s' → (queues_ok cfg (qstate (sh w)) → queues_ok cfg (qstate s')) → winv w → winv (with_sh s' w).
Proof.
  intros Hm Hq [H1 H2 H3 H4 H5 H6]. pose proof (move_inv _ _ _ _ _ Hm H1) as Hi.
  destruct Hm as [(A1 & _ & _ & A4 & _ & _ & _ & _ & A9) _]. split; cbn; rewrite ?A1, ?A9; auto.
  intros c Hc%H3. apply (f_equal (lookup c)) in A4. rewrite !lookup_fmap in A4.
  rewrite <- (fmap_is_Some who). by rewrite A4, fmap_is_Some.
Qed.

(** ** Operations that start and end no session *)

(** Only the tables of ids, idle records and pair slots differ. *)
Definition tables_only (s s' : Shared) : Prop :=
  s' = set_ids (λ _, ids s') (set_idle_new (λ _, idle_new s') (set_idle_paired (λ _, idle_paired s')
         (set_relaying (λ _, relaying s') (set_relay_pairs (λ _, relay_pairs s') (set_relay_ips (λ _, relay_ips s') s))))).

#[export] Instance tables_only_preorder : PreOrder tables_only.
Proof.
  split; [by intros []|]. intros s1 s2 s3 H1 H2. unfold tables_only in *. etrans; [exact H2|]. by rewrite H1.
Qed.

Lemma end_relay_tables rid s : tables_only s (end_relay rid s).
Proof. unfold end_relay. destruct (ids s !! rid) as [e|]; [|done]. by destruct (e_relay e). Qed.

Lemma remove_tables rid s : tables_only s (remove rid s).
Proof. unfold remove. etrans; [apply (end_relay_tables rid)|done]. Qed.

Lemma set_queue_tables p f s : tables_only s (set_queue p f s).
Proof. by destruct p. Qed.

Lemma evict_from_tables p s : tables_only s (evict_from p s).2.
Proof.
  unfold evict_from. destruct (pop_live _ _) as [[r|] q]; cbn [snd]; [|apply set_queue_tables].
  etrans; [apply set_queue_tables|apply remove_tables].
Qed.

Lemma evict_one_tables s : tables_only s (evict_one s).2.
Proof.
  unfold evict_one. pose proof (evict_from_tables false s) as H. destruct (evict_from false s) as [[] s1]; [done|].
  etrans; [exact H|apply evict_from_tables].
Qed.

Definition same_tasks (s s' : Shared) : Prop :=
  sessions s' = sessions s ∧ active s' = active s ∧ dom (metas s') = dom (metas s) ∧ qstate s' = qstate s ∧
  (creds s', stun_limiter s', stun_global s') = (creds s, stun_limiter s, stun_global s).

#[export] Instance same_tasks_preorder : PreOrder same_tasks.
Proof. split; [by repeat split|]. intros s1 s2 s3 (?&?&?&?&?) (?&?&?&?&?). repeat split; congruence. Qed.

Lemma tables_tasks s s' : tables_only s s' → same_tasks s s'.
Proof. intros ->. done. Qed.

Lemma expire_tables now s : tables_only s (expire cfg now s).
Proof.
  assert (∀ p ttl q s, tables_only s (expire_queue p ttl now q s)) as H.
  { intros p ttl q. induction q as [|r q IH]; intros t; cbn [expire_queue]; [apply set_queue_tables|].
    destruct (_ <=? _); [|apply set_queue_tables]. etrans; [|apply IH]. destruct (is_live _ _); [apply remove_tables|done]. }
  unfold expire. etrans; apply H.
Qed.

Lemma alter_meta_tasks (f : SessionMeta → SessionMeta) c s : same_tasks s (set_metas (alter f c) s).
Proof. repeat split. cbn. apply dom_alter_L. Qed.

(** The check of a claim may also spend the address's budget of new ids. *)
Lemma admit_claim_tables now rid pk sig_ok ip s :
  ∃ l, tables_only (set_new_id_limiter (λ _, l) s) (admit_claim cfg now rid pk sig_ok ip s).2.
Proof.
  assert (set_new_id_limiter (λ _, new_id_limiter s) s = s) as Hs by (by destruct s). unfold admit_claim.
  destruct (ids s !! rid); [exists (new_id_limiter s); by rewrite Hs|].
  destruct (negb sig_ok); [exists (new_id_limiter s); by rewrite Hs|].
  destruct (allow now ip (new_id_limiter s)) as [[] l]; exists l; [|done]. cbn [negb]. destruct (_ <? _); [done|].
  apply evict_one_tables.
Qed.

Lemma admit_claim_tasks now rid pk sig_ok ip s : same_tasks s (admit_claim cfg now rid pk sig_ok ip s).2.
Proof. destruct (admit_claim_tables now rid pk sig_ok ip s) as [l H%tables_tasks]. etrans; [|exact H]. done. Qed.

Lemma take_seat_tasks role rid c e s : same_tasks s (take_seat role rid c e s).
Proof.
  unfold take_seat. set (s2 := match _ ≫= _ with Some _ => _ | None => s end).
  assert (same_tasks s s2) as H2 by (subst s2; destruct (_ ≫= _); [apply alter_meta_tasks|done]).
  etrans; [exact H2|]. set (s3 := match _ with Some _ => _ | None => _ end).
  assert (same_tasks s2 s3) as H3; [|etrans; [exact H3|done]].
  subst s3. destruct (slot _ _); [etrans; apply alter_meta_tasks|apply alter_meta_tasks].
Qed.

Lemma register_tasks now role rid pk sig_ok identity c ip s :
  same_tasks s (register cfg now role rid pk sig_ok identity c ip s).2.
Proof.
  pose proof (register_run cfg now role rid pk sig_ok identity c ip s) as Hr.
  pose proof (admit_claim_tasks now rid pk sig_ok ip s) as Ha.
  destruct (admit_claim cfg now rid pk sig_ok ip s) as [[] s1]; rewrite Hr; cbn [snd] in *; [|done].
  etrans; [exact Ha|apply take_seat_tasks].
Qed.

Lemma sweep_ids_tasks now s : same_tasks s (sweep_ids cfg now s).
Proof.
  assert (∀ l s, tables_only s (foldl (λ s r, drop_stale r s) s l)) as H1.
  { induction l as [|r l IH]; intros t; [done|]. cbn [foldl]. etrans; [|apply IH]. unfold drop_stale.
    destruct (ids t !! r); [apply end_relay_tables|done]. }
  apply tables_tasks. unfold sweep_ids. etrans; [apply H1|apply expire_tables].
Qed.

Lemma sweep_sessions_qstate now s : qstate (sweep_sessions epoch now s) = qstate s.
Proof.
  unfold sweep_sessions. generalize (session_list s). intros l. revert s.
  induction l as [|r l IH]; intros t; [done|]. cbn [foldl]. rewrite IH. by destruct (outlived _ _ _).
Qed.

(** The release touches the queue of the peer only. *)
Lemma release_tasks now b s :
  let s' := release cfg epoch now b s in
  sessions s' = sessions s ∧ active s' = active s ∧ dom (metas s') = dom (metas s).
Proof.
  cbn. unfold release. destruct (ids s !! b_rid b) as [e|]; [|done]. destruct (negb (owns e b)); [done|].
  set (t := end_relay _ _).
  assert (same_tasks s t) as (T1 & T2 & T3 & _) by (etrans; [|apply tables_tasks, end_relay_tables]; done).
  destruct (slot _ _) as [peer|].
  - set (u := set_metas _ t). destruct (send_still cfg (sl_conn peer) PeerOffline u) as [(A1&_&_&A4&_&_&_&_&A9) _].
    rewrite A1, A9. cbn. split_and!; [done..|]. rewrite <- T3, <- (dom_alter_L (λ m, set_m_class (λ _, CLASS_ALONE) (set_m_alone_since_ms (λ _, ms epoch now) m)) (metas t) (sl_conn peer)).
    apply (f_equal dom) in A4. by rewrite !dom_fmap_L in A4.
  - unfold mark_idle. cbn [ids set_next_gen]. destruct (ids t !! b_rid b) as [x|]; [|done].
    destruct (_ <? _)%nat; destruct (e_ever_paired x); done.
Qed.

Lemma tasks_winv w s' tried' proved' :
  inv cfg tried' proved' s' → sessions s' = sessions (sh w) → active s' = active (sh w) →
  dom (metas s') = dom (metas (sh w)) → queues_ok cfg (qstate s') → winv w → winv (mkWorld s' tried' proved' (live w)).
Proof.
  intros Hi T1 T2 T3 Hq [H1 H2 H3 H4 H5 H6]. split; cbn; rewrite ?T1, ?T2; auto.
  intros c Hc%H3. rewrite <- elem_of_dom in *. by rewrite T3.
Qed.

Lemma admit_winv w now jitter ip r s' :
  winv w → admit_conn cfg epoch now jitter ip (sh w) = (r, s') →
  winv (mkWorld s' (tried w) (proved w) (match r with Some c => {[c]} ∪ live w | None => live w end)).
Proof.
  intros [H1 H2 H3 H4 H5 H6] Ha. pose proof (admit_inv _ _ _ _ _ _ _ _ _ _ H1 Ha) as Hi.
  assert (r = None ∨ active (sh w) < hard_cap cfg) as Hcap.
  { unfold admit_conn in Ha. destruct (Z.leb_spec (hard_cap cfg) (active (sh w))); [left; by simplify_eq|by right]. }
  destruct (admit_spec _ _ _ _ _ _ _ _ (inv_conns _ _ _ _ H1) Ha) as (_ & s1 & Hc1 & Hsp & Hr).
  assert (∀ c, is_Some (metas s1 !! c) ↔ is_Some (metas (sh w) !! c)) as Hdom.
  { intros c. rewrite <- !(fmap_is_Some who), <- !lookup_fmap. by rewrite (spared_who _ _ Hsp). }
  destruct Hsp as (Hsub & _ & _ & _ & Heq).
  assert (active s1 = active (sh w) ∧ next_conn s1 = next_conn (sh w) ∧ qstate s1 = qstate (sh w)) as (E1 & E2 & E3)
    by (rewrite Heq; done).
  destruct r as [c|].
  - destruct Hr as (-> & m & ->). destruct Hcap as [|Hcap]; [done|].
    assert (next_conn s1 ∉ live w) as Hfresh.
    { intros Hin%H3%Hdom%(co_next _ _ Hc1). lia. }
    split; cbn [sh live tried proved]; [done|by rewrite <- E3 in H2| | | |].
    + intros d. cbn. intros [->%elem_of_singleton|Hd]%elem_of_union; [rewrite lookup_insert_eq; by eexists|].
      rewrite lookup_insert_ne by (intros <-; done). by apply Hdom, H3.
    + cbn. set_solver.
    + cbn. rewrite size_union, size_singleton by set_solver. lia.
    + cbn. lia.
  - destruct Hr as [-> _]. split; cbn [sh live tried proved]; [done|by rewrite E3| |set_solver|by rewrite E1|by rewrite E1].
    intros c Hc. by apply Hdom, H3.
Qed.

Lemma finish_winv w c m :
  winv w → c ∈ live w → metas (sh w) !! c = Some m →
  winv (mkWorld (finish c (m_ip m) (sh w)) (tried w) (proved w) (live w ∖ {[c]})).
Proof.
  intros [H1 H2 H3 H4 H5 H6] Hc Hm. pose proof (finish_inv _ _ _ c m (sh w) Hm H1) as Hi.
  assert (metas (finish c (m_ip m) (sh w)) = metas (sh w) ∧ qstate (finish c (m_ip m) (sh w)) = qstate (sh w) ∧
    active (finish c (m_ip m) (sh w)) = active (sh w) - 1 ∧ sessions (finish c (m_ip m) (sh w)) = sessions (sh w) ∖ {[c]}) as (E1 & E2 & E3 & E4).
  { unfold finish. case_decide; [done|]. split_and!; try done. cbn. set_solver. }
  split; cbn [sh live tried proved]; rewrite ?E1, ?E2, ?E3, ?E4; [done|done|set_solver|set_solver| |lia].
  rewrite H5, size_difference, size_singleton by set_solver.
  assert (size (live w) ≠ 0%nat); [|lia]. intros Hz%size_empty_inv. set_solver.
Qed.

Lemma step_winv w w' : step w w' → winv w → winv w'.
Proof.
  assert (∀ s', relays_move cfg (sh w) s' → (∃ A, sends cfg A (sh w) s') → winv w → winv (with_sh s' w)) as Hmv.
  { intros s' Hm [A Hs]. apply move_winv; [done|]. by eapply sends_queues. }
  assert (∀ s', still (sh w) s' → (∃ A, sends cfg A (sh w) s') → winv w → winv (with_sh s' w)) as Hst.
  { intros s' Hs. apply Hmv. by apply still_move. }
  intros Hstep Hw. destruct Hstep as [t jitter ip r s' Ha|c m Hc Hm|c v Hn|t role rid pk sig_ok identity c m Hm Ht|t b|c d p|b|b blob
    |t ums n b blob|t ums n b|t b len reg|t ums n b src|t|t|c|c|c|s' Hs0].
  - by eapply admit_winv.
  - by apply finish_winv.
  - apply move_winv; [by apply still_move|by apply open_queues|done].
  - destruct (register_tasks t role rid pk sig_ok identity c (m_ip m) (sh w)) as (T1 & T2 & T3 & T4 & _).
    apply tasks_winv; [apply register_inv; [apply Hw|done|done]|done..| |done]. rewrite T4. apply Hw.
  - destruct (release_tasks t b (sh w)) as (T1 & T2 & T3).
    apply tasks_winv; [apply release_inv, Hw|done..| |done]. eapply sends_queues; [apply release_sends|apply Hw].
  - apply Hst; [apply push_still|exists (λ d, d = c); by apply push_sends|done].
  - apply Hst; [apply announce_still|eexists; apply announce_sends|done].
  - apply Hst; [apply forward_still|eexists; apply forward_sends|done].
  - apply Hst; [apply candidates_still|eexists; apply candidates_sends|done].
  - apply Hst; [apply punch_request_still|eexists; apply punch_request_sends|done].
  - apply Hmv; [apply relay_checks_move|exists (λ _, True); apply sends_same, relay_checks_spec|done].
  - apply Hst; [apply see_public_still|eexists; apply see_public_sends|done].
  - destruct (sweep_ids_tasks t (sh w)) as (T1 & T2 & T3 & T4 & _).
    apply tasks_winv; [apply sweep_ids_inv, Hw|done..| |done]. rewrite T4. apply Hw.
  - apply Hst; [apply kicks_still|exists (λ _, True); apply sends_same, sweep_sessions_qstate|done].
  - apply move_winv; [apply still_move|apply writer_take_queues|done].
    unfold writer_take. by repeat case_match.
  - apply move_winv; [apply still_move|apply writer_done_queues|done].
    unfold writer_done. by repeat case_match.
  - apply move_winv; [apply still_move|apply writer_drop_queues|done].
    unfold writer_drop, writer_done. by repeat case_match.
  - apply Hst; [by apply aside_still|exists (λ _, True); by apply aside_sends|done].
Qed.

Lemma reachable_winv now registered w : rtc step (start now registered) w → winv w.
Proof.
  intros H. remember (start now registered) as w0. assert (winv w0) as H0 by (subst; apply start_inv).
  clear Heqw0. induction H; [done|]. eauto using step_winv.
Qed.

(** ** The handlers are sequences of steps *)

Lemma spend_ip_aside t ip len s : aside s (spend_ip t ip len s).2.
Proof. unfold spend_ip. by destruct (allow_cost t ip len (relay_limiter s)). Qed.

Lemma aside_steps w s' : aside (sh w) s' → rtc step w (with_sh s' w).
Proof. intros. by apply rtc_once, step_aside. Qed.

Lemma with_same w : w = with_sh (sh w) w.
Proof. by destruct w. Qed.

Lemma then_aside w s1 s2 : rtc step w (with_sh s1 w) → aside s1 s2 → rtc step w (with_sh s2 w).
Proof. intros H1 H2. etrans; [exact H1|]. exact (rtc_once _ _ (step_aside (with_sh s1 w) s2 H2)). Qed.

Lemma relay_data_steps t b packet w : rtc step w (with_sh (relay_data cfg t b packet (sh w)).2 w).
Proof.
  pose proof (step_relay w t b (f64_of (Z.of_nat (length packet))) (registry (sh w))) as Hc.
  destruct (relay_data_run cfg t b packet (sh w)) as [H|[H|(peer & ip & s2 & _ & H2 & H3)]]; [by apply aside_steps|..].
  - eapply then_aside; [by apply rtc_once|done].
  - eapply then_aside; [|exact H3]. etrans; [eapply then_aside; [by apply rtc_once|exact H2]|].
    exact (rtc_once _ _ (step_push (with_sh s2 w) peer true packet)).
Qed.

Lemma on_stun_steps hmac t ums n src packet w : rtc step w (with_sh (on_stun cfg hmac t ums n src packet (sh w)).2 w).
Proof.
  destruct (stun_run cfg hmac t ums n src packet (sh w)) as (s1 & H1 & [->|[b ->]]); [by apply aside_steps|].
  eapply rtc_l; [apply (step_aside w s1 H1)|]. exact (rtc_once _ _ (step_public (with_sh s1 w) t ums n b src)).
Qed.

Lemma housekeep_steps t w : rtc step w (with_sh (housekeep cfg epoch t (sh w)) w).
Proof.
  unfold housekeep. set (s1 := prune_limiters t (sh w)). eapply rtc_l; [by apply (step_aside w s1)|].
  eapply rtc_l; [apply (step_sweep_ids (with_sh s1 w) t)|].
  exact (rtc_once _ _ (step_sweep_sessions (with_sh _ w) t)).
Qed.

Lemma credential_steps t u p b c prev w : rtc step w (with_sh (issue_credential cfg stun_port t u p b c prev (sh w)) w).
Proof.
  unfold issue_credential. set (s1 := set_creds _ _). eapply rtc_l; [by apply (step_aside w s1)|].
  exact (rtc_once _ _ (step_push (with_sh s1 w) c false _)).
Qed.

Lemma on_data_steps env packet x w : rtc step w (with_sh (on_data cfg env packet x (sh w)).2 w).
Proof.
  unfold on_data. destruct (ss_binding x) as [b|]; [|by apply aside_steps].
  destruct (_ =? _); [|by apply aside_steps].
  destruct (match ss_gate_denied_until x with Some _ => _ | None => _ end).
  - eapply then_aside; [|apply spend_ip_aside]. by apply aside_steps.
  - pose proof (relay_data_steps (now env) b packet w) as Hs. by destruct (relay_data cfg (now env) b packet (sh w)) as [[] s'].
Qed.

Lemma on_message_steps env m x w : rtc step w (with_sh (on_message cfg stun_port env m x (sh w)).2 w).
Proof.
  assert (∀ s', s' = sh w → rtc step w (with_sh s' w)) as Hsame by (intros s' ->; by rewrite <- with_same).
  assert (∀ f, (∀ b, step w (with_sh (f b (sh w)) w)) → rtc step w (with_sh (with_binding x f (sh w)) w)) as Hb.
  { intros f Hf. unfold with_binding. destruct (ss_binding x); [by apply rtc_once|by apply Hsame]. }
  destruct m; cbn [on_message snd]; try (by apply Hsame); try (apply Hb; intros b; constructor).
  - apply rtc_once, step_push.
  - apply credential_steps.
Qed.

(** A frame of a session is handled by steps. *)
Lemma on_frame_steps env frame x w : rtc step w (with_sh (on_frame cfg stun_port env frame x (sh w)).2 w).
Proof.
  assert (rtc step w (with_sh (sh w) w)) as Hsame by (by rewrite <- with_same).
  unfold on_frame. destruct (_ && _).
  - destruct (ClientMsg_decode frame) as [[| | | | | | |p|]|]; try done.
    pose proof (on_data_steps env p x w) as H. by destruct (on_data cfg env p x (sh w)).
  - destruct (take_msg_token cfg (ss_bucket x) (now env)) as [[] bk]; [|done]. cbn [negb].
    destruct (ClientMsg_decode frame) as [m|]; [apply on_message_steps|done].
Qed.

Lemma teardown_steps t x w : rtc step w (with_sh (teardown cfg epoch t x (sh w)) w).
Proof.
  unfold teardown. set (s := set_creds _ _). eapply rtc_l; [by apply (step_aside w s)|].
  destruct (ss_binding x) as [b|]; [|done]. apply rtc_once. apply (step_release (with_sh s w)).
Qed.

(** The handshake of a session that has not registered yet. *)
Lemma establish_steps env version c m cl registered w :
  metas (sh w) !! c = Some m → c ∉ tried w →
  ∃ w', rtc step w w' ∧ sh w' = (establish cfg stun_port env version c (m_ip m) cl registered (sh w)).2 ∧ live w' = live w.
Proof.
  intros Hm Hc. unfold establish.
  set (r := match cl with Some cl => _ | None => (None, sh w) end).
  assert (∃ w1, rtc step w w1 ∧ sh w1 = r.2 ∧ live w1 = live w) as (w1 & H1 & E1 & L1).
  { subst r. destruct cl as [cl|]; [|by exists w]. eexists. split; [by apply rtc_once, step_register|done]. }
  destruct r as [b s1]; cbn [snd] in *. subst s1. eexists (with_sh _ w1). split; [|split; [reflexivity|exact L1]].
  etrans; [exact H1|]. etrans; [apply (credential_steps (now env) (new_username env) (new_password env) b c None)|].
  set (w2 := with_sh _ w1).
  change (issue_credential _ _ _ _ _ _ _ _ _) with (sh w2).
  assert (rtc step w2 (with_sh (if 3 <=? version then send cfg c (IdentityStatus registered (registration_gate cfg)) (sh w2) else sh w2) w2)) as H3.
  { destruct (3 <=? version); [apply rtc_once, step_push|by rewrite <- with_same]. }
  etrans; [exact H3|]. destruct b as [b|]; [|done]. apply rtc_once. eapply (step_announce (with_sh _ w2)).
Qed.

(** ** Registration, exactly *)

(** The check of a claim against an id that is known, or new. *)
Definition accepted (now : Z) (rid pk : bytes) (sig_ok : bool) (ip : IpAddr) (s : Shared) : Prop :=
  sig_ok = true ∧
  match ids s !! rid with
  | Some e => e_public_key e = pk
  | None => (allow now ip (new_id_limiter s)).1 = true ∧
            (Z.of_nat (size (ids s)) < max_ids cfg ∨ ∃ k e, ids s !! k = Some e ∧ ¬ online e)
  end.

(** The ids after room was made: at most one that was offline is gone. *)
Definition room_made (s s' : Shared) : Prop :=
  ids s' = ids s ∨ ∃ k e, ids s !! k = Some e ∧ ¬ online e ∧ peers <$> ids s' = delete k (peers <$> ids s).

Lemma admit_claim_exact td pv t rid pk sig_ok ip s ok s1 :
  inv cfg td pv s → admit_claim cfg t rid pk sig_ok ip s = (ok, s1) →
  (ok = true ↔ accepted t rid pk sig_ok ip s) ∧ (if ok then room_made s s1 else ids s1 = ids s).
Proof.
  intros Hi. unfold admit_claim, accepted. destruct (ids s !! rid) as [e|] eqn:E.
  { intros [= <- <-]. split; [|by destruct (_ && _); [left|]].
    rewrite andb_true_iff, bool_decide_eq_true. naive_solver. }
  destruct sig_ok; cbn [negb]; [|intros [= <- <-]; naive_solver].
  destruct (allow t ip (new_id_limiter s)) as [[] l] eqn:Ea; cbn [negb fst]; [|intros [= <- <-]; naive_solver].
  set (s0 := set_new_id_limiter _ s). destruct (Z.ltb_spec (Z.of_nat (size (ids s0))) (max_ids cfg)) as [Hlt|Hge].
  { intros [= <- <-]. split; [naive_solver|by left]. }
  intros He. assert (inv cfg td pv s0) as Hi0 by (eapply move_inv; [apply still_move, (set_limiter_still l s)|done]).
  destruct (evict_one_spec _ _ _ _ _ _ Hi0 He) as (_ & _ & Hr). destruct ok.
  - destruct Hr as (k & e & H1 & H2 & H3). split; [|right; by exists k, e]. naive_solver.
  - destruct Hr as [H1 H2]. split; [|done]. split; [done|]. intros (_ & _ & [Hlt|(k & e & Hk & Hoff)]); [cbn in Hge; lia|].
    by apply H2 in Hk.
Qed.

Lemma take_seat_ids role rid c e s : ids (take_seat role rid c e s) = <[rid := e]> (ids s).
Proof. by destruct (take_seat_frame cfg role rid c e s). Qed.

Lemma room_made_kept s s' k e :
  room_made s s' → ids s !! k = Some e → online e → ∃ e', ids s' !! k = Some e' ∧ peers e' = peers e.
Proof.
  intros [Heq|(v & e0 & Hv & Hoff & Hd)] Hk Hon; [exists e; by rewrite Heq|].
  assert (k ≠ v) as Hne by congruence. apply (f_equal (lookup k)) in Hd.
  rewrite lookup_delete_ne, !lookup_fmap, Hk in Hd by done. apply fmap_Some in Hd as (e' & ? & ?). by exists e'.
Qed.

Lemma alter_kicked (f : SessionMeta → SessionMeta) c d (m : gmap nat SessionMeta) :
  (∀ x, m_kicked (f x) = m_kicked x) → m_kicked <$> alter f c m !! d = m_kicked <$> m !! d.
Proof.
  intros Hf. rewrite lookup_alter. case_decide as E; [|done]. destruct E. destruct (m !! c); cbn; [by rewrite Hf|done].
Qed.

(** The session that loses its seat is told to end. *)
Lemma take_seat_kicks role rid c e o s :
  ids s !! rid ≫= (λ e, slot e role) = Some o → is_Some (metas s !! sl_conn o) →
  m_kicked <$> metas (take_seat role rid c e s) !! sl_conn o = Some true.
Proof.
  intros Ho [m Hm]. unfold take_seat. rewrite Ho. cbn [metas set_ids].
  assert (m_kicked <$> metas (kick (sl_conn o) s) !! sl_conn o = Some true) as Hk
    by (cbn; by rewrite lookup_alter_eq, Hm).
  destruct (slot e (Role_other role)); cbn [set_class metas set_metas]; by rewrite !alter_kicked.
Qed.

(** An id that makes room is not one that is being registered for. *)
Lemma room_made_at s s' k :
  room_made s s' → (∀ e, ids s !! k = Some e → ids s' = ids s) →
  ∀ e, ids s' !! k = Some e → ids s !! k = Some e.
Proof.
  intros [->|(v & e0 & Hv & Hoff & Hd)] Hsame e He; [done|]. destruct (ids s !! k) as [e1|] eqn:E.
  - rewrite (Hsame _ eq_refl) in He. congruence.
  - apply (f_equal (lookup k)) in Hd. rewrite lookup_fmap, He in Hd. symmetry in Hd.
    apply lookup_delete_Some in Hd as [_ Hd]. rewrite lookup_fmap, E in Hd. done.
Qed.

Lemma admit_claim_known t rid pk sig_ok ip s e ok s1 :
  ids s !! rid = Some e → admit_claim cfg t rid pk sig_ok ip s = (ok, s1) → s1 = s.
Proof. unfold admit_claim. intros ->. by intros [=]. Qed.

Lemma register_facts td pv t role rid pk sig_ok identity c ip s b s' :
  inv cfg td pv s → register cfg t role rid pk sig_ok identity c ip s = (b, s') →
  (is_Some b ↔ accepted t rid pk sig_ok ip s) ∧
  match b with
  | None => ids s' = ids s
  | Some b =>
    b = mkBinding rid role c ∧
    (∃ e, ids s' !! rid = Some e ∧ e_public_key e = pk ∧ slot e role = Some (mkSlot c ip None [] identity) ∧
       slot e (Role_other role) = ids s !! rid ≫= (λ e, slot e (Role_other role))) ∧
    (∀ o, ids s !! rid ≫= (λ e, slot e role) = Some o → m_kicked <$> metas s' !! sl_conn o = Some true)
  end ∧
  (∀ k e, k ≠ rid → ids s !! k = Some e → online e → ∃ e', ids s' !! k = Some e' ∧ peers e' = peers e).
Proof.
  intros Hi Hreg.
  pose proof (register_run cfg t role rid pk sig_ok identity c ip s) as Hrun. rewrite Hreg in Hrun.
  destruct (admit_claim cfg t rid pk sig_ok ip s) as [ok s1] eqn:Ea.
  destruct (admit_claim_exact _ _ _ _ _ _ _ _ _ _ Hi Ea) as [Hiff Hroom]. destruct ok; simplify_eq.
  - assert (accepted t rid pk sig_ok ip s) as Hacc by (by apply Hiff).
    assert (∀ e, ids s !! rid = Some e → ids s1 = ids s) as Hsame.
    { intros e He. by rewrite (admit_claim_known _ _ _ _ _ _ _ _ _ He Ea). }
    assert (ids s1 !! rid = ids s !! rid) as Hat.
    { destruct (ids s1 !! rid) as [e|] eqn:E1; [by rewrite (room_made_at _ _ _ Hroom Hsame _ E1)|].
      destruct (ids s !! rid) eqn:E2; [|done]. by rewrite (Hsame _ eq_refl), E2 in E1. }
    split; [split; [done|by eexists]|]. rewrite !take_seat_ids. split; [split; [done|split]|].
    + destruct (seated_facts cfg t role pk identity c ip (ids s1 !! rid)) as (F1 & F2 & F3 & F4 & F5).
      eexists. split; [apply lookup_insert_eq|]. split; [|split; [exact F1|by rewrite F2, Hat]].
      rewrite F5, Hat. destruct Hacc as [_ Hacc]. by destruct (ids s !! rid).
    + intros o Ho. apply take_seat_kicks; [by rewrite Hat|].
      destruct (admit_claim_spec _ _ _ _ _ _ _ _ _ _ _ Hi Ea) as (_ & Hw & _).
      rewrite <- (fmap_is_Some who), <- lookup_fmap, Hw. destruct (ids s !! rid) as [e|] eqn:E; [|done].
      erewrite (se_class _ _ _ _ (inv_seats _ _ _ _ Hi) rid (peers e) role (sl_conn o) (sl_ip o)); [by eexists|by rewrite lookup_fmap, E|].
      rewrite p_seat_peers. cbn in Ho. by rewrite Ho.
    + intros k e Hk He Hon. rewrite lookup_insert_ne by done. by eapply room_made_kept.
  - split; [split; [by intros []|intros ?%Hiff; done]|]. split; [done|]. intros k e _ He _. exists e. by rewrite Hroom.
Qed.

(** * Properties *)

(** C28: In every state any interleaving of the relay's handlers reaches, the
    tables stay within their configured sizes: sessions and session tasks, the
    sessions of each address prefix, rendezvous ids, relay pairs and the pairs
    of each prefix; the counters equal what they count; and the bytes queued for
    a session and for all of them stay within their budgets and are exactly
    those of the frames queued or being written. *)
Theorem relay_tables_bounded t0 registered w :
  rtc step (start t0 registered) w →
  let s := sh w in
  Z.of_nat (size (sessions s)) ≤ Z.max 0 (max_connections cfg) ∧
  active s = Z.of_nat (size (live w)) ∧ active s ≤ Z.max 0 (hard_cap cfg) ∧
  counted (session_ips s) (per_ip s) ∧ within_caps (conn_caps cfg) (session_ips s) ∧
  Z.of_nat (size (ids s)) ≤ Z.max 0 (max_ids cfg) ∧
  relaying s = dom (holds s) ∧
  relay_pairs s = Z.of_nat (size (holds s)) ∧ relay_pairs s ≤ Z.max 0 (relay_max_pairs cfg) ∧
  counted (hold_ips (holds s)) (relay_ips s) ∧ within_caps (relay_caps cfg) (hold_ips (holds s)) ∧
  (∀ c o, outs s !! c = Some o → outbox_ok cfg o) ∧
  queued s = total_bytes (outs s) ∧ queued s ≤ Z.max 0 (queue_global_bytes cfg).
Proof.
  intros Hr. destruct (reachable_winv _ _ _ Hr) as [[C R S I G B] (Q1 & Q2 & Q3) L1 L2 A1 A2].
  destruct C as [_ _ C3 C4 C5], R as [R1 R2 R3 R4 R5]. by repeat (split; [done|]).
Qed.

(** C29: In every reachable state, whoever sits at a rendezvous id signed for
    that id, that role and the id's key; the session's address is the seat's,
    it sits nowhere else, and it is marked paired exactly when the other seat of
    its id is taken. *)
Theorem seats_authenticated t0 registered w rid e r sl :
  rtc step (start t0 registered) w → ids (sh w) !! rid = Some e → slot e r = Some sl →
  (sl_conn sl, rid, r, e_public_key e) ∈ proved w ∧
  (∃ m, metas (sh w) !! sl_conn sl = Some m ∧ m_ip m = sl_ip sl ∧
        m_class m = if is_some (slot e (Role_other r)) then CLASS_PAIRED else CLASS_ALONE) ∧
  ∀ rid' e' r' sl', ids (sh w) !! rid' = Some e' → slot e' r' = Some sl' → sl_conn sl' = sl_conn sl →
    rid' = rid ∧ r' = r.
Proof.
  intros Hr%reachable_winv He Hs. destruct (inv_seats _ _ _ _ (wi_inv _ Hr)) as [S1 S2 S3 S4 S5].
  assert ((peers <$> ids (sh w)) !! rid = Some (peers e)) as Hp by (by rewrite lookup_fmap, He).
  assert (p_seat (peers e) r = Some (seat sl)) as Hq by (by rewrite p_seat_peers, Hs).
  split; [exact (S4 _ _ _ _ _ Hp Hq)|split].
  - pose proof (S1 _ _ _ _ _ Hp Hq) as Hw. rewrite lookup_fmap in Hw. apply fmap_Some in Hw as (m & Hm & Hw).
    injection Hw as Hip Hcl. exists m. split; [done|]. split; [done|]. rewrite <- Hcl, p_seat_peers.
    by destruct (slot e (Role_other r)).
  - intros rid' e' r' sl' He' Hs' Hc. apply (S2 rid' rid (peers e') (peers e) r' r (sl_conn sl) (sl_ip sl') (sl_ip sl)); try done.
    + by rewrite lookup_fmap, He'.
    + rewrite p_seat_peers, Hs'. unfold seat. cbn. by rewrite Hc.
Qed.

(** Admission never evicts a session whose peer is online, whatever address
    floods the relay: from every reachable state, such a session stays in the
    table and is not told to end.  A refused connection met a table, or the
    tables of its own prefix, full of paired sessions alone (or the cap on
    session tasks), and an admitted one gets an id never used before. *)
Theorem admit_spares_pairs t0 registered w t jitter ip r s' :
  rtc step (start t0 registered) w → admit_conn cfg epoch t jitter ip (sh w) = (r, s') →
  (∀ c m, c ∈ sessions (sh w) → metas (sh w) !! c = Some m → m_class m = CLASS_PAIRED →
     c ∈ sessions s' ∧ metas s' !! c = Some m) ∧
  match r with
  | Some c => metas (sh w) !! c = None ∧ c ∈ sessions s' ∧ metas s' !! c = Some (new_meta cfg epoch t jitter ip)
  | None => full_of_pairs cfg ip s'
  end.
Proof.
  intros Hr%reachable_winv Ha. pose proof (inv_conns _ _ _ _ (wi_inv _ Hr)) as Hc.
  destruct (admit_spec _ _ _ _ _ _ _ _ Hc Ha) as (_ & s1 & Hc1 & Hsp & Hres).
  assert (metas s1 !! next_conn s1 = None) as Hfresh.
  { destruct (metas s1 !! next_conn s1) eqn:E; [|done].
    pose proof (co_next _ _ Hc1 (next_conn s1)) as H. rewrite E in H. specialize (H (mk_is_Some _ _ eq_refl)). lia. }
  destruct r as [c|].
  - destruct Hres as (-> & m & ->). pose proof (spared_who _ _ Hsp) as Hw. destruct Hsp as (_ & _ & Hp & _). split.
    + intros c m' Hin Hm Hcl. destruct (Hp _ _ Hm Hcl Hin) as [H1 H2]. cbn. split; [set_solver|].
      by rewrite lookup_insert_ne by congruence.
    + split_and!; [|cbn; set_solver|cbn; by rewrite lookup_insert_eq].
      apply (f_equal (lookup (next_conn s1))) in Hw. rewrite !lookup_fmap, Hfresh in Hw. by destruct (metas (sh w) !! _).
  - destruct Hres as [-> Hfull]. destruct Hsp as (_ & _ & Hp & _). split; [|done]. eauto.
Qed.

(** Registration in every reachable state: a session gets its seat exactly
    when its signature verifies and either the id is remembered with that very
    key, or the id is new, its address may create ids, and the id table has room
    or an id with no peer online to give up.  With the seat the other seat is
    kept, the key is the claimed one and the old holder of the seat is told to
    end; without it no id changes; and an id with a peer online is never given
    up for another. *)
Theorem register_exact t0 registered w t role rid pk sig_ok identity c ip b s' :
  rtc step (start t0 registered) w → register cfg t role rid pk sig_ok identity c ip (sh w) = (b, s') →
  (is_Some b ↔ accepted t rid pk sig_ok ip (sh w)) ∧
  match b with
  | None => ids s' = ids (sh w)
  | Some b =>
    b = mkBinding rid role c ∧
    (∃ e, ids s' !! rid = Some e ∧ e_public_key e = pk ∧ slot e role = Some (mkSlot c ip None [] identity) ∧
       slot e (Role_other role) = ids (sh w) !! rid ≫= (λ e, slot e (Role_other role))) ∧
    (∀ o, ids (sh w) !! rid ≫= (λ e, slot e role) = Some o → m_kicked <$> metas s' !! sl_conn o = Some true)
  end ∧
  (∀ k e, k ≠ rid → ids (sh w) !! k = Some e → online e → ∃ e', ids s' !! k = Some e' ∧ peers e' = peers e).
Proof.
  intros Hr%reachable_winv. eapply register_facts, (wi_inv _ Hr).
Qed.
End safety.

(** ** A run *)

(** Two sessions from two addresses register as the box and the device of one
    id, and the device sends a datagram. *)
Definition demo_step := step RelayConfig_default 0.
Definition demo_start : World := start RelayConfig_default 0 ∅.
Definition demo_ip (c : nat) : IpAddr := V4 [x0a; x00; x00; byte_of_Z (Z.of_nat c)].
Definition demo_rid : bytes := replicate 32 x01.
Definition demo_pk : bytes := replicate 32 x02.

Definition demo_admit (c : nat) (w : World) : World :=
  let r := admit_conn RelayConfig_default 0 5 7 (demo_ip c) (sh w) in
  with_sh (open_outbox c 2 r.2)
    (mkWorld r.2 (tried w) (proved w) (match r.1 with Some c => {[c]} ∪ live w | None => live w end)).

Definition demo_register (role : Role) (c : nat) (w : World) : World :=
  mkWorld (register RelayConfig_default 9 role demo_rid demo_pk true None c (demo_ip c) (sh w)).2
    ({[c]} ∪ tried w) ({[(c, demo_rid, role, demo_pk)]} ∪ proved w) (live w).

Definition demo_admitted : World := demo_admit 2 (demo_admit 1 demo_start).
Definition demo_paired : World := demo_register Device 2 (demo_register Box 1 demo_admitted).

Lemma demo_admit_reached c w :
  outs (admit_conn RelayConfig_default 0 5 7 (demo_ip c) (sh w)).2 !! c = None → rtc demo_step w (demo_admit c w).
Proof.
  intros Hc. eapply rtc_l; [eapply step_admit, surjective_pairing|].
  exact (rtc_once _ _ (step_open _ _ (mkWorld _ _ _ _) c 2 Hc)).
Qed.

Lemma demo_register_reached role c w :
  m_ip <$> metas (sh w) !! c = Some (demo_ip c) → c ∉ tried w → rtc demo_step w (demo_register role c w).
Proof.
  intros (m & Hm & Hip)%fmap_Some Hc. unfold demo_register. rewrite Hip.
  by apply rtc_once, (step_register _ _ w 9 role demo_rid demo_pk true).
Qed.

Lemma demo_admitted_reached : rtc demo_step demo_start demo_admitted.
Proof. etrans; [apply (demo_admit_reached 1)|apply (demo_admit_reached 2)]; vm_compute; reflexivity. Qed.

Lemma demo_reached : rtc demo_step demo_start demo_paired.
Proof.
  etrans; [apply demo_admitted_reached|].
  etrans; [apply (demo_register_reached Box 1); [vm_compute; reflexivity|set_solver]|].
  apply (demo_register_reached Device 2); [vm_compute; reflexivity|set_solver].
Qed.

(** ** Witnesses *)

Lemma relay_tables_bounded_witness :
  size (sessions (sh demo_paired)) = 2%nat ∧ size (ids (sh demo_paired)) = 1%nat ∧
  active (sh demo_paired) = Z.of_nat (size (live demo_paired)) ∧ queued (sh demo_paired) = total_bytes (outs (sh demo_paired)).
Proof.
  pose proof (relay_tables_bounded RelayConfig_default 0 0 ∅ demo_paired demo_reached)
    as (_ & H1 & _ & _ & _ & _ & _ & _ & _ & _ & _ & _ & H2 & _).
  split; [vm_compute; reflexivity|]. split; [vm_compute; reflexivity|]. exact (conj H1 H2).
Defined.

Definition demo_entry : IdEntry := default (new_entry RelayConfig_default 0 []) (ids (sh demo_paired) !! demo_rid).
Definition demo_seat (c : nat) : Slot := mkSlot c (demo_ip c) None [] None.

Lemma seats_authenticated_witness :
  (2%nat, demo_rid, Device, demo_pk) ∈ proved demo_paired ∧ class_of 2 (sh demo_paired) = CLASS_PAIRED.
Proof.
  destruct (seats_authenticated RelayConfig_default 0 0 ∅ demo_paired demo_rid demo_entry Device (demo_seat 2)
    demo_reached) as (H1 & (m & H2 & _ & H3) & _); [vm_compute; reflexivity..|]. split; [exact H1|].
  cbn [sl_conn demo_seat] in H2. unfold class_of. rewrite H2, H3. vm_compute. reflexivity.
Defined.

Lemma admit_spares_pairs_witness :
  let r := admit_conn RelayConfig_default 0 20 3 (demo_ip 1) (sh demo_paired) in
  r.1 = Some 3%nat ∧ metas (sh demo_paired) !! 3%nat = None ∧ metas r.2 !! 3%nat = Some (new_meta RelayConfig_default 0 20 3 (demo_ip 1)).
Proof.
  set (r := admit_conn RelayConfig_default 0 20 3 (demo_ip 1) (sh demo_paired)).
  assert (r.1 = Some 3%nat) as E by (vm_compute; reflexivity).
  pose proof (admit_spares_pairs RelayConfig_default 0 0 ∅ demo_paired 20 3 (demo_ip 1) r.1 r.2 demo_reached
    (surjective_pairing _)) as [_ H]. rewrite E in H. destruct H as (H1 & _ & H2). exact (conj E (conj H1 H2)).
Defined.

(** A forged signature gets no seat; the owner's reconnection replaces its old session. *)
Lemma register_exact_witness :
  let r := register RelayConfig_default 30 Box demo_rid demo_pk true None 3 (demo_ip 3) (sh demo_paired) in
  r.1 = Some (mkBinding demo_rid Box 3) ∧ m_kicked <$> metas r.2 !! 1%nat = Some true.
Proof.
  set (r := register RelayConfig_default 30 Box demo_rid demo_pk true None 3 (demo_ip 3) (sh demo_paired)).
  assert (r.1 = Some (mkBinding demo_rid Box 3)) as E by (vm_compute; reflexivity).
  pose proof (register_exact RelayConfig_default 0 0 ∅ demo_paired 30 Box demo_rid demo_pk true None 3 (demo_ip 3)
    r.1 r.2 demo_reached (surjective_pairing _)) as (_ & H & _). rewrite E in H. destruct H as (_ & _ & H).
  split; [exact E|]. apply (H (demo_seat 1)). vm_compute. reflexivity.
Defined.
End ServerSafety.
