(* ===== verification/RelayServerSessions.v ===== *)
(** * One session of the relay

    What a session can reach with the frames it sends, and what it can learn
    from the relay's answers: [session_of] is the session's variables at any
    point of its life, whatever the other sessions do in between. *)

From S2P Require Import Prelude RelayProto RelayStun RelayLimits RelayServer RelayServerProps RelayServerSafety.
From Stdlib Require Import Strings.Byte.

Module ServerSessions.
Import Proto Limits Server ServerProps ServerSafety.

#[local] Arguments ServerMsg_encode : simpl never.
#[local] Arguments ClientMsg_decode : simpl never.

Section sessions.
Context (cfg : RelayConfig) (stun_port : Z).

(** ** Who a frame reaches *)

Inductive session_of : Session → Prop :=
| session_start env version c ip cl registered s :
    session_of (establish cfg stun_port env version c ip cl registered s).1
| session_frame env frame x x' s :
    session_of x → (on_frame cfg stun_port env frame x s).1 = Some x' → session_of x'.

Lemma register_binding t role rid pk sig_ok identity c ip s b :
  (register cfg t role rid pk sig_ok identity c ip s).1 = Some b → b = mkBinding rid role c.
Proof.
  pose proof (register_run cfg t role rid pk sig_ok identity c ip s) as H.
  destruct (admit_claim cfg t rid pk sig_ok ip s) as [[] s1]; rewrite H; cbn; congruence.
Qed.

Lemma on_data_session env packet x s :
  ss_conn (on_data cfg env packet x s).1 = ss_conn x ∧ ss_binding (on_data cfg env packet x s).1 = ss_binding x.
Proof.
  unfold on_data. destruct (ss_binding x) as [b|] eqn:E; [|done]. destruct (_ =? _); [|done].
  destruct (match ss_gate_denied_until x with Some _ => _ | None => _ end); [done|]. by destruct (relay_data _ _ _ _ _) as [[] ?].
Qed.

Lemma on_frame_session env frame x s x' :
  (on_frame cfg stun_port env frame x s).1 = Some x' → ss_conn x' = ss_conn x ∧ ss_binding x' = ss_binding x.
Proof.
  unfold on_frame. destruct (_ && _).
  - destruct (ClientMsg_decode frame) as [[| | | | | | |p|]|]; try done. pose proof (on_data_session env p x s) as H.
    destruct (on_data cfg env p x s). cbn in *. by intros [= <-].
  - destruct (take_msg_token cfg (ss_bucket x) (now env)) as [[] bk]; cbn [negb]; [|by intros [= <-]].
    destruct (ClientMsg_decode frame) as [m|]; [|done]. destruct m; cbn; try done; by intros [= <-].
Qed.

(** A session's binding names the session. *)
Lemma session_bound x b : session_of x → ss_binding x = Some b → b_conn b = ss_conn x.
Proof.
  intros H. revert b. induction H as [env version c ip cl registered s|env frame x x' s _ IH Hf]; intros b.
  - unfold establish. destruct cl as [cl|]; [|done].
    pose proof (register_binding (now env) (cl_role cl) (cl_rid cl) (cl_pk cl) (cl_sig_ok cl) (cl_identity cl) c ip s) as H.
    destruct (register _ _ _ _ _ _ _ _ _ _) as [o s1]. cbn in *. intros ->. by rewrite (H _ eq_refl).
  - destruct (on_frame_session _ _ _ _ _ Hf) as [-> ->]. apply IH.
Qed.

(** What a session may write to: its own queue, and that of the session seated
    opposite to it. *)
Definition within_reach (x : Session) (s : Shared) (d : nat) : Prop :=
  d = ss_conn x ∨ ∃ b, ss_binding x = Some b ∧ opposite b s d.

Lemma at_owned b e s d :
  ids s !! b_rid b = Some e → owns e b = true → at_id (b_rid b) s d → d = b_conn b ∨ opposite b s d.
Proof.
  intros He Ho (e' & r & sl & He' & Hs & Hd). simplify_eq. destruct (role_cases (b_role b) r) as [->| ->].
  - left. destruct (owns_slot _ _ Ho) as (sl' & ? & ?). congruence.
  - right. exists e, sl. by split_and!.
Qed.

Lemma bound_sends x b s s' :
  b_conn b = ss_conn x → ss_binding x = Some b → sends cfg (at_id (b_rid b) s) s s' →
  s' = s ∨ (∃ e, ids s !! b_rid b = Some e ∧ owns e b = true) → sends cfg (within_reach x s) s s'.
Proof.
  intros Hc Hb Hs [->|(e & He & Ho)]; [by apply sends_same|]. eapply sends_mono; [|exact Hs].
  intros d [->|Hd]%(at_owned _ _ _ _ He Ho); [by left|right; eauto].
Qed.

Lemma on_message_sends env m x s :
  (∀ b, ss_binding x = Some b → b_conn b = ss_conn x) →
  sends cfg (within_reach x s) s (on_message cfg stun_port env m x s).2.
Proof.
  intros Hb. assert (within_reach x s (ss_conn x)) as Hme by (by left).
  assert (∀ f, (∀ b, sends cfg (at_id (b_rid b) s) s (f b s) ∧ (f b s = s ∨ ∃ e, ids s !! b_rid b = Some e ∧ owns e b = true)) →
    sends cfg (within_reach x s) s (with_binding x f s)) as Hf.
  { intros f Hf. unfold with_binding. destruct (ss_binding x) as [b|] eqn:E; [|by apply sends_same].
    destruct (Hf b). by apply (bound_sends _ b); [apply Hb| | |]. }
  destruct m; cbn [on_message snd]; try (by apply sends_same).
  - by apply send_sends.
  - apply Hf. intros b. split; [apply forward_sends|]. unfold forward. destruct (_ || _); [by left|].
    destruct (ids s !! b_rid b) as [e|]; [|by left]. destruct (owns e b) eqn:Eo; [right; eauto|by left].
  - apply Hf. intros b. split; [apply candidates_sends|]. unfold set_candidates. destruct (_ || _); [by left|].
    destruct (ids s !! b_rid b) as [e|]; [|by left]. destruct (owns e b) eqn:Eo; [right; eauto|by left].
  - apply Hf. intros b. split; [apply punch_request_sends|]. unfold punch_request.
    destruct (ids s !! b_rid b) as [e|]; [|by left]. destruct (owns e b) eqn:Eo; [right; eauto|by left].
  - eapply sends_mono; [|apply credential_sends]. by intros d ->.
Qed.

Lemma on_data_sends env packet x s : sends cfg (within_reach x s) s (on_data cfg env packet x s).2.
Proof.
  unfold on_data. destruct (ss_binding x) as [b|] eqn:E; [|by apply sends_same]. destruct (_ =? _); [|by apply sends_same].
  destruct (match ss_gate_denied_until x with Some _ => _ | None => _ end).
  - apply sends_same. cbn [snd]. by rewrite spend_ip_qstate.
  - pose proof (relay_data_sends cfg (now env) b packet s) as Hs.
    eapply sends_mono; [|by destruct (relay_data _ _ _ _ _) as [[] ?]]. intros d Hd. right. eauto.
Qed.

Lemma on_frame_sends env frame x s :
  (∀ b, ss_binding x = Some b → b_conn b = ss_conn x) →
  sends cfg (within_reach x s) s (on_frame cfg stun_port env frame x s).2.
Proof.
  intros Hb. unfold on_frame. destruct (_ && _).
  - destruct (ClientMsg_decode frame) as [[| | | | | | |p|]|]; try (by apply sends_same).
    pose proof (on_data_sends env p x s) as H. by destruct (on_data cfg env p x s).
  - destruct (take_msg_token cfg (ss_bucket x) (now env)) as [[] bk]; cbn [negb]; [|by apply sends_same].
    destruct (ClientMsg_decode frame) as [m|]; [|by apply sends_same].
    by apply (on_message_sends env m (with_session x (ss_cred_user x) bk (now env + idle_timeout cfg) (ss_gate_denied_until x))).
Qed.

Lemma on_message_move env m x s : relays_move cfg s (on_message cfg stun_port env m x s).2.
Proof.
  assert (∀ f, (∀ b, still s (f b s)) → relays_move cfg s (with_binding x f s)) as Hf.
  { intros f Hf. unfold with_binding. destruct (ss_binding x); [by apply still_move|done]. }
  destruct m; cbn [on_message snd]; try done.
  - apply still_move, send_still.
  - apply Hf. intros. apply forward_still.
  - apply Hf. intros. apply candidates_still.
  - apply Hf. intros. apply punch_request_still.
  - apply still_move, credential_still.
Qed.

Lemma on_data_move env packet x s : relays_move cfg s (on_data cfg env packet x s).2.
Proof.
  unfold on_data. destruct (ss_binding x) as [b|] eqn:E; [|by apply still_move]. destruct (_ =? _); [|by apply still_move].
  destruct (match ss_gate_denied_until x with Some _ => _ | None => _ end).
  - apply still_move. etrans; [|apply spend_ip_still]. done.
  - pose proof (relay_data_move cfg (now env) b packet s) as Hs. by destruct (relay_data _ _ _ _ _) as [[] ?].
Qed.

Lemma on_frame_move env frame x s : relays_move cfg s (on_frame cfg stun_port env frame x s).2.
Proof.
  unfold on_frame. destruct (_ && _).
  - destruct (ClientMsg_decode frame) as [[| | | | | | |p|]|]; try done.
    pose proof (on_data_move env p x s) as H. by destruct (on_data cfg env p x s).
  - destruct (take_msg_token cfg (ss_bucket x) (now env)) as [[] bk]; cbn [negb]; [|done].
    destruct (ClientMsg_decode frame) as [m|]; [|done]. apply on_message_move.
Qed.

(** C31: Whatever frames a session sends, at any point of its life, it adds to no
    other session's queue than the one seated opposite to it, at the very id and
    role it signed for, and only while it holds its own seat; and no frame
    changes who is connected, who sits where, an id's key or anybody's
    classification. *)
Theorem frames_reach_peer_only env frame x s r s' :
  session_of x → on_frame cfg stun_port env frame x s = (r, s') →
  quiet s s' ∧
  ∀ d, d ≠ ss_conn x → (∀ b, ss_binding x = Some b → ¬ opposite b s d) → outs s' !! d = outs s !! d.
Proof.
  intros Hx Hf. assert (s' = (on_frame cfg stun_port env frame x s).2) as -> by (by rewrite Hf).
  split; [apply on_frame_move|]. intros d Hd Ho. eapply sends_other; [apply on_frame_sends|].
  - intros b. by apply session_bound.
  - intros [->|(b & Hb & Hop)]; [done|by eapply Ho].
Qed.

(** ** Decoys *)

Context (epoch : Z) (hmac : bytes → bytes → bytes).

(** What a client can do once registered: send a frame, or a STUN packet from any
    address. *)
Inductive Event := Frame (frame : bytes) | Probe (src : SocketAddr) (packet : bytes).

Definition names (user : string) (packet : bytes) : bool :=
  match Stun.parse_request packet with Some req => bool_decide (Stun.username req = user) | None => false end.

(** The session after an event, the STUN answer, and the relay after it.  A packet
    that does not name the credential the client was given takes a token of its
    source and gets no answer: it names no credential, or one whose password the
    client does not have. *)
Definition react (env : Env) (ev : Event) (x : Session) (s : Shared) : option Session * option bytes * Shared :=
  match ev with
  | Frame frame => let '(r, s) := on_frame cfg stun_port env frame x s in (r, None, s)
  | Probe src packet =>
    if names (ss_cred_user x) packet then
      let '(answer, s) := on_stun cfg hmac (now env) (unix_ms env) (nonce env) src packet s in (Some x, answer, s)
    else (Some x, None, set_stun_limiter (λ _, (allow (now env) (sa_ip src) (stun_limiter s)).2) s)
  end.

Fixpoint reacts (evs : list (Env * Event)) (x : Session) (s : Shared) : option Session * list (option bytes) * Shared :=
  match evs with
  | [] => (Some x, [], s)
  | (env, ev) :: evs =>
    let '(r, answer, s) := react env ev x s in
    match r with
    | Some x => let '(r, answers, s) := reacts evs x s in (r, answer :: answers, s)
    | None => (None, [answer], s)
    end
  end.

Definition unbound (x : Session) : Session :=
  mkSession (ss_conn x) (ss_ip x) (ss_version x) None (ss_cred_user x) (ss_bucket x) (ss_alive_until x) (ss_gate_denied_until x).
Definition unclassed : SessionMeta → SessionMeta := set_m_class (λ _, CLASS_UNAUTH).

(** Nobody sits opposite to the owner of [b]. *)
Definition lonely (b : Binding) (s : Shared) : Prop :=
  ∀ e, ids s !! b_rid b = Some e → slot e (Role_other (b_role b)) = None.

(** A decoy session [unbound x] in [s1], and in [s2] the same session with a
    seat of its own. *)
Record alike (x : Session) (b : Binding) (s1 s2 : Shared) : Prop := {
  al_bound : ss_binding x = Some b;
  al_queues : qstate s1 = qstate s2;
  al_limits : stun_limiter s1 = stun_limiter s2 ∧ stun_global s1 = stun_global s2;
  al_cred : ∃ password expires bucket,
    creds s1 !! ss_cred_user x = Some (mkCred password expires None bucket) ∧
    creds s2 !! ss_cred_user x = Some (mkCred password expires (Some b) bucket);
  al_meta : unclassed <$> metas s1 !! ss_conn x = unclassed <$> metas s2 !! ss_conn x;
  al_class : class_of (ss_conn x) s1 ≠ CLASS_PAIRED ∧ class_of (ss_conn x) s2 ≠ CLASS_PAIRED;
  al_lonely : lonely b s2;
}.

(** *** Operations of a lonely peer *)

Lemma forward_lonely b blob s : lonely b s → forward cfg b blob s = s.
Proof.
  intros Hl. unfold forward. destruct (_ || _); [done|]. destruct (ids s !! b_rid b) as [e|] eqn:E; [|done].
  destruct (negb _); [done|]. by rewrite (Hl e E).
Qed.

Lemma announce_lonely b s : lonely b s → announce_online cfg b s = s.
Proof.
  intros Hl. unfold announce_online. destruct (ids s !! b_rid b) as [e|] eqn:E; [|done]. rewrite (Hl e E).
  by destruct (slot e (b_role b)).
Qed.

Lemma try_punch_lonely t ums n b s : lonely b s → try_punch cfg t ums n (b_rid b) s = s.
Proof.
  intros Hl. unfold try_punch. destruct (ids s !! b_rid b) as [e|] eqn:E; [|done]. specialize (Hl e E).
  destruct (b_role b); cbn in Hl; rewrite Hl; [by destruct (e_box e)|done].
Qed.

(** The entry of a lonely peer may be rewritten. *)
Definition touched (b : Binding) (s s' : Shared) : Prop :=
  s' = s ∨ ∃ e, s' = set_ids (<[b_rid b := e]>) s ∧ slot e (Role_other (b_role b)) = None.

Lemma touched_punch t ums n b f e s :
  lonely b s → ids s !! b_rid b = Some e →
  touched b s (try_punch cfg t ums n (b_rid b) (set_ids (<[b_rid b := set_slot (b_role b) (fmap f) e]>) s)).
Proof.
  intros Hl He. specialize (Hl e He). right. exists (set_slot (b_role b) (fmap f) e).
  assert (slot (set_slot (b_role b) (fmap f) e) (Role_other (b_role b)) = None) as Hs by (by destruct (b_role b)).
  split; [|done]. apply try_punch_lonely. intros e'. cbn. rewrite lookup_insert_eq. by intros [= <-].
Qed.

Lemma candidates_lonely t ums n b blob s : lonely b s → touched b s (set_candidates cfg t ums n b blob s).
Proof.
  intros Hl. unfold set_candidates. destruct (_ || _); [by left|]. destruct (ids s !! b_rid b) as [e|] eqn:E; [|by left].
  destruct (negb _); [by left|]. by apply touched_punch.
Qed.

Lemma see_public_lonely t ums n b src s : lonely b s → touched b s (see_public cfg t ums n b src s).
Proof.
  intros Hl. unfold see_public. destruct (ids s !! b_rid b) as [e|] eqn:E; [|by left]. destruct (negb _); [by left|].
  destruct (match slot e (b_role b) with Some _ => _ | None => _ end); [by left|]. by apply touched_punch.
Qed.

Lemma punch_request_lonely t ums n b s : lonely b s → punch_request cfg t ums n b s = s.
Proof.
  intros Hl. unfold punch_request. destruct (ids s !! b_rid b) as [e|] eqn:E; [|done].
  destruct (owns e b); [by apply try_punch_lonely|done].
Qed.

(** *** The simulation *)

Lemma alike_touched x b s1 s2 s2' : touched b s2 s2' → alike x b s1 s2 → alike x b s1 s2'.
Proof.
  intros [->|(e & -> & He)] Ha; [done|]. destruct Ha. split; try done.
  intros e'. cbn. rewrite lookup_insert_eq. by intros [= <-].
Qed.

Lemma push_rest c d p s :
  let s' := (push cfg c d p s).2 in
  ids s' = ids s ∧ metas s' = metas s ∧ creds s' = creds s ∧ stun_limiter s' = stun_limiter s ∧ stun_global s' = stun_global s.
Proof. cbv zeta. unfold push. repeat case_match; done. Qed.

Lemma alike_send x b c m s1 s2 : alike x b s1 s2 → alike x b (send cfg c m s1) (send cfg c m s2).
Proof.
  intros [H1 H2 H3 H4 H5 H6 H7]. unfold send.
  destruct (push_rest c false (ServerMsg_encode m) s1) as (A1 & A2 & A3 & A4 & A5).
  destruct (push_rest c false (ServerMsg_encode m) s2) as (B1 & B2 & B3 & B4 & B5).
  split; unfold class_of, lonely; rewrite ?A2, ?A3, ?A4, ?A5, ?B1, ?B2, ?B3, ?B4, ?B5; try done.
  by rewrite !push_qstate, H2.
Qed.

Lemma alike_session x x' b s1 s2 :
  ss_conn x' = ss_conn x → ss_binding x' = ss_binding x → ss_cred_user x' = ss_cred_user x → alike x b s1 s2 → alike x' b s1 s2.
Proof. intros E1 E2 E3 []. split; rewrite ?E1, ?E2, ?E3; done. Qed.

Lemma alike_credential t u p x x' b s1 s2 prev :
  ss_conn x' = ss_conn x → ss_binding x' = ss_binding x → ss_cred_user x' = u → alike x b s1 s2 →
  alike x' b (issue_credential cfg stun_port t u p None (ss_conn x) prev s1)
    (issue_credential cfg stun_port t u p (Some b) (ss_conn x) prev s2).
Proof.
  intros E1 E2 E3 [H1 H2 H3 H4 H5 H6 H7]. unfold issue_credential. apply alike_send.
  split; rewrite ?E1, ?E2, ?E3; try done. cbn. rewrite !lookup_insert_eq. eauto.
Qed.

Lemma alike_message env m x b s1 s2 :
  alike x b s1 s2 →
  let r1 := on_message cfg stun_port env m (unbound x) s1 in
  let r2 := on_message cfg stun_port env m x s2 in
  match r2.1 with
  | Some x' => r1.1 = Some (unbound x') ∧ alike x' b r1.2 r2.2
  | None => r1.1 = None ∧ alike x b r1.2 r2.2
  end.
Proof.
  intros Ha. pose proof (al_lonely _ _ _ _ Ha) as Hl. pose proof (al_bound _ _ _ _ Ha) as Hb.
  unfold on_message, with_binding. destruct m; cbn [fst snd ss_binding ss_conn ss_cred_user unbound]; rewrite ?Hb; split; try done.
  - by apply alike_send.
  - by rewrite forward_lonely.
  - eapply alike_touched; [by apply candidates_lonely|done].
  - by rewrite punch_request_lonely.
  - by apply alike_credential.
Qed.

Lemma alike_data env p x b s1 s2 :
  alike x b s1 s2 →
  let r1 := on_data cfg env p (unbound x) s1 in
  let r2 := on_data cfg env p x s2 in
  r1.1 = unbound r2.1 ∧ alike r2.1 b r1.2 r2.2.
Proof.
  intros Ha. pose proof (al_bound _ _ _ _ Ha) as Hb. destruct (al_class _ _ _ _ Ha) as [_ Hc].
  unfold on_data. cbn [ss_binding unbound]. rewrite Hb. apply Z.eqb_neq in Hc. rewrite Hc. cbn [fst snd].
  split; [done|]. apply (alike_session x); [done..|]. destruct Ha. by split.
Qed.

Lemma alike_frame env frame x b s1 s2 :
  alike x b s1 s2 →
  let r1 := on_frame cfg stun_port env frame (unbound x) s1 in
  let r2 := on_frame cfg stun_port env frame x s2 in
  match r2.1 with
  | Some x' => r1.1 = Some (unbound x') ∧ alike x' b r1.2 r2.2
  | None => r1.1 = None ∧ alike x b r1.2 r2.2
  end.
Proof.
  intros Ha. cbv zeta. unfold on_frame. cbn [ss_version ss_bucket unbound]. destruct (_ && _).
  - destruct (ClientMsg_decode frame) as [[| | | | | | |p|]|]; try done.
    destruct (alike_data env p x b s1 s2 Ha) as [H1 H2].
    destruct (on_data cfg env p (unbound x) s1) as [x1 t1], (on_data cfg env p x s2) as [x2 t2]. cbn in *. by subst.
  - destruct (take_msg_token cfg (ss_bucket x) (now env)) as [[] bk]; cbn [negb].
    + destruct (ClientMsg_decode frame) as [m|]; [|by split].
      set (x' := with_session x (ss_cred_user x) bk (now env + idle_timeout cfg) (ss_gate_denied_until x)).
      assert (alike x' b s1 s2) as Ha' by (by apply (alike_session x)).
      set (r1 := on_message cfg stun_port env m (unbound x') s1). set (r2 := on_message cfg stun_port env m x' s2).
      assert (match r2.1 with Some y => r1.1 = Some (unbound y) ∧ alike y b r1.2 r2.2 | None => r1.1 = None ∧ alike x' b r1.2 r2.2 end)
        as H by (by apply alike_message).
      change (match r2.1 with Some y => r1.1 = Some (unbound y) ∧ alike y b r1.2 r2.2 | None => r1.1 = None ∧ alike x b r1.2 r2.2 end).
      destruct r2.1; [done|]. destruct H as [? H]. split; [done|]. by apply (alike_session x').
    + cbn. split; [done|]. by apply (alike_session x).
Qed.

(** The relay's answer to a STUN packet does not tell the two apart. *)
Lemma alike_stun t ums n src packet x b s1 s2 :
  names (ss_cred_user x) packet = true → alike x b s1 s2 →
  let r1 := on_stun cfg hmac t ums n src packet s1 in
  let r2 := on_stun cfg hmac t ums n src packet s2 in
  r1.1 = r2.1 ∧ alike x b r1.2 r2.2.
Proof.
  unfold names. intros Hn [H1 H2 [H3 H4] (pw & ex & bk & C1 & C2) H5 H6 H7].
  destruct (Stun.parse_request packet) as [req|] eqn:Ep; [|done]. apply bool_decide_eq_true in Hn.
  cbv zeta. unfold on_stun. rewrite H3, Ep. destruct (allow t (sa_ip src) (stun_limiter s2)) as [[] l]; cbn [negb].
  2:{ split; [done|]. split; try done. eauto. }
  cbn [creds set_stun_limiter]. rewrite Hn, C1, C2. cbn [c_expires c_password c_bucket c_bind].
  destruct (ex <=? t); [split; [done|]; split; try done; eauto|].
  destruct (negb (Stun.verify hmac req (as_bytes pw))); [split; [done|]; split; try done; eauto|].
  destruct (bucket_take t (stun_rate_per_cred cfg) _ _ bk) as [[] bk']; cbn [negb].
  2:{ split; [done|]. split; try done. cbn. rewrite !lookup_insert_eq. eauto. }
  cbn [stun_global set_creds set_stun_limiter]. rewrite H4.
  destruct (bucket_take t (stun_rate_global cfg) _ _ _) as [[] g]; cbn [negb].
  2:{ split; [done|]. split; try done. cbn. rewrite !lookup_insert_eq. eauto. }
  cbn [fst snd]. split; [done|]. eapply alike_touched; [by apply see_public_lonely|].
  split; try done. cbn. rewrite !lookup_insert_eq. eauto.
Qed.

Lemma alike_react env ev x b s1 s2 :
  alike x b s1 s2 →
  let r1 := react env ev (unbound x) s1 in
  let r2 := react env ev x s2 in
  r1.1.2 = r2.1.2 ∧
  match r2.1.1 with
  | Some x' => r1.1.1 = Some (unbound x') ∧ alike x' b r1.2 r2.2
  | None => r1.1.1 = None ∧ alike x b r1.2 r2.2
  end.
Proof.
  intros Ha. cbv zeta. destruct ev as [frame|src packet]; cbn [react].
  - pose proof (alike_frame env frame x b s1 s2 Ha) as H.
    destruct (on_frame cfg stun_port env frame (unbound x) s1), (on_frame cfg stun_port env frame x s2). by split.
  - change (ss_cred_user (unbound x)) with (ss_cred_user x). destruct (names (ss_cred_user x) packet) eqn:En.
    2:{ split; [done|]. split; [done|]. destruct Ha as [H1 H2 [H3 H4] H5 H6 H7 H8]. split; try done. cbn. by rewrite H3. }
    destruct (alike_stun (now env) (unix_ms env) (nonce env) src packet x b s1 s2 En Ha) as [H1 H2].
    destruct (on_stun _ _ _ _ _ _ _ s1), (on_stun _ _ _ _ _ _ _ s2). by split.
Qed.

Lemma alike_reacts evs x b s1 s2 :
  alike x b s1 s2 →
  let r1 := reacts evs (unbound x) s1 in
  let r2 := reacts evs x s2 in
  r1.1.2 = r2.1.2 ∧ r1.1.1 = unbound <$> r2.1.1 ∧ ∃ x', ss_conn x' = ss_conn x ∧ alike x' b r1.2 r2.2.
Proof.
  revert x s1 s2. induction evs as [|[env ev] evs IH]; intros x s1 s2 Ha; [cbn; split_and!; [done..|by exists x]|].
  pose proof (alike_react env ev x b s1 s2 Ha) as H. cbn [reacts].
  assert (∀ x', (react env ev x s2).1.1 = Some x' → ss_conn x' = ss_conn x) as Hc.
  { intros x'. destruct ev as [frame|src packet]; cbn [react].
    - pose proof (on_frame_session env frame x s2 x') as Hf. destruct (on_frame cfg stun_port env frame x s2). intros ?. by apply Hf.
    - destruct (names _ _); [destruct (on_stun _ _ _ _ _ _ _ s2)|]; by intros [= <-]. }
  destruct (react env ev (unbound x) s1) as [[r1 a1] t1], (react env ev x s2) as [[r2 a2] t2]. cbn [fst snd] in *.
  destruct H as [-> H]. destruct r2 as [x'|]; destruct H as [-> H]; [|cbn; split_and!; [done..|by exists x]].
  destruct (IH _ _ _ H) as (E1 & E2 & y & Hy & Ey).
  destruct (reacts evs (unbound x') t1) as [[q1 as1] u1], (reacts evs x' t2) as [[q2 as2] u2]. cbn [fst snd] in *.
  split; [by rewrite E1|]. split; [done|]. exists y. split; [|done]. rewrite Hy. by apply Hc.
Qed.

(** *** The handshake *)

(** The outcome of a claim: a binding, or a decoy. *)
Definition registration (env : Env) (c : nat) (ip : IpAddr) (cl : option Claim) (s : Shared) : option Binding * Shared :=
  match cl with
  | Some cl => register cfg (now env) (cl_role cl) (cl_rid cl) (cl_pk cl) (cl_sig_ok cl) (cl_identity cl) c ip s
  | None => (None, s)
  end.

(** What registration leaves of the state a session sees. *)
Definition unseen (c : nat) (m : SessionMeta) (class : Z) (s s' : Shared) : Prop :=
  qstate s' = qstate s ∧ (creds s', stun_limiter s', stun_global s') = (creds s, stun_limiter s, stun_global s) ∧
  metas s' !! c = Some (set_m_class (λ _, class) m).

Lemma refused_unseen env c ip cl m s s' :
  metas s !! c = Some m → m_class m = CLASS_UNAUTH → registration env c ip cl s = (None, s') →
  unseen c m CLASS_UNAUTH s s'.
Proof.
  intros Hm Hc Hr. assert (set_m_class (λ _, CLASS_UNAUTH) m = m) as Em by (destruct m; cbn in *; by subst).
  destruct cl as [cl|]; cbn in Hr; [|simplify_eq; split_and!; [done..|by rewrite Em]].
  pose proof (register_run cfg (now env) (cl_role cl) (cl_rid cl) (cl_pk cl) (cl_sig_ok cl) (cl_identity cl) c ip s) as Hrun.
  destruct (admit_claim_tables cfg (now env) (cl_rid cl) (cl_pk cl) (cl_sig_ok cl) ip s) as [l Ht].
  destruct (admit_claim cfg (now env) (cl_rid cl) (cl_pk cl) (cl_sig_ok cl) ip s) as [[] s1]; rewrite Hr in Hrun; simplify_eq.
  cbn [snd] in Ht. rewrite Ht. split_and!; [done..|]. by rewrite Em.
Qed.

(** The first session of an id whose other seat is empty. *)
Lemma take_seat_alone role rid c e m s :
  metas s !! c = Some m → slot e (Role_other role) = None →
  (∀ o, ids s !! rid ≫= (λ e, slot e role) = Some o → sl_conn o ≠ c) →
  metas (take_seat role rid c e s) !! c = Some (set_m_class (λ _, CLASS_ALONE) m).
Proof.
  intros Hm He Ho. unfold take_seat. rewrite He. cbn [set_class metas set_ids set_metas]. rewrite lookup_alter_eq.
  destruct (ids s !! rid ≫= (λ e, slot e role)) as [o|]; cbn; [|by rewrite Hm].
  rewrite lookup_alter_ne by (by apply Ho). by rewrite Hm.
Qed.

Lemma accepted_unseen td pv env c cl m s b s' :
  inv cfg td pv s → c ∉ td → metas s !! c = Some m → registration env c (m_ip m) (Some cl) s = (Some b, s') → lonely b s →
  unseen c m CLASS_ALONE s s' ∧ lonely b s'.
Proof.
  intros Hi Hc Hm Hr Hl. cbn in Hr.
  destruct (register_facts _ _ _ _ _ _ _ _ _ _ _ _ _ _ Hi Hr) as (_ & (-> & (e & He & _ & _ & Hpeer) & _) & _).
  assert (ids s !! cl_rid cl ≫= (λ e, slot e (Role_other (cl_role cl))) = None) as Hnone.
  { destruct (ids s !! cl_rid cl) as [e0|] eqn:E; [|done]. exact (Hl e0 E). }
  split; [|intros e' He'; cbn in *; rewrite He in He'; simplify_eq; congruence].
  destruct (register_tasks cfg (now env) (cl_role cl) (cl_rid cl) (cl_pk cl) (cl_sig_ok cl) (cl_identity cl) c (m_ip m) s)
    as (_ & _ & _ & T4 & T5). rewrite Hr in T4, T5. split; [done|]. split; [done|]. clear T4 T5.
  pose proof (register_run cfg (now env) (cl_role cl) (cl_rid cl) (cl_pk cl) (cl_sig_ok cl) (cl_identity cl) c (m_ip m) s) as Hrun.
  destruct (admit_claim_tables cfg (now env) (cl_rid cl) (cl_pk cl) (cl_sig_ok cl) (m_ip m) s) as [l Ht].
  destruct (admit_claim cfg (now env) (cl_rid cl) (cl_pk cl) (cl_sig_ok cl) (m_ip m) s) as [[] s1] eqn:Ea;
    rewrite Hr in Hrun; [|done]. injection Hrun as ->. cbn [snd] in Ht.
  destruct (admit_claim_spec _ _ _ _ _ _ _ _ _ _ _ Hi Ea) as (Hi1 & _).
  rewrite (take_seat_ids cfg), lookup_insert_eq in He. injection He as He. apply take_seat_alone.
  - rewrite Ht. exact Hm.
  - by rewrite He, Hpeer.
  - intros o Ho <-. destruct (ids s1 !! cl_rid cl) as [e1|] eqn:E1; [|done]. cbn in Ho. apply Hc.
    apply (se_tried _ _ _ _ (inv_seats _ _ _ _ Hi1) (cl_rid cl) (peers e1) (cl_role cl) _ (sl_ip o)).
    + by rewrite lookup_fmap, E1.
    + by rewrite p_seat_peers, Ho.
Qed.

Lemma alike_start u p t alive version c ip m b prev s1 s2 s :
  unseen c m CLASS_UNAUTH s s1 → unseen c m CLASS_ALONE s s2 → lonely b s2 →
  let x := mkSession c ip version (Some b) u (msg_burst cfg, t) alive None in
  alike x b (issue_credential cfg stun_port t u p None c prev s1) (issue_credential cfg stun_port t u p (Some b) c prev s2).
Proof.
  intros (Q1 & R1 & M1) (Q2 & R2 & M2) Hl x. unfold issue_credential. apply alike_send.
  injection R1 as _ L1 G1. injection R2 as _ L2 G2. split; try done.
  - change (qstate s1 = qstate s2). by rewrite Q1, Q2.
  - cbn. by rewrite L1, L2, G1, G2.
  - cbn. rewrite !lookup_insert_eq. eauto.
  - cbn. by rewrite M1, M2.
  - unfold class_of. cbn. rewrite M1, M2. by split.
Qed.

(** C30: While it is not evicted, a client cannot tell whether the relay
    accepted its claim as long as its partner is offline. From any reachable
    state, a fresh session is established twice, with the same answer to whether
    its identity is registered (which the relay tells it in any case), and then
    runs alone: with a claim the relay refuses (a wrong key, a bad signature, a
    malformed handshake, no budget) and with one it accepts at an id whose other
    seat is empty. Whatever frames it then sends, and whatever STUN packets,
    with the credential it was given or without, the bytes queued for it, the
    STUN answers, the point where the session ends and the time the sweep ends
    it are the same. The evictions of a full connection table, which other
    connections force and which take decoys first, do tell them apart
    ([decoy_evicted_first]). *)
Theorem decoy_indistinguishable t0 registered0 w env version c m cl_bad cl_good registered b evs :
  rtc (step cfg epoch) (start cfg t0 registered0) w →
  metas (sh w) !! c = Some m → c ∉ tried w → m_class m = CLASS_UNAUTH →
  (registration env c (m_ip m) cl_bad (sh w)).1 = None →
  (registration env c (m_ip m) (Some cl_good) (sh w)).1 = Some b → lonely b (sh w) →
  let decoy := establish cfg stun_port env version c (m_ip m) cl_bad registered (sh w) in
  let peer := establish cfg stun_port env version c (m_ip m) (Some cl_good) registered (sh w) in
  let rd := reacts evs decoy.1 decoy.2 in
  let rp := reacts evs peer.1 peer.2 in
  rd.1.2 = rp.1.2 ∧ outs rd.2 !! c = outs rp.2 !! c ∧ rd.1.1 = unbound <$> rp.1.1 ∧
  ∀ t, outlived epoch t <$> metas rd.2 !! c = outlived epoch t <$> metas rp.2 !! c.
Proof.
  intros Hr%reachable_winv Hm Hc Hcl Hbad Hgood Hl. pose proof (wi_inv _ _ Hr) as Hi.
  cbv zeta. unfold establish. fold (registration env c (m_ip m) cl_bad (sh w)).
  fold (registration env c (m_ip m) (Some cl_good) (sh w)).
  destruct (registration env c (m_ip m) cl_bad (sh w)) as [b1 s1] eqn:E1.
  destruct (registration env c (m_ip m) (Some cl_good) (sh w)) as [b2 s2] eqn:E2. cbn [fst] in *. subst b1 b2.
  pose proof (refused_unseen _ _ _ _ _ _ _ Hm Hcl E1) as H1.
  destruct (accepted_unseen _ _ _ _ _ _ _ _ _ Hi Hc Hm E2 Hl) as [H2 Hl2].
  set (x := mkSession c (m_ip m) version (Some b) (new_username env) (msg_burst cfg, now env) (now env + idle_timeout cfg) None).
  pose proof (alike_start (new_username env) (new_password env) (now env) (now env + idle_timeout cfg) version c (m_ip m) m b None
    _ _ _ H1 H2 Hl2) as Ha. cbv zeta in Ha. fold x in Ha.
  set (u1 := issue_credential _ _ _ _ _ None _ _ s1) in *. set (u2 := issue_credential _ _ _ _ _ (Some b) _ _ s2) in *.
  set (v1 := if 3 <=? version then send cfg c _ u1 else u1). set (v2 := if 3 <=? version then send cfg c _ u2 else u2).
  assert (alike x b v1 v2) as Hv by (subst v1 v2; destruct (3 <=? version); [by apply alike_send|done]).
  rewrite (announce_lonely b v2) by apply Hv. cbn [fst snd]. fold x. change (mkSession c (m_ip m) version None _ _ _ None) with (unbound x).
  destruct (alike_reacts evs x b v1 v2 Hv) as (A1 & A2 & x' & Hx & [_ Q _ _ M [K1 K2] _]).
  split; [done|]. split; [by injection Q as ->|]. split; [done|]. intros t. rewrite Hx in *. cbn [ss_conn x] in *.
  unfold class_of in K1, K2. destruct (metas (reacts evs (unbound x) v1).2 !! c) as [m1|], (metas (reacts evs x v2).2 !! c) as [m2|]; try done.
  cbn. unfold outlived. apply Z.eqb_neq in K1, K2. rewrite K1, K2. injection M as _ M1 M2 M3 M4. by rewrite M2, M3.
Qed.
End sessions.

(** ** Witnesses *)

Definition demo_env : Env := mkEnv 50 60 "user" "pass" (replicate 16 x07).
Definition demo_claim : Claim := mkClaim Device demo_rid demo_pk true None.
Definition demo_hello (cl : option Claim) : Session * Shared :=
  establish RelayConfig_default 3478 demo_env 2 2 (demo_ip 2) cl false (sh (demo_register Box 1 demo_admitted)).
Definition demo_blob : bytes := ClientMsg_encode (Forward (replicate 40 x09)).

(** A stranger's blob does not reach the box; the device's does. *)
Lemma frames_reach_peer_only_witness :
  let stranger := demo_hello None in
  let s' := (on_frame RelayConfig_default 3478 demo_env demo_blob stranger.1 stranger.2).2 in
  outs s' !! 1%nat = outs stranger.2 !! 1%nat ∧
  let device := demo_hello (Some demo_claim) in
  let s' := (on_frame RelayConfig_default 3478 demo_env demo_blob device.1 device.2).2 in
  o_signal <$> outs s' !! 1%nat = Some [ServerMsg_encode PeerOnline; ServerMsg_encode (Forwarded (replicate 40 x09))].
Proof.
  cbv zeta. split; [|vm_compute; reflexivity].
  refine (proj2 (frames_reach_peer_only RelayConfig_default 3478 demo_env demo_blob (demo_hello None).1 (demo_hello None).2 _ _
    _ (surjective_pairing _)) 1%nat _ _).
  - apply session_start.
  - vm_compute. discriminate.
  - intros b Hb. vm_compute in Hb. discriminate.
Defined.

(** The box's claim at an id nobody else is at, and a handshake that is not one. *)
Lemma decoy_indistinguishable_witness :
  let w := demo_admitted in
  let decoy := establish RelayConfig_default 3478 demo_env 2 2 (demo_ip 2) None false (sh w) in
  let peer := establish RelayConfig_default 3478 demo_env 2 2 (demo_ip 2) (Some demo_claim) false (sh w) in
  let evs := [(demo_env, Frame demo_blob); (demo_env, Frame (ClientMsg_encode Ping))] in
  let rd := reacts RelayConfig_default 3478 (λ _ _, []) evs decoy.1 decoy.2 in
  let rp := reacts RelayConfig_default 3478 (λ _ _, []) evs peer.1 peer.2 in
  outs rd.2 !! 2%nat = outs rp.2 !! 2%nat ∧ length <$> (o_signal <$> outs rp.2 !! 2%nat) = Some 2%nat.
Proof.
  cbv zeta. split; [|vm_compute; reflexivity].
  refine (proj1 (proj2 (decoy_indistinguishable RelayConfig_default 3478 0 (λ _ _, []) 0 ∅ demo_admitted demo_env 2 2
    (new_meta RelayConfig_default 0 5 7 (demo_ip 2)) None demo_claim false (mkBinding demo_rid Device 2) _ demo_admitted_reached _ _ _ _ _ _))).
  - vm_compute. reflexivity.
  - set_solver.
  - reflexivity.
  - reflexivity.
  - vm_compute. reflexivity.
  - intros e He. vm_compute in He. discriminate.
Defined.

(** ** What the relay does not promise *)

(** A full table drops a decoy before a peer that waits for its partner, though
    the peer has been there longer: under a flood of connections the two can be
    told apart. *)
Example decoy_evicted_first :
  let lonely := demo_register Box 1 demo_admitted in
  fst <$> evictee (λ _, true) (sh lonely) = Some 2%nat ∧
  fst <$> evictee (λ _, true) (sh (demo_register Device 2 demo_admitted)) = Some 1%nat.
Proof. split; vm_compute; reflexivity. Qed.

(** A relay that allows one pair per address. *)
Definition one_pair : RelayConfig :=
  let d := RelayConfig_default in
  mkConfig (max_connections d) (max_connections_per_ip d) (max_connections_per_v6_64 d) (conn_rate_per_ip d)
    (conn_burst_per_ip d) (conn_rate_global d) (conn_burst_global d) (stun_rate_per_ip d) (stun_burst_per_ip d)
    (stun_rate_per_cred d) (stun_burst_per_cred d) (stun_rate_global d) (stun_burst_global d) (msg_rate d) (msg_burst d)
    (max_ids d) (id_ttl d) (id_ttl_unpaired d) (new_id_rate_per_ip d) (new_id_burst_per_ip d) (new_id_rate_global d)
    (new_id_burst_global d) (idle_timeout d) (unpaired_max_lifetime d) (unpaired_lifetime_jitter d) (stun_credential_ttl d)
    (punch_lead d) (max_punch_rounds d) (punch_min_interval d) true (relay_rate_per_id d) (relay_burst_per_id d)
    (relay_rate_per_ip d) (relay_burst_per_ip d) (relay_rate_global d) (relay_burst_global d) (relay_max_pairs d) 1 1
    (relay_idle_timeout d) (relay_queue d) (queue_signal_bytes d) (queue_data_bytes d) (queue_global_bytes d) false.

Definition roam_rid (n : Z) : bytes := replicate 32 (byte_of_Z n).

(** Session [c] registers from address [a] for the id [n]. *)
Definition arrive (role : Role) (n : Z) (c a : nat) (s : Shared) : Shared :=
  (register one_pair 1 role (roam_rid n) demo_pk true None c (demo_ip a) (open_outbox c 2 s)).2.
Definition talk (n : Z) (c : nat) (s : Shared) : Shared :=
  (relay_data one_pair 2 (mkBinding (roam_rid n) Device c) [x2a] s).2.

(** Two ids, whose boxes are at addresses 1 and 2: the device of the first starts
    relaying from address 3, comes back from address 4, and the device of the
    second relays from address 4 too. *)
Definition roamed : Shared :=
  let s := arrive Box 2 12 2 (arrive Box 1 11 1 (relay_new one_pair 0 ∅)) in
  let s := talk 1 13 (arrive Device 1 13 3 s) in
  let s := arrive Device 1 14 4 s in
  talk 1 14 (talk 2 15 (arrive Device 2 15 4 s)).

(** The slot of a pair keeps the addresses of the sessions that took it, so one
    address relays two pairs where one is allowed. *)
Example roaming_exceeds_pair_cap :
  relay_max_pairs_per_ip one_pair = 1 ∧
  (∀ n c, (n, c) ∈ [(1, 14%nat); (2, 15%nat)] →
    ∃ e sl h, ids roamed !! roam_rid n = Some e ∧ slot e Device = Some sl ∧ sl_conn sl = c ∧ sl_ip sl = demo_ip 4 ∧
      e_relay e = Some h) ∧
  length <$> (outs roamed !! 11%nat ≫= o_data) = Some 2%nat ∧ length <$> (outs roamed !! 12%nat ≫= o_data) = Some 1%nat.
Proof.
  split; [done|]. split; [|split; vm_compute; reflexivity].
  intros n c [[= -> ->]|[[= -> ->]|[]%not_elem_of_nil]%elem_of_cons]%elem_of_cons.
  all: eexists _, _, _; split; [vm_compute; reflexivity|]; split; [reflexivity|]; split_and!; reflexivity.
Qed.
End ServerSessions.
