(* ===== verification/RelayKeys.v ===== *)
(** * Keys of a pairing

    Models peckboard-relay/src/keys.rs and the signing side of identity.rs: what
    is derived from the pairing secret, the signatures of the handshake, the
    sealed boxes peers exchange through the relay, and the counters that keep a
    box from being accepted twice.  HKDF, Ed25519 and XChaCha20-Poly1305 are the
    operations of the class [Crypto]; [CryptoLaws] is what the code relies on. *)

From S2P Require Import Prelude RelayProto RelayServer.
From Stdlib Require Import Strings.Byte.

Module Keys.
Import Proto Server.

Class Crypto := {
  hkdf : bytes → bytes → bytes → bytes;
  verifying_key : bytes → bytes;
  sign : bytes → bytes → bytes;
  key_from_bytes : bytes → bool;
  is_weak : bytes → bool;
  verify_strict : bytes → bytes → bytes → bool;
  encrypt : bytes → bytes → bytes → bytes → bytes;
  decrypt : bytes → bytes → bytes → bytes → option bytes;
}.

(** A key made from a seed is a valid one and verifies its own signatures; the
    cipher adds its tag and opens what it sealed. *)
Class CryptoLaws (C : Crypto) := {
  hkdf_length salt ikm info : length (hkdf salt ikm info) = 32%nat;
  verifying_key_valid seed : key_from_bytes (verifying_key seed) = true ∧ is_weak (verifying_key seed) = false;
  verifying_key_length seed : length (verifying_key seed) = 32%nat;
  sign_length seed m : length (sign seed m) = 64%nat;
  verify_sign seed m : verify_strict (verifying_key seed) m (sign seed m) = true;
  encrypt_length k n aad p : length (encrypt k n aad p) = (length p + 16)%nat;
  decrypt_encrypt k n aad p : decrypt k n aad (encrypt k n aad p) = Some p;
}.

Definition SECRET_LEN : Z := 32.
Definition HKDF_SALT : bytes := as_bytes "peckboard-relay/v1".
Definition E2E_CONTEXT : bytes := as_bytes "peckrelay/1 e2e".
Definition PAIR_V2_SALT : bytes := as_bytes "peckboard-pair/2".
Definition REPLAY_WINDOW_MS : Z := 120000.
Definition COUNTED_HEADER_LEN : nat := 16.
Definition U64_MAX : Z := 2 ^ 64 - 1.

Record E2eKey := mkE2e { k_key : bytes; k_rid : bytes }.
Record DerivedKeys := mkDerived { d_rendezvous_id : bytes; d_signing : bytes; d_e2e : E2eKey }.
Record ReplayGuard := mkGuard { g_last : option Z }.

(** [MsgCounter] is an atomic number; the counter returned and the next state. *)
Definition next (counter now_us : Z) : Z * Z :=
  let n := Z.max (Z.min (counter + 1) U64_MAX) now_us in (n, n).

Definition abs_diff (a b : Z) : Z := Z.abs (a - b).

Definition accept (counter ts_ms now_ms : Z) (g : ReplayGuard) : bool * ReplayGuard :=
  if REPLAY_WINDOW_MS <? abs_diff ts_ms now_ms then (false, g)
  else if match g_last g with Some l => counter <=? l | None => false end then (false, g)
  else (true, mkGuard (Some counter)).

Definition guard_default : ReplayGuard := mkGuard None.

Section keys.
Context {C : Crypto}.

Definition derive (secret : bytes) : DerivedKeys :=
  let rid := hkdf HKDF_SALT secret (as_bytes "rendezvous-id") in
  let seed := hkdf HKDF_SALT secret (as_bytes "ed25519-seed") in
  let e2e := hkdf HKDF_SALT secret (as_bytes "e2e-xchacha20poly1305") in
  mkDerived rid seed (mkE2e e2e rid).

Definition public_key (d : DerivedKeys) : bytes := verifying_key (d_signing d).

Definition sign_challenge (d : DerivedKeys) (nonce : bytes) (role : Role) (exporter : bytes) : bytes :=
  sign (d_signing d) (auth_message nonce (d_rendezvous_id d) role exporter).

(** [BoxIdentity] is its signing key. *)
Definition identity_public_key (seed : bytes) : bytes := verifying_key seed.
Definition sign_session (seed nonce rid exporter : bytes) : bytes :=
  sign seed (identity_message (identity_public_key seed) nonce rid exporter).

Definition relay_secret (r : bytes) : bytes := hkdf PAIR_V2_SALT r (as_bytes "rendezvous-ikm/1").

Definition aad (k : E2eKey) (sender : Role) (context : bytes) : bytes :=
  E2E_CONTEXT ++ k_rid k ++ [Role_as_u8 sender] ++ context.

(** The nonce is drawn by the caller's random source. *)
Definition seal (k : E2eKey) (nonce : bytes) (sender : Role) (context plaintext : bytes) : bytes :=
  nonce ++ encrypt (k_key k) nonce (aad k sender context) plaintext.

Definition open (k : E2eKey) (sender : Role) (context sealed : bytes) : option bytes :=
  if Z.of_nat (length sealed) <? SEALED_OVERHEAD then None
  else decrypt (k_key k) (firstn (Z.to_nat NONCE_LEN) sealed) (aad k sender context)
         (skipn (Z.to_nat NONCE_LEN) sealed).

Definition seal_counted (k : E2eKey) (nonce : bytes) (sender : Role) (context : bytes) (counter ts_ms : Z)
    (plaintext : bytes) : bytes :=
  seal k nonce sender context (be_bytes 8 counter ++ be_bytes 8 ts_ms ++ plaintext).

Definition open_counted (k : E2eKey) (sender : Role) (context sealed : bytes) (g : ReplayGuard) (now_ms : Z) :
    option bytes * ReplayGuard :=
  match open k sender context sealed with
  | None => (None, g)
  | Some pt =>
    if (length pt <? COUNTED_HEADER_LEN)%nat then (None, g)
    else
      let counter := from_be (firstn 8 pt) in
      let ts_ms := from_be (firstn 8 (skipn 8 pt)) in
      let '(ok, g) := accept counter ts_ms now_ms g in
      if negb ok then (None, g) else (Some (skipn COUNTED_HEADER_LEN pt), g)
  end.

(** ** Sealed boxes *)

Context {L : CryptoLaws C}.

Lemma seal_length k n sender ctx p :
  Z.of_nat (length n) = NONCE_LEN → Z.of_nat (length (seal k n sender ctx p)) = SEALED_OVERHEAD + Z.of_nat (length p).
Proof. intros Hn. unfold seal. rewrite length_app, encrypt_length. unfold SEALED_OVERHEAD, TAG_LEN. lia. Qed.

Lemma open_seal k n sender ctx p :
  Z.of_nat (length n) = NONCE_LEN → open k sender ctx (seal k n sender ctx p) = Some p.
Proof.
  intros Hn. unfold open. rewrite (seal_length _ _ _ _ _ Hn), (proj2 (Z.ltb_ge _ _)) by lia.
  unfold seal. rewrite <- Hn, Nat2Z.id, take_app_length, drop_app_length. apply decrypt_encrypt.
Qed.

(** A counted box opens exactly when its counter and time are accepted. *)
Lemma open_seal_counted k n sender ctx counter ts p g now_ms :
  Z.of_nat (length n) = NONCE_LEN → 0 ≤ counter ≤ U64_MAX → 0 ≤ ts ≤ U64_MAX →
  open_counted k sender ctx (seal_counted k n sender ctx counter ts p) g now_ms =
  let '(ok, g') := accept counter ts now_ms g in (if ok then Some p else None, g').
Proof.
  intros Hn Hc Ht. unfold open_counted, seal_counted. rewrite open_seal by done.
  rewrite (proj2 (Nat.ltb_ge _ _)) by (unfold COUNTED_HEADER_LEN; rewrite !length_app, !be_bytes_length; lia).
  assert (∀ z, length (be_bytes 8 z) = 8%nat) as Hl by (intros; apply be_bytes_length).
  rewrite take_app_le, (take_ge (be_bytes 8 counter)), drop_app_length', take_app_le, (take_ge (be_bytes 8 ts)) by (rewrite ?Hl; lia).
  unfold U64_MAX in *. rewrite !from_be_bytes_small by (change (256 ^ Z.of_nat 8) with (2 ^ 64); lia).
  destruct (accept counter ts now_ms g) as [[] g']; cbn [negb]; [|done].
  rewrite app_assoc, drop_app_length' by (rewrite length_app, !Hl; done). done.
Qed.

(** ** A channel of counted boxes *)

(** A message to send: the sender's clock in microseconds and milliseconds, the
    nonce, and the text. *)
Record Draft := mkDraft { dr_us : Z; dr_ms : Z; dr_nonce : bytes; dr_text : bytes }.

(** The sender seals its drafts one after the other. *)
Fixpoint counters (counter : Z) (drafts : list Draft) : list Z :=
  match drafts with
  | [] => []
  | d :: drafts => let '(n, counter) := next counter (dr_us d) in n :: counters counter drafts
  end.

Definition sealed_with (k : E2eKey) (sender : Role) (ctx : bytes) (n : Z) (d : Draft) : bytes :=
  seal_counted k (dr_nonce d) sender ctx n (dr_ms d) (dr_text d).

Definition seal_all (k : E2eKey) (sender : Role) (ctx : bytes) (counter : Z) (drafts : list Draft) : list bytes :=
  zip_with (sealed_with k sender ctx) (counters counter drafts) drafts.

(** The receiver opens what arrives, with its clock at each arrival. *)
Fixpoint open_all (k : E2eKey) (sender : Role) (ctx : bytes) (g : ReplayGuard) (arrivals : list (bytes * Z)) :
    list (option bytes) :=
  match arrivals with
  | [] => []
  | (b, now_ms) :: arrivals =>
    let '(r, g) := open_counted k sender ctx b g now_ms in r :: open_all k sender ctx g arrivals
  end.

(** What should come out when box number [i] arrives: its text, if it is recent
    and newer than every box taken so far. *)
Fixpoint taken (drafts : list Draft) (last : option nat) (arrivals : list (nat * Z)) : list (option bytes) :=
  match arrivals with
  | [] => []
  | (i, now_ms) :: arrivals =>
    match drafts !! i with
    | Some d =>
      if (abs_diff (dr_ms d) now_ms <=? REPLAY_WINDOW_MS) && (match last with Some l => (l <? i)%nat | None => true end)
      then Some (dr_text d) :: taken drafts (Some i) arrivals
      else None :: taken drafts last arrivals
    | None => None :: taken drafts last arrivals
    end
  end.

Definition draft_ok (room : nat) (d : Draft) : Prop :=
  Z.of_nat (length (dr_nonce d)) = NONCE_LEN ∧ 0 ≤ dr_us d ∧ dr_us d + Z.of_nat room ≤ U64_MAX ∧ 0 ≤ dr_ms d ≤ U64_MAX.

Lemma counters_above room c drafts :
  0 ≤ c → c + Z.of_nat room ≤ U64_MAX → (length drafts ≤ room)%nat → Forall (draft_ok room) drafts →
  StronglySorted Z.lt (counters c drafts) ∧ Forall (λ n, c < n ≤ U64_MAX) (counters c drafts).
Proof.
  revert room c. induction drafts as [|d drafts IH]; intros room c H0 Hc Hl Hd; [by repeat constructor|].
  apply Forall_cons in Hd as [(Hn & Hu & Hr & _) Hd]. cbn [length] in Hl. destruct room as [|room]; [lia|]. cbn [counters next].
  set (n := Z.max (Z.min (c + 1) U64_MAX) (dr_us d)).
  assert (c < n ≤ U64_MAX ∧ n + Z.of_nat room ≤ U64_MAX) as [Hn1 Hn2] by (unfold n; lia).
  destruct (IH room n) as [H1 H2]; [lia|lia|lia| |].
  { eapply Forall_impl; [exact Hd|]. intros x (?&?&?&?). repeat split; lia. }
  split; [constructor; [done|]|constructor; [done|]]; (eapply Forall_impl; [exact H2|]); cbn; lia.
Qed.

Lemma counters_order (l : list Z) i j x y :
  StronglySorted Z.lt l → l !! i = Some x → l !! j = Some y → (i < j)%nat ↔ x < y.
Proof.
  intros Hs Hi Hj.
  assert (∀ a b u v, l !! a = Some u → l !! b = Some v → (a < b)%nat → u < v) as Hlt.
  { clear i j x y Hi Hj. induction Hs as [|z l Hs IH Hall]; intros a b u v Ha Hb Hab; [done|].
    destruct a as [|a], b as [|b]; cbn in Ha, Hb; try lia; [|eapply (IH a b); [done..|lia]].
    simplify_eq. rewrite Forall_lookup in Hall. eauto. }
  split; [eauto|]. intros Hxy. destruct (lt_eq_lt_dec i j) as [[|<-]|Hji]; [done|simplify_eq; lia|].
  specialize (Hlt j i y x Hj Hi Hji). lia.
Qed.

(** What [open_counted] does with a box of the channel. *)
Lemma open_sent k sender ctx room drafts i d g now_ms :
  Forall (draft_ok room) drafts → (length drafts ≤ room)%nat → Z.of_nat room ≤ U64_MAX → drafts !! i = Some d →
  ∃ n, counters 0 drafts !! i = Some n ∧
  open_counted k sender ctx (default [] (seal_all k sender ctx 0 drafts !! i)) g now_ms =
  let '(ok, g') := accept n (dr_ms d) now_ms g in (if ok then Some (dr_text d) else None, g').
Proof.
  intros Hd Hl Hr Hi. destruct (counters_above room 0 drafts) as [_ Hc]; [lia|lia|done|done|].
  assert (length (counters 0 drafts) = length drafts) as Hlen.
  { clear. generalize 0. induction drafts; intros c; cbn; auto. }
  assert (is_Some (counters 0 drafts !! i)) as [n Hn]
    by (apply lookup_lt_is_Some; rewrite Hlen; by apply lookup_lt_Some in Hi).
  exists n. split; [done|]. unfold seal_all. rewrite lookup_zip_with, Hn, Hi. cbn [mbind option_bind default].
  destruct (proj1 (Forall_lookup _ _) Hd _ _ Hi) as (H1 & H2 & H3 & H4).
  pose proof (proj1 (Forall_lookup _ _) Hc _ _ Hn) as Hn'. cbn in Hn'.
  apply open_seal_counted; [done|lia|done].
Qed.

Lemma open_all_taken k sender ctx room drafts last g arrivals :
  Forall (draft_ok room) drafts → (length drafts ≤ room)%nat → Z.of_nat room ≤ U64_MAX →
  Forall (λ a, (a.1 < length drafts)%nat) arrivals →
  g_last g = last ≫= (λ i, counters 0 drafts !! i) → (∀ i, last = Some i → is_Some (drafts !! i)) →
  open_all k sender ctx g ((λ a, (default [] (seal_all k sender ctx 0 drafts !! a.1), a.2)) <$> arrivals) =
  taken drafts last arrivals.
Proof.
  intros Hd Hl Hr Ha. revert g last. induction Ha as [|[i now_ms] arrivals Hi _ IH]; intros g last Hg Hlast; [done|].
  cbn [fst] in Hi. apply lookup_lt_is_Some in Hi as [d Hi].
  destruct (open_sent k sender ctx room drafts i d g now_ms Hd Hl Hr Hi) as (n & Hn & Ho).
  rewrite fmap_cons. cbn [open_all taken fst snd]. rewrite Ho, Hi. unfold accept.
  rewrite Z.ltb_antisym. destruct (abs_diff (dr_ms d) now_ms <=? REPLAY_WINDOW_MS); cbn [negb andb]; [|f_equal; by apply IH].
  destruct (counters_above room 0 drafts) as [Hs _]; [lia|lia|done|done|].
  assert (match g_last g with Some l => n <=? l | None => false end =
          negb (match last with Some l => (l <? i)%nat | None => true end)) as ->.
  { rewrite Hg. destruct last as [l|]; [|done]. destruct (Hlast l eq_refl) as [d' Hd']. cbn [mbind option_bind].
    destruct (open_sent k sender ctx room drafts l d' g now_ms Hd Hl Hr Hd') as (n' & Hn' & _). rewrite Hn'.
    destruct (counters_order _ _ _ _ _ Hs Hn' Hn) as [S1 S2]. destruct (Nat.ltb_spec l i) as [Hlt|Hge], (Z.leb_spec n n'); cbn; try done; [specialize (S1 Hlt)|specialize (S2 ltac:(done))]; lia. }
  destruct (match last with Some l => (l <? i)%nat | None => true end); cbn [negb]; f_equal; [|by apply IH].
  apply IH; cbn; [by rewrite Hn|]. intros j [= <-]. by eexists.
Qed.

(** A sender that seals messages with its counter, whatever its clock does
    meanwhile, and a receiver to which a network delivers the boxes late,
    repeatedly or out of order: a box yields its text exactly when the sender's
    time is within two minutes of the receiver's and the box is newer than every
    one taken before; every other arrival is refused and changes nothing. *)
Theorem counted_exact k sender ctx drafts arrivals :
  Forall (draft_ok (length drafts)) drafts → Z.of_nat (length drafts) ≤ U64_MAX →
  Forall (λ a, (a.1 < length drafts)%nat) arrivals →
  open_all k sender ctx guard_default ((λ a, (default [] (seal_all k sender ctx 0 drafts !! a.1), a.2)) <$> arrivals) =
  taken drafts None arrivals.
Proof. intros. by apply (open_all_taken k sender ctx (length drafts)). Qed.
End keys.

(** ** What is signed and authenticated *)

(** What a peer signs and what a sealed box authenticates pin down every
    field: two equal handshake messages have the same nonce, rendezvous id, role
    and channel binding; two equal identity proofs the same key, nonce, id and
    binding; no handshake message is an identity proof; and equal additional data
    of two boxes means the same id, sender and purpose. *)
Lemma signed_messages_bind :
  (∀ n n' rid rid' role role' ex ex', length n = length n' → length rid = length rid' →
     auth_message n rid role ex = auth_message n' rid' role' ex' → n = n' ∧ rid = rid' ∧ role = role' ∧ ex = ex') ∧
  (∀ k k' n n' rid rid' ex ex', length k = length k' → length n = length n' → length rid = length rid' →
     identity_message k n rid ex = identity_message k' n' rid' ex' → k = k' ∧ n = n' ∧ rid = rid' ∧ ex = ex') ∧
  (∀ n rid role ex k n' rid' ex', auth_message n rid role ex ≠ identity_message k n' rid' ex') ∧
  (∀ k k' sender sender' ctx ctx', length (k_rid k) = length (k_rid k') →
     aad k sender ctx = aad k' sender' ctx' → k_rid k = k_rid k' ∧ sender = sender' ∧ ctx = ctx').
Proof.
  assert (∀ r r', Role_as_u8 r = Role_as_u8 r' → r = r') as Hrole by (by intros [] []).
  split; [|split; [|split]].
  - intros * Hn Hr H. unfold auth_message in H. apply app_inj_1 in H as [_ H]; [|done].
    apply app_inj_1 in H as [-> H]; [|done]. apply app_inj_1 in H as [-> H]; [|done]. injection H as H ->. auto.
  - intros * Hk Hn Hr H. unfold identity_message in H. apply app_inj_1 in H as [_ H]; [|done].
    apply app_inj_1 in H as [-> H]; [|done]. apply app_inj_1 in H as [-> H]; [|done]. apply app_inj_1 in H as [-> ->]; done.
  - intros * H. apply (f_equal (λ l, nth 10 l x00)) in H. vm_compute in H. done.
  - intros * Hr H. unfold aad in H. apply app_inj_1 in H as [_ H]; [|done].
    apply app_inj_1 in H as [-> H]; [|done]. injection H as H ->. auto.
Qed.

(** ** A cipher that satisfies the laws *)

Definition pad (n : nat) (l : bytes) : bytes := firstn n (l ++ replicate n x00).

Lemma pad_length n l : length (pad n l) = n.
Proof. unfold pad. rewrite length_take, length_app, length_replicate. lia. Qed.

#[export] Instance toy_crypto : Crypto := {|
  hkdf salt ikm info := pad 32 (info ++ ikm ++ salt);
  verifying_key seed := pad 32 seed;
  sign seed m := pad 64 (pad 32 seed ++ m);
  key_from_bytes _ := true;
  is_weak _ := false;
  verify_strict k m s := bool_decide (s = pad 64 (k ++ m));
  encrypt _ _ _ p := p ++ replicate 16 x00;
  decrypt _ _ _ c := Some (firstn (length c - 16) c);
|}.

#[export] Instance toy_laws : CryptoLaws toy_crypto.
Proof.
  split; cbn -[pad]; intros; [apply pad_length|done|apply pad_length|apply pad_length|by apply bool_decide_eq_true| |].
  - by rewrite length_app.
  - f_equal. rewrite length_app. cbn [length replicate]. rewrite Nat.add_sub. apply take_app_length.
Qed.

Definition toy_key : E2eKey := mkE2e (replicate 32 x05) (replicate 32 x06).
Definition toy_drafts : list Draft :=
  [mkDraft 7000 1000000 (replicate 24 x00) [x61]; mkDraft 7000 1000001 (replicate 24 x01) [x62];
   mkDraft 5 1000002 (replicate 24 x02) [x63]].

(** The second box overtakes the first, is delivered twice, and the third comes late. *)
Lemma counted_exact_witness :
  open_all toy_key Box [x01] guard_default
    ((λ a, (default [] (seal_all toy_key Box [x01] 0 toy_drafts !! a.1), a.2)) <$> [(1%nat, 1000100); (0%nat, 1000100); (1%nat, 1000101); (2%nat, 1500000); (2%nat, 1000500)]) =
  [Some [x62]; None; None; None; Some [x63]].
Proof.
  etrans; [apply counted_exact|vm_compute; reflexivity].
  - repeat (constructor; [unfold draft_ok; vm_compute; intuition discriminate|]). constructor.
  - vm_compute. discriminate.
  - repeat constructor.
Defined.
End Keys.
