(* ===== verification/RelayClient.v ===== *)
(** * The relay's clients

    Models the signaling side of peckboard-relay/src/client.rs: the handshake a
    peer answers, the messages it sends, and the loop that turns the relay's
    frames into events; and proves the client, the relay and the other client
    together: two peers that share a secret meet, and a message one of them sends
    is the message the other receives. *)

From S2P Require Import Prelude RelayProto RelayStun RelayLimits RelayServer RelayServerProps RelayServerSafety RelayServerSessions RelayKeys.
From Stdlib Require Import Strings.Byte.

Module Client.
Import Proto Limits Server ServerProps ServerSafety ServerSessions Keys.

#[local] Arguments ServerMsg_encode : simpl never.
#[local] Arguments ServerMsg_decode : simpl never.
#[local] Arguments ClientMsg_encode : simpl never.
#[local] Arguments ClientMsg_decode : simpl never.

Definition CTX_MSG : bytes := as_bytes "msg".
Definition CTX_CANDIDATES : bytes := as_bytes "cand".

Record StunCredential := mkStunCred { sc_username : string; sc_password : string; sc_server : SocketAddr; sc_expires : Z }.

(** [SocketAddr::new] leaves flow and scope of an IPv6 address at zero. *)
Definition credential (stun_host : IpAddr) (now : Z) (m : ServerMsg) : option StunCredential :=
  match m with
  | Registered u p ttl port => Some (mkStunCred u p (mkSocketAddr stun_host port 0 0) (now + ttl * SECOND))
  | _ => None
  end.

Record Punch := mkPunch {
  p_peer_public : SocketAddr;
  p_start_at_ms : Z;
  p_nonce : bytes;
  p_attempt : byte;
  p_peer_candidates : list SocketAddr;
}.

Inductive Event :=
| EPeerOnline
| EPeerOffline
| EMessage (plaintext sealed : bytes)
| EPunch (p : Punch)
| ECredentialRefreshed
| EPong.

Record IdStatus := mkIdStatus { is_registered : bool; is_gated : bool }.
Definition relay_permitted (s : IdStatus) : bool := is_registered s || negb (is_gated s).

(** [RelayClient] with the state of its reading task. *)
Record RelayClient := mkClient {
  rc_role : Role;
  rc_keys : DerivedKeys;
  rc_version : Z;
  rc_send_ctr : Z;
  rc_replay : ReplayGuard;
  rc_cred : StunCredential;
  rc_identity_status : option IdStatus;
}.

Definition set_send_ctr (n : Z) (c : RelayClient) : RelayClient :=
  mkClient (rc_role c) (rc_keys c) (rc_version c) n (rc_replay c) (rc_cred c) (rc_identity_status c).
Definition set_replay (g : ReplayGuard) (c : RelayClient) : RelayClient :=
  mkClient (rc_role c) (rc_keys c) (rc_version c) (rc_send_ctr c) g (rc_cred c) (rc_identity_status c).
Definition set_cred (k : StunCredential) (c : RelayClient) : RelayClient :=
  mkClient (rc_role c) (rc_keys c) (rc_version c) (rc_send_ctr c) (rc_replay c) k (rc_identity_status c).

Section client.
Context {C : Crypto}.

(** ** The handshake *)

Definition hello (keys : DerivedKeys) (role : Role) : ClientMsg := Hello role (d_rendezvous_id keys) (public_key keys).

Definition auth (keys : DerivedKeys) (role : Role) (identity : option bytes) (version : Z) (nonce exporter : bytes) : ClientMsg :=
  let signature := sign_challenge keys nonce role exporter in
  match identity with
  | Some id =>
    if bool_decide (role = Box) && (3 <=? version) then
      IdentityAuth signature (identity_public_key id) (sign_session id nonce (d_rendezvous_id keys) exporter)
    else Auth signature
  | None => Auth signature
  end.

(** What follows the answer to the challenge: [Registered], and from version 3 on
    the verdict on the identity. *)
Definition connected (keys : DerivedKeys) (role : Role) (version : Z) (stun_host : IpAddr) (now : Z) (frames : list bytes) :
    option RelayClient :=
  match frames with
  | f1 :: frames =>
    m ← result_ok (ServerMsg_decode f1);
    cred ← credential stun_host now m;
    if 3 <=? version then
      match frames with
      | f2 :: _ =>
        match ServerMsg_decode f2 with
        | Ok (IdentityStatus r g) => Some (mkClient role keys version 0 guard_default cred (Some (mkIdStatus r g)))
        | _ => None
        end
      | [] => None
      end
    else Some (mkClient role keys version 0 guard_default cred None)
  | [] => None
  end.

(** ** Messages to the relay *)

Definition client_send (now_us now_ms : Z) (nonce plaintext : bytes) (c : RelayClient) : option ClientMsg * RelayClient :=
  let '(counter, ctr) := next (rc_send_ctr c) now_us in
  let blob := seal_counted (d_e2e (rc_keys c)) nonce (rc_role c) CTX_MSG counter now_ms plaintext in
  let c := set_send_ctr ctr c in
  if MAX_BLOB <? Z.of_nat (length blob) then (None, c) else (Some (Forward blob), c).

Definition client_candidates (nonce : bytes) (addrs : list SocketAddr) (c : RelayClient) : ClientMsg :=
  SetCandidates (seal (d_e2e (rc_keys c)) nonce (rc_role c) CTX_CANDIDATES (encode_addrs addrs)).

(** ** Frames from the relay *)

(** How the reading task goes on: it ends, ignores the frame, hands a datagram to
    the data channel, or emits an event. *)
Inductive Outcome := Stop | Skip | Datagram (packet : bytes) | Emit (e : Event).

Definition client_on_message (stun_host : IpAddr) (now now_ms : Z) (m : ServerMsg) (c : RelayClient) : Outcome * RelayClient :=
  let k := d_e2e (rc_keys c) in
  let peer := Role_other (rc_role c) in
  match m with
  | SData packet => (Datagram packet, c)
  | Pong => (Emit EPong, c)
  | PeerOnline => (Emit EPeerOnline, c)
  | PeerOffline => (Emit EPeerOffline, c)
  | Forwarded blob =>
    let '(r, g) := open_counted k peer CTX_MSG blob (rc_replay c) now_ms in
    match r with
    | Some plaintext => (Emit (EMessage plaintext blob), set_replay g c)
    | None => (Skip, set_replay g c)
    end
  | PunchNow peer_public start_at_ms nonce attempt peer_candidates =>
    let cands := default [] (pt ← open k peer CTX_CANDIDATES peer_candidates; decode_addrs pt) in
    (Emit (EPunch (mkPunch peer_public start_at_ms nonce attempt cands)), c)
  | Registered _ _ _ _ =>
    (Emit ECredentialRefreshed, match credential stun_host now m with Some nc => set_cred nc c | None => c end)
  | Challenge _ => (Stop, c)
  | IdentityStatus _ _ => (Skip, c)
  end.

Definition client_on_frame (stun_host : IpAddr) (now now_ms : Z) (frame : bytes) (c : RelayClient) : Outcome * RelayClient :=
  match ServerMsg_decode frame with
  | Ok m => client_on_message stun_host now now_ms m c
  | Err _ => (Stop, c)
  end.

(** ** The relay believes an honest client *)

Context {L : CryptoLaws C}.

(** The relay's reading of a client's two frames. *)
Definition claim_of (version : Z) (nonce exporter : bytes) (keys : DerivedKeys) (role : Role) (identity : option bytes) : option Claim :=
  claim key_from_bytes is_weak verify_strict version nonce exporter (ClientMsg_decode (ClientMsg_encode (hello keys role)))
    (ClientMsg_decode (ClientMsg_encode (auth keys role identity version nonce exporter))).

Lemma verify_own seed m : verify_with key_from_bytes is_weak verify_strict (verifying_key seed) m (sign seed m) = true.
Proof. unfold verify_with. destruct (verifying_key_valid seed) as [-> ->]. by rewrite verify_sign. Qed.

Lemma auth_wf keys role identity version nonce exporter : wf_client (auth keys role identity version nonce exporter).
Proof.
  unfold auth. destruct identity as [id|]; [destruct (_ && _)|]; cbn; unfold wf_len, identity_public_key, sign_challenge, sign_session; rewrite ?verifying_key_length, ?sign_length; done.
Qed.

Lemma claim_honest version nonce exporter secret role identity :
  claim_of version nonce exporter (derive secret) role identity =
  Some (mkClaim role (d_rendezvous_id (derive secret)) (public_key (derive secret)) true
          (if bool_decide (role = Box) && (3 <=? version) then identity_public_key <$> identity else None)).
Proof.
  assert (length (d_rendezvous_id (derive secret)) = 32%nat) as Hl by apply hkdf_length.
  revert Hl. generalize (derive secret). intros keys Hl. unfold claim_of. rewrite !client_decode_encode;
    [|apply auth_wf|by split; [done|apply verifying_key_length]].
  assert (∀ n r ex, verify_auth key_from_bytes is_weak verify_strict (public_key keys) n (d_rendezvous_id keys) r ex
    (sign_challenge keys n r ex) = true) as Hs by (intros; apply verify_own).
  assert (∀ id n ex, verify_identity key_from_bytes is_weak verify_strict (identity_public_key id) n (d_rendezvous_id keys) ex
    (sign_session id n (d_rendezvous_id keys) ex) = true) as Hi by (intros; apply verify_own).
  unfold claim, hello, auth. destruct identity as [id|]; [|cbn [fmap option_fmap option_map]; rewrite Hs; by destruct (_ && _)].
  destruct (bool_decide_reflect (role = Box)) as [->|?]; cbn [andb]; [destruct (3 <=? version)|];
    cbn [fmap option_fmap option_map andb]; rewrite ?Hs, ?Hi; done.
Qed.

(** ** Two peers meet *)

Lemma register_ips cfg now role rid pk sig_ok identity c ip s d :
  m_ip <$> metas (register cfg now role rid pk sig_ok identity c ip s).2 !! d = m_ip <$> metas s !! d.
Proof.
  pose proof (register_run cfg now role rid pk sig_ok identity c ip s) as Hrun.
  destruct (admit_claim_tables cfg now rid pk sig_ok ip s) as [l Ht].
  destruct (admit_claim cfg now rid pk sig_ok ip s) as [[] s1]; rewrite Hrun; cbn [snd] in *; [|by rewrite Ht].
  assert (metas s1 = metas s) as Hm by (by rewrite Ht). unfold take_seat. cbn [metas set_ids].
  destruct (slot _ (Role_other role)), (_ ≫= _); cbn [metas set_class set_metas kick]; by rewrite ?alter_ip, Hm.
Qed.

(** Two peers that share a pairing secret meet: from every reachable state, if
    the relay has room for the box's id (it remembers it with this key, or may
    create it), the box's handshake gets it the box seat, and the device's
    handshake that follows gets it the other one, whatever nonces, versions and
    connections the two have; both are then marked paired. *)
Theorem peers_meet cfg epoch t0 registered w env1 env2 c1 c2 m1 m2 secret id v1 v2 n1 n2 ex1 ex2 :
  let keys := derive secret in
  let rid := d_rendezvous_id keys in
  rtc (step cfg epoch) (start cfg t0 registered) w →
  metas (sh w) !! c1 = Some m1 → metas (sh w) !! c2 = Some m2 → c1 ∉ tried w → c2 ∉ tried w → c1 ≠ c2 →
  accepted cfg (now env1) rid (public_key keys) true (m_ip m1) (sh w) →
  let box := registration cfg env1 c1 (m_ip m1) (claim_of v1 n1 ex1 keys Box id) (sh w) in
  let dev := registration cfg env2 c2 (m_ip m2) (claim_of v2 n2 ex2 keys Device None) box.2 in
  box.1 = Some (mkBinding rid Box c1) ∧ dev.1 = Some (mkBinding rid Device c2) ∧
  opposite (mkBinding rid Box c1) dev.2 c2 ∧ opposite (mkBinding rid Device c2) dev.2 c1 ∧
  class_of c1 dev.2 = CLASS_PAIRED ∧ class_of c2 dev.2 = CLASS_PAIRED.
Proof.
  cbv zeta. intros Hr%reachable_winv Hm1 Hm2 Hc1 Hc2 Hne Hacc. pose proof (wi_inv _ _ Hr) as Hi. rewrite !claim_honest.
  set (rid := d_rendezvous_id (derive secret)) in *. set (pk := public_key (derive secret)) in *.
  cbn [registration cl_role cl_rid cl_pk cl_sig_ok cl_identity]. set (id1 := if _ : bool then _ else None).
  set (id2 := if _ : bool then _ else None).
  pose proof (register_inv cfg _ _ (now env1) Box rid pk true id1 c1 m1 (sh w) Hi Hc1 Hm1) as Hi1.
  pose proof (register_ips cfg (now env1) Box rid pk true id1 c1 (m_ip m1) (sh w) c2) as Hip.
  destruct (register cfg (now env1) Box rid pk true id1 c1 (m_ip m1) (sh w)) as [b1 s1] eqn:E1. cbn [fst snd] in *.
  destruct (register_facts _ _ _ _ _ _ _ _ _ _ _ _ _ _ Hi E1) as (Hiff & Hb1 & _).
  destruct (proj2 Hiff Hacc) as [b ->]. destruct Hb1 as (-> & (e1 & He1 & Hk1 & Hs1 & _) & _).
  rewrite Hm2 in Hip. apply fmap_Some in Hip as (m2' & Hm2' & Hip). rewrite Hip.
  assert (c2 ∉ {[c1]} ∪ tried w) as Hc2' by set_solver.
  pose proof (register_inv cfg _ _ (now env2) Device rid pk true id2 c2 m2' s1 Hi1 Hc2' Hm2') as Hi2.
  destruct (register cfg (now env2) Device rid pk true id2 c2 (m_ip m2') s1) as [b2 s2] eqn:E2. cbn [fst snd] in *.
  destruct (register_facts _ _ _ _ _ _ _ _ _ _ _ _ _ _ Hi1 E2) as (Hiff2 & Hb2 & _).
  assert (accepted cfg (now env2) rid pk true (m_ip m2') s1) as Hacc2 by (unfold accepted; by rewrite He1).
  destruct (proj2 Hiff2 Hacc2) as [b ->]. destruct Hb2 as (-> & (e2 & He2 & _ & Hs2 & Hs2') & _).
  rewrite He1 in Hs2'. cbn [mbind option_bind Role_other] in Hs2'. rewrite Hs1 in Hs2'.
  assert (∀ r c ip, p_seat (peers e2) r = Some (c, ip) → class_of c s2 = CLASS_PAIRED) as Hcl.
  { intros r c ip Hseat. assert ((peers <$> ids s2) !! rid = Some (peers e2)) as Hp by (by rewrite lookup_fmap, He2).
    pose proof (se_class _ _ _ _ (inv_seats _ _ _ _ Hi2) _ _ _ _ _ Hp Hseat) as Hw.
    rewrite lookup_fmap in Hw. apply fmap_Some in Hw as (m & Hm & Hw). unfold class_of. rewrite Hm.
    injection Hw as _ <-. rewrite p_seat_peers. by destruct r; cbn [Role_other]; rewrite ?Hs2, ?Hs2'. }
  split; [done|]. split; [done|]. split; [|split; [|split]].
  - exists e2, (mkSlot c2 (m_ip m2') None [] id2). unfold owns. cbn [b_rid b_role b_conn Role_other]. rewrite Hs2', Hs2.
    split_and!; [done|apply Nat.eqb_refl|done..].
  - exists e2, (mkSlot c1 (m_ip m1) None [] id1). unfold owns. cbn [b_rid b_role b_conn Role_other]. rewrite Hs2', Hs2.
    split_and!; [done|apply Nat.eqb_refl|done..].
  - apply (Hcl Box c1 (m_ip m1)). by rewrite p_seat_peers, Hs2'.
  - apply (Hcl Device c2 (m_ip m2')). by rewrite p_seat_peers, Hs2.
Qed.

(** ** A message from end to end *)

(** The queue of a session takes one more signaling frame of [n] bytes. *)
Definition queue_room (cfg : RelayConfig) (n : Z) (o : Outbox) (s : Shared) : Prop :=
  o_open o = true ∧ Z.of_nat (length (o_signal o)) < SIGNAL_QUEUE_LEN ∧
  o_signal_bytes o + (n + QUEUE_ITEM_OVERHEAD) ≤ queue_signal_bytes cfg ∧
  queued s + (n + QUEUE_ITEM_OVERHEAD) ≤ queue_global_bytes cfg.

Lemma push_signal cfg c b o s :
  outs s !! c = Some o → queue_room cfg (Z.of_nat (length b)) o s →
  outs (push cfg c false b s).2 !! c = Some (enqueue false b o).
Proof.
  intros Ho (H1 & H2 & H3 & H4). unfold push. rewrite Ho. cbn [channel]. unfold reserve, item_cost, capacity. rewrite H1.
  rewrite (proj2 (Z.ltb_ge _ _)), (proj2 (Z.ltb_ge (queue_global_bytes cfg) _)), (proj2 (Z.ltb_lt _ _)) by lia.
  cbn. by rewrite lookup_insert_eq.
Qed.

Lemma forwarded_length b : length (ServerMsg_encode (Forwarded b)) = (3 + length b)%nat.
Proof. unfold ServerMsg_encode. cbn. done. Qed.

Lemma forward_not_data b : match ClientMsg_encode (Forward b) with tag :: _ => byte_to_Z tag =? 0x10 | [] => false end = false.
Proof. reflexivity. Qed.

(** The relay hands the blob of a seated session to the session opposite. *)
Lemma forward_frame cfg stun_port env x b e peer o blob s :
  ss_binding x = Some b → ids s !! b_rid b = Some e → owns e b = true → slot e (Role_other (b_role b)) = Some peer →
  outs s !! sl_conn peer = Some o → (take_msg_token cfg (ss_bucket x) (now env)).1 = true →
  SEALED_OVERHEAD ≤ Z.of_nat (length blob) ≤ MAX_BLOB → queue_room cfg (Z.of_nat (length blob) + 3) o s →
  let r := on_frame cfg stun_port env (ClientMsg_encode (Forward blob)) x s in
  is_Some r.1 ∧ outs r.2 !! sl_conn peer = Some (enqueue false (ServerMsg_encode (Forwarded blob)) o).
Proof.
  intros Hb He Ho Hp Hout Htok Hlen Hroom. cbv zeta. unfold on_frame. rewrite forward_not_data, andb_false_r.
  destruct (take_msg_token cfg (ss_bucket x) (now env)) as [ok bk]. cbn [fst] in Htok. subst ok. cbn [negb].
  rewrite client_decode_encode by (cbn; unfold wf_blob; lia). unfold on_message. split; [by eexists|]. cbn [snd].
  unfold with_binding. cbn [ss_binding with_session]. rewrite Hb. unfold forward.
  rewrite (proj2 (Z.ltb_ge _ _)), (proj2 (Z.ltb_ge MAX_BLOB _)) by lia. cbn [orb]. rewrite He, Ho. cbn [negb]. rewrite Hp.
  apply push_signal; [done|]. rewrite forwarded_length. by replace (Z.of_nat (3 + length blob)) with (Z.of_nat (length blob) + 3) by lia.
Qed.

(** The box of a message is as long as its text and 56 bytes. *)
Lemma message_length keys nonce role n ts text :
  Z.of_nat (length nonce) = NONCE_LEN →
  Z.of_nat (length (seal_counted (d_e2e keys) nonce role CTX_MSG n ts text)) = Z.of_nat (length text) + 56.
Proof.
  intros Hn. unfold seal_counted. rewrite (seal_length _ _ _ _ _ Hn), !length_app, !be_bytes_length.
  unfold SEALED_OVERHEAD, NONCE_LEN, TAG_LEN. lia.
Qed.

(** C32: A message from end to end.  A client seals a text of up to 4,040 bytes and
    sends it; the relay, where the client's session holds its seat, has message
    budget left and the session seated opposite has room in its queue, appends
    exactly one frame to that session's queue; and the other client, which shares
    the pairing key, whose clock is within two minutes and which has accepted no
    later message, emits the text. *)
Theorem message_end_to_end cfg stun_port env x b e peer o s alice bob now_us now_ms nonce text host recv recv_ms :
  ss_binding x = Some b → ids s !! b_rid b = Some e → owns e b = true → slot e (Role_other (b_role b)) = Some peer →
  outs s !! sl_conn peer = Some o → (take_msg_token cfg (ss_bucket x) (now env)).1 = true →
  rc_role alice = b_role b → rc_role bob = Role_other (b_role b) → d_e2e (rc_keys bob) = d_e2e (rc_keys alice) →
  Z.of_nat (length nonce) = NONCE_LEN → 0 ≤ rc_send_ctr alice → 0 ≤ now_us ≤ U64_MAX → 0 ≤ now_ms ≤ U64_MAX →
  abs_diff now_ms recv_ms ≤ REPLAY_WINDOW_MS →
  (∀ l, g_last (rc_replay bob) = Some l → l < (next (rc_send_ctr alice) now_us).1) →
  Z.of_nat (length text) + 56 ≤ MAX_BLOB → queue_room cfg (Z.of_nat (length text) + 59) o s →
  ∃ blob frame,
    (client_send now_us now_ms nonce text alice).1 = Some (Forward blob) ∧
    (let r := on_frame cfg stun_port env (ClientMsg_encode (Forward blob)) x s in
     is_Some r.1 ∧ outs r.2 !! sl_conn peer = Some (enqueue false frame o)) ∧
    (client_on_frame host recv recv_ms frame bob).1 = Emit (EMessage text blob).
Proof.
  intros Hb He Ho Hp Hout Htok Ha Hbob Hkey Hn Hctr Hus Hms Hskew Hnew Hlen Hroom. unfold client_send.
  destruct (next (rc_send_ctr alice) now_us) as [n ctr] eqn:En. cbn [fst] in Hnew.
  assert (0 ≤ n ≤ U64_MAX) as Hn64 by (unfold next in En; unfold U64_MAX in *; simplify_eq; lia).
  set (blob := seal_counted _ _ _ _ _ _ _).
  assert (Z.of_nat (length blob) = Z.of_nat (length text) + 56) as Hbl by (by apply message_length).
  rewrite (proj2 (Z.ltb_ge _ _)) by lia. exists blob, (ServerMsg_encode (Forwarded blob)). split; [done|]. split.
  - apply (forward_frame cfg stun_port env x b e peer o); try done; [unfold SEALED_OVERHEAD, NONCE_LEN, TAG_LEN; lia|].
    by replace (Z.of_nat (length blob) + 3) with (Z.of_nat (length text) + 59) by lia.
  - unfold client_on_frame. rewrite server_decode_encode by (cbn; unfold wf_blob; lia). cbn [client_on_message].
    rewrite Hbob, other_other, Hkey, <- Ha. unfold blob at 1. rewrite open_seal_counted by done. unfold accept.
    rewrite (proj2 (Z.ltb_ge _ _)) by done.
    destruct (g_last (rc_replay bob)) as [l|]; [|done]. specialize (Hnew l eq_refl). by rewrite (proj2 (Z.leb_gt _ _)).
Qed.
End client.

(** ** Witnesses *)

Definition demo_secret : bytes := replicate 32 x0b.
Definition demo_challenge : bytes := replicate 32 x0c.

Lemma peers_meet_witness :
  let keys := derive demo_secret in
  let s := sh demo_admitted in
  let box := registration RelayConfig_default demo_env 1 (demo_ip 1) (claim_of 3 demo_challenge [] keys Box (Some [x01])) s in
  let dev := registration RelayConfig_default demo_env 2 (demo_ip 2) (claim_of 1 demo_challenge [x02] keys Device None) box.2 in
  opposite (mkBinding (d_rendezvous_id keys) Device 2) dev.2 1 ∧ class_of 2 dev.2 = CLASS_PAIRED.
Proof.
  pose proof (peers_meet RelayConfig_default 0 0 ∅ demo_admitted demo_env demo_env 1 2
    (new_meta RelayConfig_default 0 5 7 (demo_ip 1)) (new_meta RelayConfig_default 0 5 7 (demo_ip 2)) demo_secret
    (Some [x01]) 3 1 demo_challenge demo_challenge [] [x02] demo_admitted_reached) as H.
  destruct H as (_ & _ & _ & H1 & _ & H2);
    [vm_compute; reflexivity|vm_compute; reflexivity|set_solver|set_solver|done| |exact (conj H1 H2)].
  split; [done|]. vm_compute. split; [reflexivity|left; reflexivity].
Defined.

Definition demo_client (role : Role) : RelayClient :=
  mkClient role (derive demo_secret) 2 0 guard_default (mkStunCred "" "" (mkSocketAddr (demo_ip 9) 3478 0 0) 0) None.
Definition demo_session : Session :=
  mkSession 1 (demo_ip 1) 2 (Some (mkBinding demo_rid Box 1)) "user" (msg_burst RelayConfig_default, 40) 90 None.
Definition demo_outbox : Outbox := mkOutbox [] (Some []) 0 0 None true.

Lemma message_end_to_end_witness :
  ∃ blob frame,
    (client_send 1000 1 (replicate 24 x00) [x68; x69] (demo_client Box)).1 = Some (Forward blob) ∧
    (let r := on_frame RelayConfig_default 3478 demo_env (ClientMsg_encode (Forward blob)) demo_session (sh demo_paired) in
     is_Some r.1 ∧ outs r.2 !! 2%nat = Some (enqueue false frame demo_outbox)) ∧
    (client_on_frame (demo_ip 9) 0 100000 frame (demo_client Device)).1 = Emit (EMessage [x68; x69] blob).
Proof.
  apply (message_end_to_end RelayConfig_default 3478 demo_env demo_session (mkBinding demo_rid Box 1) demo_entry (demo_seat 2)
    demo_outbox (sh demo_paired) (demo_client Box) (demo_client Device)).
  all: try (vm_compute; reflexivity).
  all: try (vm_compute; intuition discriminate).
  all: vm_compute; repeat split; try reflexivity; try discriminate.
Defined.
End Client.
