(* ===== verification/Programs.v ===== *)
(** * Handlers as programs, interleaved

    A handler of the server awaits database calls, locks and clocks, and other
    requests run in between.  It is a program of calls ([Prog]); a schedule of
    arrivals and calls ([Action]) runs any number of them against one shared
    state ([play]) and leaves a trace.  [paths] states a property of every call
    a program can make, whatever the answers, and of its result; [kept_play]
    carries it to every thread of every schedule. *)

From S2P Require Import Prelude.

Module Programs.

(** ** Programs *)

(** [O B] is a call that is answered with a [B]. *)
Universe answer.
Inductive Prog (O : Type@{answer} → Type) (A : Type) : Type :=
| Ret (a : A)
| Vis {B : Type@{answer}} (o : O B) (k : B → Prog O A).
Arguments Ret {O A} a.
Arguments Vis {O A B} o k.

Fixpoint prog_bind {O A C} (f : A → Prog O C) (m : Prog O A) : Prog O C :=
  match m with Ret a => f a | Vis o k => Vis o (λ b, prog_bind f (k b)) end.

#[export] Instance prog_ret {O} : MRet (Prog O) := λ A, Ret.
#[export] Instance prog_mbind {O} : MBind (Prog O) := λ A C f m, prog_bind f m.

Definition call {O B} (o : O B) : Prog O B := Vis o Ret.

(** Handlers that return early with an error. *)
Definition H (O : Type@{answer} → Type) (E A : Type) : Type := Prog O (Result E A).

#[export] Instance h_ret {O E} : MRet (H O E) := λ A a, Ret (Ok a).
#[export] Instance h_bind {O E} : MBind (H O E) := λ A C f m,
  prog_bind (λ r, match r with Ok a => f a | Err e => Ret (Err e) end) m.

Section handlers.
Context {O : Type@{answer} → Type}.

Definition throw {E A} (e : E) : H O E A := Ret (Err e).
Definition lift {E A} (r : Result E A) : H O E A := Ret r.
(** A call that cannot fail, and one that can. *)
Definition infallible {E A} (m : Prog O A) : H O E A := prog_bind (λ a, Ret (Ok a)) m.
Definition map_err {E F A} (f : E → F) (m : H O E A) : H O F A :=
  prog_bind (λ r, Ret (match r with Ok a => Ok a | Err e => Err (f e) end)) m.
(** Match on the outcome, or drop it ([let _ =]). *)
Definition outcome {E F A} (m : H O E A) : H O F (Result E A) := infallible m.
Definition ignore {E F A} (m : H O E A) : H O F unit := infallible (prog_bind (λ _, Ret tt) m).
End handlers.

(** ** Schedules *)

(** A call with its answer. *)
Inductive Event (O : Type@{answer} → Type) : Type :=
| Ev {B : Type@{answer}} (o : O B) (b : B).
Arguments Ev {O B} o b.

Record Thread (O : Type@{answer} → Type) (Q R A : Type) := mkThread { request : Q; rand : R; prog : Prog O A }.
Arguments mkThread {O Q R A} request rand prog.
Arguments request {O Q R A} _.
Arguments rand {O Q R A} _.
Arguments prog {O Q R A} _.

(** The threads are numbered by their arrival; the trace names who called. *)
Record World (O : Type@{answer} → Type) (S Q R A : Type) := mkWorld {
  server : S; threads : list (Thread O Q R A); trace : list (nat * Event O) }.
Arguments mkWorld {O S Q R A} server threads trace.
Arguments server {O S Q R A} _.
Arguments threads {O S Q R A} _.
Arguments trace {O S Q R A} _.

(** [F] is what the surroundings decide at a call. *)
Inductive Action (Q R F : Type) := Spawn (q : Q) (r : R) | Run (t : nat) (f : F).
Arguments Spawn {Q R F} q r.
Arguments Run {Q R F} t f.

Section schedules.
Context {O : Type@{answer} → Type} {S F Q R A : Type}.
(** Call of a thread, or [None] while it has to wait. *)
Context (exec : ∀ B : Type@{answer}, nat → O B → F → S → option (B * S)).
Context (handle : R → Q → Prog O A).

Definition act (w : World O S Q R A) (a : Action Q R F) : World O S Q R A :=
  match a with
  | Spawn q r => mkWorld (server w) (threads w ++ [mkThread q r (handle r q)]) (trace w)
  | Run t f =>
    match (threads w !! t : option (Thread O Q R A)) with
    | Some (mkThread q r (Vis o k)) =>
      match exec _ t o f (server w) with
      | Some (b, s) =>
        mkWorld s (<[t := mkThread (O := O) q r (k b)]> (threads w)) (trace w ++ [(t, Ev (O := O) o b)])
      | None => w
      end
    | _ => w
    end
  end.

(** What a schedule of arrivals and calls leads to. *)
Definition play (w : World O S Q R A) (l : list (Action Q R F)) : World O S Q R A := fold_left act l w.

Lemma play_app w l l' : play w (l ++ l') = play (play w l) l'.
Proof. apply fold_left_app. Qed.

(** One action: an arrival, a call, or nothing. *)
Inductive moves (w : World O S Q R A) : World O S Q R A → Prop :=
| moves_idle : moves w w
| moves_spawn q r :
    moves w (mkWorld (server w) (threads w ++ [mkThread q r (handle r q)]) (trace w))
| moves_call t q r B (o : O B) k f b s :
    threads w !! t = Some (mkThread (O := O) q r (Vis o k)) → exec _ t o f (server w) = Some (b, s) →
    moves w (mkWorld s (<[t := mkThread (O := O) q r (k b)]> (threads w)) (trace w ++ [(t, Ev (O := O) o b)])).

Lemma act_moves w a : moves w (act w a).
Proof.
  destruct a as [q r|t f]; [by apply moves_spawn|]. simpl.
  destruct (threads w !! t) as [[q r [a|B o k]]|] eqn:Et; [by apply moves_idle| |by apply moves_idle].
  destruct (exec _ t o f (server w)) as [[b s]|] eqn:Ee; [by eapply moves_call|by apply moves_idle].
Qed.

Lemma play_ind (J : World O S Q R A → Prop) w l : J w → (∀ v v', moves v v' → J v → J v') → J (play w l).
Proof.
  intros Hw Hs. revert w Hw. induction l as [|a l IH]; intros w Hw; [done|].
  apply IH. eapply Hs; [apply act_moves|done].
Qed.
End schedules.

(** ** All paths of a program *)

Fixpoint paths {O A} (I : list (Event O) → Event O → Prop) (Q : list (Event O) → A → Prop)
    (h : list (Event O)) (m : Prog O A) : Prop :=
  match m with
  | Ret a => Q h a
  | Vis o k => ∀ b, I h (Ev o b) ∧ paths I Q (h ++ [Ev o b]) (k b)
  end.

Lemma paths_mono {O : Type@{answer} → Type} {A} I (Q Q' : list (Event O) → A → Prop) h (m : Prog O A) :
  (∀ h' a, Q h' a → Q' h' a) → paths I Q h m → paths I Q' h m.
Proof.
  intros HQ. revert h. induction m as [a|B o k IH]; intros h; simpl; [apply HQ|].
  intros Hm b. destruct (Hm b) as [HI Hk]. split; [done|]. by apply IH.
Qed.

Lemma paths_bind {O : Type@{answer} → Type} {A C} I (Q : list (Event O) → C → Prop) (f : A → Prog O C) h (m : Prog O A) :
  paths I (λ h' a, paths I Q h' (f a)) h m → paths I Q h (prog_bind f m).
Proof.
  revert h. induction m as [a|B o k IH]; intros h; simpl; [done|].
  intros Hm b. destruct (Hm b) as [HI Hk]. split; [done|]. by apply IH.
Qed.

(** After an early return the rest is skipped. *)
Definition or_err {O : Type@{answer} → Type} {E A C} (I : list (Event O) → Event O → Prop) (Q : list (Event O) → Result E C → Prop)
    (f : A → H O E C) (h : list (Event O)) (r : Result E A) : Prop :=
  match r with Ok a => paths I Q h (f a) | Err e => Q h (Err e) end.

Lemma paths_h_bind {O : Type@{answer} → Type} {E A C} I (Q : list (Event O) → Result E C → Prop) (f : A → H O E C) h (m : H O E A) :
  paths I (or_err I Q f) h m → paths I Q h (m ≫= f).
Proof. intros Hm. apply paths_bind. eapply paths_mono; [|exact Hm]. by intros h' [a|e]. Qed.

Lemma paths_call {O : Type@{answer} → Type} {B} I (Q : list (Event O) → B → Prop) h (o : O B) :
  (∀ b, I h (Ev o b) ∧ Q (h ++ [Ev o b]) b) → paths I Q h (call o).
Proof. done. Qed.

Lemma paths_infallible {O : Type@{answer} → Type} {E A} I (Q : list (Event O) → Result E A → Prop) h (m : Prog O A) :
  paths I (λ h' a, Q h' (Ok a)) h m → paths I Q h (infallible m).
Proof. intros Hm. by apply paths_bind. Qed.

Lemma paths_outcome {O : Type@{answer} → Type} {E F A} I (Q : list (Event O) → Result F (Result E A) → Prop) h (m : H O E A) :
  paths I (λ h' r, Q h' (Ok r)) h m → paths I Q h (outcome m).
Proof. apply paths_infallible. Qed.

Lemma paths_ignore {O : Type@{answer} → Type} {E F A} I (Q : list (Event O) → Result F unit → Prop) h (m : H O E A) :
  paths I (λ h' _, Q h' (Ok tt)) h m → paths I Q h (ignore m).
Proof. intros Hm. by apply paths_infallible, paths_bind. Qed.

Lemma paths_map_err {O : Type@{answer} → Type} {E F A} I (Q : list (Event O) → Result F A → Prop) (f : E → F) h (m : H O E A) :
  paths I (λ h' r, Q h' (match r with Ok a => Ok a | Err e => Err (f e) end)) h m →
  paths I Q h (map_err f m).
Proof. intros Hm. by apply paths_bind. Qed.

(** One step along the paths; [use] is tried on what a call needs. *)
Ltac prog_step use :=
  first
  [ progress cbn [or_err paths lift throw]
  | lazymatch goal with
    | |- paths _ _ _ (@mbind _ h_bind _ _ _ _) => apply paths_h_bind
    | |- paths _ _ _ (map_err _ _) => apply paths_map_err
    | |- paths _ _ _ (infallible _) => apply paths_infallible
    | |- paths _ _ _ (outcome _) => apply paths_outcome
    | |- paths _ _ _ (ignore _) => apply paths_ignore
    | |- paths _ _ _ (prog_bind _ _) => apply paths_bind
    | |- paths _ _ _ (mret _) => unfold mret, h_ret
    | |- paths _ _ _ (call _) => apply paths_call; intros ?; split; [use|cbn beta]
    | |- paths _ _ _ (if ?c then _ else _) => destruct c eqn:?
    | |- paths _ _ _ (match ?x with _ => _ end) => destruct x eqn:?
    | |- or_err _ _ _ _ ?r => destruct r eqn:?
    end ].

(** ** Paths with a summary of the calls so far *)

(** [walk]: as [paths], for properties of a summary [v] that each call updates. *)
Section walk.
Context {O : Type@{answer} → Type} {V : Type} (upd : V → Event O → V) (I : V → Event O → Prop).

Fixpoint walk {A} (Q : V → A → Prop) (v : V) (m : Prog O A) : Prop :=
  match m with
  | Ret a => Q v a
  | Vis o k => ∀ b, I v (Ev (O := O) o b) ∧ walk Q (upd v (Ev (O := O) o b)) (k b)
  end.

Lemma walk_mono {A} (Q Q' : V → A → Prop) v (m : Prog O A) :
  (∀ v' a, Q v' a → Q' v' a) → walk Q v m → walk Q' v m.
Proof.
  intros HQ. revert v. induction m as [a|B o k IH]; intros v; simpl; [apply HQ|].
  intros Hm b. destruct (Hm b) as [HI Hk]. split; [done|]. by apply IH.
Qed.

Lemma walk_bind {A C} (Q : V → C → Prop) (f : A → Prog O C) v (m : Prog O A) :
  walk (λ v' a, walk Q v' (f a)) v m → walk Q v (prog_bind f m).
Proof.
  revert v. induction m as [a|B o k IH]; intros v; simpl; [done|].
  intros Hm b. destruct (Hm b) as [HI Hk]. split; [done|]. by apply IH.
Qed.

Lemma walk_paths {A} (Q : V → A → Prop) v h (m : Prog O A) :
  walk Q (foldl upd v h) m →
  paths (λ h e, I (foldl upd v h) e) (λ h a, Q (foldl upd v h) a) h m.
Proof.
  revert h. induction m as [a|B o k IH]; intros h; simpl; [done|].
  intros Hm b. destruct (Hm b) as [HI Hk]. split; [done|].
  apply IH. by rewrite foldl_app.
Qed.

Definition walk_err {E A C} (Q : V → Result E C → Prop) (f : A → H O E C) (v : V) (r : Result E A) : Prop :=
  match r with Ok a => walk Q v (f a) | Err e => Q v (Err e) end.

Lemma walk_h_bind {E A C} (Q : V → Result E C → Prop) (f : A → H O E C) v (m : H O E A) :
  walk (walk_err Q f) v m → walk Q v (m ≫= f).
Proof. intros Hm. apply walk_bind. eapply walk_mono; [|exact Hm]. by intros v' [a|e]. Qed.

Lemma walk_call {B} (Q : V → B → Prop) v (o : O B) :
  (∀ b, I v (Ev (O := O) o b) ∧ Q (upd v (Ev (O := O) o b)) b) → walk Q v (call o).
Proof. done. Qed.

Lemma walk_infallible {E A} (Q : V → Result E A → Prop) v (m : Prog O A) :
  walk (λ v' a, Q v' (Ok a)) v m → walk Q v (infallible m).
Proof. intros Hm. by apply walk_bind. Qed.

Lemma walk_outcome {E F A} (Q : V → Result F (Result E A) → Prop) v (m : H O E A) :
  walk (λ v' r, Q v' (Ok r)) v m → walk Q v (outcome m).
Proof. apply walk_infallible. Qed.

Lemma walk_ignore {E F A} (Q : V → Result F unit → Prop) v (m : H O E A) :
  walk (λ v' _, Q v' (Ok tt)) v m → walk Q v (ignore m).
Proof. intros Hm. by apply walk_infallible, walk_bind. Qed.

Lemma walk_map_err {E F A} (Q : V → Result F A → Prop) (f : E → F) v (m : H O E A) :
  walk (λ v' r, Q v' (match r with Ok a => Ok a | Err e => Err (f e) end)) v m →
  walk Q v (map_err f m).
Proof. intros Hm. by apply walk_bind. Qed.
End walk.

(** ** Threads *)

(** An element of a list one longer is the last, or was there. *)
Lemma snoc_split {A} (l : list A) x l1 y l2 :
  l ++ [x] = l1 ++ y :: l2 → (l = l1 ∧ x = y ∧ l2 = []) ∨ ∃ l3, l = l1 ++ y :: l3.
Proof.
  intros Heq. destruct (decide (l2 = [])) as [->|Hne].
  - apply app_inj_tail in Heq as [-> ->]. by left.
  - destruct (exists_last Hne) as (l3 & z & ->). rewrite app_comm_cons, app_assoc in Heq.
    apply app_inj_tail in Heq as [-> _]. right. by exists l3.
Qed.

(** The calls of one thread. *)
Definition hist {O} (tr : list (nat * Event O)) (t : nat) : list (Event O) :=
  omap (λ x, if (x.1 =? t)%nat then Some x.2 else None) tr.
#[global] Arguments hist : simpl never.

Lemma hist_app {O} (tr tr' : list (nat * Event O)) t : hist (tr ++ tr') t = hist tr t ++ hist tr' t.
Proof. apply omap_app. Qed.

Lemma hist_self {O} t (e : Event O) : hist [(t, e)] t = [e].
Proof. unfold hist. simpl. by rewrite Nat.eqb_refl. Qed.

Lemma hist_other {O} t t' (e : Event O) : t ≠ t' → hist [(t, e)] t' = [].
Proof. intros Hne. unfold hist. simpl. by rewrite (proj2 (Nat.eqb_neq t t') Hne). Qed.

Lemma elem_of_hist {O} (tr : list (nat * Event O)) t e : e ∈ hist tr t ↔ (t, e) ∈ tr.
Proof.
  unfold hist. rewrite list_elem_of_omap. split.
  - intros ([t' e'] & Hin & Heq). simpl in Heq. destruct (t' =? t)%nat eqn:E; [|done].
    apply Nat.eqb_eq in E. naive_solver.
  - intros Hin. exists (t, e). simpl. by rewrite Nat.eqb_refl.
Qed.

Section pool.
Context {O : Type@{answer} → Type} {S F Q R A : Type}.
Context (exec : ∀ B : Type@{answer}, nat → O B → F → S → option (B * S)) (handle : R → Q → Prog O A).

(** A property of all paths of the handlers holds of every thread. *)
Record kept (I : Q → R → list (Event O) → Event O → Prop) (P : Q → R → list (Event O) → A → Prop)
    (w : World O S Q R A) : Prop := {
  kept_prog t th : threads w !! t = Some th →
    paths (I (request th) (rand th)) (P (request th) (rand th)) (hist (trace w) t) (prog th);
  kept_call tr t e tr' : trace w = tr ++ (t, e) :: tr' →
    ∃ th, threads w !! t = Some th ∧ I (request th) (rand th) (hist tr t) e;
  kept_new t : (length (threads w) ≤ t)%nat → hist (trace w) t = [] }.

Lemma kept_moves I P w w' :
  (∀ q r, paths (I q r) (P q r) [] (handle r q)) →
  moves exec handle w w' → kept I P w → kept I P w'.
Proof.
  intros Hall [|q r|t q r B o k f b s Ht He] [Hp Hc Hnew]; [done|split; simpl|split; simpl].
  - intros t th Hth. apply lookup_app_Some in Hth as [Hth|[Hge Hth]]; [by apply Hp|].
    apply list_lookup_singleton_Some in Hth as [Hz <-]. simpl. rewrite Hnew by lia. apply Hall.
  - intros tr t e tr' Htr. destruct (Hc _ _ _ _ Htr) as (th & Hth & HI).
    exists th. split; [|done]. by apply lookup_app_l_Some.
  - intros t. rewrite length_app. intros Hle. apply Hnew. lia.
  - intros t' th Hth. pose proof (Hp _ _ Ht) as Hpt. simpl in Hpt.
    rewrite hist_app. destruct (decide (t = t')) as [->|Hne].
    + rewrite list_lookup_insert_eq in Hth by (by eapply lookup_lt_Some). injection Hth as <-. simpl.
      rewrite hist_self. apply Hpt.
    + rewrite list_lookup_insert_ne in Hth by done. rewrite hist_other, app_nil_r by done. by apply Hp.
  - intros tr t' e tr' Htr.
    assert (t < length (threads w))%nat as Hlt by (by eapply lookup_lt_Some).
    destruct (Hp _ _ Ht b) as [HI _]. simpl in HI.
    destruct (snoc_split _ _ _ _ _ Htr) as [(<- & Heq & _)|[tr'' Htr']].
    + pose proof (f_equal fst Heq) as Ht'. pose proof (f_equal snd Heq) as He'. simpl in Ht', He'. subst t' e. eexists.
      split; [by apply list_lookup_insert_eq|done].
    + destruct (Hc _ _ _ _ Htr') as (th & Hth & HIe).
      destruct (decide (t = t')) as [->|Hne].
      * rewrite Ht in Hth. injection Hth as <-. eexists. split; [by apply list_lookup_insert_eq|done].
      * exists th. by rewrite list_lookup_insert_ne.
  - intros t'. rewrite length_insert. intros Hle. assert (t < length (threads w))%nat by (by eapply lookup_lt_Some).
    rewrite hist_app, Hnew, hist_other by lia. done.
Qed.

Lemma kept_play I P s l :
  (∀ q r, paths (I q r) (P q r) [] (handle r q)) → kept I P (play exec handle (mkWorld s [] []) l).
Proof.
  intros Hall. apply play_ind; [|by intros v v'; apply kept_moves].
  split; simpl; [by intros t th Hth|by intros [|? ?] t e tr' Htr|done].
Qed.

(** ** One handler alone *)

(** The outcome of a program whose calls are not interleaved with others. *)
Fixpoint alone {C} (t : nat) (f : F) (m : Prog O C) (s : S) : option (C * S) :=
  match m with
  | Ret a => Some (a, s)
  | Vis o k => match exec _ t o f s with Some (b, s') => alone t f (k b) s' | None => None end
  end.

Lemma alone_ret {C} t f (a : C) s : alone t f (Ret a) s = Some (a, s).
Proof. done. Qed.

Lemma alone_call {B} t f (o : O B) s : alone t f (call o) s = exec _ t o f s.
Proof. simpl. by destruct (exec _ t o f s) as [[b s']|]. Qed.

Lemma alone_bind {B C} t f (m : Prog O B) (g : B → Prog O C) s :
  alone t f (prog_bind g m) s = '(a, s') ← alone t f m s; alone t f (g a) s'.
Proof.
  revert s. induction m as [a|D o k IH]; intros s; simpl; [done|].
  destruct (exec _ t o f s) as [[b s']|]; simpl; [apply IH|done].
Qed.

Lemma alone_h_bind {E B C} t f (m : H O E B) (g : B → H O E C) s :
  alone t f (m ≫= g) s =
  '(r, s') ← alone t f m s; match r with Ok a => alone t f (g a) s' | Err e => Some (Err e, s') end.
Proof.
  unfold mbind, h_bind. rewrite alone_bind. destruct (alone t f m s) as [[[a|e] s']|]; done.
Qed.

(** It is what a schedule that runs only this request leads to. *)
Lemma alone_play q r f s a s' :
  alone 0 f (handle r q) s = Some (a, s') →
  ∃ n, let w := play exec handle (mkWorld s [] []) (Spawn q r :: replicate n (Run 0 f)) in
    server w = s' ∧ threads w = [mkThread (O := O) q r (Ret a)].
Proof.
  intros Ha. set (m := handle r q) in *.
  assert (∀ tr, ∃ n, let w := play exec handle (mkWorld s [mkThread (O := O) q r m] tr) (replicate n (Run 0 f)) in
    server w = s' ∧ threads w = [mkThread (O := O) q r (Ret a)]) as Hn; [|apply (Hn [])].
  clearbody m. revert s Ha. induction m as [x|B o k IH]; intros s Ha tr; simpl in Ha.
  - exists 0%nat. by injection Ha as <- <-.
  - destruct (exec _ 0 o f s) as [[b s1]|] eqn:E; [|done].
    destruct (IH b s1 Ha (tr ++ [(0%nat, Ev (O := O) o b)])) as [n Hn]. exists (Datatypes.S n). simpl. by rewrite E.
Qed.
End pool.
#[global] Arguments alone {O S F} exec {C} t f m s : simpl never.
End Programs.
