(* ===== verification/AuthDb.v ===== *)
(** * The state behind authentication

    The tables of src/db/crud/users.rs, auth_sessions.rs and mfa.rs with the
    keys of migrations/, the limiters of src/auth/rate_limit.rs, and programs
    that touch them.  A handler is a program [Prog]: a tree of calls [Op], each
    of which runs under one lock (the connection mutex or a limiter's), so that
    requests in flight interleave between calls and nowhere else.  A call of the
    database may also fail, at any point, without effect. *)

From S2P Require Import Prelude Programs CharStr EnvVars Gates.

Module AuthDb.
Export Programs.

(** ** Rows (src/db/models.rs) *)

Record User := mkUser {
  u_id : str; username : str; email : option str; password_hash : str; role : str;
  u_created_at : str; u_updated_at : str }.

Record UpdateUser := mkUpdateUser {
  up_username : option str; up_email : option (option str); up_password_hash : option str;
  up_role : option str; up_updated_at : option str }.

(** [..Default::default()] with a new password hash. *)
Definition new_password (hash now : str) : UpdateUser := mkUpdateUser None None (Some hash) None (Some now).

Record AuthSession := mkAuthSession {
  s_id : str; s_user_id : str; s_token_hash : str; s_created_at : Z; s_expires_at : Z;
  s_last_used_at : option Z; s_user_agent : option str; s_ip_address : option str;
  s_remote_device_id : option str }.

Record MfaMethodRow := mkMfaMethod {
  m_id : str; m_user_id : str; m_kind : str; m_label : option str; m_secret_ct : option str;
  m_secret_nonce : option str; m_last_timestep : option Z; m_created_at : str }.

Record MfaRecoveryCode := mkRecoveryCode {
  rc_id : str; rc_user_id : str; rc_code_hash : str; rc_used_at : option str }.

Record MfaChallengeRow := mkChallenge {
  ch_id : str; ch_user_id : str; ch_token_hash : str; ch_created_at : Z; ch_expires_at : Z;
  ch_consumed_at : option Z; ch_failures : Z }.

Record MfaPending := mkPending {
  pn_id : str; pn_user_id : str; pn_kind : str; pn_secret_ct : str; pn_secret_nonce : str;
  pn_created_at : Z; pn_expires_at : Z }.

Record Db := mkDb {
  users : list User;
  auth_sessions : list AuthSession;
  mfa_methods : list MfaMethodRow;
  mfa_recovery_codes : list MfaRecoveryCode;
  mfa_challenges : list MfaChallengeRow;
  mfa_pending : list MfaPending;
  env_vars : list EnvVar }.

Definition set_users t d :=
  mkDb t (auth_sessions d) (mfa_methods d) (mfa_recovery_codes d) (mfa_challenges d) (mfa_pending d) (env_vars d).
Definition set_sessions t d :=
  mkDb (users d) t (mfa_methods d) (mfa_recovery_codes d) (mfa_challenges d) (mfa_pending d) (env_vars d).
Definition set_methods t d :=
  mkDb (users d) (auth_sessions d) t (mfa_recovery_codes d) (mfa_challenges d) (mfa_pending d) (env_vars d).
Definition set_codes t d :=
  mkDb (users d) (auth_sessions d) (mfa_methods d) t (mfa_challenges d) (mfa_pending d) (env_vars d).
Definition set_challenges t d :=
  mkDb (users d) (auth_sessions d) (mfa_methods d) (mfa_recovery_codes d) t (mfa_pending d) (env_vars d).
Definition set_pending t d :=
  mkDb (users d) (auth_sessions d) (mfa_methods d) (mfa_recovery_codes d) (mfa_challenges d) t (env_vars d).
Definition set_env_vars t d :=
  mkDb (users d) (auth_sessions d) (mfa_methods d) (mfa_recovery_codes d) (mfa_challenges d) (mfa_pending d) t.

(** ** Operations of the database

    Each is one [with_conn]; the tables user_tabs, terminals and session_views,
    which [delete_user] clears as well, are not part of the state. *)

Inductive DbErr := Fault | UniqueViolation | ForeignKeyViolation | NotFound.

Abbreviation Res := (Result DbErr).
Abbreviation Db_op A := (Db → Res A * Db).

(** A query leaves the tables alone. *)
Definition query {A} (f : Db → A) : Db_op A := λ d, (Ok (f d), d).

Definition known_user (uid : str) (d : Db) : bool := existsb (λ u, u_id u == uid) (users d).

(** [insert_into] a table whose user_id references users: [clash] says which
    rows the keys of the new one collide with. *)
Definition insert_row {A} (tbl : Db → list A) (set : list A → Db → Db) (owner : str) (clash : A → bool) (new : A) :
    Db_op A := λ d,
  if existsb clash (tbl d) then (Err UniqueViolation, d)
  else if negb (known_user owner d) then (Err ForeignKeyViolation, d)
  else (Ok new, set (tbl d ++ [new]) d).

Definition create_user (new : User) : Db_op User := λ d,
  if existsb (λ u, (u_id u == u_id new) || (username u == username new) ||
                   (is_some (email u) && (email u == email new))) (users d)
  then (Err UniqueViolation, d)
  else (Ok new, set_users (users d ++ [new]) d).

Definition get_user (uid : str) : Db_op (option User) := query (λ d, List.find (λ u, u_id u == uid) (users d)).
Definition get_user_by_username (nm : str) : Db_op (option User) :=
  query (λ d, List.find (λ u, username u == nm) (users d)).
(** [order(users::username.asc())]. *)
Definition list_users : Db_op (list User) :=
  query (λ d, sort_by (λ a b, str_le (username a) (username b)) (users d)).
Definition count_users : Db_op Z := query (λ d, Z.of_nat (length (users d))).

Definition apply_update (c : UpdateUser) (u : User) : User :=
  mkUser (u_id u) (default (username u) (up_username c)) (default (email u) (up_email c))
    (default (password_hash u) (up_password_hash c)) (default (role u) (up_role c))
    (u_created_at u) (default (u_updated_at u) (up_updated_at c)).

Definition update_user (uid : str) (c : UpdateUser) : Db_op (option User) := λ d,
  match List.find (λ u, u_id u == uid) (users d) with
  | None => (Ok None, d)
  | Some u =>
    let u' := apply_update c u in
    if existsb (λ v, (u_id v != uid) && ((username v == username u') ||
                     (is_some (email v) && (email v == email u')))) (users d)
    then (Err UniqueViolation, d)
    else (Ok (Some u'), set_users ((λ v, if u_id v == uid then u' else v) <$> users d) d)
  end.

(** The four deletes [wipe_user_mfa] and [delete_user] share. *)
Definition wipe_mfa (uid : str) (d : Db) : Db :=
  let d := set_pending (List.filter (λ p, pn_user_id p != uid) (mfa_pending d)) d in
  let d := set_challenges (List.filter (λ c, ch_user_id c != uid) (mfa_challenges d)) d in
  let d := set_codes (List.filter (λ c, rc_user_id c != uid) (mfa_recovery_codes d)) d in
  set_methods (List.filter (λ m, m_user_id m != uid) (mfa_methods d)) d.

Definition wipe_user_mfa (uid : str) : Db_op unit := λ d, (Ok tt, wipe_mfa uid d).

Definition drop_sessions (gone : AuthSession → bool) (d : Db) : nat * Db :=
  (length (List.filter gone (auth_sessions d)),
   set_sessions (List.filter (λ s, negb (gone s)) (auth_sessions d)) d).

Definition delete_user (uid : str) : Db_op bool := λ d,
  let d' := (drop_sessions (λ s, s_user_id s == uid) (wipe_mfa uid d)).2 in
  (Ok (known_user uid d), set_users (List.filter (λ u, u_id u != uid) (users d')) d').

(** *** auth_sessions.rs *)

Definition create_auth_session_via (new : AuthSession) : Db_op AuthSession :=
  insert_row auth_sessions set_sessions (s_user_id new) (λ s, s_id s == s_id new) new.

Definition get_auth_session (sid : str) : Db_op (option AuthSession) :=
  query (λ d, List.find (λ s, s_id s == sid) (auth_sessions d)).

Definition touch (sid : str) (now : Z) (s : AuthSession) : AuthSession :=
  if s_id s == sid then
    mkAuthSession (s_id s) (s_user_id s) (s_token_hash s) (s_created_at s) (s_expires_at s) (Some now)
      (s_user_agent s) (s_ip_address s) (s_remote_device_id s)
  else s.

Definition update_auth_session_last_used (sid : str) (now : Z) : Db_op bool := λ d,
  (Ok (existsb (λ s, s_id s == sid) (auth_sessions d)), set_sessions (touch sid now <$> auth_sessions d) d).

Definition delete_sessions (gone : AuthSession → bool) : Db_op nat := λ d,
  let '(n, d') := drop_sessions gone d in (Ok n, d').

Definition delete_auth_session (sid : str) : Db_op bool := λ d,
  (Ok (existsb (λ s, s_id s == sid) (auth_sessions d)), (drop_sessions (λ s, s_id s == sid) d).2).
Definition delete_expired_auth_sessions (now : Z) : Db_op nat := delete_sessions (λ s, s_expires_at s <? now).
Definition delete_auth_sessions_by_user (uid : str) : Db_op nat := delete_sessions (λ s, s_user_id s == uid).
Definition delete_auth_sessions_by_remote_device (dev : str) : Db_op nat :=
  delete_sessions (λ s, s_remote_device_id s == Some dev).
Definition delete_auth_sessions_by_user_except (uid sid : str) : Db_op nat :=
  delete_sessions (λ s, (s_user_id s == uid) && (s_id s != sid)).

(** [order(created_at.desc())]. *)
Definition list_auth_sessions_by_user (uid : str) : Db_op (list AuthSession) :=
  query (λ d, sort_by (λ a b, s_created_at b <=? s_created_at a)
                (List.filter (λ s, s_user_id s == uid) (auth_sessions d))).

(** *** mfa.rs *)

Definition list_mfa_methods (uid : str) : Db_op (list MfaMethodRow) :=
  query (λ d, List.filter (λ m, m_user_id m == uid) (mfa_methods d)).
Definition user_has_mfa (uid : str) : Db_op bool :=
  query (λ d, (0 <? length (List.filter (λ m, m_user_id m == uid) (mfa_methods d)))%nat).
Definition get_mfa_method (uid kind : str) : Db_op (option MfaMethodRow) :=
  query (λ d, List.find (λ m, (m_user_id m == uid) && (m_kind m == kind)) (mfa_methods d)).

(** Unique on the id and on user and kind. *)
Definition insert_mfa_method (new : MfaMethodRow) : Db_op MfaMethodRow :=
  insert_row mfa_methods set_methods (m_user_id new)
    (λ m, (m_id m == m_id new) || ((m_user_id m == m_user_id new) && (m_kind m == m_kind new))) new.

Definition set_mfa_last_timestep (mid : str) (ts : Z) : Db_op bool := λ d,
  (Ok (existsb (λ m, m_id m == mid) (mfa_methods d)),
   set_methods ((λ m, if m_id m == mid then
       mkMfaMethod (m_id m) (m_user_id m) (m_kind m) (m_label m) (m_secret_ct m) (m_secret_nonce m) (Some ts)
         (m_created_at m)
     else m) <$> mfa_methods d) d).

Definition list_unused_recovery_codes (uid : str) : Db_op (list MfaRecoveryCode) :=
  query (λ d, List.filter (λ c, (rc_user_id c == uid) && (rc_used_at c == None)) (mfa_recovery_codes d)).

(** One statement inserts all rows or none. *)
Definition insert_recovery_codes (rows : list MfaRecoveryCode) : Db_op unit := λ d,
  let ids := rc_id <$> rows in
  if existsb (λ c, bool_decide (rc_id c ∈ ids)) (mfa_recovery_codes d) || negb (bool_decide (NoDup ids))
  then (Err UniqueViolation, d)
  else if negb (forallb (λ c, known_user (rc_user_id c) d) rows) then (Err ForeignKeyViolation, d)
  else (Ok tt, set_codes (mfa_recovery_codes d ++ rows) d).

Definition mark_recovery_code_used (cid at_ : str) : Db_op bool := λ d,
  (Ok (existsb (λ c, rc_id c == cid) (mfa_recovery_codes d)),
   set_codes ((λ c, if rc_id c == cid then mkRecoveryCode (rc_id c) (rc_user_id c) (rc_code_hash c) (Some at_)
                    else c) <$> mfa_recovery_codes d) d).

Definition delete_recovery_codes_for_user (uid : str) : Db_op nat := λ d,
  (Ok (length (List.filter (λ c, rc_user_id c == uid) (mfa_recovery_codes d))),
   set_codes (List.filter (λ c, rc_user_id c != uid) (mfa_recovery_codes d)) d).

Definition insert_mfa_challenge (new : MfaChallengeRow) : Db_op MfaChallengeRow :=
  insert_row mfa_challenges set_challenges (ch_user_id new)
    (λ c, (ch_id c == ch_id new) || (ch_token_hash c == ch_token_hash new)) new.

Definition get_mfa_challenge_by_token_hash (h : str) : Db_op (option MfaChallengeRow) :=
  query (λ d, List.find (λ c, ch_token_hash c == h) (mfa_challenges d)).

Definition open_challenge (cid : str) (c : MfaChallengeRow) : bool := (ch_id c == cid) && (ch_consumed_at c == None).

Definition consume_mfa_challenge (cid : str) (now : Z) : Db_op bool := λ d,
  (Ok (existsb (open_challenge cid) (mfa_challenges d)),
   set_challenges ((λ c, if open_challenge cid c then
       mkChallenge (ch_id c) (ch_user_id c) (ch_token_hash c) (ch_created_at c) (ch_expires_at c) (Some now)
         (ch_failures c)
     else c) <$> mfa_challenges d) d).

Definition bump_failures (cid : str) (c : MfaChallengeRow) : MfaChallengeRow :=
  if ch_id c == cid then
    mkChallenge (ch_id c) (ch_user_id c) (ch_token_hash c) (ch_created_at c) (ch_expires_at c)
      (ch_consumed_at c) (ch_failures c + 1)
  else c.

(** The row is read back, and must be there. *)
Definition bump_mfa_challenge_failure (cid : str) : Db_op Z := λ d,
  let t := bump_failures cid <$> mfa_challenges d in
  (match List.find (λ c, ch_id c == cid) t with Some c => Ok (ch_failures c) | None => Err NotFound end,
   set_challenges t d).

Definition replace_mfa_pending (new : MfaPending) : Db_op MfaPending := λ d,
  let d := set_pending (List.filter (λ p, pn_user_id p != pn_user_id new) (mfa_pending d)) d in
  insert_row mfa_pending set_pending (pn_user_id new)
    (λ p, (pn_id p == pn_id new) || (pn_user_id p == pn_user_id new)) new d.

Definition get_mfa_pending (uid : str) : Db_op (option MfaPending) :=
  query (λ d, List.find (λ p, pn_user_id p == uid) (mfa_pending d)).

Definition delete_mfa_pending (uid : str) : Db_op nat := λ d,
  (Ok (length (List.filter (λ p, pn_user_id p == uid) (mfa_pending d))),
   set_pending (List.filter (λ p, pn_user_id p != uid) (mfa_pending d)) d).

(** ** The server *)

(** The limiters of [AppState] and the process-wide one of the code step. *)
Inductive Limiter := LoginLimiter | PasswordChangeLimiter | MfaCodeLimiter.

#[export] Instance limiter_eq_dec : EqDecision Limiter.
Proof. solve_decision. Defined.

Abbreviation RateLimiter := (LoginLimit.RateLimiter (K := str)).

Record Server := mkServer {
  db : Db;
  login_limiter : RateLimiter;
  password_change_limiter : RateLimiter;
  mfa_code_limiter : RateLimiter }.

Definition MFA_CODES_PER_MINUTE : Z := 5.

(** A fresh data directory: src/server.rs gives the limiters their caps. *)
Definition Server_new : Server :=
  mkServer (mkDb [] [] [] [] [] [] []) (LoginLimit.limiter_new 60) (LoginLimit.limiter_new 5)
    (LoginLimit.limiter_new MFA_CODES_PER_MINUTE).

Definition limiter (l : Limiter) (s : Server) : RateLimiter :=
  match l with
  | LoginLimiter => login_limiter s
  | PasswordChangeLimiter => password_change_limiter s
  | MfaCodeLimiter => mfa_code_limiter s
  end.

Definition set_db (d : Db) (s : Server) : Server :=
  mkServer d (login_limiter s) (password_change_limiter s) (mfa_code_limiter s).

Definition set_limiter (l : Limiter) (r : RateLimiter) (s : Server) : Server :=
  match l with
  | LoginLimiter => mkServer (db s) r (password_change_limiter s) (mfa_code_limiter s)
  | PasswordChangeLimiter => mkServer (db s) (login_limiter s) r (mfa_code_limiter s)
  | MfaCodeLimiter => mkServer (db s) (login_limiter s) (password_change_limiter s) r
  end.

(** ** Calls *)

Inductive Op : Type@{answer} → Type :=
| NowUnix : Op Z
| NowText : Op str
| LimiterCheck (l : Limiter) (key : str) : Op (Result unit Z)
| LimiterFailure (l : Limiter) (key : str) : Op unit
| LimiterReset (l : Limiter) (key : str) : Op unit
| CreateUser (new : User) : Op (Res User)
| GetUser (uid : str) : Op (Res (option User))
| GetUserByUsername (nm : str) : Op (Res (option User))
| ListUsers : Op (Res (list User))
| CountUsers : Op (Res Z)
| UpdateUserRow (uid : str) (c : UpdateUser) : Op (Res (option User))
| DeleteUser (uid : str) : Op (Res bool)
| CreateAuthSession (new : AuthSession) : Op (Res AuthSession)
| GetAuthSession (sid : str) : Op (Res (option AuthSession))
| UpdateLastUsed (sid : str) (now : Z) : Op (Res bool)
| DeleteAuthSession (sid : str) : Op (Res bool)
| DeleteExpired (now : Z) : Op (Res nat)
| DeleteByUser (uid : str) : Op (Res nat)
| DeleteByRemoteDevice (dev : str) : Op (Res nat)
| DeleteByUserExcept (uid sid : str) : Op (Res nat)
| ListAuthSessions (uid : str) : Op (Res (list AuthSession))
| UserHasMfa (uid : str) : Op (Res bool)
| ListMfaMethods (uid : str) : Op (Res (list MfaMethodRow))
| GetMfaMethod (uid kind : str) : Op (Res (option MfaMethodRow))
| InsertMfaMethod (new : MfaMethodRow) : Op (Res MfaMethodRow)
| SetLastTimestep (mid : str) (ts : Z) : Op (Res bool)
| ListUnusedCodes (uid : str) : Op (Res (list MfaRecoveryCode))
| InsertRecoveryCodes (rows : list MfaRecoveryCode) : Op (Res unit)
| MarkCodeUsed (cid at_ : str) : Op (Res bool)
| DeleteCodes (uid : str) : Op (Res nat)
| InsertChallenge (new : MfaChallengeRow) : Op (Res MfaChallengeRow)
| GetChallengeByHash (h : str) : Op (Res (option MfaChallengeRow))
| ConsumeChallenge (cid : str) (now : Z) : Op (Res bool)
| BumpFailure (cid : str) : Op (Res Z)
| ReplacePending (new : MfaPending) : Op (Res MfaPending)
| GetPending (uid : str) : Op (Res (option MfaPending))
| DeletePending (uid : str) : Op (Res nat)
| WipeUserMfa (uid : str) : Op (Res unit)
| ListSealedVars (uid : str) : Op (Res (list EnvVar))
| UpdateSealedVar (vid ct n salt : str) (now : str) : Op (Res bool).

(** What the surroundings decide at a call: whether the database fails, and
    the clocks ([text] is [now] as RFC 3339). *)
Record Fate := mkFate { fault : bool; unix : Z; text : str; instant : Z }.

Definition on_db {A} (f : Db_op A) (w : Fate) (s : Server) : Res A * Server :=
  if fault w then (Err Fault, s) else let '(r, d) := f (db s) in (r, set_db d s).

Definition exec {B} (o : Op B) (w : Fate) (s : Server) : B * Server :=
  match o in Op B return B * Server with
  | NowUnix => (unix w, s)
  | NowText => (text w, s)
  | LimiterCheck l key =>
    let '(r, lim) := LoginLimit.check (limiter l s) key (instant w) in (r, set_limiter l lim s)
  | LimiterFailure l key => (tt, set_limiter l (LoginLimit.record_failure (limiter l s) key (instant w)) s)
  | LimiterReset l key => (tt, set_limiter l (LoginLimit.reset (limiter l s) key) s)
  | CreateUser new => on_db (create_user new) w s
  | GetUser uid => on_db (get_user uid) w s
  | GetUserByUsername nm => on_db (get_user_by_username nm) w s
  | ListUsers => on_db list_users w s
  | CountUsers => on_db count_users w s
  | UpdateUserRow uid c => on_db (update_user uid c) w s
  | DeleteUser uid => on_db (delete_user uid) w s
  | CreateAuthSession new => on_db (create_auth_session_via new) w s
  | GetAuthSession sid => on_db (get_auth_session sid) w s
  | UpdateLastUsed sid now => on_db (update_auth_session_last_used sid now) w s
  | DeleteAuthSession sid => on_db (delete_auth_session sid) w s
  | DeleteExpired now => on_db (delete_expired_auth_sessions now) w s
  | DeleteByUser uid => on_db (delete_auth_sessions_by_user uid) w s
  | DeleteByRemoteDevice dev => on_db (delete_auth_sessions_by_remote_device dev) w s
  | DeleteByUserExcept uid sid => on_db (delete_auth_sessions_by_user_except uid sid) w s
  | ListAuthSessions uid => on_db (list_auth_sessions_by_user uid) w s
  | UserHasMfa uid => on_db (user_has_mfa uid) w s
  | ListMfaMethods uid => on_db (list_mfa_methods uid) w s
  | GetMfaMethod uid kind => on_db (get_mfa_method uid kind) w s
  | InsertMfaMethod new => on_db (insert_mfa_method new) w s
  | SetLastTimestep mid ts => on_db (set_mfa_last_timestep mid ts) w s
  | ListUnusedCodes uid => on_db (list_unused_recovery_codes uid) w s
  | InsertRecoveryCodes rows => on_db (insert_recovery_codes rows) w s
  | MarkCodeUsed cid at_ => on_db (mark_recovery_code_used cid at_) w s
  | DeleteCodes uid => on_db (delete_recovery_codes_for_user uid) w s
  | InsertChallenge new => on_db (insert_mfa_challenge new) w s
  | GetChallengeByHash h => on_db (get_mfa_challenge_by_token_hash h) w s
  | ConsumeChallenge cid now => on_db (consume_mfa_challenge cid now) w s
  | BumpFailure cid => on_db (bump_mfa_challenge_failure cid) w s
  | ReplacePending new => on_db (replace_mfa_pending new) w s
  | GetPending uid => on_db (get_mfa_pending uid) w s
  | DeletePending uid => on_db (delete_mfa_pending uid) w s
  | WipeUserMfa uid => on_db (wipe_user_mfa uid) w s
  | ListSealedVars uid => on_db (query (λ d, list_env_vars_encrypted_by uid (env_vars d))) w s
  | UpdateSealedVar vid ct n salt now =>
    on_db (λ d, let '(hit, t) := update_env_var_ciphertext vid ct n salt now (env_vars d) in
                (Ok hit, set_env_vars t d)) w s
  end.

(** ** Programs *)

Abbreviation Prog := (Programs.Prog Op).
Abbreviation H := (Programs.H Op).
End AuthDb.
