(* ===== verification/Auth.v ===== *)
(** * Authentication

    src/auth/ (password, token, session, middleware, access, reset, bootstrap
    and the whole of mfa/) and the handlers of src/routes/auth.rs, as programs
    over the calls of [AuthDb].  The crates for JWTs, SHA-256, TOTP, QR codes
    and Argon2 are the classes [AuthCrypto] and [Crypto]; random values are the
    draws [Rand] a request is given.  A handler's early returns are errors of
    the monad [H].  Logging is left out; a delay of a limiter is an interleaving
    point like any other. *)

From S2P Require Import Prelude Programs CharStr EnvVars Gates AuthDb.

Module Auth.
Export AuthDb.

(** ** The crates *)

Record Claims := mkClaims { sub : str; c_role : str; jti : str; iat : Z; exp_ : Z }.

Class AuthCrypto := {
  (** HS256 under a secret; decoding at a time also checks [exp]. *)
  jwt_encode : bytes → Claims → option str;
  jwt_decode : bytes → Z → str → option Claims;
  (** SHA-256 in hexadecimal. *)
  sha256_hex : str → str;
  (** [Secret::Raw(..).to_encoded], [Secret::Encoded(..).to_bytes], whether
      [TOTP::new] takes the secret, [check] of a code at a time, [get_url]. *)
  secret_encode : bytes → str;
  secret_decode : str → option bytes;
  totp_new : bytes → str → bool;
  totp_check : bytes → str → Z → bool;
  totp_url : bytes → str → str;
  qr_code : str → option str;
}.

(** The random values a request draws: [uuid n] is its [n]-th uuid. *)
Record Rand := mkRand {
  uuid : nat → str;
  token_bytes : bytes;
  totp_raw : bytes;
  vault_nonce : nat → bytes;
  hash_salt : nat → bytes;
  code_index : nat → nat → nat;
  password_index : nat → nat;
  var_draw : nat → bytes * bytes }.

(** ** Errors and responses *)

Inductive Fail := DbFail (e : DbErr) | CryptoFail (what : string).

Inductive MfaError :=
| InvalidPassword | InvalidCode | AlreadyEnabled | NotEnabled | UnknownMethod
| ChallengeUnknown | ChallengeExpired | ChallengeConsumed
| PendingExpired | PendingMissing | LockedOut
| Internal (e : Fail).

Record UserInfo := mkUserInfo { i_id : str; i_username : str; i_role : str; i_mfa_enabled : bool }.

(** What the JSON of a response says. *)
Inductive Body :=
| BNone
| BError (msg : string)
| BMfaError (e : MfaError)
| BFail (e : Fail)
| BFieldError (msgs : list string) (field : option string)
| BAuth (token : str) (user : UserInfo)
| BMfaRequired (challenge : str) (methods : list str)
| BInfo (user : UserInfo)
| BSessions (rows : list (AuthSession * bool))
| BUsers (rows : list (User * bool))
| BUser (row : User)
| BMethods (enabled : bool) (rows : list (str * str))
| BEnroll (secret url qr : str)
| BCodes (codes : list str)
(** What the command line and the start of the server print or hand on. *)
| BCredentials (name password : str)
| BStarted (credentials : option (str * str)) (token : option str).

Record Response := mkResponse { status : Z; body : Body }.

Definition resp_500 (e : Fail) : Response := mkResponse 500 (BFail e).
Definition forbidden : Response := mkResponse 403 (BError "admin only").
Definition user_not_found : Response := mkResponse 404 (BError "user not found").
Definition unauthorized : Response := mkResponse 401 (BError "unauthorized").

(** [MfaError::status] and [authed_status]. *)
Definition mfa_status_code (e : MfaError) : Z :=
  match e with
  | InvalidPassword | InvalidCode | LockedOut => 401
  | AlreadyEnabled => 409
  | NotEnabled | UnknownMethod | PendingExpired | PendingMissing => 400
  | ChallengeUnknown | ChallengeExpired | ChallengeConsumed => 401
  | Internal _ => 500
  end.
Definition authed_status (e : MfaError) : Z :=
  match e with InvalidPassword | InvalidCode => 403 | other => mfa_status_code other end.

Definition mfa_http_err (e : MfaError) : Response := mkResponse (mfa_status_code e) (BMfaError e).
Definition mfa_authed_err (e : MfaError) : Response := mkResponse (authed_status e) (BMfaError e).

(** A database call under [map_err]. *)
Definition db_mfa {A} (o : Op (Res A)) : H MfaError A := map_err (λ e, Internal (DbFail e)) (call o).
Definition db_500 {A} (o : Op (Res A)) : H Response A := map_err (λ e, resp_500 (DbFail e)) (call o).
(** [.ok()], and [.ok().flatten()]. *)
Definition db_ok {E A} (o : Op (Res A)) : H E (option A) := infallible (prog_bind (λ r, Ret (result_ok r)) (call o)).
Definition db_flat {E A} (o : Op (Res (option A))) : H E (option A) :=
  infallible (prog_bind (λ r, Ret (mjoin (result_ok r))) (call o)).
Definition now_unix {E} : H E Z := infallible (call NowUnix).
Definition now_text {E} : H E str := infallible (call NowText).

(** ** Tokens, TOTP and recovery codes *)

Section crypto.
Context `{Crypto, AuthCrypto}.

Definition hash_token (token : str) : str := sha256_hex token.

Definition JWT_EXPIRY_SECS : Z := 7 * 24 * 60 * 60.

Definition create_token (secret : bytes) (now : Z) (user_id role session_id : str) : Result Fail (str * Z) :=
  let exp := now + JWT_EXPIRY_SECS in
  match jwt_encode secret (mkClaims user_id role session_id now exp) with
  | Some token => Ok (token, exp)
  | None => Err (CryptoFail "failed to create JWT")
  end.

Definition validate_token (secret : bytes) (now : Z) (token : str) : option Claims := jwt_decode secret now token.

(** *** vault.rs *)

Definition vault_encrypt (key nonce : bytes) (plaintext : str) : Result Fail (str * str) :=
  match aead_encrypt key nonce (encode plaintext) with
  | Some ct => Ok (b64_encode ct, hex_encode nonce)
  | None => Err (CryptoFail "MFA secret encryption failed")
  end.

Definition vault_decrypt (key : bytes) (nonce_hex ct_b64 : str) : Result Fail str :=
  nonce ← ok_or (CryptoFail "hex") (hex_decode nonce_hex);
  if length nonce != 12%nat then Err (CryptoFail "invalid nonce length")
  else
    ct ← ok_or (CryptoFail "base64") (b64_decode ct_b64);
    pt ← ok_or (CryptoFail "MFA secret decryption failed") (aead_decrypt key nonce ct);
    ok_or (CryptoFail "utf-8") (decode pt).

(** *** totp.rs *)

Definition TOTP_KIND : str := lit "totp".
Definition DIGITS : nat := 6.
Definition STEP : Z := 30.

Definition sanitize_account (account : str) : str :=
  let trimmed := trim account in
  if trimmed == [] then lit "user" else (λ c, if c == 58 then 45 else c) <$> trimmed.

Definition totp_for (secret : bytes) (account : str) : Result MfaError bytes :=
  if totp_new secret (sanitize_account account) then Ok secret else Err (Internal (CryptoFail "totp")).

Definition secret_bytes (secret_b32 : str) : Result MfaError bytes :=
  ok_or (Internal (CryptoFail "totp secret")) (secret_decode (trim secret_b32)).

Record EnrollMaterial := mkMaterial { secret_b32 : str; otpauth_url : str; qr_svg : str }.

(** [raw] is the drawn secret. *)
Definition enroll_material (raw : bytes) (account : str) : Result MfaError EnrollMaterial :=
  totp ← totp_for raw account;
  let url := totp_url totp (sanitize_account account) in
  Ok (mkMaterial (secret_encode raw) url (default [] (qr_code url))).

Fixpoint scan_windows (totp : bytes) (digits : str) (last : Z) (windows : list Z) : Result MfaError Z :=
  match windows with
  | [] => Err InvalidCode
  | ts :: rest =>
    if (ts <? 0) || (ts <=? last) then scan_windows totp digits last rest
    else if totp_check totp digits (Z.min (ts * STEP) (2 ^ 64 - 1)) then Ok ts
    else scan_windows totp digits last rest
  end.

Definition totp_verify (secret_b32 code : str) (last_timestep : option Z) (now : Z) : Result MfaError Z :=
  let digits := List.filter ascii_digit code in
  if str_len digits != DIGITS then Err InvalidCode
  else
    secret ← secret_bytes secret_b32;
    totp ← totp_for secret (lit "verify");
    let current := now / STEP in
    scan_windows totp digits (default (-1) last_timestep) ((λ delta, current + delta) <$> [-1; 0; 1]).

(** *** recovery.rs *)

Definition RECOVERY_KIND : str := lit "recovery".
Definition COUNT : nat := 10.
Definition CHARS : nat := 8.
Definition ALPHABET : str := lit "ABCDEFGHJKLMNPQRSTUVWXYZ23456789".

Definition ascii_alphanumeric (c : char) : bool := ascii_alphabetic c || ascii_digit c.

Definition normalize (code : str) : str := to_ascii_uppercase <$> List.filter ascii_alphanumeric code.

Definition looks_like_recovery (normalized : str) : bool :=
  (str_len normalized == CHARS) && forallb (λ c, bool_decide (c ∈ ALPHABET)) normalized.

(** The slices are of draws from [ALPHABET], where bytes are characters. *)
Definition format_display (normalized : str) : str :=
  if str_len normalized == CHARS then take 4 normalized ++ [45] ++ drop 4 normalized else normalized.

(** [index n i] is the draw for character [i] of code [n]. *)
Definition generate_plain (index : nat → nat → nat) : list str :=
  (λ n, format_display ((λ i, nth (index n i mod length ALPHABET)%nat ALPHABET 65) <$> seq 0 CHARS)) <$> seq 0 COUNT.

Definition hash_plain (salt : bytes) (display : str) : Result MfaError str :=
  ok_or (Internal (CryptoFail "failed to hash password")) (hash_password salt (normalize display)).

Fixpoint first_match (norm : str) (unused : list (str * str)) : Result MfaError str :=
  match unused with
  | [] => Err InvalidCode
  | (cid, hash) :: rest => if verify_password norm hash then Ok cid else first_match norm rest
  end.

Definition find_match (code : str) (unused : list (str * str)) : Result MfaError str :=
  let norm := normalize code in
  if negb (looks_like_recovery norm) then Err InvalidCode else first_match norm unused.

(** ** mfa/mod.rs *)

(** *** Proof tokens *)

Record PasswordVerified := mkPasswordVerified { pv_user_id : str; pv_role : str; pv_username : str; pv_mfa_enabled : bool }.
Record SessionGrant := mkGrant { g_user_id : str; g_role : str; g_username : str }.
Record MfaVerified := mkMfaVerified { mv_user_id : str; mv_role : str; mv_username : str }.

Definition after_password_ok (user : User) (mfa_enabled : bool) : PasswordVerified :=
  mkPasswordVerified (u_id user) (role user) (username user) mfa_enabled.

(** Password is enough only when MFA is not enrolled. *)
Definition password_grant (p : PasswordVerified) : Result PasswordVerified SessionGrant :=
  if pv_mfa_enabled p then Err p else Ok (mkGrant (pv_user_id p) (pv_role p) (pv_username p)).

Definition mfa_grant (v : MfaVerified) : SessionGrant := mkGrant (mv_user_id v) (mv_role v) (mv_username v).

(** *** Methods *)

Record MfaMethod := mkMethod { kind : str; verify : str → str → H MfaError unit }.

Context (jwt_secret vault_key : bytes).

Definition totp_method_verify (user_id code : str) : H MfaError unit :=
  found ← db_mfa (GetMfaMethod user_id TOTP_KIND);
  row ← lift (ok_or NotEnabled found);
  match m_secret_ct row, m_secret_nonce row with
  | Some ct, Some nonce =>
    secret ← lift (match vault_decrypt vault_key nonce ct with Ok s => Ok s | Err e => Err (Internal e) end);
    now ← now_unix;
    ts ← lift (totp_verify secret code (m_last_timestep row) now);
    _ ← db_mfa (SetLastTimestep (m_id row) ts);
    mret tt
  | _, _ => throw (Internal (CryptoFail "totp secret missing"))
  end.

Definition recovery_method_verify (user_id code : str) : H MfaError unit :=
  unused ← db_mfa (ListUnusedCodes user_id);
  if unused == [] then throw InvalidCode
  else
    cid ← lift (find_match code ((λ r, (rc_id r, rc_code_hash r)) <$> unused));
    at_ ← now_text;
    _ ← db_mfa (MarkCodeUsed cid at_);
    mret tt.

(** [MfaRegistry::builtin] and [get]. *)
Definition builtin : list MfaMethod :=
  [mkMethod TOTP_KIND totp_method_verify; mkMethod RECOVERY_KIND recovery_method_verify].
Definition registry_get (k : str) : option MfaMethod := List.find (λ m, kind m == k) builtin.

Definition verify_code_for_user (user_id method code : str) : H MfaError unit :=
  m ← lift (ok_or UnknownMethod (registry_get method));
  verify m user_id code.

Definition available_methods (user_id : str) : H MfaError (list str) :=
  found ← db_mfa (GetMfaMethod user_id TOTP_KIND);
  unused ← db_mfa (ListUnusedCodes user_id);
  mret ((if is_some found then [TOTP_KIND] else []) ++ (if unused != [] then [RECOVERY_KIND] else [])).

Definition mfa_status_of (user_id : str) : H MfaError (bool * list (str * str)) :=
  methods ← db_mfa (ListMfaMethods user_id);
  mret (methods != [], (λ m, (m_kind m, m_created_at m)) <$> methods).

(** *** challenge.rs *)

Definition TTL_SECS : Z := 5 * 60.
Definition MAX_FAILURES : Z := 8.

Definition random_token (r : Rand) : str := hex_encode (token_bytes r).

Definition issue_challenge (r : Rand) (proof : PasswordVerified) : H MfaError str :=
  if negb (pv_mfa_enabled proof) then throw NotEnabled
  else
    let raw := random_token r in
    now ← now_unix;
    _ ← db_mfa (InsertChallenge (mkChallenge (uuid r 0) (pv_user_id proof) (hash_token raw) now (now + TTL_SECS)
                                  None 0));
    mret raw.

Definition load_live (raw_token : str) : H MfaError MfaChallengeRow :=
  let token := trim raw_token in
  if token == [] then throw ChallengeUnknown
  else
    found ← db_mfa (GetChallengeByHash (hash_token token));
    row ← lift (ok_or ChallengeUnknown found);
    now ← now_unix;
    if is_some (ch_consumed_at row) then throw ChallengeConsumed
    else if (ch_expires_at row <=? now) || (MAX_FAILURES <=? ch_failures row) then throw ChallengeExpired
    else mret row.

Definition consume (live : MfaChallengeRow) : H MfaError unit :=
  now ← now_unix;
  ok ← db_mfa (ConsumeChallenge (ch_id live) now);
  if negb ok then throw ChallengeConsumed else mret tt.

Definition record_failure (live : MfaChallengeRow) : H MfaError unit :=
  failures ← db_mfa (BumpFailure (ch_id live));
  if MAX_FAILURES <=? failures then
    now ← now_unix;
    _ ← ignore (call (ConsumeChallenge (ch_id live) now));
    throw LockedOut
  else mret tt.

(** *** Enrolment *)

Definition PENDING_TTL_SECS : Z := 10 * 60.

Definition require_password (user : User) (password : str) : Result MfaError unit :=
  if verify_password password (password_hash user) then Ok tt else Err InvalidPassword.

Definition internal {A} (r : Result Fail A) : Result MfaError A :=
  match r with Ok a => Ok a | Err e => Err (Internal e) end.

Definition begin_totp (r : Rand) (user : User) (password : str) : H MfaError EnrollMaterial :=
  _ ← lift (require_password user password);
  enabled ← db_mfa (UserHasMfa (u_id user));
  if enabled : bool then throw AlreadyEnabled
  else
    material ← lift (enroll_material (totp_raw r) (username user));
    sealed ← lift (internal (vault_encrypt vault_key (vault_nonce r 0) (secret_b32 material)));
    now ← now_unix;
    _ ← db_mfa (ReplacePending (mkPending (uuid r 0) (u_id user) TOTP_KIND sealed.1 sealed.2 now
                                 (now + PENDING_TTL_SECS)));
    mret material.

(** The rows of the codes a user is shown, with the draws from [n] on. *)
Fixpoint code_rows (r : Rand) (uid : str) (n : nat) (plains : list str) : Result MfaError (list MfaRecoveryCode) :=
  match plains with
  | [] => Ok []
  | p :: rest =>
    hash ← hash_plain (hash_salt r n) p;
    rows ← code_rows r uid (S n) rest;
    Ok (mkRecoveryCode (uuid r n) uid hash None :: rows)
  end.

Definition confirm_totp (r : Rand) (user : User) (password code : str) : H MfaError (list str) :=
  _ ← lift (require_password user password);
  enabled ← db_mfa (UserHasMfa (u_id user));
  if enabled : bool then throw AlreadyEnabled
  else
    found ← db_mfa (GetPending (u_id user));
    pending ← lift (ok_or PendingMissing found);
    if pn_kind pending != TOTP_KIND then throw PendingMissing
    else
      now ← now_unix;
      if pn_expires_at pending <=? now then
        _ ← ignore (call (DeletePending (u_id user)));
        throw PendingExpired
      else
        secret ← lift (internal (vault_decrypt vault_key (pn_secret_nonce pending) (pn_secret_ct pending)));
        now' ← now_unix;
        _ ← lift (totp_verify secret code None now');
        sealed ← lift (internal (vault_encrypt vault_key (vault_nonce r 0) secret));
        created ← now_text;
        _ ← db_mfa (InsertMfaMethod (mkMfaMethod (uuid r 0) (u_id user) TOTP_KIND
                      (Some (lit "Authenticator app")) (Some sealed.1) (Some sealed.2) None created));
        let plains := generate_plain (code_index r) in
        rows ← lift (code_rows r (u_id user) 1 plains);
        _ ← db_mfa (InsertRecoveryCodes rows);
        _ ← ignore (call (DeletePending (u_id user)));
        mret plains.

Definition disable (user : User) (password method code : str) : H MfaError unit :=
  _ ← lift (require_password user password);
  enabled ← db_mfa (UserHasMfa (u_id user));
  if negb enabled then throw NotEnabled
  else
    _ ← verify_code_for_user (u_id user) method code;
    _ ← db_mfa (WipeUserMfa (u_id user));
    mret tt.

Definition regenerate_recovery (r : Rand) (user : User) (password method code : str) : H MfaError (list str) :=
  _ ← lift (require_password user password);
  enabled ← db_mfa (UserHasMfa (u_id user));
  if negb enabled then throw NotEnabled
  else
    _ ← verify_code_for_user (u_id user) method code;
    _ ← db_mfa (DeleteCodes (u_id user));
    let plains := generate_plain (code_index r) in
    rows ← lift (code_rows r (u_id user) 0 plains);
    _ ← db_mfa (InsertRecoveryCodes rows);
    mret plains.

Definition verify_challenge (raw_token method code : str) : H MfaError MfaVerified :=
  live ← load_live raw_token;
  verified ← outcome (verify_code_for_user (ch_user_id live) method code);
  match verified with
  | Ok _ =>
    _ ← consume live;
    found ← db_mfa (GetUser (ch_user_id live));
    user ← lift (ok_or (Internal (CryptoFail "user missing")) found);
    mret (mkMfaVerified (u_id user) (role user) (username user))
  | Err InvalidCode =>
    _ ← ignore (record_failure live);
    throw InvalidCode
  | Err e => throw e
  end.

(** ** session.rs *)

(** The clock is read for the token and again for the row. *)
Definition issue_session_token (r : Rand) (user_id role : str) (user_agent ip_address remote_device_id : option str) :
    H Fail str :=
  let session_id := uuid r 0 in
  now ← now_unix;
  issued ← lift (create_token jwt_secret now user_id role session_id);
  let '(token, exp) := issued in
  now_ts ← now_unix;
  _ ← map_err DbFail (call (CreateAuthSession
        (mkAuthSession session_id user_id (hash_token token) now_ts exp None user_agent ip_address
           remote_device_id)));
  mret token.

Definition complete_login (r : Rand) (g : SessionGrant) (user_agent ip_address remote_device_id : option str) : H Fail str :=
  issue_session_token r (g_user_id g) (g_role g) user_agent ip_address remote_device_id.

(** ** middleware.rs and access.rs *)

Record AuthUser := mkAuthUser { a_user_id : str; a_role : str; a_session_id : str }.

Definition is_admin (u : AuthUser) : bool := a_role u == lit "admin".

(** [header] is the Authorization header, if it is text. *)
Definition extract_bearer_token (header : option str) : option str :=
  value ← header;
  if starts_with value (lit "Bearer ") then Some (drop 7 value) else None.

Definition require_auth (header : option str) : H Response AuthUser :=
  token ← lift (ok_or unauthorized (extract_bearer_token header));
  now ← now_unix;
  claims ← lift (ok_or unauthorized (validate_token jwt_secret now token));
  session ← db_flat (GetAuthSession (jti claims));
  if negb (is_some session) then throw unauthorized
  else
    now' ← now_unix;
    _ ← ignore (call (UpdateLastUsed (jti claims) now'));
    mret (mkAuthUser (sub claims) (c_role claims) (jti claims)).

Definition may_access_session (is_admin : bool) (user_id : str) (session_user_id session_project_id : option str) : bool :=
  is_admin || is_some session_project_id || (session_user_id == Some user_id).

(** The layers behind [require_auth]; [user] is its extension. *)
Definition require_admin (user : option AuthUser) : Result Response unit :=
  if negb (default false (is_admin <$> user)) then Err forbidden else Ok tt.

Definition session_not_found : Response := mkResponse 404 (BError "session not found").

(** [id] is the path parameter and [lookup] what the sessions table answers
    for it: the owner and the project of the row. *)
Definition require_session_access (user : option AuthUser) (id : option str)
    (lookup : str → Res (option (option str * option str))) : Result Response unit :=
  match user with
  | None => Err unauthorized
  | Some u =>
    match id with
    | None => Err session_not_found
    | Some sid =>
      let allowed := match mjoin (result_ok (lookup sid)) with
                     | Some (owner, project) => may_access_session (is_admin u) (a_user_id u) owner project
                     | None => false
                     end in
      if negb allowed then Err session_not_found else Ok tt
    end
  end.

End crypto.
End Auth.
