(* ===== verification/AuthRoutes.v ===== *)
(** * The routes of authentication

    The handlers of src/routes/auth.rs, [reset_user_password] of
    src/auth/reset.rs, [ensure_admin_user] of src/auth/bootstrap.rs and the
    steps of src/server.rs that start from it, and a server that runs any
    number of them at once: [World], the actions on it and the trace of calls
    they leave. *)

From S2P Require Import Prelude Programs CharStr EnvVars Gates AuthDb Auth.

Module Routes.
Export Auth.

(** ** Requests *)

(** The parts of a request that reach the auth session it may create. *)
Record Client := mkClient { ip : str; agent : option str; device : option str }.

(** A body the handler reads itself: unreadable, not the JSON it wants, or read. *)
Inductive Payload (A : Type) := BadBody | BadJson | Parsed (a : A).
Arguments BadBody {A}.
Arguments BadJson {A}.
Arguments Parsed {A} a.

Record LoginRequest := mkLogin { l_username : str; l_password : str }.
Record ChangePasswordRequest := mkChange { current_password : str; next_password : str }.
Record CreateUserRequest := mkCreate { n_username : str; n_password : str; n_email : option str; n_role : option str }.
Record MfaVerifyBody := mkMfaVerify { v_challenge : str; v_method : str; v_code : str }.
Record MfaCodeBody := mkMfaCode { b_password : str; b_method : str; b_code : str }.

(** A request behind [require_auth] carries its Authorization header. *)
Inductive Protected :=
| Logout
| Me
| ChangePassword (c : Client) (p : Payload ChangePasswordRequest)
| ListSessions
| RevokeOne (sid : str)
| RevokeAll
| ListAllUsers
| GetOneUser (uid : str)
| CreateOneUser (p : Payload CreateUserRequest)
| AdminSetPassword (uid : str) (p : Payload str)
| DeleteOneUser (uid : str)
| MfaStatus
| TotpBegin (password : str)
| TotpConfirm (password code : str)
| MfaDisable (b : MfaCodeBody)
| MfaRegenerate (b : MfaCodeBody)
| AdminWipeMfa (uid : str).

(** What starts a program: the requests, the --reset-password command, and
    the start of the server, with the variables of its environment and whether
    it is the desktop app. *)
Inductive Request :=
| Login (c : Client) (q : LoginRequest)
| MfaVerify (c : Client) (q : MfaVerifyBody)
| Authed (header : option str) (p : Protected)
| ResetPassword (name : option str)
| Startup (env_username env_password : option str) (desktop : bool).

Section routes.
Context `{Crypto, AuthCrypto} (jwt_secret vault_key : bytes).

(** [s.chars().take(256)]. *)
Definition user_agent (c : Client) : option str := take 256 <$> agent c.

Definition read_body {A} (p : Payload A) : Result Response A :=
  match p with
  | BadBody => Err (mkResponse 400 (BError "invalid body"))
  | BadJson => Err (mkResponse 400 (BError "invalid JSON"))
  | Parsed a => Ok a
  end.

Definition too_many (msg : string) (r : Result unit Z) : Result Response unit :=
  match r with Ok _ => Ok tt | Err _ => Err (mkResponse 429 (BError msg)) end.

(** [limiter.check(key)] with its refusal; the delay is not a step. *)
Definition throttle (l : Limiter) (key : str) (msg : string) : H Response unit :=
  r ← infallible (call (LimiterCheck l key));
  lift (too_many msg r).

Definition throttle_user (uid : str) : H Response unit :=
  throttle PasswordChangeLimiter uid "too many attempts, try again later".

(** [map_err(throttled_mfa_err)]. *)
Definition throttled {A} (uid : str) (m : H MfaError A) : H Response A :=
  r ← outcome m;
  match r with
  | Ok a => mret a
  | Err e =>
    match e with
    | InvalidPassword | InvalidCode =>
      _ ← infallible (call (LimiterFailure PasswordChangeLimiter uid));
      throw (mfa_authed_err e)
    | _ => throw (mfa_authed_err e)
    end
  end.

Definition user_info (u : User) : H Response UserInfo :=
  mfa ← infallible (call (UserHasMfa (u_id u)));
  mret (mkUserInfo (u_id u) (username u) (role u) (match mfa with Ok b => b | Err _ => false end)).

(** ** Signing in *)

(** The password check of [login]: a missing user is checked against a decoy. *)
Definition check_password (password : str) (user : option User) : option User :=
  match user with
  | Some u => if verify_password password (password_hash u) then Some u else None
  | None => None
  end.

Definition login (r : Rand) (c : Client) (q : LoginRequest) : H Response Response :=
  _ ← throttle LoginLimiter (ip c) "too many login attempts, try again later";
  found ← db_500 (GetUserByUsername (l_username q));
  match check_password (l_password q) found with
  | None =>
    _ ← infallible (call (LimiterFailure LoginLimiter (ip c)));
    throw (mkResponse 401 (BError "invalid credentials"))
  | Some user =>
    mfa_enabled ← db_500 (UserHasMfa (u_id user));
    match password_grant (after_password_ok user mfa_enabled) with
    | Ok grant =>
      token ← map_err resp_500
        (complete_login jwt_secret r grant (user_agent c) (Some (ip c)) (device c));
      _ ← infallible (call (LimiterReset LoginLimiter (ip c)));
      mret (mkResponse 200 (BAuth token (mkUserInfo (g_user_id grant) (g_username grant) (g_role grant) false)))
    | Err proof =>
      raw ← map_err mfa_http_err (issue_challenge r proof);
      methods ← map_err mfa_http_err (available_methods (pv_user_id proof));
      mret (mkResponse 202 (BMfaRequired raw methods))
    end
  end.

(** Failed codes count against the address and the challenge's owner. *)
Definition charge_code (c : Client) (owner : option str) (e : MfaError) : H Response unit :=
  match e with
  | InvalidCode | LockedOut =>
    _ ← infallible (call (LimiterFailure LoginLimiter (ip c)));
    match owner with
    | Some uid => infallible (call (LimiterFailure MfaCodeLimiter uid))
    | None => mret tt
    end
  | _ => mret tt
  end.

Definition mfa_verify (r : Rand) (c : Client) (q : MfaVerifyBody) : H Response Response :=
  _ ← throttle LoginLimiter (ip c) "too many login attempts, try again later";
  found ← db_flat (GetChallengeByHash (hash_token (trim (v_challenge q))));
  let challenge_user := ch_user_id <$> found in
  _ ← match challenge_user with
      | Some uid => throttle MfaCodeLimiter uid "too many MFA attempts, try again later"
      | None => mret tt
      end;
  verified ← outcome (verify_challenge vault_key (v_challenge q) (v_method q) (v_code q));
  match verified with
  | Ok v =>
    let grant := mfa_grant v in
    token ← map_err resp_500
      (complete_login jwt_secret r grant (user_agent c) (Some (ip c)) (device c));
    _ ← infallible (call (LimiterReset LoginLimiter (ip c)));
    _ ← match challenge_user with
        | Some uid => infallible (call (LimiterReset MfaCodeLimiter uid))
        | None => mret tt
        end;
    user ← db_flat (GetUser (g_user_id grant));
    info ← match user with
           | Some u => user_info u
           | None => mret (mkUserInfo (g_user_id grant) (g_username grant) (g_role grant) true)
           end;
    mret (mkResponse 200 (BAuth token info))
  | Err e =>
    _ ← charge_code c challenge_user e;
    throw (mfa_http_err e)
  end.

(** ** Sessions *)

Definition logout (a : AuthUser) : H Response Response :=
  _ ← ignore (call (DeleteAuthSession (a_session_id a)));
  mret (mkResponse 204 BNone).

Definition me (a : AuthUser) : H Response Response :=
  user ← db_flat (GetUser (a_user_id a));
  match user with
  | Some u => info ← user_info u; mret (mkResponse 200 (BInfo info))
  | None => throw (mkResponse 404 BNone)
  end.

Definition list_sessions (a : AuthUser) : H Response Response :=
  rows ← db_ok (ListAuthSessions (a_user_id a));
  mret (mkResponse 200 (BSessions ((λ s, (s, s_id s == a_session_id a)) <$> default [] rows))).

Definition revoke_one (a : AuthUser) (sid : str) : H Response Response :=
  session ← db_flat (GetAuthSession sid);
  match session with
  | Some s =>
    if (s_user_id s == a_user_id a) || is_admin a then
      _ ← ignore (call (DeleteAuthSession sid));
      mret (mkResponse 204 BNone)
    else mret (mkResponse 403 BNone)
  | None => mret (mkResponse 404 BNone)
  end.

Definition revoke_all (a : AuthUser) : H Response Response :=
  _ ← ignore (call (DeleteByUserExcept (a_user_id a) (a_session_id a)));
  mret (mkResponse 204 BNone).

(** ** Passwords *)

Definition password_ok (new : str) : Result Response unit :=
  if (str_len new <? MIN_PASSWORD_LEN)%nat
  then Err (mkResponse 400 (BError "new password must be at least 12 characters"))
  else Ok tt.

Definition new_hash (r : Rand) (new : str) : Result Response str :=
  ok_or (resp_500 (CryptoFail "failed to hash password")) (hash_password (hash_salt r 0) new).

Definition authed_user (a : AuthUser) : H Response User :=
  found ← db_500 (GetUser (a_user_id a));
  lift (ok_or user_not_found found).

(** The re-encryption loop; failures are logged and passed over. *)
Fixpoint reseal (r : Rand) (current new : str) (round : nat) (vs : list EnvVar) : H Response unit :=
  match vs with
  | [] => mret tt
  | v :: rest =>
    _ ← match decrypt_row current v with
        | None => mret tt
        | Some plaintext =>
          match encrypt_value (var_draw r round).1 (var_draw r round).2 new plaintext with
          | Some enc =>
            now ← now_text;
            ignore (call (UpdateSealedVar (EnvVars.id v) (ciphertext_b64 enc) (nonce_hex enc) (kdf_salt_hex enc) now))
          | None => mret tt
          end
        end;
    reseal r current new (S round) rest
  end.

Definition change_password (r : Rand) (a : AuthUser) (c : Client) (p : Payload ChangePasswordRequest) :
    H Response Response :=
  _ ← throttle PasswordChangeLimiter (a_user_id a) "too many password changes, try again later";
  b ← lift (read_body p);
  _ ← lift (password_ok (next_password b));
  user ← authed_user a;
  if negb (verify_password (current_password b) (password_hash user)) then
    _ ← infallible (call (LimiterFailure PasswordChangeLimiter (a_user_id a)));
    throw (mkResponse 401 (BError "current password is incorrect"))
  else
    hash ← lift (new_hash r (next_password b));
    now ← now_text;
    _ ← db_500 (UpdateUserRow (a_user_id a) (new_password hash now));
    sealed ← db_ok (ListSealedVars (a_user_id a));
    _ ← reseal r (current_password b) (next_password b) 0 (default [] sealed);
    _ ← db_500 (DeleteByUser (a_user_id a));
    token ← map_err resp_500
      (issue_session_token jwt_secret r (u_id user) (role user) (user_agent c) (Some (ip c)) (device c));
    _ ← infallible (call (LimiterReset PasswordChangeLimiter (a_user_id a)));
    info ← user_info user;
    mret (mkResponse 200 (BAuth token info)).

(** ** Users (admin) *)

Definition admin_only (a : AuthUser) : Result Response unit := if negb (is_admin a) then Err forbidden else Ok tt.

Fixpoint with_mfa (us : list User) : H Response (list (User * bool)) :=
  match us with
  | [] => mret []
  | u :: rest =>
    mfa ← db_ok (UserHasMfa (u_id u));
    more ← with_mfa rest;
    mret ((u, default false mfa) :: more)
  end.

Definition list_users (a : AuthUser) : H Response Response :=
  _ ← lift (admin_only a);
  us ← db_500 ListUsers;
  rows ← with_mfa us;
  mret (mkResponse 200 (BUsers rows)).

Definition get_user (a : AuthUser) (uid : str) : H Response Response :=
  if negb (is_admin a) && (a_user_id a != uid) then throw (mkResponse 403 (BError "forbidden"))
  else
    found ← db_500 (GetUser uid);
    match found with
    | Some u => mret (mkResponse 200 (BUser u))
    | None => throw user_not_found
    end.

(** Both problems are reported; the field is the first one's. *)
Definition check_new_user (b : CreateUserRequest) : Result Response unit :=
  let no_name := trim (n_username b) == [] in
  let short := (str_len (n_password b) <? MIN_PASSWORD_LEN)%nat in
  let problems := (if no_name then ["username is required"%string] else []) ++
                  (if short then ["password must be at least 12 characters"%string] else []) in
  let field := if no_name then Some "username"%string else if short then Some "password"%string else None in
  if problems != [] then Err (mkResponse 400 (BFieldError problems field)) else Ok tt.

Definition create_user (r : Rand) (a : AuthUser) (p : Payload CreateUserRequest) : H Response Response :=
  _ ← lift (admin_only a);
  b ← lift (read_body p);
  _ ← lift (check_new_user b);
  hash ← lift (new_hash r (n_password b));
  now ← now_text;
  user ← db_500 (CreateUser (mkUser (uuid r 0) (n_username b) (n_email b) hash (default (lit "user") (n_role b)) now now));
  mret (mkResponse 201 (BUser user)).

Definition admin_set_password (r : Rand) (a : AuthUser) (uid : str) (p : Payload str) : H Response Response :=
  _ ← lift (admin_only a);
  new ← lift (read_body p);
  _ ← lift (password_ok new);
  found ← db_500 (GetUser uid);
  target ← lift (ok_or user_not_found found);
  hash ← lift (new_hash r new);
  now ← now_text;
  _ ← db_500 (UpdateUserRow (u_id target) (new_password hash now));
  _ ← db_500 (DeleteByUser (u_id target));
  mret (mkResponse 204 BNone).

Definition delete_user (a : AuthUser) (uid : str) : H Response Response :=
  _ ← lift (admin_only a);
  if a_user_id a == uid then throw (mkResponse 400 (BError "cannot delete yourself"))
  else
    deleted ← db_500 (DeleteUser uid);
    if negb deleted then throw user_not_found else mret (mkResponse 204 BNone).

(** ** MFA *)

Definition mfa_status (a : AuthUser) : H Response Response :=
  st ← map_err mfa_authed_err (mfa_status_of (a_user_id a));
  mret (mkResponse 200 (BMethods st.1 st.2)).

Definition mfa_totp_begin (r : Rand) (a : AuthUser) (password : str) : H Response Response :=
  user ← authed_user a;
  _ ← throttle_user (a_user_id a);
  mat ← throttled (a_user_id a) (begin_totp vault_key r user password);
  mret (mkResponse 200 (BEnroll (secret_b32 mat) (otpauth_url mat) (qr_svg mat))).

Definition mfa_totp_confirm (r : Rand) (a : AuthUser) (password code : str) : H Response Response :=
  user ← authed_user a;
  _ ← throttle_user (a_user_id a);
  codes ← throttled (a_user_id a) (confirm_totp vault_key r user password code);
  mret (mkResponse 200 (BCodes codes)).

Definition mfa_disable (a : AuthUser) (b : MfaCodeBody) : H Response Response :=
  user ← authed_user a;
  _ ← throttle_user (a_user_id a);
  _ ← throttled (a_user_id a) (disable vault_key user (b_password b) (b_method b) (b_code b));
  mret (mkResponse 204 BNone).

Definition mfa_regen_recovery (r : Rand) (a : AuthUser) (b : MfaCodeBody) : H Response Response :=
  user ← authed_user a;
  _ ← throttle_user (a_user_id a);
  codes ← throttled (a_user_id a) (regenerate_recovery vault_key r user (b_password b) (b_method b) (b_code b));
  mret (mkResponse 200 (BCodes codes)).

Definition admin_wipe_mfa (a : AuthUser) (uid : str) : H Response Response :=
  _ ← lift (admin_only a);
  found ← db_500 (GetUser uid);
  if negb (is_some found) then throw user_not_found
  else
    _ ← db_500 (WipeUserMfa uid);
    mret (mkResponse 204 BNone).

(** ** The command line and the start of the server *)

Definition PASSWORD_ALPHABET : str := lit "ABCDEFGHJKLMNPQRSTUVWXYZabcdefghijkmnopqrstuvwxyz23456789".

Definition generate_password (r : Rand) (len : nat) : str :=
  (λ i, nth (password_index r i mod length PASSWORD_ALPHABET)%nat PASSWORD_ALPHABET 65) <$> seq 0 len.

Definition fatal (e : DbErr) : Response := resp_500 (DbFail e).
Definition bail (msg : string) : Response := mkResponse 1 (BError msg).

(** The account to reset: by name, or the only one. *)
Definition reset_target (name : option str) : H Response User :=
  match name with
  | Some n =>
    found ← map_err fatal (call (GetUserByUsername n));
    lift (ok_or (bail "no user named") found)
  | None =>
    us ← map_err fatal (call ListUsers);
    match us with
    | [] => throw (bail "no users exist")
    | [u] => mret u
    | _ => throw (bail "pass --user")
    end
  end.

Record ResetOutcome := mkResetOutcome { o_username : str; o_password : str; o_revoked : nat }.

Definition reset_user_password (r : Rand) (name : option str) : H Response ResetOutcome :=
  user ← reset_target name;
  let new := generate_password r 16 in
  hash ← lift (new_hash r new);
  now ← now_text;
  updated ← map_err fatal (call (UpdateUserRow (u_id user) (new_password hash now)));
  _ ← lift (ok_or (bail "failed to update user") updated);
  _ ← map_err fatal (call (WipeUserMfa (u_id user)));
  n ← map_err fatal (call (DeleteByUser (u_id user)));
  mret (mkResetOutcome (username user) new n).

Definition BOOTSTRAP_USERNAME : str := lit "admin".
Definition non_empty (o : option str) : option str := match o with Some [] => None | other => other end.

(** Losing the race for the username is not an error. *)
Definition ensure_admin_user (r : Rand) (env_username env_password : option str) :
    H Response (option (str * str)) :=
  count ← map_err fatal (call CountUsers);
  if 0 <? count then mret None
  else
    let name := default BOOTSTRAP_USERNAME (non_empty env_username) in
    let password := default (generate_password r 20) (non_empty env_password) in
    hash ← lift (new_hash r password);
    now ← now_text;
    created ← infallible (call (CreateUser (mkUser (uuid r 1) name None hash (lit "admin") now now)));
    match created with
    | Ok _ => mret (Some (name, password))
    | Err UniqueViolation => mret None
    | Err e => throw (fatal e)
    end.

(** Signed in as the admin just created. *)
Definition mint_desktop_bootstrap_token (r : Rand) (created : option (str * str)) : H Response (option str) :=
  match created with
  | None => mret None
  | Some (name, _) =>
    found ← db_flat (GetUserByUsername name);
    match found with
    | None => mret None
    | Some user =>
      minted ← outcome (issue_session_token jwt_secret r (u_id user) (role user) (Some (lit "Peckboard desktop"))
                 (Some (lit "127.0.0.1")) None);
      mret (result_ok minted)
    end
  end.

(** The steps of [run_server] on these tables. *)
Definition startup (r : Rand) (env_username env_password : option str) (desktop : bool) : H Response Response :=
  created ← ensure_admin_user r env_username env_password;
  now ← now_unix;
  _ ← map_err fatal (call (DeleteExpired now));
  token ← (if desktop then mint_desktop_bootstrap_token r created else mret None);
  mret (mkResponse 0 (BStarted created token)).

(** ** The server *)

Definition protected (r : Rand) (a : AuthUser) (p : Protected) : H Response Response :=
  match p with
  | Logout => logout a
  | Me => me a
  | ChangePassword c b => change_password r a c b
  | ListSessions => list_sessions a
  | RevokeOne sid => revoke_one a sid
  | RevokeAll => revoke_all a
  | ListAllUsers => list_users a
  | GetOneUser uid => get_user a uid
  | CreateOneUser b => create_user r a b
  | AdminSetPassword uid b => admin_set_password r a uid b
  | DeleteOneUser uid => delete_user a uid
  | MfaStatus => mfa_status a
  | TotpBegin pw => mfa_totp_begin r a pw
  | TotpConfirm pw code => mfa_totp_confirm r a pw code
  | MfaDisable b => mfa_disable a b
  | MfaRegenerate b => mfa_regen_recovery r a b
  | AdminWipeMfa uid => admin_wipe_mfa a uid
  end.

Definition handler (r : Rand) (q : Request) : H Response Response :=
  match q with
  | Login c b => login r c b
  | MfaVerify c b => mfa_verify r c b
  | Authed header p => a ← require_auth jwt_secret header; protected r a p
  | ResetPassword name =>
    o ← reset_user_password r name; mret (mkResponse 0 (BCredentials (o_username o) (o_password o)))
  | Startup u p desktop => startup r u p desktop
  end.

(** [into_response] of either outcome. *)
Definition handle (r : Rand) (q : Request) : Prog Response :=
  prog_bind (λ x, Ret (match x with Ok a => a | Err a => a end)) (handler r q).

(** No call waits for another request. *)
Definition exec_now B (_ : nat) (o : Op B) (f : Fate) (s : Server) : option (B * Server) := Some (exec o f s).
End routes.

Abbreviation Event := (Programs.Event Op).
Abbreviation Thread := (Programs.Thread Op Request Rand Response).
Abbreviation World := (Programs.World Op Server Request Rand Response).
Abbreviation Action := (Programs.Action Request Rand Fate).
Abbreviation act j v := (Programs.act (O := Op) exec_now (handle j v)).
Abbreviation play j v := (Programs.play (O := Op) exec_now (handle j v)).

Definition World_new : World := mkWorld Server_new [] [].
End Routes.
