(* ===== verification/AuthProps.v ===== *)
(** * The programs of authentication

    What walking the paths of a handler needs here, and a call of a schedule as
    the execution it is. *)

From S2P Require Import Prelude Programs CharStr EnvVars Gates AuthDb Auth AuthRoutes.

Module AuthProps.
Export Routes.

(** One step along the paths; [use] is tried on what a call needs. *)
Ltac path_step use :=
  lazymatch goal with
  | |- paths _ _ _ (db_mfa _) => unfold db_mfa
  | |- paths _ _ _ (db_500 _) => unfold db_500
  | |- paths _ _ _ (db_ok _) => unfold db_ok
  | |- paths _ _ _ (db_flat _) => unfold db_flat
  | |- paths _ _ _ now_unix => unfold now_unix
  | |- paths _ _ _ now_text => unfold now_text
  | |- _ => prog_step use
  end.

Abbreviation moves j v := (Programs.moves (O := Op) exec_now (handle j v)).

(** The cases of an action: nothing, an arrival, a call. *)
Ltac by_move H :=
  let t := fresh "t" in let q := fresh "q" in let r := fresh "r" in let B := fresh "B" in let o := fresh "o" in
  let k := fresh "k" in let f := fresh "f" in let b := fresh "b" in let s := fresh "s" in
  let Ht := fresh "Ht" in let He := fresh "He" in
  destruct H as [|q r|t q r B o k f b s Ht He]; [| |unfold exec_now in He; injection He as He].
End AuthProps.
