(* ===== verification/AuthSafety.v ===== *)
(** * Nothing happens without its evidence

    What a thread must have seen before it creates a session or a challenge or
    changes an account ([allow]), proved of all paths of all handlers and so of
    every schedule, with a database that may fail at any call. *)

From S2P Require Import Prelude Programs CharStr EnvVars Gates AuthDb Auth AuthRoutes AuthProps.

Module AuthSafety.
Export AuthProps.

Section evidence.
Context `{Crypto, AuthCrypto} (jwt_secret vault_key : bytes).

(** ** Evidence in the calls of a thread *)

(** [login] read the row of the user it names, the password verified, and
    whether MFA was on. *)
Definition password_checked (h : list Event) (q : LoginRequest) (u : User) (mfa : bool) : Prop :=
  Ev (GetUserByUsername (l_username q)) (Ok (Some u)) ∈ h ∧
  verify_password (l_password q) (password_hash u) = true ∧
  Ev (UserHasMfa (u_id u)) (Ok mfa) ∈ h.

(** [require_auth] let the caller through as [a]: a token that was valid at a
    time it read, of a session whose row it read. *)
Definition signed_in (header : option str) (h : list Event) (a : AuthUser) : Prop :=
  ∃ token now c row,
    extract_bearer_token header = Some token ∧ Ev NowUnix now ∈ h ∧
    jwt_decode jwt_secret now token = Some c ∧ a = mkAuthUser (sub c) (c_role c) (jti c) ∧
    Ev (GetAuthSession (jti c)) (Ok (Some row)) ∈ h.

(** The caller's own row was read and the password verified. *)
Definition own_password (h : list Event) (a : AuthUser) (pw : str) (u : User) : Prop :=
  Ev (GetUser (a_user_id a)) (Ok (Some u)) ∈ h ∧ verify_password pw (password_hash u) = true.

(** A second factor of the user was accepted: a TOTP window past the last one
    read, or a recovery code read as unused; and it was written back. *)
Definition code_accepted (h : list Event) (uid method code : str) : Prop :=
  (method = TOTP_KIND ∧ ∃ row ct nonce secret now ts b,
     Ev (GetMfaMethod uid TOTP_KIND) (Ok (Some row)) ∈ h ∧
     m_secret_ct row = Some ct ∧ m_secret_nonce row = Some nonce ∧
     vault_decrypt vault_key nonce ct = Ok secret ∧ Ev NowUnix now ∈ h ∧
     totp_verify secret code (m_last_timestep row) now = Ok ts ∧ Ev (SetLastTimestep (m_id row) ts) (Ok b) ∈ h) ∨
  (method = RECOVERY_KIND ∧ ∃ (unused : list MfaRecoveryCode) cid at_ b,
     Ev (ListUnusedCodes uid) (Ok unused) ∈ h ∧
     find_match code ((λ r, (rc_id r, rc_code_hash r)) <$> unused) = Ok cid ∧ Ev (MarkCodeUsed cid at_) (Ok b) ∈ h).

(** The presented challenge was read live and consumed by this thread. *)
Definition challenge_consumed (h : list Event) (raw : str) (row : MfaChallengeRow) : Prop :=
  Ev (GetChallengeByHash (hash_token (trim raw))) (Ok (Some row)) ∈ h ∧
  ch_consumed_at row = None ∧ ch_failures row < MAX_FAILURES ∧
  (∃ now, Ev NowUnix now ∈ h ∧ now < ch_expires_at row) ∧
  ∃ now, Ev (ConsumeChallenge (ch_id row) now) (Ok true) ∈ h.

(** The users table was counted and was empty. *)
Definition saw_no_users (h : list Event) : Prop := ∃ n, Ev CountUsers (Ok n) ∈ h ∧ n ≤ 0.

(** ** What a call needs *)

(** A session may be created by: a login of a user without MFA; the code step;
    a password change; the desktop app that just created the first admin. *)
Definition session_allowed (q : Request) (h : list Event) (s : AuthSession) : Prop :=
  match q with
  | Login _ b => ∃ u, password_checked h b u false ∧ s_user_id s = u_id u
  | MfaVerify _ b => ∃ row u, challenge_consumed h (v_challenge b) row ∧
      code_accepted h (ch_user_id row) (v_method b) (v_code b) ∧
      Ev (GetUser (ch_user_id row)) (Ok (Some u)) ∈ h ∧ s_user_id s = u_id u
  | Authed header (ChangePassword _ (Parsed b)) => ∃ a u,
      signed_in header h a ∧ own_password h a (current_password b) u ∧ s_user_id s = u_id u ∧
      ∃ n, Ev (DeleteByUser (a_user_id a)) (Ok n) ∈ h
  | Startup _ _ true => ∃ u u', saw_no_users h ∧ Ev (CreateUser u) (Ok u') ∈ h ∧
      ∃ v, Ev (GetUserByUsername (username u)) (Ok (Some v)) ∈ h ∧ s_user_id s = u_id v
  | _ => False
  end.

(** An MFA challenge: the password of a user with MFA. *)
Definition challenge_allowed (q : Request) (h : list Event) (c : MfaChallengeRow) : Prop :=
  match q with
  | Login _ b => ∃ u, password_checked h b u true ∧ ch_user_id c = u_id u
  | _ => False
  end.

(** The account of [uid] is the caller's own, or the caller is an admin. *)
Definition own_or_admin (header : option str) (h : list Event) (uid : str) : Prop :=
  ∃ a, signed_in header h a ∧ (a_user_id a = uid ∨ is_admin a = true).

Definition by_admin (header : option str) (h : list Event) : Prop := ∃ a, signed_in header h a ∧ is_admin a = true.

(** The caller's own account [uid], with its password. *)
Definition by_owner (header : option str) (h : list Event) (uid pw : str) : Prop :=
  ∃ a u, signed_in header h a ∧ own_password h a pw u ∧ u_id u = uid.

(** The challenge that was presented was read, unused, in time and with tries
    left. *)
Definition live_challenge (h : list Event) (raw : str) (row : MfaChallengeRow) : Prop :=
  Ev (GetChallengeByHash (hash_token (trim raw))) (Ok (Some row)) ∈ h ∧
  ch_consumed_at row = None ∧ ch_failures row < MAX_FAILURES ∧ ∃ now, Ev NowUnix now ∈ h ∧ now < ch_expires_at row.

(** A second factor of [uid] may be tried: with a live challenge of that user, or
    by the user with the password. *)
Definition may_try_factor (q : Request) (h : list Event) (uid : str) : Prop :=
  match q with
  | MfaVerify _ b => ∃ row, live_challenge h (v_challenge b) row ∧ ch_user_id row = uid
  | Authed header (MfaDisable b) | Authed header (MfaRegenerate b) => by_owner header h uid (b_password b)
  | _ => False
  end.

(** The account the operator named at the console of the server, or the only
    one. *)
Definition by_console (name : option str) (h : list Event) (uid : str) : Prop :=
  ∃ u, u_id u = uid ∧
    match name with Some n => Ev (GetUserByUsername n) (Ok (Some u)) ∈ h | None => Ev ListUsers (Ok [u]) ∈ h end.

(** The variable is sealed by the caller, opens under the password that was given
    and is sealed again under the new one. *)
Definition reseals (h : list Event) (a : AuthUser) (current new vid ct nonce salt : str) : Prop :=
  ∃ l v plain draw enc, Ev (ListSealedVars (a_user_id a)) (Ok l) ∈ h ∧ v ∈ l ∧ EnvVars.id v = vid ∧
    decrypt_row current v = Some plain ∧ encrypt_value draw.1 draw.2 new plain = Some enc ∧
    ct = ciphertext_b64 enc ∧ nonce = nonce_hex enc ∧ salt = kdf_salt_hex enc.

(** Who may make each call that changes an account; what is left are reads, clocks
    and limiters. *)
Definition authorised (q : Request) (h : list Event) (e : Event) : Prop :=
  match e with
  | @Ev _ B o b =>
    match o with
    | CreateAuthSession s => session_allowed q h s
    | InsertChallenge c => challenge_allowed q h c
    | SetLastTimestep mid ts => ∃ uid row, may_try_factor q h uid ∧
        Ev (GetMfaMethod uid TOTP_KIND) (Ok (Some row)) ∈ h ∧ m_id row = mid ∧ default (-1) (m_last_timestep row) < ts
    | MarkCodeUsed cid _ => ∃ uid unused row, may_try_factor q h uid ∧
        Ev (ListUnusedCodes uid) (Ok unused) ∈ h ∧ row ∈ unused ∧ rc_id row = cid
    | CreateUser u =>
      match q with
      | Authed header _ => by_admin header h
      | Startup _ _ _ => saw_no_users h ∧ role u = lit "admin"
      | _ => False
      end
    | UpdateUserRow uid _ =>
      match q with
      | Authed header (ChangePassword _ (Parsed b)) => ∃ a u,
          signed_in header h a ∧ own_password h a (current_password b) u ∧ a_user_id a = uid
      | Authed header _ => by_admin header h
      | ResetPassword name => by_console name h uid
      | _ => False
      end
    | DeleteUser uid =>
      match q with Authed header _ => ∃ a, signed_in header h a ∧ is_admin a = true ∧ a_user_id a ≠ uid | _ => False end
    | DeleteAuthSession sid =>
      match q with
      | Authed header _ => ∃ a, signed_in header h a ∧
          (a_session_id a = sid ∨ is_admin a = true ∨
           ∃ s, Ev (GetAuthSession sid) (Ok (Some s)) ∈ h ∧ s_user_id s = a_user_id a)
      | _ => False
      end
    | DeleteByUser uid =>
      match q with Authed header _ => own_or_admin header h uid | ResetPassword name => by_console name h uid | _ => False end
    | DeleteByUserExcept uid _ =>
      match q with Authed header _ => ∃ a, signed_in header h a ∧ a_user_id a = uid | _ => False end
    | DeleteExpired now => match q with Startup _ _ _ => Ev NowUnix now ∈ h | _ => False end
    | DeleteByRemoteDevice _ => False
    | UpdateLastUsed sid _ => match q with Authed header _ => ∃ a, signed_in header h a ∧ a_session_id a = sid | _ => False end
    | InsertMfaMethod m =>
      match q with
      | Authed header (TotpConfirm pw code) => by_owner header h (m_user_id m) pw ∧
          Ev (UserHasMfa (m_user_id m)) (Ok false) ∈ h ∧
          ∃ p secret now ts, Ev (GetPending (m_user_id m)) (Ok (Some p)) ∈ h ∧
            vault_decrypt vault_key (pn_secret_nonce p) (pn_secret_ct p) = Ok secret ∧
            totp_verify secret code None now = Ok ts
      | _ => False
      end
    | ReplacePending p =>
      match q with
      | Authed header (TotpBegin pw) => by_owner header h (pn_user_id p) pw ∧
          Ev (UserHasMfa (pn_user_id p)) (Ok false) ∈ h
      | _ => False
      end
    | InsertRecoveryCodes rows =>
      match q with
      | Authed header (TotpConfirm pw _) => ∀ c, c ∈ rows → by_owner header h (rc_user_id c) pw
      | Authed header (MfaRegenerate b) => ∀ c, c ∈ rows →
          by_owner header h (rc_user_id c) (b_password b) ∧
          code_accepted h (rc_user_id c) (b_method b) (b_code b)
      | _ => False
      end
    | DeleteCodes uid =>
      match q with
      | Authed header (MfaRegenerate b) =>
          by_owner header h uid (b_password b) ∧ code_accepted h uid (b_method b) (b_code b)
      | _ => False
      end
    | WipeUserMfa uid =>
      match q with
      | Authed header (MfaDisable b) =>
          by_owner header h uid (b_password b) ∧ code_accepted h uid (b_method b) (b_code b)
      | Authed header _ => by_admin header h
      | ResetPassword name => by_console name h uid
      | _ => False
      end
    | ConsumeChallenge cid _ | BumpFailure cid =>
      match q with
      | MfaVerify _ b => ∃ row, live_challenge h (v_challenge b) row ∧ ch_id row = cid
      | _ => False
      end
    | DeletePending uid =>
      match q with Authed header (TotpConfirm pw _) => by_owner header h uid pw | _ => False end
    | UpdateSealedVar vid ct nonce salt _ =>
      match q with
      | Authed header (ChangePassword _ (Parsed b)) => ∃ a u,
          signed_in header h a ∧ own_password h a (current_password b) u ∧
          reseals h a (current_password b) (next_password b) vid ct nonce salt
      | _ => False
      end
    | _ => True
    end
  end.

(** Calls a thread makes at most once each: creating a session, a challenge, a
    method, recovery codes, and writing back an accepted second factor. *)
Inductive Kind := KSession | KChallenge | KMethod | KCodes | KFactor.

Definition tag (e : Event) : option Kind :=
  match e with @Ev _ B o b =>
    match o with
    | CreateAuthSession _ => Some KSession
    | InsertChallenge _ => Some KChallenge
    | InsertMfaMethod _ => Some KMethod
    | InsertRecoveryCodes _ => Some KCodes
    | SetLastTimestep _ _ | MarkCodeUsed _ _ => Some KFactor
    | _ => None
    end
  end.

Definition clear (k : Kind) (h : list Event) : Prop := Forall (λ e, tag e ≠ Some k) h.

(** New rows are named by the thread's own draws. *)
Definition own_draws (r : Rand) (e : Event) : Prop :=
  match e with @Ev _ B o b =>
    match o with
    | CreateAuthSession s => s_id s = uuid r 0
    | InsertChallenge c => ch_id c = uuid r 0 ∧ ch_token_hash c = hash_token (random_token r) ∧
        ch_consumed_at c = None ∧ ch_failures c = 0
    | InsertMfaMethod m => m_id m = uuid r 0 ∧ m_last_timestep m = None
    | InsertRecoveryCodes rows => ∀ c, c ∈ rows → rc_used_at c = None ∧ ∃ n, rc_id c = uuid r n
    | _ => True
    end
  end.

Definition allow (q : Request) (r : Rand) (h : list Event) (e : Event) : Prop :=
  authorised q h e ∧ own_draws r e ∧ ∀ k, tag e = Some k → clear k h.

(** What a thread that has answered has seen. *)
Definition answered (q : Request) (r : Rand) (h : list Event) (resp : Response) : Prop :=
  match q with
  | MfaVerify _ b => status resp = 200 → ∃ row, challenge_consumed h (v_challenge b) row
  | Authed header _ => resp = unauthorized ∨ ∃ a, signed_in header h a
  | _ => True
  end.
(** ** Walking the handlers *)

Lemma signed_in_mono header h h' a : h ⊆ h' → signed_in header h a → signed_in header h' a.
Proof. intros Hs (token & now & c & row & ?). exists token, now, c, row. set_solver. Qed.

Lemma own_password_mono h h' a pw u : h ⊆ h' → own_password h a pw u → own_password h' a pw u.
Proof. unfold own_password. set_solver. Qed.

Lemma code_accepted_mono h h' uid m c : h ⊆ h' → code_accepted h uid m c → code_accepted h' uid m c.
Proof.
  intros Hs [(Hm & row & ct & n & sec & now & ts & b & ?)|(Hm & un & cid & at_ & b & ?)]; [left|right];
    (split; [done|]); [exists row, ct, n, sec, now, ts, b|exists un, cid, at_, b]; set_solver.
Qed.

Lemma challenge_consumed_mono h h' raw row : h ⊆ h' → challenge_consumed h raw row → challenge_consumed h' raw row.
Proof. unfold challenge_consumed. set_solver. Qed.

Lemma live_challenge_mono h h' raw row : h ⊆ h' → live_challenge h raw row → live_challenge h' raw row.
Proof. unfold live_challenge. set_solver. Qed.

Lemma allow_plain q r h e : authorised q h e → own_draws r e → tag e = None → allow q r h e.
Proof. intros ?? Ht. split_and!; [done..|]. by rewrite Ht. Qed.

Lemma allow_first q r h e k : authorised q h e → own_draws r e → tag e = Some k → clear k h → allow q r h e.
Proof. intros ?? Ht ?. split_and!; [done..|]. rewrite Ht. by intros ? [= <-]. Qed.

Lemma elem_last (e : Event) h : e ∈ h ++ [e].
Proof. set_solver. Qed.
Lemma elem_before (e e' : Event) h : e ∈ h → e ∈ h ++ [e'].
Proof. set_solver. Qed.
Lemma sub_before (h h' : list Event) e : h ⊆ h' → h ⊆ h' ++ [e].
Proof. set_solver. Qed.
Lemma clear_before k h e : clear k h → tag e ≠ Some k → clear k (h ++ [e]).
Proof. intros ??. by apply Forall_app_2; [|constructor]. Qed.
Lemma clear_nil k : clear k [].
Proof. constructor. Qed.

Ltac here := repeat first [assumption | apply elem_last | apply elem_before].

(** A call that needs nothing. *)
Ltac plain := apply allow_plain; [exact I|exact I|reflexivity].

Ltac walk := repeat path_step ltac:(try plain).

Lemma internal_ok {A} (x : Result Fail A) v : internal x = Ok v ↔ x = Ok v.
Proof. destruct x; naive_solver. Qed.

(** The answer behind a [map_err]. *)
Ltac tidy := repeat match goal with
  | Hb : match ?b with Ok _ => _ | Err _ => _ end = Ok _ |- _ => destruct b eqn:?; try discriminate Hb; simplify_eq
  | Hb : internal _ = Ok _ |- _ => apply internal_ok in Hb
  | Hb : ok_or _ _ = Ok _ |- _ => apply ok_or_ok in Hb; simplify_eq
  | Hb : mjoin (result_ok ?b) = Some _ |- _ => destruct b eqn:?; simpl in Hb; simplify_eq
  end.

(** What a step keeps clear of. *)
Definition keeps (h h' : list Event) : Prop := h ⊆ h' ∧ ∀ k, k ≠ KFactor → clear k h → clear k h'.

Lemma keeps_self h : keeps h h.
Proof. by split. Qed.
Lemma keeps_before h h' e : keeps h h' → tag e = None ∨ tag e = Some KFactor → keeps h (h' ++ [e]).
Proof.
  intros [Hs Hc] Ht. split; [by apply sub_before|]. intros k Hk Hh. apply clear_before; [by apply Hc|].
  destruct Ht as [->| ->]; [done|congruence].
Qed.

Lemma keeps_then h h' h'' : keeps h h' → keeps h' h'' → keeps h h''.
Proof. intros [Hs Hc] [Hs' Hc']. split; [by etrans|auto]. Qed.

Ltac keeping := repeat first [assumption | apply keeps_self | apply keeps_before; [|by first [left; reflexivity|right; reflexivity]]].
Ltac clearing := repeat first
  [ assumption | apply clear_nil | apply clear_before; [|discriminate]
  | match goal with
    | Hk : keeps _ ?h |- clear _ ?h => apply (proj2 Hk); [discriminate|]
    | Hk : ∀ k, clear k ?h |- clear _ ?h => apply Hk
    end ].

(** An accepted window is past the last one; an accepted code is of a row. *)
Lemma totp_verify_fresh secret code last now ts :
  totp_verify secret code last now = Ok ts → default (-1) last < ts.
Proof.
  unfold totp_verify. case_match; [done|]. rewrite bind_ok. intros (x & _ & Hb). rewrite bind_ok in Hb.
  destruct Hb as (y & _ & Hs). generalize dependent Hs. generalize ((λ d, now / STEP + d) <$> [-1; 0; 1]).
  intros ws. induction ws as [|w ws IH]; [done|]. cbn [scan_windows].
  destruct ((w <? 0) || _) eqn:E; [done|]. case_match; [|done]. intros [= <-]. lia.
Qed.

Lemma find_match_row code unused cid :
  find_match code ((λ r, (rc_id r, rc_code_hash r)) <$> unused) = Ok cid → ∃ row, row ∈ unused ∧ rc_id row = cid.
Proof.
  unfold find_match. case_match; [done|]. induction unused as [|c cs IH]; [done|]. simpl.
  case_match; [intros [= <-]; exists c; split; [left|done]|]. intros Hf. destruct (IH Hf) as (row & ? & ?).
  exists row. split; [by right|done].
Qed.

(** The second factor, whatever follows. *)
Lemma verify_code_paths q r h uid method code Q :
  clear KFactor h → (∀ h', h ⊆ h' → may_try_factor q h' uid) →
  (∀ h', keeps h h' → code_accepted h' uid method code → Q h' (Ok tt)) →
  (∀ h' e, keeps h h' → Q h' (Err e)) →
  paths (allow q r) Q h (verify_code_for_user vault_key uid method code).
Proof.
  intros Hf Hmay Hok Herr. unfold verify_code_for_user. walk.
  2: { apply Herr. keeping. }
  apply ok_or_ok in Heqr0. unfold registry_get, builtin in Heqr0. simpl in Heqr0.
  case_bool_decide as Hk; [|case_bool_decide as Hk'; [|done]]; simplify_eq; cbn [verify].
  - unfold totp_method_verify. walk; try (apply Herr; keeping).
    { tidy. eapply allow_first; [|done|done|clearing]. do 2 eexists. split_and!; [apply Hmay; by repeat apply sub_before|here|done|by eapply totp_verify_fresh]. }
    tidy. apply Hok; [keeping|].
    left. split; [done|]. do 7 eexists. split_and!; [| | | | |done|]; try done; here.
  - unfold recovery_method_verify. walk; try (apply Herr; keeping).
    { tidy. destruct (find_match_row _ _ _ ltac:(eassumption)) as (row & Hrow & Hid).
      eapply allow_first; [|done|done|clearing]. do 3 eexists. split_and!; [apply Hmay; by repeat apply sub_before|here|done|done]. }
    tidy. apply Hok; [keeping|].
    right. split; [done|]. do 4 eexists. split_and!; [|done|]; here.
Qed.

(** The answer of a handler, either way it returned. *)
Definition response_of (x : Result Response Response) : Response := match x with Ok a => a | Err a => a end.
Definition finished (q : Request) (r : Rand) (h : list Event) (x : Result Response Response) : Prop :=
  answered q r h (response_of x).

(** Creating a session, with what it needs in hand. *)
Lemma issue_paths q r h uid role ua ip dev Q :
  (∀ s h', h ⊆ h' → s_user_id s = uid → session_allowed q h' s) → clear KSession h →
  (∀ h' x, h ⊆ h' → Q h' x) →
  paths (allow q r) Q h (issue_session_token jwt_secret r uid role ua ip dev).
Proof.
  intros Hs Hq HQ. unfold issue_session_token. walk; try (apply HQ; repeat apply sub_before; done).
  eapply allow_first; [|done|done|clearing]. apply Hs; [by repeat apply sub_before|done].
Qed.

Lemma login_paths r c q :
  paths (allow (Login c q) r) (finished (Login c q) r) [] (login jwt_secret r c q).
Proof.
  unfold login, throttle. walk; try done.
  all: tidy; destruct a0 as [u'|]; [|done]; simpl in Heqo; case_match eqn:Hpw; [|done]; simplify_eq.
  all: unfold password_grant, after_password_ok in *; cbn [pv_mfa_enabled pv_user_id pv_role pv_username] in *; destruct a1; simplify_eq.
  - unfold complete_login. apply issue_paths; [|clearing|by intros; walk].
    intros s h' Hsub Hu. exists u. split; [|done]. split_and!; [|done|]; apply Hsub; here.
  - unfold issue_challenge, available_methods. cbn [negb pv_mfa_enabled]. walk; try done.
    eapply allow_first; [|done|done|clearing]. exists u. split; [|done]. split_and!; [|done|]; here.
Qed.

Lemma verify_challenge_paths c b r h Q :
  clear KFactor h →
  (∀ h' v row u, keeps h h' → challenge_consumed h' (v_challenge b) row →
     code_accepted h' (ch_user_id row) (v_method b) (v_code b) →
     Ev (GetUser (ch_user_id row)) (Ok (Some u)) ∈ h' → mv_user_id v = u_id u → Q h' (Ok v)) →
  (∀ h' e, keeps h h' → Q h' (Err e)) →
  paths (allow (MfaVerify c b) r) Q h (verify_challenge vault_key (v_challenge b) (v_method b) (v_code b)).
Proof.
  intros Hf Hok Herr. unfold verify_challenge, load_live. walk; try (apply Herr; keeping).
  tidy. set (h1 := (_ ++ [_]) ++ [_]).
  assert (keeps h h1) as Hk1 by keeping. assert (clear KFactor h1) as Hf1 by clearing.
  assert (live_challenge h1 (v_challenge b) a0) as Hlive.
  { apply orb_false_iff in Heqb1 as [Hexp Hfail]. split_and!; [here|by destruct (ch_consumed_at a0)|lia|].
    exists b1. split; [here|lia]. }
  clearbody h1.
  apply verify_code_paths; [done| | |].
  - intros h2 Hs2. exists a0. split; [by eapply live_challenge_mono|done].
  - intros h2 Hk2 Hcode. assert (keeps h h2) as Hk by (by eapply keeps_then). destruct Hk2 as [Hs2 _].
    unfold consume, mret, h_ret. walk; try (apply Herr; keeping).
    1: { apply allow_plain; [|done..]. exists a0. split; [|done]. eapply live_challenge_mono; [|exact Hlive]. by repeat apply sub_before. }
    tidy. apply negb_false_iff in Heqb3 as ->.
    apply Hok with a0 a2; [keeping| | |here|done].
    + assert (live_challenge (((h2 ++ [Ev NowUnix b0]) ++ [Ev (ConsumeChallenge (ch_id a0) b0) (Ok true)]) ++ [Ev (GetUser (ch_user_id a0)) (Ok (Some a2))]) (v_challenge b) a0) as (? & ? & ? & ?)
        by (eapply live_challenge_mono; [|exact Hlive]; by repeat apply sub_before).
      split_and!; [done..|]. eexists. here.
    + eapply code_accepted_mono; [|exact Hcode]. by repeat apply sub_before.
  - intros h2 e Hk2. assert (keeps h h2) as Hk by (by eapply keeps_then). destruct Hk2 as [Hs2 _].
    unfold record_failure. destruct e; walk; try (apply Herr; keeping).
    all: apply allow_plain; [|done..]; exists a0; (split; [|done]); (eapply live_challenge_mono; [|exact Hlive]); by repeat apply sub_before.
Qed.

Lemma user_info_paths q r h u Q : (∀ b, Q (h ++ [Ev (UserHasMfa (u_id u)) b]) (Ok (mkUserInfo (u_id u) (username u) (role u)
    (match b with Ok x => x | Err _ => false end)))) → paths (allow q r) Q h (user_info u).
Proof. intros HQ. unfold user_info. walk. by apply HQ. Qed.

Lemma mfa_verify_paths r c b :
  paths (allow (MfaVerify c b) r) (finished (MfaVerify c b) r) [] (mfa_verify jwt_secret vault_key r c b).
Proof.
  unfold mfa_verify, throttle. walk; try done.
  2, 4: intros ?; unfold too_many in *; by repeat case_match; simplify_eq.
  all: apply verify_challenge_paths; [clearing| |].
  2, 4: intros h' e Hk; unfold charge_code; destruct e; walk; done.
  all: intros h' v row u Hk Hc Hcode Hu Hv; walk; unfold complete_login; apply issue_paths; [|clearing|].
  1, 3: intros s h2 Hs2 Hsu; exists row, u; split_and!;
    [by eapply challenge_consumed_mono|by eapply code_accepted_mono|by apply Hs2|by rewrite <- Hv].
  all: intros h2 x Hs2; walk; try apply user_info_paths; intros; walk; try done;
    intros _; exists row; (eapply challenge_consumed_mono; [|exact Hc]); repeat apply sub_before; done.
Qed.

(** ** Protected requests *)

Lemma require_auth_paths header p r Q :
  (∀ h, Q h (Err unauthorized)) →
  (∀ h a, signed_in header h a → (∀ k, clear k h) → Q h (Ok a)) →
  paths (allow (Authed header p) r) Q [] (require_auth jwt_secret header).
Proof.
  intros Herr Hok. unfold require_auth, validate_token. walk; tidy; try apply Herr; try done.
  all: try (unfold ok_or in *; repeat case_match; simplify_eq; apply Herr).
  all: apply negb_false_iff in Heqb1; destruct b0 as [[row|]|]; try done.
  - apply allow_plain; [|done..]. exists (mkAuthUser (sub a0) (c_role a0) (jti a0)). split; [|done].
    exists a, b, a0, row. split_and!; [done|here|done|done|here].
  - apply Hok; [|intros k; clearing].
    exists a, b, a0, row. split_and!; [done|here|done|done|here].
Qed.

Lemma finished_authed header p r h h' a x :
  signed_in header h a → h ⊆ h' → finished (Authed header p) r h' x.
Proof. intros Ha Hs. right. exists a. by eapply signed_in_mono. Qed.

Lemma admin_only_ok a x : admin_only a = Ok x → is_admin a = true.
Proof. unfold admin_only. by destruct (is_admin a). Qed.

Section authed.
Context (header : option str) (r : Rand) (h : list Event) (a : AuthUser).
Hypothesis Ha : signed_in header h a.
Hypothesis Hq : ∀ k, clear k h.

Ltac sub := cbn beta iota delta [or_err]; lazymatch goal with |- _ ⊆ _ =>
  repeat apply sub_before; first [reflexivity | assumption | etrans; [|eassumption]; repeat apply sub_before; reflexivity | set_solver] end.
Ltac fin := solve [eapply finished_authed; [exact Ha|sub]].
Ltac signed := eapply signed_in_mono; [|exact Ha]; sub.

Lemma session_routes_paths p :
  match p with Logout | Me | ListSessions | RevokeOne _ | RevokeAll | MfaStatus => True | _ => False end →
  paths (allow (Authed header p) r) (finished (Authed header p) r) h (protected jwt_secret vault_key r a p).
Proof.
  destruct p; intros Hp; try done; cbn [protected].
  - unfold logout. walk; [|fin]. apply allow_plain; [|done..]. exists a. split; [signed|auto].
  - unfold me. walk; try fin. apply user_info_paths. intros. walk. fin.
  - unfold list_sessions. walk. fin.
  - unfold revoke_one. walk; try fin. apply allow_plain; [|done..]. exists a. split; [signed|]. tidy. right.
    apply orb_true_iff in Heqb0 as [Hu|]; [right|by left].
    exists a0. split; [here|by apply bool_decide_eq_true in Hu].
  - unfold revoke_all. walk; [|fin]. apply allow_plain; [|done..]. exists a. split; [signed|done].
  - unfold mfa_status, mfa_status_of. walk; fin.
Qed.

Lemma with_mfa_paths p us h' :
  h ⊆ h' → paths (allow (Authed header p) r) (λ h2 _, h ⊆ h2) h' (with_mfa us).
Proof.
  revert h'. induction us as [|u us IH]; intros h' Hs; cbn [with_mfa]; walk; try sub.
  eapply paths_mono; [|apply IH; sub]. intros h2 [x|e] Hs2; walk; sub.
Qed.

Lemma admin_routes_paths p :
  match p with ListAllUsers | GetOneUser _ | CreateOneUser _ | AdminSetPassword _ _ | DeleteOneUser _ | AdminWipeMfa _ => True | _ => False end →
  paths (allow (Authed header p) r) (finished (Authed header p) r) h (protected jwt_secret vault_key r a p).
Proof.
  destruct p; intros Hp; try done; cbn [protected].
  - unfold list_users. walk; try fin. eapply paths_mono; [|apply with_mfa_paths; sub].
    intros h2 [x|e] Hs2; walk; fin.
  - unfold get_user. walk; fin.
  - unfold create_user. walk; try fin. apply allow_plain; [|done..].
    exists a. split; [signed|by eapply admin_only_ok].
  - unfold admin_set_password. walk; try fin; (apply allow_plain; [|done..]).
    + exists a. split; [signed|by eapply admin_only_ok].
    + exists a. split; [signed|right; by eapply admin_only_ok].
  - unfold delete_user. walk; try fin. apply allow_plain; [|done..].
    exists a. split_and!; [signed|by eapply admin_only_ok|by apply bool_decide_eq_false_1 in Heqb].
  - unfold admin_wipe_mfa. walk; try fin. apply allow_plain; [|done..].
    exists a. split; [signed|by eapply admin_only_ok].
Qed.

(** What the routes with a password know once it has verified. *)
Lemma require_password_ok u pw x : require_password u pw = Ok x → verify_password pw (password_hash u) = true.
Proof. unfold require_password. by destruct (verify_password _ _). Qed.

Lemma throttled_paths {A} p uid (m : H MfaError A) h' Q :
  paths (allow (Authed header p) r) (λ h2 x, match x with Ok v => Q h2 (Ok v) | Err _ => h ⊆ h2 end) h' m →
  (∀ h2 e, h ⊆ h2 → Q h2 (Err e)) →
  paths (allow (Authed header p) r) Q h' (throttled uid m).
Proof.
  intros Hm Herr. unfold throttled. walk. eapply paths_mono; [|exact Hm].
  intros h2 [x|e] Hx; walk; [done|..]; destruct e; walk; try (apply Herr; sub).
Qed.

Lemma code_rows_owner uid n plains rows c : code_rows r uid n plains = Ok rows → c ∈ rows → rc_user_id c = uid.
Proof.
  revert n rows. induction plains as [|pl plains IH]; intros n rows; cbn [code_rows].
  - intros [= <-]. by rewrite elem_of_nil.
  - rewrite bind_ok. intros (hash & _ & Hb). rewrite bind_ok in Hb. destruct Hb as (rows' & Hr & [= <-]).
    rewrite elem_of_cons. intros [->|Hc]; [done|by eapply IH].
Qed.

Lemma code_rows_drawn uid n plains rows c :
  code_rows r uid n plains = Ok rows → c ∈ rows → rc_used_at c = None ∧ ∃ m, rc_id c = uuid r m.
Proof.
  revert n rows. induction plains as [|pl plains IH]; intros n rows; cbn [code_rows].
  - intros [= <-]. by rewrite elem_of_nil.
  - rewrite bind_ok. intros (hash & _ & Hb). rewrite bind_ok in Hb. destruct Hb as (rows' & Hr & [= <-]).
    rewrite elem_of_cons. intros [->|Hc]; [by eauto|by eapply IH].
Qed.

Ltac owner u := exists a, u; split_and!; [signed|split; [first [solve [here]|repeat apply elem_before; set_solver]|by eapply require_password_ok]|done].

Lemma mfa_routes_paths p :
  match p with TotpBegin _ | TotpConfirm _ _ | MfaDisable _ | MfaRegenerate _ => True | _ => False end →
  paths (allow (Authed header p) r) (finished (Authed header p) r) h (protected jwt_secret vault_key r a p).
Proof.
  destruct p; intros Hp; try done; cbn [protected].
  - unfold mfa_totp_begin, authed_user, throttle_user, throttle. walk; try fin. tidy.
    apply throttled_paths; [|intros; fin]. unfold begin_totp. walk; try sub; [|fin].
    tidy. apply allow_plain; [|done..]. split; [owner a1|here].
  - unfold mfa_totp_confirm, authed_user, throttle_user, throttle. walk; try fin. tidy.
    apply throttled_paths; [|intros; fin]. unfold confirm_totp. walk; try sub; try fin; tidy;
      first [by apply allow_plain; [owner a1|..] | eapply allow_first; [| |done|clearing]]; try done.
    + split_and!; [owner a1|here|]. do 4 eexists. split_and!; [|done|done]. here.
    + intros c Hc. erewrite code_rows_owner by done. owner a1.
    + intros c Hc. by eapply code_rows_drawn.
  - unfold mfa_disable, authed_user, throttle_user, throttle. walk; try fin. tidy.
    apply throttled_paths; [|intros; fin]. unfold disable. walk; try sub.
    apply verify_code_paths; [clearing|intros h2 Hs2; owner a1| |by intros ?? []; sub]. intros h2 Hk2 Hcode. pose proof (proj1 Hk2) as Hs2.
    walk; try sub; [|fin]. apply allow_plain; [|done..]. split; [owner a1|done].
  - unfold mfa_regen_recovery, authed_user, throttle_user, throttle. walk; try fin. tidy.
    apply throttled_paths; [|intros; fin]. unfold regenerate_recovery. walk; try sub.
    apply verify_code_paths; [clearing|intros h2 Hs2; owner a1| |by intros ?? []; sub]. intros h2 Hk2 Hcode. pose proof (proj1 Hk2) as Hs2.
    walk; try sub; try fin.
    + apply allow_plain; [|done..]. split; [owner a1|done].
    + eapply allow_first; [|intros c Hc; by eapply code_rows_drawn|done|clearing].
      intros c Hc. erewrite code_rows_owner by done. split; [owner a1|].
      eapply code_accepted_mono; [|exact Hcode]. sub.
Qed.

(** The re-encryption writes for the caller who proved the password. *)
Lemma reseal_paths c b u round vs h' Q :
  h ⊆ h' → own_password h' a (current_password b) u →
  (vs = [] ∨ ∃ l, Ev (ListSealedVars (a_user_id a)) (Ok l) ∈ h' ∧ vs ⊆ l) →
  (∀ h2 x, keeps h' h2 → Q h2 x) →
  paths (allow (Authed header (ChangePassword c (Parsed b))) r) Q h'
    (reseal r (current_password b) (next_password b) round vs).
Proof.
  revert round h'. induction vs as [|v vs IH]; intros round h' Hs Hown Hl HQ; cbn [reseal]; [walk; apply HQ; keeping|].
  destruct Hl as [?|(l & Hl & Hvs)]; [done|].
  assert (∀ h2, h' ⊆ h2 → vs = [] ∨ ∃ l, Ev (ListSealedVars (a_user_id a)) (Ok l) ∈ h2 ∧ vs ⊆ l) as Hrest.
  { intros h2 H2. right. exists l. split; [by apply H2|set_solver]. }
  walk; try (apply HQ; keeping).
  - apply allow_plain; [|done..]. exists a, u. split_and!; [signed|eapply own_password_mono; [|exact Hown]; sub|].
    exists l, v. do 3 eexists. split_and!; [by apply elem_before|set_solver|done..].
  - eapply IH; [sub|eapply own_password_mono; [|exact Hown]; sub|apply Hrest; sub|].
    intros h2 x Hk2. apply HQ. eapply keeps_then; [|exact Hk2]. keeping.
  - by apply IH; auto.
  - by apply IH; auto.
Qed.

Lemma change_password_paths c b :
  paths (allow (Authed header (ChangePassword c b)) r) (finished (Authed header (ChangePassword c b)) r) h
    (protected jwt_secret vault_key r a (ChangePassword c b)).
Proof.
  cbn [protected]. unfold change_password, authed_user, throttle. destruct b as [| |b]; walk; try fin.
  all: cbn [read_body] in *; simplify_eq; tidy.
  all: match goal with Hv : negb (verify_password _ _) = false |- _ => apply negb_false_iff in Hv as Hpw end.
  - apply allow_plain; [|done..]. exists a, a4. split_and!; [signed|split; [here|done]|done].
  - eapply (reseal_paths c a1 a4); [sub|split; [here|done]| |].
    { match goal with |- default [] (result_ok ?b) = [] ∨ _ => destruct b as [l|]; [right; exists l; split; [here|done]|by left] end. }
    intros h2 x Hk2. pose proof (proj1 Hk2) as Hs2. walk; try fin.
    + apply allow_plain; [|done..]. exists a. split; [signed|by left].
    + apply issue_paths; [|clearing|].
      * intros s h3 Hs3 Hsu. exists a, a4. tidy. split_and!; [signed| |done|].
        -- split; [apply Hs3; apply elem_before, Hs2; here|done].
        -- eexists. apply Hs3. here.
      * intros h3 x' Hs3. walk; try fin. apply user_info_paths. intros; walk; fin.
Qed.
End authed.

Lemma protected_paths header p r h a :
  signed_in header h a → (∀ k, clear k h) →
  paths (allow (Authed header p) r) (finished (Authed header p) r) h (protected jwt_secret vault_key r a p).
Proof.
  intros Ha Hq. destruct p;
    first [by apply change_password_paths | by apply session_routes_paths | by apply admin_routes_paths
          | by apply mfa_routes_paths].
Qed.

Lemma reset_paths r name :
  paths (allow (ResetPassword name) r) (λ _ _, True) [] (reset_user_password r name).
Proof.
  unfold reset_user_password, reset_target. walk; try done; tidy; (apply allow_plain; [|done..]); eexists; (split; [reflexivity|]); here.
Qed.

Lemma startup_paths r u pw desktop :
  paths (allow (Startup u pw desktop) r) (λ _ _, True) [] (startup jwt_secret r u pw desktop).
Proof.
  unfold startup, ensure_admin_user, mint_desktop_bootstrap_token. walk; try done;
    try (by apply allow_plain; [here|..]).
  - tidy. apply allow_plain; [|done..]. split; [|done]. exists a. split; [here|lia].
  - tidy. apply issue_paths; [|clearing|done].
    intros s h' Hs Hu. eexists _, _. split_and!.
    + exists a. split; [apply Hs; here|lia].
    + apply Hs. here.
    + exists u0. split; [apply Hs; here|done].
Qed.

(** Every handler keeps to [allow] and answers as [answered] says. *)
Lemma handle_paths q r : paths (allow q r) (answered q r) [] (handle jwt_secret vault_key r q).
Proof.
  unfold handle. apply paths_bind. cbn [paths]. fold (finished q r).
  destruct q as [c b|c b|header p|name|u pw d]; cbn [handler].
  - apply login_paths.
  - apply mfa_verify_paths.
  - apply paths_h_bind, require_auth_paths; [by left|]. intros. by apply protected_paths.
  - apply paths_h_bind. eapply paths_mono; [|apply reset_paths]. by intros h [].
  - eapply paths_mono; [|apply startup_paths]. done.
Qed.
End evidence.
End AuthSafety.
