(* ===== verification/AuthRuns.v ===== *)
(** * Authentication under every schedule

    Theorems about [play]: any number of requests in flight, their calls
    interleaved in any order, with a database that may fail at any call.  Random
    draws of different requests are assumed distinct where that matters
    ([draws_distinct]). *)

From S2P Require Import Prelude Programs CharStr EnvVars Gates AuthDb Auth AuthRoutes AuthProps AuthSafety.

Module AuthRuns.
Export AuthSafety.

(** ** What calls do to the tables *)

(** Rows a call asks for, rows that were really created, and what lookups
    returned. *)
Definition new_session (e : Event) : option AuthSession :=
  match e with @Ev _ B o b => match o with CreateAuthSession s => Some s | _ => None end end.
Definition new_challenge (e : Event) : option MfaChallengeRow :=
  match e with @Ev _ B o b => match o with InsertChallenge c => Some c | _ => None end end.
Definition inserted (e : Event) : option MfaChallengeRow :=
  match e with @Ev _ B o b =>
    match o in Op B return B → _ with InsertChallenge c => λ b, if is_ok b then Some c else None | _ => λ _, None end b
  end.
Definition created (e : Event) : option AuthSession :=
  match e with @Ev _ B o b =>
    match o in Op B return B → _ with CreateAuthSession c => λ b, if is_ok b then Some c else None | _ => λ _, None end b
  end.
Definition looked_up (e : Event) : option (str * MfaChallengeRow) :=
  match e with @Ev _ B o b =>
    match o in Op B return B → _ with
    | GetChallengeByHash h => λ b, row ← mjoin (result_ok b); Some (h, row)
    | _ => λ _, None
    end b
  end.
Definition got_user (e : Event) : option (str * User) :=
  match e with @Ev _ B o b =>
    match o in Op B return B → _ with GetUser uid => λ b, u ← mjoin (result_ok b); Some (uid, u) | _ => λ _, None end b
  end.
Definition got_session (e : Event) : option (str * AuthSession) :=
  match e with @Ev _ B o b =>
    match o in Op B return B → _ with
    | GetAuthSession sid => λ b, s ← mjoin (result_ok b); Some (sid, s)
    | _ => λ _, None
    end b
  end.
Definition consumed (e : Event) : option str :=
  match e with @Ev _ B o b =>
    match o in Op B return B → _ with
    | ConsumeChallenge cid _ => λ b, match b with Ok true => Some cid | _ => None end
    | _ => λ _, None
    end b
  end.

(** A challenge as it was issued: only its counters move, and a consumed one
    stays consumed. *)
Definition same_challenge (c c' : MfaChallengeRow) : Prop :=
  ch_id c' = ch_id c ∧ ch_user_id c' = ch_user_id c ∧ ch_token_hash c' = ch_token_hash c ∧
  ch_expires_at c' = ch_expires_at c ∧ (is_some (ch_consumed_at c) = true → is_some (ch_consumed_at c') = true).

Lemma same_challenge_refl c : same_challenge c c.
Proof. by split_and!. Qed.

Abbreviation challenges s := (mfa_challenges (db s)).
Abbreviation sessions s := (auth_sessions (db s)).

Lemma db_set_limiter l r s : db (set_limiter l r s) = db s.
Proof. by destruct l. Qed.

(** The tables after a call that did not fail. *)
Definition effect {B} (o : Op B) (d : Db) : Db :=
  match o with
  | CreateUser new => (AuthDb.create_user new d).2
  | UpdateUserRow uid c => (update_user uid c d).2
  | DeleteUser uid => (AuthDb.delete_user uid d).2
  | CreateAuthSession new => (create_auth_session_via new d).2
  | UpdateLastUsed sid now => (update_auth_session_last_used sid now d).2
  | DeleteAuthSession sid => (delete_auth_session sid d).2
  | DeleteExpired now => (delete_expired_auth_sessions now d).2
  | DeleteByUser uid => (delete_auth_sessions_by_user uid d).2
  | DeleteByRemoteDevice dev => (delete_auth_sessions_by_remote_device dev d).2
  | DeleteByUserExcept uid sid => (delete_auth_sessions_by_user_except uid sid d).2
  | InsertMfaMethod new => (insert_mfa_method new d).2
  | SetLastTimestep mid ts => (set_mfa_last_timestep mid ts d).2
  | InsertRecoveryCodes rows => (insert_recovery_codes rows d).2
  | MarkCodeUsed cid at_ => (mark_recovery_code_used cid at_ d).2
  | DeleteCodes uid => (delete_recovery_codes_for_user uid d).2
  | InsertChallenge new => (insert_mfa_challenge new d).2
  | ConsumeChallenge cid now => (consume_mfa_challenge cid now d).2
  | BumpFailure cid => (bump_mfa_challenge_failure cid d).2
  | ReplacePending new => (replace_mfa_pending new d).2
  | DeletePending uid => (delete_mfa_pending uid d).2
  | WipeUserMfa uid => (wipe_user_mfa uid d).2
  | UpdateSealedVar vid ct n salt now => set_env_vars (update_env_var_ciphertext vid ct n salt now (env_vars d)).2 d
  | _ => d
  end.

Lemma exec_effect {B} (o : Op B) f s b s' :
  exec o f s = (b, s') → fault f = true ∧ db s' = db s ∨ fault f = false ∧ db s' = effect o (db s).
Proof.
  destruct o; cbn [exec effect]; unfold on_db; destruct (fault f);
    try (intros [= <- <-]; rewrite ?db_set_limiter; by auto).
  1, 2: case_match; intros [= <- <-]; rewrite db_set_limiter; by auto.
  all: intros Hx; right; split; [done|];
    first [by simplify_eq/= | match type of Hx with (let '(_, _) := ?x in _) = _ => destruct x; by simplify_eq/= end].
Qed.

Lemma insert_row_spec {A} tbl set owner clash (new : A) d x d' :
  insert_row tbl set owner clash new d = (x, d') →
  (x = Ok new ∧ existsb clash (tbl d) = false ∧ d' = set (tbl d ++ [new]) d) ∨ (is_ok x = false ∧ d' = d).
Proof. unfold insert_row. repeat case_match; intros [= <- <-]; naive_solver. Qed.

Lemma elem_of_filter_bool {A} (f : A → bool) l x : x ∈ List.filter f l → x ∈ l ∧ f x = true.
Proof. by rewrite !list_elem_of_In, filter_In. Qed.

(** Operations on the other tables, by computation. *)
Ltac elsewhere :=
  unfold create_auth_session_via, insert_mfa_method, insert_mfa_challenge, replace_mfa_pending, insert_row,
    AuthDb.create_user, update_user, insert_recovery_codes in *; repeat case_match; done.

Lemma exec_challenges {B} (o : Op B) f s b s' c' :
  exec o f s = (b, s') → c' ∈ challenges s' →
  inserted (Ev o b) = Some c' ∨ ∃ c, c ∈ challenges s ∧ same_challenge c c'.
Proof.
  intros He Hc. assert (challenges s' = challenges s → ∃ c, c ∈ challenges s ∧ same_challenge c c') as Hsame.
  { intros Heq. rewrite Heq in Hc. eauto using same_challenge_refl. }
  destruct (exec_effect _ _ _ _ _ He) as [[_ Hd]|[Hf Hd]]; [right; apply Hsame; by rewrite Hd|].
  destruct o; cbn [effect] in Hd; try (right; apply Hsame; rewrite Hd; solve [done|elsewhere]).
  - right. rewrite Hd in Hc. apply elem_of_filter_bool in Hc as [Hc _]. eauto using same_challenge_refl.
  - cbn [exec] in He. unfold on_db in He. rewrite Hf in He.
    destruct (insert_mfa_challenge new (db s)) as [x d'] eqn:Ei. injection He as <- <-.
    apply insert_row_spec in Ei as [(-> & _ & ->)|[_ ->]]; [|right; by apply Hsame].
    simpl in Hc. apply elem_of_app in Hc as [Hc|Hc%list_elem_of_singleton]; [right; eauto using same_challenge_refl|].
    left. by rewrite Hc.
  - right. rewrite Hd in Hc. simpl in Hc. apply list_elem_of_fmap in Hc as (c & -> & Hc). exists c. split; [done|].
    case_match; [by split_and!|apply same_challenge_refl].
  - right. rewrite Hd in Hc. simpl in Hc. apply list_elem_of_fmap in Hc as (c & -> & Hc). exists c. split; [done|].
    unfold bump_failures. case_match; [by split_and!|apply same_challenge_refl].
  - right. rewrite Hd in Hc. apply elem_of_filter_bool in Hc as [Hc _]. eauto using same_challenge_refl.
Qed.

Lemma exec_sessions {B} (o : Op B) f s b s' x :
  exec o f s = (b, s') → x ∈ sessions s' →
  created (Ev o b) = Some x ∨ ∃ y, y ∈ sessions s ∧ s_id y = s_id x ∧ s_user_id y = s_user_id x.
Proof.
  intros He Hx. assert (∀ p, sessions s' = List.filter p (sessions s) → ∃ y, y ∈ sessions s ∧ s_id y = s_id x ∧ s_user_id y = s_user_id x) as Hsub.
  { intros p Heq. rewrite Heq in Hx. apply elem_of_filter_bool in Hx as [Hx _]. eauto. }
  assert (sessions s' = sessions s → ∃ y, y ∈ sessions s ∧ s_id y = s_id x ∧ s_user_id y = s_user_id x) as Hsame.
  { intros Heq. rewrite Heq in Hx. eauto. }
  destruct (exec_effect _ _ _ _ _ He) as [[_ Hd]|[Hf Hd]]; [right; apply Hsame; by rewrite Hd|].
  destruct o; cbn [effect] in Hd; try (right; apply Hsame; rewrite Hd; solve [done|elsewhere]);
    try (right; eapply Hsub; rewrite Hd; done).
  - cbn [exec] in He. unfold on_db in He. rewrite Hf in He.
    destruct (create_auth_session_via new (db s)) as [r d'] eqn:Ei. injection He as <- <-.
    apply insert_row_spec in Ei as [(-> & _ & ->)|[_ ->]]; [|right; by apply Hsame].
    simpl in Hx. apply elem_of_app in Hx as [Hx|Hx%list_elem_of_singleton]; [right; eauto|]. left. by rewrite Hx.
  - right. rewrite Hd in Hx. simpl in Hx. apply list_elem_of_fmap in Hx as (y & -> & Hy). exists y. split; [done|].
    unfold touch. by case_match.
Qed.

Lemma find_spec {A} (f : A → bool) l x : List.find f l = Some x → x ∈ l ∧ f x = true.
Proof. intros Hf. apply find_some in Hf as [Hi Hx]. by rewrite list_elem_of_In. Qed.

(** A lookup that found a row. *)
Lemma query_find {A K} (p : A → bool) (tbl : Db → list A) f s b s' (key : K) y :
  on_db (query (λ d, List.find p (tbl d))) f s = (b, s') → (x ← mjoin (result_ok b); Some (key, x)) = Some y →
  y.1 = key ∧ y.2 ∈ tbl (db s) ∧ p y.2 = true.
Proof.
  unfold on_db, query. destruct (fault f); intros [= <- <-]; simpl; [done|].
  destruct (List.find p (tbl (db s))) eqn:Ef; simpl; intros [= <-]. apply find_spec in Ef. done.
Qed.

Lemma looked_up_spec {B} (o : Op B) f s b s' h row :
  exec o f s = (b, s') → looked_up (Ev o b) = Some (h, row) → row ∈ challenges s ∧ ch_token_hash row = h.
Proof.
  intros He Hl. destruct o; try done. destruct (query_find _ _ _ _ _ _ _ _ He Hl) as (<- & Hx & Hp%bool_decide_eq_true).
  done.
Qed.

Lemma got_user_spec {B} (o : Op B) f s b s' uid u :
  exec o f s = (b, s') → got_user (Ev o b) = Some (uid, u) → u_id u = uid.
Proof.
  intros He Hl. destruct o; try done. destruct (query_find _ _ _ _ _ _ _ _ He Hl) as (<- & Hx & Hp%bool_decide_eq_true).
  done.
Qed.

Lemma got_session_spec {B} (o : Op B) f s b s' sid x :
  exec o f s = (b, s') → got_session (Ev o b) = Some (sid, x) → x ∈ sessions s ∧ s_id x = sid.
Proof.
  intros He Hl. destruct o; try done. destruct (query_find _ _ _ _ _ _ _ _ He Hl) as (<- & Hx & Hp%bool_decide_eq_true).
  done.
Qed.

Lemma consumed_spec {B} (o : Op B) f s b s' cid :
  exec o f s = (b, s') → consumed (Ev o b) = Some cid →
  (∃ c, c ∈ challenges s ∧ ch_id c = cid ∧ ch_consumed_at c = None) ∧
  (∀ c', c' ∈ challenges s' → ch_id c' = cid → is_some (ch_consumed_at c') = true).
Proof.
  intros He Hl. destruct o; try done. cbn in He, Hl. unfold on_db in He.
  destruct (fault f); injection He as <- <-; [done|].
  cbn in Hl. destruct (existsb (open_challenge cid0) (challenges s)) eqn:Eo; [injection Hl as <-|done].
  split.
  - apply existsb_exists in Eo as (c & Hc & Ho). apply andb_true_iff in Ho as [Hi Hn].
    apply bool_decide_eq_true in Hi, Hn. exists c. by rewrite list_elem_of_In.
  - cbn. intros c' Hc Hid. apply list_elem_of_fmap in Hc as (c & -> & Hc).
    destruct (open_challenge cid0 c) eqn:Eoc; [done|]. unfold open_challenge in Eoc. rewrite Hid, bool_decide_eq_true_2 in Eoc by done.
    destruct (ch_consumed_at c); [done|]. by rewrite bool_decide_eq_true_2 in Eoc.
Qed.

(** ** Runs *)

Section runs.
Context `{Crypto, AuthCrypto} (jwt_secret vault_key : bytes).

Abbreviation play := (play jwt_secret vault_key).
Abbreviation moves := (moves jwt_secret vault_key).
Abbreviation world l := (play World_new l).

Lemma world_kept l : kept (allow jwt_secret vault_key) (answered jwt_secret) (world l).
Proof. apply kept_play. intros. apply handle_paths. Qed.

(** Rows come from calls of the trace. *)
Definition issued (tr : list (nat * Event)) (c : MfaChallengeRow) : Prop :=
  ∃ t e c0, (t, e) ∈ tr ∧ inserted e = Some c0 ∧ same_challenge c0 c.
Definition opened (tr : list (nat * Event)) (x : AuthSession) : Prop :=
  ∃ t e y, (t, e) ∈ tr ∧ created e = Some y ∧ s_id y = s_id x ∧ s_user_id y = s_user_id x.

Record run_ok (w : World) : Prop := {
  ro_challenge c : c ∈ challenges (server w) → issued (trace w) c;
  ro_session x : x ∈ sessions (server w) → opened (trace w) x;
  ro_looked tr x tr' h row : trace w = tr ++ x :: tr' → looked_up x.2 = Some (h, row) →
    ch_token_hash row = h ∧ issued tr row;
  ro_user t e uid u : (t, e) ∈ trace w → got_user e = Some (uid, u) → u_id u = uid }.

Lemma same_challenge_trans a b c : same_challenge a b → same_challenge b c → same_challenge a c.
Proof. intros (? & ? & ? & ? & ?) (? & ? & ? & ? & ?). split_and!; (congruence || auto). Qed.

Lemma issued_mono tr tr' c : tr ⊆ tr' → issued tr c → issued tr' c.
Proof. intros Hs (t & e & c0 & Hin & ?). exists t, e, c0. split; [by apply Hs|done]. Qed.

Lemma opened_mono tr tr' x : tr ⊆ tr' → opened tr x → opened tr' x.
Proof. intros Hs (t & e & y & Hin & ?). exists t, e, y. split; [by apply Hs|done]. Qed.

Lemma run_ok_moves w w' : moves w w' → run_ok w → run_ok w'.
Proof.
  intros Hm; by_move Hm; intros [Hch Hse Hlo Hus]; [done|by split|]. split; simpl.
  - intros c Hc. destruct (exec_challenges _ _ _ _ _ _ He Hc) as [Hi|(c0 & Hc0 & Hsame)].
    + exists t, (Ev o b), c. split_and!; [set_solver|done|apply same_challenge_refl..].
    + destruct (Hch _ Hc0) as (t' & e & c1 & Hin & Hi & Hs'). exists t', e, c1.
      split_and!; [set_solver|done|]. by eapply same_challenge_trans.
  - intros x Hx. destruct (exec_sessions _ _ _ _ _ _ He Hx) as [Hi|(y & Hy & Hid & Hu)].
    + exists t, (Ev o b), x. split_and!; [set_solver|done..].
    + destruct (Hse _ Hy) as (t' & e & z & Hin & Hc & Hz & Hzu). exists t', e, z. split_and!; [set_solver|done|congruence..].
  - intros tr x tr' h row Htr Hl. destruct (snoc_split _ _ _ _ _ Htr) as [(<- & <- & _)|[tr'' Htr']]; [|by eapply Hlo].
    destruct (looked_up_spec _ _ _ _ _ _ _ He Hl) as [Hrow Hh]. auto.
  - intros t' e uid u Hin Hg. apply elem_of_app in Hin as [Hin|Hin%list_elem_of_singleton]; [by eapply Hus|].
    pose proof (f_equal snd Hin) as He'. simpl in He'. subst e. by eapply got_user_spec.
Qed.

Lemma world_ok l : run_ok (world l).
Proof. apply play_ind; [|by intros v v'; apply run_ok_moves]. by split; simpl; try (intros ?; set_solver); intros [|? ?]. Qed.

Lemma allow_session q r h e x :
  allow jwt_secret vault_key q r h e → new_session e = Some x →
  s_id x = uuid r 0 ∧ session_allowed jwt_secret vault_key q h x ∧ ∀ e', e' ∈ h → new_session e' = None.
Proof.
  intros (Ha & Ho & Ht) Hn. destruct e as [B o b]. destruct o; try done. injection Hn as ->. split_and!; [done..|].
  intros e' He'. pose proof (Ht _ eq_refl) as Hc. unfold clear in Hc. rewrite Forall_forall in Hc. specialize (Hc _ He').
  destruct e' as [B' o' b']. by destruct o'.
Qed.

Lemma allow_challenge q r h e c :
  allow jwt_secret vault_key q r h e → new_challenge e = Some c →
  ch_id c = uuid r 0 ∧ ch_token_hash c = hash_token (random_token r) ∧
  challenge_allowed q h c ∧ ∀ e', e' ∈ h → new_challenge e' = None.
Proof.
  intros (Ha & Ho & Ht) Hn. destruct e as [B o b]. destruct o; try done. injection Hn as ->.
  destruct Ho as (Hi & Hh & _). split_and!; [done..|].
  intros e' He'. pose proof (Ht _ eq_refl) as Hc. unfold clear in Hc. rewrite Forall_forall in Hc. specialize (Hc _ He').
  destruct e' as [B' o' b']. by destruct o'.
Qed.

(** *** Sessions and account changes need their evidence *)

(** C4: in every schedule of arrivals and calls, with a database that may fail
    at any call, a call that changes an account (its row, sessions, second
    factors, challenges, sealed variables) is made only by a request that has
    gathered the evidence for it in its own earlier calls. With a valid token of
    a session that was in the table: of an admin for users and resets; of the
    owner or an admin for sessions; of the owner with the current password for
    the password, for the enrolment of an authenticator, and for the sealed
    variables, each of which is the caller's, opens under the password given and
    is sealed again under the new one; and with an accepted code too for turning
    MFA off and for new recovery codes. Without a token: with a live challenge
    that was presented, for the windows and codes of its user, its failures and
    its end; a login, for a session or a challenge; the reset command at the
    console of the server, for the account it names or the only one; and a start
    of the server, which removes expired sessions and makes the first admin when
    there is no user. *)
Theorem account_changes_authorised l tr t e tr' :
  trace (world l) = tr ++ (t, e) :: tr' →
  ∃ th, threads (world l) !! t = Some th ∧ authorised jwt_secret vault_key (request th) (hist tr t) e.
Proof.
  intros Htr. destruct (kept_call _ _ _ (world_kept l) _ _ _ _ Htr) as (th & Hth & Ha & _). by exists th.
Qed.


Lemma inserted_new e c : inserted e = Some c → new_challenge e = Some c.
Proof. destruct e as [B o b]. destruct o; try done. cbn. by destruct b. Qed.

Lemma created_new e x : created e = Some x → new_session e = Some x.
Proof. destruct e as [B o b]. destruct o; try done. cbn. by destruct b. Qed.




(** *** Fresh draws *)

(** Different requests draw different uuids and challenge tokens. *)
Record draws_distinct (rs : list Rand) : Prop := {
  dd_uuid i j r r' n m : rs !! i = Some r → rs !! j = Some r' → uuid r n = uuid r' m → i = j;
  dd_token i j r r' : rs !! i = Some r → rs !! j = Some r' →
    hash_token (random_token r) = hash_token (random_token r') → i = j }.

Definition rands (l : list Action) : list Rand :=
  omap (λ a, match a with Spawn _ r => Some r | Run _ _ => None end) l.

Abbreviation drawn w := (rand <$> threads w).

Lemma act_drawn w a : drawn (act jwt_secret vault_key w a) = drawn w ++ rands [a].
Proof.
  destruct a as [q r|t f]; simpl; [by rewrite fmap_app|rewrite app_nil_r].
  destruct (threads w !! t) as [[q r [|B o k]]|] eqn:Ht; [done| |done].
  destruct (exec o f (server w)). simpl. rewrite list_fmap_insert. simpl.
  apply list_insert_id. by rewrite list_lookup_fmap, Ht.
Qed.

Lemma world_drawn l : drawn (world l) = rands l.
Proof.
  assert (∀ w, drawn (play w l) = drawn w ++ rands l) as Hw; [|by rewrite Hw].
  induction l as [|a l IH]; intros w; [by rewrite app_nil_r|].
  simpl. rewrite (IH (Routes.act _ _ w a)), act_drawn, <- app_assoc. f_equal. by destruct a.
Qed.

Lemma moves_drawn w w' : moves w w' → draws_distinct (drawn w') → draws_distinct (drawn w).
Proof.
  intros Hm [Hu Ht]. assert (drawn w `prefix_of` drawn w') as Hp.
  { destruct Hm as [|q r|t q r B o k f b s Hth He]; [done|simpl; rewrite fmap_app; by apply prefix_app_r|].
    simpl. rewrite list_fmap_insert, list_insert_id; [done|]. by rewrite list_lookup_fmap, Hth. }
  split; [intros i j r r' n m Hi Hj; eapply Hu|intros i j r r' Hi Hj; eapply Ht]; by eapply prefix_lookup_Some.
Qed.

Section distinct.
Context (w : World).
Hypothesis Hk : kept (allow jwt_secret vault_key) (answered jwt_secret) w.
Hypothesis Hd : draws_distinct (drawn w).

Lemma thread_drawn t th : threads w !! t = Some th → drawn w !! t = Some (rand th).
Proof. intros Ht. by rewrite list_lookup_fmap, Ht. Qed.

(** A thread inserts one challenge and creates one session, under ids of its own. *)
Lemma challenge_once tr t e tr' c t0 e0 c0 :
  trace w = tr ++ (t, e) :: tr' → new_challenge e = Some c →
  (t0, e0) ∈ tr → new_challenge e0 = Some c0 → ch_id c0 = ch_id c → False.
Proof.
  intros Htr Hc Hin Hc0 Hid. destruct (kept_call _ _ _ Hk _ _ _ _ Htr) as (th & Hth & Ha).
  destruct (allow_challenge _ _ _ _ _ Ha Hc) as (Hi & _ & _ & Hnone).
  pose proof Hin as Hin'. apply list_elem_of_split in Hin' as (tr1 & tr2 & ->). rewrite <- app_assoc in Htr.
  destruct (kept_call _ _ _ Hk _ _ _ _ Htr) as (th0 & Hth0 & Ha0).
  destruct (allow_challenge _ _ _ _ _ Ha0 Hc0) as (Hi0 & _).
  assert (t0 = t) as -> by (eapply (dd_uuid _ Hd _ _ _ _ 0 0)%nat; [by apply thread_drawn..|congruence]).
  apply elem_of_hist in Hin. by rewrite (Hnone _ Hin) in Hc0.
Qed.

Lemma session_once tr t e tr' x t0 e0 x0 :
  trace w = tr ++ (t, e) :: tr' → new_session e = Some x →
  (t0, e0) ∈ tr → new_session e0 = Some x0 → s_id x0 = s_id x → False.
Proof.
  intros Htr Hc Hin Hc0 Hid. destruct (kept_call _ _ _ Hk _ _ _ _ Htr) as (th & Hth & Ha).
  destruct (allow_session _ _ _ _ _ Ha Hc) as (Hi & _ & Hnone).
  pose proof Hin as Hin'. apply list_elem_of_split in Hin' as (tr1 & tr2 & ->). rewrite <- app_assoc in Htr.
  destruct (kept_call _ _ _ Hk _ _ _ _ Htr) as (th0 & Hth0 & Ha0).
  destruct (allow_session _ _ _ _ _ Ha0 Hc0) as (Hi0 & _).
  assert (t0 = t) as -> by (eapply (dd_uuid _ Hd _ _ _ _ 0 0)%nat; [by apply thread_drawn..|congruence]).
  apply elem_of_hist in Hin. by rewrite (Hnone _ Hin) in Hc0.
Qed.

(** Challenges with the same token are the same. *)
Lemma token_names_challenge t e c t0 e0 c0 :
  (t, e) ∈ trace w → new_challenge e = Some c → (t0, e0) ∈ trace w → new_challenge e0 = Some c0 →
  ch_token_hash c = ch_token_hash c0 → ch_id c = ch_id c0.
Proof.
  intros (tr1 & tr2 & Htr)%list_elem_of_split Hc (tr3 & tr4 & Htr0)%list_elem_of_split Hc0 Hh.
  destruct (kept_call _ _ _ Hk _ _ _ _ Htr) as (th & Hth & Ha).
  destruct (allow_challenge _ _ _ _ _ Ha Hc) as (Hi & Ht & _).
  destruct (kept_call _ _ _ Hk _ _ _ _ Htr0) as (th0 & Hth0 & Ha0).
  destruct (allow_challenge _ _ _ _ _ Ha0 Hc0) as (Hi0 & Ht0 & _).
  assert (t = t0) as -> by (eapply (dd_token _ Hd); [by apply thread_drawn..|congruence]).
  simplify_eq. congruence.
Qed.
End distinct.

(** *** A challenge is spent once *)

Record spent (w : World) : Prop := {
  sp_closed t e cid : (t, e) ∈ trace w → consumed e = Some cid →
    (∃ t0 e0 c0, (t0, e0) ∈ trace w ∧ inserted e0 = Some c0 ∧ ch_id c0 = cid) ∧
    ∀ c, c ∈ challenges (server w) → ch_id c = cid → is_some (ch_consumed_at c) = true;
  sp_once tr x tr' y cid : trace w = tr ++ x :: tr' → consumed x.2 = Some cid → y ∈ tr → consumed y.2 ≠ Some cid }.

Lemma spent_moves w w' :
  moves w w' → kept (allow jwt_secret vault_key) (answered jwt_secret) w' → draws_distinct (drawn w') →
  run_ok w → spent w → spent w'.
Proof.
  intros Hm; by_move Hm; intros Hk Hd Hro [Hcl Hon]; [done|by split|].
  set (v := mkWorld _ _ _) in *. split.
  - intros t' e cid Hin Hcon. simpl in Hin. apply elem_of_app in Hin as [Hin|Hin%list_elem_of_singleton].
    + destruct (Hcl _ _ _ Hin Hcon) as [(t0 & e0 & c0 & Hin0 & Hi0 & Hid0) Hrows]. split.
      { exists t0, e0, c0. simpl. set_solver. }
      intros c Hc Hid. destruct (exec_challenges _ _ _ _ _ _ He Hc) as [Hi|(c1 & Hc1 & Hs)].
      * exfalso. eapply (challenge_once v Hk Hd (trace w) t (Ev o b) []); [done|by apply inserted_new|done| |].
        -- by apply inserted_new.
        -- congruence.
      * destruct Hs as (Hi1 & _ & _ & _ & Hm). apply Hm, Hrows; [done|congruence].
    + pose proof (f_equal snd Hin) as He'. simpl in He'. subst e.
      destruct (consumed_spec _ _ _ _ _ _ He Hcon) as [(c & Hc & Hid & _) Hrows]. split; [|done].
      destruct (ro_challenge _ Hro _ Hc) as (t0 & e0 & c0 & Hin0 & Hi0 & Hs).
      exists t0, e0, c0. simpl. split_and!; [set_solver|done|]. destruct Hs as (Hi & _). congruence.
  - intros tr x tr' y cid Htr Hcon Hy Hcy.
    destruct (snoc_split _ _ _ _ _ Htr) as [(<- & <- & _)|[tr'' Htr']]; [|by eapply Hon].
    destruct (consumed_spec _ _ _ _ _ _ He Hcon) as [(c & Hc & Hid & Hopen) _].
    destruct y as [ty ey]. destruct (Hcl _ _ _ Hy Hcy) as [_ Hrows].
    specialize (Hrows _ Hc Hid). by rewrite Hopen in Hrows.
Qed.

Lemma world_spent l : draws_distinct (rands l) → spent (world l).
Proof.
  rewrite <- world_drawn. intros Hd.
  assert (kept (allow jwt_secret vault_key) (answered jwt_secret) (world l) ∧ run_ok (world l) ∧
          (draws_distinct (drawn (world l)) → spent (world l))) as (_ & _ & Hs); [|by apply Hs].
  apply play_ind.
  - split_and!; [apply (world_kept [])|apply (world_ok [])|]. intros _. split; simpl; [set_solver|by intros [|? ?]].
  - intros v v' Hm (Hk & Hro & Hs).
    assert (kept (allow jwt_secret vault_key) (answered jwt_secret) v') as Hk'
      by (eapply kept_moves; [intros; apply handle_paths|done..]).
    split_and!; [done|by eapply run_ok_moves|]. intros Hd'.
    eapply spent_moves; [done..|]. apply Hs. by eapply moves_drawn.
Qed.

Lemma elem_of_before {A} (x y : A) l :
  x ∈ l → y ∈ l → x ≠ y → (∃ a b, l = a ++ x :: b ∧ y ∈ a) ∨ (∃ a b, l = a ++ y :: b ∧ x ∈ a).
Proof.
  intros (a & b & ->)%list_elem_of_split Hy Hne. apply elem_of_app in Hy as [Hy|Hy]; [left; eauto|].
  apply elem_of_cons in Hy as [->|Hy]; [done|]. apply list_elem_of_split in Hy as (b1 & b2 & ->).
  right. exists (a ++ x :: b1), b2. split; [by rewrite <- app_assoc|set_solver].
Qed.

(** C5: in every schedule, of two different requests that present the same MFA
    challenge at most one is answered with a session, however their calls
    interleave and whatever else runs. *)
Theorem challenge_spent_once l t1 t2 th1 th2 c1 c2 b1 b2 r1 r2 :
  draws_distinct (rands l) →
  threads (world l) !! t1 = Some th1 → threads (world l) !! t2 = Some th2 → t1 ≠ t2 →
  request th1 = MfaVerify c1 b1 → request th2 = MfaVerify c2 b2 → trim (v_challenge b1) = trim (v_challenge b2) →
  prog th1 = Ret r1 → prog th2 = Ret r2 → status r1 = 200 → status r2 ≠ 200.
Proof.
  intros Hd Ht1 Ht2 Hne Hq1 Hq2 Htok Hp1 Hp2 Hs1 Hs2.
  pose proof (world_kept l) as Hk. pose proof (world_spent _ Hd) as [_ Honce]. rewrite <- world_drawn in Hd.
  assert (∀ t th c b r, threads (world l) !! t = Some th → request th = MfaVerify c b → prog th = Ret r → status r = 200 →
    ∃ cid e t0 e0 c0, (t, e) ∈ trace (world l) ∧ consumed e = Some cid ∧ (t0, e0) ∈ trace (world l) ∧
      new_challenge e0 = Some c0 ∧ ch_token_hash c0 = hash_token (trim (v_challenge b)) ∧ ch_id c0 = cid) as Hev.
  { intros t th c b r Ht Hq Hp Hs. pose proof (kept_prog _ _ _ Hk _ _ Ht) as Hpath. rewrite Hp, Hq in Hpath.
    destruct (Hpath Hs) as (row & Hl & _ & _ & _ & now & Hc). apply elem_of_hist in Hl, Hc.
    apply list_elem_of_split in Hl as (tr & tr' & Htr).
    destruct (ro_looked _ (world_ok l) _ _ _ _ _ Htr eq_refl) as [Hh (t0 & e0 & c0 & Hin & Hi & Hsame)].
    destruct Hsame as (Hid & _ & Hth & _).
    exists (ch_id row), (Ev (ConsumeChallenge (ch_id row) now) (Ok true)), t0, e0, c0.
    split_and!; [done..|rewrite Htr; set_solver|by apply inserted_new|congruence|congruence]. }
  destruct (Hev _ _ _ _ _ Ht1 Hq1 Hp1 Hs1) as (cid1 & e1 & t3 & e3 & c3 & Hin1 & Hc1 & Hin3 & Hn3 & Hh3 & Hid3).
  destruct (Hev _ _ _ _ _ Ht2 Hq2 Hp2 Hs2) as (cid2 & e2 & t4 & e4 & c4 & Hin2 & Hc2 & Hin4 & Hn4 & Hh4 & Hid4).
  assert (cid1 = cid2) as <-.
  { rewrite <- Hid3, <- Hid4. eapply (token_names_challenge _ Hk Hd); [exact Hin3|done|exact Hin4|done|congruence]. }
  destruct (elem_of_before _ _ _ Hin1 Hin2) as [(a & b & Hl & Hy)|(a & b & Hl & Hy)]; [congruence|..].
  - by eapply (Honce _ _ _ _ _ Hl).
  - by eapply (Honce _ _ _ _ _ Hl).
Qed.

(** *** Revocation is final *)

Definition has_session (w : World) (sid : str) : Prop := ∃ x, x ∈ sessions (server w) ∧ s_id x = sid.

(** A header whose token can only name session [sid]. *)
Definition names_session (header : option str) (sid : str) : Prop :=
  ∀ token now c, extract_bearer_token header = Some token → jwt_decode jwt_secret now token = Some c → jti c = sid.

Record revoked (n : nat) (sid : str) (w : World) : Prop := {
  rv_was : ∃ t e y, (t, e) ∈ trace w ∧ created e = Some y ∧ s_id y = sid;
  rv_gone : ¬ has_session w sid;
  rv_unseen t e x : (n ≤ t)%nat → (t, e) ∈ trace w → got_session e ≠ Some (sid, x) }.

Lemma revoked_moves n sid w w' :
  moves w w' → kept (allow jwt_secret vault_key) (answered jwt_secret) w' → draws_distinct (drawn w') →
  revoked n sid w → revoked n sid w'.
Proof.
  intros Hm; by_move Hm; intros Hk Hd [(t0 & e0 & y & Hin & Hc & Hid) Hgone Huns]; [split; eauto 6..|].
  split; simpl.
  - exists t0, e0, y. set_solver.
  - intros (x & Hx & Hxid). destruct (exec_sessions _ _ _ _ _ _ He Hx) as [Hnew|(z & Hz & Hzid & _)].
    + eapply (session_once _ Hk Hd (trace w) t (Ev o b) []); [done|by apply created_new|exact Hin|by apply created_new|congruence].
    + apply Hgone. exists z. split; [done|congruence].
  - intros t' e x Hn Hin' Hg. apply elem_of_app in Hin' as [Hin'|Hin'%list_elem_of_singleton]; [by eapply Huns|].
    pose proof (f_equal snd Hin') as He'. simpl in He'. subst e.
    destruct (got_session_spec _ _ _ _ _ _ _ He Hg) as [Hx Hxid]. apply Hgone. by exists x.
Qed.

(** In every schedule, a session that was in the table and is gone (logout,
    revocation, password change or reset, deletion of the user, expiry) never
    comes back, and every request that arrives afterwards with a token of that
    session and is answered is answered with 401. *)
Theorem revoked_stays_revoked l1 l2 l3 sid :
  draws_distinct (rands (l1 ++ l2 ++ l3)) → has_session (world l1) sid → ¬ has_session (world (l1 ++ l2)) sid →
  ¬ has_session (world (l1 ++ l2 ++ l3)) sid ∧
  ∀ t th header p r, threads (world (l1 ++ l2 ++ l3)) !! t = Some th → (length (threads (world (l1 ++ l2))) ≤ t)%nat →
    request th = Authed header p → names_session header sid → prog th = Ret r → r = unauthorized.
Proof.
  intros Hd (x & Hx & Hxid) Hgone. rewrite <- world_drawn in Hd.
  set (n := length (threads (world (l1 ++ l2)))).
  assert (revoked n sid (world (l1 ++ l2))) as Hstart.
  { split; [|done|].
    - destruct (ro_session _ (world_ok l1) _ Hx) as (t & e & y & Hin & Hc & Hid & _).
      exists t, e, y. split_and!; [|done|congruence]. rewrite play_app.
      assert (∀ w l, (t, e) ∈ trace w → (t, e) ∈ trace (play w l)) as Hmono; [|by apply Hmono].
      intros w l Hw. apply (play_ind _ _ (λ v, (t, e) ∈ trace v)); [done|].
      intros v v' [|?|???????????] Hv; simpl; [done..|]. set_solver.
    - intros t e y Hn Hin. apply elem_of_hist in Hin. rewrite (kept_new _ _ _ (world_kept (l1 ++ l2)) t Hn) in Hin.
      by apply elem_of_nil in Hin. }
  assert (revoked n sid (world (l1 ++ l2 ++ l3))) as [_ Hend Huns].
  { rewrite app_assoc, play_app in Hd |- *.
    apply (play_ind _ _ (λ v, kept (allow jwt_secret vault_key) (answered jwt_secret) v ∧
             (draws_distinct (drawn v) → revoked n sid v))) in Hd; [done| |].
    - split; [apply world_kept|done].
    - intros v v' Hm [Hk Hr].
      assert (kept (allow jwt_secret vault_key) (answered jwt_secret) v') as Hk'
        by (eapply kept_moves; [intros; apply handle_paths|done..]).
      split; [done|]. intros Hd'. eapply revoked_moves; [done..|]. apply Hr. by eapply moves_drawn. }
  split; [done|]. intros t th header p r Hth Hn Hq Hname Hp.
  pose proof (kept_prog _ _ _ (world_kept _) _ _ Hth) as Hpath. rewrite Hp, Hq in Hpath.
  destruct Hpath as [->|(a & token & now & c & row & Ht & _ & Hj & -> & Hg)]; [done|].
  apply elem_of_hist in Hg. rewrite (Hname _ _ _ Ht Hj) in Hg. exfalso. by eapply (Huns t _ row Hn Hg).
Qed.
End runs.
End AuthRuns.
