(* ===== verification/AuthFactors.v ===== *)
(** * A second factor is accepted once

    TOTP windows and recovery codes along every schedule: unless two requests
    that use the same factor overlap, the windows written for an authenticator
    strictly increase and a recovery code is accepted once. *)

From S2P Require Import Prelude Programs CharStr EnvVars Gates AuthDb Auth AuthRoutes AuthProps AuthSafety AuthRuns.

Module AuthFactors.
Export AuthRuns.

(** ** The calls that matter *)

(** An accepted window and an accepted code, as they are written back. *)
Definition wrote_window (e : Event) : option (str * Z) :=
  match e with @Ev _ B o b =>
    match o in Op B return B → _ with
    | SetLastTimestep mid ts => λ b, if is_ok b then Some (mid, ts) else None
    | _ => λ _, None
    end b
  end.
Definition marked (e : Event) : option str :=
  match e with @Ev _ B o b =>
    match o in Op B return B → _ with MarkCodeUsed cid _ => λ b, if is_ok b then Some cid else None | _ => λ _, None end b
  end.

(** The factor a call uses up. *)
Definition uses (e : Event) : option str :=
  match wrote_window e with Some (mid, _) => Some mid | None => marked e end.

Definition read_method (e : Event) : option MfaMethodRow :=
  match e with @Ev _ B o b =>
    match o in Op B return B → _ with GetMfaMethod _ _ => λ b, mjoin (result_ok b) | _ => λ _, None end b
  end.
Definition read_unused (e : Event) : option (list MfaRecoveryCode) :=
  match e with @Ev _ B o b =>
    match o in Op B return B → _ with ListUnusedCodes _ => λ b, result_ok b | _ => λ _, None end b
  end.

(** Rows that were enrolled. *)
Definition enrolled (e : Event) : option MfaMethodRow :=
  match e with @Ev _ B o b =>
    match o in Op B return B → _ with InsertMfaMethod m => λ b, if is_ok b then Some m else None | _ => λ _, None end b
  end.
Definition handed_out (e : Event) : list MfaRecoveryCode :=
  match e with @Ev _ B o b =>
    match o in Op B return B → _ with InsertRecoveryCodes rows => λ b, if is_ok b then rows else [] | _ => λ _, [] end b
  end.

(** The windows written for a method so far. *)
Definition windows (tr : list (nat * Event)) (mid : str) : list Z :=
  omap (λ x, match wrote_window x.2 with Some (i, ts) => if i == mid then Some ts else None | None => None end) tr.
Definition marks (tr : list (nat * Event)) (cid : str) : list nat :=
  omap (λ x, if marked x.2 == Some cid then Some x.1 else None) tr.

(** Two requests use the same factor, and one was already running when the
    other used it. *)
Definition overlapped (tr : list (nat * Event)) (factor : str) : Prop :=
  ∃ a b c t e t0 e0 e', tr = a ++ (t0, e0) :: b ++ (t, e') :: c ∧ (t, e) ∈ a ∧ t ≠ t0 ∧
    uses e0 = Some factor ∧ uses e' = Some factor.

(** ** What calls do to the tables *)

Abbreviation methods s := (mfa_methods (db s)).
Abbreviation codes s := (mfa_recovery_codes (db s)).

Definition window_after (e : Event) (m : MfaMethodRow) : option Z :=
  match wrote_window e with
  | Some (i, ts) => if i == m_id m then Some ts else m_last_timestep m
  | None => m_last_timestep m
  end.

Lemma exec_methods {B} (o : Op B) f s b s' m' :
  exec o f s = (b, s') → m' ∈ methods s' →
  enrolled (Ev o b) = Some m' ∨
  ∃ m, m ∈ methods s ∧ m_id m = m_id m' ∧ m_last_timestep m' = window_after (Ev o b) m.
Proof.
  intros He Hm. destruct (exec_effect _ _ _ _ _ He) as [[Hf Hd]|[Hf Hd]].
  { right. exists m'. rewrite Hd in Hm. split_and!; [done..|].
    destruct o; try done. cbn in He. unfold on_db in He. rewrite Hf in He. by injection He as <- <-. }
  assert (methods s' ⊆ methods s → wrote_window (Ev o b) = None →
    ∃ m, m ∈ methods s ∧ m_id m = m_id m' ∧ m_last_timestep m' = window_after (Ev o b) m) as Hsub.
  { intros Hs Hw. exists m'. unfold window_after. rewrite Hw. auto. }
  destruct o; cbn [effect] in Hd; try (right; apply Hsub; [rewrite Hd; solve [done|elsewhere]|done]).
  - right. apply Hsub; [|done]. rewrite Hd. intros m. by intros [? _]%elem_of_filter_bool.
  - cbn [exec] in He. unfold on_db in He. rewrite Hf in He.
    destruct (insert_mfa_method new (db s)) as [x d'] eqn:Ei. injection He as <- <-.
    apply insert_row_spec in Ei as [(-> & _ & ->)|[_ ->]]; [|right; by apply Hsub].
    simpl in Hm. apply elem_of_app in Hm as [Hm|Hm%list_elem_of_singleton]; [right|left; by rewrite Hm]. by exists m'.
  - cbn [exec] in He. unfold on_db in He. rewrite Hf in He. injection He as <- <-. right.
    simpl in Hm. apply list_elem_of_fmap in Hm as (m & -> & Hm). exists m. split; [done|]. unfold window_after. cbn.
    case_bool_decide as Hid; cbn; (split; [done|]); [by rewrite bool_decide_eq_true_2|by rewrite bool_decide_eq_false_2].
  - right. apply Hsub; [|done]. rewrite Hd. intros m. by intros [? _]%elem_of_filter_bool.
Qed.

Lemma exec_codes {B} (o : Op B) f s b s' c' :
  exec o f s = (b, s') → c' ∈ codes s' →
  c' ∈ handed_out (Ev o b) ∨
  ∃ c, c ∈ codes s ∧ rc_id c = rc_id c' ∧
    (is_some (rc_used_at c) = true ∨ marked (Ev o b) = Some (rc_id c') → is_some (rc_used_at c') = true).
Proof.
  intros He Hm. destruct (exec_effect _ _ _ _ _ He) as [[Hf Hd]|[Hf Hd]].
  { right. exists c'. rewrite Hd in Hm. split_and!; [done..|]. intros [?|Hmk]; [done|].
    destruct o; try done. cbn in He. unfold on_db in He. rewrite Hf in He. by injection He as <- <-. }
  assert (codes s' ⊆ codes s → marked (Ev o b) = None → ∃ c, c ∈ codes s ∧ rc_id c = rc_id c' ∧
    (is_some (rc_used_at c) = true ∨ marked (Ev o b) = Some (rc_id c') → is_some (rc_used_at c') = true)) as Hsub.
  { intros Hs Hw. exists c'. rewrite Hw. split_and!; [auto..|]. by intros []. }
  destruct o; cbn [effect] in Hd; try (right; apply Hsub; [rewrite Hd; solve [done|elsewhere]|done]).
  - right. apply Hsub; [|done]. rewrite Hd. intros m. by intros [? _]%elem_of_filter_bool.
  - cbn [exec] in He. unfold on_db in He. rewrite Hf in He. unfold insert_recovery_codes in He.
    clear Hd. repeat case_match; simplify_eq; try (right; by apply Hsub).
    simpl in Hm. apply elem_of_app in Hm as [Hm|Hm]; [right|by left]. exists c'. split_and!; [done..|]. by intros [].
  - cbn [exec] in He. unfold on_db in He. rewrite Hf in He. injection He as <- <-. right.
    simpl in Hm. apply list_elem_of_fmap in Hm as (c & -> & Hc). exists c. split; [done|].
    case_bool_decide as Hid; cbn; split; try done. intros [?|[= ->]]; done.
  - right. apply Hsub; [|done]. rewrite Hd. intros m. by intros [? _]%elem_of_filter_bool.
  - right. apply Hsub; [|done]. rewrite Hd. intros m. by intros [? _]%elem_of_filter_bool.
Qed.

Lemma read_method_spec {B} (o : Op B) f s b s' row :
  exec o f s = (b, s') → read_method (Ev o b) = Some row → row ∈ methods s.
Proof.
  intros He Hr. destruct o; try done. cbn in He, Hr. unfold on_db in He.
  destruct (fault f); injection He as <- <-; [done|]. cbn in Hr. by apply find_spec in Hr as [? _].
Qed.

Lemma read_unused_spec {B} (o : Op B) f s b s' rows c :
  exec o f s = (b, s') → read_unused (Ev o b) = Some rows → c ∈ rows → c ∈ codes s ∧ rc_used_at c = None.
Proof.
  intros He Hr Hc. destruct o; try done. cbn in He, Hr. unfold on_db in He.
  destruct (fault f); injection He as <- <-; [done|]. cbn in Hr. injection Hr as <-.
  apply elem_of_filter_bool in Hc as [? [_ Hu]%andb_true_iff]. by apply bool_decide_eq_true in Hu.
Qed.

(** ** Runs *)

Section runs.
Context `{Crypto, AuthCrypto} (jwt_secret vault_key : bytes).

Abbreviation play := (play jwt_secret vault_key).
Abbreviation moves := (moves jwt_secret vault_key).
Abbreviation world l := (play World_new l).
Abbreviation drawn w := (rand <$> threads w).
Abbreviation kept w := (kept (allow jwt_secret vault_key) (answered jwt_secret) w).

Lemma windows_app tr tr' mid : windows (tr ++ tr') mid = windows tr mid ++ windows tr' mid.
Proof. apply omap_app. Qed.

Lemma elem_of_windows tr mid ts : ts ∈ windows tr mid → ∃ t e, (t, e) ∈ tr ∧ wrote_window e = Some (mid, ts).
Proof.
  unfold windows. rewrite list_elem_of_omap. intros ([t e] & Hin & Hw). simpl in Hw.
  destruct (wrote_window e) as [[i ts']|] eqn:E; [|done]. case_bool_decide; simplify_eq. eauto.
Qed.

Definition enrolled_in (tr : list (nat * Event)) (mid : str) : Prop :=
  ∃ t e m, (t, e) ∈ tr ∧ enrolled e = Some m ∧ m_id m = mid.
Definition handed_in (tr : list (nat * Event)) (cid : str) : Prop :=
  ∃ t e c, (t, e) ∈ tr ∧ c ∈ handed_out e ∧ rc_id c = cid.

Lemma enrolled_snoc tr x mid : enrolled_in tr mid → enrolled_in (tr ++ [x]) mid.
Proof. intros (t & e & m & Hin & ?). exists t, e, m. split; [set_solver|done]. Qed.
Lemma handed_snoc tr x cid : handed_in tr cid → handed_in (tr ++ [x]) cid.
Proof. intros (t & e & m & Hin & ?). exists t, e, m. split; [set_solver|done]. Qed.

Record factors (w : World) : Prop := {
  fa_method m : m ∈ methods (server w) → enrolled_in (trace w) (m_id m) ∧
    m_last_timestep m = last (windows (trace w) (m_id m));
  fa_code c : c ∈ codes (server w) → handed_in (trace w) (rc_id c);
  fa_window t e mid ts : (t, e) ∈ trace w → wrote_window e = Some (mid, ts) → enrolled_in (trace w) mid;
  fa_mark t e cid : (t, e) ∈ trace w → marked e = Some cid → handed_in (trace w) cid ∧
    ∀ c, c ∈ codes (server w) → rc_id c = cid → is_some (rc_used_at c) = true;
  fa_read tr x tr' row : trace w = tr ++ x :: tr' → read_method x.2 = Some row →
    enrolled_in tr (m_id row) ∧ m_last_timestep row = last (windows tr (m_id row));
  fa_unused tr x tr' rows c : trace w = tr ++ x :: tr' → read_unused x.2 = Some rows → c ∈ rows →
    handed_in tr (rc_id c) ∧ ∀ y, y ∈ tr → marked y.2 ≠ Some (rc_id c) }.

Section distinct.
Context (w : World).
Hypothesis Hk : kept w.
Hypothesis Hd : draws_distinct (drawn w).

(** Calls of a thread that happen once. *)
Lemma tag_once tr t e tr' e0 k : trace w = tr ++ (t, e) :: tr' → (t, e0) ∈ tr → tag e = Some k → tag e0 ≠ Some k.
Proof.
  intros Htr Hin Hte. destruct (kept_call _ _ _ Hk _ _ _ _ Htr) as (th & _ & _ & _ & Hc).
  specialize (Hc _ Hte). unfold clear in Hc. rewrite Forall_forall in Hc. apply Hc. by apply elem_of_hist.
Qed.

Lemma call_draws tr t e tr' : trace w = tr ++ (t, e) :: tr' →
  ∃ r, drawn w !! t = Some r ∧ own_draws r e.
Proof.
  intros Htr. destruct (kept_call _ _ _ Hk _ _ _ _ Htr) as (th & Hth & _ & Ho & _).
  exists (rand th). split; [by rewrite list_lookup_fmap, Hth|done].
Qed.

Lemma call_draws_in t e : (t, e) ∈ trace w → ∃ r, drawn w !! t = Some r ∧ own_draws r e.
Proof. intros (tr & tr' & Htr)%list_elem_of_split. by eapply call_draws. Qed.

Lemma enrolled_draws e m r : enrolled e = Some m → own_draws r e → m_id m = uuid r 0 ∧ m_last_timestep m = None ∧ tag e = Some KMethod.
Proof. destruct e as [B o b]. destruct o; try done. cbn. destruct (is_ok b); [|done]. by intros [= <-] [? ?]. Qed.

Lemma handed_draws e c r : c ∈ handed_out e → own_draws r e → rc_used_at c = None ∧ (∃ n, rc_id c = uuid r n) ∧ tag e = Some KCodes.
Proof.
  destruct e as [B o b]. destruct o; try (intros Hc; by apply elem_of_nil in Hc). cbn. destruct (is_ok b).
  - intros Hc Ho. by destruct (Ho _ Hc).
  - intros Hc. by apply elem_of_nil in Hc.
Qed.

Lemma enrolled_once tr t e tr' m : trace w = tr ++ (t, e) :: tr' → enrolled e = Some m → ¬ enrolled_in tr (m_id m).
Proof.
  intros Htr He (t0 & e0 & m0 & Hin & He0 & Hid).
  destruct (call_draws _ _ _ _ Htr) as (r & Hr & Ho). destruct (call_draws_in t0 e0) as (r0 & Hr0 & Ho0); [rewrite Htr; set_solver|].
  destruct (enrolled_draws _ _ _ He Ho) as (Hi & _ & Ht). destruct (enrolled_draws _ _ _ He0 Ho0) as (Hi0 & _ & Ht0).
  assert (t0 = t) as -> by (eapply (dd_uuid _ Hd _ _ _ _ 0 0)%nat; [done..|congruence]).
  by eapply tag_once.
Qed.

Lemma handed_once tr t e tr' c : trace w = tr ++ (t, e) :: tr' → c ∈ handed_out e → ¬ handed_in tr (rc_id c).
Proof.
  intros Htr He (t0 & e0 & c0 & Hin & He0 & Hid).
  destruct (call_draws _ _ _ _ Htr) as (r & Hr & Ho). destruct (call_draws_in t0 e0) as (r0 & Hr0 & Ho0); [rewrite Htr; set_solver|].
  destruct (handed_draws _ _ _ He Ho) as (_ & (n & Hi) & Ht). destruct (handed_draws _ _ _ He0 Ho0) as (_ & (m & Hi0) & Ht0).
  assert (t0 = t) as -> by (eapply (dd_uuid _ Hd _ _ _ _ m n)%nat; [done..|congruence]).
  by eapply tag_once.
Qed.

Lemma wrote_evidence tr t e tr' mid ts : trace w = tr ++ (t, e) :: tr' → wrote_window e = Some (mid, ts) →
  ∃ uid row, (t, Ev (GetMfaMethod uid TOTP_KIND) (Ok (Some row))) ∈ tr ∧ m_id row = mid ∧ default (-1) (m_last_timestep row) < ts.
Proof.
  intros Htr Hw. destruct (kept_call _ _ _ Hk _ _ _ _ Htr) as (th & Hth & Ha & _).
  destruct e as [B o b]. destruct o; try done. cbn in Hw. destruct (is_ok b); simplify_eq.
  destruct Ha as (uid & row & _ & Hin & ?). apply elem_of_hist in Hin. eauto.
Qed.

Lemma marked_evidence tr t e tr' cid : trace w = tr ++ (t, e) :: tr' → marked e = Some cid →
  ∃ uid unused row, (t, Ev (ListUnusedCodes uid) (Ok unused)) ∈ tr ∧ row ∈ unused ∧ rc_id row = cid.
Proof.
  intros Htr Hw. destruct (kept_call _ _ _ Hk _ _ _ _ Htr) as (th & Hth & Ha & _).
  destruct e as [B o b]. destruct o; try done. cbn in Hw. destruct (is_ok b); simplify_eq.
  destruct Ha as (uid & unused & row & _ & Hin & ?). apply elem_of_hist in Hin. eauto.
Qed.
End distinct.

Lemma windows_snoc tr t e mid :
  windows (tr ++ [(t, e)]) mid =
    windows tr mid ++ match wrote_window e with Some (i, ts) => if i == mid then [ts] else [] | None => [] end.
Proof.
  rewrite windows_app. f_equal. unfold windows. simpl. destruct (wrote_window e) as [[i ts]|]; [|done]. by case_bool_decide.
Qed.

Lemma window_after_last tr t e m :
  m_last_timestep m = last (windows tr (m_id m)) → window_after e m = last (windows (tr ++ [(t, e)]) (m_id m)).
Proof.
  intros Hl. rewrite windows_snoc. unfold window_after. destruct (wrote_window e) as [[i ts]|]; [|by rewrite app_nil_r].
  case_bool_decide; [by rewrite last_snoc|by rewrite app_nil_r].
Qed.

Lemma enrolled_no_window e m mid : enrolled e = Some m → wrote_window e = Some mid → False.
Proof. destruct e as [B o b]. by destruct o. Qed.
Lemma handed_no_mark e c cid : c ∈ handed_out e → marked e = Some cid → False.
Proof. destruct e as [B o b]. destruct o; try done; intros Hc; by apply elem_of_nil in Hc. Qed.

Lemma factors_methods w t B (o : Op B) f b s th m' :
  exec o f (server w) = (b, s) → factors w → kept (mkWorld s th (trace w ++ [(t, Ev o b)])) →
  draws_distinct (drawn (mkWorld s th (trace w ++ [(t, Ev o b)]))) → m' ∈ methods s →
  enrolled_in (trace w ++ [(t, Ev o b)]) (m_id m') ∧
  m_last_timestep m' = last (windows (trace w ++ [(t, Ev o b)]) (m_id m')).
Proof.
  intros He Hf Hk Hd Hm. destruct (exec_methods _ _ _ _ _ _ He Hm) as [Hen|(m & Hin & Hid & Hlast)].
  - split; [exists t, (Ev o b), m'; set_solver|].
    destruct (call_draws _ Hk (trace w) t (Ev o b) []) as (r & Hr & Ho); [done|].
    destruct (enrolled_draws _ _ _ Hen Ho) as (_ & -> & _).
    rewrite windows_snoc. destruct (wrote_window (Ev o b)) eqn:Ew; [by destruct (enrolled_no_window _ _ _ Hen Ew)|].
    rewrite app_nil_r. destruct (windows (trace w) (m_id m')) as [|ts ws] eqn:Ews; [done|]. exfalso.
    destruct (elem_of_windows (trace w) (m_id m') ts) as (t1 & e1 & Hin1 & Hw1); [rewrite Ews; left|].
    by eapply (enrolled_once _ Hk Hd (trace w) t (Ev o b) []); [done|done|eapply fa_window].
  - destruct (fa_method _ Hf _ Hin) as [Hen Hl]. rewrite Hid in *. split; [by apply enrolled_snoc|].
    rewrite Hlast, <- Hid. apply window_after_last. by rewrite Hid.
Qed.

Lemma factors_marks w t B (o : Op B) f b s th t' e cid :
  exec o f (server w) = (b, s) → factors w → kept (mkWorld s th (trace w ++ [(t, Ev o b)])) →
  draws_distinct (drawn (mkWorld s th (trace w ++ [(t, Ev o b)]))) →
  (t', e) ∈ trace w ++ [(t, Ev o b)] → marked e = Some cid →
  handed_in (trace w ++ [(t, Ev o b)]) cid ∧ ∀ c, c ∈ codes s → rc_id c = cid → is_some (rc_used_at c) = true.
Proof.
  intros He Hf Hk Hd Hin Hmk. apply elem_of_app in Hin as [Hin|Hin%list_elem_of_singleton].
  - destruct (fa_mark _ Hf _ _ _ Hin Hmk) as [Hh Hused]. split; [by apply handed_snoc|]. intros c Hc Hid.
    destruct (exec_codes _ _ _ _ _ _ He Hc) as [Hnew|(c0 & Hc0 & Hid0 & Hu)].
    + exfalso. eapply (handed_once _ Hk Hd (trace w) t (Ev o b) []); [done|done|by rewrite Hid].
    + apply Hu. left. apply Hused; [done|congruence].
  - pose proof (f_equal snd Hin) as He'. simpl in He'. subst e. split.
    + destruct (marked_evidence _ Hk (trace w) t (Ev o b) [] cid) as (uid & unused & row & Hr & Hrow & Hid); [done..|].
      apply list_elem_of_split in Hr as (a & c & Htr).
      destruct (fa_unused _ Hf _ _ _ _ _ Htr eq_refl Hrow) as [(t1 & e1 & c1 & Hin1 & ? & ?) _].
      exists t1, e1, c1. rewrite Htr. split; [set_solver|]. by rewrite <- Hid.
    + intros c Hc Hid. destruct (exec_codes _ _ _ _ _ _ He Hc) as [Hnew|(c0 & Hc0 & Hid0 & Hu)].
      * by destruct (handed_no_mark _ _ _ Hnew Hmk).
      * apply Hu. right. by rewrite Hid.
Qed.

Lemma factors_moves w w' : moves w w' → kept w' → draws_distinct (drawn w') → factors w → factors w'.
Proof.
  intros Hm; by_move Hm; intros Hk Hd Hf; [done|by destruct Hf; split|]. split; simpl.
  - intros m Hm. by eapply factors_methods.
  - intros c Hc. destruct (exec_codes _ _ _ _ _ _ He Hc) as [Hnew|(c0 & Hc0 & Hid & _)].
    + exists t, (Ev o b), c. set_solver.
    + rewrite <- Hid. apply handed_snoc. by apply (fa_code _ Hf).
  - intros t' e mid ts Hin Hw. apply elem_of_app in Hin as [Hin|Hin%list_elem_of_singleton].
    + apply enrolled_snoc. by eapply fa_window.
    + pose proof (f_equal snd Hin) as He'. simpl in He'. subst e.
      destruct (wrote_evidence _ Hk (trace w) t (Ev o b) [] mid ts) as (uid & row & Hr & <- & _); [done..|].
      apply list_elem_of_split in Hr as (a & c & Htr).
      destruct (fa_read _ Hf _ _ _ _ Htr eq_refl) as [(t1 & e1 & c1 & Hin1 & ?) _].
      exists t1, e1, c1. rewrite Htr. split; [set_solver|done].
  - intros t' e cid Hin Hmk. by eapply factors_marks.
  - intros tr x tr' row Htr Hr. destruct (snoc_split _ _ _ _ _ Htr) as [(<- & <- & _)|[tr'' Htr']]; [|by eapply fa_read].
    apply (fa_method _ Hf). by eapply read_method_spec.
  - intros tr x tr' rows c Htr Hr Hc. destruct (snoc_split _ _ _ _ _ Htr) as [(<- & <- & _)|[tr'' Htr']]; [|by eapply fa_unused].
    destruct (read_unused_spec _ _ _ _ _ _ _ He Hr Hc) as [Hin Hu]. split; [by apply (fa_code _ Hf)|].
    intros [ty ey] Hy Hmk. destruct (fa_mark _ Hf _ _ _ Hy Hmk) as [_ Hused]. specialize (Hused _ Hin eq_refl). by rewrite Hu in Hused.
Qed.

Lemma world_factors l : draws_distinct (rands l) → factors (world l).
Proof.
  rewrite <- (world_drawn jwt_secret vault_key). intros Hd.
  assert (kept (world l) ∧ (draws_distinct (drawn (world l)) → factors (world l))) as [_ Hs]; [|by apply Hs].
  apply play_ind.
  - split; [apply (world_kept jwt_secret vault_key [])|]. intros _. split; simpl; try set_solver; by intros [|? ?].
  - intros v v' Hm [Hk Hs].
    assert (kept v') as Hk' by (eapply kept_moves; [intros; apply handle_paths|done..]).
    split; [done|]. intros Hd'. eapply factors_moves; [done..|]. apply Hs. by eapply moves_drawn.
Qed.

(** A use of a factor by [t] after one by another request that ran before [t]
    made its first call is not an overlap; any other order is. *)
Lemma not_overlapped tr factor a t0 e0 b t e' c e1 :
  ¬ overlapped tr factor → tr = a ++ (t0, e0) :: b ++ (t, e') :: c → t ≠ t0 →
  uses e0 = Some factor → uses e' = Some factor → (t, e1) ∉ a.
Proof. intros Hn -> Hne Hu Hu' Hin. apply Hn. by exists a, b, c, t, e1, t0, e0, e'. Qed.

Lemma wrote_uses e mid ts : wrote_window e = Some (mid, ts) → uses e = Some mid ∧ tag e = Some KFactor.
Proof. intros Hw. unfold uses. rewrite Hw. split; [done|]. destruct e as [B o b]. by destruct o. Qed.
Lemma marked_uses e cid : marked e = Some cid → uses e = Some cid ∧ tag e = Some KFactor.
Proof. intros Hm. destruct e as [B o b]. destruct o; try done. Qed.

Lemma windows_sorted (l : list Z) x :
  StronglySorted Z.lt l → (∀ z, last l = Some z → z < x) → StronglySorted Z.lt (l ++ [x]).
Proof.
  intros Hs. induction Hs as [|y l Hs IH Hall]; intros Hl; simpl; [by repeat constructor|].
  constructor.
  - apply IH. intros z Hz. apply Hl. destruct l; [done|]. by rewrite last_cons_cons.
  - apply Forall_app_2; [done|]. constructor; [|constructor].
    destruct l as [|z l]; [by apply Hl|]. destruct (last (z :: l)) as [v|] eqn:Ev; [|by apply last_None in Ev].
    assert (v < x) by (apply Hl; by rewrite last_cons_cons). rewrite Forall_forall in Hall.
    enough (y < v) by lia. apply Hall. rewrite last_lookup in Ev. by eapply list_elem_of_lookup_2.
Qed.

(** A request's own window is past everything written before it. *)
Lemma window_fresh l factor tr t e tr' ts :
  draws_distinct (rands l) → ¬ overlapped (trace (world l)) factor →
  trace (world l) = tr ++ (t, e) :: tr' → wrote_window e = Some (factor, ts) →
  default (-1) (last (windows tr factor)) < ts.
Proof.
  intros Hd Hno Htr Hw. pose proof (world_factors _ Hd) as Hf. pose proof (world_kept jwt_secret vault_key l) as Hk.
  destruct (wrote_evidence _ Hk _ _ _ _ _ _ Htr Hw) as (uid & row & Hr & Hid & Hlt).
  apply list_elem_of_split in Hr as (x & y & ->).
  assert (windows y factor = []) as Hy.
  { destruct (windows y factor) as [|v vs] eqn:Ey; [done|exfalso].
    destruct (elem_of_windows y factor v) as (t0 & e0 & Hin & Hw0); [rewrite Ey; left|].
    destruct (wrote_uses _ _ _ Hw) as [Hu Ht]. destruct (wrote_uses _ _ _ Hw0) as [Hu0 Ht0].
    destruct (decide (t = t0)) as [<-|Hne]; [by eapply (tag_once _ Hk _ _ _ _ e0 KFactor Htr); [set_solver|..]|].
    apply list_elem_of_split in Hin as (y1 & y2 & ->).
    eapply (not_overlapped _ _ (x ++ (t, Ev (GetMfaMethod uid TOTP_KIND) (Ok (Some row))) :: y1) t0 e0 y2 t e tr' _ Hno);
      [rewrite Htr; by simplify_list_eq|done..|apply elem_of_app; right; left]. }
  rewrite <- app_assoc in Htr. simpl in Htr. destruct (fa_read _ Hf _ _ _ _ Htr eq_refl) as [_ Hlast].
  rewrite (cons_middle _ x y), !windows_app, Hy. change (windows [_] factor) with (@nil Z).
  by rewrite !app_nil_r, <- Hid, <- Hlast.
Qed.

Lemma elem_of_marks tr cid : (2 ≤ length (marks tr cid))%nat →
  ∃ a t0 e0 b t e c, tr = a ++ (t0, e0) :: b ++ (t, e) :: c ∧ marked e0 = Some cid ∧ marked e = Some cid.
Proof.
  assert (∀ tr', (1 ≤ length (marks tr' cid))%nat → ∃ b t e c, tr' = b ++ (t, e) :: c ∧ marked e = Some cid) as Hone.
  { induction tr' as [|[t e] tr' IH]; simpl; [lia|]. unfold marks. simpl. case_bool_decide as Hm.
    - intros _. by exists [], t, e, tr'.
    - intros Hl. destruct (IH Hl) as (b & t' & e' & c & -> & ?). by exists ((t, e) :: b), t', e', c. }
  induction tr as [|[t e] tr IH]; simpl; [lia|]. unfold marks. simpl. case_bool_decide as Hm.
  - simpl. intros Hl. destruct (Hone tr) as (b & t' & e' & c & -> & ?); [unfold marks; lia|]. by exists [], t, e, b, t', e', c.
  - intros Hl. destruct (IH Hl) as (a & t0 & e0 & b & t' & e' & c & -> & ? & ?). by exists ((t, e) :: a), t0, e0, b, t', e', c.
Qed.

(** C21: in every schedule, unless two requests that use the same factor overlap
    (one was already running when the other used it), the windows accepted for
    an authenticator strictly increase, so no TOTP code is accepted twice, and a
    recovery code is accepted at most once. *)
Theorem second_factor_once l factor :
  draws_distinct (rands l) → ¬ overlapped (trace (world l)) factor →
  StronglySorted Z.lt (windows (trace (world l)) factor) ∧ (length (marks (trace (world l)) factor) ≤ 1)%nat.
Proof.
  intros Hd Hno. split.
  - assert (∀ tr tr', trace (world l) = tr ++ tr' → StronglySorted Z.lt (windows tr factor)) as Hs;
      [|apply (Hs _ []); by rewrite app_nil_r].
    induction tr as [|[t e] tr IH] using rev_ind; intros tr' Htr; [constructor|].
    rewrite <- app_assoc in Htr. rewrite windows_snoc.
    destruct (wrote_window e) as [[i ts]|] eqn:Ew; [|rewrite app_nil_r; by eapply IH].
    case_bool_decide as Hi; [subst i|rewrite app_nil_r; by eapply IH].
    apply windows_sorted; [by eapply IH|]. intros z Hz.
    pose proof (window_fresh _ _ _ _ _ _ _ Hd Hno Htr Ew) as Hlt. by rewrite Hz in Hlt.
  - destruct (decide (2 ≤ length (marks (trace (world l)) factor))%nat) as [Hl|]; [exfalso|lia].
    destruct (elem_of_marks _ _ Hl) as (a & t0 & e0 & b & t & e & c & Htr & Hm0 & Hm).
    pose proof (world_factors _ Hd) as Hf. pose proof (world_kept jwt_secret vault_key l) as Hk.
    destruct (marked_uses _ _ Hm) as [Hu Ht]. destruct (marked_uses _ _ Hm0) as [Hu0 Ht0].
    pose proof Htr as Htr'. rewrite app_comm_cons, app_assoc in Htr'.
    destruct (decide (t = t0)) as [<-|Hne]; [by eapply (tag_once _ Hk _ _ _ _ e0 KFactor Htr'); [set_solver|..]|].
    destruct (marked_evidence _ Hk _ _ _ _ _ Htr' Hm) as (uid & unused & row & Hr & Hrow & <-).
    apply elem_of_app in Hr as [Hr|Hr].
    + by eapply (not_overlapped _ _ _ _ _ _ _ _ _ _ Hno Htr Hne Hu0 Hu).
    + apply elem_of_cons in Hr as [Hr|Hr]; [by apply (f_equal fst) in Hr|].
      apply list_elem_of_split in Hr as (b1 & b2 & ->). rewrite <- app_assoc in Htr. simpl in Htr.
      rewrite app_comm_cons, app_assoc in Htr.
      destruct (fa_unused _ Hf _ _ _ _ _ Htr eq_refl Hrow) as [_ Hnm]. eapply (Hnm (t0, e0)); [set_solver|done].
Qed.
End runs.
End AuthFactors.
