(* ===== verification/AuthLogin.v ===== *)
(** * Signing in works

    A request run alone on a database that does not fail: a user with the right
    password, and the right second factor if one is enrolled, gets a session
    whose token [require_auth] takes. *)

From S2P Require Import Prelude Programs CharStr EnvVars Gates AuthDb Auth AuthRoutes AuthProps AuthSafety AuthRuns.

Module AuthLogin.
Export AuthRuns.

(** A program run alone, at one time. *)
Fixpoint run {A} (f : Fate) (m : Prog A) (s : Server) : A * Server :=
  match m with
  | Ret a => (a, s)
  | Vis o k => let '(b, s') := exec o f s in run f (k b) s'
  end.

Lemma run_seq {A C} f (g : A → Prog C) m s :
  run f (prog_bind g m) s = run f (g (run f m s).1) (run f m s).2.
Proof.
  revert s. induction m as [a|B o k IH]; intros s; [done|]. simpl. destruct (exec o f s) as [b s']. apply IH.
Qed.

Lemma run_call {B} f (o : Op B) s : run f (call o) s = exec o f s.
Proof. unfold call. simpl. by destruct (exec o f s). Qed.

Lemma run_h_bind {E A C} f (g : A → H E C) (m : H E A) s :
  run f (m ≫= g) s =
    match run f m s with (Ok a, s') => run f (g a) s' | (Err e, s') => (Err e, s') end.
Proof. unfold mbind, h_bind. rewrite run_seq. destruct (run f m s) as [[a|e] s']; done. Qed.

Lemma run_infallible {E A} f (m : Prog A) s :
  run f (infallible (E := E) m) s = let '(a, s') := run f m s in (Ok a, s').
Proof. unfold infallible. rewrite run_seq. by destruct (run f m s). Qed.

Lemma run_map_err {E F A} f (g : E → F) (m : H E A) s :
  run f (map_err g m) s =
    let '(r, s') := run f m s in (match r with Ok a => Ok a | Err e => Err (g e) end, s').
Proof. unfold map_err. rewrite run_seq. by destruct (run f m s). Qed.

(** The same program as a thread of a schedule in which nothing else runs. *)
Lemma run_play `{Crypto, AuthCrypto} jwt_secret vault_key f m q r w :
  ∃ n, let w' := fold_left (act jwt_secret vault_key) (replicate n (Run (length (threads w)) f))
                  (mkWorld (server w) (threads w ++ [mkThread q r m]) (trace w)) in
       threads w' !! length (threads w) = Some (mkThread q r (Ret (run f m (server w)).1)) ∧
       server w' = (run f m (server w)).2.
Proof.
  revert w. induction m as [a|B o k IH]; intros w.
  - exists 0%nat. simpl. split; [by rewrite lookup_app_r, Nat.sub_diag|done].
  - destruct (exec o f (server w)) as [b s] eqn:He.
    destruct (IH b (mkWorld s (threads w) (trace w ++ [(length (threads w), Ev o b)]))) as (n & Ht & Hs).
    exists (S n). simpl in *. rewrite lookup_app_r, Nat.sub_diag by done. simpl. rewrite He. simpl.
    rewrite insert_app_r_alt, Nat.sub_diag by done. done.
Qed.

Lemma find_app_none {A} (p : A → bool) l l' : existsb p l = false → List.find p (l ++ l') = List.find p l'.
Proof. induction l as [|x l IH]; [done|]. simpl. by destruct (p x). Qed.

Section login.
Context `{Crypto, AuthCrypto} (jwt_secret vault_key : bytes).

(** What the JWT crate documents: a token decodes to its claims until it expires. *)
Class JwtLaws := jwt_roundtrip secret c token now :
  jwt_encode secret c = Some token → now ≤ exp_ c → jwt_decode secret now token = Some c.

Context `{!JwtLaws}.

Lemma set_db_self s : set_db (db s) s = s.
Proof. by destruct s. Qed.

Lemma on_query {A} (g : Db → A) f s : fault f = false → on_db (query g) f s = (Ok (g (db s)), s).
Proof. intros Hf. unfold on_db, query. by rewrite Hf, set_db_self. Qed.

Lemma on_insert {A} tbl set owner clash (new : A) f s :
  fault f = false → existsb clash (tbl (db s)) = false → known_user owner (db s) = true →
  on_db (insert_row tbl set owner clash new) f s = (Ok new, set_db (set (tbl (db s) ++ [new]) (db s)) s).
Proof. intros Hf Hc Ho. unfold on_db, insert_row. by rewrite Hf, Hc, Ho. Qed.

(** Evaluates the next call of a program. *)
Ltac runs := repeat first
  [ rewrite run_h_bind | rewrite run_infallible | rewrite run_map_err | rewrite run_call
  | progress unfold db_500, db_mfa | progress cbn [exec run lift throw mret h_ret too_many ok_or fst snd] ].

Definition bearer_of (token : str) : option str := Some (lit "Bearer " ++ token).

Lemma bearer_extracted token : extract_bearer_token (bearer_of token) = Some token.
Proof. unfold extract_bearer_token, bearer_of. cbn [mbind option_bind]. by destruct token. Qed.

(** The session row and its token. *)
Definition session_row (r : Rand) (uid token : str) (f : Fate) (ua ip dev : option str) : AuthSession :=
  mkAuthSession (uuid r 0) uid (hash_token token) (unix f) (unix f + JWT_EXPIRY_SECS) None ua ip dev.
Definition session_claims (r : Rand) (uid role : str) (f : Fate) : Claims :=
  mkClaims uid role (uuid r 0) (unix f) (unix f + JWT_EXPIRY_SECS).

Lemma issue_runs f r s uid role ua ip dev token :
  fault f = false → jwt_encode jwt_secret (session_claims r uid role f) = Some token →
  known_user uid (db s) = true → existsb (λ x, s_id x == uuid r 0) (sessions s) = false →
  run f (issue_session_token jwt_secret r uid role ua ip dev) s =
    (Ok token, set_db (set_sessions (sessions s ++ [session_row r uid token f ua ip dev]) (db s)) s).
Proof.
  intros Hf Hj Hu Hs. unfold issue_session_token, now_unix. runs. unfold create_token.
  unfold session_claims in Hj. rewrite Hj. runs. unfold create_auth_session_via. rewrite on_insert by done. runs. done.
Qed.

Lemma require_auth_runs f s x token uid role r f0 :
  fault f = false → jwt_encode jwt_secret (session_claims r uid role f0) = Some token →
  unix f ≤ unix f0 + JWT_EXPIRY_SECS → List.find (λ y, s_id y == uuid r 0) (sessions s) = Some x →
  (run f (require_auth jwt_secret (bearer_of token)) s).1 = Ok (mkAuthUser uid role (uuid r 0)).
Proof.
  intros Hf Hj Ht Hx. unfold require_auth, now_unix, db_flat, ignore, validate_token. runs. rewrite bearer_extracted.
  runs. erewrite jwt_roundtrip by done. runs. cbn [sub c_role jti session_claims].
  rewrite run_seq, run_call. cbn [exec]. unfold get_auth_session. rewrite on_query by done. cbn [run fst snd result_ok mjoin option_join].
  rewrite Hx. cbn [is_some negb]. runs. rewrite run_seq, run_call. cbn [exec].
  destruct (on_db _ f s) as [y s']. by runs.
Qed.

Lemma found_known s u nm : List.find (λ v, username v == nm) (users (db s)) = Some u → known_user (u_id u) (db s) = true.
Proof.
  intros [Hu _]%find_spec. apply existsb_exists. exists u. rewrite <- list_elem_of_In. split; [done|by apply bool_decide_eq_true].
Qed.

Section users.
Context (s : Server) (c : Client) (q : LoginRequest) (u : User) (f : Fate).
Hypothesis Hf : fault f = false.
Hypothesis Hu : List.find (λ v, username v == l_username q) (users (db s)) = Some u.
Hypothesis Hpw : verify_password (l_password q) (password_hash u) = true.
Hypothesis Hlim : is_ok (LoginLimit.check (login_limiter s) (ip c) (instant f)).1 = true.

(** The server after the limiter was asked. *)
Definition asked : Server := set_limiter LoginLimiter (LoginLimit.check (login_limiter s) (ip c) (instant f)).2 s.

Lemma login_runs r :
  run f (login jwt_secret r c q) s =
  run f (mfa_enabled ← db_500 (UserHasMfa (u_id u));
         match password_grant (after_password_ok u mfa_enabled) with
         | Ok grant =>
           token ← map_err resp_500 (complete_login jwt_secret r grant (user_agent c) (Some (ip c)) (device c));
           _ ← infallible (call (LimiterReset LoginLimiter (ip c)));
           mret (mkResponse 200 (BAuth token (mkUserInfo (g_user_id grant) (g_username grant) (g_role grant) false)))
         | Err proof =>
           raw ← map_err mfa_http_err (issue_challenge r proof);
           methods ← map_err mfa_http_err (available_methods (pv_user_id proof));
           mret (mkResponse 202 (BMfaRequired raw methods))
         end) asked.
Proof.
  unfold login, throttle. runs. cbn [limiter]. unfold asked.
  destruct (LoginLimit.check (login_limiter s) (ip c) (instant f)) as [[d|] lim]; [|done]. runs.
  unfold get_user_by_username. rewrite on_query by done. runs. rewrite db_set_limiter, Hu. unfold check_password. rewrite Hpw.
  by runs.
Qed.
End users.

(** Alone on a database that works, a login with the right password of a
    user without MFA is answered with a token, and that token passes
    [require_auth] as that user at every later time until it expires, for as
    long as its session is in the table. *)
Theorem login_grants_session s c q u f r token :
  fault f = false → List.find (λ v, username v == l_username q) (users (db s)) = Some u →
  verify_password (l_password q) (password_hash u) = true →
  is_ok (LoginLimit.check (login_limiter s) (ip c) (instant f)).1 = true →
  List.filter (λ m, m_user_id m == u_id u) (mfa_methods (db s)) = [] →
  existsb (λ x, s_id x == uuid r 0) (sessions s) = false →
  jwt_encode jwt_secret (session_claims r (u_id u) (role u) f) = Some token →
  ∃ s', run f (login jwt_secret r c q) s =
      (Ok (mkResponse 200 (BAuth token (mkUserInfo (u_id u) (username u) (role u) false))), s') ∧
    ∀ f', fault f' = false → unix f' ≤ unix f + JWT_EXPIRY_SECS →
      (run f' (require_auth jwt_secret (bearer_of token)) s').1 = Ok (mkAuthUser (u_id u) (role u) (uuid r 0)).
Proof.
  intros Hf Hu Hpw Hlim Hm Hs Hj. rewrite (login_runs s c q u f) by done. runs.
  unfold user_has_mfa. rewrite on_query by done. runs. unfold asked. rewrite db_set_limiter, Hm.
  cbn [length Nat.ltb Nat.leb password_grant after_password_ok pv_mfa_enabled pv_user_id pv_role pv_username].
  unfold complete_login. runs. cbn [g_user_id g_role g_username].
  rewrite (issue_runs _ _ _ _ _ _ _ _ token) by (done || (rewrite db_set_limiter; (by eapply found_known || done))).
  runs. eexists. split; [done|]. intros f' Hf' Ht. eapply require_auth_runs; [done..|].
  rewrite !db_set_limiter. cbn [db set_db set_sessions auth_sessions].
  erewrite find_app_none by done. cbn. by rewrite bool_decide_eq_true_2.
Qed.

(** *** With a second factor *)

Definition challenge_row (r : Rand) (uid : str) (f : Fate) : MfaChallengeRow :=
  mkChallenge (uuid r 0) uid (hash_token (random_token r)) (unix f) (unix f + TTL_SECS) None 0.

Lemma login_challenges s c q u f r :
  fault f = false → List.find (λ v, username v == l_username q) (users (db s)) = Some u →
  verify_password (l_password q) (password_hash u) = true →
  is_ok (LoginLimit.check (login_limiter s) (ip c) (instant f)).1 = true →
  List.filter (λ m, m_user_id m == u_id u) (mfa_methods (db s)) ≠ [] →
  existsb (λ x, (ch_id x == uuid r 0) || (ch_token_hash x == hash_token (random_token r))) (challenges s) = false →
  ∃ methods,
    run f (login jwt_secret r c q) s =
      (Ok (mkResponse 202 (BMfaRequired (random_token r) methods)),
       set_db (set_challenges (challenges s ++ [challenge_row r (u_id u) f]) (db s)) (asked s c f)).
Proof.
  intros Hf Hu Hpw Hlim Hm Hs. rewrite (login_runs s c q u f) by done. runs.
  unfold user_has_mfa. rewrite on_query by done. runs. unfold asked. rewrite db_set_limiter.
  destruct (List.filter (λ m, m_user_id m == u_id u) (mfa_methods (db s))); [done|].
  cbn [length Nat.ltb Nat.leb password_grant after_password_ok pv_mfa_enabled pv_user_id pv_role pv_username].
  unfold issue_challenge, available_methods, now_unix, after_password_ok. cbn [pv_mfa_enabled pv_user_id negb]. runs.
  unfold insert_mfa_challenge. rewrite on_insert;
    [|done|by rewrite db_set_limiter|rewrite db_set_limiter; by eapply found_known].
  runs. unfold get_mfa_method. rewrite on_query by done. runs.
  unfold list_unused_recovery_codes. rewrite on_query by done. runs.
  eexists. by rewrite db_set_limiter.
Qed.

(** A code that is right for a live challenge. *)
Record code_ready (d : Db) (b : MfaVerifyBody) (row : MfaChallengeRow) (m : MfaMethodRow) (u : User)
    (ct nonce secret : str) (ts : Z) (f : Fate) : Prop := {
  cr_fault : fault f = false;
  cr_method : v_method b = TOTP_KIND;
  cr_token : trim (v_challenge b) ≠ [];
  cr_row : List.find (λ x, ch_token_hash x == hash_token (trim (v_challenge b))) (mfa_challenges d) = Some row;
  cr_open : ch_consumed_at row = None;
  cr_live : unix f < ch_expires_at row ∧ ch_failures row < MAX_FAILURES;
  cr_enrolled : List.find (λ x, (m_user_id x == ch_user_id row) && (m_kind x == TOTP_KIND)) (mfa_methods d) = Some m;
  cr_secret : m_secret_ct m = Some ct ∧ m_secret_nonce m = Some nonce ∧ vault_decrypt vault_key nonce ct = Ok secret;
  cr_code : totp_verify secret (v_code b) (m_last_timestep m) (unix f) = Ok ts;
  cr_user : List.find (λ v, u_id v == ch_user_id row) (users d) = Some u }.

(** The tables after the window was written and the challenge consumed. *)
Definition verified_db (d : Db) (row : MfaChallengeRow) (m : MfaMethodRow) (ts : Z) (f : Fate) : Db :=
  (consume_mfa_challenge (ch_id row) (unix f) (set_mfa_last_timestep (m_id m) ts d).2).2.

Lemma row_opened (t : list MfaChallengeRow) p row :
  List.find p t = Some row → ch_consumed_at row = None → existsb (open_challenge (ch_id row)) t = true.
Proof.
  intros [Hin _]%find_spec Hopen. apply existsb_exists. exists row. rewrite <- list_elem_of_In.
  split; [done|]. unfold open_challenge. by rewrite Hopen, !bool_decide_eq_true_2.
Qed.

Lemma verify_challenge_runs s b row m u ct nonce secret ts f :
  code_ready (db s) b row m u ct nonce secret ts f →
  run f (verify_challenge vault_key (v_challenge b) (v_method b) (v_code b)) s =
    (Ok (mkMfaVerified (u_id u) (role u) (username u)), set_db (verified_db (db s) row m ts f) s).
Proof.
  intros [Hf Hmethod Htoken Hrow Hopen [Hexp Hfail] Hm (Hct & Hn & Hdec) Hcode Hu].
  unfold verify_challenge, load_live, now_unix. rewrite bool_decide_eq_false_2 by done. runs.
  unfold get_mfa_challenge_by_token_hash. rewrite on_query by done. runs. rewrite Hrow. runs. rewrite Hopen. cbn [is_some].
  rewrite (proj2 (Z.leb_gt _ _) Hexp), (proj2 (Z.leb_gt _ _) Hfail). cbn [orb]. runs.
  unfold outcome, verify_code_for_user. rewrite Hmethod. runs.
  change (registry_get vault_key TOTP_KIND) with (Some (mkMethod TOTP_KIND (totp_method_verify vault_key))). runs.
  cbn [verify]. unfold totp_method_verify, now_unix. runs. unfold get_mfa_method. rewrite on_query by done. runs. rewrite Hm. runs.
  rewrite Hct, Hn. runs. rewrite Hdec. runs. rewrite Hcode. runs.
  unfold on_db at 1. rewrite Hf. cbn [set_mfa_last_timestep]. runs.
  unfold consume, now_unix. runs. unfold on_db at 1. rewrite Hf. unfold consume_mfa_challenge.
  cbn [db set_db set_methods mfa_challenges]. erewrite row_opened by done. runs. cbn [negb]. runs.
  unfold AuthDb.get_user. rewrite on_query by done. runs.
  cbn [db set_db users set_challenges set_methods]. rewrite Hu. runs. done.
Qed.

Definition limiters_pass (s : Server) (c : Client) (uid : str) (f : Fate) : Prop :=
  is_ok (LoginLimit.check (login_limiter s) (ip c) (instant f)).1 = true ∧
  is_ok (LoginLimit.check (mfa_code_limiter s) uid (instant f)).1 = true.

Lemma mfa_verify_runs s c b row m u ct nonce secret ts f r token :
  code_ready (db s) b row m u ct nonce secret ts f → limiters_pass s c (ch_user_id row) f →
  existsb (λ x, s_id x == uuid r 0) (sessions s) = false →
  jwt_encode jwt_secret (session_claims r (u_id u) (role u) f) = Some token →
  ∃ info s', run f (mfa_verify jwt_secret vault_key r c b) s = (Ok (mkResponse 200 (BAuth token info)), s') ∧
    sessions s' = sessions s ++ [session_row r (u_id u) token f (user_agent c) (Some (ip c)) (device c)].
Proof.
  intros Hr [Hl1 Hl2] Hs Hj. pose proof Hr as [Hf Hmethod Htoken Hrow Hopen _ Hm _ _ Hu].
  unfold mfa_verify, throttle. runs. cbn [limiter].
  destruct (LoginLimit.check (login_limiter s) (ip c) (instant f)) as [[d|] lim]; [|done]. runs.
  unfold db_flat. runs. rewrite run_seq, run_call. cbn [exec]. unfold get_mfa_challenge_by_token_hash.
  rewrite on_query by done. cbn [run fst snd result_ok mjoin option_join]. rewrite db_set_limiter, Hrow.
  cbn [fmap option_fmap option_map]. runs. cbn [limiter set_limiter mfa_code_limiter].
  destruct (LoginLimit.check (mfa_code_limiter s) (ch_user_id row) (instant f)) as [[d'|] lim']; [|done]. runs.
  unfold outcome. runs. erewrite verify_challenge_runs by exact Hr. runs. unfold complete_login. runs.
  erewrite issue_runs; [|done|exact Hj|by apply find_spec in Hu as [Hin _]; apply existsb_exists; exists u; rewrite <- list_elem_of_In; rewrite bool_decide_eq_true|done].
  runs. rewrite run_seq, run_call. cbn [exec]. unfold AuthDb.get_user. rewrite on_query by done. runs.
  cbn [result_ok mjoin option_join]. match goal with |- context [run f (match ?x with Some _ => _ | None => _ end)] => destruct x as [v|] end;
    runs; [|by eexists _, _].
  unfold user_info. runs. unfold user_has_mfa. rewrite on_query by done. runs. by eexists _, _.
Qed.

(** C22: alone on a database that works, a user with an authenticator signs in
    with password and code, provided the rate limiters let both requests through
    and the ids and tokens that are drawn are new: the login is answered with a
    challenge, the right code for a window not used yet, within five minutes,
    with a token, and that token passes [require_auth] as that user until it
    expires. *)
Theorem mfa_login_grants_session s c1 c2 q u m ct nonce secret code ts f1 f2 r1 r2 token :
  fault f1 = false → fault f2 = false →
  List.find (λ v, username v == l_username q) (users (db s)) = Some u →
  List.find (λ v, u_id v == u_id u) (users (db s)) = Some u →
  verify_password (l_password q) (password_hash u) = true →
  List.find (λ x, (m_user_id x == u_id u) && (m_kind x == TOTP_KIND)) (mfa_methods (db s)) = Some m →
  m_secret_ct m = Some ct → m_secret_nonce m = Some nonce → vault_decrypt vault_key nonce ct = Ok secret →
  totp_verify secret code (m_last_timestep m) (unix f2) = Ok ts → unix f2 < unix f1 + TTL_SECS →
  is_ok (LoginLimit.check (login_limiter s) (ip c1) (instant f1)).1 = true →
  limiters_pass (asked s c1 f1) c2 (u_id u) f2 →
  trim (random_token r1) = random_token r1 → random_token r1 ≠ [] →
  existsb (λ x, (ch_id x == uuid r1 0) || (ch_token_hash x == hash_token (random_token r1))) (challenges s) = false →
  existsb (λ x, s_id x == uuid r2 0) (sessions s) = false →
  jwt_encode jwt_secret (session_claims r2 (u_id u) (role u) f2) = Some token →
  ∃ methods info s1 s2,
    run f1 (login jwt_secret r1 c1 q) s = (Ok (mkResponse 202 (BMfaRequired (random_token r1) methods)), s1) ∧
    run f2 (mfa_verify jwt_secret vault_key r2 c2 (mkMfaVerify (random_token r1) TOTP_KIND code)) s1 =
      (Ok (mkResponse 200 (BAuth token info)), s2) ∧
    ∀ f, fault f = false → unix f ≤ unix f2 + JWT_EXPIRY_SECS →
      (run f (require_auth jwt_secret (bearer_of token)) s2).1 = Ok (mkAuthUser (u_id u) (role u) (uuid r2 0)).
Proof.
  intros Hf1 Hf2 Hun Hui Hpw Hm Hct Hn Hdec Hcode Httl Hl1 Hl2 Htrim Hne Hfresh Hs Hj.
  destruct (login_challenges s c1 q u f1 r1) as (methods & Hlogin); [done..| |done|].
  { apply find_spec in Hm as [Hin Hp]. apply andb_true_iff in Hp as [Hp _]. intros Hnil.
    assert (m ∈ List.filter (λ m, m_user_id m == u_id u) (mfa_methods (db s))) as Hin'
      by (rewrite list_elem_of_In, filter_In, <- list_elem_of_In; done).
    by rewrite Hnil, elem_of_nil in Hin'. }
  set (s1 := set_db _ (asked s c1 f1)) in Hlogin.
  assert (code_ready (db s1) (mkMfaVerify (random_token r1) TOTP_KIND code) (challenge_row r1 (u_id u) f1) m u
            ct nonce secret ts f2) as Hready.
  { split; try done; simpl; rewrite Htrim; [done|].
    rewrite find_app_none; [simpl; by rewrite bool_decide_eq_true_2|].
    apply not_true_iff_false. intros Hx. apply existsb_exists in Hx as (x & Hin & Hp).
    apply not_true_iff_false in Hfresh. apply Hfresh, existsb_exists. exists x. split; [done|]. by rewrite Hp, orb_true_r. }
  destruct (mfa_verify_runs s1 c2 _ _ _ _ _ _ _ _ _ r2 token Hready Hl2 Hs Hj) as (info & s2 & Hverify & Hses).
  exists methods, info, s1, s2. split_and!; [done..|]. intros f Hf Ht. eapply require_auth_runs; [done..|].
  rewrite Hses, find_app_none by done. simpl. by rewrite bool_decide_eq_true_2.
Qed.
End login.
End AuthLogin.
