(* ===== verification/AuthDemo.v ===== *)
(** * Authentication on concrete requests

    An instance of the crates that satisfies what is assumed of them, a server
    taken from its first start through enrolment and two-factor login, the
    witnesses of the theorems, and schedules on which the code does not do what
    it says. *)

From stdpp Require Import sorting.
From S2P Require Import Prelude Programs CharStr EnvVars Gates AuthDb Auth AuthRoutes AuthProps AuthSafety AuthRuns AuthFactors AuthLogin.

Module AuthDemo.
Export AuthFactors AuthLogin.

(** ** Toy crates *)

Definition claims_tuple (c : Claims) : str * str * str * Z * Z := (sub c, c_role c, jti c, iat c, exp_ c).
Definition tuple_claims (x : str * str * str * Z * Z) : Claims :=
  let '(a, b, c, d, e) := x in mkClaims a b c d e.

(** The code of a window is its number. *)
Definition digits6 (n : Z) : str := (λ i, 48 + (n / 10 ^ i) mod 10) <$> [5; 4; 3; 2; 1; 0].

#[export] Instance toy_crypto : Crypto := PlainCrypto.crypto.
#[export] Instance toy_auth : AuthCrypto := {|
  jwt_encode secret c := Some [Zpos (countable.encode (secret, claims_tuple c))];
  jwt_decode secret now token :=
    match token with
    | [Zpos p] =>
      match countable.decode p with
      | Some (s, c) => if bool_decide (s = secret) && (now <=? exp_ (tuple_claims c) + 60) then Some (tuple_claims c) else None
      | None => None
      end
    | _ => None
    end;
  sha256_hex s := s;
  secret_encode b := byte_to_Z <$> b;
  secret_decode s := Some (byte_of_Z <$> s);
  totp_new _ _ := true;
  totp_check _ digits at_ := digits == digits6 (at_ / 30);
  totp_url _ account := account;
  qr_code _ := None |}.

Definition demo_secret : bytes := [byte_of_Z 1].
Definition demo_key : bytes := [byte_of_Z 2].

(** Draws number [n]. *)
Definition demo_rand (n : Z) : Rand := {|
  uuid i := [n; Z.of_nat i];
  token_bytes := [byte_of_Z (65 + n)];
  totp_raw := as_bytes "SECRET";
  vault_nonce _ := replicate 12 (byte_of_Z n);
  hash_salt _ := replicate 16 (byte_of_Z n);
  code_index c i := (c + i)%nat;
  password_index i := i;
  var_draw _ := (replicate 16 (byte_of_Z n), replicate 12 (byte_of_Z n)) |}.

Definition at_time (u : Z) : Fate := mkFate false u (lit "now") (u * 10 ^ 9).

Abbreviation world l := (play demo_secret demo_key World_new l).

(** Request [n], alone, to its end. *)
Definition serve (n : nat) (q : Request) (u : Z) : list Action :=
  Spawn q (demo_rand (Z.of_nat n)) :: replicate 30 (Run n (at_time u)).

Definition reply (w : World) (t : nat) : option Response :=
  match threads w !! t with Some (mkThread _ _ (Ret r)) => Some r | _ => None end.
Definition token_of (w : World) (t : nat) : str :=
  match reply w t with
  | Some (mkResponse _ (BAuth token _)) => token
  | Some (mkResponse _ (BMfaRequired raw _)) => raw
  | _ => []
  end.
Definition status_of (w : World) (t : nat) : option Z := status <$> reply w t.

Definition pw : str := lit "correct horse battery".
Definition phone : Client := mkClient (lit "10.0.0.1") (Some (lit "phone")) None.
Definition admin_login : Request := Login phone (mkLogin (lit "admin") pw).
Definition code_step (raw : str) (method code : str) : Request := MfaVerify phone (mkMfaVerify raw method code).

(** First start, login, enrolment, and a second login up to its challenge. *)
Definition demo1 : list Action := serve 0 (Startup None (Some pw) false) 3000 ++ serve 1 admin_login 3000.
Definition demo_token : str := Eval vm_compute in token_of (world demo1) 1.
Definition demo2 : list Action :=
  demo1 ++ serve 2 (Authed (bearer_of demo_token) (TotpBegin pw)) 3000
        ++ serve 3 (Authed (bearer_of demo_token) (TotpConfirm pw (digits6 100))) 3000
        ++ serve 4 admin_login 3000.
Definition demo_challenge : str := Eval vm_compute in token_of (world demo2) 4.
(** The code step twice with the same challenge, then a logout. *)
Definition demo3 : list Action :=
  demo2 ++ serve 5 (code_step demo_challenge TOTP_KIND (digits6 100)) 3000
        ++ serve 6 (code_step demo_challenge TOTP_KIND (digits6 101)) 3000.
Definition demo_token5 : str := Eval vm_compute in token_of (world demo3) 5.
Definition demo4 : list Action := serve 7 (Authed (bearer_of demo_token5) Logout) 3000.
Definition demo5 : list Action := serve 8 (Authed (bearer_of demo_token5) Me) 3000.

Example demo_replies :
  status_of (world (demo3 ++ demo4 ++ demo5)) <$> seq 0 9 =
    Some <$> [0; 200; 200; 200; 202; 200; 401; 204; 401].
Proof. vm_compute. reflexivity. Qed.

(** ** Facts about the demo *)

Lemma demo_distinct k : (k ≤ 100)%nat → draws_distinct ((λ n, demo_rand (Z.of_nat n)) <$> seq 0 k).
Proof.
  intros Hk. split.
  - intros i j r r' n m. rewrite !list_lookup_fmap.
    intros (x & [-> _]%lookup_seq & ->)%fmap_Some (y & [-> _]%lookup_seq & ->)%fmap_Some [= Hx _]. lia.
  - intros i j r r'. rewrite !list_lookup_fmap.
    intros (x & [-> ?]%lookup_seq & ->)%fmap_Some (y & [-> ?]%lookup_seq & ->)%fmap_Some [= Hb].
    change (65 + Z.of_nat (0 + i)) with (65 + Z.of_nat i) in Hb. change (65 + Z.of_nat (0 + j)) with (65 + Z.of_nat j) in Hb.
    rewrite !byte_to_of, !Z.mod_small in Hb by lia. lia.
Qed.

Lemma reply_spec w t r : reply w t = Some r → ∃ th, threads w !! t = Some th ∧ prog th = Ret r.
Proof. unfold reply. destruct (threads w !! t) as [[q rd [a|B o k]]|]; intros [= <-]. by eexists. Qed.

Lemma status_spec w t z : status_of w t = Some z → ∃ r, reply w t = Some r ∧ status r = z.
Proof. unfold status_of. intros (r & Hr & ->)%fmap_Some. by exists r. Qed.

Definition request_of (w : World) (t : nat) : option Request := request <$> threads w !! t.

Lemma thread_at w t q r :
  request_of w t = Some q → reply w t = Some r → ∃ th, threads w !! t = Some th ∧ request th = q ∧ prog th = Ret r.
Proof.
  intros Hq (th & Ht & Hp)%reply_spec. exists th. unfold request_of in Hq. rewrite Ht in Hq. by injection Hq.
Qed.


(** Enrolment does not use up the window: the code that confirmed the
    authenticator signs the user in. *)
Example enrolment_keeps_window :
  (request_of (world demo3) 3, status_of (world demo3) 3) =
    (Some (Authed (bearer_of demo_token) (TotpConfirm pw (digits6 100))), Some 200) ∧
  (request_of (world demo3) 5, status_of (world demo3) 5) =
    (Some (code_step demo_challenge TOTP_KIND (digits6 100)), Some 200).
Proof. vm_compute. split; reflexivity. Qed.

#[export] Instance toy_jwt : JwtLaws.
Proof.
  intros secret c token t [= <-] Ht. cbn [jwt_decode toy_auth]. rewrite countable.decode_encode, bool_decide_eq_true_2 by done.
  replace (tuple_claims (claims_tuple c)) with c by (by destruct c). by rewrite (proj2 (Z.leb_le _ _)) by lia.
Qed.

(** ** Witnesses *)

Lemma existsb_split {A} (p : A → bool) l : existsb p l = true → ∃ l1 x l2, l = l1 ++ x :: l2 ∧ p x = true.
Proof.
  intros (x & Hin & Hp)%existsb_exists. apply list_elem_of_In, list_elem_of_split in Hin as (l1 & l2 & ->). by exists l1, x, l2.
Qed.

#[export] Instance kind_eq_dec : EqDecision Kind.
Proof. solve_decision. Defined.

Lemma serve_rands n q u l : rands (serve n q u ++ l) = demo_rand (Z.of_nat n) :: rands l.
Proof. done. Qed.

Lemma demo3_distinct : draws_distinct (rands demo3).
Proof.
  unfold demo3, demo2, demo1. rewrite <- !app_assoc, <- (app_nil_r (serve 6 _ _)), !serve_rands. apply (demo_distinct 7). lia.
Qed.

Lemma demo_thread5 :
  request_of (world demo3) 5 = Some (code_step demo_challenge TOTP_KIND (digits6 100)) ∧ status_of (world demo3) 5 = Some 200.
Proof. split; vm_compute; reflexivity. Qed.
Lemma demo_thread6 :
  request_of (world demo3) 6 = Some (code_step demo_challenge TOTP_KIND (digits6 101)) ∧ is_Some (reply (world demo3) 6).
Proof. split; vm_compute; [reflexivity|by eexists]. Qed.

Lemma challenge_spent_once_witness :
  ∃ r5 r6, reply (world demo3) 5 = Some r5 ∧ status r5 = 200 ∧ reply (world demo3) 6 = Some r6 ∧ status r6 ≠ 200.
Proof.
  destruct demo_thread5 as [Hr5 (r5 & E5 & Hs)%status_spec], demo_thread6 as [Hr6 [r6 E6]].
  destruct (thread_at _ _ _ _ Hr5 E5) as (th5 & Ht5 & Hq5 & Hp5).
  destruct (thread_at _ _ _ _ Hr6 E6) as (th6 & Ht6 & Hq6 & Hp6).
  exists r5, r6. split; [exact E5|]. split; [exact Hs|]. split; [exact E6|].
  apply (challenge_spent_once demo_secret demo_key demo3 5 6 th5 th6 _ _ _ _ r5 r6
    demo3_distinct Ht5 Ht6 ltac:(lia) Hq5 Hq6 eq_refl Hp5 Hp6 Hs).
Defined.

Lemma call_of (p : Event → bool) n (tr : list (nat * Event)) :
  existsb (λ x, (x.1 =? n)%nat && p x.2) tr = true → ∃ a e b, tr = a ++ (n, e) :: b ∧ p e = true.
Proof.
  intros (a & [t e] & b & Htr & Hp)%existsb_split. cbn [fst snd] in Hp. apply andb_true_iff in Hp as [->%Nat.eqb_eq Hp].
  by exists a, e, b.
Qed.

Lemma demo_enrols : ∃ tr e tr', trace (world demo3) = tr ++ (3%nat, e) :: tr' ∧ (tag e == Some KMethod) = true.
Proof. apply call_of. vm_compute. reflexivity. Qed.

Lemma account_changes_authorised_witness :
  ∃ tr e tr', trace (world demo3) = tr ++ (3%nat, e) :: tr' ∧ tag e = Some KMethod ∧
    ∃ th, threads (world demo3) !! 3%nat = Some th ∧ authorised demo_secret demo_key (request th) (hist tr 3) e.
Proof.
  destruct demo_enrols as (tr & e & tr' & Htr & He).
  exists tr, e, tr'. split; [exact Htr|]. split; [exact (bool_decide_eq_true_1 _ He)|].
  exact (account_changes_authorised demo_secret demo_key demo3 tr 3 e tr' Htr).
Defined.




(** *** Revocation *)

Lemma has_session_dec w sid : existsb (λ x, s_id x == sid) (sessions (server w)) = true ↔ has_session w sid.
Proof.
  rewrite existsb_exists. split; intros (x & Hin & Hid); exists x.
  - apply list_elem_of_In in Hin. by apply bool_decide_eq_true in Hid.
  - by rewrite <- list_elem_of_In, bool_decide_eq_true.
Qed.

Lemma demo_before : existsb (λ x, s_id x == [5; 0]) (sessions (server (world demo3))) = true.
Proof. vm_compute. reflexivity. Qed.
Lemma demo_after : existsb (λ x, s_id x == [5; 0]) (sessions (server (world (demo3 ++ demo4)))) = false.
Proof. vm_compute. reflexivity. Qed.
Lemma demo5_distinct : draws_distinct (rands (demo3 ++ demo4 ++ demo5)).
Proof.
  unfold demo5, demo4, demo3, demo2, demo1. rewrite <- !app_assoc, <- (app_nil_r (serve 8 _ _)), !serve_rands.
  apply (demo_distinct 9). lia.
Qed.
Lemma demo5_thread8 :
  request_of (world (demo3 ++ demo4 ++ demo5)) 8 = Some (Authed (bearer_of demo_token5) Me) ∧
  is_Some (reply (world (demo3 ++ demo4 ++ demo5)) 8).
Proof. split; vm_compute; [reflexivity|by eexists]. Qed.
Lemma demo4_threads : length (threads (world (demo3 ++ demo4))) = 8%nat.
Proof. vm_compute. reflexivity. Qed.

Lemma demo_names : names_session demo_secret (bearer_of demo_token5) [5; 0].
Proof.
  intros token t c Ht Hj. rewrite bearer_extracted in Ht. injection Ht as <-.
  assert (is_some (jwt_decode demo_secret t demo_token5) = true → jti <$> jwt_decode demo_secret t demo_token5 = Some [5; 0]) as Hx.
  { unfold demo_token5. cbn [jwt_decode toy_auth].
    match goal with |- context [countable.decode ?p] => set (d := countable.decode p) end.
    vm_compute in d. subst d. cbn. by destruct (t <=? _). }
  rewrite Hj in Hx. specialize (Hx eq_refl). by injection Hx.
Qed.

Lemma revoked_stays_revoked_witness :
  ¬ has_session (world (demo3 ++ demo4 ++ demo5)) [5; 0] ∧ reply (world (demo3 ++ demo4 ++ demo5)) 8 = Some unauthorized.
Proof.
  destruct (revoked_stays_revoked demo_secret demo_key demo3 demo4 demo5 [5; 0] demo5_distinct) as [Hgone Hall].
  - apply has_session_dec. exact demo_before.
  - rewrite <- has_session_dec, demo_after. discriminate.
  - split; [exact Hgone|]. destruct demo5_thread8 as [Hq [r Hr]]. rewrite Hr.
    destruct (thread_at _ _ _ _ Hq Hr) as (th & Hth & Hreq & Hp).
    apply f_equal. refine (Hall 8%nat th _ _ r Hth _ Hreq demo_names Hp). rewrite demo4_threads. lia.
Defined.

(** *** Second factors *)

(** Requests served one after the other never overlap. *)
Definition serial (tr : list (nat * Event)) : bool :=
  forallb (λ '(x, y), (x <=? y)%nat) (zip (tr.*1) (tail (tr.*1))).

Lemma serial_sorted l : forallb (λ '(x, y), (x <=? y)%nat) (zip l (tail l)) = true → Sorted le l.
Proof.
  induction l as [|x l IH]; intros Hs; constructor; destruct l as [|y l]; try (by constructor);
    cbn in Hs; apply andb_true_iff in Hs as [Hx Hs]; [by apply IH|]. constructor. by apply Nat.leb_le.
Qed.

Lemma serial_not_overlapped tr factor : serial tr = true → ¬ overlapped tr factor.
Proof.
  intros Hs (a & b & c & t & e & t0 & e0 & e' & -> & Hin & Hne & _).
  apply serial_sorted, Sorted_StronglySorted in Hs; [|intros ???; lia]. rewrite fmap_app in Hs.
  assert (t ∈ a.*1) as Ha by (apply list_elem_of_fmap; by exists (t, e)).
  pose proof (StronglySorted_app_1_elem_of _ _ _ t t0 Hs Ha (list_elem_of_here _ _)) as Hle.
  apply StronglySorted_app_1_r in Hs. rewrite fmap_cons, fmap_app in Hs. apply StronglySorted_inv in Hs as [_ Hs].
  apply Forall_app in Hs as [_ Hs]. apply Forall_cons in Hs as [Hs _]. simpl in Hs. lia.
Qed.

Definition demo6 : list Action := demo3 ++ serve 7 admin_login 3030.
Definition demo_challenge7 : str := Eval vm_compute in token_of (world demo6) 7.
Definition demo7 : list Action := demo6 ++ serve 8 (code_step demo_challenge7 TOTP_KIND (digits6 101)) 3030.

Lemma demo7_distinct : draws_distinct (rands demo7).
Proof.
  unfold demo7, demo6, demo3, demo2, demo1. rewrite <- !app_assoc, <- (app_nil_r (serve 8 _ _)), !serve_rands.
  apply (demo_distinct 9). lia.
Qed.
Lemma demo7_serial : serial (trace (world demo7)) = true.
Proof. vm_compute. reflexivity. Qed.
Lemma demo7_windows : windows (trace (world demo7)) [3; 0] = [100; 101].
Proof. vm_compute. reflexivity. Qed.

Lemma second_factor_once_witness : windows (trace (world demo7)) [3; 0] = [100; 101] ∧ StronglySorted Z.lt [100; 101].
Proof.
  split; [exact demo7_windows|]. rewrite <- demo7_windows.
  exact (proj1 (second_factor_once demo_secret demo_key demo7 [3; 0] demo7_distinct (serial_not_overlapped _ _ demo7_serial))).
Defined.

(** *** Logging in *)

Definition started : Server := server (world (serve 0 (Startup None (Some pw) false) 3000)).
Definition enrolled_server : Server :=
  server (world (demo1 ++ serve 2 (Authed (bearer_of demo_token) (TotpBegin pw)) 3000
                       ++ serve 3 (Authed (bearer_of demo_token) (TotpConfirm pw (digits6 100))) 3000)).

Definition demo_admin : User :=
  Eval vm_compute in default (mkUser [] [] None [] [] [] []) (List.find (λ v, username v == lit "admin") (users (db started))).
Definition demo_method : MfaMethodRow :=
  Eval vm_compute in default (mkMfaMethod [] [] [] None None None None []) (head (mfa_methods (db enrolled_server))).
Definition session_token (n : Z) (f : Fate) : str :=
  default [] (jwt_encode demo_secret (session_claims (demo_rand n) (u_id demo_admin) (role demo_admin) f)).

Lemma session_encoded n f :
  jwt_encode demo_secret (session_claims (demo_rand n) (u_id demo_admin) (role demo_admin) f) = Some (session_token n f).
Proof. reflexivity. Qed.

Lemma started_ready :
  List.find (λ v, username v == lit "admin") (users (db started)) = Some demo_admin ∧
  verify_password pw (password_hash demo_admin) = true ∧
  is_ok (LoginLimit.check (login_limiter started) (ip phone) (instant (at_time 3000))).1 = true ∧
  List.filter (λ m, m_user_id m == u_id demo_admin) (mfa_methods (db started)) = [] ∧
  existsb (λ x, s_id x == uuid (demo_rand 9) 0) (sessions started) = false.
Proof. split; [|split; [|split; [|split]]]; vm_compute; reflexivity. Qed.

Lemma login_grants_session_witness :
  ∃ s', run (at_time 3000) (login demo_secret (demo_rand 9) phone (mkLogin (lit "admin") pw)) started =
      (Ok (mkResponse 200 (BAuth (session_token 9 (at_time 3000))
             (mkUserInfo (u_id demo_admin) (username demo_admin) (role demo_admin) false))), s') ∧
    (run (at_time 4000) (require_auth demo_secret (bearer_of (session_token 9 (at_time 3000)))) s').1 =
      Ok (mkAuthUser (u_id demo_admin) (role demo_admin) [9; 0]).
Proof.
  destruct started_ready as (Hu & Hp & Hl & Hm & Hs).
  destruct (login_grants_session demo_secret started phone (mkLogin (lit "admin") pw) demo_admin (at_time 3000) (demo_rand 9)
    (session_token 9 (at_time 3000)) eq_refl Hu Hp Hl Hm Hs (session_encoded _ _)) as (s' & Hrun & Hauth).
  exists s'. split; [exact Hrun|]. exact (Hauth (at_time 4000) eq_refl ltac:(cbn [unix at_time]; unfold JWT_EXPIRY_SECS; lia)).
Defined.

Lemma enrolled_ready :
  List.find (λ v, username v == lit "admin") (users (db enrolled_server)) = Some demo_admin ∧
  List.find (λ v, u_id v == u_id demo_admin) (users (db enrolled_server)) = Some demo_admin ∧
  List.find (λ x, (m_user_id x == u_id demo_admin) && (m_kind x == TOTP_KIND)) (mfa_methods (db enrolled_server)) = Some demo_method ∧
  is_ok (LoginLimit.check (login_limiter enrolled_server) (ip phone) (instant (at_time 3030))).1 = true ∧
  limiters_pass (asked enrolled_server phone (at_time 3030)) phone (u_id demo_admin) (at_time 3040) ∧
  trim (random_token (demo_rand 9)) = random_token (demo_rand 9) ∧ random_token (demo_rand 9) ≠ [] ∧
  existsb (λ x, (ch_id x == uuid (demo_rand 9) 0) || (ch_token_hash x == hash_token (random_token (demo_rand 9))))
    (challenges enrolled_server) = false ∧
  existsb (λ x, s_id x == uuid (demo_rand 10) 0) (sessions enrolled_server) = false.
Proof.
  split; [vm_compute; reflexivity|]. split; [vm_compute; reflexivity|]. split; [vm_compute; reflexivity|].
  split; [vm_compute; reflexivity|]. split; [split; vm_compute; reflexivity|]. split; [vm_compute; reflexivity|].
  split; [vm_compute; discriminate|]. split; vm_compute; reflexivity.
Qed.

Definition demo_ct : str := default [] (m_secret_ct demo_method).
Definition demo_nonce : str := default [] (m_secret_nonce demo_method).
Definition demo_raw : str :=
  match vault_decrypt demo_key demo_nonce demo_ct with Ok x => x | Err _ => [] end.

Lemma method_ready :
  m_secret_ct demo_method = Some demo_ct ∧ m_secret_nonce demo_method = Some demo_nonce ∧
  vault_decrypt demo_key demo_nonce demo_ct = Ok demo_raw ∧
  totp_verify demo_raw (digits6 101) (m_last_timestep demo_method) (unix (at_time 3040)) = Ok 101.
Proof. split; [|split; [|split]]; vm_compute; reflexivity. Qed.

Lemma mfa_login_grants_session_witness :
  ∃ methods info s1 s2,
    run (at_time 3030) (login demo_secret (demo_rand 9) phone (mkLogin (lit "admin") pw)) enrolled_server =
      (Ok (mkResponse 202 (BMfaRequired (random_token (demo_rand 9)) methods)), s1) ∧
    run (at_time 3040) (mfa_verify demo_secret demo_key (demo_rand 10) phone
        (mkMfaVerify (random_token (demo_rand 9)) TOTP_KIND (digits6 101))) s1 =
      (Ok (mkResponse 200 (BAuth (session_token 10 (at_time 3040)) info)), s2) ∧
    (run (at_time 4000) (require_auth demo_secret (bearer_of (session_token 10 (at_time 3040)))) s2).1 =
      Ok (mkAuthUser (u_id demo_admin) (role demo_admin) [10; 0]).
Proof.
  destruct started_ready as (_ & Hp & _). destruct enrolled_ready as (Hu & Hi & Hm & Hl & Hl' & Ht & Hne & Hf & Hs).
  destruct method_ready as (Hct & Hn & Hdec & Hcode).
  destruct (mfa_login_grants_session demo_secret demo_key enrolled_server phone phone (mkLogin (lit "admin") pw) demo_admin
    demo_method demo_ct demo_nonce demo_raw (digits6 101) 101 (at_time 3030) (at_time 3040) (demo_rand 9) (demo_rand 10)
    (session_token 10 (at_time 3040)) eq_refl eq_refl Hu Hi Hp Hm Hct Hn Hdec Hcode
    ltac:(cbn [unix at_time]; unfold TTL_SECS; lia) Hl Hl' Ht Hne Hf Hs (session_encoded _ _)) as (methods & info & s1 & s2 & H1 & H2 & Hauth).
  exists methods, info, s1, s2. split; [exact H1|]. split; [exact H2|].
  exact (Hauth (at_time 4000) eq_refl ltac:(cbn [unix at_time]; unfold JWT_EXPIRY_SECS; lia)).
Defined.
End AuthDemo.
