(* ===== verification/AuthFlaws.v ===== *)
(** * Where authentication departs from what it says

    Schedules and paths on which a one-time factor is accepted twice, a
    challenge outlives the password behind it, an error is never reported and a
    failed enrolment stays in force. *)

From S2P Require Import Prelude Programs CharStr EnvVars Gates AuthDb Auth AuthRoutes AuthProps AuthSafety AuthRuns AuthFactors AuthLogin AuthDemo.

Module AuthFlaws.
Export AuthDemo.

(** ** Overlapping requests *)

(** Requests [n] and [S n], call by call in turn. *)
Definition serve_both (n : nat) (q q' : Request) (u : Z) : list Action :=
  [Spawn q (demo_rand (Z.of_nat n)); Spawn q' (demo_rand (Z.of_nat (S n)))] ++
  concat (replicate 30 [Run n (at_time u); Run (S n) (at_time u)]).

(** The server of [demo2], with a second challenge out. *)
Definition two_logins : list Action := demo2 ++ serve 5 admin_login 3000.
Definition second_challenge : str := Eval vm_compute in token_of (world two_logins) 5.

(** One TOTP code opens two sessions when the requests overlap: both read the
    last window before either writes it. *)
Theorem overlapping_code_accepted_twice :
  status_of (world (two_logins ++ serve_both 6 (code_step demo_challenge TOTP_KIND (digits6 101))
                                              (code_step second_challenge TOTP_KIND (digits6 101)) 3030)) <$> [6%nat; 7%nat] =
  [Some 200; Some 200].
Proof. vm_compute. reflexivity. Qed.

(** The window that is stored can move back: the request that verified 102
    writes first, the one that verified 101 second, and 102 is accepted again. *)
Definition moved_back : list Action :=
  two_logins ++ serve_both 6 (code_step demo_challenge TOTP_KIND (digits6 102))
                             (code_step second_challenge TOTP_KIND (digits6 101)) 3060 ++ serve 8 admin_login 3060.
Definition third_challenge : str := Eval vm_compute in token_of (world moved_back) 8.

Theorem stored_window_moves_back :
  (m_last_timestep <$> mfa_methods (db (server (world moved_back)))) = [Some 101] ∧
  status_of (world (moved_back ++ serve 9 (code_step third_challenge TOTP_KIND (digits6 102)) 3060)) <$> [6%nat; 7%nat; 9%nat] =
    [Some 200; Some 200; Some 200].
Proof. vm_compute. split; reflexivity. Qed.

Definition codes_of (w : World) (t : nat) : list str :=
  match reply w t with Some (mkResponse _ (BCodes l)) => l | _ => [] end.
Definition recovery_code : str := Eval vm_compute in default [] (head (codes_of (world demo2) 3)).

(** A one-time recovery code opens two sessions when the requests overlap. *)
Theorem recovery_code_accepted_twice :
  status_of (world (two_logins ++ serve_both 6 (code_step demo_challenge RECOVERY_KIND recovery_code)
                                              (code_step second_challenge RECOVERY_KIND recovery_code) 3030)) <$> [6%nat; 7%nat] =
  [Some 200; Some 200].
Proof. vm_compute. reflexivity. Qed.

(** ** One after the other *)

(** A challenge that the old password earned still opens a session after the
    password was changed and every session revoked. *)
Definition new_pw : str := lit "new horse, new battery".
Theorem challenge_survives_password_change :
  status_of (world (demo2
    ++ serve 5 (Authed (bearer_of demo_token) (ChangePassword phone (Parsed (mkChange pw new_pw)))) 3000
    ++ serve 6 (code_step demo_challenge TOTP_KIND (digits6 100)) 3000)) <$> [5%nat; 6%nat] = [Some 200; Some 200].
Proof. vm_compute. reflexivity. Qed.

(** When the recovery codes cannot be stored the enrolment is answered with an
    error, and yet the next login asks for a code. *)
Definition failed_enrolment (k : nat) : list Action :=
  demo1 ++ serve 2 (Authed (bearer_of demo_token) (TotpBegin pw)) 3000
    ++ Spawn (Authed (bearer_of demo_token) (TotpConfirm pw (digits6 100))) (demo_rand 3)
    :: replicate k (Run 3 (at_time 3000))
    ++ Run 3 (mkFate true 3000 (lit "now") (3000 * 10 ^ 9)) :: replicate 30 (Run 3 (at_time 3000))
    ++ serve 4 admin_login 3000.

Theorem failed_enrolment_in_force :
  status_of (world (failed_enrolment 12)) <$> [3%nat; 4%nat] = [Some 500; Some 202] ∧
  mfa_recovery_codes (db (server (world (failed_enrolment 12)))) = [].
Proof. vm_compute. split; reflexivity. Qed.

(** ** A lockout is never reported *)

Section lockout.
Context `{Crypto, AuthCrypto} (vault_key : bytes).

Abbreviation anything := (λ _ _, True).
Abbreviation not_locked := (λ _ r, r ≠ Err LockedOut).

Ltac answers := repeat path_step ltac:(exact I).
Ltac explain := try done; repeat match goal with
  | Hx : ok_or _ ?x = Err _ |- _ => destruct x; simplify_eq/=
  | Hx : match ?x with Ok _ => _ | Err _ => _ end = Err _ |- _ => destruct x; simplify_eq/=
  end; try done.

Lemma totp_verify_not_locked secret code last now : totp_verify secret code last now ≠ Err LockedOut.
Proof.
  unfold totp_verify, secret_bytes, totp_for. case_match; [done|]. destruct (secret_decode _); [|done].
  cbn [mbind result_bind ok_or]. destruct (totp_new l _); [|done]. cbn [mbind result_bind]. generalize ((λ d, now / STEP + d) <$> [-1; 0; 1]).
  intros ws. induction ws as [|w ws IH]; [done|]. cbn [scan_windows].
  destruct (_ || _); [done|]. by destruct (totp_check _ _ _).
Qed.

Lemma find_match_not_locked code unused : find_match code unused ≠ Err LockedOut.
Proof.
  unfold find_match. case_match; [done|]. induction unused as [|[i hash] unused IH]; [done|]. simpl. by case_match.
Qed.

Lemma verify_code_not_locked uid method code h :
  paths anything not_locked h (verify_code_for_user vault_key uid method code).
Proof.
  unfold verify_code_for_user. answers; [|explain].
  apply ok_or_ok in Heqr. unfold registry_get, builtin in Heqr. simpl in Heqr.
  case_bool_decide; [|case_bool_decide; [|done]]; simplify_eq; cbn [verify].
  - unfold totp_method_verify. answers; explain. intros [= ->]. by eapply totp_verify_not_locked.
  - unfold recovery_method_verify. answers; explain. intros [= ->]. by eapply find_match_not_locked.
Qed.

(** The eighth wrong code ends the challenge, but the answer is that of any
    other wrong code: no path of [verify_challenge] ends with [LockedOut]. *)
Theorem lockout_never_reported raw method code h :
  paths anything not_locked h (verify_challenge vault_key raw method code).
Proof.
  unfold verify_challenge, load_live. answers; explain.
  eapply paths_mono; [|apply verify_code_not_locked]. intros h' [u|e] He; [|destruct e; try done].
  - unfold consume. answers; explain.
  - unfold record_failure. answers; explain.
Qed.
End lockout.
End AuthFlaws.
