(* ===== verification/Turns.v ===== *)
(** * Provider turns

    The part of src/provider/plugin_provider.rs that keeps which session has a
    turn in flight ([PluginProviderRuntime]): the map of turns behind its mutex
    with the flags, the terminal event and the messages handed to a running
    turn.  Every operation takes the mutex of the map once, or of a turn it holds
    on to, and is one step here.  Child processes, the MCP token of a turn, its
    generated images and poisoned mutexes are not modelled. *)

From S2P Require Import Prelude RustStr Json Pipeline.

Module Turns.
Import Pipeline.Pipeline.

(** [UserMessage], and the payload a plugin gets of it. *)
Record UserMessage := mkMessage { m_text : string; m_attachments : list string; m_attachment_ids : list string }.
Record Payload := mkPayload { pl_text : string; pl_attachments : list string }.

Definition message_payload (m : UserMessage) : Payload := mkPayload (m_text m) (m_attachments m).

#[export] Instance CrashKind_eq : EqDecision CrashKind.
Proof. solve_decision. Defined.

(** [str::contains], and [CrashKind::classify] of src/provider/stream.rs. *)
Fixpoint contains (needle s : string) : bool :=
  String.prefix needle s || match s with String _ s' => contains needle s' | EmptyString => false end.

Definition classify (text : string) : CrashKind :=
  let text := to_ascii_lowercase text in
  let has := existsb (λ n, contains n text) in
  if has ["no rollout found"; "thread/resume"; "no conversation found"; "no session found";
          "session not found"; "conversation not found"] then ResumeFailed
  else if has ["429"; "rate limit"; "rate_limit"; "too many requests"; "quota"; "usage limit"; "hit your limit";
               "weekly limit"; "hour limit reached"; "out of extra usage"; "overloaded"] then RateLimit
  else if has ["401"; "unauthorized"; "unauthenticated"; "authenticate"; "authentication"; "invalid api key";
               "invalid_api_key"; "api key"; "credential"; "not signed in"; "isn't signed in";
               "no model configured"; "login"; "oauth"; "token expired"; "expired token"] then AuthExpired
  else if has ["timed out"; "timeout"] then Timeout_
  else if has ["interrupted"; "cancelled"; "canceled"] then Interrupted
  else Unknown.

Inductive Terminal := Completed | Crashed (reason : string) (kind : CrashKind).

Record TurnState := mkTurn {
  plugin_id : string;
  stop : bool;
  retire : bool;
  end_linger : bool;
  lingering : bool;
  terminal : option Terminal;
  injected : list Payload;
  stdin_q : list string }.

Definition new_turn (plugin : string) : TurnState := mkTurn plugin false false false false None [] [].

Definition set_stop (t : TurnState) : TurnState :=
  mkTurn (plugin_id t) true (retire t) (end_linger t) (lingering t) (terminal t) (injected t) (stdin_q t).
Definition set_retire (t : TurnState) : TurnState :=
  mkTurn (plugin_id t) (stop t) true (end_linger t) (lingering t) (terminal t) (injected t) (stdin_q t).
Definition set_end_linger (t : TurnState) : TurnState :=
  mkTurn (plugin_id t) (stop t) (retire t) true (lingering t) (terminal t) (injected t) (stdin_q t).
Definition set_lingering (b : bool) (t : TurnState) : TurnState :=
  mkTurn (plugin_id t) (stop t) (retire t) (end_linger t) b (terminal t) (injected t) (stdin_q t).
Definition set_terminal (x : Terminal) (t : TurnState) : TurnState :=
  mkTurn (plugin_id t) (stop t) (retire t) (end_linger t) (lingering t) (Some x) (injected t) (stdin_q t).
Definition set_injected (l : list Payload) (t : TurnState) : TurnState :=
  mkTurn (plugin_id t) (stop t) (retire t) (end_linger t) (lingering t) (terminal t) l (stdin_q t).
Definition set_stdin_q (l : list string) (t : TurnState) : TurnState :=
  mkTurn (plugin_id t) (stop t) (retire t) (end_linger t) (lingering t) (terminal t) (injected t) l.

(** [turns], by session. *)
Abbreviation Runtime := (gmap string TurnState).

Definition owned_turn (plugin sid : string) (rt : Runtime) : Result string TurnState :=
  match rt !! sid with
  | Some t =>
    if plugin_id t == plugin then Ok t
    else Err ("session '" +:+ sid +:+ "' is running a turn owned by another plugin")
  | None => Err ("no provider turn in flight for session '" +:+ sid +:+ "'")
  end.

Definition begin_turn (sid : string) (turn : TurnState) (rt : Runtime) : Result string unit * Runtime :=
  match rt !! sid with
  | Some _ => (Err ("a provider turn is already in flight for session '" +:+ sid +:+ "'"), rt)
  | None => (Ok tt, <[sid := turn]> rt)
  end.

Record EndedTurn := mkEnded { ended_terminal : option Terminal; untaken : list Payload }.

(** The injected messages of a stopped turn are dropped. *)
Definition end_turn_full (sid : string) (rt : Runtime) : EndedTurn * Runtime :=
  match rt !! sid with
  | None => (mkEnded None [], rt)
  | Some t => (mkEnded (terminal t) (if stop t then [] else injected t), delete sid rt)
  end.

Definition end_turn (sid : string) (rt : Runtime) : option Terminal * Runtime :=
  let '(e, rt) := end_turn_full sid rt in (ended_terminal e, rt).

Definition is_active (sid : string) (rt : Runtime) : bool := is_some (rt !! sid).

Definition is_active_for (plugin sid : string) (rt : Runtime) : bool :=
  match rt !! sid with Some t => plugin_id t == plugin | None => false end.

(** A stopped or retired turn takes no other message. *)
Definition is_lingering (sid : string) (rt : Runtime) : bool :=
  match rt !! sid with Some t => lingering t && negb (stop t) && negb (retire t) | None => false end.

Definition request_stop (sid : string) (rt : Runtime) : Runtime := alter set_stop sid rt.

Definition retire_turn (sid : string) (rt : Runtime) : Runtime := alter set_retire sid rt.

(** A run that lingers already is stopped at once. *)
Definition retire_turn_ending_linger (sid : string) (rt : Runtime) : Runtime :=
  match rt !! sid with
  | None => rt
  | Some t =>
    let rt := alter set_end_linger sid (alter set_retire sid rt) in
    if lingering t then request_stop sid rt else rt
  end.

Definition request_stop_for_plugin (plugin : string) (rt : Runtime) : Runtime :=
  (λ t, if plugin_id t == plugin then set_stop t else t) <$> rt.

Definition queue_injection (plugin sid : string) (message : Payload) (rt : Runtime) : bool * Runtime :=
  match owned_turn plugin sid rt with
  | Ok t => (true, <[sid := set_injected (injected t ++ [message]) t]> rt)
  | Err _ => (false, rt)
  end.

(** [take_message_json]: a retired turn gets no more messages. *)
Definition take_message (plugin sid : string) (rt : Runtime) : Result string (option Payload) * Runtime :=
  match owned_turn plugin sid rt with
  | Err e => (Err e, rt)
  | Ok t =>
    if retire t then (Ok None, rt)
    else
      match injected t with
      | [] => (Ok None, rt)
      | m :: rest => (Ok (Some m), <[sid := set_lingering false (set_injected rest t)]> rt)
      end
  end.

Definition should_stop (plugin sid : string) (rt : Runtime) : bool :=
  match owned_turn plugin sid rt with Ok t => stop t | Err _ => true end.

(** [write_child_stdin]: [child] is the outcome of the write when the turn has
    a CLI child with an open stdin. *)
Definition write_stdin (sid text : string) (child : option bool) (rt : Runtime) : bool * Runtime :=
  match child with
  | Some wrote => (wrote, rt)
  | None =>
    match rt !! sid with
    | None => (false, rt)
    | Some t => (true, <[sid := set_stdin_q (stdin_q t ++ [text]) t]> rt)
    end
  end.

(** What [emit_from_plugin] does to the turn before the event is written, and
    what the report that the turn lingers does after: a drain-only completion
    ([true]) unless the run has to end. *)
Definition note_terminal (plugin sid : string) (x : option Terminal) (rt : Runtime) : Result string unit * Runtime :=
  match owned_turn plugin sid rt with
  | Err e => (Err e, rt)
  | Ok t => (Ok tt, match x with Some x => <[sid := set_terminal x t]> rt | None => rt end)
  end.

Definition start_linger (sid : string) (rt : Runtime) : bool * Runtime :=
  match rt !! sid with
  | None => (false, rt)
  | Some t =>
    if end_linger t then (false, request_stop sid rt)
    else (true, <[sid := set_lingering true t]> rt)
  end.
End Turns.
