(* ===== verification/Resume.v ===== *)
(** * Model ids, conversations and injected context

    The pure part of a dispatch: model ids (src/provider/registry.rs and
    src/provider/mod.rs), the conversation a turn may resume
    (src/provider/resume.rs, src/handover.rs and the scan of
    src/provider/manager.rs), and the texts src/handover.rs puts in front of a
    turn. *)

From S2P Require Import Prelude RustStr Json Pipeline.

Module Resume.
Import Pipeline.

Definition DEFAULT_PROVIDER : string := "claude".

(** ** Model ids *)

Definition colon : Ascii.ascii := Ascii.ascii_of_nat 58.
Definition at_sign : Ascii.ascii := Ascii.ascii_of_nat 64.
Definition bracket : Ascii.ascii := Ascii.ascii_of_nat 91.

Definition parse_model_id (model_id default_provider : string) : string * string :=
  match split_once colon model_id with
  | Some (provider, model) => (provider, model)
  | None => (default_provider, model_id)
  end.

Definition split_model_account (model_id : string) : string * option string :=
  match rsplit_once at_sign model_id with
  | Some (model, acct) => if acct != "" then (model, Some acct) else (model_id, None)
  | None => (model_id, None)
  end.

Definition base_model (id : string) : string :=
  let '(_, rest) := parse_model_id id "claude" in
  let '(model, _) := split_model_account rest in
  let model := match split_once bracket model with Some (m, _) => m | None => model end in
  to_ascii_lowercase (trim model).

Definition same_base_model (a b : string) : bool := base_model a == base_model b.

Definition is_auto_model (id : string) : bool :=
  let id := trim id in
  (id == "") || eq_ignore_ascii_case id "default" || eq_ignore_ascii_case id "auto".

Definition ACCOUNT_PROVIDERS : list string := ["claude"; "grok"; "kimi"; "codex"].

Definition check_model (model : option string) : Result string unit :=
  match trim <$> model with
  | None => Ok tt
  | Some model =>
    if is_auto_model model then Ok tt
    else
      let '(provider_id, rest) := parse_model_id model "claude" in
      if bool_decide (provider_id ∈ ACCOUNT_PROVIDERS) && negb (is_some (split_model_account rest).2) then
        Err ("model '" +:+ provider_id +:+ ":" +:+ rest +:+
          "' needs an account: use a `model@account` id from list_models (Settings → Providers & Accounts)")
      else Ok tt
  end.

Definition resolve_requested_model (config_model : string) (session_model : option string) : string :=
  if is_auto_model config_model then default config_model session_model else config_model.

(** Effort routes to a tier when no model is set. *)
Definition auto_model (effort : option string) (is_worker : bool) : string :=
  let other := if is_worker then "sonnet" else "opus" in
  match effort with
  | Some e =>
    if e == "low" then "haiku" else if e == "medium" then "sonnet" else if e == "high" then "opus"
    else if (e == "xhigh") || (e == "max") then "fable" else other
  | None => other
  end.

(** ** Conversations *)

Definition continuity_key (model_id : string) : string * option string :=
  let '(provider, rest) := parse_model_id model_id DEFAULT_PROVIDER in
  (provider, (split_model_account rest).2).

Definition needs_handover (old new : string) : bool := continuity_key old != continuity_key new.

(** [ResumeHandle::for_model]: the id, when its owner and the target share a key. *)
Definition for_model (id owner_model target_model : string) : option string :=
  if trim id == "" then None
  else if continuity_key owner_model != continuity_key target_model then None
  else Some id.

Definition EVENT_TAIL_FOR_RESUME : nat := 400.

(** [str::ends_with]. *)
Fixpoint ends_with (suffix s : string) : bool :=
  (s == suffix) || match s with String _ s' => ends_with suffix s' | EmptyString => false end.

Definition context_window_for (model : string) : Z :=
  let '(model, _) := split_model_account model in
  let id := match rsplit_once colon model with Some (_, r) => r | None => model end in
  if ends_with "[1m]" id then 1000000
  else if (id == "grok-4.5") || (id == "grok-4.6") || (id == "grok-4.7") then 500000
  else if bool_decide (id ∈ ["gpt-5.6-luna"; "gpt-5.6-terra"; "gpt-5.6-sol"; "gpt-6-astra"; "gpt-5.6"])
  then 1050000
  else 200000.

Definition estimate_tokens (text : string) : Z :=
  let n := Z.of_nat (chars_count text) in
  if n =? 0 then 0 else (n + 3) / 4.

(** ** Text *)

Definition nl : string := String (Ascii.ascii_of_nat 10) "".

Definition trim_end (s : string) : string :=
  String.string_of_list_ascii (reverse (trim_end_rev (reverse (String.list_ascii_of_string s)))).

(** [strip_prefix], and [split_once] at a string. *)
Fixpoint strip_prefix (p s : string) : option string :=
  match p, s with
  | "", _ => Some s
  | String a p', String b s' => if a == b then strip_prefix p' s' else None
  | _, "" => None
  end.

Fixpoint split_once_str (p s : string) : option (string * string) :=
  match strip_prefix p s with
  | Some r => Some ("", r)
  | None =>
    match s with
    | "" => None
    | String a s' => '(x, y) ← split_once_str p s'; Some (String a x, y)
    end
  end.

(** ** The event log of a session *)

(** What else of [serde_json] is used: [Value::as_bool], the text of
    [json!(strings)], and of an object whose fields are strings (or null),
    booleans and integers. *)
Inductive Field := FStr (s : option string) | FBool (b : bool) | FNum (z : Z).

Class MoreJson `{JsonApi} := {
  json_as_bool : Json → option bool;
  json_strings : list string → string;
  json_fields : list (string * Field) → string;
}.

Section log.
Context `{JsonApi}.

(** A string field that is not empty. *)
Definition field (data : Json) (k : string) : option string :=
  s ← get_str data k; if s == "" then None else Some s.

(** Newest first: the conversation of the last run that names its owner, unless
    a reset came after it. *)
Fixpoint scan_tail (newest_first : list Event) : option (string * string) :=
  match newest_first with
  | [] => None
  | e :: l =>
    if (ev_kind e == "handover") || (ev_kind e == "conversation-reset") then None
    else if (ev_kind e != "agent-start") && (ev_kind e != "agent-end") then scan_tail l
    else
      match json_from_str (ev_data e) with
      | None => scan_tail l
      | Some data =>
        match field data "conversationId", field data "ownerModel" with
        | Some cid, Some owner => Some (cid, owner)
        | _, _ => scan_tail l
        end
      end
  end.

Definition resume_conversation_id_from_tail (events : list Event) : option (string * string) :=
  scan_tail (reverse events).

Definition event_text (data : string) : string :=
  default "" (v ← json_from_str data; get_str v "text").

(** The text the outgoing model wrote after the last [handover-start]. *)
Definition extract_doc (events : list Event) : string :=
  let start_idx := match rposition (λ e, ev_kind e == "handover-start") events with
    | Some i => S i | None => O end in
  String.concat "" (omap (λ e,
    if ev_kind e != "agent-text" then None
    else v ← json_from_str (ev_data e); get_str v "text") (drop start_idx events)).

(** The conversation since the last handover, as Markdown. *)
Definition flush_assistant (st : string * string) : string * string :=
  let '(out, assistant) := st in
  if assistant == "" then st
  else (out +:+ (if out == "" then "" else nl +:+ nl) +:+ "## Assistant" +:+ nl +:+ nl +:+ trim_end assistant, "").

Definition bare_tool (name : string) : string :=
  default name (r ← strip_prefix "mcp__" name; snd <$> split_once_str "__" r).

Definition transcript_step (st : string * string) (e : Event) : string * string :=
  if ev_kind e == "user" then
    let text := trim (event_text (ev_data e)) in
    if text == "" then st
    else
      let '(out, assistant) := flush_assistant st in
      (out +:+ (if out == "" then "" else nl +:+ nl) +:+ "## User" +:+ nl +:+ nl +:+ text, assistant)
  else if ev_kind e == "agent-text" then (st.1, st.2 +:+ event_text (ev_data e))
  else if ev_kind e == "agent-tool-start" then
    let name := default "tool" (v ← json_from_str (ev_data e); get_str v "name") in
    (st.1, st.2 +:+ nl +:+ "- `" +:+ bare_tool name +:+ "`")
  else if bool_decide (ev_kind e ∈ ["agent-end"; "handover-start"; "handover"; "handover-aborted"]) then
    flush_assistant st
  else st.

Definition build_recovery_transcript (events : list Event) : string :=
  let '(prior_doc, rest) :=
    match rposition (λ e, ev_kind e == "handover") events with
    | Some i =>
      (e ← events !! i; v ← json_from_str (ev_data e); d ← get_str v "doc";
       let d := trim d in if d == "" then None else Some d, drop (S i) events)
    | None => (None, events)
    end in
  let '(out, _) := flush_assistant (foldl transcript_step ("", "") rest) in
  match prior_doc with
  | Some doc =>
    "## Prior context" +:+ nl +:+ nl +:+ doc +:+ (if out == "" then "" else nl +:+ nl +:+ out)
  | None => out
  end.

Definition recovery_turn_in_flight (events : list Event) : bool :=
  match rposition (λ e, ev_kind e == "agent-start") events,
        rposition (λ e, ev_kind e == "agent-end") events with
  | Some s, Some e => (e <? s)%nat
  | Some _, None => true
  | _, _ => false
  end.

(** The most recent handover of an event tail. *)
Record HandoverMeta := mkMeta { hm_from : string; hm_compaction : bool; hm_recovery : bool }.

Definition handover_meta `{!MoreJson} (e : Event) : option HandoverMeta :=
  if ev_kind e != "handover" then None
  else
    v ← json_from_str (ev_data e);
    from ← get_str v "from";
    let recovery := default false (json_get v "recovery" ≫= json_as_bool) in
    let compaction := default (bool_decide (get_str v "to" = Some from))
      (json_get v "compaction" ≫= json_as_bool) in
    Some (mkMeta from compaction recovery).

Definition latest_meta `{!MoreJson} (events : list Event) : option HandoverMeta :=
  head (omap handover_meta (reverse events)).
End log.

(** ** The document turn of a handover *)

Definition handover_prompt (to_model : string) : string :=
  "You are about to hand this conversation off to a different AI model (" +:+ to_model +:+
  "), running under a different provider or account. It has **no memory** of anything said here — the only thing it will receive is the document you write now." +:+
  nl +:+ nl +:+
  "Write a HANDOVER document, in Markdown, so your successor can continue seamlessly. Be concrete and self-contained. Cover:" +:+
  nl +:+ nl +:+ "1. **Goal** — what the user is ultimately trying to accomplish." +:+
  nl +:+ "2. **Current state** — what has been done so far, what works, what doesn't. Reference concrete files, functions, commands, and results." +:+
  nl +:+ "3. **Key decisions & rationale** — choices made and why, so they aren't relitigated or reversed by accident." +:+
  nl +:+ "4. **Important context & constraints** — anything non-obvious your successor must respect (conventions, gotchas, user preferences)." +:+
  nl +:+ "5. **Open threads** — unresolved questions and known issues." +:+
  nl +:+ "6. **Next steps** — the concrete actions you'd take next." +:+
  nl +:+ nl +:+
  "Write ONLY the document — no preamble, no sign-off. Do not run tools or make further changes; just summarize from what you already know.".

Definition compaction_prompt : string :=
  "Your context window is nearly full, so this conversation is being COMPACTED: the visible history will be dropped and you will continue with only the document you write now. Write a CONTINUATION document, in Markdown, for yourself. Be concrete and self-contained. Cover:" +:+
  nl +:+ nl +:+ "1. **Goal** — what the user is ultimately trying to accomplish." +:+
  nl +:+ "2. **Current state** — what has been done so far, what works, what doesn't. Reference concrete files, functions, commands, and results." +:+
  nl +:+ "3. **Key decisions & rationale** — choices made and why, so they aren't relitigated or reversed by accident." +:+
  nl +:+ "4. **Important context & constraints** — anything non-obvious to respect (conventions, gotchas, user preferences)." +:+
  nl +:+ "5. **Open threads** — unresolved questions and known issues." +:+
  nl +:+ "6. **Next steps** — the concrete actions you'd take next." +:+
  nl +:+ nl +:+
  "Write ONLY the document — no preamble, no sign-off. Do not run tools or make further changes; just summarize from what you already know.".

Definition EMPTY_DOC_FALLBACK : string :=
  "(The previous model could not produce a handover document — its generation turn ended without output. Ask the user to recap anything you need.)".

(** ** Injected context *)

Definition build_injection (from_model doc user_text : string) : string :=
  "[Handover context — you are continuing a conversation previously handled by a different model (" +:+
  from_model +:+
  "). You share no memory with it; the document below is everything it chose to pass on. Treat it as authoritative background, then respond to the user's message that follows.]" +:+
  nl +:+ nl +:+ "<handover>" +:+ nl +:+ doc +:+ nl +:+ "</handover>" +:+ nl +:+ nl +:+
  "---" +:+ nl +:+ nl +:+ "User's message:" +:+ nl +:+ user_text.

Definition build_compaction_injection (doc user_text : string) : string :=
  "[Context compaction — this conversation's earlier history was compacted to keep the context window small. The document below is the continuation summary you wrote before the reset; treat it as authoritative background, then respond to the user's message that follows.]" +:+
  nl +:+ nl +:+ "<compaction>" +:+ nl +:+ doc +:+ nl +:+ "</compaction>" +:+ nl +:+ nl +:+
  "---" +:+ nl +:+ nl +:+ "User's message:" +:+ nl +:+ user_text.

Definition build_recovery_injection (from_model transcript user_text : string) : string :=
  "[Recovery context — you are continuing a conversation previously handled by a different model (" +:+
  from_model +:+
  ") whose account or provider could not continue (typically a usage limit). You share no memory with it. The transcript below is the full user/assistant history, reconstructed without that model's help. Treat it as authoritative background, then respond to the user's message that follows.]" +:+
  nl +:+ nl +:+ "<transcript>" +:+ nl +:+ transcript +:+ nl +:+ "</transcript>" +:+ nl +:+ nl +:+
  "---" +:+ nl +:+ nl +:+ "User's message:" +:+ nl +:+ user_text.

Definition build_plan_review_injection (plan_markdown following : string) : string :=
  "[Plan review — you are the original (thinking) model resuming to REVIEW the work done while you were switched away. Below is the plan that was saved for this work. Verify the wrong, and only then finish. Once the work aligns with the plan, ask the user via `ask_user` whether to commit and push, and run git commit/push (through `run_command`) only after they explicitly confirm.]" +:+
  nl +:+ nl +:+ "<plan>" +:+ nl +:+ plan_markdown +:+ nl +:+ "</plan>" +:+ nl +:+ nl +:+
  "---" +:+ nl +:+ nl +:+ following.

(** [str::lines]. *)
Definition strip_cr (s : string) : string :=
  match rsplit_once (Ascii.ascii_of_nat 13) s with Some (x, "") => x | _ => s end.

Fixpoint lines_go (fuel : nat) (s : string) : list string :=
  match fuel with
  | O => []
  | S k =>
    match s with
    | "" => []
    | _ =>
      match split_once (Ascii.ascii_of_nat 10) s with
      | Some (x, rest) => strip_cr x :: lines_go k rest
      | None => [s]
      end
    end
  end.
Definition lines (s : string) : list string := lines_go (S (String.length s)) s.

(** [{:>4}]. *)
Definition pad4 (s : string) : string :=
  String.concat "" (replicate (4 - String.length s) " ") +:+ s.

Definition number_lines (markdown : string) : string :=
  String.concat "" (imap (λ i line, pad4 (to_dec (N.of_nat (S i))) +:+ " | " +:+ line +:+ nl) (lines markdown)).

(** An integer column as text. *)
Definition show_int (z : Z) : string :=
  (if z <? 0 then "-" else "") +:+ to_dec (Z.abs_N z).

(** [DocReview] and [DocReviewComment], the columns shown. *)
Record DocReview := mkDocReview {
  dr_title : string; dr_source_kind : string; dr_source_ref : string; dr_current_version : Z }.
Record DocReviewComment := mkDocReviewComment {
  dc_id : string; dc_start_line : Z; dc_end_line : Z; dc_kind : string; dc_quote : option string; dc_body : string }.

Definition annotation (c : DocReviewComment) : string :=
  let quote := match trim <$> dc_quote c with
    | Some q => if q == "" then "" else " «" +:+ q +:+ "»"
    | None => ""
    end in
  "[lines " +:+ show_int (dc_start_line c) +:+ "-" +:+ show_int (dc_end_line c) +:+ "] (" +:+ dc_kind c +:+ ")" +:+
  quote +:+ " — " +:+ trim (dc_body c) +:+ " (id: " +:+ dc_id c +:+ ")".

Definition build_doc_review_injection (review : DocReview) (markdown : string)
    (comments : list DocReviewComment) (following : string) : string :=
  let annotations := match comments with
    | [] => "(none open — go by the user's message below.)"
    | _ => String.concat nl (annotation <$> comments)
    end in
  "[Document review — below is the document you are reviewing, exactly as the user sees it. Revise it ONLY through `submit_review_revision`, passing the FULL replacement markdown; never edit the source file directly, and leave every line the annotations did not ask about byte-identical. The line numbers are an addressing aid for the annotations — never copy them into the document. Address every open annotation and report each one in `resolutions`; if an intent is unclear, ask with `ask_user` instead of guessing.]" +:+
  nl +:+ nl +:+ "Title: " +:+ dr_title review +:+ nl +:+ "Source: " +:+ dr_source_kind review +:+ " — " +:+
  dr_source_ref review +:+ nl +:+ "Version: " +:+ show_int (dr_current_version review) +:+ nl +:+ nl +:+
  "<document>" +:+ nl +:+ number_lines markdown +:+ "</document>" +:+ nl +:+ nl +:+
  "<open-annotations>" +:+ nl +:+ annotations +:+ nl +:+ "</open-annotations>" +:+ nl +:+ nl +:+
  "---" +:+ nl +:+ nl +:+ following.
End Resume.
