(* ===== verification/Manager.v ===== *)
(** * The session manager

    src/provider/manager.rs with the adapters it dispatches through
    (src/provider/crate_provider.rs and plugin_provider.rs) and the drain of
    src/worker/orchestrator.rs: state, calls, and the programs that dispatch,
    queue, deliver and stop.

    A handler is a program over the calls [Op]; [exec] answers a call on the
    [Host], the state behind the database connection, the session locks and the
    turns of the providers.  The [Fate] of a call is what the surroundings
    decide: whether the storage fails, and the answers of code outside this
    component (files, settings, plans and reviews, usage, child processes,
    clocks).  Broadcasts, logging, the working directory, prompts, environment,
    tokens and files a provider gets with a turn, and the cancellation of a
    handler whose connection closes are not modelled. *)

From S2P Require Import Prelude RustStr Json Pipeline Store Board Dispatch Programs Turns Resume.

(** A row of [events]; [Event] is a call with its answer below. *)
Abbreviation LogEvent := Event.

Module Manager.
Export Programs.Programs.
Export Pipeline.Pipeline Turns.Turns Resume.Resume.

(** ** State *)

(** The columns of [sessions] that [Store] leaves out; [handover_to_model] and
    [handover_run_id] are set while a handover is parked. *)
Record Columns := mkColumns {
  folder_id : string;
  effort : option string;
  pending_plan_review : bool;
  pending_doc_review : option string;
  handover_to_model : option string;
  handover_run_id : option Z;
  is_expert : bool;
  repeating_task_id : option string;
  last_activity : string }.

Record Row := mkRow { session : Store.Session; columns : Columns }.

(** The columns of [projects] that [Store] leaves out. *)
Record ProjectColumns := mkProjectColumns {
  pj_status : string; pj_model : option string; pj_effort : option string }.

Record DispatchedTurn := mkDispatched {
  dt_text : string; dt_attachment_ids : list string; dt_model : string; dt_effort : option string }.

(** [SpawnConfig], as far as a dispatch depends on it. *)
Record SpawnConfig := mkConfig { cfg_model : string; cfg_effort : option string }.

Record ProcessCompletion := mkCompletion {
  pc_session : string; pc_completed : bool; pc_error : option string; pc_run_id : Z;
  pc_kind : option CrashKind; pc_turn_end_only : bool }.

(** A registered provider.  [native] ones run in process
    ([CrateAgentProvider]), the others are WASM plugins
    ([PluginProviderAdapter]); [interrupt_frame]: it can stop a turn in band. *)
Record Provider := mkProvider {
  provider_id : string; owner_plugin : string; mid_stream : bool; stdin_answers : bool;
  native : bool; interrupt_frame : bool }.

Record Host := mkHost {
  db : Store.Db;
  more : gmap string Columns;
  project_more : gmap string ProjectColumns;
  folders : gmap string string;
  turns : Runtime;
  locks : gmap string nat;
  last_dispatched : gmap string DispatchedTurn;
  run_ids : Z;
  auto_retried : gmap string Z;
  replayed : gmap string string;
  doc_dispatched : gset string }.

Definition set_db (d : Store.Db) (h : Host) : Host :=
  mkHost d (more h) (project_more h) (folders h) (turns h) (locks h) (last_dispatched h) (run_ids h)
    (auto_retried h) (replayed h) (doc_dispatched h).
Definition set_more (m : gmap string Columns) (h : Host) : Host :=
  mkHost (db h) m (project_more h) (folders h) (turns h) (locks h) (last_dispatched h) (run_ids h)
    (auto_retried h) (replayed h) (doc_dispatched h).
Definition set_turns (rt : Runtime) (h : Host) : Host :=
  mkHost (db h) (more h) (project_more h) (folders h) rt (locks h) (last_dispatched h) (run_ids h)
    (auto_retried h) (replayed h) (doc_dispatched h).
Definition set_locks (l : gmap string nat) (h : Host) : Host :=
  mkHost (db h) (more h) (project_more h) (folders h) (turns h) l (last_dispatched h) (run_ids h)
    (auto_retried h) (replayed h) (doc_dispatched h).
Definition set_last (l : gmap string DispatchedTurn) (h : Host) : Host :=
  mkHost (db h) (more h) (project_more h) (folders h) (turns h) (locks h) l (run_ids h)
    (auto_retried h) (replayed h) (doc_dispatched h).
Definition set_run_ids (n : Z) (h : Host) : Host :=
  mkHost (db h) (more h) (project_more h) (folders h) (turns h) (locks h) (last_dispatched h) n
    (auto_retried h) (replayed h) (doc_dispatched h).
Definition set_retried (m : gmap string Z) (h : Host) : Host :=
  mkHost (db h) (more h) (project_more h) (folders h) (turns h) (locks h) (last_dispatched h) (run_ids h)
    m (replayed h) (doc_dispatched h).
Definition set_replayed (m : gmap string string) (h : Host) : Host :=
  mkHost (db h) (more h) (project_more h) (folders h) (turns h) (locks h) (last_dispatched h) (run_ids h)
    (auto_retried h) m (doc_dispatched h).
Definition set_doc (m : gset string) (h : Host) : Host :=
  mkHost (db h) (more h) (project_more h) (folders h) (turns h) (locks h) (last_dispatched h) (run_ids h)
    (auto_retried h) (replayed h) m.

Definition no_columns : Columns := mkColumns "" None false None None None false None "".

Definition get_row (sid : string) (h : Host) : option Row :=
  (λ s, mkRow s (default no_columns (more h !! sid))) <$> Store.get_session sid (db h).

(** The columns an update of a session writes here; [None] leaves one as it is. *)
Record RowUpdate := mkRowUpdate {
  ru_model : option (option string);
  ru_effort : option (option string);
  ru_conversation_id : option (option string);
  ru_handover_to_model : option (option string);
  ru_handover_run_id : option (option Z);
  ru_pending_handover_doc : option (option string);
  ru_pending_plan_review : option bool;
  ru_last_activity : option string }.

Definition update_columns (u : RowUpdate) (c : Columns) : Columns :=
  mkColumns (folder_id c) (default (effort c) (ru_effort u))
    (default (pending_plan_review c) (ru_pending_plan_review u)) (pending_doc_review c)
    (default (handover_to_model c) (ru_handover_to_model u)) (default (handover_run_id c) (ru_handover_run_id u))
    (is_expert c) (repeating_task_id c) (default (last_activity c) (ru_last_activity u)).

Definition set_conversation (c : option string) : RowUpdate := mkRowUpdate None None (Some c) None None None None None.
Definition touch (now : string) : RowUpdate := mkRowUpdate None None None None None None None (Some now).

(** ** Calls *)

(** A turn as it starts: its message, the conversation it resumes, its model
    and its run id. *)
Record TurnStart := mkStart {
  ts_payload : Payload; ts_resume : option string; ts_model : string; ts_run_id : Z }.

(** The statements of the worker pool on cards and their runs. *)
Inductive BoardOp : Type@{answer} → Type :=
| ClearWorker (card sid : string) : BoardOp (option Store.Card)
| ClaimCard (card sid : string) (step : option string) (now : string) : BoardOp bool
| UpdateCard (card : string) (u : Store.UpdateCard) : BoardOp (option Store.Card)
| OpenRun (card sid : string) (start : Store.CardRunStart) (now : string) : BoardOp Store.CardSession
| CloseRun (card sid outcome : string) (summary : option string) : BoardOp bool.

Inductive Op : Type@{answer} → Type :=
(** [lock_session] waits until the lock is free, [try_lock_session] does not;
    the guard is dropped last. *)
| LockSession (sid : string) : Op unit
| TryLock (sid : string) : Op bool
| UnlockSession (sid : string) : Op unit
| NowText : Op string
| NextRunId : Op Z
| CurrentRunId : Op Z
(** The database: every call may fail. *)
| GetSession (sid : string) : Op (Result string (option Row))
| GetFolder (fid : string) : Op (Result string (option string))
| GetCard (card : string) : Op (Result string (option Store.Card))
| GetProject (pid : string) : Op (Result string (option ProjectColumns))
| GetPlan (card : option string) (sid : string) : Op (option string)
| GetDocReview (rid : string) : Op (option (DocReview * string * list DocReviewComment))
| EventsTail (sid : string) (limit : nat) : Op (Result string (list LogEvent))
| ListEvents (sid : string) : Op (Result string (list LogEvent))
| LatestOfKinds (sid : string) (kinds : list string) : Op (Result string (option LogEvent))
| ListQueued (sid : string) : Op (Result string (list Store.QueuedMessage))
| NextQueued (sid : string) : Op (Result string (option Store.QueuedMessage))
| GetQueued (sid : string) (id : Z) : Op (Result string (option Store.QueuedMessage))
| Enqueue (new : Store.NewQueuedMessage) : Op (Result string Store.QueuedMessage)
| MarkAppended (sid : string) (id : Z) : Op (Result string bool)
| DeleteQueued (sid : string) (id : Z) : Op (Result string bool)
| ClearQueued (sid : string) : Op (Result string nat)
| AppendEvent (sid kind data : string) : Op (Result string LogEvent)
| UpdateRow (sid : string) (u : RowUpdate) : Op (Result string (option Row))
| TakeDocReview (sid : string) : Op (Result string unit)
| SealSession (sid : string) (reason : option string) : Op (Result string Store.SealOutcome)
| DeleteEvents (sid : string) : Op (Result string nat)
| DeleteSession (sid : string) : Op (Result string bool)
| OnBoard {A : Type@{answer}} (o : BoardOp A) : Op (Result string A)
| ListProjects : Op (Result string (list Store.Project))
| ListCards (pid : string) : Op (Result string (list Store.Card))
| ListWorkers : Op (Result string (list Row))
| CardLog (card : string) : Op (Result string (list LogEvent))
(** The sessions with a parked handover. *)
| ListParked : Op (Result string (list string))
(** The settings and the model catalog, the usage table, the attachment files. *)
| DefaultModel : Op (option string)
| ContextTokens (sid : string) : Op (Result string (option Z))
| AutoModel (effort : option string) (is_worker : bool) : Op (Result string string)
| CredentialVersion (model : string) : Op Z
| LoadAttachment (sid aid : string) : Op (option string)
(** The clock and the background tasks. *)
| SecondsSince (rfc3339 : string) : Op (option Z)
| HasBackground (sid : string) : Op bool
(** The turns of the providers. *)
| IsActiveFor (plugin sid : string) : Op bool
| IsLingering (sid : string) : Op bool
| QueueInjection (plugin sid : string) (m : Payload) : Op bool
| BeginTurn (sid plugin : string) (s : TurnStart) : Op (Result string unit)
| EndTurn (sid : string) : Op EndedTurn
| RequestStop (sid : string) : Op unit
| SoftInterrupt (sid : string) : Op bool
| RetireTurn (sid : string) (ending_linger : bool) : Op unit
| AwaitTermination (sid : string) : Op bool
| WriteStdin (sid text : string) : Op bool
| TakeMessage (plugin sid : string) : Op (Result string (option Payload))
| NoteTerminal (plugin sid : string) (x : option Terminal) : Op (Result string unit)
| StartLinger (sid : string) : Op bool
(** The maps of the manager and of the recovery. *)
| Remember (sid : string) (t : DispatchedTurn) : Op unit
| LastDispatched (sid : string) : Op (option DispatchedTurn)
| Forget (sid : string) : Op unit
| SpendRetry (sid : string) (version : Z) : Op bool
| RenewRetry (sid : string) : Op unit
| SpendReplay (sid reason : string) : Op bool
(** The sessions whose document turn was dispatched. *)
| MarkDoc (sid : string) : Op unit
| ClearDoc (sid : string) : Op unit
| IsDoc (sid : string) : Op bool.

(** What the surroundings decide at a call. *)
Record Fate := mkFate {
  fault : option string;
  now_text : string;
  auto : Result string string;
  app_default : option string;
  occupancy : option Z;
  version : Z;
  plan : option string;
  review : option (DocReview * string * list DocReviewComment);
  attachment : option string;
  child : option bool;
  soft : bool;
  timed_out : bool;
  age : string → option Z;
  background : string → bool }.

Section calls.
Context `{Store.World}.

(** A query and a statement; both fail when the storage does. *)
Definition query {A} (f : Fate) (g : Host → A) (h : Host) : option (Result string A * Host) :=
  Some (match fault f with Some e => Err e | None => Ok (g h) end, h).

Definition stmt {A} (f : Fate) (m : Store.M A) (h : Host) : option (Result string A * Host) :=
  match fault f with
  | Some e => Some (Err e, h)
  | None => let '(r, d) := m (db h) in Some (r, set_db d h)
  end.

(** [events_tail]: the last [limit] events, oldest first. *)
Definition events_tail (sid : string) (limit : nat) (d : Store.Db) : list LogEvent :=
  reverse (take limit (reverse (Store.list_events_by_session sid None d))).

Definition update_row (sid : string) (u : RowUpdate) (f : Fate) (h : Host) :
    option (Result string (option Row) * Host) :=
  match stmt f (Store.update_session sid (Store.mkUpdateSession (ru_model u) (ru_conversation_id u)
          (ru_pending_handover_doc u))) h with
  | Some (Ok (Some s), h) =>
    let c := update_columns u (default no_columns (more h !! sid)) in
    Some (Ok (Some (mkRow s c)), set_more (<[sid := c]> (more h)) h)
  | Some (Ok None, h) => Some (Ok None, h)
  | Some (Err e, h) => Some (Err e, h)
  | None => None
  end.

Definition take_doc_review (sid : string) (f : Fate) (h : Host) : option (Result string unit * Host) :=
  Some match fault f with
  | Some e => (Err e, h)
  | None =>
    (Ok tt, match more h !! sid with
      | Some c => set_more (<[sid := mkColumns (folder_id c) (effort c) (pending_plan_review c) None
          (handover_to_model c) (handover_run_id c) (is_expert c) (repeating_task_id c) (last_activity c)]> (more h)) h
      | None => h
      end)
  end.

(** [list_session_ids_with_parked_handover]. *)
Definition parked_sessions (h : Host) : list string :=
  List.filter (λ sid, match get_row sid h with Some r => is_some (handover_to_model (columns r)) | None => false end)
    ((map_to_list (Store.sessions (db h))).*1).

Definition delete_row (sid : string) (f : Fate) (h : Host) : option (Result string bool * Host) :=
  match stmt f (Store.delete_session sid) h with
  | Some (Ok b, h) => Some (Ok b, set_more (delete sid (more h)) h)
  | r => r
  end.

(** [list_worker_sessions]:
    [ORDER BY last_activity DESC]. *)
Definition worker_rows (h : Host) : list Row :=
  sort_by (λ a b, String.leb (last_activity (columns b)) (last_activity (columns a)))
    (omap (λ sid, get_row sid h)
      (List.filter (λ sid, match Store.get_session sid (db h) with Some s => Store.s_is_worker s | None => false end)
        ((map_to_list (Store.sessions (db h))).*1))).

Definition on_board {A : Type@{answer}} (o : BoardOp A) : Store.M A :=
  match o in BoardOp A return Store.M A with
  | ClearWorker card sid => Store.clear_card_worker_if_matches card sid
  | ClaimCard card sid step now => Store.claim_card_for_worker card sid step now
  | UpdateCard card u => Store.update_card card u
  | OpenRun card sid start now => Store.open_card_run card sid start now
  | CloseRun card sid outcome summary => Store.close_card_run card sid outcome summary
  end.

(** The calls on the turns: one step under their mutex. *)
Definition on_turns {A} (m : Runtime → A * Runtime) (h : Host) : option (A * Host) :=
  let '(a, rt) := m (turns h) in Some (a, set_turns rt h).

Definition exec (B : Type@{answer}) (t : nat) (o : Op B) (f : Fate) (h : Host) : option (B * Host) :=
  match o in Op B return option (B * Host) with
  | LockSession sid =>
    match locks h !! sid with Some _ => None | None => Some (tt, set_locks (<[sid := t]> (locks h)) h) end
  | TryLock sid =>
    match locks h !! sid with
    | Some _ => Some (false, h)
    | None => Some (true, set_locks (<[sid := t]> (locks h)) h)
    end
  | UnlockSession sid =>
    Some (tt, if bool_decide (locks h !! sid = Some t) then set_locks (delete sid (locks h)) h else h)
  | NowText => Some (now_text f, h)
  | NextRunId => Some (run_ids h, set_run_ids (run_ids h + 1) h)
  | CurrentRunId => Some (run_ids h, h)
  | GetSession sid => query f (get_row sid) h
  | GetFolder fid => query f (λ h, folders h !! fid) h
  | GetCard card => query f (λ h, Store.get_card card (db h)) h
  | GetProject pid => query f (λ h, project_more h !! pid) h
  | GetPlan _ _ => Some (plan f, h)
  | GetDocReview _ => Some (review f, h)
  | EventsTail sid n => query f (λ h, events_tail sid n (db h)) h
  | ListEvents sid => query f (λ h, Store.list_events_by_session sid None (db h)) h
  | LatestOfKinds sid kinds => query f (λ h, Store.latest_event_of_kinds sid kinds (db h)) h
  | ListQueued sid => query f (λ h, Store.list_queued_messages sid (db h)) h
  | NextQueued sid => query f (λ h, Store.next_queued_message sid (db h)) h
  | GetQueued sid id => query f (λ h, Store.get_queued_message_by_id sid id (db h)) h
  | Enqueue new => stmt f (Store.enqueue_message new) h
  | MarkAppended sid id => stmt f (Store.mark_queued_message_user_event_appended sid id) h
  | DeleteQueued sid id => stmt f (Store.delete_queued_message_by_id sid id) h
  | ClearQueued sid => stmt f (Store.clear_queued_messages sid) h
  | AppendEvent sid kind data => stmt f (Store.append_event sid kind data) h
  | UpdateRow sid u => update_row sid u f h
  | TakeDocReview sid => take_doc_review sid f h
  | SealSession sid reason => stmt f (Store.seal_session sid reason) h
  | DeleteEvents sid => stmt f (Store.delete_events_by_session sid) h
  | DeleteSession sid => delete_row sid f h
  | OnBoard o => stmt f (on_board o) h
  | ListProjects => query f (λ h, (map_to_list (Store.projects (db h))).*2) h
  | ListCards pid => query f (λ h, Dispatch.list_cards_by_project pid (db h)) h
  | ListWorkers => query f worker_rows h
  | CardLog card => query f (λ h, Store.card_lifecycle_events card 256 (db h)) h
  | ListParked => query f parked_sessions h
  | AutoModel _ _ => Some (auto f, h)
  | DefaultModel => Some (app_default f, h)
  | ContextTokens _ => query f (λ _, occupancy f) h
  | CredentialVersion _ => Some (version f, h)
  | LoadAttachment _ _ => Some (attachment f, h)
  | SecondsSince text => Some (age f text, h)
  | HasBackground sid => Some (background f sid, h)
  | IsActiveFor plugin sid => Some (is_active_for plugin sid (turns h), h)
  | IsLingering sid => Some (is_lingering sid (turns h), h)
  | QueueInjection plugin sid m => on_turns (queue_injection plugin sid m) h
  | BeginTurn sid plugin _ => on_turns (begin_turn sid (new_turn plugin)) h
  | EndTurn sid => on_turns (end_turn_full sid) h
  | RequestStop sid => on_turns (λ rt, (tt, request_stop sid rt)) h
  | SoftInterrupt _ => Some (soft f, h)
  | RetireTurn sid ending =>
    on_turns (λ rt, (tt, if ending then retire_turn_ending_linger sid rt else retire_turn sid rt)) h
  | AwaitTermination sid =>
    if is_active sid (turns h) then (if timed_out f then Some (false, h) else None) else Some (true, h)
  | WriteStdin sid text => on_turns (write_stdin sid text (child f)) h
  | TakeMessage plugin sid => on_turns (take_message plugin sid) h
  | NoteTerminal plugin sid x => on_turns (note_terminal plugin sid x) h
  | StartLinger sid => on_turns (start_linger sid) h
  | Remember sid d => Some (tt, set_last (<[sid := d]> (last_dispatched h)) h)
  | LastDispatched sid => Some (last_dispatched h !! sid, h)
  | Forget sid => Some (tt, set_last (delete sid (last_dispatched h)) h)
  | SpendRetry sid v =>
    if bool_decide (auto_retried h !! sid = Some v) then Some (false, h)
    else Some (true, set_retried (<[sid := v]> (auto_retried h)) h)
  | RenewRetry sid => Some (tt, set_retried (delete sid (auto_retried h)) h)
  | SpendReplay sid reason =>
    if bool_decide (replayed h !! sid = Some reason) then Some (false, h)
    else Some (true, set_replayed (<[sid := reason]> (replayed h)) h)
  | MarkDoc sid => Some (tt, set_doc ({[sid]} ∪ doc_dispatched h) h)
  | ClearDoc sid => Some (tt, set_doc (doc_dispatched h ∖ {[sid]}) h)
  | IsDoc sid => Some (bool_decide (sid ∈ doc_dispatched h), h)
  end.
End calls.

(** ** Programs *)

Inductive Fail := SessionSealed (sid : string) | Failed (e : string).

Inductive SendOutcome := Started | Queued.
Inductive MidTurnPolicy := Queue | Inject.

Section programs.
Context `{JsonApi, !MoreJson} (providers : list Provider).

Abbreviation P A := (H Op Fail A).

(** A call whose error is returned, one that cannot fail. *)
Definition ask {A} (o : Op (Result string A)) : P A := map_err Failed (call (O := Op) o).
Definition get {A} (o : Op A) : P A := infallible (call (O := Op) o).

(** The guard of a session lock lives until the end of the block. *)
Definition with_lock {A} (sid : string) (m : P A) : P A :=
  prog_bind (λ _, prog_bind (λ r, prog_bind (λ _, Ret r) (call (UnlockSession sid))) m) (call (LockSession sid)).

Definition sealed (r : Row) : bool := is_some (Store.s_sealed_at (session r)).

Definition ensure_not_sealed (sid : string) : P unit :=
  row ← ask (GetSession sid);
  match row with
  | Some r => if sealed r then throw (SessionSealed sid) else mret tt
  | None => mret tt
  end.

(** *** What waits to be put in front of the next turn *)

Record PendingUsed := mkUsed { used_handover_doc : bool; used_plan_review : bool; used_doc_review : option string }.
Definition nothing_used : PendingUsed := mkUsed false false None.
Definition used_is_empty (u : PendingUsed) : bool :=
  negb (used_handover_doc u) && negb (used_plan_review u) && negb (is_some (used_doc_review u)).

Definition latest_handover_meta (sid : string) : P (option HandoverMeta) :=
  tail ← get (EventsTail sid 200);
  mret (match tail with Ok events => latest_meta events | Err _ => None end).

Definition peek_handover_doc (sid text : string) (r : Row) : P (string * bool) :=
  match Store.s_pending_handover_doc (session r) with
  | Some doc =>
    if trim doc == "" then mret (text, false)
    else
      meta ← latest_handover_meta sid;
      mret (match meta with
        | Some m =>
          if hm_recovery m then build_recovery_injection (hm_from m) doc text
          else if hm_compaction m then build_compaction_injection doc text
          else build_injection (hm_from m) doc text
        | None => build_injection "a previous model" doc text
        end, true)
  | None => mret (text, false)
  end.

Definition peek_plan_review (sid out : string) (r : Row) : P (string * bool) :=
  if pending_plan_review (columns r) then
    plan ← get (GetPlan (Store.s_card_id (session r)) sid);
    mret (match plan with Some p => build_plan_review_injection p out | None => out end, true)
  else mret (out, false).

Definition peek_doc_review (out : string) (r : Row) : P (string * option string) :=
  match pending_doc_review (columns r) with
  | Some rid =>
    review ← get (GetDocReview rid);
    mret (match review with
      | Some (review, markdown, comments) => build_doc_review_injection review markdown comments out
      | None => out
      end, Some rid)
  | None => mret (out, None)
  end.

Definition peek_pending_injection (sid text : string) : P (string * PendingUsed) :=
  row ← get (GetSession sid);
  match row with
  | Ok (Some r) =>
    '(out, h) ← peek_handover_doc sid text r;
    '(out, p) ← peek_plan_review sid out r;
    '(out, d) ← peek_doc_review out r;
    mret (out, mkUsed h p d)
  | _ => mret (text, nothing_used)
  end.

Definition clear_pending_injections (sid : string) (used : PendingUsed) : P unit :=
  if used_is_empty used then mret tt
  else
    (if used_handover_doc used || used_plan_review used
     then ignore (call (UpdateRow sid (mkRowUpdate None None None None None
       (if used_handover_doc used then Some None else None) (if used_plan_review used then Some false else None) None)))
     else mret tt);;
    (if is_some (used_doc_review used) then ignore (call (TakeDocReview sid)) else mret tt).

(** *** Dispatch *)

Definition get_provider (id : string) : option Provider :=
  head (List.filter (λ p, provider_id p == id) providers).

Definition resolve_resume_handle (sid : string) (r : Row) (final_model : string) : P (option string) :=
  match Store.s_conversation_id (session r) with
  | Some cid => mret (for_model cid (default final_model (Store.s_model (session r))) final_model)
  | None =>
    tail ← get (EventsTail sid EVENT_TAIL_FOR_RESUME);
    mret (match tail with
      | Ok events =>
        '(cid, owner) ← resume_conversation_id_from_tail events; for_model cid owner final_model
      | Err _ => None
      end)
  end.

(** [AgentProvider::send_message] of both adapters, up to the task that runs
    the turn. *)
Definition provider_send (p : Provider) (sid : string) (message : UserMessage) (model : string)
    (resume : option string) (run_id : Z) : P unit :=
  injected ← (if mid_stream p then get (QueueInjection (owner_plugin p) sid (message_payload message))
              else mret false);
  if injected : bool then mret tt
  else
    row ← ask (GetSession sid);
    match row with
    | None => throw (Failed ("session not found: " +:+ sid))
    | Some _ => ask (BeginTurn sid (owner_plugin p) (mkStart (message_payload message) resume model run_id))
    end.

Definition send_message_locked (sid : string) (message : UserMessage) (config : SpawnConfig) : P unit :=
  row ← ask (GetSession sid);
  match row with
  | None => throw (Failed ("session not found: " +:+ sid))
  | Some r =>
    if sealed r then throw (SessionSealed sid)
    else
      '(text, used) ← (if is_some (Store.s_pending_handover_doc (session r)) ||
            pending_plan_review (columns r) || is_some (pending_doc_review (columns r))
        then peek_pending_injection sid (m_text message)
        else mret (m_text message, nothing_used));
      let message := mkMessage text (m_attachments message) (m_attachment_ids message) in
      folder ← ask (GetFolder (folder_id (columns r)));
      match folder with
      | None => throw (Failed ("folder not found: " +:+ folder_id (columns r)))
      | Some _ =>
        let requested_model := resolve_requested_model (cfg_model config) (Store.s_model (session r)) in
        let resolved_effort := match effort (columns r) with Some e => Some e | None => cfg_effort config end in
        final_model ← (if is_auto_model requested_model
          then ask (AutoModel resolved_effort (Store.s_is_worker (session r)))
          else mret requested_model);
        resume ← resolve_resume_handle sid r final_model;
        match get_provider (parse_model_id final_model DEFAULT_PROVIDER).1 with
        | None => throw (Failed ("unknown agent provider: " +:+ (parse_model_id final_model DEFAULT_PROVIDER).1))
        | Some provider =>
          run_id ← get NextRunId;
          provider_send provider sid message final_model resume run_id;;
          get (Remember sid (mkDispatched text (m_attachment_ids message) final_model resolved_effort));;
          clear_pending_injections sid used
        end
      end
  end.

(** *** The run of a session *)

Fixpoint running_provider_in (l : list Provider) (sid : string) : P (option Provider) :=
  match l with
  | [] => mret None
  | p :: l =>
    running ← get (IsActiveFor (owner_plugin p) sid);
    if running : bool then mret (Some p) else running_provider_in l sid
  end.
Definition running_provider (sid : string) : P (option Provider) := running_provider_in providers sid.

Definition is_running (sid : string) : P bool := p ← running_provider sid; mret (is_some p).

(** A WASM provider keeps the default of the trait: it never lingers. *)
Definition is_lingering (sid : string) : P bool :=
  p ← running_provider sid;
  match p with
  | Some p => if mid_stream p && native p then get (IsLingering sid) else mret false
  | None => mret false
  end.

Definition supports_mid_stream_for_session (sid model : string) : P bool :=
  p ← running_provider sid;
  match p with
  | Some p => mret (mid_stream p)
  | None =>
    mret (match get_provider (parse_model_id model DEFAULT_PROVIDER).1 with
      | Some p => mid_stream p | None => false end)
  end.

(** [answer_transport_for_session], compared with [Stdin]. *)
Definition answers_on_stdin (sid : string) : P bool :=
  p ← running_provider sid; mret (match p with Some p => stdin_answers p | None => false end).

(** Each provider's [write_child_stdin] goes to the same runtime. *)
Fixpoint write_stdin_in (l : list Provider) (sid text : string) : P bool :=
  match l with
  | [] => mret false
  | _ :: l =>
    wrote ← get (WriteStdin sid text);
    if wrote : bool then mret true else write_stdin_in l sid text
  end.
Definition write_stdin (sid text : string) : P bool := write_stdin_in providers sid text.

Fixpoint each {A} (f : A → P unit) (l : list A) : P unit :=
  match l with [] => mret tt | a :: l => f a;; each f l end.

Definition cancel (sid : string) : P unit := each (λ _, get (RequestStop sid)) providers.

(** 15 seconds, then the turn is asked to stop again. *)
Definition wait_for_termination (sid : string) : P unit :=
  ended ← get (AwaitTermination sid);
  if ended : bool then mret tt else get (RequestStop sid).

Definition cancel_and_wait (sid : string) : P unit :=
  cancel sid;;
  p ← running_provider sid;
  match p with Some _ => wait_for_termination sid | None => mret tt end.

Definition interrupt (sid : string) : P unit :=
  each (λ p,
    soft ← (if native p && interrupt_frame p then get (SoftInterrupt sid) else mret false);
    if soft : bool then mret tt else get (RequestStop sid)) providers.

Definition shutdown_after_turn_via_registry (sid : string) : P unit :=
  each (λ p, if native p then get (RetireTurn sid false) else mret tt) providers.

Definition finish_after_turn_via_registry (sid : string) : P unit :=
  each (λ p, if native p then get (RetireTurn sid true) else mret tt) providers.

Definition terminate_after_turn_via_registry (sid : string) : P unit :=
  each (λ p, (if native p then get (RetireTurn sid false) else mret tt);; wait_for_termination sid) providers.

(** *** Sending and queueing *)

Definition ids_column (ids : list string) : option string :=
  match ids with [] => None | _ => Some (json_strings ids) end.

Definition send_or_queue (sid : string) (message : UserMessage) (config : SpawnConfig)
    (policy : MidTurnPolicy) (user_event_appended : bool) : P SendOutcome :=
  with_lock sid (
    ensure_not_sealed sid;;
    was_running ← is_running sid;
    supports_mid_stream ← (if was_running : bool then supports_mid_stream_for_session sid (cfg_model config)
                           else mret false);
    lingering ← (if supports_mid_stream : bool then is_lingering sid else mret false);
    stdin_answers ← (if was_running && match policy with Inject => true | Queue => false end
                     then answers_on_stdin sid else mret false);
    wrote ← (if stdin_answers : bool then write_stdin sid (m_text message) else mret false);
    if wrote : bool then mret Queued
    else if was_running && negb lingering &&
        (match policy with Queue => true | Inject => false end || negb supports_mid_stream) then
      now ← get NowText;
      ask (Enqueue (Store.mkNewQueuedMessage sid (m_text message) now (Some (cfg_model config)) (cfg_effort config)
        (ids_column (m_attachment_ids message)) user_event_appended));;
      mret Queued
    else
      send_message_locked sid message config;;
      mret (if was_running && negb lingering then Queued else Started)).

(** The event of a row that has none yet. *)
Definition append_row_event (sid : string) (row : Store.QueuedMessage) : P unit :=
  if Store.q_user_event_appended row then mret tt
  else
    r ← get (AppendEvent sid "user" (json_object [("text", Some (Store.q_text row))]));
    match r with
    | Ok _ => ignore (call (MarkAppended sid (Store.q_id row)))
    | Err _ => mret tt
    end.

Definition row_attachment_ids (row : Store.QueuedMessage) : list string :=
  default [] (raw ← Store.q_attachment_ids row; v ← json_from_str raw; l ← json_as_array v; mapM json_as_str l).

Fixpoint load_attachments (sid : string) (ids : list string) : P (list string) :=
  match ids with
  | [] => mret []
  | aid :: ids =>
    a ← get (LoadAttachment sid aid);
    rest ← load_attachments sid ids;
    mret (match a with Some a => a :: rest | None => rest end)
  end.

Definition merged_text (rows : list Store.QueuedMessage) : string :=
  String.concat (nl +:+ nl) (Store.q_text <$> rows).

Definition deliver_queued_rows (sid : string) (rows : list Store.QueuedMessage) (config : SpawnConfig) : P unit :=
  each (append_row_event sid) rows;;
  let ids := rows ≫= row_attachment_ids in
  attachments ← load_attachments sid ids;
  send_message_locked sid (mkMessage (merged_text rows) attachments ids) config.

Definition drain_queued (sid : string) (config : SpawnConfig) : P bool :=
  with_lock sid (
    row ← get (GetSession sid);
    if match row with Ok (Some r) => sealed r | _ => false end then
      ignore (call (ClearQueued sid));; mret false
    else
      running ← is_running sid;
      lingering ← (if running : bool then is_lingering sid else mret false);
      if running && negb lingering then mret false
      else
        queued ← ask (ListQueued sid);
        match queued with
        | [] => mret false
        | _ =>
          deliver_queued_rows sid queued config;;
          each (λ q, ignore (call (DeleteQueued sid (Store.q_id q)))) queued;;
          mret true
        end).

Definition force_queued (sid : string) (queued : Store.QueuedMessage) (config : SpawnConfig) : P unit :=
  with_lock sid (
    running ← is_running sid;
    supported ← (if running : bool then supports_mid_stream_for_session sid (cfg_model config) else mret false);
    (if running && negb supported then cancel_and_wait sid else mret tt);;
    deliver_queued_rows sid [queued] config).

(** The hard stops drop what is queued first. *)
Definition clear_queued_message (sid : string) : P unit := ignore (call (ClearQueued sid)).

(** Model and effort of a delivery: the row's, the session's, the card's, the
    project's. *)
Definition or_else {A} (o o' : option A) : option A := match o with Some _ => o | None => o' end.
Definition read {A} (o : Op (Result string (option A))) : P (option A) :=
  r ← get o; mret (match r with Ok a => a | Err _ => None end).

Definition queued_resume_config (r : Row) (queued_model queued_effort : option string) : P SpawnConfig :=
  let model := or_else queued_model (Store.s_model (session r)) in
  let eff := or_else queued_effort (effort (columns r)) in
  '(model, eff) ← (if negb (is_some model) || negb (is_some eff) then
      match Store.s_card_id (session r) with
      | None => mret (model, eff)
      | Some cid =>
        card ← read (GetCard cid);
        match card with
        | None => mret (model, eff)
        | Some card =>
          let model := or_else model (Store.c_model card) in
          let eff := or_else eff (Store.c_effort card) in
          if negb (is_some model) || negb (is_some eff) then
            project ← read (GetProject (Store.c_project_id card));
            mret (match project with
              | Some p => (or_else model (pj_model p), or_else eff (pj_effort p))
              | None => (model, eff)
              end)
          else mret (model, eff)
        end
      end
    else mret (model, eff));
  mret (mkConfig (default "default" model) eff).

Definition AUTH_PARKED_KIND : string := "auth-parked".
Definition AUTH_RESUMED_KIND : string := "auth-resumed".

Definition is_parked (sid : string) : P bool :=
  e ← read (LatestOfKinds sid [AUTH_PARKED_KIND; AUTH_RESUMED_KIND]);
  mret (match e with Some e => ev_kind e == AUTH_PARKED_KIND | None => false end).

(** The newest row that sets a value. *)
Definition newest {A} (f : Store.QueuedMessage → option A) (rows : list Store.QueuedMessage) : option A :=
  head (omap f (reverse rows)).

Definition project_stopped (r : Row) : P bool :=
  match Store.s_is_worker (session r), Store.s_project_id (session r) with
  | true, Some pid =>
    project ← read (GetProject pid);
    mret (match project with Some p => pj_status p != "active" | None => false end)
  | _, _ => mret false
  end.

Definition drain_queue_for_session (sid : string) : P unit :=
  row ← ask (GetSession sid);
  match row with
  | None => mret tt
  | Some r =>
    stopped ← project_stopped r;
    if stopped : bool then ignore (call (ClearQueued sid))
    else
      parked ← is_parked sid;
      if parked : bool then mret tt
      else
        peek ← get (ListQueued sid);
        let rows := match peek with Ok rows => rows | Err _ => [] end in
        config ← queued_resume_config r (newest Store.q_model rows) (newest Store.q_effort rows);
        drain_queued sid config;; mret tt
  end.
End programs.
End Manager.
