(* ===== verification/Watchdog.v ===== *)
(** * Workers that start and workers that vanished

    src/worker/watchdog.rs: the sweep that takes cards from sessions that are
    gone or idle ([sweep_stale_card_refs]) and the one that seals or deletes
    worker sessions no card names any more ([sweep_orphans]); and the second half
    of [spawn_worker_for_card] of src/worker/orchestrator.rs, from the claim of a
    card to the running agent, as programs over the calls of [Manager].
    [Dispatch] has the choice of the card and of the session.  The pruning of git
    worktrees is not modelled. *)

From S2P Require Import Prelude RustStr Json Workflow Pipeline Store Board Dispatch Programs Turns Resume Manager.

Module Watchdog.
Export Manager.Manager.

Definition ORPHAN_GRACE_SECS : Z := 90.

(** Active so recently that a handler may still be at work; a time that cannot
    be read is long ago. *)
Definition in_grace (secs : option Z) : bool :=
  match secs with Some secs => secs <? ORPHAN_GRACE_SECS | None => false end.

Inductive OrphanAction := Keep | Seal | Delete.

(** A worker about to be started: the card as it was picked, its session, the
    step it will run, and what hooks and files answer. *)
Record WorkerSpawn := mkSpawn {
  sp_card : Store.Card;
  sp_session : Row;
  sp_new_step : option string;
  sp_effective_step : string;
  sp_now : string;
  sp_is_resume : bool;
  sp_created_now : bool;
  sp_prompt : string;
  sp_token_cancelled : bool;
  sp_config_cancelled : bool;
  sp_config_written : Result string unit }.

Section programs.
Context `{JsonApi, !MoreJson} (providers : list Provider).

Abbreviation P A := (H Op Fail A).

(** The guard of [try_lock_session] lives until the end of the block; nothing
    is done when the lock is taken. *)
Definition with_try_lock (sid : string) (m : P unit) : P unit :=
  locked ← get (TryLock sid);
  if locked : bool then prog_bind (λ r, prog_bind (λ _, Ret r) (call (UnlockSession sid))) m
  else mret tt.

(** A log that cannot be read counts as a question. *)
Definition session_has_pending_question (sid : string) : P bool :=
  evs ← get (ListEvents sid);
  mret match evs with Ok l => negb (bool_decide (Board.pending_questions l = [])) | Err _ => true end.

(** ** Cards of vanished workers *)

(** Under the lock: look again, and take the card only if it is still assigned
    to the session. *)
Definition clear_ref (card sid : string) : P unit :=
  running ← is_running providers sid;
  if running : bool then mret tt
  else
    cleared ← get (OnBoard (ClearWorker card sid));
    match cleared with
    | Ok (Some _) => ignore (call (OnBoard (CloseRun card sid "crashed" None)))
    | _ => mret tt
    end.

Definition spared (row : option Row) (sid : string) : P bool :=
  match row with
  | None => mret false
  | Some r =>
    running ← is_running providers sid;
    if running : bool then mret true
    else secs ← get (SecondsSince (last_activity (columns r))); mret (in_grace secs)
  end.

(** One card that is not finished and names a worker. *)
Definition sweep_ref (card sid : string) : P unit :=
  pending ← session_has_pending_question sid;
  if pending : bool then mret tt
  else
    busy ← get (HasBackground sid);
    if busy : bool then mret tt
    else
      row ← get (GetSession sid);
      match row with
      | Err _ => mret tt
      | Ok row =>
        skip ← spared row sid;
        if skip : bool then mret tt else with_try_lock sid (clear_ref card sid)
      end.

Definition sweep_card (card : Store.Card) : P unit :=
  match Store.c_worker_session_id card with
  | None => mret tt
  | Some sid =>
    if (Store.c_step card == "done") || (Store.c_step card == "wont_do") then mret tt
    else sweep_ref (Store.c_id card) sid
  end.

Definition sweep_project (project : Store.Project) : P unit :=
  cards ← get (ListCards (Store.p_id project));
  match cards with Ok cards => each sweep_card cards | Err _ => mret tt end.

Definition sweep_stale_card_refs : P unit :=
  projects ← get ListProjects;
  match projects with Ok projects => each sweep_project projects | Err _ => mret tt end.

(** ** Sessions no card names *)

Definition orphan_action (r : Row) : P OrphanAction :=
  match Store.s_card_id (session r) with
  | None => mret Delete
  | Some cid =>
    card ← get (GetCard cid);
    mret match card with
      | Ok (Some card) =>
        if (Store.c_worker_session_id card == Some (Store.s_id (session r))) ||
           (Store.c_last_worker_session_id card == Some (Store.s_id (session r))) then Keep else Seal
      | Ok None => Delete
      | Err _ => Keep
      end
  end.

Definition retire_session (sid : string) (action : OrphanAction) : P unit :=
  cancel providers sid;;
  match action with
  | Keep => mret tt
  | Seal => ignore (call (SealSession sid None))
  | Delete => ignore (call (DeleteEvents sid));; ignore (call (DeleteSession sid))
  end.

(** One worker session of the list. *)
Definition sweep_orphan (r : Row) : P unit :=
  let sid := Store.s_id (session r) in
  if sealed r then mret tt
  else
    secs ← get (SecondsSince (last_activity (columns r)));
    if in_grace secs then mret tt
    else
      action ← orphan_action r;
      match action with
      | Keep => mret tt
      | _ => with_try_lock sid (retire_session sid action)
      end.

Definition sweep_orphans : P unit :=
  workers ← get ListWorkers;
  match workers with Ok workers => each sweep_orphan workers | Err _ => mret tt end.

(** One round of the watchdog. *)
Definition watchdog_tick : P unit := sweep_orphans;; sweep_stale_card_refs.

(** ** Starting a worker *)

Definition board {A : Type@{answer}} (o : BoardOp A) : P unit := ignore (call (OnBoard o)).

Definition release_claim (card : string) : P unit :=
  board (UpdateCard card (Store.UpdateCard_default |> Store.set_worker_session_id None)).

Definition maybe_block_card_after_crash (card_id : string) (last_stderr : option string) : P unit :=
  card ← read (GetCard card_id);
  match card with
  | None => mret tt
  | Some card =>
    if Store.c_blocked card then mret tt
    else
      events ← get (CardLog card_id);
      match events with
      | Err _ => mret tt
      | Ok events =>
        let crash_count := count_consecutive_crashes events in
        if crash_count <? BLOCK_AFTER_CRASHES then mret tt
        else
          now ← get NowText;
          board (UpdateCard card_id (Store.UpdateCard_default |> Store.set_blocked true
            |> Store.set_block_reason (Some (Dispatch.format_crash_block_reason (Store.c_title card) crash_count last_stderr))
            |> Store.set_updated_at now))
      end
  end.

(** The text of an error, as [to_string] gives it. *)
Definition error_text (e : Fail) : string :=
  match e with
  | SessionSealed sid => "session " +:+ sid +:+ " is sealed: This session is sealed (its card moved on). Start a new session."
  | Failed e => e
  end.

Definition dispatch_failed (card : Store.Card) (sid e : string) : P unit :=
  ignore (call (AppendEvent sid "agent-end"
    (json_object [("status", Some "crashed"); ("reason", Some "dispatch-failure"); ("stderr", Some e)])));;
  board (CloseRun (Store.c_id card) sid "crashed" (Some e));;
  release_claim (Store.c_id card);;
  maybe_block_card_after_crash (Store.c_id card) (Some e).

(** What happens under the session lock: [None] when the claim has to be
    released because the session is at work already. *)
Definition send_worker (s : WorkerSpawn) : P (option (Result Fail unit)) :=
  let sid := Store.s_id (session (sp_session s)) in
  let model := Store.s_model (session (sp_session s)) in
  with_lock sid (
    running ← (if sp_is_resume s then is_running providers sid else mret false);
    if running : bool then mret None
    else
      busy ← (if sp_is_resume s then get (HasBackground sid) else mret false);
      if busy : bool then mret None
      else
        let role := if sp_effective_step s == Workflow.REVIEW_STEP then "review" else "work" in
        board (OpenRun (Store.c_id (sp_card s)) sid (Store.mkCardRunStart (sp_effective_step s) role model) (sp_now s));;
        sent ← outcome (send_message_locked providers sid (mkMessage (sp_prompt s) [] [])
          (mkConfig (default "default" model) (effort (columns (sp_session s)))));
        mret (Some sent)).

(** From the claim to the running agent. *)
Definition claim_and_send (s : WorkerSpawn) : P unit :=
  let card := Store.c_id (sp_card s) in
  let sid := Store.s_id (session (sp_session s)) in
  claimed ← ask (OnBoard (ClaimCard card sid (sp_new_step s) (sp_now s)));
  if negb claimed then (if sp_created_now s then ignore (call (DeleteSession sid)) else mret tt)
  else if sp_token_cancelled s then release_claim card
  else if sp_config_cancelled s then release_claim card
  else match sp_config_written s with
  | Err e => release_claim card;; throw (Failed e)
  | Ok _ =>
    sent ← send_worker s;
    match sent with
    | None => release_claim card
    | Some (Ok _) => mret tt
    | Some (Err e) => dispatch_failed (sp_card s) sid (error_text e);; throw e
    end
  end.

(** The task that seals the previous session of the card once the new one runs. *)
Definition seal_previous (card step prev : string) (seal : P unit) : P unit :=
  row ← read (GetSession prev);
  match row with
  | Some r =>
    if Store.s_is_worker (session r) && negb (sealed r) && (Store.s_card_id (session r) == Some card) &&
       (Store.s_worker_step (session r) != Some step)
    then seal else mret tt
  | None => mret tt
  end.
End programs.
End Watchdog.
