(* ===== verification/Handover.v ===== *)
(** * Handing a conversation over

    The protocol of src/handover.rs: a switch to another provider or account, or
    a compaction, parks its target, lets the outgoing model write a document in a
    turn of its own, and flips the session when that turn has ended well; a
    recovery switches with a transcript of the event log instead.  The estimated
    cost of a recovery and the time of the last reset are left out. *)

From S2P Require Import Prelude RustStr Json Pipeline Store Programs Turns Resume Manager.

Module Handover.
Export Manager.Manager.

Definition WORKER_COMPACT_CONTEXT_THRESHOLD : Z := 200000.

(** ** Updates of the row *)

Definition park (to_model : string) (watermark : Z) : RowUpdate :=
  mkRowUpdate None None None (Some (Some to_model)) (Some (Some watermark)) None None None.

Definition unpark : RowUpdate := mkRowUpdate None None None (Some None) (Some None) None None None.

(** The switch: model, fresh conversation, document for the next turn. *)
Definition flip (to_model : string) (eff : option (option string)) (doc : string) : RowUpdate :=
  mkRowUpdate (Some (Some to_model)) eff (Some None) (Some None) (Some None) (Some (Some doc)) None None.

(** The switch without a document, when the handover could not start; when the
    user forces it. *)
Definition cold (to_model : string) : RowUpdate :=
  mkRowUpdate (Some (Some to_model)) None (Some None) (Some None) None None None None.

(** [needs_handover] says how to call it: crossing, or a compaction. *)
Definition is_compaction (from to_model : string) : bool := negb (needs_handover from to_model).

Definition doc_turn_config (from_model : string) : SpawnConfig := mkConfig from_model None.

Definition doc_turn_message (from_model to_model : string) : UserMessage :=
  mkMessage (if negb (needs_handover from_model to_model) then compaction_prompt else handover_prompt to_model) [] [].

(** The document a finished turn leaves: none when a compaction wrote nothing. *)
Definition final_doc (from_model to_model doc : string) : option string :=
  if trim doc == "" then (if needs_handover from_model to_model then Some EMPTY_DOC_FALLBACK else None)
  else Some doc.

Definition fail_text (e : Fail) : string :=
  match e with
  | SessionSealed sid =>
    "session " +:+ sid +:+ " is sealed: This session is sealed (its card moved on). Start a new session."
  | Failed e => e
  end.

Section programs.
Context `{JsonApi, !MoreJson} (providers : list Provider).
Abbreviation P A := (H Op Fail A).

Definition switch_data (from to_model : string) (more : list (string * Field)) : string :=
  json_fields ([("from", FStr (Some from)); ("to", FStr (Some to_model))] ++ more).

Definition append_handover_start (sid from_model to_model : string) : P unit :=
  ignore (call (AppendEvent sid "handover-start"
    (switch_data from_model to_model [("compaction", FBool (is_compaction from_model to_model))]))).

(** ** Abort and finalize *)

Definition abort_handover (sid : string) (reason : option string) : P unit :=
  row ← ask (GetSession sid);
  match row with
  | None => mret tt
  | Some r =>
    match handover_to_model (columns r) with
    | None => mret tt
    | Some to_model =>
      let from_model := default "" (Store.s_model (session r)) in
      get (ClearDoc sid);;
      ignore (call (AppendEvent sid "handover-aborted"
        (switch_data from_model to_model
          [("compaction", FBool (is_compaction from_model to_model)); ("reason", FStr reason)])));;
      ask (UpdateRow sid unpark);; mret tt
    end
  end.

Definition collect_handover_doc (sid : string) : P string :=
  tail ← get (EventsTail sid 500);
  mret (match tail with Ok events => extract_doc events | Err _ => "" end).

Definition finalize_handover (sid : string) : P unit :=
  row ← ask (GetSession sid);
  match row with
  | None => mret tt
  | Some r =>
    match handover_to_model (columns r) with
    | None => mret tt
    | Some to_model =>
      let from_model := default "" (Store.s_model (session r)) in
      get (ClearDoc sid);;
      doc ← collect_handover_doc sid;
      match final_doc from_model to_model doc with
      | None => abort_handover sid (Some "the model produced no compaction summary")
      | Some doc =>
        ignore (call (AppendEvent sid "handover"
          (switch_data from_model to_model
            [("doc", FStr (Some doc)); ("compaction", FBool (is_compaction from_model to_model))])));;
        ask (UpdateRow sid (flip to_model None doc));; mret tt
      end
    end
  end.

(** ** Begin *)

(** The turn, under the lock; its outcome. *)
Definition dispatch_doc_turn (sid from_model to_model : string) : P (Result Fail unit) :=
  append_handover_start sid from_model to_model;;
  outcome (send_message_locked providers sid (doc_turn_message from_model to_model) (doc_turn_config from_model)).

(** [locked]: the caller holds the lock and knows that the session is idle.
    Otherwise the turn is deferred behind a run that takes no message. *)
Definition begin_handover (sid from_model to_model : string) (locked : bool) : P unit :=
  run_watermark ← get CurrentRunId;
  ask (UpdateRow sid (park to_model run_watermark));;
  dispatched ← (if locked then r ← dispatch_doc_turn sid from_model to_model; mret (Some r)
    else with_lock sid (
      running ← is_running providers sid;
      supported ← (if running : bool then supports_mid_stream_for_session providers sid from_model else mret false);
      if running && negb supported then mret None
      else r ← dispatch_doc_turn sid from_model to_model; mret (Some r)));
  (match dispatched with Some (Ok _) => get (MarkDoc sid) | _ => mret tt end);;
  match dispatched with
  | Some (Err e) => ignore (abort_handover sid (Some (fail_text e)));; throw e
  | _ => shutdown_after_turn_via_registry providers sid
  end.

(** Would a worker be resumed in this session? *)
Definition card_resumes_session (r : Row) : P bool :=
  if negb (is_some (Store.s_conversation_id (session r))) then mret false
  else
    match Store.s_card_id (session r) with
    | None => mret false
    | Some card_id =>
      card ← read (GetCard card_id);
      mret (match card with
        | None => false
        | Some card =>
          negb (is_some (Store.c_worker_session_id card)) &&
          (Store.c_last_worker_session_id card == Some (Store.s_id (session r))) &&
          (Store.s_worker_step (session r) == Some (Store.c_step card)) &&
          (Store.c_step card != "done") && (Store.c_step card != "wont_do")
        end)
    end.

Definition context_tokens (sid : string) : P Z :=
  n ← read (ContextTokens sid); mret (default 0 n).

Definition maybe_auto_compact (sid : string) : P bool :=
  row ← ask (GetSession sid);
  match row with
  | None => mret false
  | Some r =>
    if negb (Store.s_is_worker (session r)) then mret false
    else if is_some (handover_to_model (columns r)) || is_some (Store.s_pending_handover_doc (session r)) ||
        is_expert (columns r) || is_some (repeating_task_id (columns r)) then mret false
    else
      occupancy ← context_tokens sid;
      if occupancy <? WORKER_COMPACT_CONTEXT_THRESHOLD then mret false
      else
        queued ← get (NextQueued sid);
        if match queued with Ok (Some _) => true | _ => false end then mret false
        else
          resumes ← card_resumes_session r;
          if negb resumes then mret false
          else
            let model := default "default" (Store.s_model (session r)) in
            with_lock sid (
              running ← is_running providers sid;
              if running : bool then mret false
              else begin_handover sid model model true;; mret true)
  end.

Definition begin_compaction (sid : string) (target : option string) (eff : option (option string)) : P unit :=
  row ← ask (GetSession sid);
  match row with
  | None => throw (Failed "session not found")
  | Some r =>
    if Store.s_is_worker (session r) then throw (Failed "worker sessions compact automatically between chunks")
    else if is_some (handover_to_model (columns r)) then
      throw (Failed "a handover or compaction is already in progress")
    else if is_some (Store.s_pending_handover_doc (session r)) then
      throw (Failed "a handover/compaction doc is still waiting to be delivered")
    else
      let model := default "default" (Store.s_model (session r)) in
      let target := match target with Some t => if t == "" then model else t | None => model end in
      if needs_handover model target then
        throw (Failed "compaction can only continue on a model under the same provider and account")
      else
        occupancy ← context_tokens sid;
        if occupancy =? 0 then throw (Failed "nothing to compact yet — the session has no recorded context")
        else
          (match eff with
           | Some _ => ask (UpdateRow sid (mkRowUpdate None eff None None None None None None));; mret tt
           | None => mret tt
           end);;
          begin_handover sid model target false
  end.

(** ** Completions *)

Definition dispatch_deferred_doc_turn (sid : string) : P unit :=
  with_lock sid (
    running ← is_running providers sid;
    if running : bool then mret tt
    else
      row ← read (GetSession sid);
      match row with
      | None => mret tt
      | Some r =>
        match handover_to_model (columns r) with
        | None => mret tt
        | Some to_model =>
          let from_model := default "default" (Store.s_model (session r)) in
          result ← dispatch_doc_turn sid from_model to_model;
          match result with
          | Ok _ => get (MarkDoc sid)
          | Err e => ignore (abort_handover sid (Some (fail_text e)))
          end
        end
      end).

(** Whether the completion was the handover's own; a run that is older than the
    handover only lets a deferred turn start. *)
Definition handover_handle_completion (c : ProcessCompletion) : P bool :=
  let sid := pc_session c in
  row ← read (GetSession sid);
  match row with
  | None => mret false
  | Some r =>
    if negb (is_some (handover_to_model (columns r))) then mret false
    else if match handover_run_id (columns r) with Some w => pc_run_id c <? w | None => false end then
      dispatch_deferred_doc_turn sid;; mret true
    else
      marked ← get (IsDoc sid);
      if negb marked then
        with_lock sid (ignore (abort_handover sid (Some "stale parked handover")));; mret false
      else
        with_lock sid (ignore (if pc_completed c then finalize_handover sid else abort_handover sid (pc_error c)));;
        ignore (drain_queue_for_session providers sid);;
        mret true
  end.

(** At the start of the server. *)
Fixpoint abort_all (ids : list string) : P nat :=
  match ids with
  | [] => mret 0%nat
  | sid :: ids =>
    r ← outcome (abort_handover sid (Some "server restarted while the handover was in flight"));
    n ← abort_all ids;
    mret (match r with Ok _ => S n | Err _ => n end)
  end.

Definition reconcile_parked_handovers : P nat :=
  ids ← get ListParked;
  match ids with Ok ids => abort_all ids | Err _ => mret 0%nat end.

(** ** Recovery *)

Inductive RecoveryError :=
| NotFound | SameContinuity | Worker | HandoverInFlight | MidTurn | NoHistory
| TooLarge (tokens window : Z) | Internal (e : string).

Record PreparedRecovery := mkPrepared { pr_from : string; pr_transcript : string; pr_tokens : Z; pr_window : Z }.

Definition fits (p : PreparedRecovery) : bool := pr_tokens p <=? pr_window p.

Definition ask_recovery {A} (o : Op (Result string A)) : H Op RecoveryError A := map_err Internal (call (O := Op) o).

Definition prepare_recovery (sid to_model : string) (require_idle : bool) : H Op RecoveryError PreparedRecovery :=
  row ← ask_recovery (GetSession sid);
  match row with
  | None => throw NotFound
  | Some r =>
    if is_some (handover_to_model (columns r)) then throw HandoverInFlight
    else if Store.s_is_worker (session r) then throw Worker
    else
      let from_model := default "default" (Store.s_model (session r)) in
      if negb (needs_handover from_model to_model) then throw SameContinuity
      else
        events ← ask_recovery (ListEvents sid);
        if require_idle && recovery_turn_in_flight events then throw MidTurn
        else if negb (existsb (λ e, (ev_kind e == "agent-text") || (ev_kind e == "agent-start") || (ev_kind e == "user"))
                        events) then throw NoHistory
        else
          let transcript := build_recovery_transcript events in
          if trim transcript == "" then throw NoHistory
          else
            mret (mkPrepared from_model transcript
              (estimate_tokens (build_recovery_injection from_model transcript "")) (context_window_for to_model))
  end.

Definition begin_recovery (sid to_model : string) (eff : option (option string)) : H Op RecoveryError unit :=
  prepared ← prepare_recovery sid to_model true;
  if negb (fits prepared) then throw (TooLarge (pr_tokens prepared) (pr_window prepared))
  else
    map_err (λ e, Internal (fail_text e)) (cancel_and_wait providers sid);;
    ignore (call (AppendEvent sid "handover" (switch_data (pr_from prepared) to_model
      [("doc", FStr (Some (pr_transcript prepared))); ("compaction", FBool false); ("recovery", FBool true);
       ("tokens", FNum (pr_tokens prepared))])));;
    updated ← ask_recovery (UpdateRow sid (flip to_model eff (pr_transcript prepared)));
    match updated with Some _ => mret tt | None => throw NotFound end.

(** ** Switching the model *)

Definition turn_in_flight (events : list LogEvent) : bool := recovery_turn_in_flight events.

Definition effective_model (session_model default_model : option string) : string :=
  default "default" (or_else session_model default_model).

(** Errors are the status of the response. *)
Definition maybe_handover_target (sid : string) (requested : option string) : H Op Z (option string) :=
  match requested with
  | None => mret None
  | Some new_model =>
    row ← infallible (call (O := Op) (GetSession sid));
    match row with
    | Ok (Some r) =>
      if is_some (handover_to_model (columns r)) then throw 409
      else
        app_default ← infallible (call (O := Op) DefaultModel);
        if negb (needs_handover (effective_model (Store.s_model (session r)) app_default) new_model) then mret None
        else if Store.s_is_worker (session r) then throw 409
        else
          tail ← infallible (call (O := Op) (EventsTail sid 100));
          let events := match tail with Ok l => l | Err _ => [] end in
          if negb (existsb (λ e, (ev_kind e == "agent-text") || (ev_kind e == "agent-start")) events) then mret None
          else if turn_in_flight events then throw 409
          else mret (Some new_model)
    | _ => mret None
    end
  end.

(** The part of [update_session] of the routes that changes the model and the
    effort; [force] starts the new model cold.  The card of a worker, whose
    model follows a forced switch, is left out. *)
Definition switch_model (sid : string) (model : option (option string)) (eff : option (option string)) (force : bool) :
    H Op Z unit :=
  match check_model (model ≫= id) with
  | Err _ => throw 400
  | Ok _ =>
    let requested := model ≫= id in
    prior ← infallible (call (O := Op) (GetSession sid));
    let prior := match prior with Ok r => r | Err _ => None end in
    if match prior with Some r => sealed r | None => false end && (is_some model || is_some eff) then throw 409
    else
      app_default ← infallible (call (O := Op) DefaultModel);
      let current := effective_model (prior ≫= λ r, Store.s_model (session r)) app_default in
      let force_cold := force && match requested with Some m => needs_handover current m | None => false end in
      target ← (if force_cold then mret None else maybe_handover_target sid requested);
      let model_update := match target with Some _ => None | None => model end in
      let update :=
        mkRowUpdate model_update eff (if force_cold then Some None else None) (if force_cold then Some None else None)
          (if force_cold then Some None else None) (if force_cold then Some None else None) None None in
      row ← (if is_some model_update || is_some eff || force_cold
        then map_err (λ _, 500) (call (O := Op) (UpdateRow sid update))
        else map_err (λ _, 500) (call (O := Op) (GetSession sid)));
      match row with
      | None => throw 404
      | Some row =>
        (match target, prior with
         | None, Some r =>
           let model_changed := is_some requested && (requested != Store.s_model (session r)) in
           let effort_changed := match eff with Some e => e != effort (columns r) | None => false end in
           if model_changed || effort_changed then
             map_err (λ _, 500) (if Store.s_is_worker (session r) || force_cold then cancel providers sid
               else shutdown_after_turn_via_registry providers sid)
           else mret tt
         | _, _ => mret tt
         end);;
        (match target with
         | None => mret tt
         | Some to_model =>
           begun ← outcome (begin_handover sid (default "" (Store.s_model (session row))) to_model false);
           match begun with
           | Ok _ => mret tt
           | Err _ => ignore (call (UpdateRow sid (cold to_model)))
           end
         end);;
        (if force_cold then
          let from_model := default current (prior ≫= λ r, Store.s_model (session r)) in
          let to_model := default "" requested in
          ignore (call (AppendEvent sid "model-switch" (switch_data from_model to_model [("force", FBool true)])));;
          ignore (call (AppendEvent sid "system" (json_object [("text", Some ("Forced model switch from " +:+ from_model +:+
            " to " +:+ to_model +:+ ". The new model starts with no memory of this conversation."))])))
         else mret tt)
      end
  end.
End programs.
End Handover.
