(* ===== verification/ManagerRoutes.v ===== *)
(** * Requests to the session manager

    What ends a turn, the recovery of failed turns
    (src/provider/auth_recovery.rs and resume_recovery.rs), the completion
    listener of src/server.rs, moves and seals of workers, the routes, and
    [handle], the handler of a request. *)

From S2P Require Import Prelude RustStr Json Pipeline Store Programs Turns Resume Manager Watchdog Handover.

Module ManagerRoutes.
Export Watchdog.Watchdog Handover.Handover.

Section programs.
Context `{JsonApi, !MoreJson} (providers : list Provider).
Abbreviation P A := (H Op Fail A).

(** *** The end of a turn *)

(** The messages handed to the turn that it never took. *)
Definition requeue_untaken (sid : string) (untaken : list Payload) : P unit :=
  each (λ m,
    now ← get NowText;
    ignore (call (Enqueue (Store.mkNewQueuedMessage sid (pl_text m) now None None None true)))) untaken.

(** What the task of a turn does after the provider returned [result]; the
    outcome goes to the completion listener. *)
Definition turn_task (p : Provider) (sid : string) (run_id : Z) (result : Result string unit) : P ProcessCompletion :=
  ended ← get (EndTurn sid);
  (if native p then requeue_untaken sid (untaken ended) else mret tt);;
  match ended_terminal ended with
  | Some Completed => mret (mkCompletion sid true None run_id None false)
  | Some (Crashed reason kind) =>
    mret (mkCompletion sid false (if match kind with Interrupted => true | _ => false end then None else Some reason)
      run_id (Some kind) false)
  | None =>
    let reason := match result with
      | Err e => e
      | Ok _ =>
        (if native p then "crate" else "plugin") +:+ " provider returned without emitting Completed or Crashed"
      end in
    get (AppendEvent sid "agent-end" (json_object [("status", Some "crashed"); ("reason", Some reason)]));;
    mret (mkCompletion sid false (Some reason) run_id (Some (classify reason)) false)
  end.

(** [emit_from_plugin] of an event that carries a conversation, of text, and of
    the report that the run lingers. *)
Definition stamp_owner_model (sid : string) : P (option string) :=
  row ← read (GetSession sid); mret (row ≫= λ r, Store.s_model (session r)).

(** Every event that is written counts as activity. *)
Definition touch_session (sid : string) : P unit :=
  now ← get NowText; ignore (call (UpdateRow sid (touch now))).

Definition emit_event (sid kind : string) (cid : option string) : P unit :=
  owner ← (if is_some cid then stamp_owner_model sid else mret None);
  r ← get (AppendEvent sid kind (json_object [("conversationId", cid); ("ownerModel", owner)]));
  match r with
  | Ok _ =>
    touch_session sid;;
    match cid with
    | Some c => ignore (call (UpdateRow sid (set_conversation (Some c))))
    | None => mret tt
    end
  | Err _ => mret tt
  end.

Inductive PluginEvent :=
| EvStarted (cid : option string) | EvText (text : string)
| EvCompleted (cid : option string) (x : Terminal) | EvLinger.

Definition emit_from_plugin (plugin sid : string) (e : PluginEvent) : P unit :=
  ask (NoteTerminal plugin sid (match e with EvCompleted _ x => Some x | _ => None end));;
  match e with
  | EvStarted cid => emit_event sid "agent-start" cid
  | EvText text =>
    r ← get (AppendEvent sid "agent-text" (json_object [("text", Some text)]));
    if is_ok r then touch_session sid else mret tt
  | EvCompleted cid _ => emit_event sid "agent-end" cid
  | EvLinger =>
    r ← get (AppendEvent sid "system" (json_object [("subtype", Some "background-linger")]));
    (if is_ok r then touch_session sid else mret tt);;
    get (StartLinger sid);; mret tt
  end.

(** *** Recovery *)

Definition requeue_turn (sid : string) (turn : DispatchedTurn) : P Store.QueuedMessage :=
  now ← get NowText;
  ask (Enqueue (Store.mkNewQueuedMessage sid (dt_text turn) now (Some (dt_model turn)) (dt_effort turn)
    (ids_column (dt_attachment_ids turn)) true)).

Definition append_marker (sid kind : string) (data : string) : P unit := ignore (call (AppendEvent sid kind data)).

Definition park_turn (sid : string) (turn : DispatchedTurn) : P unit :=
  requeue_turn sid turn;;
  append_marker sid AUTH_PARKED_KIND (json_object [("model", Some (dt_model turn))]).

Definition release_session (sid trigger : string) : P unit :=
  append_marker sid AUTH_RESUMED_KIND (json_object [("trigger", Some trigger)]).

Definition handle_auth_failure (sid : string) : P unit :=
  row ← read (GetSession sid);
  match row with
  | None => mret tt
  | Some r =>
    terminate_after_turn_via_registry providers sid;;
    replay ← get (LastDispatched sid);
    get (Forget sid);;
    if Store.s_is_worker (session r) then mret tt
    else
      match replay with
      | None => mret tt
      | Some turn =>
        parked ← outcome (park_turn sid turn);
        match parked with
        | Err _ => mret tt
        | Ok _ =>
          version ← get (CredentialVersion (dt_model turn));
          free ← get (SpendRetry sid version);
          if free : bool then release_session sid "auto-retry" else mret tt
        end
      end
  end.

Definition auth_handle_completion (c : ProcessCompletion) : P unit :=
  if pc_turn_end_only c then mret tt
  else if pc_kind c != Some AuthExpired then get (Forget (pc_session c))
  else handle_auth_failure (pc_session c).

Definition resume_handle_completion (c : ProcessCompletion) : P unit :=
  if pc_turn_end_only c || (pc_kind c != Some ResumeFailed) then mret tt
  else
    let sid := pc_session c in
    let reason := default "" (pc_error c) in
    row ← read (GetSession sid);
    match row with
    | None => mret tt
    | Some r =>
      updated ← get (UpdateRow sid (set_conversation None));
      match updated with
      | Ok (Some _) =>
        append_marker sid "conversation-reset"
          (json_object [("model", Some (default "" (Store.s_model (session r)))); ("reason", Some reason)]);;
        replay ← get (LastDispatched sid);
        if Store.s_is_worker (session r) then mret tt
        else
          match replay with
          | None => mret tt
          | Some turn =>
            free ← get (SpendReplay sid reason);
            if free : bool then ignore (requeue_turn sid turn) else mret tt
          end
      | _ => mret tt
      end
    end.

(** The completion listener, without what it does for workers, subagents and
    document reviews. *)
Definition on_completion (c : ProcessCompletion) : P unit :=
  if pc_turn_end_only c then ignore (drain_queue_for_session providers (pc_session c))
  else
    consumed ← handover_handle_completion providers c;
    if consumed : bool then mret tt
    else
      (if pc_completed c then ignore (maybe_auto_compact providers (pc_session c)) else mret tt);;
      resume_handle_completion c;;
      auth_handle_completion c;;
      ignore (drain_queue_for_session providers (pc_session c)).

Definition retry_now (sid : string) : P bool :=
  parked ← is_parked sid;
  if parked : bool then
    get (RenewRetry sid);; release_session sid "manual";; ignore (drain_queue_for_session providers sid);; mret true
  else mret false.

(** *** Moving cards *)

Definition cancel_worker_for_card_move (sid : string) : P unit :=
  cancel_and_wait providers sid;; ignore (call (ClearQueued sid)).

Definition seal_worker_session (sid : string) (reason : option string) : P unit :=
  cancel_and_wait providers sid;;
  with_lock sid (ignore (call (SealSession sid reason)));;
  running ← is_running providers sid;
  if running : bool then cancel_and_wait providers sid else mret tt.

(** The MCP tools have no session lock. *)
Definition cancel_stale_worker (sid : string) : P unit :=
  cancel providers sid;; ignore (call (ClearQueued sid)).

Definition seal_restarted_worker (sid : string) (reason : string) : P unit :=
  cancel providers sid;; ignore (call (SealSession sid (Some reason))).

(** *** Routes *)

Inductive Reply := Status (code : Z) | Outcome (o : SendOutcome) | Completes (c : ProcessCompletion) | Message (m : option Payload) | Done.

(** Errors of the routes: the status of the response. *)
Definition http {A} (m : H Op Fail A) : H Op Z A := map_err (λ e, match e with SessionSealed _ => 409 | Failed _ => 500 end) m.

Definition get_500 {A} (o : Op (Result string A)) : H Op Z A := map_err (λ _, 500) (call (O := Op) o).

Definition enqueue_queued_message (sid text : string) (model eff : option string) : H Op Z Reply :=
  match check_model model with
  | Err _ => throw 400
  | Ok _ =>
    now ← infallible (call (O := Op) NowText);
    get_500 (Enqueue (Store.mkNewQueuedMessage sid text now model eff None false));;
    mret (Status 201)
  end.

Definition clear_queued_messages (sid : string) : H Op Z Reply :=
  n ← get_500 (ClearQueued sid);
  if (n =? 0)%nat then throw 404 else mret (Status 204).

Definition delete_queued_message (sid : string) (id : Z) : H Op Z Reply :=
  deleted ← get_500 (DeleteQueued sid id);
  if deleted : bool then mret (Status 204) else throw 404.

Definition force_queued_message (sid : string) (id : Z) : H Op Z Reply :=
  row ← get_500 (GetSession sid);
  match row with
  | None => throw 404
  | Some r =>
    queued ← get_500 (GetQueued sid id);
    match queued with
    | None => throw 404
    | Some q =>
      deleted ← get_500 (DeleteQueued sid id);
      if negb deleted then throw 404
      else
        config ← http (queued_resume_config r (Store.q_model q) (Store.q_effort q));
        forced ← outcome (force_queued providers sid q config);
        match forced with
        | Ok _ => mret (Status 200)
        | Err _ =>
          ignore (call (Enqueue (Store.mkNewQueuedMessage (Store.q_session_id q) (Store.q_text q)
            (Store.q_queued_at q) (Store.q_model q) (Store.q_effort q) (Store.q_attachment_ids q)
            (Store.q_user_event_appended q))));;
          throw 500
        end
    end
  end.

Definition found {A} (sid : string) (m : H Op Z A) : H Op Z A :=
  row ← get_500 (GetSession sid);
  match row with None => throw 404 | Some _ => m end.

Definition cancel_session (sid : string) : H Op Z Reply :=
  found sid (
    http (clear_queued_message sid);;
    http (cancel providers sid);;
    get_500 (AppendEvent sid "agent-end" (json_object [("status", Some "crashed"); ("reason", Some "operator-stop")]));;
    mret (Status 204)).

Definition interrupt_session (sid : string) : H Op Z Reply :=
  found sid (
    http (interrupt providers sid);;
    get_500 (AppendEvent sid "interrupt" (json_object [("reason", Some "user-interrupt")]));;
    mret (Status 204)).

Definition terminate_agent (sid : string) : H Op Z Reply :=
  found sid (
    http (clear_queued_message sid);;
    http (cancel_and_wait providers sid);;
    get_500 (AppendEvent sid "system"
      (json_object [("text", Some "Agent terminated. The next message will start a fresh process.")]));;
    mret (Status 204)).

Definition retry_auth (sid : string) : H Op Z Reply :=
  retried ← http (retry_now sid);
  if retried : bool then mret (Status 204) else throw 409.

Definition compact_session (sid : string) (model : option string) (eff : option (option string)) : H Op Z Reply :=
  map_err (λ _, 409) (begin_compaction providers sid model eff);; mret (Status 202).

Definition recovery_error (e : RecoveryError) : Z :=
  match e with
  | NotFound => 404
  | SameContinuity | NoHistory | TooLarge _ _ => 400
  | Worker | HandoverInFlight | MidTurn => 409
  | Internal _ => 500
  end.

Definition recover_session (sid model : string) (eff : option (option string)) : H Op Z Reply :=
  if trim model == "" then throw 400
  else map_err recovery_error (begin_recovery providers sid (trim model) eff);; mret (Status 200).

(** ** Requests *)

(** What starts a handler: a send of any caller ([send_or_queue]) or one that
    holds the lock already ([Dispatch]), the routes, the tools ([HandOver]: a
    switch with compaction), a worker that is started and the sealing of the one
    before it, the watchdog at one card or one session, the seal of the
    completion listener ([SealHeld]), what a provider calls back, the timer of a
    soft interrupt, and a completion.  A round of the watchdog is a sequence of
    its requests. *)
Inductive Request :=
| Send (sid : string) (m : UserMessage) (c : SpawnConfig) (policy : MidTurnPolicy) (appended : bool)
| Dispatch (sid : string) (m : UserMessage) (c : SpawnConfig)
| DrainQueue (sid : string)
| ForceQueued (sid : string) (id : Z)
| PostQueue (sid text : string) (model eff : option string)
| ClearQueue (sid : string)
| DeleteFromQueue (sid : string) (id : Z)
| CancelSession (sid : string)
| InterruptSession (sid : string)
| TerminateAgent (sid : string)
| RetryAuth (sid : string)
| SwitchModel (sid : string) (model eff : option (option string)) (force : bool)
| Compact (sid : string) (model : option string) (eff : option (option string))
| Recover (sid model : string) (eff : option (option string))
| HandOver (sid from_model to_model : string)
| SpawnWorker (s : WorkerSpawn)
| SealPrevious (card step prev : string)
| SweepRef (card sid : string)
| SweepOrphan (r : Row)
| CardMoved (sid : string)
| SealWorker (sid : string) (reason : option string)
| McpCardMoved (sid : string)
| SealHeld (sid : string) (reason : option string)
| McpSeal (sid reason : string)
| McpReviewed (sid : string)
| FinishWorker (sid : string)
| PluginReturns (p : Provider) (sid : string) (run_id : Z) (result : Result string unit)
| PluginEmits (plugin sid : string) (e : PluginEvent)
| PluginTakes (plugin sid : string)
| GraceOver (sid : string)
| CompletionArrives (c : ProcessCompletion).

Definition reply {A} (f : A → Reply) (m : P A) : Prog Op (Result Z Reply) :=
  prog_bind (λ r, Ret (match r with Ok a => Ok (f a) | Err (SessionSealed _) => Err 409 | Err (Failed _) => Err 500 end)) m.
Definition done {A} (m : P A) : Prog Op (Result Z Reply) := reply (λ _, Done) m.

Definition handle (_ : unit) (q : Request) : Prog Op (Result Z Reply) :=
  match q with
  | Send sid m c policy appended => reply Outcome (send_or_queue providers sid m c policy appended)
  | Dispatch sid m c => done (with_lock sid (send_message_locked providers sid m c))
  | DrainQueue sid => done (drain_queue_for_session providers sid)
  | ForceQueued sid id => force_queued_message sid id
  | PostQueue sid text model eff => enqueue_queued_message sid text model eff
  | ClearQueue sid => clear_queued_messages sid
  | DeleteFromQueue sid id => delete_queued_message sid id
  | CancelSession sid => cancel_session sid
  | InterruptSession sid => interrupt_session sid
  | TerminateAgent sid => terminate_agent sid
  | RetryAuth sid => retry_auth sid
  | SwitchModel sid model eff force => switch_model providers sid model eff force;; mret (Status 200)
  | Compact sid model eff => compact_session sid model eff
  | Recover sid model eff => recover_session sid model eff
  | HandOver sid from_model to_model => done (begin_handover providers sid from_model to_model false)
  | SpawnWorker s => done (claim_and_send providers s)
  | SealPrevious card step prev => done (seal_previous card step prev (seal_worker_session prev None))
  | SweepRef card sid => done (sweep_ref providers card sid)
  | SweepOrphan r => done (sweep_orphan providers r)
  | CardMoved sid => done (cancel_worker_for_card_move sid)
  | SealWorker sid reason => done (seal_worker_session sid reason)
  | McpCardMoved sid => done (cancel_stale_worker sid)
  | SealHeld sid reason => done (with_lock sid (ignore (call (SealSession sid reason))))
  | McpSeal sid reason => done (seal_restarted_worker sid reason)
  | McpReviewed sid => done (ignore (call (SealSession sid (Some "reviewed"))) : P unit)
  | FinishWorker sid => done (finish_after_turn_via_registry providers sid)
  | PluginReturns p sid run_id result => reply Completes (turn_task p sid run_id result)
  | PluginEmits plugin sid e => done (emit_from_plugin plugin sid e)
  | PluginTakes plugin sid => reply Message (ask (TakeMessage plugin sid))
  | GraceOver sid => done (get (RequestStop sid))
  | CompletionArrives c => done (on_completion c)
  end.
End programs.

Abbreviation Event := (Programs.Event Op).
Abbreviation Thread := (Programs.Thread Op Request unit (Result Z Reply)).
Abbreviation World := (Programs.World Op Host Request unit (Result Z Reply)).
Abbreviation Action := (Programs.Action Request unit Fate).
End ManagerRoutes.
