(* ===== verification/ManagerProps.v ===== *)
(** * What a handler of the session manager may do

    [View] summarises the calls a handler has made for its session: whether it
    holds the lock, what it has read since, and what it has handed to a
    provider.  [allow] states for each call when a handler may make it;
    [handle_allowed] proves it of every request. *)

From S2P Require Import Prelude RustStr Json Pipeline Store Programs Turns Resume Manager Watchdog Handover ManagerRoutes.

Module ManagerProps.
Export ManagerRoutes.ManagerRoutes.

(** ** The view of a handler *)

Record View := mkView {
  held : bool;
  (** Since the lock was taken: rows of the session, whether it was found
      missing, event tails, the queue, the texts handed to a provider, the queue rows it tried to delete. *)
  seen : list Row;
  absent : bool;
  tails : list (list LogEvent);
  listed : option (list Store.QueuedMessage);
  offered : list string;
  deleted : list Z;
  (** Ever: the rows whose text was handed over, the deletes that failed,
      whether the session was found sealed or its project not active, and the
      event logs read in full. *)
  handed : list Z;
  failed : list Z;
  stopped : bool;
  logs : list (list LogEvent) }.

Definition view0 : View := mkView false [] false [] None [] [] [] [] false [].

Definition row_ids (rows : option (list Store.QueuedMessage)) : list Z :=
  Store.q_id <$> default [] rows.

Definition offer (text : string) (v : View) : View :=
  mkView (held v) (seen v) (absent v) (tails v) (listed v) (text :: offered v) (deleted v)
    (row_ids (listed v) ++ handed v) (failed v) (stopped v) (logs v).

Definition see_row (r : Row) (v : View) : View :=
  mkView (held v) (r :: seen v) (absent v) (tails v) (listed v) (offered v) (deleted v) (handed v) (failed v)
    (stopped v || sealed r) (logs v).

Definition see_none (v : View) : View :=
  mkView (held v) (seen v) true (tails v) (listed v) (offered v) (deleted v) (handed v) (failed v) (stopped v) (logs v).

Definition upd (v : View) (e : Event) : View :=
  match e with
  | @Ev _ _ o b =>
    match o in Op B return B → View with
    | LockSession _ => λ _, mkView true [] false [] None [] [] (handed v) (failed v) (stopped v) (logs v)
    | TryLock _ => λ b,
      if b : bool then mkView true [] false [] None [] [] (handed v) (failed v) (stopped v) (logs v) else v
    | UnlockSession _ => λ _, mkView false [] false [] None [] [] (handed v) (failed v) (stopped v) (logs v)
    | GetSession _ => λ b, match b with Ok (Some r) => see_row r v | Ok None => see_none v | Err _ => v end
    | GetProject _ => λ b,
      match b with
      | Ok (Some p) =>
        mkView (held v) (seen v) (absent v) (tails v) (listed v) (offered v) (deleted v) (handed v) (failed v)
          (stopped v || (pj_status p != "active")) (logs v)
      | _ => v
      end
    | EventsTail _ _ => λ b,
      match b with
      | Ok l =>
        mkView (held v) (seen v) (absent v) (l :: tails v) (listed v) (offered v) (deleted v) (handed v) (failed v) (stopped v) (logs v)
      | _ => v
      end
    | ListEvents _ => λ b,
      match b with
      | Ok l =>
        mkView (held v) (seen v) (absent v) (tails v) (listed v) (offered v) (deleted v) (handed v) (failed v) (stopped v)
          (l :: logs v)
      | _ => v
      end
    | ListQueued _ => λ b,
      match b with
      | Ok l =>
        mkView (held v) (seen v) (absent v) (tails v) (Some l) (offered v) (deleted v) (handed v) (failed v) (stopped v) (logs v)
      | _ => v
      end
    | QueueInjection _ _ m => λ b, if b : bool then offer (pl_text m) v else v
    | BeginTurn _ _ s => λ b, match b with Ok _ => offer (pl_text (ts_payload s)) v | Err _ => v end
    | DeleteQueued _ id => λ b,
      mkView (held v) (seen v) (absent v) (tails v) (listed v) (offered v) (id :: deleted v) (handed v)
        (match b with Ok _ => failed v | Err _ => id :: failed v end) (stopped v) (logs v)
    | _ => λ _, v
    end b
  end.

(** ** What requests are for *)

Definition target (q : Request) : string :=
  match q with
  | Send s _ _ _ _ | Dispatch s _ _ | DrainQueue s | ForceQueued s _ | PostQueue s _ _ _ | ClearQueue s
  | DeleteFromQueue s _ | CancelSession s | InterruptSession s | TerminateAgent s | RetryAuth s | CardMoved s
  | SwitchModel s _ _ _ | Compact s _ _ | Recover s _ _ | HandOver s _ _
  | SealWorker s _ | McpCardMoved s | SealHeld s _ | McpSeal s _ | McpReviewed s | FinishWorker s
  | SealPrevious _ _ s | SweepRef _ s
  | PluginReturns _ s _ _ | PluginEmits _ s _ | PluginTakes _ s | GraceOver s => s
  | SpawnWorker s => Store.s_id (session (sp_session s))
  | SweepOrphan r => Store.s_id (session r)
  | CompletionArrives c => pc_session c
  end.

(** The requests that deliver the backlog of their session. *)
Definition drains (q : Request) : bool :=
  match q with DrainQueue _ | CompletionArrives _ | RetryAuth _ => true | _ => false end.

(** The requests that throw the backlog away: the user clears the queue or stops
    the session, or the card of a worker is moved, by the user on the board
    ([CardMoved]) or by an agent through an MCP tool ([McpCardMoved]). *)
Definition user_stop (q : Request) : bool :=
  match q with ClearQueue _ | CancelSession _ | TerminateAgent _ => true | _ => false end.
Definition card_move (q : Request) : bool :=
  match q with CardMoved _ | McpCardMoved _ => true | _ => false end.
Definition discards (q : Request) : bool := user_stop q || card_move q.

(** The seals of the MCP tools. *)
Definition mcp (q : Request) : bool :=
  match q with McpSeal _ _ | McpReviewed _ => true | _ => false end.

Definition seals (q : Request) : bool :=
  match q with SealWorker _ _ | SealHeld _ _ | SealPrevious _ _ _ | SweepOrphan _ => true | _ => mcp q end.

(** The requests that delete a session: the watchdog, and a start of a worker
    that lost the card and drops the session it made. *)
Definition deletes (q : Request) : bool :=
  match q with SweepOrphan _ => true | SpawnWorker s => sp_created_now s | _ => false end.

(** The only statement that takes a card from its worker behind its back. *)
Definition clear_of {A : Type@{answer}} (o : BoardOp A) : option (string * string) :=
  match o with ClearWorker card sid => Some (card, sid) | _ => None end.

(** A text in front of which context may have been put. *)
Definition carries (text message : string) : Prop := ∃ pre, text = pre +:+ message.

Section allowed.
Context `{JsonApi, !MoreJson}.

(** Whose conversation a turn resumes: the row of the session holds it and names
    a model with the key of the turn's, or names no model at all, which nothing
    contradicts; or the event tail says that a model of that key wrote it. *)
Definition resumable (v : View) (cid model : string) : Prop :=
  (∃ r, r ∈ seen v ∧ Store.s_conversation_id (session r) = Some cid ∧
     (Store.s_model (session r) = None ∨
      ∃ owner, Store.s_model (session r) = Some owner ∧ continuity_key owner = continuity_key model)) ∨
  (∃ l owner, l ∈ tails v ∧ resume_conversation_id_from_tail l = Some (cid, owner) ∧
     continuity_key owner = continuity_key model).

(** The session was read under the lock, and it had no seal. *)
Definition found_open (v : View) : Prop :=
  held v = true ∧ (absent v = true ∨ ∃ r, r ∈ seen v ∧ sealed r = false).

(** A turn or message is offered under the lock, to a session read unsealed; the
    requests that deliver the backlog offer all of it. *)
Definition may_offer (q : Request) (v : View) (text : string) : Prop :=
  held v = true ∧ (∃ r, r ∈ seen v ∧ sealed r = false) ∧
  (drains q = true → listed v = None ∨ ∃ rows, listed v = Some rows ∧ carries text (merged_text rows)).

(** Why a request may drop the conversation of a session: its provider refused
    to resume it; it was handed over, and the same write stores the text of the
    agent after the last start of a handover in the tail of 500 events (all of it
    when the tail has no start), which is not blank; it was handed over to another
    provider or account while that text was blank or could not be read, and the
    write stores [EMPTY_DOC_FALLBACK]; it was recovered, and the write stores the
    transcript; the user switched the model. *)
Inductive drops (q : Request) (v : View) : RowUpdate → Prop :=
| drop_refused c : q = CompletionArrives c → pc_kind c = Some ResumeFailed → drops q v (set_conversation None)
| drop_handed_over c r to_model tail :
  q = CompletionArrives c → pc_completed c = true → held v = true → r ∈ seen v →
  handover_to_model (columns r) = Some to_model → tail ∈ tails v → trim (extract_doc tail) ≠ "" →
  drops q v (flip to_model None (extract_doc tail))
| drop_undocumented c r to_model :
  q = CompletionArrives c → pc_completed c = true → held v = true → r ∈ seen v →
  handover_to_model (columns r) = Some to_model →
  needs_handover (default "" (Store.s_model (session r))) to_model = true →
  tails v = [] ∨ (∃ tail, tail ∈ tails v ∧ trim (extract_doc tail) = "") →
  drops q v (flip to_model None EMPTY_DOC_FALLBACK)
| drop_recovered s model eff events :
  q = Recover s model eff → events ∈ logs v → trim (build_recovery_transcript events) ≠ "" →
  drops q v (flip (trim model) eff (build_recovery_transcript events))
| drop_switched s model eff force u :
  q = SwitchModel s (Some (Some model)) eff force → ru_model u = Some (Some model) → drops q v u.

Definition allow (q : Request) (v : View) (e : Event) : Prop :=
  match e with
  | @Ev _ _ o b =>
    match o in Op B return B → Prop with
    | LockSession s => λ _, s = target q ∧ held v = false
    | TryLock s => λ _, s = target q ∧ held v = false
    | DeleteSession s => λ _, s = target q ∧ deletes q = true
    | OnBoard o => λ _, ∀ card s, clear_of o = Some (card, s) → q = SweepRef card s ∧ held v = true
    | UnlockSession s => λ _, s = target q ∧ held v = true ∧
      (drains q = true → ∀ id, id ∈ handed v → id ∈ deleted v)
    | GetSession s => λ _, s = target q
    | ListQueued s => λ _, s = target q
    | QueueInjection _ s m => λ _, s = target q ∧ may_offer q v (pl_text m)
    | WriteStdin s _ => λ _, s = target q ∧ found_open v
    | BeginTurn s _ st => λ _, s = target q ∧ may_offer q v (pl_text (ts_payload st)) ∧
      (∀ cid, ts_resume st = Some cid → resumable v cid (ts_model st))
    | DeleteQueued s id => λ _, s = target q ∧
      (q = DeleteFromQueue s id ∨ q = ForceQueued s id ∨
       drains q = true ∧ held v = true ∧ id ∈ handed v)
    | ClearQueued s => λ _, s = target q ∧ (discards q = true ∨ drains q = true ∧ stopped v = true)
    | SealSession s _ => λ _, s = target q ∧ seals q = true ∧
      (mcp q = true ∨ held v = true ∧ seen v = [] ∧ absent v = false)
    | UpdateRow s u => λ _, s = target q ∧ (ru_conversation_id u = Some None → drops q v u)
    | _ => λ _, True
    end b
  end.
End allowed.

(** ** Walking a handler *)

(** Calls that only read, or write what the view does not show. *)
Definition reads (sid : string) (e : Event) : Prop :=
  match e with
  | @Ev _ _ o b =>
    match o in Op B return B → Prop with
    | LockSession _ | TryLock _ | UnlockSession _ | ListQueued _ | QueueInjection _ _ _ | BeginTurn _ _ _
    | WriteStdin _ _ | DeleteSession _ | DeleteQueued _ _ | ClearQueued _ | SealSession _ _ => λ _, False
    | GetSession s => λ _, s = sid
    | UpdateRow s u => λ _, s = sid ∧ ru_conversation_id u ≠ Some None
    | OnBoard o => λ _, clear_of o = None
    | _ => λ _, True
    end b
  end.

#[global] Arguments upd : simpl never.
#[global] Arguments allow : simpl never.
#[global] Arguments reads : simpl never.

Definition reading (sid : string) {A} (R : A → Prop) (m : Prog Op A) : Prop :=
  walk (O := Op) (λ (u : unit) _, u) (λ _ e, reads sid e) (λ _ a, R a) tt m.

(** More was read. *)
Record later (v v' : View) : Prop := {
  later_held : held v' = held v;
  later_seen : seen v ⊆ seen v';
  later_absent : absent v = true → absent v' = true;
  later_tails : tails v ⊆ tails v';
  later_listed : listed v' = listed v;
  later_offered : offered v' = offered v;
  later_deleted : deleted v' = deleted v;
  later_handed : handed v' = handed v;
  later_failed : failed v' = failed v;
  later_stopped : stopped v = true → stopped v' = true;
  later_logs : logs v ⊆ logs v' }.

#[export] Instance later_pre : PreOrder later.
Proof.
  split; [by intros v|]. intros v1 v2 v3 [] []. split; try congruence; set_solver.
Qed.

Lemma later_upd sid v e : reads sid e → later v (upd v e).
Proof.
  destruct e as [B o b]. destruct o; cbn [reads upd]; intros Hr; try done.
  - destruct b as [[r|]|]; try done. split; simpl; try done; [set_solver|]. by intros ->.
  - destruct b as [[r|]|]; try done. split; simpl; try done. by intros ->.
  - destruct b; try done. split; simpl; try done. set_solver.
  - destruct b; try done. split; simpl; try done. set_solver.
Qed.

(** One step along a walk; [use] is tried on what a call needs. *)
Ltac walk_step use :=
  first
  [ progress cbn [walk_err walk lift throw]
  | lazymatch goal with
    | |- reading _ _ _ => unfold reading
    | |- walk _ _ _ _ (@mbind _ h_bind _ _ _ _) => apply walk_h_bind
    | |- walk _ _ _ _ (map_err _ _) => apply walk_map_err
    | |- walk _ _ _ _ (infallible _) => apply walk_infallible
    | |- walk _ _ _ _ (outcome _) => apply walk_outcome
    | |- walk _ _ _ _ (ignore _) => apply walk_ignore
    | |- walk _ _ _ _ (prog_bind _ _) => apply walk_bind
    | |- walk _ _ _ _ (mret _) => unfold mret, h_ret
    | |- walk _ _ _ _ (ask _) => unfold ask
    | |- walk _ _ _ _ (get _) => unfold get
    | |- walk _ _ _ _ (read _) => unfold read
    | |- walk _ _ _ _ (call _) => apply walk_call; intros ?; split; [use|cbn beta]
    | |- walk _ _ _ _ (if ?c then _ else _) => destruct c eqn:?
    | |- walk _ _ _ _ (match ?x with _ => _ end) => destruct x eqn:?
    | |- walk_err _ _ _ _ _ ?r => destruct r eqn:?
    end ].

Lemma reading_use {A} sid (Q : unit → A → Prop) (m : Prog Op A) :
  reading sid (λ _, True) m → (∀ a, Q tt a) →
  walk (O := Op) (λ (u : unit) _, u) (λ _ e, reads sid e) Q tt m.
Proof. intros Hm HQ. eapply walk_mono; [|exact Hm]. intros [] a _. apply HQ. Qed.

Create HintDb reading.

(** A walk over calls and programs that only read. *)
Ltac read_only :=
  repeat first
  [ walk_step ltac:(done)
  | eapply reading_use; [solve [eauto with reading nocore]|intros ?] ];
  auto.

Section reading.
Context `{JsonApi, !MoreJson} (providers : list Provider) (sid : string).
Abbreviation any := (λ _, True).

Lemma reading_each {A} (f : A → H Op Fail unit) l :
  (∀ a, reading sid any (f a)) → reading sid any (each f l).
Proof.
  intros Hf. induction l as [|a l IH]; cbn [each]; [done|].
  unfold reading. apply walk_h_bind. apply reading_use; [apply Hf|]. by intros [].
Qed.

Lemma reading_running_in l : reading sid any (running_provider_in l sid).
Proof. induction l as [|p l IH]; cbn [running_provider_in]; read_only. Qed.
Lemma reading_running : reading sid any (running_provider providers sid).
Proof. apply reading_running_in. Qed.
Hint Resolve reading_running : reading.

Lemma reading_is_running : reading sid any (is_running providers sid).
Proof. unfold is_running. read_only. Qed.
Lemma reading_is_lingering : reading sid any (is_lingering providers sid).
Proof. unfold is_lingering. read_only. Qed.
Lemma reading_supports model : reading sid any (supports_mid_stream_for_session providers sid model).
Proof. unfold supports_mid_stream_for_session. read_only. Qed.
Lemma reading_answers : reading sid any (answers_on_stdin providers sid).
Proof. unfold answers_on_stdin. read_only. Qed.
Lemma reading_ensure : reading sid any (ensure_not_sealed sid).
Proof. unfold ensure_not_sealed. read_only. Qed.
Lemma reading_cancel : reading sid any (cancel providers sid).
Proof. apply reading_each. intros p. read_only. Qed.
Lemma reading_wait : reading sid any (wait_for_termination sid).
Proof. unfold wait_for_termination. read_only. Qed.
Hint Resolve reading_is_running reading_is_lingering reading_supports reading_answers
  reading_ensure reading_cancel reading_wait : reading.

Lemma reading_cancel_and_wait : reading sid any (cancel_and_wait providers sid).
Proof. unfold cancel_and_wait. read_only. Qed.
Lemma reading_interrupt : reading sid any (interrupt providers sid).
Proof. apply reading_each. intros p. read_only. Qed.
Lemma reading_shutdown : reading sid any (shutdown_after_turn_via_registry providers sid).
Proof. apply reading_each. intros p. read_only. Qed.
Lemma reading_finish : reading sid any (finish_after_turn_via_registry providers sid).
Proof. apply reading_each. intros p. read_only. Qed.
Lemma reading_terminate : reading sid any (terminate_after_turn_via_registry providers sid).
Proof. apply reading_each. intros p. read_only. Qed.
Hint Resolve reading_cancel_and_wait reading_interrupt reading_shutdown reading_finish reading_terminate : reading.

Lemma reading_clear_pending used : reading sid any (clear_pending_injections sid used).
Proof. unfold clear_pending_injections. read_only. Qed.
Lemma reading_cleared d used :
  reading sid (λ r, r = Ok tt) (get (Remember sid d);; clear_pending_injections sid used).
Proof. unfold clear_pending_injections. read_only. Qed.
Lemma reading_append_rows rows : reading sid any (each (append_row_event sid) rows).
Proof. apply reading_each. intros r. unfold append_row_event. read_only. Qed.
Lemma reading_load ids : reading sid any (load_attachments sid ids).
Proof. induction ids as [|i ids IH]; cbn [load_attachments]; [done|]. read_only. Qed.
Lemma reading_config r m e : reading sid any (queued_resume_config r m e).
Proof. unfold queued_resume_config. read_only. Qed.
Lemma reading_parked : reading sid any (is_parked sid).
Proof. unfold is_parked. read_only. Qed.
Lemma reading_requeue l : reading sid any (requeue_untaken sid l).
Proof. apply reading_each. intros m. read_only. Qed.
Hint Resolve reading_clear_pending reading_append_rows reading_load reading_config reading_parked
  reading_requeue : reading.

Lemma reading_turn_task p run_id result : reading sid any (turn_task p sid run_id result).
Proof. unfold turn_task. read_only. Qed.
Lemma reading_touch : reading sid any (touch_session sid).
Proof. unfold touch_session. read_only. Qed.
Hint Resolve reading_touch : reading.
Lemma reading_emit kind cid : reading sid any (emit_event sid kind cid).
Proof. unfold emit_event, stamp_owner_model. read_only. Qed.
Hint Resolve reading_turn_task reading_emit : reading.
Lemma reading_plugin plugin e : reading sid any (emit_from_plugin plugin sid e).
Proof. unfold emit_from_plugin. read_only. Qed.
Lemma reading_requeue_turn t : reading sid any (requeue_turn sid t).
Proof. unfold requeue_turn. read_only. Qed.
Lemma reading_marker kind data : reading sid any (append_marker sid kind data).
Proof. unfold append_marker. read_only. Qed.
Hint Resolve reading_plugin reading_requeue_turn reading_marker : reading.
Lemma reading_release trigger : reading sid any (release_session sid trigger).
Proof. unfold release_session. read_only. Qed.
Lemma reading_park t : reading sid any (park_turn sid t).
Proof. unfold park_turn. read_only. Qed.
Hint Resolve reading_release reading_park : reading.
Lemma reading_auth_failure : reading sid any (handle_auth_failure providers sid).
Proof. unfold handle_auth_failure. read_only. Qed.
Hint Resolve reading_auth_failure : reading.
Lemma reading_auth_completion c : pc_session c = sid → reading sid any (auth_handle_completion providers c).
Proof. intros Hs. unfold auth_handle_completion. rewrite Hs. read_only. Qed.

Lemma reading_abort reason : reading sid any (abort_handover sid reason).
Proof. unfold abort_handover. read_only. Qed.
Lemma reading_collect : reading sid any (collect_handover_doc sid).
Proof. unfold collect_handover_doc. read_only. Qed.
Lemma reading_start from to_model : reading sid (λ r, r = Ok tt) (append_handover_start sid from to_model).
Proof. unfold append_handover_start. read_only. Qed.
Lemma reading_card_resumes r : reading sid any (card_resumes_session r).
Proof. unfold card_resumes_session. read_only. Qed.
Lemma reading_tokens : reading sid any (context_tokens sid).
Proof. unfold context_tokens. read_only. Qed.
Lemma reading_handover_target requested :
  reading sid (λ r, ∀ t, r = Ok (Some t) → requested = Some t) (maybe_handover_target sid requested).
Proof. unfold maybe_handover_target. read_only; congruence. Qed.

Lemma reading_board {A : Type@{answer}} (o : BoardOp A) : clear_of o = None → reading sid any (board o).
Proof. intros Ho. unfold board. unfold reading. by apply walk_ignore, walk_call. Qed.
Lemma reading_release_claim card : reading sid any (release_claim card).
Proof. by apply reading_board. Qed.
Hint Resolve reading_release_claim : reading.
Lemma reading_block card e : reading sid any (maybe_block_card_after_crash card e).
Proof. unfold maybe_block_card_after_crash. read_only. apply reading_use; [by apply reading_board|done]. Qed.
Hint Resolve reading_block : reading.
Lemma reading_dispatch_failed card s e : reading sid any (dispatch_failed card s e).
Proof. unfold dispatch_failed, board. read_only. Qed.

(** *** Injected context stays in front of the message *)

Lemma carries_refl x : carries x x.
Proof. by exists "". Qed.

Lemma append_assoc (a b c : string) : (a +:+ b) +:+ c = a +:+ (b +:+ c).
Proof. induction a as [|x a IH]; [done|]. exact (f_equal (String x) IH). Qed.

Lemma carries_app p x y : carries x y → carries (p +:+ x) y.
Proof. intros [pre ->]. exists (p +:+ pre). symmetry. apply append_assoc. Qed.

Lemma carries_trans x y z : carries x y → carries y z → carries x z.
Proof. intros [p ->] [p' ->]. apply carries_app. by exists p'. Qed.

Ltac carry := repeat first [apply carries_refl | apply carries_app].

Lemma carries_injection from doc text : carries (build_injection from doc text) text.
Proof. unfold build_injection. carry. Qed.
Lemma carries_compaction doc text : carries (build_compaction_injection doc text) text.
Proof. unfold build_compaction_injection. carry. Qed.
Lemma carries_recovery from doc text : carries (build_recovery_injection from doc text) text.
Proof. unfold build_recovery_injection. carry. Qed.
Lemma carries_plan p text : carries (build_plan_review_injection p text) text.
Proof. unfold build_plan_review_injection. carry. Qed.
Lemma carries_review r m c text : carries (build_doc_review_injection r m c text) text.
Proof. unfold build_doc_review_injection. carry. Qed.

Definition peeked {A} (text : string) (r : Result Fail (string * A)) : Prop :=
  ∀ x, r = Ok x → carries x.1 text.

Lemma reading_peek_handover text r : reading sid (peeked text) (peek_handover_doc sid text r).
Proof.
  unfold peek_handover_doc, latest_handover_meta, peeked. read_only; intros x [= <-]; simpl;
    auto using carries_refl, carries_injection, carries_compaction, carries_recovery.
  repeat case_match; auto using carries_injection, carries_compaction, carries_recovery.
Qed.

Lemma reading_peek_plan text r : reading sid (peeked text) (peek_plan_review sid text r).
Proof.
  unfold peek_plan_review, peeked. read_only; intros x [= <-]; simpl; auto using carries_refl, carries_plan.
  case_match; auto using carries_refl, carries_plan.
Qed.

Lemma reading_peek_review text r : reading sid (peeked text) (peek_doc_review text r).
Proof.
  unfold peek_doc_review, peeked. read_only; intros x [= <-]; simpl; auto using carries_refl, carries_review.
  repeat case_match; auto using carries_refl, carries_review.
Qed.

Lemma reading_bind {A C} (R : Result Fail A → Prop) (S : Result Fail C → Prop) (f : A → H Op Fail C) (m : H Op Fail A) :
  reading sid R m → (∀ a, R (Ok a) → reading sid S (f a)) → (∀ e, R (Err e) → S (Err e)) → reading sid S (m ≫= f).
Proof.
  intros Hm Hf He. unfold reading. apply walk_h_bind. eapply walk_mono; [|exact Hm].
  intros [] [a|e]; [apply Hf|apply He].
Qed.

Lemma reading_peek text : reading sid (peeked text) (peek_pending_injection sid text).
Proof.
  unfold peek_pending_injection. apply (reading_bind any); [read_only| |by intros e _ x].
  intros [[r|]|] _; [|read_only; intros x [= <-]; apply carries_refl..].
  eapply reading_bind; [apply reading_peek_handover| |by intros e _ x].
  intros [out h] H1'; specialize (H1' _ eq_refl); simpl in H1'.
  eapply reading_bind; [apply reading_peek_plan| |by intros e _ x].
  intros [out' p] H2'; specialize (H2' _ eq_refl); simpl in H2'.
  eapply reading_bind; [apply reading_peek_review| |by intros e _ x].
  intros [out'' d] H3'; specialize (H3' _ eq_refl); simpl in H3'.
  unfold reading. read_only. intros x [= <-]. simpl. eauto using carries_trans.
Qed.
End reading.
#[export] Hint Resolve reading_running reading_is_running reading_is_lingering reading_supports reading_answers
  reading_ensure reading_cancel reading_wait reading_cancel_and_wait reading_interrupt
  reading_shutdown reading_abort reading_collect reading_card_resumes reading_tokens
  reading_finish reading_terminate reading_clear_pending reading_append_rows reading_load reading_config
  reading_parked reading_requeue reading_turn_task reading_emit reading_plugin reading_requeue_turn
  reading_marker reading_release reading_park reading_auth_failure reading_auth_completion
  reading_release_claim reading_dispatch_failed : reading.

Section walks.
Context `{JsonApi, !MoreJson} (providers : list Provider) (q : Request).
Abbreviation walk_q := (walk (O := Op) upd (allow q)).

Lemma allow_reads v e : reads (target q) e → allow q v e.
Proof.
  destruct e as [B o b]. destruct o; try done.
  - intros [-> Hne]. split; [done|]. by intros.
  - intros Ho card s. cbn [reads] in Ho. by rewrite Ho.
Qed.

(** A program that only reads goes on from a later view. *)
Lemma walk_reading {A} (R : A → Prop) (Q : View → A → Prop) v (m : Prog Op A) :
  reading (target q) R m → (∀ v' a, later v v' → R a → Q v' a) → walk_q Q v m.
Proof.
  unfold reading. revert v. induction m as [a|B o k IH]; intros v Hr HQ; cbn [walk] in *; [by apply HQ|].
  intros b. destruct (Hr b) as [Ho Hk]. split; [by apply allow_reads|].
  apply IH; [done|]. intros v' a Hl. apply HQ. etrans; [by eapply later_upd|done].
Qed.

Lemma walk_ask {A} (Q : View → Result Fail A → Prop) v (o : Op (Result string A)) :
  (∀ b, allow q v (Ev (O := Op) o b) ∧
     Q (upd v (Ev (O := Op) o b)) (match b with Ok a => Ok a | Err e => Err (Failed e) end)) →
  walk_q Q v (ask o).
Proof. intros Ho. unfold ask. by apply walk_map_err, walk_call. Qed.

Lemma walk_get {A} (Q : View → Result Fail A → Prop) v (o : Op A) :
  (∀ b, allow q v (Ev (O := Op) o b) ∧ Q (upd v (Ev (O := Op) o b)) (Ok b)) → walk_q Q v (get o).
Proof. intros Ho. unfold get. by apply walk_infallible, walk_call. Qed.

(** *** Dispatch *)

(** The message was refused, or handed over. *)
Definition sent (v v' : View) (r : Result Fail unit) : Prop :=
  match r with
  | Err _ => later v v'
  | Ok _ => ∃ text v1, later v v1 ∧ later (offer text v1) v'
  end.

Lemma sent_later v0 v v' r : later v0 v → sent v v' r → sent v0 v' r.
Proof.
  intros Hl. destruct r as [a|e]; simpl; [|by etrans].
  intros (text & v1 & H1' & H2'). exists text, v1. split; [by etrans|done].
Qed.

Lemma may_offer_later v v' text : later v v' → may_offer q v text → may_offer q v' text.
Proof.
  intros Hl (Hh & (r & Hr & Hs) & Hd). split; [by rewrite (later_held _ _ Hl)|]. split.
  - exists r. split; [by apply (later_seen _ _ Hl)|done].
  - intros Hq. rewrite (later_listed _ _ Hl). by apply Hd.
Qed.

Lemma resumable_later v v' cid model : later v v' → resumable v cid model → resumable v' cid model.
Proof.
  intros Hl [(r & Hr & Hx)|(l & o & Ht & Hx)]; [left; exists r|right; exists l, o]; (split; [|done]).
  - by apply (later_seen _ _ Hl).
  - by apply (later_tails _ _ Hl).
Qed.

Lemma for_model_key id owner model cid :
  for_model id owner model = Some cid → cid = id ∧ continuity_key owner = continuity_key model.
Proof.
  unfold for_model. destruct (bool_decide_reflect (trim id = "")); [done|].
  destruct (bool_decide_reflect (continuity_key owner = continuity_key model)); simpl; [|done].
  by intros [= <-].
Qed.

Lemma walk_resume v r model :
  r ∈ seen v →
  walk_q (λ v' res, later v v' ∧ ∃ o, res = Ok o ∧ ∀ cid, o = Some cid → resumable v' cid model) v
    (resolve_resume_handle (target q) r model).
Proof.
  intros Hr. unfold resolve_resume_handle. destruct (Store.s_conversation_id (session r)) as [c|] eqn:Ec.
  - cbn. split; [done|]. eexists. split; [done|]. intros cid [-> Hk]%for_model_key. left.
    exists r. split; [done|]. split; [done|]. destruct (Store.s_model (session r)) as [o|]; [right; by exists o|by left].
  - apply walk_h_bind, walk_get. intros b. split; [done|].
    cbn. split; [by apply (later_upd (target q))|]. eexists. split; [done|]. intros cid.
    destruct b as [l|e]; [|done]. destruct (resume_conversation_id_from_tail l) as [[c o]|] eqn:El; [|done].
    cbn. intros [-> Hk]%for_model_key. right. exists l, o. split; [by left|done].
Qed.

Lemma walk_provider_send p v message model resume run_id :
  may_offer q v (m_text message) → (∀ cid, resume = Some cid → resumable v cid model) →
  walk_q (sent v) v (provider_send p (target q) message model resume run_id).
Proof.
  intros Hm Hres. unfold provider_send. apply walk_h_bind.
  assert (∀ v', later v v' → walk_q (sent v) v'
    (row ← ask (GetSession (target q));
     match row with
     | None => throw (Failed ("session not found: " +:+ target q))
     | Some _ => ask (BeginTurn (target q) (owner_plugin p) (mkStart (message_payload message) resume model run_id))
     end)) as Hbegin.
  { intros v' Hl. apply walk_h_bind, walk_ask. intros b. split; [done|].
    assert (later v (upd v' (Ev (O := Op) (GetSession (target q)) b))) as Hl'
      by (etrans; [done|by apply (later_upd (target q))]).
    destruct b as [[r|]|e]; cbn [walk_err]; [|by cbn..].
    apply walk_ask. intros b. split.
    - split; [done|]. split; [by eapply may_offer_later|]. intros cid Hc. eapply resumable_later; eauto.
    - destruct b as [[]|e]; [|done]. eexists _, _. split; [exact Hl'|done]. }
  destruct (mid_stream p).
  - apply walk_get. intros b. split; [done|].
    destruct b; cbn [walk_err]; [|by apply Hbegin]. cbn. by eexists _, v.
  - cbn [walk]. by apply Hbegin.
Qed.

Lemma walk_send_message v message config :
  held v = true →
  (drains q = true → listed v = None ∨
    ∃ rows, listed v = Some rows ∧ carries (m_text message) (merged_text rows)) →
  walk_q (sent v) v (send_message_locked providers (target q) message config).
Proof.
  intros Hh Hd. unfold send_message_locked. apply walk_h_bind, walk_ask. intros b. split; [done|].
  assert (later v (upd v (Ev (O := Op) (GetSession (target q)) b))) as Hl by (by apply (later_upd (target q))).
  destruct b as [[r|]|e]; cbn [walk_err]; [|by cbn..].
  destruct (sealed r) eqn:Es; [by cbn|]. pose proof (list_elem_of_here r (seen v)) as Hr.
  change (r :: seen v) with (seen (upd v (Ev (O := Op) (GetSession (target q)) (Ok (Some r))))) in Hr.
  revert Hl Hr. generalize (upd v (Ev (O := Op) (GetSession (target q)) (Ok (Some r)))). intros v1 Hl Hr.
  apply walk_h_bind.
  eapply (walk_reading (peeked (m_text message))).
  { destruct (_ || _); [apply reading_peek|]. intros x [= <-]. apply carries_refl. }
  intros v2 res Hl2 Hp. destruct res as [[text used]|e]; cbn [walk_err]; [|by cbn; etrans].
  specialize (Hp _ eq_refl). cbn in Hp.
  assert (later v v2) as Hv2 by (by etrans). apply (later_seen _ _ Hl2) in Hr.
  apply walk_h_bind. apply (walk_reading (λ _, True)); [read_only|]. intros v3 res Hl3 _.
  destruct res as [[f|]|e]; cbn [walk_err]; [|cbn; by etrans..].
  assert (later v v3) as Hv3 by (by etrans). apply (later_seen _ _ Hl3) in Hr.
  apply walk_h_bind. apply (walk_reading (λ _, True)); [destruct (is_auto_model _); read_only|]. intros v4 res Hl4 _.
  destruct res as [model|e]; cbn [walk_err]; [|cbn; by etrans].
  assert (later v v4) as Hv4 by (by etrans). apply (later_seen _ _ Hl4) in Hr.
  apply walk_h_bind. eapply walk_mono; [|by apply walk_resume]. intros v5 res (Hl5 & o & -> & Ho). cbn [walk_err].
  assert (later v v5) as Hv5 by (by etrans). apply (later_seen _ _ Hl5) in Hr.
  destruct (get_provider _ _) as [p|]; [|by cbn].
  apply walk_h_bind. apply (walk_reading (λ _, True)); [read_only|]. intros v6 res Hl6 _.
  destruct res as [run_id|e]; cbn [walk_err]; [|cbn; by etrans].
  assert (later v v6) as Hv6 by (by etrans). apply (later_seen _ _ Hl6) in Hr.
  apply walk_h_bind. eapply walk_mono; [|apply walk_provider_send].
  - intros v7 [[]|e] Hs; cbn [walk_err]; [|by eapply (sent_later _ _ _ (Err e))].
    destruct Hs as (t & v8 & H8 & H9).
    apply (walk_reading (λ r, r = Ok tt)); [apply reading_cleared|]. intros v9 res Hl9 ->.
    exists t, v8. split; by etrans.
  - split; [by rewrite (later_held _ _ Hv6)|]. split; [by exists r|]. intros Hq.
    rewrite (later_listed _ _ Hv6). destruct (Hd Hq) as [?|(rows & Hrows & Hc)]; [by left|right; exists rows].
    split; [done|]. by eapply carries_trans.
  - intros cid Hc. eapply resumable_later; [exact Hl6|]. by apply Ho.
Qed.

(** *** Under the lock *)

Definition lock_view (v : View) : View := upd v (Ev (O := Op) (LockSession (target q)) tt).
Definition unlock_view (v : View) : View := upd v (Ev (O := Op) (UnlockSession (target q)) tt).

Definition may_unlock (v : View) : Prop :=
  held v = true ∧ (drains q = true → ∀ id, id ∈ handed v → id ∈ deleted v).

Lemma walk_with_lock {A} (Q : View → Result Fail A → Prop) v (m : H Op Fail A) :
  held v = false →
  walk_q (λ v' r, may_unlock v' ∧ Q (unlock_view v') r) (lock_view v) m →
  walk_q Q v (with_lock (target q) m).
Proof.
  intros Hh Hm. unfold with_lock. apply walk_bind, walk_call. intros []. split; [done|].
  apply walk_bind. eapply walk_mono; [|exact Hm]. intros v' r [[Hh' Hd] HQ].
  apply walk_bind, walk_call. intros []. split; [done|]. exact HQ.
Qed.

Lemma may_unlock_later v v' : later v v' → may_unlock v → may_unlock v'.
Proof. intros Hl [Hh Hd]. split; rewrite ?(later_held _ _ Hl), ?(later_handed _ _ Hl), ?(later_deleted _ _ Hl); done. Qed.

(** Nothing handed over yet. *)
Definition idle (v : View) : Prop := held v = true ∧ handed v = [].

Lemma idle_later v v' : later v v' → idle v → idle v'.
Proof. intros Hl [Hh Hn]. split; [by rewrite (later_held _ _ Hl)|by rewrite (later_handed _ _ Hl)]. Qed.

Lemma idle_unlock v : idle v → may_unlock v.
Proof. intros [Hh Hn]. split; [done|]. rewrite Hn. intros _ id Hid. by apply elem_of_nil in Hid. Qed.

Lemma idle_lock v : handed v = [] → idle (lock_view v).
Proof. by intros. Qed.

(** A request that does not deliver the backlog may unlock at any time. *)
Lemma sent_unlock v v' r : drains q = false → held v = true → sent v v' r → may_unlock v'.
Proof.
  intros Hd Hh Hs. split; [|by rewrite Hd]. destruct r as [[]|e]; simpl in Hs.
  - destruct Hs as (t & v1 & H1' & H2'). rewrite (later_held _ _ H2'). simpl. by rewrite (later_held _ _ H1').
  - by rewrite (later_held _ _ Hs).
Qed.

Lemma walk_deliver v rows config :
  held v = true → (drains q = true → listed v = Some rows) →
  walk_q (sent v) v (deliver_queued_rows providers (target q) rows config).
Proof.
  intros Hh Hd. unfold deliver_queued_rows. apply walk_h_bind.
  apply (walk_reading (λ _, True)); [apply reading_append_rows|]. intros v1 res Hl1 _.
  destruct res as [[]|e]; cbn [walk_err]; [|done].
  apply walk_h_bind. apply (walk_reading (λ _, True)); [apply reading_load|]. intros v2 res Hl2 _.
  assert (later v v2) as Hl by (by etrans).
  destruct res as [atts|e]; cbn [walk_err]; [|done].
  eapply walk_mono; [intros v' r; exact (sent_later _ _ _ _ Hl)|].
  apply walk_send_message; [by rewrite (later_held _ _ Hl)|]. intros Hq. right. exists rows.
  rewrite (later_listed _ _ Hl). split; [auto|apply carries_refl].
Qed.

Lemma walk_deletes rows v :
  drains q = true → held v = true → (∀ r, r ∈ rows → Store.q_id r ∈ handed v) →
  walk_q (λ v' r, r = Ok tt ∧ held v' = true ∧ handed v' = handed v ∧
      ∀ id, id ∈ deleted v ∨ id ∈ Store.q_id <$> rows → id ∈ deleted v') v
    (each (λ m, ignore (call (DeleteQueued (target q) (Store.q_id m)))) rows : H Op Fail unit).
Proof.
  intros Hd. revert v. induction rows as [|m rows IH]; intros v Hh Hin; cbn [each].
  - cbn. split; [done|]. split; [done|]. split; [done|]. intros id [?|Hn]; [done|by apply elem_of_nil in Hn].
  - apply walk_h_bind, walk_ignore, walk_call. intros b. split.
    + split; [done|]. right. right. split; [done|]. split; [done|]. apply Hin. by left.
    + cbn beta. cbn [walk_err]. eapply walk_mono; [|apply IH; [done|]].
      * intros v' r (-> & Hh' & Hn & Hdel). split; [done|]. split; [done|]. split; [done|].
        intros id Hid. apply Hdel. destruct Hid as [Hid|[->|Hid]%elem_of_cons]; [|left; by left|by right].
        left. by right.
      * intros r Hr. apply Hin. by right.
Qed.

Lemma walk_drain_queued v config :
  drains q = true → held v = false → handed v = [] →
  walk_q (λ _ _, True) v (drain_queued providers (target q) config).
Proof.
  intros Hd Hh Hn. unfold drain_queued. apply walk_with_lock; [done|].
  pose proof (idle_lock v Hn) as Hi. revert Hi. generalize (lock_view v). clear v Hh Hn. intros v Hi.
  apply walk_h_bind, walk_get. intros row. split; [done|]. cbn [walk_err].
  assert (later v (upd v (Ev (O := Op) (GetSession (target q)) row))) as Hl by (by apply (later_upd (target q))).
  destruct (match row with Ok (Some r) => sealed r | _ => false end) eqn:Es.
  - apply walk_h_bind, walk_ignore, walk_call. intros b. split.
    + split; [done|]. right. split; [done|]. destruct row as [[r|]|]; try done.
      change (stopped v || sealed r = true). rewrite Es. apply orb_true_r.
    + cbn. split; [|done]. by eapply idle_unlock, idle_later.
  - apply (idle_later _ _ Hl) in Hi. revert Hi. generalize (upd v (Ev (O := Op) (GetSession (target q)) row)).
    clear v Hl row Es. intros v Hi.
    apply walk_h_bind, (walk_reading (λ _, True)); [eauto with reading|]. intros v1 res Hl1 _.
    destruct res as [running|e]; cbn [walk_err]; [|by split; [eapply idle_unlock, idle_later|]].
    apply walk_h_bind, (walk_reading (λ _, True)); [read_only; eauto with reading|]. intros v2 res Hl2 _.
    assert (idle v2) as Hi2 by (eapply idle_later, idle_later; eauto).
    destruct res as [lingering|e]; cbn [walk_err]; [|by split; [apply idle_unlock|]].
    destruct (running && negb lingering); [by cbn; split; [apply idle_unlock|]|].
    apply walk_h_bind, walk_ask. intros l. split; [done|].
    destruct l as [[|m rows]|e]; [by cbn; split; [apply idle_unlock|]| |by cbn; split; [apply idle_unlock|]].
    cbn [walk_err]. apply walk_h_bind. eapply walk_mono; [|apply walk_deliver; [apply Hi2|done]].
    intros v3 [[]|e] Hs; cbn [walk_err].
    + destruct Hs as (t & v4 & H4 & H3).
      assert (held v3 = true) as Hh3.
      { rewrite (later_held _ _ H3). cbn. rewrite (later_held _ _ H4). apply Hi2. }
      assert (handed v3 = Store.q_id <$> m :: rows) as Hn3.
      { rewrite (later_handed _ _ H3). cbn. rewrite (later_listed _ _ H4), (later_handed _ _ H4).
        destruct Hi2 as [_ Hn2]. unfold upd. cbn. by rewrite Hn2, app_nil_r. }
      apply walk_h_bind. eapply walk_mono; [|apply walk_deletes; [done|done|]].
      * intros v5 r (-> & Hh5 & Hn5 & Hdel). cbn. split; [|done]. split; [done|]. intros _ id.
        rewrite Hn5, Hn3. intros Hid. apply Hdel. by right.
      * intros r Hr. rewrite Hn3. by apply list_elem_of_fmap_2.
    + split; [|done]. eapply idle_unlock, idle_later; [exact Hs|done].
Qed.

Lemma found_open_later v v' : later v v' → found_open v → found_open v'.
Proof.
  intros Hl [Hh Ho]. split; [by rewrite (later_held _ _ Hl)|].
  destruct Ho as [Ha|(r & Hr & Hs)]; [left; by apply (later_absent _ _ Hl)|right].
  exists r. split; [by apply (later_seen _ _ Hl)|done].
Qed.

(** The next statement only reads. *)
Ltac read_locked v Hu :=
  apply walk_h_bind, (walk_reading (λ _, True)); [read_only; eauto with reading|];
  let v' := fresh "v" in let res := fresh "res" in let Hl := fresh "Hl" in
  intros v' res Hl _; apply (may_unlock_later _ _ Hl) in Hu; clear Hl;
  destruct res; cbn [walk_err]; [clear dependent v; rename v' into v|done].

Ltac read_open v Hu Ho :=
  apply walk_h_bind, (walk_reading (λ _, True)); [read_only; eauto with reading|];
  let v' := fresh "v" in let res := fresh "res" in let Hl := fresh "Hl" in
  intros v' res Hl _; apply (may_unlock_later _ _ Hl) in Hu; apply (found_open_later _ _ Hl) in Ho; clear Hl;
  destruct res; cbn [walk_err]; [clear dependent v; rename v' into v|done].

Abbreviation trivially := (λ (_ : View) _, True).

(** *** The handlers *)

Lemma walk_project_stopped v r :
  walk_q (λ v' res, later v v' ∧ (res = Ok true → stopped v' = true)) v (project_stopped r).
Proof.
  unfold project_stopped.
  destruct (Store.s_is_worker (session r)), (Store.s_project_id (session r)) as [p|]; [|by cbn..].
  apply walk_h_bind, walk_h_bind, walk_get. intros b. split; [done|]. cbn.
  split; [by apply (later_upd (target q))|]. destruct b as [[p'|]|e]; [|done..].
  intros [= Hs]. unfold upd. cbn. rewrite Hs. apply orb_true_r.
Qed.

Lemma walk_drain_queue v :
  drains q = true → held v = false → handed v = [] →
  walk_q trivially v (drain_queue_for_session providers (target q)).
Proof.
  intros Hd Hh Hn. unfold drain_queue_for_session. apply walk_h_bind, walk_ask. intros row. split; [done|].
  assert (later v (upd v (Ev (O := Op) (GetSession (target q)) row))) as Hl by (by apply (later_upd (target q))).
  destruct row as [[r|]|e]; [|by cbn..]. cbn [walk_err]. apply walk_h_bind.
  eapply walk_mono; [|apply walk_project_stopped]. intros v1 res [Hl1 Hs].
  assert (later v v1) as Hv1 by (by etrans). destruct res as [[]|e]; cbn [walk_err]; [| |done].
  { apply walk_ignore, walk_call. intros b. split; [|done]. split; [done|]. right. split; [done|]. by apply Hs. }
  apply walk_h_bind, (walk_reading (λ _, True)); [eauto with reading|]. intros v2 res Hl2 _.
  assert (later v v2) as Hv2 by (by etrans). destruct res as [[]|e]; cbn [walk_err]; [by cbn| |done].
  apply walk_h_bind, walk_get. intros rows. split; [done|]. cbn [walk_err].
  apply walk_h_bind, (walk_reading (λ _, True)); [eauto with reading|]. intros v3 res Hl3 _.
  destruct res as [config|e]; cbn [walk_err]; [|done].
  apply walk_h_bind. eapply walk_mono; [|apply walk_drain_queued; [done|..]].
  - intros v4 [b|e] _; by cbn.
  - rewrite (later_held _ _ Hl3). rewrite <-(later_held _ _ Hv2) in Hh. by destruct rows.
  - rewrite (later_handed _ _ Hl3). rewrite <-(later_handed _ _ Hv2) in Hn. by destruct rows.
Qed.

Lemma walk_ensure v :
  held v = true →
  walk_q (λ v' r, later v v' ∧ (r = Ok tt → found_open v')) v (ensure_not_sealed (target q)).
Proof.
  intros Hh. unfold ensure_not_sealed. apply walk_h_bind, walk_ask. intros b. split; [done|].
  assert (later v (upd v (Ev (O := Op) (GetSession (target q)) b))) as Hl by (by apply (later_upd (target q))).
  destruct b as [[r|]|e]; cbn [walk_err]; [destruct (sealed r) eqn:Es| |]; cbn; split; try done; intros _; (split; [done|]).
  - right. exists r. split; [by left|done].
  - by left.
Qed.

Lemma walk_write_stdin v text :
  found_open v → walk_q (λ v' _, v' = v) v (write_stdin providers (target q) text).
Proof.
  intros Ho. unfold write_stdin. induction providers as [|p l IH]; cbn [write_stdin_in]; [done|].
  apply walk_h_bind, walk_get. intros b. split; [done|]. cbn [walk_err]. by destruct b.
Qed.

Lemma walk_send_or_queue v message config policy appended :
  drains q = false → held v = false →
  walk_q trivially v (send_or_queue providers (target q) message config policy appended).
Proof.
  intros Hd Hh. unfold send_or_queue. apply walk_with_lock; [done|].
  assert (may_unlock (lock_view v)) as Hu by (split; [done|by rewrite Hd]).
  revert Hu. generalize (lock_view v). clear v Hh. intros v Hu.
  apply walk_h_bind. eapply walk_mono; [|apply walk_ensure, Hu]. intros v1 res [Hl Ho].
  apply (may_unlock_later _ _ Hl) in Hu. destruct res as [[]|e]; cbn [walk_err]; [|done].
  specialize (Ho eq_refl). clear v Hl. rename v1 into v. do 4 read_open v Hu Ho.
  apply walk_h_bind. eapply walk_mono; [|instantiate (1 := λ v' _, v' = v); destruct a2; [by apply walk_write_stdin|done]].
  intros v' res ->. destruct res as [a3|e]; cbn [walk_err]; [|done].
  destruct a3; [by cbn|]. destruct (_ && _ && _).
  - apply (walk_reading (λ _, True)); [read_only|]. intros v' res Hl _. split; [by eapply may_unlock_later|done].
  - apply walk_h_bind. destruct Hu as [Hh _]. eapply walk_mono; [|apply walk_send_message; [done|by rewrite Hd]].
    intros v' [[]|e] Hs; cbn; (split; [|done]); by eapply sent_unlock.
Qed.

Lemma walk_force_queued v m config :
  drains q = false → held v = false → walk_q trivially v (force_queued providers (target q) m config).
Proof.
  intros Hd Hh. unfold force_queued. apply walk_with_lock; [done|].
  assert (may_unlock (lock_view v)) as Hu by (split; [done|by rewrite Hd]).
  revert Hu. generalize (lock_view v). clear v Hh. intros v Hu. do 3 read_locked v Hu.
  destruct Hu as [Hh _]. eapply walk_mono; [|apply walk_deliver; [done|by rewrite Hd]].
  intros v' r Hs. split; [by eapply sent_unlock|done].
Qed.

Lemma walk_force v id :
  q = ForceQueued (target q) id → held v = false →
  walk_q trivially v (force_queued_message providers (target q) id).
Proof.
  intros Hq Hh. unfold force_queued_message. apply walk_h_bind, walk_map_err, walk_call. intros row. split; [done|].
  assert (later v (upd v (Ev (O := Op) (GetSession (target q)) row))) as Hl by (by apply (later_upd (target q))).
  destruct row as [[r|]|e]; [|by cbn..]. cbn beta. cbn [walk_err].
  apply walk_h_bind, (walk_reading (λ _, True)); [unfold get_500; read_only|]. intros v1 res Hl1 _.
  destruct res as [[m|]|e]; [|by cbn..]. cbn [walk_err].
  apply walk_h_bind, walk_map_err, walk_call. intros b. split; [by split; [|right; left]|].
  destruct b as [[]|e]; [|by cbn..]. cbn beta. cbn [walk_err negb].
  assert (held (upd v1 (Ev (O := Op) (DeleteQueued (target q) id) (Ok true))) = false) as Hh1.
  { change (held v1 = false). by rewrite (later_held _ _ Hl1), (later_held _ _ Hl). }
  revert Hh1. generalize (upd v1 (Ev (O := Op) (DeleteQueued (target q) id) (Ok true))). clear v v1 Hh Hl Hl1.
  intros v Hh. apply walk_h_bind, (walk_reading (λ _, True)); [unfold http; read_only|]. intros v1 res Hl _.
  destruct res as [config|e]; [|done]. cbn [walk_err]. apply walk_h_bind, walk_outcome.
  eapply walk_mono; [|apply walk_force_queued; [by rewrite Hq|by rewrite (later_held _ _ Hl)]].
  intros v2 [[]|e] _; (apply (walk_reading (λ _, True)); [read_only|done]).
Qed.

(** *** Handovers *)

Definition quiet (v : View) : Prop := held v = false ∧ handed v = [].

Lemma quiet_later v v' : later v v' → quiet v → quiet v'.
Proof. intros Hl [Hh Hn]. split; [by rewrite (later_held _ _ Hl)|by rewrite (later_handed _ _ Hl)]. Qed.

Lemma idle_quiet v : idle v → quiet (unlock_view v).
Proof. by intros [_ Hn]. Qed.

(** The lock is held, and neither the queue was read nor a row handed over. *)
Definition fresh (v : View) : Prop := idle v ∧ listed v = None.

Lemma fresh_later v v' : later v v' → fresh v → fresh v'.
Proof. intros Hl [Hi Hn]. split; [by eapply idle_later|by rewrite (later_listed _ _ Hl)]. Qed.

Lemma fresh_lock v : quiet v → fresh (lock_view v).
Proof. by intros [_ Hn]. Qed.

Lemma sent_fresh v v' r : fresh v → sent v v' r → fresh v'.
Proof.
  intros Hf. destruct r as [[]|e]; simpl; [|intros Hl; by eapply fresh_later].
  intros (text & v1 & Hl1 & Hl2). apply (fresh_later _ _ Hl1) in Hf as [[Hh Hn] Hl].
  eapply fresh_later; [exact Hl2|]. split; [|done]. split; [done|]. simpl. by rewrite Hl, Hn.
Qed.

(** The block ends with the lock held and no row handed over. *)
Lemma walk_fresh_lock {A} v (m : H Op Fail A) :
  quiet v → (∀ v, fresh v → tails v = [] → walk_q (λ v' _, idle v') v m) → walk_q (λ v' _, quiet v') v (with_lock (target q) m).
Proof.
  intros Hv Hm. apply walk_with_lock; [apply Hv|]. eapply walk_mono; [|apply Hm; [by apply fresh_lock|done]].
  intros v' r Hi. split; [by apply idle_unlock|by apply idle_quiet].
Qed.

Lemma walk_doc_turn v from_model to_model :
  held v = true → (drains q = true → listed v = None) →
  walk_q (λ v' r, ∃ x, r = Ok x ∧ sent v v' x) v (dispatch_doc_turn providers (target q) from_model to_model).
Proof.
  intros Hh Hd. unfold dispatch_doc_turn. apply walk_h_bind, (walk_reading (λ r, r = Ok tt)); [apply reading_start|].
  intros v1 res Hl ->. cbn [walk_err]. apply walk_outcome.
  eapply walk_mono; [|apply walk_send_message; [by rewrite (later_held _ _ Hl)|]].
  - intros v' r Hs. exists r. split; [done|]. by eapply sent_later.
  - intros Hq. left. rewrite (later_listed _ _ Hl). by apply Hd.
Qed.

(** What follows the dispatch of the document turn only reads. *)
Lemma reading_begun sid (x : option (Result Fail unit)) :
  reading sid (λ _, True)
    ((match x with Some (Ok _) => get (MarkDoc sid) | _ => mret tt end);;
     match x with
     | Some (Err e) => ignore (abort_handover sid (Some (fail_text e)));; throw e
     | _ => shutdown_after_turn_via_registry providers sid
     end).
Proof. destruct x as [[[]|e]|]; read_only. Qed.

Lemma walk_begin_locked v from_model to_model :
  fresh v → walk_q (λ v' _, fresh v') v (begin_handover providers (target q) from_model to_model true).
Proof.
  intros Hf. unfold begin_handover. apply walk_h_bind, (walk_reading (λ _, True)); [read_only|]. intros v1 res Hl1 _.
  apply (fresh_later _ _ Hl1) in Hf. destruct res as [w|e]; cbn [walk_err]; [|done].
  apply walk_h_bind, (walk_reading (λ _, True)); [read_only|]. intros v2 res Hl2 _.
  apply (fresh_later _ _ Hl2) in Hf. destruct res as [x|e]; cbn [walk_err]; [|done].
  apply walk_h_bind, walk_h_bind. eapply walk_mono; [|apply walk_doc_turn; [apply Hf|intros _; apply Hf]].
  intros v3 r (x' & -> & Hs). cbn [walk_err]. cbn [walk mret h_ret]. cbn [walk_err]. apply (sent_fresh _ _ _ Hf) in Hs.
  apply (walk_reading (λ _, True)); [exact (reading_begun (target q) (Some x'))|]. intros v4 res Hl4 _. by eapply fresh_later.
Qed.

Lemma walk_begin v from_model to_model :
  drains q = false → held v = false →
  walk_q (λ _ _, True) v (begin_handover providers (target q) from_model to_model false).
Proof.
  intros Hd Hh. unfold begin_handover. apply walk_h_bind, (walk_reading (λ _, True)); [read_only|]. intros v1 res Hl1 _.
  destruct res as [w|e]; cbn [walk_err]; [|done].
  apply walk_h_bind, (walk_reading (λ _, True)); [read_only|]. intros v2 res Hl2 _.
  destruct res as [x|e]; cbn [walk_err]; [|done]. assert (later v v2) as Hl by (by etrans).
  apply walk_h_bind. apply walk_with_lock; [by rewrite (later_held _ _ Hl)|].
  assert (∀ v x, walk_q (λ _ _, True) v ((match x with Some (Ok _) => get (MarkDoc (target q)) | _ => mret tt end);;
     match x with
     | Some (Err e) => ignore (abort_handover (target q) (Some (fail_text e)));; throw e
     | _ => shutdown_after_turn_via_registry providers (target q)
     end)) as Hrest by (intros v' x'; apply (walk_reading (λ _, True)); [apply reading_begun|done]).
  assert (may_unlock (lock_view v2)) as Hu by (split; [done|by rewrite Hd]).
  revert Hu. generalize (lock_view v2). clear v v1 v2 Hh Hl Hl1 Hl2 x. intros v Hu.
  apply walk_h_bind, (walk_reading (λ _, True)); [eauto with reading|]. intros v1 res Hl1 _.
  apply (may_unlock_later _ _ Hl1) in Hu. destruct res as [running|e]; cbn [walk_err]; [|done].
  apply walk_h_bind, (walk_reading (λ _, True)); [read_only|]. intros v2 res Hl2 _.
  apply (may_unlock_later _ _ Hl2) in Hu. destruct res as [supported|e]; cbn [walk_err]; [|done].
  destruct (running && negb supported); [split; [done|apply Hrest]|].
  apply walk_h_bind. eapply walk_mono; [|apply walk_doc_turn; [apply Hu|by rewrite Hd]].
  intros v3 r (x' & -> & Hs). cbn [walk_err]. split; [|apply Hrest]. eapply sent_unlock; [done|apply Hu|exact Hs].
Qed.

Lemma final_doc_text from_model to_model doc d :
  final_doc from_model to_model doc = Some d →
  d = doc ∧ trim doc ≠ "" ∨ d = EMPTY_DOC_FALLBACK ∧ trim doc = "" ∧ needs_handover from_model to_model = true.
Proof.
  unfold final_doc. destruct (bool_decide_reflect (trim doc = "")); [|intros [= <-]; by left].
  destruct (needs_handover _ _); [|done]. intros [= <-]. by right.
Qed.

Lemma walk_finalize v c :
  q = CompletionArrives c → pc_completed c = true → idle v → tails v = [] →
  walk_q (λ v' _, idle v') v (finalize_handover (target q)).
Proof.
  intros Hq Hc Hi Ht. unfold finalize_handover. apply walk_h_bind, walk_ask. intros row. split; [done|].
  assert (later v (upd v (Ev (O := Op) (GetSession (target q)) row))) as Hl by (by apply (later_upd (target q))).
  apply (idle_later _ _ Hl) in Hi. clear Hl.
  destruct row as [[r|]|e]; cbn [walk_err]; [|done..].
  destruct (handover_to_model (columns r)) as [to_model|] eqn:Eto; [|done].
  pose proof (list_elem_of_here r (seen v)) as Hr.
  change (r :: seen v) with (seen (upd v (Ev (O := Op) (GetSession (target q)) (Ok (Some r))))) in Hr.
  revert Hi Hr. change (tails (upd v (Ev (O := Op) (GetSession (target q)) (Ok (Some r)))) = []) in Ht. revert Ht.
  generalize (upd v (Ev (O := Op) (GetSession (target q)) (Ok (Some r)))). clear v. intros v Ht Hi Hr.
  apply walk_h_bind, walk_get. intros []. split; [done|]. change (upd v _) with v. cbn [walk_err].
  apply walk_h_bind. unfold collect_handover_doc. apply walk_h_bind, walk_get. intros tail. split; [done|].
  assert (later v (upd v (Ev (O := Op) (EventsTail (target q) 500) tail))) as Hl by (by apply (later_upd (target q))).
  assert (∃ l, (match tail with Ok events => extract_doc events | Err _ => "" end) = extract_doc l ∧
    (l = [] ∧ tails (upd v (Ev (O := Op) (EventsTail (target q) 500) tail)) = [] ∨
     l ∈ tails (upd v (Ev (O := Op) (EventsTail (target q) 500) tail)))) as (l & Hdoc & Htail).
  { destruct tail as [l|e]; [exists l|by exists []; split; [|left]]. split; [done|]. right. by left. }
  apply (idle_later _ _ Hl) in Hi. apply (later_seen _ _ Hl) in Hr. clear Hl. revert Hi Hr Htail.
  generalize (upd v (Ev (O := Op) (EventsTail (target q) 500) tail)). clear v Ht. intros v Hi Hr Htail.
  cbn [walk_err walk mret h_ret]. rewrite Hdoc. destruct (final_doc _ _ _) as [doc|] eqn:Ed.
  2:{ apply (walk_reading (λ _, True)); [apply reading_abort|]. intros v' r' Hl _. by eapply idle_later. }
  apply walk_h_bind, walk_ignore, walk_call. intros b. split; [done|]. change (upd v _) with v. cbn beta. cbn [walk_err].
  apply walk_h_bind, walk_ask. intros b'. split; [|by destruct b'].
  split; [done|]. intros _. destruct (final_doc_text _ _ _ _ Ed) as [[-> Hne]|(-> & Hb & Hn)].
  - destruct Htail as [[-> _]|Hin]; [done|]. eapply drop_handed_over; eauto. apply Hi.
  - eapply drop_undocumented; eauto; [apply Hi|]. destruct Htail as [[_ ?]|Hin]; [by left|right; by exists l].
Qed.

Lemma walk_deferred v : quiet v → walk_q (λ v' _, quiet v') v (dispatch_deferred_doc_turn providers (target q)).
Proof.
  intros Hv. apply walk_fresh_lock; [done|]. clear v Hv. intros v Hf _.
  apply walk_h_bind, (walk_reading (λ _, True)); [eauto with reading|]. intros v1 res Hl1 _.
  apply (fresh_later _ _ Hl1) in Hf. destruct res as [[]|e]; cbn [walk_err]; [apply Hf| |apply Hf].
  apply walk_h_bind, (walk_reading (λ _, True)); [read_only|]. intros v2 res Hl2 _.
  apply (fresh_later _ _ Hl2) in Hf. destruct res as [[r|]|e]; cbn [walk_err]; [|apply Hf..].
  destruct (handover_to_model (columns r)) as [to_model|]; [|apply Hf].
  apply walk_h_bind. eapply walk_mono; [|apply walk_doc_turn; [apply Hf|intros _; apply Hf]].
  intros v3 x (r' & -> & Hs). cbn [walk_err]. apply (sent_fresh _ _ _ Hf) in Hs.
  apply (walk_reading (λ _, True)); [destruct r'; read_only|]. intros v4 res Hl4 _. by eapply idle_later, Hs.
Qed.

Lemma walk_handover_completion v c :
  q = CompletionArrives c → quiet v →
  walk_q (λ v' r, r = Ok true ∨ quiet v') v (handover_handle_completion providers c).
Proof.
  intros Hq Hv. assert (pc_session c = target q) as Ht by (by rewrite Hq). unfold handover_handle_completion. rewrite Ht.
  apply walk_h_bind, (walk_reading (λ _, True)); [read_only|]. intros v1 res Hl1 _. apply (quiet_later _ _ Hl1) in Hv.
  destruct res as [[r|]|e]; cbn [walk_err]; [|by right..].
  destruct (negb _); [by right|]. destruct (match handover_run_id _ with Some w => _ | None => false end).
  { apply walk_h_bind. eapply walk_mono; [|by apply walk_deferred]. intros v2 [[]|e] Hv2; [by left|by right]. }
  apply walk_h_bind, walk_get. intros marked. split; [done|]. change (upd v1 _) with v1. cbn [walk_err].
  destruct marked; cbn [negb].
  - apply walk_h_bind. eapply walk_mono; [|apply walk_fresh_lock; [exact Hv|]].
    + intros v2 [[]|e] Hv2; cbn [walk_err]; [|by right].
      apply walk_h_bind, walk_ignore. eapply walk_mono; [|apply walk_drain_queue; [by rewrite Hq|apply Hv2..]].
      intros v3 r3 _. by left.
    + intros v2 Hf Ht2. apply walk_ignore. destruct (pc_completed c) eqn:Ec.
      * eapply walk_mono; [|eapply walk_finalize; [done|done|apply Hf|done]]. intros v3 [[]|e] Hi; done.
      * apply (walk_reading (λ _, True)); [apply reading_abort|]. intros v3 r3 Hl _. by eapply idle_later, Hf.
  - apply walk_h_bind. eapply walk_mono; [|apply walk_fresh_lock; [exact Hv|]].
    + intros v2 [[]|e] Hv2; by right.
    + intros v2 Hf _. apply walk_ignore, (walk_reading (λ _, True)); [apply reading_abort|].
      intros v3 r3 Hl _. by eapply idle_later, Hf.
Qed.

Lemma walk_auto_compact v : quiet v → walk_q (λ v' _, quiet v') v (maybe_auto_compact providers (target q)).
Proof.
  intros Hv. unfold maybe_auto_compact.
  apply walk_h_bind, (walk_reading (λ _, True)); [read_only|]. intros v1 res Hl1 _. apply (quiet_later _ _ Hl1) in Hv.
  destruct res as [[r|]|e]; cbn [walk_err]; [|done..].
  destruct (negb _); [done|]. destruct (_ || _); [done|].
  apply walk_h_bind, (walk_reading (λ _, True)); [eauto with reading|]. intros v2 res Hl2 _.
  apply (quiet_later _ _ Hl2) in Hv. destruct res as [n|e]; cbn [walk_err]; [|done]. destruct (_ <? _); [done|].
  apply walk_h_bind, (walk_reading (λ _, True)); [read_only|]. intros v3 res Hl3 _.
  apply (quiet_later _ _ Hl3) in Hv. destruct res as [x|e]; cbn [walk_err]; [|done].
  destruct (match x with Ok (Some _) => true | _ => false end); [done|].
  apply walk_h_bind, (walk_reading (λ _, True)); [eauto with reading|]. intros v4 res Hl4 _.
  apply (quiet_later _ _ Hl4) in Hv. destruct res as [[]|e]; cbn [walk_err negb]; [|done..].
  apply walk_fresh_lock; [done|]. intros v5 Hf _.
  apply walk_h_bind, (walk_reading (λ _, True)); [eauto with reading|]. intros v6 res Hl6 _.
  apply (fresh_later _ _ Hl6) in Hf. destruct res as [[]|e]; cbn [walk_err]; [apply Hf| |apply Hf].
  apply walk_h_bind. eapply walk_mono; [|by apply walk_begin_locked]. intros v7 [[]|e] Hf7; apply Hf7.
Qed.

(** The provider refused to resume the conversation. *)
Lemma walk_resume_recovery v c :
  q = CompletionArrives c → walk_q (λ v' _, later v v') v (resume_handle_completion c).
Proof.
  intros Hq. assert (pc_session c = target q) as Ht by (by rewrite Hq). unfold resume_handle_completion. rewrite Ht.
  destruct (pc_turn_end_only c); [done|].
  destruct (bool_decide_reflect (pc_kind c = Some ResumeFailed)) as [Hk|]; cbn [orb negb]; [|done].
  apply walk_h_bind, (walk_reading (λ _, True)); [read_only|]. intros v1 res Hl1 _.
  destruct res as [[r|]|e]; cbn [walk_err]; [|done..].
  apply walk_h_bind, walk_get. intros updated. split; [split; [done|intros _; by eapply drop_refused]|].
  change (upd v1 _) with v1. cbn [walk_err]. apply (walk_reading (λ _, True)); [read_only|].
  intros v2 r2 Hl2 _. by etrans.
Qed.

Lemma walk_on_completion v c :
  q = CompletionArrives c → quiet v → walk_q trivially v (on_completion providers c).
Proof.
  intros Hq Hv. assert (pc_session c = target q) as Ht by (by rewrite Hq).
  assert (drains q = true) as Hd by (by rewrite Hq). unfold on_completion. rewrite Ht.
  destruct (pc_turn_end_only c).
  { apply walk_ignore. eapply walk_mono; [|apply walk_drain_queue; [done|apply Hv..]]. done. }
  apply walk_h_bind. eapply walk_mono; [|by apply walk_handover_completion].
  intros v0 r0 [->|Hv0]; [done|]. destruct r0 as [[]|e]; cbn [walk_err]; [done| |done]. clear v Hv.
  apply walk_h_bind. eapply (walk_mono _ _ (λ v' (r : Result Fail unit), quiet v')).
  2:{ destruct (pc_completed c); [|done]. apply walk_ignore. eapply walk_mono; [|by apply walk_auto_compact]. done. }
  intros v [[]|e] Hv; cbn [walk_err]; [|done].
  apply walk_h_bind. eapply walk_mono; [|by apply walk_resume_recovery]. intros v1 [[]|e] Hl1; cbn [walk_err]; [|done].
  apply walk_h_bind, (walk_reading (λ _, True)); [eauto with reading|]. intros v2 res Hl2 _.
  destruct res as [[]|e]; cbn [walk_err]; [|done].
  apply (quiet_later _ _ Hl1), (quiet_later _ _ Hl2) in Hv.
  apply walk_ignore. eapply walk_mono; [|apply walk_drain_queue; [done|apply Hv..]]. done.
Qed.

Lemma walk_recovery v model eff s :
  q = Recover s model eff → walk_q trivially v (begin_recovery providers (target q) (trim model) eff).
Proof.
  intros Hq. unfold begin_recovery, prepare_recovery, ask_recovery. apply walk_h_bind.
  eapply (walk_mono _ _ (λ v' (r : Result RecoveryError PreparedRecovery), match r with
    | Ok p => ∃ l, l ∈ logs v' ∧ pr_transcript p = build_recovery_transcript l ∧ trim (pr_transcript p) ≠ ""
    | Err _ => True end)).
  2:{ apply walk_h_bind, walk_map_err, walk_call. intros b. split; [done|]. cbn beta.
      destruct b as [[r|]|e]; cbn [walk_err]; [|done..].
      destruct (is_some _); [done|]. destruct (Store.s_is_worker _); [done|]. destruct (negb _); [done|].
      apply walk_h_bind, walk_map_err, walk_call. intros b. split; [done|]. cbn beta.
      destruct b as [l|e]; cbn [walk_err]; [|done]. destruct (_ && _); [done|]. destruct (negb _); [done|].
      destruct (bool_decide_reflect (trim (build_recovery_transcript l) = "")) as [|Ht]; [done|].
      cbn. exists l. split; [by left|done]. }
  intros v1 [p|e] Hp; cbn [walk_err]; [|done]. destruct Hp as (l & Hl & Etr & Ht).
  destruct (negb _); [done|]. apply walk_h_bind, walk_map_err, (walk_reading (λ _, True)); [eauto with reading|].
  intros v2 res Hl2 _. destruct res as [[]|e]; cbn [walk_err]; [|done].
  apply walk_h_bind, walk_ignore, walk_call. intros b. split; [done|]. change (upd v2 _) with v2. cbn beta. cbn [walk_err].
  apply walk_h_bind, walk_map_err, walk_call. intros b'. split; [|by destruct b' as [[]|]].
  split; [done|]. intros _. rewrite Etr in *. eapply drop_recovered; eauto. by apply (later_logs _ _ Hl2).
Qed.

Lemma walk_compaction v model eff :
  drains q = false → held v = false → walk_q trivially v (begin_compaction providers (target q) model eff).
Proof.
  intros Hd Hh. unfold begin_compaction.
  apply walk_h_bind, (walk_reading (λ _, True)); [read_only|]. intros v1 res Hl1 _.
  destruct res as [[r|]|e]; cbn [walk_err]; [|done..].
  destruct (Store.s_is_worker _); [done|]. destruct (is_some _); [done|]. destruct (is_some _); [done|].
  destruct (needs_handover _ _); [done|].
  apply walk_h_bind, (walk_reading (λ _, True)); [eauto with reading|]. intros v2 res Hl2 _.
  destruct res as [n|e]; cbn [walk_err]; [|done]. destruct (_ =? _); [done|].
  apply walk_h_bind, (walk_reading (λ _, True)); [destruct eff; read_only|]. intros v3 res Hl3 _.
  destruct res as [[]|e]; cbn [walk_err]; [|done].
  apply walk_begin; [done|]. by rewrite (later_held _ _ Hl3), (later_held _ _ Hl2), (later_held _ _ Hl1).
Qed.

Lemma walk_switch v s model eff force :
  q = SwitchModel s model eff force → held v = false →
  walk_q trivially v (switch_model providers (target q) model eff force).
Proof.
  intros Hq Hh. unfold switch_model. destruct (check_model _); [|done].
  apply walk_h_bind, (walk_reading (λ _, True)); [read_only|]. intros v1 res Hl1 _.
  destruct res as [prior|e]; cbn [walk_err]; [|done].
  set (prior' := match prior with Ok r => r | Err _ => None end).
  destruct (_ && _); [done|].
  apply walk_h_bind, (walk_reading (λ _, True)); [read_only|]. intros v2 res Hl2 _.
  destruct res as [dflt|e]; cbn [walk_err]; [|done].
  set (current := effective_model _ _). set (force_cold := force && _).
  assert (force_cold = true → ∃ m, model = Some (Some m)) as Hforce.
  { unfold force_cold. destruct model as [[m|]|]; [eauto|rewrite andb_false_r..]; done. }
  assert (held v2 = false) as Hh2 by (by rewrite (later_held _ _ Hl2), (later_held _ _ Hl1)).
  clear Hl1 Hl2 Hh v v1. apply walk_h_bind.
  apply (walk_reading (λ r, ∀ t, r = Ok (Some t) → force_cold = false ∧ model ≫= id = Some t)).
  { destruct force_cold; [by intros t [=]|]. eapply (walk_mono _ _ (λ _ r, ∀ t, r = Ok (Some t) → model ≫= id = Some t));
      [|apply reading_handover_target]. intros [] r Hr t Ht. auto. }
  intros v res Hl Htarget. rewrite <-(later_held _ _ Hl) in Hh2. clear Hl v2. rename Hh2 into Hh.
  destruct res as [target'|e]; cbn [walk_err]; [|done].
  apply walk_h_bind. apply (walk_mono _ _ (λ v' (_ : Result Z (option Row)), held v' = false)).
  2:{ destruct (_ || _); apply walk_map_err, walk_call; intros b; (split; [|by destruct b as [[?|]|]]); [|done].
      split; [done|]. simpl. destruct force_cold eqn:Ef; [intros _|done]. destruct (Hforce eq_refl) as [m ->].
      eapply drop_switched; [exact Hq|]. simpl. destruct target' as [t|]; [|done].
      by destruct (Htarget t eq_refl). }
  intros v1 row Hh1. destruct row as [[row|]|e]; cbn [walk_err]; [|done..]. clear v Hh.
  apply walk_h_bind, (walk_reading (λ _, True)).
  { destruct target', prior'; try done. destruct (_ || _); [|done]. apply walk_map_err.
    destruct (_ || _); apply reading_use; eauto with reading. }
  intros v2 res Hl2 _. rewrite <-(later_held _ _ Hl2) in Hh1. destruct res as [[]|e]; cbn [walk_err]; [|done].
  apply walk_h_bind. apply (walk_mono _ _ trivially).
  { intros v3 [[]|e] _; cbn [walk_err]; [|done]. apply (walk_reading (λ _, True)); [read_only|done]. }
  destruct target' as [to_model|]; [|done]. destruct (Htarget _ eq_refl) as [_ Hm].
  apply walk_h_bind, walk_outcome. eapply walk_mono; [|apply walk_begin; [by rewrite Hq|done]].
  intros v3 [[]|e] _; cbn beta; cbn [walk_err]; [done|].
  apply walk_ignore, walk_call. intros b. split; [|done]. split; [done|]. intros _.
  destruct model as [[m|]|]; try done. injection Hm as ->. by eapply drop_switched.
Qed.

Lemma walk_retry v :
  drains q = true → held v = false → handed v = [] → walk_q trivially v (retry_now providers (target q)).
Proof.
  intros Hd Hh Hn. unfold retry_now.
  apply walk_h_bind, (walk_reading (λ _, True)); [eauto with reading|]. intros v1 res Hl1 _.
  destruct res as [[]|e]; cbn [walk_err]; [|by cbn..].
  apply walk_h_bind, (walk_reading (λ _, True)); [read_only|]. intros v2 res Hl2 _.
  destruct res as [[]|e]; cbn [walk_err]; [|by cbn..].
  apply walk_h_bind, (walk_reading (λ _, True)); [eauto with reading|]. intros v3 res Hl3 _.
  destruct res as [[]|e]; cbn [walk_err]; [|by cbn..].
  assert (later v v3) as Hl by (etrans; [|done]; by etrans).
  apply walk_h_bind, walk_ignore. eapply walk_mono; [|apply walk_drain_queue; [done|..]]; [done|..].
  - by rewrite (later_held _ _ Hl).
  - by rewrite (later_handed _ _ Hl).
Qed.

Lemma walk_seal v reason :
  seals q = true → drains q = false → held v = false →
  walk_q trivially v (with_lock (target q) (ignore (call (SealSession (target q) reason)))).
Proof.
  intros Hs Hd Hh. apply walk_with_lock; [done|]. apply walk_ignore, walk_call. intros b. split.
  - split; [done|]. split; [done|]. by right.
  - split; [|done]. split; [done|by rewrite Hd].
Qed.

Lemma walk_clear v : discards q = true → walk_q trivially v (ignore (call (ClearQueued (target q))) : H Op Fail unit).
Proof. intros Hd. apply walk_ignore, walk_call. intros b. split; [|done]. split; [done|by left]. Qed.

Lemma walk_reply {A} (f : A → Reply) v (m : H Op Fail A) : walk_q trivially v m → walk_q trivially v (reply f m).
Proof. intros Hm. apply walk_bind. eapply walk_mono; [|exact Hm]. done. Qed.

Lemma walk_only_reading {A} v (m : Prog Op A) : reading (target q) (λ _, True) m → walk_q trivially v m.
Proof. intros Hm. by eapply walk_reading. Qed.

Lemma walk_stop v (kind : string) data (m : H Op Z unit) :
  discards q = true → reading (target q) (λ _, True) m →
  walk_q trivially v (found (target q) (http (clear_queued_message (target q));; m;;
    get_500 (AppendEvent (target q) kind data);; mret (Status 204))).
Proof.
  intros Hd Hm. unfold found. apply walk_h_bind, walk_map_err, walk_call. intros b. split; [done|].
  destruct b as [[r|]|e]; [|by cbn..]. cbn beta. cbn [walk_err].
  apply walk_h_bind, walk_map_err. unfold clear_queued_message. eapply walk_mono; [|by apply walk_clear].
  intros v1 [[]|e] _; cbn beta; cbn [walk_err]; [|done].
  apply walk_h_bind, (walk_reading (λ _, True)); [exact Hm|]. intros v2 [[]|e] _ _; cbn [walk_err]; [|done].
  apply walk_only_reading. unfold get_500. read_only.
Qed.

Lemma walk_cancelled v (m : H Op Fail unit) :
  discards q = true → reading (target q) (λ _, True) m →
  walk_q trivially v (m;; ignore (call (ClearQueued (target q)))).
Proof.
  intros Hd Hm. apply walk_h_bind, (walk_reading (λ _, True)); [exact Hm|]. intros v' [[]|e] _ _; [|done].
  by apply walk_clear.
Qed.

Lemma walk_mcp_seal v reason (m : H Op Fail unit) :
  mcp q = true → reading (target q) (λ _, True) m →
  walk_q trivially v (m;; ignore (call (SealSession (target q) reason))).
Proof.
  intros Hs Hm. apply walk_h_bind, (walk_reading (λ _, True)); [exact Hm|]. intros v' [[]|e] _ _; [|done].
  cbn [walk_err]. apply walk_ignore, walk_call. intros b. split; [|done]. split; [done|]. split; [|by left].
  unfold seals. by destruct q.
Qed.

Lemma walk_seal_worker v reason :
  seals q = true → drains q = false → held v = false →
  walk_q trivially v (seal_worker_session providers (target q) reason).
Proof.
  intros Hs Hd Hh. unfold seal_worker_session.
  apply walk_h_bind, (walk_reading (λ _, True)); [eauto with reading|]. intros v' [[]|e] Hl _; cbn [walk_err]; [|done].
  apply walk_h_bind. eapply walk_mono; [|apply walk_seal; [done..|by rewrite (later_held _ _ Hl)]].
  intros v1 [[]|e] _; cbn [walk_err]; [|done]. apply walk_only_reading. read_only.
Qed.

(** *** Workers and the watchdog *)

Lemma walk_try_lock v (m : H Op Fail unit) :
  drains q = false → held v = false →
  walk_q (λ v' _, held v' = true) (lock_view v) m → walk_q trivially v (with_try_lock (target q) m).
Proof.
  intros Hd Hh Hm. unfold with_try_lock. apply walk_h_bind, walk_get. intros []; (split; [done|]); cbn [walk_err]; [|done].
  apply walk_bind. eapply walk_mono; [|exact Hm]. intros v' r Hh'.
  apply walk_bind, walk_call. intros []. split; [|done]. split; [done|]. split; [done|by rewrite Hd].
Qed.

Lemma walk_sweep_ref v card :
  q = SweepRef card (target q) → held v = false → walk_q trivially v (sweep_ref providers card (target q)).
Proof.
  intros Hq Hh. unfold sweep_ref, session_has_pending_question.
  apply walk_h_bind, (walk_reading (λ _, True)); [read_only|]. intros v1 [[]|e] Hl1 _; cbn [walk_err]; [done| |done].
  apply walk_h_bind, (walk_reading (λ _, True)); [read_only|]. intros v2 [[]|e] Hl2 _; cbn [walk_err]; [done| |done].
  apply walk_h_bind, (walk_reading (λ _, True)); [read_only|]. intros v3 [[row|]|e] Hl3 _; cbn [walk_err]; [|done..].
  apply walk_h_bind, (walk_reading (λ _, True)); [unfold spared; read_only|].
  intros v4 [[]|e] Hl4 _; cbn [walk_err]; [done| |done].
  assert (held v4 = false) as Hh4.
  { by rewrite (later_held _ _ Hl4), (later_held _ _ Hl3), (later_held _ _ Hl2), (later_held _ _ Hl1). }
  apply walk_try_lock; [by rewrite Hq|done|]. unfold clear_ref.
  apply walk_h_bind, (walk_reading (λ _, True)); [eauto with reading|].
  intros v5 [[]|e] Hl5 _; cbn [walk_err]; [cbn; by rewrite (later_held _ _ Hl5)| |by rewrite (later_held _ _ Hl5)].
  assert (held v5 = true) as Hh5 by (by rewrite (later_held _ _ Hl5)).
  apply walk_h_bind, walk_get. intros b. split; [by intros c s [= <- <-]|]. change (upd v5 _) with v5. cbn [walk_err].
  apply (walk_reading (λ _, True)); [read_only|]. intros v6 r Hl6 _. by rewrite (later_held _ _ Hl6).
Qed.

Lemma walk_cancel v : walk_q (λ v' _, v' = v) v (cancel providers (target q)).
Proof.
  unfold cancel. induction providers as [|p l IH]; cbn [each]; [done|].
  apply walk_h_bind, walk_get. intros []. split; [done|]. cbn [walk_err]. exact IH.
Qed.

Lemma walk_sweep_orphan v r : q = SweepOrphan r → held v = false → walk_q trivially v (sweep_orphan providers r).
Proof.
  intros Hq Hh. unfold sweep_orphan. assert (Store.s_id (session r) = target q) as -> by (by rewrite Hq).
  destruct (sealed r); [done|].
  apply walk_h_bind, (walk_reading (λ _, True)); [read_only|]. intros v1 [secs|e] Hl1 _; cbn [walk_err]; [|done].
  destruct (in_grace secs); [done|].
  apply walk_h_bind, (walk_reading (λ _, True)); [unfold orphan_action; read_only|].
  intros v2 [a|e] Hl2 _; cbn [walk_err]; [|done].
  assert (held v2 = false) as Hh2 by (by rewrite (later_held _ _ Hl2), (later_held _ _ Hl1)).
  assert (walk_q trivially v2 (with_try_lock (target q) (retire_session providers (target q) a))) as Hw.
  { apply walk_try_lock; [by rewrite Hq|done|]. unfold retire_session.
    apply walk_h_bind. eapply walk_mono; [|apply walk_cancel].
    intros v3 [[]|e] ->; cbn [walk_err]; [|done]. destruct a; [done|..].
    - apply walk_ignore, walk_call. intros b. split; [|done]. split; [done|]. split; [by rewrite Hq|by right].
    - apply walk_h_bind, walk_ignore, walk_call. intros b. split; [done|]. cbn [walk_err].
      apply walk_ignore, walk_call. intros b'. split; [|done]. split; [done|by rewrite Hq]. }
  by destruct a.
Qed.

Lemma walk_send_worker v s : q = SpawnWorker s → held v = false → walk_q trivially v (send_worker providers s).
Proof.
  intros Hq Hh. unfold send_worker. assert (Store.s_id (session (sp_session s)) = target q) as -> by (by rewrite Hq).
  assert (drains q = false) as Hd by (by rewrite Hq). apply walk_with_lock; [done|].
  assert (may_unlock (lock_view v)) as Hu by (split; [done|by rewrite Hd]).
  revert Hu. generalize (lock_view v). clear v Hh. intros v Hu.
  read_locked v Hu. destruct a; [by cbn|]. read_locked v Hu. destruct a; [by cbn|].
  apply walk_h_bind, (walk_reading (λ _, True)); [by apply reading_board|]. intros v1 [[]|e] Hl1 _; cbn [walk_err];
    [|split; [by eapply may_unlock_later|done]].
  apply (may_unlock_later _ _ Hl1) in Hu. apply walk_h_bind, walk_outcome. destruct Hu as [Hh _].
  eapply walk_mono; [|apply walk_send_message; [done|by rewrite Hd]].
  intros v2 r Hs. cbn. split; [|done]. by eapply sent_unlock.
Qed.

Lemma walk_spawn v s : q = SpawnWorker s → held v = false → walk_q trivially v (claim_and_send providers s).
Proof.
  intros Hq Hh. unfold claim_and_send. assert (Store.s_id (session (sp_session s)) = target q) as -> by (by rewrite Hq).
  apply walk_h_bind, walk_ask. intros b. split; [by intros c s0|]. change (upd v _) with v.
  destruct b as [[]|e]; cbn [walk_err negb]; [| |done].
  2:{ destruct (sp_created_now s) eqn:Ec; [|done]. apply walk_ignore, walk_call. intros b. split; [|done].
      split; [done|]. rewrite Hq. done. }
  destruct (sp_token_cancelled s); [apply walk_only_reading; eauto with reading|].
  destruct (sp_config_cancelled s); [apply walk_only_reading; eauto with reading|].
  destruct (sp_config_written s); [|apply walk_only_reading; read_only].
  apply walk_h_bind. eapply walk_mono; [|by apply walk_send_worker].
  intros v1 [[[]|]|e] _; cbn [walk_err]; [done| |apply walk_only_reading; eauto with reading|done].
  apply walk_only_reading. read_only.
Qed.
End walks.

(** Every handler makes its calls as allowed. *)
Lemma handle_allowed `{JsonApi, !MoreJson} providers q :
  walk upd (allow q) (λ _ _, True) view0 (handle providers tt q).
Proof.
  destruct q eqn:Hq; cbn [handle]; unfold done;
    try (apply walk_reply; apply walk_only_reading; solve [eauto with reading | read_only]).
  - apply walk_reply. by apply (walk_send_or_queue _ (Send sid m c policy appended)).
  - apply walk_reply. set (q' := Dispatch sid m c). apply (walk_with_lock q'); [done|].
    eapply walk_mono; [|by apply (walk_send_message _ q')]. intros v' r Hs.
    split; [by apply (sent_unlock q' (lock_view q' view0) v' r)|done].
  - apply walk_reply. by apply (walk_drain_queue _ (DrainQueue sid)).
  - by apply (walk_force _ (ForceQueued sid id)).
  - unfold enqueue_queued_message. apply walk_only_reading. unfold get_500. read_only.
  - unfold clear_queued_messages. apply walk_h_bind, walk_map_err, walk_call. intros b. split; [by split; [|left]|].
    destruct b as [n|e]; [|done]. cbn. by destruct (n =? 0)%nat.
  - unfold delete_queued_message. apply walk_h_bind, walk_map_err, walk_call. intros b. split; [by split; [|left]|].
    destruct b as [[]|e]; by cbn.
  - unfold cancel_session. apply (walk_stop (CancelSession sid)); [done|].
    unfold http. apply walk_map_err, reading_use; [eauto with reading|done].
  - unfold interrupt_session, found. apply walk_only_reading. unfold get_500, http. read_only.
  - unfold terminate_agent. apply (walk_stop (TerminateAgent sid)); [done|].
    unfold http. apply walk_map_err, reading_use; [eauto with reading|done].
  - unfold retry_auth. apply walk_h_bind, walk_map_err.
    eapply walk_mono; [|by apply (walk_retry _ (RetryAuth sid))]. intros v' [[]|e] _; by cbn.
  - apply walk_h_bind. eapply walk_mono; [|by apply (walk_switch _ (SwitchModel sid model eff force) view0 sid)].
    intros v' [[]|e] _; by cbn.
  - unfold compact_session. apply walk_h_bind, walk_map_err.
    eapply walk_mono; [|by apply (walk_compaction _ (Compact sid model eff))]. intros v' [[]|e] _; by cbn.
  - unfold recover_session. destruct (_ == _); [done|]. apply walk_h_bind, walk_map_err.
    eapply walk_mono; [|by apply (walk_recovery _ (Recover sid model eff) view0 model eff sid)]. intros v' [[]|e] _; by cbn.
  - apply walk_reply. by apply (walk_begin _ (HandOver sid from_model to_model)).
  - apply walk_reply. by apply (walk_spawn _ (SpawnWorker s)).
  - apply walk_reply. unfold seal_previous. set (q' := SealPrevious card step prev).
    apply walk_h_bind, (walk_reading q' (λ _, True)); [read_only|]. intros v1 [[r|]|e] Hl _; cbn [walk_err]; [|done..].
    destruct (_ && _); [|done]. apply (walk_seal_worker _ q'); [done..|by rewrite (later_held _ _ Hl)].
  - apply walk_reply. by apply (walk_sweep_ref _ (SweepRef card sid)).
  - apply walk_reply. by apply (walk_sweep_orphan _ (SweepOrphan r)).
  - apply walk_reply. apply (walk_cancelled (CardMoved sid)); [done|eauto with reading].
  - apply walk_reply. by apply (walk_seal_worker _ (SealWorker sid reason)).
  - apply walk_reply. apply (walk_cancelled (McpCardMoved sid)); [done|eauto with reading].
  - apply walk_reply. by apply (walk_seal (SealHeld sid reason)).
  - apply walk_reply. apply (walk_mcp_seal (McpSeal sid reason)); [done|eauto with reading].
  - apply walk_reply, walk_ignore, walk_call. intros b. split; [|done]. split; [done|]. split; [done|by left].
  - apply walk_reply. by apply (walk_on_completion _ (CompletionArrives c) view0 c).
Qed.
End ManagerProps.
