(* ===== verification/ManagerSafety.v ===== *)
(** * Schedules of the session manager

    What one call does to the queue and to the seals ([call_effect]), the
    invariants of every schedule, and the theorems about queued messages and
    dispatches. *)

From S2P Require Import Prelude RustStr Json Pipeline Store Programs Turns Resume Manager Watchdog Handover ManagerRoutes ManagerProps.

Module ManagerSafety.
Export ManagerProps.ManagerProps.
Import (hints) Store.Store.

(** ** The effect of a call *)

(** The same row, but for the mark that its event is in the log. *)
Definition same_row (a b : Store.QueuedMessage) : Prop :=
  Store.q_id a = Store.q_id b ∧ Store.q_session_id a = Store.q_session_id b ∧
  Store.q_text a = Store.q_text b ∧ Store.q_model a = Store.q_model b ∧
  Store.q_effort a = Store.q_effort b ∧ Store.q_attachment_ids a = Store.q_attachment_ids b.

(** Ids are given out once and in order. *)
Definition bounded (d : Store.Db) : Prop :=
  NoDup (Store.q_id <$> Store.queued d) ∧
  Forall (λ r, Store.q_id r < Store.queued_next d) (Store.queued d).

Definition has_seal (s : Store.Session) : bool := is_some (Store.s_sealed_at s).

Definition sealed_in (sid : string) (d : Store.Db) : bool :=
  match Store.get_session sid d with Some s => has_seal s | None => false end.

Record effect (gone : Store.QueuedMessage → Prop) (closed : string → Prop) (d d' : Store.Db) : Prop := {
  effect_rows r : r ∈ Store.queued d → (∃ r', r' ∈ Store.queued d' ∧ same_row r r') ∨ gone r;
  effect_back r : r ∈ Store.queued d' →
    (∃ r0, r0 ∈ Store.queued d ∧ same_row r0 r) ∨ Store.queued_next d ≤ Store.q_id r;
  effect_next : Store.queued_next d ≤ Store.queued_next d';
  effect_bounded : bounded d → bounded d';
  effect_sealed sid : sealed_in sid d' = true → sealed_in sid d = true ∨ closed sid }.

Definition none {A} (_ : A) : Prop := False.

Lemma same_row_refl r : same_row r r.
Proof. by repeat split. Qed.

Lemma effect_sessions gone closed d d' :
  Store.queued d' = Store.queued d → Store.queued_next d' = Store.queued_next d →
  (∀ sid, sealed_in sid d' = true → sealed_in sid d = true ∨ closed sid) → effect gone closed d d'.
Proof.
  intros Hq Hn Hs. split; rewrite ?Hq, ?Hn; [| |done| |done].
  - intros r Hr. left. exists r. split; [done|apply same_row_refl].
  - intros r Hr. left. exists r. split; [done|apply same_row_refl].
  - unfold bounded. by rewrite Hq, Hn.
Qed.

Lemma effect_same gone closed d d' :
  Store.queued d' = Store.queued d → Store.queued_next d' = Store.queued_next d →
  Store.sessions d' = Store.sessions d → effect gone closed d d'.
Proof.
  intros Hq Hn Hs. apply effect_sessions; [done|done|]. intros sid. unfold sealed_in, Store.get_session.
  rewrite Hs. by left.
Qed.

Lemma effect_refl gone closed d : effect gone closed d d.
Proof. by apply effect_same. Qed.

Lemma nodup_filter {A C} (f : A → C) (keep : A → bool) l : NoDup (f <$> l) → NoDup (f <$> List.filter keep l).
Proof.
  induction l as [|a l IH]; simpl; [done|]. intros [Ha Hl]%NoDup_cons.
  destruct (keep a); simpl; [|by apply IH]. constructor; [|by apply IH].
  intros (x & Hax & Hx)%list_elem_of_fmap. apply Ha. rewrite Hax. apply list_elem_of_fmap_2.
  by apply list_elem_of_In, filter_In in Hx as [?%list_elem_of_In _].
Qed.

(** Deleting the rows that [gone] picks. *)
Lemma effect_filter (keep : Store.QueuedMessage → bool) closed d d' :
  Store.queued d' = List.filter keep (Store.queued d) → Store.queued_next d' = Store.queued_next d →
  (∀ sid, sealed_in sid d' = true → sealed_in sid d = true ∨ closed sid) →
  effect (λ r, keep r = false) closed d d'.
Proof.
  intros Hq Hn Hs. split; rewrite ?Hq, ?Hn.
  - intros r Hr. destruct (keep r) eqn:E; [left; exists r|by right]. split; [|apply same_row_refl].
    by apply list_elem_of_In, filter_In; rewrite <-list_elem_of_In.
  - intros r Hr. left. apply list_elem_of_In, filter_In in Hr as [Hr _].
    exists r. split; [by apply list_elem_of_In|apply same_row_refl].
  - done.
  - unfold bounded. rewrite Hq, Hn, !Forall_forall. intros [Hd Hb]. split; [by apply nodup_filter|]. intros r Hr.
    apply Hb. by apply list_elem_of_In, filter_In in Hr as [?%list_elem_of_In _].
  - done.
Qed.

Section effects.
Context `{Store.World}.

Lemma append_event_same sid kind data d :
  let d' := (Store.append_event sid kind data d).2 in
  Store.queued d' = Store.queued d ∧ Store.queued_next d' = Store.queued_next d ∧
  Store.sessions d' = Store.sessions d.
Proof.
  assert (Store.Preserves (λ d', Store.queued d' = Store.queued d ∧ Store.queued_next d' = Store.queued_next d ∧
    Store.sessions d' = Store.sessions d) (Store.append_event sid kind data)) as Hp; [|by apply Hp].
  unfold Store.append_event. generalize Store.APPEND_SEQ_MAX_ATTEMPTS. intros n.
  induction n as [|n IH]; cbn [Store.insert_event_attempts]; [apply _|].
  unfold Store.uuid, Store.millis, Store.tick. Store.preserve. all: try (by intros d' ?).
Qed.

Lemma append_event_effect gone closed sid kind data d :
  effect gone closed d (Store.append_event sid kind data d).2.
Proof. destruct (append_event_same sid kind data d) as (? & ? & ?). by apply effect_same. Qed.

Lemma enqueue_effect gone closed new d : effect gone closed d (Store.enqueue_message new d).2.
Proof.
  split; simpl; [| |lia| |by left].
  - intros r Hr. left. exists r. split; [by apply elem_of_app; left|apply same_row_refl].
  - intros r [Hr|Hr]%elem_of_app; [left; exists r; split; [done|apply same_row_refl]|].
    apply list_elem_of_singleton in Hr as ->. right. simpl. lia.
  - unfold bounded. simpl. intros [Hd Hb]. rewrite Forall_forall in Hb. rewrite fmap_app. split.
    + apply NoDup_app. split; [done|]. split; [|simpl; apply NoDup_singleton].
      intros id (r & -> & Hr)%list_elem_of_fmap Hid%list_elem_of_singleton. simpl in Hid. specialize (Hb _ Hr). lia.
    + apply Forall_forall. intros r [Hr|Hr]%elem_of_app; [specialize (Hb _ Hr); lia|].
      apply list_elem_of_singleton in Hr as ->. simpl. lia.
Qed.

Lemma mark_effect gone closed sid id d :
  effect gone closed d (Store.mark_queued_message_user_event_appended sid id d).2.
Proof.
  simpl. set (f := λ q, if Store.is_message sid id q then _ else q).
  assert (∀ r, same_row r (f r)) as Hf by (intros r; unfold f; case_match; by repeat split).
  split; simpl; [| |lia| |by left].
  - intros r Hr. left. exists (f r). split; [by apply list_elem_of_fmap_2|apply Hf].
  - intros r (r0 & -> & Hr)%list_elem_of_fmap. left. by exists r0.
  - unfold bounded. simpl. intros [Hd Hb]. split.
    + rewrite <-list_fmap_compose. erewrite list_fmap_ext; [exact Hd|]. intros i r _. simpl.
      by destruct (Hf r) as [<- _].
    + apply Forall_fmap. eapply Forall_impl; [exact Hb|]. simpl. intros r. by destruct (Hf r) as [<- _].
Qed.

Lemma sealed_in_insert sid s d sid' :
  sealed_in sid' (Store.set_sessions (<[sid := s]>) d) =
  if bool_decide (sid = sid') then has_seal s else sealed_in sid' d.
Proof.
  unfold sealed_in, Store.get_session. simpl. case_bool_decide as E.
  - subst. by rewrite lookup_insert_eq.
  - by rewrite lookup_insert_ne.
Qed.

Lemma update_effect gone closed sid u d : effect gone closed d (Store.update_session sid u d).2.
Proof.
  unfold Store.update_session, Store.gets, mbind, Store.M_bind.
  destruct (Store.get_session sid d) as [s|] eqn:Es; simpl; [|apply effect_refl].
  apply effect_sessions; [done|done|]. intros sid'. rewrite sealed_in_insert. case_bool_decide as E; [|by left].
  subst. left. unfold sealed_in. by rewrite Es.
Qed.

Lemma seal_effect sid reason d :
  effect (λ r, (Store.q_session_id r != sid) = false) (λ s, s = sid) d (Store.seal_session sid reason d).2.
Proof.
  unfold Store.seal_session, Store.now, Store.tick, mbind, Store.M_bind. simpl.
  destruct (Store.sessions d !! sid) as [s|] eqn:Es; simpl; [|by apply effect_same].
  destruct (is_some (Store.s_sealed_at s)) eqn:Ea; simpl; [by apply effect_same|].
  destruct reason as [r|], (Store.s_card_id s) as [c|]; simpl;
    (apply effect_filter; [done|done|]; intros sid';
     unfold sealed_in, Store.get_session; simpl; destruct (decide (sid = sid')) as [->|Hne]; [by right|];
     rewrite lookup_insert_ne by done; by left).
Qed.

(** What the statements on cards leave alone: the queue, and the seal and the
    conversation of every session. *)
Record untouched (d d' : Store.Db) : Prop := {
  untouched_queue : Store.queued d' = Store.queued d;
  untouched_next : Store.queued_next d' = Store.queued_next d;
  untouched_sessions sid :
    (λ s, (Store.s_sealed_at s, Store.s_conversation_id s)) <$> Store.get_session sid d' =
    (λ s, (Store.s_sealed_at s, Store.s_conversation_id s)) <$> Store.get_session sid d }.

Lemma untouched_refl d : untouched d d.
Proof. done. Qed.

(** A write to another table. *)
Lemma untouched_write f d :
  (∀ d', Store.queued (f d') = Store.queued d' ∧ Store.queued_next (f d') = Store.queued_next d' ∧
     Store.sessions (f d') = Store.sessions d') →
  Store.Preserves (untouched d) (Store.modify f).
Proof.
  intros Hf d' [Hq Hn Hs]. destruct (Hf d') as (Eq & En & Es). unfold Store.modify. simpl.
  split; [congruence|congruence|]. intros sid. rewrite <-Hs. unfold Store.get_session. by rewrite Es.
Qed.

#[local] Instance untouched_tick d : Store.Preserves (untouched d) Store.tick.
Proof. intros d' [Hq Hn Hs]. by split. Qed.
#[local] Instance untouched_now d : Store.Preserves (untouched d) Store.now.
Proof. unfold Store.now. apply _. Qed.
#[local] Instance untouched_uuid d : Store.Preserves (untouched d) Store.uuid.
Proof. unfold Store.uuid. apply _. Qed.
#[local] Instance untouched_cards d g : Store.Preserves (untouched d) (Store.modify (Store.set_cards g)).
Proof. by apply untouched_write. Qed.
#[local] Instance untouched_runs d g : Store.Preserves (untouched d) (Store.modify (Store.set_runs g)).
Proof. by apply untouched_write. Qed.
#[local] Instance untouched_close d c s o sm t : Store.Preserves (untouched d) (Store.close_runs c s o sm t).
Proof. unfold Store.close_runs. Store.preserve. Qed.

Lemma sever_seal step s : Store.s_sealed_at (Store.sever step s) = Store.s_sealed_at s ∧
  Store.s_conversation_id (Store.sever step s) = Store.s_conversation_id s.
Proof. unfold Store.sever. by repeat case_match. Qed.

Lemma sever_all step l (m : gmap string Store.Session) sid :
  (λ s, (Store.s_sealed_at s, Store.s_conversation_id s)) <$>
    foldl (λ m sid, alter (Store.sever step) sid m) m l !! sid =
  (λ s, (Store.s_sealed_at s, Store.s_conversation_id s)) <$> m !! sid.
Proof.
  revert m. induction l as [|x l IH]; intros m; simpl; [done|]. rewrite IH.
  destruct (decide (x = sid)) as [->|Hne]; [|by rewrite lookup_alter_ne].
  rewrite lookup_alter_eq. destruct (m !! sid) as [s|]; [|done]. simpl. by destruct (sever_seal step s) as [-> ->].
Qed.

#[local] Instance untouched_sever d p c : Store.Preserves (untouched d) (Store.sever_worker_resume_link p c).
Proof.
  unfold Store.sever_worker_resume_link. Store.preserve.
  intros d' [Hq Hn Hs]. split; [done..|]. intros sid. rewrite <-Hs. apply sever_all.
Qed.

Lemma untouched_transaction {A} d (m : Store.M A) :
  Store.Preserves (untouched d) m → Store.Preserves (untouched d) (Store.transaction m).
Proof.
  intros Hm d' Hd. unfold Store.transaction. specialize (Hm d' Hd). destruct (m d') as [[a|e] d'']; [done|].
  by destruct Hd.
Qed.

Lemma on_board_untouched {A : Type@{answer}} (o : BoardOp A) d : untouched d (on_board o d).2.
Proof.
  cut (Store.Preserves (untouched d) (on_board o)); [intros Hp; apply Hp, untouched_refl|].
  destruct o; cbn [on_board].
  - unfold Store.clear_card_worker_if_matches. Store.preserve.
  - unfold Store.claim_card_for_worker. Store.preserve.
  - unfold Store.update_card, Store.stamp_completed_at. Store.preserve.
  - unfold Store.open_card_run. Store.preserve. apply untouched_transaction. Store.preserve.
  - unfold Store.close_card_run. Store.preserve.
Qed.

Lemma on_board_effect gone closed {A : Type@{answer}} (o : BoardOp A) d : effect gone closed d (on_board o d).2.
Proof.
  destruct (on_board_untouched o d) as [Hq Hn Hs]. apply effect_sessions; [done|done|]. intros sid Hsid. left.
  unfold sealed_in in *. specialize (Hs sid).
  destruct (Store.get_session sid (on_board o d).2) as [s'|], (Store.get_session sid d) as [s|]; try done.
  unfold has_seal in *. by injection Hs as <- _.
Qed.

Lemma delete_session_effect sid d :
  effect (λ r, (Store.q_session_id r != sid) = false) none d (Store.delete_session sid d).2.
Proof.
  unfold Store.delete_session, Store.constraint, Store.gets, Store.modify, mbind, Store.M_bind. simpl.
  destruct (_ || _); simpl.
  - apply effect_filter; [done|done|]. intros sid'. unfold sealed_in, Store.get_session. simpl.
    destruct (decide (sid = sid')) as [->|Hne]; [by rewrite lookup_delete_eq|rewrite lookup_delete_ne by done; by left].
  - apply effect_filter; [done|done|]. by left.
Qed.

Lemma effect_mono (gone gone' : Store.QueuedMessage → Prop) (closed closed' : string → Prop) d d' :
  (∀ r, gone r → gone' r) → (∀ s, closed s → closed' s) → effect gone closed d d' → effect gone' closed' d d'.
Proof.
  intros Hg Hc [Hr Hb Hn Hbd Hs]. split; [|done..|].
  - intros r Hin. destruct (Hr r Hin); auto.
  - intros sid Hsid. destruct (Hs sid Hsid); auto.
Qed.

(** The calls that take rows from the queue, and the one that seals. *)
Definition removes {B} (o : Op B) (r : Store.QueuedMessage) : Prop :=
  match o with
  | DeleteQueued s id => Store.q_session_id r = s ∧ Store.q_id r = id
  | ClearQueued s | SealSession s _ | DeleteSession s => Store.q_session_id r = s
  | _ => False
  end.

Definition closes {B} (o : Op B) (sid : string) : Prop :=
  match o with SealSession s _ => sid = s | _ => False end.

Lemma stmt_effect {A} gone closed f (m : Store.M A) h r h' :
  stmt f m h = Some (r, h') → effect gone closed (db h) (m (db h)).2 → effect gone closed (db h) (db h').
Proof.
  unfold stmt. destruct (fault f); [intros [= <- <-] _; apply effect_refl|].
  destruct (m (db h)) as [x d]. by intros [= <- <-].
Qed.

Lemma db_effect gone closed h h' : db h' = db h → effect gone closed (db h) (db h').
Proof. intros ->. apply effect_refl. Qed.

Lemma on_turns_same {A} (m : Runtime → A * Runtime) h a h' :
  on_turns m h = Some (a, h') → db h' = db h ∧ locks h' = locks h.
Proof. unfold on_turns. destruct (m (turns h)) as [x rt]. by intros [= <- <-]. Qed.

Lemma update_row_effect gone closed sid u f h r h' :
  update_row sid u f h = Some (r, h') → effect gone closed (db h) (db h').
Proof.
  unfold update_row. destruct (stmt _ _ _) as [[x h1]|] eqn:E; [|done].
  apply (stmt_effect gone closed) in E; [|apply update_effect].
  by destruct x as [[s|]|e]; intros [= <- <-].
Qed.

Lemma call_effect B t (o : Op B) f h b h' :
  exec B t o f h = Some (b, h') → effect (removes o) (closes o) (db h) (db h').
Proof.
  destruct o; cbn [exec]; try (apply update_row_effect);
    try (intros [= <- <-]; apply effect_refl);
    try (intros E%on_turns_same; apply db_effect, E);
    try (unfold query; intros [= <- <-]; apply effect_refl).
  - destruct (locks h !! sid); [done|]. intros [= <- <-]. apply effect_refl.
  - destruct (locks h !! sid); intros [= <- <-]; apply effect_refl.
  - intros [= <- <-]. apply db_effect. by destruct (bool_decide _).
  - intros E. eapply stmt_effect; [exact E|apply enqueue_effect].
  - intros E. eapply stmt_effect; [exact E|apply mark_effect].
  - intros E. eapply stmt_effect; [exact E|].
    eapply effect_mono; [| |eapply (effect_filter _ none); [done|done|by left]]; [|done].
    intros r Hr%negb_false_iff. unfold Store.is_message in Hr. apply andb_true_iff in Hr as [H1%bool_decide_eq_true H2%Z.eqb_eq].
    by split.
  - intros E. eapply stmt_effect; [exact E|].
    eapply effect_mono; [| |eapply (effect_filter _ none); [done|done|by left]]; [|done].
    intros r Hr%negb_false_iff. by apply bool_decide_eq_true in Hr.
  - intros E. eapply stmt_effect; [exact E|apply append_event_effect].
  - unfold take_doc_review. destruct (fault f); intros [= <- <-]; [apply effect_refl|].
    apply db_effect. by destruct (more h !! sid).
  - intros E. eapply stmt_effect; [exact E|]. eapply effect_mono; [| |apply seal_effect]; [|done].
    intros r Hr%negb_false_iff. by apply bool_decide_eq_true in Hr.
  - intros E. eapply stmt_effect; [exact E|]. by apply effect_same.
  - unfold delete_row. destruct (stmt _ _ _) as [[[x|e] h1]|] eqn:E; [..|done]; intros [= <- <-]; simpl;
      (eapply stmt_effect; [exact E|]; eapply effect_mono; [| |apply delete_session_effect]; [|done];
       intros r Hr%negb_false_iff; by apply bool_decide_eq_true in Hr).
  - intros E. eapply stmt_effect; [exact E|apply on_board_effect].
  - repeat case_match; intros [= <- <-]; apply effect_refl.
  - repeat case_match; intros [= <- <-]; apply effect_refl.
  - repeat case_match; intros [= <- <-]; apply effect_refl.
Qed.

(** What a call does to the locks. *)
Definition locks_after {B} (t : nat) (o : Op B) (l : gmap string nat) : gmap string nat :=
  match o with
  | LockSession s => <[s := t]> l
  | TryLock s => match l !! s with Some _ => l | None => <[s := t]> l end
  | UnlockSession s => if bool_decide (l !! s = Some t) then delete s l else l
  | _ => l
  end.

Lemma stmt_locks {A} f (m : Store.M A) h r h' : stmt f m h = Some (r, h') → locks h' = locks h.
Proof. unfold stmt. destruct (fault f); [by intros [= <- <-]|]. destruct (m (db h)). by intros [= <- <-]. Qed.

Lemma call_locks B t (o : Op B) f h b h' :
  exec B t o f h = Some (b, h') → locks h' = locks_after t o (locks h).
Proof.
  destruct o; cbn [exec locks_after];
    try (intros [= <- <-]; done);
    try (apply stmt_locks);
    try (intros E%on_turns_same; apply E);
    try (repeat case_match; by intros [= <- <-]).
  - unfold update_row. destruct (stmt _ _ _) as [[x h1]|] eqn:E; [|done]. apply stmt_locks in E.
    by destruct x as [[s|]|e]; intros [= <- <-].
  - unfold take_doc_review. destruct (fault f); intros [= <- <-]; [done|]. by destruct (more h !! sid).
  - unfold delete_row. destruct (stmt _ _ _) as [[[x|e] h1]|] eqn:E; [..|done]; apply stmt_locks in E; by intros [= <- <-].
Qed.

Lemma call_lock t sid f h b h' : exec unit t (LockSession sid) f h = Some (b, h') → locks h !! sid = None.
Proof. cbn [exec]. by destruct (locks h !! sid). Qed.
End effects.

(** ** The backlog of a session *)

Abbreviation queue_ids d := (Store.q_id <$> Store.queued d).

(** The ids a handler has read from the queue or handed over. *)
Definition known (v : View) (id : Z) : Prop := id ∈ row_ids (listed v) ∨ id ∈ handed v.

(** Database, locks, requests and their views.  Of two handlers that deliver the
    backlog of a session, one holds the lock at a time; what it has handed over
    is gone from the queue when it lets go, unless a delete failed. *)
Record ok (d : Store.Db) (L : gmap string nat) (Q : nat → option Request) (V : nat → View) : Prop := {
  ok_locks s t : L !! s = Some t ↔ ∃ q, Q t = Some q ∧ target q = s ∧ held (V t) = true;
  ok_bounded : bounded d;
  ok_known t id : known (V t) id → id < Store.queued_next d;
  ok_owner t q r : Q t = Some q → known (V t) (Store.q_id r) → r ∈ Store.queued d →
    Store.q_session_id r = target q;
  ok_deleted t q id : Q t = Some q → drains q = true → id ∈ deleted (V t) →
    id < Store.queued_next d ∧ (id ∈ failed (V t) ∨ id ∉ queue_ids d);
  ok_gone t q id : Q t = Some q → drains q = true → id ∈ handed (V t) →
    held (V t) = true ∨ id ∈ failed (V t) ∨ id ∉ queue_ids d;
  ok_race t1 t2 q1 q2 id : t1 ≠ t2 → Q t1 = Some q1 → Q t2 = Some q2 → drains q1 = true → drains q2 = true →
    target q1 = target q2 → held (V t2) = true → id ∈ row_ids (listed (V t2)) → id ∈ handed (V t1) →
    id ∈ failed (V t1);
  ok_once t1 t2 q1 q2 id : t1 ≠ t2 → Q t1 = Some q1 → Q t2 = Some q2 → drains q1 = true → drains q2 = true →
    target q1 = target q2 → id ∈ handed (V t1) → id ∈ handed (V t2) →
    id ∈ failed (V t1) ∨ id ∈ failed (V t2) }.

(** The view of one handler changes. *)
Definition at_thread (t : nat) (v : View) (V : nat → View) (t' : nat) : View :=
  if decide (t = t') then v else V t'.

Section backlog.
Context (d : Store.Db) (L : gmap string nat) (Q : nat → option Request) (V : nat → View).

Lemma gone_stays gone closed d' id :
  effect gone closed d d' → id < Store.queued_next d → id ∉ queue_ids d → id ∉ queue_ids d'.
Proof.
  intros He Hlt Hn (r & -> & Hr)%list_elem_of_fmap.
  destruct (effect_back _ _ _ _ He r Hr) as [(r0 & Hr0 & Hid & _)|Hge]; [|lia].
  apply Hn. rewrite <-Hid. by apply list_elem_of_fmap_2.
Qed.

(** The database changes under the feet of the handlers. *)
Lemma ok_env gone closed d' : effect gone closed d d' → ok d L Q V → ok d' L Q V.
Proof.
  intros He [Hl Hb Hk Ho Hd Hg Hr H1]. pose proof (effect_next _ _ _ _ He) as Hn. split; [done|..|done|done].
  - by apply (effect_bounded _ _ _ _ He).
  - intros t id Hid. specialize (Hk t id Hid). lia.
  - intros t q r Hq Hr' Hin. destruct (effect_back _ _ _ _ He r Hin) as [(r0 & Hr0 & Hsame)|Hge].
    + destruct Hsame as (Hid & <- & _). apply (Ho t q r0 Hq); [by rewrite Hid|done].
    + specialize (Hk _ _ Hr'). lia.
  - intros t q id Hq Hdr Hid. destruct (Hd t q id Hq Hdr Hid) as [Hlt [Hf|Ha]]; (split; [lia|]); [by left|right].
    by eapply gone_stays.
  - intros t q id Hq Hdr Hid. destruct (Hg t q id Hq Hdr Hid) as [?|[?|Ha]]; [by left|by right; left|].
    right. right. eapply gone_stays; [done| |done]. apply (Hk t). by right.
Qed.

(** *** The view of one handler changes *)

Context (t : nat) (q : Request) (Hok : ok d L Q V) (Hq : Q t = Some q).

Lemma at_thread_eq v' : at_thread t v' V t = v'.
Proof. unfold at_thread. by case_decide. Qed.

Lemma at_thread_ne v' t' : t ≠ t' → at_thread t v' V t' = V t'.
Proof. intros Hne. unfold at_thread. by case_decide. Qed.

Lemma same_at {A} (g : View → A) v' : g v' = g (V t) → ∀ t', g (at_thread t v' V t') = g (V t').
Proof. intros E t'. unfold at_thread. by case_decide; subst. Qed.

(** The lock is free for another, or held by it alone. *)
Lemma lock_alone t' q' : t ≠ t' → Q t' = Some q' → target q = target q' → held (V t) = true → held (V t') = false.
Proof.
  intros Hne Hq' Ht Hh. destruct (held (V t')) eqn:Hh'; [|done]. exfalso. apply Hne.
  assert (L !! target q = Some t) as H1 by (apply (ok_locks _ _ _ _ Hok); eauto).
  assert (L !! target q = Some t') as H2 by (apply (ok_locks _ _ _ _ Hok); eauto). congruence.
Qed.

(** What was handed over and what failed stays; the queue read so far is dropped. *)
Record reset (v' : View) : Prop := {
  reset_listed : listed v' = None;
  reset_deleted : deleted v' = [];
  reset_handed : handed v' = handed (V t);
  reset_failed : failed v' = failed (V t) }.

Lemma ok_reset v' L' :
  reset v' →
  (∀ s t', L' !! s = Some t' ↔ ∃ q, Q t' = Some q ∧ target q = s ∧ held (at_thread t v' V t') = true) →
  (drains q = true → held v' = false → ∀ id, id ∈ handed (V t) → id ∈ failed (V t) ∨ id ∉ queue_ids d) →
  ok d L' Q (at_thread t v' V).
Proof.
  intros [E2 E3 E4 E5] HL Hgone. destruct Hok as [Hl Hb Hk Ho Hd Hg Hr H1].
  pose proof (same_at handed v' E4) as Eh.
  pose proof (same_at failed v' E5) as Ef.
  assert (∀ t' id, known (at_thread t v' V t') id → known (V t') id) as Hkn.
  { intros t' id. unfold known. rewrite Eh. intros [Hid|?]; [left|by right]. revert Hid.
    unfold at_thread. case_decide; [|done]. rewrite E2. intros Hn. by apply elem_of_nil in Hn. }
  split; [done|done|eauto|eauto|..].
  - intros t' q' id Hq' Hdr. rewrite Ef. unfold at_thread. case_decide; [|eauto].
    rewrite E3. intros Hn. by apply elem_of_nil in Hn.
  - intros t' q' id Hq' Hdr. rewrite Eh, Ef. intros Hid. destruct (decide (t = t')) as [<-|Hne].
    + rewrite at_thread_eq. destruct (held v') eqn:Hh; [by left|right]. apply Hgone; [congruence|done|done].
    + rewrite at_thread_ne by done. eauto.
  - intros t1 t2 q1 q2 id Hne Hq1 Hq2 Hd1 Hd2 Ht. rewrite Eh, Ef. destruct (decide (t = t2)) as [<-|Hne2].
    + rewrite at_thread_eq, E2. intros _ Hn. by apply elem_of_nil in Hn.
    + rewrite at_thread_ne by done. eauto.
  - intros t1 t2 q1 q2 id. rewrite !Eh, !Ef. eauto.
Qed.

Lemma ok_lock v' :
  reset v' → held v' = true → L !! target q = None → ok d (<[target q := t]> L) Q (at_thread t v' V).
Proof.
  intros Hr Hh Hfree. apply ok_reset; [done| |by rewrite Hh]. pose proof (ok_locks _ _ _ _ Hok) as Hl.
  intros s t'. destruct (decide (t = t')) as [<-|Hne].
  - rewrite at_thread_eq. destruct (decide (target q = s)) as [<-|Hs].
    + rewrite lookup_insert_eq. split; eauto.
    + rewrite lookup_insert_ne, Hl by done. split; intros (q' & Hq' & Ht & _); congruence.
  - rewrite at_thread_ne by done. destruct (decide (target q = s)) as [<-|Hs].
    + rewrite lookup_insert_eq. split; [congruence|]. rewrite <-Hl, Hfree. done.
    + by rewrite lookup_insert_ne, Hl.
Qed.

Lemma ok_unlock v' :
  reset v' → held v' = false → held (V t) = true →
  (drains q = true → ∀ id, id ∈ handed (V t) → id ∈ deleted (V t)) →
  ok d (delete (target q) L) Q (at_thread t v' V).
Proof.
  intros Hr Hh Hheld Hdel. pose proof (ok_locks _ _ _ _ Hok) as Hl. apply ok_reset; [done|..].
  - intros s t'. destruct (decide (t = t')) as [<-|Hne].
    + rewrite at_thread_eq, Hh. split; [|by intros (? & _ & _ & ?)]. destruct (decide (target q = s)) as [<-|Hs].
      * by rewrite lookup_delete_eq.
      * rewrite lookup_delete_ne, Hl by done. intros (q' & Hq' & Ht & _). congruence.
    + rewrite at_thread_ne by done. destruct (decide (target q = s)) as [<-|Hs].
      * rewrite lookup_delete_eq. split; [done|]. intros (q' & Hq' & Ht & Hh').
        by rewrite (lock_alone t' q') in Hh'.
      * by rewrite lookup_delete_ne, Hl.
  - intros Hdr _ id Hid. by apply (ok_deleted _ _ _ _ Hok t q id), Hdel.
Qed.

(** The queue is read. *)
Lemma ok_list v' rows :
  listed v' = Some rows → held v' = held (V t) → deleted v' = deleted (V t) →
  handed v' = handed (V t) → failed v' = failed (V t) →
  (∀ r, r ∈ rows → r ∈ Store.queued d ∧ Store.q_session_id r = target q) →
  ok d L Q (at_thread t v' V).
Proof.
  intros E2 E1 E3 E4 E5 Hrows. pose proof lock_alone as Hal. destruct Hok as [Hl Hb Hk Ho Hd Hg Hr H1].
  pose proof (same_at handed v' E4) as Eh.
  pose proof (same_at failed v' E5) as Ef.
  pose proof (same_at deleted v' E3) as Ed.
  pose proof (same_at held v' E1) as Ehd.
  assert (∀ t' id, known (at_thread t v' V t') id → known (V t') id ∨ t' = t ∧ id ∈ Store.q_id <$> rows) as Hkn.
  { intros t' id. unfold known. rewrite Eh. intros [Hid|?]; [|by left; right]. revert Hid.
    unfold at_thread. case_decide; [|by left; left]. rewrite E2. intros Hid. by right. }
  split; [intros s t'; by rewrite Ehd|done|..].
  - intros t' id [?|[-> (r & -> & Hin)%list_elem_of_fmap]]%Hkn; [by eapply Hk|].
    destruct Hb as [_ Hb]. rewrite Forall_forall in Hb. apply Hb. by apply Hrows.
  - intros t' q' r Hq' [?|[-> (r0 & Hid & Hin)%list_elem_of_fmap]]%Hkn Hr'; [by eapply Ho|].
    destruct (Hrows _ Hin) as [Hin0 Hs0]. destruct Hb as [Hb _].
    assert (r = r0) as ->; [|congruence].
    apply list_elem_of_lookup in Hr' as [i Hi]. apply list_elem_of_lookup in Hin0 as [j Hj].
    assert (i = j) as ->; [|congruence].
    eapply (NoDup_lookup _ _ _ (Store.q_id r)); [exact Hb|rewrite list_lookup_fmap, Hi; done|].
    rewrite list_lookup_fmap, Hj. simpl. by rewrite Hid.
  - intros t' q' id. rewrite Ed, Ef. eauto.
  - intros t' q' id. rewrite Eh, Ef, Ehd. eauto.
  - intros t1 t2 q1 q2 id Hne Hq1 Hq2 Hd1 Hd2 Ht. rewrite Ehd, Eh, Ef. destruct (decide (t = t2)) as [<-|Hne2].
    + rewrite at_thread_eq, E2. intros Hh (r & -> & Hin)%list_elem_of_fmap Hid.
      destruct (Hg t1 q1 _ Hq1 Hd1 Hid) as [Hh1|[?|Ha]]; [|done|].
      * rewrite (Hal t1 q1) in Hh1; try done. congruence.
      * exfalso. apply Ha, list_elem_of_fmap_2. by apply Hrows.
    + rewrite at_thread_ne by done. eauto.
  - intros t1 t2 q1 q2 id. rewrite !Eh, !Ef. eauto.
Qed.

(** A turn or message is handed over. *)
Lemma ok_offer text :
  held (V t) = true → ok d L Q (at_thread t (offer text (V t)) V).
Proof.
  intros Hh. pose proof lock_alone as Hal. destruct Hok as [Hl Hb Hk Ho Hd Hg Hr H1].
  set (v' := offer text (V t)).
  pose proof (same_at failed v' eq_refl) as Ef. pose proof (same_at deleted v' eq_refl) as Ed.
  pose proof (same_at held v' eq_refl) as Ehd. pose proof (same_at listed v' eq_refl) as El.
  assert (∀ t' id, id ∈ handed (at_thread t v' V t') →
    id ∈ handed (V t') ∨ t' = t ∧ id ∈ row_ids (listed (V t))) as Hn.
  { intros t' id. unfold at_thread. case_decide; [|by left]. subst t'. simpl. rewrite elem_of_app. intuition. }
  assert (∀ t' id, known (at_thread t v' V t') id → known (V t') id) as Hkn.
  { intros t' id. unfold known. rewrite El. intros [?|[?|[-> ?]]%Hn]; intuition. }
  split; [intros s t'; by rewrite Ehd|done|eauto|eauto|..].
  - intros t' q' id. rewrite Ed, Ef. eauto.
  - intros t' q' id Hq' Hdr [Hid|[-> Hid]]%Hn; rewrite Ehd, Ef; [eauto|by left].
  - intros t1 t2 q1 q2 id Hne Hq1 Hq2 Hd1 Hd2 Ht. rewrite Ehd, El, Ef. intros Hh2 Hid2 [Hid|[-> Hid]]%Hn; [eauto|].
    rewrite (Hal t2 q2) in Hh2; [done|done|done|congruence|done].
  - intros t1 t2 q1 q2 id Hne Hq1 Hq2 Hd1 Hd2 Ht. rewrite !Ef. intros [Hi1|[-> Hi1]]%Hn [Hi2|[-> Hi2]]%Hn.
    + eauto.
    + left. by eapply (Hr t1 t q1 q2).
    + right. by eapply (Hr t2 t q2 q1).
    + done.
Qed.

(** A row is deleted, or the delete failed. *)
Lemma ok_delete v' id :
  deleted v' = id :: deleted (V t) → held v' = held (V t) → listed v' = listed (V t) →
  handed v' = handed (V t) →
  (∀ i, i ∈ failed (V t) → i ∈ failed v') →
  (drains q = true → id ∈ handed (V t) ∧ (id ∈ failed v' ∨ id ∉ queue_ids d)) →
  ok d L Q (at_thread t v' V).
Proof.
  intros E3 E1 E2 E4 Hf Hid. destruct Hok as [Hl Hb Hk Ho Hd Hg Hr H1].
  pose proof (same_at held v' E1) as Ehd. pose proof (same_at listed v' E2) as El.
  pose proof (same_at handed v' E4) as Eh.
  assert (∀ t' i, i ∈ failed (V t') → i ∈ failed (at_thread t v' V t')) as Ef.
  { intros t' i. unfold at_thread. case_decide; [subst; apply Hf|done]. }
  assert (∀ t' i, known (at_thread t v' V t') i → known (V t') i) as Hkn by (intros t' i; unfold known; by rewrite El, Eh).
  split; [intros s t'; by rewrite Ehd|done|eauto|eauto|..].
  - intros t' q' i Hq' Hdr. destruct (decide (t = t')) as [<-|Hne].
    + rewrite at_thread_eq, E3. intros [->|Hi]%elem_of_cons.
      * destruct Hid as [Hh Hx]; [congruence|]. split; [|done]. apply (Hk t). by right.
      * destruct (Hd t q' i Hq' Hdr Hi) as [? [?|?]]; (split; [done|]); [left; by apply Hf|by right].
    + rewrite at_thread_ne by done. eauto.
  - intros t' q' i Hq' Hdr. rewrite Eh, Ehd. intros Hi.
    destruct (Hg t' q' i Hq' Hdr Hi) as [?|[?|?]]; [by left|right; left; by apply Ef|by right; right].
  - intros t1 t2 q1 q2 i. rewrite Ehd, El, Eh. intros. apply Ef. eauto.
  - intros t1 t2 q1 q2 i Hne Hq1 Hq2 Hd1 Hd2 Ht. rewrite !Eh. intros Hi1 Hi2.
    destruct (H1 t1 t2 q1 q2 i Hne Hq1 Hq2 Hd1 Hd2 Ht Hi1 Hi2) as [?|?]; [left|right]; by apply Ef.
Qed.

(** Nothing of this changes. *)
Lemma ok_plain v' :
  held v' = held (V t) → listed v' = listed (V t) → deleted v' = deleted (V t) →
  handed v' = handed (V t) → failed v' = failed (V t) → ok d L Q (at_thread t v' V).
Proof.
  intros E1 E2 E3 E4 E5. destruct Hok as [Hl Hb Hk Ho Hd Hg Hr H1].
  pose proof (same_at held v' E1) as Ehd. pose proof (same_at listed v' E2) as El.
  pose proof (same_at handed v' E4) as Eh. pose proof (same_at failed v' E5) as Ef.
  pose proof (same_at deleted v' E3) as Ed.
  assert (∀ t' i, known (at_thread t v' V t') i → known (V t') i) as Hkn by (intros t' i; unfold known; by rewrite El, Eh).
  split; [intros s t'; by rewrite Ehd|done|eauto|eauto|..].
  - intros t' q' i. rewrite Ed, Ef. eauto.
  - intros t' q' i. rewrite Eh, Ehd, Ef. eauto.
  - intros t1 t2 q1 q2 i. rewrite Ehd, El, Eh, Ef. eauto.
  - intros t1 t2 q1 q2 i. rewrite !Eh, !Ef. eauto.
Qed.
End backlog.

(** No request yet. *)
Abbreviation start h := (mkWorld (O := Op) (S := Host) (Q := Request) (R := unit) (A := Result Z Reply) h [] []).

Section schedules.
Context `{Store.World, JsonApi, !MoreJson} (providers : list Provider).

Lemma list_queued_elem sid d r :
  r ∈ Store.list_queued_messages sid d → r ∈ Store.queued d ∧ Store.q_session_id r = sid.
Proof.
  unfold Store.list_queued_messages. rewrite (sort_by_perm _ _). rewrite list_elem_of_In, filter_In, <-list_elem_of_In.
  by intros [? ?%bool_decide_eq_true].
Qed.

Lemma ok_call B t q (o : Op B) b f h h' Q V :
  ok (db h) (locks h) Q V → Q t = Some q → allow q (V t) (Ev (O := Op) o b) → exec B t o f h = Some (b, h') →
  ok (db h') (locks h') Q (at_thread t (upd (V t) (Ev (O := Op) o b)) V).
Proof.
  intros Hok Hq Hal He. rewrite (call_locks _ _ _ _ _ _ _ He).
  pose proof (ok_env _ _ _ _ _ _ _ (call_effect _ _ _ _ _ _ _ He) Hok) as Hok'.
  destruct o; try (eapply ok_plain; eassumption || reflexivity).
  - destruct Hal as [-> Hh]. by eapply ok_lock, call_lock.
  - destruct Hal as [-> Hh]. cbn [exec locks_after] in *. destruct (locks h !! target q) eqn:El;
      injection He as <- <-; [by eapply ok_plain|]. by eapply ok_lock.
  - destruct Hal as (-> & Hh & Hdel). cbn [locks_after]. rewrite bool_decide_eq_true_2.
    + by eapply ok_unlock.
    + apply (ok_locks _ _ _ _ Hok). eauto.
  - eapply ok_plain; try eassumption; by destruct b as [[r|]|].
  - eapply ok_plain; try eassumption; by destruct b as [[r|]|].
  - eapply ok_plain; try eassumption; by destruct b.
  - eapply ok_plain; try eassumption; by destruct b.
  - change (sid = target q) in Hal. subst sid. cbn [exec] in He. unfold query in He.
    destruct (fault f); injection He as <- <-; [by eapply ok_plain|].
    eapply ok_list; [done..|]. intros r. apply list_queued_elem.
  - destruct Hal as (-> & Hd). eapply ok_delete; [done..|destruct b; [done|intros i Hi; by right]|].
    intros Hdr. destruct Hd as [E|[E|(_ & _ & Hid)]]; [by rewrite E in Hdr..|]. split; [done|].
    cbn [exec] in He. unfold stmt in He. destruct (fault f); [injection He as <- <-; left; by left|right].
    injection He as <- <-. intros (r & -> & Hr)%list_elem_of_fmap.
    assert (Store.q_session_id r = target q) as Hs by (eapply (ok_owner _ _ _ _ Hok'); [done|by right|done]).
    apply list_elem_of_In, filter_In in Hr as [_ Hr]. unfold Store.is_message in Hr.
    by rewrite Hs, bool_decide_eq_true_2, Z.eqb_refl in Hr.
  - destruct b; [|by eapply ok_plain]. destruct Hal as (-> & Hh & _). by eapply ok_offer.
  - destruct b; [|by eapply ok_plain]. destruct Hal as (-> & (Hh & _) & _). by eapply ok_offer.
Qed.

Lemma ok_ext d L Q Q' V V' :
  (∀ t, Q t = Q' t) → (∀ t, V t = V' t) → ok d L Q V → ok d L Q' V'.
Proof.
  intros EQ EV [Hl Hb Hk Ho Hd Hg Hr Hone]. split; [|done|..]; intros *; rewrite <-?EQ, <-?EV; eauto.
Qed.

(** A request arrives: nothing has been called yet. *)
Lemma ok_arrives d L Q Q' V t q :
  Q' t = Some q → (∀ t', t ≠ t' → Q' t' = Q t') → Q t = None → V t = view0 → ok d L Q V → ok d L Q' V.
Proof.
  intros Hq Hne Hn Hv [Hl Hb Hk Ho Hd Hg Hr Hone].
  assert (∀ t' q', Q' t' = Some q' → t = t' ∨ Q t' = Some q') as Hcase.
  { intros t' q' Hq'. destruct (decide (t = t')) as [|Hne']; [by left|right]. by rewrite <-Hne. }
  split; [|done|done|..].
  - intros s t'. rewrite Hl. split; intros (q' & Hq' & Ht & Hh); exists q'.
    + destruct (decide (t = t')) as [<-|Hne']; [congruence|]. by rewrite Hne.
    + destruct (Hcase _ _ Hq') as [<-|?]; [by rewrite Hv in Hh|done].
  - intros t' q' r Hq' Hkn. destruct (Hcase _ _ Hq') as [<-|?]; [|eauto].
    rewrite Hv in Hkn. destruct Hkn as [Hx|Hx]; by apply elem_of_nil in Hx.
  - intros t' q' id Hq' Hdr Hid. destruct (Hcase _ _ Hq') as [<-|?]; [|eauto].
    rewrite Hv in Hid. by apply elem_of_nil in Hid.
  - intros t' q' id Hq' Hdr Hid. destruct (Hcase _ _ Hq') as [<-|?]; [|eauto].
    rewrite Hv in Hid. by apply elem_of_nil in Hid.
  - intros t1 t2 q1 q2 id Hne' Hq1 Hq2 Hd1 Hd2 Ht Hh Hi2 Hi1.
    destruct (Hcase _ _ Hq1) as [<-|?]; [rewrite Hv in Hi1; by apply elem_of_nil in Hi1|].
    destruct (Hcase _ _ Hq2) as [<-|?]; [by rewrite Hv in Hh|eauto].
  - intros t1 t2 q1 q2 id Hne' Hq1 Hq2 Hd1 Hd2 Ht Hi1 Hi2.
    destruct (Hcase _ _ Hq1) as [<-|?]; [rewrite Hv in Hi1; by apply elem_of_nil in Hi1|].
    destruct (Hcase _ _ Hq2) as [<-|?]; [rewrite Hv in Hi2; by apply elem_of_nil in Hi2|eauto].
Qed.

(** ** Worlds *)

Abbreviation play := (Programs.play (O := Op) exec (handle providers)).
Abbreviation moves := (Programs.moves (O := Op) exec (handle providers)).

Definition view (tr : list (nat * Event)) (t : nat) : View := foldl upd view0 (hist tr t).
Definition reqs (w : World) (t : nat) : option Request := request <$> threads w !! t.

(** Every call so far was allowed. *)
Definition allowed (w : World) : Prop :=
  kept (λ q _ h e, allow q (foldl upd view0 h) e) (λ _ _ _ _, True) w.

Lemma manager_paths q r :
  paths (λ h e, allow q (foldl upd view0 h) e) (λ _ _, True) [] (handle providers r q).
Proof.
  destruct r. eapply paths_mono; [|apply (walk_paths upd (allow q) (λ _ _, True) view0 [])]; [done|].
  apply handle_allowed.
Qed.

Lemma view_self tr t e : view (tr ++ [(t, e)]) t = upd (view tr t) e.
Proof. unfold view. by rewrite hist_app, hist_self, foldl_app. Qed.

Lemma view_other tr t t' e : t ≠ t' → view (tr ++ [(t, e)]) t' = view tr t'.
Proof. intros Hne. unfold view. by rewrite hist_app, hist_other, app_nil_r. Qed.

Lemma view_snoc tr t e t' : at_thread t (upd (view tr t) e) (view tr) t' = view (tr ++ [(t, e)]) t'.
Proof.
  destruct (decide (t = t')) as [<-|Hne]; [by rewrite at_thread_eq, view_self|].
  by rewrite at_thread_ne, view_other.
Qed.

Lemma allowed_moves w w' : moves w w' → allowed w → allowed w'.
Proof. intros Hm. eapply kept_moves; [|exact Hm]. intros q r. apply manager_paths. Qed.

(** The next call of a thread is allowed. *)
Lemma allowed_next w t q r B (o : Op B) k b :
  allowed w → threads w !! t = Some (mkThread (O := Op) q r (Vis o k)) → allow q (view (trace w) t) (Ev (O := Op) o b).
Proof. intros Ha Ht. by destruct (kept_prog _ _ _ Ha t _ Ht b) as [HI _]. Qed.

Lemma reqs_insert w t q r p p' tr s t' :
  threads w !! t = Some (mkThread q r p) →
  reqs (mkWorld s (<[t := mkThread q r p']> (threads w)) tr) t' = reqs w t'.
Proof.
  intros Ht. unfold reqs. simpl. destruct (decide (t = t')) as [<-|Hne].
  - rewrite list_lookup_insert_eq by (by eapply lookup_lt_Some). by rewrite Ht.
  - by rewrite list_lookup_insert_ne.
Qed.

Definition world_ok (w : World) : Prop :=
  allowed w ∧ ok (db (server w)) (locks (server w)) (reqs w) (view (trace w)).

Lemma world_ok_moves w w' : moves w w' → world_ok w → world_ok w'.
Proof.
  intros Hm [Ha Hok]. split; [by eapply allowed_moves|]. destruct Hm as [|q r|t q r B o k f b s Ht He]; [done|..].
  - simpl. eapply (ok_arrives _ _ _ _ _ (length (threads w)) q); [..|exact Hok].
    + unfold reqs. simpl. by rewrite lookup_app_r, Nat.sub_diag.
    + intros t' Hne. unfold reqs. simpl. destruct (decide (t' < length (threads w))%nat).
      * by rewrite lookup_app_l.
      * by rewrite (lookup_ge_None_2 (threads w)), lookup_ge_None_2 by (rewrite ?length_app; simpl; lia).
    + unfold reqs. by rewrite lookup_ge_None_2.
    + unfold view. by rewrite (kept_new _ _ _ Ha).
  - simpl. eapply ok_ext; [| |eapply (ok_call _ t q o b f); [exact Hok| |by eapply allowed_next|done]].
    + intros t'. symmetry. by apply reqs_insert with (p := Vis o k).
    + intros t'. apply view_snoc.
    + unfold reqs. by rewrite Ht.
Qed.

Lemma world_ok_start h : bounded (db h) → locks h = ∅ → world_ok (start h).
Proof.
  intros Hb Hl. split.
  - apply (kept_play exec (handle providers) _ _ h []). intros q r. apply manager_paths.
  - simpl. rewrite Hl. split; unfold reqs; simpl; try done.
    + intros s t. rewrite lookup_empty. split; [done|]. by intros (? & ? & _).
    + intros t id [Hx|Hx]; by apply elem_of_nil in Hx.
Qed.

Lemma world_ok_play h l : bounded (db h) → locks h = ∅ → world_ok (play (start h) l).
Proof. intros Hb Hl. apply play_ind; [by apply world_ok_start|]. intros v v'. apply world_ok_moves. Qed.
End schedules.
End ManagerSafety.
