(* ===== verification/ManagerRuns.v ===== *)
(** * Queued messages and dispatches, in every schedule *)

From S2P Require Import Prelude RustStr Json Pipeline Store Programs Turns Resume Manager Watchdog Handover ManagerRoutes ManagerProps ManagerSafety.

Module ManagerRuns.
Export ManagerSafety.ManagerSafety.

(** ** Why a row left the queue *)

(** The reasons for which request [q], with the calls in [v] behind it, may take
    [r] from the queue. *)
Inductive reason (q : Request) (v : View) (r : Store.QueuedMessage) : Prop :=
| user_deletes : q = DeleteFromQueue (Store.q_session_id r) (Store.q_id r) → reason q v r
| user_forces : q = ForceQueued (Store.q_session_id r) (Store.q_id r) → reason q v r
| user_stops : user_stop q = true → target q = Store.q_session_id r → reason q v r
| card_moved : card_move q = true → target q = Store.q_session_id r → reason q v r
| session_sealed : seals q = true → target q = Store.q_session_id r → reason q v r
| session_deleted : deletes q = true → target q = Store.q_session_id r → reason q v r
| work_stopped : drains q = true → target q = Store.q_session_id r → stopped v = true → reason q v r
| delivered : drains q = true → target q = Store.q_session_id r → Store.q_id r ∈ handed v → reason q v r.

Lemma removes_same B (o : Op B) r r' : same_row r r' → removes o r' → removes o r.
Proof. intros (Hi & Hs & _). destruct o; simpl; try done; by rewrite Hi, Hs || rewrite Hs. Qed.

Lemma same_row_trans a b c : same_row a b → same_row b c → same_row a c.
Proof. unfold same_row. intuition congruence. Qed.

Section theorems.
Context `{Store.World, JsonApi, !MoreJson} (providers : list Provider).
Abbreviation play := (Programs.play (O := Op) exec (handle providers)).
Abbreviation act := (Programs.act (O := Op) exec (handle providers)).
Abbreviation moves := (Programs.moves (O := Op) exec (handle providers)).

Lemma removes_reason B (o : Op B) b q v r : removes o r → allow q v (Ev (O := Op) o b) → reason q v r.
Proof.
  destruct o; simpl; try done.
  - intros [<- <-] [Ht Hq]. destruct Hq as [->|[->|(Hd & _ & Hh)]].
    + by apply user_deletes.
    + by apply user_forces.
    + by apply delivered.
  - intros <- [Ht [[Hd|Hd]%orb_true_iff|[Hd Hs]]]; [by apply user_stops|by apply card_moved|by apply work_stopped].
  - intros <- (Ht & Hs & _). by apply session_sealed.
  - intros <- [Ht Hd]. by apply session_deleted.
Qed.

(** Still queued, or taken by a request that had a reason. *)
Definition accounted (r : Store.QueuedMessage) (w : World) : Prop :=
  (∃ r', r' ∈ Store.queued (db (server w)) ∧ same_row r r') ∨
  ∃ tr t th B (o : Op B) b tr', trace w = tr ++ (t, Ev (O := Op) o b) :: tr' ∧ threads w !! t = Some th ∧
    removes o r ∧ reason (request th) (view tr t) r.

Lemma accounted_moves r w w' : moves w w' → allowed w → accounted r w → accounted r w'.
Proof.
  intros Hm Ha Hacc. destruct Hm as [|q u|t q u B o k f b s Ht He]; [done|..].
  - destruct Hacc as [?|(tr & t & th & B & o & b & tr' & Htr & Hth & Hx)]; [by left|right].
    exists tr, t, th, B, o, b, tr'. split; [done|]. split; [by apply lookup_app_l_Some|done].
  - destruct Hacc as [(r1 & Hr1 & Hs1)|(tr & t' & th & B' & o' & b' & tr' & Htr & Hth & Hrm & Hre)].
    + destruct (effect_rows _ _ _ _ (call_effect _ _ _ _ _ _ _ He) r1 Hr1) as [(r2 & Hr2 & Hs2)|Hg].
      * left. exists r2. split; [done|]. by eapply same_row_trans.
      * right. apply (removes_same _ _ _ _ Hs1) in Hg.
        eexists (trace w), t, _, B, o, b, []. split; [done|]. simpl. split.
        { apply list_lookup_insert_eq. by eapply lookup_lt_Some. }
        split; [done|]. eapply (removes_reason _ _ b); [done|]. by eapply allowed_next.
    + right. destruct (decide (t = t')) as [<-|Hne].
      * eexists tr, t, _, B', o', b', (tr' ++ [_]). simpl. rewrite Htr, <-app_assoc. split; [done|].
        split; [apply list_lookup_insert_eq; by eapply lookup_lt_Some|].
        split; [done|]. rewrite Ht in Hth. by injection Hth as <-.
      * eexists tr, t', th, B', o', b', (tr' ++ [_]). simpl. rewrite Htr, <-app_assoc. split; [done|].
        by rewrite list_lookup_insert_ne.
Qed.

(** C6: in every schedule of the modelled requests, whatever the failures of the
    database, a queued message stays in the queue, unchanged but for the mark of
    its event, until a request takes it with a reason: the user deletes or forces
    it, clears the queue or stops the session; the card of the session is moved,
    by the user or by the MCP tool of an agent, which drops the backlog of its
    worker; the session is sealed or deleted; a drain finds the session sealed or
    its project not active; or a drain has handed it to a provider. The deletion
    of a provider account, which rewrites the models of queued rows
    ([strip_account_model_refs]), is not among the requests. *)
Theorem queued_rows_accounted h l l' r :
  bounded (db h) → locks h = ∅ →
  r ∈ Store.queued (db (server (play (start h) l))) →
  accounted r (play (start h) (l ++ l')).
Proof.
  intros Hb Hl Hr. rewrite play_app.
  apply (play_ind _ _ (λ w, allowed w ∧ accounted r w)).
  - split; [by apply world_ok_play|]. left. exists r. split; [done|apply same_row_refl].
  - intros w w' Hm [Ha Hacc]. split; [by eapply allowed_moves|by eapply accounted_moves].
Qed.

(** C9: two drains of a session never hand the same queued message to a provider,
    unless the database refused to delete it. *)
Theorem drained_once h l t1 t2 q1 q2 id :
  bounded (db h) → locks h = ∅ → t1 ≠ t2 →
  reqs (play (start h) l) t1 = Some q1 → reqs (play (start h) l) t2 = Some q2 →
  drains q1 = true → drains q2 = true → target q1 = target q2 →
  id ∈ handed (view (trace (play (start h) l)) t1) → id ∈ handed (view (trace (play (start h) l)) t2) →
  id ∈ failed (view (trace (play (start h) l)) t1) ∨ id ∈ failed (view (trace (play (start h) l)) t2).
Proof.
  intros Hb Hl Hne Hq1 Hq2 Hd1 Hd2 Ht. destruct (world_ok_play providers h l Hb Hl) as [_ Hok].
  by apply (ok_once _ _ _ _ Hok t1 t2 q1 q2).
Qed.

(** C8: a turn resumes a conversation only if the row of its session, read under
    the lock, holds it and names a model of the same provider and account as the
    turn's, or holds it and names no model, in which case nothing is checked and
    any turn resumes it; or the newest attributed run in the event log was of
    the same provider and account and no handover or reset came after it. *)
Theorem resume_checked h l tr t sid plugin st b tr' cid :
  bounded (db h) → locks h = ∅ →
  trace (play (start h) l) = tr ++ (t, Ev (O := Op) (BeginTurn sid plugin st) b) :: tr' →
  ts_resume st = Some cid →
  held (view tr t) = true ∧ resumable (view tr t) cid (ts_model st).
Proof.
  intros Hb Hl Htr Hc. destruct (world_ok_play providers h l Hb Hl) as [Ha _].
  destruct (kept_call _ _ _ Ha _ _ _ _ Htr) as (th & _ & Hal).
  destruct Hal as (_ & (Hh & _) & Hres). split; [done|by apply Hres].
Qed.

(** ** Sealed sessions *)

(** The three ways in which a message reaches an agent: a turn starts with it, it
    is handed to a running turn, or it is written to the standard input of one. *)
Inductive dispatches (sid : string) : Event → Prop :=
| dispatch_turn plugin st : dispatches sid (Ev (O := Op) (BeginTurn sid plugin st) (Ok tt))
| dispatch_message plugin m : dispatches sid (Ev (O := Op) (QueueInjection plugin sid m) true)
| dispatch_stdin text : dispatches sid (Ev (O := Op) (WriteStdin sid text) true).

(** While a handler holds the lock, a session it has found open stays so. *)
Definition stays_open (d : Store.Db) (Q : nat → option Request) (V : nat → View) : Prop :=
  ∀ t q, Q t = Some q → found_open (V t) → sealed_in (target q) d = false.

(** The call read a session that is not there or has no seal. *)
Definition read_open (e : Event) : Prop :=
  match e with
  | @Ev _ _ o b =>
    match o in Op B return B → Prop with
    | GetSession s => λ b, match b with Ok (Some r) => sealed r = false | Ok None => True | Err _ => False end
    | _ => λ _, False
    end b
  end.

Lemma found_open_upd v e : found_open (upd v e) → found_open v ∨ read_open e.
Proof.
  destruct e as [B o b]. destruct o; cbn [upd]; try by left.
  - intros (_ & [?|(r & Hr & _)]); [done|by apply elem_of_nil in Hr].
  - destruct b; [|by left]. intros (_ & [?|(r & Hr & _)]); [done|by apply elem_of_nil in Hr].
  - intros (? & _); done.
  - destruct b as [[r'|]|]; [|by right|by left].
    intros (Hh & [Ha|(r & [->|Hr]%elem_of_cons & Hs)]); [left|by right|left]; (split; [done|]); [by left|right; by exists r].
  - destruct b as [[p|]|]; by left.
  - destruct b; by left.
  - destruct b; by left.
  - destruct b; by left.
  - destruct b; by left.
  - destruct b; by left.
Qed.

Lemma open_call B t q (o : Op B) b f h h' Q V :
  ok (db h) (locks h) Q V → stays_open (db h) Q V → Q t = Some q → mcp q = false →
  allow q (V t) (Ev (O := Op) o b) → exec B t o f h = Some (b, h') →
  stays_open (db h') Q (at_thread t (upd (V t) (Ev (O := Op) o b)) V).
Proof.
  intros Hok Ho Hq Hm Hal He t' q' Hq' Hf.
  pose proof (effect_sealed _ _ _ _ (call_effect _ _ _ _ _ _ _ He) (target q')) as Heff.
  apply not_true_is_false. intros Hsealed.
  assert (found_open (V t') → t = t' ∨ held (V t) = false → False) as Hbefore.
  { intros Hf' Hor. destruct (Heff Hsealed) as [Hb|Hcl]; [by rewrite (Ho t' q') in Hb|].
    destruct o; try done. simpl in Hcl. destruct Hal as (-> & _ & [Hmc|(Hheld & Hseen & Habs)]); [congruence|].
    destruct Hor as [<-|Hn]; [|congruence]. destruct Hf' as (_ & [?|(r & Hr & _)]); [congruence|].
    rewrite Hseen in Hr. by apply elem_of_nil in Hr. }
  destruct (decide (t = t')) as [<-|Hne].
  - rewrite at_thread_eq in Hf. destruct (found_open_upd _ _ Hf) as [Hf'|Hro]; [by apply Hbefore; [|left]|].
    assert (q = q') as <- by congruence.
    destruct o; try done. cbn [read_open exec] in Hro, He. unfold query in He.
    destruct (fault f); injection He as <- <-; [done|]. change (sid = target q) in Hal. subst sid.
    unfold get_row in Hro. unfold sealed_in in Hsealed.
    destruct (Store.get_session (target q) (db h)) as [x|]; [|done].
    unfold sealed in Hro. simpl in Hro. unfold has_seal in Hsealed. congruence.
  - rewrite at_thread_ne in Hf by done. destruct (held (V t)) eqn:Ht; [|by apply Hbefore; [|right]].
    destruct (decide (target q = target q')) as [Htt|Htt].
    + destruct Hf as [Hh _]. rewrite (lock_alone _ _ _ _ t q Hok Hq t' q') in Hh; done.
    + destruct (Heff Hsealed) as [Hb|Hcl]; [by rewrite (Ho t' q') in Hb|].
      destruct o; try done. simpl in Hcl. destruct Hal as (-> & _). congruence.
Qed.

Lemma open_moves w w' :
  moves w w' → world_ok w →
  ((∀ t q, reqs w t = Some q → mcp q = false) → stays_open (db (server w)) (reqs w) (view (trace w))) →
  (∀ t q, reqs w' t = Some q → mcp q = false) → stays_open (db (server w')) (reqs w') (view (trace w')).
Proof.
  intros Hm [Ha Hok] Hop Hmcp. destruct Hm as [|q u|t q u B o k f b s Ht He]; [by apply Hop|..].
  - assert (∀ t q', reqs w t = Some q' → reqs (mkWorld (server w) (threads w ++ [mkThread q u (handle providers u q)])
        (trace w)) t = Some q') as Hsub.
    { intros t q' Hr. unfold reqs in *. simpl. destruct (threads w !! t) as [th|] eqn:Et; [|done].
      by rewrite (lookup_app_l_Some _ _ _ _ Et). }
    intros t q' Hq' Hf. simpl in *. destruct (threads w !! t) as [th|] eqn:Et.
    + apply (Hop (λ t q H, Hmcp t q (Hsub t q H)) t q'); [|done]. unfold reqs in *. simpl in Hq'.
      by rewrite (lookup_app_l_Some _ _ _ _ Et) in Hq'; rewrite Et.
    + unfold view in Hf. rewrite (kept_new _ _ _ Ha t) in Hf; [by destruct Hf|by apply lookup_ge_None].
  - assert (∀ t', reqs w t' = reqs (mkWorld s (<[t := mkThread q u (k b)]> (threads w)) (trace w ++ [(t, Ev (O := Op) o b)])) t')
      as Hreq by (intros t'; symmetry; by apply reqs_insert with (p := Vis o k)).
    assert (reqs w t = Some q) as Hq by (unfold reqs; by rewrite Ht).
    assert (∀ t q, reqs w t = Some q → mcp q = false) as Hm by (intros t' q'; rewrite Hreq; apply Hmcp).
    pose proof (open_call _ t q o b f _ _ _ _ Hok (Hop Hm) Hq (Hm _ _ Hq) (allowed_next _ _ _ _ _ _ _ _ Ha Ht) He) as Hnew.
    intros t' q' Hq' Hf. simpl. apply (Hnew t' q'); [by rewrite Hreq|by rewrite view_snoc].
Qed.

(** C7: when the tools that seal without the session lock are not used, no
    message reaches a sealed session in any schedule: when a turn starts with it,
    when it is handed to a running turn and when it is written to the standard
    input of one, the session is not sealed at that moment. *)
Theorem sealed_never_dispatched h l t f sid e :
  bounded (db h) → locks h = ∅ →
  (∀ t q, reqs (play (start h) l) t = Some q → mcp q = false) →
  trace (act (play (start h) l) (Run t f)) = trace (play (start h) l) ++ [(t, e)] → dispatches sid e →
  sealed_in sid (db (server (play (start h) l))) = false.
Proof.
  intros Hb Hl Hmcp Htr Hd. set (w := play (start h) l) in *.
  assert (world_ok w ∧ ((∀ t q, reqs w t = Some q → mcp q = false) →
    stays_open (db (server w)) (reqs w) (view (trace w)))) as [[Ha Hok] Hop].
  { apply play_ind; [split; [by apply world_ok_start|by intros _ t' q' _ [? _]]|].
    intros v v' Hm [Hv Ho]. split; [by eapply world_ok_moves|by eapply open_moves]. }
  specialize (Hop Hmcp). simpl in Htr. clearbody w.
  assert (∃ q u p, threads w !! t = Some (mkThread q u p) ∧ allow q (view (trace w) t) e) as (q & u & p & Ht & Hal).
  { destruct (threads w !! t) as [[q u [a|B o k]]|] eqn:Et.
    - by apply (f_equal length) in Htr; rewrite length_app in Htr; simpl in Htr; lia.
    - destruct (exec _ t o f (server w)) as [[b s]|]; simpl in Htr.
      + apply app_inv_head in Htr. injection Htr as Htr. exists q, u, (Vis o k). split; [done|].
        rewrite <-Htr. by eapply allowed_next.
      + by apply (f_equal length) in Htr; rewrite length_app in Htr; simpl in Htr; lia.
    - by apply (f_equal length) in Htr; rewrite length_app in Htr; simpl in Htr; lia. }
  assert (reqs w t = Some q) as Hq by (unfold reqs; by rewrite Ht).
  destruct Hd; [destruct Hal as (-> & (Hh & Hr & _) & _)|destruct Hal as (-> & Hh & Hr & _)|destruct Hal as [-> Hf]];
    eapply (Hop t q); try done; (split; [done|by right]).
Qed.
End theorems.
End ManagerRuns.
