(* ===== verification/ManagerLive.v ===== *)
(** * A drain delivers the backlog

    One drain alone, on a database that works: the whole backlog of an idle
    session becomes one turn. *)

From S2P Require Import Prelude RustStr Json Pipeline Store Programs Turns Resume Manager Watchdog Handover ManagerRoutes ManagerProps ManagerSafety.

Module ManagerLive.
Export ManagerSafety.ManagerSafety.

Section live.
Context `{Store.World, JsonApi, !MoreJson} (providers : list Provider).
Context (f : Fate) (Hf : fault f = None).
Abbreviation run m h := (alone (O := Op) exec 0 f m h).

Lemma run_mret {A} (a : A) h : run (mret a : H Op Fail A) h = Some (Ok a, h).
Proof. done. Qed.

Lemma run_ask {A} (o : Op (Result string A)) h :
  run (ask o) h = '(b, h') ← exec _ 0 o f h; Some (match b with Ok a => Ok a | Err e => Err (Failed e) end, h').
Proof. unfold ask, map_err. rewrite alone_bind, alone_call. by destruct (exec _ 0 o f h) as [[[a|e] h']|]. Qed.

Lemma run_get {A} (o : Op A) h : run (get o) h = '(b, h') ← exec _ 0 o f h; Some (Ok b, h').
Proof. unfold get, infallible. rewrite alone_bind, alone_call. by destruct (exec _ 0 o f h) as [[a h']|]. Qed.

Lemma run_read {A} (o : Op (Result string (option A))) h :
  run (read o) h = '(b, h') ← exec _ 0 o f h; Some (Ok (match b with Ok a => a | Err _ => None end), h').
Proof. unfold read. rewrite alone_h_bind, run_get. by destruct (exec _ 0 o f h) as [[[a|e] h']|]. Qed.

Lemma run_ignore {A} (o : Op (Result string A)) h :
  run (ignore (call (O := Op) o) : H Op Fail unit) h = '(_, h') ← exec _ 0 o f h; Some (Ok tt, h').
Proof.
  unfold ignore, infallible. rewrite !alone_bind, alone_call. by destruct (exec _ 0 o f h) as [[a h']|].
Qed.

Lemma query_ok {A} (g : Host → A) h : query f g h = Some (Ok (g h), h).
Proof. unfold query. by rewrite Hf. Qed.

Lemma stmt_ok {A} (m : Store.M A) h : stmt f m h = Some ((m (db h)).1, set_db (m (db h)).2 h).
Proof. unfold stmt. rewrite Hf. by destruct (m (db h)). Qed.

(** *** Configuration *)

Definition config_of (h : Host) (r : Row) (queued_model queued_effort : option string) : SpawnConfig :=
  let model := or_else queued_model (Store.s_model (session r)) in
  let eff := or_else queued_effort (effort (columns r)) in
  let card := Store.s_card_id (session r) ≫= λ c, Store.get_card c (db h) in
  let model := or_else model (card ≫= Store.c_model) in
  let eff := or_else eff (card ≫= Store.c_effort) in
  let project := card ≫= λ c, project_more h !! Store.c_project_id c in
  mkConfig (default "default" (or_else model (project ≫= pj_model))) (or_else eff (project ≫= pj_effort)).

Lemma run_config h r m e : run (queued_resume_config r m e) h = Some (Ok (config_of h r m e), h).
Proof.
  unfold queued_resume_config, config_of. rewrite alone_h_bind.
  destruct (or_else m (Store.s_model (session r))) as [m'|], (or_else e (effort (columns r))) as [e'|];
    cbn [is_some negb orb]; [done|..];
    (destruct (Store.s_card_id (session r)) as [c|]; [|done];
     rewrite alone_h_bind, run_read; cbn [exec]; rewrite query_ok, !some_bind;
     destruct (Store.get_card c (db h)) as [card|]; [|done];
     rewrite !some_bind; cbn [or_else];
     destruct (Store.c_model card), (Store.c_effort card); cbn [is_some negb orb or_else]; try done;
     rewrite alone_h_bind, run_read; cbn [exec]; rewrite query_ok, !some_bind;
     by destruct (project_more h !! Store.c_project_id card) as [pj|]).
Qed.

(** *** The session is idle *)

Context (sid : string).

Lemma run_running_in l h : turns h !! sid = None → run (running_provider_in l sid) h = Some (Ok None, h).
Proof.
  intros Hn. induction l as [|p l IH]; cbn [running_provider_in]; [done|].
  rewrite alone_h_bind, run_get. cbn [exec]. unfold is_active_for. by rewrite Hn, some_bind.
Qed.

Lemma run_is_running h : turns h !! sid = None → run (is_running providers sid) h = Some (Ok false, h).
Proof. intros Hn. unfold is_running, running_provider. by rewrite alone_h_bind, run_running_in. Qed.

Lemma run_project_stopped h r :
  (∀ pid p, Store.s_project_id (session r) = Some pid → project_more h !! pid = Some p → pj_status p = "active") →
  run (project_stopped r) h = Some (Ok false, h).
Proof.
  intros Hp. unfold project_stopped.
  destruct (Store.s_is_worker (session r)), (Store.s_project_id (session r)) as [pid|]; try done.
  rewrite alone_h_bind, run_read. cbn [exec]. rewrite query_ok, some_bind.
  destruct (project_more h !! pid) as [p|] eqn:Ep; [|done].
  rewrite some_bind, run_mret. by rewrite (Hp pid p eq_refl Ep).
Qed.

Lemma run_parked h :
  (∀ e, Store.latest_event_of_kinds sid [AUTH_PARKED_KIND; AUTH_RESUMED_KIND] (db h) = Some e →
    ev_kind e ≠ AUTH_PARKED_KIND) →
  run (is_parked sid) h = Some (Ok false, h).
Proof.
  intros Hp. unfold is_parked. rewrite alone_h_bind, run_read. cbn [exec]. rewrite query_ok, !some_bind, run_mret.
  destruct (Store.latest_event_of_kinds _ _ _) as [e|] eqn:E; [|done]. by rewrite bool_decide_eq_false_2 by eauto.
Qed.

(** *** The rows *)

(** The sessions are as before, and the queue up to the marks. *)
Definition quiet_db (d d' : Store.Db) : Prop :=
  Store.sessions d' = Store.sessions d ∧ ∃ g, (∀ r, same_row r (g r)) ∧ Store.queued d' = g <$> Store.queued d.

#[local] Instance quiet_pre : PreOrder quiet_db.
Proof.
  split.
  - intros d. split; [done|]. exists id. split; [apply same_row_refl|by rewrite list_fmap_id].
  - intros d1 d2 d3 [S1 (g1 & G1 & Q1)] [S2 (g2 & G2 & Q2)]. split; [congruence|]. exists (g2 ∘ g1). split.
    + intros r. destruct (G1 r) as (? & ? & ? & ? & ? & ?), (G2 (g1 r)) as (? & ? & ? & ? & ? & ?).
      repeat split; simpl; congruence.
    + by rewrite Q2, Q1, list_fmap_compose.
Qed.

Lemma run_append_row h r : ∃ d, run (append_row_event sid r) h = Some (Ok tt, set_db d h) ∧ quiet_db (db h) d.
Proof.
  unfold append_row_event. destruct (Store.q_user_event_appended r).
  { exists (db h). split; [by destruct h|done]. }
  rewrite alone_h_bind, run_get. cbn [exec]. rewrite stmt_ok, !some_bind.
  set (m := Store.append_event _ _ _). pose proof (append_event_same sid "user" (json_object [("text", Some (Store.q_text r))]) (db h)) as Hs.
  fold m in Hs. simpl in Hs. destruct Hs as (Eq & _ & Es).
  assert (quiet_db (db h) (m (db h)).2) as Hq1.
  { split; [done|]. exists id. split; [apply same_row_refl|by rewrite list_fmap_id]. }
  destruct ((m (db h)).1) as [e|e]; [|by exists (m (db h)).2].
  rewrite run_ignore. cbn [exec]. rewrite stmt_ok, some_bind. eexists. split; [done|].
  etrans; [exact Hq1|]. simpl. split; [done|]. refine (ex_intro _ _ (conj _ eq_refl)).
  intros x. simpl. case_match; by repeat split.
Qed.

Lemma run_append_rows rows h :
  ∃ d, run (each (append_row_event sid) rows) h = Some (Ok tt, set_db d h) ∧ quiet_db (db h) d.
Proof.
  revert h. induction rows as [|r rows IH]; intros h; cbn [each].
  - exists (db h). split; [by destruct h|done].
  - destruct (run_append_row h r) as (d1 & E1 & Q1). destruct (IH (set_db d1 h)) as (d2 & E2 & Q2).
    exists d2. split; [|by etrans]. by rewrite alone_h_bind, E1, some_bind, E2.
Qed.

Lemma run_load ids h : ∃ atts, run (load_attachments sid ids) h = Some (Ok atts, h).
Proof.
  induction ids as [|i ids [atts IH]]; cbn [load_attachments]; [by exists []|].
  rewrite alone_h_bind, run_get. cbn [exec]. rewrite !some_bind, alone_h_bind, IH, !some_bind.
  by destruct (attachment f); eexists.
Qed.

Lemma run_deletes rows h :
  ∃ d, run (each (λ q, ignore (call (DeleteQueued sid (Store.q_id q)))) rows : H Op Fail unit) h =
    Some (Ok tt, set_db d h) ∧ Store.sessions d = Store.sessions (db h) ∧
    ∀ r, r ∈ Store.queued d → r ∈ Store.queued (db h) ∧
      (Store.q_session_id r = sid → Store.q_id r ∉ Store.q_id <$> rows).
Proof.
  revert h. induction rows as [|q rows IH]; intros h; cbn [each].
  { exists (db h). split; [by destruct h|]. split; [done|]. intros r Hr. split; [done|]. intros _ Hn. by apply elem_of_nil in Hn. }
  rewrite alone_h_bind, run_ignore. cbn [exec]. rewrite stmt_ok, !some_bind.
  set (h1 := set_db _ h). destruct (IH h1) as (d & E & Es & Hd). exists d. split; [done|]. split; [done|].
  intros r Hr. destruct (Hd r Hr) as [Hr1 Hn]. unfold h1 in Hr1. simpl in Hr1.
  apply list_elem_of_In, filter_In in Hr1 as [Hr1%list_elem_of_In Hm]. split; [done|]. intros Hs.
  rewrite fmap_cons. intros [Hid|Hid]%elem_of_cons; [|by apply Hn].
  unfold Store.is_message in Hm. by rewrite Hs, Hid, bool_decide_eq_true_2, Z.eqb_refl in Hm.
Qed.

(** *** Dispatch *)

Lemma set_turns_id h : set_turns (turns h) h = h.
Proof. by destruct h. Qed.

Lemma run_resume h r model : ∃ o, run (resolve_resume_handle sid r model) h = Some (Ok o, h).
Proof.
  unfold resolve_resume_handle. destruct (Store.s_conversation_id (session r)); [by eexists|].
  rewrite alone_h_bind, run_get. cbn [exec]. rewrite query_ok, !some_bind, run_mret. by eexists.
Qed.

Lemma run_provider_send h r p message model resume run_id :
  get_row sid h = Some r → turns h !! sid = None →
  run (provider_send p sid message model resume run_id) h =
    Some (Ok tt, set_turns (<[sid := new_turn (owner_plugin p)]> (turns h)) h).
Proof.
  intros Hr Hn. unfold provider_send. rewrite alone_h_bind.
  assert (run (if mid_stream p then get (QueueInjection (owner_plugin p) sid (message_payload message)) else mret false)
    h = Some (Ok false, h)) as ->.
  { destruct (mid_stream p); [|done]. rewrite run_get. cbn [exec]. unfold on_turns, queue_injection, owned_turn.
    by rewrite Hn, some_bind, set_turns_id. }
  rewrite some_bind, alone_h_bind, run_ask. cbn [exec]. rewrite query_ok, some_bind, Hr, !some_bind, run_ask.
  cbn [exec]. unfold on_turns, begin_turn. by rewrite Hn, some_bind.
Qed.

(** Nothing waits to be put in front of the message. *)
Definition unarmed (r : Row) : Prop :=
  Store.s_pending_handover_doc (session r) = None ∧ pending_plan_review (columns r) = false ∧
  pending_doc_review (columns r) = None.

(** The model a configuration leads to. *)
Definition model_of (r : Row) (config : SpawnConfig) : Result string string :=
  let requested := resolve_requested_model (cfg_model config) (Store.s_model (session r)) in
  if is_auto_model requested then auto f else Ok requested.

Definition turn_of (r : Row) (message : UserMessage) (config : SpawnConfig) (model : string) : DispatchedTurn :=
  mkDispatched (m_text message) (m_attachment_ids message) model
    (match effort (columns r) with Some e => Some e | None => cfg_effort config end).

(** The host once the message is away. *)
Definition after_send (h : Host) (p : Provider) (turn : DispatchedTurn) : Host :=
  set_last (<[sid := turn]> (last_dispatched h))
    (set_turns (<[sid := new_turn (owner_plugin p)]> (turns h)) (set_run_ids (run_ids h + 1) h)).

Lemma run_send h r p message config model :
  get_row sid h = Some r → sealed r = false → unarmed r → is_Some (folders h !! folder_id (columns r)) →
  turns h !! sid = None → model_of r config = Ok model →
  get_provider providers (parse_model_id model DEFAULT_PROVIDER).1 = Some p →
  run (send_message_locked providers sid message config) h =
    Some (Ok tt, after_send h p (turn_of r message config model)).
Proof.
  intros Hr Hs (U1 & U2 & U3) [folder Hfo] Hn Hm Hp. unfold send_message_locked.
  rewrite alone_h_bind, run_ask. cbn [exec]. rewrite query_ok, !some_bind, Hr, Hs, U1, U2, U3.
  cbn [is_some orb]. rewrite alone_h_bind, run_mret, some_bind, alone_h_bind, run_ask. cbn [exec].
  rewrite query_ok, !some_bind, Hfo, alone_h_bind.
  assert (run (if is_auto_model (resolve_requested_model (cfg_model config) (Store.s_model (session r)))
      then ask (AutoModel (match effort (columns r) with Some e => Some e | None => cfg_effort config end)
             (Store.s_is_worker (session r)))
      else mret (resolve_requested_model (cfg_model config) (Store.s_model (session r)))) h = Some (Ok model, h)) as ->.
  { unfold model_of in Hm. destruct (is_auto_model _); [|by injection Hm as ->].
    rewrite run_ask. cbn [exec]. by rewrite Hm. }
  rewrite some_bind, alone_h_bind. destruct (run_resume h r model) as [o ->]. rewrite some_bind, Hp.
  rewrite alone_h_bind, run_get. cbn [exec]. rewrite !some_bind, alone_h_bind.
  erewrite run_provider_send; [|exact Hr|exact Hn].
  rewrite some_bind, alone_h_bind, run_get. cbn [exec]. by rewrite !some_bind.
Qed.

(** *** The drain *)

Record deliverable (h : Host) (r : Row) (p : Provider) (model : string) : Prop := {
  dl_row : get_row sid h = Some r;
  dl_open : sealed r = false;
  dl_unarmed : unarmed r;
  dl_folder : is_Some (folders h !! folder_id (columns r));
  dl_going pid pj : Store.s_project_id (session r) = Some pid → project_more h !! pid = Some pj →
    pj_status pj = "active";
  dl_unparked e : Store.latest_event_of_kinds sid [AUTH_PARKED_KIND; AUTH_RESUMED_KIND] (db h) = Some e →
    ev_kind e ≠ AUTH_PARKED_KIND;
  dl_idle : turns h !! sid = None;
  dl_free : locks h !! sid = None;
  dl_rows : Store.list_queued_messages sid (db h) ≠ [];
  dl_model : model_of r (config_of h r (newest Store.q_model (Store.list_queued_messages sid (db h)))
    (newest Store.q_effort (Store.list_queued_messages sid (db h)))) = Ok model;
  dl_provider : get_provider providers (parse_model_id model DEFAULT_PROVIDER).1 = Some p }.

Lemma run_deliver h r p rows config model :
  get_row sid h = Some r → sealed r = false → unarmed r → is_Some (folders h !! folder_id (columns r)) →
  turns h !! sid = None → model_of r config = Ok model →
  get_provider providers (parse_model_id model DEFAULT_PROVIDER).1 = Some p →
  ∃ d turn, run (deliver_queued_rows providers sid rows config) h = Some (Ok tt, after_send (set_db d h) p turn) ∧
    quiet_db (db h) d ∧ dt_text turn = merged_text rows ∧ dt_model turn = model.
Proof.
  intros Hr Hs Hu Hfo Hn Hm Hp. unfold deliver_queued_rows. rewrite alone_h_bind.
  destruct (run_append_rows rows h) as (d & -> & Hq). rewrite some_bind, alone_h_bind.
  destruct (run_load (rows ≫= row_attachment_ids) (set_db d h)) as [atts ->]. rewrite some_bind.
  exists d, (turn_of r (mkMessage (merged_text rows) atts (rows ≫= row_attachment_ids)) config model).
  split; [|done]. apply run_send; try done.
  unfold get_row, Store.get_session in *. simpl. by rewrite (proj1 Hq).
Qed.

Lemma run_with_lock {A} (m : H Op Fail A) h a h1 :
  locks h !! sid = None → run m (set_locks (<[sid := 0%nat]> (locks h)) h) = Some (a, h1) →
  locks h1 !! sid = Some 0%nat → run (with_lock sid m) h = Some (a, set_locks (delete sid (locks h1)) h1).
Proof.
  intros Hfree Hm Hl. unfold with_lock. rewrite alone_bind, alone_call. cbn [exec]. rewrite Hfree, some_bind.
  rewrite alone_bind, Hm, some_bind, alone_bind, alone_call. cbn [exec]. by rewrite bool_decide_eq_true_2.
Qed.

(** What a drain leaves behind. *)
Record drained (h h' : Host) (p : Provider) (rows : list Store.QueuedMessage) (model : string) : Prop := {
  dr_turn : turns h' !! sid = Some (new_turn (owner_plugin p));
  dr_empty : Store.list_queued_messages sid (db h') = [];
  dr_free : locks h' !! sid = None;
  dr_text : ∃ turn, last_dispatched h' !! sid = Some turn ∧ dt_text turn = merged_text rows ∧ dt_model turn = model;
  dr_sessions : Store.sessions (db h') = Store.sessions (db h) }.

Lemma list_queued_empty d : (∀ r, r ∈ Store.queued d → Store.q_session_id r ≠ sid) → Store.list_queued_messages sid d = [].
Proof.
  intros Hn. destruct (Store.list_queued_messages sid d) as [|r l] eqn:E; [done|]. exfalso.
  destruct (list_queued_elem sid d r) as [Hr Hs]; [rewrite E; by left|]. by apply (Hn r).
Qed.

Lemma run_drain_queued h r p config model :
  deliverable h r p model → model_of r config = Ok model →
  ∃ h', run (drain_queued providers sid config) h = Some (Ok true, h') ∧
    drained h h' p (Store.list_queued_messages sid (db h)) model.
Proof.
  intros [Hr Hs Hu Hfo _ _ Hn Hfree Hrows _ Hp] Hm.
  set (rows := Store.list_queued_messages sid (db h)) in *.
  set (h0 := set_locks (<[sid := 0%nat]> (locks h)) h).
  destruct (run_deliver h0 r p rows config model) as (d & turn & Hdel & [Es (g & Hg & Eq)] & Htext & Hmod); [done..|].
  set (h2 := after_send (set_db d h0) p turn) in *.
  destruct (run_deletes rows h2) as (d' & Hdels & Es' & Hleft).
  exists (set_locks (delete sid (locks (set_db d' h2))) (set_db d' h2)). split.
  - unfold drain_queued. apply run_with_lock; [done| |simpl; apply lookup_insert_eq]. fold h0.
    rewrite alone_h_bind, run_get. cbn [exec]. rewrite query_ok, !some_bind. change (get_row sid h0) with (get_row sid h).
    rewrite Hr, Hs, alone_h_bind, run_is_running by done. rewrite some_bind, alone_h_bind, run_mret, some_bind.
    cbn [andb]. rewrite alone_h_bind, run_ask. cbn [exec]. rewrite query_ok, !some_bind.
    change (Store.list_queued_messages sid (db h0)) with rows. destruct rows as [|q rows']; [done|].
    by rewrite alone_h_bind, Hdel, some_bind, alone_h_bind, Hdels, some_bind.
  - split; simpl; [apply lookup_insert_eq| |apply lookup_delete_eq| |etrans; [exact Es'|exact Es]].
    + apply list_queued_empty. intros x Hx Hsx. destruct (Hleft x Hx) as [Hx' Hid].
      simpl in Hx'. rewrite Eq in Hx'. apply list_elem_of_fmap in Hx' as (y & -> & Hy).
      apply (Hid Hsx). destruct (Hg y) as (<- & Hsy & _). apply list_elem_of_fmap_2. unfold rows, Store.list_queued_messages.
      rewrite elem_of_sort_by, list_elem_of_In, filter_In, <-list_elem_of_In. split; [done|].
      apply bool_decide_eq_true. congruence.
    + exists turn. by rewrite lookup_insert_eq.
Qed.

Lemma run_drain_queue h r p model :
  deliverable h r p model →
  ∃ h', run (handle providers tt (DrainQueue sid)) h = Some (Ok Done, h') ∧
    drained h h' p (Store.list_queued_messages sid (db h)) model.
Proof.
  intros Hdl. destruct (run_drain_queued h r p _ model Hdl (dl_model _ _ _ _ Hdl)) as (h' & Hrun & Hd).
  exists h'. split; [|done]. destruct Hdl as [Hr Hs _ _ Hgo Hpark _ _ _ _ _]. cbn [handle]. unfold done, reply.
  rewrite alone_bind. unfold drain_queue_for_session. rewrite alone_h_bind, run_ask. cbn [exec].
  rewrite query_ok, !some_bind, Hr, alone_h_bind, run_project_stopped by done.
  rewrite some_bind, alone_h_bind, run_parked by done. rewrite some_bind, alone_h_bind, run_get. cbn [exec].
  rewrite query_ok, !some_bind, alone_h_bind, run_config, some_bind, alone_h_bind, Hrun. done.
Qed.
End live.

(** C10: a drain of a session with a non-empty queue, alone on a database that
    works, ends and delivers the whole backlog as one turn: its messages joined
    in order; afterwards the queue of the session is empty, the turn runs, and
    the lock is free. The session must be open and idle with its lock free, not
    parked after an authentication failure, in an active project or none, in a
    folder that exists, with nothing armed to be put in front of the next
    message, and its model must be one of a registered provider. *)
Theorem drain_delivers_backlog `{Store.World, JsonApi, !MoreJson} providers f sid h r p model :
  fault f = None → deliverable providers f sid h r p model →
  ∃ n, let w := play exec (handle providers) (start h) (Spawn (DrainQueue sid) tt :: replicate n (Run 0 f)) in
    (λ th, prog th) <$> threads w !! O = Some (Ret (Ok Done)) ∧
    drained sid h (server w) p (Store.list_queued_messages sid (db h)) model.
Proof.
  intros Hf Hd. destruct (run_drain_queue providers f Hf sid h r p model Hd) as (h' & Hrun & Hdr).
  destruct (alone_play exec (handle providers) (DrainQueue sid) tt f h _ _ Hrun) as (n & Hs & Ht).
  exists n. simpl in *. rewrite Hs, Ht. done.
Qed.
End ManagerLive.
