(* ===== verification/HandoverProps.v ===== *)
(** * What a handover keeps

    A conversation is dropped for a reason, and with a document when it is handed
    over; the end of a document turn does exactly what it should. *)

From S2P Require Import Prelude RustStr Json Pipeline Store Programs Turns Resume Manager Watchdog Handover ManagerRoutes ManagerProps ManagerSafety ManagerLive.

Module HandoverProps.
Export ManagerLive.ManagerLive.
Import (hints) Store.Store.

(** ** Every schedule *)

Definition conversation (sid : string) (h : Host) : option string :=
  Store.get_session sid (db h) ≫= Store.s_conversation_id.


Section schedules.
Context `{Store.World}.

Lemma conversation_same sid h h' : Store.sessions (db h') = Store.sessions (db h) → conversation sid h' = conversation sid h.
Proof. intros Hs. unfold conversation, Store.get_session. by rewrite Hs. Qed.





End schedules.


(** ** One completion alone *)

Definition apply_update (u : RowUpdate) (r : Row) : Row :=
  let s := session r in
  mkRow (Store.mkSession (Store.s_id s) (Store.s_is_worker s) (Store.s_project_id s) (Store.s_card_id s)
      (Store.s_worker_step s) (Store.s_sealed_at s) (Store.s_sealed_reason s) (default (Store.s_model s) (ru_model u))
      (default (Store.s_conversation_id s) (ru_conversation_id u))
      (default (Store.s_pending_handover_doc s) (ru_pending_handover_doc u)))
    (update_columns u (columns r)).

Section alone.
Context `{Store.World, JsonApi, !MoreJson} (providers : list Provider).
Context (f : Fate) (Hf : fault f = None) (sid : string).
Abbreviation run m h := (alone (O := Op) exec 0 f m h).

(** What the calls below leave alone. *)
Record calm (h h' : Host) : Prop := {
  calm_queue : Store.queued (db h') = Store.queued (db h);
  calm_locks : locks h' = locks h;
  calm_docs : doc_dispatched h' = doc_dispatched h;
  calm_rows s : s ≠ sid → get_row s h' = get_row s h }.

#[local] Instance calm_pre : PreOrder calm.
Proof.
  split; [by intros h|]. intros h1 h2 h3 [Q1 L1 D1 R1] [Q2 L2 D2 R2]. split; try congruence.
  intros s Hs. by rewrite R2, R1.
Qed.

Lemma run_append kind data h :
  ∃ h', run (ignore (call (AppendEvent sid kind data)) : H Op Fail unit) h = Some (Ok tt, h') ∧
    get_row sid h' = get_row sid h ∧ calm h h'.
Proof.
  rewrite run_ignore. cbn [exec]. rewrite (stmt_ok f Hf), some_bind. eexists. split; [done|].
  destruct (append_event_same sid kind data (db h)) as (Eq & _ & Es).
  assert (∀ s, get_row s (set_db (Store.append_event sid kind data (db h)).2 h) = get_row s h) as Hrow
    by (intros s; unfold get_row, Store.get_session; simpl; by rewrite Es).
  split; [apply Hrow|by split].
Qed.

Lemma run_update u h r :
  get_row sid h = Some r →
  ∃ h', run (ask (UpdateRow sid u)) h = Some (Ok (Some (apply_update u r)), h') ∧
    get_row sid h' = Some (apply_update u r) ∧ calm h h'.
Proof.
  intros Hr. unfold get_row in Hr. destruct (Store.get_session sid (db h)) as [s|] eqn:Es; [|done].
  injection Hr as <-. rewrite run_ask. cbn [exec]. unfold update_row. rewrite (stmt_ok f Hf).
  unfold Store.update_session, Store.gets, mbind, Store.M_bind. rewrite Es. simpl. eexists. split; [done|].
  split; [unfold get_row, Store.get_session; simpl; by rewrite !lookup_insert_eq|]. split; [done..|].
  intros s' Hne. unfold get_row, Store.get_session. simpl. by rewrite !lookup_insert_ne.
Qed.

Lemma run_row h : run (ask (GetSession sid)) h = Some (Ok (get_row sid h), h).
Proof. rewrite run_ask. cbn [exec]. by rewrite (query_ok f Hf), some_bind. Qed.

Lemma run_abort h r to_model reason :
  get_row sid h = Some r → handover_to_model (columns r) = Some to_model →
  ∃ h', run (abort_handover sid reason) h = Some (Ok tt, h') ∧
    get_row sid h' = Some (apply_update unpark r) ∧ calm (set_doc (doc_dispatched h ∖ {[sid]}) h) h'.
Proof.
  intros Hr Hto. unfold abort_handover. rewrite alone_h_bind, run_row, some_bind, Hr, Hto.
  rewrite alone_h_bind, run_get. cbn [exec]. rewrite !some_bind. set (h0 := set_doc _ h).
  set (data := switch_data _ _ _).
  destruct (run_append "handover-aborted" data h0) as (h1 & E1 & R1 & C1). rewrite alone_h_bind, E1, some_bind.
  destruct (run_update unpark h1 r) as (h2 & E2 & R2 & C2); [by rewrite R1|].
  rewrite alone_h_bind, E2, some_bind. exists h2. split; [done|]. split; [done|by etrans].
Qed.

(** The row a document turn that ended well leaves. *)
Definition finalized (r : Row) (to_model doc : string) : Row :=
  match final_doc (default "" (Store.s_model (session r))) to_model doc with
  | Some doc => apply_update (flip to_model None doc) r
  | None => apply_update unpark r
  end.

Lemma run_finalize h r to_model :
  get_row sid h = Some r → handover_to_model (columns r) = Some to_model →
  ∃ h', run (finalize_handover sid) h = Some (Ok tt, h') ∧
    get_row sid h' = Some (finalized r to_model (extract_doc (events_tail sid 500 (db h)))) ∧
    calm (set_doc (doc_dispatched h ∖ {[sid]}) h) h'.
Proof.
  intros Hr Hto. unfold finalize_handover. rewrite alone_h_bind, run_row, some_bind, Hr, Hto.
  rewrite alone_h_bind, run_get. cbn [exec]. rewrite !some_bind. set (h0 := set_doc _ h).
  rewrite alone_h_bind. unfold collect_handover_doc at 1. rewrite alone_h_bind, run_get. cbn [exec].
  rewrite (query_ok f Hf), !some_bind, run_mret, some_bind. change (db h0) with (db h). unfold finalized.
  destruct (final_doc _ _ _) as [doc|].
  - set (data := switch_data _ _ _).
    destruct (run_append "handover" data h0) as (h1 & E1 & R1 & C1). rewrite alone_h_bind, E1, some_bind.
    destruct (run_update (flip to_model None doc) h1 r) as (h2 & E2 & R2 & C2); [by rewrite R1|].
    rewrite alone_h_bind, E2, some_bind. exists h2. split; [done|]. split; [done|by etrans].
  - destruct (run_abort h0 r to_model (Some "the model produced no compaction summary") Hr Hto) as (h1 & E1 & R1 & C1).
    exists h1. split; [done|]. split; [done|]. etrans; [|exact C1]. split; [done|done| |done]. simpl. set_solver.
Qed.

(** *** A drain with nothing to deliver *)

Lemma run_provider_any l h : ∃ o, run (running_provider_in l sid) h = Some (Ok o, h).
Proof.
  induction l as [|p l IH]; cbn [running_provider_in]; [by eexists|].
  rewrite alone_h_bind, run_get. cbn [exec]. rewrite !some_bind. destruct (is_active_for _ _ _); [by eexists|done].
Qed.

Lemma run_running_any h : ∃ b, run (is_running providers sid) h = Some (Ok b, h).
Proof.
  unfold is_running, running_provider. rewrite alone_h_bind. destruct (run_provider_any providers h) as [o ->].
  rewrite some_bind. by eexists.
Qed.

Lemma run_lingering_any h : ∃ b, run (is_lingering providers sid) h = Some (Ok b, h).
Proof.
  unfold is_lingering, running_provider. rewrite alone_h_bind. destruct (run_provider_any providers h) as [[p|] ->];
    rewrite some_bind; [|by eexists]. destruct (_ && _); [|by eexists]. rewrite run_get. cbn [exec].
  rewrite some_bind. by eexists.
Qed.

Lemma run_stopped_any h r : ∃ b, run (project_stopped r) h = Some (Ok b, h).
Proof.
  unfold project_stopped. destruct (Store.s_is_worker (session r)), (Store.s_project_id (session r)); by eexists.
Qed.

Lemma run_clear h :
  run (ignore (call (ClearQueued sid)) : H Op Fail unit) h =
    Some (Ok tt, set_db (Store.clear_queued_messages sid (db h)).2 h).
Proof. rewrite run_ignore. cbn [exec]. by rewrite (stmt_ok f Hf). Qed.

Lemma clear_none h :
  Store.list_queued_messages sid (db h) = [] → Store.queued (Store.clear_queued_messages sid (db h)).2 = Store.queued (db h).
Proof.
  intros Hn. simpl. apply filter_true, Forall_forall. intros r Hr. apply negb_true_iff, bool_decide_eq_false. intros Hs.
  eapply (not_elem_of_nil r). rewrite <-Hn. unfold Store.list_queued_messages.
  rewrite elem_of_sort_by, list_elem_of_In, filter_In, <-list_elem_of_In. split; [done|]. by apply bool_decide_eq_true.
Qed.

Lemma run_drain_empty h r :
  get_row sid h = Some r → Store.list_queued_messages sid (db h) = [] → locks h !! sid = None →
  ∃ h', run (drain_queue_for_session providers sid) h = Some (Ok tt, h') ∧ get_row sid h' = Some r ∧ calm h h'.
Proof.
  intros Hr Hq Hfree. unfold drain_queue_for_session. rewrite alone_h_bind, run_row, some_bind, Hr.
  rewrite alone_h_bind. destruct (run_stopped_any h r) as [[] ->]; rewrite some_bind.
  { rewrite run_clear. eexists. split; [done|]. split; [done|]. split; [by apply clear_none|done..]. }
  rewrite alone_h_bind. unfold is_parked at 1. rewrite alone_h_bind, run_read. cbn [exec].
  rewrite (query_ok f Hf), !some_bind, run_mret, some_bind.
  destruct (match Store.latest_event_of_kinds _ _ _ with Some e => _ | None => false end); [by exists h|].
  rewrite alone_h_bind, run_get. cbn [exec]. rewrite (query_ok f Hf), !some_bind, Hq.
  rewrite alone_h_bind, (run_config f Hf), some_bind, alone_h_bind. set (config := config_of _ _ _ _).
  set (h0 := set_locks (<[sid := 0%nat]> (locks h)) h).
  unfold drain_queued. match goal with |- context [with_lock sid ?m] => set (body := m) end.
  assert (∃ h1, run body h0 = Some (Ok false, h1) ∧ get_row sid h1 = Some r ∧ calm h0 h1) as (h1 & E & R & [C1 C2 C3 C4]).
  { unfold body. rewrite alone_h_bind, run_get. cbn [exec]. rewrite (query_ok f Hf), !some_bind. change (get_row sid h0) with (get_row sid h).
    rewrite Hr. destruct (sealed r).
    - rewrite alone_h_bind, run_clear, some_bind, run_mret. eexists. split; [done|]. split; [done|].
      split; [by apply clear_none|done..].
    - exists h0. split; [|done]. rewrite alone_h_bind. destruct (run_running_any h0) as [b ->]. rewrite some_bind, alone_h_bind.
      assert (∃ b', run (if b : bool then is_lingering providers sid else mret false) h0 = Some (Ok b', h0)) as [b' ->]
        by (destruct b; [apply run_lingering_any|by exists false]).
      rewrite some_bind. destruct (b && negb b'); [done|]. rewrite alone_h_bind, run_ask. cbn [exec].
      rewrite (query_ok f Hf), !some_bind. change (db h0) with (db h). by rewrite Hq. }
  rewrite (run_with_lock f sid _ h (Ok false) h1); [|done|exact E|by rewrite C2; apply lookup_insert_eq].
  rewrite some_bind, run_mret. eexists. split; [done|]. split; [done|]. split; [done| |done|done]. simpl. rewrite C2. simpl.
  by rewrite delete_insert_id.
Qed.

Lemma run_ignored (m : H Op Fail unit) h r h' : run m h = Some (r, h') → run (ignore m : H Op Fail unit) h = Some (Ok tt, h').
Proof. intros E. unfold ignore, infallible. by rewrite !alone_bind, E, !some_bind. Qed.

(** The row a completion of the document turn leaves. *)
Definition settled (c : ProcessCompletion) (h : Host) (r : Row) (to_model : string) : Row :=
  if pc_completed c then finalized r to_model (extract_doc (events_tail sid 500 (db h))) else apply_update unpark r.

Lemma run_settle c h r to_model :
  get_row sid h = Some r → handover_to_model (columns r) = Some to_model → locks h !! sid = None →
  ∃ h', run (with_lock sid (ignore (if pc_completed c then finalize_handover sid else abort_handover sid (pc_error c)))
      : H Op Fail unit) h = Some (Ok tt, h') ∧
    get_row sid h' = Some (settled c h r to_model) ∧ calm (set_doc (doc_dispatched h ∖ {[sid]}) h) h'.
Proof.
  intros Hr Hto Hfree. set (h0 := set_locks (<[sid := 0%nat]> (locks h)) h).
  assert (∃ h1, run (if pc_completed c then finalize_handover sid else abort_handover sid (pc_error c)) h0 =
    Some (Ok tt, h1) ∧ get_row sid h1 = Some (settled c h r to_model) ∧
    calm (set_doc (doc_dispatched h0 ∖ {[sid]}) h0) h1) as (h1 & E & R & [C1 C2 C3 C4]).
  { unfold settled. destruct (pc_completed c); [exact (run_finalize h0 r to_model Hr Hto)|exact (run_abort h0 r to_model _ Hr Hto)]. }
  rewrite (run_with_lock f sid _ h (Ok tt) h1); [|done|by eapply run_ignored|by rewrite C2; apply lookup_insert_eq].
  eexists. split; [done|]. split; [done|]. split; [done| |done|done]. simpl. rewrite C2. simpl. by rewrite delete_insert_id.
Qed.

End alone.

(** ** Starting up *)

Definition parked (r : Row) : bool := is_some (handover_to_model (columns r)).
Definition unparked (r : Row) : Row := if parked r then apply_update unpark r else r.

Section startup.
Context `{Store.World, JsonApi, !MoreJson} (f : Fate) (Hf : fault f = None).

Lemma run_abort_all ids h :
  NoDup ids → (∀ s, s ∈ ids → ∃ r, get_row s h = Some r ∧ parked r = true) →
  ∃ h', alone (O := Op) exec 0 f (abort_all ids) h = Some (Ok (length ids), h') ∧
    ∀ s, get_row s h' = if bool_decide (s ∈ ids) then unparked <$> get_row s h else get_row s h.
Proof.
  revert h. induction ids as [|sid ids IH]; intros h Hnd Hp; cbn [abort_all].
  { exists h. by split. }
  apply NoDup_cons in Hnd as [Hnot Hnd]. destruct (Hp sid) as (r & Hr & Hpr); [by left|].
  assert (∃ to_model, handover_to_model (columns r) = Some to_model) as [to_model Hto]
    by (unfold parked in Hpr; destruct (handover_to_model _); [eauto|done]).
  destruct (run_abort f Hf sid h r to_model (Some "server restarted while the handover was in flight") Hr Hto)
    as (h1 & E1 & R1 & [_ _ _ C1]). simpl in C1.
  assert (∀ s, s ≠ sid → get_row s h1 = get_row s h) as Hother by (intros s Hs; by rewrite C1).
  destruct (IH h1) as (h2 & E2 & R2); [done|..].
  { intros s Hs. rewrite Hother by (by intros ->). apply Hp. by right. }
  exists h2. split.
  - rewrite alone_h_bind. unfold outcome, infallible. rewrite alone_bind, E1, some_bind, alone_ret, some_bind, alone_h_bind, E2. done.
  - intros s. rewrite R2. destruct (decide (s = sid)) as [->|Hne].
    + rewrite (bool_decide_eq_false_2 (sid ∈ ids)), bool_decide_eq_true_2 by (done || by left). rewrite Hr, R1. simpl.
      unfold unparked. by rewrite Hpr.
    + rewrite Hother by done. by rewrite (bool_decide_ext (s ∈ sid :: ids) (s ∈ ids)) by set_solver.
Qed.

Lemma parked_elem s h : s ∈ parked_sessions h ↔ ∃ r, get_row s h = Some r ∧ parked r = true.
Proof.
  unfold parked_sessions. rewrite list_elem_of_In, filter_In, <-list_elem_of_In. unfold parked. split.
  - intros [_ Hs]. destruct (get_row s h) as [r|]; [by exists r|done].
  - intros (r & Hr & Hp). rewrite Hr. split; [|done]. unfold get_row, Store.get_session in Hr.
    destruct (Store.sessions (db h) !! s) as [x|] eqn:Es; [|done].
    apply list_elem_of_fmap. exists (s, x). split; [done|]. by apply elem_of_map_to_list.
Qed.

Lemma parked_nodup h : NoDup (parked_sessions h).
Proof. rewrite <-(list_fmap_id (parked_sessions h)). apply nodup_filter. rewrite list_fmap_id. apply NoDup_fst_map_to_list. Qed.
End startup.

(** A server that starts on a database that works leaves no handover parked:
    every parked session keeps its model and conversation, and no other row
    changes. *)
Theorem reconcile_unparks `{Store.World, JsonApi, !MoreJson} f h :
  fault f = None →
  ∃ h', alone (O := Op) exec 0 f reconcile_parked_handovers h = Some (Ok (length (parked_sessions h)), h') ∧
    parked_sessions h' = [] ∧ ∀ s, get_row s h' = unparked <$> get_row s h.
Proof.
  intros Hf. destruct (run_abort_all f Hf (parked_sessions h) h (parked_nodup h)) as (h' & E & R).
  { intros s. by rewrite parked_elem. }
  assert (∀ s, get_row s h' = unparked <$> get_row s h) as Hrows.
  { intros s. rewrite R. case_bool_decide as Hs; [done|]. rewrite parked_elem in Hs.
    destruct (get_row s h) as [r|]; [|done]. simpl. unfold unparked. destruct (parked r) eqn:Ep; [|done].
    exfalso. apply Hs. by exists r. }
  exists h'. split; [|split; [|done]].
  - unfold reconcile_parked_handovers. rewrite alone_h_bind, run_get. cbn [exec]. by rewrite (query_ok f Hf), !some_bind.
  - destruct (parked_sessions h') as [|s l] eqn:El; [done|]. exfalso.
    assert (s ∈ parked_sessions h') as Hs by (rewrite El; by left). rewrite parked_elem in Hs.
    destruct Hs as (r & Hr & Hp). rewrite Hrows in Hr. apply fmap_Some in Hr as (r0 & _ & ->).
    unfold unparked in Hp. destruct (parked r0) eqn:E0; [done|congruence].
Qed.

(** C12: the completion of the document turn, alone on a database that works and
    with nothing queued, ends the handover.  A turn that ended well flips the
    session to the target that was parked, with a fresh conversation and the
    document the turn wrote (a fallback when it wrote none and the provider or
    account changes; a compaction that wrote none keeps model and conversation);
    any other end keeps model and conversation.  Afterwards no handover is
    parked, its mark is cleared and the lock is free. *)
Theorem doc_turn_completes `{Store.World, JsonApi, !MoreJson} providers f c h r to_model w :
  fault f = None → pc_turn_end_only c = false → get_row (pc_session c) h = Some r →
  handover_to_model (columns r) = Some to_model → handover_run_id (columns r) = Some w → w ≤ pc_run_id c →
  pc_session c ∈ doc_dispatched h → locks h !! pc_session c = None →
  Store.list_queued_messages (pc_session c) (db h) = [] →
  ∃ n, let v := play exec (handle providers) (start h) (Spawn (CompletionArrives c) tt :: replicate n (Run 0 f)) in
    (λ th, prog th) <$> threads v !! O = Some (Ret (Ok Done)) ∧
    get_row (pc_session c) (server v) = Some (settled (pc_session c) c h r to_model) ∧
    (pc_session c ∉ doc_dispatched (server v)) ∧ locks (server v) !! pc_session c = None.
Proof.
  intros Hf Hend Hr Hto Hw Hle Hdoc Hfree Hq. set (sid := pc_session c) in *.
  destruct (run_settle f Hf sid c h r to_model Hr Hto Hfree) as (h1 & E1 & R1 & [C1 C2 C3 _]).
  destruct (run_drain_empty providers f Hf sid h1 _ R1) as (h2 & E2 & R2 & [_ D2 D3 _]).
  { unfold Store.list_queued_messages in *. by rewrite C1. }
  { by rewrite C2. }
  assert (alone (O := Op) exec 0 f (handle providers tt (CompletionArrives c)) h = Some (Ok Done, h2)) as Hrun.
  { cbn [handle]. unfold done, reply. rewrite alone_bind. unfold on_completion. rewrite Hend, alone_h_bind.
    unfold handover_handle_completion. fold sid. rewrite alone_h_bind, run_read. cbn [exec].
    rewrite (query_ok f Hf), !some_bind, Hr, Hto, Hw. cbn [is_some negb]. rewrite (proj2 (Z.ltb_ge _ _)) by done.
    rewrite alone_h_bind, run_get. cbn [exec]. rewrite !some_bind, bool_decide_eq_true_2 by done. cbn [negb].
    rewrite alone_h_bind, E1, some_bind, alone_h_bind, (run_ignored f _ h1 _ _ E2). done. }
  destruct (alone_play exec (handle providers) (CompletionArrives c) tt f h _ _ Hrun) as (n & Hs & Ht).
  exists n. simpl in *. rewrite Hs, Ht. split; [done|]. split; [done|]. rewrite D3, C3, D2, C2. simpl.
  split; [set_solver|done].
Qed.
End HandoverProps.
