(* ===== verification/WatchdogProps.v ===== *)
(** * What the watchdog takes

    In every schedule a sweep takes a card only from a session without a turn
    ([sweep_takes_idle_cards]); alone, it frees exactly the cards whose worker has
    vanished ([sweep_exact]). *)

From S2P Require Import Prelude RustStr Json Pipeline Store StoreProps Board Dispatch Programs Turns Resume Manager Watchdog Handover ManagerRoutes ManagerProps ManagerSafety ManagerRuns ManagerLive.

Module WatchdogProps.
Export ManagerRuns.ManagerRuns ManagerLive.ManagerLive.

(** ** What a sweep has seen *)

(** The providers and sessions found without a turn since the lock was taken. *)
Definition note_free (l : list (string * string)) (e : Event) : list (string * string) :=
  match e with
  | @Ev _ _ o b =>
    match o in Op B return B → list (string * string) with
    | LockSession _ | UnlockSession _ | BeginTurn _ _ _ => λ _, []
    | TryLock _ => λ b, if b : bool then [] else l
    | IsActiveFor plugin sid => λ b, if b : bool then l else (plugin, sid) :: l
    | _ => λ _, l
    end b
  end.
Definition free (h : list Event) : list (string * string) := foldl note_free [] h.

Lemma free_snoc h e : free (h ++ [e]) = note_free (free h) e.
Proof. unfold free. by rewrite foldl_app. Qed.

(** What a sweep has looked at before it takes the lock of session [sid]: an
    event log without an open question, no background task, and the row of the
    session, missing or not active for a while. *)
Record looked `{JsonApi} (sid : string) (h : list Event) : Prop := {
  looked_log : ∃ log, Ev (O := Op) (ListEvents sid) (Ok log) ∈ h ∧ Board.pending_questions log = [];
  looked_tasks : Ev (O := Op) (HasBackground sid) false ∈ h;
  looked_row : ∃ row, Ev (O := Op) (GetSession sid) (Ok row) ∈ h ∧
    ∀ r, row = Some r → ∃ secs, Ev (O := Op) (SecondsSince (last_activity (columns r))) secs ∈ h ∧ in_grace secs = false }.

Lemma looked_more `{JsonApi} sid h h' : h ⊆ h' → looked sid h → looked sid h'.
Proof.
  intros Hs [(log & Hlog & Hp) Ht (row & Hr & Hsecs)]. split; [by exists log; auto|by auto|].
  exists row. split; [by auto|]. intros r Hrow. destruct (Hsecs r Hrow) as (secs & Hin & Hg). exists secs. auto.
Qed.

Section looking.
Context `{JsonApi, !MoreJson} (providers : list Provider).

(** Of the sweep of a card. *)
Definition look (q : Request) (h : list Event) (e : Event) : Prop :=
  match q with
  | SweepRef card sid =>
    match e with
    | @Ev _ _ o b =>
      match o in Op B return B → Prop with
      | OnBoard o => λ _, ∀ c s, clear_of o = Some (c, s) →
          looked s h ∧ ∀ p, p ∈ providers → (owner_plugin p, s) ∈ free h
      | _ => λ _, True
      end b
    end
  | _ => True
  end.

Abbreviation any := (λ (_ : list Event) _, True).

Lemma paths_trivial {A} (I : list Event → Event → Prop) h (m : Prog Op A) : (∀ h e, I h e) → paths I any h m.
Proof. intros HI. revert h. induction m as [a|B o k IH]; intros h; simpl; [done|]. intros b. by split. Qed.

(** More calls, none of which takes back what was found without a turn. *)
Definition extends (h h' : list Event) : Prop := h ⊆ h' ∧ free h ⊆ free h'.

Lemma extends_snoc h e : free h ⊆ note_free (free h) e → extends h (h ++ [e]).
Proof. intros Hf. split; [set_solver|]. by rewrite free_snoc. Qed.

#[local] Instance extends_pre : PreOrder extends.
Proof. split; [by intros h|]. intros h1 h2 h3 [] []. split; set_solver. Qed.

Lemma paths_running_in card sid l h :
  paths (look (SweepRef card sid))
    (λ h' r, extends h h' ∧ (r = Ok None → ∀ p, p ∈ l → (owner_plugin p, sid) ∈ free h')) h (running_provider_in l sid).
Proof.
  revert h. induction l as [|p l IH]; intros h; cbn [running_provider_in].
  - cbn. split; [done|]. intros _ p Hp. by apply elem_of_nil in Hp.
  - apply paths_h_bind, paths_infallible, paths_call. intros b. split; [done|]. cbn [or_err].
    destruct b.
    + cbn. split; [by apply extends_snoc|done].
    + eapply paths_mono; [|apply IH]. intros h' r [[Hs Hf] Hn]. rewrite free_snoc in Hf. cbn in Hf. split.
      * split; set_solver.
      * intros Hr p' [->|Hp']%elem_of_cons; [|by apply Hn]. apply Hf. by left.
Qed.

Lemma paths_is_running card sid h :
  paths (look (SweepRef card sid))
    (λ h' r, extends h h' ∧ (r = Ok false → ∀ p, p ∈ providers → (owner_plugin p, sid) ∈ free h'))
    h (is_running providers sid).
Proof.
  unfold is_running, running_provider. apply paths_h_bind. eapply paths_mono; [|apply (paths_running_in card)].
  intros h' [[p|]|e] [He Hn]; cbn; [by split|split; [done|by auto]|by split].
Qed.

Lemma clear_looks card sid h :
  looked sid h → paths (look (SweepRef card sid)) any h (with_try_lock sid (clear_ref providers card sid)).
Proof.
  intros Hl. unfold with_try_lock. apply paths_h_bind, paths_infallible, paths_call. intros []; (split; [done|]); [|done].
  cbn [or_err]. apply (looked_more _ _ (h ++ [Ev (O := Op) (TryLock sid) true])) in Hl; [|set_solver].
  revert Hl. generalize (h ++ [Ev (O := Op) (TryLock sid) true]). clear h. intros h Hl.
  apply paths_bind. apply (paths_mono _ any); [by intros h' r _; cbn|]. unfold clear_ref.
  apply paths_h_bind. eapply paths_mono; [|apply (paths_is_running card)].
  intros h1 [[]|e] [[Hs _] Hn]; [done| |done]. cbn [or_err]. apply (looked_more _ _ _ Hs) in Hl.
  apply paths_h_bind, paths_infallible, paths_call. intros b. split.
  - intros c s [= <- <-]. split; [done|]. by apply Hn.
  - cbn [or_err]. destruct b as [[c|]|e]; [|done..]. apply paths_ignore, paths_call. intros b. by split.
Qed.

Lemma spared_looks card sid row h :
  (∃ log, Ev (O := Op) (ListEvents sid) (Ok log) ∈ h ∧ Board.pending_questions log = []) →
  Ev (O := Op) (HasBackground sid) false ∈ h → Ev (O := Op) (GetSession sid) (Ok row) ∈ h →
  paths (look (SweepRef card sid)) (λ h' r, r = Ok false → looked sid h') h (spared providers row sid).
Proof.
  intros (log & Hlog & Hp) Ht Hr. unfold spared. destruct row as [r|].
  - apply paths_h_bind. eapply paths_mono; [|apply (paths_is_running card)].
    intros h1 [[]|e] [[Hs _] _]; [done| |done]. cbn [or_err]. apply paths_h_bind, paths_infallible, paths_call.
    intros secs. split; [done|]. cbn. intros [= Hg]. split; [exists log; set_solver|set_solver|].
    exists (Some r). split; [set_solver|]. intros r' [= <-]. exists secs. split; [set_solver|done].
  - cbn. intros _. split; [by exists log|done|]. by exists None.
Qed.

Lemma sweep_looks card sid : paths (look (SweepRef card sid)) any [] (sweep_ref providers card sid).
Proof.
  unfold sweep_ref, session_has_pending_question.
  apply paths_h_bind, paths_h_bind, paths_infallible, paths_call. intros log. split; [done|]. cbn [or_err mret h_ret paths].
  destruct log as [log|e]; [|done]. destruct (bool_decide_reflect (Board.pending_questions log = [])) as [Hlog|]; [|done].
  cbn [negb]. apply paths_h_bind, paths_infallible, paths_call. intros []; (split; [done|]); [done|]. cbn [or_err].
  apply paths_h_bind, paths_infallible, paths_call. intros row. split; [done|]. cbn [or_err].
  destruct row as [row|e]; [|done]. apply paths_h_bind. eapply paths_mono; [|apply spared_looks].
  - intros h [[]|e] Hl; cbn [or_err]; [done|by apply clear_looks, Hl|done].
  - exists log. split; [set_solver|done].
  - set_solver.
  - set_solver.
Qed.

Lemma handle_looks q r : paths (look q) any [] (handle providers r q).
Proof.
  destruct q; try (by apply paths_trivial; intros ? ?). cbn [handle]. unfold done, reply.
  apply paths_bind. eapply paths_mono; [|apply sweep_looks]. by intros.
Qed.
End looking.

(** ** Turns begin under the lock *)

(** No turn that was not there before. *)
Definition calmer (rt rt' : Runtime) : Prop :=
  ∀ s t', rt' !! s = Some t' → ∃ t, rt !! s = Some t ∧ plugin_id t = plugin_id t'.

Lemma calmer_refl rt : calmer rt rt.
Proof. intros s t' Ht. by exists t'. Qed.
#[local] Hint Resolve calmer_refl : core.

Lemma calmer_insert rt s t t' : rt !! s = Some t → plugin_id t = plugin_id t' → calmer rt (<[s := t']> rt).
Proof.
  intros Ht Hp s' t'' Hs. destruct (decide (s = s')) as [<-|Hne].
  - rewrite lookup_insert_eq in Hs. injection Hs as <-. by exists t.
  - rewrite lookup_insert_ne in Hs by done. by exists t''.
Qed.

Lemma calmer_alter rt s f : (∀ t, plugin_id (f t) = plugin_id t) → calmer rt (alter f s rt).
Proof.
  intros Hf s' t' Hs. destruct (decide (s = s')) as [<-|Hne].
  - rewrite lookup_alter_eq in Hs. destruct (rt !! s) as [t|]; [|done]. injection Hs as <-. by exists t.
  - rewrite lookup_alter_ne in Hs by done. by exists t'.
Qed.

Lemma calmer_trans rt1 rt2 rt3 : calmer rt1 rt2 → calmer rt2 rt3 → calmer rt1 rt3.
Proof.
  intros H1 H2 s t3 Ht3. destruct (H2 _ _ Ht3) as (t2 & Ht2 & E2). destruct (H1 _ _ Ht2) as (t1 & Ht1 & E1).
  exists t1. split; [done|congruence].
Qed.

Lemma owned_turn_found plugin s rt t : owned_turn plugin s rt = Ok t → rt !! s = Some t.
Proof. unfold owned_turn. destruct (rt !! s) as [x|]; [|done]. destruct (_ == _); [|done]. by intros [= ->]. Qed.

Lemma on_turns_calmer {A} (m : Runtime → A * Runtime) h b h' :
  on_turns m h = Some (b, h') → calmer (turns h) (m (turns h)).2 → calmer (turns h) (turns h').
Proof. unfold on_turns. destruct (m (turns h)) as [x rt]. by intros [= <- <-]. Qed.

Lemma stmt_turns {A} f (m : Store.M A) h r h' : stmt f m h = Some (r, h') → turns h' = turns h.
Proof. unfold stmt. destruct (fault f); [by intros [= <- <-]|]. destruct (m (db h)). by intros [= <- <-]. Qed.

Definition begins {B} (o : Op B) (sid : string) : Prop :=
  match o with BeginTurn s _ _ => s = sid | _ => False end.

Lemma ended_calmer s rt : calmer rt (end_turn_full s rt).2.
Proof.
  unfold end_turn_full. destruct (rt !! s); simpl; [|done]. intros s' t' [_ Ht]%lookup_delete_Some. by exists t'.
Qed.

Lemma owned_calmer {A} plugin s rt (x : string → A * Runtime) (k : TurnState → A * Runtime) :
  (∀ e, (x e).2 = rt) → (∀ t, rt !! s = Some t → calmer rt (k t).2) →
  calmer rt (match owned_turn plugin s rt with Ok t => k t | Err e => x e end).2.
Proof.
  intros Hx Hk. destruct (owned_turn plugin s rt) as [t|e] eqn:E; [by apply Hk, (owned_turn_found plugin)|by rewrite Hx].
Qed.

Lemma call_calmer `{Store.World} B t (o : Op B) f h b h' :
  exec B t o f h = Some (b, h') → (∀ s, ¬ begins o s) → calmer (turns h) (turns h').
Proof.
  intros He Hb. destruct o; cbn [exec] in He;
    try (by injection He as <- <-);
    try (apply stmt_turns in He; by rewrite He);
    try (by repeat case_match; simplify_eq/=);
    try (eapply on_turns_calmer; [exact He|]).
  - unfold update_row in He. destruct (stmt _ _ _) as [[x h1]|] eqn:E; [|done]. apply stmt_turns in E.
    destruct x as [[?|]|?]; injection He as <- <-; simpl; by rewrite E.
  - unfold take_doc_review in He. destruct (fault f); injection He as <- <-; [done|]. by destruct (more h !! sid).
  - unfold delete_row in He. destruct (stmt _ _ _) as [[[x|?] h1]|] eqn:E; [..|done]; apply stmt_turns in E;
      injection He as <- <-; simpl; by rewrite E.
  - unfold queue_injection. apply owned_calmer; [done|]. intros x Hx. by eapply calmer_insert.
  - by destruct (Hb sid).
  - apply ended_calmer.
  - by apply calmer_alter.
  - simpl. destruct ending_linger; [|by apply calmer_alter]. unfold retire_turn_ending_linger.
    destruct (turns h !! sid) as [x|]; [|done].
    assert (calmer (turns h) (alter set_end_linger sid (alter set_retire sid (turns h)))) as Hc
      by (apply (calmer_trans _ (alter set_retire sid (turns h))); by apply calmer_alter).
    destruct (lingering x); [|done]. eapply calmer_trans; [exact Hc|by apply calmer_alter].
  - unfold Turns.write_stdin. destruct (child f); [done|]. destruct (turns h !! sid) eqn:E; simpl; [by eapply calmer_insert|done].
  - unfold take_message. apply owned_calmer; [done|]. intros x Hx. destruct (retire x); [done|].
    destruct (injected x); [done|]. by eapply calmer_insert.
  - unfold note_terminal. apply owned_calmer; [done|]. intros y Hy. destruct x; [|done]. by eapply calmer_insert.
  - unfold start_linger. destruct (turns h !! sid) as [x|] eqn:E; [|done].
    destruct (end_linger x); [by apply calmer_alter|by eapply calmer_insert].
Qed.

Lemma call_turns `{Store.World} B t (o : Op B) f h b h' plugin sid :
  exec B t o f h = Some (b, h') → is_active_for plugin sid (turns h') = true →
  is_active_for plugin sid (turns h) = true ∨ begins o sid.
Proof.
  intros He Ha. unfold is_active_for in *.
  assert (calmer (turns h) (turns h') → match turns h !! sid with Some t => plugin_id t == plugin | None => false end = true)
    as Hc.
  { intros Hc. destruct (turns h' !! sid) as [t'|] eqn:Et; [|done]. destruct (Hc _ _ Et) as (t0 & -> & Hp). by rewrite Hp. }
  destruct o; try (left; apply Hc; eapply call_calmer; [exact He|by intros ? ?]).
  destruct (decide (sid0 = sid)) as [|Hne]; [by right|left]. cbn [exec] in He. unfold on_turns, begin_turn in He.
  destruct (turns h !! sid0); injection He as <- <-; [done|]. simpl in Ha. by rewrite lookup_insert_ne in Ha.
Qed.

(** ** Every schedule *)

(** Where a handler that holds the lock of its session has found no turn, there
    is none. *)
Definition quiet_since (rt : Runtime) (Q : nat → option Request) (V : nat → View) (F : nat → list (string * string)) : Prop :=
  ∀ t q plugin, Q t = Some q → held (V t) = true → (plugin, target q) ∈ F t → is_active_for plugin (target q) rt = false.

Section schedules.
Context `{Store.World, JsonApi, !MoreJson} (providers : list Provider).
Abbreviation play := (Programs.play (O := Op) exec (handle providers)).
Abbreviation act := (Programs.act (O := Op) exec (handle providers)).
Abbreviation moves := (Programs.moves (O := Op) exec (handle providers)).

Definition frees (w : World) (t : nat) : list (string * string) := free (hist (trace w) t).

Lemma frees_snoc tr t (e : Event) t' :
  free (hist (tr ++ [(t, e)]) t') = if decide (t = t') then note_free (free (hist tr t)) e else free (hist tr t').
Proof.
  rewrite hist_app. case_decide as Ht; [subst; by rewrite hist_self, free_snoc|by rewrite hist_other, app_nil_r].
Qed.

Definition finds_free (plugin sid : string) (e : Event) : Prop :=
  match e with
  | @Ev _ _ o b =>
    match o in Op B return B → Prop with
    | IsActiveFor p s => λ b, p = plugin ∧ s = sid ∧ b = false
    | _ => λ _, False
    end b
  end.

(** What one call adds to the pairs found without a turn. *)
Lemma note_free_elem v e plugin sid :
  (plugin, sid) ∈ note_free v e → (plugin, sid) ∈ v ∨ finds_free plugin sid e.
Proof.
  destruct e as [B o b]. destruct o; cbn [note_free]; try by left.
  - intros Hn. by apply elem_of_nil in Hn.
  - destruct b; [|by left]. intros Hn. by apply elem_of_nil in Hn.
  - intros Hn. by apply elem_of_nil in Hn.
  - destruct b; [by left|]. intros [[= <- <-]|?]%elem_of_cons; [by right|by left].
  - intros Hn. by apply elem_of_nil in Hn.
Qed.

Lemma held_before v e x : x ∈ note_free [x] e → held (upd v e) = true → held v = true.
Proof.
  destruct e as [B o b]. destruct o; cbn [note_free upd]; try done; try (by intros Hn; apply elem_of_nil in Hn).
  - destruct b; [|done]. intros Hn. by apply elem_of_nil in Hn.
  - destruct b as [[r|]|]; done.
  - destruct b as [[r|]|]; done.
  - by destruct b.
  - by destruct b.
  - by destruct b.
  - by destruct b.
Qed.

Lemma note_free_kept v e x : x ∈ note_free v e → x ∈ v → x ∈ note_free [x] e.
Proof.
  destruct e as [B o b]. destruct o; cbn [note_free]; try (intros; by left); try (by intros Hn; apply elem_of_nil in Hn).
  - destruct b; [|intros; by left]. intros Hn. by apply elem_of_nil in Hn.
  - destruct b; intros; [by left|]. right. by left.
Qed.

Lemma quiet_call B t q (o : Op B) b f h h' Q V F :
  ok (db h) (locks h) Q V → quiet_since (turns h) Q V F → Q t = Some q → allow q (V t) (Ev (O := Op) o b) →
  exec B t o f h = Some (b, h') →
  quiet_since (turns h') Q (at_thread t (upd (V t) (Ev (O := Op) o b)) V)
    (λ t', if decide (t = t') then note_free (F t) (Ev (O := Op) o b) else F t').
Proof.
  intros Hok Hqu Hq Hal He t' q' plugin Hq' Hh Hin. apply not_true_is_false. intros Ha.
  destruct (call_turns _ _ _ _ _ _ _ _ _ He Ha) as [Hb|Hb].
  - destruct (decide (t = t')) as [<-|Hne].
    + rewrite at_thread_eq in Hh. assert (q' = q) as -> by congruence.
      destruct (note_free_elem _ _ _ _ Hin) as [Hold|E].
      * rewrite (Hqu t q plugin) in Hb; [done|done| |done]. eapply held_before; [|exact Hh].
        by eapply note_free_kept.
      * destruct o; try done. destruct E as (-> & -> & ->). cbn [exec] in He. injection He as Hf _. congruence.
    + rewrite at_thread_ne in Hh by done. by rewrite (Hqu t' q' plugin) in Hb.
  - destruct o; try done. simpl in Hb. subst sid. destruct Hal as (Ht & (Hheld & _) & _).
    destruct (decide (t = t')) as [<-|Hne]; [by apply elem_of_nil in Hin|].
    rewrite at_thread_ne in Hh by done.
    rewrite (lock_alone _ _ _ _ t q Hok Hq t' q') in Hh; done.
Qed.

Definition quiet_world (w : World) : Prop :=
  quiet_since (turns (server w)) (reqs w) (view (trace w)) (frees w).

Lemma quiet_moves w w' : moves w w' → world_ok w → quiet_world w → quiet_world w'.
Proof.
  intros Hm [Ha Hok] Hqu. destruct Hm as [|q u|t q u B o k f b s Ht He]; [done|..].
  - intros t' q' plugin Hq' Hh Hin. unfold frees in Hin. simpl in *. unfold reqs in Hq'. simpl in Hq'.
    destruct (threads w !! t') as [th|] eqn:Et.
    + rewrite (lookup_app_l_Some _ _ _ _ Et) in Hq'. apply (Hqu t' q' plugin); [|done|done]. unfold reqs. by rewrite Et.
    + rewrite (kept_new _ _ _ Ha) in Hin by (by apply lookup_ge_None). by apply elem_of_nil in Hin.
  - assert (reqs w t = Some q) as Hq by (unfold reqs; by rewrite Ht).
    pose proof (quiet_call _ t q o b f _ _ _ _ _ Hok Hqu Hq (allowed_next _ _ _ _ _ _ _ _ Ha Ht) He) as Hnew.
    intros t' q' plugin Hq' Hh Hin. simpl in *. apply (Hnew t' q' plugin).
    + by rewrite <-(reqs_insert w t q u (Vis o k) (k b) (trace w ++ [(t, Ev (O := Op) o b)]) s).
    + by rewrite view_snoc.
    + unfold frees in Hin |- *. simpl in Hin. by rewrite frees_snoc in Hin.
Qed.

(** What the statement does: nothing, or it takes the card from that session. *)
Definition taken (card sid : string) (d d' : Store.Db) : Prop :=
  Store.cards d' = Store.cards d ∨
  ∃ c now, Store.cards d !! card = Some c ∧ Store.c_worker_session_id c = Some sid ∧
    Store.cards d' = <[card := Store.apply_update (Store.UpdateCard_default |> Store.set_worker_session_id None
      |> Store.set_last_worker_session_id (Some sid) |> Store.set_updated_at now) c]> (Store.cards d).

Lemma clear_worker_taken card sid d : taken card sid d (Store.clear_card_worker_if_matches card sid d).2.
Proof.
  unfold Store.clear_card_worker_if_matches, Store.now, Store.tick, Store.gets, mbind, Store.M_bind. simpl.
  unfold Store.get_card. simpl. destruct (Store.cards d !! card) as [c|] eqn:Ec; [|by left]. simpl.
  destruct (bool_decide_reflect (Store.c_worker_session_id c = Some sid)) as [Hw|]; [|by left].
  unfold Store.constraint. simpl. destruct (is_some _); [|by left]. right. by eexists c, _.
Qed.

Definition clears_worker (e : Event) : option (string * string) :=
  match e with
  | @Ev _ _ o b => match o with OnBoard o => clear_of o | _ => None end
  end.

Lemma call_taken B t (o : Op B) f h b h' card sid :
  exec B t o f h = Some (b, h') → clears_worker (Ev (O := Op) o b) = Some (card, sid) → taken card sid (db h) (db h').
Proof.
  intros He Hc. destruct o; try done. destruct o; try done. injection Hc as -> ->. cbn [exec on_board] in He.
  unfold stmt in He. destruct (fault f); [injection He as <- <-; by left|].
  pose proof (clear_worker_taken card sid (db h)) as Ht.
  destruct (Store.clear_card_worker_if_matches card sid (db h)) as [r d]. by injection He as <- <-.
Qed.

(** A call the schedule has just made. *)
Lemma last_call w t f e :
  trace (act w (Run t f)) = trace w ++ [(t, e)] →
  ∃ q u B (o : Op B) k b, threads w !! t = Some (mkThread q u (Vis o k)) ∧ e = Ev (O := Op) o b ∧
    exec _ t o f (server w) = Some (b, server (act w (Run t f))).
Proof.
  simpl. destruct (threads w !! t) as [[q u [a|B o k]]|] eqn:Et; simpl.
  - intros Htr. apply (f_equal length) in Htr. rewrite length_app in Htr. simpl in Htr. lia.
  - destruct (exec _ t o f (server w)) as [[b s]|] eqn:Ee; simpl.
    + intros Htr. apply app_inv_head in Htr. injection Htr as <-. by eexists q, u, B, o, k, b.
    + intros Htr. apply (f_equal length) in Htr. rewrite length_app in Htr. simpl in Htr. lia.
  - intros Htr. apply (f_equal length) in Htr. rewrite length_app in Htr. simpl in Htr. lia.
Qed.

(** C13: whatever else the server does, the watchdog takes a card only from a
    session without a turn: when it unassigns a card, it holds the lock of the
    session, no provider runs a turn of it, and before that it saw that the
    session has no open question and no background task and that it is gone or
    was not active for the grace period.  The statement changes no other card,
    and this one only if it is still assigned to that session. *)
Theorem sweep_takes_idle_cards h l t f card sid b :
  let w := play (start h) l in
  let w' := act w (Run t f) in
  bounded (db h) → locks h = ∅ →
  trace w' = trace w ++ [(t, Ev (O := Op) (OnBoard (ClearWorker card sid)) b)] →
  looked sid (hist (trace w) t) ∧
  locks (server w) !! sid = Some t ∧
  (∀ p, p ∈ providers → is_active_for (owner_plugin p) sid (turns (server w)) = false) ∧
  taken card sid (db (server w)) (db (server w')).
Proof.
  intros w w' Hb Hl Htr.
  assert (world_ok w ∧ quiet_world w) as [[Ha Hok] Hqu].
  { apply play_ind.
    - split; [by apply world_ok_start|]. by intros t' q' p Hq'.
    - intros v v' Hm [Hv Hq]. split; [by eapply world_ok_moves|by eapply quiet_moves]. }
  assert (kept (λ q _ h e, look providers q h e) (λ _ _ _ _, True) w) as Hlook.
  { apply kept_play. intros q r. apply handle_looks. }
  clearbody w. destruct (last_call _ _ _ _ Htr) as (q & u & B & o & k & b' & Ht & Ee & He).
  pose proof (allowed_next _ _ _ _ _ _ _ b' Ha Ht) as Hal. rewrite <-Ee in Hal.
  destruct (Hal card sid eq_refl) as [-> Hh].
  destruct (kept_prog _ _ _ Hlook t _ Ht b') as [HI _]. rewrite <-Ee in HI.
  destruct (HI card sid eq_refl) as [Hlk Hf].
  assert (reqs w t = Some (SweepRef card sid)) as Hq by (unfold reqs; by rewrite Ht).
  split; [done|]. split; [apply (ok_locks _ _ _ _ Hok); eauto|]. split.
  - intros p Hp. apply (Hqu t (SweepRef card sid) (owner_plugin p) Hq Hh). by apply Hf.
  - eapply call_taken; [exact He|]. by rewrite <-Ee.
Qed.
End schedules.
End WatchdogProps.
