(* ===== verification/WatchdogLive.v ===== *)
(** * A sweep frees the cards of vanished workers

    One sweep alone, on a database that works: exactly the cards whose worker has
    vanished are free again afterwards, and their runs are closed. *)

From S2P Require Import Prelude RustStr Json Pipeline Store StoreProps Board Dispatch DispatchProps Programs Turns Resume Manager Watchdog Handover ManagerRoutes ManagerProps ManagerSafety ManagerLive.

Module WatchdogLive.
Export ManagerLive.ManagerLive.
Import StoreProps.StoreProps DispatchProps.DispatchProps.

(** ** Vanished workers *)

Section live.
Context `{Store.World, JsonApi, !MoreJson} (providers : list Provider) (f : Fate).
Abbreviation run m h := (alone (O := Op) exec 0 f m h).

Definition runs_turn (sid : string) (h : Host) : bool :=
  existsb (λ p, is_active_for (owner_plugin p) sid (turns h)) providers.

(** No open question, no background task, no turn, and no activity for a while. *)
Definition vanished (sid : string) (h : Host) : bool :=
  negb (Board.session_has_pending_question sid (db h)) && negb (background f sid) && negb (runs_turn sid h) &&
  match get_row sid h with Some r => negb (in_grace (age f (last_activity (columns r)))) | None => true end.

Definition stale (h : Host) (c : Store.Card) : bool :=
  match Store.c_worker_session_id c with
  | Some sid => negb ((Store.c_step c == "done") || (Store.c_step c == "wont_do")) && vanished sid h
  | None => false
  end.

(** The card without its worker, which stays on record as the last one. *)
Definition freed (now : string) (c : Store.Card) : Store.Card :=
  Store.apply_update (Store.UpdateCard_default |> Store.set_worker_session_id None
    |> Store.set_last_worker_session_id (Store.c_worker_session_id c) |> Store.set_updated_at now) c.

(** The database after a sweep that came by the cards [seen]. *)
Record swept (h : Host) (seen : list string) (h' : Host) : Prop := {
  swept_host : h' = set_db (db h') h;
  swept_sessions : Store.sessions (db h') = Store.sessions (db h);
  swept_projects : Store.projects (db h') = Store.projects (db h);
  swept_events : Store.events (db h') = Store.events (db h);
  swept_queue : Store.queued (db h') = Store.queued (db h);
  swept_todos : Store.todos (db h') = Store.todos (db h);
  swept_card id : match Store.cards (db h) !! id with
    | Some c => if bool_decide (id ∈ seen) && stale h c then ∃ now, Store.cards (db h') !! id = Some (freed now c)
                else Store.cards (db h') !! id = Some c
    | None => Store.cards (db h') !! id = None
    end;
  swept_runs id c sid : id ∈ seen → Store.cards (db h) !! id = Some c → stale h c = true →
    Store.c_worker_session_id c = Some sid → Forall (λ r, Store.run_matches id (Some sid) r = false) (Store.runs (db h')) }.

Lemma swept_start h : swept h [] h.
Proof.
  split; try done; [by destruct h|..].
  - intros id. by destruct (Store.cards (db h) !! id).
  - intros id c sid Hn. by apply elem_of_nil in Hn.
Qed.

Context (Hf : fault f = None).

Lemma run_finds_provider sid l h :
  ∃ o, run (running_provider_in l sid) h = Some (Ok o, h) ∧
    is_some o = existsb (λ p, is_active_for (owner_plugin p) sid (turns h)) l.
Proof.
  induction l as [|p l IH]; cbn [running_provider_in existsb]; [by exists None|].
  rewrite alone_h_bind, run_get. cbn [exec]. rewrite !some_bind.
  destruct (is_active_for (owner_plugin p) sid (turns h)); [by exists (Some p)|exact IH].
Qed.

Lemma run_is_running_any sid h : run (is_running providers sid) h = Some (Ok (runs_turn sid h), h).
Proof.
  unfold is_running, running_provider. rewrite alone_h_bind. destruct (run_finds_provider sid providers h) as (o & -> & Ho).
  rewrite some_bind, run_mret. unfold runs_turn. by rewrite Ho.
Qed.

Lemma run_pending sid h :
  run (session_has_pending_question sid) h = Some (Ok (Board.session_has_pending_question sid (db h)), h).
Proof.
  unfold session_has_pending_question. rewrite alone_h_bind, run_get. cbn [exec]. rewrite query_ok, !some_bind, run_mret by done.
  unfold Board.session_has_pending_question, Board.pending_question_events.
  by destruct (Board.pending_questions _).
Qed.

(** *** One card *)

(** The database when the card is free. *)
Definition freed_db (id : string) (c : Store.Card) (d : Store.Db) : Store.Db :=
  Store.set_cards (<[id := freed (Store.rfc3339 (Store.clock d)) c]>) (Store.set_clock S d).

Lemma clear_worker_frees id sid c d :
  Store.cards d !! id = Some c → Store.c_worker_session_id c = Some sid → is_Some (Store.sessions d !! sid) →
  Store.clear_card_worker_if_matches id sid d = (Ok (Some (freed (Store.rfc3339 (Store.clock d)) c)), freed_db id c d).
Proof.
  intros Hc Hw [s Hs]. unfold Store.clear_card_worker_if_matches, Store.now, Store.tick, Store.gets, mbind, Store.M_bind. simpl.
  unfold Store.get_card. simpl. rewrite Hc, bool_decide_eq_true_2 by done. simpl.
  unfold Store.constraint. simpl. rewrite Hs. simpl. unfold freed_db, freed. by rewrite Hw.
Qed.

Lemma run_spared row sid h :
  run (spared providers row sid) h =
  Some (Ok (match row with
    | None => false
    | Some r => runs_turn sid h || in_grace (age f (last_activity (columns r)))
    end), h).
Proof.
  destruct row as [r|]; [|done]. unfold spared. rewrite alone_h_bind, run_is_running_any, some_bind.
  destruct (runs_turn sid h); [done|]. by rewrite alone_h_bind, run_get.
Qed.

(** Up to the lock. *)
Lemma run_sweep_ref id sid h r :
  get_row sid h = Some r →
  run (sweep_ref providers id sid) h =
  if vanished sid h then run (with_try_lock sid (clear_ref providers id sid)) h else Some (Ok tt, h).
Proof.
  intros Hr. unfold sweep_ref, vanished. rewrite alone_h_bind, run_pending, some_bind.
  destruct (Board.session_has_pending_question sid (db h)); [done|].
  rewrite alone_h_bind, run_get. cbn [exec]. rewrite !some_bind. destruct (background f sid); [done|].
  rewrite alone_h_bind, run_get. cbn [exec]. rewrite query_ok, !some_bind, Hr by done.
  rewrite alone_h_bind, run_spared, some_bind. by destruct (runs_turn sid h), (in_grace _).
Qed.

Lemma run_try_lock sid (m : H Op Fail unit) h d :
  locks h !! sid = None → (∀ l, run m (set_locks l h) = Some (Ok tt, set_db d (set_locks l h))) →
  run (with_try_lock sid m) h = Some (Ok tt, set_db d h).
Proof.
  intros Hfree Hm. unfold with_try_lock. rewrite alone_h_bind, run_get. cbn [exec]. rewrite Hfree, !some_bind.
  rewrite alone_bind, Hm, some_bind, alone_bind, alone_call. cbn [exec]. rewrite bool_decide_eq_true_2 by apply lookup_insert_eq.
  rewrite some_bind, alone_ret. destruct h. unfold set_locks, set_db. cbn. by rewrite delete_insert_id.
Qed.

Lemma run_clear_ref id sid c h :
  runs_turn sid h = false → Store.cards (db h) !! id = Some c → Store.c_worker_session_id c = Some sid →
  is_Some (Store.sessions (db h) !! sid) →
  run (clear_ref providers id sid) h =
    Some (Ok tt, set_db (Store.close_card_run id sid "crashed" None (freed_db id c (db h))).2 h).
Proof.
  intros Hr Hc Hw Hs. unfold clear_ref. rewrite alone_h_bind, run_is_running_any, some_bind, Hr.
  rewrite alone_h_bind, run_get. cbn [exec on_board]. rewrite stmt_ok, (clear_worker_frees id sid c), !some_bind by done.
  cbn [fst snd]. rewrite run_ignore. cbn [exec on_board]. by rewrite stmt_ok, some_bind by done.
Qed.

(** *** The cards in turn *)

Lemma vanished_swept h seen h1 sid : swept h seen h1 → vanished sid h1 = vanished sid h.
Proof.
  intros [Hh Hs _ He _ _ _ _]. unfold vanished.
  assert (get_row sid h1 = get_row sid h) as -> by (rewrite Hh; unfold get_row, Store.get_session; simpl; by rewrite Hs).
  assert (runs_turn sid h1 = runs_turn sid h) as -> by (by rewrite Hh).
  unfold Board.session_has_pending_question, Board.pending_question_events, Store.list_events_by_session, Store.session_events.
  by rewrite He.
Qed.

Lemma swept_skip h seen h1 c :
  Store.cards (db h) !! Store.c_id c = Some c → stale h c = false → swept h seen h1 → swept h (Store.c_id c :: seen) h1.
Proof.
  intros Hc Hst [Hh Hs Hp He Hq Ht Hcard Hrun]. split; try done.
  - intros id. specialize (Hcard id). destruct (Store.cards (db h) !! id) as [c'|] eqn:E; [|done].
    destruct (decide (id = Store.c_id c)) as [->|Hne].
    + assert (c' = c) as -> by congruence. by rewrite Hst, andb_false_r in *.
    + erewrite bool_decide_ext; [exact Hcard|]. set_solver.
  - intros id c' sid [->|Hin]%elem_of_cons Hc' Hst'; [congruence|by eapply Hrun].
Qed.

Lemma closed_run id s o sm now id' s' r :
  Store.run_matches id' s' r = false →
  Store.run_matches id' s' (if Store.run_matches id s r then Store.close_run o sm now r else r) = false.
Proof.
  intros Hr. destruct (Store.run_matches id s r); [|done]. unfold Store.run_matches, Store.close_run. simpl.
  by rewrite andb_false_r.
Qed.

Lemma swept_free h seen h1 c sid :
  Store.cards (db h) !! Store.c_id c = Some c → Store.c_worker_session_id c = Some sid → stale h c = true →
  swept h seen h1 →
  swept h (Store.c_id c :: seen)
    (set_db (Store.close_card_run (Store.c_id c) sid "crashed" None (freed_db (Store.c_id c) c (db h1))).2 h1).
Proof.
  intros Hc Hw Hst [Hh Hs Hp He Hq Ht Hcard Hrun]. split; simpl; try done; [by rewrite Hh|..].
  - intros id. specialize (Hcard id). destruct (decide (Store.c_id c = id)) as [<-|Hne].
    + rewrite Hc, Hst, bool_decide_eq_true_2 by set_solver. simpl. eexists. by rewrite lookup_insert_eq.
    + rewrite lookup_insert_ne by done. destruct (Store.cards (db h) !! id) as [c'|]; [|done].
      erewrite bool_decide_ext; [exact Hcard|]. set_solver.
  - intros id c' sid' Hin Hc' Hst' Hw'. apply Forall_fmap, Forall_forall. intros r Hr. simpl.
    apply elem_of_cons in Hin as [->|Hin].
    + assert (sid' = sid) as -> by congruence. destruct (Store.run_matches (Store.c_id c) (Some sid) r) eqn:E; [|done].
      unfold Store.run_matches, Store.close_run. simpl. by rewrite andb_false_r.
    + apply closed_run. specialize (Hrun id c' sid' Hin Hc' Hst' Hw'). rewrite Forall_forall in Hrun. by apply Hrun.
Qed.

Context (h : Host) (Hi : inv (db h)) (Hl : locks h = ∅).

Lemma run_sweep_card seen h1 c :
  Store.cards (db h) !! Store.c_id c = Some c → Store.c_id c ∉ seen → swept h seen h1 →
  ∃ h2, run (sweep_card providers c) h1 = Some (Ok tt, h2) ∧ swept h (Store.c_id c :: seen) h2.
Proof.
  intros Hc Hnew Hsw. unfold sweep_card. pose proof Hsw as [Hh Hs _ _ _ _ Hcard _].
  destruct (Store.c_worker_session_id c) as [sid|] eqn:Hw.
  2:{ exists h1. split; [done|]. apply swept_skip; [done| |done]. unfold stale. by rewrite Hw. }
  destruct (_ || _) eqn:Hend.
  { exists h1. split; [done|]. apply swept_skip; [done| |done]. unfold stale. by rewrite Hw, Hend. }
  destruct (refs_cards _ _ _ _ _ (inv_refs _ Hi) _ _ Hc) as (_ & Href & _). rewrite references_Some in Href.
  destruct (Href sid Hw) as [s Hses].
  rewrite (run_sweep_ref _ _ _ (mkRow s (default no_columns (more h1 !! sid))))
    by (unfold get_row, Store.get_session; by rewrite Hs, Hses).
  assert (stale h c = vanished sid h1) as Hst by (unfold stale; by rewrite Hw, Hend, (vanished_swept _ _ _ _ Hsw)).
  destruct (vanished sid h1) eqn:Hv; [|exists h1; split; [done|by apply swept_skip]].
  specialize (Hcard (Store.c_id c)). rewrite Hc, bool_decide_eq_false_2 in Hcard by done. simpl in Hcard.
  assert (runs_turn sid h1 = false) as Hr.
  { unfold vanished in Hv. destruct (runs_turn sid h1); [|done]. by rewrite andb_false_r in Hv. }
  eexists. split; [|by apply swept_free]. apply run_try_lock; [by rewrite Hh; simpl; rewrite Hl|].
  intros l. rewrite (run_clear_ref _ _ c); [done..|by simpl; rewrite Hs, Hses].
Qed.

Lemma run_sweep_cards l seen h1 :
  (∀ c, c ∈ l → Store.cards (db h) !! Store.c_id c = Some c ∧ Store.c_id c ∉ seen) → NoDup (Store.c_id <$> l) →
  swept h seen h1 →
  ∃ h2, run (each (sweep_card providers) l) h1 = Some (Ok tt, h2) ∧ swept h (reverse (Store.c_id <$> l) ++ seen) h2.
Proof.
  revert seen h1. induction l as [|c l IH]; intros seen h1 Hl' Hnd Hsw; cbn [each]; [by exists h1|].
  destruct (Hl' c) as [Hc Hnew]; [by left|]. rewrite fmap_cons in Hnd. apply NoDup_cons in Hnd as [Hnin Hnd].
  destruct (run_sweep_card seen h1 c Hc Hnew Hsw) as (h2 & Hrun & Hsw2).
  destruct (IH (Store.c_id c :: seen) h2) as (h3 & Hrun3 & Hsw3); [|done|done|].
  - intros c' Hc'. destruct (Hl' c') as [? ?]; [by right|]. split; [done|]. intros [Heq|?]%elem_of_cons; [|done].
    apply Hnin. rewrite <-Heq. by apply list_elem_of_fmap_2.
  - exists h3. split; [by rewrite alone_h_bind, Hrun, some_bind|].
    rewrite fmap_cons, reverse_cons, <-app_assoc. exact Hsw3.
Qed.

(** A card of the database after the sweep of other projects. *)
Lemma swept_back seen h1 k c :
  swept h seen h1 → Store.cards (db h1) !! k = Some c →
  ∃ c0, Store.cards (db h) !! k = Some c0 ∧ Store.c_id c = Store.c_id c0 ∧ Store.c_project_id c = Store.c_project_id c0 ∧
    (k ∉ seen → c = c0).
Proof.
  intros Hsw Hk. pose proof (swept_card _ _ _ Hsw k) as Hc. destruct (Store.cards (db h) !! k) as [c0|]; [|congruence].
  exists c0. split; [done|]. destruct (bool_decide_reflect (k ∈ seen)); simpl in Hc.
  - destruct (stale h c0); [destruct Hc as [now Hc]|]; rewrite Hk in Hc; injection Hc as ->; by split_and!.
  - rewrite Hk in Hc. injection Hc as ->. by split_and!.
Qed.

Lemma run_sweep_project p done seen h1 :
  (∀ id, id ∈ seen ↔ ∃ c, Store.cards (db h) !! id = Some c ∧ Store.c_project_id c ∈ done) → Store.p_id p ∉ done →
  swept h seen h1 →
  ∃ seen' h2, run (sweep_project providers p) h1 = Some (Ok tt, h2) ∧ swept h seen' h2 ∧
    ∀ id, id ∈ seen' ↔ ∃ c, Store.cards (db h) !! id = Some c ∧ Store.c_project_id c ∈ Store.p_id p :: done.
Proof.
  intros Hseen Hp Hsw. unfold sweep_project. rewrite alone_h_bind, run_get. cbn [exec]. rewrite query_ok, !some_bind by done.
  set (l := Dispatch.list_cards_by_project (Store.p_id p) (db h1)).
  assert (∀ c, c ∈ l ↔ Store.cards (db h) !! Store.c_id c = Some c ∧ Store.c_project_id c = Store.p_id p) as Hin.
  { intros c. unfold l. rewrite elem_of_list_cards. split.
    - intros [[k Hk] Hpr]. destruct (swept_back _ _ _ _ Hsw Hk) as (c0 & Hk0 & Hid & Hpr0 & Hsame).
      assert (k ∉ seen) as Hk'.
      { rewrite Hseen. intros (c' & Hc' & Hd). rewrite Hk0 in Hc'. injection Hc' as <-. congruence. }
      rewrite (Hsame Hk') in *. by rewrite (inv_ids _ Hi _ _ Hk0).
    - intros [Hc Hpr]. split; [|done]. exists (Store.c_id c). pose proof (swept_card _ _ _ Hsw (Store.c_id c)) as Hcard.
      rewrite Hc, bool_decide_eq_false_2 in Hcard; [done|]. rewrite Hseen. intros (c' & Hc' & Hd). congruence. }
  destruct (run_sweep_cards l seen h1) as (h2 & Hrun & Hsw2); [|apply keyed_cards_ids|done|].
  - intros c [Hc Hpr]%Hin. split; [done|]. rewrite Hseen. intros (c' & Hc' & Hd). congruence.
  - intros k c Hk. destruct (swept_back _ _ _ _ Hsw Hk) as (c0 & Hk0 & -> & _). by apply (inv_ids _ Hi).
  - eexists _, h2. split; [exact Hrun|]. split; [exact Hsw2|]. intros id.
    rewrite elem_of_app, elem_of_reverse, Hseen, list_elem_of_fmap. split.
    + intros [(c & -> & [Hc Hpr]%Hin)|(c & Hc & Hd)]; exists c; (split; [done|]); [rewrite Hpr; by left|by right].
    + intros (c & Hc & [Hpr|Hd]%elem_of_cons); [left|right; by exists c].
      exists c. rewrite Hin, (inv_ids _ Hi _ _ Hc). by split_and!.
Qed.

Lemma run_sweep_projects ps done seen h1 :
  (∀ id, id ∈ seen ↔ ∃ c, Store.cards (db h) !! id = Some c ∧ Store.c_project_id c ∈ done) →
  NoDup ((Store.p_id <$> ps) ++ done) → swept h seen h1 →
  ∃ seen' h2, run (each (sweep_project providers) ps) h1 = Some (Ok tt, h2) ∧ swept h seen' h2 ∧
    ∀ id, id ∈ seen' ↔ ∃ c, Store.cards (db h) !! id = Some c ∧ Store.c_project_id c ∈ (Store.p_id <$> ps) ++ done.
Proof.
  revert done seen h1. induction ps as [|p ps IH]; intros done seen h1 Hseen Hnd Hsw; cbn [each]; [by exists seen, h1|].
  rewrite fmap_cons in Hnd |- *. apply NoDup_cons in Hnd as [Hp Hnd].
  destruct (run_sweep_project p done seen h1 Hseen) as (seen2 & h2 & Hrun & Hsw2 & Hs2); [set_solver|done|].
  destruct (IH (Store.p_id p :: done) seen2 h2 Hs2) as (seen3 & h3 & Hrun3 & Hsw3 & Hs3); [|done|].
  - rewrite <-Permutation_middle. by constructor.
  - exists seen3, h3. split; [by rewrite alone_h_bind, Hrun, some_bind|]. split; [done|]. intros id. rewrite Hs3.
    split; intros (c & Hc & Hd); exists c; (split; [done|]); set_solver.
Qed.
End live.

(** A freed card can be picked up again. *)
Lemma freed_available edges now c (l : list Store.Card) :
  freed now c ∈ l → Store.c_blocked c = false → Store.c_step c ≠ "done" → Store.c_step c ≠ "wont_do" →
  Dispatch.deps_satisfied edges l (Store.c_id c) = true → freed now c ∈ Dispatch.available edges l.
Proof.
  intros Hin Hb Hd Hw Hdeps. unfold Dispatch.available. apply list_elem_of_In, filter_In. split; [by apply list_elem_of_In|].
  simpl. rewrite Hb, !(bool_decide_eq_false_2 (Store.c_step c = _)) by done. simpl. exact Hdeps.
Qed.

(** C14: a sweep alone, on a database that works, frees exactly the cards whose
    worker has vanished: unfinished cards whose session has no open question, no
    background task and no turn and was not active for the grace period.  Each
    of them keeps its session on record, has no open run of it, and can be picked
    by the dispatcher again once nothing blocks it; every other card, the
    sessions, events and queued messages, the turns and the locks are as before. *)
Theorem sweep_exact `{Store.World, JsonApi, !MoreJson} providers f h :
  fault f = None → inv (db h) → map_Forall (λ k p, Store.p_id p = k) (Store.projects (db h)) → locks h = ∅ →
  ∃ h', alone exec 0 f (sweep_stale_card_refs providers) h = Some (Ok tt, h') ∧ h' = set_db (db h') h ∧
    Store.sessions (db h') = Store.sessions (db h) ∧ Store.events (db h') = Store.events (db h) ∧
    Store.queued (db h') = Store.queued (db h) ∧
    ∀ id c, Store.cards (db h) !! id = Some c →
      if stale providers f h c then
        ∃ now, Store.cards (db h') !! id = Some (freed now c) ∧
          (∀ sid, Store.c_worker_session_id c = Some sid →
             Forall (λ r, Store.run_matches id (Some sid) r = false) (Store.runs (db h'))) ∧
          (∀ edges, Store.c_blocked c = false →
             Dispatch.deps_satisfied edges (Dispatch.list_cards_by_project (Store.c_project_id c) (db h')) id = true →
             freed now c ∈ Dispatch.available edges (Dispatch.list_cards_by_project (Store.c_project_id c) (db h')))
      else Store.cards (db h') !! id = Some c.
Proof.
  intros Hf Hi Hp Hl. unfold sweep_stale_card_refs. rewrite alone_h_bind, run_get. cbn [exec].
  rewrite query_ok, !some_bind by done.
  destruct (run_sweep_projects providers f Hf h Hi Hl (map_to_list (Store.projects (db h))).*2 [] [] h)
    as (seen & h' & Hrun & Hsw & Hseen); [..|by apply swept_start|].
  - intros id. split; [by intros Hn%elem_of_nil|]. intros (c & _ & Hn). by apply elem_of_nil in Hn.
  - rewrite app_nil_r, <-list_fmap_compose.
    replace ((Store.p_id ∘ snd) <$> map_to_list (Store.projects (db h))) with (map_to_list (Store.projects (db h))).*1;
      [apply NoDup_fst_map_to_list|]. apply list_fmap_ext. intros n [k p] Hn. cbn.
    apply list_elem_of_lookup_2, elem_of_map_to_list in Hn. by rewrite (Hp k p Hn).
  - exists h'. pose proof Hsw as [Hh Hs _ He Hq _ Hcard Hruns]. split_and!; [done..|]. intros id c Hc.
    assert (id ∈ seen) as Hin.
    { apply Hseen. exists c. split; [done|]. destruct (refs_cards _ _ _ _ _ (inv_refs _ Hi) _ _ Hc) as ([p Hpr] & _).
      rewrite app_nil_r, <-(Hp _ _ Hpr). apply list_elem_of_fmap_2, list_elem_of_fmap. exists (Store.c_project_id c, p).
      by rewrite elem_of_map_to_list. }
    specialize (Hcard id). rewrite Hc, bool_decide_eq_true_2 in Hcard by done. simpl in Hcard.
    destruct (stale providers f h c) eqn:Hst; [|done]. destruct Hcard as [now Hcard]. exists now. split; [done|].
    split; [intros sid Hw; by apply (Hruns id c)|]. intros edges Hb Hdeps.
    assert (Store.c_step c ≠ "done" ∧ Store.c_step c ≠ "wont_do") as [Hd Hw].
    { unfold stale in Hst. destruct (Store.c_worker_session_id c); [|done]. apply andb_true_iff in Hst as [Hst _].
      apply negb_true_iff, orb_false_iff in Hst as [?%bool_decide_eq_false ?%bool_decide_eq_false]. done. }
    apply freed_available; [|done..|by rewrite (inv_ids _ Hi _ _ Hc)].
    apply elem_of_list_cards. split; [by exists id|done].
Qed.
End WatchdogLive.
