(* ===== verification/ManagerDemo.v ===== *)
(** * The session manager on concrete requests

    A registry with a provider that takes messages while it runs and one that
    does not, an open session, and the witnesses of the theorems. *)

From S2P Require Import Prelude RustStr Json Pipeline Store StoreProps Programs Turns Resume Manager Watchdog Handover ManagerRoutes ManagerProps ManagerSafety ManagerRuns ManagerLive.

Module ManagerDemo.
Export ManagerRuns.ManagerRuns ManagerLive.ManagerLive.

#[export] Existing Instance obj_json.
#[export] Existing Instance StoreProps.ex_world.
#[export] Instance toy_more : MoreJson := {|
  json_as_bool v := match v with ObjJson.Str s => Some (s == "true") | _ => None end;
  json_strings := String.concat ",";
  json_fields l := ObjJson.print ((λ '(k, x), (k, match x with
    | FStr s => s | FBool b => Some (if b : bool then "true" else "false") | FNum z => Some (show_int z) end)) <$> l) |}.

Definition claude : Provider := mkProvider "claude" "claude" true false true true.
Definition grok : Provider := mkProvider "grok" "grok" false false true false.
Definition addon : Provider := mkProvider "addon" "addon" true false false false.
Definition registry : list Provider := [claude; grok; addon].

(** An open session of a user, on a model of [claude]. *)
Definition demo_session (model conversation : option string) : Store.Session :=
  Store.mkSession "s" false None None None None None model conversation None.
Definition demo_host (model conversation : option string) : Host :=
  mkHost (Store.set_sessions (<["s" := demo_session model conversation]>) StoreProps.empty_db)
    {["s" := mkColumns "f" None false None None None false None "now"]} ∅ {["f" := "/work"]} ∅ ∅ ∅ 0 ∅ ∅ ∅.

Definition opus : option string := Some "claude:opus@home".
Definition host : Host := demo_host opus None.

Definition well : Fate := mkFate None "now" (Ok "claude:opus@home") None None 0 None None None None false true (λ _, None) (λ _, false).
Definition broken : Fate := mkFate (Some "disk full") "now" (Ok "claude:opus@home") None None 0 None None None None false true (λ _, None) (λ _, false).

Abbreviation world h l := (play exec (handle registry) (start h) l).

(** Request [n], alone, to its end. *)
Definition serve (n : nat) (q : Request) : list Action := Spawn q tt :: replicate 60 (Run n well).

Definition said (text : string) : UserMessage := mkMessage text [] [].
Definition asks (model : string) : SpawnConfig := mkConfig model None.
Definition send (text : string) : Request := Send "s" (said text) (asks "default") Queue true.

Definition answer (w : World) (t : nat) : option (Result Z Reply) :=
  match threads w !! t with Some (mkThread _ _ (Ret r)) => Some r | _ => None end.
Definition queue_of (w : World) : list (Z * string) :=
  (λ q, (Store.q_id q, Store.q_text q)) <$> Store.list_queued_messages "s" (db (server w)).

(** The turns that started in a trace and the messages handed to a running one,
    with the conversation a turn resumes. *)
Definition dispatch_of (e : Event) : option (string * option string) :=
  match e with
  | @Ev _ _ o b =>
    match o in Op B return B → option (string * option string) with
    | BeginTurn _ _ st => λ b, match b with Ok _ => Some (pl_text (ts_payload st), ts_resume st) | Err _ => None end
    | QueueInjection _ _ m => λ b, if b : bool then Some (pl_text m, None) else None
    | _ => λ _, None
    end b
  end.
Definition dispatched (w : World) : list (string * option string) := omap (λ x, dispatch_of x.2) (trace w).

(** ** A conversation *)

(** A turn runs and two messages wait; the turn ends, and a completion delivers
    both as one. *)
Definition busy : list Action := serve 0 (send "first") ++ serve 1 (send "second") ++ serve 2 (send "third").
Definition turn_ends : list Action :=
  serve 3 (PluginEmits "claude" "s" (EvCompleted (Some "conv") Completed)) ++
  serve 4 (PluginReturns claude "s" 0 (Ok tt)).
Definition completes : list Action := serve 5 (CompletionArrives (mkCompletion "s" true None 0 None false)).

Example demo_conversation :
  answer (world host (busy ++ turn_ends ++ completes)) <$> seq 0 6 =
    Some <$> [Ok (Outcome Started); Ok (Outcome Queued); Ok (Outcome Queued); Ok Done;
              Ok (Completes (mkCompletion "s" true None 0 None false)); Ok Done] ∧
  queue_of (world host busy) = [(1, "second"); (2, "third")] ∧
  dispatched (world host (busy ++ turn_ends ++ completes)) =
    [("first", None); ("second" +:+ nl +:+ nl +:+ "third", Some "conv")] ∧
  queue_of (world host (busy ++ turn_ends ++ completes)) = [].
Proof. vm_compute. repeat split. Qed.

(** ** Witnesses *)

Lemma host_bounded m c : bounded (db (demo_host m c)).
Proof. split; [constructor|constructor]. Qed.

Definition second_row : Store.QueuedMessage := Store.mkQueuedMessage 1 "s" "second" "now" (Some "default") None None true.

Lemma second_waits : second_row ∈ Store.queued (db (server (world host busy))).
Proof. vm_compute. left. Qed.
Lemma second_leaves : queue_of (world host (busy ++ turn_ends ++ completes)) = [].
Proof. vm_compute. reflexivity. Qed.

Lemma queued_rows_accounted_witness :
  queue_of (world host (busy ++ turn_ends ++ completes)) = [] ∧
  accounted second_row (world host (busy ++ turn_ends ++ completes)).
Proof.
  split; [exact second_leaves|].
  exact (queued_rows_accounted registry host busy (turn_ends ++ completes) second_row (host_bounded _ _) eq_refl second_waits).
Defined.

(** The database refuses the first delete of a drain, and the next drain delivers
    the row again. *)
Definition stuck : list Action :=
  busy ++ turn_ends ++ Spawn (CompletionArrives (mkCompletion "s" true None 0 None false)) tt
    :: replicate 19 (Run 5 well) ++ Run 5 broken :: replicate 20 (Run 5 well) ++
  serve 6 (PluginReturns claude "s" 0 (Ok tt)) ++ serve 7 (DrainQueue "s").

Lemma stuck_requests :
  reqs (world host stuck) 5 = Some (CompletionArrives (mkCompletion "s" true None 0 None false)) ∧
  reqs (world host stuck) 7 = Some (DrainQueue "s").
Proof. vm_compute. split; reflexivity. Qed.
Lemma stuck_handed :
  1 ∈ handed (view (trace (world host stuck)) 5) ∧ 1 ∈ handed (view (trace (world host stuck)) 7).
Proof. vm_compute. split; left. Qed.

Lemma drained_once_witness :
  1 ∈ failed (view (trace (world host stuck)) 5) ∨ 1 ∈ failed (view (trace (world host stuck)) 7).
Proof.
  refine (drained_once registry host stuck 5 7 _ _ 1 (host_bounded _ _) eq_refl _ (proj1 stuck_requests)
    (proj2 stuck_requests) eq_refl eq_refl eq_refl (proj1 stuck_handed) (proj2 stuck_handed)).
  discriminate.
Defined.

Definition second_turn : TurnStart :=
  mkStart (mkPayload ("second" +:+ nl +:+ nl +:+ "third") []) (Some "conv") "claude:opus@home" 1.
Lemma second_turn_starts :
  trace (world host (busy ++ turn_ends ++ completes)) !! 56%nat =
    Some (5%nat, Ev (O := Op) (BeginTurn "s" "claude" second_turn) (Ok tt)).
Proof. vm_compute. reflexivity. Qed.

Lemma resume_checked_witness :
  let v := view (take 56 (trace (world host (busy ++ turn_ends ++ completes)))) 5 in
  held v = true ∧ resumable v "conv" "claude:opus@home".
Proof.
  exact (resume_checked registry host (busy ++ turn_ends ++ completes) _ 5 "s" "claude" second_turn (Ok tt) _ "conv"
    (host_bounded _ _) eq_refl (eq_sym (take_drop_middle _ _ _ second_turn_starts)) eq_refl).
Defined.

(** A send up to the call that starts its turn. *)
Definition sending : list Action := Spawn (send "first") tt :: replicate 11 (Run 0 well).
Definition first_turn : TurnStart := mkStart (mkPayload "first" []) None "claude:opus@home" 0.

Lemma one_request : request <$> threads (world host sending) = [send "first"].
Proof. vm_compute. reflexivity. Qed.
Lemma first_turn_starts :
  trace (act exec (handle registry) (world host sending) (Run 0 well)) =
  trace (world host sending) ++ [(0%nat, Ev (O := Op) (BeginTurn "s" "claude" first_turn) (Ok tt))].
Proof. vm_compute. reflexivity. Qed.

Lemma no_mcp t q : reqs (world host sending) t = Some q → mcp q = false.
Proof.
  unfold reqs. rewrite <-list_lookup_fmap, one_request. destruct t as [|t]; [|done]. by intros [= <-].
Qed.

Lemma sealed_never_dispatched_witness : sealed_in "s" (db (server (world host sending))) = false.
Proof.
  exact (sealed_never_dispatched registry host sending 0 well "s" _ (host_bounded _ _) eq_refl no_mcp
    first_turn_starts (dispatch_turn "s" "claude" first_turn)).
Defined.

(** The backlog of the session after its turn. *)
Definition idle : Host := server (world host (busy ++ turn_ends)).
Definition idle_row : Row :=
  mkRow (demo_session opus (Some "conv")) (mkColumns "f" None false None None None false None "now").

Lemma idle_deliverable : deliverable registry well "s" idle idle_row claude "claude:opus@home".
Proof.
  split; try (vm_compute; reflexivity).
  - vm_compute. done.
  - vm_compute. by eexists.
  - intros pid pj Hp. vm_compute in Hp. discriminate Hp.
  - intros e He. vm_compute in He. discriminate He.
  - intros Hn. vm_compute in Hn. discriminate Hn.
Qed.

Lemma drain_delivers_backlog_witness :
  ∃ n, let w := world idle (Spawn (DrainQueue "s") tt :: replicate n (Run 0 well)) in
    (λ th, prog th) <$> threads w !! O = Some (Ret (Ok Done)) ∧
    drained "s" idle (server w) claude (Store.list_queued_messages "s" (db idle)) "claude:opus@home".
Proof. exact (drain_delivers_backlog registry well "s" idle idle_row claude _ eq_refl idle_deliverable). Defined.
End ManagerDemo.
