(* ===== verification/HandoverDemo.v ===== *)
(** * A handover on concrete requests

    A switch of provider from its request to the first turn of the new model,
    the witnesses of the theorems, and schedules on which a handover goes wrong. *)

From S2P Require Import Prelude RustStr Json Pipeline Store StoreProps Programs Turns Resume Manager Watchdog Handover ManagerRoutes ManagerProps ManagerSafety ManagerRuns ManagerLive HandoverProps ManagerDemo.

Module HandoverDemo.
Export HandoverProps.HandoverProps ManagerDemo.ManagerDemo.

Definition emits (e : PluginEvent) : Request := PluginEmits "claude" "s" e.

(** A turn of the outgoing model, and the switch; the run ids are 0 and 1. *)
Definition first_turn_done : list Action :=
  serve 0 (send "first") ++ serve 1 (emits (EvStarted (Some "conv"))) ++ serve 2 (emits (EvText "hello")) ++
  serve 3 (emits (EvCompleted (Some "conv") Completed)) ++ serve 4 (PluginReturns claude "s" 0 (Ok tt)).
Definition switching : list Action :=
  first_turn_done ++ serve 5 (SwitchModel "s" (Some (Some "grok:fast@home")) None false) ++
  serve 6 (emits (EvText "what was done")) ++ serve 7 (emits (EvCompleted (Some "conv") Completed)) ++
  serve 8 (PluginReturns claude "s" 1 (Ok tt)).
Definition ends_well : ProcessCompletion := mkCompletion "s" true None 1 None false.
Definition switched : list Action := switching ++ serve 9 (CompletionArrives ends_well).

Definition columns_of (w : World) : option (option string * option string * option string) :=
  (λ r, (Store.s_model (session r), Store.s_conversation_id (session r), Store.s_pending_handover_doc (session r))) <$>
  get_row "s" (server w).

Example demo_switch :
  answer (world host switched) <$> [5%nat; 9%nat] = [Some (Ok (Status 200)); Some (Ok Done)] ∧
  fst <$> dispatched (world host switched) = ["first"; handover_prompt "grok:fast@home"] ∧
  columns_of (world host switched) = Some (Some "grok:fast@home", None, Some "what was done").
Proof. vm_compute. repeat split. Qed.

(** ** Witnesses *)




(** The document turn has ended and its completion is on its way. *)
Definition written : Host := server (world host switching).
Definition written_row : Row :=
  mkRow (demo_session opus (Some "conv")) (mkColumns "f" None false None (Some "grok:fast@home") (Some 1) false None "now").

Lemma written_facts :
  get_row "s" written = Some written_row ∧ locks written !! "s" = None ∧
  Store.list_queued_messages "s" (db written) = [] ∧ doc_dispatched written = {["s"]}.
Proof. vm_compute. repeat split. Qed.
Lemma written_marked : "s" ∈ doc_dispatched written.
Proof. destruct written_facts as (_ & _ & _ & ->). set_solver. Qed.

Lemma doc_turn_completes_witness :
  ∃ n, let v := world written (Spawn (CompletionArrives ends_well) tt :: replicate n (Run 0 well)) in
    (λ th, prog th) <$> threads v !! O = Some (Ret (Ok Done)) ∧
    get_row "s" (server v) = Some (settled "s" ends_well written written_row "grok:fast@home") ∧
    ("s" ∉ doc_dispatched (server v)) ∧ locks (server v) !! "s" = None.
Proof.
  refine (doc_turn_completes registry well ends_well written written_row "grok:fast@home" 1 eq_refl eq_refl
    (proj1 written_facts) eq_refl eq_refl _ written_marked (proj1 (proj2 written_facts))
    (proj1 (proj2 (proj2 written_facts)))).
  done.
Defined.

Lemma reconcile_unparks_witness : ∃ h, alone (O := Op) exec 0 well reconcile_parked_handovers written = Some (Ok 1%nat, h) ∧
  parked_sessions h = [].
Proof.
  destruct (reconcile_unparks well written eq_refl) as (h & E & P & _). exists h. split; [exact E|exact P].
Defined.

(** ** Where a handover goes wrong *)

(** A handover in the middle of a turn of a provider that takes messages: the
    prompt is handed to the turn, which is retired at once and never takes it;
    the prompt goes to the queue, a second turn writes the document, and the new
    model is sent the prompt as the message of the user. *)
Definition sonnet : string := "claude:sonnet@home".
Definition mid_turn : list Action :=
  serve 0 (send "first") ++ serve 1 (emits (EvStarted (Some "conv"))) ++
  serve 2 (HandOver "s" "claude:opus@home" sonnet) ++ serve 3 (PluginTakes "claude" "s") ++
  serve 4 (emits (EvCompleted (Some "conv") Completed)) ++ serve 5 (PluginReturns claude "s" 0 (Ok tt)) ++
  serve 6 (CompletionArrives (mkCompletion "s" true None 0 None false)) ++
  serve 7 (emits (EvText "summary")) ++ serve 8 (emits (EvCompleted (Some "conv") Completed)) ++
  serve 9 (PluginReturns claude "s" 2 (Ok tt)) ++
  serve 10 (CompletionArrives (mkCompletion "s" true None 2 None false)).

Theorem handover_prompt_sent_to_new_model :
  answer (world host mid_turn) <$> [2%nat; 3%nat] = [Some (Ok Done); Some (Ok (Message None))] ∧
  fst <$> dispatched (world host mid_turn) =
    ["first"; compaction_prompt; compaction_prompt; build_compaction_injection "summary" compaction_prompt] ∧
  Store.s_model ∘ session <$> get_row "s" (server (world host mid_turn)) = Some (Some sonnet).
Proof. vm_compute. repeat split. Qed.

(** When the write of a finished handover fails, the session stays parked with no
    turn to come: switching and compacting are refused until a restart. *)
Definition flip_fails : list Action :=
  switching ++ Spawn (CompletionArrives ends_well) tt :: replicate 7 (Run 9 well) ++ Run 9 broken ::
  replicate 20 (Run 9 well) ++ serve 10 (SwitchModel "s" (Some (Some "grok:fast@home")) None false) ++
  serve 11 (Compact "s" None None).

Theorem failed_flip_stays_parked :
  answer (world host flip_fails) <$> [9%nat; 10%nat; 11%nat] = [Some (Ok Done); Some (Err 409); Some (Err 409)] ∧
  handover_to_model ∘ columns <$> get_row "s" (server (world host flip_fails)) = Some (Some "grok:fast@home") ∧
  turns (server (world host flip_fails)) = ∅ ∧ doc_dispatched (server (world host flip_fails)) = ∅.
Proof. vm_compute. repeat split. Qed.

(** A forced switch leaves the mark of the handover it cancels; a later one that
    is deferred takes the text of an ordinary turn for its document. *)
Definition forced : list Action :=
  first_turn_done ++ serve 5 (SwitchModel "s" (Some (Some "grok:fast@home")) None false) ++
  serve 6 (SwitchModel "s" (Some (Some "grok:fast@home")) None true) ++ serve 7 (PluginReturns claude "s" 1 (Ok tt)) ++
  serve 8 (CompletionArrives (mkCompletion "s" false None 1 (Some Interrupted) false)).
Definition stale_mark : list Action :=
  forced ++ Spawn (HandOver "s" "grok:fast@home" "grok:slow@home") tt :: replicate 2 (Run 9 well) ++
  serve 10 (send "question") ++ replicate 20 (Run 9 well) ++
  serve 11 (PluginEmits "grok" "s" (EvText "an answer")) ++
  serve 12 (PluginEmits "grok" "s" (EvCompleted (Some "grok-conv") Completed)) ++
  serve 13 (PluginReturns grok "s" 2 (Ok tt)) ++
  serve 14 (CompletionArrives (mkCompletion "s" true None 2 None false)).

Theorem ordinary_turn_taken_for_document :
  doc_dispatched (server (world host forced)) = {["s"]} ∧
  fst <$> dispatched (world host stale_mark) = ["first"; handover_prompt "grok:fast@home"; "question"] ∧
  columns_of (world host stale_mark) = Some (Some "grok:slow@home", None, Some "an answer").
Proof. vm_compute. repeat split. Qed.
End HandoverDemo.
