(* ===== verification/WatchdogDemo.v ===== *)
(** * The watchdog on concrete boards

    The witnesses of its theorems, and a schedule on which it takes the card of a
    worker that is just being started. *)

From S2P Require Import Prelude RustStr Json Workflow Pipeline Store StoreProps Board BoardProps Dispatch Programs Turns Resume Manager Watchdog Handover ManagerRoutes ManagerProps ManagerSafety ManagerRuns ManagerLive WatchdogProps WatchdogLive ManagerDemo.

Module WatchdogDemo.
Export WatchdogProps.WatchdogProps WatchdogLive.WatchdogLive ManagerDemo.ManagerDemo.

(** Card [c1] is in progress with session [s1], which no provider runs. *)
Definition columns_of (active : string) : Columns := mkColumns "f" None false None None None false None active.
Definition board_host (d : Store.Db) : Host :=
  mkHost d {["s1" := columns_of "long ago"]} ∅ {["f" := "/work"]} ∅ ∅ ∅ 0 ∅ ∅ ∅.
Definition lost : Host := board_host BoardProps.ex_board.

(** A working database; what happened long ago is 100 seconds old. *)
Definition calm : Fate :=
  mkFate None "now" (Ok "claude:opus@home") None None 0 None None None None false true
    (λ t, if t == "long ago" then Some 100 else Some 0) (λ _, false).

Lemma lost_keys : map_Forall (λ k p, Store.p_id p = k) (Store.projects (db lost)).
Proof. apply (bool_decide_unpack (map_Forall (λ k p, Store.p_id p = k) (Store.projects (db lost)))). vm_compute. done. Qed.

Lemma lost_stale : stale registry calm lost BoardProps.ex_card = true.
Proof. vm_compute. reflexivity. Qed.

Lemma sweep_exact_witness :
  ∃ h' now, alone exec 0 calm (sweep_stale_card_refs registry) lost = Some (Ok tt, h') ∧
    Store.cards (db h') !! "c1" = Some (freed now BoardProps.ex_card).
Proof.
  destruct (sweep_exact registry calm lost eq_refl BoardProps.ex_board_inv lost_keys eq_refl)
    as (h' & Hrun & _ & _ & _ & _ & Hcards).
  assert (Store.cards (db lost) !! "c1" = Some BoardProps.ex_card) as Hc by (vm_compute; reflexivity).
  specialize (Hcards "c1" BoardProps.ex_card Hc). rewrite lost_stale in Hcards.
  destruct Hcards as (now & Hfreed & _). by exists h', now.
Defined.

(** The sweep of the card, up to the statement that frees it. *)
Definition sweeping : list Action := Spawn (SweepRef "c1" "s1") tt :: replicate 11 (Run 0 calm).

Lemma lost_bounded : bounded (db lost).
Proof. split; [vm_compute; constructor|vm_compute; constructor]. Qed.

Lemma sweeping_clears :
  ∃ b, trace (act exec (handle registry) (world lost sweeping) (Run 0 calm)) =
    trace (world lost sweeping) ++ [(0%nat, Ev (O := Op) (OnBoard (ClearWorker "c1" "s1")) b)].
Proof. eexists. vm_compute. reflexivity. Qed.

Lemma sweep_takes_idle_cards_witness :
  locks (server (world lost sweeping)) !! "s1" = Some 0%nat ∧
  is_active_for "claude" "s1" (turns (server (world lost sweeping))) = false.
Proof.
  destruct sweeping_clears as [b Hb].
  destruct (sweep_takes_idle_cards registry lost sweeping 0 calm "c1" "s1" b lost_bounded eq_refl Hb) as (_ & Hl & Ha & _).
  split; [exact Hl|]. apply (Ha claude). vm_compute. left.
Defined.

(** ** A card lost while its worker starts *)

(** The card is free; its session can be picked up again. *)
Definition free_card : Store.Card := freed "0" BoardProps.ex_card.
Definition resumable_row : Row :=
  mkRow (Store.mkSession "s1" true (Some "p1") (Some "c1") (Some "in_progress") None None opus (Some "conv") None)
    (columns_of "long ago").
Definition free_host : Host :=
  board_host (Store.set_sessions (<["s1" := session resumable_row]>)
    (Store.set_cards (<["c1" := free_card]>) BoardProps.ex_board)).

Definition resume_worker : WorkerSpawn :=
  mkSpawn free_card resumable_row None "in_progress" "1" true false "Continue." false false (Ok tt).

(** Alone, the start assigns the card and runs the agent. *)
Lemma worker_starts :
  let h := server (world free_host (Spawn (SpawnWorker resume_worker) tt :: replicate 20 (Run 0 calm))) in
  (Store.c_worker_session_id <$> Store.cards (db h) !! "c1") = Some (Some "s1") ∧
  is_active_for "claude" "s1" (turns h) = true.
Proof. vm_compute. split; reflexivity. Qed.

(** The watchdog comes by after the claim and before the lock. *)
Definition raced : list Action :=
  Spawn (SpawnWorker resume_worker) tt :: Run 0 calm ::
  Spawn (SweepRef "c1" "s1") tt :: replicate 14 (Run 1 calm) ++ replicate 20 (Run 0 calm).

(** The start of a worker claims its card first and takes the lock of the session
    only when hooks, files and worktree are ready; a resumed session is idle for
    longer than the grace period, so a sweep in between unassigns the card and
    the agent runs without one. *)
Lemma starting_worker_loses_card :
  let w := world free_host raced in
  answer w 0 = Some (Ok Done) ∧ is_active_for "claude" "s1" (turns (server w)) = true ∧
  (Store.c_worker_session_id <$> Store.cards (db (server w)) !! "c1") = Some None.
Proof. vm_compute. split_and!; reflexivity. Qed.
End WatchdogDemo.
