(* ===== verification/ManagerFlaws.v ===== *)
(** * Where the session manager departs from what it says

    Schedules on which a message is delivered twice or lost, a turn starts in a
    sealed session, or resumes the conversation of another provider. *)

From S2P Require Import Prelude RustStr Json Pipeline Store StoreProps Programs Turns Resume Manager Watchdog Handover ManagerRoutes ManagerProps ManagerSafety ManagerRuns ManagerLive ManagerDemo.

Module ManagerFlaws.
Export ManagerDemo.ManagerDemo.

Definition runs (n k : nat) : list Action := replicate k (Run n well).
Definition inject (text : string) : Request := Send "s" (said text) (asks "default") Inject true.

(** ** Twice *)

(** A drain has listed the queue when the user forces a message: the route takes
    the row and waits for the lock, and both deliver it. *)
Definition forced_in_drain : list Action :=
  [Spawn (DrainQueue "s") tt; Spawn (ForceQueued "s" 1) tt] ++ runs 0 9 ++ runs 1 3 ++ runs 0 40 ++ runs 1 40.

Theorem forced_message_delivered_twice :
  fst <$> dispatched (world idle forced_in_drain) = ["second" +:+ nl +:+ nl +:+ "third"; "second"] ∧
  answer (world idle forced_in_drain) <$> [0%nat; 1%nat] = [Some (Ok Done); Some (Ok (Status 200))].
Proof. vm_compute. split; reflexivity. Qed.

(** A forced message whose dispatch fails after its event was written returns to
    the queue without the mark, and its event is written again. *)
Definition user_events (w : World) : list string :=
  omap (λ e, if ev_kind e == "user" then Some (ev_data e) else None) (Store.events (db (server w))).
Definition force_fails : list Action :=
  serve 0 (PostQueue "s" "hello" None None) ++
  Spawn (ForceQueued "s" 1) tt :: runs 1 9 ++ Run 1 broken :: runs 1 40 ++ serve 2 (DrainQueue "s").

Theorem failed_force_repeats_event :
  answer (world host force_fails) <$> [1%nat; 2%nat] = [Some (Err 500); Some (Ok Done)] ∧
  user_events (world host force_fails) = replicate 2 (json_object [("text", Some "hello")]).
Proof. vm_compute. split; reflexivity. Qed.

(** A turn that fails to authenticate after a message was handed to it: the
    message is queued twice, once as untaken and once as the last dispatched
    turn, and the message that started the turn is not queued again. *)
Definition expired : Terminal := Crashed "401" AuthExpired.
Definition auth_fails : list Action :=
  serve 0 (send "first") ++ serve 1 (inject "second") ++
  serve 2 (PluginEmits "claude" "s" (EvCompleted None expired)) ++ serve 3 (PluginReturns claude "s" 0 (Ok tt)) ++
  serve 4 (CompletionArrives (mkCompletion "s" false (Some "401") 0 (Some AuthExpired) false)).

Theorem auth_retry_loses_message :
  fst <$> dispatched (world host auth_fails) = ["first"; "second"; "second" +:+ nl +:+ nl +:+ "second"] ∧
  queue_of (world host auth_fails) = [].
Proof. vm_compute. split; reflexivity. Qed.

(** ** Lost *)

(** A WASM plugin that ends its turn before it took the message handed to it:
    the message is in no queue. *)
Definition plugin_model : option string := Some "addon:x".
Definition plugin_ends : list Action :=
  serve 0 (send "first") ++ serve 1 (inject "second") ++
  serve 2 (PluginEmits "addon" "s" (EvCompleted None Completed)) ++ serve 3 (PluginReturns addon "s" 0 (Ok tt)).

Theorem plugin_turn_drops_message :
  fst <$> dispatched (world (demo_host plugin_model None) plugin_ends) = ["first"; "second"] ∧
  queue_of (world (demo_host plugin_model None) plugin_ends) = [] ∧
  turns (server (world (demo_host plugin_model None) plugin_ends)) = ∅.
Proof. vm_compute. repeat split. Qed.

(** A run lingers and a message names a model of another provider: refused with
    an error, since the run is still in flight. *)
Definition linger_other : list Action :=
  serve 0 (send "first") ++ serve 1 (PluginEmits "claude" "s" EvLinger) ++
  serve 2 (Send "s" (said "second") (asks "grok:fast@home") Queue true).

Theorem lingering_run_refuses_other_provider :
  answer (world host linger_other) <$> [0%nat; 2%nat] = [Some (Ok (Outcome Started)); Some (Err 500)] ∧
  queue_of (world host linger_other) = [].
Proof. vm_compute. split; reflexivity. Qed.

(** ** Sealed *)

(** The reviewer's tool seals a session between the check of a send and the
    start of its turn. *)
Definition sealed_under_send : list Action :=
  sending ++ serve 1 (McpReviewed "s") ++ runs 0 20.

Theorem turn_starts_in_sealed_session :
  sealed_in "s" (db (server (world host (sending ++ serve 1 (McpReviewed "s"))))) = true ∧
  dispatched (world host (sending ++ serve 1 (McpReviewed "s"))) = [] ∧
  fst <$> dispatched (world host sealed_under_send) = ["first"] ∧
  answer (world host sealed_under_send) 0 = Some (Ok (Outcome Started)).
Proof. vm_compute. repeat split. Qed.

(** ** Another provider's conversation *)

(** A message with a model of its own runs on that model's provider, and its
    conversation is recorded as the one of the session's model. *)
Definition one_off : list Action :=
  serve 0 (Send "s" (said "first") (asks "grok:fast@home") Queue true) ++
  serve 1 (PluginEmits "grok" "s" (EvCompleted (Some "grok-conv") Completed)) ++
  serve 2 (PluginReturns grok "s" 0 (Ok tt)) ++ serve 3 (send "second").

Definition started_on (w : World) : list (string * option string) :=
  omap (λ x, match x.2 with
    | @Ev _ _ o b =>
      match o in Op B return B → option (string * option string) with
      | BeginTurn _ _ st => λ b, match b with Ok _ => Some (ts_model st, ts_resume st) | Err _ => None end
      | _ => λ _, None
      end b
    end) (trace w).

Theorem foreign_conversation_resumed :
  started_on (world host one_off) = [("grok:fast@home", None); ("claude:opus@home", Some "grok-conv")] ∧
  needs_handover "grok:fast@home" "claude:opus@home" = true.
Proof. vm_compute. split; reflexivity. Qed.

(** A row that holds a conversation and names no model: the check of the owner
    compares the model of the turn with itself, and whatever provider is asked
    resumes the conversation. *)
Theorem unowned_conversation_resumed :
  started_on (world (demo_host None (Some "claude-conv"))
    (serve 0 (Send "s" (said "first") (asks "grok:fast@home") Queue true))) = [("grok:fast@home", Some "claude-conv")] ∧
  started_on (world (demo_host None (Some "claude-conv"))
    (serve 0 (Send "s" (said "first") (asks "claude:opus@home") Queue true))) = [("claude:opus@home", Some "claude-conv")].
Proof. vm_compute. split; reflexivity. Qed.
End ManagerFlaws.
