(* ===== verification/Subagents.v ===== *)
(** * Subagents

    src/subagent.rs: the capped start of a child session, the claim that makes its
    parent hear of its end once, the reports, and the follow-up that arms the claim
    again.  Handlers are programs over the calls [Op], which [Restarts] uses too.
    The sessions and their events are tables of [Store]; the columns it leaves out
    are [Extra].  The message that wakes a session ([Resume]) is a send of the
    session manager; broadcasts and timers are left out. *)

From S2P Require Import Prelude RustStr Json Workflow Pipeline Store Dispatch Programs Turns Resume.
From Stdlib Require Import Ascii.

Abbreviation LogEvent := Event.

Module Subagents.
Export Programs.Programs.
Export Pipeline.Pipeline Resume.Resume.

(** ** State *)

Record Extra := mkExtra {
  name : string;
  parent : option string;
  completed_at : option string;
  expert_kind : option string;
  handover_to_model : option string }.

Record Row := mkRow { session : Store.Session; extra : Extra }.

Definition row_id (r : Row) : string := Store.s_id (session r).

(** A child that has not been reported. *)
Definition in_flight (x : Extra) : bool := is_some (parent x) && negb (is_some (completed_at x)).
Definition child_in_flight (p : string) (x : Extra) : bool := (parent x == Some p) && negb (is_some (completed_at x)).

Record Host := mkHost {
  db : Store.Db;
  extras : gmap string Extra;
  statuses : gmap string string;
  spawn_lock : option nat;
  reported : gset string }.

Definition set_db (d : Store.Db) (h : Host) : Host := mkHost d (extras h) (statuses h) (spawn_lock h) (reported h).
Definition set_extras (m : gmap string Extra) (h : Host) : Host := mkHost (db h) m (statuses h) (spawn_lock h) (reported h).
Definition set_lock (l : option nat) (h : Host) : Host := mkHost (db h) (extras h) (statuses h) l (reported h).
Definition set_reported (s : gset string) (h : Host) : Host := mkHost (db h) (extras h) (statuses h) (spawn_lock h) s.

Definition no_extra : Extra := mkExtra "" None None None None.
(** The table [sessions]. *)
Definition rows (h : Host) : gmap string Row :=
  map_imap (λ sid s, Some (mkRow s (default no_extra (extras h !! sid)))) (Store.sessions (db h)).
Definition get_row (sid : string) (h : Host) : option Row := rows h !! sid.

(** The rows that [keep] picks, in some order. *)
Definition select_rows (keep : Extra → bool) (h : Host) : list Row :=
  (map_to_list (filter (λ kr, keep (extra kr.2) = true) (rows h))).*2.

Definition count_active (p : string) (h : Host) : Z := Z.of_nat (length (select_rows (child_in_flight p) h)).

Record NewChild := mkNewChild {
  nc_id : string; nc_name : string; nc_parent : option string; nc_project : option string; nc_model : option string }.

Definition stamp (t : option string) (x : Extra) : Extra :=
  mkExtra (name x) (parent x) t (expert_kind x) (handover_to_model x).

(** ** Calls *)

Inductive Op : Type@{answer} → Type :=
| LockSpawn : Op unit
| UnlockSpawn : Op unit
| NowText : Op string
| NowMillis : Op Z
| CountActive (p : string) : Op (Result string Z)
| CreateChild (new : NewChild) : Op (Result string Row)
| GetSession (sid : string) : Op (Result string (option Row))
| ClaimDone (sid now : string) : Op (Result string bool)
| Unclaim (sid : string) : Op (Result string bool)
| ListIncomplete : Op (Result string (list Row))
| ListSessions : Op (Result string (list Row))
| GetStatus (pid : string) : Op (Result string (option string))
| NextQueued (sid : string) : Op (Result string (option Store.QueuedMessage))
| EventsTail (sid : string) (limit : nat) : Op (Result string (list LogEvent))
| LatestOfKinds (sid : string) (kinds : list string) : Op (Result string (option LogEvent))
| AppendEvent (sid kind data : string) : Op (Result string LogEvent)
(** The settings, the background tasks, the session manager. *)
| LimitsSetting : Op (option string)
| NewId : Op string
| ModelKnown (full : string) : Op bool
| ResolvePrompt (name : option string) : Op (Result string unit)
| HasTasks (sid : string) : Op bool
| StopTasks (sid : string) : Op unit
| IsRunning (sid : string) : Op bool
| Resume (sid text : string) (appended : bool) : Op (Result string unit)
(** Children reported crashed after an authentication failure. *)
| MarkReported (sid : string) : Op unit
| TakeReported (sid : string) : Op bool
(** The board. *)
| ListProjects : Op (Result string (list (string * string)))
| ListCards (pid : string) : Op (Result string (list Store.Card))
| UpdateCard (cid : string) (u : Store.UpdateCard) : Op (Result string (option Store.Card))
(** The rest of the server deletes a session. *)
| DeleteSession (sid : string) : Op (Result string bool).

Record Fate := mkFate {
  fault : option string;
  now_text : string;
  now_millis : Z;
  limits_setting : option string;
  new_id : string;
  model_known : string → bool;
  tasks : string → bool;
  running : string → bool;
  resumed : Result string unit }.

Section calls.
Context `{Store.World}.

Definition query {A} (f : Fate) (g : Host → A) (h : Host) : option (Result string A * Host) :=
  Some (match fault f with Some e => Err e | None => Ok (g h) end, h).

Definition stmt {A} (f : Fate) (m : Store.M A) (h : Host) : option (Result string A * Host) :=
  match fault f with
  | Some e => Some (Err e, h)
  | None => let '(r, d) := m (db h) in Some (r, set_db d h)
  end.

(** An UPDATE of one session whose row satisfies [matches]: whether it did. *)
Definition update_extra (sid : string) (matches : Extra → bool) (g : Extra → Extra) (f : Fate) (h : Host) :
    option (Result string bool * Host) :=
  match fault f with
  | Some e => Some (Err e, h)
  | None =>
    match get_row sid h with
    | Some r =>
      if matches (extra r) then Some (Ok true, set_extras (<[sid := g (extra r)]> (extras h)) h) else Some (Ok false, h)
    | None => Some (Ok false, h)
    end
  end.

Definition create_child (new : NewChild) (f : Fate) (h : Host) : option (Result string Row * Host) :=
  match stmt f (Store.create_session (nc_id new) false (nc_project new) None None (nc_model new)) h with
  | Some (Ok s, h) =>
    let x := mkExtra (nc_name new) (nc_parent new) None (Some "subagent") None in
    Some (Ok (mkRow s x), set_extras (<[nc_id new := x]> (extras h)) h)
  | Some (Err e, h) => Some (Err e, h)
  | None => None
  end.

Definition delete_row (sid : string) (f : Fate) (h : Host) : option (Result string bool * Host) :=
  match stmt f (Store.delete_session sid) h with
  | Some (Ok b, h) => Some (Ok b, set_extras (delete sid (extras h)) h)
  | r => r
  end.

Definition events_tail (sid : string) (limit : nat) (d : Store.Db) : list LogEvent :=
  reverse (take limit (reverse (Store.list_events_by_session sid None d))).

Definition exec (B : Type@{answer}) (t : nat) (o : Op B) (f : Fate) (h : Host) : option (B * Host) :=
  match o in Op B return option (B * Host) with
  | LockSpawn => match spawn_lock h with Some _ => None | None => Some (tt, set_lock (Some t) h) end
  | UnlockSpawn => Some (tt, if bool_decide (spawn_lock h = Some t) then set_lock None h else h)
  | NowText => Some (now_text f, h)
  | NowMillis => Some (now_millis f, h)
  | CountActive p => query f (count_active p) h
  | CreateChild new => create_child new f h
  | GetSession sid => query f (get_row sid) h
  | ClaimDone sid now => update_extra sid in_flight (stamp (Some now)) f h
  | Unclaim sid => update_extra sid (λ x, is_some (completed_at x)) (stamp None) f h
  | ListIncomplete => query f (select_rows in_flight) h
  | ListSessions => query f (select_rows (λ _, true)) h
  | GetStatus pid => query f (λ h, statuses h !! pid) h
  | NextQueued sid => query f (λ h, Store.next_queued_message sid (db h)) h
  | EventsTail sid n => query f (λ h, events_tail sid n (db h)) h
  | LatestOfKinds sid kinds => query f (λ h, Store.latest_event_of_kinds sid kinds (db h)) h
  | AppendEvent sid kind data => stmt f (Store.append_event sid kind data) h
  | LimitsSetting => Some (limits_setting f, h)
  | NewId => Some (new_id f, h)
  | ModelKnown full => Some (model_known f full, h)
  | ResolvePrompt _ => query f (λ _, tt) h
  | HasTasks sid => Some (tasks f sid, h)
  | StopTasks _ => Some (tt, h)
  | IsRunning sid => Some (running f sid, h)
  | Resume _ _ _ => Some (resumed f, h)
  | MarkReported sid => Some (tt, set_reported ({[sid]} ∪ reported h) h)
  | TakeReported sid => Some (bool_decide (sid ∈ reported h), set_reported (reported h ∖ {[sid]}) h)
  | ListProjects => query f (λ h, map_to_list (statuses h)) h
  | ListCards pid => query f (λ h, Dispatch.list_cards_by_project pid (db h)) h
  | UpdateCard cid u => stmt f (Store.update_card cid u) h
  | DeleteSession sid => delete_row sid f h
  end.
End calls.

(** ** Reports *)

Definition SUBAGENT_NAME_PREFIX : string := "sub: ".

Definition quoted (x : string) : string := Workflow.dq +:+ x +:+ Workflow.dq.

Definition short_name (r : Row) : string := default (name (extra r)) (strip_prefix SUBAGENT_NAME_PREFIX (name (extra r))).

(** [[subagent "name" (id) what]]. *)
Definition headline (r : Row) (what : string) : string :=
  "[subagent " +:+ quoted (short_name r) +:+ " (" +:+ row_id r +:+ ") " +:+ what +:+ "]".

Definition DEFAULT_MAX_CONCURRENT_SUBAGENTS : Z := 25.
Definition DEFAULT_RESULT_CHAR_CAP : Z := 12000.
Definition CRASH_STDERR_TAIL : nat := 2000.

(** [s.chars().skip(n)]. *)
Fixpoint skip_chars (n : nat) (s : string) : string :=
  match s with
  | EmptyString => EmptyString
  | String c s' =>
    let b := N_of_ascii c in
    if ((128 <=? b) && (b <? 192))%N then skip_chars n s'
    else match n with O => s | S n' => skip_chars n' s' end
  end.

Abbreviation P A := (H Op string A).

Section reports.
Context `{JsonApi}.

Definition parsed (e : LogEvent) : option Json := json_from_str (ev_data e).
Definition crashed_data (d : Json) : bool := get_str d "status" == Some "crashed".

(** [as_u64] and [as_i64]: an integer prints as its digits. *)
Definition as_u64 (v : Json) : option Z :=
  t ← json_as_number v;
  n ← (if t == "" then None else digits_value 0 t);
  if (n <? 2 ^ 64)%N then Some (Z.of_N n) else None.
Definition as_i64 (v : Json) : option Z :=
  t ← json_as_number v;
  match t with
  | String "-" digits =>
    n ← (if digits == "" then None else digits_value 0 digits);
    if ((0 <? n) && (n <=? 2 ^ 63))%N then Some (- Z.of_N n) else None
  | _ => n ← as_u64 v; if n <? 2 ^ 63 then Some n else None
  end.
(** [format!] of an integer. *)
Definition print_int (z : Z) : string := (if z <? 0 then "-" else "") +:+ to_dec (Z.abs_N z).

(** ** Limits *)

Record SubagentLimits := mkLimits { max_concurrent : Z; result_char_cap : Z }.
Definition default_limits : SubagentLimits := mkLimits DEFAULT_MAX_CONCURRENT_SUBAGENTS DEFAULT_RESULT_CHAR_CAP.

Definition limits_of (raw : option string) : SubagentLimits :=
  match raw ≫= json_from_str with
  | None => default_limits
  | Some v =>
    mkLimits
      (default DEFAULT_MAX_CONCURRENT_SUBAGENTS
        (n ← json_get v "max_concurrent" ≫= as_i64; if 1 <=? n then Some n else None))
      (default DEFAULT_RESULT_CHAR_CAP
        (n ← json_get v "result_char_cap" ≫= as_u64; if (500 <=? n) && (n <=? 200000) then Some n else None))
  end.

Definition crash_detail (error : option string) (agent_end : option Json) : string :=
  let field k := agent_end ≫= λ d, json_get d k in
  let reason := match error with Some e => Some e | None => field "reason" ≫= json_as_str end in
  let out := default "no error detail" (r ← reason; if is_blank r then None else Some r) in
  let out := match field "exitCode" ≫= as_i64 with
    | Some code => out +:+ nl +:+ nl +:+ "exit code: " +:+ print_int code | None => out end in
  let stderr := default "" (trim <$> (field "stderr" ≫= json_as_str)) in
  if (stderr != "") && negb (Turns.Turns.contains stderr out) then
    let tail := skip_chars (chars_count stderr - CRASH_STDERR_TAIL) stderr in
    out +:+ nl +:+ nl +:+ "stderr (tail):" +:+ nl +:+ "```" +:+ nl +:+ tail +:+ nl +:+ "```"
  else out.

(** The chunks of the reply: text directly after text is one message. *)
Definition reply_step (st : string * bool) (e : LogEvent) : string * bool :=
  let '(reply, prev_was_text) := st in
  if ev_kind e != "agent-text" then (reply, false)
  else match parsed e ≫= λ d, get_str d "text" with
  | None => st
  | Some text =>
    (reply +:+ (if negb prev_was_text && (reply != "") then nl +:+ nl else "") +:+ text, true)
  end.

Definition last_reply_text (events : list LogEvent) : string :=
  let after_last_user := match rposition (λ e, ev_kind e == "user") events with Some i => S i | None => O end in
  (foldl reply_step ("", false) (drop after_last_user events)).1.

Definition last_crashed_agent_end (events : list LogEvent) : option Json :=
  List.find crashed_data (omap parsed (List.filter (λ e, ev_kind e == "agent-end") (reverse events))).

(** ** Programs *)

Definition ask {A} (o : Op (Result string A)) : P A := call (O := Op) o.
Definition get {A} (o : Op A) : P A := infallible (call (O := Op) o).
(** [.await.ok().flatten()]. *)
Definition read {A} (o : Op (Result string (option A))) : P (option A) :=
  r ← get o; mret (match r with Ok a => a | Err _ => None end).

Definition load_limits : P SubagentLimits := raw ← get LimitsSetting; mret (limits_of raw).

Definition limit_reached (active max : Z) : string :=
  "subagent limit reached (" +:+ print_int active +:+ " in flight, max " +:+ print_int max +:+
  "). Results arrive automatically as they finish; peek with list_sessions / read_worker_session.".

(** The count and the insert run under one lock; the guard is dropped last. *)
Definition with_spawn_lock {A} (m : P A) : P A :=
  prog_bind (λ _, prog_bind (λ r, prog_bind (λ _, Ret r) (call UnlockSpawn)) m) (call (O := Op) LockSpawn).

Definition create_capped (new : NewChild) (max_concurrent : Z) : P Row :=
  match nc_parent new with
  | None => throw "subagent row has no parent_session_id"
  | Some p =>
    with_spawn_lock (
      active ← ask (CountActive p);
      if max_concurrent <=? active then throw (limit_reached active max_concurrent)
      else ask (CreateChild new))
  end.

Definition final_reply (sid : string) : P string :=
  events ← get (EventsTail sid 200);
  let reply := match events with Ok l => last_reply_text l | Err _ => "" end in
  limits ← load_limits;
  let cap := Z.to_nat (result_char_cap limits) in
  mret (if (cap <? chars_count reply)%nat
        then "(truncated…)" +:+ nl +:+ skip_chars (chars_count reply - cap) reply else reply).

Definition compose (r : Row) (completed : bool) (error : option string) : P string :=
  if completed then
    reply ← final_reply (row_id r);
    let body := if reply == "" then "(no final message; read its transcript with read_worker_session)" else reply in
    mret (headline r "finished" +:+ nl +:+ nl +:+ body)
  else
    events ← get (EventsTail (row_id r) 16);
    let agent_end := match events with Ok l => last_crashed_agent_end l | Err _ => None end in
    mret (headline r "CRASHED" +:+ nl +:+ nl +:+ crash_detail error agent_end +:+ nl +:+ nl +:+
      "Read its transcript with read_worker_session, then re-spawn it or continue without it.").

(** Only the call that stamped the row goes on, and only while the parent
    exists. *)
Definition claim_child (r : Row) (p : string) : P bool :=
  now ← get NowText;
  claimed ← get (ClaimDone (row_id r) now);
  match claimed with
  | Ok true =>
    row ← get (GetSession p);
    mret match row with Ok (Some _) => true | _ => false end
  | _ => mret false
  end.

Definition claim_and_compose (r : Row) (completed : bool) (error : option string) (has_running_tasks : bool) :
    P (option (string * string)) :=
  match parent (extra r) with
  | None => mret None
  | Some p =>
    if completed && has_running_tasks then mret None
    else
      won ← claim_child r p;
      if won : bool then text ← compose r completed error; mret (Some (p, text)) else mret None
  end.

(** [notify_session] with the marker of a result. *)
Definition notify_session (wake : bool) (sid text : string) : P unit :=
  appended ← get (AppendEvent sid "user" (json_object [("text", Some text); ("source", Some "subagent-result")]));
  (if wake then get (Resume sid text (is_ok appended));; mret tt else mret tt);;
  match appended with Ok _ => mret tt | Err e => throw e end.

Definition deliver_to_parent (p text : string) : P unit := ignore (notify_session true p text).

Definition auth_failure_baseline (sid : string) : P (option Z) :=
  e ← read (LatestOfKinds sid ["agent-start"]); mret (ev_seq <$> e).

(** [None < Some _], as [Option] orders them. *)
Definition later_start (now baseline : option Z) : bool :=
  match now, baseline with
  | Some n, Some b => b <? n
  | Some _, None => true
  | None, _ => false
  end.

Definition claim_after_auth_grace (r : Row) (baseline : option Z) (error : option string) : P (option (string * string)) :=
  now ← auth_failure_baseline (row_id r);
  if later_start now baseline then mret None else claim_and_compose r false error false.

(** The task of [defer_auth_crash], when the grace period is over. *)
Definition auth_grace_over (sid : string) (baseline : option Z) (error : option string) : P unit :=
  row ← read (GetSession sid);
  match row with
  | None => mret tt
  | Some r =>
    report ← claim_after_auth_grace r baseline error;
    match report with
    | None => mret tt
    | Some (p, text) => get (StopTasks sid);; get (MarkReported sid);; deliver_to_parent p text
    end
  end.

(** The task that is spawned here sleeps for [AUTH_CRASH_GRACE]; it is the rest of
    the same thread, and in a schedule any calls of others fall between the
    baseline and [auth_grace_over]. *)
Definition defer_auth_crash (r : Row) (error : option string) : P unit :=
  baseline ← auth_failure_baseline (row_id r);
  auth_grace_over (row_id r) baseline error.

Definition handle_subagent_done (r : Row) (completed auth_failed : bool) (error : option string) : P unit :=
  if negb completed && auth_failed then defer_auth_crash r error
  else
    queued ← get (NextQueued (row_id r));
    let has_queued := match queued with Ok (Some _) => true | _ => false end in
    if negb completed && has_queued then mret tt
    else
      (if completed then mret tt else get (StopTasks (row_id r)));;
      busy ← (if completed then get (HasTasks (row_id r)) else mret false);
      report ← claim_and_compose r completed error (completed && (busy || has_queued));
      match report with
      | None => mret tt
      | Some (p, text) => deliver_to_parent p text
      end.

(** The arm of the completion listener for a session with a parent. *)
Definition turn_done (sid : string) (completed auth_failed : bool) (error : option string) : P unit :=
  row ← read (GetSession sid);
  match row with
  | None => mret tt
  | Some r =>
    if negb (Store.s_is_worker (session r)) && is_some (parent (extra r))
    then handle_subagent_done r completed auth_failed error else mret tt
  end.

Definition fail_subagent_dispatch (sid error : string) : P unit :=
  row ← read (GetSession sid);
  match row with None => mret tt | Some r => handle_subagent_done r false false (Some error) end.

Definition resumed_text (r : Row) : string :=
  headline r "resumed" +:+ nl +:+ nl +:+
  "Its CRASHED report above was an authentication failure; the turn has been retried and the subagent is running again. Do not re-spawn it — its result is posted here when it finishes.".

Definition announce_resumed (sid : string) (r : Row) (p : string) : P unit :=
  cleared ← get (Unclaim sid);
  match cleared with
  | Ok true =>
    parent_row ← read (GetSession p);
    match parent_row with Some _ => deliver_to_parent p (resumed_text r) | None => mret tt end
  | _ => mret tt
  end.

Definition on_auth_released (sid : string) : P unit :=
  was_reported ← get (TakeReported sid);
  if negb was_reported then mret tt
  else
    row ← read (GetSession sid);
    match row with
    | None => mret tt
    | Some r =>
      match parent (extra r) with
      | None => mret tt
      | Some p => announce_resumed sid r p
      end
    end.

Definition rearm_for_follow_up (sid : string) : P bool :=
  row ← read (GetSession sid);
  match row with
  | None => mret false
  | Some r =>
    if negb (is_some (parent (extra r))) || negb (is_some (completed_at (extra r))) then mret false
    else
      cleared ← get (Unclaim sid);
      mret match cleared with Ok b => b | Err _ => false end
  end.
(** The message of a follow-up, from [send_message] of the plugin host. *)
Definition follow_up (sid text : string) : P unit :=
  rearm_for_follow_up sid;; ignore (get (Resume sid text false)).

(** ** The tool spawn_subagent *)

Record SpawnArgs := mkSpawnArgs {
  a_prompt : option string; a_name : option string; a_model : option string; a_system_prompt : option string }.

Definition build_subagent_prompt (name parent_session_id task : string) : string :=
  "You are subagent " +:+ quoted name +:+ ", spawned by session " +:+ parent_session_id +:+
  ". Work the task below to completion, then STOP: your final message is the deliverable and is posted back to the session that spawned you. Do not ask the user questions — put open questions in the final message. Never use terminal/shell tools (use `run_command` / `run_tests` / `git`), never use `grep`/`sed` (use `search_files` and the code tools), stay inside the project folder, and do not spawn further subagents. When the `graphify_*` tools are available, use them first to read code and find where to change it: `graphify_explain` on the symbol or feature names the files to open, `graphify_path` shows how A reaches B, and `graphify_build` rebuilds the graph (call it when a tool reports no graph, and after editing to trace what you touched). If graphify is not installed, say so in your final message instead of installing it."
  +:+ nl +:+ nl +:+ "# Task" +:+ nl +:+ nl +:+ task.

Definition full_model_id (model_id : string) : string :=
  let '(provider, rest) := parse_model_id model_id "claude" in provider +:+ ":" +:+ rest.

Definition required (what : string) (v : option string) : P string :=
  match v with
  | Some s => if is_blank s then throw ("spawn_subagent requires '" +:+ what +:+ "'") else mret s
  | None => throw ("spawn_subagent requires '" +:+ what +:+ "'")
  end.

(** The child, and the text of its first turn. *)
Definition handle_spawn_subagent (me : string) (args : SpawnArgs) : P (string * string) :=
  prompt ← required "prompt" (a_prompt args);
  name ← required "name" (a_name args);
  row ← ask (GetSession me);
  match row with
  | None => throw "caller session not found"
  | Some caller =>
    if is_some (parent (extra caller)) then
      throw "subagents cannot spawn subagents; return your findings and let the parent fan out"
    else
      limits ← load_limits;
      active ← ask (CountActive me);
      if max_concurrent limits <=? active then throw (limit_reached active (max_concurrent limits))
      else
        let model := match a_model args with Some m => Some m | None => Store.s_model (session caller) end in
        known ← match model with Some m => get (ModelKnown (full_model_id m)) | None => mret true end;
        if negb known then
          throw ("unknown model '" +:+ full_model_id (default "" model) +:+
            "' (see list_models); spawn_subagent refused so it doesn't leak a concurrency slot")
        else
          ask (ResolvePrompt (a_system_prompt args));;
          id ← get NewId;
          child ← create_capped
            (mkNewChild id (SUBAGENT_NAME_PREFIX +:+ name) (Some me) (Store.s_project_id (session caller)) model)
            (max_concurrent limits);
          let full_prompt := build_subagent_prompt name me prompt in
          ask (AppendEvent (row_id child) "user"
            (json_object [("text", Some full_prompt); ("source", Some "subagent-spawn")]));;
          mret (row_id child, full_prompt)
  end.

(** The tool call, then the first turn the route starts. *)
Definition spawn_subagent (me : string) (args : SpawnArgs) : P unit :=
  '(child, text) ← handle_spawn_subagent me args;
  started ← get (Resume child text false);
  match started with Ok _ => mret tt | Err e => fail_subagent_dispatch child e end.
End reports.
End Subagents.
