(* ===== verification/Restarts.v ===== *)
(** * Restart recovery

    src/restart_resume.rs and [repair_dangling_sessions] of src/security.rs: what
    the server does at its start about the turns the last process left behind, as
    programs over the calls of [Subagents].  The pauses between the resumes and
    the log lines are left out; the texts of one parent are kept in a map, whose
    order is that of [gmap]. *)

From S2P Require Import Prelude RustStr Json Pipeline Store Programs Subagents.

Module Restarts.
Export Subagents.Subagents.

Definition CONTINUE_TEXT : string :=
  "[system] The Peckboard server restarted while you were working. Continue where you left off; re-run any command that was interrupted (its output was lost).".
Definition EVENT_SOURCE : string := "restart-resume".
(** In milliseconds. *)
Definition STALE_AFTER : Z := 6 * 3600 * 1000.
Definition DOC_REVIEW_KIND : string := "doc-review".

Definition resume_disabled (value : option string) : bool :=
  match trim <$> value with
  | Some v => (v != "") && (v != "0") && negb (eq_ignore_ascii_case v "false")
  | None => false
  end.

Definition cannot_resume_notice (child : Row) (reason : string) : string :=
  "[subagent " +:+ quoted (short_name child) +:+ " (" +:+ row_id child +:+
  ") was stopped by a server restart and could not resume — re-spawn it if still needed]" +:+ nl +:+ nl +:+
  "Reason: " +:+ reason +:+ ".".

Record ResumeItem := mkItem { i_session : string; i_repair_seq : Z; i_notices : list string }.
Record ParentNotice := mkNotice { n_parent : string; n_text : string; n_wake : bool }.
Record RestartPlan := mkPlan {
  resume : list ResumeItem; parent_notices : list ParentNotice; skipped : list (string * string) }.

Section programs.
Context `{JsonApi}.

(** ** What forbids a resume *)

Definition wake_blocked_by_project (r : Row) : P (option string) :=
  match Store.s_project_id (session r) with
  | None => mret None
  | Some pid =>
    status ← read (GetStatus pid);
    mret match status with
      | Some st => if st == "active" then None else Some ("project is " +:+ st)
      | None => None
      end
  end.

Definition seq_or_zero (e : option LogEvent) : Z := match e with Some e => ev_seq e | None => 0 end.

Definition terminated (start : Z) (e : LogEvent) : bool :=
  (start <? ev_seq e) &&
  match parsed e ≫= λ d, get_str d "text" with Some t => String.prefix "Agent terminated" t | None => false end.

Definition stopped_by_user (sid : string) : P bool :=
  start_event ← read (LatestOfKinds sid ["agent-start"]);
  let start := seq_or_zero start_event in
  interrupt ← read (LatestOfKinds sid ["interrupt"]);
  if (match interrupt with Some e => start <? ev_seq e | None => false end) then mret true
  else
    system ← read (LatestOfKinds sid ["system"]);
    mret match system with Some e => terminated start e | None => false end.

(** [max_by_key]: the last of the greatest. *)
Definition newest (l : list LogEvent) : option LogEvent :=
  foldl (λ best e, match best with
    | Some b => if ev_seq b <=? ev_seq e then Some e else best | None => Some e end) None l.

Definition idle_before_restart (sid : string) : P (option Z) :=
  tail ← get (EventsTail sid 2);
  match tail with
  | Err _ => mret None
  | Ok l =>
    match newest (List.filter (λ e, ev_kind e != "agent-end") l) with
    | None => mret None
    | Some last => now ← get NowMillis; mret (Some (Z.max (now - ev_ts last) 0))
    end
  end.

Definition resume_blocker (r : Row) : P (option string) :=
  if is_some (Store.s_card_id (session r)) then mret (Some "card worker: the orchestrator re-spawns it")
  else if expert_kind (extra r) == Some DOC_REVIEW_KIND then mret (Some "doc review: resumed by its own boot path")
  else if expert_kind (extra r) == Some "voice" then mret (Some "voice assistant: never speaks unprompted")
  else if is_some (handover_to_model (extra r)) then
    mret (Some "model handover parked: handled by the handover reconcile")
  else
    stopped ← stopped_by_user (row_id r);
    if stopped : bool then mret (Some "the user stopped the turn")
    else
      idle ← idle_before_restart (row_id r);
      match idle with
      | Some ms =>
        if STALE_AFTER <? ms then
          mret (Some ("stale: no activity for " +:+ print_int (ms / 1000 / 3600) +:+ "h before the restart"))
        else if negb (is_some (Store.s_conversation_id (session r))) then
          mret (Some "provider has no conversation to resume")
        else wake_blocked_by_project r
      | None =>
        if negb (is_some (Store.s_conversation_id (session r))) then
          mret (Some "provider has no conversation to resume")
        else wake_blocked_by_project r
      end.

(** ** The plan *)

Definition claim_for_notice (child : Row) (reason : string) : P (option (string * string)) :=
  match parent (extra child) with
  | None => mret None
  | Some p =>
    won ← claim_child child p;
    mret (if won : bool then Some (p, cannot_resume_notice child reason) else None)
  end.

Abbreviation Notices := (gmap string (list string)).

(** [entry(parent).or_default().push(text)]. *)
Definition push_notice (note : option (string * string)) (m : Notices) : Notices :=
  match note with Some (p, text) => <[p := default [] (m !! p) ++ [text]]> m | None => m end.

Definition lifecycle_seq (sid : string) : P Z :=
  e ← read (LatestOfKinds sid ["agent-start"; "agent-end"]); mret (seq_or_zero e).

Definition plan_interrupted (st : RestartPlan * Notices) (sid : string) : P (RestartPlan * Notices) :=
  let '(plan, notices) := st in
  row ← read (GetSession sid);
  match row with
  | None => mret st
  | Some r =>
    blocker ← resume_blocker r;
    match blocker with
    | None =>
      seq ← lifecycle_seq sid;
      mret (mkPlan (resume plan ++ [mkItem sid seq []]) (parent_notices plan) (skipped plan), notices)
    | Some reason =>
      note ← (if in_flight (extra r) then claim_for_notice r reason else mret None);
      mret (mkPlan (resume plan) (parent_notices plan) (skipped plan ++ [(sid, reason)]), push_notice note notices)
    end
  end.

Definition plan_unclaimed (interrupted lost : gset string) (notices : Notices) (child : Row) : P Notices :=
  if bool_decide (row_id child ∈ interrupted) || bool_decide (row_id child ∈ lost) then mret notices
  else
    last_end ← read (LatestOfKinds (row_id child) ["agent-end"]);
    let crashed := match last_end ≫= parsed with Some d => crashed_data d | None => false end in
    note ← (if negb (is_some last_end) then claim_for_notice child "its first turn never started"
            else if crashed then claim_for_notice child "its last turn crashed before the restart"
            else claim_and_compose child true None false);
    mret (push_notice note notices).

(** The notices of a session that is resumed are folded into its continuation. *)
Fixpoint add_notices (p : string) (texts : list string) (l : list ResumeItem) : option (list ResumeItem) :=
  match l with
  | [] => None
  | i :: l =>
    if i_session i == p then Some (mkItem (i_session i) (i_repair_seq i) (i_notices i ++ texts) :: l)
    else cons i <$> add_notices p texts l
  end.

Definition plan_parent (plan : RestartPlan) (entry : string * list string) : P RestartPlan :=
  let '(p, texts) := entry in
  match add_notices p texts (resume plan) with
  | Some items => mret (mkPlan items (parent_notices plan) (skipped plan))
  | None =>
    row ← read (GetSession p);
    match row with
    | None => mret plan
    | Some r =>
      blocked ← wake_blocked_by_project r;
      mret (mkPlan (resume plan)
        (parent_notices plan ++ [mkNotice p (String.concat (nl +:+ nl) texts) (negb (is_some blocked))])
        (skipped plan))
    end
  end.

Fixpoint fold_prog {A B} (f : A → B → P A) (a : A) (l : list B) : P A :=
  match l with [] => mret a | b :: l => a ← f a b; fold_prog f a l end.

Definition plan (interrupted : list string) (lost : gset string) : P RestartPlan :=
  '(plan, notices) ← fold_prog plan_interrupted (mkPlan [] [] [], ∅) interrupted;
  children ← get ListIncomplete;
  notices ← fold_prog (plan_unclaimed (list_to_set interrupted) lost) notices
    (match children with Ok l => l | Err _ => [] end);
  fold_prog plan_parent plan (map_to_list notices).

(** ** Its execution *)

(** The last statements of [on_resume_failed]. *)
Definition may_wake (p : string) : P bool :=
  row ← read (GetSession p);
  match row with
  | Some r => blocked ← wake_blocked_by_project r; mret (negb (is_some blocked))
  | None => mret false
  end.

Definition on_resume_failed (sid error : string) : P unit :=
  row ← read (GetSession sid);
  match row with
  | None => mret tt
  | Some r =>
    note ← claim_for_notice r ("resume dispatch failed: " +:+ error);
    match note with
    | None => mret tt
    | Some (p, text) => wake ← may_wake p; ignore (notify_session wake p text)
    end
  end.

Definition dispatch (sid text : string) : P unit :=
  ask (AppendEvent sid "user" (json_object [("text", Some text); ("source", Some EVENT_SOURCE)]));;
  ask (Resume sid text true).

Definition continue_text (notices : list string) : string :=
  foldl (λ text n, text +:+ nl +:+ nl +:+ n) CONTINUE_TEXT notices.

Definition resume_one (item : ResumeItem) : P unit :=
  latest ← lifecycle_seq (i_session item);
  if latest != i_repair_seq item then mret tt
  else
    running ← get (IsRunning (i_session item));
    if running : bool then mret tt
    else
      sent ← outcome (dispatch (i_session item) (continue_text (i_notices item)));
      match sent with Ok _ => mret tt | Err e => on_resume_failed (i_session item) e end.

Definition notify_parent (n : ParentNotice) : P unit := ignore (notify_session (n_wake n) (n_parent n) (n_text n)).

(** Up to three resumes at once in the code; here one after the other. *)
Definition execute (plan : RestartPlan) : P unit :=
  fold_prog (λ _ n, notify_parent n) tt (parent_notices plan);;
  fold_prog (λ _ i, resume_one i) tt (resume plan).

Definition start (interrupted : list string) (lost : gset string) (disabled : bool) : P unit :=
  if disabled then mret tt else pl ← plan interrupted lost; execute pl.

(** ** The repair before it *)

Definition repair_session (repaired : list string) (r : Row) : P (list string) :=
  last ← ask (LatestOfKinds (row_id r) ["agent-start"; "agent-end"]);
  match last with
  | Some e =>
    if ev_kind e == "agent-start" then
      ask (AppendEvent (row_id r) "agent-end"
        (json_object [("status", Some "crashed"); ("reason", Some "server-shutdown")]));;
      mret (repaired ++ [row_id r])
    else mret repaired
  | None => mret repaired
  end.

Definition repair_card (c : Store.Card) : P unit :=
  if (Store.c_step c == "done") || (Store.c_step c == "wont_do") || negb (is_some (Store.c_worker_session_id c)) ||
     Store.c_blocked c then mret tt
  else
    now ← get NowText;
    get (UpdateCard (Store.c_id c)
      (Store.UpdateCard_default |> Store.set_worker_session_id None |> Store.set_updated_at now));;
    mret tt.

Definition repair_project (project : string * string) : P unit :=
  if project.2 != "active" then mret tt
  else
    cards ← get (ListCards project.1);
    fold_prog (λ _ c, repair_card c) tt (match cards with Ok l => l | Err _ => [] end).

Definition repair_dangling_sessions : P (list string) :=
  sessions ← ask ListSessions;
  repaired ← fold_prog repair_session [] sessions;
  projects ← get ListProjects;
  fold_prog (λ _ p, repair_project p) tt (match projects with Ok l => l | Err _ => [] end);;
  mret repaired.

(** ** Requests *)

Inductive Request :=
| SpawnSubagent (me : string) (args : SpawnArgs)
| TurnDone (sid : string) (completed auth_failed : bool) (error : option string)
| AuthReleased (sid : string)
| FollowUp (sid text : string)
| Boot (lost : gset string) (no_resume : option string)
| ResumeOne (item : ResumeItem)
(** Elsewhere in the server: a turn writes an event, a session is deleted. *)
| Append (sid kind data : string)
| Delete (sid : string).

Definition handle (_ : unit) (q : Request) : P unit :=
  match q with
  | SpawnSubagent me args => spawn_subagent me args
  | TurnDone sid completed auth_failed error => turn_done sid completed auth_failed error
  | AuthReleased sid => on_auth_released sid
  | FollowUp sid text => follow_up sid text
  | Boot lost no_resume =>
    interrupted ← repair_dangling_sessions;
    start interrupted lost (resume_disabled no_resume)
  | ResumeOne item => resume_one item
  | Append sid kind data => get (AppendEvent sid kind data);; mret tt
  | Delete sid => get (DeleteSession sid);; mret tt
  end.
End programs.

Abbreviation World := (Programs.Programs.World Op Host Request unit (Result string unit)).

Section server.
Context `{Store.World, JsonApi}.
Definition start_world (h : Host) : World := mkWorld h [] [].
Definition run_server (h : Host) (l : list (Action Request unit Fate)) : World := play exec handle (start_world h) l.
End server.
End Restarts.
