(* ===== verification/SubagentProps.v ===== *)
(** * Subagents: the cap

    What every call does to the children of a session, and that in every schedule
    a parent has at most as many of them in flight as its limit and the re-armed
    ones allow ([cap_kept]). *)

From S2P Require Import Prelude RustStr Json Pipeline Store StoreProps Dispatch Programs Turns Resume Subagents Restarts.

Module SubagentProps.
Export Restarts.Restarts.

(** ** Children *)

(** The parent of every session and whether it is stamped. *)
Definition family (h : Host) : gmap string (option string * bool) :=
  (λ r, (parent (extra r), is_some (completed_at (extra r)))) <$> rows h.

Lemma lookup_rows h sid :
  rows h !! sid = (λ s, mkRow s (default no_extra (extras h !! sid))) <$> Store.sessions (db h) !! sid.
Proof. unfold rows. rewrite map_lookup_imap. by destruct (Store.sessions (db h) !! sid). Qed.

Definition in_table (h : Host) (sid : string) : Prop := sid ∈ dom (Store.sessions (db h)).

Lemma family_ext h h' :
  dom (Store.sessions (db h')) = dom (Store.sessions (db h)) → extras h' = extras h → family h' = family h.
Proof.
  intros Hd Hx. apply map_eq. intros sid. unfold family. rewrite !lookup_fmap, !lookup_rows, Hx.
  assert (is_Some (Store.sessions (db h') !! sid) ↔ is_Some (Store.sessions (db h) !! sid)) as Hs
    by (rewrite <- !elem_of_dom; set_solver).
  destruct (Store.sessions (db h') !! sid), (Store.sessions (db h) !! sid); naive_solver.
Qed.

Lemma family_row h sid r : get_row sid h = Some r → family h !! sid = Some (parent (extra r), is_some (completed_at (extra r))).
Proof. unfold get_row, family. intros Hr. by rewrite lookup_fmap, Hr. Qed.

Lemma family_insert h sid r x : get_row sid h = Some r →
  family (set_extras (<[sid := x]> (extras h)) h) = <[sid := (parent x, is_some (completed_at x))]> (family h).
Proof.
  unfold get_row. rewrite lookup_rows. intros Hr. apply map_eq. intros k. unfold family.
  rewrite !lookup_fmap, !lookup_rows. simpl. destruct (decide (sid = k)) as [<-|Hne].
  - rewrite !lookup_insert_eq. by destruct (Store.sessions (db h) !! sid).
  - by rewrite !lookup_insert_ne, lookup_fmap, lookup_rows by done.
Qed.

(** ** What the calls do to them *)

(** A statement that keeps the set of sessions. *)
Abbreviation keeps_sessions X := (λ d : Store.Db, dom (Store.sessions d) = X).

Section store.
Context `{Store.World} (X : gset string).

Lemma sessions_modify f : (∀ d, dom (Store.sessions (f d)) = dom (Store.sessions d)) → Store.Preserves (keeps_sessions X) (Store.modify f).
Proof. intros Hf. apply Store.preserves_modify. intros d <-. apply Hf. Qed.

Ltac same_sessions := Store.preserve; try (apply sessions_modify; done).

#[local] Instance sessions_tick : Store.Preserves (keeps_sessions X) Store.tick.
Proof. by intros d. Qed.
#[local] Instance sessions_transaction {A} (m : Store.M A) :
  Store.Preserves (keeps_sessions X) m → Store.Preserves (keeps_sessions X) (Store.transaction m).
Proof. intros Hm d Hd. specialize (Hm d Hd). unfold Store.transaction. by destruct (m d) as [[a|e] d']. Qed.

#[export] Instance sessions_append s k d : Store.Preserves (keeps_sessions X) (Store.append_event s k d).
Proof.
  unfold Store.append_event. generalize Store.APPEND_SEQ_MAX_ATTEMPTS. intros n.
  induction n; cbn; unfold Store.uuid, Store.millis; same_sessions.
Qed.

Lemma sever_dom step l m :
  dom (foldl (λ (m : gmap string Store.Session) sid, alter (Store.sever step) sid m) m l) = dom m.
Proof. revert m. induction l as [|sid l IH]; intros m; simpl; [done|]. by rewrite IH, dom_alter_L. Qed.

#[export] Instance sessions_update_card c u : Store.Preserves (keeps_sessions X) (Store.update_card c u).
Proof.
  unfold Store.update_card, Store.stamp_completed_at, Store.sever_worker_resume_link, Store.close_runs, Store.now.
  same_sessions; apply sessions_modify; intros d; apply sever_dom.
Qed.
End store.

Section calls.
Context `{Store.World}.

Lemma stmt_family {A} f (m : Store.M A) h r h' :
  (∀ X, Store.Preserves (keeps_sessions X) m) → stmt f m h = Some (r, h') → family h' = family h.
Proof.
  unfold stmt. intros Hm. destruct (fault f) as [e|]; [by intros [= _ <-]|].
  pose proof (Hm _ (db h) eq_refl) as Hd. destruct (m (db h)) as [r' d]. intros [= _ <-]. by apply family_ext.
Qed.

Lemma query_same {A} f (g : Host → A) h r h' : query f g h = Some (r, h') → h' = h.
Proof. unfold query. by intros [= _ <-]. Qed.

(** What a call made of the families. *)
Definition shifts (e : Event Op) (m m' : gmap string (option string * bool)) : Prop :=
  match e with
  | @Ev _ _ o b =>
    match o in Op B return B → Prop with
    | CreateChild new => λ b,
        match b with
        | Ok _ => m !! nc_id new = None ∧ m' = <[nc_id new := (nc_parent new, false)]> m
        | Err _ => m' = m
        end
    | ClaimDone sid _ => λ b,
        match b with
        | Ok true => ∃ p, m !! sid = Some (Some p, false) ∧ m' = <[sid := (Some p, true)]> m
        | _ => m' = m
        end
    | Unclaim sid => λ b,
        match b with Ok true => ∃ p, m !! sid = Some (p, true) ∧ m' = <[sid := (p, false)]> m | _ => m' = m end
    | DeleteSession sid => λ _, m' = m ∨ m' = delete sid m
    | _ => λ _, m' = m
    end b
  end.

Lemma create_shifts new f h b h' :
  create_child new f h = Some (b, h') → shifts (Ev (O := Op) (CreateChild new) b) (family h) (family h').
Proof.
  unfold create_child, stmt. destruct (fault f) as [e|]; [by intros [= <- <-]|].
  unfold Store.create_session, mbind, Store.M_bind, Store.gets, Store.get_session.
  destruct (Store.sessions (db h) !! nc_id new) as [s|] eqn:E; cbn; [by intros [= <- <-]|].
  unfold Store.constraint. destruct (_ && _); cbn; intros [= <- <-]; cbn; [|done].
  split; [unfold family; by rewrite lookup_fmap, lookup_rows, E|].
  apply map_eq. intros k. unfold family. rewrite !lookup_fmap, !lookup_rows. simpl.
  destruct (decide (nc_id new = k)) as [<-|Hne]; [by rewrite !lookup_insert_eq|].
  by rewrite !lookup_insert_ne, lookup_fmap, lookup_rows by done.
Qed.

Lemma update_shifts sid matches g f h b h' :
  update_extra sid matches g f h = Some (b, h') →
  match b with
  | Ok true => ∃ r, get_row sid h = Some r ∧ matches (extra r) = true ∧
      family h' = <[sid := (parent (g (extra r)), is_some (completed_at (g (extra r))))]> (family h)
  | _ => family h' = family h
  end.
Proof.
  unfold update_extra. destruct (fault f) as [e|]; [by intros [= <- <-]|].
  destruct (get_row sid h) as [r|] eqn:E; [|by intros [= <- <-]].
  destruct (matches (extra r)) eqn:Em; intros [= <- <-]; [|done].
  exists r. split_and!; [done..|]. by eapply family_insert.
Qed.

Lemma delete_shifts sid f h b h' :
  delete_row sid f h = Some (b, h') → family h' = family h ∨ family h' = delete sid (family h).
Proof.
  unfold delete_row, stmt. destruct (fault f) as [e|]; [intros [= _ <-]; by left|].
  unfold Store.delete_session, mbind, Store.M_bind, Store.modify, Store.gets, Store.constraint. cbn.
  destruct (_ || _); cbn; intros [= _ <-]; [right|left; by apply family_ext].
  apply map_eq. intros k. unfold family. rewrite !lookup_fmap, !lookup_rows. simpl.
  destruct (decide (sid = k)) as [<-|Hne]; [by rewrite !lookup_delete_eq|].
  by rewrite !lookup_delete_ne, lookup_fmap, lookup_rows by done.
Qed.

Lemma exec_shifts B t (o : Op B) f h b h' :
  exec B t o f h = Some (b, h') → shifts (Ev (O := Op) o b) (family h) (family h').
Proof.
  destruct o; cbn [exec]; intros He; cbn [shifts];
    try (by injection He as _ <-); try (by apply query_same in He as ->);
    try (by eapply stmt_family; [|exact He]; intros; apply _).
  - destruct (spawn_lock h); [done|]. by injection He as _ <-.
  - injection He as _ <-. by case_bool_decide.
  - by apply (create_shifts new f).
  - apply update_shifts in He. destruct b as [[]|e]; [|done..]. destruct He as (r & Hr & Hm & ->).
    apply family_row in Hr. unfold in_flight in Hm. destruct (parent (extra r)) as [p|] eqn:Ep; [|done].
    destruct (completed_at (extra r)); [done|]. exists p. split; [done|]. simpl. by rewrite Ep.
  - apply update_shifts in He. destruct b as [[]|e]; [|done..]. destruct He as (r & Hr & Hm & ->).
    apply family_row in Hr. destruct (completed_at (extra r)); [|done]. exists (parent (extra r)). by rewrite Hr.
  - by apply (delete_shifts _ f _ b).
Qed.
End calls.

(** ** Counting *)

(** The successful calls of a trace. *)
Definition created (e : Event Op) : option NewChild :=
  match e with
  | @Ev _ _ o b =>
    match o in Op B return B → option NewChild with
    | CreateChild new => λ b, if is_ok b then Some new else None | _ => λ _, None end b
  end.
Definition claimed (e : Event Op) : option string :=
  match e with
  | @Ev _ _ o b =>
    match o in Op B return B → option string with
    | ClaimDone sid _ => λ b, match b with Ok true => Some sid | _ => None end | _ => λ _, None end b
  end.
Definition rearmed (e : Event Op) : option string :=
  match e with
  | @Ev _ _ o b =>
    match o in Op B return B → option string with
    | Unclaim sid => λ b, match b with Ok true => Some sid | _ => None end | _ => λ _, None end b
  end.

Definition count (P : Event Op → bool) (tr : list (nat * Event Op)) : nat :=
  length (List.filter (λ x, P x.2) tr).

Lemma count_snoc P tr t e : count P (tr ++ [(t, e)]) = (count P tr + if P e then 1 else 0)%nat.
Proof. unfold count. rewrite List.filter_app, length_app. simpl. by destruct (P e). Qed.

(** The sessions that were armed again since they were made and since their last
    report. *)
Definition rearmed_step (R : gset string) (e : Event Op) : gset string :=
  match rearmed e with
  | Some sid => {[sid]} ∪ R
  | None =>
    match claimed e with
    | Some sid => R ∖ {[sid]}
    | None => match created e with Some new => R ∖ {[nc_id new]} | None => R end
    end
  end.
Definition rearmed_now (tr : list (nat * Event Op)) : gset string := foldl (λ R x, rearmed_step R x.2) ∅ tr.

Lemma rearmed_now_snoc tr x : rearmed_now (tr ++ [x]) = rearmed_step (rearmed_now tr) x.2.
Proof. unfold rearmed_now. by rewrite foldl_snoc. Qed.

(** The children of [p] that are in flight because they were armed again. *)
Definition rearmed_active (p : string) (w : World) : Z :=
  Z.of_nat (size (filter (λ kv, child_in_flight p (extra kv.2) = true ∧ kv.1 ∈ rearmed_now (trace w)) (rows (server w)))).

Lemma in_flight_family p x : child_in_flight p x = true ↔ (parent x, is_some (completed_at x)) = (Some p, false).
Proof.
  unfold child_in_flight. destruct (completed_at x); simpl.
  - rewrite andb_false_r. split; [done|]. by intros [= ?].
  - rewrite andb_true_r, bool_decide_eq_true. split; [by intros ->|]. by intros [= ?].
Qed.

(** The children of [p] in flight. *)
Definition active (p : string) (m : gmap string (option string * bool)) : nat :=
  size (filter (λ kv, kv.2 = (Some p, false)) m).

Lemma count_active_family p h : count_active p h = Z.of_nat (active p (family h)).
Proof.
  unfold count_active, select_rows, active, family. rewrite length_fmap, length_map_to_list.
  rewrite map_filter_fmap, map_size_fmap. do 2 f_equal. apply map_filter_ext. intros sid r _. simpl.
  apply in_flight_family.
Qed.

(** Those of them that were not armed again. *)
Definition first_armed (p : string) (R : gset string) (m : gmap string (option string * bool)) : nat :=
  size (filter (λ kv, kv.2 = (Some p, false) ∧ kv.1 ∉ R) m).

Lemma first_armed_active p R m : (first_armed p R m ≤ active p m)%nat.
Proof.
  unfold first_armed, active. apply map_subseteq_size, map_subseteq_spec. intros k v.
  rewrite !map_lookup_filter_Some. naive_solver.
Qed.

Lemma first_armed_none p m : first_armed p ∅ m = active p m.
Proof. unfold first_armed, active. f_equal. apply map_filter_ext. set_solver. Qed.

Lemma first_armed_mono p R R' m m' :
  (∀ k, m' !! k = Some (Some p, false) → k ∉ R' → m !! k = Some (Some p, false) ∧ k ∉ R) →
  (first_armed p R' m' ≤ first_armed p R m)%nat.
Proof.
  intros Hk. unfold first_armed. apply map_subseteq_size, map_subseteq_spec. intros k v.
  rewrite !map_lookup_filter_Some. simpl. intros (Hm & -> & Hn). by destruct (Hk k Hm Hn).
Qed.

Lemma first_armed_insert p R R' m k v : (∀ k', k' ≠ k → k' ∉ R' → k' ∉ R) → (first_armed p R' (<[k := v]> m) ≤ first_armed p R m + 1)%nat.
Proof.
  intros HR. unfold first_armed. set (X := filter _ m).
  trans (size (<[k := v]> X)); [|rewrite map_size_insert; destruct (X !! k); simpl; lia].
  apply map_subseteq_size, map_subseteq_spec. intros k' v'.
  rewrite map_lookup_filter_Some, !lookup_insert_Some. unfold X. rewrite map_lookup_filter_Some. naive_solver.
Qed.

(** The children in flight are those and the ones that were armed again. *)
Lemma active_split p w :
  count_active p (server w) =
  (Z.of_nat (first_armed p (rearmed_now (trace w)) (family (server w))) + rearmed_active p w)%Z.
Proof.
  unfold rearmed_active. rewrite count_active_family, <- Nat2Z.inj_add. f_equal. unfold active, first_armed.
  set (m := family (server w)). set (R := rearmed_now (trace w)).
  assert (size (filter (λ kv, child_in_flight p (extra kv.2) = true ∧ kv.1 ∈ R) (rows (server w))) =
    size (filter (λ kv, kv.2 = (Some p, false) ∧ kv.1 ∈ R) m)) as ->.
  { unfold m, family. rewrite map_filter_fmap, map_size_fmap. f_equal. apply map_filter_ext. intros sid r _. simpl.
    by rewrite in_flight_family. }
  rewrite <- map_size_disj_union.
  - f_equal. apply map_eq. intros k. apply option_eq. intros v.
    rewrite lookup_union_Some; [rewrite !map_lookup_filter_Some; simpl; destruct (decide (k ∈ R)); naive_solver|].
    apply map_disjoint_spec. intros k' v1 v2. rewrite !map_lookup_filter_Some. simpl. naive_solver.
  - apply map_disjoint_spec. intros k' v1 v2. rewrite !map_lookup_filter_Some. simpl. naive_solver.
Qed.

#[export] Instance makes_child_dec p e : Decision (∃ new, created e = Some new ∧ nc_parent new = Some p).
Proof.
  destruct (created e) as [new|]; [|right; naive_solver].
  destruct (decide (nc_parent new = Some p)); [left; eauto|right; naive_solver].
Defined.

(** Only a new child adds to them. *)
Lemma first_armed_shifts p R e m m' :
  shifts e m m' → (∀ new, created e = Some new → nc_parent new ≠ Some p) →
  (first_armed p (rearmed_step R e) m' ≤ first_armed p R m)%nat.
Proof.
  destruct e as [B o b]. intros Hs Hc. destruct o; cbn in *; try (by subst m').
  - destruct b as [r|e]; [|by subst]. destruct Hs as [Hn ->]. specialize (Hc new eq_refl).
    apply first_armed_mono. intros k [[<- [= Hq]]|[Hk Hm]]%lookup_insert_Some Hr; [done|]. split; [done|cbn in Hr; set_solver].
  - destruct b as [[]|e]; [|by subst..]. destruct Hs as (q & _ & ->).
    apply first_armed_mono. intros k [[<- [=]]|[Hk Hm]]%lookup_insert_Some Hr. split; [done|cbn in Hr; set_solver].
  - destruct b as [[]|e]; [|by subst..]. destruct Hs as (q & Hq & ->).
    apply first_armed_mono. intros k [[<- _]|[Hk Hm]]%lookup_insert_Some Hr; [exfalso; apply Hr; cbn; set_solver|]. split; [done|cbn in Hr; set_solver].
  - destruct Hs as [->| ->]; [done|]. apply first_armed_mono. by intros k [_ Hm]%lookup_delete_Some Hr.
Qed.

Lemma first_armed_shifts_one p R e m m' : shifts e m m' → (first_armed p (rearmed_step R e) m' ≤ first_armed p R m + 1)%nat.
Proof.
  intros Hs. destruct (created e) as [new|] eqn:Ec.
  - destruct e as [B o b]. destruct o; try done. destruct b as [r|e]; [|done]. destruct Hs as [_ ->].
    apply first_armed_insert. cbn in Ec. injection Ec as ->. cbn. set_solver.
  - pose proof (first_armed_shifts p R e m m' Hs ltac:(congruence)). lia.
Qed.

(** ** The calls of a program *)

(** Programs all of whose calls satisfy [I]. *)
Fixpoint only {A} (I : Event Op → Prop) (m : Prog Op A) : Prop :=
  match m with Ret _ => True | Vis o k => ∀ b, I (Ev (O := Op) o b) ∧ only I (k b) end.

Lemma only_bind {A B} I (m : Prog Op A) (g : A → Prog Op B) : only I m → (∀ a, only I (g a)) → only I (prog_bind g m).
Proof.
  intros Hm Hg. induction m as [a|C o k IH]; [apply Hg|]. intros b. destruct (Hm b) as [Hc Hk]. split; [done|]. by apply IH.
Qed.

Lemma only_h_bind {E A B} I (m : H Op E A) (g : A → H Op E B) : only I m → (∀ a, only I (g a)) → only I (m ≫= g).
Proof. intros Hm Hg. apply only_bind; [done|]. by intros [a|e]. Qed.

Lemma only_fold {A B} I (f : A → B → P A) a l : (∀ a b, only I (f a b)) → only I (fold_prog f a l).
Proof.
  intros Hf. revert a. induction l as [|b l IH]; intros a; [done|]. apply only_h_bind; [apply Hf|]. intros a'. apply IH.
Qed.

Create HintDb barren.

(** Walks the calls of a program. *)
Ltac barren := repeat first
  [ lazymatch goal with
    | |- only _ (fold_prog _ _ _) => apply only_fold; intros ? ?
    | |- only _ (@mbind _ h_bind _ _ _ _) => apply only_h_bind; [|intros ?]
    | |- only _ (ignore _) => apply only_bind; [apply only_bind; [|intros ?]|intros ?]
    | |- only _ (outcome _) => apply only_bind; [|intros ?]
    | |- only _ (infallible _) => apply only_bind; [|intros ?]
    | |- only _ (prog_bind _ _) => apply only_bind; [|intros ?]
    | |- only _ (call _) => intros ?; split; [reflexivity|exact I]
    | |- only _ (Ret _) => exact I
    | |- only _ (mret _) => exact I
    | |- only _ (throw _) => exact I
    | |- only _ (if ?c then _ else _) => destruct c
    | |- only _ (match ?x with _ => _ end) => destruct x
    end
  | solve [auto with barren]
  | progress unfold ask, get, read ].

(** ** Under the lock *)

Section cap.
Context `{JsonApi}.

Abbreviation Lock := (Ev (O := Op) LockSpawn tt).
Abbreviation Counted p r := (Ev (O := Op) (CountActive p) r).

(** A child is made right after its parent's children were counted under the
    lock, and found to be fewer than the limit that was read. *)
Definition capped (h : list (Event Op)) (e : Event Op) : Prop :=
  ∀ new, created e = Some new → ∃ h0 p n raw,
    h = h0 ++ [Lock; Counted p (Ok n)] ∧ nc_parent new = Some p ∧
    Ev (O := Op) LimitsSetting raw ∈ h0 ∧ n < max_concurrent (limits_of raw).

Abbreviation any := (λ (_ : list (Event Op)) _, True).

(** Programs that make no child. *)
Abbreviation childless := (only (λ e, created e = None)).

Lemma childless_capped {A} h (m : Prog Op A) : childless m → paths capped any h m.
Proof.
  revert h. induction m as [a|C o k IH]; intros h Hm; [done|]. intros b. destruct (Hm b) as [Hc Hk].
  split; [|by apply IH]. intros new Hnew. congruence.
Qed.

Lemma notify_childless wake p text : childless (notify_session wake p text).
Proof. unfold notify_session. barren. Qed.
Lemma claim_childless r p : childless (claim_child r p).
Proof. unfold claim_child. barren. Qed.
#[local] Hint Resolve notify_childless claim_childless : barren.

Lemma compose_childless r c e : childless (compose r c e).
Proof. unfold compose, final_reply, load_limits. barren. Qed.
#[local] Hint Resolve compose_childless : barren.
Lemma claim_and_compose_childless r c e b : childless (claim_and_compose r c e b).
Proof. unfold claim_and_compose. barren. Qed.
#[local] Hint Resolve claim_and_compose_childless : barren.

Lemma done_childless r c a e : childless (handle_subagent_done r c a e).
Proof.
  unfold handle_subagent_done, defer_auth_crash, auth_grace_over, claim_after_auth_grace, auth_failure_baseline, deliver_to_parent.
  barren.
Qed.
#[local] Hint Resolve done_childless : barren.

Lemma blocked_childless r : childless (wake_blocked_by_project r).
Proof. unfold wake_blocked_by_project. barren. Qed.
#[local] Hint Resolve blocked_childless : barren.
Lemma notice_childless r reason : childless (claim_for_notice r reason).
Proof. unfold claim_for_notice. barren. Qed.
#[local] Hint Resolve notice_childless : barren.
Lemma blocker_childless r : childless (resume_blocker r).
Proof. unfold resume_blocker, stopped_by_user, idle_before_restart. barren. Qed.
#[local] Hint Resolve blocker_childless : barren.
Lemma plan_childless l lost : childless (plan l lost).
Proof. unfold plan, plan_interrupted, plan_unclaimed, plan_parent, lifecycle_seq. barren. Qed.
#[local] Hint Resolve plan_childless : barren.
Lemma resume_one_childless item : childless (resume_one item).
Proof. unfold resume_one, on_resume_failed, may_wake, dispatch, lifecycle_seq. barren. Qed.
#[local] Hint Resolve resume_one_childless : barren.
Lemma repair_childless : childless repair_dangling_sessions.
Proof. unfold repair_dangling_sessions, repair_session, repair_project, repair_card. barren. Qed.
#[local] Hint Resolve repair_childless : barren.

(** Every request but one makes no child. *)
Lemma request_childless q : (∀ me args, q ≠ SpawnSubagent me args) → childless (handle tt q).
Proof.
  intros Hq. destruct q; cbn [handle]; [by destruct (Hq me args)|..];
    unfold turn_done, on_auth_released, announce_resumed, follow_up, rearm_for_follow_up, start, execute, notify_parent, deliver_to_parent; barren.
Qed.

Lemma create_capped_paths new raw h :
  Ev (O := Op) LimitsSetting raw ∈ h → paths capped any h (create_capped new (max_concurrent (limits_of raw))).
Proof.
  intros Hraw. unfold create_capped. destruct (nc_parent new) as [p|] eqn:Ep; [|done].
  unfold with_spawn_lock. apply paths_bind, paths_call. intros []. split; [done|].
  apply paths_bind, paths_h_bind, paths_call. intros [n|e]; (split; [done|]); cbn [or_err].
  - destruct (Z.leb_spec (max_concurrent (limits_of raw)) n).
    + cbn. intros b. by split.
    + apply paths_call. intros b. split; [|intros u; by split].
      intros new' Hnew. exists h, p, n, raw. rewrite <- app_assoc. split; [done|].
      assert (new' = new) as -> by (destruct b; cbn in Hnew; congruence). auto.
  - intros u. by split.
Qed.

Lemma childless_then {A B} (g : A → P B) h (m : P A) :
  childless m → (∀ h' a, h ⊆ h' → paths capped any h' (g a)) → paths capped any h (m ≫= g).
Proof.
  intros Hm Hg. apply paths_h_bind. assert (∀ h', h ⊆ h' → paths capped (or_err capped any g) h' m) as Hp; [|by apply Hp].
  induction m as [a|C o k IH]; intros h' Hs; [destruct a as [a|e]; [by apply Hg|done]|].
  intros b. destruct (Hm b) as [Hc Hk]. split; [intros new Hnew; congruence|]. apply IH; [done|set_solver].
Qed.

Lemma spawn_tail_capped (m : P Row) h (g : Row → P (string * string)) :
  paths capped any h m → (∀ r, childless (g r)) → paths capped any h (m ≫= g).
Proof.
  intros Hm Hg. apply paths_h_bind. eapply paths_mono; [|exact Hm]. intros h' [r|e] _; [|done]. by apply childless_capped.
Qed.

Lemma spawn_capped me args : paths capped any [] (spawn_subagent me args).
Proof.
  unfold spawn_subagent. apply paths_h_bind.
  apply (paths_mono _ any).
  { intros h [[c text]|e] _; [|done]. cbn [or_err]. apply childless_capped. unfold fail_subagent_dispatch. barren. }
  unfold handle_spawn_subagent, required.
  apply childless_then; [barren|]. intros h0 prompt _. apply childless_then; [barren|]. intros h1 name _.
  apply childless_then; [barren|]. intros h2 [caller|] _; [|done]. destruct (is_some _); [done|].
  unfold load_limits. apply paths_h_bind, paths_h_bind, paths_infallible, paths_call. intros raw. split; [done|].
  cbn [or_err mret h_ret paths].
  assert (Ev (O := Op) LimitsSetting raw ∈ h2 ++ [Ev (O := Op) LimitsSetting raw]) as Hraw by set_solver.
  revert Hraw. generalize (h2 ++ [Ev (O := Op) LimitsSetting raw]). clear h0 h1 h2. intros h Hraw.
  apply childless_then; [barren|]. intros h1 active_now H1. destruct (_ <=? _); [done|].
  apply childless_then; [barren|]. intros h2 known H2. destruct (negb known); [done|].
  apply childless_then; [barren|]. intros h3 _ H3. apply childless_then; [barren|]. intros h4 cid H4.
  apply spawn_tail_capped; [|intros r; barren]. apply create_capped_paths. set_solver.
Qed.

Lemma handle_capped q u : paths capped any [] (handle u q).
Proof.
  destruct u. destruct q; try (apply childless_capped, request_childless; by intros ? ?). apply spawn_capped.
Qed.
End cap.

(** ** The cap *)

Definition locks (e : Event Op) : bool :=
  match e with @Ev _ _ o _ => match o with LockSpawn => true | _ => false end end.
Definition counted (e : Event Op) : option (string * Result string Z) :=
  match e with
  | @Ev _ _ o b =>
    match o in Op B return B → option (string * Result string Z) with
    | CountActive p => λ b, Some (p, b) | _ => λ _, None end b
  end.

(** The thread is between the lock and the insert. *)
Definition inside (h : list (Event Op)) : Prop :=
  (∃ h0 e, h = h0 ++ [e] ∧ locks e = true) ∨ (∃ h0 e e', h = h0 ++ [e; e'] ∧ locks e = true ∧ is_Some (counted e')).

Section lock.
Context `{Store.World}.

Lemma update_extra_lock sid m g f h b h' : update_extra sid m g f h = Some (b, h') → spawn_lock h' = spawn_lock h.
Proof. unfold update_extra. intros. by repeat case_match; simplify_eq. Qed.
Lemma stmt_lock {A} f (m : Store.M A) h b h' : stmt f m h = Some (b, h') → spawn_lock h' = spawn_lock h.
Proof. unfold stmt. intros. by repeat case_match; simplify_eq. Qed.

Lemma exec_lock B t (o : Op B) f h b h' :
  exec B t o f h = Some (b, h') →
  match o with
  | LockSpawn => spawn_lock h = None ∧ spawn_lock h' = Some t
  | _ => spawn_lock h' = spawn_lock h ∨ spawn_lock h = Some t
  end.
Proof.
  destruct o; cbn [exec]; intros He;
    try (by left; injection He as _ <-); try (by left; apply query_same in He as ->);
    try (by left; eapply stmt_lock); try (by left; eapply update_extra_lock).
  - by destruct (spawn_lock h); [|injection He as _ <-].
  - injection He as _ <-. case_bool_decide; [by right|by left].
  - left. unfold create_child in He. destruct (stmt _ _ _) as [[[s|e] h1]|] eqn:Es; [| |done];
      injection He as _ <-; by apply stmt_lock in Es.
  - left. unfold delete_row in He. destruct (stmt _ _ _) as [[[s|e] h1]|] eqn:Es; [| |done];
      injection He as _ <-; by apply stmt_lock in Es.
Qed.
End lock.

Section schedules.
Context `{Store.World, JsonApi} (p : string) (h0 : Host) (M : Z).

(** The limit was read as at most [M]. *)
Definition limited (tr : list (nat * Event Op)) : Prop :=
  ∀ t raw, (t, Ev (O := Op) LimitsSetting raw) ∈ tr → max_concurrent (limits_of raw) ≤ M.

Abbreviation now_fresh w := (Z.of_nat (first_armed p (rearmed_now (trace w)) (family (server w)))).

Record cap_inv (w : World) : Prop := {
  cap_lock t : inside (hist (trace w) t) → spawn_lock (server w) = Some t;
  cap_room t h1 e1 e2 n : hist (trace w) t = h1 ++ [e1; e2] → locks e1 = true → counted e2 = Some (p, Ok n) →
    n < M → now_fresh w + 1 ≤ M;
  cap_sum : now_fresh w ≤ Z.max M (Z.of_nat (active p (family h0))) }.

Section step.
Context (w : World) (t : nat) (e : Event Op) (s : Host) (Hw : cap_inv w).
Context (B : Type@{answer}) (o : Op B) (f : Fate) (b : B) (He : e = Ev (O := Op) o b).
Context (Hx : exec B t o f (server w) = Some (b, s)).
Context (ths : list (Thread Op Request unit (Result string unit))).
Abbreviation w' := (mkWorld s ths (trace w ++ [(t, e)]) : World).

Lemma step_shifts : shifts e (family (server w)) (family s).
Proof. subst e. by eapply exec_shifts. Qed.

Lemma step_hist t' : hist (trace w') t' = if decide (t = t') then hist (trace w) t ++ [e] else hist (trace w) t'.
Proof.
  simpl. rewrite hist_app. destruct (decide (t = t')) as [<-|Hne]; [by rewrite hist_self|].
  by rewrite hist_other, app_nil_r by done.
Qed.

Lemma step_lock t' : inside (hist (trace w') t') → spawn_lock s = Some t'.
Proof.
  rewrite step_hist. pose proof (exec_lock _ _ _ _ _ _ _ Hx) as Hl. destruct (decide (t = t')) as [<-|Hne].
  - intros [(h1 & e1 & [_ <-]%app_inj_tail & Hlk)|(h1 & e1 & e2 & Heq & Hlk & Hc)].
    + subst e. destruct o; cbn in Hlk; try done. by destruct Hl.
    + change [e1; e2] with ([e1] ++ [e2]) in Heq. rewrite app_assoc in Heq. apply app_inj_tail in Heq as [Hh <-].
      assert (spawn_lock (server w) = Some t) as Ht by (apply (cap_lock w Hw); left; by eauto).
      subst e. destruct o; cbn in Hc; try (by destruct Hc). by injection Hx as _ <-.
  - intros Hin%(cap_lock w Hw). destruct o; try (by destruct Hl as [->|Hl]; congruence). by destruct Hl; congruence.
Qed.

(** Without a new child of [p], the children in flight that were not armed again do not grow. *)
Lemma step_grows : (∀ new, created e = Some new → nc_parent new ≠ Some p) → now_fresh w' ≤ now_fresh w.
Proof. intros Hc. simpl. rewrite rearmed_now_snoc. pose proof (first_armed_shifts p (rearmed_now (trace w)) e _ _ step_shifts Hc). simpl. lia. Qed.

Lemma step_grows_one : now_fresh w' ≤ now_fresh w + 1.
Proof. simpl. rewrite rearmed_now_snoc. pose proof (first_armed_shifts_one p (rearmed_now (trace w)) e _ _ step_shifts). simpl. lia. Qed.
End step.

(** Who makes a child of [p] has the lock, and counted room for it. *)
Lemma create_room w t e new :
  cap_inv w → capped (hist (trace w) t) e → limited (trace w) → created e = Some new → nc_parent new = Some p →
  spawn_lock (server w) = Some t ∧ now_fresh w + 1 ≤ M.
Proof.
  intros Hi Hc Hl Hcr Hp. destruct (Hc new Hcr) as (h1 & p' & n & raw & Hh & Hp' & Hraw & Hn). split.
  - apply (cap_lock w Hi). right. rewrite Hh. by eexists _, _, _.
  - assert (p' = p) as -> by congruence. eapply (cap_room w Hi _ _ _ _ n Hh); [done..|].
    assert (max_concurrent (limits_of raw) ≤ M); [|lia]. apply (Hl t), elem_of_hist. rewrite Hh. set_solver.
Qed.

Lemma cap_moves w w' :
  moves exec handle w w' → kept (λ _ _, capped) (λ _ _ _ _, True) w' →
  (limited (trace w) → cap_inv w) → limited (trace w') → cap_inv w'.
Proof.
  intros [|q r|t q r B o k f b s Ht Hx] Hk Hw Hl; [by auto|specialize (Hw Hl); by destruct Hw as [? ? ?]; split|].
  assert (cap_inv w) as Hi.
  { apply Hw. intros t' raw Hin. apply (Hl t'). simpl. set_solver. }
  set (e := Ev (O := Op) o b).
  assert (capped (hist (trace w) t) e) as Hc.
  { destruct (kept_call _ _ _ Hk (trace w) t e []) as (th & _ & HI); [done|]. apply HI. }
  assert (limited (trace w)) as Hlw by (intros t' raw Hin; apply (Hl t'); simpl; set_solver).
  pose proof (λ new, create_room w t e new Hi Hc Hlw) as Hnew.
  split.
  - apply (step_lock w t e s Hi B o f b eq_refl Hx).
  - intros t' h1 e1 e2 n. rewrite (step_hist w t e s). destruct (decide (t = t')) as [<-|Hne].
    + intros Heq Hk1 Hk2 Hn. change [e1; e2] with ([e1] ++ [e2]) in Heq. rewrite app_assoc in Heq.
      apply app_inj_tail in Heq as [_ <-]. unfold e in Hk2. destruct o; cbn in Hk2; try done.
      injection Hk2 as -> ->. cbn [exec] in Hx. unfold query in Hx. destruct (fault f); [done|]. injection Hx as <- <-.
      simpl. rewrite rearmed_now_snoc. cbn. rewrite count_active_family in Hn.
      pose proof (first_armed_active p (rearmed_now (trace w)) (family (server w))). lia.
    + intros Heq Hk1 Hk2 Hn.
      assert (spawn_lock (server w) = Some t') by (apply (cap_lock w Hi); right; rewrite Heq; by eauto 8).
      pose proof (cap_room w Hi _ _ _ _ _ Heq Hk1 Hk2 Hn).
      assert (∀ new, created e = Some new → nc_parent new ≠ Some p) as Hno.
      { intros new Hcr Hp. destruct (Hnew new Hcr Hp). congruence. }
      pose proof (step_grows w t e s B o f b eq_refl Hx [] Hno). simpl in *. lia.
  - pose proof (cap_sum w Hi). pose proof (step_grows_one w t e s B o f b eq_refl Hx []).
    destruct (decide (∃ new, created e = Some new ∧ nc_parent new = Some p)) as [(new & Hcr & Hp)|Hno].
    + destruct (Hnew new Hcr Hp). simpl in *. lia.
    + pose proof (step_grows w t e s B o f b eq_refl Hx [] ltac:(naive_solver)). simpl in *. lia.
Qed.

Lemma cap_play l : limited (trace (run_server h0 l)) → cap_inv (run_server h0 l).
Proof.
  assert (kept (λ _ _, capped) (λ _ _ _ _, True) (run_server h0 l) ∧ (limited (trace (run_server h0 l)) → cap_inv (run_server h0 l)))
    as [_ Hi]; [|exact Hi].
  unfold run_server. apply play_ind.
  - split; [apply (kept_play exec handle (λ _ _, capped) (λ _ _ _ _, True) h0 []); intros q r; apply handle_capped|]. intros _. split; simpl.
    + intros t [(? & ? & Hh & _)|(? & ? & ? & Hh & _)]; by destruct (app_cons_not_nil _ _ _ Hh).
    + intros t h1 e1 e2 n Hh. by destruct (app_cons_not_nil _ _ _ Hh).
    + rewrite first_armed_none. lia.
  - intros v v' Hm [Hk Hi]. assert (kept (λ _ _, capped) (λ _ _ _ _, True) v') as Hk'.
    { apply (kept_moves exec handle _ _ v v'); [intros q r; apply handle_capped|done..]. }
    split; [done|]. by apply (cap_moves v).
Qed.
End schedules.

(** C15: in every schedule, starting from any state: if the limit was never read as more than [M], the
    children of a parent in flight, without those that are in flight because they were armed again after a
    report (each of them counted once, and only until it reports or is made anew), are at most [M], or as many as
    were in flight at the start. *)
Theorem cap_kept `{Store.World, JsonApi} p h M l :
  let w := run_server h l in
  limited M (trace w) →
  count_active p (server w) ≤ Z.max M (count_active p h) + rearmed_active p w.
Proof.
  intros w Hl. rewrite active_split, (count_active_family p h). pose proof (cap_sum _ _ _ _ (cap_play p h M l Hl)).
  unfold w in *. lia.
Qed.
End SubagentProps.
