(* ===== verification/SubagentReports.v ===== *)
(** * Subagents: the reports

    In every schedule the completions of a child report at most as often as the
    child was created or armed again ([reports_bounded]). *)

From S2P Require Import Prelude RustStr Json Pipeline Store StoreProps Dispatch Programs Turns Resume Subagents Restarts SubagentProps.

Module SubagentReports.
Export SubagentProps.SubagentProps.

(** ** Claims *)

Definition in_flight_now (c : string) (m : gmap string (option string * bool)) : bool :=
  match m !! c with Some (Some _, false) => true | _ => false end.

(** The calls that made a child of id [c], stamped it and cleared the stamp. *)
Definition creates (c : string) (e : Event Op) : bool := match created e with Some new => nc_id new == c | None => false end.
Definition claims (c : string) (e : Event Op) : bool := claimed e == Some c.
Definition unclaims (c : string) (e : Event Op) : bool := rearmed e == Some c.

Lemma in_flight_insert c m k v :
  in_flight_now c (<[k := v]> m) = if decide (k = c) then match v with (Some _, false) => true | _ => false end else in_flight_now c m.
Proof. unfold in_flight_now. destruct (decide (k = c)) as [<-|Hne]; [by rewrite lookup_insert_eq|by rewrite lookup_insert_ne]. Qed.

Lemma claims_shifts c e m m' :
  shifts e m m' →
  (Nat.b2n (claims c e) + Nat.b2n (in_flight_now c m') ≤
   Nat.b2n (in_flight_now c m) + Nat.b2n (creates c e) + Nat.b2n (unclaims c e))%nat.
Proof.
  destruct e as [B o b]. intros Hs. unfold claims, creates, unclaims.
  destruct o; cbn [shifts created claimed rearmed is_ok] in *; try (subst m'; simpl; lia).
  - destruct b as [r|e]; [|subst; simpl; lia]. destruct Hs as [_ ->]. rewrite in_flight_insert. simpl.
    destruct (decide _) as [->|Hne]; [rewrite (bool_decide_true (c = c)) by done|]; [|simpl; lia]. destruct (nc_parent new); simpl; lia.
  - destruct b as [[]|e]; [|subst; simpl; lia..]. destruct Hs as (p & Hp & ->). rewrite in_flight_insert.
    destruct (decide _) as [->|Hne].
    + unfold in_flight_now. rewrite Hp. simpl. destruct (bool_decide _); simpl; lia.
    + rewrite bool_decide_false by congruence. simpl. lia.
  - destruct b as [[]|e]; [|subst; simpl; lia..]. destruct Hs as (p & Hp & ->). rewrite in_flight_insert.
    destruct (decide _) as [->|Hne]; [rewrite (bool_decide_true (Some c = Some c)) by done|simpl; lia].
    destruct p; simpl; lia.
  - destruct Hs as [->| ->]; [simpl; lia|]. unfold in_flight_now. destruct (decide (sid = c)) as [->|Hne].
    + rewrite lookup_delete_eq. simpl. lia.
    + rewrite lookup_delete_ne by done. simpl. lia.
Qed.

Section claims.
Context `{Store.World, JsonApi} (c : string) (h0 : Host).

(** Every claim uses up the state in flight, which only an insert or a re-arm
    gives back. *)
Definition claims_paid (w : World) : Prop :=
  (count (claims c) (trace w) + Nat.b2n (in_flight_now c (family (server w))) ≤
   Nat.b2n (in_flight_now c (family h0)) + count (creates c) (trace w) + count (unclaims c) (trace w))%nat.

Lemma claims_bounded l : claims_paid (run_server h0 l).
Proof.
  unfold run_server. apply play_ind; [unfold claims_paid; simpl; lia|].
  intros v v' [|q r|t q r B o k f b s Ht Hx] Hv; [done|done|].
  pose proof (claims_shifts c _ _ _ (exec_shifts _ _ _ _ _ _ _ Hx)) as Hc. unfold claims_paid in *. simpl.
  rewrite !count_snoc. unfold Nat.b2n in *. lia.
Qed.
End claims.

(** ** Rows have the id they are found under *)

Definition keyed (d : Store.Db) : Prop := map_Forall (λ k s, Store.s_id s = k) (Store.sessions d).

Section keyed.
Context `{Store.World}.

Lemma keyed_modify f : (∀ d, Store.sessions (f d) = Store.sessions d) → Store.Preserves keyed (Store.modify f).
Proof. intros Hf. apply Store.preserves_modify. unfold keyed. intros d. by rewrite Hf. Qed.

Ltac keys := Store.preserve; try (apply keyed_modify; done).

#[local] Instance keyed_tick : Store.Preserves keyed Store.tick.
Proof. by intros d. Qed.
#[local] Instance keyed_transaction {A} (m : Store.M A) : Store.Preserves keyed m → Store.Preserves keyed (Store.transaction m).
Proof. intros Hm d Hd. specialize (Hm d Hd). unfold Store.transaction. by destruct (m d) as [[a|e] d']. Qed.

#[export] Instance keyed_append s k d : Store.Preserves keyed (Store.append_event s k d).
Proof.
  unfold Store.append_event. generalize Store.APPEND_SEQ_MAX_ATTEMPTS. intros n.
  induction n; cbn; unfold Store.uuid, Store.millis; keys.
Qed.

Lemma sever_id step s : Store.s_id (Store.sever step s) = Store.s_id s.
Proof. unfold Store.sever. by repeat case_match. Qed.

Lemma sever_keyed step l (m : gmap string Store.Session) :
  map_Forall (λ k s, Store.s_id s = k) m →
  map_Forall (λ k s, Store.s_id s = k) (foldl (λ m sid, alter (Store.sever step) sid m) m l).
Proof.
  revert m. induction l as [|sid l IH]; intros m Hm; [done|]. apply IH. intros k s Hs.
  rewrite lookup_alter_Some in Hs. destruct Hs as [(<- & s' & Hs' & ->)|[_ Hs]]; [rewrite sever_id|]; by apply Hm.
Qed.

#[export] Instance keyed_update_card c u : Store.Preserves keyed (Store.update_card c u).
Proof.
  unfold Store.update_card, Store.stamp_completed_at, Store.sever_worker_resume_link, Store.close_runs, Store.now.
  keys; apply Store.preserves_modify; intros d; apply sever_keyed.
Qed.

#[export] Instance keyed_create i w p c st m : Store.Preserves keyed (Store.create_session i w p c st m).
Proof.
  unfold Store.create_session. keys. apply Store.preserves_modify. intros d Hd. by apply map_Forall_insert_2.
Qed.

#[export] Instance keyed_delete i : Store.Preserves keyed (Store.delete_session i).
Proof. unfold Store.delete_session. keys. apply Store.preserves_modify. intros d Hd. by apply map_Forall_delete. Qed.

Lemma stmt_keyed {A} f (m : Store.M A) h r h' :
  Store.Preserves keyed m → stmt f m h = Some (r, h') → keyed (db h) → keyed (db h').
Proof.
  unfold stmt. intros Hm. destruct (fault f) as [e|]; [by intros [= _ <-]|].
  intros Hx Hd. pose proof (Hm (db h) Hd) as Hk. destruct (m (db h)) as [r' d]. by injection Hx as _ <-.
Qed.

Lemma update_extra_db sid m g f h b h' : update_extra sid m g f h = Some (b, h') → db h' = db h.
Proof. unfold update_extra. intros. by repeat case_match; simplify_eq. Qed.

Lemma exec_keyed B t (o : Op B) f h b h' : exec B t o f h = Some (b, h') → keyed (db h) → keyed (db h').
Proof.
  destruct o; cbn [exec]; intros He;
    try (by injection He as _ <-); try (by apply query_same in He as ->);
    try (by eapply stmt_keyed; [|exact He]; apply _); try (by rewrite (update_extra_db _ _ _ _ _ _ _ He)).
  - destruct (spawn_lock h); [done|]. by injection He as _ <-.
  - injection He as _ <-. by case_bool_decide.
  - unfold create_child in He. destruct (stmt _ _ _) as [[[s|e] h1]|] eqn:Es; [| |done];
      injection He as _ <-; simpl; eapply stmt_keyed; [|exact Es| |exact Es]; apply _.
  - unfold delete_row in He. destruct (stmt _ _ _) as [[[s|e] h1]|] eqn:Es; [| |done];
      injection He as _ <-; simpl; eapply stmt_keyed; [|exact Es| |exact Es]; apply _.
Qed.
End keyed.

(** ** One completion *)

(** The session an event is written to. *)
Definition written (e : Event Op) : option string :=
  match e with
  | @Ev _ _ o b =>
    match o in Op B return option string with AppendEvent sid _ _ => Some sid | _ => None end
  end.
(** A row that was read has the id it was asked for. *)
Definition honest (e : Event Op) : Prop :=
  match e with
  | @Ev _ _ o b =>
    match o in Op B return B → Prop with
    | GetSession sid => λ b, match b with Ok (Some r) => row_id r = sid | _ => True end | _ => λ _, True end b
  end.

(** What the completion of a turn of [c] wrote before it writes: nothing, after a
    claim of [c]; and it writes to the parent of the row it read. *)
Definition reports_once (c : string) (h : list (Event Op)) (e : Event Op) : Prop :=
  Forall honest h → ∀ target, written e = Some target →
    Forall (λ e', written e' = None) h ∧ Exists (λ e', claims c e' = true) h ∧
    ∃ r, Ev (O := Op) (GetSession c) (Ok (Some r)) ∈ h ∧ parent (extra r) = Some target.

Section completion.
Context `{JsonApi} (c : string).

Abbreviation any := (λ (_ : list (Event Op)) _, True).
Abbreviation silent := (only (λ e, written e = None)).
Abbreviation quiet h := (Forall (λ e', written e' = None) h).

Lemma compose_silent r b e : silent (compose r b e).
Proof. unfold compose, final_reply, load_limits. barren. Qed.
#[local] Hint Resolve compose_silent : barren.

Lemma silent_paths {A} (Q : list (Event Op) → A → Prop) h (m : Prog Op A) :
  silent m → quiet h → (∀ h' a, h ⊆ h' → quiet h' → Q h' a) → paths (reports_once c) Q h m.
Proof.
  intros Hm Hq HQ. assert (∀ h', h ⊆ h' → quiet h' → paths (reports_once c) Q h' m) as Hp; [|by apply Hp].
  clear Hq. induction m as [a|C o k IH]; intros h' Hs Hq; [by apply HQ|].
  intros b. destruct (Hm b) as [Hc Hk]. split; [intros _ target; congruence|].
  apply IH; [done|set_solver|]. apply Forall_app. by split; [|constructor].
Qed.

Lemma silent_then {A B} (g : A → P B) h (m : P A) :
  silent m → quiet h → (∀ h' a, h ⊆ h' → quiet h' → paths (reports_once c) any h' (g a)) →
  paths (reports_once c) any h (m ≫= g).
Proof. intros Hm Hq Hg. apply paths_h_bind, silent_paths; [done..|]. intros h' [a|e] Hs Hq'; [by apply Hg|done]. Qed.

Lemma dishonest {A} h (m : Prog Op A) : ¬ Forall honest h → paths (reports_once c) any h m.
Proof.
  revert h. induction m as [a|B o k IH]; intros h Hd; [done|]. intros b. split; [done|]. apply IH.
  intros [Hh _]%Forall_app. done.
Qed.

(** A read of a row, which is that of the session asked for. *)
Lemma read_row_then {B} (g : option Row → P B) sid h :
  quiet h →
  (∀ h', h ⊆ h' → quiet h' → paths (reports_once c) any h' (g None)) →
  (∀ h' r, h ⊆ h' → quiet h' → row_id r = sid → Ev (O := Op) (GetSession sid) (Ok (Some r)) ∈ h' →
    paths (reports_once c) any h' (g (Some r))) →
  paths (reports_once c) any h (read (GetSession sid) ≫= g).
Proof.
  intros Hq Hn Hr. unfold read. apply paths_h_bind, paths_h_bind, paths_infallible, paths_call. intros b. split; [done|].
  cbn [or_err mret h_ret paths].
  assert (quiet (h ++ [Ev (O := Op) (GetSession sid) b])) as Hq' by (apply Forall_app; by split; [|constructor]).
  destruct b as [[r|]|e]; [|apply Hn; [set_solver|done]..].
  destruct (decide (row_id r = sid)) as [Hid|Hid]; [apply Hr; [set_solver|done|done|set_solver]|].
  apply dishonest. intros Hf. rewrite Forall_forall in Hf. apply Hid. by apply (Hf (Ev (O := Op) (GetSession sid) (Ok (Some r)))); set_solver.
Qed.

Lemma deliver_once p text h r :
  quiet h → Exists (λ e, claims c e = true) h → Ev (O := Op) (GetSession c) (Ok (Some r)) ∈ h → parent (extra r) = Some p →
  paths (reports_once c) any h (deliver_to_parent p text).
Proof.
  intros Hq Hc Hr Hp. unfold deliver_to_parent, notify_session. apply paths_ignore, paths_h_bind, paths_infallible, paths_call.
  intros b. split; [by intros _ target [= <-]; eauto|]. cbn [or_err]. apply paths_h_bind, paths_h_bind, paths_infallible, paths_call.
  intros b'. split; [done|]. by destruct b.
Qed.

Lemma claim_paths r p h :
  row_id r = c → quiet h →
  paths (reports_once c) (λ h' won, h ⊆ h' ∧ quiet h' ∧ (won = Ok true → Exists (λ e, claims c e = true) h')) h (claim_child r p).
Proof.
  intros Hid Hq. unfold claim_child. rewrite Hid. apply paths_h_bind, silent_paths; [barren|done|]. intros h1 [now|e] Hs1 Hq1; [|done].
  apply paths_h_bind, paths_infallible, paths_call. intros b. split; [done|]. cbn [or_err].
  assert (quiet (h1 ++ [Ev (O := Op) (ClaimDone c now) b])) as Hq2 by (apply Forall_app; by split; [|constructor]).
  destruct b as [[]|e]; [|split_and!; [set_solver|done|done]..].
  apply paths_h_bind, silent_paths; [barren|done|]. intros h3 [row|e] Hs3 Hq3; [|split_and!; [set_solver|done|done]].
  cbn. split_and!; [set_solver|done|]. intros _. apply Exists_exists. exists (Ev (O := Op) (ClaimDone c now) (Ok true)).
  split; [apply Hs3; set_solver|]. unfold claims. simpl. by rewrite bool_decide_true.
Qed.

(** A report that a claim allowed. *)
Lemma claim_once r b error busy h (g : option (string * string) → P unit) :
  row_id r = c → quiet h →
  (∀ h', h ⊆ h' → quiet h' → paths (reports_once c) any h' (g None)) →
  (∀ h' p text, h ⊆ h' → quiet h' → Exists (λ e, claims c e = true) h' → parent (extra r) = Some p →
    paths (reports_once c) any h' (g (Some (p, text)))) →
  paths (reports_once c) (or_err (reports_once c) any g) h (claim_and_compose r b error busy).
Proof.
  intros Hid Hq Hn Hs. unfold claim_and_compose.
  destruct (parent (extra r)) as [p|] eqn:Ep; [|by apply Hn]. destruct (b && busy); [by apply Hn|].
  apply paths_h_bind. eapply paths_mono; [|by apply claim_paths]. intros h1 [[]|e] (Hs1 & Hq1 & Hw); [|by apply Hn|done].
  cbn [or_err]. apply paths_h_bind, silent_paths; [apply compose_silent|done|].
  intros h2 [text|e] Hs2 Hq2; [|done]. cbn. apply Hs; [set_solver|done| |done].
  specialize (Hw eq_refl). rewrite Exists_exists in *. destruct Hw as (e & Hin & He). exists e. auto.
Qed.

Lemma done_once r b auth error h :
  row_id r = c → quiet h → Ev (O := Op) (GetSession c) (Ok (Some r)) ∈ h →
  paths (reports_once c) any h (handle_subagent_done r b auth error).
Proof.
  intros Hid Hq Hr. unfold handle_subagent_done, defer_auth_crash, auth_grace_over, claim_after_auth_grace.
  destruct (negb b && auth).
  - rewrite Hid. apply silent_then; [unfold auth_failure_baseline; barren|done|]. intros h1 baseline Hs1 Hq1.
    apply read_row_then; [done|by intros|]. intros h2 r' Hs2 Hq2 Hid' Hr'. rewrite Hid'.
    apply paths_h_bind, paths_h_bind, silent_paths; [unfold auth_failure_baseline; barren|done|].
    intros h3 [now|e] Hs3 Hq3; [|done]. cbn [or_err]. destruct (later_start now baseline); [done|].
    apply claim_once; [done|done|by intros|]. intros h4 p text Hs4 Hq4 Hc4 Hp.
    apply silent_then; [barren|done|]. intros h5 _ Hs5 Hq5. apply silent_then; [barren|done|]. intros h6 _ Hs6 Hq6.
    apply (deliver_once p text h6 r'); [done| |set_solver|done].
    rewrite Exists_exists in *. destruct Hc4 as (e & Hin & He). exists e. auto.
  - apply silent_then; [barren|done|]. intros h1 queued Hs1 Hq1. destruct (negb b && _); [done|].
    apply silent_then; [barren|done|]. intros h2 _ Hs2 Hq2. apply silent_then; [barren|done|]. intros h3 busy Hs3 Hq3.
    apply paths_h_bind, claim_once; [done|done|by intros|]. intros h4 p text Hs4 Hq4 Hc4 Hp.
    apply (deliver_once p text h4 r); [done|done|set_solver|done].
Qed.

Lemma turn_once b auth error : paths (reports_once c) any [] (turn_done c b auth error).
Proof.
  unfold turn_done. apply read_row_then; [done|by intros|]. intros h r _ Hq Hid Hr.
  destruct (negb _ && _); [by apply done_once|done].
Qed.
End completion.

(** ** All completions *)

Definition about (c : string) (q : Request) : bool :=
  match q with TurnDone sid _ _ _ => sid == c | _ => false end.

(** Of the threads that handle the end of a turn of [c]. *)
Definition for_child (c : string) (w : World) (t : nat) : bool :=
  match threads w !! t with Some th => about c (request th) | None => false end.

Definition reports (c : string) (w : World) : nat :=
  length (List.filter (λ x, for_child c w x.1 && is_some (written x.2)) (trace w)).

Lemma count_own (A : nat → Event Op → bool) t tr :
  length (List.filter (λ x, A x.1 x.2) tr) =
  (length (List.filter (A t) (hist tr t)) + length (List.filter (λ x, A x.1 x.2) (List.filter (λ x, negb (x.1 =? t)%nat) tr)))%nat.
Proof.
  induction tr as [|[t' e] tr IH]; [done|]. change (?x :: tr) with ([x] ++ tr). rewrite hist_app, !List.filter_app, !length_app, IH.
  simpl. destruct (Nat.eqb_spec t' t) as [->|Hne]; simpl.
  - rewrite hist_self. simpl. destruct (A t e); simpl; lia.
  - rewrite hist_other by done. simpl. destruct (A t' e); simpl; lia.
Qed.

Lemma hist_rest t t' (tr : list (nat * Event Op)) :
  hist (List.filter (λ x, negb (x.1 =? t)%nat) tr) t' = if decide (t' = t) then [] else hist tr t'.
Proof.
  induction tr as [|[t1 e] tr IH]; [by case_decide|]. simpl. change (?x :: tr) with ([x] ++ tr). rewrite hist_app.
  destruct (Nat.eqb_spec t1 t) as [->|Hne]; simpl.
  - rewrite IH. case_decide; [done|]. by rewrite hist_other.
  - change (hist ([(t1, e)] ++ List.filter (λ x, negb (x.1 =? t)%nat) tr) t' = if decide (t' = t) then [] else hist [(t1, e)] t' ++ hist tr t').
    rewrite hist_app, IH. case_decide as Ht; [|done]. subst t'. by rewrite hist_other.
Qed.

(** Threads that each have no more calls of one kind than of another. *)
Lemma count_threads (A B : nat → Event Op → bool) (tr : list (nat * Event Op)) :
  (∀ t, length (List.filter (A t) (hist tr t)) ≤ length (List.filter (B t) (hist tr t)))%nat →
  (length (List.filter (λ x, A x.1 x.2) tr) ≤ length (List.filter (λ x, B x.1 x.2) tr))%nat.
Proof.
  remember (length tr) as n eqn:Hn. assert (length tr ≤ n)%nat as Hle by lia. clear Hn.
  revert tr Hle. induction n as [|n IH]; intros tr Hle Ht; [by destruct tr; [|simpl in Hle; lia]|].
  destruct tr as [|[t e] tr]; [done|]. set (l := (t, e) :: tr) in *.
  rewrite (count_own A t l), (count_own B t l). specialize (Ht t) as Ht0. apply Nat.add_le_mono; [done|]. apply IH.
  - subst l. simpl. rewrite Nat.eqb_refl. simpl. pose proof (filter_length_le (λ x : nat * Event Op, negb (x.1 =? t)%nat) tr).
    simpl in Hle. lia.
  - intros t'. rewrite hist_rest. case_decide; [done|apply Ht].
Qed.

Section schedules.
Context `{Store.World, JsonApi} (c : string) (h0 : Host) (Hk : keyed (db h0)).

Definition once_each (q : Request) (_ : unit) (h : list (Event Op)) (e : Event Op) : Prop :=
  about c q = true → reports_once c h e.

Lemma handle_once q u : paths (once_each q u) (λ _ _, True) [] (handle u q).
Proof.
  destruct (about c q) eqn:E.
  - destruct q; try done. simpl in E. apply bool_decide_eq_true in E as ->. destruct u.
    assert (∀ h m, paths (reports_once c) (λ _ _, True) h m →
      paths (once_each (TurnDone c completed auth_failed error) ()) (λ (_ : list (Event Op)) (_ : Result string unit), True) h m) as Hi.
    { intros h m. revert h. induction m as [a|B o k IH]; intros h; [done|]. intros Hp b. destruct (Hp b) as [H2 H3].
      split; [by intros _|by apply IH]. }
    apply Hi, turn_once.
  - generalize (handle u q), (@nil (Event Op)). intros m. induction m as [a|B o k IH]; intros h; [done|].
    intros b. split; [intros ?; congruence|apply IH].
Qed.

Lemma server_once l : kept once_each (λ _ _ _ _, True) (run_server h0 l).
Proof. apply kept_play. intros q r. apply handle_once. Qed.

Lemma exec_honest B t (o : Op B) f h b h' : keyed (db h) → exec B t o f h = Some (b, h') → honest (Ev (O := Op) o b).
Proof.
  intros Hd. destruct o; cbn [exec]; try done. unfold query. destruct (fault f); intros [= <- _]; [done|]. simpl.
  unfold get_row. rewrite lookup_rows. destruct (Store.sessions (db h) !! sid) as [s|] eqn:E; [|done]. by apply Hd.
Qed.

Lemma server_honest l : keyed (db (server (run_server h0 l))) ∧ Forall (λ x, honest x.2) (trace (run_server h0 l)).
Proof.
  unfold run_server. apply play_ind; [by split|]. intros v v' [|q r|t q r B o k f b s Ht Hx] [Hd Hh]; [done|done|]. simpl. split.
  - by eapply exec_keyed.
  - apply Forall_app. split; [done|]. constructor; [|done]. simpl. by eapply exec_honest.
Qed.

Lemma hist_honest l tr tr' t : trace (run_server h0 l) = tr ++ tr' → Forall honest (hist tr t).
Proof.
  intros Htr. destruct (server_honest l) as [_ Hh]. rewrite Htr, Forall_app in Hh. destruct Hh as [Hh _].
  apply Forall_forall. intros e He. rewrite Forall_forall in Hh. apply (Hh (t, e)), elem_of_hist, He.
Qed.

(** A completion writes once at most, and only after its claim. *)
Lemma thread_once l t tr tr' :
  trace (run_server h0 l) = tr ++ tr' → for_child c (run_server h0 l) t = true →
  (length (List.filter (λ e, is_some (written e)) (hist tr t)) ≤ length (List.filter (claims c) (hist tr t)))%nat.
Proof.
  intros Htr Hf. revert tr' Htr. induction tr as [|[t1 e] tr IH] using rev_ind; intros tr' Htr; [done|].
  rewrite <- app_assoc in Htr. specialize (IH _ Htr). rewrite hist_app.
  destruct (decide (t1 = t)) as [->|Hne]; [|by rewrite hist_other, app_nil_r]. rewrite hist_self.
  rewrite !List.filter_app, !length_app. simpl. destruct (written e) as [target|] eqn:Ew; simpl; [|lia].
  destruct (kept_call _ _ _ (server_once l) tr t e tr' Htr) as (th & Hth & HI).
  unfold for_child in Hf. rewrite Hth in Hf. destruct (HI Hf) with target as (Hq & Hc & _); [by eapply hist_honest|done|].
  assert (List.filter (λ e, is_some (written e)) (hist tr t) = []) as ->.
  { clear -Hq. induction (hist tr t) as [|e' h IHh]; [done|]. inversion_clear Hq as [|? ? He' Hq']. simpl. rewrite He'. by apply IHh. }
  assert (1 ≤ length (List.filter (claims c) (hist tr t)))%nat.
  { clear -Hc. induction Hc as [e' h He'|e' h He' IHe]; simpl; [rewrite He'; simpl; lia|]. destruct (claims c e'); simpl; lia. }
  simpl. lia.
Qed.
End schedules.

(** C16: in every schedule, the completions of the turns of a child write to a session at most as often as
    the child was in flight at the start, created, or armed again, however many completions arrive and however
    they interleave; and what they write goes to the parent of the child. *)
Theorem reports_bounded `{Store.World, JsonApi} c h l :
  keyed (db h) →
  let w := run_server h l in
  (reports c w ≤ Nat.b2n (in_flight_now c (family h)) + count (creates c) (trace w) + count (unclaims c) (trace w))%nat ∧
  (∀ t e target, (t, e) ∈ trace w → for_child c w t = true → written e = Some target →
    ∃ r, (t, Ev (O := Op) (GetSession c) (Ok (Some r))) ∈ trace w ∧ parent (extra r) = Some target).
Proof.
  intros Hk w. split.
  - etrans; [|pose proof (claims_bounded c h l) as Hc; unfold claims_paid in Hc; fold w in Hc; etrans; [|exact Hc]; apply Nat.le_add_r].
    apply (count_threads (λ t e, for_child c w t && is_some (written e)) (λ _, claims c)). intros t.
    destruct (for_child c w t) eqn:Hf; simpl.
    + apply (thread_once c h Hk l t (trace w) []); [by rewrite app_nil_r|done].
    + etrans; [|apply Nat.le_0_l]. induction (hist (trace w) t); [done|]. done.
  - intros t e target Hin Hf Hw. apply list_elem_of_split in Hin as (tr & tr' & Htr).
    destruct (kept_call _ _ _ (server_once c h l) tr t e tr' Htr) as (th & Hth & HI).
    fold w in Hth. unfold for_child in Hf. rewrite Hth in Hf. destruct (HI Hf) with target as (_ & _ & r & Hr & Hp); [|done|].
    + by eapply hist_honest.
    + exists r. split; [|done]. rewrite Htr. apply elem_of_app. left. by apply elem_of_hist.
Qed.
End SubagentReports.
