(* ===== verification/RestartProps.v ===== *)
(** * The plan of a restart

    Run without a fault, the plan resumes, leaves to a lost task or reports every
    child that was in flight ([plan_accounts]). *)

From S2P Require Import Prelude RustStr Json Pipeline Store StoreProps Dispatch Programs Turns Resume Subagents Restarts SubagentProps SubagentReports.

Module RestartProps.
Export SubagentReports.SubagentReports.

(** ** Programs that only look *)

(** Calls whose answer depends on the database, the projects and the settings. *)
Definition looks {B} (o : Op B) : bool :=
  match o with
  | NowText | NowMillis | GetStatus _ | EventsTail _ _ | LatestOfKinds _ _ | LimitsSetting => true
  | _ => false
  end.

Fixpoint looker {A} (m : P A) : Prop :=
  match m with Ret r => is_ok r = true | Vis o k => looks o = true ∧ ∀ b, looker (k b) end.

Lemma looker_bind {A B} (m : P A) (g : A → P B) : looker m → (∀ a, looker (g a)) → looker (m ≫= g).
Proof.
  intros Hm Hg. unfold mbind, h_bind. induction m as [r|C o k IH]; simpl.
  - destruct r; [apply Hg|done].
  - destruct Hm as [Ho Hk]. split; [done|]. intros b. apply IH, Hk.
Qed.

Ltac looking := repeat first
  [ lazymatch goal with
    | |- looker (@mbind _ h_bind _ _ _ _) => apply looker_bind; [|intros ?]
    | |- looker (get _) => split; [reflexivity|by intros ?]
    | |- looker (mret _) => exact eq_refl
    | |- looker (if ?c then _ else _) => destruct c
    | |- looker (match ?x with _ => _ end) => destruct x
    end
  | progress unfold read ].

Section lookers.
Context `{JsonApi}.

Lemma blocked_looks r : looker (wake_blocked_by_project r).
Proof. unfold wake_blocked_by_project. looking. Qed.
Lemma blocker_looks r : looker (resume_blocker r).
Proof.
  unfold resume_blocker, stopped_by_user, idle_before_restart. looking; apply blocked_looks.
Qed.
Lemma compose_looks r b e : looker (compose r b e).
Proof. unfold compose, final_reply, load_limits. looking. Qed.
Lemma lifecycle_looks sid : looker (lifecycle_seq sid).
Proof. unfold lifecycle_seq. looking. Qed.
End lookers.

Section plan.
Context `{Store.World, JsonApi} (f : Fate) (Hf : fault f = None) (h : Host).

(** The states of the plan differ in the stamps. *)
Abbreviation at_ x := (set_extras x h).

Lemma looks_same B (o : Op B) x : looks o = true → ∃ b, exec B 0 o f h = Some (b, h) ∧ exec B 0 o f (at_ x) = Some (b, at_ x).
Proof. destruct o; try done; intros _; cbn [exec]; unfold query; rewrite ?Hf; by eexists. Qed.

Definition value {A} (m : P A) (d : A) : A := match alone exec 0 f m h with Some (Ok a, _) => a | _ => d end.

Lemma looker_value {A} (m : P A) d x : looker m → alone exec 0 f m (at_ x) = Some (Ok (value m d), at_ x).
Proof.
  unfold value. intros Hm. assert (∃ a, alone exec 0 f m h = Some (Ok a, h) ∧ alone exec 0 f m (at_ x) = Some (Ok a, at_ x)) as (a & -> & ?); [|done].
  induction m as [r|B o k IH]; simpl in Hm.
  - destruct r as [a|e]; [|done]. by exists a.
  - destruct Hm as [Ho Hk]. destruct (looks_same B o x Ho) as (b & E & E'). destruct (IH b (Hk b)) as (a & Ha & Ha').
    exists a. split; [rewrite <- Ha|rewrite <- Ha']; unfold alone; fold (@alone Op Host Fate exec); by rewrite ?E, ?E'.
Qed.

(** ** Total runs *)

Definition runs {A} (m : P A) (s : Host) (Q : A → Host → Prop) : Prop :=
  ∃ a s', alone exec 0 f m s = Some (Ok a, s') ∧ Q a s'.

Lemma runs_ret {A} (a : A) s Q : Q a s → runs (mret a) s Q.
Proof. intros HQ. by exists a, s. Qed.

Lemma runs_bind {A B} (m : P A) (g : A → P B) s Q : runs m s (λ a s', runs (g a) s' Q) → runs (m ≫= g) s Q.
Proof.
  intros (a & s' & Hm & b & s2 & Hg & HQ). exists b, s2. split; [|done]. by rewrite alone_h_bind, Hm.
Qed.

Lemma runs_look {A} (m : P A) d x Q : looker m → Q (value m d) (at_ x) → runs m (at_ x) Q.
Proof. intros Hm HQ. exists (value m d), (at_ x). split; [by apply looker_value|done]. Qed.

Lemma runs_mono {A} (m : P A) s (Q Q' : A → Host → Prop) : (∀ a s', Q a s' → Q' a s') → runs m s Q → runs m s Q'.
Proof. intros HQ (a & s' & Hm & Ha). exists a, s'. auto. Qed.

(** The invariant of a loop, indexed by the elements behind it. *)
Lemma runs_fold {A B} (g : A → B → P A) (I : list B → A → Host → Prop) l a s :
  (∀ D b a s, b ∈ l → I D a s → runs (g a b) s (I (D ++ [b]))) → I [] a s → runs (fold_prog g a l) s (I l).
Proof.
  intros Hstep HI. assert (∀ l1 l2 a s, l = l1 ++ l2 → I l1 a s → runs (fold_prog g a l2) s (I l)) as Hall; [|by apply (Hall [])].
  clear a s HI. intros l1 l2. revert l1. induction l2 as [|b l2 IH]; intros l1 a s Hl HI; cbn [fold_prog].
  - apply runs_ret. by rewrite Hl, app_nil_r.
  - apply runs_bind. eapply runs_mono; [|apply (Hstep l1); [rewrite Hl; set_solver|done]].
    intros a' s' HI'. apply (IH (l1 ++ [b])); [by rewrite <- app_assoc|done].
Qed.

(** ** What becomes of a child *)

Context (interrupted : list string) (lost : gset string).

Definition verdict (r : Row) : option string := value (resume_blocker r) None.
Definition last_end (r : Row) : option LogEvent := value (read (LatestOfKinds (row_id r) ["agent-end"])) None.
Definition ended_badly (e : LogEvent) : bool := match parsed e with Some d => crashed_data d | None => false end.

(** It is resumed, or its lost task wakes it. *)
Definition goes_on (r : Row) : bool :=
  if bool_decide (row_id r ∈ interrupted) then negb (is_some (verdict r)) else bool_decide (row_id r ∈ lost).

(** What its parent is told otherwise. *)
Definition stop_text (r : Row) : string :=
  if bool_decide (row_id r ∈ interrupted) then cannot_resume_notice r (default "" (verdict r))
  else match last_end r with
  | None => cannot_resume_notice r "its first turn never started"
  | Some e => if ended_badly e then cannot_resume_notice r "its last turn crashed before the restart"
              else value (compose r true None) ""
  end.

Definition texts_of (N : gmap string (list string)) (p : string) : list string := default [] (N !! p).
Definition extra_at (x : gmap string Extra) (sid : string) : Extra := default no_extra (x !! sid).
Definition stamped (x : gmap string Extra) (sid : string) : Prop := is_some (completed_at (extra_at x sid)) = true.

(** Every row is as it was, or a child that stops: stamped, and its parent told. *)
Definition settled (N : gmap string (list string)) (x : gmap string Extra) (r : Row) : Prop :=
  in_flight (extra r) = true ∧ goes_on r = false ∧ extra_at x (row_id r) = stamp (Some (now_text f)) (extra r) ∧
  ∀ p, parent (extra r) = Some p → is_Some (get_row p h) → stop_text r ∈ texts_of N p.
Definition planned (N : gmap string (list string)) (x : gmap string Extra) : Prop :=
  ∀ sid r, get_row sid h = Some r → extra_at x sid = extra r ∨ settled N x r.

Context (Hkey : keyed (db h)).

Lemma row_key sid r : get_row sid h = Some r → row_id r = sid.
Proof.
  unfold get_row. rewrite lookup_rows. destruct (Store.sessions (db h) !! sid) as [s|] eqn:E; [|done].
  intros [= <-]. by apply Hkey.
Qed.

Lemma row_at x sid : get_row sid (at_ x) = (λ r, mkRow (session r) (extra_at x sid)) <$> get_row sid h.
Proof. unfold get_row. rewrite !lookup_rows. simpl. by destruct (Store.sessions (db h) !! sid). Qed.

Lemma exists_at x p : is_some (get_row p (at_ x)) = is_some (get_row p h).
Proof. rewrite row_at. by destruct (get_row p h). Qed.

Lemma extra_insert x sid y k : extra_at (<[sid := y]> x) k = if decide (sid = k) then y else extra_at x k.
Proof. unfold extra_at. destruct (decide (sid = k)) as [<-|Hne]; [by rewrite lookup_insert_eq|by rewrite lookup_insert_ne]. Qed.

Lemma stamped_insert x sid y k : stamped x k → stamped (<[sid := stamp (Some (now_text f)) y]> x) k.
Proof. unfold stamped. rewrite extra_insert. by case_decide. Qed.

(** ** The claim *)

Definition claimed_at (x : gmap string Extra) (r : Row) : gmap string Extra :=
  if in_flight (extra r) then <[row_id r := stamp (Some (now_text f)) (extra r)]> x else x.

Lemma runs_claim x r p (Q : bool → Host → Prop) :
  get_row (row_id r) (at_ x) = Some r →
  Q (in_flight (extra r) && is_some (get_row p h)) (at_ (claimed_at x r)) → runs (claim_child r p) (at_ x) Q.
Proof.
  intros Hr HQ. unfold claim_child, claimed_at in *. apply runs_bind. exists (now_text f), (at_ x). split; [done|].
  apply runs_bind. exists (Ok (in_flight (extra r))), (at_ (if in_flight (extra r) then <[row_id r := stamp (Some (now_text f)) (extra r)]> x else x)).
  split.
  - unfold get, infallible, call, alone. simpl. unfold update_extra. rewrite Hf, Hr. by destruct (in_flight (extra r)).
  - destruct (in_flight (extra r)); simpl in HQ; [|by apply runs_ret].
    apply runs_bind. eexists (Ok (get_row p (at_ _))), _. split; [unfold get, infallible, call, alone; simpl; unfold query; by rewrite Hf|].
    apply runs_ret. pose proof (exists_at (<[row_id r := stamp (Some (now_text f)) (extra r)]> x) p) as He.
    rewrite <- He in HQ. by destruct (get_row p (at_ _)).
Qed.

Lemma runs_notice x r p reason (Q : option (string * string) → Host → Prop) :
  get_row (row_id r) (at_ x) = Some r → parent (extra r) = Some p →
  Q (if in_flight (extra r) && is_some (get_row p h) then Some (p, cannot_resume_notice r reason) else None) (at_ (claimed_at x r)) →
  runs (claim_for_notice r reason) (at_ x) Q.
Proof.
  intros Hr Hp HQ. unfold claim_for_notice. rewrite Hp. apply runs_bind, runs_claim; [done|]. by apply runs_ret.
Qed.

Lemma runs_finished x r p (Q : option (string * string) → Host → Prop) :
  get_row (row_id r) (at_ x) = Some r → parent (extra r) = Some p →
  Q (if in_flight (extra r) && is_some (get_row p h) then Some (p, value (compose r true None) "") else None) (at_ (claimed_at x r)) →
  runs (claim_and_compose r true None false) (at_ x) Q.
Proof.
  intros Hr Hp HQ. unfold claim_and_compose. rewrite Hp. cbn [andb]. apply runs_bind, runs_claim; [done|].
  destruct (in_flight (extra r) && is_some (get_row p h)); [|by apply runs_ret].
  apply runs_bind, (runs_look _ ""); [apply compose_looks|]. by apply runs_ret.
Qed.

(** ** The loops *)

Lemma texts_push N note p : texts_of N p ⊆ texts_of (push_notice note N) p.
Proof.
  unfold texts_of, push_notice. destruct note as [[q text]|]; [|done].
  destruct (decide (q = p)) as [->|Hne]; [rewrite lookup_insert_eq; simpl; set_solver|by rewrite lookup_insert_ne].
Qed.

Lemma text_pushed N p text : text ∈ texts_of (push_notice (Some (p, text)) N) p.
Proof. unfold texts_of. simpl. rewrite lookup_insert_eq. simpl. set_solver. Qed.

Lemma planned_push note N x : planned N x → planned (push_notice note N) x.
Proof.
  intros HJ sid r Hr. destruct (HJ sid r Hr) as [?|(Hi & Hg & He & Ht)]; [by left|right]. split_and!; [done..|].
  intros p Hp Hx. by apply texts_push, Ht.
Qed.

(** A child that stops is claimed and its parent told. *)
Lemma planned_claim N x r p :
  planned N x → get_row (row_id r) h = Some r → extra_at x (row_id r) = extra r →
  in_flight (extra r) = true → goes_on r = false → parent (extra r) = Some p →
  planned (push_notice (if is_some (get_row p h) then Some (p, stop_text r) else None) N) (claimed_at x r).
Proof.
  intros HJ Hr He Hi Hg Hp sid r' Hr'. unfold claimed_at. rewrite Hi.
  destruct (decide (row_id r = sid)) as [<-|Hne].
  - assert (r' = r) as -> by congruence. right. split_and!; [done|done|by rewrite extra_insert, decide_True|].
    intros q Hq [pr Hx]. assert (q = p) as -> by congruence. rewrite Hx. apply text_pushed.
  - destruct (HJ sid r' Hr') as [Hs|(Hi' & Hg' & He' & Ht)]; [left; by rewrite extra_insert, decide_False|right].
    pose proof (row_key _ _ Hr') as Hk. split_and!; [done|done|by rewrite extra_insert, decide_False by congruence|].
    intros q Hq Hx. by apply texts_push, Ht.
Qed.

Lemma in_flight_parent y : in_flight y = true → ∃ p, parent y = Some p.
Proof. unfold in_flight. destruct (parent y); [eauto|done]. Qed.

Lemma stamp_lands y : in_flight (stamp (Some (now_text f)) y) = false.
Proof. unfold in_flight. simpl. by rewrite andb_false_r. Qed.

(** The row of a session while the plan is made: as it was, or stamped. *)
Lemma planned_row N x sid r :
  planned N x → get_row sid h = Some r →
  get_row sid (at_ x) = Some r ∨
  get_row sid (at_ x) = Some (mkRow (session r) (stamp (Some (now_text f)) (extra r))) ∧ stamped x sid.
Proof.
  intros HJ Hr. pose proof (row_key _ _ Hr) as Hk. rewrite row_at, Hr. simpl. destruct (HJ sid r Hr) as [->|(_ & _ & He & _)].
  - left. by destruct r.
  - right. rewrite Hk in He. unfold stamped. by rewrite He.
Qed.

Definition seen (x : gmap string Extra) (plan : RestartPlan) (sid : string) : Prop :=
  ∀ r, get_row sid h = Some r →
    (verdict r = None → sid ∈ i_session <$> resume plan) ∧
    (in_flight (extra r) = true → goes_on r = false → stamped x sid).

Definition inv_interrupted (D : list string) (st : RestartPlan * gmap string (list string)) (s : Host) : Prop :=
  ∃ x, s = at_ x ∧ planned st.2 x ∧ Forall (seen x st.1) D.

Lemma seen_more x x' plan plan' sid :
  (∀ k, stamped x k → stamped x' k) → i_session <$> resume plan ⊆ i_session <$> resume plan' → seen x plan sid → seen x' plan' sid.
Proof. intros Hx Hp Hs r Hr. destruct (Hs r Hr) as [H2 H3]. split; auto. Qed.

Lemma runs_row sid s (Q : option Row → Host → Prop) : Q (get_row sid s) s → runs (read (GetSession sid)) s Q.
Proof.
  intros HQ. unfold read. apply runs_bind. exists (Ok (get_row sid s)), s. split; [|by apply runs_ret].
  unfold get, infallible, call, alone. simpl. unfold query. by rewrite Hf.
Qed.

Lemma forall_seen_snoc x x' plan plan' D sid :
  (∀ k, stamped x k → stamped x' k) → i_session <$> resume plan ⊆ i_session <$> resume plan' →
  Forall (seen x plan) D → seen x' plan' sid → Forall (seen x' plan') (D ++ [sid]).
Proof.
  intros Hx Hp HD Hs. apply Forall_app. split; [|by constructor]. eapply Forall_impl; [exact HD|]. intros k. by apply seen_more.
Qed.

(** The turn is continued. *)
Lemma resumed_seen x plan N D sid r seq :
  sid ∈ interrupted → get_row sid h = Some r → verdict r = None → planned N x → Forall (seen x plan) D →
  inv_interrupted (D ++ [sid]) (mkPlan (resume plan ++ [mkItem sid seq []]) (parent_notices plan) (skipped plan), N) (at_ x).
Proof.
  intros Hin Hr Hv HJ HD. exists x. split_and!; [done|done|]. pose proof (row_key _ _ Hr) as Hk.
  apply (forall_seen_snoc x _ plan); [done|simpl; rewrite fmap_app; set_solver|done|].
  intros r' Hr'. assert (r' = r) as -> by congruence. split.
  - intros _. simpl. rewrite fmap_app. set_solver.
  - intros _ Hg. unfold goes_on in Hg. by rewrite Hk, bool_decide_true, Hv in Hg.
Qed.

(** It is not. *)
Lemma skipped_seen x x' plan N D sid r entry :
  get_row sid h = Some r → is_Some (verdict r) → planned N x' → Forall (seen x plan) D →
  (∀ k, stamped x k → stamped x' k) → (in_flight (extra r) = true → stamped x' sid) →
  inv_interrupted (D ++ [sid]) (mkPlan (resume plan) (parent_notices plan) (skipped plan ++ [entry]), N) (at_ x').
Proof.
  intros Hr [reason Hv] HJ HD Hx Hs. exists x'. split_and!; [done|done|]. apply (forall_seen_snoc x _ plan); [done|done|done|].
  intros r' Hr'. assert (r' = r) as -> by congruence. split; [congruence|auto].
Qed.

Lemma step_interrupted D sid st s :
  sid ∈ interrupted → inv_interrupted D st s → runs (plan_interrupted st sid) s (inv_interrupted (D ++ [sid])).
Proof.
  intros Hin. destruct st as [plan N]. intros (x & -> & HJ & HD). cbn [fst snd] in *. unfold plan_interrupted.
  apply runs_bind, runs_row. destruct (get_row sid h) as [r|] eqn:Hr.
  2: { rewrite row_at, Hr. apply runs_ret. exists x. split_and!; [done|done|].
       apply (forall_seen_snoc x _ plan); [done|done|done|]. intros r Hr'. congruence. }
  pose proof (row_key _ _ Hr) as Hk.
  assert (∃ y, get_row sid (at_ x) = Some (mkRow (session r) y) ∧ verdict (mkRow (session r) y) = verdict r ∧
    ((y = extra r) ∨ in_flight y = false ∧ stamped x sid)) as (y & Hy & Hv & Hcase).
  { destruct (planned_row _ _ _ _ HJ Hr) as [Hy|[Hy Hs]]; rewrite Hy.
    - exists (extra r). destruct r. by auto.
    - eexists. split_and!; [done|done|right]. split; [apply stamp_lands|done]. }
  rewrite Hy. apply runs_bind, (runs_look _ None); [apply blocker_looks|]. fold (verdict (mkRow (session r) y)). rewrite Hv.
  destruct (verdict r) as [reason|] eqn:Er.
  - apply runs_bind. cbn [extra]. destruct (in_flight y) eqn:Ey.
    + destruct Hcase as [->|[? _]]; [|done]. assert (mkRow (session r) (extra r) = r) as Hrr by (by destruct r). rewrite Hrr in *.
      destruct (in_flight_parent _ Ey) as [p Hp]. eapply runs_notice; [by rewrite Hk|done|]. rewrite Ey. cbn [andb].
      assert (goes_on r = false) as Hg by (unfold goes_on; by rewrite Hk, bool_decide_true, Er).
      assert (stop_text r = cannot_resume_notice r reason) as Ht by (unfold stop_text; by rewrite Hk, bool_decide_true, Er).
      apply runs_ret, (skipped_seen x _ _ _ _ _ r); [done|by rewrite Er|rewrite <- Ht|done|unfold claimed_at; rewrite Ey..].
      * apply planned_claim; [done|by rewrite Hk| |done..]. rewrite row_at, Hr in Hy. rewrite Hk. by apply (f_equal (fmap extra)) in Hy as [= ?].
      * intros k. apply stamped_insert.
      * intros _. unfold stamped. by rewrite Hk, extra_insert, decide_True.
    + apply runs_ret, runs_ret, (skipped_seen x _ _ _ _ _ r); [done|by rewrite Er|done|done|done|].
      intros Hi. destruct Hcase as [->|[_ ?]]; [congruence|done].
  - apply runs_bind, (runs_look _ 0); [apply lifecycle_looks|]. apply runs_ret. by apply (resumed_seen _ _ _ _ _ r).
Qed.

(** A claim that comes too late. *)
Lemma runs_late x r r0 p (Q : bool → Host → Prop) :
  get_row (row_id r) (at_ x) = Some r0 → in_flight (extra r0) = false → Q false (at_ x) → runs (claim_child r p) (at_ x) Q.
Proof.
  intros Hr Hi HQ. unfold claim_child. apply runs_bind. exists (now_text f), (at_ x). split; [done|].
  apply runs_bind. exists (Ok false), (at_ x). split; [|by apply runs_ret].
  unfold get, infallible, call, alone. simpl. unfold update_extra. by rewrite Hf, Hr, Hi.
Qed.

Definition stop_note (c : Row) : P (option (string * string)) :=
  if negb (is_some (last_end c)) then claim_for_notice c "its first turn never started"
  else if (match last_end c ≫= parsed with Some d => crashed_data d | None => false end)
  then claim_for_notice c "its last turn crashed before the restart"
  else claim_and_compose c true None false.

Lemma runs_stop_note x c p (Q : option (string * string) → Host → Prop) :
  get_row (row_id c) (at_ x) = Some c → in_flight (extra c) = true → parent (extra c) = Some p → row_id c ∉ interrupted →
  Q (if is_some (get_row p h) then Some (p, stop_text c) else None) (at_ (claimed_at x c)) → runs (stop_note c) (at_ x) Q.
Proof.
  intros Hr Hi Hp Hn HQ. unfold stop_note, stop_text in *. rewrite bool_decide_false in HQ by done.
  destruct (last_end c) as [e|]; simpl in *; [unfold ended_badly in HQ; destruct (parsed e) as [d|]; simpl in *; [destruct (crashed_data d)|]|];
    (eapply runs_notice || eapply runs_finished); try done; by rewrite Hi.
Qed.

Lemma runs_stop_late x c r0 (Q : option (string * string) → Host → Prop) :
  get_row (row_id c) (at_ x) = Some r0 → in_flight (extra r0) = false → Q None (at_ x) → runs (stop_note c) (at_ x) Q.
Proof.
  intros Hr Hi HQ. unfold stop_note, claim_for_notice, claim_and_compose.
  repeat case_match; try (by apply runs_ret); apply runs_bind; eapply runs_late; try done; by apply runs_ret.
Qed.

Definition inv_unclaimed (x1 : gmap string Extra) (D : list Row) (N : gmap string (list string)) (s : Host) : Prop :=
  ∃ x, s = at_ x ∧ planned N x ∧ (∀ k, stamped x1 k → stamped x k) ∧
    Forall (λ c, row_id c ∉ interrupted → row_id c ∉ lost → stamped x (row_id c)) D.

Lemma elem_of_select keep s c : c ∈ select_rows keep s ↔ ∃ sid, get_row sid s = Some c ∧ keep (extra c) = true.
Proof.
  unfold select_rows, get_row. rewrite list_elem_of_fmap. split.
  - intros ([sid r] & -> & Hin%elem_of_map_to_list). apply map_lookup_filter_Some in Hin as [Hr Hk]. by exists sid.
  - intros (sid & Hr & Hk). exists (sid, c). split; [done|]. apply elem_of_map_to_list, map_lookup_filter_Some. by split.
Qed.

Lemma incomplete_row N x c : planned N x → c ∈ select_rows in_flight (at_ x) → get_row (row_id c) h = Some c ∧ in_flight (extra c) = true.
Proof.
  intros HJ (sid & Hc & Hi)%elem_of_select. split; [|done]. pose proof Hc as Hc'. rewrite row_at in Hc'.
  destruct (get_row sid h) as [r|] eqn:Hr; [|done]. pose proof (row_key _ _ Hr) as Hk.
  destruct (planned_row _ _ _ _ HJ Hr) as [E|[E _]]; rewrite E in Hc; injection Hc as <-; [by rewrite Hk|].
  simpl in Hi. by rewrite stamp_lands in Hi.
Qed.

Lemma step_unclaimed x1 D c N s :
  get_row (row_id c) h = Some c → in_flight (extra c) = true → inv_unclaimed x1 D N s →
  runs (plan_unclaimed (list_to_set interrupted) lost N c) s (inv_unclaimed x1 (D ++ [c])).
Proof.
  intros Hr Hi (x & -> & HJ & Hm & HD). unfold plan_unclaimed.
  destruct (bool_decide_reflect (row_id c ∈ (list_to_set interrupted : gset string))) as [Hin|Hin]; cbn [orb].
  { apply runs_ret. exists x. split_and!; [done..|]. apply Forall_app. split; [done|]. constructor; [set_solver|done]. }
  destruct (bool_decide_reflect (row_id c ∈ lost)) as [Hl|Hl].
  { apply runs_ret. exists x. split_and!; [done..|]. apply Forall_app. split; [done|]. by constructor. }
  rewrite elem_of_list_to_set in Hin.
  apply runs_bind, (runs_look _ None); [unfold read; looking|]. fold (last_end c). apply runs_bind.
  change (runs (stop_note c) (at_ x) (λ note s, runs (mret (push_notice note N)) s (inv_unclaimed x1 (D ++ [c])))).
  destruct (in_flight_parent _ Hi) as [p Hp].
  destruct (planned_row _ _ _ _ HJ Hr) as [E|[E Hs]].
  - apply (runs_stop_note x c p); [done..|]. apply runs_ret. exists (claimed_at x c).
    assert (goes_on c = false) as Hg by (unfold goes_on; by rewrite !bool_decide_false).
    assert (∀ k, stamped x k → stamped (claimed_at x c) k) as Hmono
      by (intros k; unfold claimed_at; rewrite Hi; apply stamped_insert).
    split_and!; [done|apply planned_claim; try done|by auto|].
    + rewrite row_at, Hr in E. by apply (f_equal (fmap extra)) in E as [= ?].
    + apply Forall_app. split; [eapply Forall_impl; [exact HD|]; simpl; by auto|]. constructor; [|done].
      intros _ _. unfold claimed_at, stamped. by rewrite Hi, extra_insert, decide_True.
  - eapply runs_stop_late; [exact E|apply stamp_lands|]. apply runs_ret. exists x. split_and!; [done|by apply (planned_push None)|done|].
    apply Forall_app. split; [done|]. by constructor.
Qed.

(** A text reaches a session: in the continuation it gets, or in a notice. *)
Definition in_item (l : list ResumeItem) (p text : string) : Prop := ∃ i, i ∈ l ∧ i_session i = p ∧ text ∈ i_notices i.
Definition told (plan : RestartPlan) (p text : string) : Prop :=
  in_item (resume plan) p text ∨
  ∃ n texts, n ∈ parent_notices plan ∧ n_parent n = p ∧ n_text n = String.concat (nl +:+ nl) texts ∧ text ∈ texts.

Lemma add_notices_ok p texts l l' :
  add_notices p texts l = Some l' →
  i_session <$> l' = i_session <$> l ∧ (∀ q t, in_item l q t → in_item l' q t) ∧ (∀ t, t ∈ texts → in_item l' p t).
Proof.
  revert l'. induction l as [|i l IH]; intros l'; simpl; [done|]. case_bool_decide as Hp.
  - intros [= <-]. split_and!; [done| |].
    + intros q t (j & [->|Hj]%elem_of_cons & Hq & Ht); [|exists j; set_solver].
      eexists. split; [by left|]. split; [done|]. simpl. set_solver.
    + intros t Ht. eexists. split; [by left|]. split; [done|]. simpl. set_solver.
  - destruct (add_notices p texts l) as [l1|]; [|done]. intros [= <-]. destruct (IH l1 eq_refl) as (Hs & Hm & Ht).
    split_and!; [by rewrite !fmap_cons, Hs| |].
    + intros q t (j & [->|Hj]%elem_of_cons & Hq & Hjt); [exists i; set_solver|].
      destruct (Hm q t) as (j' & Hj' & ?); [by exists j|]. exists j'. set_solver.
    + intros t Hin. destruct (Ht t Hin) as (j & Hj & ?). exists j. set_solver.
Qed.

Definition inv_parents (x : gmap string Extra) (sessions : list string) (D : list (string * list string)) (plan : RestartPlan) (s : Host) : Prop :=
  s = at_ x ∧ i_session <$> resume plan = sessions ∧
  Forall (λ e, is_Some (get_row e.1 h) → ∀ t, t ∈ e.2 → told plan e.1 t) D.

Lemma step_parent x sessions D entry plan s :
  inv_parents x sessions D plan s → runs (plan_parent plan entry) s (inv_parents x sessions (D ++ [entry])).
Proof.
  intros (-> & Hs & HD). destruct entry as [p texts]. unfold plan_parent.
  assert (∀ plan', i_session <$> resume plan' = sessions → (∀ q t, told plan q t → told plan' q t) →
    (is_Some (get_row p h) → ∀ t, t ∈ texts → told plan' p t) → inv_parents x sessions (D ++ [(p, texts)]) plan' (at_ x)) as Hnext.
  { intros plan' Hs' Hm Hp. split_and!; [done|done|]. apply Forall_app. split; [eapply Forall_impl; [exact HD|]; simpl; by auto|].
    by constructor. }
  destruct (add_notices p texts (resume plan)) as [items|] eqn:E.
  - apply add_notices_ok in E as (Hi & Hm & Ht). apply runs_ret, Hnext; [simpl; congruence| |by left; auto].
    intros q t [?|?]; [left; simpl; auto|by right].
  - apply runs_bind, runs_row. rewrite row_at. destruct (get_row p h) as [r|]; cbn [fmap option_fmap option_map].
    + apply runs_bind, (runs_look _ None); [apply blocked_looks|]. apply runs_ret, Hnext; [done| |].
      * intros q t [?|(n & ts & Hn & ?)]; [by left|right]. exists n, ts. simpl. set_solver.
      * intros _ t Ht. right. eexists _, texts. simpl. split; [apply elem_of_app; right; by left|done].
    + apply runs_ret, Hnext; [done|done|]. by intros [? ?].
Qed.

(** After the two loops no child that stops is left in flight. *)
Lemma all_settled plan N1 x1 x2 sid r :
  planned N1 x1 → Forall (seen x1 plan) interrupted → (∀ k, stamped x1 k → stamped x2 k) →
  Forall (λ c, row_id c ∉ interrupted → row_id c ∉ lost → stamped x2 (row_id c)) (select_rows in_flight (at_ x1)) →
  get_row sid h = Some r → in_flight (extra r) = true → goes_on r = false → stamped x2 sid.
Proof.
  intros HJ Hseen Hm Hcs Hr Hi Hg. pose proof (row_key _ _ Hr) as Hk. rewrite Forall_forall in Hseen. rewrite Forall_forall in Hcs.
  unfold goes_on in Hg. rewrite Hk in Hg. case_bool_decide as Hin.
  - apply Hm. eapply (Hseen sid Hin); [done|done|]. unfold goes_on. rewrite Hk. by rewrite bool_decide_true.
  - apply bool_decide_eq_false in Hg. destruct (planned_row _ _ _ _ HJ Hr) as [E|[_ ?]]; [|by apply Hm].
    rewrite <- Hk. apply Hcs; [|by rewrite Hk..]. apply elem_of_select. by exists sid.
Qed.

Lemma runs_plan :
  runs (plan interrupted lost) h (λ plan s, ∃ x, s = at_ x ∧
    (∀ sid r, get_row sid h = Some r →
      (extra_at x sid = extra r ∧ (in_flight (extra r) = true → goes_on r = true)) ∨
      (in_flight (extra r) = true ∧ goes_on r = false ∧ extra_at x sid = stamp (Some (now_text f)) (extra r) ∧
        ∀ p, parent (extra r) = Some p → is_Some (get_row p h) → told plan p (stop_text r))) ∧
    (∀ sid r, sid ∈ interrupted → get_row sid h = Some r → verdict r = None → sid ∈ i_session <$> resume plan)).
Proof.
  unfold plan. apply runs_bind. eapply runs_mono; [|apply (runs_fold _ inv_interrupted)].
  2: { intros D sid a s. apply step_interrupted. }
  2: { exists (extras h). split_and!; [by destruct h| |done]. intros sid r Hr. left. unfold get_row in Hr. rewrite lookup_rows in Hr.
       destruct (Store.sessions (db h) !! sid); [|done]. by injection Hr as <-. }
  intros [plan1 N1] s1 (x1 & -> & HJ1 & Hseen). cbn [fst snd] in *.
  apply runs_bind. exists (Ok (select_rows in_flight (at_ x1))), (at_ x1). split.
  { unfold get, infallible, call, alone. simpl. unfold query. by rewrite Hf. }
  apply runs_bind. eapply runs_mono; [|apply (runs_fold _ (inv_unclaimed x1))].
  2: { intros D c N s Hc. destruct (incomplete_row _ _ _ HJ1 Hc). by apply step_unclaimed. }
  2: { by exists x1. }
  intros N2 s2 (x2 & -> & HJ2 & Hmono & Hcs).
  eapply runs_mono; [|apply (runs_fold _ (inv_parents x2 (i_session <$> resume plan1)))].
  2: { intros D e p s _. apply step_parent. }
  2: { by split_and!. }
  intros plan2 s3 (-> & Hsess & Hall). exists x2. split_and!; [done| |].
  - intros sid r Hr. destruct (HJ2 sid r Hr) as [He|(Hi & Hg & He & Ht)].
    + left. split; [done|]. intros Hi. apply not_false_is_true. intros Hg.
      pose proof (all_settled _ _ _ _ _ _ HJ1 Hseen Hmono Hcs Hr Hi Hg) as Hst. unfold stamped in Hst. rewrite He in Hst.
      unfold in_flight in Hi. rewrite Hst in Hi. by rewrite andb_false_r in Hi.
    + right. rewrite (row_key _ _ Hr) in He. split_and!; [done..|]. intros p Hp Hx. specialize (Ht p Hp Hx).
      unfold texts_of in Ht. destruct (N2 !! p) as [texts|] eqn:EN; [|by apply elem_of_nil in Ht].
      rewrite Forall_forall in Hall. by apply (Hall (p, texts)); [apply elem_of_map_to_list| |].
  - intros sid r Hin Hr Hv. rewrite Hsess. rewrite Forall_forall in Hseen. by eapply Hseen.
Qed.
End plan.

(** C18: run without a fault, the plan of a restart ends, whatever was
    interrupted or lost, and accounts for every session. A session that is not a
    child in flight keeps its row. A child in flight that was interrupted keeps
    its row if nothing speaks against resuming it, and is stamped otherwise,
    also when a lost task of it will wake it ([lost_task_child_stopped]). A
    child in flight that was not interrupted keeps its row if it owns a lost
    task, and is stamped otherwise. What happened to a child that is stamped is
    in the continuation or the notice of its parent, if the parent exists. Every
    interrupted session with nothing against it is resumed. *)
Theorem plan_accounts `{Store.World, JsonApi} f h interrupted lost :
  fault f = None → keyed (db h) →
  ∃ plan h', alone exec 0 f (Restarts.plan interrupted lost) h = Some (Ok plan, h') ∧
    db h' = db h ∧
    (∀ sid r, get_row sid h = Some r →
      if in_flight (extra r) && negb (goes_on f h interrupted lost r)
      then get_row sid h' = Some (mkRow (session r) (stamp (Some (now_text f)) (extra r))) ∧
        ∀ p, parent (extra r) = Some p → is_Some (get_row p h) → told plan p (stop_text f h interrupted r)
      else get_row sid h' = Some r) ∧
    (∀ sid r, sid ∈ interrupted → get_row sid h = Some r → verdict f h r = None → sid ∈ i_session <$> resume plan).
Proof.
  intros Hf Hk. destruct (runs_plan f Hf h interrupted lost Hk) as (plan & s & Hp & x & -> & Hrows & Hres).
  exists plan, (set_extras x h). split_and!; [done|done| |done]. intros sid r Hr. rewrite row_at, Hr. simpl.
  destruct (Hrows sid r Hr) as [[-> Hg]|(Hi & Hg & He & Ht)].
  - destruct (in_flight (extra r)); [rewrite Hg by done|]; by destruct r.
  - rewrite Hi, Hg. simpl. split; [by rewrite He|done].
Qed.
End RestartProps.
