(* ===== verification/SubagentDone.v ===== *)
(** * The report of a finished child

    Run without a fault, the end of a turn of a child in flight reports it at once,
    unless work is still pending, and an authentication failure after the grace
    period unless the child has started again ([done_reports]). *)

From S2P Require Import Prelude RustStr Json Pipeline Store StoreProps Dispatch Programs Turns Resume Subagents Restarts SubagentProps SubagentReports RestartProps.

Module SubagentDone.
Export RestartProps.RestartProps.

Section done.
Context `{Store.World, JsonApi} (f : Fate) (Hf : fault f = None) (h : Host) (Hkey : keyed (db h)).
Context (c p : string) (r : Row) (Hr : get_row c h = Some r) (Hi : in_flight (extra r) = true) (Hp : parent (extra r) = Some p).

(** A message waits, or the child still has tasks after a turn that went well. *)
Definition pending (completed : bool) : bool :=
  is_some (Store.next_queued_message c (db h)) || completed && tasks f c.

(** The child stamped and the report in the log of its parent. *)
Definition told_parent (text : string) : Host :=
  set_db (Store.append_event p "user" (json_object [("text", Some text); ("source", Some "subagent-result")]) (db h)).2
    (set_extras (<[c := stamp (Some (now_text f)) (extra r)]> (extras h)) h).

Lemma runs_stmt_user sid text s (Q : unit → Host → Prop) :
  Q tt (set_db (Store.append_event sid "user" (json_object [("text", Some text); ("source", Some "subagent-result")]) (db s)).2 s) →
  runs f (deliver_to_parent sid text) s Q.
Proof.
  intros HQ. unfold deliver_to_parent, notify_session, ignore, runs.
  eexists tt, _. split; [|exact HQ]. unfold infallible, get, infallible, call, alone, mbind, h_bind. simpl. unfold stmt. rewrite Hf.
  by destruct (Store.append_event _ _ _ _) as [[e|e] d].
Qed.

(** Without a crash the flag of the authentication failure is not looked at. *)
Lemma done_flag (completed auth_failed : bool) error :
  completed || negb auth_failed = true →
  handle_subagent_done r completed auth_failed error = handle_subagent_done r completed false error.
Proof. by destruct completed, auth_failed. Qed.

Lemma runs_at_once (completed : bool) error :
  pending completed = false →
  runs f (handle_subagent_done r completed false error) h (λ _ s, s =
    (if is_some (get_row p h) then told_parent (value f h (compose r completed error) "")
     else set_extras (<[c := stamp (Some (now_text f)) (extra r)]> (extras h)) h)).
Proof.
  intros Hpend. unfold pending in Hpend. apply orb_false_iff in Hpend as [Hq Ht].
  pose proof (row_key h Hkey _ _ Hr) as Hk. unfold handle_subagent_done. rewrite andb_false_r. rewrite Hk.
  apply runs_bind. exists (Ok (Store.next_queued_message c (db h))), h. split.
  { unfold get, infallible, call, alone. simpl. unfold query. by rewrite Hf. }
  destruct (Store.next_queued_message c (db h)); [done|]. rewrite andb_false_r.
  apply runs_bind. exists tt, h. split; [by destruct completed|]. apply runs_bind.
  exists (if completed then tasks f c else false), h. split; [by destruct completed|].
  assert (completed && ((if completed then tasks f c else false) || false) = false) as -> by (destruct completed; [by rewrite orb_false_r|done]).
  apply runs_bind. unfold claim_and_compose. rewrite Hp, andb_false_r. apply runs_bind.
  assert (h = set_extras (extras h) h) as Hh by (by destruct h).
  rewrite Hh at 1. apply (runs_claim f Hf h); [by rewrite <- Hh, Hk|].
  unfold claimed_at. rewrite Hi, Hk. simpl. destruct (is_some (get_row p h)); [|by do 2 apply runs_ret].
  apply runs_bind, (runs_look f Hf h _ ""); [apply compose_looks|]. apply runs_ret. by apply runs_stmt_user.
Qed.

Lemma runs_later (completed : bool) error :
  pending completed = true → runs f (handle_subagent_done r completed false error) h (λ _ s, s = h).
Proof.
  unfold pending. intros Hpend. pose proof (row_key h Hkey _ _ Hr) as Hk. unfold handle_subagent_done. rewrite andb_false_r, Hk.
  apply runs_bind. exists (Ok (Store.next_queued_message c (db h))), h. split.
  { unfold get, infallible, call, alone. simpl. unfold query. by rewrite Hf. }
  destruct completed; cbn [negb andb].
  - apply runs_bind, runs_ret, runs_bind. exists (tasks f c), h. split; [done|].
    unfold claim_and_compose. rewrite Hp. destruct (Store.next_queued_message c (db h)); simpl in *; rewrite ?orb_true_r, ?orb_false_r.
    + by apply runs_bind, runs_ret, runs_ret.
    + rewrite Hpend. by apply runs_bind, runs_ret, runs_ret.
  - destruct (Store.next_queued_message c (db h)); simpl in *; [by apply runs_ret|done].
Qed.

(** The last start of the child, by which an authentication failure knows a retry. *)
Definition last_start : option Z := ev_seq <$> Store.latest_event_of_kinds c ["agent-start"] (db h).

(** The same, with the child remembered as reported for an authentication failure. *)
Definition told_auth_crash (text : string) : Host :=
  set_db (Store.append_event p "user" (json_object [("text", Some text); ("source", Some "subagent-result")]) (db h)).2
    (set_reported ({[c]} ∪ reported h) (set_extras (<[c := stamp (Some (now_text f)) (extra r)]> (extras h)) h)).

Lemma runs_baseline (Q : option Z → Host → Prop) : Q last_start h → runs f (auth_failure_baseline c) h Q.
Proof.
  intros HQ. unfold auth_failure_baseline. apply runs_bind. unfold read. apply runs_bind.
  eexists (Ok _), h. split; [unfold get, infallible, call, alone; simpl; unfold query; by rewrite Hf|].
  by apply runs_ret, runs_ret.
Qed.

Lemma runs_grace_over baseline error :
  runs f (auth_grace_over c baseline error) h (λ _ s, s =
    if later_start last_start baseline then h
    else if is_some (get_row p h) then told_auth_crash (value f h (compose r false error) "")
    else set_extras (<[c := stamp (Some (now_text f)) (extra r)]> (extras h)) h).
Proof.
  pose proof (row_key h Hkey _ _ Hr) as Hk. unfold auth_grace_over. apply runs_bind, (runs_row f Hf). rewrite Hr.
  unfold claim_after_auth_grace. rewrite Hk. apply runs_bind, runs_bind, runs_baseline.
  destruct (later_start last_start baseline); [by do 2 apply runs_ret|].
  unfold claim_and_compose. rewrite Hp. cbn [andb]. apply runs_bind.
  assert (h = set_extras (extras h) h) as Hh by (by destruct h).
  rewrite Hh at 1. apply (runs_claim f Hf h); [by rewrite <- Hh, Hk|].
  unfold claimed_at. rewrite Hi, Hk. cbn [andb]. destruct (is_some (get_row p h)); [|by do 2 apply runs_ret].
  apply runs_bind, (runs_look f Hf h _ ""); [apply compose_looks|]. apply runs_ret.
  apply runs_bind. eexists tt, _. split; [done|]. apply runs_bind. eexists tt, _. split; [done|].
  by apply runs_stmt_user.
Qed.
End done.

(** C17: run without a fault, the end of a turn of a child in flight, other than an authentication failure, changes
    nothing while a message waits for the child or, when the turn went well, a task of it runs on; otherwise (a crashed
    turn has its tasks stopped and does not wait for them) it stamps the child and, if its parent exists, appends the
    report to the log of the parent: the final reply after a turn that went well, the crash report after one that did
    not.  A turn that ended with an authentication failure notes the last start of the child; when the grace period is
    over, whatever the state by then, nothing changes if the child has started again since, and otherwise it is stamped
    and, if its parent exists, remembered for a later release and its crash reported, queued messages or not. *)
Theorem done_reports `{Store.World, JsonApi} f h c p r completed auth_failed baseline error :
  fault f = None → keyed (db h) →
  get_row c h = Some r → Store.s_is_worker (session r) = false → in_flight (extra r) = true → parent (extra r) = Some p →
  (completed || negb auth_failed = true →
   alone exec 0 f (turn_done c completed auth_failed error) h = Some (Ok tt,
    if pending f h c completed then h
    else if is_some (get_row p h) then told_parent f h c p r (value f h (compose r completed error) "")
    else set_extras (<[c := stamp (Some (now_text f)) (extra r)]> (extras h)) h)) ∧
  alone exec 0 f (turn_done c false true error) h = alone exec 0 f (auth_grace_over c (last_start h c) error) h ∧
  alone exec 0 f (auth_grace_over c baseline error) h = Some (Ok tt,
    if later_start (last_start h c) baseline then h
    else if is_some (get_row p h) then told_auth_crash f h c p r (value f h (compose r false error) "")
    else set_extras (<[c := stamp (Some (now_text f)) (extra r)]> (extras h)) h).
Proof.
  intros Hf Hk Hr Hw Hi Hp. pose proof (row_key h Hk _ _ Hr) as Hc. split_and!.
  - intros Ha. assert (runs f (turn_done c completed auth_failed error) h (λ _ s, s =
      if pending f h c completed then h
      else if is_some (get_row p h) then told_parent f h c p r (value f h (compose r completed error) "")
      else set_extras (<[c := stamp (Some (now_text f)) (extra r)]> (extras h)) h)) as ([] & s & -> & ->); [|done].
    unfold turn_done. apply runs_bind, (runs_row f Hf). rewrite Hr, Hw, Hp. cbn [negb is_some andb].
    rewrite (done_flag r completed auth_failed error Ha).
    destruct (pending f h c completed) eqn:E; [by apply (runs_later f Hf h Hk c p r)|by apply (runs_at_once f Hf h Hk c p r)].
  - assert (alone exec 0 f (read (GetSession c)) h = Some (Ok (Some r), h)) as Hrow.
    { destruct (runs_row f Hf c h (λ a s, a = Some r ∧ s = h)) as (a & s & -> & -> & ->); done. }
    unfold turn_done. rewrite alone_h_bind, Hrow, some_bind, Hw, Hp. cbn [negb is_some andb]. unfold handle_subagent_done, defer_auth_crash.
    cbn [negb andb]. rewrite Hc, alone_h_bind.
    destruct (runs_baseline f Hf h c (λ a s, a = last_start h c ∧ s = h)) as (a & s & -> & -> & ->); done.
  - destruct (runs_grace_over f Hf h Hk c p r Hr Hi Hp baseline error) as ([] & s & -> & ->). done.
Qed.
End SubagentDone.
