(* ===== verification/SubagentDemo.v ===== *)
(** * Subagents on concrete sessions

    The witnesses of the theorems, a child armed again beyond the cap, a
    follow-up whose result is dropped, and a child reported as stopped that a lost
    task wakes. *)

From S2P Require Import Prelude RustStr Json Workflow Pipeline Store StoreProps Dispatch Programs Turns Resume Subagents Restarts SubagentProps SubagentReports RestartProps SubagentDone.

Module SubagentDemo.
Export SubagentDone.SubagentDone.

#[local] Existing Instance StoreProps.ex_world.

(** [obj_json] with a text for the setting of a limit of one child. *)
Definition one_json : JsonApi := {|
  Json := ObjJson.V;
  json_from_str s := if s == "one" then Some (ObjJson.Map [("max_concurrent", ObjJson.Num "1")]) else ObjJson.parse s;
  json_null := json_null (JsonApi := obj_json);
  json_get := json_get (JsonApi := obj_json);
  json_as_str := json_as_str (JsonApi := obj_json);
  json_as_array := json_as_array (JsonApi := obj_json);
  json_as_number := json_as_number (JsonApi := obj_json);
  json_object := ObjJson.print;
  json_empty_array := json_empty_array (JsonApi := obj_json) |}.
#[local] Existing Instance one_json.

Definition plain (sid : string) : Store.Session := Store.mkSession sid false None None None None None None None None.
(** Session [p], without children; the same with the child [c1] in flight. *)
Definition childless_host : Host :=
  mkHost (Store.set_sessions (<["p" := plain "p"]>) StoreProps.empty_db) {["p" := mkExtra "chat" None None None None]} ∅ None ∅.
Definition child_extra : Extra := mkExtra "sub: scout" (Some "p") None (Some "subagent") None.
Definition child : Row := mkRow (plain "c1") child_extra.
Definition child_host : Host :=
  mkHost (Store.set_sessions (<["c1" := plain "c1"]>) (db childless_host)) (<["c1" := child_extra]> (extras childless_host)) ∅ None ∅.

(** Nothing fails; the limit is one child; a new child is called [id]. *)
Definition calm (id : string) : Fate := mkFate None "now" 0 (Some "one") id (λ _, true) (λ _, false) (λ _, false) (Ok tt).

Definition task : SpawnArgs := mkSpawnArgs (Some "map the repo") (Some "scout") None None.

Definition serve (n : nat) (id : string) (q : Request) : list (Action Request unit Fate) :=
  Spawn q tt :: replicate 30 (Run n (calm id)).

Definition limited_ok (M : Z) (tr : list (nat * Event Op)) : bool :=
  forallb (λ x, match x.2 with
    | @Ev _ _ o b => match o in Op B return B → bool with
        | LimitsSetting => λ raw, max_concurrent (limits_of raw) <=? M | _ => λ _, true end b end) tr.

Lemma limited_ok_sound M tr : limited_ok M tr = true → limited M tr.
Proof.
  unfold limited_ok. rewrite List.forallb_forall. intros Hall t raw Hin. apply list_elem_of_In, Hall in Hin. simpl in Hin. lia.
Qed.

(** Two calls of the tool, the second while the first counts. *)
Definition two_spawns : list (Action Request unit Fate) :=
  Spawn (SpawnSubagent "p" task) tt :: Spawn (SpawnSubagent "p" task) tt ::
  replicate 6 (Run 0 (calm "c1")) ++ replicate 6 (Run 1 (calm "c2")) ++
  replicate 30 (Run 0 (calm "c1")) ++ replicate 30 (Run 1 (calm "c2")).

Lemma two_spawns_one_child :
  count_active "p" (server (run_server childless_host two_spawns)) = 1 ∧
  is_Some (get_row "c1" (server (run_server childless_host two_spawns))).
Proof. vm_compute. split; [reflexivity|by eexists]. Qed.

Lemma two_spawns_limited : limited 1 (trace (run_server childless_host two_spawns)).
Proof. apply limited_ok_sound. vm_compute. reflexivity. Qed.

Lemma cap_kept_witness : count_active "p" (server (run_server childless_host two_spawns)) ≤ 1.
Proof.
  pose proof (cap_kept "p" childless_host 1 two_spawns two_spawns_limited) as Hc. cbn zeta in Hc.
  assert (rearmed_active "p" (run_server childless_host two_spawns) = 0) as Hr by (vm_compute; reflexivity).
  assert (count_active "p" childless_host = 0) as Ha by (vm_compute; reflexivity).
  rewrite Hr, Ha in Hc. exact Hc.
Defined.

(** ** One child *)

Lemma child_keyed : keyed (db child_host).
Proof. apply (bool_decide_unpack (map_Forall (λ k s, Store.s_id s = k) (Store.sessions (db child_host)))). vm_compute. done. Qed.

(** Its turn ends twice; it is reported once. *)
Definition twice : list (Action Request unit Fate) :=
  Spawn (TurnDone "c1" true false None) tt :: Spawn (TurnDone "c1" true false None) tt ::
  replicate 4 (Run 0 (calm "")) ++ replicate 30 (Run 1 (calm "")) ++ replicate 30 (Run 0 (calm "")).

Lemma reports_bounded_witness :
  reports "c1" (run_server child_host twice) = 1%nat ∧ (reports "c1" (run_server child_host twice) ≤ 1)%nat.
Proof.
  split; [vm_compute; reflexivity|].
  destruct (reports_bounded "c1" child_host twice child_keyed) as [Hr _]. etrans; [exact Hr|]. vm_compute. constructor.
Defined.

(** A finished turn, and one that ended with an authentication failure and was not tried again. *)
Lemma done_reports_witness :
  (∃ h', alone exec 0 (calm "") (turn_done "c1" true false None) child_host = Some (Ok tt, h') ∧
     count_active "p" h' = 0 ∧ (ev_session_id <$> Store.events (db h')) = ["p"] ∧ reported h' = ∅) ∧
  (∃ h', alone exec 0 (calm "") (turn_done "c1" false true None) child_host = Some (Ok tt, h') ∧
     count_active "p" h' = 0 ∧ (ev_session_id <$> Store.events (db h')) = ["p"] ∧ reported h' = {["c1"]}).
Proof.
  destruct (done_reports (calm "") child_host "c1" "p" child true false (last_start child_host "c1") None
    eq_refl child_keyed) as (Hdone & Hauth & Hgrace); [vm_compute; reflexivity..|].
  split.
  - eexists. split; [by apply Hdone|]. vm_compute. split_and!; reflexivity.
  - eexists. split; [rewrite Hauth; exact Hgrace|]. vm_compute. split_and!; reflexivity.
Defined.

(** At a restart it has not started yet. *)
Lemma plan_accounts_witness :
  ∃ plan h', alone exec 0 (calm "") (Restarts.plan [] ∅) child_host = Some (Ok plan, h') ∧
    get_row "c1" h' = Some (mkRow (plain "c1") (stamp (Some "now") child_extra)) ∧
    told plan "p" (cannot_resume_notice child "its first turn never started").
Proof.
  destruct (plan_accounts (calm "") child_host [] ∅ eq_refl child_keyed) as (plan & h' & Hrun & _ & Hrows & _).
  specialize (Hrows "c1" child ltac:(vm_compute; reflexivity)).
  assert (in_flight (extra child) && negb (goes_on (calm "") child_host [] ∅ child) = true) as Hc by (vm_compute; reflexivity).
  assert (stop_text (calm "") child_host [] child = cannot_resume_notice child "its first turn never started") as Ht by (vm_compute; reflexivity).
  rewrite Hc in Hrows. destruct Hrows as [Hrow Htold]. exists plan, h'. split; [exact Hrun|]. split; [exact Hrow|].
  rewrite <- Ht. apply Htold; [reflexivity|]. vm_compute. eexists. reflexivity.
Defined.

(** ** Flaws *)

(** The limit is one child; a follow-up to a finished child is not counted against
    it, and two are in flight. *)
Lemma rearm_exceeds_cap :
  let w := run_server childless_host
    (serve 0 "c1" (SpawnSubagent "p" task) ++ serve 1 "" (TurnDone "c1" true false None) ++
     serve 2 "c2" (SpawnSubagent "p" task) ++ serve 3 "" (FollowUp "c1" "one more thing")) in
  limited_ok 1 (trace w) = true ∧ count_active "p" (server w) = 2.
Proof. vm_compute. split; reflexivity. Qed.

(** A follow-up arrives while the end of the turn before is handled: it finds no
    stamp to clear, waits for the session, and its own result is not reported. *)
Definition raced_follow_up : list (Action Request unit Fate) :=
  Spawn (TurnDone "c1" true false None) tt :: Run 0 (calm "") ::
  Spawn (FollowUp "c1" "one more thing") tt :: Run 1 (calm "") ::
  replicate 30 (Run 0 (calm "")) ++ replicate 30 (Run 1 (calm "")) ++ serve 2 "" (TurnDone "c1" true false None).

Lemma follow_up_dropped :
  let w := run_server child_host raced_follow_up in
  (∀ t, (t < 3)%nat → ∃ th, threads w !! t = Some th ∧ prog th = Ret (Ok tt)) ∧
  reports "c1" w = 1%nat ∧ is_Some (get_row "c1" (server w) ≫= λ r, completed_at (extra r)).
Proof.
  vm_compute. split_and!; [|reflexivity|by eexists]. intros t Ht. do 3 (destruct t as [|t]; [eexists; split; reflexivity|]). lia.
Qed.

(** A child that was interrupted and had a task is reported as stopped, although
    the report of the lost task wakes it. *)
Lemma lost_task_child_stopped :
  goes_on (calm "") child_host [] {["c1"]} child = true ∧ goes_on (calm "") child_host ["c1"] {["c1"]} child = false.
Proof. vm_compute. split; reflexivity. Qed.
End SubagentDemo.
